(* ===== verification/_CoqProject ===== *)
-Q . S2P
Prelude.v
CInt.v
CString.v
Base64.v
CSearch.v
BlockStream.v
XXHash.v
SipHash.v
Blake2b.v
SortedArray.v
Ring.v
JumpHash.v
Galois.v
Erasure.v
Layout.v
Endpoint.v
GroupCommit.v
Throttle.v
DiskIO.v
Json.v
Format.v
Topology.v
TopologyEndpoints.v
TopologyQuorum.v
TopologyManager.v
Placement.v
LinkedList.v
HashLru.v
HashLruRep.v
XlMeta.v
Registry.v
RegistryCache.v
RegistryStore.v
Chunk.v
MultiDisk.v
Peers.v
ParallelChunks.v
Replication.v
ConnCache.v
ConnPool.v
UrlCode.v
Router.v
HttpWire.v
Transport.v
ConnRequest.v
HttpServer.v
S3Path.v
S3Stream.v
Credentials.v
S3Auth.v
S3Xml.v
S3Handler.v
Rpc.v
StorageRpc.v
Listing.v
BatchTransport.v
Object.v
MetadataCache.v
MetadataCacheLru.v
TaskQueue.v
WorkerPool.v
Scanner.v
Orchestrator.v
Migration.v
