(* ===== verification/Prelude.v ===== *)
(** * Buckets: a verification development

    Buckets is an S3-compatible object store written in C. A cluster is a set of nodes
    with disks; the disks form erasure sets, the sets form pools, and the topology says
    which set is in which state. An object belongs to the set that consistent hashing
    gives for its key; when the topology changes, a migration job scans the disks for the
    objects that have to move and a pool of worker threads moves them, slowed down by a
    throttle. Metadata is cached, writes are committed in groups, and everything that must
    survive a crash is written to a temporary file and renamed. Nodes call each other over
    HTTP and JSON RPC on pooled connections. Clients sign their requests with the key they
    were given; an object that is uploaded is stored while it arrives.

    ** Conventions

    - A [u8], [u32], [u64] or [size_t] is a [Z] with the wrap-around written out
      ([u32], [u64] of CInt.v); signed arithmetic that may overflow is checked and gives
      [Undef] ([i64c], [i32c]). Arrays with their count are lists; where the index can leave
      the array the access is a [c_read] and gives [Undef]. [Undef] of [c_result] stands for
      any undefined behaviour: out of bounds, overflow, division by zero, a freed pointer.
    - A pointer argument that the code compares with [NULL] is an [option]; an output
      parameter is part of the result; a global variable is a record that the operations
      take and return. [buckets_malloc] aborts the program when memory is short, so the
      branches behind a [NULL] from it are unreachable and not modelled. Functions that only
      release memory are not modelled, except where freeing is what a property is about
      (the metadata cache has an explicit heap).
    - System calls, clocks, random numbers and libraries outside the repository (cJSON,
      OpenSSL, libuuid, ISA-L) are arguments. What the code relies on is a class or a
      hypothesis with the documented behaviour, and each theorem that uses one has a
      witness with a concrete instance.
    - Logging has no effect on the model. A section of code under one lock is one step;
      a wait on a condition variable is an operation that is not enabled; code that drops
      its lock is several steps, and threads are interleaved in every order.
    - A loop without a structural measure takes fuel; a theorem says how much is enough
      (the jump hash: the number of buckets; the throttle: a number of rounds computed from
      the request; the wait of a job: a bound given by the pool).

    ** Files

    Foundations: Prelude.v (error codes, undefined behaviour, tactics, lists), CInt.v
    (machine integers, bytes, words), CString.v (bounded copies, decimal numbers),
    CSearch.v (searching and reading strings), LinkedList.v (linked structures seen
    as lists), SortedArray.v (qsort, bisection, the clockwise successor), BlockStream.v (the
    buffering discipline of incremental hashes).

    Hashes: XXHash.v (hash/xxhash.c), SipHash.v (hash/siphash.c), Blake2b.v
    (crypto/blake2b.c). The incremental interfaces are proved equal to one-pass
    references for every split of the input.

    Placement: Ring.v and JumpHash.v (hash/ring.c), Placement.v (placement/placement.c).
    A lookup returns the clockwise-nearest virtual node, and its reads are checked to be in
    bounds; changes of the ring or of the topology move only the objects that must move. The
    ring is that of the topology it was built from, which the program never renews: what a
    placement gives is stated for a ring and a current topology that differ.

    Cluster: DiskIO.v (cluster/disk_utils.c, cluster/atomic_io.c), Json.v
    (cluster/json_helpers.c), Format.v (cluster/format.c, cluster/uuid.c), Topology.v,
    TopologyEndpoints.v, TopologyQuorum.v (cluster/topology.c), TopologyManager.v
    (cluster/cache.c, cluster/topology_manager.c), Endpoint.v (cluster/endpoint.c). Atomic
    writes are all or nothing; what is saved is loaded back; a topology saved on a write
    quorum is what the next load returns (on an even number of disks); a change through the
    manager is all or nothing for the cache and the callback, and successful exactly when more
    than half of the disks took it (those that took a failed change keep it); endpoints print
    and parse back, and an argument with one range expands as written (the nested ranges that
    the header of the code promises are not expanded, Endpoint.v shows it).

    Storage on one node: Galois.v and Erasure.v (the field of 256 elements and
    erasure/erasure.c), Layout.v (storage/layout.c), Base64.v (the codec of storage/object.c),
    XlMeta.v (storage/metadata.c), Chunk.v (storage/chunk.c: blocking, io_uring and group
    commit paths), GroupCommit.v (storage/group_commit.c), HashLru.v and
    HashLruRep.v (the hash table with an LRU list that two caches share, on a heap),
    MetadataCache.v and MetadataCacheLru.v (storage/metadata_cache.c), MultiDisk.v
    (storage/multidisk.c). An encoded object is decoded from any [k]
    chunks as long as the lost ones hold data, and a lost parity chunk makes the code read out
    of bounds; metadata survives its JSON form; a chunk whose write reported success is read
    back and, written through the group commit, leaves nothing unsynced on its descriptor;
    a write that is not on disk is pending, in flight, or one whose own sync failed when the
    table of descriptors was full, which the code does not report; a crash loses at most a
    batch; the pointer structure of the cache refines an LRU map with expiry, for a life time
    of at least a second (0 means the default of the code, not "no expiration"); healing
    writes the copy of the first disk, when a quorum agrees with it, to exactly the disks
    whose copy is missing or differs in size or time.

    Storage over nodes: Peers.v (what one node asks another, as a class), ParallelChunks.v
    (storage/parallel_chunks.c, parallel_chunks_batched.c: threads in every order),
    ConnCache.v, UrlCode.v, Transport.v (storage/binary_transport.c), BatchTransport.v
    (storage/batch_transport.c), HttpWire.v (responses on the wire, with the response
    functions of net/uv_server.c), Registry.v, RegistryCache.v and RegistryStore.v
    (registry/registry.c: records, their cache, and the operations over an object store),
    Replication.v (storage/async_replication.c: a queue and its workers in every order), and
    Object.v (storage/object.c), which composes placement, erasure code, chunks and
    metadata. An object that was written with success is read back although chunks with data
    were lost; writing succeeds when the system calls do; a chunk or batch sent over HTTP,
    in whatever pieces the socket takes and delivers it, and also when the response breaks
    off, is exactly a local write or read on the other node. Batches need a server on which
    [buckets_binary_transport_register] was called; it is modelled, but nothing in the
    program calls it. The chunks of an object are partitioned over the batches; a cached
    connection has one owner; the cache of the registry does not show in its answers; a
    queued object is replicated once.

    Calls between nodes: Router.v (net/router.c), ConnPool.v and ConnRequest.v
    (net/conn_pool.c: the pool with its interleaving, and a request on one connection),
    HttpServer.v (net/http_server_uv.c and the wrappers of s3/s3_streaming.c), Rpc.v
    (net/rpc.c), StorageRpc.v (storage/distributed_rpc.c, storage/distributed.c) and
    Listing.v (the functions of storage/distributed.c that ask all nodes). A call composes
    client, wire, server and handler: metadata written on another node is exactly a local
    write there, its caller is told the truth, and the connection goes back to the pool; a
    listing has every object once, of the nodes that answer.

    S3: S3Path.v (the names in a URL: s3/s3_handler.c, s3/s3_streaming.c), S3Stream.v
    (uploads in pieces: s3/s3_streaming.c), Credentials.v (s3/credentials.c), S3Auth.v
    (s3/s3_auth.c), S3Xml.v (s3/s3_xml.c) and S3Handler.v (s3/s3_handler.c). An upload is
    stored whole, however it is cut, under the bucket and key that its URL names in any
    encoding (under versioning: an upload without content type and metadata); both parsers
    of a URL agree; keys survive restarts; no operation of the handler runs without the
    signature of an enabled key, and a signature vouches for one request as far as it fits
    the buffers of the server. S3Auth.v has the canonical request of AWS (sorted and encoded
    parameters, trimmed values) beside that of the code, which does not bring a request into
    canonical form: a request that is signed as AWS describes and sent in canonical form is
    served. The handler of uploads asks for no signature, which the development shows too.

    Migration: Throttle.v (migration/throttle.c), TaskQueue.v and WorkerPool.v
    (migration/worker.c), Scanner.v (migration/scanner.c), Orchestrator.v
    (migration/orchestrator.c) over the interface [MigrationPool], and Migration.v, which
    gives that interface its implementation by the threads and composes scanner, pool and
    job. The throttle bounds the bandwidth; the queue is a bounded FIFO; a started pool
    processes every task once in a bounded number of steps; the scan gives one task for
    every copy of an object that moves, so several for an object with copies on several
    disks; a job follows its transition table, saves and restores its checkpoint, and a
    paused job has moved everything that was scanned.

    ** Interfaces

    [ISAL] and [ISALLaws] of Erasure.v are the calls of ISA-L and the linear algebra they
    promise (instance: a 2+1 code over the table-free field); [CJson] and [CJsonLaws] of
    Json.v are printing and parsing of trees within the depth and the numbers cJSON keeps;
    [HttpParser] and [HttpParserLaws] of Transport.v are llhttp on the requests that nodes
    send each other, which the law spells out (GET, PUT or POST, header names that are
    tokens, at most one Content-Length and no Transfer-Encoding; instance: a parser of
    lines); [Peers] of Peers.v is the cluster as a node sees it, [RegistryOps] of Object.v
    the location registry as objects use it and [ObjectStore] of RegistryStore.v the objects
    as the registry uses them; [Md5] and [UploadStore] of S3Stream.v are the digest and the
    store that an upload calls; [Crypto] and [CryptoLaws] of S3Auth.v are OpenSSL's hash
    functions and the lengths of what they give; [S3Ops] of S3Handler.v are the operations
    that the handler chooses from; [MigrationPool] of Orchestrator.v is the pool of workers
    as a job uses it, implemented in Migration.v.

    ** Not modelled

    The event loop of the HTTP server (callbacks of libuv and llhttp around sockets, TLS,
    worker processes; the choice of the handler and the responses are modelled), the
    operations of S3 behind the handler, multipart uploads and versions (s3/s3_ops.c,
    s3/s3_multipart.c, s3/s3_versioning.c, storage/versioning.c, storage/metadata_utils.c),
    the listing of the registry, the list of known peers and the thread that pings them, the
    submission ring of io_uring (its completion is an argument), configuration files and the
    server program; SHA-256 is a call of OpenSSL. Floating-point statistics are not modelled. *)

From Stdlib Require Export ZArith Lia Bool.
From stdpp Require Export base tactics option numbers list strings pretty gmap sorting.

#[global] Set Default Goal Selector "!".

Open Scope Z_scope.

(** ** Error codes of the library ([buckets_error_t], include/buckets.h) *)

Inductive buckets_error_t :=
  | BUCKETS_OK
  | BUCKETS_ERR_NOMEM
  | BUCKETS_ERR_INVALID_ARG
  | BUCKETS_ERR_NOT_FOUND
  | BUCKETS_ERR_EXISTS
  | BUCKETS_ERR_IO
  | BUCKETS_ERR_NETWORK
  | BUCKETS_ERR_TIMEOUT
  | BUCKETS_ERR_QUORUM
  | BUCKETS_ERR_CORRUPT
  | BUCKETS_ERR_UNSUPPORTED
  | BUCKETS_ERR_CRYPTO
  | BUCKETS_ERR_INIT
  | BUCKETS_ERR_RPC
  | BUCKETS_ERR_ACCESS_DENIED
  | BUCKETS_ERR_LIMIT
  | BUCKETS_ERR_INTERNAL.

#[export] Instance buckets_error_eq_dec : EqDecision buckets_error_t.
Proof. solve_decision. Defined.

(** ** Undefined behaviour

    Code that can leave the C abstract machine (an access out of the bounds of an
    array) returns a [c_result]: [Undef] marks the undefined behaviour. *)

Inductive c_result (A : Type) :=
  | Val (a : A)
  | Undef.
Arguments Val {A} _.
Arguments Undef {A}.

#[export] Instance Val_inj {A} : Inj (=) (=) (@Val A).
Proof. intros x y Hxy. congruence. Qed.

Definition c_bind {A B} (m : c_result A) (f : A → c_result B) : c_result B :=
  match m with Val a => f a | Undef => Undef end.

(** A read of [l[i]]. *)
Definition c_read {A} (l : list A) (i : nat) : c_result A :=
  match l !! i with Some a => Val a | None => Undef end.

Declare Scope c_scope.
Delimit Scope c_scope with c.
Notation "'let*' x := m 'in' k" := (c_bind m (λ x, k))
  (at level 200, x name, m at level 100, k at level 200) : c_scope.

Lemma c_read_Val {A} (l : list A) i a : c_read l i = Val a ↔ l !! i = Some a.
Proof. unfold c_read. destruct (l !! i); naive_solver. Qed.

(** ** Tactics *)

(** Turn every boolean comparison on [Z] or [nat] in sight into the
    proposition it decides. *)
Ltac breflect :=
  repeat match goal with
  | H : _ && _ = true |- _ => apply andb_true_iff in H; destruct H
  | H : _ || _ = false |- _ => apply orb_false_iff in H; destruct H
  | H : negb _ = true |- _ => apply negb_true_iff in H
  | H : negb _ = false |- _ => apply negb_false_iff in H
  | H : (_ <? _)%Z = true |- _ => apply Z.ltb_lt in H
  | H : (_ <? _)%Z = false |- _ => apply Z.ltb_ge in H
  | H : (_ <=? _)%Z = true |- _ => apply Z.leb_le in H
  | H : (_ <=? _)%Z = false |- _ => apply Z.leb_gt in H
  | H : (_ =? _)%Z = true |- _ => apply Z.eqb_eq in H
  | H : (_ =? _)%Z = false |- _ => apply Z.eqb_neq in H
  | H : (_ <? _)%nat = true |- _ => apply Nat.ltb_lt in H
  | H : (_ <? _)%nat = false |- _ => apply Nat.ltb_ge in H
  | H : (_ <=? _)%nat = true |- _ => apply Nat.leb_le in H
  | H : (_ <=? _)%nat = false |- _ => apply Nat.leb_gt in H
  | H : (_ =? _)%nat = true |- _ => apply Nat.eqb_eq in H
  | H : (_ =? _)%nat = false |- _ => apply Nat.eqb_neq in H
  end.

(** Split on the scrutinee of a conditional of the goal. *)
Ltac split_if :=
  match goal with
  | |- context [if ?b then _ else _] => destruct b eqn:?; breflect
  end.

(** ** Generic list lemmas *)

Section Lists.
Context {A : Type}.
Implicit Types (l k : list A) (i n : nat).

Lemma take_app_drop_split l k n :
  (n ≤ length l)%nat → take n (l ++ k) = take n l ∧ drop n (l ++ k) = drop n l ++ k.
Proof.
  intros. rewrite take_app_le, drop_app_le by lia. done.
Qed.

(** Overwriting [length k] positions of [l] from [i]: [memcpy(l + i, k, n)]. *)
Definition memcpy_at l i k : list A := take i l ++ k ++ drop (i + length k) l.

Lemma length_memcpy_at l i k :
  (i + length k ≤ length l)%nat → length (memcpy_at l i k) = length l.
Proof.
  intros. unfold memcpy_at. rewrite !length_app, length_take, length_drop. lia.
Qed.

Lemma take_memcpy_at l i k :
  (i ≤ length l)%nat → take (i + length k) (memcpy_at l i k) = take i l ++ k.
Proof.
  intros. unfold memcpy_at. rewrite app_assoc.
  rewrite take_app_length'; [done|]. rewrite length_app, length_take. lia.
Qed.

Lemma memcpy_at_full l i k :
  (i + length k = length l)%nat → memcpy_at l i k = take i l ++ k.
Proof.
  intros. unfold memcpy_at. rewrite (drop_ge l) by lia. by rewrite app_nil_r.
Qed.
End Lists.

Lemma list_filter_none {A} (P : A → Prop) `{!∀ x, Decision (P x)} (l : list A) :
  (∀ x, x ∈ l → ¬ P x) → filter P l = [].
Proof.
  induction l as [|x l IH]; intros Hl; [done|].
  rewrite filter_cons_False by (apply Hl; set_solver). apply IH. set_solver.
Qed.

Lemma list_filter_all {A} (P : A → Prop) `{!∀ x, Decision (P x)} (l : list A) :
  (∀ x, x ∈ l → P x) → filter P l = l.
Proof.
  induction l as [|x l IH]; intros Hl; [done|].
  rewrite filter_cons_True by (apply Hl; set_solver). f_equal. apply IH. set_solver.
Qed.

Lemma foldl_ext {A B} (f g : A → B → A) a l :
  (∀ a b, f a b = g a b) → foldl f a l = foldl g a l.
Proof. intros H. revert a. induction l as [|b l IH]; intros a; simpl; [done|]. by rewrite H, IH. Qed.

Lemma list_fmap_fix {A} (f : A → A) (l : list A) : (∀ x, f x = x) → f <$> l = l.
Proof. intros Hf. induction l as [|x l IH]; csimpl; [done|]. by rewrite Hf, IH. Qed.

Lemma elem_of_concat {A} (x : A) (ll : list (list A)) :
  x ∈ concat ll ↔ ∃ l, l ∈ ll ∧ x ∈ l.
Proof.
  induction ll as [|l ll IH]; simpl; [set_solver|]. rewrite elem_of_app, IH. set_solver.
Qed.

Lemma list_fmap_concat {A B} (f : A → B) (ll : list (list A)) :
  fmap (M := list) f (concat ll) = concat (fmap (M := list) (fmap (M := list) f) ll).
Proof. induction ll as [|l ll IH]; csimpl; [done|]. by rewrite fmap_app, IH. Qed.

Lemma insert_split {A} (l : list A) i x :
  l !! i = Some x → ∃ l1 l2, l = l1 ++ x :: l2 ∧ ∀ y, <[i := y]> l = l1 ++ y :: l2.
Proof.
  intros Hi. exists (take i l), (drop (S i) l). split; [by rewrite take_drop_middle|].
  intros y. apply insert_take_drop. by eapply lookup_lt_Some.
Qed.

Lemma pair_fst_eq {A B} (r : A * B) a : r.1 = a → r = (a, r.2).
Proof. by destruct r; intros <-. Qed.

Create HintDb buckets.
Create Rewrite HintDb list_len.
#[export] Hint Rewrite @length_app @length_take @length_drop @length_insert
  @length_replicate @length_fmap : list_len.

(** Solve an arithmetic goal about list lengths. *)
Ltac len := autorewrite with list_len in *; simpl length in *; lia.
