(* ===== verification/CInt.v ===== *)
(** * Machine integers, bytes and little-endian words

    The fixed-width unsigned integers of include/buckets.h ([u8], [u32], [u64])
    are [Z] with the wrap-around written out; a byte buffer is a [list Z] whose
    elements are in range. *)

From S2P Require Import Prelude.

(** ** Wrap-around *)

Definition wrap (w z : Z) : Z := z mod 2 ^ w.
Definition u8 (z : Z) : Z := wrap 8 z.
Definition u32 (z : Z) : Z := wrap 32 z.
Definition u64 (z : Z) : Z := wrap 64 z.

Definition in_range (w z : Z) : Prop := 0 ≤ z < 2 ^ w.
Abbreviation is_u8 := (in_range 8).
Abbreviation is_u32 := (in_range 32).
Abbreviation is_u64 := (in_range 64).

(** Signed ranges. *)
Definition is_i32 (z : Z) : Prop := - 2 ^ 31 ≤ z < 2 ^ 31.
Definition is_i64 (z : Z) : Prop := - 2 ^ 63 ≤ z < 2 ^ 63.

(** Signed arithmetic: a result outside the type, and a division by zero, are
    undefined; division truncates towards zero. *)
Definition i32c (z : Z) : c_result Z :=
  if (- 2 ^ 31 <=? z) && (z <? 2 ^ 31) then Val z else Undef.
Definition i64c (z : Z) : c_result Z :=
  if (- 2 ^ 63 <=? z) && (z <? 2 ^ 63) then Val z else Undef.
Definition i64_div (a b : Z) : c_result Z :=
  if b =? 0 then Undef else i64c (Z.quot a b).

Definition add64 (a b : Z) : Z := u64 (a + b).
Definition sub64 (a b : Z) : Z := u64 (a - b).
Definition mul64 (a b : Z) : Z := u64 (a * b).
Definition xor64 (a b : Z) : Z := Z.lxor a b.
Definition shl64 (a r : Z) : Z := u64 (Z.shiftl a r).
Definition shr64 (a r : Z) : Z := Z.shiftr a r.

(** Wrapping 64-bit operators, with spellings of their own so that they read the
    same inside any numeric scope. *)
Declare Scope u64_scope.
Delimit Scope u64_scope with u64.
Notation "a +! b" := (add64 a b) (at level 50, left associativity) : u64_scope.
Notation "a -! b" := (sub64 a b) (at level 50, left associativity) : u64_scope.
Notation "a *! b" := (mul64 a b) (at level 40, left associativity) : u64_scope.
Notation "a ^! b" := (xor64 a b) (at level 30, right associativity) : u64_scope.

(** [#define ROTL64(x, r) (((x) << (r)) | ((x) >> (64 - (r))))] *)
Definition ROTL64 (x r : Z) : Z := Z.lor (shl64 x r) (shr64 x (64 - r)).
(** [rotr64] of blake2b.c *)
Definition rotr64 (w c : Z) : Z := Z.lor (shr64 w c) (shl64 w (64 - c)).

(** ** Ranges *)

Lemma wrap_range w z : 0 ≤ w → in_range w (wrap w z).
Proof. intros. apply Z.mod_pos_bound. by apply Z.pow_pos_nonneg. Qed.

Lemma wrap_small w z : in_range w z → wrap w z = z.
Proof. intros. by apply Z.mod_small. Qed.

Lemma i32c_Val z r : i32c z = Val r ↔ is_i32 z ∧ r = z.
Proof. unfold i32c, is_i32. split_if; split; intros; simplify_eq; naive_solver lia. Qed.

Lemma i64c_Val z r : i64c z = Val r ↔ is_i64 z ∧ r = z.
Proof. unfold i64c, is_i64. split_if; split; intros; simplify_eq; naive_solver lia. Qed.

Lemma i64c_ok z : is_i64 z → i64c z = Val z.
Proof. intros. by apply i64c_Val. Qed.

Lemma i64_div_Val a b r :
  i64_div a b = Val r ↔ b ≠ 0 ∧ is_i64 (Z.quot a b) ∧ r = Z.quot a b.
Proof. unfold i64_div. split_if; rewrite ?i64c_Val; naive_solver. Qed.

Lemma u64_range z : is_u64 (u64 z).
Proof. by apply wrap_range. Qed.
Lemma u8_range z : is_u8 (u8 z).
Proof. by apply wrap_range. Qed.

Lemma u64_small z : is_u64 z → u64 z = z.
Proof. apply wrap_small. Qed.

Lemma in_range_testbit w z :
  0 ≤ w → in_range w z ↔ (0 ≤ z ∧ ∀ i, w ≤ i → Z.testbit z i = false).
Proof.
  intros Hw. split.
  - intros [H0 H1]. split; [done|]. intros i Hi.
    destruct (decide (z = 0)) as [->|]; [apply Z.bits_0|].
    apply Z.bits_above_log2; [done|]. apply Z.log2_lt_pow2; [lia|].
    eapply Z.lt_le_trans; [done|]. apply Z.pow_le_mono_r; lia.
  - intros [H0 Hb]. split; [done|].
    destruct (decide (z = 0)) as [->|]; [by apply Z.pow_pos_nonneg|].
    apply Z.log2_lt_pow2; [lia|]. apply Z.nle_gt. intros Hle.
    specialize (Hb _ Hle). rewrite Z.bit_log2 in Hb by lia. done.
Qed.

Lemma lxor_range w a b : 0 ≤ w → in_range w a → in_range w b → in_range w (Z.lxor a b).
Proof.
  intros Hw [Ha Ha']%in_range_testbit [Hb Hb']%in_range_testbit; try done.
  apply in_range_testbit; [done|]. split; [by apply Z.lxor_nonneg|].
  intros i Hi. by rewrite Z.lxor_spec, Ha', Hb'.
Qed.

Lemma lor_range w a b : 0 ≤ w → in_range w a → in_range w b → in_range w (Z.lor a b).
Proof.
  intros Hw [Ha Ha']%in_range_testbit [Hb Hb']%in_range_testbit; try done.
  apply in_range_testbit; [done|]. split; [by apply Z.lor_nonneg|].
  intros i Hi. by rewrite Z.lor_spec, Ha', Hb'.
Qed.

Lemma shiftr_range w a r : 0 ≤ w → 0 ≤ r → in_range w a → in_range w (Z.shiftr a r).
Proof.
  intros Hw Hr [Ha Ha']%in_range_testbit; [|done].
  apply in_range_testbit; [done|]. split; [by apply Z.shiftr_nonneg|].
  intros i Hi. rewrite Z.shiftr_spec by lia. apply Ha'. lia.
Qed.

Lemma add64_range a b : is_u64 (add64 a b).
Proof. apply u64_range. Qed.
Lemma sub64_range a b : is_u64 (sub64 a b).
Proof. apply u64_range. Qed.
Lemma mul64_range a b : is_u64 (mul64 a b).
Proof. apply u64_range. Qed.
Lemma shl64_range a r : is_u64 (shl64 a r).
Proof. apply u64_range. Qed.
Lemma xor64_range a b : is_u64 a → is_u64 b → is_u64 (xor64 a b).
Proof. by apply lxor_range. Qed.
Lemma shr64_range a r : 0 ≤ r → is_u64 a → is_u64 (shr64 a r).
Proof. by apply shiftr_range. Qed.
Lemma ROTL64_range x r : 0 ≤ r ≤ 64 → is_u64 x → is_u64 (ROTL64 x r).
Proof. intros. apply lor_range; [done|apply shl64_range|apply shr64_range; [lia|done]]. Qed.
Lemma rotr64_range x r : 0 ≤ r ≤ 64 → is_u64 x → is_u64 (rotr64 x r).
Proof. intros. apply lor_range; [done|apply shr64_range; [lia|done]|apply shl64_range]. Qed.

#[export] Hint Resolve u64_range u8_range add64_range sub64_range mul64_range shl64_range
  xor64_range shr64_range ROTL64_range rotr64_range : buckets.
#[export] Hint Extern 2 (_ ≤ _) => lia : buckets.
#[export] Hint Extern 2 (_ ≤ _ ≤ _) => lia : buckets.
#[export] Hint Extern 2 (in_range _ (Zpos _)) => (vm_compute; intuition discriminate) : buckets.
#[export] Hint Extern 2 (in_range _ 0) => (vm_compute; intuition discriminate) : buckets.

(** ** Rotations and xor are permutations of the 64-bit words *)

Lemma testbit_u64 z i : 0 ≤ i → Z.testbit (u64 z) i = (i <? 64) && Z.testbit z i.
Proof.
  intros. unfold u64, wrap. destruct (Z.ltb_spec i 64).
  - by rewrite Z.mod_pow2_bits_low.
  - by rewrite Z.mod_pow2_bits_high by lia.
Qed.

Lemma testbit_neg z i : i < 0 → Z.testbit z i = false.
Proof. apply Z.testbit_neg_r. Qed.

Lemma testbit_high w z i : in_range w z → 0 ≤ w ≤ i → Z.testbit z i = false.
Proof. intros H [Hw Hi]. apply in_range_testbit in H as [_ H]; auto. Qed.

(** The bits of a left rotation by [0 < r < 64]. *)
Lemma testbit_ROTL64 x r i :
  is_u64 x → 0 < r < 64 → 0 ≤ i < 64 →
  Z.testbit (ROTL64 x r) i = Z.testbit x ((i - r) mod 64).
Proof.
  intros Hx Hr Hi. unfold ROTL64, shl64, shr64.
  rewrite Z.lor_spec, testbit_u64, Z.shiftl_spec, Z.shiftr_spec by lia.
  replace (i <? 64) with true by (symmetry; apply Z.ltb_lt; lia). simpl.
  destruct (decide (i < r)).
  - rewrite (testbit_neg _ (i - r)) by lia. simpl. f_equal.
    rewrite <-(Z.mod_unique (i - r) 64 (-1) (i + (64 - r))); [done|left; lia|lia].
  - rewrite (testbit_high 64 x (i + (64 - r))) by (done || lia).
    rewrite orb_false_r. f_equal. rewrite Z.mod_small; lia.
Qed.

Lemma testbit_rotr64 x r i :
  is_u64 x → 0 < r < 64 → 0 ≤ i < 64 →
  Z.testbit (rotr64 x r) i = Z.testbit x ((i + r) mod 64).
Proof.
  intros Hx Hr Hi. unfold rotr64, shl64, shr64.
  rewrite Z.lor_spec, testbit_u64, Z.shiftl_spec, Z.shiftr_spec by lia.
  replace (i <? 64) with true by (symmetry; apply Z.ltb_lt; lia). simpl.
  destruct (decide (i + r < 64)).
  - rewrite (testbit_neg _ (i - (64 - r))) by lia.
    rewrite orb_false_r. f_equal. rewrite Z.mod_small; lia.
  - rewrite (testbit_high 64 x (i + r)) by (done || lia). simpl. f_equal.
    rewrite <-(Z.mod_unique (i + r) 64 1 (i - (64 - r))); [done|left; lia|lia].
Qed.

Lemma u64_bits_ext a b :
  is_u64 a → is_u64 b → (∀ i, 0 ≤ i < 64 → Z.testbit a i = Z.testbit b i) → a = b.
Proof.
  intros Ha Hb H. apply Z.bits_inj'. intros i Hi.
  destruct (decide (i < 64)); [apply H; lia|].
  by rewrite (testbit_high 64 a), (testbit_high 64 b) by (done || lia).
Qed.

(** [rotr64 _ r] undoes [ROTL64 _ r], and conversely. *)
Lemma rotr64_ROTL64 x r : is_u64 x → 0 < r < 64 → rotr64 (ROTL64 x r) r = x.
Proof.
  intros Hx Hr. apply u64_bits_ext; auto with buckets. intros i Hi.
  rewrite testbit_rotr64, testbit_ROTL64 by (auto with buckets; apply Z.mod_pos_bound; lia).
  f_equal. rewrite Zminus_mod_idemp_l, Z.add_simpl_r. by apply Z.mod_small.
Qed.

Lemma ROTL64_rotr64 x r : is_u64 x → 0 < r < 64 → ROTL64 (rotr64 x r) r = x.
Proof.
  intros Hx Hr. apply u64_bits_ext; auto with buckets. intros i Hi.
  rewrite testbit_ROTL64, testbit_rotr64 by (auto with buckets; apply Z.mod_pos_bound; lia).
  f_equal. rewrite Zplus_mod_idemp_l, Z.sub_simpl_r. by apply Z.mod_small.
Qed.

Lemma xor64_cancel_r a b : xor64 (xor64 a b) b = a.
Proof. unfold xor64. by rewrite Z.lxor_assoc, Z.lxor_nilpotent, Z.lxor_0_r. Qed.

Lemma xor64_inj_l a b c : xor64 a b = xor64 a c → b = c.
Proof.
  intros H. apply (f_equal (Z.lxor a)) in H. unfold xor64 in H.
  by rewrite <-!Z.lxor_assoc, !Z.lxor_nilpotent, !Z.lxor_0_l in H.
Qed.

Lemma sub64_add64 a b : is_u64 a → sub64 (add64 a b) b = a.
Proof.
  intros Ha. unfold sub64, add64, u64, wrap.
  rewrite Zminus_mod_idemp_l, Z.add_simpl_r. by apply Z.mod_small.
Qed.

Lemma add64_sub64 a b : is_u64 a → add64 (sub64 a b) b = a.
Proof.
  intros Ha. unfold sub64, add64, u64, wrap.
  rewrite Zplus_mod_idemp_l, Z.sub_simpl_r. by apply Z.mod_small.
Qed.

Lemma add64_0_l a : is_u64 a → add64 0 a = a.
Proof. intros. unfold add64. by apply u64_small. Qed.

(** Multiplication by a unit modulo 2^64 loses nothing. *)
Lemma mul64_unit_inj p q a b :
  (p * q) mod 2 ^ 64 = 1 → is_u64 a → is_u64 b → mul64 a p = mul64 b p → a = b.
Proof.
  intros Hpq Ha Hb H. apply (f_equal (λ x, (x * q) mod 2 ^ 64)) in H.
  assert (∀ x, is_u64 x → (mul64 x p * q) mod 2 ^ 64 = x) as Hinv.
  { intros x Hx. unfold mul64, u64, wrap.
    rewrite Zmult_mod_idemp_l, <-Z.mul_assoc, <-Zmult_mod_idemp_r, Hpq, Z.mul_1_r.
    by apply Z.mod_small. }
  by rewrite !Hinv in H.
Qed.

(** [h ^= h >> r] is injective for [r > 0]. *)
Lemma xorshift_inj r a b :
  0 < r → is_u64 a → is_u64 b →
  xor64 a (shr64 a r) = xor64 b (shr64 b r) → a = b.
Proof.
  unfold xor64, shr64. intros Hr Ha Hb H.
  set (d := Z.lxor a b).
  assert (0 ≤ d) as Hd by (apply Z.lxor_nonneg; destruct Ha, Hb; lia).
  assert (d = Z.shiftr d r) as Hfix.
  { unfold d. rewrite Z.shiftr_lxor. apply Z.lxor_eq.
    replace (Z.lxor (Z.lxor a b) _) with
      (Z.lxor (Z.lxor a (Z.shiftr a r)) (Z.lxor b (Z.shiftr b r))).
    - by rewrite H, Z.lxor_nilpotent.
    - rewrite !Z.lxor_assoc. f_equal. rewrite <-!Z.lxor_assoc. f_equal.
      apply Z.lxor_comm. }
  assert (d = 0) as Hz.
  { rewrite Z.shiftr_div_pow2 in Hfix by lia.
    assert (1 < 2 ^ r) by (apply Z.pow_gt_1; lia).
    destruct (decide (d = 0)); [done|].
    pose proof (Z.div_lt d (2 ^ r)). lia. }
  by apply Z.lxor_eq in Hz.
Qed.

(** ** Little-endian loads and stores *)

(** Byte [i] of a buffer. The model reads only inside its buffers. *)
Definition byte_at (p : list Z) (i : nat) : Z := default 0 (p !! i).

Definition is_bytes (p : list Z) : Prop := Forall is_u8 p.

(** [xxh_read64] (xxhash.c), [load_le64] (siphash.c) and [load64] (blake2b.c)
    are the same expression. *)
Definition load_le64 (p : list Z) : Z :=
  Z.lor (Z.lor (Z.lor (Z.lor (Z.lor (Z.lor (Z.lor
    (byte_at p 0)
    (shl64 (byte_at p 1) 8)) (shl64 (byte_at p 2) 16))
    (shl64 (byte_at p 3) 24)) (shl64 (byte_at p 4) 32))
    (shl64 (byte_at p 5) 40)) (shl64 (byte_at p 6) 48))
    (shl64 (byte_at p 7) 56).

(** [xxh_read32] *)
Definition load_le32 (p : list Z) : Z :=
  Z.lor (Z.lor (Z.lor
    (byte_at p 0)
    (u32 (Z.shiftl (byte_at p 1) 8))) (u32 (Z.shiftl (byte_at p 2) 16)))
    (u32 (Z.shiftl (byte_at p 3) 24)).

(** [store_le64] (siphash.c) and [store64] (blake2b.c): the eight bytes written. *)
Definition store_le64 (v : Z) : list Z :=
  [u8 v; u8 (shr64 v 8); u8 (shr64 v 16); u8 (shr64 v 24);
   u8 (shr64 v 32); u8 (shr64 v 40); u8 (shr64 v 48); u8 (shr64 v 56)].

Lemma byte_at_range p i : is_bytes p → is_u8 (byte_at p i).
Proof.
  intros H. unfold byte_at. destruct (p !! i) eqn:E; simpl.
  - by eapply Forall_lookup_1 in H.
  - split; [lia|done].
Qed.

Lemma in_range_mono v w z : 0 ≤ v ≤ w → in_range v z → in_range w z.
Proof.
  intros Hvw [H0 H1]. split; [done|]. eapply Z.lt_le_trans; [done|].
  apply Z.pow_le_mono_r; lia.
Qed.

(** A byte shifted to a byte boundary below 64 does not wrap. *)
Lemma shl64_byte b k : is_u8 b → 0 ≤ k ≤ 56 → shl64 b k = b * 2 ^ k.
Proof.
  intros [H0 H1] Hk. unfold shl64. rewrite Z.shiftl_mul_pow2 by lia.
  apply u64_small. split; [apply Z.mul_nonneg_nonneg; [done|apply Z.pow_nonneg; lia]|].
  replace (2 ^ 64) with (2 ^ 8 * 2 ^ 56) by done.
  apply Z.lt_le_trans with (2 ^ 8 * 2 ^ k).
  - apply Z.mul_lt_mono_pos_r; [apply Z.pow_pos_nonneg; lia|done].
  - apply Z.mul_le_mono_nonneg_l; [done|]. apply Z.pow_le_mono_r; lia.
Qed.

(** Disjoint [|] is addition. *)
Lemma lor_add_high a b k :
  0 ≤ k → 0 ≤ a < 2 ^ k → Z.lor a (b * 2 ^ k) = a + b * 2 ^ k.
Proof.
  intros Hk Ha. assert (Z.land a (b * 2 ^ k) = 0) as Hd.
  { rewrite <-Z.shiftl_mul_pow2 by done. apply Z.bits_inj'. intros i Hi.
    rewrite Z.land_spec, Z.bits_0, Z.shiftl_spec by lia.
    destruct (decide (i < k)).
    - rewrite (testbit_neg b) by lia. apply andb_false_r.
    - by rewrite (testbit_high k a) by (done || lia). }
  rewrite Z.add_nocarry_lxor by done. symmetry. by apply Z.lxor_lor.
Qed.

(** The value of a little-endian load. *)
Lemma load_le64_sum p :
  is_bytes p →
  load_le64 p = byte_at p 0 + byte_at p 1 * 2 ^ 8 + byte_at p 2 * 2 ^ 16
    + byte_at p 3 * 2 ^ 24 + byte_at p 4 * 2 ^ 32 + byte_at p 5 * 2 ^ 40
    + byte_at p 6 * 2 ^ 48 + byte_at p 7 * 2 ^ 56.
Proof.
  intros Hp. unfold load_le64.
  rewrite !shl64_byte by (try apply byte_at_range; done || lia).
  pose proof (byte_at_range p 0 Hp) as [? ?]; pose proof (byte_at_range p 1 Hp) as [? ?];
  pose proof (byte_at_range p 2 Hp) as [? ?]; pose proof (byte_at_range p 3 Hp) as [? ?];
  pose proof (byte_at_range p 4 Hp) as [? ?]; pose proof (byte_at_range p 5 Hp) as [? ?];
  pose proof (byte_at_range p 6 Hp) as [? ?]; pose proof (byte_at_range p 7 Hp) as [? ?].
  repeat match goal with
  | |- context [Z.lor ?a (?b * 2 ^ ?k)] =>
      lazymatch a with context [Z.lor] => fail | _ => rewrite (lor_add_high a b k) by lia end
  end. done.
Qed.

Lemma load_le64_range p : is_bytes p → is_u64 (load_le64 p).
Proof.
  intros Hp. unfold load_le64.
  repeat (apply lor_range; [done| |apply shl64_range]).
  eapply in_range_mono; [|by apply byte_at_range]. lia.
Qed.

Lemma load_le32_range p : is_bytes p → is_u32 (load_le32 p).
Proof.
  intros Hp. unfold load_le32.
  repeat (apply lor_range; [done| |by apply wrap_range]).
  eapply in_range_mono; [|by apply byte_at_range]. lia.
Qed.

Lemma store_le64_bytes v : is_bytes (store_le64 v).
Proof. repeat (apply Forall_cons; split; [apply u8_range|]). by apply Forall_nil. Qed.

Lemma load_store_le64 v : is_u64 v → load_le64 (store_le64 v) = v.
Proof.
  intros [H0 H1]. rewrite load_le64_sum by apply store_le64_bytes.
  unfold store_le64, byte_at, u8, wrap, shr64. simpl lookup. simpl default.
  rewrite !Z.shiftr_div_pow2 by lia. Z.to_euclidean_division_equations. lia.
Qed.

Lemma store_load_le64 p : is_bytes p → length p = 8%nat → store_le64 (load_le64 p) = p.
Proof.
  intros Hp Hl. unfold store_le64. rewrite !load_le64_sum by done.
  do 8 (destruct p as [|? p]; [done|]). destruct p; [|done].
  unfold byte_at, u8, wrap, shr64. simpl lookup. simpl default.
  unfold is_bytes in Hp. decompose_Forall_hyps. unfold in_range in *.
  rewrite !Z.shiftr_div_pow2 by lia.
  repeat f_equal; Z.to_euclidean_division_equations; lia.
Qed.

#[export] Hint Resolve load_le64_range load_le32_range store_le64_bytes : buckets.

(** ** C strings: the bytes before the terminating NUL *)

Definition str_bytes (s : string) : list Z :=
  (λ c, Z.of_N (Ascii.N_of_ascii c)) <$> String.list_ascii_of_string s.

(** [strlen] *)
Definition strlen (s : string) : nat := String.length s.

Lemma str_bytes_is_bytes s : is_bytes (str_bytes s).
Proof.
  apply Forall_fmap, Forall_forall. intros c _. simpl.
  pose proof (Ascii.N_ascii_bounded c) as H. unfold in_range. change (2 ^ 8) with 256.
  split; [apply N2Z.is_nonneg|]. apply (N2Z.inj_lt _ 256) in H. exact H.
Qed.

Lemma length_str_bytes s : length (str_bytes s) = strlen s.
Proof. unfold str_bytes. rewrite length_fmap. induction s; simpl; [done|]. by f_equal. Qed.

#[export] Instance str_bytes_inj : Inj (=) (=) str_bytes.
Proof.
  intros s t H. unfold str_bytes in H.
  apply (list_fmap_eq_inj _) in H.
  - rewrite <-(String.string_of_list_ascii_of_string s), H.
    apply String.string_of_list_ascii_of_string.
  - intros a b Hab%N2Z.inj. rewrite <-(Ascii.ascii_N_embedding a), Hab.
    apply Ascii.ascii_N_embedding.
Qed.

(** What [snprintf(buf, size, ...)] leaves in [buf] when the formatted text is [s]. *)
Definition snprintf (size : nat) (s : string) : string := String.substring 0 (size - 1) s.

(** The C string holding the given (non-NUL) bytes. *)
Definition bytes_str (l : list Z) : string :=
  String.string_of_list_ascii ((λ z, Ascii.ascii_of_N (Z.to_N z)) <$> l).

Lemma str_bytes_bytes_str l : is_bytes l → str_bytes (bytes_str l) = l.
Proof.
  intros Hl. unfold str_bytes, bytes_str.
  rewrite String.list_ascii_of_string_of_list_ascii.
  induction Hl as [|z l [Hz0 Hz1] Hl IH]; [done|]. simpl. f_equal; [|done].
  rewrite Ascii.N_ascii_embedding, Z2N.id; [done|lia|].
  change (2 ^ 8) with 256 in Hz1. lia.
Qed.

Lemma bytes_str_str_bytes s : bytes_str (str_bytes s) = s.
Proof.
  unfold bytes_str, str_bytes. rewrite <- list_fmap_compose.
  rewrite <- (String.string_of_list_ascii_of_string s) at 2. f_equal.
  induction (String.list_ascii_of_string s) as [|c l IH]; [done|]. rewrite fmap_cons, IH. f_equal.
  cbn. rewrite N2Z.id. apply Ascii.ascii_N_embedding.
Qed.

#[export] Hint Resolve str_bytes_is_bytes : buckets.

(** ** Lower-case hexadecimal, [%02x] *)

Definition hex_digit (n : Z) : Z := if (n <? 10)%Z then (48 + n)%Z else (87 + n)%Z.
Definition hex_byte (b : Z) : list Z := [hex_digit (b / 16); hex_digit (b mod 16)].

Lemma hex_digit_bounds n : (0 ≤ n < 16)%Z → (48 ≤ hex_digit n < 103)%Z.
Proof. intros. unfold hex_digit. split_if; lia. Qed.

Lemma hex_byte_is_bytes b : is_u8 b → is_bytes (hex_byte b).
Proof.
  intros [H0 H1]. change (2 ^ 8)%Z with 256%Z in H1.
  pose proof (hex_digit_bounds (b / 16) ltac:(Z.to_euclidean_division_equations; lia)).
  pose proof (hex_digit_bounds (b mod 16) ltac:(Z.to_euclidean_division_equations; lia)).
  repeat constructor; unfold in_range; lia.
Qed.

(** The cast [(int)z]. *)
Definition to_int (z : Z) : Z := (z + 2 ^ 31) mod 2 ^ 32 - 2 ^ 31.

Lemma to_int_small z : is_i32 z → to_int z = z.
Proof. unfold is_i32, to_int. intros. rewrite Z.mod_small; lia. Qed.

Lemma to_int_range z : is_i32 (to_int z).
Proof.
  unfold is_i32, to_int. pose proof (Z.mod_pos_bound (z + 2 ^ 31) (2 ^ 32)). lia.
Qed.
