(* ===== verification/CString.v ===== *)
(** * C strings

    The string functions of the C library that the cluster code uses: bounded copies
    into character arrays, decimal printing ([%d], [%lu]) and parsing ([strtoull]).
    A C string is a [string] without NUL characters. *)

From S2P Require Import Prelude CInt.
From Stdlib Require Import Ascii.

(** [strncpy(dst, src, n)] into a zeroed array of at least [n + 1] characters: the
    string [dst] then holds. *)
Definition strncpy (n : nat) (src : string) : string := String.substring 0 n src.

(** [strcmp(a, b) == 0] *)
Definition strcmp_eq (a b : string) : bool := bool_decide (a = b).

Definition isspace (c : ascii) : bool :=
  let n := N_of_ascii c in ((n =? 32) || ((9 <=? n) && (n <=? 13)))%N.

Definition digit_value (c : ascii) : option Z :=
  let n := Z.of_N (N_of_ascii c) in
  if (48 <=? n) && (n <=? 57) then Some (n - 48) else None.

Fixpoint skip_space (s : string) : string :=
  match s with
  | String c s' => if isspace c then skip_space s' else s
  | EmptyString => s
  end.

Fixpoint parse_digits (acc : Z) (s : string) : Z :=
  match s with
  | String c s' =>
      match digit_value c with Some d => parse_digits (acc * 10 + d) s' | None => acc end
  | EmptyString => acc
  end.

Definition ULLONG_MAX : Z := 2 ^ 64 - 1.

(** The magnitude of [strtoull]: [ULLONG_MAX] when it does not fit. *)
Definition saturate (v : Z) (negate : bool) : Z :=
  if ULLONG_MAX <? v then ULLONG_MAX else if negate then u64 (- v) else v.

(** [strtoull(s, NULL, 10)] *)
Definition strtoull (s : string) : Z :=
  match skip_space s with
  | String "-" s' => saturate (parse_digits 0 s') true
  | String "+" s' => saturate (parse_digits 0 s') false
  | s' => saturate (parse_digits 0 s') false
  end.

(** [%lu] *)
Definition print_u64 (z : Z) : string := pretty (Z.to_N z).

(** The last character. *)
Fixpoint last_char (s : string) : option ascii :=
  match s with
  | EmptyString => None
  | String c EmptyString => Some c
  | String _ s' => last_char s'
  end.

(** ** Lemmas *)

Lemma strncpy_short n s : (String.length s ≤ n)%nat → strncpy n s = s.
Proof.
  unfold strncpy. revert n. induction s as [|c s IH]; intros [|n] H; simpl in *; try done; try lia.
  f_equal. apply IH. lia.
Qed.

Lemma length_strncpy n s : (String.length (strncpy n s) ≤ n)%nat.
Proof.
  unfold strncpy. revert n. induction s as [|c s IH]; intros [|n]; simpl; try lia.
  specialize (IH n). lia.
Qed.

Lemma last_char_app s t : t ≠ EmptyString → last_char (s +:+ t) = last_char t.
Proof.
  intros Ht. induction s as [|c s IH]; [done|].
  change (String c s +:+ t) with (String c (s +:+ t)). simpl. rewrite IH.
  destruct (s +:+ t) eqn:E; [|done].
  destruct s; simplify_eq/=.
Qed.

Lemma digit_value_char d : (d < 10)%N → digit_value (pretty_N_char d) = Some (Z.of_N d).
Proof.
  intros. assert (d = 0 ∨ d = 1 ∨ d = 2 ∨ d = 3 ∨ d = 4 ∨ d = 5 ∨ d = 6 ∨ d = 7 ∨ d = 8
    ∨ d = 9)%N as Hd by lia.
  by repeat destruct Hd as [->|Hd]; [..|subst d].
Qed.

Lemma parse_digits_go x s :
  parse_digits 0 (pretty_N_go x s) = parse_digits (Z.of_N x) s.
Proof.
  revert s. induction (N.lt_wf_0 x) as [x _ IH]; intros s.
  destruct (decide (x = 0)%N) as [->|Hx]; [done|].
  rewrite pretty_N_go_step by lia. rewrite IH by (apply N.div_lt; lia). simpl.
  rewrite digit_value_char by (apply N.mod_lt; lia).
  f_equal. rewrite (N.div_mod x 10) at 3 by lia. lia.
Qed.

Lemma parse_digits_pretty (x : N) : parse_digits 0 (pretty x) = Z.of_N x.
Proof.
  unfold pretty, pretty_N. destruct (decide (x = 0)%N) as [->|]; [done|].
  by rewrite parse_digits_go.
Qed.

(** The printed form starts with a digit. *)
Lemma pretty_N_go_head x s :
  (0 < x)%N → ∃ c d t, pretty_N_go x s = String c t ∧ digit_value c = Some d.
Proof.
  revert s. induction (N.lt_wf_0 x) as [x _ IH]; intros s Hx.
  rewrite pretty_N_go_step by lia.
  destruct (decide (x `div` 10 = 0)%N) as [->|].
  - rewrite pretty_N_go_0. eexists _, _, _. split; [done|]. apply digit_value_char.
    by apply N.mod_lt.
  - apply IH; [apply N.div_lt; lia|by apply N.neq_0_lt_0].
Qed.

Lemma pretty_N_head (x : N) : ∃ c d t, pretty x = String c t ∧ digit_value c = Some d.
Proof.
  unfold pretty, pretty_N. destruct (decide (x = 0)%N) as [->|]; [by eexists _, _, _|].
  apply pretty_N_go_head. lia.
Qed.

Lemma pretty_N_ne_empty (x : N) : pretty x ≠ EmptyString.
Proof. destruct (pretty_N_head x) as (c & d & t & -> & _). done. Qed.

Lemma digit_value_range c d : digit_value c = Some d → 48 ≤ Z.of_N (N_of_ascii c) ≤ 57.
Proof. unfold digit_value. split_if; [|done]. intros. lia. Qed.

Lemma strtoull_digits c d s :
  digit_value c = Some d → strtoull (String c s) = saturate (parse_digits 0 (String c s)) false.
Proof.
  intros Hd%digit_value_range. unfold strtoull. simpl skip_space.
  assert (isspace c = false) as ->.
  { unfold isspace. rewrite orb_false_iff, andb_false_iff, N.eqb_neq, !N.leb_gt. lia. }
  destruct c as [[] [] [] [] [] [] [] []]; try reflexivity; exfalso; destruct Hd as [H1 H2];
    first [by apply H1|by apply H2].
Qed.

(** [strtoull] reads back what [%lu] printed. *)
Lemma strtoull_print z : is_u64 z → strtoull (print_u64 z) = z.
Proof.
  intros Hz. unfold print_u64. pose proof (parse_digits_pretty (Z.to_N z)) as Hp.
  destruct (pretty_N_head (Z.to_N z)) as (c & d & t & E & Hd). rewrite E in Hp |- *.
  rewrite (strtoull_digits c d t Hd), Hp, Z2N.id by apply Hz.
  unfold saturate. destruct Hz. split_if; unfold ULLONG_MAX in *; lia.
Qed.

(** It ends with a digit. *)
Lemma pretty_N_go_last x s :
  (0 < x)%N → ∃ c d, last_char (pretty_N_go x s) = last_char (String c s) ∧
                     digit_value c = Some d.
Proof.
  intros Hx. exists (pretty_N_char (x `mod` 10)), (Z.of_N (x `mod` 10)).
  split; [|apply digit_value_char, N.mod_lt; lia].
  rewrite pretty_N_go_step by lia.
  generalize (x `div` 10)%N, (pretty_N_char (x `mod` 10)) as c. clear x Hx.
  intros y. revert s. induction (N.lt_wf_0 y) as [y _ IH]; intros s c.
  destruct (decide (y = 0)%N) as [->|]; [done|].
  rewrite pretty_N_go_step by lia. rewrite IH by (apply N.div_lt; lia). done.
Qed.

Lemma pretty_N_last (x : N) :
  ∃ c d, last_char (pretty x) = Some c ∧ digit_value c = Some d.
Proof.
  unfold pretty, pretty_N. destruct (decide (x = 0)%N) as [->|]; [by eexists _, _|].
  destruct (pretty_N_go_last x "") as (c & d & -> & Hd); [lia|]. by exists c, d.
Qed.

Lemma strlen_app s t : strlen (s +:+ t) = (strlen s + strlen t)%nat.
Proof. unfold strlen. induction s as [|c s IH]; [done|]. exact (f_equal S IH). Qed.

Lemma pretty_N_go_app x s t : pretty_N_go x s +:+ t = pretty_N_go x (s +:+ t).
Proof.
  revert s. induction (N.lt_wf_0 x) as [x _ IH]; intros s.
  destruct (decide (x = 0)%N) as [->|]; [done|].
  rewrite !(pretty_N_go_step x) by lia. rewrite IH by (apply N.div_lt; lia). done.
Qed.

(** A printed number followed by a non-digit can be read off. *)
Lemma parse_digits_pretty_app (x : N) c t :
  digit_value c = None → parse_digits 0 (pretty x +:+ String c t) = Z.of_N x.
Proof.
  intros Hc. unfold pretty, pretty_N. destruct (decide (x = 0)%N) as [->|].
  - simpl. change ("0" +:+ String c t) with (String "0" (String c t)). simpl. by rewrite Hc.
  - rewrite pretty_N_go_app, parse_digits_go. simpl. by rewrite Hc.
Qed.

Lemma strlen_pretty_N_go k x s :
  (x < 10 ^ N.of_nat k)%N → (strlen (pretty_N_go x s) ≤ k + strlen s)%nat.
Proof.
  revert x s. induction k as [|k IH]; intros x s Hx.
  - assert (x = 0)%N as -> by (simpl in Hx; lia). done.
  - destruct (decide (x = 0)%N) as [->|]; [rewrite pretty_N_go_0; lia|].
    rewrite pretty_N_go_step by lia. etrans; [apply IH|simpl; lia].
    apply N.Div0.div_lt_upper_bound. rewrite Nat2N.inj_succ, N.pow_succ_r' in Hx. lia.
Qed.

Lemma strlen_pretty_N k (x : N) :
  (0 < k)%nat → (x < 10 ^ N.of_nat k)%N → (strlen (pretty x) ≤ k)%nat.
Proof.
  intros. unfold pretty, pretty_N. destruct (decide (x = 0)%N); [simpl; lia|].
  etrans; [by apply (strlen_pretty_N_go k)|simpl; lia].
Qed.

Lemma snprintf_short n s : (strlen s < n)%nat → snprintf n s = s.
Proof. intros. unfold snprintf. apply strncpy_short. unfold strlen in *. lia. Qed.
