(* ===== verification/Base64.v ===== *)
(** * Base64 of inline objects (src/src/storage/object.c)

    Small objects are stored inside their metadata, encoded in base64. A character is its
    code. *)

From S2P Require Import Prelude CInt.

Local Open Scope c_scope.

(** [base64_chars] *)
Definition base64_chars : list Z :=
  str_bytes "ABCDEFGHIJKLMNOPQRSTUVWXYZabcdefghijklmnopqrstuvwxyz0123456789+/".

Definition pad_char : Z := 61.

(** One round of the encoder: the four characters of three bytes. *)
Definition encode_triple (a b c : Z) : list Z :=
  let triple := u32 (u32 (Z.shiftl a 16 + Z.shiftl b 8) + c) in
  [byte_at base64_chars (Z.to_nat (Z.land (Z.shiftr triple 18) 63));
   byte_at base64_chars (Z.to_nat (Z.land (Z.shiftr triple 12) 63));
   byte_at base64_chars (Z.to_nat (Z.land (Z.shiftr triple 6) 63));
   byte_at base64_chars (Z.to_nat (Z.land triple 63))].

(** The loop; bytes past the end are zero. *)
Fixpoint encode_loop (data : list Z) : list Z :=
  match data with
  | [] => []
  | [a] => encode_triple a 0 0
  | [a; b] => encode_triple a b 0
  | a :: b :: c :: data => encode_triple a b c ++ encode_loop data
  end.

(** The characters at the end that stand for no byte are overwritten. *)
Definition base64_encode (data : list Z) : string :=
  let encoded := encode_loop data in
  let padding := ((3 - length data mod 3) mod 3)%nat in
  bytes_str (take (length encoded - padding) encoded ++ replicate padding pad_char).

(** [base64_table]: zero for every other character. *)
Definition base64_table (c : Z) : Z :=
  if (65 <=? c) && (c <=? 90) then c - 65
  else if (97 <=? c) && (c <=? 122) then c - 71
  else if (48 <=? c) && (c <=? 57) then c + 4
  else if c =? 43 then 62
  else if c =? 47 then 63
  else 0.

Definition sextet (c : Z) : Z := if c =? pad_char then 0 else base64_table c.

(** One round of the decoder. *)
Definition decode_quad (a b c d : Z) : list Z :=
  let triple := Z.shiftl (sextet a) 18 + Z.shiftl (sextet b) 12 + Z.shiftl (sextet c) 6 + sextet d in
  [Z.land (Z.shiftr triple 16) 255; Z.land (Z.shiftr triple 8) 255; Z.land triple 255].

(** The loop reads four characters a round; after three it may read the terminator, any
    more is out of bounds. *)
Fixpoint decode_loop (s : list Z) : c_result (list Z) :=
  match s with
  | [] => Val []
  | [a; b; c] => Val (decode_quad a b c 0)
  | a :: b :: c :: d :: s => let* r := decode_loop s in Val (decode_quad a b c d ++ r)
  | _ => Undef
  end.

(** [None]: the size wraps around and the allocation aborts the program. *)
Definition base64_decode (encoded : string) : c_result (option (list Z)) :=
  let s := str_bytes encoded in
  let len := length s in
  let padding :=
    ((if (0 <? len)%nat && (byte_at s (len - 1) =? pad_char)%Z then 1 else 0) +
     (if (1 <? len)%nat && (byte_at s (len - 2) =? pad_char)%Z then 1 else 0))%nat in
  if (len / 4 * 3 <? padding)%nat then Val None
  else let* r := decode_loop s in Val (Some (take (len / 4 * 3 - padding) r)).

(** ** The round trip *)

Lemma base64_char n : 0 ≤ n < 64 →
  sextet (byte_at base64_chars (Z.to_nat n)) = n ∧
  byte_at base64_chars (Z.to_nat n) ≠ pad_char ∧ is_u8 (byte_at base64_chars (Z.to_nat n)).
Proof.
  intros Hn. rewrite <- (Z2Nat.id n) at 2 by lia.
  assert (Z.to_nat n < 64)%nat as Hlt by lia. revert Hlt. generalize (Z.to_nat n). clear.
  intros n Hn. do 64 (destruct n as [|n]; [vm_compute; split_and!; congruence|]). lia.
Qed.

Lemma land_mod z n : 0 ≤ n → Z.land z (2 ^ n - 1) = z mod 2 ^ n.
Proof.
  intros. rewrite <- Z.land_ones by done. by rewrite Z.ones_equiv, Z.sub_1_r.
Qed.

Lemma triple_sum a b c : is_u8 a → is_u8 b → is_u8 c →
  u32 (u32 (Z.shiftl a 16 + Z.shiftl b 8) + c) = a * 65536 + b * 256 + c.
Proof.
  unfold in_range. change (2 ^ 8) with 256. intros. rewrite !Z.shiftl_mul_pow2 by lia.
  change (2 ^ 16) with 65536. change (2 ^ 8) with 256.
  unfold u32. rewrite (wrap_small 32 (a * 65536 + b * 256)) by (unfold in_range; lia).
  apply wrap_small. unfold in_range. lia.
Qed.

(** The four characters of a round, and what a decoder makes of them. *)
Lemma encode_triple_spec a b c : is_u8 a → is_u8 b → is_u8 c →
  ∃ w x y z, encode_triple a b c = [w; x; y; z] ∧
    Forall (λ ch, ch ≠ pad_char ∧ is_u8 ch) [w; x; y; z] ∧
    decode_quad w x y z = [a; b; c] ∧
    (c = 0 → decode_quad w x y pad_char = [a; b; c]) ∧
    (b = 0 → c = 0 → decode_quad w x pad_char pad_char = [a; b; c]).
Proof.
  intros Ha Hb Hc. unfold encode_triple. rewrite triple_sum by done.
  unfold in_range in Ha, Hb, Hc. change (2 ^ 8) with 256 in Ha, Hb, Hc.
  change 63 with (2 ^ 6 - 1). rewrite !land_mod by lia. rewrite !Z.shiftr_div_pow2 by lia.
  set (t := a * 65536 + b * 256 + c).
  change (2 ^ 18) with 262144. change (2 ^ 12) with 4096. change (2 ^ 6) with 64.
  destruct (base64_char (t / 262144 mod 64)) as (E1 & N1 & U1); [apply Z.mod_pos_bound; lia|].
  destruct (base64_char (t / 4096 mod 64)) as (E2 & N2 & U2); [apply Z.mod_pos_bound; lia|].
  destruct (base64_char (t / 64 mod 64)) as (E3 & N3 & U3); [apply Z.mod_pos_bound; lia|].
  destruct (base64_char (t mod 64)) as (E4 & N4 & U4); [apply Z.mod_pos_bound; lia|].
  eexists _, _, _, _. split; [reflexivity|]. split; [by repeat (constructor; [done|])|].
  assert (∀ p q r s, 0 ≤ p < 64 → 0 ≤ q < 64 → 0 ≤ r < 64 → 0 ≤ s < 64 →
    p * 262144 + q * 4096 + r * 64 + s = t →
    [Z.land (Z.shiftr (Z.shiftl p 18 + Z.shiftl q 12 + Z.shiftl r 6 + s) 16) 255;
     Z.land (Z.shiftr (Z.shiftl p 18 + Z.shiftl q 12 + Z.shiftl r 6 + s) 8) 255;
     Z.land (Z.shiftl p 18 + Z.shiftl q 12 + Z.shiftl r 6 + s) 255] = [a; b; c]) as Hq.
  { intros p q r s Hp Hq Hr Hs Ht. rewrite !Z.shiftl_mul_pow2 by lia.
    change (2 ^ 18) with 262144. change (2 ^ 12) with 4096. change (2 ^ 6) with 64. rewrite Ht.
    change 255 with (2 ^ 8 - 1). rewrite !land_mod by lia. rewrite !Z.shiftr_div_pow2 by lia.
    change (2 ^ 16) with 65536. change (2 ^ 8) with 256. unfold t.
    repeat f_equal; Z.to_euclidean_division_equations; lia. }
  unfold decode_quad. change (sextet pad_char) with 0. rewrite E1, E2, E3, E4. unfold t in *.
  split_and!; intros; subst; apply Hq; Z.to_euclidean_division_equations; lia.
Qed.

Lemma encode_loop_length data :
  length (encode_loop data) = (4 * ((length data + 2) / 3))%nat.
Proof.
  induction data as [data IH] using (induction_ltof1 _ length). unfold ltof in IH.
  destruct data as [|a [|b [|c data]]]; try done. cbn [encode_loop]. rewrite length_app, IH by (simpl; lia).
  cbn [length encode_triple]. replace (S (S (S (length data))) + 2)%nat with (length data + 2 + 1 * 3)%nat by lia.
  rewrite Nat.div_add by lia. lia.
Qed.

Lemma decode_loop_cons a b c d s :
  decode_loop (a :: b :: c :: d :: s) =
    (let* r := decode_loop s in Val (decode_quad a b c d ++ r)).
Proof. reflexivity. Qed.

(** The encoded text by rounds. *)
Fixpoint encode_rounds (data : list Z) : list Z :=
  match data with
  | [] => []
  | [a] => take 2 (encode_triple a 0 0) ++ [pad_char; pad_char]
  | [a; b] => take 3 (encode_triple a b 0) ++ [pad_char]
  | a :: b :: c :: data => encode_triple a b c ++ encode_rounds data
  end.

(** How many of the last two characters are padding. *)
Definition pads (s : list Z) : nat :=
  ((if (0 <? length s)%nat && (byte_at s (length s - 1) =? pad_char)%Z then 1 else 0) +
   (if (1 <? length s)%nat && (byte_at s (length s - 2) =? pad_char)%Z then 1 else 0))%nat.

Lemma mod3_step n : ((3 - S (S (S n)) mod 3) mod 3 = (3 - n mod 3) mod 3)%nat.
Proof. do 2 f_equal. replace (S (S (S n))) with (n + 1 * 3)%nat by lia. apply Nat.Div0.mod_add. Qed.

Lemma encode_rounds_eq data :
  take (length (encode_loop data) - (3 - length data mod 3) mod 3) (encode_loop data)
    ++ replicate ((3 - length data mod 3) mod 3) pad_char = encode_rounds data.
Proof.
  induction data as [data IH] using (induction_ltof1 _ length). unfold ltof in IH.
  destruct data as [|a [|b [|c data]]]; [done..|].
  cbn [encode_loop encode_rounds length]. rewrite <- (IH data) by (simpl; lia).
  rewrite mod3_step, length_app, encode_loop_length. change (length (encode_triple a b c)) with 4%nat.
  set (p := ((3 - length data mod 3) mod 3)%nat).
  assert (p ≤ 4 * ((length data + 2) / 3))%nat as Hp.
  { unfold p. destruct data as [|d data]; [simpl; lia|].
    pose proof (Nat.mod_upper_bound (3 - length (d :: data) mod 3) 3 ltac:(lia)).
    assert (1 ≤ (length (d :: data) + 2) / 3)%nat by (apply Nat.div_le_lower_bound; simpl; lia). lia. }
  rewrite <- Nat.add_sub_assoc by done.
  change 4%nat with (length (encode_triple a b c)) at 1. rewrite take_app_add. by rewrite <- app_assoc.
Qed.

Lemma pads_app q s : (2 ≤ length s)%nat → pads (q ++ s) = pads s.
Proof.
  intros Hs. unfold pads, byte_at. rewrite length_app.
  rewrite !lookup_app_r by lia.
  replace (length q + length s - 1 - length q)%nat with (length s - 1)%nat by lia.
  replace (length q + length s - 2 - length q)%nat with (length s - 2)%nat by lia.
  rewrite !(proj2 (Nat.ltb_lt _ _)) by lia. done.
Qed.

Lemma encode_rounds_spec data :
  is_bytes data →
  is_bytes (encode_rounds data) ∧ length (encode_rounds data) = (4 * ((length data + 2) / 3))%nat ∧
  pads (encode_rounds data) = ((3 - length data mod 3) mod 3)%nat ∧
  decode_loop (encode_rounds data) = Val (data ++ replicate ((3 - length data mod 3) mod 3) 0).
Proof.
  induction data as [data IH] using (induction_ltof1 _ length). unfold ltof in IH. intros Hb.
  assert (is_u8 0) as H0 by (unfold in_range; lia). assert (is_u8 pad_char) by (unfold in_range, pad_char; lia).
  destruct data as [|a [|b [|c data]]].
  - done.
  - apply Forall_cons in Hb as [Ha _].
    destruct (encode_triple_spec a 0 0 Ha H0 H0) as (w & x & y & z & E & Hf & _ & _ & Hd).
    cbn [encode_rounds]. rewrite E. cbn [take app]. rewrite !Forall_cons in Hf; destruct Hf as ((N1 & U1) & (N2 & U2) & (N3 & U3) & (N4 & U4) & _).
    split; [by repeat (constructor; [done|])|]. split; [done|]. split; [done|].
    rewrite decode_loop_cons, Hd by done. done.
  - apply Forall_cons in Hb as [Ha Hb]. apply Forall_cons in Hb as [Hb _].
    destruct (encode_triple_spec a b 0 Ha Hb H0) as (w & x & y & z & E & Hf & _ & Hd & _).
    cbn [encode_rounds]. rewrite E. cbn [take app]. rewrite !Forall_cons in Hf; destruct Hf as ((N1 & U1) & (N2 & U2) & (N3 & U3) & (N4 & U4) & _).
    split; [by repeat (constructor; [done|])|]. split; [done|]. split.
    + unfold pads, byte_at. simpl. by rewrite (proj2 (Z.eqb_neq y _)).
    + rewrite decode_loop_cons, Hd by done. done.
  - apply Forall_cons in Hb as [Ha Hb]. apply Forall_cons in Hb as [Hb Hc].
    apply Forall_cons in Hc as [Hc Hr].
    destruct (encode_triple_spec a b c Ha Hb Hc) as (w & x & y & z & E & Hf & Hd & _).
    destruct (IH data) as (I1 & I2 & I3 & I4); [simpl; lia|done|].
    cbn [encode_rounds length]. rewrite E, mod3_step. split.
    { apply Forall_app. split; [|done]. eapply Forall_impl; [done|]. by intros ? [_ ?]. }
    split; [|split].
    + rewrite length_app, I2. replace (S (S (S (length data))) + 2)%nat with (length data + 2 + 1 * 3)%nat by lia.
      rewrite Nat.div_add by lia. simpl length. lia.
    + destruct data as [|d data].
      * rewrite !Forall_cons in Hf; destruct Hf as ((N1 & U1) & (N2 & U2) & (N3 & U3) & (N4 & U4) & _). unfold pads, byte_at. simpl.
        by rewrite (proj2 (Z.eqb_neq y _)), (proj2 (Z.eqb_neq z _)).
      * rewrite pads_app; [done|]. rewrite I2.
        assert (1 ≤ (length (d :: data) + 2) / 3)%nat by (apply Nat.div_le_lower_bound; simpl; lia). lia.
    + cbn [app]. rewrite decode_loop_cons, I4, Hd. done.
Qed.

Lemma base64_decode_encode data :
  is_bytes data → base64_decode (base64_encode data) = Val (Some data).
Proof.
  intros Hb. destruct (encode_rounds_spec data Hb) as (H1 & H2 & H3 & H4).
  unfold base64_encode, base64_decode. rewrite encode_rounds_eq, str_bytes_bytes_str by done.
  fold (pads (encode_rounds data)). rewrite H2, H3, H4.
  set (p := ((3 - length data mod 3) mod 3)%nat).
  assert (4 * ((length data + 2) / 3) / 4 * 3 = length data + p)%nat as E.
  { rewrite (Nat.mul_comm 4), Nat.div_mul by lia. unfold p.
    pose proof (Nat.div_mod_eq (length data) 3). pose proof (Nat.mod_upper_bound (length data) 3 ltac:(lia)).
    set (q := (length data / 3)%nat) in *. set (r := (length data mod 3)%nat) in *.
    assert (r = 0 ∨ r = 1 ∨ r = 2)%nat as [->|[->| ->]] by lia.
    - replace (length data + 2)%nat with (2 + q * 3)%nat by lia. rewrite Nat.div_add by lia. simpl. lia.
    - replace (length data + 2)%nat with (3 + q * 3)%nat by lia. rewrite Nat.div_add by lia. simpl. lia.
    - replace (length data + 2)%nat with (4 + q * 3)%nat by lia. rewrite Nat.div_add by lia. simpl. lia. }
  rewrite E. rewrite (proj2 (Nat.ltb_ge _ _)) by lia. cbn [c_bind].
  replace (length data + p - p)%nat with (length data) by lia. by rewrite take_app_length.
Qed.

(** Inline data survives base64: decoding the encoding of any bytes returns them, without
    reading past the end of the text. *)
Theorem base64_roundtrip data :
  is_bytes data → base64_decode (base64_encode data) = Val (Some data).
Proof. apply base64_decode_encode. Qed.

Lemma base64_roundtrip_witness :
  base64_encode [72; 105] = "SGk=" ∧ base64_decode (base64_encode [72; 105]) = Val (Some [72; 105]).
Proof.
  split; [reflexivity|]. apply base64_roundtrip. repeat (constructor; [by unfold in_range|]). constructor.
Defined.

(** A damaged text whose length is no multiple of four is read past its end. *)
Lemma base64_decode_overread : base64_decode "QQ" = Undef.
Proof. reflexivity. Qed.
