(* ===== verification/CSearch.v ===== *)
(** * Searching and reading C strings

    [strchr], [strstr], [strncmp] against a prefix, [strtol] and [atoll]. A pointer into a
    string is the pair of what lies before it and what lies from it on. *)

From S2P Require Import Prelude CInt CString.
From Stdlib Require Import Ascii.

Local Open Scope c_scope.

Fixpoint strchr (s : string) (c : ascii) : option (string * string) :=
  match s with
  | EmptyString => None
  | String d s' =>
      if bool_decide (d = c) then Some (EmptyString, s)
      else match strchr s' c with Some (b, r) => Some (String d b, r) | None => None end
  end.

(** [strncmp(s, prefix, strlen(prefix)) == 0] *)
Definition starts_with (s prefix : string) : bool := String.prefix prefix s.

Fixpoint strstr (s pat : string) : option (string * string) :=
  if String.prefix pat s then Some (EmptyString, s)
  else match s with
       | EmptyString => None
       | String d s' => match strstr s' pat with Some (b, r) => Some (String d b, r) | None => None end
       end.

(** [s + n] *)
Fixpoint str_drop (n : nat) (s : string) : string :=
  match n, s with
  | S n, String _ s => str_drop n s
  | _, _ => s
  end.

Fixpoint drop_digits (s : string) : string :=
  match s with
  | String c s' => match digit_value c with Some _ => drop_digits s' | None => s end
  | EmptyString => s
  end.

Definition LONG_MAX : Z := 2 ^ 63 - 1.
Definition LONG_MIN : Z := - 2 ^ 63.

(** The sign of a number and the rest. *)
Definition read_sign (s : string) : bool * string :=
  match s with
  | String "-" s' => (true, s')
  | String "+" s' => (false, s')
  | _ => (false, s)
  end.

(** The number at the start of [s], not limited to a width, and what follows it; without
    a digit there is no number and nothing is read. *)
Definition read_number (s : string) : Z * string :=
  let (neg, d) := read_sign (skip_space s) in
  match d with
  | String c _ =>
      match digit_value c with
      | Some _ => (let v := parse_digits 0 d in if neg then - v else v, drop_digits d)
      | None => (0, s)
      end
  | EmptyString => (0, s)
  end.

(** [strtol(s, &endptr, 10)]: the value, limited to [long], and what [endptr] points at. *)
Definition strtol (s : string) : Z * string :=
  let (v, rest) := read_number s in (Z.max LONG_MIN (Z.min LONG_MAX v), rest).

(** [atoll(s)]: undefined when the number does not fit. *)
Definition atoll (s : string) : c_result Z := i64c (read_number s).1.

(** ** Lemmas *)

Lemma string_app_assoc (a b c : string) : (a +:+ b) +:+ c = a +:+ (b +:+ c).
Proof. induction a as [|x a IH]; [done|]. exact (f_equal (String x) IH). Qed.

Lemma string_app_inj_r s t u : s +:+ u = t +:+ u → s = t.
Proof.
  intros E. assert (strlen s = strlen t) as Hl.
  { apply (f_equal strlen) in E. rewrite !strlen_app in E. lia. }
  revert t E Hl. induction s as [|x s IH]; intros [|y t] E Hl; try done.
  injection E as -> E. f_equal. apply IH; [done|]. by injection Hl.
Qed.

Lemma app_string_inj (s t u : string) : s +:+ t = s +:+ u → t = u.
Proof. induction s as [|c s IH]; [done|]. intros E. injection E. exact IH. Qed.

Lemma string_app_nil_r (a : string) : a +:+ "" = a.
Proof. induction a as [|x a IH]; [done|]. exact (f_equal (String x) IH). Qed.

(** No character of [s] is [c]. *)
Definition no_char (c : ascii) (s : string) : Prop := strchr s c = None.

#[export] Instance no_char_dec c s : Decision (no_char c s).
Proof. unfold no_char. apply _. Defined.

Lemma no_char_cons c d s : no_char c (String d s) ↔ d ≠ c ∧ no_char c s.
Proof.
  unfold no_char. simpl. case_bool_decide; [naive_solver|].
  destruct (strchr s c) as [[? ?]|]; naive_solver.
Qed.

Lemma no_char_app c s t : no_char c (s +:+ t) ↔ no_char c s ∧ no_char c t.
Proof.
  induction s as [|d s IH]; [naive_solver|].
  change (String d s +:+ t) with (String d (s +:+ t)). rewrite !no_char_cons, IH. naive_solver.
Qed.

Lemma strchr_Some s c b r :
  strchr s c = Some (b, r) → ∃ t, r = String c t ∧ s = b +:+ r ∧ no_char c b.
Proof.
  revert b. induction s as [|d s IH]; intros b; simpl; [done|]. case_bool_decide as Hd.
  - intros [= <- <-]. subst d. by exists s.
  - destruct (strchr s c) as [[b' r']|]; [|done]. intros [= <- <-].
    destruct (IH b' eq_refl) as (t & -> & -> & Hb). exists t. rewrite no_char_cons. done.
Qed.

Lemma strchr_app c b t : no_char c b → strchr (b +:+ String c t) c = Some (b, String c t).
Proof.
  induction b as [|d b IH].
  - intros _. simpl. by rewrite bool_decide_eq_true_2.
  - rewrite no_char_cons. intros [Hd Hb]. change (String d b +:+ String c t)
      with (String d (b +:+ String c t)). simpl.
    rewrite bool_decide_eq_false_2, IH by done. done.
Qed.

Lemma prefix_app p s : String.prefix p (p +:+ s) = true.
Proof.
  induction p as [|c p IH]; simpl; [by destruct s|]. by rewrite IH; destruct (ascii_dec c c).
Qed.

Lemma prefix_split p s : String.prefix p s = true → ∃ t, s = p +:+ t.
Proof.
  revert s. induction p as [|c p IH]; intros s; [by exists s|].
  destruct s as [|d s]; simpl; [done|]. destruct (ascii_dec c d) as [->|]; [|done].
  intros [t ->]%IH. by exists t.
Qed.

Lemma str_drop_app p s : str_drop (strlen p) (p +:+ s) = s.
Proof. induction p as [|c p IH]; simpl; [by destruct s|]. exact IH. Qed.

(** The search finds the first occurrence when the text before it cannot start one. *)
Lemma strstr_app s c pat t :
  no_char c s → strstr (s +:+ String c (pat +:+ t)) (String c pat) = Some (s, String c (pat +:+ t)).
Proof.
  induction s as [|d s IH].
  - intros _. change ("" +:+ String c (pat +:+ t)) with (String c (pat +:+ t)).
    cbn [strstr]. change (String c (pat +:+ t)) with (String c pat +:+ t) at 1.
    by rewrite prefix_app.
  - rewrite no_char_cons. intros [Hd Hs]. change (String d s +:+ String c (pat +:+ t))
      with (String d (s +:+ String c (pat +:+ t))).
    cbn [strstr String.prefix]. destruct (ascii_dec c d) as [->|_]; [done|]. by rewrite IH.
Qed.

Lemma strstr_Some s pat b r :
  strstr s pat = Some (b, r) → s = b +:+ r ∧ ∃ t, r = pat +:+ t.
Proof.
  revert b. induction s as [|d s IH]; intros b; cbn [strstr];
    (destruct (String.prefix pat _) eqn:Hp; [intros [= <- <-]; split; [done|by apply prefix_split]|]).
  - done.
  - destruct (strstr s pat) as [[b' r']|]; [|done]. intros [= <- <-].
    destruct (IH b' eq_refl) as (-> & ?). done.
Qed.

Lemma drop_digits_go x s : drop_digits (pretty_N_go x s) = drop_digits s.
Proof.
  revert s. induction (N.lt_wf_0 x) as [x _ IH]; intros s.
  destruct (decide (x = 0)%N) as [->|Hx]; [done|].
  rewrite pretty_N_go_step by lia. rewrite IH by (apply N.div_lt; lia). simpl.
  by rewrite digit_value_char by (apply N.mod_lt; lia).
Qed.

Lemma drop_digits_pretty (x : N) s : drop_digits (pretty x +:+ s) = drop_digits s.
Proof.
  unfold pretty, pretty_N. destruct (decide (x = 0)%N) as [->|]; [done|].
  by rewrite pretty_N_go_app, drop_digits_go.
Qed.

Lemma parse_digits_stop acc s :
  (∀ c t, s = String c t → digit_value c = None) → parse_digits acc s = acc.
Proof. destruct s as [|c t]; [done|]. intros Hs. simpl. by rewrite (Hs c t eq_refl). Qed.

Lemma digit_not_space c d : digit_value c = Some d → isspace c = false.
Proof.
  intros Hd%digit_value_range. unfold isspace.
  rewrite orb_false_iff, andb_false_iff, N.eqb_neq, !N.leb_gt. lia.
Qed.

Lemma digit_no_sign c d s : digit_value c = Some d → read_sign (String c s) = (false, String c s).
Proof.
  intros Hd%digit_value_range.
  destruct c as [[] [] [] [] [] [] [] []]; try reflexivity; exfalso; destruct Hd as [H1 H2];
    first [by apply H1|by apply H2].
Qed.

(** A printed number is read back, up to the first character that is not a digit. *)
Lemma read_number_pretty (x : N) s :
  (∀ c t, s = String c t → digit_value c = None) →
  read_number (pretty x +:+ s) = (Z.of_N x, s).
Proof.
  intros Hs. destruct (pretty_N_head x) as (c & d & t & E & Hd). unfold read_number.
  assert (parse_digits 0 (pretty x +:+ s) = Z.of_N x) as Hv.
  { destruct s as [|e s]; [rewrite string_app_nil_r; apply parse_digits_pretty|].
    apply parse_digits_pretty_app. by eapply Hs. }
  assert (drop_digits (pretty x +:+ s) = s) as Hr.
  { rewrite drop_digits_pretty. destruct s as [|e s]; [done|]. simpl. by rewrite (Hs e s eq_refl). }
  rewrite E in *. change (String c t +:+ s) with (String c (t +:+ s)) in *.
  cbn [skip_space]. rewrite (digit_not_space _ _ Hd), (digit_no_sign _ _ _ Hd), Hd, Hv, Hr. done.
Qed.

(** A printed number has digits only. *)
Lemma no_char_pretty c (x : N) : digit_value c = None → no_char c (pretty x).
Proof.
  intros Hc. assert (∀ x s, no_char c s → no_char c (pretty_N_go x s)) as Hgo.
  { clear x. intros x. induction (N.lt_wf_0 x) as [x _ IH]; intros s Hs.
    destruct (decide (x = 0)%N) as [->|Hx]; [done|]. rewrite pretty_N_go_step by lia.
    apply IH; [apply N.div_lt; lia|]. apply no_char_cons. split; [|done]. intros E.
    rewrite <-E, digit_value_char in Hc by (apply N.mod_lt; lia). done. }
  unfold pretty, pretty_N. destruct (decide (x = 0)%N); [|by apply Hgo].
  apply no_char_cons. split; [|done]. intros <-. done.
Qed.

(** ** Numbers at the end of a string *)

Lemma string_app_eq_inv (a b c d : string) :
  a +:+ b = c +:+ d →
  (∃ k, a = c +:+ k ∧ d = k +:+ b) ∨ (∃ k, c = a +:+ k ∧ b = k +:+ d).
Proof.
  revert c. induction a as [|x a IH]; intros c E.
  - right. by exists c.
  - destruct c as [|y c]; [left; by exists (String x a)|].
    change (String x (a +:+ b) = String y (c +:+ d)) in E. injection E as -> E.
    destruct (IH c E) as [(k & -> & ->)|(k & -> & ->)]; [left|right]; by exists k.
Qed.

Lemma last_char_in s c : last_char s = Some c → ¬ no_char c s.
Proof.
  induction s as [|d s IH]; [done|]. rewrite no_char_cons.
  destruct s as [|e s]; [by intros [= ->] [? _]|].
  intros Hl%IH [_ Hn]. done.
Qed.

Definition ends_nondigit (s : string) : Prop := ∃ c, last_char s = Some c ∧ digit_value c = None.

Lemma digits_suffix_prefix s t (i j : N) :
  ends_nondigit s → (∃ k, s = t +:+ k ∧ pretty j = k +:+ pretty i) → s = t.
Proof.
  intros (c & Hl & Hc) (k & -> & E). destruct k as [|x k]; [apply string_app_nil_r|].
  exfalso. rewrite last_char_app in Hl by done.
  pose proof (no_char_pretty c j Hc) as Hn. rewrite E, no_char_app in Hn.
  by apply (last_char_in _ _ Hl), Hn.
Qed.

(** A text that ends with a number determines what comes before it and the number. *)
Lemma digits_suffix_inj s t (i j : N) :
  ends_nondigit s → ends_nondigit t → s +:+ pretty i = t +:+ pretty j → s = t ∧ i = j.
Proof.
  intros Hs Ht E. assert (s = t) as ->.
  { destruct (string_app_eq_inv _ _ _ _ E) as [H|H];
      [by eapply digits_suffix_prefix|symmetry; by eapply digits_suffix_prefix]. }
  split; [done|]. clear Hs Ht. apply (inj pretty).
  induction t as [|c t IH]; [done|]. apply IH. by injection E.
Qed.
