(* ===== verification/BlockStream.v ===== *)
(** * Block-buffered absorption, shared by the incremental hashes

    [buckets_xxhash_update] and [buckets_siphash_update] run the same buffering
    discipline over different block sizes and block functions: top up the
    partial block, absorb whole blocks straight from the input, keep the tail.
    This file states that discipline once, gives it an abstract specification
    (the hash of the concatenation of everything fed so far) and proves that the
    buffered loop implements it.  XXHash.v and SipHash.v relate their own
    [update] functions to [stream_update] and inherit the results. *)

From S2P Require Import Prelude CInt.

Section BlockStream.
Context (B : nat) (HB : (0 < B)%nat).
Context {A : Type} (absorb : A → list Z → A).

(** [while (len >= B) { absorb(p); p += B; len -= B; }] *)
Fixpoint process_blocks (fuel : nat) (acc : A) (data : list Z) : A * list Z :=
  match fuel with
  | O => (acc, data)
  | S fuel =>
      if (B <=? length data)%nat
      then process_blocks fuel (absorb acc (take B data)) (drop B data)
      else (acc, data)
  end.

Record stream := Stream {
  s_acc : A;
  s_total : Z;
  s_buf : list Z;
  s_buf_len : nat
}.

Definition stream_update (s : stream) (data : list Z) : stream :=
  let total := add64 (s_total s) (Z.of_nat (length data)) in
  let '(acc, buf, buf_len, data) :=
    if (0 <? s_buf_len s)%nat then
      let to_copy := Nat.min (B - s_buf_len s) (length data) in
      let buf := memcpy_at (s_buf s) (s_buf_len s) (take to_copy data) in
      let buf_len := (s_buf_len s + to_copy)%nat in
      let data := drop to_copy data in
      if (buf_len =? B)%nat
      then (absorb (s_acc s) buf, buf, 0%nat, data)
      else (s_acc s, buf, buf_len, data)
    else (s_acc s, s_buf s, s_buf_len s, data) in
  let '(acc, rest) := process_blocks (length data) acc data in
  if (0 <? length rest)%nat
  then Stream acc total (memcpy_at buf 0 rest) (length rest)
  else Stream acc total buf buf_len.

(** ** The abstract specification: whole blocks, then the tail *)

Definition blocks (acc : A) (d : list Z) : A * list Z :=
  process_blocks (length d) acc d.

(** Closed form: the number of whole blocks, block [i], and the tail. *)
Definition n_blocks (d : list Z) : nat := (length d / B)%nat.
Definition block_at (d : list Z) (i : nat) : list Z := take B (drop (i * B) d).
Definition tail_of (d : list Z) : list Z := drop (n_blocks d * B) d.

Lemma process_blocks_fuel n m acc d :
  (length d ≤ n)%nat → (length d ≤ m)%nat →
  process_blocks n acc d = process_blocks m acc d.
Proof.
  revert m acc d. induction n as [|n IH]; intros m acc d Hn Hm.
  - destruct d; [|simpl in *; lia]. destruct m; [done|]. simpl. by destruct B; [lia|].
  - destruct m as [|m].
    + destruct d; [|simpl in *; lia]. simpl. by destruct B; [lia|].
    + simpl. split_if; [|done]. apply IH; len.
Qed.

Lemma blocks_unfold acc d :
  blocks acc d =
    if (B <=? length d)%nat then blocks (absorb acc (take B d)) (drop B d) else (acc, d).
Proof.
  unfold blocks. destruct d as [|x d]; simpl length.
  - simpl. by destruct B; [lia|].
  - cbn [process_blocks]. simpl length. split_if; [|done].
    apply process_blocks_fuel; len.
Qed.

Lemma blocks_small acc d : (length d < B)%nat → blocks acc d = (acc, d).
Proof. intros. rewrite blocks_unfold. by split_if; [lia|]. Qed.

Lemma blocks_app acc d x :
  blocks acc (d ++ x) = let '(a, r) := blocks acc d in blocks a (r ++ x).
Proof.
  remember (length d) as n eqn:Hn. revert acc d Hn.
  induction n as [n IH] using lt_wf_ind. intros acc d ->.
  rewrite (blocks_unfold acc d). split_if.
  - rewrite blocks_unfold, (proj2 (Nat.leb_le _ _)) by len.
    destruct (take_app_drop_split d x B) as [-> ->]; [done|].
    eapply IH; [|done]. len.
  - done.
Qed.

Lemma blocks_rest_lt acc d : (length (blocks acc d).2 < B)%nat.
Proof.
  remember (length d) as n eqn:Hn. revert acc d Hn.
  induction n as [n IH] using lt_wf_ind. intros acc d ->.
  rewrite blocks_unfold. split_if; [|simpl; lia].
  eapply IH; [|done]. len.
Qed.

Lemma blocks_rest_bytes acc d : is_bytes d → is_bytes (blocks acc d).2.
Proof.
  remember (length d) as n eqn:Hn. revert acc d Hn.
  induction n as [n IH] using lt_wf_ind. intros acc d -> Hd.
  rewrite blocks_unfold. split_if; [|done].
  eapply IH; [|done|by apply Forall_drop]. len.
Qed.

(** The loop computes the closed form. *)
Lemma blocks_closed_form acc d :
  blocks acc d =
    (foldl (λ a i, absorb a (block_at d i)) acc (seq 0 (n_blocks d)), tail_of d).
Proof.
  remember (length d) as n eqn:Hn. revert acc d Hn.
  induction n as [n IH] using lt_wf_ind. intros acc d ->.
  rewrite blocks_unfold. split_if.
  - rewrite (IH (length (drop B d))) by len.
    assert (n_blocks d = S (n_blocks (drop B d))) as Hnb.
    { unfold n_blocks. rewrite length_drop.
      replace (length d) with (1 * B + (length d - B))%nat at 1 by lia.
      rewrite Nat.div_add_l by lia. done. }
    f_equal.
    + rewrite Hnb. cbn [seq foldl]. rewrite <-fmap_S_seq, foldl_fmap.
      apply foldl_ext. intros a i. unfold block_at.
      by rewrite drop_drop.
    + unfold tail_of. rewrite Hnb, drop_drop. f_equal; lia.
  - assert (n_blocks d = 0%nat) as Hnb by (unfold n_blocks; apply Nat.div_small; lia).
    unfold tail_of. by rewrite Hnb.
Qed.

(** [stream_rep a0 s d]: the state [s] was started at accumulator [a0] and fed
    the bytes [d] in pieces.  Bytes of the buffer past [s_buf_len] are stale and
    unconstrained. *)
Definition stream_rep (a0 : A) (s : stream) (d : list Z) : Prop :=
  length (s_buf s) = B ∧ (s_buf_len s < B)%nat ∧
  s_total s = u64 (Z.of_nat (length d)) ∧
  blocks a0 d = (s_acc s, take (s_buf_len s) (s_buf s)).

Lemma stream_rep_init a0 s :
  length (s_buf s) = B → s_buf_len s = 0%nat → s_total s = 0 → s_acc s = a0 →
  stream_rep a0 s [].
Proof. intros ? Hb ? <-. repeat split; rewrite ?Hb; done || lia. Qed.

Lemma s_total_app (d x : list Z) (t : Z) :
  t = u64 (Z.of_nat (length d)) →
  add64 t (Z.of_nat (length x)) = u64 (Z.of_nat (length (d ++ x))).
Proof.
  intros ->. unfold add64, u64, wrap. rewrite Zplus_mod_idemp_l, length_app. f_equal. lia.
Qed.

(** Keeping a tail of fewer than [B] bytes at the front of the buffer. *)
Lemma take_memcpy_front (buf r : list Z) :
  length buf = B → (length r < B)%nat →
  length (memcpy_at buf 0 r) = B ∧ take (length r) (memcpy_at buf 0 r) = r.
Proof.
  intros Hb Hr. split; [rewrite length_memcpy_at; lia|].
  apply (take_memcpy_at buf 0 r). lia.
Qed.

(** The tail of [stream_update]: absorb whole blocks, buffer the rest. *)
Lemma stream_finish_rep a0 d acc buf data total :
  length buf = B → blocks a0 d = blocks acc data →
  total = u64 (Z.of_nat (length d)) →
  stream_rep a0
    (let '(acc, rest) := process_blocks (length data) acc data in
     if (0 <? length rest)%nat
     then Stream acc total (memcpy_at buf 0 rest) (length rest)
     else Stream acc total buf 0) d.
Proof.
  intros Hb Hd Ht. pose proof (blocks_rest_lt acc data) as Hlt.
  fold (blocks acc data). destruct (blocks acc data) as [acc' rest]. simpl in Hlt.
  split_if.
  - destruct (take_memcpy_front buf rest) as [? Htk]; [done..|].
    repeat split; simpl; [done..|]. by rewrite Htk.
  - destruct rest; [|simpl in *; lia]. by repeat split; simpl.
Qed.

Lemma stream_update_rep a0 s d x :
  stream_rep a0 s d → stream_rep a0 (stream_update s x) (d ++ x).
Proof.
  intros (Hb & Hlt & Ht & Hbl). apply (s_total_app d x) in Ht.
  pose proof (blocks_app a0 d x) as Happ. rewrite Hbl in Happ.
  unfold stream_update. destruct (0 <? s_buf_len s)%nat eqn:Hpos; breflect.
  - set (c := Nat.min (B - s_buf_len s) (length x)).
    set (buf := memcpy_at (s_buf s) (s_buf_len s) (take c x)).
    assert (s_buf_len s + c ≤ B)%nat as HcB by (subst c; lia).
    assert (length (take c x) = c) as Hc by (subst c; len).
    assert (length buf = B) as Hbuf
      by (subst buf; rewrite length_memcpy_at; rewrite ?Hc; subst c; lia).
    assert (take (s_buf_len s + c) buf = take (s_buf_len s) (s_buf s) ++ take c x) as Htk.
    { subst buf. rewrite <-Hc at 1. apply take_memcpy_at. lia. }
    destruct (s_buf_len s + c =? B)%nat eqn:Hfull; breflect.
    + apply stream_finish_rep; [done| |done].
      rewrite Happ, blocks_unfold, (proj2 (Nat.leb_le _ _)) by (subst c; len).
      rewrite Hfull, firstn_all2 in Htk by lia.
      rewrite <-(take_drop c x) at 1 2. rewrite app_assoc, <-Htk.
      by rewrite take_app_length', drop_app_length' by done.
    + assert (c = length x) as -> by (subst c; lia).
      assert (drop (length x) x = []) as -> by (by apply drop_ge). simpl.
      repeat split; simpl; [done|lia|done|].
      rewrite Happ, Htk, (firstn_all2 x) by lia. apply blocks_small. len.
  - assert (s_buf_len s = 0%nat) as Hz by lia. rewrite Hz in *.
    apply stream_finish_rep; [done| |done]. by rewrite Happ.
Qed.

(** Two histories of pieces with the same concatenation end in states that
    agree on everything a finalisation reads. *)
Definition stream_eq (s t : stream) : Prop :=
  s_acc s = s_acc t ∧ s_total s = s_total t ∧ s_buf_len s = s_buf_len t ∧
  take (s_buf_len s) (s_buf s) = take (s_buf_len t) (s_buf t).

Lemma stream_rep_unique a0 s t d : stream_rep a0 s d → stream_rep a0 t d → stream_eq s t.
Proof.
  intros (Hs1 & Hs2 & Hs3 & Hs4) (Ht1 & Ht2 & Ht3 & Ht4).
  rewrite Hs4 in Ht4. injection Ht4 as Ha Hb. repeat split; [done|congruence| |done].
  apply (f_equal length) in Hb. len.
Qed.

#[export] Instance stream_eq_equiv : Equivalence stream_eq.
Proof.
  split.
  - intros s. by repeat split.
  - intros s t (?&?&?&?). by repeat split.
  - intros s t u (?&?&?&?) (?&?&?&?). repeat split; congruence.
Qed.
End BlockStream.

Arguments Stream {A} _ _ _ _.
Arguments s_acc {A} _.
Arguments s_total {A} _.
Arguments s_buf {A} _.
Arguments s_buf_len {A} _.
