(* ===== verification/XXHash.v ===== *)
(** * xxHash-64 (src/src/hash/xxhash.c)

    The incremental hash used for checksums and for positions on the hash ring.
    [buckets_xxhash_update] is the source's buffered loop; the main theorem says
    that whatever the pieces and whatever garbage the state buffer held, the
    digest is the one-pass reference [xxh64_ref] of the concatenated input. *)

From S2P Require Import Prelude CInt BlockStream.

Open Scope u64_scope.

Definition XXHASH_PRIME64_1 : Z := 0x9E3779B185EBCA87.
Definition XXHASH_PRIME64_2 : Z := 0xC2B2AE3D27D4EB4F.
Definition XXHASH_PRIME64_3 : Z := 0x165667B19E3779F9.
Definition XXHASH_PRIME64_4 : Z := 0x85EBCA77C2B2AE63.
Definition XXHASH_PRIME64_5 : Z := 0x27D4EB2F165667C5.

Definition xxh_read64 (p : list Z) : Z := load_le64 p.
Definition xxh_read32 (p : list Z) : Z := load_le32 p.

Definition xxh_round (acc input : Z) : Z :=
  let acc := acc +! input *! XXHASH_PRIME64_2 in
  let acc := ROTL64 acc 31 in
  acc *! XXHASH_PRIME64_1.

Definition xxh_merge_round (acc val : Z) : Z :=
  let val := xxh_round 0 val in
  let acc := acc ^! val in
  acc *! XXHASH_PRIME64_1 +! XXHASH_PRIME64_4.

(** [buckets_xxhash_state_t] *)
Record xxhash_state := XXHashState {
  v1 : Z; v2 : Z; v3 : Z; v4 : Z;
  total_len : Z;
  seed : Z;
  buf : list Z;
  buf_len : nat
}.

(** [buckets_xxhash_init]: the buffer is left as it was. *)
Definition buckets_xxhash_init (state : option xxhash_state) (sd : Z) : option xxhash_state :=
  match state with
  | None => None
  | Some st =>
      Some {| v1 := sd +! XXHASH_PRIME64_1 +! XXHASH_PRIME64_2;
              v2 := sd +! XXHASH_PRIME64_2;
              v3 := sd;
              v4 := sd -! XXHASH_PRIME64_1;
              total_len := 0;
              seed := sd;
              buf := buf st;
              buf_len := 0 |}
  end.

(** One 32-byte stripe into the four accumulators. *)
Definition xxh_stripe (acc : Z * Z * Z * Z) (p : list Z) : Z * Z * Z * Z :=
  let '(a1, a2, a3, a4) := acc in
  (xxh_round a1 (xxh_read64 p),
   xxh_round a2 (xxh_read64 (drop 8 p)),
   xxh_round a3 (xxh_read64 (drop 16 p)),
   xxh_round a4 (xxh_read64 (drop 24 p))).

(** [buckets_xxhash_update]; [data] is the pointer together with its [len] bytes. *)
Definition buckets_xxhash_update (state : option xxhash_state) (data : option (list Z))
    : option xxhash_state :=
  match state, data with
  | None, _ => None
  | Some st, None => Some st
  | Some st, Some p =>
      let total := total_len st +! Z.of_nat (length p) in
      let acc := (v1 st, v2 st, v3 st, v4 st) in
      let '(acc, b, bl, p) :=
        if (0 <? buf_len st)%nat then
          let to_copy :=
            if (length p <? 32 - buf_len st)%nat then length p else (32 - buf_len st)%nat in
          let b := memcpy_at (buf st) (buf_len st) (take to_copy p) in
          let bl := (buf_len st + to_copy)%nat in
          let p := drop to_copy p in
          if (bl =? 32)%nat then (xxh_stripe acc b, b, 0%nat, p) else (acc, b, bl, p)
        else (acc, buf st, buf_len st, p) in
      let '(a1, a2, a3, a4, p) := process_blocks 32 xxh_stripe (length p) acc p in
      let '(b, bl) :=
        if (0 <? length p)%nat then (memcpy_at b 0 p, length p) else (b, bl) in
      Some {| v1 := a1; v2 := a2; v3 := a3; v4 := a4; total_len := total;
              seed := seed st; buf := b; buf_len := bl |}
  end.

(** The three tail loops of [buckets_xxhash_final]. *)
Definition xxh_tail8 (h64 : Z) (p : list Z) : Z :=
  let k1 := xxh_round 0 (xxh_read64 p) in
  let h64 := h64 ^! k1 in
  ROTL64 h64 27 *! XXHASH_PRIME64_1 +! XXHASH_PRIME64_4.

Definition xxh_tail4 (h64 : Z) (p : list Z) : Z :=
  let h64 := h64 ^! (xxh_read32 p *! XXHASH_PRIME64_1) in
  ROTL64 h64 23 *! XXHASH_PRIME64_2 +! XXHASH_PRIME64_3.

Definition xxh_tail1 (h64 b : Z) : Z :=
  let h64 := h64 ^! (b *! XXHASH_PRIME64_5) in
  ROTL64 h64 11 *! XXHASH_PRIME64_1.

Definition xxh_avalanche (h64 : Z) : Z :=
  let h64 := h64 ^! shr64 h64 33 in
  let h64 := h64 *! XXHASH_PRIME64_2 in
  let h64 := h64 ^! shr64 h64 29 in
  let h64 := h64 *! XXHASH_PRIME64_3 in
  h64 ^! shr64 h64 32.

(** Mixing the accumulators. *)
Definition xxh_converge (a1 a2 a3 a4 : Z) : Z :=
  let h64 := ROTL64 a1 1 +! ROTL64 a2 7 +! ROTL64 a3 12 +! ROTL64 a4 18 in
  let h64 := xxh_merge_round h64 a1 in
  let h64 := xxh_merge_round h64 a2 in
  let h64 := xxh_merge_round h64 a3 in
  xxh_merge_round h64 a4.

Definition buckets_xxhash_final (state : option xxhash_state) : Z :=
  match state with
  | None => 0
  | Some st =>
      let h64 :=
        if (32 <=? total_len st)%Z
        then xxh_converge (v1 st) (v2 st) (v3 st) (v4 st)
        else seed st +! XXHASH_PRIME64_5 in
      let h64 := h64 +! total_len st in
      let p := take (buf_len st) (buf st) in
      let '(h64, p) := process_blocks 8 xxh_tail8 (length p) h64 p in
      let '(h64, p) :=
        if (4 <=? length p)%nat then (xxh_tail4 h64 p, drop 4 p) else (h64, p) in
      let h64 := foldl xxh_tail1 h64 p in
      xxh_avalanche h64
  end.

(** The uninitialised stack state of the one-shot functions. *)
Definition xxh_stack_state : xxhash_state :=
  {| v1 := 0; v2 := 0; v3 := 0; v4 := 0; total_len := 0; seed := 0;
     buf := replicate 32 0; buf_len := 0 |}.

Definition buckets_xxhash64 (sd : Z) (data : option (list Z)) : Z :=
  let state := buckets_xxhash_init (Some xxh_stack_state) sd in
  let state := buckets_xxhash_update state data in
  buckets_xxhash_final state.

Definition buckets_checksum (data : option (list Z)) : Z := buckets_xxhash64 0 data.

(** ** Reference: XXH64 in one pass over the whole input *)

Definition xxh_init_acc (sd : Z) : Z * Z * Z * Z :=
  (sd +! XXHASH_PRIME64_1 +! XXHASH_PRIME64_2, sd +! XXHASH_PRIME64_2, sd,
   sd -! XXHASH_PRIME64_1).

Definition xxh64_tail_ref (h : Z) (t : list Z) : Z :=
  let n8 := (length t / 8)%nat in
  let h := foldl (λ h i, xxh_tail8 h (take 8 (drop (i * 8) t))) h (seq 0 n8) in
  let r := drop (n8 * 8) t in
  let '(h, r) := if (4 <=? length r)%nat then (xxh_tail4 h r, drop 4 r) else (h, r) in
  xxh_avalanche (foldl xxh_tail1 h r).

Definition xxh64_ref (sd : Z) (d : list Z) : Z :=
  let n := (length d / 32)%nat in
  let '(a1, a2, a3, a4) :=
    foldl (λ a i, xxh_stripe a (take 32 (drop (i * 32) d))) (xxh_init_acc sd) (seq 0 n) in
  let h :=
    if (32 <=? length d)%nat then xxh_converge a1 a2 a3 a4 else sd +! XXHASH_PRIME64_5 in
  xxh64_tail_ref (h +! Z.of_nat (length d)) (drop (n * 32) d).

(** ** Known answers (tests/hash/test_xxhash.c) *)

Example xxhash64_empty : buckets_xxhash64 0 (Some []) = 0xEF46DB3751D8E999.
Proof. vm_compute. reflexivity. Qed.
Example xxhash64_abc : buckets_xxhash64 0 (Some (str_bytes "abc")) = 0x44BC2CF5AD770999.
Proof. vm_compute. reflexivity. Qed.
Example xxhash64_alphabet :
  buckets_xxhash64 0 (Some (str_bytes "abcdefghijklmnopqrstuvwxyz")) = 0xCFE1F278FA89835C.
Proof. vm_compute. reflexivity. Qed.
Example xxhash64_stripes :
  buckets_xxhash64 7 (Some (str_bytes "abcdefghijklmnopqrstuvwxyzabcdefghijklmnopqrstuvwxyz"))
  = xxh64_ref 7 (str_bytes "abcdefghijklmnopqrstuvwxyzabcdefghijklmnopqrstuvwxyz").
Proof. vm_compute. reflexivity. Qed.

(** ** Refinement of the block stream *)

Definition xxh_stream (st : xxhash_state) : stream :=
  Stream (v1 st, v2 st, v3 st, v4 st) (total_len st) (buf st) (buf_len st).

Lemma xxh_update_stream st p :
  ∃ st', buckets_xxhash_update (Some st) (Some p) = Some st' ∧ seed st' = seed st ∧
         xxh_stream st' = stream_update 32 xxh_stripe (xxh_stream st) p.
Proof.
  unfold buckets_xxhash_update, stream_update, xxh_stream.
  cbn [s_acc s_total s_buf s_buf_len].
  replace (if (length p <? 32 - buf_len st)%nat then length p else (32 - buf_len st)%nat)
    with (Nat.min (32 - buf_len st) (length p)) by (split_if; lia).
  match goal with
  | |- context [if (0 <? buf_len st)%nat then ?a else ?b] =>
      destruct (if (0 <? buf_len st)%nat then a else b) as [[[acc b'] bl] q]
  end.
  destruct (process_blocks 32 xxh_stripe (length q) acc q) as [[[[a1 a2] a3] a4] r].
  destruct (0 <? length r)%nat; eexists; repeat split.
Qed.

(** [xxh_fed sd d st]: [st] is an initialised state, of seed [sd], that was fed [d]. *)
Definition xxh_fed (sd : Z) (d : list Z) (st : xxhash_state) : Prop :=
  seed st = sd ∧ stream_rep 32 xxh_stripe (xxh_init_acc sd) (xxh_stream st) d.

Lemma xxh_fed_init sd st0 :
  length (buf st0) = 32%nat →
  ∃ st, buckets_xxhash_init (Some st0) sd = Some st ∧ xxh_fed sd [] st.
Proof.
  intros Hb. eexists; split; [done|]. split; [done|].
  by apply stream_rep_init; [lia|..].
Qed.

Lemma xxh_fed_update sd d st p :
  xxh_fed sd d st →
  ∃ st', buckets_xxhash_update (Some st) (Some p) = Some st' ∧ xxh_fed sd (d ++ p) st'.
Proof.
  intros [Hs Hr]. destruct (xxh_update_stream st p) as (st' & Hu & Hs' & He).
  exists st'. split; [done|]. split; [congruence|].
  rewrite He. apply stream_update_rep; [lia|done].
Qed.

Lemma xxh_fed_pieces sd ds d st :
  xxh_fed sd d st →
  ∃ st', foldl (λ s p, buckets_xxhash_update s (Some p)) (Some st) ds = Some st'
         ∧ xxh_fed sd (d ++ concat ds) st'.
Proof.
  revert d st. induction ds as [|p ds IH]; intros d st H.
  - exists st. by rewrite app_nil_r.
  - destruct (xxh_fed_update sd d st p H) as (st' & Hu & H').
    cbn [foldl concat]. rewrite Hu, app_assoc. by apply IH.
Qed.

(** What a finalisation computes from the bytes fed. *)
Lemma xxh_final_fed sd d st :
  xxh_fed sd d st → (Z.of_nat (length d) < 2 ^ 64)%Z →
  buckets_xxhash_final (Some st) = xxh64_ref sd d.
Proof.
  intros [Hs (Hb & Hlt & Ht & Hbl)] Hlen.
  cbn [xxh_stream s_acc s_total s_buf s_buf_len] in *.
  rewrite u64_small in Ht by (split; [lia|done]).
  rewrite blocks_closed_form in Hbl by lia. unfold block_at, n_blocks, tail_of in Hbl.
  apply pair_equal_spec in Hbl as [Hacc Htail].
  unfold buckets_xxhash_final, xxh64_ref. rewrite Hacc, <-Htail, Ht, Hs.
  replace (32 <=? Z.of_nat (length d))%Z with (32 <=? length d)%nat
    by (apply eq_true_iff_eq; rewrite Nat.leb_le, Z.leb_le; lia).
  unfold xxh64_tail_ref.
  set (t := drop _ d).
  match goal with
  | |- context [process_blocks 8 xxh_tail8 (length t) ?h t] =>
      change (process_blocks 8 xxh_tail8 (length t) h t) with (blocks 8 xxh_tail8 h t)
  end.
  rewrite blocks_closed_form by lia. unfold block_at, n_blocks, tail_of.
  by destruct (4 <=? length (drop _ t))%nat.
Qed.

(** ** Ranges and injectivity *)

Lemma xxh_round_range a i : is_u64 (xxh_round a i).
Proof. apply mul64_range. Qed.
#[local] Hint Resolve xxh_round_range : buckets.

Lemma xxh_avalanche_range h : is_u64 h → is_u64 (xxh_avalanche h).
Proof. intros. unfold xxh_avalanche. auto 8 with buckets. Qed.

Lemma foldl_u64 {B} (f : Z → B → Z) h l :
  (∀ h b, is_u64 (f h b)) → is_u64 h → is_u64 (foldl f h l).
Proof. intros Hf. revert h. induction l; simpl; auto. Qed.

Lemma process_blocks_u64 B f n h d :
  (∀ h b, is_u64 (f h b)) → is_u64 h → is_u64 (process_blocks B f n h d).1.
Proof. intros Hf. revert h d. induction n; intros h d Hh; simpl; [done|]. split_if; auto. Qed.

Lemma xxh_final_range state : is_u64 (buckets_xxhash_final state).
Proof.
  destruct state as [st|]; [|by split]. unfold buckets_xxhash_final.
  match goal with
  | |- context [process_blocks 8 xxh_tail8 ?n ?h ?p] =>
      pose proof (process_blocks_u64 8 xxh_tail8 n h p) as Hb;
      destruct (process_blocks 8 xxh_tail8 n h p) as [h1 r]
  end.
  assert (is_u64 h1) as Hh1 by (apply Hb; intros; apply add64_range).
  destruct (4 <=? length r)%nat; apply xxh_avalanche_range, foldl_u64;
    intros; apply mul64_range || apply add64_range || done.
Qed.

Lemma xxhash64_range sd data : is_u64 (buckets_xxhash64 sd data).
Proof. apply xxh_final_range. Qed.

Lemma xxhash64_ref sd d :
  (Z.of_nat (length d) < 2 ^ 64)%Z → buckets_xxhash64 sd (Some d) = xxh64_ref sd d.
Proof.
  intros Hlen. unfold buckets_xxhash64.
  destruct (xxh_fed_init sd xxh_stack_state) as (st & -> & Hf); [done|].
  destruct (xxh_fed_update sd [] st d Hf) as (st' & -> & Hf').
  by apply xxh_final_fed.
Qed.

Lemma xxh_round_0_inj a b : is_u64 a → is_u64 b → xxh_round 0 a = xxh_round 0 b → a = b.
Proof.
  unfold xxh_round. intros Ha Hb H. rewrite !add64_0_l in H by auto with buckets.
  apply (mul64_unit_inj _ 0x887493432badb37) in H; [|done|auto with buckets..].
  apply (f_equal (λ x, rotr64 x 31)) in H. rewrite !rotr64_ROTL64 in H by auto with buckets lia.
  by apply (mul64_unit_inj _ 0xba79078168d4baf) in H.
Qed.

Lemma xxh_avalanche_inj a b :
  is_u64 a → is_u64 b → xxh_avalanche a = xxh_avalanche b → a = b.
Proof.
  unfold xxh_avalanche. intros Ha Hb H.
  apply xorshift_inj in H; [|lia|auto with buckets..].
  apply (mul64_unit_inj _ 0xe9e9f4c41d6df849) in H; [|done|auto 6 with buckets..].
  apply xorshift_inj in H; [|lia|auto with buckets..].
  apply (mul64_unit_inj _ 0xba79078168d4baf) in H; [|done|auto with buckets..].
  by apply xorshift_inj in H.
Qed.

Lemma xxh_tail8_inj h a b :
  is_u64 h → is_bytes a → is_bytes b → xxh_tail8 h a = xxh_tail8 h b →
  xxh_read64 a = xxh_read64 b.
Proof.
  unfold xxh_tail8, xxh_read64. intros Hh Ha Hb H.
  apply (f_equal (λ x, sub64 x XXHASH_PRIME64_4)) in H.
  rewrite !sub64_add64 in H by auto with buckets.
  apply (mul64_unit_inj _ 0x887493432badb37) in H; [|done|auto with buckets..].
  apply (f_equal (λ x, rotr64 x 27)) in H. rewrite !rotr64_ROTL64 in H by auto with buckets lia.
  apply xor64_inj_l in H. apply xxh_round_0_inj in H; auto with buckets.
Qed.

Lemma xxh64_ref_eight sd a :
  length a = 8%nat →
  xxh64_ref sd a = xxh_avalanche (xxh_tail8 (sd +! XXHASH_PRIME64_5 +! 8) a).
Proof. intros Ha. do 8 (destruct a as [|? a]; [done|]). by destruct a; [|done]. Qed.

(** ** Properties *)

(** Whatever the pieces an input is split into, and whatever bytes the state
    buffer held before initialisation, initialising, updating with each piece and
    finalising yields the one-pass XXH64 of the concatenated input (inputs shorter
    than 2^64 bytes). *)
Theorem xxhash_incremental_refines_reference st0 sd ds :
  length (buf st0) = 32%nat →
  (Z.of_nat (length (concat ds)) < 2 ^ 64)%Z →
  buckets_xxhash_final
    (foldl (λ s p, buckets_xxhash_update s (Some p)) (buckets_xxhash_init (Some st0) sd) ds)
  = xxh64_ref sd (concat ds).
Proof.
  intros Hb Hlen. destruct (xxh_fed_init sd st0 Hb) as (st & -> & Hf).
  destruct (xxh_fed_pieces sd ds [] st Hf) as (st' & -> & Hf').
  by apply xxh_final_fed.
Qed.

Lemma xxhash_incremental_refines_reference_witness :
  let st0 := {| v1 := 9; v2 := 9; v3 := 9; v4 := 9; total_len := 77; seed := 5;
                buf := replicate 32 255; buf_len := 3 |} in
  let ds := [str_bytes "abcdefghijklmnopqrstuvwxyz"; []; str_bytes "0123456789"; [7%Z]] in
  buckets_xxhash_final
    (foldl (λ s p, buckets_xxhash_update s (Some p)) (buckets_xxhash_init (Some st0) 42) ds)
  = xxh64_ref 42 (concat ds).
Proof. intros st0 ds. apply xxhash_incremental_refines_reference; vm_compute; reflexivity. Defined.

(** On inputs of exactly eight bytes XXH64 has no collisions: two inputs with
    the same seed and the same digest are equal. *)
Theorem xxhash64_eight_bytes_injective sd a b :
  is_bytes a → is_bytes b → length a = 8%nat → length b = 8%nat → a ≠ b →
  buckets_xxhash64 sd (Some a) ≠ buckets_xxhash64 sd (Some b).
Proof.
  intros Ha Hb Hla Hlb Hne H. apply Hne.
  rewrite !xxhash64_ref, !xxh64_ref_eight in H by lia.
  apply xxh_avalanche_inj in H; [|apply add64_range..].
  apply xxh_tail8_inj in H; [|auto with buckets..].
  rewrite <-(store_load_le64 a), <-(store_load_le64 b) by done. by f_equal.
Qed.

Lemma xxhash64_eight_bytes_injective_witness :
  buckets_xxhash64 3 (Some [1;2;3;4;5;6;7;8]%Z) ≠ buckets_xxhash64 3 (Some [1;2;3;4;5;6;7;9]%Z).
Proof.
  apply (xxhash64_eight_bytes_injective 3); [| |done|done|done];
    repeat constructor; discriminate.
Defined.
