(* ===== verification/SipHash.v ===== *)
(** * SipHash-2-4 (src/src/hash/siphash.c)

    The keyed hash behind object placement.  As for xxHash, the buffered update is
    proved equal to a one-pass reference; in addition the mixing round is shown to
    be a permutation of the state, and the placement helpers are modelled with
    their error paths. *)

From Stdlib Require Import Btauto.
From S2P Require Import Prelude CInt BlockStream.

Open Scope u64_scope.

(** The four state words. *)
Abbreviation sip_v := (Z * Z * Z * Z)%type.

(** [#define SIPROUND] *)
Definition SIPROUND (v : sip_v) : sip_v :=
  let '(v0, v1, v2, v3) := v in
  let v0 := v0 +! v1 in let v1 := ROTL64 v1 13 in let v1 := v1 ^! v0 in
  let v0 := ROTL64 v0 32 in
  let v2 := v2 +! v3 in let v3 := ROTL64 v3 16 in let v3 := v3 ^! v2 in
  let v0 := v0 +! v3 in let v3 := ROTL64 v3 21 in let v3 := v3 ^! v0 in
  let v2 := v2 +! v1 in let v1 := ROTL64 v1 17 in let v1 := v1 ^! v2 in
  let v2 := ROTL64 v2 32 in
  (v0, v1, v2, v3).

(** One message word: [v3 ^= m; SIPROUND; SIPROUND; v0 ^= m]. *)
Definition sip_compress (v : sip_v) (m : Z) : sip_v :=
  let '(v0, v1, v2, v3) := v in
  let v3 := v3 ^! m in
  let '(v0, v1, v2, v3) := SIPROUND (SIPROUND (v0, v1, v2, v3)) in
  (v0 ^! m, v1, v2, v3).

Definition sip_absorb (v : sip_v) (p : list Z) : sip_v := sip_compress v (load_le64 p).

(** [buckets_siphash_state_t] *)
Record siphash_state := SipHashState {
  v0 : Z; v1 : Z; v2 : Z; v3 : Z;
  k0 : Z; k1 : Z;
  total_len : Z;
  buf : list Z;
  buf_len : nat
}.

Definition buckets_siphash_init (state : option siphash_state) (key0 key1 : Z)
    : option siphash_state :=
  match state with
  | None => None
  | Some st =>
      Some {| k0 := key0; k1 := key1;
              v0 := key0 ^! 0x736f6d6570736575;
              v1 := key1 ^! 0x646f72616e646f6d;
              v2 := key0 ^! 0x6c7967656e657261;
              v3 := key1 ^! 0x7465646279746573;
              total_len := 0;
              buf := buf st;
              buf_len := 0 |}
  end.

Definition buckets_siphash_update (state : option siphash_state) (data : option (list Z))
    : option siphash_state :=
  match state, data with
  | None, _ => None
  | Some st, None => Some st
  | Some st, Some p =>
      let total := total_len st +! Z.of_nat (length p) in
      let v := (v0 st, v1 st, v2 st, v3 st) in
      let '(v, b, bl, p) :=
        if (0 <? buf_len st)%nat then
          let to_copy :=
            if (length p <? 8 - buf_len st)%nat then length p else (8 - buf_len st)%nat in
          let b := memcpy_at (buf st) (buf_len st) (take to_copy p) in
          let bl := (buf_len st + to_copy)%nat in
          let p := drop to_copy p in
          if (bl =? 8)%nat then (sip_absorb v b, b, 0%nat, p) else (v, b, bl, p)
        else (v, buf st, buf_len st, p) in
      let '(w0, w1, w2, w3, p) := process_blocks 8 sip_absorb (length p) v p in
      let '(b, bl) :=
        if (0 <? length p)%nat then (memcpy_at b 0 p, length p) else (b, bl) in
      Some {| v0 := w0; v1 := w1; v2 := w2; v3 := w3; k0 := k0 st; k1 := k1 st;
              total_len := total; buf := b; buf_len := bl |}
  end.

(** The final word: the length byte on top and the buffered bytes below, by the
    fall-through [switch]; a [buf_len] outside 0..7 selects no case. *)
Definition sip_last_word (total : Z) (b : list Z) (bl : nat) : Z :=
  let w := shl64 (Z.land total 0xff) 56 in
  if (7 <? bl)%nat then w else
  let w := if (7 <=? bl)%nat then Z.lor w (shl64 (byte_at b 6) 48) else w in
  let w := if (6 <=? bl)%nat then Z.lor w (shl64 (byte_at b 5) 40) else w in
  let w := if (5 <=? bl)%nat then Z.lor w (shl64 (byte_at b 4) 32) else w in
  let w := if (4 <=? bl)%nat then Z.lor w (shl64 (byte_at b 3) 24) else w in
  let w := if (3 <=? bl)%nat then Z.lor w (shl64 (byte_at b 2) 16) else w in
  let w := if (2 <=? bl)%nat then Z.lor w (shl64 (byte_at b 1) 8) else w in
  if (1 <=? bl)%nat then Z.lor w (byte_at b 0) else w.

Definition sip_fold (v : sip_v) : Z :=
  let '(w0, w1, w2, w3) := v in ((w0 ^! w1) ^! w2) ^! w3.

(** [v2 ^= 0xff] and the four finalisation rounds. *)
Definition sip_finalize (v : sip_v) : Z :=
  let '(w0, w1, w2, w3) := v in
  sip_fold (SIPROUND (SIPROUND (SIPROUND (SIPROUND (w0, w1, w2 ^! 0xff, w3))))).

Definition buckets_siphash_final (state : option siphash_state) : Z :=
  match state with
  | None => 0
  | Some st =>
      let b := sip_last_word (total_len st) (buf st) (buf_len st) in
      sip_finalize (sip_compress (v0 st, v1 st, v2 st, v3 st) b)
  end.

(** The uninitialised stack state of the one-shot functions. *)
Definition sip_stack_state : siphash_state :=
  {| v0 := 0; v1 := 0; v2 := 0; v3 := 0; k0 := 0; k1 := 0; total_len := 0;
     buf := replicate 8 0; buf_len := 0 |}.

Definition buckets_siphash (key0 key1 : Z) (data : option (list Z)) : Z :=
  let state := buckets_siphash_init (Some sip_stack_state) key0 key1 in
  let state := buckets_siphash_update state data in
  buckets_siphash_final state.

(** [buckets_siphash128]: the 16 bytes written to [out]. *)
Definition buckets_siphash128 (key0 key1 : Z) (data : option (list Z)) : list Z :=
  let state := buckets_siphash_init (Some sip_stack_state) key0 key1 in
  let state :=
    match state with
    | None => None
    | Some s => Some {| v0 := v0 s; v1 := v1 s ^! 0xee; v2 := v2 s; v3 := v3 s;
                        k0 := k0 s; k1 := k1 s; total_len := total_len s;
                        buf := buf s; buf_len := buf_len s |}
    end in
  match buckets_siphash_update state data with
  | None => []
  | Some st =>
      let b := sip_last_word (total_len st) (buf st) (buf_len st) in
      let '(w0, w1, w2, w3) := sip_compress (v0 st, v1 st, v2 st, v3 st) b in
      let '(w0, w1, w2, w3) :=
        SIPROUND (SIPROUND (SIPROUND (SIPROUND (w0, w1, w2 ^! 0xee, w3)))) in
      let h0 := sip_fold (w0, w1, w2, w3) in
      let h1 :=
        sip_fold (SIPROUND (SIPROUND (SIPROUND (SIPROUND (w0, w1 ^! 0xdd, w2, w3))))) in
      store_le64 h0 ++ store_le64 h1
  end.

(** ** Placement by modulo *)

Definition buckets_hash_object_to_set (object_name : option string)
    (deployment_id : option (list Z)) (set_count : Z) : Z :=
  match object_name, deployment_id with
  | Some name, Some id =>
      if (set_count <=? 0)%Z then -1 else
      let key0 := load_le64 id in
      let key1 := load_le64 (drop 8 id) in
      let hash := buckets_siphash key0 key1 (Some (str_bytes name)) in
      (hash mod set_count)%Z
  | _, _ => -1
  end.

(** [buckets_uuid_to_siphash_key]: the two words stored through [k0] and [k1]. *)
Definition buckets_uuid_to_siphash_key (uuid : list Z) : Z * Z :=
  (load_le64 uuid, load_le64 (drop 8 uuid)).

(** [buckets_siphash_keygen]; the argument is what the 16-byte read of
    /dev/urandom returned: [None] when it cannot be opened, otherwise the bytes
    actually read. *)
Definition buckets_siphash_keygen (urandom : option (list Z))
    : buckets_error_t * option (Z * Z) :=
  match urandom with
  | None => (BUCKETS_ERR_IO, None)
  | Some b =>
      if negb (length b =? 16)%nat then (BUCKETS_ERR_IO, None)
      else (BUCKETS_OK, Some (load_le64 b, load_le64 (drop 8 b)))
  end.

(** The hex-digit expression of [buckets_uuid_str_to_siphash_key]. *)
Definition hex_value (c : Z) : Z :=
  if (48 <=? c) && (c <=? 57) then c - 48
  else if (97 <=? c) && (c <=? 102) then c - 97 + 10
  else if (65 <=? c) && (c <=? 70) then c - 65 + 10
  else -1.

(** The parsing loop, [n] iterations left, [p] the index of the read pointer in
    the NUL-terminated string [mem]; [None] is the "Invalid hex digit" return. *)
Fixpoint parse_uuid_bytes (n : nat) (mem : list Z) (p : nat) : c_result (option (list Z)) :=
  match n with
  | O => Val (Some [])
  | S n =>
      (let* c := c_read mem p in
       let p := if (c =? 45)%Z then S p else p in
       let* ch := c_read mem p in
       let hi := hex_value ch in
       let p := S p in
       let* cl := c_read mem p in
       let lo := hex_value cl in
       let p := S p in
       if ((hi <? 0) || (lo <? 0))%Z then Val None else
       let* rest := parse_uuid_bytes n mem p in
       Val (match rest with
            | None => None
            | Some l => Some (u8 (Z.lor (Z.shiftl hi 4) lo) :: l)
            end))%c
  end.

Definition buckets_uuid_str_to_siphash_key (uuid_str : option string)
    : c_result (buckets_error_t * option (Z * Z)) :=
  match uuid_str with
  | None => Val (BUCKETS_ERR_INVALID_ARG, None)
  | Some s =>
      if negb (strlen s =? 36)%nat then Val (BUCKETS_ERR_INVALID_ARG, None) else
      (let* r := parse_uuid_bytes 16 (str_bytes s ++ [0]) 0 in
       Val (match r with
            | None => (BUCKETS_ERR_INVALID_ARG, None)
            | Some uuid => (BUCKETS_OK, Some (buckets_uuid_to_siphash_key uuid))
            end))%c
  end.

Definition buckets_hash_object_to_set_str (object_name deployment_id_str : option string)
    (set_count : Z) : c_result Z :=
  match deployment_id_str with
  | None => Val (-1)
  | Some s =>
      (let* r := buckets_uuid_str_to_siphash_key (Some s) in
       match r with
       | (BUCKETS_OK, Some (key0, key1)) =>
           let uuid := store_le64 key0 ++ store_le64 key1 in
           Val (buckets_hash_object_to_set object_name (Some uuid) set_count)
       | _ => Val (-1)
       end)%c
  end.

(** ** Reference: SipHash-2-4 in one pass *)

Definition sip_init_acc (key0 key1 : Z) : sip_v :=
  (key0 ^! 0x736f6d6570736575, key1 ^! 0x646f72616e646f6d,
   key0 ^! 0x6c7967656e657261, key1 ^! 0x7465646279746573).

(** The padded last word: tail, zeros, and the length modulo 256 as the top byte. *)
Definition sip_pad_word (d t : list Z) : Z :=
  load_le64 (t ++ replicate (7 - length t) 0 ++ [Z.of_nat (length d) mod 256]).

Definition siphash_ref (key0 key1 : Z) (d : list Z) : Z :=
  let n := (length d / 8)%nat in
  let v := foldl (λ v i, sip_absorb v (take 8 (drop (i * 8) d)))
             (sip_init_acc key0 key1) (seq 0 n) in
  sip_finalize (sip_compress v (sip_pad_word d (drop (n * 8) d))).

(** ** Known answers (tests/hash/test_siphash.c) *)

Definition sip_test_input (n : nat) : list Z := Z.of_nat <$> seq 0 n.

Example siphash_vectors :
  (λ n, buckets_siphash 0x0706050403020100 0x0f0e0d0c0b0a0908 (Some (sip_test_input n)))
    <$> [0; 1; 7; 8; 15]%nat
  = [0x726fdb47dd0e0e31; 0x74f839c593dc67fd; 0xab0200f58b01d137; 0x93f5f5799a932462;
     0xa129ca6149be45e5].
Proof. vm_compute. reflexivity. Qed.

(** ** Refinement of the block stream *)

Definition sip_stream (st : siphash_state) : stream :=
  Stream (v0 st, v1 st, v2 st, v3 st) (total_len st) (buf st) (buf_len st).

Lemma sip_update_stream st p :
  ∃ st', buckets_siphash_update (Some st) (Some p) = Some st' ∧
         sip_stream st' = stream_update 8 sip_absorb (sip_stream st) p.
Proof.
  unfold buckets_siphash_update, stream_update, sip_stream.
  cbn [s_acc s_total s_buf s_buf_len].
  replace (if (length p <? 8 - buf_len st)%nat then length p else (8 - buf_len st)%nat)
    with (Nat.min (8 - buf_len st) (length p)) by (split_if; lia).
  match goal with
  | |- context [if (0 <? buf_len st)%nat then ?a else ?b] =>
      destruct (if (0 <? buf_len st)%nat then a else b) as [[[acc b'] bl] q]
  end.
  destruct (process_blocks 8 sip_absorb (length q) acc q) as [[[[a1 a2] a3] a4] r].
  destruct (0 <? length r)%nat; eexists; (split; reflexivity).
Qed.

(** [sip_fed v d st]: [st] was started at the words [v] and fed [d]. *)
Definition sip_fed (v : sip_v) (d : list Z) (st : siphash_state) : Prop :=
  stream_rep 8 sip_absorb v (sip_stream st) d.

Lemma sip_fed_init key0 key1 s0 :
  length (buf s0) = 8%nat →
  ∃ st, buckets_siphash_init (Some s0) key0 key1 = Some st ∧
        sip_fed (sip_init_acc key0 key1) [] st.
Proof.
  intros Hb. eexists; split; [done|]. by apply stream_rep_init; [lia|..].
Qed.

Lemma sip_fed_update v d st p :
  sip_fed v d st →
  ∃ st', buckets_siphash_update (Some st) (Some p) = Some st' ∧ sip_fed v (d ++ p) st'.
Proof.
  intros Hr. destruct (sip_update_stream st p) as (st' & Hu & He).
  exists st'. split; [done|]. unfold sip_fed. rewrite He.
  apply stream_update_rep; [lia|done].
Qed.

Lemma sip_fed_pieces v ds d st :
  sip_fed v d st →
  ∃ st', foldl (λ s p, buckets_siphash_update s (Some p)) (Some st) ds = Some st'
         ∧ sip_fed v (d ++ concat ds) st'.
Proof.
  revert d st. induction ds as [|p ds IH]; intros d st H.
  - exists st. by rewrite app_nil_r.
  - destruct (sip_fed_update v d st p H) as (st' & Hu & H').
    cbn [foldl concat]. rewrite Hu, app_assoc. by apply IH.
Qed.

Lemma shl64_0 k : shl64 0 k = 0.
Proof. unfold shl64. by rewrite Z.shiftl_0_l. Qed.

Lemma land_255_u64 n : Z.land (u64 n) 0xff = n mod 256.
Proof.
  change 0xff with (Z.ones 8). rewrite Z.land_ones by lia. unfold u64, wrap.
  change (2 ^ 64) with (2 ^ 8 * 2 ^ 56).
  rewrite Z.rem_mul_r by lia. rewrite Z.mul_comm, Z.mod_add by lia. by rewrite Z.mod_mod.
Qed.

(** The fall-through switch builds the padded little-endian word. *)
Lemma sip_last_word_pad d b bl :
  length b = 8%nat → (bl < 8)%nat →
  sip_last_word (u64 (Z.of_nat (length d))) b bl = sip_pad_word d (take bl b).
Proof.
  intros Hb Hbl. unfold sip_last_word, sip_pad_word. rewrite land_255_u64.
  set (n := Z.of_nat (length d) mod 256). clearbody n.
  do 8 (destruct b as [|? b]; [done|]). destruct b; [|done].
  do 8 (destruct bl as [|bl];
    [unfold load_le64, byte_at; simpl; rewrite ?shl64_0, ?Z.lor_0_r, ?Z.lor_0_l;
     apply Z.bits_inj; intros i; rewrite ?Z.lor_spec; btauto|]).
  lia.
Qed.

Lemma sip_final_fed key0 key1 d st :
  sip_fed (sip_init_acc key0 key1) d st →
  buckets_siphash_final (Some st) = siphash_ref key0 key1 d.
Proof.
  intros (Hb & Hlt & Ht & Hbl). cbn [sip_stream s_acc s_total s_buf s_buf_len] in *.
  rewrite blocks_closed_form in Hbl by lia. unfold block_at, n_blocks, tail_of in Hbl.
  apply pair_equal_spec in Hbl as [Hacc Htail].
  unfold buckets_siphash_final, siphash_ref.
  by rewrite Ht, sip_last_word_pad, Hacc, <-Htail.
Qed.

Lemma siphash_eq_ref key0 key1 d :
  buckets_siphash key0 key1 (Some d) = siphash_ref key0 key1 d.
Proof.
  unfold buckets_siphash.
  destruct (sip_fed_init key0 key1 sip_stack_state) as (st & -> & Hf); [done|].
  destruct (sip_fed_update _ [] st d Hf) as (st' & -> & Hf').
  by apply sip_final_fed.
Qed.

(** ** The round function is a permutation *)

Definition sip_ok (v : sip_v) : Prop :=
  let '(w0, w1, w2, w3) := v in is_u64 w0 ∧ is_u64 w1 ∧ is_u64 w2 ∧ is_u64 w3.

Definition SIPROUND_inv (v : sip_v) : sip_v :=
  let '(v0, v1, v2, v3) := v in
  let v2 := rotr64 v2 32 in
  let v1 := rotr64 (v1 ^! v2) 17 in
  let v2 := v2 -! v1 in
  let v3 := rotr64 (v3 ^! v0) 21 in
  let v0 := v0 -! v3 in
  let v3 := rotr64 (v3 ^! v2) 16 in
  let v2 := v2 -! v3 in
  let v0 := rotr64 v0 32 in
  let v1 := rotr64 (v1 ^! v0) 13 in
  let v0 := v0 -! v1 in
  (v0, v1, v2, v3).

Ltac sip_ok_auto := unfold sip_ok, sip_init_acc; split_and!; auto with buckets.

Lemma SIPROUND_ok v : sip_ok v → sip_ok (SIPROUND v).
Proof.
  destruct v as [[[w0 w1] w2] w3]. intros (H0 & H1 & H2 & H3). simpl.
  repeat split; apply add64_range || (apply ROTL64_range; [lia|]; apply add64_range)
    || (apply xor64_range; auto 8 with buckets).
Qed.

Lemma SIPROUND_inv_SIPROUND v : sip_ok v → SIPROUND_inv (SIPROUND v) = v.
Proof.
  destruct v as [[[w0 w1] w2] w3]. intros (H0 & H1 & H2 & H3).
  unfold SIPROUND, SIPROUND_inv. cbv beta zeta iota.
  repeat first [ rewrite rotr64_ROTL64 by auto 8 with buckets lia
               | rewrite xor64_cancel_r
               | rewrite sub64_add64 by auto 8 with buckets ].
  done.
Qed.

Lemma SIPROUND_inj v w : sip_ok v → sip_ok w → SIPROUND v = SIPROUND w → v = w.
Proof.
  intros Hv Hw H. by rewrite <-(SIPROUND_inv_SIPROUND v), H, SIPROUND_inv_SIPROUND.
Qed.

Lemma sip_compress_ok v m : sip_ok v → is_u64 m → sip_ok (sip_compress v m).
Proof.
  destruct v as [[[w0 w1] w2] w3]. intros (H0 & H1 & H2 & H3) Hm. unfold sip_compress.
  assert (sip_ok (w0, w1, w2, w3 ^! m)) as Hi by sip_ok_auto.
  apply SIPROUND_ok, SIPROUND_ok in Hi.
  destruct (SIPROUND (SIPROUND _)) as [[[u0 u1] u2] u3]. destruct Hi as (?&?&?&?).
  sip_ok_auto.
Qed.

Lemma sip_compress_inj v w m :
  sip_ok v → sip_ok w → is_u64 m → sip_compress v m = sip_compress w m → v = w.
Proof.
  destruct v as [[[a0 a1] a2] a3], w as [[[b0 b1] b2] b3].
  intros (?&?&?&?) (?&?&?&?) Hm Heq. unfold sip_compress in Heq.
  assert (sip_ok (a0, a1, a2, a3 ^! m) ∧ sip_ok (b0, b1, b2, b3 ^! m)) as [Ha Hb]
    by (split; sip_ok_auto).
  assert (SIPROUND (SIPROUND (a0, a1, a2, a3 ^! m)) = SIPROUND (SIPROUND (b0, b1, b2, b3 ^! m)))
    as H'.
  { destruct (SIPROUND (SIPROUND (a0, _, _, _))) as [[[u0 u1] u2] u3],
      (SIPROUND (SIPROUND (b0, _, _, _))) as [[[t0 t1] t2] t3].
    injection Heq as Hu -> -> ->. rewrite <-(xor64_cancel_r u0 m), Hu.
    by rewrite xor64_cancel_r. }
  apply SIPROUND_inj in H'; [|by apply SIPROUND_ok..].
  apply SIPROUND_inj in H'; [|done..].
  injection H' as -> -> -> Hx. apply (f_equal (λ x, x ^! m)) in Hx.
  rewrite !xor64_cancel_r in Hx. by subst.
Qed.

Lemma sip_init_acc_ok key0 key1 : is_u64 key0 → is_u64 key1 → sip_ok (sip_init_acc key0 key1).
Proof. intros. sip_ok_auto. Qed.

Lemma sip_init_acc_inj a b c d : sip_init_acc a b = sip_init_acc c d → (a, b) = (c, d).
Proof.
  unfold sip_init_acc. intros H. injection H as H0 H1 _ _.
  apply (f_equal (λ x, x ^! 0x736f6d6570736575)) in H0.
  apply (f_equal (λ x, x ^! 0x646f72616e646f6d)) in H1.
  rewrite !xor64_cancel_r in H0, H1. by subst.
Qed.

(** Absorbing the same blocks from different words never ends in the same words. *)
Lemma sip_blocks_inj v w d :
  sip_ok v → sip_ok w → is_bytes d →
  (blocks 8 sip_absorb v d).1 = (blocks 8 sip_absorb w d).1 → v = w.
Proof.
  remember (length d) as n eqn:Hn. revert v w d Hn.
  induction n as [n IH] using lt_wf_ind. intros v w d -> Hv Hw Hd H.
  rewrite (blocks_unfold 8 ltac:(lia) _ v), (blocks_unfold 8 ltac:(lia) _ w) in H.
  destruct (8 <=? length d)%nat eqn:Hle; breflect; [|done].
  assert (is_u64 (load_le64 (take 8 d))) by (apply load_le64_range; by apply Forall_take).
  apply (IH (length (drop 8 d))) in H; [|len|done|by apply sip_compress_ok..|by apply Forall_drop].
  by apply sip_compress_inj in H.
Qed.

Lemma sip_finalize_range v : sip_ok v → is_u64 (sip_finalize v).
Proof.
  destruct v as [[[a0 a1] a2] a3]. intros (?&?&?&?). unfold sip_finalize.
  assert (sip_ok (a0, a1, a2 ^! 0xff, a3)) as Hok by sip_ok_auto.
  do 4 apply SIPROUND_ok in Hok.
  destruct (SIPROUND _) as [[[b0 b1] b2] b3]. destruct Hok as (?&?&?&?).
  unfold sip_fold. auto with buckets.
Qed.

(** ** The canonical text of a UUID: lower-case hex, grouped 8-4-4-4-12 *)

Definition canonical_uuid (uuid : list Z) : string :=
  let h i n := concat (hex_byte <$> take n (drop i uuid)) in
  bytes_str (h 0%nat 4%nat ++ [45] ++ h 4%nat 2%nat ++ [45] ++ h 6%nat 2%nat ++ [45]
             ++ h 8%nat 2%nat ++ [45] ++ h 10%nat 6%nat).

Lemma hex_value_digit n : (0 ≤ n < 16)%Z → hex_value (hex_digit n) = n.
Proof.
  intros H. assert (n ∈ [0;1;2;3;4;5;6;7;8;9;10;11;12;13;14;15]%Z) as Hn.
  { rewrite !elem_of_cons. lia. }
  repeat (apply elem_of_cons in Hn as [->|Hn]; [done|]). by apply elem_of_nil in Hn.
Qed.

(** One loop iteration on a well-formed byte, with and without a hyphen before it. *)
Lemma parse_step n mem p (h : bool) b :
  (if h then mem !! p = Some 45 else True) →
  let q := if h then S p else p in
  mem !! q = Some (hex_digit (b / 16)) → mem !! S q = Some (hex_digit (b mod 16)) →
  is_u8 b →
  parse_uuid_bytes (S n) mem p =
    c_bind (parse_uuid_bytes n mem (S (S q))) (λ r, Val (cons b <$> r)).
Proof.
  intros Hh q Hhi Hlo [Hb0 Hb1]. change (2 ^ 8)%Z with 256%Z in Hb1.
  assert (0 ≤ b / 16 < 16)%Z as Hd by (Z.to_euclidean_division_equations; lia).
  assert (0 ≤ b mod 16 < 16)%Z as Hm by (Z.to_euclidean_division_equations; lia).
  pose proof (hex_digit_bounds _ Hd). cbn [parse_uuid_bytes].
  assert (u8 (Z.lor (Z.shiftl (b / 16) 4) (b mod 16)) = b) as Hval.
  { rewrite Z.lor_comm, Z.shiftl_mul_pow2, (lor_add_high _ _ 4) by lia.
    replace (b mod 16 + b / 16 * 2 ^ 4)%Z with b by (pose proof (Z.div_mod b 16); lia).
    apply wrap_small. split; [done|]. by change (2 ^ 8)%Z with 256%Z. }
  assert (∃ c, c_read mem p = Val c ∧ (if (c =? 45)%Z then S p else p) = q) as (c & Rc & Hq).
  { destruct h; subst q.
    - exists 45%Z. by split; [apply c_read_Val|].
    - exists (hex_digit (b / 16)). split; [by apply c_read_Val|].
      destruct (_ =? 45)%Z eqn:E45; breflect; [lia|done]. }
  apply c_read_Val in Hhi, Hlo.
  rewrite Rc; cbn [c_bind]. rewrite Hq, Hhi; cbn [c_bind]. rewrite Hlo; cbn [c_bind].
  rewrite !hex_value_digit by done.
  destruct (_ || _) eqn:E; [apply orb_true_iff in E as [E|E]; breflect; lia|].
  rewrite Hval. by destruct (parse_uuid_bytes _ _ _) as [[?|]|].
Qed.

(** The canonical text parses to the bytes it was printed from. *)
Lemma parse_canonical uuid :
  is_bytes uuid → length uuid = 16%nat →
  strlen (canonical_uuid uuid) = 36%nat ∧
  parse_uuid_bytes 16 (str_bytes (canonical_uuid uuid) ++ [0]) 0 = Val (Some uuid).
Proof.
  intros Hu Hl. do 16 (destruct uuid as [|? uuid]; [done|]). destruct uuid; [|done].
  unfold is_bytes in Hu. rewrite !Forall_cons in Hu. destruct_and!.
  unfold canonical_uuid. rewrite <-length_str_bytes.
  rewrite str_bytes_bytes_str.
  2:{ repeat (apply Forall_app; split); simpl;
      repeat (apply Forall_app; split); try (by apply hex_byte_is_bytes);
      repeat constructor; discriminate. }
  split; [done|]. cbn [concat fmap list_fmap take drop app hex_byte].
  do 4 (erewrite (parse_step _ _ _ false) by done).
  do 3 (erewrite (parse_step _ _ _ true) by done; erewrite (parse_step _ _ _ false) by done).
  erewrite (parse_step _ _ _ true) by done.
  do 5 (erewrite (parse_step _ _ _ false) by done).
  done.
Qed.

Lemma load_store_pair a b :
  is_u64 a → is_u64 b →
  load_le64 (store_le64 a ++ store_le64 b) = a ∧
  load_le64 (drop 8 (store_le64 a ++ store_le64 b)) = b.
Proof.
  intros Ha Hb. split; [|by rewrite drop_app_length', load_store_le64].
  transitivity (load_le64 (store_le64 a)); [done|by apply load_store_le64].
Qed.

Lemma foldl_sip_ok {B} (f : sip_v → B → sip_v) v l :
  (∀ v b, sip_ok v → sip_ok (f v b)) → sip_ok v → sip_ok (foldl f v l).
Proof. intros Hf. revert v. induction l; simpl; auto. Qed.

Lemma siphash_ref_range key0 key1 d :
  is_u64 key0 → is_u64 key1 → is_bytes d → is_u64 (siphash_ref key0 key1 d).
Proof.
  intros H0 H1 Hd. apply sip_finalize_range, sip_compress_ok.
  - apply foldl_sip_ok; [|by apply sip_init_acc_ok]. intros v i Hv.
    apply sip_compress_ok; [done|]. apply load_le64_range. by apply Forall_take, Forall_drop.
  - apply load_le64_range. repeat (apply Forall_app; split).
    + by apply Forall_drop.
    + apply Forall_replicate. by split.
    + apply Forall_singleton, Z.mod_pos_bound. lia.
Qed.

Lemma buckets_siphash_range key0 key1 d :
  is_u64 key0 → is_u64 key1 → is_bytes d → is_u64 (buckets_siphash key0 key1 (Some d)).
Proof.
  intros H0 H1 Hd. unfold buckets_siphash.
  destruct (sip_fed_init key0 key1 sip_stack_state eq_refl) as (st & -> & Hf).
  destruct (sip_fed_pieces _ [d] [] st Hf) as (st' & Hst' & Hf').
  cbn [foldl] in Hst'. cbv zeta. rewrite Hst'.
  rewrite (sip_final_fed _ _ _ _ Hf'). apply siphash_ref_range; [done|done|].
  simpl. by rewrite app_nil_r.
Qed.

(** ** Properties *)

(** Feeding an input in any pieces, from a state buffer holding any garbage,
    yields the one-pass SipHash-2-4 of the concatenated input (padded last word with
    the length in its top byte), for every input length. *)
Theorem siphash_incremental_refines_reference s0 key0 key1 ds :
  length (buf s0) = 8%nat →
  buckets_siphash_final
    (foldl (λ s p, buckets_siphash_update s (Some p))
       (buckets_siphash_init (Some s0) key0 key1) ds)
  = siphash_ref key0 key1 (concat ds).
Proof.
  intros Hb. destruct (sip_fed_init key0 key1 s0 Hb) as (st & -> & Hf).
  destruct (sip_fed_pieces _ ds [] st Hf) as (st' & -> & Hf').
  by apply sip_final_fed.
Qed.

Lemma siphash_incremental_refines_reference_witness :
  let s0 := {| v0 := 1; v1 := 2; v2 := 3; v3 := 4; k0 := 5; k1 := 6; total_len := 9;
               buf := replicate 8 170; buf_len := 5 |} in
  let ds := [str_bytes "bucket/"; str_bytes "a"; []; str_bytes "very/long/object/key"] in
  buckets_siphash_final
    (foldl (λ s p, buckets_siphash_update s (Some p))
       (buckets_siphash_init (Some s0) 11 12) ds)
  = siphash_ref 11 12 (concat ds).
Proof. intros s0 ds. apply siphash_incremental_refines_reference. reflexivity. Defined.

(** Different keys never reach the same internal words on the same input: the
    compression is a permutation of the state, so key entropy is not lost before
    finalisation. *)
Theorem siphash_keys_stay_distinct s0 a b c d ds st st' :
  length (buf s0) = 8%nat → Forall is_bytes ds →
  is_u64 a → is_u64 b → is_u64 c → is_u64 d → (a, b) ≠ (c, d) →
  foldl (λ s p, buckets_siphash_update s (Some p))
    (buckets_siphash_init (Some s0) a b) ds = Some st →
  foldl (λ s p, buckets_siphash_update s (Some p))
    (buckets_siphash_init (Some s0) c d) ds = Some st' →
  (v0 st, v1 st, v2 st, v3 st) ≠ (v0 st', v1 st', v2 st', v3 st').
Proof.
  intros Hb Hds Ha Hbb Hc Hd Hne Hst Hst' Heq. apply Hne, sip_init_acc_inj.
  destruct (sip_fed_init a b s0 Hb) as (i & Hi & Hf); rewrite Hi in Hst.
  destruct (sip_fed_init c d s0 Hb) as (j & Hj & Hg); rewrite Hj in Hst'.
  destruct (sip_fed_pieces _ ds [] i Hf) as (x & Hx & (_ & _ & _ & Hfx)).
  destruct (sip_fed_pieces _ ds [] j Hg) as (y & Hy & (_ & _ & _ & Hgy)).
  assert (x = st) as -> by congruence. assert (y = st') as -> by congruence.
  apply (sip_blocks_inj _ _ (concat ds)); [by apply sip_init_acc_ok..| |].
  - apply Forall_concat. done.
  - simpl in Hfx, Hgy. by rewrite Hfx, Hgy.
Qed.

Lemma siphash_keys_stay_distinct_witness :
  ∃ st st',
    foldl (λ s p, buckets_siphash_update s (Some p))
      (buckets_siphash_init (Some sip_stack_state) 1 2) [str_bytes "object-key"] = Some st ∧
    foldl (λ s p, buckets_siphash_update s (Some p))
      (buckets_siphash_init (Some sip_stack_state) 1 3) [str_bytes "object-key"] = Some st' ∧
    (v0 st, v1 st, v2 st, v3 st) ≠ (v0 st', v1 st', v2 st', v3 st').
Proof.
  eexists. eexists. split; [vm_compute; reflexivity|]. split; [vm_compute; reflexivity|].
  apply (siphash_keys_stay_distinct sip_stack_state 1 2 1 3 [str_bytes "object-key"]);
    first [vm_compute; reflexivity | by split | done | repeat constructor; discriminate].
Defined.

(** The modulo placement answers -1 exactly on a NULL name, a NULL deployment
    id or a non-positive set count, and otherwise a set index in range. *)
Theorem hash_object_to_set_range name id n :
  buckets_hash_object_to_set name id n = -1 ∧ (name = None ∨ id = None ∨ (n ≤ 0)%Z) ∨
  (0 ≤ buckets_hash_object_to_set name id n < n)%Z ∧ name ≠ None ∧ id ≠ None.
Proof.
  unfold buckets_hash_object_to_set. destruct name as [name|]; [|by left; auto].
  destruct id as [id|]; [|by left; auto].
  destruct (n <=? 0)%Z eqn:E; breflect; [by left; auto|].
  right. split; [by apply Z.mod_pos_bound|done].
Qed.

(** Placing by the canonical text of a deployment UUID agrees with placing by
    its 16 bytes: the text parses (no error, no out-of-bounds read) and the key
    survives the store/load round trip. *)
Theorem hash_object_to_set_str_canonical name uuid n :
  is_bytes uuid → length uuid = 16%nat →
  buckets_hash_object_to_set_str name (Some (canonical_uuid uuid)) n
  = Val (buckets_hash_object_to_set name (Some uuid) n).
Proof.
  intros Hu Hl. destruct (parse_canonical uuid Hu Hl) as [Hlen Hparse].
  unfold buckets_hash_object_to_set_str, buckets_uuid_str_to_siphash_key.
  rewrite Hlen. cbn [negb Nat.eqb]. rewrite Hparse. cbn [c_bind].
  unfold buckets_uuid_to_siphash_key, buckets_hash_object_to_set.
  destruct (load_store_pair (load_le64 uuid) (load_le64 (drop 8 uuid))) as [-> ->];
    [apply load_le64_range..|done]; [done|by apply Forall_drop].
Qed.

Lemma hash_object_to_set_str_canonical_witness :
  buckets_hash_object_to_set_str (Some "bucket/key")
    (Some "00010203-0405-0607-0809-0a0b0c0d0eff") 16
  = Val (buckets_hash_object_to_set (Some "bucket/key")
           (Some [0;1;2;3;4;5;6;7;8;9;10;11;12;13;14;255]%Z) 16).
Proof.
  apply (hash_object_to_set_str_canonical (Some "bucket/key")
    [0;1;2;3;4;5;6;7;8;9;10;11;12;13;14;255]%Z 16); [|done].
  repeat constructor; discriminate.
Defined.

(** A 36-character string with a hyphen before every byte drives the parsing
    loop past the terminating NUL: the low digit of byte 13 is read out of bounds
    before the bad high digit is rejected. *)
Theorem uuid_parse_reads_past_terminator :
  let s := "-00-00-00-00-00-00-00-00-00-00-00-00"%string in
  strlen s = 36%nat ∧ buckets_uuid_str_to_siphash_key (Some s) = Undef.
Proof. vm_compute. split; reflexivity. Qed.
