(* ===== verification/Blake2b.v ===== *)
(** * BLAKE2b (src/src/crypto/blake2b.c)

    The cryptographic hash of the library: RFC 7693 with an incremental interface.
    Unlike the placement hashes, its update keeps the last full block back until
    more input arrives, because the final block is compressed with the
    finalisation flag set. *)

From S2P Require Import Prelude CInt.

Open Scope u64_scope.

Definition BUCKETS_BLAKE2B_BLOCKBYTES : nat := 128.
Definition BUCKETS_BLAKE2B_OUTBYTES : nat := 64.
Definition BUCKETS_BLAKE2B_KEYBYTES : nat := 64.

Definition blake2b_iv : list Z :=
  [0x6a09e667f3bcc908; 0xbb67ae8584caa73b; 0x3c6ef372fe94f82b; 0xa54ff53a5f1d36f1;
   0x510e527fade682d1; 0x9b05688c2b3e6c1f; 0x1f83d9abfb41bd6b; 0x5be0cd19137e2179].

Definition blake2b_sigma : list (list nat) :=
  [[ 0;  1;  2;  3;  4;  5;  6;  7;  8;  9; 10; 11; 12; 13; 14; 15];
   [14; 10;  4;  8;  9; 15; 13;  6;  1; 12;  0;  2; 11;  7;  5;  3];
   [11;  8; 12;  0;  5;  2; 15; 13; 10; 14;  3;  6;  7;  1;  9;  4];
   [ 7;  9;  3;  1; 13; 12; 11; 14;  2;  6;  5; 10;  4;  0; 15;  8];
   [ 9;  0;  5;  7;  2;  4; 10; 15; 14;  1; 11; 12;  6;  8;  3; 13];
   [ 2; 12;  6; 10;  0; 11;  8;  3;  4; 13;  7;  5; 15; 14;  1;  9];
   [12;  5;  1; 15; 14; 13;  4; 10;  0;  7;  6;  3;  9;  2;  8; 11];
   [13; 11;  7; 14; 12;  1;  3;  9;  5;  0; 15;  4;  8;  6;  2; 10];
   [ 6; 15; 14;  9; 11;  3;  0;  8; 12;  2; 13;  7;  1;  4; 10;  5];
   [10;  2;  8;  4;  7;  6;  1;  5; 15; 11;  9; 14;  3; 12; 13;  0];
   [ 0;  1;  2;  3;  4;  5;  6;  7;  8;  9; 10; 11; 12; 13; 14; 15];
   [14; 10;  4;  8;  9; 15; 13;  6;  1; 12;  0;  2; 11;  7;  5;  3]]%nat.

(** [m[blake2b_sigma[r][k]]] *)
Definition sigma_word (m : list Z) (r k : nat) : Z :=
  default 0 (m !! default 0%nat (default [] (blake2b_sigma !! r) !! k)).

Definition word (v : list Z) (i : nat) : Z := default 0 (v !! i).

(** [G(r, i, v[a], v[b], v[c], v[d])] *)
Definition G (m : list Z) (r i a b c d : nat) (v : list Z) : list Z :=
  let v := <[a := word v a +! word v b +! sigma_word m r (2 * i + 0)]> v in
  let v := <[d := rotr64 (word v d ^! word v a) 32]> v in
  let v := <[c := word v c +! word v d]> v in
  let v := <[b := rotr64 (word v b ^! word v c) 24]> v in
  let v := <[a := word v a +! word v b +! sigma_word m r (2 * i + 1)]> v in
  let v := <[d := rotr64 (word v d ^! word v a) 16]> v in
  let v := <[c := word v c +! word v d]> v in
  <[b := rotr64 (word v b ^! word v c) 63]> v.

Definition ROUND (m : list Z) (r : nat) (v : list Z) : list Z :=
  let v := G m r 0 0 4  8 12 v in
  let v := G m r 1 1 5  9 13 v in
  let v := G m r 2 2 6 10 14 v in
  let v := G m r 3 3 7 11 15 v in
  let v := G m r 4 0 5 10 15 v in
  let v := G m r 5 1 6 11 12 v in
  let v := G m r 6 2 7  8 13 v in
  G m r 7 3 4 9 14 v.

(** [buckets_blake2b_ctx_t] *)
Record blake2b_ctx := Blake2bCtx {
  h : list Z;
  t0 : Z; t1 : Z;
  f0 : Z; f1 : Z;
  buf : list Z;
  buflen : nat;
  outlen : nat
}.

(** The new chaining value of [blake2b_compress]. *)
Definition blake2b_F (hh : list Z) (c0 c1 g0 g1 : Z) (block : list Z) : list Z :=
  let m := (λ i, load_le64 (drop (i * 8) block)) <$> seq 0 16 in
  let v := take 8 hh ++ blake2b_iv in
  let v := <[12%nat := word v 12 ^! c0]> v in
  let v := <[13%nat := word v 13 ^! c1]> v in
  let v := <[14%nat := word v 14 ^! g0]> v in
  let v := <[15%nat := word v 15 ^! g1]> v in
  let v := foldl (λ v r, ROUND m r v) v (seq 0 12) in
  (λ i, word hh i ^! (word v i ^! word v (i + 8))) <$> seq 0 8.

Definition blake2b_compress (ctx : blake2b_ctx) (block : list Z) : blake2b_ctx :=
  {| h := blake2b_F (h ctx) (t0 ctx) (t1 ctx) (f0 ctx) (f1 ctx) block;
     t0 := t0 ctx; t1 := t1 ctx; f0 := f0 ctx; f1 := f1 ctx;
     buf := buf ctx; buflen := buflen ctx; outlen := outlen ctx |}.

(** [buckets_blake2b_param_t], packed: its 64 bytes in memory. *)
Record blake2b_param := Blake2bParam {
  digest_length : Z; key_length : Z; fanout : Z; depth : Z;
  leaf_length : list Z;   (* 4 bytes *)
  node_offset : list Z;   (* 8 bytes *)
  node_depth : Z; inner_length : Z;
  reserved : list Z;      (* 14 bytes *)
  salt : list Z;          (* 16 bytes *)
  personal : list Z       (* 16 bytes *)
}.

Definition param_bytes (P : blake2b_param) : list Z :=
  [digest_length P; key_length P; fanout P; depth P] ++ leaf_length P ++ node_offset P
  ++ [node_depth P; inner_length P] ++ reserved P ++ salt P ++ personal P.

(** [memset(&P, 0, sizeof(P))] followed by the four assignments. *)
Definition simple_param (dlen klen : Z) : blake2b_param :=
  {| digest_length := u8 dlen; key_length := u8 klen; fanout := 1; depth := 1;
     leaf_length := replicate 4 0; node_offset := replicate 8 0;
     node_depth := 0; inner_length := 0;
     reserved := replicate 14 0; salt := replicate 16 0; personal := replicate 16 0 |}.

(** A function that returns an [int] and writes a context: the return value and
    the context after the call ([None] when the pointer was NULL). *)
Definition buckets_blake2b_init_param (ctx : option blake2b_ctx)
    (param : option blake2b_param) : Z * option blake2b_ctx :=
  match ctx, param with
  | Some c, Some P =>
      let p := param_bytes P in
      (0, Some {| h := (λ i, word blake2b_iv i ^! load_le64 (drop (8 * i) p)) <$> seq 0 8;
                  t0 := 0; t1 := 0; f0 := 0; f1 := 0;
                  buf := buf c; buflen := 0;
                  outlen := Z.to_nat (digest_length P) |})
  | _, _ => (-1, ctx)
  end.

Definition buckets_blake2b_init (ctx : option blake2b_ctx) (olen : nat)
    : Z * option blake2b_ctx :=
  match ctx with
  | None => (-1, None)
  | Some c =>
      if (olen =? 0)%nat || (BUCKETS_BLAKE2B_OUTBYTES <? olen)%nat then (-1, Some c)
      else buckets_blake2b_init_param (Some c) (Some (simple_param (Z.of_nat olen) 0))
  end.

(** The body of the update loop: [while (datalen > 0) ...]. *)
Fixpoint blake2b_update_loop (fuel : nat) (ctx : blake2b_ctx) (data : list Z) : blake2b_ctx :=
  match fuel with
  | O => ctx
  | S fuel =>
      if (length data =? 0)%nat then ctx else
      let fill := (BUCKETS_BLAKE2B_BLOCKBYTES - buflen ctx)%nat in
      if (fill <? length data)%nat then
        let b := memcpy_at (buf ctx) (buflen ctx) (take fill data) in
        let c0 := t0 ctx +! Z.of_nat BUCKETS_BLAKE2B_BLOCKBYTES in
        let c1 := if (c0 <? Z.of_nat BUCKETS_BLAKE2B_BLOCKBYTES)%Z then t1 ctx +! 1 else t1 ctx in
        let ctx := {| h := h ctx; t0 := c0; t1 := c1; f0 := f0 ctx; f1 := f1 ctx;
                      buf := b; buflen := buflen ctx; outlen := outlen ctx |} in
        let ctx := blake2b_compress ctx (buf ctx) in
        let ctx := {| h := h ctx; t0 := t0 ctx; t1 := t1 ctx; f0 := f0 ctx; f1 := f1 ctx;
                      buf := buf ctx; buflen := 0; outlen := outlen ctx |} in
        blake2b_update_loop fuel ctx (drop fill data)
      else
        {| h := h ctx; t0 := t0 ctx; t1 := t1 ctx; f0 := f0 ctx; f1 := f1 ctx;
           buf := memcpy_at (buf ctx) (buflen ctx) data;
           buflen := (buflen ctx + length data)%nat; outlen := outlen ctx |}
  end.

(** [buckets_blake2b_update]; [data] is the pointer with its [datalen] bytes and a
    NULL pointer comes with its [datalen] ([inl]).  Every iteration but the first
    consumes a byte, so [S (length data)] rounds of fuel are enough. *)
Definition buckets_blake2b_update (ctx : option blake2b_ctx) (data : nat + list Z)
    : Z * option blake2b_ctx :=
  match ctx with
  | None => (-1, None)
  | Some c =>
      match data with
      | inl datalen => if (datalen =? 0)%nat then (0, Some c) else (-1, Some c)
      | inr d => (0, Some (blake2b_update_loop (S (length d)) c d))
      end
  end.

Definition buckets_blake2b_init_key (ctx : option blake2b_ctx) (olen : nat)
    (key : nat + list Z) : Z * option blake2b_ctx :=
  let keylen := match key with inl n => n | inr k => length k end in
  match ctx with
  | None => (-1, None)
  | Some c =>
      if (olen =? 0)%nat || (BUCKETS_BLAKE2B_OUTBYTES <? olen)%nat then (-1, Some c) else
      if (match key with inl n => (0 <? n)%nat | inr _ => false end) then (-1, Some c) else
      if (BUCKETS_BLAKE2B_KEYBYTES <? keylen)%nat then (-1, Some c) else
      let '(rc, ctx) := buckets_blake2b_init_param (Some c)
        (Some (simple_param (Z.of_nat olen) (Z.of_nat keylen))) in
      if (rc <? 0)%Z then (-1, ctx) else
      if (0 <? keylen)%nat then
        let k := match key with inl _ => [] | inr k => k end in
        let block := memcpy_at (replicate BUCKETS_BLAKE2B_BLOCKBYTES 0) 0 k in
        (0, (buckets_blake2b_update ctx (inr block)).2)
      else (0, ctx)
  end.

(** [buckets_blake2b_final]: return code, context and the bytes copied to [out]
    ([out_null]: the output pointer is NULL).  Copying more than the 64-byte digest
    buffer holds is undefined. *)
Definition buckets_blake2b_final (ctx : option blake2b_ctx) (out_null : bool) (olen : nat)
    : c_result (Z * option blake2b_ctx * list Z) :=
  match ctx with
  | None => Val (-1, None, [])
  | Some c =>
      if out_null then Val (-1, Some c, []) else
      if (olen <? outlen c)%nat then Val (-1, Some c, []) else
      let b :=
        if (buflen c <? BUCKETS_BLAKE2B_BLOCKBYTES)%nat
        then memcpy_at (buf c) (buflen c)
               (replicate (BUCKETS_BLAKE2B_BLOCKBYTES - buflen c) 0)
        else buf c in
      let c0 := t0 c +! Z.of_nat (buflen c) in
      let c1 := if (c0 <? Z.of_nat (buflen c))%Z then t1 c +! 1 else t1 c in
      let c := {| h := h c; t0 := c0; t1 := c1; f0 := u64 (-1); f1 := f1 c;
                  buf := b; buflen := buflen c; outlen := outlen c |} in
      let c := blake2b_compress c (buf c) in
      let buffer := concat ((λ i, store_le64 (word (h c) i)) <$> seq 0 8) in
      if (BUCKETS_BLAKE2B_OUTBYTES <? outlen c)%nat then Undef
      else Val (0, Some c, take (outlen c) buffer)
  end.

(** The uninitialised stack context of the one-shot functions. *)
Definition stack_ctx : blake2b_ctx :=
  {| h := replicate 8 0; t0 := 0; t1 := 0; f0 := 0; f1 := 0;
     buf := replicate 128 0; buflen := 0; outlen := 0 |}.

(** [buckets_blake2b]: return code and the bytes written to [out]. *)
Definition buckets_blake2b (out_null : bool) (olen : nat) (data key : nat + list Z)
    : c_result (Z * list Z) :=
  let keylen := match key with inl n => n | inr k => length k end in
  let '(rc, ctx) :=
    if (0 <? keylen)%nat
    then buckets_blake2b_init_key (Some stack_ctx) olen key
    else buckets_blake2b_init (Some stack_ctx) olen in
  if (rc <? 0)%Z then Val (-1, []) else
  let '(rc, ctx) := buckets_blake2b_update ctx data in
  if (rc <? 0)%Z then Val (-1, []) else
  (let* r := buckets_blake2b_final ctx out_null olen in
   let '(rc, _, out) := r in
   if (rc <? 0)%Z then Val (-1, []) else Val (0, out))%c.

Definition buckets_blake2b_256 (out_null : bool) (data : nat + list Z) : c_result (Z * list Z) :=
  buckets_blake2b out_null 32 data (inl 0%nat).

Definition buckets_blake2b_512 (out_null : bool) (data : nat + list Z) : c_result (Z * list Z) :=
  buckets_blake2b out_null 64 data (inl 0%nat).

(** [buckets_blake2b_hex]: the characters written, before the terminating NUL. *)
Definition buckets_blake2b_hex (out_null : bool) (olen : nat) (data : nat + list Z)
    : c_result (Z * list Z) :=
  if out_null || (BUCKETS_BLAKE2B_OUTBYTES <? olen)%nat then Val (-1, []) else
  (let* r := buckets_blake2b false olen data (inl 0%nat) in
   let '(rc, hash) := r in
   if (rc <? 0)%Z then Val (-1, [])
   else Val (0, concat (hex_byte <$> take olen hash)))%c.

(** [buckets_blake2b_verify] on two non-NULL or NULL buffers of [len] bytes. *)
Definition buckets_blake2b_verify (a b : option (list Z)) (len : nat) : bool :=
  match a, b with
  | Some aa, Some bb =>
      if (len =? 0)%nat then false else
      let result := foldl (λ r i, u8 (Z.lor r (Z.lxor (byte_at aa i) (byte_at bb i)))) 0
                      (seq 0 len) in
      (result =? 0)%Z
  | _, _ => false
  end.

Definition blake2b_selftest_expected : list Z :=
  [0x78; 0x6a; 0x02; 0xf7; 0x42; 0x01; 0x59; 0x03;
   0xc6; 0xc6; 0xfd; 0x85; 0x25; 0x52; 0xd2; 0x72;
   0x91; 0x2f; 0x47; 0x40; 0xe1; 0x58; 0x47; 0x61;
   0x8a; 0x86; 0xe2; 0x17; 0xf7; 0x1f; 0x54; 0x19;
   0xd2; 0x5e; 0x10; 0x31; 0xaf; 0xee; 0x58; 0x53;
   0x13; 0x89; 0x64; 0x44; 0x93; 0x4e; 0xb0; 0x4b;
   0x90; 0x3a; 0x68; 0x5b; 0x14; 0x48; 0xb7; 0x55;
   0xd5; 0x6f; 0x70; 0x1a; 0xfe; 0x9b; 0xe2; 0xce].

Definition buckets_blake2b_selftest : c_result Z :=
  (let* r := buckets_blake2b_512 false (inr []) in
   let '(rc, hash) := r in
   if (rc <? 0)%Z then Val (-1) else
   if negb (buckets_blake2b_verify (Some hash) (Some blake2b_selftest_expected) 64)
   then Val (-1) else Val 0)%c.

(** ** Reference: RFC 7693 over the whole input *)

Definition pad_block (b : list Z) : list Z := b ++ replicate (128 - length b) 0.

(** The compression with the byte count [t] as a 128-bit counter. *)
Definition F_ref (hh : list Z) (block : list Z) (t : Z) (last : bool) : list Z :=
  blake2b_F hh (u64 t) (u64 (t / 2 ^ 64)) (if last then u64 (-1) else 0) 0 block.

(** Blocks compressed before the last one. *)
Definition n_full (d : list Z) : nat := ((length d - 1) / 128)%nat.

Definition blake2b_ref_full (h0 : list Z) (d : list Z) : list Z :=
  foldl (λ hh i, F_ref hh (take 128 (drop (i * 128) d)) (128 * (Z.of_nat i + 1)) false)
    h0 (seq 0 (n_full d)).

Definition blake2b_ref_words (h0 : list Z) (d : list Z) : list Z :=
  F_ref (blake2b_ref_full h0 d) (pad_block (drop (n_full d * 128) d))
    (Z.of_nat (length d)) true.

Definition blake2b_h0 (olen klen : nat) : list Z :=
  (λ i, word blake2b_iv i ^!
        load_le64 (drop (8 * i) (param_bytes (simple_param (Z.of_nat olen) (Z.of_nat klen)))))
    <$> seq 0 8.

(** The digest: a non-empty key is a zero-padded block in front of the message. *)
Definition blake2b_ref (olen : nat) (key d : list Z) : list Z :=
  let m := if (0 <? length key)%nat then pad_block key ++ d else d in
  take olen (concat (store_le64 <$> blake2b_ref_words (blake2b_h0 olen (length key)) m)).

(** ** Known answers *)

Example blake2b_selftest_passes : buckets_blake2b_selftest = Val 0.
Proof. vm_compute. reflexivity. Qed.

Example blake2b_abc_hex :
  buckets_blake2b_hex false 16 (inr (str_bytes "abc"))
  = Val (0, str_bytes "cf4ab791c62b8d2b2109c90275287816").
Proof. vm_compute. reflexivity. Qed.

(** ** The 128-bit byte counter *)

Lemma counter_carry T k :
  (0 ≤ T)%Z → is_u64 k →
  (u64 T +! k = u64 (T + k)) ∧
  (if (u64 T +! k <? k)%Z then u64 (T / 2 ^ 64) +! 1 else u64 (T / 2 ^ 64))
  = u64 ((T + k) / 2 ^ 64).
Proof.
  intros HT [Hk0 Hk1]. unfold add64, u64, wrap.
  rewrite Zplus_mod_idemp_l. split; [done|].
  pose proof (Z.div_mod T (2 ^ 64) ltac:(lia)) as HTd.
  pose proof (Z.mod_pos_bound T (2 ^ 64) ltac:(lia)) as Hr.
  set (q := (T / 2 ^ 64)%Z) in *. set (r := (T mod 2 ^ 64)%Z) in *.
  replace (T + k)%Z with (q * 2 ^ 64 + (r + k))%Z by lia.
  rewrite Z.div_add_l, (Z.add_comm (q * 2 ^ 64)), Z.mod_add by lia.
  destruct (decide (r + k < 2 ^ 64)%Z).
  - rewrite (Z.mod_small (r + k)) by lia. rewrite (Z.div_small (r + k)) by lia.
    destruct (_ <? _)%Z eqn:E; breflect; [lia|]. by rewrite Z.add_0_r.
  - replace (r + k)%Z with (1 * 2 ^ 64 + (r + k - 2 ^ 64))%Z by lia.
    rewrite Z.div_add_l, (Z.div_small (_ - _)) by lia.
    rewrite Z.add_comm, Z.mod_add, Z.mod_small by lia.
    destruct (_ <? _)%Z eqn:E; breflect; [|lia].
    by rewrite Zplus_mod_idemp_l.
Qed.

(** ** The incremental interface refines the reference *)

#[local] Opaque blake2b_F.

(** The chaining value after the first [n] whole blocks of [d]. *)
Definition full_n (n : nat) (h0 d : list Z) : list Z :=
  foldl (λ hh i, F_ref hh (take 128 (drop (i * 128) d)) (128 * (Z.of_nat i + 1)) false)
    h0 (seq 0 n).

Lemma foldl_ext_in {A B} (f g : A → B → A) a l :
  (∀ a b, b ∈ l → f a b = g a b) → foldl f a l = foldl g a l.
Proof.
  revert a. induction l as [|b l IH]; intros a H; simpl; [done|].
  rewrite H by set_solver. apply IH. intros. apply H. set_solver.
Qed.

Lemma full_n_app n h0 d x :
  (n * 128 ≤ length d)%nat → full_n n h0 (d ++ x) = full_n n h0 d.
Proof.
  intros Hn. unfold full_n. apply foldl_ext_in. intros hh i Hi%elem_of_seq.
  assert (take 128 (drop (i * 128) (d ++ x)) = take 128 (drop (i * 128) d)) as ->; [|done].
  by rewrite drop_app_le, take_app_le by len.
Qed.

Lemma full_n_S n h0 d :
  full_n (S n) h0 d =
    F_ref (full_n n h0 d) (take 128 (drop (n * 128) d)) (128 * (Z.of_nat n + 1)) false.
Proof. unfold full_n. by rewrite seq_S, foldl_app. Qed.

(** [ctx] holds [n] compressed blocks of the bytes [d], the rest in its buffer. *)
Record holds (n : nat) (h0 : list Z) (ol : nat) (c : blake2b_ctx) (d : list Z) : Prop := {
  holds_buf : length (buf c) = 128%nat;
  holds_n : (n * 128 ≤ length d ≤ n * 128 + 128)%nat;
  holds_len : buflen c = (length d - n * 128)%nat;
  holds_pending : take (buflen c) (buf c) = drop (n * 128) d;
  holds_h : h c = full_n n h0 d;
  holds_t0 : t0 c = u64 (128 * Z.of_nat n);
  holds_t1 : t1 c = u64 (128 * Z.of_nat n / 2 ^ 64);
  holds_f : f0 c = 0 ∧ f1 c = 0;
  holds_out : outlen c = ol
}.

(** The number of blocks a context holds between calls: one is kept back. *)
Definition lazy_n (n : nat) (d : list Z) : Prop :=
  (n * 128 < length d)%nat ∨ (n = 0%nat ∧ d = []).

Lemma lazy_n_full n d :
  lazy_n n d → (length d ≤ n * 128 + 128)%nat → n = n_full d.
Proof.
  unfold n_full. intros [H|[-> ->]] Hle; [|done].
  apply (Nat.div_unique _ _ _ (length d - 1 - n * 128)); lia.
Qed.

(** Filling the buffer and compressing it. *)
Lemma holds_compress n h0 ol c d x c0 c1 b :
  holds n h0 ol c d →
  length x = (128 - buflen c)%nat → b = memcpy_at (buf c) (buflen c) x →
  c0 = t0 c +! 128 → c1 = (if (c0 <? 128)%Z then t1 c +! 1 else t1 c) →
  holds (S n) h0 ol
    {| h := blake2b_F (h c) c0 c1 (f0 c) (f1 c) b; t0 := c0; t1 := c1;
       f0 := f0 c; f1 := f1 c; buf := b; buflen := 0; outlen := outlen c |} (d ++ x).
Proof.
  intros [Hb Hn Hl Hp Hh Ht0 Ht1 [Hf0 Hf1] Ho] Hx -> Hc0 Hc1.
  destruct (counter_carry (128 * Z.of_nat n) 128) as [Hcc0 Hcc1]; [lia|by split|].
  assert (c0 = u64 (128 * (Z.of_nat n + 1))) as E0.
  { rewrite Hc0, Ht0, Hcc0. f_equal. lia. }
  assert (c1 = u64 (128 * (Z.of_nat n + 1) / 2 ^ 64)) as E1.
  { rewrite Hc1, Hc0, Ht0, Ht1, Hcc1. do 2 f_equal. lia. }
  assert (memcpy_at (buf c) (buflen c) x = take 128 (drop (n * 128) (d ++ x))) as Hblk.
  { rewrite memcpy_at_full by lia. rewrite Hp, drop_app_le by lia.
    symmetry. apply firstn_all2. len. }
  split; cbn [h t0 t1 f0 f1 buf buflen outlen].
  - rewrite length_memcpy_at; lia.
  - len.
  - len.
  - by rewrite drop_ge by len.
  - rewrite full_n_S, full_n_app by lia. unfold F_ref. by rewrite Hblk, Hh, Hf0, Hf1, E0, E1.
  - rewrite E0. f_equal. lia.
  - rewrite E1. do 2 f_equal. lia.
  - by split.
  - exact Ho.
Qed.

(** Buffering the end of the input. *)
Lemma holds_partial n h0 ol c d x :
  holds n h0 ol c d → (length x ≤ 128 - buflen c)%nat →
  holds n h0 ol
    {| h := h c; t0 := t0 c; t1 := t1 c; f0 := f0 c; f1 := f1 c;
       buf := memcpy_at (buf c) (buflen c) x; buflen := (buflen c + length x)%nat;
       outlen := outlen c |} (d ++ x).
Proof.
  intros [Hb Hn Hl Hp Hh Ht0 Ht1 Hf Ho] Hx.
  split; cbn [h t0 t1 f0 f1 buf buflen outlen].
  - rewrite length_memcpy_at; lia.
  - len.
  - len.
  - rewrite take_memcpy_at, Hp, drop_app_le by lia. reflexivity.
  - rewrite full_n_app by lia. exact Hh.
  - exact Ht0.
  - exact Ht1.
  - exact Hf.
  - exact Ho.
Qed.

Lemma update_loop_holds fuel n h0 ol c d x :
  holds n h0 ol c d → lazy_n n d ∨ x ≠ [] →
  (length x + (if decide (buflen c = 128%nat) then 1 else 0) ≤ fuel)%nat →
  ∃ m, holds m h0 ol (blake2b_update_loop fuel c x) (d ++ x) ∧ lazy_n m (d ++ x).
Proof.
  revert n c d x. induction fuel as [|fuel IH]; intros n c d x Hc Hlazy Hfuel.
  - destruct x; [|simpl in *; lia]. rewrite app_nil_r. exists n. split; [exact Hc|]. by destruct Hlazy.
  - pose proof Hc as [Hb Hn Hl _ _ _ _ _ _]. cbn [blake2b_update_loop].
    destruct (length x =? 0)%nat eqn:Hx; breflect.
    { destruct x; [|done]. rewrite app_nil_r. exists n. split; [exact Hc|]. by destruct Hlazy. }
    unfold BUCKETS_BLAKE2B_BLOCKBYTES.
    destruct (128 - buflen c <? length x)%nat eqn:Hfill; breflect.
    + destruct (IH (S n)
        {| h := blake2b_F (h c) (t0 c +! 128)
                  (if (t0 c +! 128 <? 128)%Z then t1 c +! 1 else t1 c) (f0 c) (f1 c)
                  (memcpy_at (buf c) (buflen c) (take (128 - buflen c) x));
           t0 := t0 c +! 128;
           t1 := if (t0 c +! 128 <? 128)%Z then t1 c +! 1 else t1 c;
           f0 := f0 c; f1 := f1 c;
           buf := memcpy_at (buf c) (buflen c) (take (128 - buflen c) x);
           buflen := 0; outlen := outlen c |}
        (d ++ take (128 - buflen c) x) (drop (128 - buflen c) x)) as (m & Hm & Hlm).
      * eapply holds_compress; [done|len|done..].
      * right. intros Hnil. apply (f_equal length) in Hnil. len.
      * revert Hfuel. cbn [buflen]. rewrite (decide_False (P := 0%nat = 128%nat)) by lia.
        destruct (decide (buflen c = 128%nat)); intros; len.
      * exists m. rewrite <-app_assoc, take_drop in Hm, Hlm. done.
    + exists n. split; [apply holds_partial; [done|lia]|].
      left. destruct Hlazy as [[Hz|[-> ->]]|Hne]; len.
Qed.

Lemma length_F hh c0 c1 g0 g1 b : length (blake2b_F hh c0 c1 g0 g1 b) = 8%nat.
Proof. with_strategy transparent [blake2b_F] unfold blake2b_F. by rewrite length_fmap, length_seq. Qed.

Lemma fmap_word (l : list Z) : length l = 8%nat → word l <$> seq 0 8 = l.
Proof. intros Hl. do 8 (destruct l as [|? l]; [done|]). by destruct l. Qed.

Lemma fmap_store_words (l : list Z) :
  length l = 8%nat → ((λ i, store_le64 (word l i)) <$> seq 0 8) = store_le64 <$> l.
Proof.
  intros Hl. transitivity (store_le64 <$> (word l <$> seq 0 8)); [done|].
  by rewrite (fmap_word l Hl).
Qed.

Lemma final_holds n h0 ol olen c d :
  holds n h0 ol c d → lazy_n n d → (ol ≤ olen)%nat → (ol ≤ 64)%nat →
  ∃ c', buckets_blake2b_final (Some c) false olen =
        Val (0, Some c', take ol (concat (store_le64 <$> blake2b_ref_words h0 d))).
Proof.
  intros [Hb Hn Hl Hp Hh Ht0 Ht1 [Hf0 Hf1] Ho] Hlazy Hol Hol64.
  pose proof (lazy_n_full n d Hlazy ltac:(lia)) as Hnf.
  unfold buckets_blake2b_final. rewrite Ho.
  destruct (olen <? ol)%nat eqn:E; breflect; [lia|].
  cbn [blake2b_compress h outlen buf t0 t1 f0 f1].
  destruct (BUCKETS_BLAKE2B_OUTBYTES <? ol)%nat eqn:E2; breflect;
    [unfold BUCKETS_BLAKE2B_OUTBYTES in *; lia|].
  eexists. do 2 f_equal. rewrite fmap_store_words by apply length_F. do 3 f_equal.
  destruct (counter_carry (128 * Z.of_nat n) (Z.of_nat (buflen c))) as [Hc0 Hc1];
    [lia|split; lia|].
  assert (128 * Z.of_nat n + Z.of_nat (buflen c) = Z.of_nat (length d))%Z as Htot by lia.
  rewrite Ht0, Ht1, Hc1, Hc0, Htot. unfold blake2b_ref_words, F_ref.
  rewrite Hh, Hf1. unfold blake2b_ref_full. rewrite <-Hnf. fold (full_n n h0 d).
  f_equal. unfold pad_block. rewrite <-Hp, length_take_le by lia.
  unfold BUCKETS_BLAKE2B_BLOCKBYTES. split_if.
  - rewrite memcpy_at_full; [done|]. rewrite length_replicate. lia.
  - assert (buflen c = 128%nat) as -> by lia. rewrite firstn_all2 by lia.
    by rewrite Nat.sub_diag, app_nil_r.
Qed.

Lemma init_holds c olen :
  length (buf c) = 128%nat → (0 < olen ≤ 64)%nat →
  ∃ c', buckets_blake2b_init (Some c) olen = (0, Some c') ∧
        holds 0 (blake2b_h0 olen 0) olen c' [].
Proof.
  intros Hb Ho. unfold buckets_blake2b_init, BUCKETS_BLAKE2B_OUTBYTES.
  destruct (olen =? 0)%nat eqn:E1; breflect; [lia|].
  destruct (64 <? olen)%nat eqn:E2; breflect; [lia|]. cbn [orb].
  eexists; split; [reflexivity|].
  split; cbn [h t0 t1 f0 f1 buf buflen outlen]; try reflexivity; try done; [simpl; lia|].
  cbn [simple_param digest_length]. unfold u8. rewrite wrap_small by (split; lia). lia.
Qed.

Lemma update_holds n h0 ol c d x :
  holds n h0 ol c d → lazy_n n d →
  ∃ m c', buckets_blake2b_update (Some c) (inr x) = (0, Some c') ∧
          holds m h0 ol c' (d ++ x) ∧ lazy_n m (d ++ x).
Proof.
  intros Hc Hl. destruct (update_loop_holds (S (length x)) n h0 ol c d x) as (m & Hm & Hlm).
  - exact Hc.
  - by left.
  - destruct (decide _); lia.
  - exists m. eexists. split; [reflexivity|]. by split.
Qed.

Lemma updates_hold n h0 ol c d ds :
  holds n h0 ol c d → lazy_n n d →
  ∃ m c', foldl (λ s p, (buckets_blake2b_update s (inr p)).2) (Some c) ds = Some c' ∧
          holds m h0 ol c' (d ++ concat ds) ∧ lazy_n m (d ++ concat ds).
Proof.
  revert n c d. induction ds as [|p ds IH]; intros n c d Hc Hl.
  - exists n, c. by rewrite app_nil_r.
  - destruct (update_holds n h0 ol c d p Hc Hl) as (m & c' & Hu & Hm & Hlm).
    cbn [foldl concat]. rewrite Hu, app_assoc. cbn [snd]. by apply (IH m).
Qed.

(** The bytes a keyed context starts from. *)
Definition key_block (key : list Z) : list Z :=
  if (0 <? length key)%nat then pad_block key else [].

Lemma init_key_holds c olen key :
  length (buf c) = 128%nat → (0 < olen ≤ 64)%nat → (length key ≤ 64)%nat →
  ∃ n c', buckets_blake2b_init_key (Some c) olen (inr key) = (0, Some c') ∧
    holds n (blake2b_h0 olen (length key)) olen c' (key_block key) ∧ lazy_n n (key_block key).
Proof.
  intros Hb Ho Hk. unfold buckets_blake2b_init_key, BUCKETS_BLAKE2B_OUTBYTES.
  destruct (olen =? 0)%nat eqn:E1; breflect; [lia|].
  destruct (64 <? olen)%nat eqn:E2; breflect; [lia|]. cbn [orb].
  destruct (BUCKETS_BLAKE2B_KEYBYTES <? length key)%nat eqn:E3; breflect;
    [unfold BUCKETS_BLAKE2B_KEYBYTES in *; lia|].
  cbn [buckets_blake2b_init_param]. change (0 <? 0)%Z with false. cbv iota.
  set (c0 := {| h := _ |}).
  assert (holds 0 (blake2b_h0 olen (length key)) olen c0 []) as H0.
  { split; cbn [c0 h t0 t1 f0 f1 buf buflen outlen]; try reflexivity; try done; [simpl; lia|].
    cbn [simple_param digest_length]. unfold u8. rewrite wrap_small by (split; lia). lia. }
  unfold key_block. destruct (0 <? length key)%nat eqn:E4; breflect.
  - assert (memcpy_at (replicate BUCKETS_BLAKE2B_BLOCKBYTES 0) 0 key = pad_block key) as ->.
    { unfold memcpy_at, pad_block, BUCKETS_BLAKE2B_BLOCKBYTES.
      by rewrite take_0, drop_replicate. }
    destruct (update_holds 0 _ olen c0 [] (pad_block key) H0) as (m & c' & Hu & Hm & Hlm);
      [by right|]. exists m, c'. rewrite Hu. by split.
  - exists 0%nat, c0. split; [done|]. split; [done|by right].
Qed.

(** ** The constant-time comparison *)

Lemma lor_eq_0_bytes r x : is_u8 r → is_u8 x → u8 (Z.lor r x) = 0 ↔ r = 0 ∧ x = 0.
Proof.
  intros Hr Hx. unfold u8. rewrite wrap_small by (by apply lor_range). apply Z.lor_eq_0_iff.
Qed.

Lemma lxor_eq_0 a b : Z.lxor a b = 0 ↔ a = b.
Proof. split; [apply Z.lxor_eq|intros ->; apply Z.lxor_nilpotent]. Qed.

Lemma verify_fold_zero a b l r :
  is_bytes a → is_bytes b → is_u8 r →
  foldl (λ r i, u8 (Z.lor r (Z.lxor (byte_at a i) (byte_at b i)))) r l = 0 ↔
  r = 0 ∧ Forall (λ i, byte_at a i = byte_at b i) l.
Proof.
  intros Ha Hb. revert r. induction l as [|i l IH]; intros r Hr; cbn [foldl].
  - rewrite Forall_nil. tauto.
  - rewrite IH by apply u8_range.
    rewrite lor_eq_0_bytes by (done || (apply lxor_range; [done|by apply byte_at_range..])).
    rewrite lxor_eq_0, Forall_cons. tauto.
Qed.

Lemma byte_at_eq_take a b n :
  (n ≤ length a)%nat → (n ≤ length b)%nat →
  Forall (λ i, byte_at a i = byte_at b i) (seq 0 n) ↔ take n a = take n b.
Proof.
  intros Ha Hb. rewrite Forall_seq. split.
  - intros H. apply list_eq. intros i. destruct (decide (i < n)%nat).
    + rewrite !lookup_take_lt by done. specialize (H i ltac:(lia)). unfold byte_at in H.
      destruct (lookup_lt_is_Some_2 a i) as [x Hx]; [lia|].
      destruct (lookup_lt_is_Some_2 b i) as [y Hy]; [lia|].
      rewrite Hx, Hy in *. by simpl in H; subst.
    + by rewrite !lookup_take_ge by lia.
  - intros H i Hi. unfold byte_at.
    by rewrite <-(lookup_take_lt a n), <-(lookup_take_lt b n), H by lia.
Qed.

(** ** Properties *)

(** C38: a context with any initial contents, keyed with at most 64 bytes and then
    fed an input in any pieces, finalises to the RFC 7693 digest of the padded key
    block followed by the concatenated input; no step is undefined. *)
Theorem blake2b_incremental_refines_rfc7693 c0 olen key ds :
  length (buf c0) = 128%nat → (0 < olen ≤ 64)%nat → (length key ≤ 64)%nat →
  ∃ c', buckets_blake2b_final
          (foldl (λ s p, (buckets_blake2b_update s (inr p)).2)
             (buckets_blake2b_init_key (Some c0) olen (inr key)).2 ds) false olen
        = Val (0, Some c', blake2b_ref olen key (concat ds)).
Proof.
  intros Hb Ho Hk. destruct (init_key_holds c0 olen key Hb Ho Hk) as (n & c & -> & Hc & Hl).
  destruct (updates_hold n _ olen c _ ds Hc Hl) as (m & c' & Hu & Hm & Hlm).
  cbn [snd]. rewrite Hu.
  destruct (final_holds m _ olen olen c' _ Hm Hlm) as [c'' Hf]; [lia..|].
  exists c''. rewrite Hf. unfold blake2b_ref, key_block.
  by destruct (0 <? length key)%nat.
Qed.

Lemma blake2b_incremental_refines_rfc7693_witness :
  let c0 := {| h := []; t0 := 3; t1 := 4; f0 := 5; f1 := 6; buf := replicate 128 77;
               buflen := 9; outlen := 2 |} in
  ∃ c', buckets_blake2b_final
          (foldl (λ s p, (buckets_blake2b_update s (inr p)).2)
             (buckets_blake2b_init_key (Some c0) 32 (inr [1; 2; 3])).2
             [str_bytes "abc"; replicate 200 1; []]) false 32
        = Val (0, Some c', blake2b_ref 32 [1; 2; 3] (concat [str_bytes "abc"; replicate 200 1; []])).
Proof. intros c0. apply blake2b_incremental_refines_rfc7693; simpl; lia. Defined.

(** What is wrong with the initialisation arguments, and with a whole call. *)
Definition blake2b_bad_init (olen : nat) (key : nat + list Z) : bool :=
  (olen =? 0)%nat || (64 <? olen)%nat
  || (match key with inl n => (0 <? n)%nat | inr k => (64 <? length k)%nat end).

Definition blake2b_bad_args (out_null : bool) (olen : nat) (data key : nat + list Z) : bool :=
  blake2b_bad_init olen key
  || (match data with inl n => (0 <? n)%nat | inr _ => false end) || out_null.

Definition bytes_of (p : nat + list Z) : list Z := match p with inl _ => [] | inr l => l end.

(** The context the one-shot hash starts from. *)
Definition oneshot_start (olen : nat) (key : nat + list Z) : Z * option blake2b_ctx :=
  if (0 <? match key with inl n => n | inr k => length k end)%nat
  then buckets_blake2b_init_key (Some stack_ctx) olen key
  else buckets_blake2b_init (Some stack_ctx) olen.

Lemma oneshot_start_bad olen key :
  blake2b_bad_init olen key = true → (oneshot_start olen key).1 = -1.
Proof.
  unfold blake2b_bad_init, oneshot_start, buckets_blake2b_init_key, buckets_blake2b_init,
    BUCKETS_BLAKE2B_OUTBYTES, BUCKETS_BLAKE2B_KEYBYTES. intros Hbad.
  destruct ((olen =? 0)%nat || (64 <? olen)%nat); [by destruct (0 <? _)%nat|].
  cbn [orb] in Hbad. destruct key as [n|k]; rewrite Hbad; [done|]. breflect.
  replace (0 <? length k)%nat with true by (symmetry; apply Nat.ltb_lt; lia). done.
Qed.

Lemma oneshot_start_good olen key :
  blake2b_bad_init olen key = false →
  (0 < olen ≤ 64)%nat ∧
  ∃ n c, oneshot_start olen key = (0, Some c) ∧
    holds n (blake2b_h0 olen (length (bytes_of key))) olen c (key_block (bytes_of key)) ∧
    lazy_n n (key_block (bytes_of key)).
Proof.
  unfold blake2b_bad_init, oneshot_start. intros Hbad. breflect.
  split; [lia|]. destruct (init_holds stack_ctx olen) as (c & Hi & Hc); [done|lia|].
  destruct key as [n|k]; breflect; cbn [bytes_of].
  - assert (n = 0%nat) as -> by lia. exists 0%nat, c.
    split; [done|]. split; [done|by right].
  - destruct (0 <? length k)%nat eqn:E; breflect.
    + apply init_key_holds; [done|lia..].
    + destruct k; [|simpl in *; lia]. exists 0%nat, c. split; [done|]. split; [done|by right].
Qed.

Lemma final_out_null c olen :
  buckets_blake2b_final (Some c) true olen = Val (-1, Some c, []).
Proof. done. Qed.

(** The one-shot hash returns -1 exactly on a NULL output, an output length
    outside 1..64, a NULL key or input of non-zero length, or a key longer than 64
    bytes; on every other call it returns 0 and the RFC 7693 digest, and it never
    runs into undefined behaviour. *)
Theorem blake2b_oneshot_total on olen data key :
  buckets_blake2b on olen data key =
    if blake2b_bad_args on olen data key then Val (-1, [])
    else Val (0, blake2b_ref olen (bytes_of key) (bytes_of data)).
Proof.
  unfold buckets_blake2b, blake2b_bad_args. fold (oneshot_start olen key).
  destruct (blake2b_bad_init olen key) eqn:Hbad.
  { apply oneshot_start_bad in Hbad. destruct (oneshot_start olen key) as [rc c].
    cbn [fst] in Hbad. by subst. }
  destruct (oneshot_start_good olen key Hbad) as (Ho & n & c & -> & Hc & Hl).
  change (0 <? 0)%Z with false. cbv iota. cbn [orb].
  assert (match data with inl (S _) => False | _ => True end →
          ∃ m c', buckets_blake2b_update (Some c) data = (0, Some c') ∧
            holds m (blake2b_h0 olen (length (bytes_of key))) olen c'
              (key_block (bytes_of key) ++ bytes_of data) ∧
            lazy_n m (key_block (bytes_of key) ++ bytes_of data)) as Hdata.
  { destruct data as [[|k]|d]; intros Hd; [|done|].
    - exists n, c. cbn [bytes_of]. by rewrite app_nil_r.
    - destruct (update_holds n _ olen c _ d Hc Hl) as (m & c' & ? & ? & ?). by exists m, c'. }
  destruct data as [[|k]|d]; [|by destruct on|];
  destruct (Hdata I) as (m & c' & -> & Hm & Hlm); change (0 <? 0)%Z with false; cbv iota;
  (destruct on; [by rewrite final_out_null|]);
  destruct (final_holds m _ olen olen c' _ Hm Hlm) as [c'' ->]; try lia;
  cbn [c_bind]; unfold blake2b_ref, key_block; by destruct (0 <? length (bytes_of key))%nat.
Qed.

(** The constant-time comparison of two buffers of at least [n] bytes is true
    exactly when [n] is positive and their first [n] bytes are equal. *)
Theorem blake2b_verify_correct a b n :
  is_bytes a → is_bytes b → (n ≤ length a)%nat → (n ≤ length b)%nat →
  buckets_blake2b_verify (Some a) (Some b) n = true ↔ (0 < n)%nat ∧ take n a = take n b.
Proof.
  intros Ha Hb Hna Hnb. unfold buckets_blake2b_verify.
  destruct (n =? 0)%nat eqn:E; breflect; [split; [done|lia]|].
  rewrite Z.eqb_eq, verify_fold_zero by (done || by split).
  rewrite byte_at_eq_take by done. intuition lia.
Qed.

Lemma blake2b_verify_correct_witness :
  buckets_blake2b_verify (Some [1; 2; 3]) (Some [1; 2; 4]) 2 = true ↔
  (0 < 2)%nat ∧ take 2 [1; 2; 3] = take 2 [1; 2; 4].
Proof.
  apply (blake2b_verify_correct [1; 2; 3] [1; 2; 4] 2);
    [repeat constructor; discriminate..|simpl; lia|simpl; lia].
Defined.

(** ** The plain 256-bit digest *)

Lemma blake2b_oneshot_ok data :
  buckets_blake2b false 32 (inr data) (inl 0%nat) = Val (0, blake2b_ref 32 [] data).
Proof. by rewrite blake2b_oneshot_total. Qed.

Lemma length_blake2b_ref olen key d : (olen ≤ 64)%nat → length (blake2b_ref olen key d) = olen.
Proof.
  intros Ho. unfold blake2b_ref. set (ws := blake2b_ref_words _ _).
  assert (length ws = 8%nat) as Hl by apply length_F.
  rewrite length_take, length_concat. do 9 (destruct ws as [|? ws]; try done).
  cbn. lia.
Qed.

Lemma blake2b_ref_bytes olen key d : is_bytes (blake2b_ref olen key d).
Proof.
  unfold blake2b_ref, is_bytes. apply Forall_take, Forall_concat, Forall_fmap, Forall_forall.
  intros v _. apply store_le64_bytes.
Qed.

Lemma blake2b_ref_verify a b :
  buckets_blake2b_verify (Some (blake2b_ref 32 [] a)) (Some (blake2b_ref 32 [] b)) 32 = true ↔
  blake2b_ref 32 [] a = blake2b_ref 32 [] b.
Proof.
  rewrite blake2b_verify_correct
    by (apply blake2b_ref_bytes || rewrite length_blake2b_ref by lia; lia).
  rewrite !take_ge by (rewrite length_blake2b_ref; lia). intuition lia.
Qed.
