(* ===== verification/SortedArray.v ===== *)
(** * Sorted arrays of hashed entries: [qsort], binary search, clockwise successor

    Shared by the hash ring (hash/ring.c) and object placement
    (placement/placement.c): both sort an array of virtual nodes by a 64-bit hash
    with [qsort] and find the first entry at or after a target hash with the same
    binary-search loop, wrapping around at the end. *)

From S2P Require Import Prelude CInt.

(** ** [qsort] (C11 7.22.5.2)

    The standard promises an array with the same elements in ascending order; the
    order of equal elements is unspecified, so clients are proved against this
    interface and not against one sorting algorithm. *)

Class cmp_order {A} (cmp : A → A → Z) : Prop := {
  cmp_trans : ∀ x y z, cmp x y ≤ 0 → cmp y z ≤ 0 → cmp x z ≤ 0;
  cmp_total : ∀ x y, cmp x y ≤ 0 ∨ cmp y x ≤ 0
}.

Class Qsort := {
  qsort : ∀ {A}, (A → A → Z) → list A → list A;
  qsort_perm : ∀ {A} (cmp : A → A → Z) (l : list A), qsort cmp l ≡ₚ l;
  qsort_sorted : ∀ {A} (cmp : A → A → Z) (l : list A),
    cmp_order cmp → StronglySorted (λ x y, cmp x y ≤ 0) (qsort cmp l)
}.

(** Merge sort, what glibc runs when memory permits, meets the interface. *)
Definition merge_sort_by {A} (cmp : A → A → Z) (l : list A) : list A :=
  @merge_sort A (λ x y, cmp x y ≤ 0) (λ x y, Z_le_dec (cmp x y) 0) l.

#[export] Instance merge_qsort : Qsort.
Proof.
  refine {| qsort := @merge_sort_by |}.
  - intros A cmp l. apply merge_sort_Permutation.
  - intros A cmp l [Htr Htot]. apply StronglySorted_merge_sort; [exact Htr|exact Htot].
Defined.

(** ** The comparison of two hashes: [vnode_compare] *)

Section Hashed.
Context {V : Type} (hash : V → Z).

Definition hash_compare (a b : V) : Z :=
  if hash a <? hash b then -1 else if hash b <? hash a then 1 else 0.

#[export] Instance hash_compare_order : cmp_order hash_compare.
Proof.
  split; unfold hash_compare.
  - intros x y z. repeat split_if; lia.
  - intros x y. repeat split_if; lia.
Qed.

Lemma hash_compare_le a b : hash_compare a b ≤ 0 ↔ hash a ≤ hash b.
Proof. unfold hash_compare. repeat split_if; lia. Qed.

(** Ascending by hash. *)
Definition hash_sorted (l : list V) : Prop := StronglySorted (λ x y, hash x ≤ hash y) l.

Lemma qsort_hash_sorted `{Qsort} l : hash_sorted (qsort hash_compare l).
Proof.
  pose proof (qsort_sorted hash_compare l _) as Hs. revert Hs.
  generalize (qsort hash_compare l) as k. induction 1 as [|x k Hk IH Hx]; constructor; [done|].
  eapply Forall_impl; [done|]. intros y. apply hash_compare_le.
Qed.

Lemma hash_sorted_lookup l i j x y :
  hash_sorted l → l !! i = Some x → l !! j = Some y → (i ≤ j)%nat → hash x ≤ hash y.
Proof.
  intros Hs. revert i j. induction Hs as [|z l Hs IH Hz]; intros i j Hi Hj Hij; [done|].
  destruct i as [|i], j as [|j]; simplify_eq/=; try lia.
  - rewrite Forall_forall in Hz. by apply Hz, list_elem_of_lookup_2 with j.
  - apply (IH i j); done || lia.
Qed.

Lemma hash_sorted_filter (P : V → Prop) `{!∀ x, Decision (P x)} l :
  hash_sorted l → hash_sorted (filter P l).
Proof.
  induction 1 as [|x l Hl IH Hx]; [constructor|]. rewrite filter_cons.
  case_decide; [|done]. constructor; [done|].
  rewrite Forall_forall in *. intros y [_ Hy]%list_elem_of_filter. auto.
Qed.

(** ** The binary-search loop

    [while (left < right) { mid = left + (right - left) / 2; ... }] with the
    array reads at [mid]; [right - left] iterations are always enough. *)

Definition hash_at (l : list V) (i : nat) : Z := default 0 (hash <$> l !! i).

Fixpoint bsearch (fuel : nat) (l : list V) (target : Z) (left right : nat) : nat :=
  match fuel with
  | O => left
  | S fuel =>
      if (left <? right)%nat then
        let mid := (left + (right - left) / 2)%nat in
        if hash_at l mid <? target
        then bsearch fuel l target (mid + 1) right
        else bsearch fuel l target left mid
      else left
  end.

(** The loop from [left = 0], [right = n], then the wrap-around. *)
Definition search_wrap (l : list V) (n : nat) (target : Z) : nat :=
  let left := bsearch n l target 0 n in
  if (n <=? left)%nat then 0%nat else left.

(** The same loop with its reads checked: one past the array is undefined. *)
Fixpoint bsearch_checked (fuel : nat) (l : list V) (target : Z) (left right : nat) : c_result nat :=
  match fuel with
  | O => Val left
  | S fuel =>
      if (left <? right)%nat then
        let mid := (left + (right - left) / 2)%nat in
        (let* v := c_read l mid in
         if hash v <? target
         then bsearch_checked fuel l target (mid + 1) right
         else bsearch_checked fuel l target left mid)%c
      else Val left
  end.

Definition search_wrap_checked (l : list V) (n : nat) (target : Z) : c_result nat :=
  (let* left := bsearch_checked n l target 0 n in
   Val (if (n <=? left)%nat then 0%nat else left))%c.

(** No read leaves the array. *)
Lemma bsearch_checked_Val fuel l t left right :
  (right ≤ length l)%nat → bsearch_checked fuel l t left right = Val (bsearch fuel l t left right).
Proof.
  revert left right. induction fuel as [|fuel IH]; intros left right Hr; [done|].
  cbn [bsearch_checked bsearch]. destruct (Nat.ltb_spec left right) as [Hlt|]; [|done].
  set (mid := (left + (right - left) / 2)%nat).
  assert (mid < right)%nat as Hm by (subst mid; pose proof (Nat.div_lt (right - left) 2); lia).
  destruct (lookup_lt_is_Some_2 l mid) as [v Hv]; [lia|]. rewrite (proj2 (c_read_Val _ _ _) Hv). cbn [c_bind].
  unfold hash_at. rewrite Hv. cbn [fmap option_fmap option_map default from_option id].
  destruct (hash v <? t); apply IH; lia.
Qed.

Lemma search_wrap_checked_Val l n t :
  (n ≤ length l)%nat → search_wrap_checked l n t = Val (search_wrap l n t).
Proof. intros Hn. unfold search_wrap_checked. by rewrite bsearch_checked_Val. Qed.

Lemma bsearch_spec fuel l t left right :
  hash_sorted l → (right ≤ length l)%nat → (left ≤ right)%nat → (right - left ≤ fuel)%nat →
  (∀ i, (i < left)%nat → hash_at l i < t) →
  (∀ i, (right ≤ i < length l)%nat → t ≤ hash_at l i) →
  let k := bsearch fuel l t left right in
  (left ≤ k ≤ right)%nat ∧ (∀ i, (i < k)%nat → hash_at l i < t) ∧
  (∀ i, (k ≤ i < length l)%nat → t ≤ hash_at l i).
Proof.
  intros Hs. revert left right.
  induction fuel as [|fuel IH]; intros left right Hr Hlr Hf Hlo Hhi; cbn [bsearch].
  { assert (left = right) as -> by lia. repeat split; auto with lia. }
  destruct (left <? right)%nat eqn:E; breflect;
    [|assert (left = right) as -> by lia; repeat split; auto with lia].
  set (mid := (left + (right - left) / 2)%nat).
  assert (left ≤ mid < right)%nat as Hm.
  { subst mid. pose proof (Nat.div_lt (right - left) 2). lia. }
  assert (∀ i j, (i ≤ j < length l)%nat → hash_at l i ≤ hash_at l j) as Hmono.
  { intros i j Hij. unfold hash_at.
    destruct (lookup_lt_is_Some_2 l i) as [x Hx]; [lia|].
    destruct (lookup_lt_is_Some_2 l j) as [y Hy]; [lia|]. rewrite Hx, Hy. simpl.
    apply (hash_sorted_lookup l i j); done || lia. }
  destruct (hash_at l mid <? t) eqn:Et; breflect.
  - destruct (IH (mid + 1)%nat right) as (? & ? & ?); [lia..| |done|].
    + intros i Hi. pose proof (Hmono i mid). lia.
    + repeat split; done || lia.
  - destruct (IH left mid) as (? & ? & ?); [lia..|done| |].
    + intros i Hi. pose proof (Hmono mid i). lia.
    + repeat split; done || lia.
Qed.

(** ** Abstract specification: the clockwise successor *)

(** First entry at or after [t], or the first entry of the array. *)
Fixpoint first_ge (l : list V) (t : Z) : option V :=
  match l with
  | [] => None
  | v :: l => if hash v <? t then first_ge l t else Some v
  end.

Definition successor (l : list V) (t : Z) : option V :=
  match first_ge l t with Some v => Some v | None => head l end.

Lemma first_ge_at l t k :
  (k ≤ length l)%nat → (∀ i, (i < k)%nat → hash_at l i < t) →
  (∀ i, (k ≤ i < length l)%nat → t ≤ hash_at l i) → first_ge l t = l !! k.
Proof.
  revert k. induction l as [|v l IH]; intros k Hk Hlo Hhi; [by rewrite lookup_nil|].
  cbn [first_ge]. destruct k as [|k].
  - specialize (Hhi 0%nat). unfold hash_at in Hhi. simpl in Hhi.
    split_if; [|done]. lia.
  - specialize (Hlo 0%nat ltac:(lia)) as H0. unfold hash_at in H0. simpl in H0.
    split_if; [|lia]. apply IH; [simpl in Hk; lia| |].
    + intros i Hi. apply (Hlo (S i)). lia.
    + intros i Hi. apply (Hhi (S i)). simpl. lia.
Qed.

(** The loop finds the successor. *)
Lemma search_wrap_successor l t :
  hash_sorted l → l ≠ [] →
  successor l t = l !! search_wrap l (length l) t ∧
  (search_wrap l (length l) t < length l)%nat.
Proof.
  intros Hs Hne. unfold search_wrap, successor.
  assert (0 < length l)%nat as Hpos by (destruct l; [done|simpl; lia]).
  destruct (bsearch_spec (length l) l t 0 (length l)) as (Hk & Hlo & Hhi);
    [done|lia..| | |]; [lia|lia|].
  set (k := bsearch _ _ _ _ _) in *. rewrite (first_ge_at l t k) by (done || lia).
  destruct (length l <=? k)%nat eqn:E; breflect.
  - rewrite lookup_ge_None_2 by done. split; [by destruct l|done].
  - destruct (lookup_lt_is_Some_2 l k) as [v Hv]; [lia|]. rewrite Hv. done.
Qed.

Lemma first_ge_Some l t v :
  hash_sorted l → first_ge l t = Some v →
  v ∈ l ∧ t ≤ hash v ∧ (∀ w, w ∈ l → hash w < t ∨ hash v ≤ hash w).
Proof.
  induction 1 as [|x l Hl IH Hx]; cbn [first_ge]; [done|].
  destruct (hash x <? t) eqn:E; breflect.
  - intros (Hin & Ht & Hmin)%IH. split; [set_solver|]. split; [done|].
    intros w [->|Hw]%elem_of_cons; [by left|by apply Hmin].
  - intros [= <-]. split; [set_solver|]. split; [done|].
    rewrite Forall_forall in Hx. intros w [->|Hw]%elem_of_cons; right; [lia|by apply Hx].
Qed.

Lemma first_ge_None l t : first_ge l t = None → ∀ w, w ∈ l → hash w < t.
Proof.
  induction l as [|x l IH]; cbn [first_ge]; intros H w Hw; [by apply elem_of_nil in Hw|].
  destruct (hash x <? t) eqn:E; breflect; [|done].
  apply elem_of_cons in Hw as [->|Hw]; [done|by apply IH].
Qed.

(** ** Clockwise distance on the 64-bit circle *)

Definition clockwise (t x : Z) : Z := (x - t) mod 2 ^ 64.

Lemma clockwise_ge t x : is_u64 t → is_u64 x → t ≤ x → clockwise t x = x - t.
Proof. intros [] [] ?. apply Z.mod_small. lia. Qed.

Lemma clockwise_lt t x : is_u64 t → is_u64 x → x < t → clockwise t x = x - t + 2 ^ 64.
Proof.
  intros [] [] ?. unfold clockwise. symmetry.
  apply (Z.mod_unique _ _ (-1)); [left; lia|lia].
Qed.

Lemma clockwise_inj t x y : is_u64 t → is_u64 x → is_u64 y → clockwise t x = clockwise t y → x = y.
Proof.
  intros Ht Hx Hy.
  destruct (decide (t ≤ x)); [rewrite (clockwise_ge t x) by done|rewrite (clockwise_lt t x) by (done || lia)];
    (destruct (decide (t ≤ y)); [rewrite (clockwise_ge t y) by done|rewrite (clockwise_lt t y) by (done || lia)]);
    destruct Ht, Hx, Hy; lia.
Qed.

(** [nearest l t v]: [v] is an entry of [l] at the least clockwise distance from [t]. *)
Definition nearest (l : list V) (t : Z) (v : V) : Prop :=
  v ∈ l ∧ ∀ w, w ∈ l → clockwise t (hash v) ≤ clockwise t (hash w).

Lemma successor_nearest l t v :
  hash_sorted l → (∀ w, w ∈ l → is_u64 (hash w)) → is_u64 t →
  successor l t = Some v → nearest l t v.
Proof.
  intros Hs Hu Ht. unfold successor. destruct (first_ge l t) as [u|] eqn:E.
  - intros [= ->]. apply first_ge_Some in E as (Hin & Hge & Hmin); [|done].
    split; [done|]. intros w Hw. rewrite clockwise_ge by auto.
    pose proof (Hu _ Hin) as [? ?]; pose proof (Hu _ Hw) as [? ?]; destruct Ht.
    destruct (decide (hash w < t)).
    + rewrite clockwise_lt; [lia|by split|by split|done].
    + rewrite clockwise_ge; [|by split|by split|lia]. destruct (Hmin w Hw); lia.
  - destruct l as [|x l]; [done|]. intros [= ->].
    pose proof (first_ge_None _ _ E) as Hlt. split; [set_solver|]. intros w Hw.
    rewrite !clockwise_lt by (done || apply Hu || apply Hlt; set_solver).
    apply StronglySorted_cons in Hs as [Hx _]. rewrite Forall_forall in Hx.
    apply elem_of_cons in Hw as [->|Hw]; [lia|]. specialize (Hx w Hw). lia.
Qed.

(** With distinct hashes the nearest entry is unique, whatever the order. *)
Lemma nearest_unique l t u v :
  (∀ w, w ∈ l → is_u64 (hash w)) → is_u64 t → NoDup (hash <$> l) →
  nearest l t u → nearest l t v → u = v.
Proof.
  intros Hu Ht Hnd [Hul Humin] [Hvl Hvmin].
  assert (hash u = hash v) as Heq.
  { apply (clockwise_inj t); [done|auto..|]. pose proof (Humin v Hvl). pose proof (Hvmin u Hul). lia. }
  apply list_elem_of_lookup in Hul as [i Hi]. apply list_elem_of_lookup in Hvl as [j Hj].
  assert (i = j) as ->; [|congruence].
  eapply NoDup_lookup; [done|..]; rewrite list_lookup_fmap; [by rewrite Hi|rewrite Hj, Heq; done].
Qed.

Lemma nearest_subset l k t v :
  nearest l t v → v ∈ k → (∀ w, w ∈ k → w ∈ l) → nearest k t v.
Proof. intros [_ Hmin] Hv Hk. split; auto. Qed.

(** Dropping entries other than the successor does not change the successor,
    even among equal hashes, since the order is kept. *)
Lemma successor_filter (P : V → Prop) `{!∀ x, Decision (P x)} l t v :
  successor l t = Some v → P v → successor (filter P l) t = Some v.
Proof.
  unfold successor. intros Hsucc HP.
  assert (first_ge l t = Some v → first_ge (filter P l) t = Some v) as Hfg.
  { clear Hsucc. induction l as [|x l IH]; cbn [first_ge]; [done|].
    destruct (hash x <? t) eqn:E; intros Hl; rewrite filter_cons.
    - case_decide; [cbn [first_ge]; rewrite E|]; auto.
    - injection Hl as ->. rewrite decide_True by done. cbn [first_ge]. by rewrite E. }
  destruct (first_ge l t) as [u|] eqn:E; [by rewrite Hfg|].
  assert (first_ge (filter P l) t = None) as ->.
  { pose proof (first_ge_None _ _ E) as Hlt. clear -Hlt. induction l as [|x l IH]; [done|].
    rewrite filter_cons. case_decide; [|apply IH; intros; apply Hlt; set_solver].
    cbn [first_ge]. pose proof (Hlt x ltac:(set_solver)).
    destruct (hash x <? t) eqn:E; breflect; [|lia]. apply IH. intros; apply Hlt; set_solver. }
  destruct l as [|x l]; [done|]. injection Hsucc as ->. rewrite filter_cons.
  by rewrite decide_True.
Qed.

Lemma successor_is_Some l t : l ≠ [] → is_Some (successor l t).
Proof. intros. unfold successor. destruct (first_ge l t); [eauto|]. destruct l; [done|simpl; eauto]. Qed.
End Hashed.
