(* ===== verification/Ring.v ===== *)
(** * Consistent hash ring (src/src/hash/ring.c)

    Nodes own [vnodes_per_node] pseudo-random points on the 64-bit circle; an
    object belongs to the node whose point follows the object's hash clockwise.
    The ring is a sorted array searched by bisection.  The theorems: every
    operation keeps the ring well formed, a lookup returns the clockwise-nearest
    virtual node, and adding or removing a node moves only the objects that must
    move. *)

From S2P Require Import Prelude CInt XXHash SortedArray.

Definition BUCKETS_DEFAULT_VNODES : Z := 150.

(** [buckets_vnode_t] *)
Record buckets_vnode := Vnode {
  vn_hash : Z;
  node_id : Z;
  node_name : string
}.

(** [buckets_ring_t]; [vnodes] is the array up to its allocated length. *)
Record buckets_ring := Ring {
  vnodes : list buckets_vnode;
  vnode_count : nat;
  node_count : Z;
  vnodes_per_node : Z;
  seed : Z
}.

#[export] Instance vnode_eq_dec : EqDecision buckets_vnode.
Proof. solve_decision. Defined.

Section Ring.
Context `{Qsort}.

Definition vnode_compare : buckets_vnode → buckets_vnode → Z := hash_compare vn_hash.

Definition buckets_ring_create (per_node sd : Z) : option buckets_ring :=
  if per_node <? 0 then None else
  let per_node := if per_node =? 0 then BUCKETS_DEFAULT_VNODES else per_node in
  Some {| vnodes_per_node := per_node; seed := sd; vnode_count := 0; node_count := 0;
          vnodes := [] |}.

(** The key hashed for virtual node [i], ["%s:%d"] in a 256-byte buffer. *)
Definition vnode_key (name : string) (i : Z) : string :=
  snprintf 256 (name +:+ ":" +:+ pretty i).

Definition make_vnode (sd id : Z) (name : string) (i : nat) : buckets_vnode :=
  let key := vnode_key name (Z.of_nat i) in
  {| vn_hash := buckets_xxhash64 sd (Some (str_bytes key));
     node_id := id;
     node_name := name |}.

(** [buckets_ring_add_node]: the error code and the ring after the call. *)
Definition buckets_ring_add_node (ring : option buckets_ring) (id : Z)
    (name : option string) : buckets_error_t * option buckets_ring :=
  match ring, name with
  | Some r, Some name =>
      if existsb (λ v, node_id v =? id) (take (vnode_count r) (vnodes r))
      then (BUCKETS_ERR_EXISTS, Some r)
      else
        let n := Z.to_nat (vnodes_per_node r) in
        let new_vnode_count := (vnode_count r + n)%nat in
        let new_vnodes :=
          take (vnode_count r) (vnodes r) ++ (make_vnode (seed r) id name <$> seq 0 n) in
        (BUCKETS_OK,
         Some {| vnodes := qsort vnode_compare new_vnodes;
                 vnode_count := new_vnode_count;
                 node_count := add64 (node_count r) 1;
                 vnodes_per_node := vnodes_per_node r;
                 seed := seed r |})
  | _, _ => (BUCKETS_ERR_INVALID_ARG, ring)
  end.

Definition buckets_ring_remove_node (ring : option buckets_ring) (id : Z)
    : buckets_error_t * option buckets_ring :=
  match ring with
  | None => (BUCKETS_ERR_INVALID_ARG, None)
  | Some r =>
      let old := take (vnode_count r) (vnodes r) in
      let remove_count := length (filter (λ v, node_id v = id) old) in
      if (remove_count =? 0)%nat then (BUCKETS_ERR_NOT_FOUND, Some r)
      else
        (BUCKETS_OK,
         Some {| vnodes := filter (λ v, node_id v ≠ id) old;
                 vnode_count := (vnode_count r - remove_count)%nat;
                 node_count := sub64 (node_count r) 1;
                 vnodes_per_node := vnodes_per_node r;
                 seed := seed r |})
  end.

(** The search of both lookups: hash, bisection, wrap-around. *)
Definition ring_position (r : buckets_ring) (name : string) : nat :=
  let hash := buckets_xxhash64 (seed r) (Some (str_bytes name)) in
  search_wrap vn_hash (vnodes r) (vnode_count r) hash.

(** [buckets_ring_lookup]; reading past the array is undefined. *)
Definition buckets_ring_lookup (ring : option buckets_ring) (object_name : option string)
    : c_result Z :=
  match ring, object_name with
  | Some r, Some name =>
      if (vnode_count r =? 0)%nat then Val (-1) else
      (let* v := c_read (vnodes r) (ring_position r name) in Val (node_id v))%c
  | _, _ => Val (-1)
  end.

(** The walk of [buckets_ring_lookup_n]: [i] vnodes still to visit, [pos] the
    current one, [seen] the array of [node_count + 1] flags indexed by node id. *)
Fixpoint ring_walk (i : nat) (r : buckets_ring) (n : nat) (pos : nat) (seen : list bool)
    (out : list Z) : c_result (list Z) :=
  match i with
  | O => Val out
  | S i =>
      if (length out <? n)%nat then
        (let* v := c_read (vnodes r) pos in
         let id := node_id v in
         if id <? 0 then Undef else
         let* s := c_read seen (Z.to_nat id) in
         let next := ((pos + 1) mod vnode_count r)%nat in
         if s then ring_walk i r n next seen out
         else ring_walk i r n next (<[Z.to_nat id := true]> seen) (out ++ [id]))%c
      else Val out
  end.

(** [buckets_ring_lookup_n]: the node ids written to [out_nodes]. *)
Definition buckets_ring_lookup_n (ring : option buckets_ring) (object_name : option string)
    (n : nat) : c_result (list Z) :=
  match ring, object_name with
  | Some r, Some name =>
      if (n =? 0)%nat || (vnode_count r =? 0)%nat then Val [] else
      let seen := replicate (Z.to_nat (add64 (node_count r) 1)) false in
      ring_walk (vnode_count r) r n (ring_position r name) seen []
  | _, _ => Val []
  end.

(** ** Well-formed rings *)

Definition ring_ids (l : list buckets_vnode) : gset Z := list_to_set (node_id <$> l).

Record ring_wf (r : buckets_ring) : Prop := {
  wf_count : vnode_count r = length (vnodes r);
  wf_sorted : hash_sorted vn_hash (vnodes r);
  wf_range : ∀ v, v ∈ vnodes r → is_u64 (vn_hash v);
  wf_per_node : 0 < vnodes_per_node r;
  wf_share : ∀ v, v ∈ vnodes r →
    length (filter (λ w, node_id w = node_id v) (vnodes r)) = Z.to_nat (vnodes_per_node r);
  wf_nodes : node_count r = u64 (Z.of_nat (size (ring_ids (vnodes r))))
}.

Lemma elem_of_ring_ids l i : i ∈ ring_ids l ↔ ∃ v, v ∈ l ∧ node_id v = i.
Proof. unfold ring_ids. rewrite elem_of_list_to_set, list_elem_of_fmap. naive_solver. Qed.

Lemma ring_ids_perm l k : l ≡ₚ k → ring_ids l = ring_ids k.
Proof. intros Hp. apply set_eq. intros i. rewrite !elem_of_ring_ids. by setoid_rewrite Hp. Qed.

Lemma make_vnode_range sd id name i : is_u64 (vn_hash (make_vnode sd id name i)).
Proof. apply xxhash64_range. Qed.

Lemma create_wf pn sd r : buckets_ring_create pn sd = Some r → ring_wf r.
Proof.
  unfold buckets_ring_create. destruct (pn <? 0) eqn:E; [done|]. intros [= <-]. breflect.
  split; cbn [vnodes vnode_count node_count vnodes_per_node seed]; try done; [constructor|set_solver| |set_solver].
  unfold BUCKETS_DEFAULT_VNODES. split_if; lia.
Qed.

(** What a successful [add_node] does to a well-formed ring. *)
Lemma add_node_ok r id name :
  ring_wf r → (∀ v, v ∈ vnodes r → node_id v ≠ id) →
  ∃ r', buckets_ring_add_node (Some r) id (Some name) = (BUCKETS_OK, Some r') ∧
    vnodes r' ≡ₚ vnodes r ++ (make_vnode (seed r) id name <$> seq 0 (Z.to_nat (vnodes_per_node r)))
    ∧ vnode_count r' = (vnode_count r + Z.to_nat (vnodes_per_node r))%nat
    ∧ node_count r' = add64 (node_count r) 1
    ∧ vnodes_per_node r' = vnodes_per_node r ∧ seed r' = seed r
    ∧ hash_sorted vn_hash (vnodes r').
Proof.
  intros [Hc _ _ _ _ _] Hfresh. unfold buckets_ring_add_node.
  rewrite Hc, firstn_all.
  destruct (existsb _ _) eqn:E.
  { apply existsb_exists in E as (v & Hv%list_elem_of_In & Hid). breflect. by destruct (Hfresh v). }
  eexists. split; [done|]. cbn [vnodes vnode_count node_count vnodes_per_node seed].
  split; [apply qsort_perm|]. do 4 (split; [done|]). apply qsort_hash_sorted.
Qed.

Lemma add_node_exists r id name v :
  ring_wf r → v ∈ vnodes r → node_id v = id →
  buckets_ring_add_node (Some r) id (Some name) = (BUCKETS_ERR_EXISTS, Some r).
Proof.
  intros [Hc _ _ _ _ _] Hv Hid. unfold buckets_ring_add_node. rewrite Hc, firstn_all.
  destruct (existsb _ _) eqn:E; [done|]. exfalso. apply not_true_iff_false in E. apply E.
  apply existsb_exists. exists v. rewrite <-list_elem_of_In. by rewrite Z.eqb_eq.
Qed.

Lemma filter_new sd id name n j :
  filter (λ w, node_id w = j) (make_vnode sd id name <$> seq 0 n) =
  if decide (id = j) then make_vnode sd id name <$> seq 0 n else [].
Proof.
  generalize 0%nat as a. induction n as [|n IH]; intros a; simpl; [by case_decide|].
  rewrite filter_cons. simpl. rewrite IH. by case_decide.
Qed.

Lemma add_node_wf r id name e r' :
  ring_wf r → buckets_ring_add_node (Some r) id (Some name) = (e, Some r') → ring_wf r'.
Proof.
  intros Hwf Hadd. destruct (decide (id ∈ ring_ids (vnodes r))) as [Hin|Hnin].
  { apply elem_of_ring_ids in Hin as (v & Hv & Hid).
    rewrite (add_node_exists r id name v Hwf Hv Hid) in Hadd. by simplify_eq. }
  assert (∀ v, v ∈ vnodes r → node_id v ≠ id) as Hfresh.
  { intros v Hv Hid. apply Hnin, elem_of_ring_ids. eauto. }
  destruct (add_node_ok r id name Hwf Hfresh) as (x & Hx & Hp & Hvc & Hnc & Hpn & Hsd & Hs).
  rewrite Hx in Hadd. simplify_eq. destruct Hwf as [Hc _ Hu Hpos Hshare Hn].
  set (new := make_vnode _ _ _ <$> _) in *.
  split; [| |  | | |].
  - rewrite Hvc, Hp, Hc, length_app. subst new. by rewrite length_fmap, length_seq.
  - done.
  - intros v. rewrite Hp, elem_of_app. intros [Hv|Hv]; [by apply Hu|].
    apply list_elem_of_fmap in Hv as (i & -> & _). apply make_vnode_range.
  - lia.
  - intros v. rewrite Hpn, Hp, elem_of_app, filter_app, length_app. subst new. rewrite filter_new.
    intros [Hv|Hv].
    + rewrite decide_False by (intros ->; by apply (Hfresh v)). simpl. rewrite Hshare by done. lia.
    + apply list_elem_of_fmap in Hv as (i & -> & _). simpl. rewrite decide_True by done.
      rewrite length_fmap, length_seq.
      assert (filter (λ w, node_id w = id) (vnodes r) = []) as ->; [|done].
      apply list_filter_none. intros w Hw. by apply Hfresh.
  - rewrite Hnc, (ring_ids_perm _ _ Hp), Hn. unfold ring_ids at 2. rewrite fmap_app, list_to_set_app_L.
    fold (ring_ids (vnodes r)).
    assert (list_to_set (node_id <$> new) = ({[id]} : gset Z)) as ->.
    { apply set_eq. intros j. rewrite elem_of_list_to_set, elem_of_singleton, list_elem_of_fmap.
      subst new. split.
      - intros (v & -> & Hv). by apply list_elem_of_fmap in Hv as (i & -> & _).
      - intros ->. exists (make_vnode (seed r) id name 0). split; [done|].
        apply list_elem_of_fmap_2, elem_of_seq. lia. }
    rewrite size_union by set_solver. rewrite size_singleton. unfold add64, u64, wrap.
    rewrite Zplus_mod_idemp_l. f_equal. lia.
Qed.

(** What a successful [remove_node] does to a well-formed ring. *)
Lemma remove_node_ok r id :
  ring_wf r → id ∈ ring_ids (vnodes r) →
  buckets_ring_remove_node (Some r) id =
    (BUCKETS_OK,
     Some {| vnodes := filter (λ v, node_id v ≠ id) (vnodes r);
             vnode_count := length (filter (λ v, node_id v ≠ id) (vnodes r));
             node_count := sub64 (node_count r) 1;
             vnodes_per_node := vnodes_per_node r; seed := seed r |}).
Proof.
  intros [Hc _ _ _ _ _] (v & Hv & Hid)%elem_of_ring_ids. unfold buckets_ring_remove_node.
  rewrite Hc, firstn_all.
  assert (length (filter (λ v, node_id v = id) (vnodes r)) ≠ 0%nat) as Hne.
  { rewrite length_zero_iff_nil. intros Hnil. by apply (filter_nil_not_elem_of _ _ v Hnil). }
  rewrite (proj2 (Nat.eqb_neq _ _) Hne). do 3 f_equal.
  pose proof (filter_app_complement (λ v, node_id v = id) (vnodes r)) as Hp.
  apply Permutation_length in Hp. rewrite length_app in Hp. lia.
Qed.

Lemma remove_node_absent r id :
  ring_wf r → id ∉ ring_ids (vnodes r) →
  buckets_ring_remove_node (Some r) id = (BUCKETS_ERR_NOT_FOUND, Some r).
Proof.
  intros [Hc _ _ _ _ _] Hid. unfold buckets_ring_remove_node. rewrite Hc, firstn_all.
  rewrite list_filter_none; [done|]. intros v Hv Heq. apply Hid, elem_of_ring_ids. eauto.
Qed.

Lemma ring_ids_filter l id :
  ring_ids (filter (λ v, node_id v ≠ id) l) = ring_ids l ∖ {[id]}.
Proof.
  apply set_eq. intros j. rewrite elem_of_difference, !elem_of_ring_ids, elem_of_singleton.
  setoid_rewrite list_elem_of_filter. naive_solver.
Qed.

Lemma remove_node_wf r id e r' :
  ring_wf r → buckets_ring_remove_node (Some r) id = (e, Some r') → ring_wf r'.
Proof.
  intros Hwf Hrm. destruct (decide (id ∈ ring_ids (vnodes r))) as [Hin|Hnin].
  2:{ rewrite remove_node_absent in Hrm by done. by simplify_eq. }
  rewrite remove_node_ok in Hrm by done. simplify_eq.
  destruct Hwf as [Hc Hs Hu Hpos Hshare Hn].
  split; cbn [vnodes vnode_count node_count vnodes_per_node seed].
  - done.
  - by apply hash_sorted_filter.
  - intros v [_ Hv]%list_elem_of_filter. by apply Hu.
  - done.
  - intros v [Hne Hv]%list_elem_of_filter. rewrite <-(Hshare v Hv).
    rewrite list_filter_filter. f_equal. apply list_filter_iff. intros w. naive_solver.
  - rewrite ring_ids_filter, Hn, size_difference by set_solver.
    rewrite size_singleton. unfold sub64, u64, wrap. rewrite Zminus_mod_idemp_l. f_equal.
    assert (size (ring_ids (vnodes r)) ≠ 0%nat) by (intros Hz%size_empty_inv; set_solver).
    lia.
Qed.

(** ** Reachable rings *)

Inductive ring_step : buckets_ring → buckets_ring → Prop :=
  | step_add r id name e r' :
      buckets_ring_add_node (Some r) id (Some name) = (e, Some r') → ring_step r r'
  | step_remove r id e r' :
      buckets_ring_remove_node (Some r) id = (e, Some r') → ring_step r r'.

Lemma ring_step_wf r r' : ring_wf r → ring_step r r' → ring_wf r'.
Proof. intros Hwf Hst. revert Hwf. destruct Hst; eauto using add_node_wf, remove_node_wf. Qed.

(** ** Lookup *)

Definition object_hash (r : buckets_ring) (name : string) : Z :=
  buckets_xxhash64 (seed r) (Some (str_bytes name)).

(** A lookup reads the clockwise successor. *)
Lemma lookup_successor r name :
  ring_wf r → vnodes r ≠ [] →
  ∃ v, successor vn_hash (vnodes r) (object_hash r name) = Some v ∧
       vnodes r !! ring_position r name = Some v ∧
       buckets_ring_lookup (Some r) (Some name) = Val (node_id v).
Proof.
  intros [Hc Hs Hu _ _ _] Hne. unfold buckets_ring_lookup, ring_position. rewrite Hc.
  destruct (search_wrap_successor vn_hash (vnodes r) (object_hash r name) Hs Hne) as [Heq Hlt].
  destruct (lookup_lt_is_Some_2 _ _ Hlt) as [v Hv]. exists v.
  fold (object_hash r name). rewrite Heq. split; [done|]. split; [done|].
  destruct (length (vnodes r) =? 0)%nat eqn:E; breflect; [by apply length_zero_iff_nil in E|].
  unfold c_read. by rewrite Hv.
Qed.

Lemma lookup_nearest r name :
  ring_wf r → vnodes r ≠ [] →
  ∃ v, nearest vn_hash (vnodes r) (object_hash r name) v ∧
       buckets_ring_lookup (Some r) (Some name) = Val (node_id v).
Proof.
  intros Hwf Hne. destruct (lookup_successor r name Hwf Hne) as (v & Hv & _ & Hl).
  exists v. split; [|done]. destruct Hwf. apply successor_nearest; [done..| |done].
  apply xxhash64_range.
Qed.

(** ** The replica walk *)

(** First occurrences of [l] outside [seen], in order. *)
Fixpoint firsts (seen l : list Z) : list Z :=
  match l with
  | [] => []
  | x :: l => if bool_decide (x ∈ seen) then firsts seen l else x :: firsts (seen ++ [x]) l
  end.

Lemma elem_of_firsts seen l x : x ∈ firsts seen l ↔ x ∈ l ∧ x ∉ seen.
Proof.
  revert seen. induction l as [|y l IH]; intros seen; cbn [firsts]; [set_solver|].
  case_bool_decide; rewrite ?elem_of_cons, IH, ?elem_of_app, ?list_elem_of_singleton.
  - naive_solver.
  - destruct (decide (x = y)); naive_solver.
Qed.

Lemma NoDup_firsts seen l : NoDup (firsts seen l).
Proof.
  revert seen. induction l as [|y l IH]; intros seen; cbn [firsts]; [constructor|].
  case_bool_decide; [done|]. constructor; [|done]. rewrite elem_of_firsts. set_solver.
Qed.

(** The ids met in [i] steps from [pos]. *)
Definition id_at (r : buckets_ring) (p : nat) : Z := default 0 (node_id <$> vnodes r !! p).
Definition walk_ids (r : buckets_ring) (pos i : nat) : list Z :=
  (λ k, id_at r ((pos + k) mod vnode_count r)%nat) <$> seq 0 i.

Lemma walk_ids_S r pos i :
  (pos < vnode_count r)%nat →
  walk_ids r pos (S i) = id_at r pos :: walk_ids r ((pos + 1) mod vnode_count r) i.
Proof.
  intros Hpos. unfold walk_ids. cbn [seq fmap list_fmap].
  rewrite Nat.add_0_r, Nat.mod_small by done. f_equal.
  rewrite <-fmap_S_seq, <-list_fmap_compose. apply list_fmap_ext. intros _ k _. simpl.
  f_equal. rewrite Nat.Div0.add_mod_idemp_l. f_equal. lia.
Qed.

(** The flag array tells which ids were output. *)
Definition flags_ok (seen : list bool) (out : list Z) : Prop :=
  ∀ j, (j < length seen)%nat → seen !! j = Some (bool_decide (Z.of_nat j ∈ out)).

Lemma flags_ok_insert seen out x :
  flags_ok seen out → 0 ≤ x < Z.of_nat (length seen) →
  flags_ok (<[Z.to_nat x := true]> seen) (out ++ [x]).
Proof.
  intros Hf Hx j Hj. rewrite length_insert in Hj. destruct (decide (j = Z.to_nat x)) as [->|Hne].
  - rewrite list_lookup_insert_eq by lia. f_equal. symmetry. apply bool_decide_eq_true.
    rewrite Z2Nat.id by lia. set_solver.
  - rewrite list_lookup_insert_ne by done. rewrite Hf by done. f_equal.
    apply bool_decide_ext. rewrite elem_of_app, list_elem_of_singleton. split; [auto|].
    intros [?|?]; [done|lia].
Qed.

Lemma ring_walk_spec i r n pos seen out :
  vnode_count r = length (vnodes r) → (pos < vnode_count r)%nat →
  (∀ v, v ∈ vnodes r → 0 ≤ node_id v < Z.of_nat (length seen)) →
  flags_ok seen out → (length out ≤ n)%nat →
  ring_walk i r n pos seen out =
    Val (out ++ take (n - length out) (firsts out (walk_ids r pos i))).
Proof.
  intros Hc. revert pos seen out. induction i as [|i IH]; intros pos seen out Hpos Hid Hf Hn.
  { cbn [ring_walk walk_ids seq fmap list_fmap firsts]. by rewrite take_nil, app_nil_r. }
  cbn [ring_walk]. destruct (length out <? n)%nat eqn:E; breflect.
  2:{ replace (n - length out)%nat with 0%nat by lia. by rewrite app_nil_r. }
  rewrite Hc in Hpos. destruct (lookup_lt_is_Some_2 _ _ Hpos) as [v Hv]. rewrite <-Hc in Hpos.
  unfold c_read at 1. rewrite Hv. cbn [c_bind].
  pose proof (Hid v (list_elem_of_lookup_2 _ _ _ Hv)) as Hr.
  rewrite (proj2 (Z.ltb_ge _ _)) by lia. unfold c_read. rewrite Hf by lia. cbn [c_bind].
  assert ((pos + 1) mod vnode_count r < vnode_count r)%nat as Hnext
    by (apply Nat.mod_upper_bound; lia).
  rewrite walk_ids_S by done. assert (id_at r pos = node_id v) as ->
    by (unfold id_at; by rewrite Hv).
  rewrite Z2Nat.id by lia. cbn [firsts]. case_bool_decide.
  - by apply IH.
  - rewrite IH; [|done| |by apply flags_ok_insert|rewrite length_app; simpl; lia].
    + rewrite <-app_assoc, length_app. cbn [app length].
      replace (n - length out)%nat with (S (n - (length out + 1)))%nat by lia. done.
    + intros w Hw. rewrite length_insert. auto.
Qed.

Lemma elem_of_walk_ids r pos x :
  vnode_count r = length (vnodes r) → (pos < vnode_count r)%nat →
  x ∈ walk_ids r pos (vnode_count r) ↔ x ∈ ring_ids (vnodes r).
Proof.
  intros Hc Hpos. unfold walk_ids. rewrite list_elem_of_fmap, elem_of_ring_ids. split.
  - intros (k & -> & _). set (j := ((pos + k) mod vnode_count r)%nat).
    destruct (lookup_lt_is_Some_2 (vnodes r) j) as [v Hv].
    { rewrite <-Hc. apply Nat.mod_upper_bound. lia. }
    exists v. split; [by eapply list_elem_of_lookup_2|]. unfold id_at. by rewrite Hv.
  - intros (v & Hv & <-). apply list_elem_of_lookup in Hv as [j Hj].
    pose proof (lookup_lt_Some _ _ _ Hj) as Hlt. rewrite <-Hc in Hlt.
    exists ((j + vnode_count r - pos) mod vnode_count r)%nat. split.
    + rewrite Nat.Div0.add_mod_idemp_r.
      replace (pos + (j + vnode_count r - pos))%nat with (j + 1 * vnode_count r)%nat by lia.
      rewrite Nat.Div0.mod_add, Nat.mod_small by done. unfold id_at. by rewrite Hj.
    + apply elem_of_seq. split; [lia|]. apply Nat.mod_upper_bound. lia.
Qed.

Lemma length_firsts_ids r pos :
  vnode_count r = length (vnodes r) → (pos < vnode_count r)%nat →
  length (firsts [] (walk_ids r pos (vnode_count r))) = size (ring_ids (vnodes r)).
Proof.
  intros Hc Hpos. rewrite <-(size_list_to_set (C := gset Z)) by apply NoDup_firsts.
  f_equal. apply set_eq. intros x.
  rewrite elem_of_list_to_set, elem_of_firsts, elem_of_walk_ids by done. set_solver.
Qed.

Lemma flags_ok_init k : flags_ok (replicate k false) [].
Proof.
  intros j Hj. rewrite length_replicate in Hj. rewrite lookup_replicate_2 by done. by rewrite bool_decide_false by set_solver.
Qed.

(** ** Properties *)

(** Every ring reachable from [buckets_ring_create] by adding and removing
    nodes, successful or refused, is well formed: the array is sorted by hash and
    has [vnode_count] entries, each node owns exactly [vnodes_per_node] of them and
    [node_count] is the number of distinct nodes. *)
Theorem ring_reachable_well_formed pn sd r0 r :
  buckets_ring_create pn sd = Some r0 → rtc ring_step r0 r → ring_wf r.
Proof.
  intros Hc Hr. apply create_wf in Hc. induction Hr as [|r1 r2 r3 Hs _ IH]; [done|].
  eapply IH, ring_step_wf; done.
Qed.

(** On a well-formed ring a lookup is never undefined; it answers -1 on an
    empty ring and otherwise the node of a virtual node at the least clockwise
    distance from the object's hash on the 64-bit circle. *)
Theorem ring_lookup_clockwise_nearest r name :
  ring_wf r →
  (vnodes r = [] ∧ buckets_ring_lookup (Some r) (Some name) = Val (-1)) ∨
  (∃ v, nearest vn_hash (vnodes r) (object_hash r name) v ∧
        buckets_ring_lookup (Some r) (Some name) = Val (node_id v)).
Proof.
  intros Hwf. destruct (decide (vnodes r = [])) as [Hnil|Hne].
  - left. split; [done|]. destruct Hwf as [Hc _ _ _ _ _]. unfold buckets_ring_lookup.
    by rewrite Hc, Hnil.
  - right. by apply lookup_nearest.
Qed.

(** Where objects go when a node is added. *)
Lemma ring_add_lookup r id nname r' name :
  ring_wf r → vnodes r ≠ [] → (∀ v, v ∈ vnodes r → node_id v ≠ id) →
  buckets_ring_add_node (Some r) id (Some nname) = (BUCKETS_OK, Some r') →
  NoDup (vn_hash <$> vnodes r') →
  buckets_ring_lookup (Some r') (Some name) = buckets_ring_lookup (Some r) (Some name) ∨
  buckets_ring_lookup (Some r') (Some name) = Val id.
Proof.
  intros Hwf Hne Hfresh Hadd Hnd.
  pose proof (add_node_wf _ _ _ _ _ Hwf Hadd) as Hwf'.
  destruct (add_node_ok r id nname Hwf Hfresh) as (x & Hx & Hp & _ & _ & _ & Hsd & _).
  rewrite Hx in Hadd. simplify_eq.
  assert (vnodes r' ≠ []) as Hne'.
  { intros Hnil. rewrite Hnil in Hp. by apply Permutation_nil_l, eq_sym, app_nil in Hp as []. }
  destruct (lookup_nearest r name Hwf Hne) as (u & Hu & ->).
  destruct (lookup_nearest r' name Hwf' Hne') as (v & Hv & ->).
  assert (object_hash r' name = object_hash r name) as Ho by (unfold object_hash; by rewrite Hsd).
  rewrite Ho in Hv. pose proof Hv as [Hin _]. rewrite Hp, elem_of_app in Hin.
  destruct Hin as [Hold|(i & -> & _)%list_elem_of_fmap]; [left|by right].
  do 2 f_equal. apply (nearest_unique vn_hash (vnodes r) (object_hash r name)).
  - apply Hwf.
  - apply xxhash64_range.
  - rewrite Hp, fmap_app, NoDup_app in Hnd. apply Hnd.
  - eapply nearest_subset; [done..|]. intros w Hw. rewrite Hp. set_solver.
  - done.
Qed.

(** Adding a node to a non-empty ring moves objects only onto that node: after
    the addition every lookup gives its old answer or the new node (hashes of the
    enlarged ring distinct, since [qsort] may reorder equal ones). *)
Theorem ring_add_minimal_disruption r id nname r' name :
  ring_wf r → vnodes r ≠ [] → (∀ v, v ∈ vnodes r → node_id v ≠ id) →
  buckets_ring_add_node (Some r) id (Some nname) = (BUCKETS_OK, Some r') →
  NoDup (vn_hash <$> vnodes r') →
  buckets_ring_lookup (Some r') (Some name) = buckets_ring_lookup (Some r) (Some name) ∨
  buckets_ring_lookup (Some r') (Some name) = Val id.
Proof. apply ring_add_lookup. Qed.

(** Removing a node leaves every object that another node owns where it was,
    even when hashes collide. *)
Theorem ring_remove_minimal_disruption r id e r' name j :
  ring_wf r → buckets_ring_remove_node (Some r) id = (e, Some r') →
  buckets_ring_lookup (Some r) (Some name) = Val j → j ≠ id → vnodes r ≠ [] →
  buckets_ring_lookup (Some r') (Some name) = Val j.
Proof.
  intros Hwf Hrm Hl Hj Hne. pose proof (remove_node_wf _ _ _ _ Hwf Hrm) as Hwf'.
  destruct (decide (id ∈ ring_ids (vnodes r))) as [Hin|Hnin].
  2:{ rewrite remove_node_absent in Hrm by done. by simplify_eq. }
  rewrite remove_node_ok in Hrm by done. simplify_eq.
  destruct (lookup_successor r name Hwf Hne) as (v & Hv & _ & Hlv). rewrite Hl in Hlv.
  simplify_eq.
  assert (successor vn_hash (filter (λ v, node_id v ≠ id) (vnodes r)) (object_hash r name) = Some v)
    as Hs by (by apply successor_filter).
  match goal with |- buckets_ring_lookup (Some ?q) _ = _ =>
    destruct (lookup_successor q name Hwf') as (w & Hw & _ & ->) end.
  - simpl. intros Hnil. rewrite Hnil in Hs. done.
  - unfold object_hash in Hw, Hs. cbn [vnodes seed] in Hw. rewrite Hs in Hw. by simplify_eq.
Qed.

(** Removing a node that was just added restores the ring: the same virtual
    nodes, counts and parameters. *)
Theorem ring_add_remove_roundtrip r id nname r' :
  ring_wf r → (∀ v, v ∈ vnodes r → node_id v ≠ id) → 0 ≤ node_count r < 2 ^ 64 →
  buckets_ring_add_node (Some r) id (Some nname) = (BUCKETS_OK, Some r') →
  ∃ r'', buckets_ring_remove_node (Some r') id = (BUCKETS_OK, Some r'') ∧
    vnodes r'' ≡ₚ vnodes r ∧ vnode_count r'' = vnode_count r ∧
    node_count r'' = node_count r ∧ vnodes_per_node r'' = vnodes_per_node r ∧
    seed r'' = seed r.
Proof.
  intros Hwf Hfresh Hnc Hadd. pose proof (add_node_wf _ _ _ _ _ Hwf Hadd) as Hwf'.
  destruct (add_node_ok r id nname Hwf Hfresh) as (x & Hx & Hp & _ & Hn & Hpn & Hsd & _).
  rewrite Hx in Hadd. simplify_eq. destruct Hwf as [Hc _ _ Hpos _ _].
  assert (filter (λ v, node_id v ≠ id) (vnodes r') ≡ₚ vnodes r) as Hback.
  { rewrite Hp, filter_app, list_filter_all by done.
    rewrite list_filter_none; [by rewrite app_nil_r|].
    intros v (i & -> & _)%list_elem_of_fmap. simpl. tauto. }
  rewrite remove_node_ok; [|done|].
  - eexists. split; [done|]. cbn [vnodes vnode_count node_count vnodes_per_node seed].
    split; [done|]. split; [by rewrite Hback|]. rewrite Hn, sub64_add64 by done. done.
  - apply elem_of_ring_ids. exists (make_vnode (seed r) id nname 0). split; [|done].
    rewrite Hp, elem_of_app. right. apply list_elem_of_fmap_2, elem_of_seq. lia.
Qed.

(** When the node ids fit the flag array (they lie in [0, node_count]), the
    replica walk terminates without undefined behaviour and returns
    min(n, number of nodes) distinct nodes of the ring, the owner first. *)
Theorem ring_lookup_n_distinct r name n :
  ring_wf r → vnodes r ≠ [] → (0 < n)%nat →
  (∀ v, v ∈ vnodes r → 0 ≤ node_id v ≤ node_count r) → node_count r < 2 ^ 64 - 1 →
  ∃ l, buckets_ring_lookup_n (Some r) (Some name) n = Val l ∧ NoDup l ∧
    length l = Nat.min n (size (ring_ids (vnodes r))) ∧
    (∀ x, x ∈ l → x ∈ ring_ids (vnodes r)) ∧
    ∃ x, buckets_ring_lookup (Some r) (Some name) = Val x ∧ head l = Some x.
Proof.
  intros Hwf Hne Hn Hids Hnc. pose proof Hwf as [Hc _ _ _ _ Hnodes].
  destruct (lookup_successor r name Hwf Hne) as (v & _ & Hv & Hl).
  pose proof (lookup_lt_Some _ _ _ Hv) as Hpos. rewrite <-Hc in Hpos.
  assert (0 ≤ node_count r) by (rewrite Hnodes; apply u64_range).
  assert (add64 (node_count r) 1 = node_count r + 1) as Hadd
    by (unfold add64; apply u64_small; split; lia).
  unfold buckets_ring_lookup_n.
  rewrite (proj2 (Nat.eqb_neq n 0)), (proj2 (Nat.eqb_neq (vnode_count r) 0)) by lia. cbn [orb].
  rewrite ring_walk_spec; [|done|done| |apply flags_ok_init|simpl; lia].
  2:{ intros w Hw. rewrite length_replicate, Hadd. specialize (Hids w Hw). lia. }
  rewrite Nat.sub_0_r. cbn [app].
  set (f := firsts [] (walk_ids r (ring_position r name) (vnode_count r))).
  exists (take n f). split; [done|]. split; [|split; [|split]].
  - eapply sublist_NoDup; [apply NoDup_firsts|apply sublist_take].
  - rewrite length_take. unfold f. by rewrite length_firsts_ids.
  - intros x Hx. apply (elem_of_walk_ids r (ring_position r name)); [done..|].
    assert (x ∈ f) as Hf%elem_of_firsts by (eapply subseteq_take; done). apply Hf.
  - exists (node_id v). split; [done|]. unfold f.
    destruct (vnode_count r) as [|k] eqn:Hk; [lia|]. rewrite <-Hk in Hpos.
    rewrite walk_ids_S by done. cbn [firsts]. rewrite bool_decide_false by set_solver.
    unfold id_at. rewrite Hv. destruct n; [lia|]. done.
Qed.
End Ring.

(** ** Concrete rings, with [qsort] instantiated by merge sort *)

Definition ex_ring0 : buckets_ring :=
  {| vnodes := []; vnode_count := 0; node_count := 0; vnodes_per_node := 3; seed := 5 |}.
Definition ex_add (r : buckets_ring) (id : Z) (name : string) : buckets_ring :=
  default r (buckets_ring_add_node (Some r) id (Some name)).2.
Definition ex_remove (r : buckets_ring) (id : Z) : buckets_ring :=
  default r (buckets_ring_remove_node (Some r) id).2.
Definition ex_ring1 : buckets_ring := ex_add ex_ring0 0 "node-a".
Definition ex_ring2 : buckets_ring := ex_add ex_ring1 1 "node-b".

Lemma ex_add_step r id name : ring_step r (ex_add r id name).
Proof.
  unfold ex_add. destruct (buckets_ring_add_node (Some r) id (Some name)) as [e [r'|]] eqn:E.
  - by eapply step_add.
  - unfold buckets_ring_add_node in E. by case_match.
Qed.

Lemma ex_remove_step r id : ring_step r (ex_remove r id).
Proof.
  unfold ex_remove. destruct (buckets_ring_remove_node (Some r) id) as [e [r'|]] eqn:E.
  - by eapply step_remove.
  - unfold buckets_ring_remove_node in E. by case_match.
Qed.

Lemma ex_ring0_wf : ring_wf ex_ring0.
Proof. by apply (create_wf 3 5). Qed.
Lemma ex_ring1_wf : ring_wf ex_ring1.
Proof. eapply ring_step_wf; [apply ex_ring0_wf|apply ex_add_step]. Qed.
Lemma ex_ring2_wf : ring_wf ex_ring2.
Proof. eapply ring_step_wf; [apply ex_ring1_wf|apply ex_add_step]. Qed.

Lemma ring_reachable_well_formed_witness :
  buckets_ring_create 3 5 = Some ex_ring0 ∧ ring_wf (ex_remove ex_ring2 0).
Proof.
  split; [reflexivity|]. apply (ring_reachable_well_formed 3 5 ex_ring0); [reflexivity|].
  eapply rtc_l; [apply (ex_add_step ex_ring0 0 "node-a")|].
  eapply rtc_l; [apply (ex_add_step ex_ring1 1 "node-b")|].
  apply rtc_once, ex_remove_step.
Defined.

Lemma ring_lookup_clockwise_nearest_witness :
  (vnodes ex_ring2 = [] ∧ buckets_ring_lookup (Some ex_ring2) (Some "key") = Val (-1)) ∨
  (∃ v, nearest vn_hash (vnodes ex_ring2) (object_hash ex_ring2 "key") v ∧
        buckets_ring_lookup (Some ex_ring2) (Some "key") = Val (node_id v)).
Proof. apply ring_lookup_clockwise_nearest, ex_ring2_wf. Defined.

(** A fresh id by computation. *)
Lemma fresh_by_compute r id :
  forallb (λ v, negb (node_id v =? id)) (vnodes r) = true → ∀ v, v ∈ vnodes r → node_id v ≠ id.
Proof.
  intros Hf v Hv%list_elem_of_In. rewrite forallb_forall in Hf. specialize (Hf v Hv). by breflect.
Qed.

Lemma ring_add_minimal_disruption_witness :
  buckets_ring_lookup (Some ex_ring2) (Some "key") = buckets_ring_lookup (Some ex_ring1) (Some "key")
  ∨ buckets_ring_lookup (Some ex_ring2) (Some "key") = Val 1.
Proof.
  apply (ring_add_minimal_disruption ex_ring1 1 "node-b" ex_ring2 "key").
  - apply ex_ring1_wf.
  - vm_compute. discriminate.
  - apply fresh_by_compute. vm_compute. reflexivity.
  - vm_compute. reflexivity.
  - apply (bool_decide_unpack _). vm_compute. exact I.
Defined.

Lemma ring_remove_minimal_disruption_witness :
  buckets_ring_lookup (Some (ex_remove ex_ring2 0)) (Some "key-7") = Val 1.
Proof.
  eapply (ring_remove_minimal_disruption ex_ring2 0 BUCKETS_OK _ "key-7" 1).
  - apply ex_ring2_wf.
  - vm_compute. reflexivity.
  - vm_compute. reflexivity.
  - discriminate.
  - vm_compute. discriminate.
Defined.

Lemma ring_add_remove_roundtrip_witness :
  ∃ r'', buckets_ring_remove_node (Some ex_ring2) 1 = (BUCKETS_OK, Some r'') ∧
    vnodes r'' ≡ₚ vnodes ex_ring1 ∧ vnode_count r'' = vnode_count ex_ring1 ∧
    node_count r'' = node_count ex_ring1 ∧ vnodes_per_node r'' = vnodes_per_node ex_ring1 ∧
    seed r'' = seed ex_ring1.
Proof.
  apply (ring_add_remove_roundtrip ex_ring1 1 "node-b" ex_ring2).
  - apply ex_ring1_wf.
  - apply fresh_by_compute. vm_compute. reflexivity.
  - vm_compute. split; [discriminate|reflexivity].
  - vm_compute. reflexivity.
Defined.

Lemma ring_lookup_n_distinct_witness :
  ∃ l, buckets_ring_lookup_n (Some ex_ring2) (Some "key") 5 = Val l ∧ NoDup l ∧
    length l = Nat.min 5 (size (ring_ids (vnodes ex_ring2))) ∧
    (∀ x, x ∈ l → x ∈ ring_ids (vnodes ex_ring2)) ∧
    ∃ x, buckets_ring_lookup (Some ex_ring2) (Some "key") = Val x ∧ head l = Some x.
Proof.
  apply (ring_lookup_n_distinct ex_ring2 "key" 5).
  - apply ex_ring2_wf.
  - vm_compute. discriminate.
  - lia.
  - apply Forall_forall. vm_compute vnodes. change (node_count ex_ring2) with 2.
    repeat constructor; discriminate.
  - vm_compute. reflexivity.
Defined.

(** The flag array of the replica walk is sized by the number of nodes but
    indexed by node id: after removing nodes 0 and 1 from a ring of nodes 0, 1, 2
    the walk accesses it out of bounds. *)
Theorem ring_lookup_n_out_of_bounds :
  ∃ r, rtc ring_step ex_ring0 r ∧ ring_wf r ∧
       buckets_ring_lookup_n (Some r) (Some "key") 1 = Undef.
Proof.
  set (r3 := ex_add ex_ring2 2 "node-c").
  exists (ex_remove (ex_remove r3 0) 1).
  assert (rtc ring_step ex_ring0 (ex_remove (ex_remove r3 0) 1)) as Hr.
  { eapply rtc_l; [apply (ex_add_step ex_ring0 0 "node-a")|].
    eapply rtc_l; [apply (ex_add_step ex_ring1 1 "node-b")|].
    eapply rtc_l; [apply (ex_add_step ex_ring2 2 "node-c")|].
    eapply rtc_l; [apply ex_remove_step|]. apply rtc_once, ex_remove_step. }
  split; [done|]. split; [|vm_compute; reflexivity].
  clear -Hr. pose proof ex_ring0_wf as Hwf. induction Hr; eauto using ring_step_wf.
Qed.
