(* ===== verification/JumpHash.v ===== *)
(** * Jump consistent hash (src/src/hash/ring.c, second half)

    The only floating-point arithmetic of the placement code.  A positive double in
    the range that occurs is an integer mantissa times a power of two, and the two
    operations the loop performs, a division and a multiplication, are the exact
    quotient or product rounded to 53 bits, ties to even. *)

From S2P Require Import Prelude CInt XXHash.

(** ** Doubles *)

(** The value [d_m * 2 ^ d_e]. *)
Record double := Double { d_m : Z; d_e : Z }.

(** [n / d * 2 ^ -e] as a fraction. *)
Definition scale_num (n e : Z) : Z := if e <? 0 then n * 2 ^ (- e) else n.
Definition scale_den (d e : Z) : Z := if e <? 0 then d else d * 2 ^ e.
Definition scaled (n d e : Z) : Z := scale_num n e / scale_den d e.

(** The exponent that leaves 53 bits before the binary point. *)
Definition round_exp (n d : Z) : Z :=
  let e := Z.log2 n - Z.log2 d - 52 in
  if scaled n d e <? 2 ^ 52 then e - 1 else e.

(** Round half to even. *)
Definition round_half_even (num den : Z) : Z :=
  let q := num / den in
  let r := num mod den in
  if 2 * r <? den then q
  else if den <? 2 * r then q + 1
  else if Z.even q then q else q + 1.

(** The double nearest to the positive rational [n / d]. *)
Definition round_ratio (n d : Z) : double :=
  let e := round_exp n d in
  Double (round_half_even (scale_num n e) (scale_den d e)) e.

(** [(double)a / (double)b] for positive integers below 2^53. *)
Definition double_div (a b : Z) : double := round_ratio a b.

(** [k * x] for a positive integer [k] below 2^53. *)
Definition double_mul_int (k : Z) (x : double) : double :=
  if d_e x <? 0 then round_ratio (k * d_m x) (2 ^ (- d_e x))
  else round_ratio (k * d_m x * 2 ^ d_e x) 1.

(** [(i64)x]: truncation. *)
Definition double_to_i64 (x : double) : Z :=
  if d_e x <? 0 then d_m x / 2 ^ (- d_e x) else d_m x * 2 ^ d_e x.

(** ** The loop *)

(** [key * 2862933555777941757ULL + 1] *)
Definition jump_key (key : Z) : Z := add64 (mul64 key 2862933555777941757) 1.

(** [(b + 1) * ((double)(1LL << 31) / (double)((key >> 33) + 1))], cast to [i64]. *)
Definition jump_next (b key : Z) : Z :=
  double_to_i64 (double_mul_int (b + 1) (double_div (Z.shiftl 1 31) (shr64 key 33 + 1))).

Fixpoint jump_loop (fuel : nat) (key b j num_buckets : Z) : Z :=
  match fuel with
  | O => b
  | S fuel =>
      if j <? num_buckets then
        let b := j in
        let key := jump_key key in
        let j := jump_next b key in
        jump_loop fuel key b j num_buckets
      else b
  end.

(** [buckets_jump_hash]: [j] grows by at least one per iteration, so
    [num_buckets] iterations are enough. *)
Definition buckets_jump_hash (key num_buckets : Z) : Z :=
  if num_buckets <=? 0 then -1
  else jump_loop (Z.to_nat num_buckets) key (-1) 0 num_buckets.

Definition buckets_jump_hash_str (str : option string) (num_buckets : Z) : Z :=
  match str with
  | None => -1
  | Some s => buckets_jump_hash (buckets_xxhash64 0 (Some (str_bytes s))) num_buckets
  end.

(** ** Rounding *)

Lemma pow2_pos k : 0 < 2 ^ k ∨ k < 0.
Proof. destruct (decide (k < 0)); [by right|left]. apply Z.pow_pos_nonneg; lia. Qed.

Lemma scale_den_pos d e : 0 < d → 0 < scale_den d e.
Proof.
  intros. unfold scale_den. split_if; [done|]. apply Z.mul_pos_pos; [done|].
  apply Z.pow_pos_nonneg; lia.
Qed.

Lemma round_half_even_floor num den :
  0 < den → num / den ≤ round_half_even num den ≤ num / den + 1.
Proof. intros. unfold round_half_even. repeat split_if; lia. Qed.

(** Scaling by one exponent less doubles the fraction. *)
Lemma scaled_pred n d e :
  0 < n → 0 < d → 2 ^ 51 ≤ scaled n d e → 2 ^ 52 ≤ scaled n d (e - 1).
Proof.
  intros Hn Hd H. unfold scaled in *. pose proof (scale_den_pos d e Hd) as H1.
  pose proof (scale_den_pos d (e - 1) Hd) as H2.
  apply Z.div_le_lower_bound; [done|].
  assert (scale_den d e * 2 ^ 51 ≤ scale_num n e) as H'.
  { pose proof (Z.mul_div_le (scale_num n e) _ H1). nia. }
  unfold scale_num, scale_den in *.
  destruct (e <? 0) eqn:E; breflect.
  - rewrite (proj2 (Z.ltb_lt (e - 1) 0)) by lia.
    replace (- (e - 1)) with (Z.succ (- e)) by lia. rewrite Z.pow_succ_r by lia. lia.
  - destruct (e - 1 <? 0) eqn:E1; breflect.
    + assert (e = 0) as -> by lia. simpl (2 ^ 0) in *. change (2 ^ (- (0 - 1))) with 2. lia.
    + replace e with (Z.succ (e - 1)) in H' by lia. rewrite Z.pow_succ_r in H' by lia. nia.
Qed.

Lemma scaled_first_guess n d :
  0 < n → 0 < d → 2 ^ 51 ≤ scaled n d (Z.log2 n - Z.log2 d - 52).
Proof.
  intros Hn Hd. pose proof (Z.log2_spec n Hn) as [Hn1 _]. pose proof (Z.log2_spec d Hd) as [_ Hd2].
  pose proof (Z.log2_nonneg n). pose proof (Z.log2_nonneg d).
  set (a := Z.log2 n) in *. set (b := Z.log2 d) in *. unfold scaled, scale_num, scale_den.
  destruct (a - b - 52 <? 0) eqn:E; breflect.
  - apply Z.div_le_lower_bound; [done|].
    replace (Z.succ b) with (b + 1) in Hd2 by lia.
    apply Z.le_trans with (2 ^ (b + 1) * 2 ^ 51).
    { apply Z.mul_le_mono_nonneg_r; [done|lia]. }
    apply Z.le_trans with (2 ^ a * 2 ^ (- (a - b - 52))).
    + rewrite <-!Z.pow_add_r by lia. apply Z.pow_le_mono_r; lia.
    + apply Z.mul_le_mono_nonneg_r; [apply Z.pow_nonneg; lia|done].
  - apply Z.div_le_lower_bound; [apply Z.mul_pos_pos; [done|apply Z.pow_pos_nonneg; lia]|].
    replace (Z.succ b) with (b + 1) in Hd2 by lia.
    apply Z.le_trans with (2 ^ (b + 1) * 2 ^ (a - b - 52) * 2 ^ 51).
    { apply Z.mul_le_mono_nonneg_r; [done|]. apply Z.mul_le_mono_nonneg_r; [apply Z.pow_nonneg|]; lia. }
    rewrite <-!Z.pow_add_r by lia. etransitivity; [|exact Hn1]. apply Z.pow_le_mono_r; lia.
Qed.

(** The mantissa is normalised. *)
Lemma round_exp_normal n d : 0 < n → 0 < d → 2 ^ 52 ≤ scaled n d (round_exp n d).
Proof.
  intros Hn Hd. unfold round_exp. split_if; [|done].
  apply scaled_pred; [done..|]. by apply scaled_first_guess.
Qed.

(** Rounding never goes below a representable integer lower bound. *)
Lemma round_ratio_lower n d K :
  0 < n → 0 < d → 0 ≤ K < 2 ^ 53 → K * d ≤ n → K ≤ double_to_i64 (round_ratio n d).
Proof.
  intros Hn Hd HK Hle. unfold round_ratio, double_to_i64. cbn [d_m d_e].
  pose proof (round_exp_normal n d Hn Hd) as Hnorm.
  generalize dependent (round_exp n d). intros e Hnorm.
  pose proof (round_half_even_floor (scale_num n e) (scale_den d e) (scale_den_pos d e Hd)) as [Hfl _].
  unfold scaled, scale_num, scale_den in *.
  destruct (e <? 0) eqn:E; breflect.
  - assert (0 < 2 ^ (- e)) by (apply Z.pow_pos_nonneg; lia).
    apply Z.div_le_lower_bound; [done|]. etransitivity; [|exact Hfl].
    apply Z.div_le_lower_bound; [done|]. nia.
  - destruct (decide (e = 0)) as [->|He].
    + change (2 ^ 0) with 1 in *. rewrite !Z.mul_1_r in *.
      etransitivity; [|exact Hfl]. apply Z.div_le_lower_bound; [done|lia].
    + assert (2 ^ 1 ≤ 2 ^ e) by (apply Z.pow_le_mono_r; lia). nia.
Qed.

(** Rounding adds at most one part in 2^52. *)
Lemma round_mantissa_upper n d :
  0 < n → 0 < d →
  let x := round_ratio n d in
  d_m x * 2 ^ 52 * scale_den d (d_e x) ≤ scale_num n (d_e x) * (2 ^ 52 + 1).
Proof.
  intros Hn Hd x. unfold x, round_ratio. cbn [d_m d_e].
  pose proof (round_exp_normal n d Hn Hd) as Hnorm.
  generalize dependent (round_exp n d). intros e Hnorm.
  pose proof (scale_den_pos d e Hd) as HD.
  pose proof (round_half_even_floor (scale_num n e) (scale_den d e) HD) as [_ Hup].
  unfold scaled in Hnorm. pose proof (Z.mul_div_le (scale_num n e) _ HD) as Hq. nia.
Qed.

Lemma round_ratio_upper n d :
  0 < n → 0 < d → double_to_i64 (round_ratio n d) * d * 2 ^ 52 ≤ n * (2 ^ 52 + 1).
Proof.
  intros Hn Hd. pose proof (round_mantissa_upper n d Hn Hd) as Hm. cbv zeta in Hm.
  unfold double_to_i64. destruct (round_ratio n d) as [m e]. cbn [d_m d_e] in *.
  unfold scale_num, scale_den in Hm. destruct (e <? 0) eqn:E; breflect; [|nia].
  assert (0 < 2 ^ (- e)) as Hp by (apply Z.pow_pos_nonneg; lia).
  pose proof (Z.mul_div_le m _ Hp) as Hd2. set (t := m / 2 ^ (- e)) in *. clearbody t.
  apply Z.mul_le_mono_pos_l with (2 ^ (- e)); [done|]. nia.
Qed.

(** Both bounds for a quotient of at least one fed to a product. *)
Lemma double_mul_int_div k a x :
  0 < k < 2 ^ 53 → 0 < x ≤ a → a < 2 ^ 53 →
  k ≤ double_to_i64 (double_mul_int k (double_div a x)) ∧
  double_to_i64 (double_mul_int k (double_div a x)) * 2 ^ 104 ≤ k * a * (2 ^ 52 + 1) ^ 2.
Proof.
  intros Hk Hx Ha.
  pose proof (round_ratio_lower a x 1 ltac:(lia) ltac:(lia) ltac:(lia) ltac:(lia)) as Hlo.
  pose proof (round_mantissa_upper a x ltac:(lia) ltac:(lia)) as Hm. cbv zeta in Hm.
  unfold double_div, double_mul_int. unfold double_to_i64 in Hlo.
  destruct (round_ratio a x) as [m e]. cbn [d_m d_e] in *. unfold scale_num, scale_den in Hm.
  change (2 ^ 104) with (2 ^ 52 * 2 ^ 52).
  destruct (e <? 0) eqn:E; breflect.
  - assert (0 < 2 ^ (- e)) as Hp by (apply Z.pow_pos_nonneg; lia).
    pose proof (Z.mul_div_le m _ Hp) as Hmd. set (p := 2 ^ (- e)) in *. clearbody p.
    assert (p ≤ m) as Hpm by nia.
    assert (m * 2 ^ 52 ≤ a * p * (2 ^ 52 + 1)) as Hmu by nia.
    split; [apply round_ratio_lower; nia|].
    pose proof (round_ratio_upper (k * m) p ltac:(nia) Hp) as Hup.
    set (j := double_to_i64 _) in *. clearbody j. clear Hm Hmd Hlo.
    apply Z.mul_le_mono_pos_l with p; [done|]. nia.
  - assert (0 < 2 ^ e) as Hp by (apply Z.pow_pos_nonneg; lia).
    set (p := 2 ^ e) in *. clearbody p.
    assert (m * p * 2 ^ 52 ≤ a * (2 ^ 52 + 1)) as Hmu by nia.
    split; [apply round_ratio_lower; nia|].
    pose proof (round_ratio_upper (k * m * p) 1 ltac:(nia) ltac:(lia)) as Hup.
    set (j := double_to_i64 _) in *. clearbody j. clear Hm. nia.
Qed.

(** ** The jumps *)

Lemma jump_key_range key : is_u64 (jump_key key).
Proof. apply add64_range. Qed.

Lemma shr33_bounds key : is_u64 key → 0 < shr64 key 33 + 1 ≤ 2 ^ 31.
Proof.
  intros [H0 H1]. unfold shr64. rewrite Z.shiftr_div_pow2 by lia.
  pose proof (Z.div_pos key (2 ^ 33) H0 ltac:(lia)).
  assert (key / 2 ^ 33 < 2 ^ 31) by (apply Z.div_lt_upper_bound; lia). lia.
Qed.

(** A jump goes strictly forward and its cast to [i64] does not overflow. *)
Lemma jump_next_bounds b key :
  0 ≤ b < 2 ^ 31 → is_u64 key → b + 1 ≤ jump_next b key < 2 ^ 63.
Proof.
  intros Hb Hk. pose proof (shr33_bounds key Hk). unfold jump_next.
  change (Z.shiftl 1 31) with (2 ^ 31).
  destruct (double_mul_int_div (b + 1) (2 ^ 31) (shr64 key 33 + 1)) as [Hlo Hup]; [lia..|].
  split; [done|]. set (j := double_to_i64 _) in *. clearbody j.
  apply Z.mul_lt_mono_pos_r with (2 ^ 104); [done|]. eapply Z.le_lt_trans; [exact Hup|].
  apply Z.le_lt_trans with (2 ^ 31 * 2 ^ 31 * (2 ^ 52 + 1) ^ 2); [|done].
  apply Z.mul_le_mono_nonneg_r; [done|]. nia.
Qed.

(** [jump_next] as a function of the key after the update. *)
Lemma jump_step b key :
  0 ≤ b < 2 ^ 31 → b + 1 ≤ jump_next b (jump_key key) < 2 ^ 63.
Proof. intros. apply jump_next_bounds; [done|apply jump_key_range]. Qed.

Lemma jump_loop_range fuel key b j n :
  -1 ≤ b < n → b < j → 0 ≤ j → n ≤ 2 ^ 31 → (0 ≤ b ∨ j < n) →
  n - j ≤ Z.of_nat fuel → (0 < fuel)%nat ∨ 0 ≤ b → 0 ≤ jump_loop fuel key b j n < n.
Proof.
  revert key b j. induction fuel as [|fuel IH]; intros key b j Hb Hbj Hj Hn H0 Hf Hf0;
    cbn [jump_loop]; [lia|].
  destruct (j <? n) eqn:E; breflect; [|lia].
  pose proof (jump_step j key ltac:(lia)). apply IH; lia.
Qed.

(** Raising the bucket count by one: same result, or the new bucket. *)
Lemma jump_loop_consistent f1 f2 key b j n :
  0 ≤ j → b < j → n < 2 ^ 31 → n - j ≤ Z.of_nat f1 → n + 1 - j ≤ Z.of_nat f2 →
  jump_loop f2 key b j (n + 1) = jump_loop f1 key b j n ∨ jump_loop f2 key b j (n + 1) = n.
Proof.
  revert f2 key b j. induction f1 as [|f1 IH]; intros f2 key b j Hj Hbj Hn H1 H2.
  - cbn [jump_loop]. destruct f2 as [|f2]; cbn [jump_loop]; [by left|].
    destruct (j <? n + 1) eqn:E; breflect; [|by left]. right.
    assert (j = n) as -> by lia. pose proof (jump_step n key ltac:(lia)).
    destruct f2; cbn [jump_loop]; [done|]. by rewrite (proj2 (Z.ltb_ge _ _)) by lia.
  - cbn [jump_loop]. destruct (j <? n) eqn:E; breflect.
    + destruct f2 as [|f2]; [lia|]. cbn [jump_loop].
      rewrite (proj2 (Z.ltb_lt j (n + 1))) by lia.
      pose proof (jump_step j key ltac:(lia)). apply IH; lia.
    + destruct f2 as [|f2]; cbn [jump_loop]; [by left|].
      destruct (j <? n + 1) eqn:E2; breflect; [|by left]. right.
      assert (j = n) as -> by lia. pose proof (jump_step n key ltac:(lia)).
      destruct f2; cbn [jump_loop]; [done|]. by rewrite (proj2 (Z.ltb_ge _ _)) by lia.
Qed.

(** More iterations than [num_buckets] change nothing: the fuel is never the
    reason the loop stops. *)
Lemma jump_loop_fuel f1 f2 key b j n :
  0 ≤ j → n ≤ 2 ^ 31 → n - j ≤ Z.of_nat f1 → n - j ≤ Z.of_nat f2 →
  jump_loop f1 key b j n = jump_loop f2 key b j n.
Proof.
  revert f2 key b j. induction f1 as [|f1 IH]; intros f2 key b j Hj Hn H1 H2; cbn [jump_loop].
  - destruct f2; cbn [jump_loop]; [done|]. by rewrite (proj2 (Z.ltb_ge _ _)) by lia.
  - destruct (j <? n) eqn:E; breflect.
    + destruct f2 as [|f2]; [lia|]. cbn [jump_loop]. rewrite (proj2 (Z.ltb_lt j n)) by lia.
      pose proof (jump_step j key ltac:(lia)). apply IH; lia.
    + destruct f2; cbn [jump_loop]; [done|]. by rewrite (proj2 (Z.ltb_ge _ _)) by lia.
Qed.

(** ** Properties *)

(** For every key and every positive 32-bit bucket count the jump loop
    terminates within [num_buckets] iterations (more fuel gives the same result),
    no intermediate [i64] overflows, and the bucket is in range; a non-positive
    count gives -1. *)
Theorem jump_hash_total key n :
  n < 2 ^ 31 →
  (n ≤ 0 ∧ buckets_jump_hash key n = -1) ∨
  (0 ≤ buckets_jump_hash key n < n ∧
   (∀ fuel, (Z.to_nat n ≤ fuel)%nat → jump_loop fuel key (-1) 0 n = buckets_jump_hash key n) ∧
   (∀ b k, 0 ≤ b < n → b + 1 ≤ jump_next b (jump_key k) < 2 ^ 63)).
Proof.
  intros Hn. unfold buckets_jump_hash. destruct (n <=? 0) eqn:E; breflect; [by left|].
  right. split; [apply jump_loop_range; lia|]. split.
  - intros fuel Hf. apply jump_loop_fuel; lia.
  - intros b k Hb. apply jump_step. lia.
Qed.

Lemma jump_hash_total_witness :
  (7 ≤ 0 ∧ buckets_jump_hash 123456789 7 = -1) ∨
  (0 ≤ buckets_jump_hash 123456789 7 < 7 ∧
   (∀ fuel, (Z.to_nat 7 ≤ fuel)%nat →
      jump_loop fuel 123456789 (-1) 0 7 = buckets_jump_hash 123456789 7) ∧
   (∀ b k, 0 ≤ b < 7 → b + 1 ≤ jump_next b (jump_key k) < 2 ^ 63)).
Proof. apply (jump_hash_total 123456789 7). reflexivity. Defined.

(** Growing the cluster from [n] to [n + 1] buckets moves a key only into the
    new bucket: minimal movement. *)
Theorem jump_hash_minimal_movement key n :
  0 < n < 2 ^ 31 - 1 →
  buckets_jump_hash key (n + 1) = buckets_jump_hash key n ∨ buckets_jump_hash key (n + 1) = n.
Proof.
  intros Hn. unfold buckets_jump_hash.
  rewrite (proj2 (Z.leb_gt n 0)), (proj2 (Z.leb_gt (n + 1) 0)) by lia.
  apply jump_loop_consistent; lia.
Qed.

Lemma jump_hash_minimal_movement_witness :
  buckets_jump_hash 42 (9 + 1) = buckets_jump_hash 42 9 ∨ buckets_jump_hash 42 (9 + 1) = 9.
Proof. apply (jump_hash_minimal_movement 42 9). lia. Defined.
