(* ===== verification/Galois.v ===== *)
(** * The field with 256 elements

    Arithmetic of bytes as polynomials over two elements modulo x^8 + x^4 + x^3 + x^2 + 1,
    the field in which ISA-L computes, and the linear algebra over it that erasure coding
    relies on. Addition is exclusive or. *)

From S2P Require Import Prelude CInt.

(** ** Multiplication *)

(** Multiplication by x. *)
Definition xtime (b : Z) : Z :=
  if Z.testbit b 7 then Z.lxor (Z.shiftl b 1) 285 else Z.shiftl b 1.

Fixpoint gf_mul_bits (n : nat) (a b : Z) : Z :=
  match n with
  | O => 0
  | S n => Z.lxor (if Z.testbit a 0 then b else 0) (gf_mul_bits n (Z.shiftr a 1) (xtime b))
  end.

Definition gf_mul (a b : Z) : Z := gf_mul_bits 8 a b.

Lemma lxor_swap a b c d : Z.lxor (Z.lxor a b) (Z.lxor c d) = Z.lxor (Z.lxor a c) (Z.lxor b d).
Proof.
  rewrite !Z.lxor_assoc. f_equal. rewrite <- !Z.lxor_assoc. f_equal. apply Z.lxor_comm.
Qed.

Lemma xtime_lxor a b : xtime (Z.lxor a b) = Z.lxor (xtime a) (xtime b).
Proof.
  unfold xtime. rewrite Z.lxor_spec, Z.shiftl_lxor.
  destruct (Z.testbit a 7), (Z.testbit b 7); simpl xorb; cbv iota.
  - rewrite lxor_swap, Z.lxor_nilpotent, Z.lxor_0_r. done.
  - rewrite !Z.lxor_assoc. f_equal. apply Z.lxor_comm.
  - by rewrite Z.lxor_assoc.
  - done.
Qed.

Lemma gf_mul_bits_lxor_r n a b c :
  gf_mul_bits n a (Z.lxor b c) = Z.lxor (gf_mul_bits n a b) (gf_mul_bits n a c).
Proof.
  revert a b c. induction n as [|n IH]; intros a b c; cbn [gf_mul_bits]; [done|].
  rewrite xtime_lxor, IH, lxor_swap. f_equal. by destruct (Z.testbit a 0).
Qed.

Lemma gf_mul_bits_lxor_l n a b c :
  gf_mul_bits n (Z.lxor a b) c = Z.lxor (gf_mul_bits n a c) (gf_mul_bits n b c).
Proof.
  revert a b c. induction n as [|n IH]; intros a b c; cbn [gf_mul_bits]; [done|].
  rewrite Z.shiftr_lxor, IH, lxor_swap, Z.lxor_spec. f_equal.
  destruct (Z.testbit a 0), (Z.testbit b 0); simpl; by rewrite ?Z.lxor_nilpotent, ?Z.lxor_0_r.
Qed.

Lemma gf_mul_lxor_r a b c : gf_mul a (Z.lxor b c) = Z.lxor (gf_mul a b) (gf_mul a c).
Proof. apply gf_mul_bits_lxor_r. Qed.
Lemma gf_mul_lxor_l a b c : gf_mul (Z.lxor a b) c = Z.lxor (gf_mul a c) (gf_mul b c).
Proof. apply gf_mul_bits_lxor_l. Qed.
Lemma gf_mul_0_r a : gf_mul a 0 = 0.
Proof.
  pose proof (gf_mul_lxor_r a 0 0) as H. by rewrite Z.lxor_0_r, Z.lxor_nilpotent in H.
Qed.
Lemma gf_mul_0_l b : gf_mul 0 b = 0.
Proof. pose proof (gf_mul_lxor_l 0 0 b) as H. by rewrite Z.lxor_0_r, Z.lxor_nilpotent in H. Qed.
Lemma gf_mul_1_l b : gf_mul 1 b = b.
Proof. unfold gf_mul. cbn [gf_mul_bits]. simpl. apply Z.lxor_0_r. Qed.

(** A byte is the sum of its bits, so two additive functions that agree on the powers of
    two agree on all bytes. *)
Lemma additive_agree (f g : Z → Z) :
  (∀ a b, f (Z.lxor a b) = Z.lxor (f a) (f b)) → (∀ a b, g (Z.lxor a b) = Z.lxor (g a) (g b)) →
  (∀ i, 0 ≤ i < 8 → f (2 ^ i) = g (2 ^ i)) → ∀ b, is_u8 b → f b = g b.
Proof.
  intros Hf Hg Hi.
  assert (∀ n b, (n ≤ 8)%nat → 0 ≤ b < 2 ^ Z.of_nat n → f b = g b) as H.
  { induction n as [|n IH]; intros b Hn Hb.
    - change (2 ^ Z.of_nat 0) with 1 in Hb. assert (b = 0) as -> by lia.
      specialize (Hf 0 0); specialize (Hg 0 0); rewrite !Z.lxor_nilpotent in Hf, Hg. congruence.
    - rewrite Nat2Z.inj_succ, Z.pow_succ_r in Hb by lia.
      destruct (decide (b < 2 ^ Z.of_nat n)); [apply IH; lia|].
      assert (b = Z.lxor (2 ^ Z.of_nat n) (b - 2 ^ Z.of_nat n)) as ->.
      { rewrite <- Z.add_nocarry_lxor; [lia|]. apply Z.bits_inj'. intros i Hi0.
        rewrite Z.land_spec, Z.bits_0, Z.pow2_bits_eqb by lia.
        destruct (Z.eqb_spec (Z.of_nat n) i) as [<-|]; [|done].
        apply (testbit_high (Z.of_nat n)); unfold in_range; lia. }
      rewrite Hf, Hg. f_equal; [apply Hi; lia|apply IH; lia]. }
  intros b Hb. apply (H 8%nat); [done|exact Hb].
Qed.

Lemma gf_mul_xtime b c : is_u8 b → is_u8 c → gf_mul (xtime b) c = xtime (gf_mul b c).
Proof.
  intros Hb Hc. revert b Hb. apply additive_agree.
  - intros. by rewrite xtime_lxor, gf_mul_lxor_l.
  - intros. by rewrite gf_mul_lxor_l, xtime_lxor.
  - intros i Hi. revert c Hc. apply additive_agree.
    + intros. apply gf_mul_lxor_r.
    + intros. by rewrite gf_mul_lxor_r, xtime_lxor.
    + intros j Hj.
      assert (i ∈ [0; 1; 2; 3; 4; 5; 6; 7]) as Hi' by (rewrite !elem_of_cons; lia).
      assert (j ∈ [0; 1; 2; 3; 4; 5; 6; 7]) as Hj' by (rewrite !elem_of_cons; lia).
      clear Hi Hj. repeat (apply elem_of_cons in Hi' as [->|Hi']);
        repeat (apply elem_of_cons in Hj' as [->|Hj']); try reflexivity; set_solver.
Qed.

Lemma xtime_byte b : is_u8 b → is_u8 (xtime b).
Proof.
  intros Hb. apply in_range_testbit; [done|]. split.
  - unfold xtime. destruct Hb as [Hb _]. assert (0 ≤ Z.shiftl b 1) by (by apply Z.shiftl_nonneg).
    destruct (Z.testbit b 7); [|done]. by apply Z.lxor_nonneg.
  - intros i Hi. unfold xtime.
    assert (Z.testbit (Z.shiftl b 1) i = (i =? 8) && Z.testbit b 7) as Hs.
    { rewrite Z.shiftl_spec by lia. destruct (Z.eqb_spec i 8) as [->|]; [done|].
      apply (testbit_high 8); [done|lia]. }
    assert (Z.testbit 285 i = (i =? 8)) as Hp.
    { destruct (Z.eqb_spec i 8) as [->|]; [done|]. apply (testbit_high 9); unfold in_range; lia. }
    destruct (Z.testbit b 7); rewrite ?Z.lxor_spec, ?Hp, Hs; by destruct (i =? 8).
Qed.

Lemma gf_mul_bits_byte n a b : is_u8 b → is_u8 (gf_mul_bits n a b).
Proof.
  revert a b. induction n as [|n IH]; intros a b Hb; cbn [gf_mul_bits]; [by unfold in_range|].
  apply lxor_range; [done| |by apply IH, xtime_byte]. by destruct (Z.testbit a 0).
Qed.

Lemma gf_mul_byte a b : is_u8 b → is_u8 (gf_mul a b).
Proof. apply gf_mul_bits_byte. Qed.

Lemma gf_mul_assoc a b c : is_u8 b → is_u8 c → gf_mul (gf_mul a b) c = gf_mul a (gf_mul b c).
Proof.
  intros Hb Hc. unfold gf_mul at 2 3. revert a b Hb. generalize 8%nat as n.
  induction n as [|n IH]; intros a b Hb; cbn [gf_mul_bits]; [apply gf_mul_0_l|].
  rewrite gf_mul_lxor_l, IH, gf_mul_xtime by (try apply xtime_byte; done). f_equal.
  destruct (Z.testbit a 0); [done|apply gf_mul_0_l].
Qed.

(** ** Vectors and matrices

    A matrix is the list of its rows. *)

Definition xsum (l : list Z) : Z := foldr Z.lxor 0 l.

(** The product of a row and a column. *)
Definition gf_dot (row v : list Z) : Z := xsum (zip_with gf_mul row v).

(** A row times a matrix with rows of length [k]. *)
Fixpoint gf_combine (k : nat) (c : list Z) (rows : list (list Z)) : list Z :=
  match c, rows with
  | x :: c, r :: rows => zip_with Z.lxor (gf_mul x <$> r) (gf_combine k c rows)
  | _, _ => replicate k 0
  end.

(** Row [i] of the identity. *)
Definition gf_unit (k i : nat) : list Z := (λ j, if decide (i = j) then 1 else 0) <$> seq 0 k.

(** The columns of a list of [k] vectors of length [len]. *)
Definition column (b : nat) (vs : list (list Z)) : list Z := (λ v, byte_at v b) <$> vs.

Lemma gf_dot_byte r v : is_bytes v → is_u8 (gf_dot r v).
Proof.
  intros Hv. unfold gf_dot. revert r. induction Hv as [|x v Hx Hv IH]; intros [|y r]; simpl;
    try (by unfold in_range). apply lxor_range; [done|by apply gf_mul_byte|apply IH].
Qed.

Lemma gf_dot_0 k v : gf_dot (replicate k 0) v = 0.
Proof.
  unfold gf_dot. revert v. induction k as [|k IH]; intros [|x v]; simpl; try done.
  by rewrite gf_mul_0_l, IH.
Qed.

Lemma gf_dot_add r s v :
  length r = length s → gf_dot (zip_with Z.lxor r s) v = Z.lxor (gf_dot r v) (gf_dot s v).
Proof.
  unfold gf_dot. revert s v. induction r as [|x r IH]; intros [|y s] [|z v] Hl; simplify_eq/=; try done.
  by rewrite gf_mul_lxor_l, IH, lxor_swap.
Qed.

Lemma gf_dot_scale x r v :
  is_bytes r → is_bytes v → gf_dot (gf_mul x <$> r) v = gf_mul x (gf_dot r v).
Proof.
  unfold gf_dot. intros Hr. revert v. induction Hr as [|y r Hy Hr IH]; intros [|z v] Hv; csimpl;
    try by rewrite gf_mul_0_r.
  apply Forall_cons in Hv as [Hz Hv]. by rewrite gf_mul_lxor_r, gf_mul_assoc, IH.
Qed.

Lemma length_gf_combine k c rows :
  Forall (λ r, length r = k) rows → length (gf_combine k c rows) = k.
Proof.
  intros H. revert c. induction H as [|r rows Hr H IH]; intros [|x c]; simpl;
    try apply length_replicate.
  rewrite length_zip_with, length_fmap, IH. lia.
Qed.

(** Associativity: multiplying by the rows and then combining is combining the rows first. *)
Lemma gf_dot_combine k c rows v :
  Forall (λ r, length r = k ∧ is_bytes r) rows → is_bytes v → length c = length rows →
  gf_dot c ((λ r, gf_dot r v) <$> rows) = gf_dot (gf_combine k c rows) v.
Proof.
  intros H Hv. revert c. induction H as [|r rows [Hr Hb] H IH]; intros [|x c] Hl; try done.
  - cbn [gf_combine fmap list_fmap]. by rewrite gf_dot_0.
  - apply (inj S) in Hl.
    change (Z.lxor (gf_mul x (gf_dot r v)) (gf_dot c ((λ r, gf_dot r v) <$> rows))
      = gf_dot (gf_combine k (x :: c) (r :: rows)) v). cbn [gf_combine].
    assert (Forall (λ r, length r = k) rows) by (eapply Forall_impl; [done|]; by intros ? [? _]).
    rewrite gf_dot_add, gf_dot_scale, <- IH by (try done; by rewrite length_fmap, length_gf_combine).
    done.
Qed.

Lemma gf_dot_unit_from n k i v :
  length v = k → (n ≤ i < n + k)%nat →
  gf_dot ((λ j, if decide (i = j) then 1 else 0) <$> seq n k) v = byte_at v (i - n).
Proof.
  revert n v. unfold gf_dot. induction k as [|k IH]; intros n [|x v] Hl Hi; simplify_eq/=; [lia|].
  destruct (decide (i = n)) as [->|].
  - rewrite gf_mul_1_l, Nat.sub_diag. unfold byte_at. simpl.
    assert (xsum (zip_with gf_mul ((λ j, if decide (n = j) then 1 else 0) <$> seq (S n) (length v)) v) = 0)
      as ->; [|apply Z.lxor_0_r].
    assert (∀ l s, (n < s)%nat → (λ j, if decide (n = j) then 1 else 0) <$> seq s l = replicate l 0)
      as ->; [|apply gf_dot_0|lia].
    induction l as [|l IHl]; intros s Hs; csimpl; [done|].
    rewrite decide_False by lia. by rewrite IHl by lia.
  - rewrite gf_mul_0_l, Z.lxor_0_l, IH by (done || lia). unfold byte_at.
    replace (i - n)%nat with (S (i - S n)) by lia. done.
Qed.

Lemma gf_dot_unit k i v : length v = k → (i < k)%nat → gf_dot (gf_unit k i) v = byte_at v i.
Proof. intros. unfold gf_unit. rewrite gf_dot_unit_from by lia. by rewrite Nat.sub_0_r. Qed.
