(* ===== verification/Erasure.v ===== *)
(** * Erasure coding (src/src/erasure/erasure.c)

    An object is split into [k] data chunks, to which ISA-L adds [m] parity chunks; any [k]
    of the chunks determine the object. The routines of ISA-L are the operations of the
    class [ISAL]; what the code relies on is the class [ISALLaws], stated with the
    arithmetic of Galois.v. *)

From S2P Require Import Prelude CInt Galois.

Local Open Scope c_scope.

(** ** The interface of ISA-L *)

Class ISAL := {
  (** [gf_gen_cauchy1_matrix(a, rows, k)]: the matrix, row after row. *)
  gf_gen_cauchy1_matrix : nat → nat → list Z;
  (** [gf_invert_matrix(in, out, n)]; [None] is a nonzero result. *)
  gf_invert_matrix : list Z → nat → option (list Z);
  (** [ec_init_tables(k, rows, a, tables)] *)
  ec_init_tables : nat → nat → list Z → list Z;
  (** [ec_encode_data(len, k, rows, tables, data, coding)]: the chunks of [coding]. *)
  ec_encode_data : Z → nat → nat → list Z → list (list Z) → list (list Z);
}.

(** Row [i] of a matrix with [k] columns that is stored row after row. *)
Definition mat_row (k : nat) (a : list Z) (i : nat) : list Z := take k (drop (i * k) a).

(** What ISA-L documents: the generated matrix has the identity on top and any [k] of its
    rows can be inverted; an inverse times the matrix is the identity; encoding multiplies
    the coefficients with the data, byte by byte. *)
Class ISALLaws `{ISAL} (k m : nat) : Prop := {
  cauchy_length : length (gf_gen_cauchy1_matrix (k + m) k) = ((k + m) * k)%nat;
  cauchy_bytes : is_bytes (gf_gen_cauchy1_matrix (k + m) k);
  cauchy_identity i :
    (i < k)%nat → mat_row k (gf_gen_cauchy1_matrix (k + m) k) i = gf_unit k i;
  cauchy_invertible rows :
    NoDup rows → length rows = k → Forall (λ i, i < k + m)%nat rows →
    gf_invert_matrix (concat (mat_row k (gf_gen_cauchy1_matrix (k + m) k) <$> rows)) k ≠ None;
  invert_inverse rows inv :
    Forall (λ r, length r = k ∧ is_bytes r) rows → length rows = k →
    gf_invert_matrix (concat rows) k = Some inv →
    length inv = (k * k)%nat ∧
    ∀ i, (i < k)%nat → gf_combine k (mat_row k inv i) rows = gf_unit k i;
  encode_product rows a len data :
    length a = (rows * k)%nat → length data = k → Forall (λ c, length c = len) data →
    ec_encode_data (Z.of_nat len) k rows (ec_init_tables k rows a) data =
      (λ i, (λ b, gf_dot (mat_row k a i) (column b data)) <$> seq 0 len) <$> seq 0 rows;
}.

Section Erasure.
Context `{ISAL}.

Definition BUCKETS_EC_MAX_DATA : nat := 16.
Definition BUCKETS_EC_MAX_PARITY : nat := 16.
Definition BUCKETS_EC_MAX_TOTAL : nat := 32.

Record ec_ctx := EcCtx {
  ec_k : nat;
  ec_m : nat;
  ec_n : nat;
  encode_matrix : list Z;
  decode_matrix : list Z;
  invert_matrix : list Z;
  gftbls : list Z;
  error_list : list nat;
}.

Definition buckets_ec_validate_config (k m : nat) : bool :=
  if (k <? 1)%nat || (BUCKETS_EC_MAX_DATA <? k)%nat then false
  else if (m <? 1)%nat || (BUCKETS_EC_MAX_PARITY <? m)%nat then false
  else if (BUCKETS_EC_MAX_TOTAL <? k + m)%nat then false
  else true.

(** [(chunk_size + 15) & ~15] with the quotient rounded up. *)
Definition buckets_ec_calc_chunk_size (data_size : Z) (k : nat) : Z :=
  if (k =? 0)%nat then 0
  else
    let chunk_size := u64 (data_size + Z.of_nat k - 1) / Z.of_nat k in
    Z.land (u64 (chunk_size + 15)) (2 ^ 64 - 16).

(** The fresh memory of the temporary matrices and of the error list holds [dm], [im] and
    [el]. *)
Definition buckets_ec_init (dm im : list Z) (el : list nat) (k m : nat) : option ec_ctx :=
  if buckets_ec_validate_config k m then
    let full_matrix := gf_gen_cauchy1_matrix (k + m) k in
    let encode := take (m * k) (drop (k * k) full_matrix) in
    Some {| ec_k := k; ec_m := m; ec_n := k + m;
            encode_matrix := encode; decode_matrix := dm; invert_matrix := im;
            gftbls := ec_init_tables k m encode; error_list := el |}
  else None.

Definition buckets_ec_free (ctx : ec_ctx) : ec_ctx := EcCtx 0 0 0 [] [] [] [] [].

(** ** Encoding *)

Definition bytes_per_chunk (data_size : Z) (k : nat) : Z :=
  u64 (data_size + Z.of_nat k - 1) / Z.of_nat k.

(** The bytes of the object in chunk [i]: their offset and their number. *)
Definition chunk_slice (data_size bpc : Z) (i : nat) : Z * Z :=
  let offset := u64 (Z.of_nat i * bpc) in
  let remaining := if offset <? data_size then data_size - offset else 0 in
  (offset, if bpc <? remaining then bpc else remaining).

(** [memcpy] from [src + off] to [dst + at_] of [n] bytes. *)
Definition c_memcpy (dst : list Z) (at_ : Z) (src : list Z) (off n : Z) : c_result (list Z) :=
  if (n =? 0) then Val dst
  else if (off + n <=? Z.of_nat (length src)) && (at_ + n <=? Z.of_nat (length dst)) then
    Val (memcpy_at dst (Z.to_nat at_) (take (Z.to_nat n) (drop (Z.to_nat off) src)))
  else Undef.

(** One data chunk: the copy and the padding with zeros. *)
Definition fill_chunk (buf data : list Z) (bpc chunk_size : Z) (i : nat) : c_result (list Z) :=
  let (offset, copy_size) := chunk_slice (Z.of_nat (length data)) bpc i in
  let* buf := c_memcpy buf 0 data offset copy_size in
  if copy_size <? chunk_size then
    c_memcpy buf copy_size (replicate (Z.to_nat (chunk_size - copy_size)) 0) 0 (chunk_size - copy_size)
  else Val buf.

(** The loop over the data chunks, [n] of them from [i]. *)
Fixpoint fill_chunks (bufs : list (list Z)) (data : list Z) (bpc chunk_size : Z) (i n : nat)
    : c_result (list (list Z)) :=
  match n with
  | O => Val bufs
  | S n =>
      let* buf := c_read bufs i in
      let* buf := fill_chunk buf data bpc chunk_size i in
      fill_chunks (<[i := buf]> bufs) data bpc chunk_size (S i) n
  end.

(** [data_chunks] is the array of buffers of the caller; the result holds the data chunks
    and the parity chunks. *)
Definition buckets_ec_encode (ctx : option ec_ctx) (data : option (list Z)) (chunk_size : Z)
    (data_chunks : list (list Z)) : c_result (option (list (list Z) * list (list Z))) :=
  match ctx, data with
  | Some ctx, Some data =>
      if chunk_size =? 0 then Val None
      else
        let data_size := Z.of_nat (length data) in
        let required_size := buckets_ec_calc_chunk_size data_size (ec_k ctx) in
        if chunk_size <? required_size then Val None
        else
          let bpc := bytes_per_chunk data_size (ec_k ctx) in
          let* data_chunks := fill_chunks data_chunks data bpc chunk_size 0 (ec_k ctx) in
          Val (Some (data_chunks,
                     ec_encode_data (to_int chunk_size) (ec_k ctx) (ec_m ctx) (gftbls ctx)
                       data_chunks))
  | _, _ => Val None
  end.

(** ** Reconstruction *)

(** The first [want] chunks of the array from [i] to [n] that are present, with their
    indices. *)
Fixpoint available_from (chunks : list (option (list Z))) (want n i : nat)
    : c_result (list (nat * list Z)) :=
  match n, want with
  | O, _ | _, O => Val []
  | S n, S want =>
      let* c := c_read chunks i in
      match c with
      | Some c =>
          let* r := available_from chunks want n (S i) in Val ((i, c) :: r)
      | None => available_from chunks (S want) n (S i)
      end
  end.

(** [recovery_row[j] = ctx->invert_matrix[missing_idx * k + j]] for [j] below [k]. *)
Fixpoint recovery_row (inv : list Z) (base k : nat) : c_result (list Z) :=
  match k with
  | O => Val []
  | S k => let* x := c_read inv base in let* r := recovery_row inv (S base) k in Val (x :: r)
  end.

Fixpoint recover_chunks (k : nat) (chunk_size : Z) (inv : list Z) (avail : list (list Z))
    (missing : list nat) : c_result (list (list Z)) :=
  match missing with
  | [] => Val []
  | missing_idx :: missing =>
      let* row := recovery_row inv (missing_idx * k) k in
      let* out := c_read (ec_encode_data (to_int chunk_size) k 1 (ec_init_tables k 1 row) avail) 0 in
      let* outs := recover_chunks k chunk_size inv avail missing in
      Val (out :: outs)
  end.

(** Copying the recovered chunks back. *)
Fixpoint store_chunks (chunk_size : Z) (chunks : list (option (list Z)))
    (missing : list nat) (outs : list (list Z)) : c_result (list (option (list Z))) :=
  match missing, outs with
  | missing_idx :: missing, out :: outs =>
      let* c := c_read chunks missing_idx in
      let dst := default (replicate (Z.to_nat chunk_size) 0) c in
      let* c := c_memcpy dst 0 out 0 chunk_size in
      store_chunks chunk_size (<[missing_idx := Some c]> chunks) missing outs
  | _, _ => Val chunks
  end.

Definition with_matrices (dm im : list Z) (ctx : ec_ctx) : ec_ctx :=
  EcCtx (ec_k ctx) (ec_m ctx) (ec_n ctx) (encode_matrix ctx) dm im (gftbls ctx) (error_list ctx).

Definition buckets_ec_reconstruct (ctx : ec_ctx) (chunks : list (option (list Z)))
    (chunk_size : Z) (missing_indices : list nat)
    : c_result (Z * ec_ctx * list (option (list Z))) :=
  let k := ec_k ctx in
  match missing_indices with
  | [] => Val (0, ctx, chunks)
  | _ =>
      if (ec_m ctx <? length missing_indices)%nat then Val (-1, ctx, chunks)
      else
        let* avail := available_from chunks k (ec_n ctx) 0 in
        if (length avail <? k)%nat then Val (-1, ctx, chunks)
        else
          let full_matrix := gf_gen_cauchy1_matrix (k + ec_m ctx) k in
          let dm := concat (mat_row k full_matrix <$> avail.*1) in
          match gf_invert_matrix dm k with
          | None => Val (-1, with_matrices dm (invert_matrix ctx) ctx, chunks)
          | Some inv =>
              let ctx := with_matrices dm inv ctx in
              let* outs := recover_chunks k chunk_size inv avail.*2 missing_indices in
              let* chunks := store_chunks chunk_size chunks missing_indices outs in
              Val (0, ctx, chunks)
          end
  end.

(** ** Decoding *)

(** The indices of the missing chunks among the [n] from [i]. *)
Fixpoint missing_from (chunks : list (option (list Z))) (n i : nat) : c_result (list nat) :=
  match n with
  | O => Val []
  | S n =>
      let* c := c_read chunks i in
      let* r := missing_from chunks n (S i) in
      Val (match c with None => i :: r | Some _ => r end)
  end.

(** Copying the data chunks, [n] of them from [i], to their place. *)
Fixpoint reassemble (dest : list Z) (chunks : list (option (list Z))) (data_size bpc : Z)
    (i n : nat) : c_result (list Z) :=
  match n with
  | O => Val dest
  | S n =>
      let (offset, copy_size) := chunk_slice data_size bpc i in
      let* c := c_read chunks i in
      let* dest :=
        if 0 <? copy_size then
          match c with Some c => c_memcpy dest offset c 0 copy_size | None => Undef end
        else Val dest in
      reassemble dest chunks data_size bpc (S i) n
  end.

(** [dest] is the output buffer with [data_size] bytes. *)
Definition buckets_ec_decode (ctx : option ec_ctx) (chunks : list (option (list Z)))
    (chunk_size : Z) (dest : list Z)
    : c_result (Z * option ec_ctx * list (option (list Z)) * list Z) :=
  match ctx with
  | None => Val (-1, None, chunks, dest)
  | Some ctx =>
      let data_size := Z.of_nat (length dest) in
      let bpc := bytes_per_chunk data_size (ec_k ctx) in
      let* errors := missing_from chunks (ec_n ctx) 0 in
      let ctx := EcCtx (ec_k ctx) (ec_m ctx) (ec_n ctx) (encode_matrix ctx) (decode_matrix ctx)
                   (invert_matrix ctx) (gftbls ctx) (memcpy_at (error_list ctx) 0 errors) in
      if (ec_n ctx - length errors <? ec_k ctx)%nat then Val (-1, Some ctx, chunks, dest)
      else if (length errors =? 0)%nat then
        let* dest := reassemble dest chunks data_size bpc 0 (ec_k ctx) in
        Val (0, Some ctx, chunks, dest)
      else
        let* r := buckets_ec_reconstruct ctx chunks chunk_size errors in
        let '(rc, ctx', chunks) := r in
        if rc =? 0 then
          let* dest := reassemble dest chunks data_size bpc 0 (ec_k ctx) in
          Val (0, Some ctx', chunks, dest)
        else Val (-1, Some ctx', chunks, dest)
  end.
End Erasure.

(** ** Splitting and reassembling *)

(** The bytes of the object in chunk [i], and a chunk of [cs] bytes that starts with them. *)
Definition slice (b : nat) (data : list Z) (i : nat) : list Z := take b (drop (i * b) data).
Definition pad (cs : nat) (l : list Z) : list Z := l ++ replicate (cs - length l) 0.

Lemma length_slice b data i : length (slice b data i) = (b `min` (length data - i * b))%nat.
Proof. unfold slice. by rewrite length_take, length_drop. Qed.

Lemma take_slice b data i : take (length (slice b data i)) (drop (i * b) data) = slice b data i.
Proof.
  unfold slice. set (d := drop _ _). rewrite length_take.
  destruct (decide (b ≤ length d)%nat); [by rewrite Nat.min_l|].
  rewrite Nat.min_r, !take_ge by lia. done.
Qed.

Lemma length_pad cs l : (length l ≤ cs)%nat → length (pad cs l) = cs.
Proof. unfold pad. len. Qed.

Lemma c_memcpy_ok dst a src off n :
  0 ≤ a → 0 ≤ off → 0 ≤ n →
  n = 0 ∨ (off + n ≤ Z.of_nat (length src) ∧ a + n ≤ Z.of_nat (length dst)) →
  c_memcpy dst a src off n =
    Val (memcpy_at dst (Z.to_nat a) (take (Z.to_nat n) (drop (Z.to_nat off) src))).
Proof.
  intros. unfold c_memcpy. destruct (Z.eqb_spec n 0) as [->|].
  - rewrite Z2Nat.inj_0. unfold memcpy_at. simpl. by rewrite Nat.add_0_r, take_drop.
  - by rewrite (proj2 (Z.leb_le _ _)), (proj2 (Z.leb_le _ _)) by lia.
Qed.

Section Split.
Context (k : nat) (data : list Z).
Hypothesis Hk : (0 < k ≤ BUCKETS_EC_MAX_DATA)%nat.
Hypothesis Hsize : Z.of_nat (length data) < 2 ^ 62.

Let ds := Z.of_nat (length data).
Let b := Z.to_nat (bytes_per_chunk ds k).

Lemma bytes_per_chunk_spec :
  bytes_per_chunk ds k = Z.of_nat b ∧ (length data ≤ k * b ≤ length data + k - 1)%nat ∧
  0 ≤ bytes_per_chunk ds k ≤ ds.
Proof.
  assert (bytes_per_chunk ds k = (ds + Z.of_nat k - 1) / Z.of_nat k) as E.
  { unfold bytes_per_chunk. rewrite u64_small; [done|]. unfold BUCKETS_EC_MAX_DATA in Hk.
    unfold in_range, ds. lia. }
  assert (0 ≤ bytes_per_chunk ds k) as H0 by (rewrite E; apply Z.div_pos; lia).
  pose proof (Z.mul_div_le (ds + Z.of_nat k - 1) (Z.of_nat k) ltac:(lia)) as H1.
  pose proof (Z.mul_succ_div_gt (ds + Z.of_nat k - 1) (Z.of_nat k) ltac:(lia)) as H2.
  rewrite <- E in H1, H2. fold b. unfold b in *. split; [lia|].
  assert (ds = 0 → bytes_per_chunk ds k = 0).
  { intros Hd. rewrite E, Hd. apply Z.div_small. lia. }
  split; [|nia]. unfold ds in *. nia.
Qed.

Lemma chunk_slice_spec i :
  (i < k)%nat →
  chunk_slice ds (bytes_per_chunk ds k) i = (Z.of_nat (i * b), Z.of_nat (length (slice b data i))).
Proof.
  intros Hi. destruct bytes_per_chunk_spec as (E & H1 & H2). unfold chunk_slice.
  rewrite E, <- Nat2Z.inj_mul, length_slice.
  assert (i * b ≤ k * b)%nat by (apply Nat.mul_le_mono_r; lia). unfold BUCKETS_EC_MAX_DATA in Hk.
  rewrite u64_small by (unfold in_range; lia). f_equal. unfold ds. clear E H2.
  destruct (Z.ltb_spec (Z.of_nat (i * b)) (Z.of_nat (length data))); split_if; lia.
Qed.

Lemma fill_chunk_ok buf i (cs : nat) :
  (i < k)%nat → length buf = cs → (b ≤ cs)%nat →
  fill_chunk buf data (bytes_per_chunk ds k) (Z.of_nat cs) i = Val (pad cs (slice b data i)).
Proof.
  intros Hi Hbuf Hcs. unfold fill_chunk. fold ds. rewrite chunk_slice_spec by done.
  pose proof (length_slice b data i) as Hl. cbn [c_bind].
  rewrite c_memcpy_ok by lia. cbn [c_bind].
  rewrite Z2Nat.inj_0, !Nat2Z.id.
  rewrite take_slice.
  set (s := slice b data i) in *. assert (memcpy_at buf 0 s = s ++ drop (length s) buf) as -> by done.
  split_if.
  - rewrite c_memcpy_ok by len. f_equal. unfold pad, memcpy_at. rewrite Nat2Z.id.
    rewrite take_app_length, drop_0, take_ge by len. f_equal.
    replace (Z.to_nat (Z.of_nat cs - Z.of_nat (length s))) with (cs - length s)%nat by lia.
    rewrite drop_ge by len. by rewrite app_nil_r.
  - unfold pad. rewrite (drop_ge buf) by lia. f_equal. by replace (cs - length s)%nat with 0%nat by lia.
Qed.

Lemma fill_chunks_ok bufs (cs : nat) i n :
  (i + n = k)%nat → length bufs = k → Forall (λ c, length c = cs) bufs → (b ≤ cs)%nat →
  fill_chunks bufs data (bytes_per_chunk ds k) (Z.of_nat cs) i n =
    Val (take i bufs ++ ((λ i, pad cs (slice b data i)) <$> seq i n)).
Proof.
  intros Hin Hlen Hall Hcs. revert i bufs Hin Hlen Hall.
  induction n as [|n IH]; intros i bufs Hin Hlen Hall; cbn [fill_chunks].
  - csimpl. rewrite take_ge, app_nil_r by lia. done.
  - destruct (lookup_lt_is_Some_2 bufs i ltac:(lia)) as [buf Hbuf].
    rewrite (proj2 (c_read_Val _ _ _) Hbuf). cbn [c_bind].
    rewrite (fill_chunk_ok _ _ cs) by (try lia; by eapply Forall_lookup_1 in Hall). cbn [c_bind].
    rewrite IH; [|lia|by rewrite length_insert|].
    + f_equal. csimpl. rewrite (take_S_r _ _ (pad cs (slice b data i)));
        [|apply list_lookup_insert_eq; lia].
      rewrite take_insert_ge by lia. by rewrite <- app_assoc.
    + apply Forall_insert; [done|]. apply length_pad. rewrite length_slice. lia.
Qed.

Lemma reassemble_ok dest chunks (cs : nat) i n :
  (i + n = k)%nat → (b ≤ cs)%nat → length dest = length data →
  (∀ j, (j < k)%nat → chunks !! j = Some (Some (pad cs (slice b data j)))) →
  reassemble (take (i * b) data ++ drop (i * b) dest) chunks ds (bytes_per_chunk ds k) i n
    = Val data.
Proof.
  intros Hin Hcs Hdest Hc. revert i Hin.
  induction n as [|n IH]; intros i Hin; cbn [reassemble].
  - destruct bytes_per_chunk_spec as (_ & Hb & _). rewrite Nat.add_0_r in Hin. subst i.
    rewrite take_ge, drop_ge, app_nil_r by lia. done.
  - rewrite chunk_slice_spec by lia. rewrite (proj2 (c_read_Val _ _ _) (Hc i ltac:(lia))).
    cbn [c_bind]. pose proof (length_slice b data i) as Hl.
    assert ((if 0 <? Z.of_nat (length (slice b data i))
      then c_memcpy (take (i * b) data ++ drop (i * b) dest) (Z.of_nat (i * b))
             (pad cs (slice b data i)) 0 (Z.of_nat (length (slice b data i)))
      else Val (take (i * b) data ++ drop (i * b) dest)) =
      Val (take (S i * b) data ++ drop (S i * b) dest)) as ->.
    2:{ cbn [c_bind]. apply IH. lia. }
    assert (take (S i * b) data = take (i * b) data ++ slice b data i) as Ht.
    { unfold slice. replace (S i * b)%nat with (i * b + b)%nat by lia. by rewrite take_take_drop. }
    split_if.
    + assert (i * b < length data)%nat by lia.
      rewrite c_memcpy_ok by (rewrite ?length_pad; len). f_equal.
      rewrite drop_0, !Nat2Z.id. unfold pad. rewrite take_app_length. unfold memcpy_at.
      rewrite take_app_length' by len. rewrite Ht, <- app_assoc. do 2 f_equal.
      rewrite drop_app_ge by len. rewrite drop_drop. rewrite length_take_le by lia.
      destruct (decide (S i * b ≤ length data)%nat).
      * f_equal. lia.
      * rewrite !drop_ge by lia. done.
    + rewrite Ht. assert (slice b data i = []) as -> by (apply length_zero_iff_nil; lia).
      rewrite app_nil_r. f_equal. f_equal. assert (length data ≤ i * b ∨ b = 0)%nat as [Hd|Hd] by lia.
      * rewrite !drop_ge by lia. done.
      * f_equal. rewrite Hd. lia.
Qed.
End Split.

(** ** Which chunks are there *)

Definition present (chunks : list (option (list Z))) (j : nat) : option (nat * list Z) :=
  match chunks !! j with Some (Some c) => Some (j, c) | _ => None end.

Lemma missing_from_ok chunks n i :
  (i + n ≤ length chunks)%nat →
  missing_from chunks n i = Val (filter (λ j, chunks !! j = Some None) (seq i n)).
Proof.
  revert i. induction n as [|n IH]; intros i Hi; cbn [missing_from seq]; [done|].
  destruct (lookup_lt_is_Some_2 chunks i ltac:(lia)) as [c Hc].
  rewrite (proj2 (c_read_Val _ _ _) Hc). cbn [c_bind]. rewrite IH by lia. cbn [c_bind].
  destruct c as [c|].
  - by rewrite filter_cons_False by (rewrite Hc; congruence).
  - by rewrite filter_cons_True.
Qed.

Lemma available_from_ok chunks want n i :
  (i + n ≤ length chunks)%nat →
  available_from chunks want n i = Val (take want (omap (present chunks) (seq i n))).
Proof.
  revert want i. induction n as [|n IH]; intros want i Hi.
  - destruct want; done.
  - destruct want as [|want]; [done|]. cbn [available_from seq omap list_omap].
    destruct (lookup_lt_is_Some_2 chunks i ltac:(lia)) as [c Hc].
    rewrite (proj2 (c_read_Val _ _ _) Hc). cbn [c_bind]. unfold present at 1. rewrite Hc.
    destruct c as [c|]; rewrite IH by lia; done.
Qed.

Lemma c_read_past {A} (l : list A) i : (length l ≤ i)%nat → c_read l i = Undef.
Proof. intros Hi. unfold c_read. by rewrite lookup_ge_None_2. Qed.

Lemma recovery_row_ok inv base k :
  (base + k ≤ length inv)%nat → recovery_row inv base k = Val (take k (drop base inv)).
Proof.
  revert base. induction k as [|k IH]; intros base Hb; cbn [recovery_row]; [done|].
  destruct (lookup_lt_is_Some_2 inv base ltac:(lia)) as [x Hx].
  rewrite (proj2 (c_read_Val _ _ _) Hx). cbn [c_bind]. rewrite IH by lia. cbn [c_bind].
  by rewrite (drop_S _ _ _ Hx).
Qed.

Lemma calc_chunk_size_spec data_size k :
  (0 < k ≤ BUCKETS_EC_MAX_DATA)%nat → 0 ≤ data_size < 2 ^ 62 →
  let cs := buckets_ec_calc_chunk_size data_size k in
  cs mod 16 = 0 ∧ bytes_per_chunk data_size k ≤ cs < bytes_per_chunk data_size k + 16.
Proof.
  intros Hk Hs. unfold buckets_ec_calc_chunk_size.
  rewrite (proj2 (Nat.eqb_neq k 0)) by lia. fold (bytes_per_chunk data_size k).
  set (q := bytes_per_chunk data_size k).
  assert (0 ≤ q < 2 ^ 63) as Hq.
  { unfold q, bytes_per_chunk. rewrite u64_small by (unfold in_range, BUCKETS_EC_MAX_DATA in *; lia).
    split; [apply Z.div_pos; lia|]. apply Z.div_lt_upper_bound; [lia|].
    unfold BUCKETS_EC_MAX_DATA in *. lia. }
  rewrite u64_small by (unfold in_range; lia).
  assert (Z.land (q + 15) (2 ^ 64 - 16) = (q + 15) / 16 * 16) as ->.
  { replace (2 ^ 64 - 16) with (Z.shiftl (Z.ones 60) 4) by reflexivity.
    change 16 with (2 ^ 4). rewrite <- Z.shiftr_div_pow2, <- Z.shiftl_mul_pow2 by lia.
    apply Z.bits_inj'. intros i Hi. rewrite Z.land_spec, !Z.shiftl_spec by lia.
    destruct (decide (i < 4)); [by rewrite !(testbit_neg _ (i - 4)), andb_false_r by lia|].
    rewrite Z.shiftr_spec by lia. replace (i - 4 + 4) with i by lia.
    rewrite Z.testbit_ones by lia. destruct (decide (i < 64)).
    - rewrite (proj2 (Z.leb_le _ _)), (proj2 (Z.ltb_lt _ _)) by lia. by rewrite andb_true_r.
    - rewrite (testbit_high 64 (q + 15)) by (unfold in_range; lia). done. }
  split; [apply Z.mod_mul; lia|]. pose proof (Z.div_mod (q + 15) 16). pose proof (Z.mod_pos_bound (q + 15) 16). lia.
Qed.

(** ** The code words *)

Lemma byte_at_seq (c : list Z) : (byte_at c <$> seq 0 (length c)) = c.
Proof.
  apply list_eq. intros i. rewrite list_lookup_fmap. destruct (decide (i < length c)%nat) as [Hi|Hi].
  - rewrite lookup_seq_lt by done. simpl. unfold byte_at.
    destruct (lookup_lt_is_Some_2 c i Hi) as [x ->]. done.
  - rewrite lookup_seq_ge, lookup_ge_None_2 by lia. done.
Qed.

Section Matrix.
Context `{ISALLaws k m}.

Lemma mat_row_full i :
  (i < k + m)%nat → length (mat_row k (gf_gen_cauchy1_matrix (k + m) k) i) = k ∧ is_bytes (mat_row k (gf_gen_cauchy1_matrix (k + m) k) i).
Proof.
  intros Hi. split.
  - unfold mat_row. rewrite length_take, length_drop. rewrite cauchy_length. nia.
  - unfold mat_row. by apply Forall_take, Forall_drop, cauchy_bytes.
Qed.

Lemma mat_row_parity i :
  (i < m)%nat → mat_row k (take (m * k) (drop (k * k) (gf_gen_cauchy1_matrix (k + m) k))) i = mat_row k (gf_gen_cauchy1_matrix (k + m) k) (k + i).
Proof.
  intros Hi. unfold mat_row. rewrite !take_drop_commute, take_take, drop_drop.
  f_equal; [lia|]. f_equal. nia.
Qed.
End Matrix.

Section Code.
Context `{ISALLaws k m} (data : list Z) (cs : nat).
Hypothesis Hk : (0 < k ≤ BUCKETS_EC_MAX_DATA)%nat.
Hypothesis Hsize : Z.of_nat (length data) < 2 ^ 62.
Hypothesis Hdata : is_bytes data.
Hypothesis Hcs : (Z.to_nat (bytes_per_chunk (Z.of_nat (length data)) k) ≤ cs)%nat.

Let bpc := bytes_per_chunk (Z.of_nat (length data)) k.
Let full := gf_gen_cauchy1_matrix (k + m) k.

Definition data_part : list (list Z) := (λ i, pad cs (slice (Z.to_nat bpc) data i)) <$> seq 0 k.

(** Chunk [i]: row [i] of the matrix times the data chunks. *)
Definition code (i : nat) : list Z :=
  (λ b, gf_dot (mat_row k full i) (column b data_part)) <$> seq 0 cs.

Lemma length_code i : length (code i) = cs.
Proof. unfold code. by rewrite length_fmap, length_seq. Qed.

Lemma length_chunk_part i : length (pad cs (slice (Z.to_nat bpc) data i)) = cs.
Proof. apply length_pad. rewrite length_slice. fold bpc in Hcs. lia. Qed.

Lemma data_part_lengths : Forall (λ c, length c = cs) data_part.
Proof. apply Forall_fmap, Forall_forall. intros i _. apply length_chunk_part. Qed.

Lemma column_bytes b : is_bytes (column b data_part).
Proof.
  apply Forall_fmap, Forall_forall. intros c Hc. apply byte_at_range.
  apply list_elem_of_fmap in Hc as (i & -> & _). unfold pad, slice.
  apply Forall_app. split; [by apply Forall_take, Forall_drop|].
  apply Forall_replicate. unfold in_range. lia.
Qed.

Lemma code_bytes i : is_bytes (code i).
Proof.
  apply Forall_fmap, Forall_forall. intros b _. apply gf_dot_byte, column_bytes.
Qed.

Lemma code_data i : (i < k)%nat → code i = pad cs (slice (Z.to_nat bpc) data i).
Proof.
  intros Hi. unfold code, full. rewrite cauchy_identity by done.
  rewrite <- (byte_at_seq (pad _ _)), length_chunk_part. apply list_fmap_ext. intros _ b _.
  rewrite gf_dot_unit; [|by unfold column, data_part; rewrite !length_fmap, length_seq|done].
  unfold column, data_part, byte_at at 1.
  by rewrite !list_lookup_fmap, lookup_seq_lt by done.
Qed.

Lemma code_parity :
  Z.of_nat cs < 2 ^ 31 →
  ec_encode_data (to_int (Z.of_nat cs)) k m (ec_init_tables k m (take (m * k) (drop (k * k) full)))
    data_part = (λ i, code (k + i)) <$> seq 0 m.
Proof.
  intros Hc. rewrite to_int_small by (unfold is_i32; lia).
  rewrite encode_product; [| | |apply data_part_lengths].
  - apply list_fmap_ext. intros ? i Hi. apply lookup_seq in Hi as [-> Hi].
    unfold code, full. simpl. by rewrite mat_row_parity.
  - rewrite length_take, length_drop. unfold full. rewrite cauchy_length. nia.
  - unfold data_part. by rewrite length_fmap, length_seq.
Qed.

Lemma code_all : data_part ++ ((λ i, code (k + i)) <$> seq 0 m) = code <$> seq 0 (k + m).
Proof.
  rewrite seq_app, fmap_app. f_equal.
  - apply list_fmap_ext. intros ? i Hi. apply lookup_seq in Hi as [-> Hi]. symmetry.
    by apply code_data.
  - replace (0 + k)%nat with (k + 0)%nat by lia.
    by rewrite <- fmap_add_seq, <- list_fmap_compose.
Qed.
End Code.

(** ** Recovery *)

Section Recovery.
Context `{ISALLaws k m} (data : list Z) (cs : nat) (chunks : list (option (list Z))).
Hypothesis Hk : (0 < k ≤ BUCKETS_EC_MAX_DATA)%nat.
Hypothesis Hsize : Z.of_nat (length data) < 2 ^ 62.
Hypothesis Hdata : is_bytes data.
Hypothesis Hcs : (Z.to_nat (bytes_per_chunk (Z.of_nat (length data)) k) ≤ cs)%nat.
Hypothesis Hint : Z.of_nat cs < 2 ^ 31.
Hypothesis Hlen : length chunks = (k + m)%nat.
Hypothesis Hchunks : ∀ i, (i < k + m)%nat →
  chunks !! i = Some None ∨ chunks !! i = Some (Some (code (k := k) (m := m) data cs i)).

Let full := gf_gen_cauchy1_matrix (k + m) k.
Let cod := code (k := k) (m := m) data cs.
Let missing := filter (λ j, chunks !! j = Some None) (seq 0 (k + m)).
Let found := filter (λ j, chunks !! j ≠ Some None) (seq 0 (k + m)).

Lemma present_found : omap (present chunks) (seq 0 (k + m)) = (λ i, (i, cod i)) <$> found.
Proof.
  unfold found. assert (∀ j, j ∈ seq 0 (k + m) → (j < k + m)%nat) as Hb.
  { intros j Hj. apply elem_of_seq in Hj. lia. }
  induction (seq 0 (k + m)) as [|j l IH]; [done|]. cbn [omap list_omap].
  unfold present at 1. destruct (Hchunks j) as [Hj|Hj]; [set_solver|..]; rewrite Hj.
  - rewrite filter_cons_False by (intros Hn; by apply Hn). apply IH. set_solver.
  - rewrite filter_cons_True by (rewrite Hj; congruence). csimpl. f_equal. apply IH. set_solver.
Qed.

Lemma missing_found_length : (length missing + length found = k + m)%nat.
Proof.
  unfold missing, found. rewrite <- (length_seq (k + m) 0) at 3.
  induction (seq 0 (k + m)) as [|j l IH]; [done|].
  destruct (decide (chunks !! j = Some None)).
  - rewrite filter_cons_True, filter_cons_False by naive_solver. simpl. f_equal. exact IH.
  - rewrite filter_cons_False, filter_cons_True by naive_solver. simpl.
    rewrite Nat.add_succ_r. f_equal. exact IH.
Qed.

Lemma found_rows :
  Forall (λ r, length r = k ∧ is_bytes r) (mat_row k full <$> take k found).
Proof.
  apply Forall_fmap, Forall_take, Forall_forall. intros i Hi.
  apply list_elem_of_filter in Hi as [_ Hi]. apply elem_of_seq in Hi.
  apply mat_row_full. lia.
Qed.

(** The inverse of the rows that are there gives any data chunk back. *)
Lemma recover_row inv i :
  (k ≤ length found)%nat →
  gf_invert_matrix (concat (mat_row k full <$> take k found)) k = Some inv → (i < k)%nat →
  recovery_row inv (i * k) k = Val (mat_row k inv i) ∧
  ec_encode_data (to_int (Z.of_nat cs)) k 1 (ec_init_tables k 1 (mat_row k inv i))
    (cod <$> take k found) = [cod i].
Proof.
  intros Hf Hinv Hi.
  destruct (invert_inverse _ _ found_rows ltac:(rewrite length_fmap, length_take; lia) Hinv)
    as [Hl Hcomb].
  assert (length (mat_row k inv i) = k) as Hrow.
  { unfold mat_row. rewrite length_take, length_drop, Hl. nia. }
  split; [rewrite recovery_row_ok; [done|nia]|].
  rewrite to_int_small by (unfold is_i32; lia).
  rewrite encode_product.
  - csimpl. f_equal. unfold cod, code. apply list_fmap_ext. intros j b Hb.
    apply lookup_seq in Hb as [-> Hb]. simpl. fold full.
    unfold mat_row at 1. rewrite drop_0, take_ge by lia.
    assert (column j (code (k := k) (m := m) data cs <$> take k found)
      = (λ r, gf_dot r (column j (data_part (k := k) data cs))) <$> (mat_row k full <$> take k found)) as E.
    { unfold column. rewrite <- !list_fmap_compose. apply list_fmap_ext. intros ? x _. simpl.
      unfold byte_at, code. rewrite list_lookup_fmap, lookup_seq_lt by done. done. }
    unfold code in E. fold full in E. rewrite E.
    rewrite (gf_dot_combine k); [|apply found_rows|by apply column_bytes|rewrite Hrow, length_fmap, length_take; lia].
    rewrite Hcomb by done. unfold full. by rewrite cauchy_identity.
  - lia.
  - rewrite length_fmap, length_take. lia.
  - apply Forall_fmap, Forall_forall. intros x _. apply length_code.
Qed.

Lemma recover_chunks_ok inv l :
  (k ≤ length found)%nat →
  gf_invert_matrix (concat (mat_row k full <$> take k found)) k = Some inv →
  Forall (λ i, i < k)%nat l →
  recover_chunks k (Z.of_nat cs) inv (cod <$> take k found) l = Val (cod <$> l).
Proof.
  intros Hf Hinv Hl. induction Hl as [|i l Hi Hl IH]; cbn [recover_chunks]; [done|].
  destruct (recover_row inv i Hf Hinv Hi) as [-> E]. cbn [c_bind]. rewrite E. cbn [c_bind].
  change (c_read [cod i] 0) with (Val (cod i)). cbn [c_bind]. by rewrite IH.
Qed.

Lemma recover_chunks_parity inv l i :
  (k ≤ length found)%nat →
  gf_invert_matrix (concat (mat_row k full <$> take k found)) k = Some inv →
  i ∈ l → (k ≤ i)%nat →
  recover_chunks k (Z.of_nat cs) inv (cod <$> take k found) l = Undef.
Proof.
  intros Hf Hinv. induction l as [|j l IH]; [set_solver|].
  intros [->|Hin]%elem_of_cons Hi; cbn [recover_chunks].
  - destruct (invert_inverse _ _ found_rows ltac:(rewrite length_fmap, length_take; lia) Hinv)
      as [Hl _].
    destruct k as [|k'] eqn:Ek; [lia|]. cbn [recovery_row]. rewrite c_read_past by nia. done.
  - destruct (recovery_row _ _ _); [|done]. cbn [c_bind]. destruct (c_read _ _); [|done].
    cbn [c_bind]. by rewrite IH.
Qed.
End Recovery.

Lemma c_memcpy_all (cs : nat) c : length c = cs →
  c_memcpy (replicate (Z.to_nat (Z.of_nat cs)) 0) 0 c 0 (Z.of_nat cs) = Val c.
Proof.
  intros Hc. rewrite Nat2Z.id, c_memcpy_ok by (rewrite ?length_replicate; lia).
  rewrite Nat2Z.id, Z2Nat.inj_0, drop_0, take_ge by lia. unfold memcpy_at. simpl.
  rewrite drop_ge by len. by rewrite app_nil_r.
Qed.

Lemma store_chunks_ok (cs : nat) (f : nat → list Z) l chunks :
  (∀ j, length (f j) = cs) → NoDup l → (∀ j, j ∈ l → chunks !! j = Some None) →
  ∃ r, store_chunks (Z.of_nat cs) chunks l (f <$> l) = Val r ∧ length r = length chunks ∧
    ∀ j, r !! j = if decide (j ∈ l) then Some (Some (f j)) else chunks !! j.
Proof.
  intros Hf. revert chunks. induction l as [|i l IH]; intros chunks Hnd Hl.
  - exists chunks. split_and!; [done..|]. intros j. by rewrite decide_False by set_solver.
  - apply NoDup_cons in Hnd as [Hi Hnd]. csimpl. cbn [store_chunks].
    pose proof (Hl i ltac:(set_solver)) as Hci.
    rewrite (proj2 (c_read_Val _ _ _) Hci). cbn [c_bind default].
    rewrite c_memcpy_all by done. cbn [c_bind].
    pose proof (lookup_lt_Some _ _ _ Hci) as Hlt.
    destruct (IH (<[i := Some (f i)]> chunks)) as (r & Hr & Hlen & Hlook); [done| |].
    + intros j Hj. rewrite list_lookup_insert_ne by (intros ->; done). set_solver.
    + exists r. split_and!; [done|by rewrite Hlen, length_insert|]. intros j. rewrite Hlook.
      destruct (decide (j = i)) as [->|].
      * rewrite (decide_False (P := i ∈ l)), decide_True by set_solver. by apply list_lookup_insert_eq.
      * rewrite list_lookup_insert_ne by done. destruct (decide (j ∈ l)).
        -- by rewrite decide_True by set_solver.
        -- by rewrite decide_False by set_solver.
Qed.

(** ** Decoding *)

Section Decoding.
Context `{ISALLaws k m} (data dest : list Z) (cs : nat) (chunks : list (option (list Z))).
Context (ctx : ec_ctx).
Hypothesis Hctx : ec_k ctx = k ∧ ec_m ctx = m ∧ ec_n ctx = (k + m)%nat.
Hypothesis Hk : (0 < k ≤ BUCKETS_EC_MAX_DATA)%nat.
Hypothesis Hsize : Z.of_nat (length data) < 2 ^ 62.
Hypothesis Hdata : is_bytes data.
Hypothesis Hcs : (Z.to_nat (bytes_per_chunk (Z.of_nat (length data)) k) ≤ cs)%nat.
Hypothesis Hint : Z.of_nat cs < 2 ^ 31.
Hypothesis Hdest : length dest = length data.

Let cod := code (k := k) (m := m) data cs.
Let missing := filter (λ j, chunks !! j = Some None) (seq 0 (k + m)).

Hypothesis Hchunks : Forall2 (λ o c, o = None ∨ o = Some c) chunks (cod <$> seq 0 (k + m)).

Lemma chunks_length : length chunks = (k + m)%nat.
Proof. rewrite (Forall2_length _ _ _ Hchunks). by rewrite length_fmap, length_seq. Qed.

Lemma chunks_code i :
  (i < k + m)%nat → chunks !! i = Some None ∨ chunks !! i = Some (Some (cod i)).
Proof.
  intros Hi. destruct (lookup_lt_is_Some_2 chunks i) as [o Ho]; [by rewrite chunks_length|].
  pose proof (Forall2_lookup_lr _ _ _ i o (cod i) Hchunks Ho) as [->| ->]; auto.
  by rewrite list_lookup_fmap, lookup_seq_lt.
Qed.

Lemma missing_lookup i : i ∈ missing ↔ chunks !! i = Some None.
Proof.
  unfold missing. rewrite list_elem_of_filter, elem_of_seq. split; [by intros [? _]|].
  intros Hi. split; [done|]. apply lookup_lt_Some in Hi. rewrite chunks_length in Hi. lia.
Qed.

Lemma reassemble_code chunks' :
  (∀ i, (i < k)%nat → chunks' !! i = Some (Some (cod i))) →
  reassemble dest chunks' (Z.of_nat (length dest))
    (bytes_per_chunk (Z.of_nat (length dest)) k) 0 k = Val data.
Proof.
  intros Hc. rewrite Hdest. apply (reassemble_ok k data Hk Hsize dest chunks' cs 0 k); try done.
  intros j Hj. rewrite Hc by done. unfold cod. by rewrite code_data.
Qed.

Lemma reconstruct_inverse c :
  ec_k c = k → ec_m c = m → ec_n c = (k + m)%nat → missing ≠ [] → (length missing ≤ m)%nat →
  ∃ inv,
    let found := filter (λ j, chunks !! j ≠ Some None) (seq 0 (k + m)) in
    (k ≤ length found)%nat ∧
    gf_invert_matrix (concat (mat_row k (gf_gen_cauchy1_matrix (k + m) k) <$> take k found)) k
      = Some inv ∧
    buckets_ec_reconstruct c chunks (Z.of_nat cs) missing =
      (let* outs := recover_chunks k (Z.of_nat cs) inv (cod <$> take k found) missing in
       let* chunks := store_chunks (Z.of_nat cs) chunks missing outs in
       Val (0, with_matrices (concat (mat_row k (gf_gen_cauchy1_matrix (k + m) k) <$> take k found))
                 inv c, chunks)).
Proof.
  intros E1 E2 E3 Hne Hm. pose proof (missing_found_length (k := k) (m := m) chunks) as Hl.
  fold missing in Hl. set (found := filter (λ j, chunks !! j ≠ Some None) (seq 0 (k + m))) in *.
  assert (k ≤ length found)%nat as Hf by lia.
  destruct (gf_invert_matrix
    (concat (mat_row k (gf_gen_cauchy1_matrix (k + m) k) <$> take k found)) k) as [inv|] eqn:Hinv.
  2:{ exfalso. revert Hinv. apply cauchy_invertible.
      - eapply sublist_NoDup; [apply NoDup_seq|]. etrans; [apply sublist_take|apply sublist_filter].
      - rewrite length_take. lia.
      - apply Forall_take, Forall_forall. intros i Hi. apply list_elem_of_filter in Hi as [_ Hi].
        apply elem_of_seq in Hi. lia. }
  exists inv. cbv zeta. split; [done|]. split; [done|].
  unfold buckets_ec_reconstruct. rewrite E1, E2, E3.
  destruct missing as [|i l] eqn:Em; [done|].
  rewrite (proj2 (Nat.ltb_ge _ _)) by done.
  rewrite available_from_ok by (rewrite chunks_length; lia). cbn [c_bind].
  rewrite (present_found (k := k) (m := m) data cs chunks) by (done || apply chunks_length || apply chunks_code).
  fold found cod.
  rewrite <- fmap_take, length_fmap, length_take, Nat.min_l by lia.
  rewrite (proj2 (Nat.ltb_ge k k)) by lia.
  assert (∀ l, (fst <$> ((λ i0, (i0, cod i0)) <$> l)) = l) as ->
    by (intros l'; induction l' as [|x l' IHl]; csimpl; [done|]; by rewrite IHl).
  rewrite <- (list_fmap_compose _ snd). change (snd ∘ (λ i0, (i0, cod i0))) with cod.
  by rewrite Hinv.
Qed.

(** What a decode does before it looks at the chunks. *)
Lemma decode_unfold :
  ∃ c, ec_k c = k ∧ ec_m c = m ∧ ec_n c = (k + m)%nat ∧
  buckets_ec_decode (Some ctx) chunks (Z.of_nat cs) dest =
    if (m <? length missing)%nat then Val (-1, Some c, chunks, dest)
    else
      let* r := buckets_ec_reconstruct c chunks (Z.of_nat cs) missing in
      let '(rc, c', chunks) := r in
      if rc =? 0 then
        let* dest := reassemble dest chunks (Z.of_nat (length dest))
                       (bytes_per_chunk (Z.of_nat (length dest)) k) 0 k in
        Val (0, Some c', chunks, dest)
      else Val (-1, Some c', chunks, dest).
Proof.
  destruct Hctx as (E1 & E2 & E3). cbv beta iota zeta delta [buckets_ec_decode]. rewrite E3.
  rewrite missing_from_ok by (rewrite chunks_length; lia). cbn [c_bind]. fold missing.
  rewrite E1, E2. eexists (EcCtx k m (k + m) _ _ _ _ _). cbn [ec_n ec_k ec_m].
  split_and!; [reflexivity..|].
  destruct (Nat.ltb_spec m (length missing)).
  - by rewrite (proj2 (Nat.ltb_lt _ _)) by lia.
  - pose proof (missing_found_length (k := k) (m := m) chunks Hk) as Hl. fold missing in Hl.
    rewrite (proj2 (Nat.ltb_ge _ _)) by lia.
    destruct (Nat.eqb_spec (length missing) 0) as [E|E]; [|done].
    apply length_zero_iff_nil in E. by rewrite E.
Qed.

Lemma decode_recovers :
  (length missing ≤ m)%nat → Forall (λ i, i < k)%nat missing →
  ∃ c, buckets_ec_decode (Some ctx) chunks (Z.of_nat cs) dest =
         Val (0, Some c, Some <$> (cod <$> seq 0 (k + m)), data).
Proof.
  intros Hm Hlow. destruct decode_unfold as (c & E1 & E2 & E3 & ->).
  rewrite (proj2 (Nat.ltb_ge _ _)) by done.
  assert (∃ c', buckets_ec_reconstruct c chunks (Z.of_nat cs) missing
    = Val (0, c', Some <$> (cod <$> seq 0 (k + m)))) as [c' ->].
  { destruct (decide (missing = [])) as [Hnil|Hne].
    - exists c. rewrite Hnil. cbn [buckets_ec_reconstruct]. do 2 f_equal.
      apply list_eq. intros i. rewrite !list_lookup_fmap.
      destruct (decide (i < k + m)%nat) as [Hi|Hi].
      + rewrite lookup_seq_lt by done. destruct (chunks_code i Hi) as [Hn|]; [|done].
        apply missing_lookup in Hn. rewrite Hnil in Hn. set_solver.
      + rewrite lookup_seq_ge, lookup_ge_None_2 by (rewrite ?chunks_length; lia). done.
    - destruct (reconstruct_inverse c E1 E2 E3 Hne Hm) as (inv & Hf & Hinv & ->).
      assert (recover_chunks k (Z.of_nat cs) inv (cod <$> take k (filter (λ j, chunks !! j ≠ Some None)
        (seq 0 (k + m)))) missing = Val (cod <$> missing)) as ->
        by (apply recover_chunks_ok; done || apply chunks_length || apply chunks_code).
      cbn [c_bind].
      destruct (store_chunks_ok cs cod missing chunks) as (r & Hr & Hlen & Hlook).
      + intros j. apply length_code.
      + apply NoDup_filter, NoDup_seq.
      + intros j. apply missing_lookup.
      + fold cod. rewrite Hr. cbn [c_bind]. eexists. do 2 f_equal. apply list_eq. intros i.
        rewrite Hlook, !list_lookup_fmap. destruct (decide (i < k + m)%nat) as [Hi|Hi].
        * rewrite lookup_seq_lt by done. simpl. destruct (decide (i ∈ missing)) as [|Hn]; [done|].
          rewrite missing_lookup in Hn. destruct (chunks_code i Hi); naive_solver.
        * rewrite lookup_seq_ge, lookup_ge_None_2 by (rewrite ?chunks_length; lia).
          rewrite decide_False; [done|]. rewrite missing_lookup, lookup_ge_None_2; [done|].
          rewrite chunks_length. lia. }
  exists c'. cbn [c_bind]. rewrite Z.eqb_refl, reassemble_code; [done|].
  intros i Hi. rewrite !list_lookup_fmap, lookup_seq_lt by lia. done.
Qed.

Lemma decode_parity_undefined i :
  (length missing ≤ m)%nat → (k ≤ i)%nat → i ∈ missing →
  buckets_ec_decode (Some ctx) chunks (Z.of_nat cs) dest = Undef.
Proof.
  intros Hm Hi Hin. destruct decode_unfold as (c & E1 & E2 & E3 & ->).
  rewrite (proj2 (Nat.ltb_ge _ _)) by done.
  destruct (reconstruct_inverse c E1 E2 E3) as (inv & Hf & Hinv & ->);
    [intros Hn; rewrite Hn in Hin; set_solver|done|].
  assert (recover_chunks k (Z.of_nat cs) inv (cod <$> take k (filter (λ j, chunks !! j ≠ Some None)
    (seq 0 (k + m)))) missing = Undef) as ->; [|done].
  apply recover_chunks_parity with (i := i); done || apply chunks_length || apply chunks_code.
Qed.
End Decoding.

(** ** Properties *)

Lemma init_ctx `{ISAL} dm im el k m ctx :
  buckets_ec_init dm im el k m = Some ctx →
  (0 < k ≤ BUCKETS_EC_MAX_DATA)%nat ∧ (0 < m ≤ BUCKETS_EC_MAX_PARITY)%nat ∧
  ec_k ctx = k ∧ ec_m ctx = m ∧ ec_n ctx = (k + m)%nat ∧
  gftbls ctx = ec_init_tables k m (take (m * k) (drop (k * k) (gf_gen_cauchy1_matrix (k + m) k))).
Proof.
  unfold buckets_ec_init, buckets_ec_validate_config, BUCKETS_EC_MAX_DATA, BUCKETS_EC_MAX_PARITY.
  destruct ((k <? 1)%nat || (16 <? k)%nat) eqn:Ek; [done|].
  destruct ((m <? 1)%nat || (16 <? m)%nat) eqn:Em; [done|].
  destruct (BUCKETS_EC_MAX_TOTAL <? k + m)%nat; [done|]. breflect.
  intros Hc. apply (inj Some) in Hc as <-. split_and!; try done; lia.
Qed.

Lemma encode_code `{ISALLaws k m} dm im el ctx data (cs : nat) bufs :
  buckets_ec_init dm im el k m = Some ctx → Z.of_nat (length data) < 2 ^ 62 →
  0 < Z.of_nat cs < 2 ^ 31 →
  buckets_ec_calc_chunk_size (Z.of_nat (length data)) k ≤ Z.of_nat cs →
  length bufs = k → Forall (λ c, length c = cs) bufs →
  (Z.to_nat (bytes_per_chunk (Z.of_nat (length data)) k) ≤ cs)%nat ∧
  ∃ dc pc, buckets_ec_encode (Some ctx) (Some data) (Z.of_nat cs) bufs = Val (Some (dc, pc)) ∧
    dc ++ pc = code (k := k) (m := m) data cs <$> seq 0 (k + m).
Proof.
  intros Hinit Hsize Hcs Hcalc Hbufs Hlen.
  destruct (init_ctx _ _ _ _ _ _ Hinit) as (Hk & _ & E1 & E2 & _ & E4).
  destruct (calc_chunk_size_spec (Z.of_nat (length data)) k Hk) as [_ [Hb _]]; [lia|].
  assert (Z.to_nat (bytes_per_chunk (Z.of_nat (length data)) k) ≤ cs)%nat as Hb' by lia.
  split; [done|]. cbv beta iota zeta delta [buckets_ec_encode]. rewrite E1, E2, E4.
  rewrite (proj2 (Z.eqb_neq _ 0)), (proj2 (Z.ltb_ge _ _)) by lia.
  rewrite (fill_chunks_ok k data Hk Hsize bufs cs 0 k) by done. cbn [c_bind].
  eexists _, _. split; [reflexivity|]. rewrite take_0, app_nil_l.
  change ((λ i, pad cs (slice (Z.to_nat (bytes_per_chunk (Z.of_nat (length data)) k)) data i))
            <$> seq 0 k) with (data_part (k := k) data cs).
  rewrite code_parity by (done || lia). by apply code_all.
Qed.

(** The number of chunks that are missing. *)
Definition lost (chunks : list (option (list Z))) : nat := length (filter (λ o, o = None) chunks).

Lemma lost_missing chunks :
  lost chunks = length (filter (λ j, chunks !! j = Some None) (seq 0 (length chunks))).
Proof.
  unfold lost. induction chunks as [|o chunks IH] using rev_ind; [done|].
  rewrite length_app, Nat.add_1_r, seq_S, !filter_app, !length_app, IH. f_equal.
  - assert (∀ l, (∀ j, j ∈ l → (j < length chunks)%nat) →
      length (filter (λ j, chunks !! j = Some None) l)
      = length (filter (λ j, (chunks ++ [o]) !! j = Some None) l)) as Hf.
    { induction l as [|j l IHl]; intros Hl; [done|]. rewrite !filter_cons.
      pose proof (Hl j ltac:(set_solver)) as Hj.
      pose proof (lookup_app_l chunks [o] j Hj) as El.
      destruct (decide (chunks !! j = Some None)), (decide ((chunks ++ [o]) !! j = Some None));
        try congruence; simpl; rewrite IHl by set_solver; done. }
    apply Hf. intros j Hj. apply elem_of_seq in Hj. lia.
  - simpl. destruct (decide (o = None)) as [->|].
    + rewrite !filter_cons_True; [done| |done]. by rewrite list_lookup_middle.
    + rewrite !filter_cons_False; [done| |done]. rewrite list_lookup_middle by done. congruence.
Qed.

(** The chunks of an object, and what a decode makes of those that are left. *)
Lemma erasure_encode_decode `{ISALLaws k m} dm im el ctx data (cs : nat) bufs :
  buckets_ec_init dm im el k m = Some ctx →
  is_bytes data → Z.of_nat (length data) < 2 ^ 62 → 0 < Z.of_nat cs < 2 ^ 31 →
  buckets_ec_calc_chunk_size (Z.of_nat (length data)) k ≤ Z.of_nat cs →
  length bufs = k → Forall (λ c, length c = cs) bufs →
  ∃ dc pc, buckets_ec_encode (Some ctx) (Some data) (Z.of_nat cs) bufs = Val (Some (dc, pc)) ∧
    length (dc ++ pc) = (k + m)%nat ∧ Forall (λ c, length c = cs ∧ is_bytes c) (dc ++ pc) ∧
    ∀ chunks dest,
      Forall2 (λ o c, o = None ∨ o = Some c) chunks (dc ++ pc) → length dest = length data →
      ((m < lost chunks)%nat →
        ∃ ctx', buckets_ec_decode (Some ctx) chunks (Z.of_nat cs) dest
                = Val (-1, Some ctx', chunks, dest)) ∧
      ((lost chunks ≤ m)%nat → (∀ i, chunks !! i = Some None → (i < k)%nat) →
        ∃ ctx', buckets_ec_decode (Some ctx) chunks (Z.of_nat cs) dest
                = Val (0, Some ctx', Some <$> (dc ++ pc), data)).
Proof.
  intros Hinit Hdata Hsize Hcs Hcalc Hbufs Hlen.
  destruct (init_ctx _ _ _ _ _ _ Hinit) as (Hk & _ & E1 & E2 & E3 & _).
  destruct (encode_code dm im el ctx data cs bufs) as (Hb & dc & pc & He & Hcode); [done..|].
  exists dc, pc. split; [done|]. rewrite Hcode.
  split; [by rewrite length_fmap, length_seq|]. split.
  { apply Forall_fmap, Forall_forall. intros i _. split; [apply length_code|by apply code_bytes]. }
  intros chunks dest Hch Hdest.
  assert (length chunks = (k + m)%nat) as Hl
    by (rewrite (Forall2_length _ _ _ Hch); by rewrite length_fmap, length_seq).
  rewrite lost_missing, Hl. split; intros Hm.
  - destruct (decode_unfold (k := k) (m := m) data dest cs chunks ctx) as (c & _ & _ & _ & ->); [done..|].
    exists c. by rewrite (proj2 (Nat.ltb_lt _ _)).
  - intros Hlow. apply decode_recovers; try done; [lia|].
    apply Forall_forall. intros i Hi. apply Hlow. by apply list_elem_of_filter in Hi as [? _].
Qed.

(** C2: an erasure-coded object survives the loss of its data chunks: with a valid
    configuration and buffers of a sufficient size the encoding succeeds, and from then on,
    whichever chunks are lost, a decode with more than [m] losses fails and leaves the output
    alone, and a decode with at most [m] losses, all of them data chunks, returns the object
    and restores every chunk. *)
Theorem erasure_recovers_lost_data `{ISALLaws k m} dm im el ctx data (cs : nat) bufs :
  buckets_ec_init dm im el k m = Some ctx →
  is_bytes data → Z.of_nat (length data) < 2 ^ 62 → 0 < Z.of_nat cs < 2 ^ 31 →
  buckets_ec_calc_chunk_size (Z.of_nat (length data)) k ≤ Z.of_nat cs →
  length bufs = k → Forall (λ c, length c = cs) bufs →
  ∃ dc pc, buckets_ec_encode (Some ctx) (Some data) (Z.of_nat cs) bufs = Val (Some (dc, pc)) ∧
    length (dc ++ pc) = (k + m)%nat ∧
    ∀ chunks dest,
      Forall2 (λ o c, o = None ∨ o = Some c) chunks (dc ++ pc) → length dest = length data →
      ((m < lost chunks)%nat →
        ∃ ctx', buckets_ec_decode (Some ctx) chunks (Z.of_nat cs) dest
                = Val (-1, Some ctx', chunks, dest)) ∧
      ((lost chunks ≤ m)%nat → (∀ i, chunks !! i = Some None → (i < k)%nat) →
        ∃ ctx', buckets_ec_decode (Some ctx) chunks (Z.of_nat cs) dest
                = Val (0, Some ctx', Some <$> (dc ++ pc), data)).
Proof.
  intros Hinit Hdata Hsize Hcs Hcalc Hbufs Hlen.
  destruct (erasure_encode_decode dm im el ctx data cs bufs) as (dc & pc & He & Hl & _ & Hd); [done..|].
  by exists dc, pc.
Qed.

(** C40: a lost parity chunk breaks the decoder: when at most [m] chunks are lost but one of
    them holds parity, the decode reads the inverted [k * k] matrix at row [i >= k], past its
    end. *)
Theorem erasure_lost_parity_out_of_bounds `{ISALLaws k m} dm im el ctx data (cs : nat) bufs dc pc
    chunks dest i :
  buckets_ec_init dm im el k m = Some ctx →
  is_bytes data → Z.of_nat (length data) < 2 ^ 62 → 0 < Z.of_nat cs < 2 ^ 31 →
  buckets_ec_calc_chunk_size (Z.of_nat (length data)) k ≤ Z.of_nat cs →
  length bufs = k → Forall (λ c, length c = cs) bufs →
  buckets_ec_encode (Some ctx) (Some data) (Z.of_nat cs) bufs = Val (Some (dc, pc)) →
  Forall2 (λ o c, o = None ∨ o = Some c) chunks (dc ++ pc) → length dest = length data →
  (lost chunks ≤ m)%nat → chunks !! i = Some None → (k ≤ i)%nat →
  buckets_ec_decode (Some ctx) chunks (Z.of_nat cs) dest = Undef.
Proof.
  intros Hinit Hdata Hsize Hcs Hcalc Hbufs Hlen He Hch Hdest Hm Hi Hki.
  destruct (init_ctx _ _ _ _ _ _ Hinit) as (Hk & _ & E1 & E2 & E3 & _).
  destruct (encode_code dm im el ctx data cs bufs) as (Hb & dc' & pc' & He' & Hcode); [done..|].
  rewrite He in He'. apply (inj Val), (inj Some) in He'.
  apply (f_equal (λ p, p.1 ++ p.2)) in He'. cbn [fst snd] in He'. rewrite He', Hcode in Hch.
  assert (length chunks = (k + m)%nat) as Hl
    by (rewrite (Forall2_length _ _ _ Hch); by rewrite length_fmap, length_seq).
  rewrite lost_missing, Hl in Hm.
  eapply decode_parity_undefined; try done; [lia|].
  apply list_elem_of_filter. split; [done|]. apply elem_of_seq.
  apply lookup_lt_Some in Hi. lia.
Qed.

(** ** An instance of the interface

    The reference arithmetic for two data chunks and one parity chunk: the generated matrix
    as ISA-L documents it, the inverse of a two-by-two matrix by its adjugate. *)

Definition gf_inv (x : Z) : Z :=
  default 0 (List.find (λ y, gf_mul x y =? 1) (Z.of_nat <$> seq 0 256)).

Definition cauchy_row (k i : nat) : list Z :=
  if decide (i < k)%nat then gf_unit k i
  else (λ j, gf_inv (Z.lxor (Z.of_nat i) (Z.of_nat j))) <$> seq 0 k.

Definition invert2 (a : list Z) (k : nat) : option (list Z) :=
  match a with
  | [a; b; c; d] =>
      let s := gf_inv (Z.lxor (gf_mul a d) (gf_mul b c)) in
      let inv := [gf_mul s d; gf_mul s b; gf_mul s c; gf_mul s a] in
      if decide (k = 2%nat ∧ gf_combine 2 (mat_row 2 inv 0) [[a; b]; [c; d]] = gf_unit 2 0 ∧
                 gf_combine 2 (mat_row 2 inv 1) [[a; b]; [c; d]] = gf_unit 2 1)
      then Some inv else None
  | _ => None
  end.

#[local] Instance isal_2_1 : ISAL := {|
  gf_gen_cauchy1_matrix rows k := concat (cauchy_row k <$> seq 0 rows);
  gf_invert_matrix := invert2;
  ec_init_tables _ _ a := a;
  ec_encode_data len k rows tables data :=
    (λ i, (λ b, gf_dot (mat_row k tables i) (column b data)) <$> seq 0 (Z.to_nat len))
      <$> seq 0 rows;
|}.

Lemma isal_2_1_invertible a b : (a < 3)%nat → (b < 3)%nat → a ≠ b →
  invert2 (concat (mat_row 2 (concat (cauchy_row 2 <$> seq 0 3)) <$> [a; b])) 2 ≠ None.
Proof.
  intros Ha Hb Hab.
  destruct a as [|[|[|]]]; try lia; destruct b as [|[|[|]]]; try lia; vm_compute; congruence.
Qed.

#[local] Instance isal_2_1_laws : ISALLaws 2 1.
Proof.
  split.
  - reflexivity.
  - assert (concat (cauchy_row 2 <$> seq 0 3) = [1; 0; 0; 1; 142; 244]) as E by (vm_compute; done).
    change (is_bytes (concat (cauchy_row 2 <$> seq 0 3))). rewrite E.
    repeat (constructor; [by unfold in_range|]). constructor.
  - intros [|[|i]] Hi; try lia; reflexivity.
  - intros rows Hnd Hl Hb. destruct rows as [|a [|b [|]]]; try done.
    apply NoDup_cons in Hnd as [Hab _]. apply Forall_cons in Hb as [Ha Hb].
    apply Forall_cons in Hb as [Hb _]. apply isal_2_1_invertible; [lia..|set_solver].
  - intros rows inv Hr Hl. destruct rows as [|r [|s [|]]]; try done.
    apply Forall_cons in Hr as [[Hr _] Hs]. apply Forall_cons in Hs as [[Hs _] _].
    destruct r as [|a [|b [|]]]; try done. destruct s as [|c [|d [|]]]; try done.
    change (gf_invert_matrix (concat [[a; b]; [c; d]]) 2) with (invert2 [a; b; c; d] 2).
    unfold invert2. cbv zeta. case_decide as Hd; [|done]. intros Hi. apply (inj Some) in Hi as <-.
    split; [done|]. intros [|[|i]] Hi; [apply Hd|apply Hd|lia].
  - intros. cbn [ec_encode_data isal_2_1]. by rewrite Nat2Z.id.
Qed.

Definition example_data : list Z := [72; 105; 33].
Definition example_bufs : list (list Z) := replicate 2 (replicate 16 255).
Definition example_ctx : ec_ctx := default (EcCtx 0 0 0 [] [] [] [] []) (buckets_ec_init [] [] [] 2 1).

Lemma erasure_recovers_lost_data_witness :
  ∃ dc pc, buckets_ec_encode (Some example_ctx) (Some example_data) 16 example_bufs
             = Val (Some (dc, pc)) ∧
    ∃ ctx', buckets_ec_decode (Some example_ctx) (None :: (Some <$> drop 1 (dc ++ pc))) 16 [0; 0; 0]
            = Val (0, Some ctx', Some <$> (dc ++ pc), example_data).
Proof.
  destruct (erasure_recovers_lost_data (k := 2) (m := 1) [] [] [] example_ctx example_data 16
    example_bufs) as (dc & pc & He & Hl & Hd).
  - reflexivity.
  - repeat (constructor; [by unfold in_range|]). constructor.
  - reflexivity.
  - done.
  - vm_compute. congruence.
  - reflexivity.
  - repeat (constructor; [reflexivity|]). constructor.
  - exists dc, pc. split; [exact He|].
    destruct (dc ++ pc) as [|c0 cs] eqn:E; [done|]. apply Hd.
    + constructor; [by left|]. clear. induction cs; csimpl; constructor; [by right|done].
    + reflexivity.
    + unfold lost. rewrite filter_cons_True by done. cbn [length].
      rewrite list_filter_none; [simpl; lia|].
      intros o Ho. apply list_elem_of_fmap in Ho as (c & -> & _). done.
    + intros [|i] Hi; [lia|]. simpl in Hi. rewrite list_lookup_fmap in Hi.
      destruct (drop 0 cs !! i); done.
Defined.

Lemma erasure_lost_parity_out_of_bounds_witness :
  ∃ dc pc, buckets_ec_encode (Some example_ctx) (Some example_data) 16 example_bufs
             = Val (Some (dc, pc)) ∧
    buckets_ec_decode (Some example_ctx) ((Some <$> take 2 (dc ++ pc)) ++ [None]) 16 [0; 0; 0]
      = Undef.
Proof.
  eexists _, _. split; [vm_compute; reflexivity|].
  eapply (erasure_lost_parity_out_of_bounds (k := 2) (m := 1) [] [] [] example_ctx example_data 16
    example_bufs _ _ _ _ 2).
  - reflexivity.
  - repeat (constructor; [by unfold in_range|]). constructor.
  - reflexivity.
  - done.
  - vm_compute. congruence.
  - reflexivity.
  - repeat (constructor; [reflexivity|]). constructor.
  - vm_compute. reflexivity.
  - repeat (constructor; [by (left + right)|]). constructor.
  - reflexivity.
  - vm_compute. lia.
  - reflexivity.
  - lia.
Defined.
