(* ===== verification/Layout.v ===== *)
(** * Storage layout (src/src/storage/layout.c)

    Where an object lives on a disk, and how it is cut: the hashed path of a key, the
    creation of its directory, the choice of the erasure configuration and of the chunk
    size. *)

From S2P Require Import Prelude CInt CString XXHash Galois Erasure.
From Stdlib Require Import Ascii.

Local Open Scope c_scope.

Definition BUCKETS_INLINE_THRESHOLD : Z := 512 * 1024.
Definition BUCKETS_MIN_CHUNK_SIZE : Z := 64 * 1024.
Definition BUCKETS_MAX_CHUNK_SIZE : Z := 512 * 1024 * 1024.

(** ** Paths *)

(** [%016lx] *)
Definition print_hex16 (z : Z) : string :=
  bytes_str ([56; 48; 40; 32; 24; 16; 8; 0] ≫= λ r, hex_byte (Z.land (Z.shiftr z r) 255)).

(** The seed is a constant of the code. *)
Definition buckets_compute_object_hash (object_key : string) : string :=
  print_hex16 (buckets_xxhash64 81985529216486895 (Some (str_bytes object_key))).

(** The key is cut to the 1023 characters of a buffer. *)
Definition object_key (bucket object : string) : string :=
  snprintf 1024 (bucket +:+ "/" +:+ object).

Definition buckets_compute_object_path (bucket object : string) (path_len : nat) : string :=
  let object_hash := buckets_compute_object_hash (object_key bucket object) in
  snprintf path_len (String.substring 0 2 object_hash +:+ "/" +:+ object_hash +:+ "/").

(** [%02x] of the top byte. *)
Definition buckets_compute_hash_prefix (hash : Z) : string :=
  bytes_str (hex_byte (Z.land (Z.shiftr hash 56) 255)).

Definition buckets_get_object_full_path (disk_path object_path : string) (len : nat) : string :=
  snprintf len (disk_path +:+ "/" +:+ object_path).

(** *** Directories

    [mkdir p] tells whether the call succeeds or finds the directory; the paths are those
    that [mkdir] is called with. *)

Definition strip_slash (s : string) : string :=
  match last_char s with
  | Some "/"%char => String.substring 0 (strlen s - 1) s
  | _ => s
  end.

(** The prefixes of [s] that end before a slash, [done] being what lies to the left. *)
Fixpoint slash_prefixes (done s : string) : list string :=
  match s with
  | EmptyString => []
  | String c s =>
      (if Ascii.eqb c "/" then [done] else []) ++ slash_prefixes (done +:+ String c "") s
  end.

(** The loop starts at the second character. *)
Definition dirs_to_create (path : string) : list string :=
  match path with
  | EmptyString => [EmptyString]
  | String c s => slash_prefixes (String c "") s ++ [path]
  end.

Fixpoint mkdir_all (mkdir : string → bool) (ps : list string) : Z * list string :=
  match ps with
  | [] => (0, [])
  | p :: ps =>
      if mkdir p then let (r, l) := mkdir_all mkdir ps in (r, p :: l) else (-1, [p])
  end.

Definition buckets_create_object_dir (mkdir : string → bool) (disk_path object_path : string)
    : Z * list string :=
  mkdir_all mkdir (dirs_to_create (strip_slash (snprintf (Z.to_nat 4096) (disk_path +:+ "/" +:+ object_path)))).

(** ** Sizes *)

Definition buckets_calculate_chunk_size (object_size : Z) (k : nat) : Z :=
  if (k =? 0)%nat then BUCKETS_MIN_CHUNK_SIZE
  else
    let chunk_size := buckets_ec_calc_chunk_size object_size k in
    let chunk_size := if chunk_size <? BUCKETS_MIN_CHUNK_SIZE then BUCKETS_MIN_CHUNK_SIZE
                      else chunk_size in
    if BUCKETS_MAX_CHUNK_SIZE <? chunk_size then BUCKETS_MAX_CHUNK_SIZE else chunk_size.

Definition buckets_should_inline_object (size : Z) : bool := size <? BUCKETS_INLINE_THRESHOLD.

Definition buckets_select_erasure_config (cluster_size : Z) : nat * nat :=
  if 20 <=? cluster_size then (16, 4)%nat
  else if 16 <=? cluster_size then (12, 4)%nat
  else if 12 <=? cluster_size then (8, 4)%nat
  else if 6 <=? cluster_size then (4, 2)%nat
  else (2, 1)%nat.

(** ** Lemmas *)

Lemma hex_byte_high_zero : ∀ b, is_u8 b → ∃ x y, hex_byte b = [x; y] ∧ 48 ≤ x < 103 ∧ 48 ≤ y < 103.
Proof.
  intros b [H0 H1]. change (2 ^ 8) with 256 in H1. eexists _, _. split; [reflexivity|].
  split; apply hex_digit_bounds; Z.to_euclidean_division_equations; lia.
Qed.

Lemma land_255_byte z : is_u8 (Z.land z 255).
Proof.
  change 255 with (Z.ones 8). rewrite Z.land_ones by lia. apply Z.mod_pos_bound. lia.
Qed.

Lemma print_hex16_bytes z :
  is_bytes ([56; 48; 40; 32; 24; 16; 8; 0] ≫= λ r, hex_byte (Z.land (Z.shiftr z r) 255)) ∧
  length ([56; 48; 40; 32; 24; 16; 8; 0] ≫= λ r, hex_byte (Z.land (Z.shiftr z r) 255)) = 16%nat.
Proof.
  split; [|done]. generalize [56; 48; 40; 32; 24; 16; 8; 0]. intros l.
  induction l as [|r l IH]; [constructor|].
  change ((r :: l) ≫= λ r, hex_byte (Z.land (Z.shiftr z r) 255))
    with (hex_byte (Z.land (Z.shiftr z r) 255) ++ (l ≫= λ r, hex_byte (Z.land (Z.shiftr z r) 255))).
  apply Forall_app. split; [|done]. apply hex_byte_is_bytes, land_255_byte.
Qed.

Lemma strlen_print_hex16 z : strlen (print_hex16 z) = 16%nat.
Proof.
  destruct (print_hex16_bytes z) as [Hb Hl]. unfold print_hex16.
  rewrite <- length_str_bytes, str_bytes_bytes_str by done. exact Hl.
Qed.

Lemma hex_digit_inj a b : 0 ≤ a < 16 → 0 ≤ b < 16 → hex_digit a = hex_digit b → a = b.
Proof. unfold hex_digit. intros. repeat case_match; breflect; lia. Qed.

Lemma hex_byte_inj a b : is_u8 a → is_u8 b → hex_byte a = hex_byte b → a = b.
Proof.
  intros [A0 A1] [B0 B1] H. change (2 ^ 8) with 256 in A1, B1. unfold hex_byte in H.
  injection H as H1 H2.
  apply hex_digit_inj in H1; [|Z.to_euclidean_division_equations; lia..].
  apply hex_digit_inj in H2; [|Z.to_euclidean_division_equations; lia..].
  Z.to_euclidean_division_equations. lia.
Qed.

(** The hexadecimal text determines the hash. *)
Lemma print_hex16_inj a b : is_u64 a → is_u64 b → print_hex16 a = print_hex16 b → a = b.
Proof.
  intros Ha Hb H. apply (f_equal str_bytes) in H. unfold print_hex16 in H.
  destruct (print_hex16_bytes a) as [Ba _], (print_hex16_bytes b) as [Bb _].
  rewrite !str_bytes_bytes_str in H by done.
  assert (∀ i, 0 ≤ i < 8 → Z.land (Z.shiftr a (8 * i)) 255 = Z.land (Z.shiftr b (8 * i)) 255) as Hi.
  { cbn [mbind list_bind app hex_byte] in H.
    injection H as H1 H2 H3 H4 H5 H6 H7 H8 H9 H10 H11 H12 H13 H14 H15 H16.
    intros i Hi. apply hex_byte_inj; [apply land_255_byte..|]. unfold hex_byte.
    assert (i ∈ [0; 1; 2; 3; 4; 5; 6; 7]) as Hin by (rewrite !elem_of_cons; lia).
    repeat (apply elem_of_cons in Hin as [->|Hin]); [..|set_solver];
      first [ exact (f_equal2 (λ x y, [x; y]) H1 H2) | exact (f_equal2 (λ x y, [x; y]) H3 H4)
            | exact (f_equal2 (λ x y, [x; y]) H5 H6) | exact (f_equal2 (λ x y, [x; y]) H7 H8)
            | exact (f_equal2 (λ x y, [x; y]) H9 H10) | exact (f_equal2 (λ x y, [x; y]) H11 H12)
            | exact (f_equal2 (λ x y, [x; y]) H13 H14) | exact (f_equal2 (λ x y, [x; y]) H15 H16) ]. }
  apply Z.bits_inj'. intros n Hn. destruct (decide (n < 64)).
  - specialize (Hi (n / 8) ltac:(Z.to_euclidean_division_equations; lia)).
    apply (f_equal (λ z, Z.testbit z (n mod 8))) in Hi.
    pose proof (Z.mod_pos_bound n 8 ltac:(lia)).
    change 255 with (Z.ones 8) in Hi. rewrite !Z.land_spec, !Z.ones_spec_low in Hi by lia.
    rewrite !Z.shiftr_spec, !andb_true_r in Hi by lia.
    by replace (n mod 8 + 8 * (n / 8)) with n in Hi by (Z.to_euclidean_division_equations; lia).
  - rewrite !(testbit_high 64) by (done || lia). done.
Qed.

Lemma substring_prefix n s : ∃ t, s = String.substring 0 n s +:+ t.
Proof.
  revert n. induction s as [|c s IH]; intros n; [by exists ""; destruct n|].
  destruct n as [|n]; [by exists (String c s)|]. destruct (IH n) as [t Ht]. exists t.
  cbn [String.substring]. change (String c s = String c (String.substring 0 n s +:+ t)). by rewrite <- Ht.
Qed.

(** The path never needs to be cut. *)
Lemma object_path_shape bucket object len :
  (20 < len)%nat →
  let h := buckets_compute_object_hash (object_key bucket object) in
  buckets_compute_object_path bucket object len = String.substring 0 2 h +:+ "/" +:+ h +:+ "/" ∧
  strlen (buckets_compute_object_path bucket object len) = 20%nat.
Proof.
  intros Hlen h. unfold buckets_compute_object_path. fold h.
  assert (strlen h = 16%nat) as Hh by apply strlen_print_hex16.
  assert (strlen (String.substring 0 2 h) = 2%nat) as Hp.
  { destruct h as [|a [|b h]]; try done. simpl. by destruct h. }
  assert (strlen (String.substring 0 2 h +:+ "/" +:+ h +:+ "/") = 20%nat) as Hs
    by (rewrite !strlen_app, Hp, Hh; done).
  rewrite snprintf_short by lia. done.
Qed.

Lemma string_app_inj_l s t u : s +:+ t = s +:+ u → t = u.
Proof.
  induction s as [|c s IH]; [done|].
  change (String c s +:+ t) with (String c (s +:+ t)). change (String c s +:+ u) with (String c (s +:+ u)).
  intros [= H]. by apply IH.
Qed.

(** Two objects share a path only when their keys have the same 64-bit hash. *)
Lemma object_path_inj b o b' o' len :
  (20 < len)%nat →
  buckets_compute_object_path b o len = buckets_compute_object_path b' o' len →
  buckets_xxhash64 81985529216486895 (Some (str_bytes (object_key b o)))
  = buckets_xxhash64 81985529216486895 (Some (str_bytes (object_key b' o'))).
Proof.
  intros Hlen. destruct (object_path_shape b o len Hlen) as [-> _].
  destruct (object_path_shape b' o' len Hlen) as [-> _].
  set (h := buckets_compute_object_hash (object_key b o)).
  set (h' := buckets_compute_object_hash (object_key b' o')). intros E.
  assert (strlen h = 16%nat ∧ strlen h' = 16%nat) as [Hl Hl'] by (split; apply strlen_print_hex16).
  assert (h = h') as Hh.
  { destruct h as [|a [|b0 h]]; try done. destruct h' as [|a' [|b0' h']]; try done.
    assert (String.substring 0 2 (String a (String b0 h)) = String a (String b0 "")) as E1 by (by destruct h).
    assert (String.substring 0 2 (String a' (String b0' h')) = String a' (String b0' "")) as E2 by (by destruct h').
    rewrite E1, E2 in E. clear E1 E2.
    assert (h +:+ "/" = h' +:+ "/") as E3.
    { change (String a (String b0 (String "/" (String a (String b0 (h +:+ "/"))))) =
        String a' (String b0' (String "/" (String a' (String b0' (h' +:+ "/")))))) in E. by injection E. }
    change (String a (String b0 (String "/" (String a (String b0 (h +:+ "/"))))) =
        String a' (String b0' (String "/" (String a' (String b0' (h' +:+ "/")))))) in E.
    injection E as <- <- _. f_equal. f_equal. clear -E3. revert h' E3.
    induction h as [|c h IH]; intros [|c' h'] E; try done.
    - change (String "/" "" = String c' (h' +:+ "/")) in E. injection E as _ E. by destruct h'.
    - change (String c (h +:+ "/") = String "/" "") in E. injection E as _ E. by destruct h.
    - change (String c (h +:+ "/") = String c' (h' +:+ "/")) in E. injection E as -> E. f_equal. by apply IH. }
  apply print_hex16_inj; [apply xxhash64_range..|exact Hh].
Qed.

Lemma chunk_size_ok size k :
  (0 < k ≤ BUCKETS_EC_MAX_DATA)%nat → 0 ≤ size ≤ Z.of_nat k * BUCKETS_MAX_CHUNK_SIZE →
  let cs := buckets_calculate_chunk_size size k in
  0 < cs < 2 ^ 31 ∧ cs mod 16 = 0 ∧ buckets_ec_calc_chunk_size size k ≤ cs.
Proof.
  intros Hk Hs. unfold BUCKETS_MAX_CHUNK_SIZE in Hs. pose proof Hk as Hk'. unfold BUCKETS_EC_MAX_DATA in Hk'.
  destruct (calc_chunk_size_spec size k Hk) as (H16 & Hlo & Hhi); [lia|].
  assert (bytes_per_chunk size k ≤ 512 * 1024 * 1024) as Hb.
  { unfold bytes_per_chunk. rewrite u64_small by (unfold in_range; lia).
    apply Z.lt_succ_r, Z.div_lt_upper_bound; lia. }
  assert (0 ≤ bytes_per_chunk size k).
  { unfold bytes_per_chunk. rewrite u64_small by (unfold in_range; lia). apply Z.div_pos; lia. }
  set (c := buckets_ec_calc_chunk_size size k) in *.
  assert (c ≤ 512 * 1024 * 1024) as Hc by (Z.to_euclidean_division_equations; lia).
  unfold buckets_calculate_chunk_size, BUCKETS_MIN_CHUNK_SIZE, BUCKETS_MAX_CHUNK_SIZE.
  rewrite (proj2 (Nat.eqb_neq k 0)) by lia. fold c. cbv zeta.
  destruct (Z.ltb_spec c (64 * 1024)).
  - rewrite (proj2 (Z.ltb_ge _ _)) by lia. split_and!; lia || done.
  - rewrite (proj2 (Z.ltb_ge _ _)) by lia. split_and!; lia || done.
Qed.

(** ** Properties *)

(** The erasure configuration fits the cluster: with at least three disks the chosen
    configuration is valid and has no more chunks than there are disks. *)
Theorem erasure_config_fits cluster_size k m :
  3 ≤ cluster_size → buckets_select_erasure_config cluster_size = (k, m) →
  buckets_ec_validate_config k m = true ∧ Z.of_nat (k + m) ≤ cluster_size.
Proof.
  intros Hc. unfold buckets_select_erasure_config.
  repeat (split_if; [intros [= <- <-]; split; [done|lia]|]). intros [= <- <-]. split; [done|lia].
Qed.

Lemma erasure_config_fits_witness :
  buckets_ec_validate_config 8 4 = true ∧ Z.of_nat (8 + 4) ≤ 13.
Proof. apply (erasure_config_fits 13 8 4); [lia|reflexivity]. Defined.

(** On one or two disks the configuration has three chunks. *)
Lemma erasure_config_too_wide :
  buckets_select_erasure_config 2 = (2, 1)%nat ∧ ¬ Z.of_nat (2 + 1) ≤ 2.
Proof. split; [reflexivity|lia]. Qed.

(** The chunk size suits the encoder: for an object of at most [k] times 512 MiB it is
    positive, fits an [int], is a multiple of 16 and is not less than what the encoder
    requires. *)
Theorem chunk_size_accepted size k :
  (0 < k ≤ BUCKETS_EC_MAX_DATA)%nat → 0 ≤ size ≤ Z.of_nat k * BUCKETS_MAX_CHUNK_SIZE →
  let cs := buckets_calculate_chunk_size size k in
  0 < cs < 2 ^ 31 ∧ cs mod 16 = 0 ∧ buckets_ec_calc_chunk_size size k ≤ cs.
Proof. exact (chunk_size_ok size k). Qed.

Lemma chunk_size_accepted_witness :
  0 < buckets_calculate_chunk_size 1000000 8 < 2 ^ 31 ∧
  buckets_calculate_chunk_size 1000000 8 mod 16 = 0 ∧
  buckets_ec_calc_chunk_size 1000000 8 ≤ buckets_calculate_chunk_size 1000000 8.
Proof. apply (chunk_size_accepted 1000000 8); unfold BUCKETS_EC_MAX_DATA, BUCKETS_MAX_CHUNK_SIZE; lia. Defined.

(** A larger object gets chunks that the encoder refuses. *)
Lemma chunk_size_large_refused :
  buckets_calculate_chunk_size (5 * 1024 * 1024 * 1024) 8
  < buckets_ec_calc_chunk_size (5 * 1024 * 1024 * 1024) 8.
Proof. vm_compute. reflexivity. Qed.

(** Only the first 1023 characters of a key count. *)
Lemma long_keys_share_path bucket o1 o2 len :
  String.substring 0 1023 (bucket +:+ "/" +:+ o1) = String.substring 0 1023 (bucket +:+ "/" +:+ o2) →
  buckets_compute_object_path bucket o1 len = buckets_compute_object_path bucket o2 len.
Proof.
  intros E. unfold buckets_compute_object_path, object_key, snprintf.
  change (1024 - 1)%nat with 1023%nat. by rewrite E.
Qed.
