(* ===== verification/Endpoint.v ===== *)
(** * Endpoints (src/src/cluster/endpoint.c)

    Parsing, printing and comparing the URLs and paths of disks, the expansion of ranges
    such as [{1...4}], and the division of the endpoints into erasure sets. *)

From S2P Require Import Prelude CInt CString CSearch.
From Stdlib Require Import Ascii.

Local Open Scope c_scope.

(** ** Data *)

Inductive endpoint_type := BUCKETS_ENDPOINT_TYPE_PATH | BUCKETS_ENDPOINT_TYPE_URL.

#[export] Instance endpoint_type_eq_dec : EqDecision endpoint_type.
Proof. solve_decision. Defined.

(** A NULL pointer is [None]. *)
Record buckets_endpoint := Endpoint {
  ep_original : string;
  ep_type : endpoint_type;
  ep_scheme : option string;
  ep_host : option string;
  ep_port : Z;
  ep_path : option string;
  ep_is_local : bool;
  ep_pool_idx : Z;
  ep_set_idx : Z;
  ep_disk_idx : Z
}.

Inductive pattern_range :=
  | RangeNumeric (start end_ : Z)
  | RangeAlpha (start end_ : ascii).

Record expansion_pattern := Pattern {
  pat_prefix : string;
  pat_suffix : string;
  pat_range : pattern_range
}.

(** The use of a pointer as a string. *)
Definition deref {A} (p : option A) : c_result A :=
  match p with Some a => Val a | None => Undef end.

(** ** One endpoint *)

Definition parse_port (s : string) : Z :=
  let (port, rest) := strtol s in
  if negb (String.eqb rest "") || (port <? 1) || (65535 <? port) then -1 else port.

(** The host and port of [host_port]; [None]: an error. *)
Definition parse_host_port (host_port : string) : option (string * Z) :=
  match host_port with
  | String "[" _ =>
      match strchr host_port "]" with
      | None => None
      | Some (before, after) =>
          let host := str_drop 1 before in
          match str_drop 1 after with
          | String ":" p => let port := parse_port p in if port <? 0 then None else Some (host, port)
          | _ => Some (host, 0)
          end
      end
  | _ =>
      match strchr host_port ":" with
      | Some (host, after) =>
          let port := parse_port (str_drop 1 after) in
          if port <? 0 then None else Some (host, port)
      | None => Some (host_port, 0)
      end
  end.

Definition parse_url_endpoint (s : string) : option buckets_endpoint :=
  match (if starts_with s "https://" then Some ("https", str_drop 8 s)
         else if starts_with s "http://" then Some ("http", str_drop 7 s)
         else None) with
  | None => None
  | Some (scheme, rest) =>
      let (host_port, path) :=
        match strchr rest "/" with None => (rest, "/") | Some (b, r) => (b, r) end in
      match parse_host_port host_port with
      | None => None
      | Some (host, port) =>
          if String.eqb host "" then None
          else Some (Endpoint s BUCKETS_ENDPOINT_TYPE_URL (Some scheme) (Some host) port (Some path)
                       false (-1) (-1) (-1))
      end
  end.

Definition parse_path_endpoint (s : string) : option buckets_endpoint :=
  if String.eqb s "" || String.eqb s "/" || String.eqb s "\" then None
  else Some (Endpoint s BUCKETS_ENDPOINT_TYPE_PATH None None 0 (Some s) true (-1) (-1) (-1)).

Definition buckets_endpoint_parse (endpoint_str : option string) : option buckets_endpoint :=
  match endpoint_str with
  | None => None
  | Some s =>
      if String.eqb s "" then None
      else if starts_with s "http://" || starts_with s "https://" then parse_url_endpoint s
      else match strstr s "://" with
           | Some _ => None
           | None => parse_path_endpoint s
           end
  end.

Definition is_root (path : string) : bool := String.eqb path "/" || String.eqb path "\".

Definition absolute (path : string) : bool :=
  match path with String c _ => bool_decide (c = "/"%char) || bool_decide (c = "\"%char) | "" => false end.

Definition validate_url (ep : buckets_endpoint) : buckets_error_t :=
  match ep_scheme ep with
  | Some s =>
      if negb (String.eqb s "http") && negb (String.eqb s "https") then BUCKETS_ERR_INVALID_ARG
      else match ep_host ep with
           | None | Some "" => BUCKETS_ERR_INVALID_ARG
           | Some _ => BUCKETS_OK
           end
  | None => BUCKETS_ERR_INVALID_ARG
  end.

Definition buckets_endpoint_validate (ep : option buckets_endpoint) : buckets_error_t :=
  match ep with
  | None => BUCKETS_ERR_INVALID_ARG
  | Some ep =>
      match ep_path ep with
      | None | Some "" => BUCKETS_ERR_INVALID_ARG
      | Some path =>
          match ep_type ep with
          | BUCKETS_ENDPOINT_TYPE_URL => validate_url ep
          | BUCKETS_ENDPOINT_TYPE_PATH =>
              if negb (absolute path) then BUCKETS_ERR_INVALID_ARG
              else if is_root path then BUCKETS_ERR_INVALID_ARG
              else BUCKETS_OK
          end
      end
  end.

Definition buckets_endpoint_to_string (ep : buckets_endpoint) : c_result string :=
  match ep_type ep with
  | BUCKETS_ENDPOINT_TYPE_PATH => deref (ep_path ep)
  | BUCKETS_ENDPOINT_TYPE_URL =>
      let* scheme := deref (ep_scheme ep) in
      let* host := deref (ep_host ep) in
      let* path := deref (ep_path ep) in
      if 0 <? ep_port ep
      then Val (scheme +:+ "://" +:+ host +:+ ":" +:+ pretty (Z.to_N (ep_port ep)) +:+ path)
      else Val (scheme +:+ "://" +:+ host +:+ path)
  end.

Definition same_place (a b : buckets_endpoint) : bool :=
  Bool.eqb (ep_is_local a) (ep_is_local b) && (ep_pool_idx a =? ep_pool_idx b) &&
  (ep_set_idx a =? ep_set_idx b) && (ep_disk_idx a =? ep_disk_idx b).

Definition buckets_endpoint_equal (ep1 ep2 : option buckets_endpoint) : c_result bool :=
  match ep1, ep2 with
  | Some a, Some b =>
      if negb (bool_decide (ep_type a = ep_type b)) then Val false
      else
        let* pa := deref (ep_path a) in
        let* pb := deref (ep_path b) in
        if negb (strcmp_eq pa pb) then Val false
        else match ep_type a with
             | BUCKETS_ENDPOINT_TYPE_URL =>
                 let* ha := deref (ep_host a) in
                 let* hb := deref (ep_host b) in
                 if negb (strcmp_eq ha hb) then Val false
                 else if negb (ep_port a =? ep_port b) then Val false
                 else Val (same_place a b)
             | BUCKETS_ENDPOINT_TYPE_PATH => Val (same_place a b)
             end
  | _, _ => Val false
  end.

(** [gethostname] is an argument: [None] when it fails. *)
Definition buckets_endpoint_is_local (hostname : option string) (ep : option buckets_endpoint) : bool :=
  match ep with
  | None => false
  | Some ep =>
      match ep_type ep, ep_host ep with
      | BUCKETS_ENDPOINT_TYPE_PATH, _ => true
      | _, None => false
      | _, Some h =>
          existsb (String.eqb h) ["localhost"; "127.0.0.1"; "::1"; "0.0.0.0"; "::"] ||
          match hostname with Some n => String.eqb h n | None => false end
      end
  end.

(** ** Ranges *)

(** The text before the first brace, between it and the next three dots, between these and
    the next closing brace, and after that. *)
Definition find_ellipses (s : string) : option (string * string * string * string) :=
  match strchr s "{" with
  | None => None
  | Some (prefix, open) =>
      match strstr (str_drop 1 open) "..." with
      | None => None
      | Some (start_str, dots) =>
          match strchr (str_drop 3 dots) "}" with
          | None => None
          | Some (end_str, close) => Some (prefix, start_str, end_str, str_drop 1 close)
          end
      end
  end.

Definition buckets_endpoint_has_ellipses (s : option string) : bool :=
  match s with
  | None => false
  | Some s => match find_ellipses s with Some _ => true | None => false end
  end.

Definition char_code (c : ascii) : Z := Z.of_N (N_of_ascii c).
Definition isalpha (c : ascii) : bool :=
  let n := char_code c in ((65 <=? n) && (n <=? 90)) || ((97 <=? n) && (n <=? 122)).

Definition numeric_start (s : string) : bool :=
  match s with
  | String c _ => match digit_value c with Some _ => true | None => bool_decide (c = "-"%char) end
  | "" => false
  end.

Definition buckets_expansion_pattern_parse (s : option string)
    : c_result (option expansion_pattern) :=
  match s with
  | None => Val None
  | Some s =>
      match find_ellipses s with
      | None => Val None
      | Some (prefix, start_str, end_str, suffix) =>
          if numeric_start start_str then
            let* a := atoll start_str in
            let* b := atoll end_str in
            if b <? a then Val None else Val (Some (Pattern prefix suffix (RangeNumeric a b)))
          else
            match start_str, end_str with
            | String a "", String b "" =>
                if negb (isalpha a) || negb (isalpha b) then Val None
                else if char_code b <? char_code a then Val None
                else Val (Some (Pattern prefix suffix (RangeAlpha a b)))
            | _, _ => Val None
            end
      end
  end.

(** The number of strings a pattern stands for. *)
Definition range_count (r : pattern_range) : c_result Z :=
  match r with
  | RangeNumeric a b => let* d := i64c (b - a) in i64c (d + 1)
  | RangeAlpha a b => Val (char_code b - char_code a + 1)
  end.

Definition range_value (r : pattern_range) (i : nat) : c_result string :=
  match r with
  | RangeNumeric a _ => let* v := i64c (a + Z.of_nat i) in Val (pretty v)
  | RangeAlpha a _ => Val (String (ascii_of_N (Z.to_N (char_code a + Z.of_nat i))) "")
  end.

(** [for (i = 0; i < n; i++)], from [i] on. *)
Fixpoint expand_loop (p : expansion_pattern) (i n : nat) : c_result (list string) :=
  match n with
  | O => Val []
  | S n =>
      let* v := range_value (pat_range p) i in
      let* rest := expand_loop p (S i) n in
      Val ((pat_prefix p +:+ v +:+ pat_suffix p) :: rest)
  end.

Definition buckets_expansion_pattern_expand (p : expansion_pattern) : c_result (list string) :=
  let* count := range_count (pat_range p) in
  expand_loop p 0 (Z.to_nat count).

(** ** Lists of endpoints *)

Record buckets_endpoints := Endpoints {
  eps_endpoints : list buckets_endpoint;
  eps_count : Z
}.

(** First pass: the number of endpoints; [None]: a bad pattern. *)
Fixpoint count_endpoints (total : Z) (args : list (option string)) : c_result (option Z) :=
  match args with
  | [] => Val (Some total)
  | arg :: args =>
      if buckets_endpoint_has_ellipses arg then
        let* p := buckets_expansion_pattern_parse arg in
        match p with
        | None => Val None
        | Some p => let* n := range_count (pat_range p) in count_endpoints (u64 (total + n)) args
        end
      else count_endpoints (u64 (total + 1)) args
  end.

(** [endpoints->endpoints[idx++] = *ep] in an array of [total] elements. *)
Definition append_endpoint (total : Z) (acc : list buckets_endpoint) (ep : buckets_endpoint)
    : c_result (list buckets_endpoint) :=
  if Z.of_nat (length acc) <? total then Val (acc ++ [ep]) else Undef.

(** The expanded strings of one argument. *)
Fixpoint parse_strings (total : Z) (acc : list buckets_endpoint) (ss : list string)
    : c_result (option (list buckets_endpoint)) :=
  match ss with
  | [] => Val (Some acc)
  | s :: ss =>
      match buckets_endpoint_parse (Some s) with
      | None => Val None
      | Some ep => let* acc := append_endpoint total acc ep in parse_strings total acc ss
      end
  end.

(** Second pass. *)
Fixpoint parse_args (total : Z) (acc : list buckets_endpoint) (args : list (option string))
    : c_result (option (list buckets_endpoint)) :=
  match args with
  | [] => Val (Some acc)
  | arg :: args =>
      if buckets_endpoint_has_ellipses arg then
        let* p := buckets_expansion_pattern_parse arg in
        match p with
        | None => Val None
        | Some p =>
            let* ss := buckets_expansion_pattern_expand p in
            let* r := parse_strings total acc ss in
            match r with None => Val None | Some acc => parse_args total acc args end
        end
      else
        match buckets_endpoint_parse arg with
        | None => Val None
        | Some ep => let* acc := append_endpoint total acc ep in parse_args total acc args
        end
  end.

Definition buckets_endpoints_parse (args : option (list (option string)))
    : c_result (option buckets_endpoints) :=
  match args with
  | None | Some [] => Val None
  | Some args =>
      let* total := count_endpoints 0 args in
      match total with
      | None => Val None
      | Some total =>
          let* r := parse_args total [] args in
          match r with
          | None => Val None
          | Some l => Val (Some (Endpoints l total))
          end
      end
  end.

(** ** Erasure sets

    A set holds pointers into the array of endpoints, whose indices are assigned through
    them. *)

Definition assign_place (i j : nat) (ep : buckets_endpoint) : buckets_endpoint :=
  Endpoint (ep_original ep) (ep_type ep) (ep_scheme ep) (ep_host ep) (ep_port ep) (ep_path ep)
    (ep_is_local ep) (ep_pool_idx ep) (to_int (Z.of_nat i)) (to_int (Z.of_nat j)).

(** Disk [j] of set [i], and [n - 1] more: the pointers and the array. *)
Fixpoint fill_set (i j n dps : nat) (eps : list buckets_endpoint)
    : c_result (list nat * list buckets_endpoint) :=
  match n with
  | O => Val ([], eps)
  | S n =>
      let idx := (i * dps + j)%nat in
      let* ep := c_read eps idx in
      let* r := fill_set i (S j) n dps (<[idx := assign_place i j ep]> eps) in
      Val (idx :: r.1, r.2)
  end.

Fixpoint fill_sets (i n dps : nat) (eps : list buckets_endpoint)
    : c_result (list (list nat) * list buckets_endpoint) :=
  match n with
  | O => Val ([], eps)
  | S n =>
      let* s := fill_set i 0 dps dps eps in
      let* r := fill_sets (S i) n dps s.2 in
      Val (s.1 :: r.1, r.2)
  end.

(** [None]: an error, and the array is unchanged. *)
Definition buckets_endpoints_to_sets (eps : list buckets_endpoint) (dps : nat)
    : c_result (option (list (list nat)) * list buckets_endpoint) :=
  if (dps =? 0)%nat then Val (None, eps)
  else if negb (length eps mod dps =? 0)%nat then Val (None, eps)
  else
    let* r := fill_sets 0 (length eps / dps) dps eps in
    Val (Some r.1, r.2).

(** *** Examples *)

Example parse_url :
  buckets_endpoint_parse (Some "https://[::1]:9000/d") =
    Some (Endpoint "https://[::1]:9000/d" BUCKETS_ENDPOINT_TYPE_URL (Some "https") (Some "::1") 9000
            (Some "/d") false (-1) (-1) (-1)).
Proof. reflexivity. Qed.

Example expand_alpha :
  (let* p := buckets_expansion_pattern_parse (Some "/mnt/disk{a...c}/x") in
   match p with Some p => buckets_expansion_pattern_expand p | None => Undef end) =
    Val ["/mnt/diska/x"; "/mnt/diskb/x"; "/mnt/diskc/x"].
Proof. reflexivity. Qed.

(** ** Parsing and printing *)

Lemma strtol_read s v rest : read_number s = (v, rest) → is_i64 v → strtol s = (v, rest).
Proof. intros E Hv. unfold strtol. rewrite E. unfold is_i64, LONG_MIN, LONG_MAX in *. f_equal. lia. Qed.

Lemma parse_port_pretty n : 1 ≤ n ≤ 65535 → parse_port (pretty (Z.to_N n)) = n.
Proof.
  intros Hn. unfold parse_port. rewrite (strtol_read _ n "").
  - simpl. rewrite (proj2 (Z.ltb_ge _ _)), (proj2 (Z.ltb_ge _ _)) by lia. done.
  - pose proof (read_number_pretty (Z.to_N n) "") as E. rewrite string_app_nil_r in E.
    rewrite E by done. by rewrite Z2N.id by lia.
  - unfold is_i64. lia.
Qed.

Lemma parse_port_range s : parse_port s = -1 ∨ 1 ≤ parse_port s ≤ 65535.
Proof.
  unfold parse_port. destruct (strtol s) as [p r].
  destruct (negb _ || (p <? 1) || (65535 <? p)) eqn:E; [by left|]. breflect. lia.
Qed.

(** A host without a bracket at its start. *)
Lemma host_port_plain hp :
  no_char "[" hp →
  parse_host_port hp =
    match strchr hp ":" with
    | Some (host, after) =>
        let port := parse_port (str_drop 1 after) in if port <? 0 then None else Some (host, port)
    | None => Some (hp, 0)
    end.
Proof.
  destruct hp as [|c hp]; [done|]. rewrite no_char_cons. intros [Hc _].
  by destruct c as [[] [] [] [] [] [] [] []].
Qed.

(** What the address part of a URL yields. *)
Lemma host_port_inv hp host port :
  parse_host_port hp = Some (host, port) → no_char "/" hp →
  no_char "/" host ∧ 0 ≤ port ≤ 65535.
Proof.
  intros Hp Hs. unfold parse_host_port in Hp.
  assert (∀ p r, (if parse_port p <? 0 then None else Some (r, parse_port p)) = Some (host, port) →
            host = r ∧ 0 ≤ port ≤ 65535) as Hport.
  { intros p r. destruct (parse_port_range p) as [->|?]; [done|].
    destruct (Z.ltb_spec (parse_port p) 0); [done|]. intros [= <- <-]. split; [done|lia]. }
  assert (∀ c b a, strchr hp c = Some (b, a) → no_char "/" b) as Hpre.
  { intros c b a (t & -> & -> & _)%strchr_Some. by apply no_char_app in Hs as [? _]. }
  assert (∀ c b a, strchr hp c = Some (b, a) → no_char "/" (str_drop 1 b)) as Hpre1.
  { intros c b a Hb%Hpre. destruct b as [|d b]; [done|]. by apply no_char_cons in Hb as [_ ?]. }
  assert (match strchr hp ":" with
          | Some (h, after) =>
              let port := parse_port (str_drop 1 after) in
              if port <? 0 then None else Some (h, port)
          | None => Some (hp, 0)
          end = Some (host, port) → no_char "/" host ∧ 0 ≤ port ≤ 65535) as Hplain.
  { destruct (strchr hp ":") as [[h a]|] eqn:E.
    - intros [-> ?]%Hport. split; [by eapply Hpre|done].
    - intros [= <- <-]. split; [done|lia]. }
  destruct hp as [|c hp]; [by apply Hplain|].
  destruct (decide (c = "["%char)) as [->|Hc].
  - destruct (strchr (String "[" hp) "]") as [[b a]|] eqn:E; [|done].
    assert (∀ h, Some (str_drop 1 b, 0) = Some (host, port) ∨
              (if parse_port h <? 0 then None else Some (str_drop 1 b, parse_port h)) = Some (host, port) →
              no_char "/" host ∧ 0 ≤ port ≤ 65535) as Hboth.
    { intros h [[= <- <-]|[-> ?]%Hport]; (split; [by eapply Hpre1|lia || done]). }
    destruct (str_drop 1 a) as [|d r]; [by apply (Hboth ""); left|].
    destruct d as [[] [] [] [] [] [] [] []]; try (by apply (Hboth ""); left). apply (Hboth r). by right.
  - apply Hplain. by destruct c as [[] [] [] [] [] [] [] []].
Qed.

Definition http_scheme (s : string) : Prop := s = "http" ∨ s = "https".

Lemma starts_with_nil s : starts_with s "" = true.
Proof. by destruct s. Qed.

(** The parse of a URL in its parts. *)
Lemma parse_url_parts scheme hp path :
  http_scheme scheme → no_char "/" hp →
  let s := scheme +:+ "://" +:+ hp +:+ String "/" path in
  buckets_endpoint_parse (Some s) =
    match parse_host_port hp with
    | None => None
    | Some (host, port) =>
        if String.eqb host "" then None
        else Some (Endpoint s BUCKETS_ENDPOINT_TYPE_URL (Some scheme) (Some host) port
                     (Some (String "/" path)) false (-1) (-1) (-1))
    end.
Proof.
  intros Hs Hhp s. unfold s. clear s. pose proof (strchr_app "/" hp path Hhp) as Hc.
  destruct Hs as [->| ->]; unfold buckets_endpoint_parse, parse_url_endpoint; simpl;
    set (rest := hp +:+ String "/" path) in *; change ("" +:+ rest) with rest;
    rewrite starts_with_nil; simpl; rewrite Hc; reflexivity.
Qed.

Definition parsed_url (ep : buckets_endpoint) (scheme host path : string) : Prop :=
  http_scheme scheme ∧ host ≠ "" ∧ no_char "/" host ∧ 0 ≤ ep_port ep ≤ 65535 ∧
  ep = Endpoint (ep_original ep) BUCKETS_ENDPOINT_TYPE_URL (Some scheme) (Some host) (ep_port ep)
         (Some (String "/" path)) false (-1) (-1) (-1).

Lemma parse_url_inv s ep :
  parse_url_endpoint s = Some ep → ∃ scheme host path, parsed_url ep scheme host path.
Proof.
  unfold parse_url_endpoint.
  assert (∀ scheme rest, http_scheme scheme →
    (let (host_port, path) :=
       match strchr rest "/" with None => (rest, "/") | Some (b, r) => (b, r) end in
     match parse_host_port host_port with
     | None => None
     | Some (host, port) =>
         if String.eqb host "" then None
         else Some (Endpoint s BUCKETS_ENDPOINT_TYPE_URL (Some scheme) (Some host) port (Some path)
                      false (-1) (-1) (-1))
     end) = Some ep → ∃ scheme host path, parsed_url ep scheme host path) as Hrest.
  { intros scheme rest Hsch.
    assert (∃ hp path, match strchr rest "/" with None => (rest, "/") | Some (b, r) => (b, r) end
              = (hp, String "/" path) ∧ no_char "/" hp) as (hp & path & -> & Hhp).
    { destruct (strchr rest "/") as [[b r]|] eqn:E.
      - destruct (strchr_Some _ _ _ _ E) as (t & -> & _ & Hb). by exists b, t.
      - by exists rest, "". }
    destruct (parse_host_port hp) as [[host port]|] eqn:Ehp; [|done].
    destruct (String.eqb_spec host "") as [|Hne]; [done|]. intros [= <-].
    destruct (host_port_inv _ _ _ Ehp Hhp) as [? ?]. exists scheme, host, path. done. }
  destruct (starts_with s "https://"); [apply Hrest; by right|].
  destruct (starts_with s "http://"); [apply Hrest; by left|done].
Qed.

(** Everything that can be parsed. *)
Lemma endpoint_parse_inv s ep :
  buckets_endpoint_parse (Some s) = Some ep →
  (∃ scheme host path, parsed_url ep scheme host path) ∨
  (ep = Endpoint s BUCKETS_ENDPOINT_TYPE_PATH None None 0 (Some s) true (-1) (-1) (-1) ∧
   s ≠ "" ∧ is_root s = false).
Proof.
  unfold buckets_endpoint_parse. destruct (String.eqb_spec s "") as [|Hne]; [done|].
  destruct (starts_with s "http://" || starts_with s "https://"); [left; by apply parse_url_inv with s|].
  destruct (strstr s "://"); [done|]. unfold parse_path_endpoint, is_root.
  destruct (String.eqb_spec s ""); [done|]. simpl.
  destruct (String.eqb s "/" || String.eqb s "\"); [done|]. intros [= <-]. by right.
Qed.

(** What is printed for a URL is parsed to an endpoint that is equal to it. *)
Lemma url_roundtrip ep scheme host path :
  parsed_url ep scheme host path → no_char ":" host → no_char "[" host →
  ∃ t, buckets_endpoint_to_string ep = Val t ∧
    buckets_endpoint_parse (Some t) =
      Some (Endpoint t BUCKETS_ENDPOINT_TYPE_URL (Some scheme) (Some host) (ep_port ep)
              (Some (String "/" path)) false (-1) (-1) (-1)).
Proof.
  intros (Hs & Hne & Hsl & Hp & ->) Hc Hb. cbn [ep_port] in *. unfold buckets_endpoint_to_string.
  cbn [ep_type ep_scheme ep_host ep_path ep_port deref c_bind].
  set (port := ep_port ep) in *. apply String.eqb_neq in Hne.
  destruct (Z.ltb_spec 0 port) as [Hpos|Hz].
  - eexists. split; [done|].
    assert (no_char "/" (host +:+ ":" +:+ pretty (Z.to_N port)) ∧
            no_char "[" (host +:+ ":" +:+ pretty (Z.to_N port))) as [H1 H2].
    { rewrite !no_char_app. split_and!; try done; by apply no_char_pretty. }
    pose proof (parse_url_parts scheme _ path Hs H1) as E. rewrite !string_app_assoc in E.
    cbn zeta in E. rewrite E. clear E. rewrite host_port_plain by done.
    change (":" +:+ pretty (Z.to_N port)) with (String ":" (pretty (Z.to_N port))).
    rewrite strchr_app by done. simpl str_drop. rewrite parse_port_pretty by lia.
    cbn zeta. rewrite (proj2 (Z.ltb_ge _ _)) by lia. by rewrite Hne.
  - eexists. split; [done|]. pose proof (parse_url_parts scheme _ path Hs Hsl) as E.
    cbn zeta in E. rewrite E. clear E. rewrite host_port_plain by done.
    unfold no_char in Hc. rewrite Hc, Hne. do 3 f_equal. lia.
Qed.

Lemma equal_refl_fields ep ep' :
  (ep_type ep, ep_host ep, ep_port ep, ep_path ep) =
    (ep_type ep', ep_host ep', ep_port ep', ep_path ep') →
  (ep_is_local ep, ep_pool_idx ep, ep_set_idx ep, ep_disk_idx ep) =
    (ep_is_local ep', ep_pool_idx ep', ep_set_idx ep', ep_disk_idx ep') →
  is_Some (ep_path ep) → (ep_type ep = BUCKETS_ENDPOINT_TYPE_URL → is_Some (ep_host ep)) →
  buckets_endpoint_equal (Some ep) (Some ep') = Val true.
Proof.
  destruct ep, ep'. simpl. intros [= -> -> -> ->] [= -> -> -> ->] [p ->] Hh.
  assert (∀ s, strcmp_eq s s = true) as Hs by (intros; by apply bool_decide_eq_true_2).
  unfold same_place. simpl. rewrite bool_decide_eq_true_2, Hs by done. simpl.
  rewrite !Z.eqb_refl, Bool.eqb_reflx. destruct ep_type1; [done|].
  destruct (Hh eq_refl) as [h ->]. simpl. by rewrite Hs.
Qed.

(** ** Ranges *)

(** The dots cannot start inside a printed number. *)
Lemma find_ellipses_range prefix a b suffix :
  no_char "{" prefix → no_char "." a → no_char "}" b →
  find_ellipses (prefix +:+ "{" +:+ a +:+ "..." +:+ b +:+ "}" +:+ suffix) = Some (prefix, a, b, suffix).
Proof.
  intros Hp Ha Hb. unfold find_ellipses.
  change ("{" +:+ a +:+ "..." +:+ b +:+ "}" +:+ suffix)
    with (String "{" (a +:+ "..." +:+ b +:+ "}" +:+ suffix)).
  rewrite strchr_app by done.
  change (str_drop 1 (String "{" (a +:+ "..." +:+ b +:+ "}" +:+ suffix)))
    with (a +:+ "..." +:+ b +:+ "}" +:+ suffix).
  pose proof (strstr_app a "." ".." (b +:+ "}" +:+ suffix) Ha) as Hd.
  change (String "." (".." +:+ b +:+ "}" +:+ suffix)) with ("..." +:+ b +:+ "}" +:+ suffix) in Hd.
  rewrite Hd. change (str_drop 3 ("..." +:+ b +:+ "}" +:+ suffix)) with (b +:+ String "}" suffix).
  rewrite strchr_app by done. done.
Qed.

Lemma atoll_pretty (n : N) : Z.of_N n < 2 ^ 63 → atoll (pretty n) = Val (Z.of_N n).
Proof.
  intros Hn. unfold atoll. pose proof (read_number_pretty n "") as E. rewrite string_app_nil_r in E.
  rewrite E by done. apply i64c_ok. unfold is_i64. simpl. lia.
Qed.

Lemma pretty_Z_N (n : N) : pretty (Z.of_N n) = pretty n.
Proof. by destruct n. Qed.

Lemma pattern_parse_numeric prefix (a b : N) suffix :
  no_char "{" prefix → (a ≤ b)%N → Z.of_N b < 2 ^ 63 →
  buckets_expansion_pattern_parse
    (Some (prefix +:+ "{" +:+ pretty a +:+ "..." +:+ pretty b +:+ "}" +:+ suffix)) =
    Val (Some (Pattern prefix suffix (RangeNumeric (Z.of_N a) (Z.of_N b)))).
Proof.
  intros Hp Hab Hb. unfold buckets_expansion_pattern_parse.
  rewrite find_ellipses_range by (done || by apply no_char_pretty).
  assert (numeric_start (pretty a) = true) as ->.
  { destruct (pretty_N_head a) as (c & d & t & -> & Hd). simpl. by rewrite Hd. }
  rewrite !atoll_pretty by lia. cbn [c_bind]. by rewrite (proj2 (Z.ltb_ge _ _)) by lia.
Qed.

(** What the loop of an expansion yields. *)
Lemma expand_loop_numeric prefix suffix a b i n :
  is_i64 a → is_i64 (a + Z.of_nat i + Z.of_nat n) →
  expand_loop (Pattern prefix suffix (RangeNumeric a b)) i n =
    Val ((λ k : nat, prefix +:+ pretty (a + Z.of_nat k) +:+ suffix) <$> seq i n).
Proof.
  intros Ha. revert i. induction n as [|n IH]; intros i Hn; [done|]. cbn [expand_loop range_value pat_range].
  unfold is_i64 in *. rewrite i64c_ok by (unfold is_i64; lia). cbn [c_bind].
  rewrite IH by lia. done.
Qed.

(** A numeric range such as node{1...4} expands to what it says: written with any
    prefix and suffix it parses, and its expansion is the strings with every number from
    the first to the last, in order. *)
Lemma range_expands prefix (a b : N) suffix :
  no_char "{" prefix → (a ≤ b)%N → Z.of_N b < 2 ^ 63 - 1 →
  ∃ p, buckets_expansion_pattern_parse
         (Some (prefix +:+ "{" +:+ pretty a +:+ "..." +:+ pretty b +:+ "}" +:+ suffix)) = Val (Some p) ∧
    buckets_expansion_pattern_expand p =
      Val ((λ k : nat, prefix +:+ pretty (Z.of_N a + Z.of_nat k) +:+ suffix) <$>
             seq 0 (N.to_nat (b - a + 1))).
Proof.
  intros Hp Hab Hb. eexists. split; [by apply pattern_parse_numeric; [..|lia]|].
  unfold buckets_expansion_pattern_expand. cbn [pat_range range_count].
  rewrite !i64c_ok by (unfold is_i64; lia). cbn [c_bind]. rewrite i64c_ok by (unfold is_i64; lia).
  cbn [c_bind]. replace (Z.to_nat (Z.of_N b - Z.of_N a + 1)) with (N.to_nat (b - a + 1)) by lia.
  apply expand_loop_numeric; unfold is_i64; lia.
Qed.

Lemma range_expands_example :
  ∃ p, buckets_expansion_pattern_parse (Some "http://node{8...11}:9000/d") = Val (Some p) ∧
    buckets_expansion_pattern_expand p =
      Val ["http://node8:9000/d"; "http://node9:9000/d"; "http://node10:9000/d"; "http://node11:9000/d"].
Proof.
  apply (range_expands "http://node" 8 11 ":9000/d").
  - reflexivity.
  - lia.
  - lia.
Qed.

(** ** Lists *)

#[local] Arguments buckets_endpoint_parse : simpl never.

(** What an argument stands for; [None]: a bad range. *)
Definition expand_arg (arg : option string) : c_result (option (list (option string))) :=
  if buckets_endpoint_has_ellipses arg then
    let* p := buckets_expansion_pattern_parse arg in
    match p with
    | None => Val None
    | Some p => let* ss := buckets_expansion_pattern_expand p in Val (Some (Some <$> ss))
    end
  else Val (Some [arg]).

Fixpoint expand_args (args : list (option string)) : c_result (option (list (option string))) :=
  match args with
  | [] => Val (Some [])
  | arg :: args =>
      let* e := expand_arg arg in
      match e with
      | None => Val None
      | Some l =>
          let* r := expand_args args in
          match r with None => Val None | Some k => Val (Some (l ++ k)) end
      end
  end.

Lemma expand_loop_length p i n ss : expand_loop p i n = Val ss → length ss = n.
Proof.
  revert i ss. induction n as [|n IH]; intros i ss; simpl; [by intros [= <-]|].
  destruct (range_value _ i); [|done]. simpl.
  destruct (expand_loop p (S i) n) as [k|] eqn:E; [|done]. simpl. intros [= <-]. simpl.
  by rewrite (IH _ _ E).
Qed.

Lemma pattern_count_pos arg p n :
  buckets_expansion_pattern_parse arg = Val (Some p) → range_count (pat_range p) = Val n → 0 ≤ n.
Proof.
  destruct arg as [s|]; [|done]. simpl.
  destruct (find_ellipses s) as [[[[pre st] en] suf]|]; [|done].
  destruct (numeric_start st).
  - destruct (atoll st) as [a|]; [|done]. destruct (atoll en) as [b|]; [|done]. cbn [c_bind].
    destruct (Z.ltb_spec b a); [done|]. intros [= <-]. simpl. unfold c_bind.
    destruct (i64c (b - a)) as [d|] eqn:E; [|done]. apply i64c_Val in E as [_ ->].
    intros [_ ->]%i64c_Val. lia.
  - destruct st as [|a [|]]; try done. destruct en as [|b [|]]; try done.
    destruct (negb (isalpha a) || negb (isalpha b)); [done|].
    destruct (Z.ltb_spec (char_code b) (char_code a)); [done|]. intros [= <-] [= <-]. lia.
Qed.

Lemma expand_count arg p ss :
  buckets_expansion_pattern_parse arg = Val (Some p) →
  buckets_expansion_pattern_expand p = Val ss →
  range_count (pat_range p) = Val (Z.of_nat (length ss)).
Proof.
  intros Hp. unfold buckets_expansion_pattern_expand.
  destruct (range_count (pat_range p)) as [n|] eqn:En; [|done]. cbn [c_bind].
  intros Hl%expand_loop_length. pose proof (pattern_count_pos _ _ _ Hp En). f_equal. lia.
Qed.

Lemma count_endpoints_spec args r t :
  expand_args args = Val r →
  match r with
  | None => count_endpoints t args = Val None
  | Some ss => 0 ≤ t → t + Z.of_nat (length ss) < 2 ^ 64 →
      count_endpoints t args = Val (Some (t + Z.of_nat (length ss)))
  end.
Proof.
  assert (∀ z, 0 ≤ z → z < 2 ^ 64 → u64 z = z) as Hu by (intros; apply u64_small; split; lia).
  revert r t. induction args as [|arg args IH]; intros r t; cbn [expand_args count_endpoints].
  { intros [= <-]. intros _ _. do 2 f_equal. simpl. lia. }
  unfold expand_arg. destruct (buckets_endpoint_has_ellipses arg).
  - destruct (buckets_expansion_pattern_parse arg) as [[p|]|] eqn:Ep; cbn [c_bind]; [|by intros [= <-]|done].
    destruct (buckets_expansion_pattern_expand p) as [ss|] eqn:Ee; cbn [c_bind]; [|done].
    rewrite (expand_count _ _ _ Ep Ee). cbn [c_bind].
    destruct (expand_args args) as [[k|]|] eqn:Ek; cbn [c_bind]; [|intros [= <-]; apply (IH None _ eq_refl)|done].
    intros [= <-] Ht Hlt. rewrite length_app, length_fmap in *.
    rewrite Hu by lia. rewrite (IH (Some k) _ eq_refl) by lia. do 2 f_equal. lia.
  - cbn [c_bind]. destruct (expand_args args) as [[k|]|] eqn:Ek; cbn [c_bind];
      [|intros [= <-]; apply (IH None _ eq_refl)|done].
    intros [= <-] Ht Hlt. simpl in *. rewrite Hu by lia.
    rewrite (IH (Some k) _ eq_refl) by lia. do 2 f_equal. lia.
Qed.

Definition append_all (acc : list buckets_endpoint) (r : option (list buckets_endpoint)) :=
  (λ l, acc ++ l) <$> r.

Lemma append_all_nil acc : append_all acc (Some []) = Some acc.
Proof. unfold append_all. simpl. by rewrite app_nil_r. Qed.

Lemma append_ok total acc ep :
  Z.of_nat (length acc) < total → append_endpoint total acc ep = Val (acc ++ [ep]).
Proof. intros. unfold append_endpoint. by rewrite (proj2 (Z.ltb_lt _ _)). Qed.

Lemma parse_strings_spec total acc ss :
  Z.of_nat (length acc + length ss) ≤ total →
  parse_strings total acc ss = Val (append_all acc (mapM buckets_endpoint_parse (Some <$> ss))).
Proof.
  revert acc. induction ss as [|s ss IH]; intros acc Hl.
  { exact (f_equal Val (eq_sym (append_all_nil acc))). }
  rewrite fmap_cons. cbn [parse_strings length] in *. simpl mapM.
  destruct (buckets_endpoint_parse (Some s)) as [ep|]; [|done].
  rewrite append_ok by lia. cbn [c_bind]. rewrite IH by (rewrite length_app; simpl; lia).
  unfold append_all. simpl. destruct (mapM _ _); simpl; [|done]. by rewrite <-app_assoc.
Qed.

Lemma mapM_parse_app l k :
  mapM buckets_endpoint_parse (l ++ k) =
    match mapM buckets_endpoint_parse l with
    | None => None
    | Some a => append_all a (mapM buckets_endpoint_parse k)
    end.
Proof.
  induction l as [|x l IH]; simpl; [by destruct (mapM _ k)|].
  destruct (buckets_endpoint_parse x); simpl; [|done]. rewrite IH.
  destruct (mapM _ l); simpl; [|done]. by destruct (mapM _ k).
Qed.

Lemma mapM_parse_length l k : mapM buckets_endpoint_parse l = Some k → length k = length l.
Proof. intros H%mapM_Some_1. by rewrite (Forall2_length _ _ _ H). Qed.

Lemma parse_args_spec total args acc ss :
  expand_args args = Val (Some ss) → Z.of_nat (length acc + length ss) ≤ total →
  parse_args total acc args = Val (append_all acc (mapM buckets_endpoint_parse ss)).
Proof.
  revert acc ss. induction args as [|arg args IH]; intros acc ss; cbn [expand_args parse_args].
  { intros [= <-] _. by rewrite append_all_nil. }
  unfold expand_arg. destruct (buckets_endpoint_has_ellipses arg).
  - destruct (buckets_expansion_pattern_parse arg) as [[p|]|] eqn:Ep; cbn [c_bind]; try done.
    destruct (buckets_expansion_pattern_expand p) as [l|] eqn:Ee; cbn [c_bind]; [|done].
    destruct (expand_args args) as [[k|]|] eqn:Ek; cbn [c_bind]; try done. intros [= <-] Hl.
    rewrite length_app, length_fmap in Hl. rewrite parse_strings_spec by lia. cbn [c_bind].
    rewrite mapM_parse_app. destruct (mapM _ (Some <$> l)) as [a|] eqn:Ea; simpl; [|done].
    apply mapM_parse_length in Ea. rewrite length_fmap in Ea.
    rewrite (IH _ k) by (done || (rewrite length_app; lia)).
    unfold append_all. destruct (mapM _ k); simpl; [|done]. by rewrite app_assoc.
  - cbn [c_bind]. destruct (expand_args args) as [[k|]|] eqn:Ek; cbn [c_bind]; try done.
    intros [= <-] Hl. simpl in Hl. change ([arg] ++ k) with (arg :: k). simpl.
    destruct (buckets_endpoint_parse arg) as [ep|]; simpl; [|done].
    rewrite append_ok by lia. cbn [c_bind]. rewrite (IH _ k) by (done || (rewrite length_app; simpl; lia)).
    unfold append_all. destruct (mapM _ k); simpl; [|done]. by rewrite <-app_assoc.
Qed.

(** The two passes agree: the endpoints are the expanded arguments, parsed in order. *)
Lemma parse_expands args r :
  args ≠ [] → expand_args args = Val r →
  (∀ ss, r = Some ss → Z.of_nat (length ss) < 2 ^ 64) →
  buckets_endpoints_parse (Some args) =
    Val (match r with
         | None => None
         | Some ss => (λ l, Endpoints l (Z.of_nat (length l))) <$> mapM buckets_endpoint_parse ss
         end).
Proof.
  intros Hne Hr Hlt. unfold buckets_endpoints_parse. destruct args as [|arg args]; [done|].
  pose proof (count_endpoints_spec _ _ 0 Hr) as Hc. destruct r as [ss|].
  - specialize (Hlt ss eq_refl). rewrite Hc by lia. cbn [c_bind]. rewrite Z.add_0_l.
    rewrite (parse_args_spec _ _ _ ss Hr) by (simpl; lia). cbn [c_bind].
    destruct (mapM buckets_endpoint_parse ss) as [l|] eqn:El; [|done]. simpl.
    by rewrite (mapM_parse_length _ _ El).
  - rewrite Hc. done.
Qed.

(** ** What arguments mean *)

Definition lower : list ascii := String.list_ascii_of_string "abcdefghijklmnopqrstuvwxyz".
Definition upper : list ascii := String.list_ascii_of_string "ABCDEFGHIJKLMNOPQRSTUVWXYZ".

Definition letter_le (a b : ascii) : Prop := (N_of_ascii a ≤ N_of_ascii b)%N.

(** The letters of an alphabet from one to another. *)
Definition letters_between (alphabet : list ascii) (a b : ascii) : list ascii :=
  filter (λ c, (N_of_ascii a ≤ N_of_ascii c ≤ N_of_ascii b)%N) alphabet.

Definition range_text (prefix a b suffix : string) : string :=
  prefix +:+ "{" +:+ a +:+ "..." +:+ b +:+ "}" +:+ suffix.

(** The strings that an argument stands for. *)
Inductive arg_means : string → list string → Prop :=
  | means_itself s : no_char "{" s → arg_means s [s]
  | means_numbers prefix (a b : N) suffix :
      no_char "{" prefix → no_char "{" suffix → (a ≤ b)%N → (b < 2 ^ 63 - 1)%N →
      arg_means (range_text prefix (pretty a) (pretty b) suffix)
        ((λ n : Z, prefix +:+ pretty n +:+ suffix) <$> seqZ (Z.of_N a) (Z.of_N b - Z.of_N a + 1))
  | means_letters prefix alphabet a b suffix :
      no_char "{" prefix → no_char "{" suffix → alphabet = lower ∨ alphabet = upper →
      a ∈ alphabet → b ∈ alphabet → letter_le a b →
      arg_means (range_text prefix (String a "") (String b "") suffix)
        ((λ c, prefix +:+ String c suffix) <$> letters_between alphabet a b).

(** Ranges that run backwards. *)
Inductive bad_range : string → Prop :=
  | bad_numbers prefix (a b : N) suffix :
      no_char "{" prefix → (b < a)%N → (a < 2 ^ 63)%N →
      bad_range (range_text prefix (pretty a) (pretty b) suffix)
  | bad_letters prefix alphabet a b suffix :
      no_char "{" prefix → alphabet = lower ∨ alphabet = upper → a ∈ alphabet → b ∈ alphabet →
      ¬ letter_le a b → bad_range (range_text prefix (String a "") (String b "") suffix).

(** Counting from the code of a letter gives the letters of its alphabet. *)
Definition letters_counted (alphabet : list ascii) : Prop :=
  Forall (λ a, isalpha a = true ∧ digit_value a = None ∧ a ≠ "-"%char ∧ a ≠ "."%char ∧ a ≠ "}"%char ∧
    Forall (λ b, letter_le a b →
      ((λ i : nat, ascii_of_N (Z.to_N (char_code a + Z.of_nat i))) <$>
         seq 0 (Z.to_nat (char_code b - char_code a + 1))) = letters_between alphabet a b) alphabet) alphabet.

#[export] Instance letter_le_dec a b : Decision (letter_le a b).
Proof. unfold letter_le. apply _. Defined.

Lemma alphabet_counted alphabet : alphabet = lower ∨ alphabet = upper → letters_counted alphabet.
Proof. intros [->| ->]; apply (bool_decide_unpack _); vm_compute; exact I. Qed.

Lemma range_text_ellipses prefix a b suffix :
  no_char "{" prefix → no_char "." a → no_char "}" b →
  find_ellipses (range_text prefix a b suffix) = Some (prefix, a, b, suffix).
Proof. apply find_ellipses_range. Qed.

Lemma expand_loop_alpha prefix suffix a b i n :
  expand_loop (Pattern prefix suffix (RangeAlpha a b)) i n =
    Val ((λ c, prefix +:+ String c suffix) <$>
           ((λ i : nat, ascii_of_N (Z.to_N (char_code a + Z.of_nat i))) <$> seq i n)).
Proof.
  revert i. induction n as [|n IH]; intros i; [done|]. cbn [expand_loop range_value pat_range c_bind].
  by rewrite IH.
Qed.

(** Parsing and expanding a range of letters. *)
Lemma alpha_range prefix alphabet a b suffix :
  no_char "{" prefix → alphabet = lower ∨ alphabet = upper → a ∈ alphabet → b ∈ alphabet →
  find_ellipses (range_text prefix (String a "") (String b "") suffix) = Some (prefix, String a "", String b "", suffix) ∧
  buckets_expansion_pattern_parse (Some (range_text prefix (String a "") (String b "") suffix)) =
    Val (if decide (letter_le a b) then Some (Pattern prefix suffix (RangeAlpha a b)) else None) ∧
  (letter_le a b → buckets_expansion_pattern_expand (Pattern prefix suffix (RangeAlpha a b)) =
     Val ((λ c, prefix +:+ String c suffix) <$> letters_between alphabet a b)).
Proof.
  intros Hp Hal Ha Hb. pose proof (alphabet_counted _ Hal) as Hc. unfold letters_counted in Hc.
  rewrite Forall_forall in Hc. destruct (Hc a Ha) as (Ia & Da & Ma & Dot & _ & Hab).
  destruct (Hc b Hb) as (Ib & _ & _ & _ & Close & _).
  assert (find_ellipses (range_text prefix (String a "") (String b "") suffix) = Some (prefix, String a "", String b "", suffix)) as Ef.
  { apply range_text_ellipses; [done|apply no_char_cons; by split..]. }
  split; [done|]. split.
  - unfold buckets_expansion_pattern_parse. rewrite Ef. cbn [numeric_start]. rewrite Da, bool_decide_eq_false_2 by done.
    rewrite Ia, Ib. cbn [negb orb]. unfold char_code, letter_le.
    destruct (Z.ltb_spec (Z.of_N (N_of_ascii b)) (Z.of_N (N_of_ascii a))); case_decide; (done || lia).
  - intros Hle. unfold buckets_expansion_pattern_expand. cbn [pat_range range_count c_bind].
    rewrite expand_loop_alpha. rewrite Forall_forall in Hab. by rewrite Hab.
Qed.

Lemma expand_arg_means arg ss : arg_means arg ss → expand_arg (Some arg) = Val (Some (Some <$> ss)).
Proof.
  intros [s Hs|prefix a b suffix Hp Hs Hab Hb|prefix alphabet a b suffix Hp Hs Hal Ha Hb Hab]; unfold expand_arg,
    buckets_endpoint_has_ellipses.
  - unfold find_ellipses. unfold no_char in Hs. by rewrite Hs.
  - rewrite range_text_ellipses by (done || by apply no_char_pretty).
    destruct (range_expands prefix a b suffix Hp Hab) as (p & Ep & Ee); [lia|].
    unfold range_text. rewrite Ep. cbn [c_bind]. rewrite Ee. cbn [c_bind]. do 3 f_equal.
    unfold seqZ. rewrite <- !list_fmap_compose.
    replace (Z.to_nat (Z.of_N b - Z.of_N a + 1)) with (N.to_nat (b - a + 1)) by lia.
    apply list_fmap_ext. intros i k _. cbn. do 3 f_equal. lia.
  - destruct (alpha_range prefix alphabet a b suffix Hp Hal Ha Hb) as (-> & -> & He).
    rewrite decide_True by done. cbn [c_bind]. by rewrite (He Hab).
Qed.

Lemma expand_args_means args sss :
  Forall2 arg_means args sss →
  ∀ rest, expand_args (Some <$> args ++ rest) =
    (let* r := expand_args (Some <$> rest) in
     Val (match r with None => None | Some k => Some ((Some <$> concat sss) ++ k) end)).
Proof.
  induction 1 as [|arg ss args sss Ha _ IH]; intros rest.
  - cbn. destruct (expand_args _) as [[k|]|]; done.
  - cbn [app fmap list_fmap expand_args concat]. rewrite (expand_arg_means _ _ Ha). cbn [c_bind].
    rewrite IH. destruct (expand_args (Some <$> rest)) as [[k|]|]; cbn [c_bind]; [|done..].
    by rewrite fmap_app, <- app_assoc.
Qed.

Lemma expand_args_bad bad rest : bad_range bad → expand_args (Some <$> bad :: rest) = Val None.
Proof.
  intros Hb. cbn [fmap list_fmap expand_args]. unfold expand_arg, buckets_endpoint_has_ellipses.
  destruct Hb as [prefix a b suffix Hp Hab Ha|prefix alphabet a b suffix Hp Hal Ha Hb Hab].
  - rewrite range_text_ellipses by (done || by apply no_char_pretty).
    unfold buckets_expansion_pattern_parse. rewrite range_text_ellipses by (done || by apply no_char_pretty).
    assert (numeric_start (pretty a) = true) as ->.
    { destruct (pretty_N_head a) as (c & d & t & -> & Hd). simpl. by rewrite Hd. }
    rewrite !atoll_pretty by lia. cbn [c_bind]. by rewrite (proj2 (Z.ltb_lt _ _)) by lia.
  - destruct (alpha_range prefix alphabet a b suffix Hp Hal Ha Hb) as (-> & -> & _).
    by rewrite decide_False.
Qed.

Lemma mapM_parse_compose ss :
  mapM buckets_endpoint_parse (Some <$> ss) = mapM (buckets_endpoint_parse ∘ Some) ss.
Proof. induction ss as [|s ss IH]; [done|]. cbn [fmap list_fmap mapM]. by rewrite IH. Qed.

(** ** Sets *)

Lemma fill_set_spec i j n dps eps :
  (i * dps + j + n ≤ length eps)%nat →
  ∃ eps', fill_set i j n dps eps = Val (seq (i * dps + j) n, eps') ∧ length eps' = length eps ∧
    ∀ k, eps' !! k = if decide (i * dps + j ≤ k < i * dps + j + n)%nat
                     then assign_place i (k - i * dps) <$> eps !! k else eps !! k.
Proof.
  revert j eps. induction n as [|n IH]; intros j eps Hl; cbn [fill_set seq].
  - exists eps. split_and!; [done|done|]. intros k. rewrite decide_False by lia. done.
  - destruct (lookup_lt_is_Some_2 eps (i * dps + j)) as [ep Hep]; [lia|].
    rewrite (proj2 (c_read_Val eps _ ep) Hep). cbn [c_bind].
    destruct (IH (S j) (<[(i * dps + j)%nat := assign_place i j ep]> eps)) as (eps' & -> & Hlen & Hk).
    { rewrite length_insert. lia. }
    cbn [c_bind fst snd]. exists eps'. rewrite length_insert in Hlen.
    split_and!; [by rewrite Nat.add_succ_r|done|]. intros k. rewrite Hk.
    destruct (decide (k = i * dps + j)%nat) as [->|Hne].
    + rewrite list_lookup_insert_eq by lia. rewrite decide_False, decide_True, Hep by lia.
      simpl. by replace (i * dps + j - i * dps)%nat with j by lia.
    + rewrite list_lookup_insert_ne by lia. repeat case_decide; (done || lia).
Qed.

Lemma fill_sets_spec i n dps eps :
  (0 < dps)%nat → ((i + n) * dps ≤ length eps)%nat →
  ∃ eps', fill_sets i n dps eps = Val ((λ i', seq (i' * dps) dps) <$> seq i n, eps') ∧
    length eps' = length eps ∧
    ∀ k, eps' !! k = if decide (i * dps ≤ k < (i + n) * dps)%nat
                     then assign_place (k / dps) (k mod dps) <$> eps !! k else eps !! k.
Proof.
  intros Hd. revert i eps. induction n as [|n IH]; intros i eps Hl; cbn [fill_sets seq].
  - exists eps. split_and!; [done|done|]. intros k. rewrite decide_False by lia. done.
  - destruct (fill_set_spec i 0 dps dps eps ltac:(lia)) as (eps1 & -> & Hl1 & H1).
    cbn [c_bind fst snd]. destruct (IH (S i) eps1) as (eps2 & -> & Hl2 & H2); [lia|].
    cbn [c_bind fst snd]. exists eps2. split_and!; [by rewrite Nat.add_0_r|congruence|].
    intros k. rewrite H2, H1.
    destruct (decide (i * dps ≤ k < (i + S n) * dps)%nat) as [Hk|Hk].
    + destruct (decide (S i * dps ≤ k < (S i + n) * dps)%nat) as [Hk2|Hk2].
      * rewrite decide_False by lia. done.
      * rewrite decide_True by lia.
        assert (k = i * dps + (k - i * dps))%nat as E by lia.
        assert (k / dps = i)%nat as Hq.
        { rewrite E, Nat.add_comm, Nat.div_add, Nat.div_small by lia. lia. }
        assert (k mod dps = k - i * dps)%nat as Hr.
        { rewrite E at 1. rewrite Nat.add_comm, Nat.Div0.mod_add. apply Nat.mod_small. lia. }
        by rewrite Hq, Hr.
    + rewrite decide_False by lia. rewrite decide_False by lia. done.
Qed.

(** ** Properties *)

(** Printing an endpoint and parsing the text gives the endpoint back: whatever string
    an endpoint was parsed from, its printed form is parsed to an endpoint that compares
    equal to it and prints the same (hosts that were not written in brackets). *)
Theorem endpoint_print_parse s ep :
  buckets_endpoint_parse (Some s) = Some ep →
  (∀ h, ep_host ep = Some h → no_char ":" h ∧ no_char "[" h) →
  ∃ t ep', buckets_endpoint_to_string ep = Val t ∧ buckets_endpoint_parse (Some t) = Some ep' ∧
    buckets_endpoint_equal (Some ep) (Some ep') = Val true ∧ buckets_endpoint_to_string ep' = Val t.
Proof.
  intros Hp Hh. destruct (endpoint_parse_inv _ _ Hp) as [(scheme & host & path & Hu)|(E & _)].
  - assert (ep_host ep = Some host) as Hhost by (by destruct Hu as (_ & _ & _ & _ & ->)).
    destruct (Hh host Hhost) as [Hc Hb]. destruct (url_roundtrip _ _ _ _ Hu Hc Hb) as (t & Ht & Hpt).
    eexists t, _. split; [done|]. split; [exact Hpt|].
    destruct Hu as (_ & _ & _ & _ & Hep). rewrite Hep in *. split.
    + apply equal_refl_fields; try done; by eexists.
    + exact Ht.
  - exists s, ep. subst ep. split_and!; [done|done| |done].
    apply equal_refl_fields; done.
Qed.

Lemma endpoint_print_parse_witness :
  ∃ ep t ep', buckets_endpoint_parse (Some "http://node1:09000") = Some ep ∧
    buckets_endpoint_to_string ep = Val t ∧ buckets_endpoint_parse (Some t) = Some ep' ∧
    buckets_endpoint_equal (Some ep) (Some ep') = Val true ∧ buckets_endpoint_to_string ep' = Val t.
Proof.
  eexists. destruct (endpoint_print_parse "http://node1:09000"
    (Endpoint "http://node1:09000" BUCKETS_ENDPOINT_TYPE_URL (Some "http") (Some "node1") 9000 (Some "/")
       false (-1) (-1) (-1))) as (t & ep' & H1 & H2 & H3 & H4).
  - reflexivity.
  - intros h [= <-]. split; reflexivity.
  - exists t, ep'. split; [reflexivity|]. exact (conj H1 (conj H2 (conj H3 H4))).
Defined.

(** An IPv6 endpoint loses its brackets when it is printed, and cannot be parsed again. *)
Lemma endpoint_ipv6_not_reparsed :
  ∃ ep t, buckets_endpoint_parse (Some "http://[::1]:9000/d") = Some ep ∧
    buckets_endpoint_to_string ep = Val t ∧ buckets_endpoint_parse (Some t) = None.
Proof. eexists _, _. split; [reflexivity|]. split; reflexivity. Qed.

(** What the parser accepts is valid: every endpoint it returns passes the validation,
    except a path that does not start with a slash or backslash. *)
Theorem endpoint_parse_validates s ep :
  buckets_endpoint_parse (Some s) = Some ep →
  buckets_endpoint_validate (Some ep) = BUCKETS_OK ↔
    ep_type ep = BUCKETS_ENDPOINT_TYPE_URL ∨ absolute s = true.
Proof.
  intros Hp. destruct (endpoint_parse_inv _ _ Hp) as
    [(scheme & host & path & Hs & Hne & _ & _ & ->)|(-> & Hne & Hr)]; simpl.
  - unfold validate_url. simpl. destruct host as [|c host]; [done|].
    destruct Hs as [->| ->]; simpl; naive_solver.
  - destruct s as [|c s]; [done|]. rewrite Hr. destruct (absolute (String c s)); simpl; naive_solver.
Qed.

Lemma endpoint_parse_validates_witness :
  buckets_endpoint_validate (buckets_endpoint_parse (Some "http://h/d")) = BUCKETS_OK.
Proof.
  apply (endpoint_parse_validates "http://h/d"); [reflexivity|]. left. reflexivity.
Defined.



(** Only the first range of a string is expanded. *)
Lemma endpoints_nested_not_expanded :
  ∃ a b, buckets_endpoints_parse (Some [Some "http://node{1...2}/disk{1...2}"])
    = Val (Some (Endpoints [a; b] 2)) ∧ ep_path a = Some "/disk{1...2}".
Proof. eexists _, _. split; reflexivity. Qed.

(** The division into erasure sets is a partition: with a number of endpoints that is a
    multiple of the set size, set [i] points at endpoints [i * dps] to [i * dps + dps - 1],
    each endpoint is in exactly one set, and is told its set and its position in it;
    otherwise nothing is changed. *)
Theorem endpoints_to_sets_partition eps dps :
  (0 < dps)%nat →
  ((length eps mod dps ≠ 0)%nat → buckets_endpoints_to_sets eps dps = Val (None, eps)) ∧
  ((length eps mod dps = 0)%nat →
   ∃ sets eps', buckets_endpoints_to_sets eps dps = Val (Some sets, eps') ∧
     length sets = (length eps / dps)%nat ∧ concat sets = seq 0 (length eps) ∧
     Forall (λ s, length s = dps) sets ∧
     (∀ k, eps' !! k = assign_place (k / dps) (k mod dps) <$> eps !! k)).
Proof.
  intros Hd. unfold buckets_endpoints_to_sets. rewrite (proj2 (Nat.eqb_neq _ _)) by lia. split.
  - intros Hm. by rewrite (proj2 (Nat.eqb_neq _ _)).
  - intros Hm. rewrite (proj2 (Nat.eqb_eq _ _)) by done. simpl.
    pose proof (Nat.div_mod (length eps) dps ltac:(lia)) as Hdm. set (n := (length eps / dps)%nat) in *.
    destruct (fill_sets_spec 0 n dps eps Hd ltac:(simpl; lia)) as (eps' & -> & Hl & Hk).
    cbn [c_bind fst snd]. eexists _, eps'. split; [done|]. split_and!.
    + by rewrite length_fmap, length_seq.
    + replace (length eps) with (n * dps)%nat by lia. clear. change 0%nat with (0 * dps)%nat at 2.
      generalize 0%nat as i. induction n as [|n IH]; intros i; [done|]. simpl.
      rewrite IH, seq_app. f_equal. f_equal. lia.
    + apply Forall_fmap, Forall_forall. intros i _. simpl. apply length_seq.
    + intros k. rewrite Hk. case_decide as Hr; [done|].
      rewrite lookup_ge_None_2 by lia. done.
Qed.

Lemma endpoints_to_sets_partition_witness :
  let ep := Endpoint "/d" BUCKETS_ENDPOINT_TYPE_PATH None None 0 (Some "/d") true (-1) (-1) (-1) in
  ∃ sets eps', buckets_endpoints_to_sets [ep; ep; ep; ep] 2 = Val (Some sets, eps') ∧
    concat sets = [0; 1; 2; 3]%nat.
Proof.
  intros ep. destruct (endpoints_to_sets_partition [ep; ep; ep; ep] 2) as [_ H]; [lia|].
  destruct H as (sets & eps' & H1 & _ & H2 & _); [reflexivity|].
  exists sets, eps'. split; [exact H1|exact H2].
Defined.
