(* ===== verification/GroupCommit.v ===== *)
(** * Group commit (src/src/storage/group_commit.c)

    Batched fsync: the table of file descriptors with their pending writes, the triggers of
    a sync, flushes and statistics. The outcome of a system call and the clock are
    arguments. What is on disk is a ghost: for each descriptor, how many writes it has had
    since its last successful sync. Threads interleave by the locked sections of the
    code. *)

From S2P Require Import Prelude CInt.

(** ** Data *)

Definition BUCKETS_GC_DEFAULT_BATCH_SIZE : Z := 64.
Definition BUCKETS_GC_DEFAULT_BATCH_TIME_MS : Z := 5.
Definition BUCKETS_GC_MAX_OPEN_FILES : nat := 256.

Inductive durability_level :=
  | BUCKETS_DURABILITY_NONE
  | BUCKETS_DURABILITY_BATCHED
  | BUCKETS_DURABILITY_IMMEDIATE.

#[export] Instance durability_level_eq_dec : EqDecision durability_level.
Proof. solve_decision. Defined.

Record gc_config := GcConfig {
  batch_size : Z;
  batch_time_ms : Z;
  use_fdatasync : bool;
  durability : durability_level
}.

Record timeval := Timeval { tv_sec : Z; tv_usec : Z }.

Record fd_batch_state := FdState {
  gc_fd : Z;
  pending_count : Z;
  last_sync : timeval;
  active : bool
}.

Record gc_stats := GcStats {
  total_writes : Z;
  total_syncs : Z;
  batched_syncs : Z;
  immediate_syncs : Z;
  explicit_flushes : Z;
  bytes_written : Z
}.

Record gc_context := GcContext {
  gc_conf : gc_config;
  fd_states : list fd_batch_state;
  gc_st : gc_stats
}.

(** The writes of each descriptor that no sync has covered. *)
Abbreviation unsynced := (gmap Z nat).

Definition dirty (u : unsynced) (fd : Z) : nat := default 0%nat (u !! fd).

(** *** Field updates *)

Definition with_states (l : list fd_batch_state) (ctx : gc_context) : gc_context :=
  GcContext (gc_conf ctx) l (gc_st ctx).
Definition with_gc_stats (s : gc_stats) (ctx : gc_context) : gc_context :=
  GcContext (gc_conf ctx) (fd_states ctx) s.
Definition with_pending (n : Z) (s : fd_batch_state) : fd_batch_state :=
  FdState (gc_fd s) n (last_sync s) (active s).

(** ** Helpers *)

Definition timeval_ms (t : timeval) : Z := u64 (tv_sec t * 1000 + tv_usec t / 1000).

Definition time_diff_ms (start now : timeval) : Z := u64 (timeval_ms now - timeval_ms start).

(** The first slot from [i] on that satisfies [p]. *)
Fixpoint find_slot (p : fd_batch_state → bool) (i : nat) (l : list fd_batch_state) : option nat :=
  match l with
  | [] => None
  | s :: l => if p s then Some i else find_slot p (S i) l
  end.

Definition slot_of_fd (fd : Z) (s : fd_batch_state) : bool := active s && (gc_fd s =? fd).

(** The slot of [fd], taken if there is none; [None]: the table is full. *)
Definition get_fd_state (ctx : gc_context) (fd : Z) (now : timeval) : option nat * gc_context :=
  match find_slot (slot_of_fd fd) 0 (fd_states ctx) with
  | Some i => (Some i, ctx)
  | None =>
      match find_slot (λ s, negb (active s)) 0 (fd_states ctx) with
      | Some i => (Some i, with_states (<[i := FdState fd 0 now true]> (fd_states ctx)) ctx)
      | None => (None, ctx)
      end
  end.

(** [ok]: what fsync or fdatasync answers. *)
Definition do_sync (conf : gc_config) (ok : bool) (fd : Z) (u : unsynced) : Z * unsynced :=
  match durability conf with
  | BUCKETS_DURABILITY_NONE => (0, u)
  | _ => if ok then (0, <[fd := 0%nat]> u) else (-1, u)
  end.

Definition should_sync (conf : gc_config) (s : fd_batch_state) (now : timeval) : bool :=
  match durability conf with
  | BUCKETS_DURABILITY_IMMEDIATE => true
  | BUCKETS_DURABILITY_NONE => false
  | BUCKETS_DURABILITY_BATCHED =>
      (batch_size conf <=? pending_count s) ||
      (batch_time_ms conf <=? time_diff_ms (last_sync s) now)
  end.

Definition count_sync (s : gc_stats) : gc_stats :=
  GcStats (total_writes s) (u64 (total_syncs s + 1)) (u64 (batched_syncs s + 1)) (immediate_syncs s)
    (explicit_flushes s) (bytes_written s).

(** On one slot: the result, the slot, the statistics and the disk. *)
Definition flush_fd_state (conf : gc_config) (s : fd_batch_state) (st : gc_stats) (ok : bool)
    (now : timeval) (u : unsynced) : Z * fd_batch_state * gc_stats * unsynced :=
  if pending_count s =? 0 then (0, s, st, u)
  else
    match do_sync conf ok (gc_fd s) u with
    | (0, u) => (0, FdState (gc_fd s) 0 now (active s), count_sync st, u)
    | (_, u) => (-1, s, st, u)
    end.

(** ** The interface *)

Definition buckets_group_commit_default_config (no_fsync : bool) : gc_config :=
  if no_fsync then GcConfig 0 0 true BUCKETS_DURABILITY_NONE
  else GcConfig BUCKETS_GC_DEFAULT_BATCH_SIZE BUCKETS_GC_DEFAULT_BATCH_TIME_MS true
         BUCKETS_DURABILITY_BATCHED.

Definition buckets_group_commit_config_for_durability (no_fsync : bool) (d : durability_level)
    : gc_config :=
  let config := buckets_group_commit_default_config no_fsync in
  match d with
  | BUCKETS_DURABILITY_NONE => GcConfig 0 0 (use_fdatasync config) d
  | BUCKETS_DURABILITY_IMMEDIATE => GcConfig 1 0 (use_fdatasync config) d
  | BUCKETS_DURABILITY_BATCHED =>
      GcConfig (batch_size config) (batch_time_ms config) (use_fdatasync config) d
  end.

Definition zero_stats : gc_stats := GcStats 0 0 0 0 0 0.

Definition buckets_group_commit_init (no_fsync : bool) (config : option gc_config) : gc_context :=
  GcContext (default (buckets_group_commit_default_config no_fsync) config)
    (replicate BUCKETS_GC_MAX_OPEN_FILES (FdState 0 0 (Timeval 0 0) false)) zero_stats.

Definition count_write (written : Z) (s : gc_stats) : gc_stats :=
  GcStats (u64 (total_writes s + 1)) (total_syncs s) (batched_syncs s) (immediate_syncs s)
    (explicit_flushes s) (u64 (bytes_written s + written)).

(** The locked section of a write on slot [i]; the outcome of the flush is ignored. *)
Definition account_write (ctx : gc_context) (i : nat) (ok : bool) (check reset : timeval)
    (u : unsynced) : gc_context * unsynced :=
  match fd_states ctx !! i with
  | None => (ctx, u)
  | Some s =>
      let s := with_pending (u32 (pending_count s + 1)) s in
      if should_sync (gc_conf ctx) s check then
        let '(_, s, st, u) := flush_fd_state (gc_conf ctx) s (gc_st ctx) ok reset u in
        (with_gc_stats st (with_states (<[i := s]> (fd_states ctx)) ctx), u)
      else (with_states (<[i := s]> (fd_states ctx)) ctx, u)
  end.

(** [written] is the answer of the system call; [clk] are the readings of the clock. *)
Definition buckets_group_commit_write (ctx : gc_context) (fd : Z) (written : Z) (ok : bool)
    (clk : nat → timeval) (u : unsynced) : Z * gc_context * unsynced :=
  if fd <? 0 then (-1, ctx, u)
  else if written <? 0 then (-1, ctx, u)
  else
    let u := <[fd := S (dirty u fd)]> u in
    let ctx := with_gc_stats (count_write written (gc_st ctx)) ctx in
    match get_fd_state ctx fd (clk 0%nat) with
    | (None, ctx) => (written, ctx, (do_sync (gc_conf ctx) ok fd u).2)
    | (Some i, ctx) =>
        let (ctx, u) := account_write ctx i ok (clk 1%nat) (clk 2%nat) u in (written, ctx, u)
    end.

(** The same with [pwrite]; the offset is an argument of the system call only. *)
Definition buckets_group_commit_pwrite := buckets_group_commit_write.

Definition count_flush (s : gc_stats) : gc_stats :=
  GcStats (total_writes s) (total_syncs s) (batched_syncs s) (immediate_syncs s)
    (u64 (explicit_flushes s + 1)) (bytes_written s).

(** The locked section of a flush on slot [i]. *)
Definition flush_slot (ctx : gc_context) (i : nat) (ok : bool) (reset : timeval) (u : unsynced)
    : Z * gc_context * unsynced :=
  match fd_states ctx !! i with
  | None => (0, ctx, u)
  | Some s =>
      let '(r, s, st, u) := flush_fd_state (gc_conf ctx) s (gc_st ctx) ok reset u in
      (r, with_gc_stats st (with_states (<[i := s]> (fd_states ctx)) ctx), u)
  end.

Definition buckets_group_commit_flush_fd (ctx : gc_context) (fd : Z) (ok : bool)
    (clk : nat → timeval) (u : unsynced) : Z * gc_context * unsynced :=
  if fd <? 0 then (-1, ctx, u)
  else
    match get_fd_state ctx fd (clk 0%nat) with
    | (None, ctx) => (0, ctx, u)
    | (Some i, ctx) =>
        flush_slot (with_gc_stats (count_flush (gc_st ctx)) ctx) i ok (clk 1%nat) u
    end.

(** The slots from [i] on, [n] of them; the outcome of each sync is an argument. *)
Fixpoint flush_from (n i : nat) (ctx : gc_context) (oks : nat → bool) (clk : nat → timeval)
    (errors : Z) (u : unsynced) : Z * gc_context * unsynced :=
  match n with
  | O => (errors, ctx, u)
  | S n =>
      match fd_states ctx !! i with
      | Some s =>
          if active s then
            let '(r, ctx, u) := flush_slot ctx i (oks i) (clk i) u in
            flush_from n (S i) ctx oks clk (if r =? 0 then errors else errors + 1) u
          else flush_from n (S i) ctx oks clk errors u
      | None => (errors, ctx, u)
      end
  end.

Definition buckets_group_commit_flush_all (ctx : gc_context) (oks : nat → bool) (clk : nat → timeval)
    (u : unsynced) : Z * gc_context * unsynced :=
  let '(errors, ctx, u) := flush_from (length (fd_states ctx)) 0 ctx oks clk 0 u in
  (if 0 <? errors then -1 else 0, ctx, u).

(** All counters; the average of the batch sizes is a floating-point quotient. *)
Definition buckets_group_commit_get_stats (ctx : gc_context) : gc_stats := gc_st ctx.

Definition buckets_group_commit_reset_stats (ctx : gc_context) : gc_context :=
  with_gc_stats zero_stats ctx.

(** What cleanup does before it releases the context. *)
Definition buckets_group_commit_cleanup (ctx : gc_context) (oks : nat → bool) (clk : nat → timeval)
    (u : unsynced) : unsynced := (buckets_group_commit_flush_all ctx oks clk u).2.

(** ** Threads

    A thread that has written and not yet accounted for it is before the search for its
    slot or before the locked section on it. *)

Inductive gc_thread :=
  | T_Written (fd : Z)
  | T_Slot (fd : Z) (i : nat).

Definition thread_fd (t : gc_thread) : Z := match t with T_Written fd | T_Slot fd _ => fd end.

(** [s_lost] is a ghost: the descriptors of writes that found the table full and whose own
    sync failed. The code remembers nothing of them, and tells nobody: the write has answered
    with its number of bytes. *)
Record gc_sys := GcSys {
  s_ctx : gc_context;
  s_unsynced : unsynced;
  s_threads : list gc_thread;
  s_lost : list Z
}.

(** [ok] is the outcome of the sync that the step makes, if it makes one. *)
Inductive gc_step (ok : bool) : gc_sys → gc_sys → Prop :=
  | gc_write ctx u ths lost fd written :
      0 ≤ fd → 0 ≤ written →
      gc_step ok (GcSys ctx u ths lost)
        (GcSys (with_gc_stats (count_write written (gc_st ctx)) ctx) (<[fd := S (dirty u fd)]> u)
           (T_Written fd :: ths) lost)
  | gc_lookup ctx u th1 fd th2 lost now i ctx' :
      get_fd_state ctx fd now = (Some i, ctx') →
      gc_step ok (GcSys ctx u (th1 ++ T_Written fd :: th2) lost)
        (GcSys ctx' u (th1 ++ T_Slot fd i :: th2) lost)
  | gc_fallback ctx u th1 fd th2 lost now ctx' :
      get_fd_state ctx fd now = (None, ctx') →
      gc_step ok (GcSys ctx u (th1 ++ T_Written fd :: th2) lost)
        (GcSys ctx' (do_sync (gc_conf ctx) ok fd u).2 (th1 ++ th2) (if ok then lost else fd :: lost))
  | gc_account ctx u th1 fd i th2 lost check reset ctx' u' :
      account_write ctx i ok check reset u = (ctx', u') →
      gc_step ok (GcSys ctx u (th1 ++ T_Slot fd i :: th2) lost) (GcSys ctx' u' (th1 ++ th2) lost)
  | gc_take ctx u ths lost fd now :
      gc_step ok (GcSys ctx u ths lost) (GcSys (get_fd_state ctx fd now).2 u ths lost)
  | gc_flush ctx u ths lost i reset r ctx' u' :
      flush_slot ctx i ok reset u = (r, ctx', u') →
      gc_step ok (GcSys ctx u ths lost) (GcSys ctx' u' ths lost)
  | gc_stats_only ctx u ths lost st :
      gc_step ok (GcSys ctx u ths lost) (GcSys (with_gc_stats st ctx) u ths lost).

(** Runs of [n] steps; with [reliable], no sync fails. *)
Inductive gc_run (no_fsync : bool) (config : option gc_config) (reliable : bool) : nat → gc_sys → Prop :=
  | gc_run_start : gc_run no_fsync config reliable 0 (GcSys (buckets_group_commit_init no_fsync config) ∅ [] [])
  | gc_run_step n ok s s' :
      gc_run no_fsync config reliable n s → gc_step ok s s' → (reliable = true → ok = true) →
      gc_run no_fsync config reliable (S n) s'.

(** ** What is accounted for *)

Definition slot_pending (fd : Z) (s : fd_batch_state) : nat :=
  if slot_of_fd fd s then Z.to_nat (pending_count s) else 0%nat.
Definition pending_of (l : list fd_batch_state) (fd : Z) : nat :=
  foldr (λ s n, slot_pending fd s + n)%nat 0%nat l.
Definition in_flight (ths : list gc_thread) (fd : Z) : nat :=
  length (filter (λ t, thread_fd t = fd) ths).
Definition lost_of (l : list Z) (fd : Z) : nat := length (filter (λ x, x = fd) l).

Lemma pending_of_app l1 s l2 fd :
  pending_of (l1 ++ s :: l2) fd = (slot_pending fd s + pending_of (l1 ++ l2) fd)%nat.
Proof. induction l1 as [|x l1 IH]; simpl; [done|]. rewrite IH. lia. Qed.

Lemma pending_of_insert l i s s' fd :
  l !! i = Some s →
  (pending_of (<[i := s']> l) fd + slot_pending fd s = pending_of l fd + slot_pending fd s')%nat.
Proof.
  intros (l1 & l2 & -> & Hi)%insert_split. rewrite Hi, !pending_of_app. lia.
Qed.

Lemma gc_in_flight_app th1 t th2 fd :
  in_flight (th1 ++ t :: th2) fd =
    ((if decide (thread_fd t = fd) then 1 else 0) + in_flight (th1 ++ th2) fd)%nat.
Proof.
  unfold in_flight. rewrite !filter_app, !length_app, filter_cons. case_decide; simpl; lia.
Qed.

Lemma dirty_insert u fd n fd' :
  dirty (<[fd := n]> u) fd' = if decide (fd = fd') then n else dirty u fd'.
Proof.
  unfold dirty. case_decide as E; [subst; by rewrite lookup_insert_eq|by rewrite lookup_insert_ne].
Qed.

Lemma find_slot_Some p k l i :
  find_slot p k l = Some i → ∃ j s, i = (k + j)%nat ∧ l !! j = Some s ∧ p s = true.
Proof.
  revert k. induction l as [|s l IH]; intros k; simpl; [done|]. destruct (p s) eqn:E.
  - intros [= <-]. exists 0%nat, s. split_and!; [lia|done|done].
  - intros (j & s' & -> & Hj & Hp)%IH. exists (S j), s'. split_and!; [lia|done|done].
Qed.

Lemma find_slot_None p k l s : find_slot p k l = None → s ∈ l → p s = false.
Proof.
  revert k. induction l as [|s' l IH]; intros k; simpl; [by intros _ []%elem_of_nil|].
  destruct (p s') eqn:E; [done|]. intros Hn [->|Hs]%elem_of_cons; [done|eauto].
Qed.

(** Every descriptor has at most one slot. *)
Definition unique_slots (l : list fd_batch_state) : Prop :=
  ∀ i j s t, l !! i = Some s → l !! j = Some t → active s = true → active t = true →
    gc_fd s = gc_fd t → i = j.

Lemma unique_slots_insert l i s s' :
  l !! i = Some s → gc_fd s' = gc_fd s → active s' = active s →
  unique_slots l → unique_slots (<[i := s']> l).
Proof.
  intros Hi Hf Ha Hu.
  assert (∀ j t, <[i := s']> l !! j = Some t → ∃ t0, l !! j = Some t0 ∧ gc_fd t = gc_fd t0 ∧
            active t = active t0) as Hget.
  { intros j t [(-> & -> & _)|(_ & Hj)]%list_lookup_insert_Some; eauto. }
  intros j k t1 t2 (u1 & Hj & F1 & A1)%Hget (u2 & Hk & F2 & A2)%Hget.
  rewrite F1, F2, A1, A2. by apply Hu.
Qed.

(** With unique slots, the pending writes of a descriptor are those of its slot. *)
Lemma pending_of_slot l i s fd :
  unique_slots l → l !! i = Some s → slot_of_fd fd s = true →
  pending_of l fd = Z.to_nat (pending_count s).
Proof.
  intros Hu Hi Hs. destruct (insert_split _ _ _ Hi) as (l1 & l2 & -> & _). rewrite pending_of_app.
  unfold slot_pending at 1. rewrite Hs. enough (pending_of (l1 ++ l2) fd = 0%nat) by lia.
  assert (∀ t, t ∈ l1 ++ l2 → slot_of_fd fd t = false) as Hno.
  { intros t Ht. destruct (slot_of_fd fd t) eqn:Et; [|done]. exfalso.
    unfold slot_of_fd in Hs, Et. breflect.
    assert (i = length l1) as ->.
    { apply (Hu i (length l1) s s Hi); [by rewrite list_lookup_middle|done..]. }
    apply elem_of_app in Ht as [[j Hj]%list_elem_of_lookup|[j Hj]%list_elem_of_lookup].
    - pose proof (lookup_lt_Some _ _ _ Hj).
      assert (j = length l1) by (apply (Hu j (length l1) t s);
        [by rewrite lookup_app_l|done|congruence..]). lia.
    - assert (length l1 + S j = length l1)%nat; [|lia]. apply (Hu _ _ t s); [|done|congruence..].
      rewrite lookup_app_r by lia. by replace (length l1 + S j - length l1)%nat with (S j) by lia. }
  clear -Hno. induction (l1 ++ l2) as [|t l IH]; simpl; [done|].
  unfold slot_pending at 1. rewrite Hno by set_solver. rewrite IH by set_solver. done.
Qed.

Lemma pending_of_none l fd : (∀ s, s ∈ l → slot_of_fd fd s = false) → pending_of l fd = 0%nat.
Proof.
  induction l as [|s l IH]; intros Hl; simpl; [done|]. unfold slot_pending at 1.
  rewrite Hl by set_solver. rewrite IH by set_solver. done.
Qed.

Lemma get_fd_state_spec ctx fd now r ctx' :
  unique_slots (fd_states ctx) → get_fd_state ctx fd now = (r, ctx') →
  gc_conf ctx' = gc_conf ctx ∧ unique_slots (fd_states ctx') ∧
  (∀ f, pending_of (fd_states ctx') f = pending_of (fd_states ctx) f) ∧
  (∀ i s f, fd_states ctx !! i = Some s → slot_of_fd f s = true →
     ∃ s', fd_states ctx' !! i = Some s' ∧ slot_of_fd f s' = true) ∧
  (∀ s, s ∈ fd_states ctx' → s ∈ fd_states ctx ∨ pending_count s = 0) ∧
  match r with
  | Some i => ∃ s, fd_states ctx' !! i = Some s ∧ slot_of_fd fd s = true
  | None => ∀ s, s ∈ fd_states ctx' → slot_of_fd fd s = false
  end.
Proof.
  intros Hu. unfold get_fd_state. destruct (find_slot (slot_of_fd fd) 0 _) as [i|] eqn:Ef.
  - intros [= <- <-]. apply find_slot_Some in Ef as (j & s & -> & Hj & Hs). split_and!; eauto.
  - pose proof (λ s, find_slot_None _ _ _ s Ef) as Hno.
    destruct (find_slot (λ s, negb (active s)) 0 _) as [i|] eqn:Ei; intros [= <- <-].
    + apply find_slot_Some in Ei as (j & s & -> & Hj & Hs). apply negb_true_iff in Hs. simpl.
      pose proof (lookup_lt_Some _ _ _ Hj) as Hlt. split_and!; [done|..].
      * intros a b sa sb Ha Hb Aa Ab E. apply list_lookup_insert_Some in Ha, Hb.
        assert (∀ k t, fd_states ctx !! k = Some t → active t = true → gc_fd t ≠ fd) as Hf.
        { intros k t Hk At Et. specialize (Hno t (list_elem_of_lookup_2 _ _ _ Hk)).
          unfold slot_of_fd in Hno. rewrite At in Hno. simpl in Hno. breflect. done. }
        destruct Ha as [(<- & <- & _)|(? & Ha)], Hb as [(<- & <- & _)|(? & Hb)]; simpl in *; try done.
        -- by destruct (Hf _ _ Hb Ab).
        -- by destruct (Hf _ _ Ha Aa).
        -- by eapply Hu.
      * intros f. pose proof (pending_of_insert _ _ _ (FdState fd 0 now true) f Hj) as E.
        unfold slot_pending, slot_of_fd in E. rewrite Hs in E. simpl in E. destruct (fd =? f); lia.
      * intros k t f Hk Ht. destruct (decide (k = j)) as [->|Hne].
        -- unfold slot_of_fd in Ht. simplify_eq. by rewrite Hs in Ht.
        -- exists t. by rewrite list_lookup_insert_ne.
      * intros t Ht. apply list_elem_of_lookup in Ht as [k Hk].
        apply list_lookup_insert_Some in Hk as [(_ & <- & _)|(_ & Hk)]; [by right|left].
        by eapply list_elem_of_lookup_2.
      * exists (FdState fd 0 now true). rewrite list_lookup_insert_eq by done.
        unfold slot_of_fd. simpl. by rewrite Z.eqb_refl.
    + split_and!; eauto.
Qed.

Lemma flush_fd_state_spec conf s st ok now u r s' st' u' :
  durability conf ≠ BUCKETS_DURABILITY_NONE →
  flush_fd_state conf s st ok now u = (r, s', st', u') →
  gc_fd s' = gc_fd s ∧ active s' = active s ∧
  ((pending_count s = 0 ∧ r = 0 ∧ s' = s ∧ u' = u) ∨
   (pending_count s ≠ 0 ∧ ok = true ∧ r = 0 ∧ pending_count s' = 0 ∧ u' = <[gc_fd s := 0%nat]> u) ∨
   (pending_count s ≠ 0 ∧ ok = false ∧ r = -1 ∧ s' = s ∧ u' = u)).
Proof.
  intros Hd. unfold flush_fd_state. destruct (Z.eqb_spec (pending_count s) 0) as [Hz|Hz].
  - intros [= <- <- <- <-]. auto 10.
  - unfold do_sync. destruct (durability conf); [done|..]; destruct ok; simpl; intros [= <- <- <- <-];
      simpl; auto 10.
Qed.

(** ** The invariant *)

Record gc_inv (conf : gc_config) (n : nat) (s : gc_sys) : Prop := GcInv {
  gi_conf : gc_conf (s_ctx s) = conf;
  gi_unique : unique_slots (fd_states (s_ctx s));
  gi_threads fd i : T_Slot fd i ∈ s_threads s →
    ∃ st, fd_states (s_ctx s) !! i = Some st ∧ slot_of_fd fd st = true;
  gi_pending st : st ∈ fd_states (s_ctx s) → 0 ≤ pending_count st ≤ Z.of_nat n;
  gi_dirty fd : (dirty (s_unsynced s) fd ≤
    pending_of (fd_states (s_ctx s)) fd + in_flight (s_threads s) fd + lost_of (s_lost s) fd)%nat
}.

Section Inv.
Context (conf : gc_config) (Hdur : durability conf ≠ BUCKETS_DURABILITY_NONE).

(** A step that replaces slot [i] and takes the threads to [ths']. *)
Lemma inv_slot n ctx u ths lost i st st' u' ths' stats :
  gc_inv conf n (GcSys ctx u ths lost) → fd_states ctx !! i = Some st →
  gc_fd st' = gc_fd st → active st' = active st → 0 ≤ pending_count st' ≤ Z.of_nat (S n) →
  (∀ t, t ∈ ths' → t ∈ ths) →
  (∀ fd, (dirty u' fd ≤ pending_of (<[i := st']> (fd_states ctx)) fd + in_flight ths' fd
                        + lost_of lost fd)%nat) →
  gc_inv conf (S n) (GcSys (with_gc_stats stats (with_states (<[i := st']> (fd_states ctx)) ctx)) u' ths' lost).
Proof using Type.
  clear Hdur. intros [Hc Hu Ht Hp Hd] Hi Hf Ha Hpend Hsub Hdirty. simpl in *. split; simpl; try done.
  - by eapply unique_slots_insert.
  - intros fd k Hk. destruct (Ht fd k (Hsub _ Hk)) as (s & Hs & Hsf).
    destruct (decide (i = k)) as [->|Hne]; [|exists s; by rewrite list_lookup_insert_ne].
    exists st'. rewrite list_lookup_insert_eq by (by eapply lookup_lt_Some). simplify_eq.
    unfold slot_of_fd in *. by rewrite Hf, Ha.
  - intros s Hs. apply list_elem_of_lookup in Hs as [k Hk].
    apply list_lookup_insert_Some in Hk as [(_ & <- & _)|(_ & Hk)]; [done|].
    specialize (Hp s (list_elem_of_lookup_2 _ _ _ Hk)). lia.
Qed.

Lemma slot_pending_same fd s s' :
  gc_fd s' = gc_fd s → active s' = active s → slot_of_fd fd s' = slot_of_fd fd s.
Proof using Type. unfold slot_of_fd. by intros -> ->. Qed.

(** After the flush of slot [i], whose state was [st] and has become [st']. *)
Lemma flush_dirty l u ths lost i st st' stats stats' ok now r u' :
  l !! i = Some st → flush_fd_state conf st stats ok now u = (r, st', stats', u') →
  (∀ fd, (dirty u fd ≤ pending_of l fd + in_flight ths fd + lost_of lost fd)%nat) →
  ∀ fd, (dirty u' fd ≤ pending_of (<[i := st']> l) fd + in_flight ths fd + lost_of lost fd)%nat.
Proof using Hdur.
  intros Hi Hflush Hdirty fd. pose proof (pending_of_insert l i st st' fd Hi) as Hins.
  destruct (flush_fd_state_spec _ _ _ _ _ _ _ _ _ _ Hdur Hflush) as (Hf & Ha & Hcase).
  specialize (Hdirty fd).
  destruct Hcase as [(_ & _ & -> & ->)|[(_ & _ & _ & Hz & ->)|(_ & _ & _ & -> & ->)]]; [lia| |lia].
  rewrite dirty_insert. case_decide as E; [lia|].
  unfold slot_pending in Hins. rewrite (slot_pending_same fd _ _ Hf Ha) in Hins.
  unfold slot_of_fd in Hins. rewrite (proj2 (Z.eqb_neq _ _) E), andb_false_r in Hins. lia.
Qed.

Lemma inv_weaken n s : gc_inv conf n s → gc_inv conf (S n) s.
Proof using Type.
  clear Hdur. intros [Hc Hu Ht Hp Hd]. split; try done. intros st Hst. specialize (Hp st Hst). lia.
Qed.

Lemma inv_get n ctx u ths lost fd now r ctx' ths' :
  gc_inv conf n (GcSys ctx u ths lost) → get_fd_state ctx fd now = (r, ctx') →
  (∀ f i, T_Slot f i ∈ ths' → T_Slot f i ∈ ths ∨ (f = fd ∧ r = Some i)) →
  (∀ f, in_flight ths' f = in_flight ths f) →
  gc_inv conf (S n) (GcSys ctx' u ths' lost).
Proof using Type.
  clear Hdur. intros [Hc Hu Ht Hp Hd] Hg Hths Hfl. simpl in *.
  destruct (get_fd_state_spec _ _ _ _ _ Hu Hg) as (Hc' & Hu' & Hpend & Hkeep & Hnew & Hr).
  split; simpl.
  - congruence.
  - done.
  - intros f i [Hi|[-> ->]]%Hths; [|done]. destruct (Ht _ _ Hi) as (st & Hst & Hs). eauto.
  - intros st [Hst|Hz]%Hnew; [specialize (Hp st Hst); lia|lia].
  - intros f. rewrite Hpend, Hfl. apply Hd.
Qed.

Lemma inv_account n ctx u th1 fd i th2 lost ok check reset ctx' u' :
  gc_inv conf n (GcSys ctx u (th1 ++ T_Slot fd i :: th2) lost) → Z.of_nat n < 2 ^ 32 - 1 →
  account_write ctx i ok check reset u = (ctx', u') →
  gc_inv conf (S n) (GcSys ctx' u' (th1 ++ th2) lost).
Proof using Hdur.
  intros Hinv Hn. pose proof Hinv as [Hc Hu Ht Hp Hd]. simpl in *.
  destruct (Ht fd i) as (st & Hst & Hfd); [set_solver|].
  pose proof (Hp st (list_elem_of_lookup_2 _ _ _ Hst)) as Hpst.
  unfold account_write. rewrite Hst.
  assert (u32 (pending_count st + 1) = pending_count st + 1) as ->.
  { unfold u32. apply wrap_small. unfold in_range. lia. }
  set (st1 := with_pending (pending_count st + 1) st).
  assert (∀ f, (dirty u f ≤ pending_of (<[i := st1]> (fd_states ctx)) f
                  + in_flight (th1 ++ th2) f + lost_of lost f)%nat) as Hd1.
  { intros f. specialize (Hd f). rewrite gc_in_flight_app in Hd. simpl in Hd.
    pose proof (pending_of_insert _ i st st1 f Hst) as Hins. unfold slot_pending in Hins.
    rewrite (slot_pending_same f st st1) in Hins by done.
    destruct (decide (fd = f)) as [<-|Hne].
    - rewrite Hfd in Hins. simpl in Hins. lia.
    - destruct (slot_of_fd f st); simpl in Hins; lia. }
  assert (∀ t, t ∈ th1 ++ th2 → t ∈ th1 ++ T_Slot fd i :: th2) as Hsub by set_solver.
  destruct (should_sync (gc_conf ctx) st1 check).
  - destruct (flush_fd_state (gc_conf ctx) st1 (gc_st ctx) ok reset u) as [[[r st2] stats] u2] eqn:Ef.
    intros [= <- <-]. rewrite Hc in Ef.
    destruct (flush_fd_state_spec _ _ _ _ _ _ _ _ _ _ Hdur Ef) as (Hf & Ha & Hcase).
    eapply inv_slot; [exact Hinv|exact Hst|exact Hf|exact Ha| |exact Hsub|].
    + destruct Hcase as [(_ & _ & -> & _)|[(_ & _ & _ & -> & _)|(_ & _ & _ & -> & _)]]; simpl; lia.
    + intros f. rewrite <-(list_insert_insert_eq (fd_states ctx) i st2 st1).
      eapply (flush_dirty _ u); [|exact Ef|exact Hd1].
      apply list_lookup_insert_eq. by eapply lookup_lt_Some.
  - intros [= <- <-].
    eapply (inv_slot _ _ _ _ _ _ st st1 u _ (gc_st ctx)); try done. simpl. lia.
Qed.

Lemma inv_flush n ctx u ths lost i ok reset r ctx' u' :
  gc_inv conf n (GcSys ctx u ths lost) → flush_slot ctx i ok reset u = (r, ctx', u') →
  gc_inv conf (S n) (GcSys ctx' u' ths lost).
Proof using Hdur.
  intros Hinv. pose proof Hinv as [Hc Hu Ht Hp Hd]. simpl in *. unfold flush_slot.
  destruct (fd_states ctx !! i) as [st|] eqn:Hst; [|intros [= <- <- <-]; by apply inv_weaken].
  destruct (flush_fd_state (gc_conf ctx) st (gc_st ctx) ok reset u) as [[[r' st2] stats] u2] eqn:Ef.
  intros [= <- <- <-]. rewrite Hc in Ef. pose proof (Hp st (list_elem_of_lookup_2 _ _ _ Hst)).
  destruct (flush_fd_state_spec _ _ _ _ _ _ _ _ _ _ Hdur Ef) as (Hf & Ha & Hcase).
  eapply inv_slot; [exact Hinv|exact Hst|exact Hf|exact Ha| |done|].
  - destruct Hcase as [(_ & _ & -> & _)|[(_ & _ & _ & -> & _)|(_ & _ & _ & -> & _)]]; simpl; lia.
  - by eapply flush_dirty.
Qed.

Lemma gc_step_inv n ok s s' :
  gc_inv conf n s → Z.of_nat n < 2 ^ 32 - 1 → gc_step ok s s' → gc_inv conf (S n) s'.
Proof using Hdur.
  intros Hinv Hn Hs. destruct Hs as [ctx u ths lost fd written Hfd Hw
    |ctx u th1 fd th2 lost now i ctx' Hg|ctx u th1 fd th2 lost now ctx' Hg
    |ctx u th1 fd i th2 lost check reset ctx' u' Ha|ctx u ths lost fd now
    |ctx u ths lost i reset r ctx' u' Hf|ctx u ths lost st].
  - apply inv_weaken. destruct Hinv as [Hc Hu Ht Hp Hd]. simpl in *. split; simpl; try done.
    + intros f i Hi. apply Ht. set_solver.
    + intros f. specialize (Hd f). rewrite dirty_insert.
      pose proof (gc_in_flight_app [] (T_Written fd) ths f) as E. simpl in E. rewrite E.
      destruct (decide (fd = f)) as [->|]; lia.
  - eapply inv_get; [exact Hinv|exact Hg| |].
    + intros f j. set_solver.
    + intros f. by rewrite !gc_in_flight_app.
  - pose proof (inv_get n ctx u _ lost fd now None ctx' (th1 ++ T_Written fd :: th2) Hinv Hg
      (λ _ _ H, or_introl H) (λ _, eq_refl)) as Hg'. clear Hg. rename Hg' into Hg.
    destruct Hg as [Hc Hu Ht Hp Hd]. simpl in *. split; simpl; try done.
    + intros f i Hi. apply Ht. set_solver.
    + intros f. specialize (Hd f). rewrite gc_in_flight_app in Hd. simpl in Hd.
      assert (gc_conf ctx = conf) as -> by apply Hinv. unfold do_sync, lost_of in *.
      destruct (durability conf); [done|..]; destruct ok; simpl; rewrite ?dirty_insert, ?filter_cons;
        repeat case_decide; simpl in *; try done; lia.
  - by eapply inv_account.
  - eapply (inv_get _ _ _ _ _ fd now _ _ _ Hinv (surjective_pairing _)); auto.
  - by eapply inv_flush.
  - apply inv_weaken. destruct Hinv as [Hc Hu Ht Hp Hd]. by split.
Qed.
End Inv.

Lemma gc_init_inv no_fsync config :
  gc_inv (gc_conf (buckets_group_commit_init no_fsync config)) 0
    (GcSys (buckets_group_commit_init no_fsync config) ∅ [] []).
Proof.
  assert (∀ s, s ∈ fd_states (buckets_group_commit_init no_fsync config) →
            s = FdState 0 0 (Timeval 0 0) false) as Hs.
  { intros s Hin. by apply elem_of_replicate in Hin as [-> _]. }
  split; simpl; try done.
  - intros i j s t Hi%list_elem_of_lookup_2%Hs _ Ha. by subst s.
  - intros fd i []%elem_of_nil.
  - intros st ->%Hs. done.
Qed.

Lemma gc_run_inv no_fsync config reliable n s :
  let conf := gc_conf (buckets_group_commit_init no_fsync config) in
  durability conf ≠ BUCKETS_DURABILITY_NONE → gc_run no_fsync config reliable n s →
  Z.of_nat n < 2 ^ 32 → gc_inv conf n s.
Proof.
  intros conf Hd Hrun. induction Hrun as [|n ok s s' _ IH Hs _]; [intros _; apply gc_init_inv|].
  intros Hn. apply (gc_step_inv _ Hd n ok s s'); [|lia|done]. apply IH. lia.
Qed.

(** *** Losses *)

(** A slot that no descriptor has taken. *)
Definition free_slot (l : list fd_batch_state) : Prop := ∃ t, t ∈ l ∧ active t = false.

(** A slot that is taken stays taken. *)
Lemma free_slot_insert l i s s' :
  l !! i = Some s → (active s' = false → active s = false) → free_slot (<[i := s']> l) → free_slot l.
Proof.
  intros Hs Ha (t & Ht & Hf). apply list_elem_of_lookup in Ht as [k Hk].
  apply list_lookup_insert_Some in Hk as [(_ & <- & _)|(_ & Hk)]; [exists s|exists t];
    (split; [by eapply list_elem_of_lookup_2|auto]).
Qed.

Lemma get_free ctx fd now : free_slot (fd_states (get_fd_state ctx fd now).2) → free_slot (fd_states ctx).
Proof.
  unfold get_fd_state. destruct (find_slot (slot_of_fd fd) _ _); [done|].
  destruct (find_slot (λ s, negb (active s)) _ _) as [i|] eqn:E; [|done].
  apply find_slot_Some in E as (j & s & -> & Hj & _). by apply (free_slot_insert _ _ s).
Qed.

Lemma flush_active conf s st ok now u : active (flush_fd_state conf s st ok now u).1.1.2 = active s.
Proof. unfold flush_fd_state. by repeat case_match. Qed.

Lemma account_free ctx i ok check reset u :
  free_slot (fd_states (account_write ctx i ok check reset u).1) → free_slot (fd_states ctx).
Proof.
  unfold account_write. destruct (fd_states ctx !! i) as [s|] eqn:Hs; [|done].
  set (s1 := with_pending _ s). pose proof (flush_active (gc_conf ctx) s1 (gc_st ctx) ok reset u) as Ha.
  destruct (flush_fd_state _ s1 _ _ _ _) as [[[r s2] st] u2]. cbn [fst snd] in Ha.
  destruct (should_sync _ _ _); apply (free_slot_insert _ _ s); rewrite ?Ha; done.
Qed.

Lemma flush_free ctx i ok reset u :
  free_slot (fd_states (flush_slot ctx i ok reset u).1.2) → free_slot (fd_states ctx).
Proof.
  unfold flush_slot. destruct (fd_states ctx !! i) as [s|] eqn:Hs; [|done].
  pose proof (flush_active (gc_conf ctx) s (gc_st ctx) ok reset u) as Ha.
  destruct (flush_fd_state _ s _ _ _ _) as [[[r s2] st] u2]. cbn [fst snd] in Ha.
  apply (free_slot_insert _ _ s); by rewrite ?Ha.
Qed.

(** The table is full when a search finds no slot. *)
Lemma get_full ctx fd now ctx' : get_fd_state ctx fd now = (None, ctx') → ¬ free_slot (fd_states ctx').
Proof.
  unfold get_fd_state. destruct (find_slot (slot_of_fd fd) _ _); [done|].
  destruct (find_slot (λ s, negb (active s)) _ _) as [i|] eqn:E; [done|]. intros [= <-] (t & Ht & Hf).
  pose proof (find_slot_None _ _ _ _ E Ht) as H. cbn in H. by rewrite Hf in H.
Qed.

Lemma step_nothing_lost reliable ok s s' :
  gc_step ok s s' → (reliable = true → ok = true) →
  (reliable = true ∨ free_slot (fd_states (s_ctx s)) → s_lost s = []) →
  reliable = true ∨ free_slot (fd_states (s_ctx s')) → s_lost s' = [].
Proof.
  intros Hs Hok IH Hc. destruct Hs as [ctx u ths lost fd written Hfd Hw
    |ctx u th1 fd th2 lost now i ctx' Hg|ctx u th1 fd th2 lost now ctx' Hg
    |ctx u th1 fd i th2 lost check reset ctx' u' Ha|ctx u ths lost fd now
    |ctx u ths lost i reset r ctx' u' Hf|ctx u ths lost st]; cbn [s_ctx s_lost] in *.
  - by apply IH.
  - apply IH. destruct Hc as [Hc|Hc]; [by left|right]. pose proof (get_free ctx fd now) as E. rewrite Hg in E. auto.
  - destruct Hc as [Hc|Hc]; [rewrite (Hok Hc); by auto|]. by apply get_full in Hg.
  - apply IH. destruct Hc as [Hc|Hc]; [by left|right].
    pose proof (account_free ctx i ok check reset u) as E. rewrite Ha in E. auto.
  - apply IH. destruct Hc as [Hc|Hc]; [by left|right]. by apply (get_free ctx fd now).
  - apply IH. destruct Hc as [Hc|Hc]; [by left|right]. pose proof (flush_free ctx i ok reset u) as E. rewrite Hf in E. auto.
  - by apply IH.
Qed.

Lemma run_nothing_lost no_fsync config reliable n s :
  gc_run no_fsync config reliable n s → reliable = true ∨ free_slot (fd_states (s_ctx s)) → s_lost s = [].
Proof.
  induction 1 as [|n ok s s' Hrun IH Hs Hok]; [done|]. by eapply step_nothing_lost.
Qed.

(** *** Batches *)

(** No slot holds a full batch. *)
Definition below_batch (conf : gc_config) (l : list fd_batch_state) : Prop :=
  ∀ s, s ∈ l → pending_count s < Z.max 1 (batch_size conf).

Lemma below_insert conf l i s :
  below_batch conf l → pending_count s < Z.max 1 (batch_size conf) → below_batch conf (<[i := s]> l).
Proof.
  intros Hl Hs t Ht. apply list_elem_of_lookup in Ht as [k Hk].
  apply list_lookup_insert_Some in Hk as [(_ & <- & _)|(_ & Hk)]; [done|].
  by apply Hl, list_elem_of_lookup_2 with k.
Qed.

Lemma get_below conf ctx fd now :
  unique_slots (fd_states ctx) → below_batch conf (fd_states ctx) →
  below_batch conf (fd_states (get_fd_state ctx fd now).2).
Proof.
  intros Hu Hb s Hs.
  destruct (get_fd_state_spec ctx fd now _ _ Hu (surjective_pairing _)) as (_ & _ & _ & _ & Hnew & _).
  destruct (Hnew s Hs) as [?|?]; [by apply Hb|lia].
Qed.

(** A flush that does not fail empties the slot. *)
Lemma flush_empties conf s st now u :
  durability conf ≠ BUCKETS_DURABILITY_NONE →
  pending_count (flush_fd_state conf s st true now u).1.1.2 = 0.
Proof.
  intros Hd. destruct (flush_fd_state conf s st true now u) as [[[r s'] st'] u'] eqn:E. simpl.
  destruct (flush_fd_state_spec _ _ _ _ _ _ _ _ _ _ Hd E) as (_ & _ & [(? & _ & -> & _)|[(_ & _ & _ & ? & _)|(_ & ? & _)]]); done.
Qed.

Lemma account_below conf ctx i check reset u :
  gc_conf ctx = conf → durability conf = BUCKETS_DURABILITY_BATCHED →
  (∀ s, s ∈ fd_states ctx → 0 ≤ pending_count s < 2 ^ 32 - 1) →
  below_batch conf (fd_states ctx) →
  below_batch conf (fd_states (account_write ctx i true check reset u).1).
Proof.
  intros Hc Hd Hp Hb. unfold account_write. destruct (fd_states ctx !! i) as [s|] eqn:Hs; [|done].
  pose proof (Hp s (list_elem_of_lookup_2 _ _ _ Hs)) as Hps.
  assert (u32 (pending_count s + 1) = pending_count s + 1) as ->.
  { unfold u32. apply wrap_small. unfold in_range. lia. }
  set (s1 := with_pending _ s). rewrite Hc. destruct (should_sync conf s1 check) eqn:E.
  - pose proof (flush_empties conf s1 (gc_st ctx) reset u) as Hz.
    destruct (flush_fd_state conf s1 (gc_st ctx) true reset u) as [[[r s2] st] u2]. simpl in *.
    apply below_insert; [done|]. rewrite Hz by (by rewrite Hd). lia.
  - simpl. apply below_insert; [done|]. unfold should_sync in E. rewrite Hd in E. breflect.
    simpl in *. lia.
Qed.

Lemma flush_below conf ctx i reset u :
  gc_conf ctx = conf → durability conf ≠ BUCKETS_DURABILITY_NONE → below_batch conf (fd_states ctx) →
  below_batch conf (fd_states (flush_slot ctx i true reset u).1.2).
Proof.
  intros Hc Hd Hb. unfold flush_slot. destruct (fd_states ctx !! i) as [s|] eqn:Hs; [|done].
  rewrite Hc. pose proof (flush_empties conf s (gc_st ctx) reset u Hd) as Hz.
  destruct (flush_fd_state conf s (gc_st ctx) true reset u) as [[[r s2] st] u2]. simpl in *.
  apply below_insert; [done|]. lia.
Qed.

Lemma run_below no_fsync config n s :
  let conf := gc_conf (buckets_group_commit_init no_fsync config) in
  durability conf = BUCKETS_DURABILITY_BATCHED → gc_run no_fsync config true n s →
  Z.of_nat n < 2 ^ 32 → below_batch conf (fd_states (s_ctx s)) ∧ s_lost s = [].
Proof.
  intros conf Hd Hrun. assert (durability conf ≠ BUCKETS_DURABILITY_NONE) as Hd' by (by rewrite Hd).
  induction Hrun as [|n ok s s' Hrun IH Hs Hok].
  { intros _. split; [|done]. intros s Hin. apply elem_of_replicate in Hin as [-> _]. simpl. lia. }
  intros Hn. rewrite (Hok eq_refl) in Hs. destruct IH as [Hb Hl]; [lia|].
  destruct (gc_run_inv _ _ _ _ _ Hd' Hrun) as [Hc Hu _ Hp _]; [lia|].
  destruct Hs as [ctx u ths lost fd written Hfd Hw
    |ctx u th1 fd th2 lost now i ctx' Hg|ctx u th1 fd th2 lost now ctx' Hg
    |ctx u th1 fd i th2 lost check reset ctx' u' Ha|ctx u ths lost fd now
    |ctx u ths lost i reset r ctx' u' Hf|ctx u ths lost st]; simpl in *; split; try done.
  - pose proof (get_below _ _ fd now Hu Hb) as E. by rewrite Hg in E.
  - pose proof (get_below _ _ fd now Hu Hb) as E. by rewrite Hg in E.
  - pose proof (account_below _ ctx i check reset u Hc Hd) as E. rewrite Ha in E. apply E; [|done].
    intros t Ht. specialize (Hp t Ht). lia.
  - by apply get_below.
  - pose proof (flush_below _ ctx i reset u Hc Hd' Hb) as E. by rewrite Hf in E.
Qed.

(** ** Properties *)

Lemma flush_fd_dirty conf n s fd ok clk ctx' u' :
  durability conf ≠ BUCKETS_DURABILITY_NONE → gc_inv conf n s →
  buckets_group_commit_flush_fd (s_ctx s) fd ok clk (s_unsynced s) = (0, ctx', u') →
  (dirty u' fd ≤ in_flight (s_threads s) fd + lost_of (s_lost s) fd)%nat.
Proof.
  intros Hd [Hc Hu Ht Hp Hdirty]. unfold buckets_group_commit_flush_fd.
  destruct (fd <? 0); [done|].
  destruct (get_fd_state (s_ctx s) fd (clk 0%nat)) as [r ctx1] eqn:Hg.
  destruct (get_fd_state_spec _ _ _ _ _ Hu Hg) as (Hc1 & Hu1 & Hpend & _ & _ & Hr).
  specialize (Hdirty fd). rewrite <-Hpend in Hdirty. destruct r as [i|].
  - destruct Hr as (st & Hst & Hfd). unfold flush_slot. simpl. rewrite Hst.
    destruct (flush_fd_state _ _ _ _ _ _) as [[[r st2] stats] u2] eqn:Ef. intros [= -> <- <-].
    rewrite Hc1, Hc in Ef.
    destruct (flush_fd_state_spec _ _ _ _ _ _ _ _ _ _ Hd Ef)
      as (_ & _ & [(Hz & _ & _ & ->)|[(_ & _ & _ & _ & ->)|(_ & _ & ? & _)]]); [| |done].
    + rewrite (pending_of_slot _ _ _ _ Hu1 Hst Hfd), Hz in Hdirty. simpl in Hdirty. lia.
    + assert (gc_fd st = fd) as -> by (unfold slot_of_fd in Hfd; by breflect).
      rewrite dirty_insert, decide_True by done. lia.
  - intros [= <- <-]. rewrite (pending_of_none _ _ Hr) in Hdirty. lia.
Qed.

(** C31: no write is forgotten but for failed syncs of a full table: in any interleaving of
    writes and flushes by any number of threads, with syncs that may fail, the writes of a
    descriptor that are not on disk are at most those pending in its slot, those of threads
    that are about to account for them, and those of [s_lost], whose own sync failed after
    they had found no free slot and which reported their bytes all the same. There are none
    of the last kind when no sync fails, or when the table still has a free slot. A flush
    that reports success leaves only the latter two. *)
Theorem group_commit_unsynced_accounted no_fsync config reliable n s fd :
  durability (gc_conf (buckets_group_commit_init no_fsync config)) ≠ BUCKETS_DURABILITY_NONE →
  gc_run no_fsync config reliable n s → Z.of_nat n < 2 ^ 32 →
  (dirty (s_unsynced s) fd ≤ pending_of (fd_states (s_ctx s)) fd + in_flight (s_threads s) fd
                             + lost_of (s_lost s) fd)%nat ∧
  (reliable = true ∨ free_slot (fd_states (s_ctx s)) → s_lost s = []) ∧
  ∀ ok clk ctx' u',
    buckets_group_commit_flush_fd (s_ctx s) fd ok clk (s_unsynced s) = (0, ctx', u') →
    (dirty u' fd ≤ in_flight (s_threads s) fd + lost_of (s_lost s) fd)%nat.
Proof.
  intros Hd Hrun Hn. pose proof (gc_run_inv _ _ _ _ _ Hd Hrun Hn) as Hinv.
  split_and!; [apply (gi_dirty _ _ _ Hinv)|by eapply run_nothing_lost|].
  intros ok clk ctx' u'. by eapply flush_fd_dirty.
Qed.

(** What a crash can lose is bounded: as long as no sync fails, a descriptor never has
    more unsynced writes than one less than the batch size, plus the writes of threads
    that are about to account for them. *)
Theorem group_commit_loss_bounded no_fsync config n s fd :
  durability (gc_conf (buckets_group_commit_init no_fsync config)) = BUCKETS_DURABILITY_BATCHED →
  gc_run no_fsync config true n s → Z.of_nat n < 2 ^ 32 →
  Z.of_nat (dirty (s_unsynced s) fd) ≤
    Z.max 1 (batch_size (gc_conf (buckets_group_commit_init no_fsync config))) - 1
    + Z.of_nat (in_flight (s_threads s) fd).
Proof.
  intros Hd Hrun Hn.
  assert (durability (gc_conf (buckets_group_commit_init no_fsync config)) ≠ BUCKETS_DURABILITY_NONE)
    as Hd' by (by rewrite Hd).
  destruct (gc_run_inv _ _ _ _ _ Hd' Hrun Hn) as [_ Hu _ Hp Hdirty].
  destruct (run_below _ _ _ _ Hd Hrun Hn) as [Hb Hl]. specialize (Hdirty fd). rewrite Hl in Hdirty.
  change (lost_of [] fd) with 0%nat in Hdirty. set (b := Z.max 1 _) in *.
  assert (Z.of_nat (pending_of (fd_states (s_ctx s)) fd) ≤ b - 1); [|lia].
  destruct (find_slot (slot_of_fd fd) 0 (fd_states (s_ctx s))) as [i|] eqn:E.
  - apply find_slot_Some in E as (j & st & -> & Hj & Hs). rewrite (pending_of_slot _ _ _ _ Hu Hj Hs).
    pose proof (list_elem_of_lookup_2 _ _ _ Hj) as Hin. specialize (Hb _ Hin). specialize (Hp _ Hin).
    subst b. lia.
  - rewrite pending_of_none; [|intros st Hst; by apply (find_slot_None _ _ _ _ E)]. subst b. lia.
Qed.

(** *** Instances *)

(** One thread writes to descriptor 7 and accounts for it. *)
Lemma demo_gc_run reliable :
  ∃ s, gc_run false None reliable 2 s ∧ dirty (s_unsynced s) 7 = 1%nat ∧
    s_threads s = [T_Slot 7 0] ∧ s_lost s = [].
Proof.
  eexists. split.
  - eapply gc_run_step with (ok := true); [eapply gc_run_step with (ok := true);
      [apply gc_run_start|apply (gc_write true _ _ [] [] 7 10); lia|done]| |done].
    apply (gc_lookup true _ _ [] 7 [] [] (Timeval 0 0) 0). reflexivity.
  - split; [reflexivity|]. split; reflexivity.
Qed.

Lemma group_commit_unsynced_accounted_witness :
  ∃ s, gc_run false None false 2 s ∧
    (dirty (s_unsynced s) 7 ≤ pending_of (fd_states (s_ctx s)) 7 + in_flight (s_threads s) 7
                              + lost_of (s_lost s) 7)%nat.
Proof.
  destruct (demo_gc_run false) as (s & Hrun & _). exists s. split; [exact Hrun|].
  apply (group_commit_unsynced_accounted false None false 2 s 7).
  - discriminate.
  - exact Hrun.
  - lia.
Defined.

Lemma group_commit_loss_bounded_witness :
  ∃ s, gc_run false None true 2 s ∧ dirty (s_unsynced s) 7 = 1%nat ∧
    Z.of_nat (dirty (s_unsynced s) 7) ≤ 63 + Z.of_nat (in_flight (s_threads s) 7).
Proof.
  destruct (demo_gc_run true) as (s & Hrun & Hd & _). exists s. split; [exact Hrun|]. split; [exact Hd|].
  apply (group_commit_loss_bounded false None 2 s 7).
  - reflexivity.
  - exact Hrun.
  - lia.
Defined.

(** The time window is looked at by the next write only: one write stays unsynced however
    long the descriptor is idle, whatever the other descriptors do. *)
Lemma group_commit_idle_not_synced ms :
  let ctx0 := buckets_group_commit_init false None in
  let '(_, ctx1, u1) := buckets_group_commit_write ctx0 7 10 true (λ _, Timeval 0 0) ∅ in
  let '(_, _, u2) := buckets_group_commit_write ctx1 8 10 true (λ _, Timeval ms 0) u1 in
  dirty u1 7 = 1%nat ∧ dirty u2 7 = 1%nat.
Proof.
  intros ctx0. destruct (buckets_group_commit_write ctx0 7 10 true (λ _, Timeval 0 0) ∅)
    as [[r ctx1] u1] eqn:E1.
  vm_compute in E1. apply pair_equal_spec in E1 as [[_ <-]%pair_equal_spec <-].
  unfold buckets_group_commit_write. cbn -[should_sync u64].
  destruct (should_sync _ _ _); split; reflexivity.
Qed.

(** A write reports its bytes even when the sync it was to wait for has failed. *)
Lemma group_commit_sync_error_hidden :
  let ctx := buckets_group_commit_init false (Some (GcConfig 1 0 true BUCKETS_DURABILITY_IMMEDIATE)) in
  let '(r, _, u) := buckets_group_commit_write ctx 7 10 false (λ _, Timeval 0 0) ∅ in
  r = 10 ∧ dirty u 7 = 1%nat.
Proof. vm_compute. done. Qed.

(** So does one that found the table full, and a flush then has nothing to report. *)
Lemma group_commit_full_table_loss_hidden :
  let full := with_states (replicate BUCKETS_GC_MAX_OPEN_FILES (FdState 9 0 (Timeval 0 0) true))
                (buckets_group_commit_init false None) in
  let '(r, ctx, u) := buckets_group_commit_write full 7 10 false (λ _, Timeval 0 0) ∅ in
  let '(flushed, _, u') := buckets_group_commit_flush_fd ctx 7 true (λ _, Timeval 0 0) u in
  r = 10 ∧ flushed = 0 ∧ dirty u' 7 = 1%nat.
Proof. vm_compute. done. Qed.
