(* ===== verification/Throttle.v ===== *)
(** * Migration throttle (src/src/migration/throttle.c)

    The token bucket that bounds the bandwidth of the migration workers. The
    microsecond clock ([get_time_us], a [gettimeofday]) is an argument of the
    operations that read it. The signed 64-bit arithmetic is checked: overflow and
    division by zero are [Undef].

    [buckets_throttle_wait] drops its mutex while it sleeps, so several workers and
    an administrator interleave at the granularity of one locked section. That is
    the transition system of the second half of the file. *)

From S2P Require Import Prelude CInt.

Local Open Scope c_scope.

Record buckets_throttle := Throttle {
  tokens : Z;
  rate_bytes_per_sec : Z;
  burst_bytes : Z;
  last_refill_us : Z;
  enabled : bool
}.

(** The caller passes a possibly null pointer; the result is the return code and
    the structure behind the pointer. *)
Definition buckets_throttle_init (throttle : option buckets_throttle)
    (rate burst now_us : Z) : buckets_error_t * option buckets_throttle :=
  match throttle with
  | None => (BUCKETS_ERR_INVALID_ARG, None)
  | Some t =>
      if (rate <? 0) || (burst <? 0) then (BUCKETS_ERR_INVALID_ARG, Some t)
      else (BUCKETS_OK,
            Some {| tokens := burst; rate_bytes_per_sec := rate; burst_bytes := burst;
                    last_refill_us := now_us; enabled := 0 <? rate |})
  end.

Definition refill_tokens (throttle : buckets_throttle) (now_us : Z)
    : c_result buckets_throttle :=
  let* elapsed_us := i64c (now_us - last_refill_us throttle) in
  if elapsed_us <=? 0 then Val throttle
  else
    let* product := i64c (elapsed_us * rate_bytes_per_sec throttle) in
    let* tokens_to_add := i64_div product 1000000 in
    if 0 <? tokens_to_add then
      let* sum := i64c (tokens throttle + tokens_to_add) in
      Val {| tokens := if burst_bytes throttle <? sum then burst_bytes throttle else sum;
             rate_bytes_per_sec := rate_bytes_per_sec throttle;
             burst_bytes := burst_bytes throttle;
             last_refill_us := now_us;
             enabled := enabled throttle |}
    else Val throttle.

Definition set_tokens (t : buckets_throttle) (n : Z) : buckets_throttle :=
  {| tokens := n; rate_bytes_per_sec := rate_bytes_per_sec t;
     burst_bytes := burst_bytes t; last_refill_us := last_refill_us t;
     enabled := enabled t |}.

(** The guards in front of the loop: does the caller enter it? *)
Definition wait_enters (throttle : buckets_throttle) (bytes : Z) : bool :=
  if negb (enabled throttle) || (rate_bytes_per_sec throttle =? 0) then false
  else if bytes <=? 0 then false
  else true.

(** What one locked round of the loop does: take the tokens and return, or ask
    [nanosleep] for [(tv_sec, tv_nsec)]. *)
Inductive round_result :=
  | Granted
  | Sleep (tv_sec tv_nsec : Z).

Definition wait_round (throttle : buckets_throttle) (bytes now_us : Z)
    : c_result (buckets_throttle * round_result) :=
  let* t := refill_tokens throttle now_us in
  if bytes <=? tokens t then
    let* left := i64c (tokens t - bytes) in
    Val (set_tokens t left, Granted)
  else
    let* tokens_needed := i64c (bytes - tokens t) in
    let* scaled := i64c (tokens_needed * 1000000) in
    let* sleep_us := i64_div scaled (rate_bytes_per_sec t) in
    let sleep_us := if 100000 <? sleep_us then 100000 else sleep_us in
    Val (t, Sleep (Z.quot sleep_us 1000000) (Z.rem sleep_us 1000000 * 1000)).

(** The loop of a caller that is alone, on the successive clock readings. *)
Inductive wait_result :=
  | Returned (err : buckets_error_t) (throttle : option buckets_throttle) (rounds : nat)
  | StillWaiting (throttle : buckets_throttle).

Fixpoint wait_loop (throttle : buckets_throttle) (bytes : Z) (clock : list Z)
    (rounds : nat) : c_result wait_result :=
  match clock with
  | [] => Val (StillWaiting throttle)
  | now_us :: clock =>
      match wait_round throttle bytes now_us with
      | Undef => Undef
      | Val (t, Granted) => Val (Returned BUCKETS_OK (Some t) (S rounds))
      | Val (t, Sleep _ _) => wait_loop t bytes clock (S rounds)
      end
  end.

Definition buckets_throttle_wait (throttle : option buckets_throttle) (bytes : Z)
    (clock : list Z) : c_result wait_result :=
  match throttle with
  | None => Val (Returned BUCKETS_ERR_INVALID_ARG None 0)
  | Some t =>
      if wait_enters t bytes then wait_loop t bytes clock 0
      else Val (Returned BUCKETS_OK (Some t) 0)
  end.

Definition buckets_throttle_set_rate (throttle : option buckets_throttle) (rate : Z)
    : buckets_error_t * option buckets_throttle :=
  match throttle with
  | None => (BUCKETS_ERR_INVALID_ARG, None)
  | Some t =>
      if rate <? 0 then (BUCKETS_ERR_INVALID_ARG, Some t)
      else (BUCKETS_OK,
            Some {| tokens := tokens t; rate_bytes_per_sec := rate;
                    burst_bytes := burst_bytes t; last_refill_us := last_refill_us t;
                    enabled := 0 <? rate |})
  end.

Definition buckets_throttle_get_rate (throttle : option buckets_throttle) : Z :=
  match throttle with None => 0 | Some t => rate_bytes_per_sec t end.

Definition buckets_throttle_set_enabled (throttle : option buckets_throttle)
    (flag : bool) : buckets_error_t * option buckets_throttle :=
  match throttle with
  | None => (BUCKETS_ERR_INVALID_ARG, None)
  | Some t =>
      (BUCKETS_OK,
       Some {| tokens := tokens t; rate_bytes_per_sec := rate_bytes_per_sec t;
               burst_bytes := burst_bytes t; last_refill_us := last_refill_us t;
               enabled := flag |})
  end.

Definition buckets_throttle_is_enabled (throttle : option buckets_throttle) : bool :=
  match throttle with None => false | Some t => enabled t end.

(** The return code, the structure, and the three values the out-parameters get. *)
Definition buckets_throttle_get_stats (throttle : option buckets_throttle) (now_us : Z)
    : c_result (buckets_error_t * option (buckets_throttle * (Z * Z * bool))) :=
  match throttle with
  | None => Val (BUCKETS_ERR_INVALID_ARG, None)
  | Some t0 =>
      let* t := refill_tokens t0 now_us in
      Val (BUCKETS_OK, Some (t, (tokens t, rate_bytes_per_sec t, enabled t)))
  end.

(** The zeroed structure of [buckets_calloc]. *)
Definition zero_throttle : buckets_throttle := Throttle 0 0 0 0 false.

Definition buckets_throttle_create_default (now_us : Z) : option buckets_throttle :=
  match buckets_throttle_init (Some zero_throttle)
          (100 * 1024 * 1024) (10 * 1024 * 1024) now_us with
  | (BUCKETS_OK, t) => t
  | _ => None
  end.

Definition buckets_throttle_create (rate_mbps burst_mb now_us : Z)
    : c_result (option buckets_throttle) :=
  if (rate_mbps <? 0) || (burst_mb <? 0) then Val None
  else
    let* r := i64c (rate_mbps * 1024) in
    let* rate_bytes := i64c (r * 1024) in
    let* b := i64c (burst_mb * 1024) in
    let* burst_bytes := i64c (b * 1024) in
    match buckets_throttle_init (Some zero_throttle) rate_bytes burst_bytes now_us with
    | (BUCKETS_OK, t) => Val t
    | _ => Val None
    end.

(** ** The shared throttle *)

(** [waiting] holds the callers inside the loop of [buckets_throttle_wait] with the
    bytes they asked for; [granted] counts the tokens handed out so far. *)
Record throttle_sys := ThrottleSys {
  thr : buckets_throttle;
  waiting : gmap nat Z;
  granted : Z
}.

(** One locked section (or, for [EvWait], the unlocked guards) of one caller. *)
Inductive throttle_event :=
  | EvWait (tid : nat) (bytes : Z)
  | EvRound (tid : nat) (now_us : Z)
  | EvSetRate (rate : Z)
  | EvSetEnabled (flag : bool)
  | EvGetStats (now_us : Z).

Definition throttle_step (s : throttle_sys) (e : throttle_event) : c_result throttle_sys :=
  match e with
  | EvWait tid bytes =>
      Val (if wait_enters (thr s) bytes
           then ThrottleSys (thr s) (<[tid := bytes]> (waiting s)) (granted s)
           else s)
  | EvRound tid now_us =>
      match waiting s !! tid with
      | None => Val s
      | Some bytes =>
          let* r := wait_round (thr s) bytes now_us in
          Val match r with
              | (t, Granted) =>
                  ThrottleSys t (delete tid (waiting s)) (granted s + bytes)
              | (t, Sleep _ _) => ThrottleSys t (waiting s) (granted s)
              end
      end
  | EvSetRate rate =>
      Val match buckets_throttle_set_rate (Some (thr s)) rate with
          | (_, Some t) => ThrottleSys t (waiting s) (granted s)
          | (_, None) => s
          end
  | EvSetEnabled flag =>
      Val match buckets_throttle_set_enabled (Some (thr s)) flag with
          | (_, Some t) => ThrottleSys t (waiting s) (granted s)
          | (_, None) => s
          end
  | EvGetStats now_us =>
      let* r := buckets_throttle_get_stats (Some (thr s)) now_us in
      Val match r with
          | (_, Some (t, _)) => ThrottleSys t (waiting s) (granted s)
          | (_, None) => s
          end
  end.

Fixpoint throttle_run (s : throttle_sys) (es : list throttle_event) : c_result throttle_sys :=
  match es with
  | [] => Val s
  | e :: es => let* s' := throttle_step s e in throttle_run s' es
  end.

(** ** Lemmas *)

Lemma c_bind_Val {A B} (m : c_result A) (f : A → c_result B) b :
  c_bind m f = Val b ↔ ∃ a, m = Val a ∧ f a = Val b.
Proof. destruct m; naive_solver. Qed.

(** Invert a computation of checked arithmetic that produced a value. *)
Ltac c_inv :=
  repeat match goal with
  | H : c_bind _ _ = Val _ |- _ => apply c_bind_Val in H as (? & ? & ?)
  | H : i64c _ = Val _ |- _ => apply i64c_Val in H as [? ->]
  | H : i64_div _ _ = Val _ |- _ => apply i64_div_Val in H as (? & ? & ->)
  | H : Val _ = Val _ |- _ => injection H as H
  | H : Undef = Val _ |- _ => discriminate H
  end.

Lemma wait_enters_true t bytes :
  wait_enters t bytes = true ↔
  enabled t = true ∧ rate_bytes_per_sec t ≠ 0 ∧ 0 < bytes.
Proof. unfold wait_enters. destruct (enabled t); simpl; repeat split_if; naive_solver lia. Qed.

(** The invariant of the bucket, for a burst [B], rates up to [R] and a clock that
    stays between [t0] and [T]. *)
Definition throttle_inv (R T t0 B : Z) (t : buckets_throttle) : Prop :=
  0 ≤ tokens t ≤ B ∧ burst_bytes t = B ∧ 0 ≤ rate_bytes_per_sec t ≤ R ∧
  t0 ≤ last_refill_us t ≤ T.

Lemma refill_tokens_inv R T t0 B t now_us t' :
  throttle_inv R T t0 B t → now_us ≤ T → refill_tokens t now_us = Val t' →
  throttle_inv R T t0 B t' ∧
  rate_bytes_per_sec t' = rate_bytes_per_sec t ∧ enabled t' = enabled t ∧
  tokens t ≤ tokens t' ∧ last_refill_us t ≤ last_refill_us t' ∧
  (tokens t' - tokens t) * 1000000 ≤ R * (last_refill_us t' - last_refill_us t).
Proof.
  intros (Htok & Hb & Hr & Hl) Hnow. unfold refill_tokens. intros H. c_inv.
  revert H0. clear H. split_if; [intros [= <-]; unfold throttle_inv; split_and!; done || nia|].
  intros H. c_inv. revert H1.
  set (q := Z.quot _ _). split_if.
  2:{ intros [= <-]. unfold throttle_inv. split_and!; done || nia. }
  intros H1. c_inv. subst t'. unfold throttle_inv. simpl.
  assert (q * 1000000 ≤ (now_us - last_refill_us t) * rate_bytes_per_sec t) as Hq.
  { unfold q. rewrite Z.quot_div_nonneg by nia. rewrite Z.mul_comm. apply Z.mul_div_le. lia. }
  assert ((now_us - last_refill_us t) * rate_bytes_per_sec t
            ≤ (now_us - last_refill_us t) * R) by nia.
  split_if; split_and!; done || lia.
Qed.

Lemma wait_round_inv R T t0 B t bytes now_us t' r :
  throttle_inv R T t0 B t → 0 < bytes → now_us ≤ T →
  wait_round t bytes now_us = Val (t', r) →
  throttle_inv R T t0 B t' ∧ rate_bytes_per_sec t' = rate_bytes_per_sec t ∧
  last_refill_us t ≤ last_refill_us t' ∧
  (tokens t' + (if r then bytes else 0) - tokens t) * 1000000
    ≤ R * (last_refill_us t' - last_refill_us t).
Proof.
  intros Hinv Hb Hnow. unfold wait_round. intros H. c_inv.
  eapply refill_tokens_inv in H as (Hinv' & Hr & He & Ht & Hl & Hadd); [|done..].
  revert H0. split_if; intros H0; c_inv; simplify_eq.
  - unfold throttle_inv in *. simpl. split_and!; lia.
  - split_and!; try done; lia.
Qed.

(** The invariant of the system: the handed-out tokens are paid for by the burst
    and by the time that has been credited so far. *)
Definition throttle_sys_inv (R T t0 B : Z) (s : throttle_sys) : Prop :=
  throttle_inv R T t0 B (thr s) ∧
  map_Forall (λ _ bytes, 0 < bytes) (waiting s) ∧
  (granted s + tokens (thr s)) * 1000000 ≤ B * 1000000 + R * (last_refill_us (thr s) - t0).

(** What the environment may do: clock readings up to [T], rates up to [R]. *)
Definition event_within (R T : Z) (e : throttle_event) : Prop :=
  match e with
  | EvRound _ now_us | EvGetStats now_us => 0 ≤ now_us ≤ T
  | EvSetRate rate => rate ≤ R
  | EvWait _ _ | EvSetEnabled _ => True
  end.

Lemma throttle_step_inv R T t0 B s e s' :
  throttle_sys_inv R T t0 B s → event_within R T e → throttle_step s e = Val s' →
  throttle_sys_inv R T t0 B s'.
Proof.
  intros (Hinv & Hw & Hg) He. destruct e as [tid bytes|tid now|r|f|now]; simpl in *.
  - intros [= <-]. destruct (wait_enters (thr s) bytes) eqn:Hen; [|by split_and!].
    apply wait_enters_true in Hen.
    split_and!; [done| |done]. apply map_Forall_insert_2; [lia|done].
  - destruct (waiting s !! tid) as [bytes|] eqn:Hb; [|by intros [= <-]].
    intros H. c_inv. destruct x as [t r].
    pose proof (map_Forall_lookup_1 _ _ _ _ Hw Hb). simpl in *.
    eapply wait_round_inv in H as (Hinv' & Hr & Hl & Hadd); [|done|done|lia].
    destruct r; simplify_eq; split_and!; simpl; try done; try nia.
    by apply map_Forall_delete.
  - intros H. c_inv. subst s'. split_if; [by split_and!|].
    split_and!; simpl; try done. destruct Hinv as (? & ? & ? & ?). split_and!; simpl; lia.
  - intros H. c_inv. subst s'. by split_and!.
  - intros H. c_inv. subst.
    eapply refill_tokens_inv in H as (Hinv' & Hr & Hen & Ht & Hl & Hadd); [|done|lia].
    split_and!; simpl; try done. nia.
Qed.

Lemma throttle_run_inv R T t0 B s es s' :
  throttle_sys_inv R T t0 B s → Forall (event_within R T) es →
  throttle_run s es = Val s' → throttle_sys_inv R T t0 B s'.
Proof.
  intros Hinv Hes. revert s Hinv. induction Hes as [|e es He _ IH]; intros s Hinv H; simpl in H.
  { by injection H as <-. }
  apply c_bind_Val in H as (s1 & H1 & H2). eauto using throttle_step_inv.
Qed.

Definition throttle_start (t : buckets_throttle) : throttle_sys := ThrottleSys t ∅ 0.

Lemma throttle_init_inv t rate burst t0 R T t' :
  buckets_throttle_init (Some t) rate burst t0 = (BUCKETS_OK, Some t') →
  rate ≤ R → t0 ≤ T → throttle_sys_inv R T t0 burst (throttle_start t').
Proof.
  simpl. split_if; [done|]. breflect. intros [= <-] ??.
  split_and!; simpl; try lia; [|apply map_Forall_empty]. split_and!; simpl; lia.
Qed.

(** ** Absence of undefined behaviour *)

(** The environment for which no overflow and no division by zero can happen: the
    time credited at rate [R] on top of the burst fits 64 bits, requests fit after
    scaling, and the rate is never set to zero. *)
Definition event_safe (e : throttle_event) : Prop :=
  match e with
  | EvWait _ bytes => bytes * 1000000 < 2 ^ 63
  | EvSetRate rate => rate ≠ 0
  | EvRound _ _ | EvSetEnabled _ | EvGetStats _ => True
  end.

Definition throttle_safe (s : throttle_sys) : Prop :=
  0 < rate_bytes_per_sec (thr s) ∧
  map_Forall (λ _ bytes, bytes * 1000000 < 2 ^ 63) (waiting s).

Section Defined.
Context (R T t0 B : Z) (Ht0 : 0 ≤ t0) (HT : T < 2 ^ 63)
        (Hfits : B + R * (T - t0) < 2 ^ 63).

Lemma refill_tokens_defined t now_us :
  throttle_inv R T t0 B t → 0 ≤ now_us ≤ T → ∃ t', refill_tokens t now_us = Val t'.
Proof.
  intros (Htok & Hb & Hr & Hl) Hnow. unfold refill_tokens.
  rewrite i64c_ok by (unfold is_i64; lia). simpl. split_if; [eauto|].
  assert (0 ≤ (now_us - last_refill_us t) * rate_bytes_per_sec t ≤ R * (T - t0)).
  { split; [apply Z.mul_nonneg_nonneg; lia|].
    rewrite (Z.mul_comm R). apply Z.mul_le_mono_nonneg; lia. }
  rewrite i64c_ok by (unfold is_i64; lia). cbn [c_bind].
  unfold i64_div. cbn [Z.eqb]. rewrite Z.quot_div_nonneg by lia.
  set (q := _ / 1000000).
  assert (0 ≤ q ≤ (now_us - last_refill_us t) * rate_bytes_per_sec t) as Hq.
  { unfold q. split; [apply Z.div_pos; lia|apply Z.div_le_upper_bound; lia]. }
  rewrite i64c_ok by (unfold is_i64; lia). cbn [c_bind]. split_if; [|eauto].
  rewrite i64c_ok by (unfold is_i64; lia). simpl. eauto.
Qed.

Lemma wait_round_defined t bytes now_us :
  throttle_inv R T t0 B t → 0 < rate_bytes_per_sec t → 0 < bytes →
  bytes * 1000000 < 2 ^ 63 → 0 ≤ now_us ≤ T →
  ∃ t' r, wait_round t bytes now_us = Val (t', r).
Proof.
  intros Hinv Hrate Hb Hb' Hnow. unfold wait_round.
  destruct (refill_tokens_defined t now_us Hinv Hnow) as [t' Ht'].
  eapply refill_tokens_inv in Hinv as (Hinv' & Hr & _); [|apply Hnow|done].
  rewrite Ht'. cbn [c_bind]. destruct Hinv' as (Htok & _ & HR & HT0).
  assert (0 ≤ R * (T - t0)) by (apply Z.mul_nonneg_nonneg; lia). split_if.
  - rewrite i64c_ok by (unfold is_i64; lia). simpl. eauto.
  - rewrite i64c_ok by (unfold is_i64; lia). cbn [c_bind].
    rewrite i64c_ok by (unfold is_i64; lia). cbn [c_bind].
    unfold i64_div. rewrite (proj2 (Z.eqb_neq _ _)) by lia.
    rewrite Z.quot_div_nonneg by lia.
    rewrite i64c_ok; [simpl; eauto|].
    assert (0 ≤ (bytes - tokens t') * 1000000 / rate_bytes_per_sec t'
              ≤ (bytes - tokens t') * 1000000).
    { split; [apply Z.div_pos; lia|apply Z.div_le_upper_bound; nia]. }
    unfold is_i64. lia.
Qed.

Lemma throttle_step_defined s e :
  throttle_sys_inv R T t0 B s → throttle_safe s → event_within R T e → event_safe e →
  ∃ s', throttle_step s e = Val s' ∧ throttle_safe s'.
Proof.
  intros (Hinv & Hw & Hg) [Hr Hw'] He Hs.
  destruct e as [tid bytes|tid now|r|f|now]; simpl in *.
  - eexists. split; [done|]. split_if; [|by split]. split; [done|].
    by apply map_Forall_insert_2.
  - destruct (waiting s !! tid) as [bytes|] eqn:Hb; [|eexists; split; [done|by split]].
    destruct (wait_round_defined (thr s) bytes now) as (t' & r & Hwr); try done.
    { by apply (map_Forall_lookup_1 _ _ _ _ Hw Hb). }
    { by apply (map_Forall_lookup_1 _ _ _ _ Hw' Hb). }
    rewrite Hwr. simpl. eexists. split; [done|].
    eapply wait_round_inv in Hwr as (_ & Hr' & _);
      [|done|by apply (map_Forall_lookup_1 _ _ _ _ Hw Hb)|lia].
    destruct r; split; simpl; try lia; try done. by apply map_Forall_delete.
  - eexists. split; [done|]. split_if; [by split|]. split; simpl; [lia|done].
  - eexists. split; [done|]. by split.
  - destruct (refill_tokens_defined (thr s) now) as [t' Ht']; try done.
    rewrite Ht'. simpl. eexists. split; [done|].
    eapply refill_tokens_inv in Ht' as (_ & Hr' & _); [|done|lia].
    split; simpl; [lia|done].
Qed.

Lemma throttle_run_defined_aux s es :
  throttle_sys_inv R T t0 B s → throttle_safe s → Forall (event_within R T) es →
  Forall event_safe es → ∃ s', throttle_run s es = Val s'.
Proof.
  intros Hinv Hs Hes. revert s Hinv Hs. induction Hes as [|e es He _ IH];
    intros s Hinv Hs Hsafe; simpl; [eauto|].
  apply Forall_cons in Hsafe as [Hse Hsafe].
  destruct (throttle_step_defined s e) as (s1 & H1 & Hs1); try done.
  rewrite H1. simpl. apply IH; eauto using throttle_step_inv.
Qed.
End Defined.

(** ** The wait of a single caller *)

Fixpoint increasing (prev : Z) (clock : list Z) : Prop :=
  match clock with
  | [] => True
  | now_us :: clock => prev < now_us ∧ increasing now_us clock
  end.

(** Microseconds after which at least one token has been earned. *)
Definition token_period (rate : Z) : Z := (1000000 + rate - 1) / rate.

Lemma token_period_spec rate :
  0 < rate → 0 < token_period rate ∧ 1000000 ≤ token_period rate * rate.
Proof.
  intros. unfold token_period.
  pose proof (Z.div_mod (1000000 + rate - 1) rate ltac:(lia)).
  pose proof (Z.mod_pos_bound (1000000 + rate - 1) rate ltac:(lia)). split; nia.
Qed.

(** A refill either earns a token, restarting the credit, or leaves the bucket as it
    is because less than a token period has passed. *)
Lemma refill_tokens_progress t now_us t' :
  0 < rate_bytes_per_sec t → 0 ≤ tokens t ≤ burst_bytes t →
  last_refill_us t < now_us → refill_tokens t now_us = Val t' →
  (t' = t ∧ now_us - last_refill_us t < token_period (rate_bytes_per_sec t)) ∨
  (last_refill_us t' = now_us ∧ (tokens t < tokens t' ∨ tokens t' = burst_bytes t)).
Proof.
  intros Hr Htok Hnow. unfold refill_tokens. intros H. c_inv. clear H. revert H0.
  rewrite (proj2 (Z.leb_gt _ _)) by lia. intros H. c_inv. revert H1.
  destruct (token_period_spec (rate_bytes_per_sec t)) as [Hp Hp']; [done|].
  rewrite Z.quot_div_nonneg in * by nia. set (q := _ / 1000000) in *. split_if.
  - intros H1. c_inv. subst t'. right. simpl. split; [done|]. split_if; lia.
  - intros [= <-]. left. split; [done|].
    apply Z.nle_gt. intros Hle.
    assert (1 ≤ q); [|lia]. unfold q. apply Z.div_le_lower_bound; nia.
Qed.

Section Terminates.
Context (R T t0 B bytes : Z) (Ht0 : 0 ≤ t0) (HT : T < 2 ^ 63)
        (Hfits : B + R * (T - t0) < 2 ^ 63)
        (Hbytes : 0 < bytes ≤ B) (Hscale : bytes * 1000000 < 2 ^ 63).

Lemma wait_loop_terminates prev clock t rounds :
  throttle_inv R T t0 B t → 0 < rate_bytes_per_sec t →
  0 ≤ prev - last_refill_us t < token_period (rate_bytes_per_sec t) →
  increasing prev clock → Forall (λ now_us, 0 ≤ now_us ≤ T) clock →
  Z.max 1 ((bytes - tokens t) * token_period (rate_bytes_per_sec t)
           - (prev - last_refill_us t)) ≤ Z.of_nat (length clock) →
  ∃ t' n, wait_loop t bytes clock rounds = Val (Returned BUCKETS_OK (Some t') n) ∧
    Z.of_nat n - Z.of_nat rounds ≤ Z.max 1 ((bytes - tokens t) * token_period (rate_bytes_per_sec t)
                          - (prev - last_refill_us t)).
Proof.
  revert prev t rounds. induction clock as [|now clock IH];
    intros prev t rounds Hinv Hr Hprev Hinc Hclk Hlen; [simpl in Hlen; lia|].
  destruct Hinc as [Hlt Hinc]. apply Forall_cons in Hclk as [Hnow Hclk].
  destruct (token_period_spec (rate_bytes_per_sec t)) as [Hp _]; [done|].
  destruct (wait_round_defined R T t0 B Ht0 HT Hfits t bytes now) as (t' & r & Hwr);
    try done; [lia|].
  cbn [wait_loop]. rewrite Hwr. unfold wait_round in Hwr.
  apply c_bind_Val in Hwr as (t1 & Href & Hwr).
  pose proof Hinv as (Htok & Hburst & _).
  destruct (refill_tokens_progress t now t1) as [[-> He]|[Hl Hadd]]; [done|lia|lia|done|..];
    (eapply refill_tokens_inv in Href as (Hinv' & Hr' & _); [|done|lia]);
    revert Hwr; split_if; intros Hwr; c_inv; simplify_eq; [eauto with lia| |eauto with lia|].
  - destruct (IH now t' (S rounds)) as (t2 & n & -> & Hn); try done; [lia| |].
    { rewrite Z.max_r in Hlen |- * by nia. simpl length in Hlen. lia. }
    exists t2, n. split; [done|]. rewrite Z.max_r in Hn |- * by nia. lia.
  - destruct Hadd as [Hadd|Hadd]; [|lia]. rewrite <-Hr' in *.
    destruct (IH (last_refill_us t') t' (S rounds)) as (t2 & n & -> & Hn); try done; [lia| |].
    { rewrite Z.max_r in Hlen |- * by nia. simpl length in Hlen. nia. }
    exists t2, n. split; [done|]. rewrite Z.max_r in Hn |- * by nia. nia.
Qed.
End Terminates.

(** ** Bandwidth and termination *)

(** C22: However many workers share the throttle, whatever the administrator does to
    it and however the clock readings jump, the bytes granted by the token bucket up
    to the latest reading [T] never exceed the burst plus the time since the start
    at the highest rate in force; and the bucket never holds a negative number of
    tokens or more than the burst. *)
Theorem throttle_bandwidth_bound t rate burst t0 t' R T es s :
  buckets_throttle_init (Some t) rate burst t0 = (BUCKETS_OK, Some t') →
  rate ≤ R → t0 ≤ T → Forall (event_within R T) es →
  throttle_run (throttle_start t') es = Val s →
  granted s * 1000000 ≤ burst * 1000000 + R * (T - t0) ∧
  0 ≤ tokens (thr s) ≤ burst.
Proof.
  intros Hinit HR HT Hes Hrun.
  pose proof (throttle_init_inv _ _ _ _ _ _ _ Hinit HR HT) as Hinv.
  eapply throttle_run_inv in Hinv as ((Htok & _ & Hr & Hl) & _ & Hg); [|done..].
  split; [nia|done].
Qed.

(** Two workers race for a bucket of ten bytes refilled at two bytes a second: the
    second one is granted only after its sleep. *)
Definition race_events : list throttle_event :=
  [EvWait 1 8; EvWait 2 6; EvRound 1 1000000; EvRound 2 1000001; EvGetStats 2000000;
   EvRound 2 3500000].
Definition race_throttle : buckets_throttle := Throttle 10 2 10 1000000 true.

Lemma throttle_bandwidth_bound_witness :
  throttle_run (throttle_start race_throttle) race_events
    = Val (ThrottleSys (Throttle 1 2 10 3500000 true) ∅ 14) ∧
  14 * 1000000 ≤ 10 * 1000000 + 2 * (3500000 - 1000000).
Proof.
  assert (throttle_run (throttle_start race_throttle) race_events
    = Val (ThrottleSys (Throttle 1 2 10 3500000 true) ∅ 14)) as Hrun by reflexivity.
  split; [exact Hrun|].
  refine (proj1 (throttle_bandwidth_bound zero_throttle 2 10 1000000 race_throttle 2 3500000
           race_events _ _ _ _ _ Hrun)); [reflexivity|lia|lia|].
  repeat constructor; simpl; lia.
Defined.

(** A throttle whose rate is never set to zero is free of undefined behaviour,
    for any interleaving of workers and administration, as long as the burst plus the
    time since the start at the highest rate, and every request scaled to
    microseconds, fit a signed 64-bit integer. *)
Theorem throttle_run_defined t rate burst t0 t' R T es :
  buckets_throttle_init (Some t) rate burst t0 = (BUCKETS_OK, Some t') →
  0 < rate ≤ R → 0 ≤ t0 ≤ T → T < 2 ^ 63 → burst + R * (T - t0) < 2 ^ 63 →
  Forall (event_within R T) es → Forall event_safe es →
  ∃ s, throttle_run (throttle_start t') es = Val s.
Proof.
  intros Hinit HR HT HT' Hfits Hes Hsafe.
  apply (throttle_run_defined_aux R T t0 burst); try done; [lia|..].
  - eapply throttle_init_inv; [done|lia..].
  - simpl in Hinit. destruct ((rate <? 0) || (burst <? 0)); [done|].
    injection Hinit as <-. split; simpl; [lia|apply map_Forall_empty].
Qed.

Lemma throttle_run_defined_witness :
  ∃ s, throttle_run (throttle_start race_throttle) race_events = Val s.
Proof.
  eapply (throttle_run_defined zero_throttle 2 10 1000000 race_throttle 2 3500000);
    [reflexivity|lia|lia|lia|lia| |]; repeat constructor; simpl; lia.
Defined.

(** C37: A caller that is alone is granted a request of at most the burst after at
    most one round per token period of the missing bytes (and at least one), on any
    strictly increasing clock: the loop of [buckets_throttle_wait] terminates. *)
Theorem throttle_wait_terminates t bytes clock T :
  0 ≤ tokens t ≤ burst_bytes t → 0 < rate_bytes_per_sec t → enabled t = true →
  0 < bytes ≤ burst_bytes t → bytes * 1000000 < 2 ^ 63 →
  0 ≤ last_refill_us t ≤ T → T < 2 ^ 63 →
  burst_bytes t + rate_bytes_per_sec t * (T - last_refill_us t) < 2 ^ 63 →
  increasing (last_refill_us t) clock → Forall (λ now_us, now_us ≤ T) clock →
  Z.max 1 ((bytes - tokens t) * token_period (rate_bytes_per_sec t))
    ≤ Z.of_nat (length clock) →
  ∃ t' n, buckets_throttle_wait (Some t) bytes clock
            = Val (Returned BUCKETS_OK (Some t') n) ∧
    Z.of_nat n ≤ Z.max 1 ((bytes - tokens t) * token_period (rate_bytes_per_sec t)).
Proof.
  intros Htok Hr Hen Hb Hsc Hl HT Hfits Hinc Hclk Hlen.
  destruct (token_period_spec (rate_bytes_per_sec t) Hr) as [Hp _].
  assert (Forall (λ now_us, 0 ≤ now_us ≤ T) clock) as Hclk'.
  { clear Hlen. assert (0 ≤ last_refill_us t) as H0 by lia. revert H0 Hinc.
    generalize (last_refill_us t). induction Hclk as [|now clock Hnow _ IH]; intros p H0 Hi;
      constructor; destruct Hi; [lia|]. by apply (IH now); [lia|]. }
  destruct (wait_loop_terminates (rate_bytes_per_sec t) T (last_refill_us t) (burst_bytes t)
     bytes ltac:(lia) HT Hfits Hb Hsc (last_refill_us t) clock t 0) as (t' & n & Hw & Hn);
    try done; [by split_and!; lia|lia|by rewrite Z.sub_diag, Z.sub_0_r|].
  exists t', n. simpl. rewrite (proj2 (wait_enters_true t bytes)) by (split_and!; done || lia).
  split; [done|]. rewrite Z.sub_diag, !Z.sub_0_r in Hn. done.
Qed.

Lemma throttle_wait_terminates_witness :
  ∃ t' n, buckets_throttle_wait (Some (Throttle 1 1000000 10 0 true)) 4 [1; 2; 3]
            = Val (Returned BUCKETS_OK (Some t') n) ∧ Z.of_nat n ≤ 3.
Proof.
  apply (throttle_wait_terminates (Throttle 1 1000000 10 0 true) 4 [1; 2; 3] 3);
    simpl; try lia; repeat constructor; vm_compute; try done; intros; congruence.
Defined.

(** A request larger than the burst is never granted, on any clock. *)
Lemma throttle_wait_oversized_never_returns t bytes clock err t' n :
  0 ≤ tokens t ≤ burst_bytes t → 0 ≤ rate_bytes_per_sec t →
  wait_enters t bytes = true → burst_bytes t < bytes →
  buckets_throttle_wait (Some t) bytes clock ≠ Val (Returned err t' n).
Proof.
  intros Htok Hr Hen Hb. simpl. rewrite Hen. clear Hen. generalize 0%nat as rounds.
  revert t Htok Hr Hb. induction clock as [|now clock IH]; intros t Htok Hr Hb rounds; [done|].
  cbn [wait_loop]. destruct (wait_round t bytes now) as [[t1 r]|] eqn:Hwr; [|done].
  unfold wait_round in Hwr. apply c_bind_Val in Hwr as (t2 & Href & Hwr).
  eapply (refill_tokens_inv (rate_bytes_per_sec t) (Z.max now (last_refill_us t))
    (last_refill_us t) (burst_bytes t)) in Href as ((Htok' & Hb' & Hr' & _) & _);
    [|by split_and!; lia|lia].
  revert Hwr. rewrite (proj2 (Z.leb_gt _ _)) by lia. intros Hwr. c_inv. simplify_eq.
  apply IH; lia.
Qed.

(** A worker that waits for more tokens than there are divides by zero at its next
    round after the rate is set to zero ("unlimited"). *)
Lemma throttle_set_rate_zero_divides s tid bytes now_us :
  waiting s !! tid = Some bytes → tokens (thr s) < bytes →
  throttle_run s [EvSetRate 0; EvRound tid now_us] = Undef.
Proof.
  intros Hw Hb. simpl. rewrite Hw. unfold wait_round, refill_tokens. simpl.
  destruct (i64c (now_us - _)) as [e|]; [|done]. cbn [c_bind]. split_if; simpl.
  - rewrite (proj2 (Z.leb_gt _ _)) by done.
    destruct (i64c _); [|done]. simpl. by destruct (i64c _).
  - rewrite Z.mul_0_r. simpl. rewrite (proj2 (Z.leb_gt _ _)) by done.
    destruct (i64c _); [|done]. simpl. by destruct (i64c _).
Qed.

(** The default throttle overflows its refill when it is first used 25 hours after
    its creation, whatever the request. *)
Lemma throttle_default_idle_overflow t0 bytes :
  0 ≤ t0 < 2 ^ 62 → 0 < bytes →
  buckets_throttle_wait (buckets_throttle_create_default t0) bytes
    [t0 + 25 * 3600 * 1000000] = Undef.
Proof.
  intros Ht Hb. unfold buckets_throttle_create_default, buckets_throttle_wait. simpl.
  unfold wait_enters. simpl. rewrite (proj2 (Z.leb_gt _ _)) by done.
  unfold wait_round, refill_tokens. cbn [last_refill_us].
  replace (t0 + 25 * 3600 * 1000000 - t0) with 90000000000 by lia. reflexivity.
Qed.
