(* ===== verification/DiskIO.v ===== *)
(** * Files of a disk (src/src/cluster/disk_utils.c, src/src/cluster/atomic_io.c)

    The paths of the metadata files of a disk, and the write of a file through a
    temporary file and a rename. The file system is a map from paths to contents; each
    system call of a write either succeeds or fails as the environment decides. *)

From S2P Require Import Prelude CInt CString.
From Stdlib Require Import Ascii.

(** ** Paths (disk_utils.c) *)

Definition BUCKETS_META_DIR : string := ".buckets.sys".
Definition BUCKETS_FORMAT_FILE : string := "format.json".
Definition BUCKETS_TOPOLOGY_FILE : string := "topology.json".

(** One trailing slash is removed. *)
Definition buckets_get_meta_dir (disk_path : option string) : option string :=
  match disk_path with
  | None => None
  | Some p =>
      let len := strlen p in
      match String.get (len - 1) p with
      | Some "/"%char => Some (String.substring 0 (len - 1) p +:+ "/" +:+ BUCKETS_META_DIR)
      | _ => Some (p +:+ "/" +:+ BUCKETS_META_DIR)
      end
  end.

Definition buckets_get_format_path (disk_path : option string) : option string :=
  match buckets_get_meta_dir disk_path with
  | None => None
  | Some meta_dir => Some (meta_dir +:+ "/" +:+ BUCKETS_FORMAT_FILE)
  end.

Definition buckets_get_topology_path (disk_path : option string) : option string :=
  match buckets_get_meta_dir disk_path with
  | None => None
  | Some meta_dir => Some (meta_dir +:+ "/" +:+ BUCKETS_TOPOLOGY_FILE)
  end.

(** ** The file system *)

Abbreviation fs_t := (gmap string string).

(** [access(format_path, R_OK) == 0], every existing file being readable. *)
Definition buckets_disk_is_formatted (fs : fs_t) (disk_path : option string) : bool :=
  match buckets_get_format_path disk_path with
  | None => false
  | Some format_path => bool_decide (is_Some (fs !! format_path))
  end.

(** What the system calls of one write do: the result of creating the directory, how
    many bytes [fwrite] accepts ([None]: all), which calls succeed, and the result of syncing the
    directory. *)
Record write_env := WriteEnv {
  we_ensure : buckets_error_t;
  we_fopen : bool;
  we_fwrite : option nat;
  we_fflush : bool;
  we_fsync : bool;
  we_rename : bool;
  we_syncdir : buckets_error_t
}.

(** Every call succeeds. *)
Definition write_env_ok : write_env :=
  WriteEnv BUCKETS_OK true None true true true BUCKETS_OK.

(** [<path>.tmp.<pid>] *)
Definition temp_path (path : string) (pid : N) : string :=
  path +:+ ".tmp." +:+ pretty pid.

(** The return code and the file systems the write goes through, from the one it finds
    to the one it leaves: a crash leaves one of them. *)
Definition buckets_atomic_write (env : write_env) (pid : N) (fs : fs_t)
    (path data : option string) : buckets_error_t * list fs_t :=
  match path, data with
  | Some path, Some data =>
      let temp := temp_path path pid in
      match we_ensure env with
      | BUCKETS_OK =>
          if negb (we_fopen env) then (BUCKETS_ERR_IO, [fs])
          else
            let fs1 := <[temp := ""]> fs in
            let written :=
              match we_fwrite env with
              | None => strlen data
              | Some n => Nat.min n (strlen data)
              end in
            let fs2 := <[temp := String.substring 0 written data]> fs1 in
            if negb (written =? strlen data)%nat
            then (BUCKETS_ERR_IO, [fs; fs1; fs2; delete temp fs2])
            else if negb (we_fflush env)
            then (BUCKETS_ERR_IO, [fs; fs1; fs2; delete temp fs2])
            else if negb (we_fsync env)
            then (BUCKETS_ERR_IO, [fs; fs1; fs2; delete temp fs2])
            else if negb (we_rename env)
            then (BUCKETS_ERR_IO, [fs; fs1; fs2; delete temp fs2])
            else
              let fs3 := <[path := String.substring 0 written data]> (delete temp fs2) in
              (we_syncdir env, [fs; fs1; fs2; fs3])
      | err => (err, [fs])
      end
  | _, _ => (BUCKETS_ERR_INVALID_ARG, [fs])
  end.

(** The file system the write leaves. *)
Definition fs_after (fs : fs_t) (r : buckets_error_t * list fs_t) : fs_t :=
  default fs (last r.2).

(** The whole file, unless a system call fails. *)
Definition buckets_atomic_read (read_ok : bool) (fs : fs_t) (path : option string)
    : buckets_error_t * option string :=
  match path with
  | None => (BUCKETS_ERR_INVALID_ARG, None)
  | Some path =>
      match fs !! path with
      | Some data => if read_ok then (BUCKETS_OK, Some data) else (BUCKETS_ERR_IO, None)
      | None => (BUCKETS_ERR_IO, None)
      end
  end.

(** ** Lemmas *)

Lemma substring_full s : String.substring 0 (strlen s) s = s.
Proof. apply (strncpy_short (strlen s) s). done. Qed.

Lemma temp_path_ne path pid : temp_path path pid ≠ path.
Proof.
  intros E%(f_equal strlen). unfold temp_path in E. rewrite !strlen_app in E.
  change (strlen ".tmp.") with 5%nat in E. lia.
Qed.

(** A temporary path ends with a digit, so it is no metadata file. *)
Lemma temp_path_last path pid p c :
  last_char p = Some c → digit_value c = None → temp_path path pid ≠ p.
Proof.
  intros Hp Hc E. destruct (pretty_N_last pid) as (c' & d & Hl & Hd).
  assert (last_char (temp_path path pid) = Some c') as H.
  { unfold temp_path. rewrite !last_char_app; [done|apply pretty_N_ne_empty|].
    intros E'%(f_equal strlen). rewrite strlen_app in E'. simpl in E'. lia. }
  rewrite E in H. congruence.
Qed.

Lemma topology_path_last disk_path p :
  buckets_get_topology_path disk_path = Some p → last_char p = Some "n"%char.
Proof.
  unfold buckets_get_topology_path. destruct (buckets_get_meta_dir disk_path); [|done].
  intros [= <-]. by rewrite !last_char_app.
Qed.

Lemma topology_path_Some disk_path :
  is_Some (buckets_get_topology_path (Some disk_path)).
Proof.
  unfold buckets_get_topology_path, buckets_get_meta_dir.
  destruct (String.get _ _) as [[[] [] [] [] [] [] [] []]|]; eauto.
Qed.

Lemma temp_path_ne_topology path pid disk_path p :
  buckets_get_topology_path disk_path = Some p → temp_path path pid ≠ p.
Proof. intros Hp%topology_path_last. by eapply temp_path_last. Qed.

(** What the write leaves: on success the new contents; otherwise the old or the new
    contents. No file but the written one and its temporary file changes. *)
Lemma atomic_write_lookup env pid fs path data err st :
  buckets_atomic_write env pid fs (Some path) (Some data) = (err, st) →
  Forall (λ fs', (fs' !! path = fs !! path ∨ fs' !! path = Some data) ∧
                 ∀ q, q ≠ path → q ≠ temp_path path pid → fs' !! q = fs !! q) st ∧
  (err = BUCKETS_OK → fs_after fs (err, st) !! path = Some data) ∧
  fs_after fs (err, st) ∈ st.
Proof.
  unfold buckets_atomic_write, fs_after.
  pose proof (temp_path_ne path pid) as Hne. set (temp := temp_path path pid) in *.
  assert (∀ k v (m : fs_t),
    ((m !! path = fs !! path ∨ m !! path = Some data) ∧
      ∀ q, q ≠ path → q ≠ temp → m !! q = fs !! q) → k = temp →
    ((<[k := v]> m !! path = fs !! path ∨ <[k := v]> m !! path = Some data) ∧
      ∀ q, q ≠ path → q ≠ temp → <[k := v]> m !! q = fs !! q)) as Hins.
  { intros k v m [H1 H2] ->. split; [by rewrite lookup_insert_ne|].
    intros. rewrite lookup_insert_ne by done. auto. }
  assert (∀ (m : fs_t),
    ((m !! path = fs !! path ∨ m !! path = Some data) ∧
      ∀ q, q ≠ path → q ≠ temp → m !! q = fs !! q) →
    ((delete temp m !! path = fs !! path ∨ delete temp m !! path = Some data) ∧
      ∀ q, q ≠ path → q ≠ temp → delete temp m !! q = fs !! q)) as Hdel.
  { intros m [H1 H2]. split; [by rewrite lookup_delete_ne|].
    intros. rewrite lookup_delete_ne by done. auto. }
  assert ((fs !! path = fs !! path ∨ fs !! path = Some data) ∧
      ∀ q, q ≠ path → q ≠ temp → fs !! q = fs !! q) as H0 by (split; [by left|done]).
  destruct (we_ensure env); try (by intros [= <- <-]; split_and!;
    [by repeat constructor; auto|done|simpl; rewrite !elem_of_cons; auto 6]).
  repeat split_if; intros H; apply pair_equal_spec in H as [<- <-];
    (split_and!; [|try done|simpl; rewrite !elem_of_cons; auto 6]); 
    try (repeat (apply Forall_cons_2; [by auto 6|]); by apply Forall_nil_2).
  - do 3 (apply Forall_cons_2; [by auto 6|]). apply Forall_singleton. split.
    + right. rewrite lookup_insert_eq, Heqb0. by rewrite substring_full.
    + intros. rewrite lookup_insert_ne by done. apply Hdel; auto 6.
  - intros _. simpl. by rewrite lookup_insert_eq, Heqb0, substring_full.
Qed.

(** A file is replaced atomically: whichever system call fails, and wherever a
    crash interrupts the write, the file holds its old or its whole new contents and
    no other file but the temporary one has changed; success means the new contents
    are in place, and a completed write leaves no temporary file behind once it had
    created one. *)
Theorem atomic_write_all_or_nothing env pid fs path data err st :
  buckets_atomic_write env pid fs (Some path) (Some data) = (err, st) →
  (∀ fs', fs' ∈ st →
     (fs' !! path = fs !! path ∨ fs' !! path = Some data) ∧
     ∀ q, q ≠ path → q ≠ temp_path path pid → fs' !! q = fs !! q) ∧
  (err = BUCKETS_OK → fs_after fs (err, st) !! path = Some data) ∧
  (1 < length st → fs_after fs (err, st) !! temp_path path pid = None)%nat.
Proof.
  intros H. pose proof H as Hw. apply atomic_write_lookup in Hw as (Hst & Hok & Hlast).
  rewrite Forall_forall in Hst. split_and!; [done|done|].
  - clear Hst Hok Hlast. unfold buckets_atomic_write in H.
    pose proof (temp_path_ne path pid).
    destruct (we_ensure env); try (by simplify_eq/=; lia).
    revert H. repeat split_if; intros [= <- <-]; simpl; intros; try lia;
      unfold fs_after; simpl; rewrite ?lookup_insert_ne, lookup_delete_eq by done; done.
Qed.

Lemma atomic_write_all_or_nothing_witness :
  fs_after (<["f" := "old"]> ∅)
    (buckets_atomic_write (WriteEnv BUCKETS_OK true (Some 2%nat) true true true BUCKETS_OK) 7
       (<["f" := "old"]> ∅) (Some "f") (Some "new!")) !! temp_path "f" 7 = None.
Proof.
  refine (proj2 (proj2 (atomic_write_all_or_nothing
    (WriteEnv BUCKETS_OK true (Some 2%nat) true true true BUCKETS_OK) 7 (<["f" := "old"]> ∅) "f" "new!"
    _ _ eq_refl)) _). simpl. lia.
Defined.
