(* ===== verification/Json.v ===== *)
(** * JSON documents (src/src/cluster/json_helpers.c)

    The wrappers the cluster code uses over cJSON. The tree cJSON builds is the
    inductive type [json]; printing and parsing, which are the third-party library's,
    are the operations of the class [CJson], and what the code relies on (a printed
    document parses back to itself) is the class [CJsonLaws]. *)

From S2P Require Import Prelude CInt CString DiskIO.
From Stdlib Require Import Ascii.
From stdpp Require Import countable.

Local Open Scope Z_scope.

(** A number carries its value; the documents of this program hold integers, which the
    library keeps as a double ([valuedouble]) and, saturated, as an [int] ([valueint]). *)
Inductive json :=
  | JNull
  | JBool (b : bool)
  | JNumber (value : Z)
  | JString (valuestring : string)
  | JArray (items : list json)
  | JObject (items : list (string * json)).

Fixpoint find_item (items : list (string * json)) (key : string) : option json :=
  match items with
  | [] => None
  | (k, v) :: items => if String.eqb k key then Some v else find_item items key
  end.

(** [cJSON_GetObjectItemCaseSensitive]: the first item of that name; only an object has
    named items. *)
Definition get_item (obj : json) (key : string) : option json :=
  match obj with JObject items => find_item items key | _ => None end.

(** The [int] that the library stores beside the double. *)
Definition valueint (z : Z) : Z := Z.max (- 2 ^ 31) (Z.min (2 ^ 31 - 1) z).

(** Integers that a double holds exactly. *)
Definition is_exact (z : Z) : Prop := - 2 ^ 53 ≤ z ≤ 2 ^ 53.

Lemma valueint_id z : is_i32 z → valueint z = z.
Proof. unfold is_i32, valueint. lia. Qed.

Lemma is_i32_exact z : is_i32 z → is_exact z.
Proof. unfold is_i32, is_exact. lia. Qed.

(** Integers that are exact, nested at most [depth] deep. *)
Fixpoint json_ok (depth : nat) (j : json) : Prop :=
  match j with
  | JNumber z => is_exact z
  | JArray l => match depth with O => False | S d => Forall (json_ok d) l end
  | JObject l => match depth with O => False | S d => Forall (λ kv, json_ok d kv.2) l end
  | _ => True
  end.

(** Documents within the reach of the library's parser ([CJSON_NESTING_LIMIT]). *)
Definition json_printable (j : json) : Prop := ∃ d, Z.of_nat d ≤ 1000 ∧ json_ok d j.

(** The library's printer and parser; [None] is NULL. *)
Class CJson := {
  cJSON_Print : json → option string;
  cJSON_PrintUnformatted : json → option string;
  cJSON_Parse : string → option json
}.

(** A printed document is a C string that is not empty. *)
Class CJsonText `{CJson} :=
  cjson_unformatted_text j s :
    cJSON_PrintUnformatted j = Some s → s ≠ "" ∧ Forall (λ c, c ≠ ascii_of_nat 0) (String.list_ascii_of_string s).

Class CJsonLaws `{CJson} := {
  cjson_parse_print j s :
    json_printable j → cJSON_Print j = Some s → cJSON_Parse s = Some j;
  cjson_parse_unformatted j s :
    json_printable j → cJSON_PrintUnformatted j = Some s → cJSON_Parse s = Some j
}.

Section Helpers.
Context `{CJson}.

Definition buckets_json_parse (json_str : option string) : option json :=
  match json_str with None => None | Some s => cJSON_Parse s end.

Definition buckets_json_load (read_ok : bool) (fs : fs_t) (path : option string)
    : option json :=
  match path with
  | None => None
  | Some path =>
      match buckets_atomic_read read_ok fs (Some path) with
      | (BUCKETS_OK, data) => buckets_json_parse data
      | _ => None
      end
  end.

Definition buckets_json_save (env : write_env) (pid : N) (fs : fs_t)
    (path : option string) (doc : option json) (formatted : bool)
    : buckets_error_t * list fs_t :=
  match path, doc with
  | Some path, Some j =>
      match (if formatted then cJSON_Print j else cJSON_PrintUnformatted j) with
      | None => (BUCKETS_ERR_NOMEM, [fs])
      | Some json_str => buckets_atomic_write env pid fs (Some path) (Some json_str)
      end
  | _, _ => (BUCKETS_ERR_INVALID_ARG, [fs])
  end.
End Helpers.

Definition buckets_json_get_string (obj : option json) (key : string)
    (default_value : option string) : option string :=
  match obj with
  | None => default_value
  | Some obj =>
      match get_item obj key with Some (JString s) => Some s | _ => default_value end
  end.

Definition buckets_json_get_int (obj : option json) (key : string) (default_value : Z) : Z :=
  match obj with
  | None => default_value
  | Some obj =>
      match get_item obj key with Some (JNumber z) => valueint z | _ => default_value end
  end.

Definition buckets_json_get_bool (obj : option json) (key : string)
    (default_value : bool) : bool :=
  match obj with
  | None => default_value
  | Some obj =>
      match get_item obj key with Some (JBool b) => b | _ => default_value end
  end.

Definition buckets_json_get_object (obj : option json) (key : string) : option json :=
  match obj with
  | None => None
  | Some obj =>
      match get_item obj key with Some (JObject l) => Some (JObject l) | _ => None end
  end.

(** The elements of the array. *)
Definition buckets_json_get_array (obj : option json) (key : string) : option (list json) :=
  match obj with
  | None => None
  | Some obj => match get_item obj key with Some (JArray l) => Some l | _ => None end
  end.

(** The [add] functions append an item to an object under construction, given by its
    items; a NULL value adds nothing. *)
Definition buckets_json_add_string (obj : list (string * json)) (key : string)
    (value : option string) : list (string * json) :=
  match value with None => obj | Some s => obj ++ [(key, JString s)] end.

Definition buckets_json_add_int (obj : list (string * json)) (key : string) (value : Z)
    : list (string * json) := obj ++ [(key, JNumber value)].

Definition buckets_json_add_bool (obj : list (string * json)) (key : string) (value : bool)
    : list (string * json) := obj ++ [(key, JBool value)].

Definition buckets_json_add_object (obj : list (string * json)) (key : string)
    (child : option json) : list (string * json) :=
  match child with None => obj | Some c => obj ++ [(key, c)] end.

Definition buckets_json_add_array (obj : list (string * json)) (key : string)
    (array : option (list json)) : list (string * json) :=
  match array with None => obj | Some a => obj ++ [(key, JArray a)] end.

(** ** Saving and loading *)

Section SaveLoad.
Context `{CJsonLaws}.

Lemma json_save_load env pid fs path j formatted st :
  json_printable j →
  buckets_json_save env pid fs (Some path) (Some j) formatted = (BUCKETS_OK, st) →
  buckets_json_load true (fs_after fs (BUCKETS_OK, st)) (Some path) = Some j.
Proof.
  intros Hok. unfold buckets_json_save, buckets_json_load.
  destruct (if formatted then _ else _) as [s|] eqn:Hp; [|done]. intros Hw.
  apply atomic_write_lookup in Hw as (_ & Hl & _). specialize (Hl eq_refl).
  simpl in *. rewrite Hl. simpl. destruct formatted;
    [by apply cjson_parse_print|by apply cjson_parse_unformatted].
Qed.

(** The printed form determines the document. *)
Lemma print_unformatted_inj j j' s :
  json_printable j → json_printable j' →
  cJSON_PrintUnformatted j = Some s → cJSON_PrintUnformatted j' = Some s → j = j'.
Proof.
  intros Hj Hj' H1 H2. apply cjson_parse_unformatted in H1, H2; [|done..]. congruence.
Qed.
End SaveLoad.

(** ** A printer and parser that satisfy the laws

    Documents are encoded through the generic trees of stdpp, as packed bits. *)

Module BitsCJson.
Fixpoint to_tree (j : json) : gen_tree (bool + Z + string) :=
  match j with
  | JNull => GenNode 0 []
  | JBool b => GenLeaf (inl (inl b))
  | JNumber z => GenLeaf (inl (inr z))
  | JString s => GenLeaf (inr s)
  | JArray l => GenNode 1 (map to_tree l)
  | JObject l => GenNode 2 (map (λ kv, GenNode 3 [GenLeaf (inr kv.1); to_tree kv.2]) l)
  end.

Fixpoint of_tree (t : gen_tree (bool + Z + string)) : json :=
  match t with
  | GenLeaf (inl (inl b)) => JBool b
  | GenLeaf (inl (inr z)) => JNumber z
  | GenLeaf (inr s) => JString s
  | GenNode 1 l => JArray (map of_tree l)
  | GenNode 2 l =>
      JObject (map (λ t, match t with
                         | GenNode 3 [GenLeaf (inr k); v] => (k, of_tree v)
                         | _ => ("", JNull)
                         end) l)
  | _ => JNull
  end.

Lemma of_to_tree : ∀ j, of_tree (to_tree j) = j.
Proof.
  fix IH 1. intros [|b|z|s|l|l]; simpl; try done; f_equal.
  - induction l as [|j l IHl]; simpl; [done|]. by rewrite IH, IHl.
  - induction l as [|[k j] l IHl]; simpl; [done|]. by rewrite IH, IHl.
Qed.

Fixpoint pos_bits (p : positive) : list bool :=
  match p with xH => [] | xO p => false :: pos_bits p | xI p => true :: pos_bits p end.

Fixpoint bits_pos (l : list bool) : positive :=
  match l with
  | [] => xH
  | b :: l => if b then xI (bits_pos l) else xO (bits_pos l)
  end.

(** Seven bits to a character; the bits that are left take one character each. *)
Fixpoint pack (l : list bool) : string :=
  match l with
  | b0 :: b1 :: b2 :: b3 :: b4 :: b5 :: b6 :: l =>
      String (Ascii b0 b1 b2 b3 b4 b5 b6 true) (pack l)
  | b :: l => String (Ascii b true true true true true true false) (pack l)
  | [] => EmptyString
  end.

Fixpoint unpack (s : string) : list bool :=
  match s with
  | String (Ascii b0 b1 b2 b3 b4 b5 b6 true) s =>
      b0 :: b1 :: b2 :: b3 :: b4 :: b5 :: b6 :: unpack s
  | String (Ascii b _ _ _ _ _ _ false) s => b :: unpack s
  | EmptyString => []
  end.

Lemma bits_pos_bits p : bits_pos (pos_bits p) = p.
Proof. induction p; simpl; congruence. Qed.

Lemma unpack_pack : ∀ l, unpack (pack l) = l.
Proof.
  fix IH 1. intros [|b0 [|b1 [|b2 [|b3 [|b4 [|b5 [|b6 l]]]]]]]; simpl; try done.
  by rewrite IH.
Qed.

Definition print (j : json) : option string := Some (String "{" (pack (pos_bits (encode (to_tree j))))).
Definition parse (s : string) : option json :=
  match s with
  | String _ s => of_tree <$> decode (bits_pos (unpack s))
  | EmptyString => None
  end.

Lemma parse_print j s : print j = Some s → parse s = Some j.
Proof.
  intros [= <-]. unfold parse. rewrite unpack_pack, bits_pos_bits, decode_encode. simpl.
  by rewrite of_to_tree.
Qed.

#[export] Instance bits_cjson : CJson := {|
  cJSON_Print := print; cJSON_PrintUnformatted := print; cJSON_Parse := parse
|}.

#[export] Instance bits_cjson_laws : CJsonLaws.
Proof. split; intros j s _; apply parse_print. Qed.

#[export] Instance bits_cjson_text : CJsonText.
Proof.
  intros j s [= <-]. split; [done|]. constructor; [done|]. generalize (pos_bits (encode (to_tree j))).
  fix IH 1. intros [|b0 [|b1 [|b2 [|b3 [|b4 [|b5 [|b6 l]]]]]]]; cbn [pack String.list_ascii_of_string];
    repeat constructor; try (intros E; vm_compute in E; congruence). apply IH.
Qed.
End BitsCJson.
