(* ===== verification/Format.v ===== *)
(** * Disk format (src/src/cluster/format.c, src/src/cluster/uuid.c)

    The immutable identity of a cluster: its deployment id and the UUIDs of the disks
    of every erasure set, stored as format.json on each disk. SHA-256, which OpenSSL
    computes, and random UUIDs are arguments. *)

From S2P Require Import Prelude CInt CString SipHash DiskIO Json.
From Stdlib Require Import Ascii.

Record buckets_format_meta := FormatMeta {
  meta_version : string;
  format_type : string;
  meta_deployment_id : string
}.

(** [sets] is the [set_count] by [disks_per_set] matrix of disk UUIDs; [set_count] is
    the length of the list. *)
Record buckets_erasure_info := ErasureInfo {
  ei_version : string;
  this_disk : string;
  ei_sets : list (list string);
  disks_per_set : nat;
  distribution_algo : string
}.

Record buckets_format := Format {
  meta : buckets_format_meta;
  erasure : buckets_erasure_info
}.

Definition ei_set_count (e : buckets_erasure_info) : nat := length (ei_sets e).

Definition BUCKETS_FORMAT_VERSION : string := "1".
Definition BUCKETS_FORMAT_TYPE : string := "erasure".
Definition BUCKETS_ERASURE_VERSION : string := "3".
Definition BUCKETS_DISTRIBUTION_ALGO : string := "SIPMOD+PARITY".

(** ** Creation *)

(** [uuid[i] = (uuid[i] & mask) | bits] *)
Definition set_bits (uuid : list Z) (i : nat) (mask bits : Z) : list Z :=
  match uuid !! i with
  | Some b => <[i := Z.lor (Z.land b mask) bits]> uuid
  | None => uuid
  end.

Section Create.
Context (SHA256 : list Z → list Z).

(** [random_uuid] is what [buckets_uuid_generate] would produce. *)
Definition buckets_uuid_generate_from_name (random_uuid : string) (name : option string)
    : string :=
  match name with
  | None => random_uuid
  | Some name =>
      let hash := SHA256 (str_bytes name) in
      let uuid := take 16 hash in
      let uuid := set_bits uuid 6 0x0F 0x50 in
      let uuid := set_bits uuid 8 0x3F 0x80 in
      canonical_uuid uuid
  end.

(** The name a disk UUID is derived from. *)
Definition disk_name (deployment_id : string) (i j : nat) : string :=
  snprintf 128 (deployment_id +:+ "-set" +:+ pretty i +:+ "-disk" +:+ pretty j).

Definition buckets_format_new_with_deployment_id (set_count dps : Z)
    (cluster_deployment_id : option string) (random_uuid : string) : option buckets_format :=
  if (set_count <=? 0) || (dps <=? 0) then None
  else
    let deployment_id :=
      match cluster_deployment_id with
      | Some (String _ _ as name) =>
          buckets_uuid_generate_from_name random_uuid (Some name)
      | _ => random_uuid
      end in
    Some {| meta := {| meta_version := strncpy 15 BUCKETS_FORMAT_VERSION;
                       format_type := strncpy 15 BUCKETS_FORMAT_TYPE;
                       meta_deployment_id := deployment_id |};
            erasure := {| ei_version := strncpy 15 BUCKETS_ERASURE_VERSION;
                          this_disk := "";
                          ei_sets :=
                            (λ i, (λ j, buckets_uuid_generate_from_name random_uuid
                                          (Some (disk_name deployment_id i j)))
                                    <$> seq 0 (Z.to_nat dps))
                              <$> seq 0 (Z.to_nat set_count);
                          disks_per_set := Z.to_nat dps;
                          distribution_algo := strncpy 31 BUCKETS_DISTRIBUTION_ALGO |} |}.

Definition buckets_format_new (set_count dps : Z) (random_uuid : string)
    : option buckets_format :=
  buckets_format_new_with_deployment_id set_count dps None random_uuid.
End Create.

(** ** JSON *)

Definition format_to_json (format : buckets_format) : json :=
  let root := [] in
  let root := buckets_json_add_string root "version" (Some (meta_version (meta format))) in
  let root := buckets_json_add_string root "format" (Some (format_type (meta format))) in
  let root := buckets_json_add_string root "id" (Some (meta_deployment_id (meta format))) in
  let e := erasure format in
  let xl := [] in
  let xl := buckets_json_add_string xl "version" (Some (ei_version e)) in
  let xl := buckets_json_add_string xl "this" (Some (this_disk e)) in
  let xl := buckets_json_add_string xl "distributionAlgo" (Some (distribution_algo e)) in
  let sets := (λ set, JArray (JString <$> take (disks_per_set e) set)) <$> ei_sets e in
  let xl := buckets_json_add_array xl "sets" (Some sets) in
  JObject (buckets_json_add_object root "xl" (Some (JObject xl))).

(** The UUIDs of one set; [None] when an element is not a string. *)
Fixpoint parse_disks (l : list json) : option (list string) :=
  match l with
  | [] => Some []
  | JString s :: l => cons s <$> parse_disks l
  | _ :: _ => None
  end.

(** The loop over the sets: the first set fixes [disks_per_set]. *)
Fixpoint parse_sets (first : option nat) (l : list json) : option (list (list string)) :=
  match l with
  | [] => Some []
  | JArray set :: l =>
      let disks_in_set := length set in
      if bool_decide (first = None ∨ first = Some disks_in_set) then
        match parse_disks set with
        | None => None
        | Some disks =>
            cons disks <$> parse_sets (Some (default disks_in_set first)) l
        end
      else None
  | _ :: _ => None
  end.

Definition format_from_json (doc : option json) : option buckets_format :=
  match doc with
  | None => None
  | Some j =>
      let version := buckets_json_get_string (Some j) "version" (Some BUCKETS_FORMAT_VERSION) in
      let ftype := buckets_json_get_string (Some j) "format" (Some BUCKETS_FORMAT_TYPE) in
      match buckets_json_get_string (Some j) "id" None with
      | None => None
      | Some deployment_id =>
          match buckets_json_get_object (Some j) "xl" with
          | None => None
          | Some e =>
              let erasure_version :=
                buckets_json_get_string (Some e) "version" (Some BUCKETS_ERASURE_VERSION) in
              let this := buckets_json_get_string (Some e) "this" (Some "") in
              let dist_algo :=
                buckets_json_get_string (Some e) "distributionAlgo"
                  (Some BUCKETS_DISTRIBUTION_ALGO) in
              match buckets_json_get_array (Some e) "sets" with
              | None => None
              | Some sets =>
                  if (length sets =? 0)%nat then None
                  else
                    match parse_sets None sets with
                    | None => None
                    | Some uuids =>
                        Some {| meta :=
                                  {| meta_version := strncpy 15 (default "" version);
                                     format_type := strncpy 15 (default "" ftype);
                                     meta_deployment_id := strncpy 36 deployment_id |};
                                erasure :=
                                  {| ei_version := strncpy 15 (default "" erasure_version);
                                     this_disk := strncpy 36 (default "" this);
                                     ei_sets := uuids;
                                     disks_per_set := length (default [] (head uuids));
                                     distribution_algo :=
                                       strncpy 31 (default "" dist_algo) |} |}
                    end
              end
          end
      end
  end.

Definition buckets_format_clone (format : option buckets_format) : option buckets_format :=
  match format with
  | None => None
  | Some f => format_from_json (Some (format_to_json f))
  end.

(** ** Persistence *)

Section Persist.
Context `{CJson}.

Definition buckets_format_save (env : write_env) (pid : N) (fs : fs_t)
    (disk_path : option string) (format : option buckets_format)
    : buckets_error_t * list fs_t :=
  match disk_path, format with
  | Some p, Some f =>
      match buckets_get_format_path (Some p) with
      | None => (BUCKETS_ERR_NOMEM, [fs])
      | Some format_path =>
          buckets_json_save env pid fs (Some format_path) (Some (format_to_json f)) true
      end
  | _, _ => (BUCKETS_ERR_INVALID_ARG, [fs])
  end.

Definition buckets_format_load (read_ok : bool) (fs : fs_t) (disk_path : option string)
    : option buckets_format :=
  match disk_path with
  | None => None
  | Some p =>
      match buckets_get_format_path (Some p) with
      | None => None
      | Some format_path => format_from_json (buckets_json_load read_ok fs (Some format_path))
      end
  end.
End Persist.

(** ** Validation *)

(** A format counts as valid when it agrees with the reference; a version difference is
    only a warning. *)
Definition format_matches (reference f : buckets_format) : bool :=
  if negb (strcmp_eq (meta_deployment_id (meta f)) (meta_deployment_id (meta reference)))
  then false
  else if negb (ei_set_count (erasure f) =? ei_set_count (erasure reference))%nat then false
  else if negb (disks_per_set (erasure f) =? disks_per_set (erasure reference))%nat
  then false
  else if negb (strcmp_eq (distribution_algo (erasure f)) (distribution_algo (erasure reference)))
  then false
  else true.

Fixpoint first_format (formats : list (option buckets_format)) : option buckets_format :=
  match formats with
  | [] => None
  | Some f :: _ => Some f
  | None :: formats => first_format formats
  end.

(** The loop over the formats, counting the valid ones. *)
Fixpoint count_valid (reference : buckets_format) (formats : list (option buckets_format))
    (valid_count : nat) : nat :=
  match formats with
  | [] => valid_count
  | None :: formats => count_valid reference formats valid_count
  | Some f :: formats =>
      count_valid reference formats
        (if format_matches reference f then S valid_count else valid_count)
  end.

Definition buckets_format_validate (formats : option (list (option buckets_format)))
    : buckets_error_t :=
  match formats with
  | None => BUCKETS_ERR_INVALID_ARG
  | Some l =>
      if (length l =? 0)%nat then BUCKETS_ERR_INVALID_ARG
      else
        match first_format l with
        | None => BUCKETS_ERR_INVALID_ARG
        | Some reference =>
            let valid_count := count_valid reference l 0 in
            let required_quorum := (length l / 2 + 1)%nat in
            if (valid_count <? required_quorum)%nat then BUCKETS_ERR_QUORUM
            else BUCKETS_OK
        end
  end.

(** ** Well-formed formats *)

(** Every string fits its array and every set has [disks_per_set] disks. *)
Record wf_format (f : buckets_format) : Prop := {
  wf_meta_version : (strlen (meta_version (meta f)) ≤ 15)%nat;
  wf_format_type : (strlen (format_type (meta f)) ≤ 15)%nat;
  wf_deployment_id : (strlen (meta_deployment_id (meta f)) ≤ 36)%nat;
  wf_ei_version : (strlen (ei_version (erasure f)) ≤ 15)%nat;
  wf_this_disk : (strlen (this_disk (erasure f)) ≤ 36)%nat;
  wf_algo : (strlen (distribution_algo (erasure f)) ≤ 31)%nat;
  wf_sets_nonempty : ei_sets (erasure f) ≠ [];
  wf_sets : Forall (λ set, length set = disks_per_set (erasure f)) (ei_sets (erasure f))
}.

Lemma parse_disks_strings l : parse_disks (JString <$> l) = Some l.
Proof. induction l as [|s l IH]; csimpl; [done|]. by rewrite IH. Qed.

Lemma parse_sets_arrays n (sets : list (list string)) first :
  Forall (λ set, length set = n) sets → first = None ∨ first = Some n →
  parse_sets first ((λ set, JArray (JString <$> take n set)) <$> sets) = Some sets.
Proof.
  intros Hs. revert first. induction Hs as [|set sets Hset Hs IH]; intros first Hf; simpl; [done|].
  rewrite length_fmap, length_take, Hset, Nat.min_id.
  rewrite bool_decide_eq_true_2 by done. rewrite take_ge by lia. rewrite parse_disks_strings.
  rewrite IH; [done|]. right. destruct Hf as [->| ->]; done.
Qed.

Lemma format_from_to_json f : wf_format f → format_from_json (Some (format_to_json f)) = Some f.
Proof.
  intros [H1 H2 H3 H4 H5 H6 Hne Hs]. destruct f as [[v t d] [ev td sets dps algo]]. simpl in *.
  rewrite length_fmap. rewrite parse_sets_arrays by auto.
  destruct sets as [|set sets]; [done|]. simpl.
  apply Forall_cons in Hs as [Hset _]. rewrite Hset.
  unfold strlen in *. by rewrite !strncpy_short.
Qed.

Lemma format_json_printable f : json_printable (format_to_json f).
Proof.
  exists 4%nat. split; [lia|]. cbn. repeat constructor. cbn.
  apply Forall_fmap, Forall_forall. intros set _. cbn.
  apply Forall_fmap, Forall_forall. done.
Qed.

Lemma format_path_Some p : is_Some (buckets_get_format_path (Some p)).
Proof.
  unfold buckets_get_format_path, buckets_get_meta_dir.
  destruct (String.get _ _) as [[[] [] [] [] [] [] [] []]|]; eauto.
Qed.

Lemma format_save_load `{CJsonLaws} env pid fs p f st :
  wf_format f → buckets_format_save env pid fs (Some p) (Some f) = (BUCKETS_OK, st) →
  buckets_format_load true (fs_after fs (BUCKETS_OK, st)) (Some p) = Some f.
Proof.
  intros Hf. unfold buckets_format_save, buckets_format_load.
  destruct (format_path_Some p) as [q ->]. intros Hs.
  apply json_save_load in Hs; [|apply format_json_printable]. rewrite Hs.
  by apply format_from_to_json.
Qed.

(** ** The formats the server creates *)

Lemma length_set_bits l i mask bits : length (set_bits l i mask bits) = length l.
Proof. unfold set_bits. destruct (l !! i); [apply length_insert|done]. Qed.

Lemma set_bits_bytes l i mask bits :
  is_bytes l → is_u8 mask → is_u8 bits → is_bytes (set_bits l i mask bits).
Proof.
  intros Hl Hm Hb. unfold set_bits. destruct (l !! i) as [b|] eqn:E; [|done].
  apply Forall_insert; [done|]. apply lor_range; [lia| |done].
  pose proof (Forall_lookup_1 _ _ _ _ Hl E) as [Hb0 Hb1].
  apply (in_range_testbit 8) in Hm as [Hm0 Hm1]; [|lia].
  apply in_range_testbit; [lia|]. split; [by apply Z.land_nonneg; left|].
  intros k Hk. rewrite Z.land_spec, Hm1 by done. apply andb_false_r.
Qed.

Section Created.
Context (SHA256 : list Z → list Z).
Context (SHA256_digest : ∀ m, is_bytes (SHA256 m) ∧ length (SHA256 m) = 32%nat).

Lemma uuid_from_name_length r name :
  strlen (buckets_uuid_generate_from_name SHA256 r (Some name)) = 36%nat.
Proof.
  destruct (SHA256_digest (str_bytes name)) as [Hb Hl]. simpl.
  refine (proj1 (parse_canonical _ _ _)).
  - apply set_bits_bytes; [apply set_bits_bytes|..]; [|unfold in_range; lia..].
    by apply Forall_take.
  - rewrite !length_set_bits, length_take. lia.
Qed.

Lemma format_new_wf set_count dps cid r f :
  strlen r = 36%nat →
  buckets_format_new_with_deployment_id SHA256 set_count dps cid r = Some f → wf_format f.
Proof.
  intros Hr. unfold buckets_format_new_with_deployment_id. split_if; [done|].
  intros [= <-]. split; cbn [meta erasure meta_version format_type meta_deployment_id ei_version
    this_disk distribution_algo ei_sets disks_per_set]; try (apply length_strncpy).
  - destruct cid as [[|c s]|]; [simpl; lia| |simpl; lia].
    change (strlen (buckets_uuid_generate_from_name SHA256 r (Some (String c s))) ≤ 36)%nat.
    by rewrite uuid_from_name_length.
  - simpl. lia.
  - destruct (Z.to_nat set_count) eqn:E; [lia|]. done.
  - apply Forall_fmap, Forall_forall. intros i _. simpl. by rewrite length_fmap, length_seq.
Qed.
End Created.

(** ** Disk names *)

Lemma strlen_pretty_int (i : nat) : Z.of_nat i < 2 ^ 31 → (strlen (pretty i) ≤ 10)%nat.
Proof.
  intros. apply strlen_pretty_N; [lia|]. change (10 ^ N.of_nat 10)%N with 10000000000%N. lia.
Qed.

Lemma disk_name_inj id i j i' j' :
  strlen id = 36%nat →
  Z.of_nat i < 2 ^ 31 → Z.of_nat j < 2 ^ 31 → Z.of_nat i' < 2 ^ 31 → Z.of_nat j' < 2 ^ 31 →
  disk_name id i j = disk_name id i' j' → i = i' ∧ j = j'.
Proof.
  intros Hid Hi Hj Hi' Hj'.
  apply strlen_pretty_int in Hi, Hj, Hi', Hj'.
  unfold disk_name. rewrite !snprintf_short.
  2-3: rewrite !strlen_app, Hid; change (strlen "-set") with 4%nat;
       change (strlen "-disk") with 5%nat; lia.
  intros E. apply (inj (String.append id)), (inj (String.append "-set")) in E.
  assert (i = i') as <-.
  { apply Nat2N.inj, N2Z.inj.
    rewrite <-(parse_digits_pretty_app (N.of_nat i) "-"%char ("disk" +:+ pretty j)) by done.
    rewrite <-(parse_digits_pretty_app (N.of_nat i') "-"%char ("disk" +:+ pretty j')) by done.
    exact (f_equal (parse_digits 0) E). }
  split; [done|]. apply (inj (String.append (pretty i))) in E.
  apply (inj (String.append "-disk")) in E. by apply (inj pretty) in E.
Qed.

Lemma NoDup_matrix {A} (f : nat → nat → A) (I J : list nat) :
  NoDup I → NoDup J →
  (∀ i j i' j', i ∈ I → j ∈ J → i' ∈ I → j' ∈ J → f i j = f i' j' → i = i' ∧ j = j') →
  NoDup (concat ((λ i, f i <$> J) <$> I)).
Proof.
  intros HI HJ. induction HI as [|i I Hi HI IH]; intros Hf; [constructor|]. simpl.
  apply NoDup_app. split_and!.
  - apply NoDup_fmap_2_strong; [|done]. intros j j' Hj Hj' E.
    apply (Hf i j i j'); set_solver.
  - intros x Hx Hx'. apply list_elem_of_fmap in Hx as (j & -> & Hj).
    apply elem_of_concat in Hx' as (l & Hl & Hx').
    apply list_elem_of_fmap in Hl as (i' & -> & Hi').
    apply list_elem_of_fmap in Hx' as (j' & E & Hj').
    destruct (Hf i j i' j') as [-> _]; [set_solver..|done].
  - apply IH. intros i1 j1 i2 j2 ????. apply Hf; set_solver.
Qed.

Lemma count_valid_spec r formats n :
  count_valid r formats n =
  (n + length (filter (λ f, format_matches r f = true) (omap id formats)))%nat.
Proof.
  revert n. induction formats as [|[f|] formats IH]; intros n; csimpl; [|rewrite IH|by rewrite IH].
  { change (n = n + 0)%nat. lia. }
  destruct (format_matches r f) eqn:E.
  - rewrite filter_cons_True by done. simpl. lia.
  - rewrite filter_cons_False by congruence. done.
Qed.

Lemma format_matches_spec r f :
  format_matches r f = true ↔
  meta_deployment_id (meta f) = meta_deployment_id (meta r) ∧
  ei_set_count (erasure f) = ei_set_count (erasure r) ∧
  disks_per_set (erasure f) = disks_per_set (erasure r) ∧
  distribution_algo (erasure f) = distribution_algo (erasure r).
Proof.
  unfold format_matches, strcmp_eq.
  repeat case_bool_decide; simpl; repeat split_if; naive_solver.
Qed.

Lemma first_format_head formats : first_format formats = head (omap id formats).
Proof. induction formats as [|[f|] formats IH]; simpl; done. Qed.

(** ** Correctness of the format *)

(** A format made by the server for a cluster survives its trip to a disk: after a
    save that reported success, loading the disk gives the same format back; and so
    does cloning it. *)
Theorem format_save_load_roundtrip `{CJsonLaws} SHA256 set_count dps cid r f env pid fs p st :
  (∀ m, is_bytes (SHA256 m) ∧ length (SHA256 m) = 32%nat) → strlen r = 36%nat →
  buckets_format_new_with_deployment_id SHA256 set_count dps cid r = Some f →
  buckets_format_save env pid fs (Some p) (Some f) = (BUCKETS_OK, st) →
  buckets_format_load true (fs_after fs (BUCKETS_OK, st)) (Some p) = Some f ∧
  buckets_format_clone (Some f) = Some f.
Proof.
  intros Hsha Hr Hf Hs. pose proof (format_new_wf SHA256 Hsha _ _ _ _ _ Hr Hf) as Hwf.
  split; [by eapply format_save_load|by apply format_from_to_json].
Qed.

Import BitsCJson.

(** A digest for the examples: the reversed message, cut and padded to 32 bytes. *)
Definition toy_sha (m : list Z) : list Z :=
  take 32 ((if bool_decide (is_bytes m) then reverse m else []) ++ replicate 32 0).

Lemma toy_sha_digest m : is_bytes (toy_sha m) ∧ length (toy_sha m) = 32%nat.
Proof.
  unfold toy_sha. split.
  - apply Forall_take, Forall_app. split.
    + case_bool_decide; [by apply Forall_reverse|done].
    + apply Forall_replicate. unfold in_range. lia.
  - rewrite length_take, length_app, length_replicate. lia.
Qed.

Definition toy_uuid : string := "01234567-89ab-4def-8123-456789abcdef".

Definition toy_format (sets dps : Z) : buckets_format :=
  default (Format (FormatMeta "" "" "") (ErasureInfo "" "" [] 0 ""))
    (buckets_format_new_with_deployment_id toy_sha sets dps None toy_uuid).

Definition toy_save : buckets_error_t * list fs_t :=
  buckets_format_save write_env_ok 1 ∅ (Some "/d0/") (Some (toy_format 2 1)).

Lemma format_save_load_roundtrip_witness :
  buckets_format_load true (fs_after ∅ (BUCKETS_OK, toy_save.2)) (Some "/d0/")
    = Some (toy_format 2 1).
Proof.
  refine (proj1 (format_save_load_roundtrip toy_sha 2 1 None toy_uuid (toy_format 2 1)
    write_env_ok 1 ∅ "/d0/" toy_save.2 toy_sha_digest eq_refl _ _)).
  - vm_compute. reflexivity.
  - unfold toy_save. apply pair_fst_eq. vm_compute. reflexivity.
Defined.

(** The disks of a new cluster get pairwise different UUIDs, provided the hash does
    not collide on the disk names: the names themselves never coincide, whatever the
    number of sets and disks. *)
Theorem format_disk_uuids_distinct SHA256 set_count dps cid r f :
  (∀ m, is_bytes (SHA256 m) ∧ length (SHA256 m) = 32%nat) → strlen r = 36%nat →
  is_i32 set_count → is_i32 dps →
  (∀ i j i' j', (i < Z.to_nat set_count)%nat → (j < Z.to_nat dps)%nat →
     (i' < Z.to_nat set_count)%nat → (j' < Z.to_nat dps)%nat →
     let name i j := disk_name (meta_deployment_id (meta f)) i j in
     buckets_uuid_generate_from_name SHA256 r (Some (name i j)) =
     buckets_uuid_generate_from_name SHA256 r (Some (name i' j')) → name i j = name i' j') →
  buckets_format_new_with_deployment_id SHA256 set_count dps cid r = Some f →
  NoDup (concat (ei_sets (erasure f))).
Proof.
  intros Hsha Hr Hs Hd Hcol Hf.
  assert (strlen (meta_deployment_id (meta f)) = 36%nat) as Hid.
  { revert Hf. unfold buckets_format_new_with_deployment_id. split_if; [done|].
    intros [= <-]. destruct cid as [[|c s]|]; [done| |done].
    exact (uuid_from_name_length SHA256 Hsha r (String c s)). }
  revert Hf. unfold buckets_format_new_with_deployment_id. split_if; [done|].
  intros [= E]. subst f. simpl in Hcol, Hid |- *.
  apply NoDup_matrix; [apply NoDup_seq..|].
  intros i j i' j' Hi Hj Hi' Hj' E. rewrite elem_of_seq in Hi, Hj, Hi', Hj'.
  destruct Hs, Hd. apply (disk_name_inj _ i j i' j' Hid); try lia.
  apply Hcol; try lia. exact E.
Qed.

Lemma format_disk_uuids_distinct_witness :
  NoDup (concat (ei_sets (erasure (toy_format 2 2)))).
Proof.
  refine (format_disk_uuids_distinct toy_sha 2 2 None toy_uuid (toy_format 2 2)
    toy_sha_digest eq_refl _ _ _ eq_refl); [unfold is_i32; lia|unfold is_i32; lia|].
  intros [|[|i]] [|[|j]] [|[|i']] [|[|j']] Hi Hj Hi' Hj'; try (exfalso; simpl in *; lia);
    vm_compute; intros; congruence.
Defined.

(** [buckets_format_validate] accepts a collection of formats exactly when the
    first one present agrees, on deployment id, set count, disks per set and
    distribution algorithm, with more than half of all entries, missing ones counted
    against; otherwise it reports the missing quorum, and no format at all is an
    invalid argument. *)
Theorem format_validate_majority formats :
  buckets_format_validate (Some formats) =
  match head (omap id formats) with
  | None => BUCKETS_ERR_INVALID_ARG
  | Some r =>
      if decide (length formats <
                 2 * length (filter (λ f,
                       meta_deployment_id (meta f) = meta_deployment_id (meta r) ∧
                       ei_set_count (erasure f) = ei_set_count (erasure r) ∧
                       disks_per_set (erasure f) = disks_per_set (erasure r) ∧
                       distribution_algo (erasure f) = distribution_algo (erasure r))
                       (omap id formats)))%nat
      then BUCKETS_OK else BUCKETS_ERR_QUORUM
  end.
Proof.
  unfold buckets_format_validate. rewrite first_format_head.
  destruct formats as [|f0 formats0]; [done|]. set (formats := f0 :: formats0).
  change (length formats =? 0)%nat with false. cbn match.
  destruct (head (omap id formats)) as [r|]; [|done]. rewrite count_valid_spec, Nat.add_0_l.
  rewrite (list_filter_iff _ _ (omap id formats) (format_matches_spec r)).
  pose proof (Nat.div_mod_eq (length formats) 2).
  pose proof (Nat.mod_upper_bound (length formats) 2).
  split_if; case_decide; done || lia.
Qed.
