(* ===== verification/Topology.v ===== *)
(** * Cluster topology (src/src/cluster/topology.c)

    The versioned description of pools, erasure sets and disks: its construction from
    the disk format, its changes, its JSON form, its persistence on a quorum of disks,
    and the assignment of network endpoints to disks. An array and its count are a
    list. *)

From S2P Require Import Prelude CInt CString XXHash DiskIO Json Format.

(** ** Data *)

Inductive buckets_set_state :=
  | SET_STATE_ACTIVE
  | SET_STATE_DRAINING
  | SET_STATE_REMOVED.

#[export] Instance buckets_set_state_eq_dec : EqDecision buckets_set_state.
Proof. solve_decision. Defined.

Record buckets_disk_info := DiskInfo {
  endpoint : string;
  uuid : string;
  capacity : Z
}.

Record buckets_set_topology := SetTopology {
  set_idx : Z;
  state : buckets_set_state;
  disks : list buckets_disk_info
}.

Record buckets_pool_topology := PoolTopology {
  pool_idx : Z;
  sets : list buckets_set_topology
}.

Record buckets_cluster_topology := ClusterTopology {
  version : Z;
  generation : Z;
  deployment_id : string;
  vnode_factor : Z;
  pools : list buckets_pool_topology
}.

#[export] Instance buckets_disk_info_eq_dec : EqDecision buckets_disk_info.
Proof. solve_decision. Defined.
#[export] Instance buckets_set_topology_eq_dec : EqDecision buckets_set_topology.
Proof. solve_decision. Defined.
#[export] Instance buckets_pool_topology_eq_dec : EqDecision buckets_pool_topology.
Proof. solve_decision. Defined.
#[export] Instance buckets_cluster_topology_eq_dec : EqDecision buckets_cluster_topology.
Proof. solve_decision. Defined.

Definition BUCKETS_TOPOLOGY_VERSION : Z := 1.
Definition BUCKETS_VNODE_FACTOR : Z := 150.

Definition set_count (p : buckets_pool_topology) : Z := Z.of_nat (length (sets p)).
Definition pool_count (t : buckets_cluster_topology) : Z := Z.of_nat (length (pools t)).

(** ** Construction *)

Definition buckets_topology_new : buckets_cluster_topology :=
  {| version := BUCKETS_TOPOLOGY_VERSION; generation := 0; deployment_id := "";
     vnode_factor := BUCKETS_VNODE_FACTOR; pools := [] |}.

Definition disk_of_format (uuid : string) : buckets_disk_info :=
  {| endpoint := ""; uuid := strncpy 36 uuid; capacity := 0 |}.

Definition set_of_format (i : nat) (uuids : list string) : buckets_set_topology :=
  {| set_idx := Z.of_nat i; state := SET_STATE_ACTIVE; disks := disk_of_format <$> uuids |}.

Definition buckets_topology_from_format (format : option buckets_format)
    : option buckets_cluster_topology :=
  match format with
  | None => None
  | Some f =>
      let e := erasure f in
      Some {| version := version buckets_topology_new;
              generation := 1;
              deployment_id := meta_deployment_id (meta f);
              vnode_factor := vnode_factor buckets_topology_new;
              pools := [ {| pool_idx := 0;
                            sets := imap (λ i set, set_of_format i (take (disks_per_set e) set))
                                         (ei_sets e) |} ] |}
  end.

(** ** JSON *)

Definition set_state_to_string (s : buckets_set_state) : string :=
  match s with
  | SET_STATE_ACTIVE => "active"
  | SET_STATE_DRAINING => "draining"
  | SET_STATE_REMOVED => "removed"
  end.

Definition set_state_from_string (str : option string) : buckets_set_state :=
  match str with
  | None => SET_STATE_ACTIVE
  | Some s =>
      if String.eqb s "active" then SET_STATE_ACTIVE
      else if String.eqb s "draining" then SET_STATE_DRAINING
      else if String.eqb s "removed" then SET_STATE_REMOVED
      else SET_STATE_ACTIVE
  end.

Definition disk_to_json (d : buckets_disk_info) : json :=
  let o := [] in
  let o := buckets_json_add_string o "uuid" (Some (uuid d)) in
  let o := buckets_json_add_string o "endpoint" (Some (endpoint d)) in
  let o := buckets_json_add_string o "capacity" (Some (snprintf 32 (print_u64 (capacity d)))) in
  JObject o.

Definition set_to_json (s : buckets_set_topology) : json :=
  let o := [] in
  let o := buckets_json_add_int o "idx" (set_idx s) in
  let o := buckets_json_add_string o "state" (Some (set_state_to_string (state s))) in
  let o := buckets_json_add_array o "disks" (Some (disk_to_json <$> disks s)) in
  JObject o.

Definition pool_to_json (p : buckets_pool_topology) : json :=
  let o := [] in
  let o := buckets_json_add_int o "idx" (pool_idx p) in
  let o := buckets_json_add_array o "sets" (Some (set_to_json <$> sets p)) in
  JObject o.

Definition topology_to_json (t : buckets_cluster_topology) : json :=
  let o := [] in
  let o := buckets_json_add_int o "version" (version t) in
  let o := buckets_json_add_int o "generation" (to_int (generation t)) in
  let o := buckets_json_add_string o "deploymentId" (Some (deployment_id t)) in
  let o := buckets_json_add_int o "vnodeFactor" (vnode_factor t) in
  let o := buckets_json_add_array o "pools" (Some (pool_to_json <$> pools t)) in
  JObject o.

Definition disk_from_json (obj : json) : buckets_disk_info :=
  {| uuid := strncpy 36 (default "" (buckets_json_get_string (Some obj) "uuid" (Some "")));
     endpoint :=
       strncpy 255 (default "" (buckets_json_get_string (Some obj) "endpoint" (Some "")));
     capacity :=
       strtoull (default "" (buckets_json_get_string (Some obj) "capacity" (Some "0"))) |}.

Definition set_from_json (idx : nat) (obj : json) : option buckets_set_topology :=
  match buckets_json_get_array (Some obj) "disks" with
  | None => None
  | Some l =>
      Some {| set_idx := buckets_json_get_int (Some obj) "idx" (Z.of_nat idx);
              state := set_state_from_string
                         (buckets_json_get_string (Some obj) "state" (Some "active"));
              disks := disk_from_json <$> l |}
  end.

Fixpoint sets_from_json (idx : nat) (l : list json) : option (list buckets_set_topology) :=
  match l with
  | [] => Some []
  | obj :: l =>
      match set_from_json idx obj with
      | None => None
      | Some s => cons s <$> sets_from_json (S idx) l
      end
  end.

Definition pool_from_json (idx : nat) (obj : json) : option buckets_pool_topology :=
  match buckets_json_get_array (Some obj) "sets" with
  | None => None
  | Some l =>
      match sets_from_json 0 l with
      | None => None
      | Some ss =>
          Some {| pool_idx := buckets_json_get_int (Some obj) "idx" (Z.of_nat idx);
                  sets := ss |}
      end
  end.

Fixpoint pools_from_json (idx : nat) (l : list json) : option (list buckets_pool_topology) :=
  match l with
  | [] => Some []
  | obj :: l =>
      match pool_from_json idx obj with
      | None => None
      | Some p => cons p <$> pools_from_json (S idx) l
      end
  end.

Definition topology_from_json (doc : option json) : option buckets_cluster_topology :=
  match doc with
  | None => None
  | Some j =>
      match buckets_json_get_string (Some j) "deploymentId" None with
      | None => None
      | Some id =>
          match buckets_json_get_array (Some j) "pools" with
          | None => None
          | Some l =>
              match pools_from_json 0 l with
              | None => None
              | Some ps =>
                  Some {| version :=
                            buckets_json_get_int (Some j) "version" BUCKETS_TOPOLOGY_VERSION;
                          generation := buckets_json_get_int (Some j) "generation" 1;
                          deployment_id := strncpy 36 id;
                          vnode_factor :=
                            buckets_json_get_int (Some j) "vnodeFactor" BUCKETS_VNODE_FACTOR;
                          pools := ps |}
              end
          end
      end
  end.

(** ** Changes *)

Definition with_pools (t : buckets_cluster_topology) (ps : list buckets_pool_topology)
    : buckets_cluster_topology :=
  {| version := version t; generation := generation t + 1;
     deployment_id := deployment_id t; vnode_factor := vnode_factor t; pools := ps |}.

Definition buckets_topology_add_pool (topology : option buckets_cluster_topology)
    : buckets_error_t * option buckets_cluster_topology :=
  match topology with
  | None => (BUCKETS_ERR_INVALID_ARG, None)
  | Some t =>
      (BUCKETS_OK,
       Some (with_pools t (pools t ++ [ {| pool_idx := pool_count t; sets := [] |} ])))
  end.

(** [new_disks] is the array behind [disks], of [disk_count] elements; [None] is NULL. *)
Definition buckets_topology_add_set (topology : option buckets_cluster_topology) (pidx : Z)
    (new_disks : option (list buckets_disk_info))
    : buckets_error_t * option buckets_cluster_topology :=
  match topology, new_disks with
  | Some t, Some ds =>
      if (pidx <? 0) || (pool_count t <=? pidx) || (Z.of_nat (length ds) <=? 0)
      then (BUCKETS_ERR_INVALID_ARG, Some t)
      else
        match pools t !! Z.to_nat pidx with
        | None => (BUCKETS_ERR_INVALID_ARG, Some t)
        | Some pool =>
            let new_set := {| set_idx := set_count pool; state := SET_STATE_ACTIVE;
                              disks := ds |} in
            let pool' := {| pool_idx := pool_idx pool; sets := sets pool ++ [new_set] |} in
            (BUCKETS_OK, Some (with_pools t (<[Z.to_nat pidx := pool']> (pools t))))
        end
  | topology, _ => (BUCKETS_ERR_INVALID_ARG, topology)
  end.

Definition buckets_topology_set_state (topology : option buckets_cluster_topology)
    (pidx sidx : Z) (new_state : buckets_set_state)
    : buckets_error_t * option buckets_cluster_topology :=
  match topology with
  | None => (BUCKETS_ERR_INVALID_ARG, None)
  | Some t =>
      if (pidx <? 0) || (pool_count t <=? pidx) then (BUCKETS_ERR_INVALID_ARG, Some t)
      else
        match pools t !! Z.to_nat pidx with
        | None => (BUCKETS_ERR_INVALID_ARG, Some t)
        | Some pool =>
            if (sidx <? 0) || (set_count pool <=? sidx) then (BUCKETS_ERR_INVALID_ARG, Some t)
            else
              match sets pool !! Z.to_nat sidx with
              | None => (BUCKETS_ERR_INVALID_ARG, Some t)
              | Some set =>
                  if decide (state set = new_state) then (BUCKETS_OK, Some t)
                  else
                    let set' := {| set_idx := set_idx set; state := new_state;
                                   disks := disks set |} in
                    let pool' := {| pool_idx := pool_idx pool;
                                    sets := <[Z.to_nat sidx := set']> (sets pool) |} in
                    (BUCKETS_OK, Some (with_pools t (<[Z.to_nat pidx := pool']> (pools t))))
              end
        end
  end.

Definition buckets_topology_mark_set_draining (topology : option buckets_cluster_topology)
    (pidx sidx : Z) : buckets_error_t * option buckets_cluster_topology :=
  buckets_topology_set_state topology pidx sidx SET_STATE_DRAINING.

Definition buckets_topology_mark_set_removed (topology : option buckets_cluster_topology)
    (pidx sidx : Z) : buckets_error_t * option buckets_cluster_topology :=
  buckets_topology_set_state topology pidx sidx SET_STATE_REMOVED.

(** ** Lemmas on the JSON form *)


Definition wf_disk (d : buckets_disk_info) : Prop :=
  (strlen (uuid d) ≤ 36)%nat ∧ (strlen (endpoint d) ≤ 255)%nat ∧ is_u64 (capacity d).

Definition wf_set (s : buckets_set_topology) : Prop :=
  is_i32 (set_idx s) ∧ Forall wf_disk (disks s).

Definition wf_pool (p : buckets_pool_topology) : Prop :=
  is_i32 (pool_idx p) ∧ Forall wf_set (sets p).

(** Every field is within its C type and its array; the generation, a 64-bit counter,
    is within the [int] its JSON form is cut to. *)
Definition wf_topology (t : buckets_cluster_topology) : Prop :=
  is_i32 (version t) ∧ is_i32 (generation t) ∧ (strlen (deployment_id t) ≤ 36)%nat ∧
  is_i32 (vnode_factor t) ∧ Forall wf_pool (pools t).

Lemma print_u64_short z : is_u64 z → (strlen (print_u64 z) ≤ 20)%nat.
Proof.
  intros [H0 H1]. unfold print_u64. apply strlen_pretty_N; [lia|].
  change (10 ^ N.of_nat 20)%N with 100000000000000000000%N.
  assert (z < 100000000000000000000) by (etrans; [exact H1|done]). lia.
Qed.

Lemma disk_from_to_json d : wf_disk d → disk_from_json (disk_to_json d) = d.
Proof.
  intros (Hu & He & Hc). destruct d as [e u c]. simpl in *. unfold disk_from_json. simpl.
  unfold strlen in *. rewrite !strncpy_short by done.
  rewrite snprintf_short, strtoull_print; [done..|].
  pose proof (print_u64_short c Hc). lia.
Qed.

Lemma set_state_roundtrip s : set_state_from_string (Some (set_state_to_string s)) = s.
Proof. by destruct s. Qed.

Lemma set_from_to_json i s : wf_set s → set_from_json i (set_to_json s) = Some s.
Proof.
  intros [Hi Hd]. destruct s as [idx st ds]. simpl in *.
  assert (disk_from_json <$> (disk_to_json <$> ds) = ds) as E.
  { induction Hd as [|d ds Hd _ IH]; csimpl; [done|]. by rewrite IH, disk_from_to_json. }
  unfold set_from_json.
  cbn -[disk_from_json disk_to_json set_state_from_string set_state_to_string valueint].
  by rewrite E, set_state_roundtrip, valueint_id.
Qed.

Lemma pool_from_to_json i p : wf_pool p → pool_from_json i (pool_to_json p) = Some p.
Proof.
  intros [Hi Hs]. destruct p as [idx ss]. simpl in *. unfold pool_from_json.
  cbn -[set_to_json sets_from_json valueint]. rewrite valueint_id by done.
  assert (∀ k, sets_from_json k (set_to_json <$> ss) = Some ss) as ->; [|done].
  induction Hs as [|s ss Hs _ IH]; intros k; [done|].
  rewrite fmap_cons. cbn [sets_from_json]. by rewrite set_from_to_json, IH.
Qed.

Lemma topology_from_to_json t :
  wf_topology t → topology_from_json (Some (topology_to_json t)) = Some t.
Proof.
  intros (Hv & Hg & Hd & Hf & Hp). destruct t as [v g d f ps]. simpl in *.
  unfold topology_from_json. cbn -[pool_to_json pools_from_json to_int strncpy valueint].
  rewrite to_int_small, !valueint_id by done.
  unfold strlen in *. rewrite strncpy_short by done.
  assert (∀ k, pools_from_json k (pool_to_json <$> ps) = Some ps) as ->; [|done].
  induction Hp as [|p ps Hp _ IH]; intros k; [done|].
  rewrite fmap_cons. cbn [pools_from_json]. by rewrite pool_from_to_json, IH.
Qed.

Lemma topology_json_printable t : wf_topology t → json_printable (topology_to_json t).
Proof.
  intros (Hv & Hg & Hd & Hf & Hp). exists 7%nat. split; [lia|].
  cbn. repeat constructor; try apply (is_i32_exact _ Hv); try apply (is_i32_exact _ Hf);
    try apply (is_i32_exact _ (to_int_range _)).
  apply Forall_fmap. eapply Forall_impl; [exact Hp|]. intros p [Hpi Hps].
  cbn. repeat constructor; try apply (is_i32_exact _ Hpi).
  apply Forall_fmap. eapply Forall_impl; [exact Hps|]. intros s [Hsi Hsd].
  cbn. repeat constructor; try apply (is_i32_exact _ Hsi).
  apply Forall_fmap, Forall_forall. intros d _. cbn. by repeat constructor.
Qed.

(** ** Persistence on one disk *)

Section Persist.
Context `{CJson}.

Definition buckets_topology_save (env : write_env) (pid : N) (fs : fs_t)
    (disk_path : option string) (topology : option buckets_cluster_topology)
    : buckets_error_t * list fs_t :=
  match disk_path, topology with
  | Some p, Some t =>
      match buckets_get_topology_path (Some p) with
      | None => (BUCKETS_ERR_NOMEM, [fs])
      | Some topology_path =>
          buckets_json_save env pid fs (Some topology_path) (Some (topology_to_json t)) true
      end
  | _, _ => (BUCKETS_ERR_INVALID_ARG, [fs])
  end.

Definition buckets_topology_load (read_ok : bool) (fs : fs_t) (disk_path : option string)
    : option buckets_cluster_topology :=
  match disk_path with
  | None => None
  | Some p =>
      match buckets_get_topology_path (Some p) with
      | None => None
      | Some topology_path =>
          topology_from_json (buckets_json_load read_ok fs (Some topology_path))
      end
  end.
End Persist.

(** ** Sequences of changes *)

Inductive topology_op :=
  | OpAddPool
  | OpAddSet (pidx : Z) (ds : list buckets_disk_info)
  | OpSetState (pidx sidx : Z) (st : buckets_set_state).

Definition run_op (t : buckets_cluster_topology) (op : topology_op)
    : buckets_error_t * option buckets_cluster_topology :=
  match op with
  | OpAddPool => buckets_topology_add_pool (Some t)
  | OpAddSet pidx ds => buckets_topology_add_set (Some t) pidx (Some ds)
  | OpSetState pidx sidx st => buckets_topology_set_state (Some t) pidx sidx st
  end.

Definition run_ops (t : buckets_cluster_topology) (ops : list topology_op)
    : buckets_cluster_topology :=
  foldl (λ t op, default t (run_op t op).2) t ops.

(** The index fields are the positions in the arrays. *)
Definition indexed_pool (i : nat) (p : buckets_pool_topology) : Prop :=
  pool_idx p = Z.of_nat i ∧
  ∀ j s, sets p !! j = Some s → set_idx s = Z.of_nat j.

Definition indexed (t : buckets_cluster_topology) : Prop :=
  ∀ i p, pools t !! i = Some p → indexed_pool i p.

(** Split the guards and the lookups of an operation. *)
Ltac topology_cases :=
  repeat match goal with
  | |- context [if decide ?b then _ else _] => destruct (decide b)
  | |- context [if ?b then _ else _] => destruct b eqn:?; breflect
  | |- context [match ?l !! ?i with _ => _ end] => destruct (l !! i) eqn:?
  end.

(** An operation fails without a change, or succeeds; it changes nothing, or it
    increments the generation. *)
Lemma run_op_spec t op :
  ∃ t', (run_op t op).2 = Some t' ∧
    ((run_op t op).1 ≠ BUCKETS_OK → t' = t) ∧
    (t' = t ∨ generation t' = generation t + 1).
Proof.
  destruct op; simpl; unfold buckets_topology_add_set, buckets_topology_set_state;
    topology_cases; eexists; (split; [done|]); simpl; naive_solver.
Qed.

Lemma indexed_insert t i p :
  indexed t → indexed_pool i p → indexed (with_pools t (<[i := p]> (pools t))).
Proof.
  intros Ht Hp k q. simpl. intros Hk.
  destruct (decide (k = i)) as [->|]; [|rewrite list_lookup_insert_ne in Hk by done; eauto].
  apply list_lookup_insert_Some in Hk as [(_ & <- & _)|[? _]]; done.
Qed.

Lemma run_op_indexed t op t' : indexed t → (run_op t op).2 = Some t' → indexed t'.
Proof.
  intros Ht. destruct op as [|pidx ds|pidx sidx st]; simpl.
  - intros [= <-] i p. simpl. intros Hi. apply lookup_app_Some in Hi as [Hi|[Hi Hp]]; [eauto|].
    apply list_lookup_singleton_Some in Hp as [Hz <-].
    split; simpl; [unfold pool_count; lia|done].
  - unfold buckets_topology_add_set. topology_cases; intros [= <-]; try done.
    destruct (Ht _ _ Heqo) as [Hpi Hsi]. apply indexed_insert; [done|]. split; [done|]. simpl.
    intros j s Hj. apply lookup_app_Some in Hj as [Hj|[Hj Hs]]; [eauto|].
    apply list_lookup_singleton_Some in Hs as [Hz <-]. simpl. unfold set_count. lia.
  - unfold buckets_topology_set_state. topology_cases; intros [= <-]; try done.
    destruct (Ht _ _ Heqo) as [Hpi Hsi]. apply indexed_insert; [done|]. split; [done|]. simpl.
    intros j s Hj. apply list_lookup_insert_Some in Hj as [(<- & <- & _)|[_ Hj]]; [|eauto].
    simpl. eauto.
Qed.

Lemma run_ops_indexed t ops : indexed t → indexed (run_ops t ops).
Proof.
  revert t. induction ops as [|op ops IH]; intros t Ht; [done|].
  unfold run_ops. simpl. apply IH. destruct (run_op_spec t op) as (t' & E & _).
  rewrite E. simpl. by eapply run_op_indexed.
Qed.

Lemma run_ops_generation t ops :
  generation t ≤ generation (run_ops t ops) ∧
  (generation (run_ops t ops) = generation t → run_ops t ops = t).
Proof.
  revert t. induction ops as [|op ops IH]; intros t; [done|].
  unfold run_ops. simpl. destruct (run_op_spec t op) as (t' & -> & _ & Hg). simpl.
  fold (run_ops t' ops). destruct (IH t') as [H1 H2].
  destruct Hg as [->|Hg]; [done|]. split; [lia|]. intros E. lia.
Qed.

Lemma from_format_indexed f t : buckets_topology_from_format (Some f) = Some t → indexed t.
Proof.
  intros [= <-] i p Hi. simpl in Hi. apply list_lookup_singleton_Some in Hi as [-> <-].
  split; [done|]. simpl. intros j s Hj. apply list_lookup_imap_Some in Hj as (u & _ & ->). done.
Qed.

(** A topology made from a format keeps, under any sequence of added pools, added
    sets and state changes (successful or not), index fields equal to array positions;
    and its generation versions it: it never decreases, and two topologies of the
    history with the same generation are the same. *)
Theorem topology_history_versioned f t ops1 ops2 :
  buckets_topology_from_format (Some f) = Some t →
  indexed (run_ops t (ops1 ++ ops2)) ∧
  generation (run_ops t ops1) ≤ generation (run_ops t (ops1 ++ ops2)) ∧
  (generation (run_ops t ops1) = generation (run_ops t (ops1 ++ ops2)) →
   run_ops t ops1 = run_ops t (ops1 ++ ops2)).
Proof.
  intros Hf%from_format_indexed. split; [by apply run_ops_indexed|].
  unfold run_ops. rewrite foldl_app. fold (run_ops t ops1).
  destruct (run_ops_generation (run_ops t ops1) ops2) as [H1 H2].
  split; [exact H1|]. intros E. symmetry. apply H2. by symmetry.
Qed.

Definition demo_format : buckets_format := toy_format 2 1.
Definition demo_topology : buckets_cluster_topology :=
  default buckets_topology_new (buckets_topology_from_format (Some demo_format)).

Lemma topology_history_versioned_witness :
  indexed (run_ops demo_topology
    ([OpAddPool; OpAddSet 1 [DiskInfo "" "u" 7]] ++ [OpSetState 1 0 SET_STATE_DRAINING])) ∧
  generation (run_ops demo_topology
    ([OpAddPool; OpAddSet 1 [DiskInfo "" "u" 7]] ++ [OpSetState 1 0 SET_STATE_DRAINING])) = 4.
Proof.
  split; [|reflexivity].
  refine (proj1 (topology_history_versioned demo_format demo_topology _ _ eq_refl)).
Defined.

(** The set at a position. *)
Definition lookup_set (t : buckets_cluster_topology) (pidx sidx : Z)
    : option buckets_set_topology :=
  if decide (0 ≤ pidx ∧ 0 ≤ sidx)
  then pools t !! Z.to_nat pidx ≫= λ p, sets p !! Z.to_nat sidx else None.

Lemma set_state_found t pidx sidx st set :
  lookup_set t pidx sidx = Some set →
  buckets_topology_set_state (Some t) pidx sidx st =
  (BUCKETS_OK,
   Some (if decide (state set = st) then t else
     with_pools t (alter (λ pool, {| pool_idx := pool_idx pool;
        sets := <[Z.to_nat sidx := SetTopology (set_idx set) st (disks set)]> (sets pool) |})
        (Z.to_nat pidx) (pools t)))).
Proof.
  unfold lookup_set. case_decide as Hpos; [|done].
  destruct (pools t !! Z.to_nat pidx) as [pool|] eqn:Hp; [|done]. simpl. intros Hs.
  unfold buckets_topology_set_state, pool_count, set_count. rewrite Hp, Hs.
  pose proof (lookup_lt_Some _ _ _ Hp). pose proof (lookup_lt_Some _ _ _ Hs).
  rewrite !(proj2 (Z.ltb_ge _ _)), !(proj2 (Z.leb_gt _ _)) by lia. simpl.
  case_decide; [done|]. do 3 f_equal.
  apply list_eq. intros k. destruct (decide (k = Z.to_nat pidx)) as [->|].
  - rewrite list_lookup_insert_eq by done. by rewrite list_lookup_alter_eq, Hp.
  - by rewrite list_lookup_insert_ne, list_lookup_alter_ne.
Qed.

(** Changing the state of a set touches that set's state and nothing else: a bad
    position is an invalid argument and no change; otherwise the set at the position
    has the new state, its index and disks, and every other set, stay as they were. *)
Theorem topology_set_state_frame t pidx sidx st :
  match lookup_set t pidx sidx with
  | None => buckets_topology_set_state (Some t) pidx sidx st
              = (BUCKETS_ERR_INVALID_ARG, Some t)
  | Some set =>
      ∃ t', buckets_topology_set_state (Some t) pidx sidx st = (BUCKETS_OK, Some t') ∧
        lookup_set t' pidx sidx = Some (SetTopology (set_idx set) st (disks set)) ∧
        ∀ p s, (p, s) ≠ (pidx, sidx) → lookup_set t' p s = lookup_set t p s
  end.
Proof.
  destruct (lookup_set t pidx sidx) as [set|] eqn:Hl.
  - eexists. split; [by apply set_state_found|]. case_decide as Hst.
    { split; [|done]. rewrite Hl. subst st. by destruct set. }
    unfold lookup_set in *. case_decide as Hpos; [|done].
    destruct (pools t !! Z.to_nat pidx) as [pool|] eqn:Hp; [|done]. simpl in Hl |- *.
    pose proof (lookup_lt_Some _ _ _ Hl) as Hlt. split.
    + by rewrite list_lookup_alter_eq, Hp; simpl; rewrite list_lookup_insert_eq.
    + intros p s Hne. case_decide; [|done].
      destruct (decide (p = pidx)) as [->|].
      * rewrite list_lookup_alter_eq, Hp. simpl. apply list_lookup_insert_ne.
        intros E. apply Hne. f_equal. lia.
      * rewrite list_lookup_alter_ne by lia. done.
  - revert Hl. unfold lookup_set, buckets_topology_set_state, pool_count, set_count.
    case_decide as Hpos; intros Hl.
    + split_if; [done|]. destruct (pools t !! Z.to_nat pidx) as [pool|]; [|done].
      simpl in Hl. rewrite Hl. by split_if.
    + split_if; [done|]. destruct (pools t !! Z.to_nat pidx) as [pool|]; [|done].
      rewrite (proj2 (Z.ltb_lt sidx 0)) by lia. done.
Qed.
