(* ===== verification/TopologyEndpoints.v ===== *)
(** * Network endpoints of the disks (src/src/cluster/topology.c)

    [buckets_topology_populate_endpoints_from_config]: the disks of the topology, in the
    order of pools, sets and disks, are matched with the disks the configured nodes list,
    in the order of the nodes. *)

From S2P Require Import Prelude CInt CString XXHash DiskIO Json Format Topology.

Local Open Scope c_scope.

Record cluster_node := ClusterNode {
  node_endpoint : string;
  node_disks : list string
}.

Record cluster_config := ClusterConfig {
  cfg_enabled : bool;
  cfg_nodes : list cluster_node;
  cfg_sets : Z;
  cfg_disks_per_set : Z
}.

(** The disks in the order of the three nested loops. *)
Definition all_disks (t : buckets_cluster_topology) : list buckets_disk_info :=
  concat ((λ p, concat (disks <$> sets p)) <$> pools t).

(** The search for the node that owns a global disk index; [first] is
    [cumulative_disks[n]], the number of disks of the nodes before. *)
Fixpoint find_owner (nodes : list cluster_node) (first global_disk_idx : nat)
    : option (cluster_node * nat) :=
  match nodes with
  | [] => None
  | node :: nodes =>
      let next := (first + length (node_disks node))%nat in
      if (first <=? global_disk_idx)%nat && (global_disk_idx <? next)%nat
      then Some (node, (global_disk_idx - first)%nat)
      else find_owner nodes next global_disk_idx
  end.

(** [node_endpoint + disk_path] for a global disk index. *)
Definition disk_endpoint (nodes : list cluster_node) (global_disk_idx : nat) : option string :=
  match find_owner nodes 0 global_disk_idx with
  | None => None
  | Some (node, disk_in_node) =>
      match node_disks node !! disk_in_node with
      | None => None
      | Some path => Some (snprintf 512 (node_endpoint node +:+ path))
      end
  end.

(** The first pass fills [uuid_map], an array of [total_disks] entries: an entry past its
    end is undefined. *)
Fixpoint build_map (nodes : list cluster_node) (total_disks : Z) (global_disk_idx : nat)
    (ds : list buckets_disk_info) (uuid_map : list (string * string))
    : c_result (list (string * string)) :=
  match ds with
  | [] => Val uuid_map
  | d :: ds =>
      match disk_endpoint nodes global_disk_idx with
      | None => build_map nodes total_disks (S global_disk_idx) ds uuid_map
      | Some e =>
          if Z.of_nat (length uuid_map) <? total_disks
          then build_map nodes total_disks (S global_disk_idx) ds
                 (uuid_map ++ [(strncpy 36 (uuid d), e)])
          else Undef
      end
  end.

Fixpoint find_endpoint (uuid_map : list (string * string)) (u : string) : option string :=
  match uuid_map with
  | [] => None
  | (u', e) :: uuid_map => if strcmp_eq u u' then Some e else find_endpoint uuid_map u
  end.

(** The second pass, on one disk. *)
Definition populate_disk (uuid_map : list (string * string)) (d : buckets_disk_info)
    : buckets_disk_info :=
  match find_endpoint uuid_map (uuid d) with
  | None => d
  | Some e => {| endpoint := strncpy 255 e; uuid := uuid d; capacity := capacity d |}
  end.

Definition map_disks (f : buckets_disk_info → buckets_disk_info)
    (t : buckets_cluster_topology) : buckets_cluster_topology :=
  {| version := version t; generation := generation t; deployment_id := deployment_id t;
     vnode_factor := vnode_factor t;
     pools := (λ p, {| pool_idx := pool_idx p;
                       sets := (λ s, {| set_idx := set_idx s; state := state s;
                                        disks := f <$> disks s |}) <$> sets p |})
                <$> pools t |}.

Definition buckets_topology_populate_endpoints_from_config
    (topology : option buckets_cluster_topology) (config : option cluster_config)
    : c_result (buckets_error_t * option buckets_cluster_topology) :=
  match topology, config with
  | Some t, Some c =>
      if negb (cfg_enabled c) || (length (cfg_nodes c) =? 0)%nat then Val (BUCKETS_OK, Some t)
      else
        let* total_disks := i32c (cfg_sets c * cfg_disks_per_set c) in
        let* uuid_map := build_map (cfg_nodes c) total_disks 0 (all_disks t) [] in
        Val (BUCKETS_OK, Some (map_disks (populate_disk uuid_map) t))
  | _, _ => Val (BUCKETS_ERR_INVALID_ARG, topology)
  end.

(** ** The reference: the disks of the nodes as one list *)

Definition flat_endpoints (nodes : list cluster_node) : list string :=
  concat ((λ n, (λ path, snprintf 512 (node_endpoint n +:+ path)) <$> node_disks n) <$> nodes).

Lemma find_owner_flat nodes first g :
  (first ≤ g)%nat →
  match find_owner nodes first g with
  | None => None
  | Some (node, k) => (λ path, snprintf 512 (node_endpoint node +:+ path)) <$> node_disks node !! k
  end = flat_endpoints nodes !! (g - first)%nat.
Proof.
  revert first. induction nodes as [|n nodes IH]; intros first Hg; [done|].
  cbn [find_owner]. unfold flat_endpoints. rewrite fmap_cons. cbn [concat].
  fold (flat_endpoints nodes).
  destruct (_ && _) eqn:E; breflect.
  - rewrite lookup_app_l by (rewrite length_fmap; lia). by rewrite list_lookup_fmap.
  - apply andb_false_iff in E. rewrite IH by (destruct E; breflect; lia).
    rewrite lookup_app_r by (rewrite length_fmap; destruct E; breflect; lia).
    rewrite length_fmap. f_equal. destruct E; breflect; lia.
Qed.

Lemma disk_endpoint_flat nodes g : disk_endpoint nodes g = flat_endpoints nodes !! g.
Proof.
  pose proof (find_owner_flat nodes 0 g ltac:(lia)) as Hf. rewrite Nat.sub_0_r in Hf.
  rewrite <-Hf. unfold disk_endpoint. destruct (find_owner nodes 0 g) as [[n k]|]; [|done].
  by destruct (node_disks n !! k).
Qed.

(** The map pairs disks and endpoints by position. *)
Definition pair_up (ds : list buckets_disk_info) (es : list string) : list (string * string) :=
  zip_with (λ d e, (strncpy 36 (uuid d), e)) ds es.

Lemma build_map_spec nodes total g ds m :
  Z.of_nat (length m + length (pair_up ds (drop g (flat_endpoints nodes)))) ≤ total →
  build_map nodes total g ds m = Val (m ++ pair_up ds (drop g (flat_endpoints nodes))).
Proof.
  unfold pair_up. revert g m. induction ds as [|d ds IH]; intros g m Hle.
  { cbn. by rewrite app_nil_r. }
  cbn [build_map]. rewrite disk_endpoint_flat.
  destruct (flat_endpoints nodes !! g) as [e|] eqn:E.
  - rewrite (drop_S _ _ _ E) in Hle |- *. cbn [zip_with length] in Hle |- *.
    rewrite (proj2 (Z.ltb_lt _ _)) by lia.
    rewrite IH by (rewrite length_app; simpl; lia).
    by rewrite <-app_assoc.
  - apply lookup_ge_None in E. rewrite drop_ge in Hle |- * by done.
    rewrite IH; rewrite drop_ge by lia; destruct ds; simpl in *; done || lia.
Qed.

Lemma build_map_overflow nodes total g ds m :
  Z.of_nat (length m) ≤ total →
  total < Z.of_nat (length m + length (pair_up ds (drop g (flat_endpoints nodes)))) →
  build_map nodes total g ds m = Undef.
Proof.
  unfold pair_up. revert g m. induction ds as [|d ds IH]; intros g m Hm Hlt.
  { simpl in Hlt. lia. }
  cbn [build_map]. rewrite disk_endpoint_flat.
  destruct (flat_endpoints nodes !! g) as [e|] eqn:E.
  - rewrite (drop_S _ _ _ E) in Hlt. cbn [zip_with length] in Hlt. split_if; [|done].
    apply IH; rewrite length_app; simpl; lia.
  - apply lookup_ge_None in E. rewrite drop_ge in Hlt by done. simpl in Hlt. lia.
Qed.

(** With distinct UUIDs the search by UUID finds the entry of the position. *)
Lemma find_endpoint_position ds es g d :
  NoDup (uuid <$> ds) → Forall (λ d, (strlen (uuid d) ≤ 36)%nat) ds → ds !! g = Some d →
  find_endpoint (pair_up ds es) (uuid d) = es !! g.
Proof.
  unfold pair_up. revert es g. induction ds as [|d0 ds IH]; intros es g Hnd Hlen Hg; [done|].
  rewrite fmap_cons in Hnd. apply NoDup_cons in Hnd as [Hnin Hnd].
  apply Forall_cons in Hlen as [Hl0 Hlen].
  destruct es as [|e es]; [by rewrite lookup_nil|]. cbn [zip_with find_endpoint].
  unfold strcmp_eq. rewrite (strncpy_short 36 (uuid d0)) by exact Hl0.
  destruct g as [|g]; simpl in Hg.
  - injection Hg as ->. by rewrite bool_decide_eq_true_2.
  - rewrite bool_decide_eq_false_2; [simpl; by apply IH|]. intros E. apply Hnin. rewrite <-E.
    apply list_elem_of_fmap. exists d. split; [done|]. by apply list_elem_of_lookup_2 in Hg.
Qed.

Lemma all_disks_map f t : all_disks (map_disks f t) = f <$> all_disks t.
Proof.
  unfold all_disks, map_disks. cbn [pools]. rewrite list_fmap_concat, <-!list_fmap_compose.
  f_equal. apply list_fmap_ext. intros _ p _. simpl.
  by rewrite list_fmap_concat, <-!list_fmap_compose.
Qed.

(** ** Correctness *)

(** The endpoints follow the positions: when the disk UUIDs of the topology are
    pairwise different and the configured table is large enough, the [g]-th disk of the
    topology gets the endpoint of the [g]-th disk of the configured nodes, cut to its
    array, and a disk beyond the configured ones keeps what it had; nothing else
    changes. The searches through cumulative counts and by UUID compute the plain
    positional pairing. *)
Theorem populate_endpoints_positional t c :
  cfg_enabled c = true → cfg_nodes c ≠ [] →
  NoDup (uuid <$> all_disks t) →
  Forall (λ d, (strlen (uuid d) ≤ 36)%nat) (all_disks t) →
  Z.of_nat (Nat.min (length (all_disks t)) (length (flat_endpoints (cfg_nodes c))))
    ≤ cfg_sets c * cfg_disks_per_set c < 2 ^ 31 →
  ∃ f, buckets_topology_populate_endpoints_from_config (Some t) (Some c)
         = Val (BUCKETS_OK, Some (map_disks f t)) ∧
    ∀ g d, all_disks t !! g = Some d →
      all_disks (map_disks f t) !! g =
      Some match flat_endpoints (cfg_nodes c) !! g with
           | Some e => DiskInfo (strncpy 255 e) (uuid d) (capacity d)
           | None => d
           end.
Proof.
  intros Hen Hne Hnd Hlen [Hmin Hmax].
  exists (populate_disk (pair_up (all_disks t) (flat_endpoints (cfg_nodes c)))). split.
  - unfold buckets_topology_populate_endpoints_from_config. rewrite Hen.
    rewrite (proj2 (Nat.eqb_neq _ _)) by (by destruct (cfg_nodes c)). cbn [negb orb].
    assert (is_i32 (cfg_sets c * cfg_disks_per_set c)) as Hi by (unfold is_i32; lia).
    rewrite (proj2 (i32c_Val _ _) (conj Hi eq_refl)). cbn [c_bind].
    rewrite build_map_spec; [done|]. unfold pair_up. rewrite length_zip_with, drop_0. exact Hmin.
  - intros g d Hg. rewrite all_disks_map, list_lookup_fmap, Hg. simpl. unfold populate_disk.
    rewrite (find_endpoint_position _ _ _ _ Hnd Hlen Hg). by destruct (_ !! g).
Qed.

Definition demo_nodes : list cluster_node :=
  [ClusterNode "http://n1:9000" ["/a"]; ClusterNode "http://n0:9000" [];
   ClusterNode "http://n2:9000" ["/b"; "/c"]].

Lemma populate_endpoints_positional_witness :
  ∃ f, buckets_topology_populate_endpoints_from_config (Some demo_topology)
         (Some (ClusterConfig true demo_nodes 2 1))
         = Val (BUCKETS_OK, Some (map_disks f demo_topology)) ∧
    endpoint <$> all_disks (map_disks f demo_topology) !! 1%nat = Some "http://n2:9000/b".
Proof.
  destruct (populate_endpoints_positional demo_topology (ClusterConfig true demo_nodes 2 1))
    as (f & Hf & Hpos).
  - reflexivity.
  - discriminate.
  - apply (bool_decide_unpack _). vm_compute. exact I.
  - apply (bool_decide_unpack _). vm_compute. exact I.
  - vm_compute. split; [discriminate|reflexivity].
  - exists f. split; [exact Hf|].
    destruct (all_disks demo_topology !! 1%nat) as [d|] eqn:E; [|vm_compute in E; discriminate E].
    rewrite (Hpos 1%nat d E). reflexivity.
Defined.

(** The table has [sets * disks_per_set] entries, whatever the topology: when more disks
    than that are matched (a pool was added, say), the first pass writes past its end. *)
Lemma populate_endpoints_overflow t c :
  cfg_enabled c = true → cfg_nodes c ≠ [] →
  0 ≤ cfg_sets c * cfg_disks_per_set c <
    Z.of_nat (Nat.min (length (all_disks t)) (length (flat_endpoints (cfg_nodes c)))) →
  buckets_topology_populate_endpoints_from_config (Some t) (Some c) = Undef.
Proof.
  intros Hen Hne [H0 Hlt]. unfold buckets_topology_populate_endpoints_from_config. rewrite Hen.
  rewrite (proj2 (Nat.eqb_neq _ _)) by (by destruct (cfg_nodes c)). cbn [negb orb].
  destruct (i32c _) as [total|] eqn:E; [|done]. apply i32c_Val in E as [_ ->]. cbn [c_bind].
  rewrite build_map_overflow; [done|done|]. unfold pair_up. rewrite length_zip_with, drop_0. exact Hlt.
Qed.
