(* ===== verification/TopologyQuorum.v ===== *)
(** * Topology quorum (src/src/cluster/topology.c)

    Saving a topology on all disks with a write quorum and loading it back by a vote
    over the hashes of the copies. Which writes and reads fail is decided, disk by disk,
    by the environment. *)

From S2P Require Import Prelude CInt CString XXHash DiskIO Json Format Topology.

Section Quorum.
Context `{CJson}.

(** The environment of the [i]-th disk is [envs i]. *)
Fixpoint save_loop (envs : nat → write_env) (pid : N) (i : nat) (fs : fs_t)
    (paths : list (option string)) (t : buckets_cluster_topology) (success_count : nat)
    : nat * fs_t :=
  match paths with
  | [] => (success_count, fs)
  | None :: paths => save_loop envs pid (S i) fs paths t success_count
  | Some p :: paths =>
      let r := buckets_topology_save (envs i) pid fs (Some p) (Some t) in
      let success_count :=
        match r.1 with BUCKETS_OK => S success_count | _ => success_count end in
      save_loop envs pid (S i) (fs_after fs r) paths t success_count
  end.

Definition buckets_topology_save_quorum (envs : nat → write_env) (pid : N) (fs : fs_t)
    (disk_paths : option (list (option string))) (topology : option buckets_cluster_topology)
    : buckets_error_t * fs_t :=
  match disk_paths, topology with
  | Some paths, Some t =>
      let disk_count := length paths in
      if (disk_count =? 0)%nat then (BUCKETS_ERR_INVALID_ARG, fs)
      else
        let required_quorum := (disk_count / 2 + 1)%nat in
        let (success_count, fs') := save_loop envs pid 0 fs paths t 0 in
        if (required_quorum <=? success_count)%nat then (BUCKETS_OK, fs')
        else (BUCKETS_ERR_QUORUM, fs')
  | _, _ => (BUCKETS_ERR_INVALID_ARG, fs)
  end.

Record vote_entry := Vote {
  vote_hash : Z;
  vote_topology : buckets_cluster_topology;
  vote_count : nat
}.

(** The search for the entry of a hash; its incremented form is returned too. *)
Fixpoint bump_vote (votes : list vote_entry) (hash : Z)
    : option (list vote_entry * vote_entry) :=
  match votes with
  | [] => None
  | v :: votes =>
      if vote_hash v =? hash then
        let v' := Vote (vote_hash v) (vote_topology v) (S (vote_count v)) in
        Some (v' :: votes, v')
      else
        match bump_vote votes hash with
        | None => None
        | Some (votes', v') => Some (v :: votes', v')
        end
  end.

(** [buckets_xxhash64(0, json_str, strlen(json_str))] of the compact JSON form. *)
Definition topology_hash (t : buckets_cluster_topology) : option Z :=
  (λ s, buckets_xxhash64 0 (Some (str_bytes s))) <$> cJSON_PrintUnformatted (topology_to_json t).

Fixpoint load_loop (read_ok : nat → bool) (fs : fs_t) (read_quorum i : nat)
    (paths : list (option string)) (votes : list vote_entry)
    : option buckets_cluster_topology :=
  match paths with
  | [] => None
  | None :: paths => load_loop read_ok fs read_quorum (S i) paths votes
  | Some p :: paths =>
      match buckets_topology_load (read_ok i) fs (Some p) with
      | None => load_loop read_ok fs read_quorum (S i) paths votes
      | Some topo =>
          match topology_hash topo with
          | None => load_loop read_ok fs read_quorum (S i) paths votes
          | Some hash =>
              match bump_vote votes hash with
              | Some (votes', v) =>
                  if (read_quorum <=? vote_count v)%nat then Some (vote_topology v)
                  else load_loop read_ok fs read_quorum (S i) paths votes'
              | None =>
                  if (read_quorum <=? 1)%nat then Some topo
                  else load_loop read_ok fs read_quorum (S i) paths
                         (votes ++ [Vote hash topo 1])
              end
          end
      end
  end.

Definition buckets_topology_load_quorum (read_ok : nat → bool) (fs : fs_t)
    (disk_paths : option (list (option string))) : option buckets_cluster_topology :=
  match disk_paths with
  | None => None
  | Some paths =>
      let disk_count := length paths in
      if (disk_count =? 0)%nat then None
      else
        let read_quorum := (if 1 <? disk_count then disk_count / 2 else 1)%nat in
        load_loop read_ok fs read_quorum 0 paths []
  end.

(** ** The vote

    A ballot is what one disk contributes: the topology it holds and its hash. The loop
    is a tally of the ballots. *)

Abbreviation ballot := (Z * buckets_cluster_topology)%type.

Definition disk_ballot (ok : bool) (fs : fs_t) (path : option string) : option ballot :=
  match path with
  | None => None
  | Some p =>
      match buckets_topology_load ok fs (Some p) with
      | None => None
      | Some t => (λ h, (h, t)) <$> topology_hash t
      end
  end.

Fixpoint ballots (read_ok : nat → bool) (fs : fs_t) (i : nat) (paths : list (option string))
    : list ballot :=
  match paths with
  | [] => []
  | p :: paths =>
      option_list (disk_ballot (read_ok i) fs p) ++ ballots read_ok fs (S i) paths
  end.

Fixpoint tally (q : nat) (bs : list ballot) (votes : list vote_entry)
    : option buckets_cluster_topology :=
  match bs with
  | [] => None
  | (h, t) :: bs =>
      match bump_vote votes h with
      | Some (votes', v) =>
          if (q <=? vote_count v)%nat then Some (vote_topology v) else tally q bs votes'
      | None => if (q <=? 1)%nat then Some t else tally q bs (votes ++ [Vote h t 1])
      end
  end.

Lemma load_loop_tally read_ok fs q i paths votes :
  load_loop read_ok fs q i paths votes = tally q (ballots read_ok fs i paths) votes.
Proof.
  revert i votes. induction paths as [|[p|] paths IH]; intros i votes; [done| |apply IH].
  cbn [load_loop ballots disk_ballot].
  destruct (buckets_topology_load (read_ok i) fs (Some p)) as [t|]; [|apply IH].
  destruct (topology_hash t) as [h|]; [|apply IH].
  trans (tally q ((h, t) :: ballots read_ok fs (S i) paths) votes); [|done]. cbn [tally].
  destruct (bump_vote votes h) as [[votes' v]|]; by rewrite !IH.
Qed.

(** The ballots for a hash. *)
Definition tally_of (h : Z) (bs : list ballot) : nat :=
  length (filter (λ b : ballot, b.1 = h) bs).

(** The entries represent the ballots cast so far: one entry per hash, with the number
    of its ballots and a topology that was on one of them. *)
Record votes_rep (bs : list ballot) (votes : list vote_entry) : Prop := {
  rep_nodup : NoDup (vote_hash <$> votes);
  rep_entry v : v ∈ votes →
    vote_count v = tally_of (vote_hash v) bs ∧ (vote_hash v, vote_topology v) ∈ bs;
  rep_all b : b ∈ bs → b.1 ∈ vote_hash <$> votes
}.

Lemma tally_of_app h bs1 bs2 : tally_of h (bs1 ++ bs2) = (tally_of h bs1 + tally_of h bs2)%nat.
Proof. unfold tally_of. by rewrite filter_app, length_app. Qed.

Lemma tally_of_singleton h b : tally_of h [b] = if decide (b.1 = h) then 1%nat else 0%nat.
Proof. unfold tally_of. case_decide; [by rewrite filter_cons_True|by rewrite filter_cons_False]. Qed.

Lemma tally_of_none h bs : (∀ b, b ∈ bs → b.1 ≠ h) → tally_of h bs = 0%nat.
Proof. intros Hn. unfold tally_of. by rewrite list_filter_none. Qed.

Lemma bump_vote_None votes h : bump_vote votes h = None ↔ h ∉ vote_hash <$> votes.
Proof.
  induction votes as [|v votes IH]; csimpl; [by split; [set_solver|]|].
  split_if.
  - split; [done|]. intros Hn. set_solver.
  - destruct (bump_vote votes h) as [[??]|]; split; try done.
    + intros Hn. exfalso. assert (h ∈ vote_hash <$> votes) as Hin; [|set_solver].
      destruct (decide (h ∈ vote_hash <$> votes)) as [|Hnin]; [done|].
      by apply IH in Hnin.
    + intros _. apply not_elem_of_cons. split; [congruence|]. by apply IH.
Qed.

Lemma bump_vote_Some votes h votes' v' :
  bump_vote votes h = Some (votes', v') →
  ∃ k v, votes !! k = Some v ∧ vote_hash v = h ∧
    v' = Vote h (vote_topology v) (S (vote_count v)) ∧ votes' = <[k := v']> votes.
Proof.
  revert votes'. induction votes as [|v votes IH]; intros votes'; simpl; [done|]. split_if.
  - intros [= <- <-]. exists 0%nat, v. subst h. by split_and!.
  - destruct (bump_vote votes h) as [[vs v1]|] eqn:E; [|done]. intros [= <- <-].
    destruct (IH vs) as (k & w & Hk & Hw & -> & ->); [done|].
    exists (S k), w. by split_and!.
Qed.

Lemma votes_rep_bump bs votes h t votes' v' :
  votes_rep bs votes → bump_vote votes h = Some (votes', v') →
  votes_rep (bs ++ [(h, t)]) votes' ∧ v' ∈ votes' ∧ vote_hash v' = h.
Proof.
  intros [Hnd He Ha] (k & v & Hk & Hh & -> & ->)%bump_vote_Some.
  assert (vote_hash <$> <[k := Vote h (vote_topology v) (S (vote_count v))]> votes
          = vote_hash <$> votes) as Hf.
  { rewrite list_fmap_insert. apply list_insert_id. by rewrite list_lookup_fmap, Hk, <-Hh. }
  pose proof (lookup_lt_Some _ _ _ Hk) as Hlt.
  assert (votes !! k = Some v) as Hk' by done.
  split_and!; [split|by apply (list_elem_of_lookup_2 _ k), list_lookup_insert_eq|done].
  - by rewrite Hf.
  - intros w Hw. apply list_elem_of_lookup in Hw as [k' Hw].
    apply list_lookup_insert_Some in Hw as [(<- & <- & _)|[Hne Hw]]; simpl.
    + destruct (He v) as [Hc Hin]; [by apply list_elem_of_lookup_2 in Hk|].
      rewrite tally_of_app, tally_of_singleton. rewrite decide_True by done.
      rewrite Hc, Hh. split; [lia|]. rewrite <-Hh. set_solver.
    + destruct (He w) as [Hc Hin]; [by apply list_elem_of_lookup_2 in Hw|].
      rewrite tally_of_app, tally_of_singleton, decide_False; [split; [lia|set_solver]|].
      simpl. rewrite <-Hh. intros E. apply Hne.
      eapply (NoDup_lookup (vote_hash <$> votes) k k' (vote_hash v)); [done| |];
        rewrite list_lookup_fmap; [by rewrite Hk|by rewrite Hw, E].
  - intros b Hb. rewrite Hf. apply elem_of_app in Hb as [Hb|Hb]; [by apply Ha|].
    apply list_elem_of_singleton in Hb as ->. simpl. rewrite <-Hh.
    apply list_elem_of_fmap. exists v. split; [done|]. by eapply list_elem_of_lookup_2.
Qed.

Lemma votes_rep_new bs votes h t :
  votes_rep bs votes → bump_vote votes h = None →
  votes_rep (bs ++ [(h, t)]) (votes ++ [Vote h t 1]) ∧ tally_of h bs = 0%nat.
Proof.
  intros [Hnd He Ha] Hn%bump_vote_None.
  assert (tally_of h bs = 0%nat) as H0.
  { apply tally_of_none. intros b Hb <-. by apply Hn, Ha. }
  split; [split|done].
  - rewrite fmap_app. apply NoDup_app. split_and!; [done|set_solver|]. by apply NoDup_singleton.
  - intros v Hv. rewrite tally_of_app, tally_of_singleton.
    apply elem_of_app in Hv as [Hv|Hv].
    + destruct (He v Hv) as [Hc Hin]. rewrite decide_False; [split; [lia|set_solver]|].
      simpl. intros ->. apply Hn. apply list_elem_of_fmap. by exists v.
    + apply list_elem_of_singleton in Hv as ->. simpl. rewrite decide_True, H0 by done.
      split; [done|set_solver].
  - intros b Hb. rewrite fmap_app. set_solver.
Qed.

Lemma tally_sound q bs cast votes t :
  votes_rep cast votes → tally q bs votes = Some t →
  ∃ h, (h, t) ∈ cast ++ bs ∧ (q ≤ tally_of h (cast ++ bs))%nat.
Proof.
  revert cast votes. induction bs as [|[h u] bs IH]; intros cast votes Hrep; simpl; [done|].
  rewrite (cons_middle (h, u) cast bs), app_assoc.
  destruct (bump_vote votes h) as [[votes' v]|] eqn:Hb.
  - eapply votes_rep_bump in Hb as (Hrep' & Hv & Hh); [|done].
    split_if; [|by apply IH]. intros [= <-].
    destruct (rep_entry _ _ Hrep' v Hv) as [Hc Hin]. exists (vote_hash v).
    split; [set_solver|]. rewrite tally_of_app. lia.
  - eapply votes_rep_new in Hb as [Hrep' _]; [|done]. split_if; [|by apply IH].
    intros [= <-]. exists h. split; [set_solver|].
    rewrite !tally_of_app, tally_of_singleton, decide_True by done. lia.
Qed.

Lemma tally_complete q bs cast votes :
  votes_rep cast votes → (∀ h, tally_of h cast < q)%nat → tally q bs votes = None →
  ∀ h, (tally_of h (cast ++ bs) < q)%nat.
Proof.
  revert cast votes. induction bs as [|[h u] bs IH]; intros cast votes Hrep Hlt; simpl.
  { intros _. by rewrite app_nil_r. }
  rewrite (cons_middle (h, u) cast bs), app_assoc.
  destruct (bump_vote votes h) as [[votes' v]|] eqn:Hb.
  - eapply votes_rep_bump in Hb as (Hrep' & Hv & Hh); [|done].
    split_if; [done|]. apply IH; [done|]. intros h'. destruct (decide (h' = h)) as [->|].
    + destruct (rep_entry _ _ Hrep' v Hv) as [Hc _]. rewrite Hh in Hc. lia.
    + rewrite tally_of_app, tally_of_singleton, decide_False by done. specialize (Hlt h'). lia.
  - eapply votes_rep_new in Hb as [Hrep' H0]; [|done].
    split_if; [done|]. apply IH; [done|]. intros h'.
    rewrite tally_of_app, tally_of_singleton. specialize (Hlt h').
    case_decide; simpl in *; subst; lia.
Qed.
End Quorum.

(** ** The save *)

Section Save.
Context `{CJsonLaws}.

Definition trues (oks : list bool) : nat := length (filter (λ b, b = true) oks).

Lemma trues_cons b oks : trues (b :: oks) = ((if b then 1 else 0) + trues oks)%nat.
Proof. unfold trues. destruct b; [by rewrite filter_cons_True|by rewrite filter_cons_False]. Qed.

Lemma topology_load_ext ok fs1 fs2 p q :
  buckets_get_topology_path (Some p) = Some q → fs1 !! q = fs2 !! q →
  buckets_topology_load ok fs1 (Some p) = buckets_topology_load ok fs2 (Some p).
Proof.
  intros Hq E. unfold buckets_topology_load, buckets_json_load, buckets_atomic_read.
  by rewrite Hq, E.
Qed.

(** A successful save can be read back; the topology files of other disks stay. *)
Lemma topology_save_spec env pid fs p t q :
  wf_topology t → buckets_get_topology_path (Some p) = Some q →
  let r := buckets_topology_save env pid fs (Some p) (Some t) in
  (r.1 = BUCKETS_OK → buckets_topology_load true (fs_after fs r) (Some p) = Some t) ∧
  ∀ d q', buckets_get_topology_path d = Some q' → q' ≠ q → fs_after fs r !! q' = fs !! q'.
Proof.
  intros Ht Hq. cbv zeta. unfold buckets_topology_load. unfold buckets_topology_save.
  rewrite !Hq. destruct (buckets_json_save _ _ _ _ _ _) as [err st] eqn:Hs. cbn [fst].
  split.
  - intros ->. apply json_save_load in Hs; [|by apply topology_json_printable].
    rewrite Hs. by apply topology_from_to_json.
  - intros d q' Hd Hne. unfold buckets_json_save in Hs.
    destruct (cJSON_Print _) as [s|]; [|by simplify_eq].
    apply atomic_write_lookup in Hs as (Hst & _ & Hin).
    rewrite Forall_forall in Hst. apply Hst in Hin as [_ Hin]. apply Hin; [done|].
    intros E. by apply (temp_path_ne_topology q pid d q' Hd).
Qed.

Lemma save_loop_spec envs pid i fs paths t n n' fs' :
  wf_topology t → NoDup (omap buckets_get_topology_path paths) →
  save_loop envs pid i fs paths t n = (n', fs') →
  ∃ oks, n' = (n + trues oks)%nat ∧
    Forall2 (λ p ok, ok = true →
      ∃ d, p = Some d ∧ buckets_topology_load true fs' (Some d) = Some t) paths oks ∧
    ∀ d q, buckets_get_topology_path d = Some q →
      q ∉ omap buckets_get_topology_path paths → fs' !! q = fs !! q.
Proof.
  intros Ht. revert i fs n.
  induction paths as [|[p|] paths IH]; intros i fs n Hnd Hl; cbn [save_loop] in Hl.
  - injection Hl as <- <-. exists []. split_and!; [unfold trues; simpl; lia|constructor|done].
  - destruct (topology_path_Some p) as [q Hq].
    destruct (topology_save_spec (envs i) pid fs p t q Ht Hq) as [Hok Hother].
    set (r := buckets_topology_save _ _ _ _ _) in *. csimpl in Hnd. rewrite Hq in Hnd.
    apply NoDup_cons in Hnd as [Hnin Hnd].
    apply IH in Hl as (oks & -> & Hall & Hframe); [|done].
    exists ((match r.1 with BUCKETS_OK => true | _ => false end) :: oks). split_and!.
    + rewrite trues_cons. destruct r.1; simpl; lia.
    + constructor; [|done]. intros E. exists p. split; [done|].
      rewrite (topology_load_ext _ fs' (fs_after fs r) p q Hq); [|eauto].
      apply Hok. by destruct r.1.
    + intros d q' Hd Hn. csimpl in Hn. rewrite Hq in Hn. apply not_elem_of_cons in Hn as [Hne Hn].
      rewrite (Hframe d q' Hd Hn). eauto.
  - apply IH in Hl as (oks & -> & Hall & Hframe); [|done].
    exists (false :: oks). split_and!; [by rewrite trues_cons|by constructor|done].
Qed.

(** The disks that hold a topology. *)
Definition holders (fs : fs_t) (paths : list (option string)) (t : buckets_cluster_topology)
    : list (option string) :=
  filter (λ p, buckets_topology_load true fs p = Some t) paths.

Lemma holders_trues fs paths oks t :
  Forall2 (λ p ok, ok = true →
    ∃ d, p = Some d ∧ buckets_topology_load true fs (Some d) = Some t) paths oks →
  (trues oks ≤ length (holders fs paths t))%nat.
Proof.
  unfold holders. induction 1 as [|p ok paths oks Hp _ IH]; [done|]. rewrite trues_cons.
  destruct ok; [|etrans; [exact IH|]].
  - destruct Hp as (d & -> & Hd); [done|]. rewrite filter_cons_True by done. simpl. lia.
  - rewrite filter_cons. case_decide; simpl; lia.
Qed.

(** A save that succeeds leaves the topology on more than half of the disks. *)
Lemma save_quorum_holders envs pid fs paths t fs' :
  wf_topology t → NoDup (omap buckets_get_topology_path paths) →
  buckets_topology_save_quorum envs pid fs (Some paths) (Some t) = (BUCKETS_OK, fs') →
  (length paths < 2 * length (holders fs' paths t))%nat.
Proof.
  intros Ht Hnd. unfold buckets_topology_save_quorum. split_if; [done|].
  destruct (save_loop envs pid 0 fs paths t 0) as [n fs1] eqn:Hl.
  split_if; [|done]. intros [= <-].
  destruct (save_loop_spec _ _ _ _ _ _ _ _ _ Ht Hnd Hl) as (oks & -> & Hall & _).
  pose proof (holders_trues _ _ _ _ Hall).
  pose proof (Nat.div_mod_eq (length paths) 2).
  pose proof (Nat.mod_upper_bound (length paths) 2). lia.
Qed.

(** What a disk holds afterwards, whether or not the write to it succeeds: the new topology or
    what it held. *)
Lemma topology_save_keeps env pid fs p t q :
  wf_topology t → buckets_get_topology_path (Some p) = Some q →
  let fs' := fs_after fs (buckets_topology_save env pid fs (Some p) (Some t)) in
  buckets_topology_load true fs' (Some p) = Some t ∨ fs' !! q = fs !! q.
Proof.
  intros Ht Hq. cbv zeta. unfold buckets_topology_load, buckets_topology_save. rewrite !Hq.
  unfold buckets_json_save. destruct (cJSON_Print (topology_to_json t)) as [s|] eqn:Hp; [|by right].
  destruct (buckets_atomic_write _ _ _ _ _) as [err st] eqn:Hw.
  apply atomic_write_lookup in Hw as (Hst & _ & Hin). rewrite Forall_forall in Hst.
  apply Hst in Hin as [[Hin|Hin] _]; [by right|left].
  unfold buckets_json_load, buckets_atomic_read, buckets_json_parse. rewrite Hin.
  rewrite (cjson_parse_print _ _ (topology_json_printable t Ht) Hp). by apply topology_from_to_json.
Qed.

Lemma save_loop_disks envs pid i fs paths t n n' fs' :
  wf_topology t → NoDup (omap buckets_get_topology_path paths) →
  save_loop envs pid i fs paths t n = (n', fs') →
  Forall (λ p, buckets_topology_load true fs' p = Some t ∨
               buckets_topology_load true fs' p = buckets_topology_load true fs p) paths.
Proof.
  intros Ht. revert i fs n. induction paths as [|[p|] paths IH]; intros i fs n Hnd Hl; cbn [save_loop] in Hl.
  - constructor.
  - destruct (topology_path_Some p) as [q Hq].
    destruct (topology_save_spec (envs i) pid fs p t q Ht Hq) as [_ Hother].
    pose proof (topology_save_keeps (envs i) pid fs p t q Ht Hq) as Hkeep. cbv zeta in Hkeep.
    set (r := buckets_topology_save _ _ _ _ _) in *. csimpl in Hnd. rewrite Hq in Hnd.
    apply NoDup_cons in Hnd as [Hnin Hnd].
    destruct (save_loop_spec _ _ _ _ _ _ _ _ _ Ht Hnd Hl) as (_ & _ & _ & Hframe). constructor.
    + rewrite (topology_load_ext _ fs' (fs_after fs r) p q Hq) by eauto.
      destruct Hkeep as [Hk|Hk]; [by left|right]. by apply (topology_load_ext _ _ _ p q Hq).
    + apply IH in Hl; [|done]. rewrite Forall_forall in Hl |- *. intros [p'|] Hp'; [|by right].
      destruct (Hl _ Hp') as [|E]; [by left|right]. rewrite E. destruct (topology_path_Some p') as [q' Hq'].
      apply (topology_load_ext _ _ _ p' q' Hq'). apply (Hother _ _ Hq'). intros ->. apply Hnin.
      apply list_elem_of_omap. by exists (Some p').
  - constructor; [by right|]. by eapply IH.
Qed.

(** The answer of a write depends on its system calls only. *)
Lemma topology_save_answer env pid fs fs2 p t :
  (buckets_topology_save env pid fs p t).1 = (buckets_topology_save env pid fs2 p t).1.
Proof.
  unfold buckets_topology_save, buckets_json_save, buckets_atomic_write. by repeat case_match.
Qed.

(** The number of disks whose write succeeds. *)
Fixpoint disks_saved (envs : nat → write_env) (pid : N) (i : nat) (paths : list (option string))
    (t : buckets_cluster_topology) : nat :=
  match paths with
  | [] => 0
  | p :: paths =>
      match (buckets_topology_save (envs i) pid ∅ p (Some t)).1 with
      | BUCKETS_OK => S (disks_saved envs pid (S i) paths t)
      | _ => disks_saved envs pid (S i) paths t
      end
  end.

Lemma save_loop_count envs pid i fs paths t n :
  (save_loop envs pid i fs paths t n).1 = (n + disks_saved envs pid i paths t)%nat.
Proof.
  revert i fs n. induction paths as [|[p|] paths IH]; intros i fs n; cbn [save_loop disks_saved]; [by cbn; lia| |].
  - rewrite IH, (topology_save_answer _ _ fs ∅).
    destruct (buckets_topology_save (envs i) pid ∅ (Some p) (Some t)).1; lia.
  - cbn [buckets_topology_save fst]. by rewrite IH.
Qed.

(** A save succeeds when more than half of the writes do. Whatever it answers, every disk
    holds the new topology or what it held, and those whose write succeeded the new one. *)
Lemma save_quorum_spec envs pid fs paths t err fs' :
  buckets_topology_save_quorum envs pid fs (Some paths) (Some t) = (err, fs') →
  (err = BUCKETS_OK ↔ (length paths < 2 * disks_saved envs pid 0 paths t)%nat) ∧
  (wf_topology t → NoDup (omap buckets_get_topology_path paths) →
   (disks_saved envs pid 0 paths t ≤ length (holders fs' paths t))%nat ∧
   Forall (λ p, buckets_topology_load true fs' p = Some t ∨
                buckets_topology_load true fs' p = buckets_topology_load true fs p) paths).
Proof.
  unfold buckets_topology_save_quorum. destruct paths as [|p paths].
  { intros [= <- <-]. split; [split; [done|cbn; lia]|]. intros _ _. split; [cbn; lia|constructor]. }
  set (l := p :: paths). change (length l =? 0)%nat with false. cbv iota.
  pose proof (save_loop_count envs pid 0 fs l t 0) as Hn.
  destruct (save_loop envs pid 0 fs l t 0) as [n fs1] eqn:Hl. cbn [fst Nat.add] in Hn. intros Hs.
  pose proof (Nat.div_mod_eq (length l) 2). pose proof (Nat.mod_upper_bound (length l) 2).
  assert ((err = BUCKETS_OK ↔ (length l < 2 * disks_saved envs pid 0 l t)%nat) ∧ fs' = fs1) as [He ->].
  { destruct (Nat.leb_spec (length l / 2 + 1) n); injection Hs as <- <-; (split; [|done]);
      (split; [|try done]); intros; try done; lia. }
  split; [done|]. intros Ht Hnd. split; [|by eapply save_loop_disks].
  destruct (save_loop_spec _ _ _ _ _ _ _ _ _ Ht Hnd Hl) as (oks & En & Hall & _).
  pose proof (holders_trues _ _ _ _ Hall). lia.
Qed.

(** Disks that hold [t] vote for it or not at all. *)
Lemma ballots_minority read_ok fs i paths oks t ht h :
  Forall2 (λ p ok, ok = true →
    ∃ d, p = Some d ∧ buckets_topology_load true fs (Some d) = Some t) paths oks →
  topology_hash t = Some ht → h ≠ ht →
  (tally_of h (ballots read_ok fs i paths) + trues oks ≤ length paths)%nat.
Proof.
  intros Hall Hht Hne. revert i.
  induction Hall as [|p ok paths oks Hp Hall IH]; intros i; [simpl; unfold tally_of, trues; simpl; lia|].
  cbn [ballots]. rewrite tally_of_app, trues_cons. specialize (IH (S i)).
  assert (tally_of h (option_list (disk_ballot (read_ok i) fs p)) ≤ 1)%nat as H1.
  { destruct (disk_ballot (read_ok i) fs p); simpl; [|unfold tally_of; simpl; lia].
    rewrite tally_of_singleton. case_decide; lia. }
  destruct ok; simpl.
  - destruct Hp as (d & -> & Hd); [done|].
    assert (tally_of h (option_list (disk_ballot (read_ok i) fs (Some d))) = 0%nat) as ->; [|lia].
    unfold disk_ballot. destruct (buckets_topology_load (read_ok i) fs (Some d)) as [t1|] eqn:E; [|done].
    assert (t1 = t) as ->.
    { destruct (read_ok i); [congruence|]. revert E. unfold buckets_topology_load.
      destruct (buckets_get_topology_path (Some d)); [|done].
      unfold buckets_json_load, buckets_atomic_read. by destruct (fs !! s). }
    rewrite Hht. simpl. by rewrite tally_of_singleton, decide_False.
  - lia.
Qed.

Lemma ballots_majority fs i paths oks t ht :
  Forall2 (λ p ok, ok = true →
    ∃ d, p = Some d ∧ buckets_topology_load true fs (Some d) = Some t) paths oks →
  topology_hash t = Some ht →
  (trues oks ≤ tally_of ht (ballots (λ _, true) fs i paths))%nat.
Proof.
  intros Hall Hht. revert i.
  induction Hall as [|p ok paths oks Hp Hall IH]; intros i; [done|].
  cbn [ballots]. rewrite tally_of_app, trues_cons. specialize (IH (S i)).
  destruct ok; simpl; [|lia]. destruct Hp as (d & -> & Hd); [done|].
  unfold disk_ballot. rewrite Hd, Hht. simpl option_list.
  rewrite tally_of_singleton, decide_True by done. lia.
Qed.

Lemma ballots_elem read_ok fs i paths h t :
  (h, t) ∈ ballots read_ok fs i paths →
  ∃ d, Some d ∈ paths ∧ buckets_topology_load true fs (Some d) = Some t ∧
       topology_hash t = Some h.
Proof.
  revert i. induction paths as [|p paths IH]; intros i Hin; cbn [ballots] in Hin; [set_solver|].
  apply elem_of_app in Hin as [Hin|Hin].
  - unfold disk_ballot in Hin. destruct p as [d|]; [|set_solver].
    destruct (buckets_topology_load (read_ok i) fs (Some d)) as [t1|] eqn:E; [|set_solver].
    destruct (topology_hash t1) as [h1|] eqn:Eh; [|set_solver].
    apply list_elem_of_singleton in Hin. simplify_eq. exists d. split_and!; [set_solver| |done].
    destruct (read_ok i); [done|]. revert E. unfold buckets_topology_load.
    destruct (buckets_get_topology_path (Some d)); [|done].
    unfold buckets_json_load, buckets_atomic_read. by destruct (fs !! s).
  - destruct (IH (S i) Hin) as (d & Hd & ?). exists d. split; [set_solver|done].
Qed.
End Save.

(** ** Reading back what a quorum holds *)

Lemma quorum_load_tally `{CJson} read_ok fs paths :
  paths ≠ [] →
  buckets_topology_load_quorum read_ok fs (Some paths) =
  tally (if 1 <? length paths then length paths / 2 else 1)%nat (ballots read_ok fs 0 paths) [].
Proof.
  intros Hne. simpl. rewrite (proj2 (Nat.eqb_neq _ _)) by (by destruct paths).
  apply load_loop_tally.
Qed.

Lemma votes_rep_nil : votes_rep [] [].
Proof. split; [constructor|set_solver|set_solver]. Qed.

Lemma quorum_read_back `{CJsonLaws} envs pid fs paths t ht fs' :
  wf_topology t → Nat.Even (length paths) →
  NoDup (omap buckets_get_topology_path paths) →
  topology_hash t = Some ht →
  (∀ d t1, Some d ∈ paths → buckets_topology_load true fs' (Some d) = Some t1 →
     topology_hash t1 = Some ht → t1 = t) →
  buckets_topology_save_quorum envs pid fs (Some paths) (Some t) = (BUCKETS_OK, fs') →
  (∀ read_ok t', buckets_topology_load_quorum read_ok fs' (Some paths) = Some t' → t' = t) ∧
  buckets_topology_load_quorum (λ _, true) fs' (Some paths) = Some t.
Proof.
  intros Ht [k Hk] Hnd Hht Hcol. unfold buckets_topology_save_quorum.
  destruct (length paths =? 0)%nat eqn:Hlen; [done|]. breflect.
  destruct (save_loop envs pid 0 fs paths t 0) as [n fs1] eqn:Hl.
  split_if; [|done]. intros [= <-].
  destruct (save_loop_spec _ _ _ _ _ _ _ _ _ Ht Hnd Hl) as (oks & -> & Hall & _).
  assert (paths ≠ []) as Hne by (by intros ->).
  assert (length paths / 2 = k)%nat as Hdiv.
  { rewrite Hk, Nat.mul_comm. by apply Nat.div_mul. }
  assert (((if 1 <? length paths then length paths / 2 else 1) = k)%nat) as Hq.
  { rewrite Hdiv. split_if; lia. }
  assert (∀ read_ok t', buckets_topology_load_quorum read_ok fs1 (Some paths) = Some t' →
            t' = t) as Hsound.
  { intros ro t'. rewrite quorum_load_tally, Hq by done. intros Htl.
    eapply tally_sound in Htl as (h & Hin & Hge); [|apply votes_rep_nil]. simpl in Hin, Hge.
    destruct (decide (h = ht)) as [->|Hh].
    - destruct (ballots_elem _ _ _ _ _ _ Hin) as (d & Hd & Hld & Hh). by eapply Hcol.
    - pose proof (ballots_minority ro _ 0 _ _ _ _ h Hall Hht Hh). lia. }
  split; [done|].
  destruct (buckets_topology_load_quorum (λ _, true) fs1 (Some paths)) as [t'|] eqn:E.
  { f_equal. by eapply Hsound. }
  rewrite quorum_load_tally, Hq in E by done.
  eapply (tally_complete _ _ [] [] votes_rep_nil) with (h := ht) in E.
  - pose proof (ballots_majority _ 0 _ _ _ _ Hall Hht). simpl in E. lia.
  - intros h. unfold tally_of. simpl. lia.
Qed.

(** C4: With an even number of disks, a topology whose save reached the write quorum
    is what the next load returns, whatever the disks held before and whichever writes
    failed: a load never returns another topology, even when some disks cannot be
    read, and when they can all be read it succeeds. (The copies are compared by hash,
    so no older copy on the disks may collide with the saved one; two disk paths must
    not name the same file.) *)
Theorem quorum_read_your_write `{CJsonLaws} envs pid fs paths t ht fs' :
  wf_topology t → Nat.Even (length paths) →
  NoDup (omap buckets_get_topology_path paths) →
  topology_hash t = Some ht →
  (∀ d t1, Some d ∈ paths → buckets_topology_load true fs' (Some d) = Some t1 →
     topology_hash t1 = Some ht → t1 = t) →
  buckets_topology_save_quorum envs pid fs (Some paths) (Some t) = (BUCKETS_OK, fs') →
  (∀ read_ok t', buckets_topology_load_quorum read_ok fs' (Some paths) = Some t' → t' = t) ∧
  buckets_topology_load_quorum (λ _, true) fs' (Some paths) = Some t.
Proof. apply quorum_read_back. Qed.

Import BitsCJson.

Definition small_topology : buckets_cluster_topology :=
  ClusterTopology 1 1 "d" 150
    [PoolTopology 0 [SetTopology 0 SET_STATE_ACTIVE [DiskInfo "" "u0" 0];
                     SetTopology 1 SET_STATE_ACTIVE [DiskInfo "" "u1" 0]]].
Definition demo_new : buckets_cluster_topology :=
  run_ops small_topology [OpSetState 0 1 SET_STATE_DRAINING].
Definition demo_paths (n : nat) : list (option string) :=
  (λ i : nat, Some ("/mnt/disk" +:+ pretty i)) <$> seq 0 n.
(** The first disk refuses the write. *)
Definition disk0_down (i : nat) : write_env :=
  if (i =? 0)%nat then WriteEnv BUCKETS_OK false None true true true BUCKETS_OK
  else write_env_ok.
Definition demo_save_old (n : nat) : buckets_error_t * fs_t :=
  buckets_topology_save_quorum (λ _, write_env_ok) 1 ∅ (Some (demo_paths n))
    (Some small_topology).
Definition demo_save_new (n : nat) : buckets_error_t * fs_t :=
  buckets_topology_save_quorum disk0_down 1 (demo_save_old n).2 (Some (demo_paths n))
    (Some demo_new).
Definition demo_hash : Z := default 0 (topology_hash demo_new).

Lemma demo_new_wf : wf_topology demo_new.
Proof.
  change demo_new with (ClusterTopology 1 2 "d" 150
    [PoolTopology 0 [SetTopology 0 SET_STATE_ACTIVE [DiskInfo "" "u0" 0];
                     SetTopology 1 SET_STATE_DRAINING [DiskInfo "" "u1" 0]]]).
  repeat constructor; unfold is_i32, in_range; simpl; lia.
Qed.

Lemma demo_loads :
  buckets_topology_load true (demo_save_new 4).2 <$> demo_paths 4
    = [Some small_topology; Some demo_new; Some demo_new; Some demo_new].
Proof. vm_compute. reflexivity. Qed.

Lemma demo_hash_old : bool_decide (topology_hash small_topology = Some demo_hash) = false.
Proof. vm_compute. reflexivity. Qed.

Lemma demo_no_collision fs :
  buckets_topology_load true fs <$> demo_paths 4
    = [Some small_topology; Some demo_new; Some demo_new; Some demo_new] →
  ∀ d t1, Some d ∈ demo_paths 4 → buckets_topology_load true fs (Some d) = Some t1 →
    topology_hash t1 = Some demo_hash → t1 = demo_new.
Proof.
  intros Hloads d t1 [i Hd]%list_elem_of_lookup Hl Hh.
  apply (f_equal (fmap (buckets_topology_load true fs))) in Hd.
  rewrite <-list_lookup_fmap, Hloads in Hd. cbn [fmap option_fmap option_map] in Hd.
  rewrite Hl in Hd.
  assert (t1 = small_topology ∨ t1 = demo_new) as [->| ->]; [|exfalso|reflexivity].
  { destruct i as [|[|[|[|i]]]]; [left|right..|discriminate Hd];
      apply (inj Some), (inj Some) in Hd; symmetry; exact Hd. }
  pose proof demo_hash_old as Hold. apply bool_decide_eq_false in Hold. exact (Hold Hh).
Qed.

Lemma quorum_read_your_write_witness :
  buckets_topology_load_quorum (λ _, true) (demo_save_new 4).2 (Some (demo_paths 4))
    = Some demo_new.
Proof.
  refine (proj2 (quorum_read_your_write disk0_down 1 (demo_save_old 4).2 (demo_paths 4)
    demo_new demo_hash (demo_save_new 4).2 demo_new_wf _ _ _ _ _)).
  - by exists 2%nat.
  - apply (bool_decide_unpack _). vm_compute. exact I.
  - vm_compute. reflexivity.
  - exact (demo_no_collision _ demo_loads).
  - unfold demo_save_new. apply pair_fst_eq. vm_compute. reflexivity.
Defined.

(** With three disks one vote is a read quorum and the first readable copy wins: a
    topology whose save reported success (two of three writes) is forgotten by the next
    load, which returns the older copy of the first disk. *)
Lemma quorum_three_disks_stale :
  (demo_save_new 3).1 = BUCKETS_OK ∧
  buckets_topology_load_quorum (λ _, true) (demo_save_new 3).2 (Some (demo_paths 3))
    = Some small_topology ∧
  generation small_topology < generation demo_new.
Proof. split_and!; vm_compute; reflexivity. Qed.

(** The JSON form cuts the 64-bit generation to an [int]. *)
Lemma topology_generation_truncated :
  let t := ClusterTopology 1 (2 ^ 31) "id" 150 [] in
  generation <$> topology_from_json (Some (topology_to_json t)) = Some (- 2 ^ 31).
Proof. reflexivity. Qed.
