(* ===== verification/TopologyManager.v ===== *)
(** * Caches and the topology manager
    (src/src/cluster/cache.c, src/src/cluster/topology_manager.c)

    The process-wide caches of format and topology, and the manager that changes the
    topology: it clones the cached topology, changes the clone, saves it on a quorum of
    disks, and only then replaces the cached one and notifies the callback. Each
    operation runs under the manager's mutex and is one step. *)

From S2P Require Import Prelude CInt CString XXHash DiskIO Json Format Topology TopologyQuorum.

(** ** Caches (cache.c) *)

Record format_cache := FormatCache {
  fc_format : option buckets_format;
  fc_initialized : bool
}.

Definition buckets_format_cache_init (c : format_cache) : format_cache :=
  if fc_initialized c then c else FormatCache None true.

Definition buckets_format_cache_cleanup (c : format_cache) : format_cache :=
  if fc_initialized c then FormatCache None false else c.

Definition buckets_format_cache_get (c : format_cache) : option buckets_format :=
  if fc_initialized c then fc_format c else None.

(** The cache keeps a clone. *)
Definition buckets_format_cache_set (c : format_cache) (format : option buckets_format)
    : buckets_error_t * format_cache :=
  if negb (fc_initialized c) then (BUCKETS_ERR_INVALID_ARG, c)
  else
    match format with
    | None => (BUCKETS_ERR_INVALID_ARG, c)
    | Some f =>
        match buckets_format_clone (Some f) with
        | None => (BUCKETS_ERR_NOMEM, c)
        | Some clone => (BUCKETS_OK, FormatCache (Some clone) (fc_initialized c))
        end
    end.

Definition buckets_format_cache_invalidate (c : format_cache) : format_cache :=
  if fc_initialized c then FormatCache None (fc_initialized c) else c.

Record topology_cache := TopologyCache {
  tc_topology : option buckets_cluster_topology;
  tc_initialized : bool
}.

Definition buckets_topology_cache_init (c : topology_cache) : topology_cache :=
  if tc_initialized c then c else TopologyCache None true.

Definition buckets_topology_cache_cleanup (c : topology_cache) : topology_cache :=
  if tc_initialized c then TopologyCache None false else c.

Definition buckets_topology_cache_get (c : topology_cache) : option buckets_cluster_topology :=
  if tc_initialized c then tc_topology c else None.

(** The cache takes the topology over. *)
Definition buckets_topology_cache_set (c : topology_cache)
    (topology : option buckets_cluster_topology) : buckets_error_t * topology_cache :=
  if negb (tc_initialized c) then (BUCKETS_ERR_INVALID_ARG, c)
  else
    match topology with
    | None => (BUCKETS_ERR_INVALID_ARG, c)
    | Some t => (BUCKETS_OK, TopologyCache (Some t) (tc_initialized c))
    end.

Definition buckets_topology_cache_invalidate (c : topology_cache) : topology_cache :=
  if tc_initialized c then TopologyCache None (tc_initialized c) else c.

(** ** The manager *)

(** A callback is a function identity and its user data. *)
Abbreviation callback_t := (nat * nat)%type.

Record topology_manager := TopologyManager {
  tm_disk_paths : list (option string);
  tm_callback : option callback_t;
  tm_initialized : bool
}.

(** The process: the manager, the topology cache, the disks, and the notifications sent
    so far, newest last. *)
Record tm_sys := TmSys {
  manager : topology_manager;
  cache : topology_cache;
  disk_fs : fs_t;
  notified : list (callback_t * buckets_cluster_topology)
}.

Definition buckets_topology_manager_init (s : tm_sys)
    (disk_paths : option (list (option string))) : buckets_error_t * tm_sys :=
  match disk_paths with
  | None => (BUCKETS_ERR_INVALID_ARG, s)
  | Some paths =>
      if (length paths =? 0)%nat then (BUCKETS_ERR_INVALID_ARG, s)
      else if tm_initialized (manager s) then (BUCKETS_ERR_INVALID_ARG, s)
      else (BUCKETS_OK, TmSys (TopologyManager paths None true) (cache s) (disk_fs s) (notified s))
  end.

Definition buckets_topology_manager_cleanup (s : tm_sys) : tm_sys :=
  if tm_initialized (manager s)
  then TmSys (TopologyManager [] None false) (cache s) (disk_fs s) (notified s) else s.

Definition buckets_topology_manager_get (s : tm_sys) : option buckets_cluster_topology :=
  if negb (tm_initialized (manager s)) then None else buckets_topology_cache_get (cache s).

Definition buckets_topology_manager_set_callback (s : tm_sys) (cb : option callback_t)
    : buckets_error_t * tm_sys :=
  if negb (tm_initialized (manager s)) then (BUCKETS_ERR_INVALID_ARG, s)
  else (BUCKETS_OK,
        TmSys (TopologyManager (tm_disk_paths (manager s)) cb (tm_initialized (manager s)))
              (cache s) (disk_fs s) (notified s)).

(** The deep copy, array by array. *)
Definition clone_topology (topology : option buckets_cluster_topology)
    : option buckets_cluster_topology :=
  match topology with
  | None => None
  | Some t =>
      Some {| version := version t; generation := generation t;
              deployment_id := deployment_id t; vnode_factor := vnode_factor t;
              pools := (λ p, {| pool_idx := pool_idx p;
                                sets := (λ s, {| set_idx := set_idx s; state := state s;
                                                 disks := disks s |}) <$> sets p |})
                         <$> pools t |}
  end.

Section Manager.
Context `{CJson}.
Context (envs : nat → write_env) (pid : N).

Definition buckets_topology_manager_load (read_ok : nat → bool) (s : tm_sys)
    : buckets_error_t * tm_sys :=
  if negb (tm_initialized (manager s)) then (BUCKETS_ERR_INVALID_ARG, s)
  else
    match buckets_topology_load_quorum read_ok (disk_fs s) (Some (tm_disk_paths (manager s))) with
    | None => (BUCKETS_ERR_QUORUM, s)
    | Some t =>
        match buckets_topology_cache_set (cache s) (Some t) with
        | (BUCKETS_OK, c) => (BUCKETS_OK, TmSys (manager s) c (disk_fs s) (notified s))
        | (err, _) => (err, s)
        end
    end.

Definition persist_and_notify (s : tm_sys) (t : buckets_cluster_topology)
    : buckets_error_t * tm_sys :=
  match buckets_topology_save_quorum envs pid (disk_fs s)
          (Some (tm_disk_paths (manager s))) (Some t) with
  | (BUCKETS_OK, fs) =>
      match clone_topology (Some t) with
      | None => (BUCKETS_ERR_NOMEM, TmSys (manager s) (cache s) fs (notified s))
      | Some clone =>
          match buckets_topology_cache_set (cache s) (Some clone) with
          | (BUCKETS_OK, c) =>
              (BUCKETS_OK,
               TmSys (manager s) c fs
                 (match tm_callback (manager s) with
                  | None => notified s
                  | Some cb => notified s ++ [(cb, t)]
                  end))
          | (err, c) => (err, TmSys (manager s) c fs (notified s))
          end
      end
  | (err, fs) => (err, TmSys (manager s) (cache s) fs (notified s))
  end.

(** The shape the four changes share: clone the cached topology, change the clone,
    persist it. *)
Definition manager_change (s : tm_sys)
    (change : option buckets_cluster_topology →
              buckets_error_t * option buckets_cluster_topology) : buckets_error_t * tm_sys :=
  match buckets_topology_cache_get (cache s) with
  | None => (BUCKETS_ERR_INVALID_ARG, s)
  | Some cached =>
      match clone_topology (Some cached) with
      | None => (BUCKETS_ERR_NOMEM, s)
      | Some topology =>
          match change (Some topology) with
          | (BUCKETS_OK, Some topology) => persist_and_notify s topology
          | (err, _) => (err, s)
          end
      end
  end.

Definition buckets_topology_manager_add_pool (s : tm_sys) : buckets_error_t * tm_sys :=
  if negb (tm_initialized (manager s)) then (BUCKETS_ERR_INVALID_ARG, s)
  else manager_change s buckets_topology_add_pool.

Definition buckets_topology_manager_add_set (s : tm_sys) (pidx : Z)
    (ds : option (list buckets_disk_info)) : buckets_error_t * tm_sys :=
  if negb (tm_initialized (manager s)) then (BUCKETS_ERR_INVALID_ARG, s)
  else
    match ds with
    | None => (BUCKETS_ERR_INVALID_ARG, s)
    | Some l =>
        if (length l =? 0)%nat then (BUCKETS_ERR_INVALID_ARG, s)
        else manager_change s (λ t, buckets_topology_add_set t pidx (Some l))
    end.

Definition buckets_topology_manager_mark_set_draining (s : tm_sys) (pidx sidx : Z)
    : buckets_error_t * tm_sys :=
  if negb (tm_initialized (manager s)) then (BUCKETS_ERR_INVALID_ARG, s)
  else manager_change s (λ t, buckets_topology_mark_set_draining t pidx sidx).

Definition buckets_topology_manager_mark_set_removed (s : tm_sys) (pidx sidx : Z)
    : buckets_error_t * tm_sys :=
  if negb (tm_initialized (manager s)) then (BUCKETS_ERR_INVALID_ARG, s)
  else manager_change s (λ t, buckets_topology_mark_set_removed t pidx sidx).

(** A change requested from the manager, which has no request that makes a set active
    again. *)
Definition manager_op (s : tm_sys) (op : topology_op) : buckets_error_t * tm_sys :=
  match op with
  | OpAddPool => buckets_topology_manager_add_pool s
  | OpAddSet pidx ds => buckets_topology_manager_add_set s pidx (Some ds)
  | OpSetState pidx sidx SET_STATE_DRAINING =>
      buckets_topology_manager_mark_set_draining s pidx sidx
  | OpSetState pidx sidx SET_STATE_REMOVED =>
      buckets_topology_manager_mark_set_removed s pidx sidx
  | OpSetState _ _ SET_STATE_ACTIVE => (BUCKETS_ERR_INVALID_ARG, s)
  end.
End Manager.

(** ** Lemmas *)

Lemma clone_topology_id t : clone_topology (Some t) = Some t.
Proof.
  destruct t as [v g d f ps]. simpl. do 2 f_equal.
  apply list_fmap_fix. intros [i ss]. simpl. f_equal. apply list_fmap_fix. by intros [].
Qed.

Section Spec.
Context `{CJsonLaws}.
Context (envs : nat → write_env) (pid : N).

Lemma persist_and_notify_spec s t err s' :
  persist_and_notify envs pid s t = (err, s') →
  manager s' = manager s ∧
  (err ≠ BUCKETS_OK → cache s' = cache s ∧ notified s' = notified s) ∧
  (err = BUCKETS_OK →
    buckets_topology_save_quorum envs pid (disk_fs s) (Some (tm_disk_paths (manager s)))
      (Some t) = (BUCKETS_OK, disk_fs s') ∧
    cache s' = TopologyCache (Some t) true ∧
    notified s' = notified s ++
      match tm_callback (manager s) with None => [] | Some cb => [(cb, t)] end).
Proof.
  unfold persist_and_notify. rewrite clone_topology_id. unfold buckets_topology_cache_set.
  destruct (buckets_topology_save_quorum _ _ _ _ _) as [[] fs];
    try (intros [= <- <-]; simpl; split_and!; done).
  destruct (tc_initialized (cache s)) eqn:Hi; simpl; intros [= <- <-]; simpl; [|done].
  split_and!; try done. destruct (tm_callback (manager s)); [done|by rewrite app_nil_r].
Qed.

(** With something in the cache, the answer is that of the save, which is always made. *)
Lemma persist_saves s t err s' :
  is_Some (buckets_topology_cache_get (cache s)) → persist_and_notify envs pid s t = (err, s') →
  buckets_topology_save_quorum envs pid (disk_fs s) (Some (tm_disk_paths (manager s))) (Some t)
    = (err, disk_fs s').
Proof.
  intros [t0 Hc]. unfold persist_and_notify, buckets_topology_cache_get in *. rewrite clone_topology_id.
  unfold buckets_topology_cache_set. destruct (buckets_topology_save_quorum _ _ _ _ _) as [[] fs];
    try (by intros [= <- <-]). destruct (tc_initialized (cache s)); [|done]. by intros [= <- <-].
Qed.

(** Why a request is refused. *)
Definition refused (s : tm_sys) (op : topology_op) : Prop :=
  tm_initialized (manager s) = false ∨ buckets_topology_cache_get (cache s) = None ∨
  (∃ t, buckets_topology_cache_get (cache s) = Some t ∧ (run_op t op).1 ≠ BUCKETS_OK) ∨
  (∃ pidx, op = OpAddSet pidx []) ∨ ∃ pidx sidx, op = OpSetState pidx sidx SET_STATE_ACTIVE.

(** A request is refused with no effect, or it is the change of the cached topology
    followed by its persistence. *)
Lemma manager_op_spec s op err s' :
  manager_op envs pid s op = (err, s') →
  (err ≠ BUCKETS_OK ∧ s' = s ∧ refused s op) ∨
  ∃ t t', buckets_topology_cache_get (cache s) = Some t ∧
    run_op t op = (BUCKETS_OK, Some t') ∧ persist_and_notify envs pid s t' = (err, s').
Proof.
  assert (∀ change, (∀ t, change (Some t) = run_op t op) →
    manager_change envs pid s change = (err, s') →
    (err ≠ BUCKETS_OK ∧ s' = s ∧ refused s op) ∨
    ∃ t t', buckets_topology_cache_get (cache s) = Some t ∧
      run_op t op = (BUCKETS_OK, Some t') ∧ persist_and_notify envs pid s t' = (err, s'))
    as Hch.
  { intros change Hrun. unfold manager_change, refused.
    destruct (buckets_topology_cache_get (cache s)) as [t|]; [|by intros [= <- <-]; left; auto].
    rewrite clone_topology_id, Hrun. destruct (run_op_spec t op) as (t' & Ht' & _).
    destruct (run_op t op) as [e o] eqn:Hop. simpl in Ht'. subst o.
    assert (e ≠ BUCKETS_OK → ∃ u, Some t = Some u ∧ (run_op u op).1 ≠ BUCKETS_OK) as Hno
      by (intros He; exists t; by rewrite Hop).
    destruct e; try (intros [= <- <-]; left; by auto 7). intros Hp. right. by exists t, t'. }
  destruct op as [|pidx ds|pidx sidx []]; simpl;
    try (intros [= <- <-]; left; split_and!; [done..|]; unfold refused; by eauto 9);
    unfold buckets_topology_manager_add_pool, buckets_topology_manager_add_set,
      buckets_topology_manager_mark_set_draining, buckets_topology_manager_mark_set_removed;
    (destruct (tm_initialized (manager s)) eqn:Hi; cbn [negb]; [|by intros [= <- <-]; left; split_and!; [..|left]]);
    [|destruct (Nat.eqb_spec (length ds) 0) as [->%nil_length_inv|];
      [intros [= <- <-]; left; split_and!; [done..|unfold refused; by eauto 9]|]|..];
    by apply Hch.
Qed.
End Spec.

(** C19: A change requested from the manager is all or nothing for the process, and its
    answer tells whether a quorum of the disks took it. A request that is refused (the
    manager does not run, nothing is cached, the topology does not allow the change) changes
    nothing at all. Otherwise the change is reported as successful exactly when the writes to
    more than half of the disks succeed; then the cache holds exactly the changed topology,
    more than half of the disks hold it, and the registered callback has been notified once,
    with it. When it is reported as failed, the cache and the notifications are as before.
    In both cases every disk holds the changed topology or what it held before; a failed
    change is not taken back from the disks that took it ([manager_failed_change_resurfaces]). *)
Theorem manager_change_committed `{CJsonLaws} envs pid s op err s' :
  let paths := tm_disk_paths (manager s) in
  manager_op envs pid s op = (err, s') →
  (err ≠ BUCKETS_OK ∧ s' = s ∧ refused s op) ∨
  ∃ t t', buckets_topology_cache_get (cache s) = Some t ∧
    run_op t op = (BUCKETS_OK, Some t') ∧ manager s' = manager s ∧
    (err = BUCKETS_OK ↔ (length paths < 2 * disks_saved envs pid 0 paths t')%nat) ∧
    (err = BUCKETS_OK → buckets_topology_cache_get (cache s') = Some t' ∧
      notified s' = notified s ++ match tm_callback (manager s) with None => [] | Some cb => [(cb, t')] end) ∧
    (err ≠ BUCKETS_OK → cache s' = cache s ∧ notified s' = notified s) ∧
    (wf_topology t' → NoDup (omap buckets_get_topology_path paths) →
     (disks_saved envs pid 0 paths t' ≤ length (holders (disk_fs s') paths t'))%nat ∧
     Forall (λ p, buckets_topology_load true (disk_fs s') p = Some t' ∨
                  buckets_topology_load true (disk_fs s') p = buckets_topology_load true (disk_fs s) p) paths).
Proof.
  intros paths [Href|(t & t' & Hc & Hop & Hp)]%manager_op_spec; [by left|right].
  pose proof (persist_saves _ _ _ _ _ _ (mk_is_Some _ _ Hc) Hp) as Hsave.
  apply persist_and_notify_spec in Hp as (Hm & Hfail & Hok).
  destruct (save_quorum_spec _ _ _ _ _ _ _ Hsave) as [Hquorum Hdisks].
  exists t, t'. split_and!; [done..|exact Hquorum| |done|done].
  intros ->. destruct (Hok eq_refl) as (_ & Hcache & Hn). by rewrite Hcache.
Qed.

Import BitsCJson.

(** A manager over [n] disks that all hold [small_topology], with a callback. *)
Definition demo_sys (n : nat) : tm_sys :=
  TmSys (TopologyManager (demo_paths n) (Some (1, 2)%nat) true)
        (TopologyCache (Some small_topology) true) (demo_save_old n).2 [].
Definition demo_op : topology_op := OpSetState 0 1 SET_STATE_DRAINING.
Definition demo_change (n : nat) : buckets_error_t * tm_sys :=
  manager_op disk0_down 1 (demo_sys n) demo_op.

Lemma manager_change_committed_witness :
  (demo_change 4).1 = BUCKETS_OK ∧
  ∃ t', buckets_topology_cache_get (cache (demo_change 4).2) = Some t' ∧
    notified (demo_change 4).2 = [((1, 2)%nat, t')].
Proof.
  assert ((demo_change 4).1 = BUCKETS_OK) as E by (vm_compute; reflexivity).
  split; [exact E|].
  destruct (manager_change_committed disk0_down 1 (demo_sys 4) demo_op
    BUCKETS_OK (demo_change 4).2) as [[[] _]|(t & t' & _ & _ & _ & _ & Hok & _)].
  - unfold demo_change in *. apply pair_fst_eq. exact E.
  - reflexivity.
  - destruct (Hok eq_refl) as [Hc Hn]. exists t'. split; [exact Hc|exact Hn].
Defined.

(** A process that starts again on the same disks: nothing cached. *)
Definition restart (s : tm_sys) : tm_sys :=
  TmSys (TopologyManager (tm_disk_paths (manager s)) None true) (TopologyCache None true)
        (disk_fs s) [].

(** C29: With an even number of disks a change that reported success survives a restart:
    a new process on the same disks, whichever writes had failed, loads exactly the
    changed topology into its cache. *)
Theorem manager_change_durable `{CJsonLaws} envs pid s op s' ht t' :
  manager_op envs pid s op = (BUCKETS_OK, s') →
  buckets_topology_cache_get (cache s') = Some t' → wf_topology t' →
  Nat.Even (length (tm_disk_paths (manager s))) →
  NoDup (omap buckets_get_topology_path (tm_disk_paths (manager s))) →
  topology_hash t' = Some ht →
  (∀ d t1, Some d ∈ tm_disk_paths (manager s) →
     buckets_topology_load true (disk_fs s') (Some d) = Some t1 →
     topology_hash t1 = Some ht → t1 = t') →
  buckets_topology_manager_load (λ _, true) (restart s')
    = (BUCKETS_OK, TmSys (manager (restart s')) (TopologyCache (Some t') true) (disk_fs s') []).
Proof.
  intros [(Herr & _)|(t & t1 & Hc & Hop & Hp)]%manager_op_spec Hc' Hwf Hev Hnd Hh Hcol; [done|].
  apply persist_and_notify_spec in Hp as (Hm & _ & Hok).
  destruct (Hok eq_refl) as (Hs & Hcache & _). rewrite Hcache in Hc'. injection Hc' as ->.
  destruct (quorum_read_back _ _ _ _ _ _ _ Hwf Hev Hnd Hh Hcol Hs) as [_ Hl].
  unfold buckets_topology_manager_load, restart. cbn [manager tm_disk_paths disk_fs cache].
  rewrite Hm, Hl. done.
Qed.

Lemma demo_change_loads :
  buckets_topology_load true (disk_fs (demo_change 4).2) <$> demo_paths 4
    = [Some small_topology; Some demo_new; Some demo_new; Some demo_new].
Proof. vm_compute. reflexivity. Qed.

Lemma manager_change_durable_witness :
  buckets_topology_manager_load (λ _, true) (restart (demo_change 4).2)
    = (BUCKETS_OK, TmSys (manager (restart (demo_change 4).2))
         (TopologyCache (Some demo_new) true) (disk_fs (demo_change 4).2) []).
Proof.
  refine (manager_change_durable disk0_down 1 (demo_sys 4) demo_op (demo_change 4).2
    demo_hash demo_new _ _ demo_new_wf _ _ _ _).
  - unfold demo_change. apply pair_fst_eq. vm_compute. reflexivity.
  - vm_compute. reflexivity.
  - by exists 2%nat.
  - apply (bool_decide_unpack _). vm_compute. exact I.
  - vm_compute. reflexivity.
  - exact (demo_no_collision _ demo_change_loads).
Defined.

(** The second disk refuses the write. *)
Definition disk1_down (i : nat) : write_env :=
  if (i =? 1)%nat then WriteEnv BUCKETS_OK false None true true true BUCKETS_OK
  else write_env_ok.

(** A change that reported a missing quorum is not undone on the disks that took it: with
    two disks, a restart loads the topology the manager had refused. *)
Lemma manager_failed_change_resurfaces :
  let r := manager_op disk1_down 1 (demo_sys 2) demo_op in
  r.1 = BUCKETS_ERR_QUORUM ∧
  buckets_topology_manager_get r.2 = Some small_topology ∧
  buckets_topology_manager_get (buckets_topology_manager_load (λ _, true) (restart r.2)).2
    = Some demo_new.
Proof. cbv zeta. split_and!; vm_compute; reflexivity. Qed.
