(* ===== verification/Placement.v ===== *)
(** * Object placement (src/src/placement/placement.c)

    Which erasure set stores an object: consistent hashing over 150 virtual nodes per
    active set of the topology. The module state is the record [placement]; the topology
    the manager returns, the library call that parses a UUID and the disk paths the
    multi-disk layer knows are arguments. *)

From S2P Require Import Prelude CInt CString SipHash SortedArray DiskIO Json Format Topology.
From Stdlib Require Import Ascii.

Definition VNODES_PER_SET : nat := 150.

Record placement_vnode := PVnode {
  pv_hash : Z;
  pv_pool_idx : nat;
  pv_set_idx : nat
}.

#[export] Instance placement_vnode_eq_dec : EqDecision placement_vnode.
Proof. solve_decision. Defined.

(** The globals of the file; [hash_ring_size] is the length of the ring. *)
Record placement := Placement {
  placement_initialized : bool;
  siphash_k0 : Z;
  siphash_k1 : Z;
  hash_ring : list placement_vnode;
  current_generation : Z
}.

Definition placement_start : placement := Placement false 0 0 [] 0.

(** ** The ring *)

(** The positions of the active sets, in the order of the loops. *)
Definition active_in_pool (p : nat) (pool : buckets_pool_topology) : list (nat * nat) :=
  omap id (imap (λ s set, if decide (state set = SET_STATE_ACTIVE) then Some (p, s) else None)
                (sets pool)).

Definition active_sets (t : buckets_cluster_topology) : list (nat * nat) :=
  concat (imap active_in_pool (pools t)).

Definition placement_vnode_key (p s v : nat) : string :=
  snprintf 256 (pretty p +:+ ":" +:+ pretty s +:+ ":" +:+ pretty v).

Definition set_vnodes (k0 k1 : Z) (ps : nat * nat) : list placement_vnode :=
  (λ v, {| pv_hash := buckets_siphash k0 k1
                        (Some (str_bytes (placement_vnode_key ps.1 ps.2 v)));
           pv_pool_idx := ps.1; pv_set_idx := ps.2 |}) <$> seq 0 VNODES_PER_SET.

(** The array before it is sorted. *)
Definition ring_vnodes (k0 k1 : Z) (t : buckets_cluster_topology) : list placement_vnode :=
  concat (set_vnodes k0 k1 <$> active_sets t).

Section Placement.
Context `{Qsort}.

Definition build_hash_ring (st : placement) (topology : option buckets_cluster_topology)
    : Z * placement :=
  match topology with
  | None => (-1, st)
  | Some t =>
      if (length (active_sets t) =? 0)%nat then (-1, st)
      else
        (0, {| placement_initialized := placement_initialized st;
               siphash_k0 := siphash_k0 st; siphash_k1 := siphash_k1 st;
               hash_ring := qsort (hash_compare pv_hash)
                                  (ring_vnodes (siphash_k0 st) (siphash_k1 st) t);
               current_generation := u64 (generation t) |})
  end.

Definition find_vnode (st : placement) (target_hash : Z) : c_result nat :=
  if (length (hash_ring st) =? 0)%nat then Val 0%nat
  else search_wrap_checked pv_hash (hash_ring st) (length (hash_ring st)) target_hash.

(** [uuid_parse] is [buckets_uuid_parse]: the 16 bytes, or [None] on an error. *)
Definition buckets_placement_init (uuid_parse : string → option (list Z)) (st : placement)
    (topology : option buckets_cluster_topology) : Z * placement :=
  if placement_initialized st then (0, st)
  else
    match topology with
    | None => (-1, st)
    | Some t =>
        match uuid_parse (deployment_id t) with
        | None => (-1, st)
        | Some deployment_uuid =>
            let st := {| placement_initialized := placement_initialized st;
                         siphash_k0 := load_le64 deployment_uuid;
                         siphash_k1 := load_le64 (drop 8 deployment_uuid);
                         hash_ring := hash_ring st;
                         current_generation := current_generation st |} in
            let (ret, st) := build_hash_ring st (Some t) in
            if negb (ret =? 0) then (-1, st)
            else (0, {| placement_initialized := true;
                        siphash_k0 := siphash_k0 st; siphash_k1 := siphash_k1 st;
                        hash_ring := hash_ring st;
                        current_generation := current_generation st |})
        end
    end.

Definition buckets_placement_rebuild_ring (st : placement)
    (topology : option buckets_cluster_topology) : Z * placement :=
  if negb (placement_initialized st) then (-1, st) else build_hash_ring st topology.
End Placement.

Definition buckets_placement_cleanup (st : placement) : placement :=
  {| placement_initialized := false; siphash_k0 := 0; siphash_k1 := 0; hash_ring := [];
     current_generation := current_generation st |}.

(** ** The path of an endpoint *)

(** The suffix from the first, and from the last, occurrence of a character, and from
    the first occurrence of a string. *)
Fixpoint strchr (s : string) (c : ascii) : option string :=
  match s with
  | EmptyString => None
  | String a s' => if Ascii.eqb a c then Some s else strchr s' c
  end.

Fixpoint strrchr (s : string) (c : ascii) : option string :=
  match s with
  | EmptyString => None
  | String a s' =>
      match strrchr s' c with
      | Some r => Some r
      | None => if Ascii.eqb a c then Some s else None
      end
  end.

Fixpoint strstr (s pat : string) : option string :=
  if String.prefix pat s then Some s
  else match s with EmptyString => None | String _ s' => strstr s' pat end.

Definition endpoint_path (endpoint : string) : string :=
  match strrchr endpoint "/" with
  | None => endpoint
  | Some last_slash =>
      match strstr endpoint "://" with
      | None => last_slash
      | Some scheme_end =>
          match strchr (String.substring 3 (strlen scheme_end - 3) scheme_end) "/" with
          | Some port_end => port_end
          | None => last_slash
          end
      end
  end.

(** ** Computing a placement *)

Record placement_result := PlacementResult {
  pr_pool_idx : nat;
  pr_set_idx : nat;
  disk_paths : list string;
  disk_uuids : list string;
  disk_endpoints : list string;
  pr_generation : Z;
  pr_state : buckets_set_state;
  pr_object_hash : Z;
  vnode_index : nat
}.

(** The hash an object is placed by. *)
Definition placement_hash (st : placement) (bucket object : string) : Z :=
  buckets_siphash (siphash_k0 st) (siphash_k1 st)
    (Some (str_bytes (bucket +:+ "/" +:+ object))).

(** The disk arrays of the result: the topology's endpoints, or, when the first one is
    empty, the paths [multidisk] of the set; [None] when those are too few. *)
Definition placement_disks (set : buckets_set_topology) (multidisk : list string)
    : option (list string * list string * list string) :=
  let use_multidisk_paths :=
    match disks set with d :: _ => bool_decide (endpoint d = "") | [] => false end in
  if use_multidisk_paths then
    if (length (disks set) <=? length multidisk)%nat
    then Some (take (length (disks set)) multidisk, uuid <$> disks set,
               (λ _, "") <$> disks set)
    else None
  else Some ((λ d, endpoint_path (endpoint d)) <$> disks set, uuid <$> disks set,
             endpoint <$> disks set).

Definition buckets_placement_compute (st : placement)
    (topology : option buckets_cluster_topology) (multidisk : nat → list string)
    (bucket object : option string) : c_result (Z * option placement_result) :=
  match bucket, object with
  | Some bucket, Some object =>
      if negb (placement_initialized st) then Val (-1, None)
      else if (length (hash_ring st) =? 0)%nat then Val (-1, None)
      else
        match topology with
        | None => Val (-1, None)
        | Some t =>
            let object_hash := placement_hash st bucket object in
            (let* vnode_idx := find_vnode st object_hash in
             let* vnode := c_read (hash_ring st) vnode_idx in
             match pools t !! pv_pool_idx vnode with
             | None => Val (-1, None)
             | Some pool =>
                 match sets pool !! pv_set_idx vnode with
                 | None => Val (-1, None)
                 | Some set =>
                     match placement_disks set (multidisk (pv_set_idx vnode)) with
                     | None => Val (-1, None)
                     | Some (paths, uuids, endpoints) =>
                         Val (0, Some {| pr_pool_idx := pv_pool_idx vnode;
                                         pr_set_idx := pv_set_idx vnode;
                                         disk_paths := paths; disk_uuids := uuids;
                                         disk_endpoints := endpoints;
                                         pr_generation := u64 (generation t);
                                         pr_state := state set;
                                         pr_object_hash := object_hash;
                                         vnode_index := vnode_idx |})
                     end
                 end
             end)%c
        end
  | _, _ => Val (-1, None)
  end.

(** The counts [buckets_placement_get_stats] reports; their quotient is left out. *)
Definition buckets_placement_get_stats (st : placement)
    (topology : option buckets_cluster_topology) : Z * Z :=
  if negb (placement_initialized st) then (0, 0)
  else
    match topology with
    | None => (0, 0)
    | Some t =>
        let active := omap (λ ps, pools t !! ps.1 ≫= λ p, sets p !! ps.2) (active_sets t) in
        (u32 (Z.of_nat (length active)),
         u32 (foldl (λ n s, n + Z.of_nat (length (disks s))) 0 active))
    end.

(** ** Lemmas *)

Lemma active_in_pool_spec p pool q s :
  (q, s) ∈ active_in_pool p pool ↔
  q = p ∧ ∃ set, sets pool !! s = Some set ∧ state set = SET_STATE_ACTIVE.
Proof.
  unfold active_in_pool. rewrite list_elem_of_omap. split.
  - intros (o & Ho & E). simpl in E. subst o.
    apply list_elem_of_lookup in Ho as [k Hk]. apply list_lookup_imap_Some in Hk as (set & Hs & E).
    case_decide; simplify_eq. eauto.
  - intros (-> & set & Hs & Ha). exists (Some (p, s)). split; [|done].
    apply list_elem_of_lookup. exists s. rewrite list_lookup_imap, Hs. simpl.
    by rewrite decide_True.
Qed.

Lemma active_sets_spec t p s :
  (p, s) ∈ active_sets t ↔
  ∃ pool set, pools t !! p = Some pool ∧ sets pool !! s = Some set ∧
              state set = SET_STATE_ACTIVE.
Proof.
  unfold active_sets. rewrite elem_of_concat. split.
  - intros (l & Hl & Hin).
    apply list_elem_of_lookup in Hl as [k Hk]. apply list_lookup_imap_Some in Hk as (pool & Hp & ->).
    apply active_in_pool_spec in Hin as (-> & set & ?). eauto.
  - intros (pool & set & Hp & Hs & Ha). exists (active_in_pool p pool). split.
    + apply list_elem_of_lookup. exists p. by rewrite list_lookup_imap, Hp.
    + apply active_in_pool_spec. eauto.
Qed.

Lemma ring_vnodes_spec k0 k1 t v :
  v ∈ ring_vnodes k0 k1 t ↔
  (pv_pool_idx v, pv_set_idx v) ∈ active_sets t ∧
  v ∈ set_vnodes k0 k1 (pv_pool_idx v, pv_set_idx v).
Proof.
  unfold ring_vnodes. rewrite elem_of_concat. split.
  - intros (l & Hl & Hin).
    apply list_elem_of_fmap in Hl as ([p s] & -> & Hps).
    assert (pv_pool_idx v = p ∧ pv_set_idx v = s) as [-> ->]; [|done].
    by apply list_elem_of_fmap in Hin as (k & -> & _).
  - intros [Ha Hv]. eexists. split; [|exact Hv].
    apply list_elem_of_fmap. eauto.
Qed.

Lemma ring_vnodes_hash_range k0 k1 t v :
  is_u64 k0 → is_u64 k1 → v ∈ ring_vnodes k0 k1 t → is_u64 (pv_hash v).
Proof.
  intros H0 H1 [_ Hv]%ring_vnodes_spec. apply list_elem_of_fmap in Hv as (k & -> & _). simpl.
  apply buckets_siphash_range; auto with buckets.
Qed.

Section PlacementSpec.
Context `{Qsort}.

(** The ring is the one of the topology [t]. *)
Record ring_current (st : placement) (t : buckets_cluster_topology) : Prop := {
  rc_initialized : placement_initialized st = true;
  rc_k0 : is_u64 (siphash_k0 st);
  rc_k1 : is_u64 (siphash_k1 st);
  rc_ring : hash_ring st = qsort (hash_compare pv_hash)
                             (ring_vnodes (siphash_k0 st) (siphash_k1 st) t);
  rc_nonempty : active_sets t ≠ []
}.

Lemma ring_current_nonempty st t : ring_current st t → hash_ring st ≠ [].
Proof.
  intros [_ _ _ -> Hne] E. destruct (active_sets t) as [|ps l] eqn:Ha; [done|].
  assert (ring_vnodes (siphash_k0 st) (siphash_k1 st) t = []) as Hr.
  { apply Permutation_nil_r. by rewrite <-(qsort_perm (hash_compare pv_hash)), E. }
  unfold ring_vnodes in Hr. rewrite Ha in Hr. discriminate Hr.
Qed.

Lemma rebuild_current st t st' :
  is_u64 (siphash_k0 st) → is_u64 (siphash_k1 st) →
  buckets_placement_rebuild_ring st (Some t) = (0, st') → ring_current st' t.
Proof.
  intros H0 H1. unfold buckets_placement_rebuild_ring, build_hash_ring.
  destruct (placement_initialized st) eqn:Hi; simpl; [|done].
  split_if; [done|]. intros [= <-]. split; try done. simpl.
  by destruct (active_sets t).
Qed.

Lemma init_current uuid_parse st t st' :
  (∀ s u, uuid_parse s = Some u → is_bytes u) → placement_initialized st = false →
  buckets_placement_init uuid_parse st (Some t) = (0, st') → ring_current st' t.
Proof.
  intros Hu Hi. unfold buckets_placement_init. rewrite Hi.
  destruct (uuid_parse _) as [u|] eqn:E; [|done]. apply Hu in E. unfold build_hash_ring.
  split_if; [done|]. intros [= <-]. split; try done.
  - by apply load_le64_range.
  - apply load_le64_range. by apply Forall_drop.
  - by destruct (active_sets t).
Qed.

(** The search reads nothing past the ring and lands on a virtual node nearest to the hash. *)
Lemma find_vnode_nearest st t h :
  ring_current st t → is_u64 h →
  ∃ i v, find_vnode st h = Val i ∧ hash_ring st !! i = Some v ∧
         nearest pv_hash (ring_vnodes (siphash_k0 st) (siphash_k1 st) t) h v.
Proof.
  intros Hc Hh. pose proof (ring_current_nonempty _ _ Hc) as Hne. destruct Hc as [_ H0 H1 Hr _].
  unfold find_vnode. rewrite (proj2 (Nat.eqb_neq _ _)) by (by destruct (hash_ring st)).
  rewrite search_wrap_checked_Val by done.
  assert (hash_sorted pv_hash (hash_ring st)) as Hs by (rewrite Hr; apply qsort_hash_sorted).
  destruct (search_wrap_successor pv_hash (hash_ring st) h Hs Hne) as [Hsucc Hlt].
  destruct (lookup_lt_is_Some_2 _ _ Hlt) as [v Hv]. eexists _, v. split; [done|]. split; [done|].
  rewrite Hv in Hsucc.
  assert (∀ w, w ∈ hash_ring st ↔ w ∈ ring_vnodes (siphash_k0 st) (siphash_k1 st) t) as Hin.
  { intros w. by rewrite Hr, (qsort_perm (hash_compare pv_hash)). }
  apply successor_nearest in Hsucc; [|done| |done].
  - eapply nearest_subset; [exact Hsucc| |]; [apply Hin; apply Hsucc|intros w; apply Hin].
  - intros w Hw%Hin. exact (ring_vnodes_hash_range _ _ _ _ H0 H1 Hw).
Qed.

(** The set a virtual node points at, in a topology, and what it makes of a placement. *)
Definition placement_answer (t : buckets_cluster_topology)
    (md : nat → list string) (h : Z) (i : nat) (v : placement_vnode) : Z * option placement_result :=
  match pools t !! pv_pool_idx v ≫= λ pool, sets pool !! pv_set_idx v with
  | None => (-1, None)
  | Some set =>
      match placement_disks set (md (pv_set_idx v)) with
      | None => (-1, None)
      | Some (paths, uuids, endpoints) =>
          (0, Some {| pr_pool_idx := pv_pool_idx v; pr_set_idx := pv_set_idx v;
                      disk_paths := paths; disk_uuids := uuids; disk_endpoints := endpoints;
                      pr_generation := u64 (generation t); pr_state := state set;
                      pr_object_hash := h; vnode_index := i |})
      end
  end.

(** The ring decides the set, whatever the topology is by now. *)
Lemma compute_ring st t t' md bucket object :
  ring_current st t →
  ∃ i v, hash_ring st !! i = Some v ∧
    nearest pv_hash (ring_vnodes (siphash_k0 st) (siphash_k1 st) t) (placement_hash st bucket object) v ∧
    buckets_placement_compute st (Some t') md (Some bucket) (Some object) =
    Val (placement_answer t' md (placement_hash st bucket object) i v).
Proof.
  intros Hc. destruct (find_vnode_nearest st t (placement_hash st bucket object) Hc)
    as (i & v & Hi & Hv & Hnear).
  { destruct Hc. apply buckets_siphash_range; auto with buckets. }
  exists i, v. split; [done|]. split; [done|].
  unfold buckets_placement_compute, placement_answer. rewrite (rc_initialized _ _ Hc).
  rewrite (proj2 (Nat.eqb_neq _ _))
    by (pose proof (ring_current_nonempty _ _ Hc); by destruct (hash_ring st)).
  cbn [negb]. cbv zeta. rewrite Hi. cbn [c_bind]. unfold c_read. rewrite Hv. cbn [c_bind].
  destruct (pools t' !! pv_pool_idx v) as [pool|]; [|done]. cbn [mbind option_bind].
  destruct (sets pool !! pv_set_idx v) as [set|]; [|done].
  by destruct (placement_disks set _) as [[[??]?]|].
Qed.

Lemma placement_answer_set t md h i v r :
  Val (placement_answer t md h i v) = Val (0, Some r) →
  pr_pool_idx r = pv_pool_idx v ∧ pr_set_idx r = pv_set_idx v.
Proof.
  unfold placement_answer. destruct (_ ≫= _) as [set|]; [|done].
  destruct (placement_disks set _) as [[[??]?]|]; [|done]. by intros [= <-].
Qed.

(** On a current ring the set is active. *)
Lemma nearest_active k0 k1 t h v :
  nearest pv_hash (ring_vnodes k0 k1 t) h v →
  ∃ pool set, pools t !! pv_pool_idx v = Some pool ∧ sets pool !! pv_set_idx v = Some set ∧
    state set = SET_STATE_ACTIVE.
Proof. intros [[Ha _]%ring_vnodes_spec _]. by apply active_sets_spec. Qed.
End PlacementSpec.

(** ** Placement over the life of the process *)

Section Runs.
Context `{Qsort} (uuid_parse : string → option (list Z)).

(** The states after a successful start on a topology and successful rebuilds; the
    index is the topology the ring was last built from. *)
Inductive placement_run : placement → buckets_cluster_topology → Prop :=
  | run_init st t st' :
      placement_initialized st = false →
      buckets_placement_init uuid_parse st (Some t) = (0, st') → placement_run st' t
  | run_rebuild st t0 t st' :
      placement_run st t0 →
      buckets_placement_rebuild_ring st (Some t) = (0, st') → placement_run st' t.

Lemma placement_run_current st t :
  (∀ s u, uuid_parse s = Some u → is_bytes u) → placement_run st t → ring_current st t.
Proof.
  intros Hu. induction 1 as [st t st' Hi Hinit|st t0 t st' _ IH Hr].
  - by eapply init_current.
  - destruct IH as [_ H0 H1 _ _]. by eapply rebuild_current.
Qed.
End Runs.

(** C25: A placement follows the ring: whatever the topology is by now, on a ring that was built
    from [t0] a placement is never undefined, reads nothing past the ring, and is decided by a
    virtual node at the least clockwise distance from the object's hash, among 150 virtual
    nodes per set that was active in [t0]; the set of that node was active then. The answer is
    that set as it is now, with its present state and disks; it is an error exactly when the
    present topology does not have the set, or the paths of its disks are not known. On a
    ring that was rebuilt after the last change ([t = t0]) the set is therefore active; the
    program never rebuilds it ([placement_stale_ring_uses_draining_set]). *)
Theorem placement_nearest_active `{Qsort} uuid_parse st t0 t md bucket object :
  (∀ s u, uuid_parse s = Some u → is_bytes u) → placement_run uuid_parse st t0 →
  ∃ v pool0 set0,
    nearest pv_hash (ring_vnodes (siphash_k0 st) (siphash_k1 st) t0)
      (placement_hash st bucket object) v ∧
    pools t0 !! pv_pool_idx v = Some pool0 ∧ sets pool0 !! pv_set_idx v = Some set0 ∧
    state set0 = SET_STATE_ACTIVE ∧
    match pools t !! pv_pool_idx v ≫= λ pool, sets pool !! pv_set_idx v with
    | None => buckets_placement_compute st (Some t) md (Some bucket) (Some object) = Val (-1, None)
    | Some set =>
        match buckets_placement_compute st (Some t) md (Some bucket) (Some object) with
        | Val (ret, None) => ret = -1 ∧ placement_disks set (md (pv_set_idx v)) = None
        | Val (ret, Some r) =>
            ret = 0 ∧ pr_pool_idx r = pv_pool_idx v ∧ pr_set_idx r = pv_set_idx v ∧
            pr_state r = state set ∧ pr_generation r = u64 (generation t) ∧
            hash_ring st !! vnode_index r = Some v ∧
            placement_disks set (md (pv_set_idx v)) = Some (disk_paths r, disk_uuids r, disk_endpoints r)
        | Undef => False
        end
    end.
Proof.
  intros Hu Hrun%placement_run_current; [|done].
  destruct (compute_ring st t0 t md bucket object Hrun) as (i & v & Hi & Hn & ->).
  destruct (nearest_active _ _ _ _ _ Hn) as (pool0 & set0 & Hp & Hs & Ha).
  exists v, pool0, set0. split_and!; try done. unfold placement_answer.
  destruct (pools t !! pv_pool_idx v ≫= _) as [set|]; [|done].
  by destruct (placement_disks set _) as [[[??]?]|].
Qed.

(** C3: A change of the topology moves few objects: when an object's set before the
    change is still active after it, and its set after the change was active before, the
    two sets are the same. So the objects of a set that stays active move only onto
    sets that have just become active. (The virtual nodes of the first topology must
    have distinct hashes, since [qsort] may reorder equal ones.) *)
Theorem placement_minimal_movement `{Qsort} uuid_parse st1 t1 st2 t2 md bucket object r1 r2 :
  (∀ s u, uuid_parse s = Some u → is_bytes u) →
  placement_run uuid_parse st1 t1 → placement_run uuid_parse st2 t2 →
  siphash_k0 st1 = siphash_k0 st2 → siphash_k1 st1 = siphash_k1 st2 →
  NoDup (pv_hash <$> ring_vnodes (siphash_k0 st1) (siphash_k1 st1) t1) →
  buckets_placement_compute st1 (Some t1) md (Some bucket) (Some object) = Val (0, Some r1) →
  buckets_placement_compute st2 (Some t2) md (Some bucket) (Some object) = Val (0, Some r2) →
  (pr_pool_idx r1, pr_set_idx r1) ∈ active_sets t2 →
  (pr_pool_idx r2, pr_set_idx r2) ∈ active_sets t1 →
  (pr_pool_idx r2, pr_set_idx r2) = (pr_pool_idx r1, pr_set_idx r1).
Proof.
  intros Hu Hrun1 Hrun2 Hk0 Hk1 Hnd.
  apply placement_run_current in Hrun1, Hrun2; [|done..]. pose proof Hrun1 as [_ Hu0 Hu1 _ _].
  destruct (compute_ring st1 t1 t1 md bucket object Hrun1) as (i1 & v1 & _ & Hn1 & ->).
  destruct (compute_ring st2 t2 t2 md bucket object Hrun2) as (i2 & v2 & _ & Hn2 & ->).
  unfold placement_hash in Hn2. rewrite <-Hk0, <-Hk1 in Hn2. fold (placement_hash st1 bucket object) in Hn2.
  intros [-> ->]%placement_answer_set [-> ->]%placement_answer_set Ha1 Ha2.
  set (L1 := ring_vnodes _ _ t1) in *. set (L2 := ring_vnodes _ _ t2) in *.
  assert (v1 ∈ L2) as Hin1.
  { apply ring_vnodes_spec. split; [done|]. by destruct Hn1 as [[_ ?]%ring_vnodes_spec _]. }
  assert (v2 ∈ L1) as Hin2.
  { apply ring_vnodes_spec. split; [done|]. by destruct Hn2 as [[_ ?]%ring_vnodes_spec _]. }
  assert (v2 = v1) as ->; [|done].
  apply (nearest_unique pv_hash L1 (placement_hash st1 bucket object));
    [|apply buckets_siphash_range; auto with buckets|done| |exact Hn1].
  - intros w Hw. exact (ring_vnodes_hash_range _ _ _ _ Hu0 Hu1 Hw).
  - destruct Hn2 as [_ Hmin2], Hn1 as [_ Hmin1]. split; [done|]. intros w Hw.
    etrans; [apply Hmin2, Hin1|by apply Hmin1].
Qed.

(** ** Examples: one set, then an empty pool beside it *)

Definition demo_parse (_ : string) : option (list Z) := Some (replicate 16 7).
Definition demo_disks (_ : nat) : list string := ["/mnt/a"].
Definition one_set : buckets_cluster_topology :=
  ClusterTopology 1 1 "d" 150
    [PoolTopology 0 [SetTopology 0 SET_STATE_ACTIVE [DiskInfo "" "u0" 0]]].
Definition one_set_grown : buckets_cluster_topology := run_ops one_set [OpAddPool].
Definition demo_placement : placement :=
  (buckets_placement_init demo_parse placement_start (Some one_set)).2.
Definition demo_rebuilt : placement :=
  (buckets_placement_rebuild_ring demo_placement (Some one_set_grown)).2.

Lemma demo_parse_bytes s u : demo_parse s = Some u → is_bytes u.
Proof. intros [= <-]. repeat constructor; unfold in_range; lia. Qed.

Lemma demo_placement_run : placement_run demo_parse demo_placement one_set.
Proof.
  apply (run_init demo_parse placement_start); [reflexivity|].
  unfold demo_placement. apply pair_fst_eq. reflexivity.
Qed.

Lemma demo_rebuilt_run : placement_run demo_parse demo_rebuilt one_set_grown.
Proof.
  apply (run_rebuild demo_parse demo_placement one_set); [exact demo_placement_run|].
  unfold demo_rebuilt. apply pair_fst_eq. reflexivity.
Qed.

(** The ring of one set, and by now its set drains: the object still goes there. *)
Lemma placement_nearest_active_witness :
  ∃ v, nearest pv_hash
      (ring_vnodes (siphash_k0 demo_placement) (siphash_k1 demo_placement) one_set)
      (placement_hash demo_placement "b" "c") v ∧
    match buckets_placement_compute demo_placement
            (Some (run_ops one_set [OpSetState 0 0 SET_STATE_DRAINING])) demo_disks (Some "b") (Some "c") with
    | Val (ret, Some r) => ret = 0 ∧ pr_state r = SET_STATE_DRAINING
    | _ => False
    end.
Proof.
  destruct (placement_nearest_active demo_parse demo_placement one_set
    (run_ops one_set [OpSetState 0 0 SET_STATE_DRAINING]) demo_disks "b" "c"
    demo_parse_bytes demo_placement_run) as (v & pool & set & Hn & Hp & Hs & _ & Hr).
  exists v. split; [exact Hn|]. revert Hr.
  generalize (buckets_placement_compute demo_placement
    (Some (run_ops one_set [OpSetState 0 0 SET_STATE_DRAINING])) demo_disks (Some "b") (Some "c")).
  intros x. destruct (pv_pool_idx v) as [|p]; [|discriminate Hp]. injection Hp as <-.
  destruct (pv_set_idx v) as [|s]; [|discriminate Hs]. cbn. destruct x as [[ret [r|]]|]; [|by intros []|done].
  intros (-> & _ & _ & -> & _). done.
Defined.

(** With one active set, every object is on it. *)
Lemma one_set_compute st t :
  ring_current st t → active_sets t = [(0, 0)%nat] →
  head (pools t) = head (pools one_set) →
  ∃ r, buckets_placement_compute st (Some t) demo_disks (Some "b") (Some "c") = Val (0, Some r) ∧
       pr_pool_idx r = 0%nat ∧ pr_set_idx r = 0%nat.
Proof.
  intros Hc Ha Hh. destruct (compute_ring st t t demo_disks "b" "c" Hc) as (i & v & _ & [Hin _] & ->).
  apply ring_vnodes_spec in Hin as [Hin _]. rewrite Ha in Hin.
  apply list_elem_of_singleton in Hin. injection Hin as Hp0 Hs0.
  unfold placement_answer. rewrite Hp0, Hs0. destruct (pools t) as [|p ps]; [done|].
  simpl in Hh. simplify_eq. eexists. split; [reflexivity|done].
Qed.

Lemma placement_minimal_movement_witness :
  ∃ r1 r2,
    buckets_placement_compute demo_placement (Some one_set) demo_disks (Some "b") (Some "c")
      = Val (0, Some r1) ∧
    buckets_placement_compute demo_rebuilt (Some one_set_grown) demo_disks (Some "b") (Some "c")
      = Val (0, Some r2) ∧
    (pr_pool_idx r2, pr_set_idx r2) = (pr_pool_idx r1, pr_set_idx r1).
Proof.
  destruct (one_set_compute demo_placement one_set) as (r1 & H1 & Hp1 & Hs1);
    [exact (placement_run_current _ _ _ demo_parse_bytes demo_placement_run)|reflexivity..|].
  destruct (one_set_compute demo_rebuilt one_set_grown) as (r2 & H2 & Hp2 & Hs2);
    [exact (placement_run_current _ _ _ demo_parse_bytes demo_rebuilt_run)|reflexivity..|].
  exists r1, r2. split; [exact H1|]. split; [exact H2|].
  refine (placement_minimal_movement demo_parse demo_placement one_set demo_rebuilt
    one_set_grown demo_disks "b" "c" r1 r2 demo_parse_bytes demo_placement_run
    demo_rebuilt_run _ _ _ H1 H2 _ _).
  - reflexivity.
  - reflexivity.
  - apply (bool_decide_unpack _). vm_compute. exact I.
  - rewrite Hp1, Hs1. apply (bool_decide_unpack _). exact I.
  - rewrite Hp2, Hs2. apply (bool_decide_unpack _). exact I.
Defined.

(** A set is drained but the ring is still the old one: every object still goes to the
    draining set. *)
Lemma placement_stale_ring_uses_draining_set bucket object :
  ∃ r, buckets_placement_compute demo_placement
         (Some (run_ops one_set [OpSetState 0 0 SET_STATE_DRAINING])) demo_disks
         (Some bucket) (Some object) = Val (0, Some r) ∧ pr_state r = SET_STATE_DRAINING.
Proof.
  pose proof (placement_run_current _ _ _ demo_parse_bytes demo_placement_run) as Hc.
  destruct (compute_ring demo_placement one_set
    (run_ops one_set [OpSetState 0 0 SET_STATE_DRAINING]) demo_disks bucket object Hc)
    as (i & v & _ & [Hin _] & ->).
  apply ring_vnodes_spec in Hin as [Hin _]. change (active_sets one_set) with [(0, 0)%nat] in Hin.
  apply list_elem_of_singleton in Hin. injection Hin as Hp0 Hs0.
  unfold placement_answer. rewrite Hp0, Hs0. eexists. split; reflexivity.
Qed.
