(* ===== verification/LinkedList.v ===== *)
(** * Lists of distinct addresses, seen through their links

    A linked structure in memory is described by the list of its nodes; the link fields
    of a node are functions of that list: its successor [next_in] and its predecessor
    [prev_in]. Removing a node and adding one in front change the links of the
    neighbours only. *)

From S2P Require Import Prelude.

Section Links.
Context {A : Type} `{EqDecision A}.
Implicit Types (l : list A) (a b : A).

Fixpoint next_in l a : option A :=
  match l with
  | [] => None
  | x :: l => if decide (x = a) then head l else next_in l a
  end.

Definition prev_in l a : option A := next_in (reverse l) a.

Lemma NoDup_reverse l : NoDup l → NoDup (reverse l).
Proof. intros. by rewrite reverse_Permutation. Qed.

(** [l] without [a]. *)
Definition rm a l : list A := filter (λ x, x ≠ a) l.

Lemma elem_of_rm a b l : b ∈ rm a l ↔ b ∈ l ∧ b ≠ a.
Proof. unfold rm. rewrite list_elem_of_filter. naive_solver. Qed.

Lemma NoDup_rm a l : NoDup l → NoDup (rm a l).
Proof. intros. by apply NoDup_filter. Qed.

Lemma rm_notin a l : a ∉ l → rm a l = l.
Proof. intros. apply list_filter_all. intros x Hx ->. done. Qed.

Lemma rm_cons_ne a x l : x ≠ a → rm a (x :: l) = x :: rm a l.
Proof. intros. unfold rm. by rewrite filter_cons_True. Qed.

Lemma rm_cons_eq a l : rm a (a :: l) = rm a l.
Proof. unfold rm. rewrite filter_cons_False; [done|]. intros H. by apply H. Qed.

Lemma rm_reverse a l : rm a (reverse l) = reverse (rm a l).
Proof.
  induction l as [|x l IH]; [done|]. rewrite reverse_cons. unfold rm in *.
  rewrite filter_app, IH, !filter_cons. case_decide; simpl.
  - by rewrite reverse_cons.
  - by rewrite app_nil_r.
Qed.

Lemma length_rm a l : NoDup l → a ∈ l → length l = S (length (rm a l)).
Proof.
  induction l as [|x l IH]; intros Hnd Ha; [by apply elem_of_nil in Ha|].
  apply NoDup_cons in Hnd as [Hx Hnd]. destruct (decide (x = a)) as [->|Hne].
  - rewrite rm_cons_eq, rm_notin by done. done.
  - rewrite rm_cons_ne by done. simpl. f_equal. apply IH; [done|].
    apply elem_of_cons in Ha as [->|]; done.
Qed.

Lemma next_in_notin l a : a ∉ l → next_in l a = None.
Proof.
  induction l as [|x l IH]; intros Ha; simpl; [done|].
  apply not_elem_of_cons in Ha as [Hne Ha]. rewrite decide_False by done. auto.
Qed.

Lemma prev_in_notin l a : a ∉ l → prev_in l a = None.
Proof. intros. apply next_in_notin. by rewrite elem_of_reverse. Qed.

Lemma next_in_split l1 a l2 : a ∉ l1 → next_in (l1 ++ a :: l2) a = head l2.
Proof.
  induction l1 as [|x l1 IH]; intros Ha; simpl; [by rewrite decide_True|].
  apply not_elem_of_cons in Ha as [Hne Ha]. rewrite decide_False by done. auto.
Qed.

Lemma next_in_Some_elem l a b : next_in l a = Some b → a ∈ l ∧ b ∈ l.
Proof.
  induction l as [|x l IH]; simpl; [done|]. case_decide as Hx.
  - subst. destruct l; [done|]. intros [= ->]. set_solver.
  - intros H%IH. set_solver.
Qed.

Lemma head_rm l a :
  NoDup l → head (rm a l) = if decide (head l = Some a) then next_in l a else head l.
Proof.
  destruct l as [|x l]; intros Hnd; [done|]. apply NoDup_cons in Hnd as [Hx Hnd].
  destruct (decide (x = a)) as [->|Hne]; simpl.
  - rewrite rm_cons_eq, rm_notin by done. by rewrite !decide_True.
  - rewrite rm_cons_ne by done. simpl. rewrite decide_False; [done|]. by intros [= ->].
Qed.

Lemma next_in_rm l a b :
  NoDup l → b ≠ a →
  next_in (rm a l) b = if decide (next_in l b = Some a) then next_in l a else next_in l b.
Proof.
  induction l as [|x l IH]; intros Hnd Hne; [done|]. apply NoDup_cons in Hnd as [Hx Hnd].
  destruct (decide (x = a)) as [->|Hxa].
  - rewrite rm_cons_eq, rm_notin by done. simpl.
    rewrite (decide_False (P := a = b)) by congruence. rewrite decide_False; [done|].
    intros H%next_in_Some_elem. by destruct H.
  - rewrite rm_cons_ne by done. simpl. rewrite (decide_False (P := x = a)) by done.
    destruct (decide (x = b)) as [->|Hxb]; [by apply head_rm|by apply IH].
Qed.

Lemma prev_in_rm l a b :
  NoDup l → b ≠ a →
  prev_in (rm a l) b = if decide (prev_in l b = Some a) then prev_in l a else prev_in l b.
Proof.
  intros. unfold prev_in. rewrite <-rm_reverse. apply next_in_rm; [by apply NoDup_reverse|done].
Qed.

Lemma last_rm l a :
  NoDup l → last (rm a l) = if decide (last l = Some a) then prev_in l a else last l.
Proof.
  intros. unfold prev_in. rewrite <-!head_reverse, <-rm_reverse. apply head_rm.
  by apply NoDup_reverse.
Qed.

(** Successor and predecessor are each other's inverse. *)
Lemma next_in_prev_in l a b : NoDup l → next_in l a = Some b → prev_in l b = Some a.
Proof.
  induction l as [|x l IH]; intros Hnd; simpl; [done|].
  apply NoDup_cons in Hnd as [Hx Hnd]. unfold prev_in in *. rewrite reverse_cons.
  case_decide as Hxa.
  - subst. destruct l as [|y l]; [done|]. intros [= ->]. rewrite reverse_cons, <-app_assoc. simpl.
    rewrite next_in_split; [done|]. rewrite elem_of_reverse. by apply NoDup_cons in Hnd as [].
  - intros H. specialize (IH Hnd H). clear H Hnd Hxa.
    revert IH. generalize (reverse l) as k. induction k as [|z k IHk]; simpl; [done|].
    case_decide; [|auto]. intros Hk. destruct k; simpl in *; done.
Qed.

Lemma prev_in_next_in l a b : NoDup l → prev_in l b = Some a → next_in l a = Some b.
Proof.
  intros Hnd H. rewrite <-(reverse_involutive l). apply (next_in_prev_in (reverse l)); [|done].
  by apply NoDup_reverse.
Qed.

Lemma prev_in_None_head l a : NoDup l → a ∈ l → prev_in l a = None → head l = Some a.
Proof.
  intros Hnd Ha Hp. destruct l as [|x l]; [by apply elem_of_nil in Ha|]. simpl.
  apply elem_of_cons in Ha as [->|Ha]; [done|]. exfalso.
  apply NoDup_cons in Hnd as [Hx Hnd].
  apply list_elem_of_split in Ha as (l1 & l2 & ->). unfold prev_in in Hp.
  rewrite reverse_cons, reverse_app, reverse_cons, <-!app_assoc in Hp. simpl in Hp.
  rewrite next_in_split in Hp; [by destruct (reverse l1)|].
  rewrite elem_of_reverse. apply NoDup_app in Hnd as (_ & _ & Hnd). by apply NoDup_cons in Hnd as [].
Qed.

Lemma next_in_None_last l a : NoDup l → a ∈ l → next_in l a = None → last l = Some a.
Proof.
  intros Hnd Ha Hn. rewrite <-head_reverse. apply prev_in_None_head.
  - by apply NoDup_reverse.
  - by rewrite elem_of_reverse.
  - unfold prev_in. by rewrite reverse_involutive.
Qed.

Lemma head_prev_None l a : NoDup l → head l = Some a → prev_in l a = None.
Proof.
  destruct l as [|x l]; intros Hnd; [done|]. intros [= ->]. apply NoDup_cons in Hnd as [Hx Hnd].
  unfold prev_in. rewrite reverse_cons. rewrite next_in_split; [done|]. by rewrite elem_of_reverse.
Qed.

Lemma last_next_None l a : NoDup l → last l = Some a → next_in l a = None.
Proof.
  intros Hnd Hl. rewrite <-(reverse_involutive l). apply (head_prev_None (reverse l)).
  - by apply NoDup_reverse.
  - by rewrite head_reverse.
Qed.

(** Adding in front. *)
Lemma next_in_cons_ne a l b : a ≠ b → next_in (a :: l) b = next_in l b.
Proof. intros. simpl. by rewrite decide_False. Qed.

Lemma prev_in_cons a l b :
  a ∉ l → NoDup l →
  prev_in (a :: l) b = if decide (head l = Some b) then Some a else prev_in l b.
Proof.
  intros Ha Hnd. unfold prev_in. rewrite reverse_cons. destruct (decide (head l = Some b)) as [E|E].
  - destruct l as [|x l]; [done|]. injection E as ->. rewrite reverse_cons, <-app_assoc. simpl.
    rewrite next_in_split; [done|]. rewrite elem_of_reverse. by apply NoDup_cons in Hnd as [].
  - assert (last (reverse l) ≠ Some b) as E' by (by rewrite last_reverse).
    clear E Ha Hnd. revert E'. generalize (reverse l) as k.
    induction k as [|z k IH]; intros E; simpl.
    + by case_decide.
    + case_decide; [|apply IH; by destruct k]. subst. destruct k; [by destruct E|done].
Qed.
End Links.
