(* ===== verification/HashLru.v ===== *)
(** * A hash table with an LRU list

    The metadata cache and the cache of the location registry are the same structure, written
    twice: entries in the chains of a hash table that are also on a doubly linked list, most
    recently used first. Entries live in a heap (a map from addresses); following a link to a
    freed entry is undefined. The functions of storage/metadata_cache.c are translated here,
    for any type of cached values; [malloc] is an argument. *)

From S2P Require Import Prelude CInt CString XXHash LinkedList.

Local Open Scope c_scope.

Abbreviation addr := positive.

(** [table_size] is the length of the table. *)
Record hash_lru := HashLru {
  hash_table : list (option addr);
  lru_head : option addr;
  lru_tail : option addr;
  count : Z;
  max_size : Z;
  ttl_seconds : Z;
  hits : Z;
  misses : Z;
  evictions : Z
}.

Definition table_size (c : hash_lru) : nat := length (hash_table c).

Definition cache_key_hash (key : string) (size : nat) : nat :=
  Z.to_nat (buckets_xxhash64 0 (Some (str_bytes key)) mod Z.of_nat size).

Section HashLru.
Context {V : Type}.

Record cache_entry := CacheEntry {
  ce_key : string;
  ce_value : V;
  ce_time : Z;
  ce_next : option addr;
  ce_lru_prev : option addr;
  ce_lru_next : option addr
}.

Abbreviation heap_t := (gmap addr cache_entry).
Abbreviation cache_state := (heap_t * hash_lru)%type.

(** *** Field updates *)

Definition with_next (n : option addr) (e : cache_entry) : cache_entry :=
  CacheEntry (ce_key e) (ce_value e) (ce_time e) n (ce_lru_prev e) (ce_lru_next e).
Definition with_lru_prev (p : option addr) (e : cache_entry) : cache_entry :=
  CacheEntry (ce_key e) (ce_value e) (ce_time e) (ce_next e) p (ce_lru_next e).
Definition with_lru_next (n : option addr) (e : cache_entry) : cache_entry :=
  CacheEntry (ce_key e) (ce_value e) (ce_time e) (ce_next e) (ce_lru_prev e) n.
Definition with_value (m : V) (e : cache_entry) : cache_entry :=
  CacheEntry (ce_key e) m (ce_time e) (ce_next e) (ce_lru_prev e) (ce_lru_next e).
Definition with_time (t : Z) (e : cache_entry) : cache_entry :=
  CacheEntry (ce_key e) (ce_value e) t (ce_next e) (ce_lru_prev e) (ce_lru_next e).

Definition with_head (h : option addr) (c : hash_lru) : hash_lru :=
  HashLru (hash_table c) h (lru_tail c) (count c) (max_size c) (ttl_seconds c)
    (hits c) (misses c) (evictions c).
Definition with_tail (t : option addr) (c : hash_lru) : hash_lru :=
  HashLru (hash_table c) (lru_head c) t (count c) (max_size c) (ttl_seconds c)
    (hits c) (misses c) (evictions c).
Definition with_table (tab : list (option addr)) (c : hash_lru) : hash_lru :=
  HashLru tab (lru_head c) (lru_tail c) (count c) (max_size c) (ttl_seconds c)
    (hits c) (misses c) (evictions c).
Definition with_count (n : Z) (c : hash_lru) : hash_lru :=
  HashLru (hash_table c) (lru_head c) (lru_tail c) n (max_size c) (ttl_seconds c)
    (hits c) (misses c) (evictions c).
Definition with_stats (h m e : Z) (c : hash_lru) : hash_lru :=
  HashLru (hash_table c) (lru_head c) (lru_tail c) (count c) (max_size c)
    (ttl_seconds c) h m e.

(** A read and a write through a pointer. *)
Definition load (h : heap_t) (a : addr) : c_result cache_entry :=
  match h !! a with Some e => Val e | None => Undef end.
Definition store (h : heap_t) (a : addr) (f : cache_entry → cache_entry) : c_result heap_t :=
  match h !! a with Some e => Val (<[a := f e]> h) | None => Undef end.

(** *** The LRU list *)

Definition lru_remove (s : cache_state) (entry : addr) : c_result cache_state :=
  let (h, c) := s in
  let* e := load h entry in
  let* s1 := match ce_lru_prev e with
             | Some p => let* h1 := store h p (with_lru_next (ce_lru_next e)) in Val (h1, c)
             | None => Val (h, with_head (ce_lru_next e) c)
             end in
  let* e1 := load s1.1 entry in
  let* s2 := match ce_lru_next e1 with
             | Some n => let* h2 := store s1.1 n (with_lru_prev (ce_lru_prev e1)) in
                         Val (h2, s1.2)
             | None => Val (s1.1, with_tail (ce_lru_prev e1) s1.2)
             end in
  let* h3 := store s2.1 entry (with_lru_prev None) in
  let* h4 := store h3 entry (with_lru_next None) in
  Val (h4, s2.2).

Definition lru_push_front (s : cache_state) (entry : addr) : c_result cache_state :=
  let (h, c) := s in
  let* h1 := store h entry (with_lru_prev None) in
  let* h2 := store h1 entry (with_lru_next (lru_head c)) in
  match lru_head c with
  | Some hd =>
      let* h3 := store h2 hd (with_lru_prev (Some entry)) in
      Val (h3, with_head (Some entry) c)
  | None => Val (h2, with_head (Some entry) (with_tail (Some entry) c))
  end.

Definition lru_touch (s : cache_state) (entry : addr) : c_result cache_state :=
  if decide (lru_head s.2 = Some entry) then Val s
  else let* s1 := lru_remove s entry in lru_push_front s1 entry.

(** *** The hash chains *)

(** The first entry of a chain that satisfies [p], with the entry before it; a chain has
    fewer links than there are entries, so [fuel] bounds a well-formed one. *)
Fixpoint find_chain (fuel : nat) (h : heap_t) (p : addr → cache_entry → bool)
    (prev curr : option addr) : c_result (option (option addr * addr)) :=
  match curr with
  | None => Val None
  | Some a =>
      match fuel with
      | O => Undef
      | S fuel =>
          let* e := load h a in
          if p a e then Val (Some (prev, a)) else find_chain fuel h p (Some a) (ce_next e)
      end
  end.

Definition search_chain (s : cache_state) (slot : nat) (p : addr → cache_entry → bool)
    : c_result (option (option addr * addr)) :=
  let* first := c_read (hash_table s.2) slot in
  find_chain (S (size s.1)) s.1 p None first.

(** [if (prev) prev->next = curr->next; else *slot = curr->next;] *)
Definition unlink (s : cache_state) (slot : nat) (prev : option addr) (curr : addr)
    : c_result cache_state :=
  let (h, c) := s in
  let* e := load h curr in
  match prev with
  | Some p => let* h1 := store h p (with_next (ce_next e)) in Val (h1, c)
  | None => Val (h, with_table (<[slot := ce_next e]> (hash_table c)) c)
  end.

Definition key_is (key : string) (_ : addr) (e : cache_entry) : bool :=
  strcmp_eq (ce_key e) key.

Definition free_entry (h : heap_t) (a : addr) : c_result heap_t :=
  match h !! a with Some _ => Val (delete a h) | None => Undef end.

Definition evict_lru_entry (s : cache_state) : c_result cache_state :=
  match lru_tail s.2 with
  | None => Val s
  | Some victim =>
      let* s1 := lru_remove s victim in
      let* e := load s1.1 victim in
      let slot := cache_key_hash (ce_key e) (table_size s1.2) in
      let* found := search_chain s1 slot (λ a _, bool_decide (a = victim)) in
      let* s2 := match found with
                 | Some (prev, curr) => unlink s1 slot prev curr
                 | None => Val s1
                 end in
      let* h := free_entry s2.1 victim in
      Val (h, with_stats (hits s2.2) (misses s2.2) (add64 (evictions s2.2) 1)
                (with_count (u32 (count s2.2 - 1)) s2.2))
  end.

(** *** Insertion and removal *)

Section Insert.
Context (malloc : heap_t → addr).

(** A new entry, in front of its chain and of the LRU list. *)
Definition cache_insert (s : cache_state) (slot : nat) (key : string) (v : V) (time : Z)
    : c_result cache_state :=
  let (h, c) := s in
  let* first := c_read (hash_table c) slot in
  let a := malloc h in
  let e := CacheEntry key v time first None None in
  let* s2 := lru_push_front (<[a := e]> h, with_table (<[slot := Some a]> (hash_table c)) c) a in
  Val (s2.1, with_count (u32 (count s2.2 + 1)) s2.2).

(** A new key: the least recently used entry makes room for it. *)
Definition cache_add (s : cache_state) (slot : nat) (key : string) (v : V) (time : Z)
    : c_result cache_state :=
  let* s1 := if max_size s.2 <=? count s.2 then evict_lru_entry s else Val s in
  cache_insert s1 slot key v time.
End Insert.

Definition cache_invalidate (s : cache_state) (key : string) : c_result (Z * cache_state) :=
  let slot := cache_key_hash key (table_size s.2) in
  let* found := search_chain s slot (key_is key) in
  match found with
  | None => Val (-1, s)
  | Some (prev, curr) =>
      let* s1 := unlink s slot prev curr in
      let* s2 := lru_remove s1 curr in
      let* h := free_entry s2.1 curr in
      Val (0, (h, with_count (u32 (count s2.2 - 1)) s2.2))
  end.

(** Freeing a chain, and all chains. *)
Fixpoint free_chain (fuel : nat) (h : heap_t) (entry : option addr) : c_result heap_t :=
  match entry with
  | None => Val h
  | Some a =>
      match fuel with
      | O => Undef
      | S fuel =>
          let* e := load h a in
          let* h1 := free_entry h a in
          free_chain fuel h1 (ce_next e)
      end
  end.

Fixpoint free_table (h : heap_t) (table : list (option addr)) : c_result heap_t :=
  match table with
  | [] => Val h
  | entry :: table =>
      let* h1 := free_chain (S (size h)) h entry in
      free_table h1 table
  end.

(** ** The LRU list in the heap *)

(** What the LRU operations leave alone. *)
Definition core (e : cache_entry) : string * V * Z * option addr :=
  (ce_key e, ce_value e, ce_time e, ce_next e).
Definition same_core (h h' : heap_t) : Prop := ∀ b, core <$> h' !! b = core <$> h !! b.

(** Every entry of the heap has the links that the list [l] gives it. *)
Definition lru_rep (h : heap_t) (l : list addr) : Prop :=
  ∀ a e, h !! a = Some e → ce_lru_prev e = prev_in l a ∧ ce_lru_next e = next_in l a.

Lemma load_Val h a e : h !! a = Some e → load h a = Val e.
Proof. unfold load. by intros ->. Qed.

Lemma store_Val h a f : is_Some (h !! a) → store h a f = Val (alter f a h).
Proof.
  intros [e He]. unfold store. rewrite He. f_equal. apply map_eq. intros b.
  destruct (decide (b = a)) as [->|].
  - by rewrite lookup_insert_eq, lookup_alter_eq, He.
  - by rewrite lookup_insert_ne, lookup_alter_ne.
Qed.

Lemma free_Val h a e : h !! a = Some e → free_entry h a = Val (delete a h).
Proof. unfold free_entry. by intros ->. Qed.

Lemma same_core_refl h : same_core h h.
Proof. by intros b. Qed.

Lemma same_core_trans h1 h2 h3 : same_core h1 h2 → same_core h2 h3 → same_core h1 h3.
Proof. intros H12 H23 b. by rewrite H23. Qed.

Lemma same_core_insert h a e e' : h !! a = Some e → core e' = core e → same_core h (<[a := e']> h).
Proof.
  intros Ha Hc b. destruct (decide (b = a)) as [->|].
  - by rewrite lookup_insert_eq, Ha; simpl; rewrite Hc.
  - by rewrite lookup_insert_ne.
Qed.

Lemma same_core_Some h h' a : same_core h h' → is_Some (h' !! a) ↔ is_Some (h !! a).
Proof. intros Hs. by rewrite <-(fmap_is_Some core), Hs, fmap_is_Some. Qed.

(** The links of the neighbours after a removal, for any entry that stays. *)
Lemma rm_links (l : list addr) a b :
  NoDup l → b ≠ a →
  prev_in (rm a l) b = (if decide (next_in l a = Some b) then prev_in l a else prev_in l b) ∧
  next_in (rm a l) b = (if decide (prev_in l a = Some b) then next_in l a else next_in l b).
Proof.
  intros Hnd Hne. rewrite prev_in_rm, next_in_rm by done. split.
  - destruct (decide (next_in l a = Some b)) as [E|E].
    + by rewrite decide_True by (by apply next_in_prev_in).
    + rewrite decide_False; [done|]. intros E'. by apply E, prev_in_next_in.
  - destruct (decide (prev_in l a = Some b)) as [E|E].
    + by rewrite decide_True by (by apply prev_in_next_in).
    + rewrite decide_False; [done|]. intros E'. by apply E, next_in_prev_in.
Qed.

(** The neighbours of a member are other members. *)
Lemma next_in_other (l : list addr) a n : NoDup l → next_in l a = Some n → n ≠ a ∧ n ∈ l.
Proof.
  intros Hnd E. destruct (next_in_Some_elem _ _ _ E) as [Ha Hn]. split; [|done]. intros ->.
  apply list_elem_of_split in Ha as (l1 & l2 & ->).
  apply NoDup_app in Hnd as (_ & Hd & Hnd). apply NoDup_cons in Hnd as [Hnd _].
  rewrite next_in_split in E; [|intros H; apply (Hd _ H); set_solver].
  destruct l2; simplify_eq/=. set_solver.
Qed.

Lemma prev_in_other (l : list addr) a p : NoDup l → prev_in l a = Some p → p ≠ a ∧ p ∈ l.
Proof.
  intros Hnd E. apply next_in_other in E as [??]; [|by apply NoDup_reverse].
  by rewrite elem_of_reverse in H0.
Qed.

(** The heap after the four writes of a removal. *)
Definition bypass_prev (l : list addr) (a : addr) (h : heap_t) : heap_t :=
  match prev_in l a with Some p => alter (with_lru_next (next_in l a)) p h | None => h end.
Definition bypass_next (l : list addr) (a : addr) (h : heap_t) : heap_t :=
  match next_in l a with Some n => alter (with_lru_prev (prev_in l a)) n h | None => h end.
Definition clear_links (e : cache_entry) : cache_entry :=
  with_lru_next None (with_lru_prev None e).
Definition lru_removed (l : list addr) (a : addr) (h : heap_t) : heap_t :=
  alter clear_links a (bypass_next l a (bypass_prev l a h)).

Section Remove.
Context (h : heap_t) (l : list addr) (a : addr) (e : cache_entry).
Context (Hnd : NoDup l) (Hrep : lru_rep h l) (Hin : ∀ b, b ∈ l → is_Some (h !! b)).
Context (Ha : h !! a = Some e) (Hal : a ∈ l).

Lemma lru_removed_core : same_core h (lru_removed l a h).
Proof using Type.
  clear. intros b. unfold lru_removed, bypass_next, bypass_prev.
  destruct (next_in l a) as [n|], (prev_in l a) as [p|];
    rewrite ?lookup_alter; repeat case_decide; subst; rewrite <-?option_fmap_compose; done.
Qed.

Lemma lru_removed_rep : lru_rep (lru_removed l a h) (rm a l).
Proof using Hnd Hrep.
  clear Ha. intros b e' Hb. unfold lru_removed in Hb. destruct (decide (b = a)) as [->|Hne].
  - rewrite lookup_alter_eq in Hb. apply fmap_Some in Hb as (e0 & _ & ->). simpl.
    split; symmetry; [apply prev_in_notin|apply next_in_notin]; rewrite elem_of_rm; tauto.
  - rewrite lookup_alter_ne in Hb by done.
    destruct (rm_links l a b Hnd Hne) as [-> ->]. unfold bypass_next, bypass_prev in Hb.
    destruct (next_in l a) as [n|] eqn:En, (prev_in l a) as [p|] eqn:Ep;
      rewrite ?lookup_alter in Hb; repeat case_decide; simplify_eq;
      repeat match goal with
      | H : _ <$> _ = Some _ |- _ => apply fmap_Some in H as (? & ? & ->)
      | H : h !! _ = Some _ |- _ => apply Hrep in H as [??]
      end; simpl; split; congruence.
Qed.

Lemma bypass_prev_lookup : bypass_prev l a h !! a = Some e.
Proof using Hnd Ha.
  unfold bypass_prev. destruct (prev_in l a) as [p|] eqn:Ep; [|done].
  rewrite lookup_alter_ne; [done|]. by destruct (prev_in_other _ _ _ Hnd Ep).
Qed.

Lemma bypass_next_lookup : bypass_next l a (bypass_prev l a h) !! a = Some e.
Proof using Hnd Ha.
  unfold bypass_next. destruct (next_in l a) as [n|] eqn:En; [|apply bypass_prev_lookup].
  rewrite lookup_alter_ne; [apply bypass_prev_lookup|]. by destruct (next_in_other _ _ _ Hnd En).
Qed.

(** The two branches of [lru_remove], on the predecessor's side and the successor's. *)
Lemma lru_remove_prev c :
  lru_head c = head l →
  match prev_in l a with
  | Some p => let* h1 := store h p (with_lru_next (next_in l a)) in Val (h1, c)
  | None => Val (h, with_head (next_in l a) c)
  end = Val (bypass_prev l a h, with_head (head (rm a l)) c).
Proof using Hnd Hin Hal.
  intros Hh. rewrite head_rm by done. unfold bypass_prev. destruct (prev_in l a) as [p|] eqn:Ep.
  - destruct (prev_in_other _ _ _ Hnd Ep). rewrite store_Val by auto. simpl.
    rewrite decide_False; [rewrite <-Hh; by destruct c|].
    intros Hhd. by rewrite (head_prev_None _ _ Hnd Hhd) in Ep.
  - rewrite decide_True; [done|]. by apply prev_in_None_head.
Qed.

Lemma lru_remove_next c :
  lru_tail c = last l →
  match next_in l a with
  | Some n => let* h2 := store (bypass_prev l a h) n (with_lru_prev (prev_in l a)) in Val (h2, c)
  | None => Val (bypass_prev l a h, with_tail (prev_in l a) c)
  end = Val (bypass_next l a (bypass_prev l a h), with_tail (last (rm a l)) c).
Proof using Hnd Hin Hal.
  intros Ht. rewrite last_rm by done. unfold bypass_next. destruct (next_in l a) as [n|] eqn:En.
  - destruct (next_in_other _ _ _ Hnd En). rewrite store_Val.
    + simpl. rewrite decide_False; [|intros Hl; by rewrite (last_next_None _ _ Hnd Hl) in En].
      rewrite <-Ht. by destruct c.
    + unfold bypass_prev. destruct (prev_in l a); [|by auto].
      rewrite lookup_alter. case_decide; subst; rewrite ?fmap_is_Some; auto.
  - rewrite decide_True; [done|]. by apply next_in_None_last.
Qed.

Lemma lru_remove_Val c :
  lru_head c = head l → lru_tail c = last l →
  lru_remove (h, c) a =
    Val (lru_removed l a h, with_tail (last (rm a l)) (with_head (head (rm a l)) c)).
Proof using Hnd Hrep Hin Ha Hal.
  intros Hh Ht. unfold lru_remove. rewrite (load_Val _ _ _ Ha). cbn [c_bind].
  destruct (Hrep a e Ha) as [Hp Hn]. rewrite Hp, Hn, lru_remove_prev by done. cbn [c_bind fst snd].
  rewrite (load_Val _ _ _ bypass_prev_lookup). cbn [c_bind].
  rewrite Hp, Hn, lru_remove_next by done. cbn [c_bind fst snd].
  rewrite store_Val by (rewrite bypass_next_lookup; eauto). cbn [c_bind].
  rewrite store_Val by (rewrite lookup_alter_eq, bypass_next_lookup; eauto). cbn [c_bind].
  unfold lru_removed. do 2 f_equal. apply map_eq. intros b.
  destruct (decide (b = a)) as [->|].
  - rewrite !lookup_alter_eq. by rewrite bypass_next_lookup.
  - by rewrite !lookup_alter_ne.
Qed.
End Remove.

(** Adding in front an entry that is not on the list. *)
Lemma lru_push_front_rep h l c a :
  NoDup l → lru_rep h l → (∀ b, b ∈ l → is_Some (h !! b)) → is_Some (h !! a) → a ∉ l →
  lru_head c = head l → lru_tail c = last l →
  ∃ h', same_core h h' ∧ lru_rep h' (a :: l) ∧
    lru_push_front (h, c) a = Val (h', with_tail (last (a :: l)) (with_head (Some a) c)).
Proof.
  intros Hnd Hrep Hin [e Ha] Hal Hh Ht.
  set (h2 := alter (with_lru_next (head l)) a (alter (with_lru_prev None) a h)).
  exists (match head l with Some x => alter (with_lru_prev (Some a)) x h2 | None => h2 end).
  split_and!.
  - intros b. unfold h2. destruct (head l); rewrite ?lookup_alter; repeat case_decide; subst;
      rewrite <-?option_fmap_compose; done.
  - intros b e' Hb. rewrite prev_in_cons by done. unfold h2 in Hb.
    destruct (decide (b = a)) as [->|Hne].
    + rewrite (prev_in_notin l) by done. simpl. rewrite (decide_True (P := a = a)) by done.
      destruct l as [|x l]; simpl in *.
      * rewrite !lookup_alter_eq, Ha in Hb. by simplify_eq/=.
      * rewrite lookup_alter_ne, !lookup_alter_eq, Ha in Hb by set_solver.
        simplify_eq/=. rewrite decide_False by set_solver. done.
    + rewrite next_in_cons_ne by done.
      destruct (head l) as [x|] eqn:El; rewrite ?lookup_alter in Hb; repeat case_decide; simplify_eq;
        repeat match goal with
        | H : _ <$> _ = Some _ |- _ => apply fmap_Some in H as (? & ? & ->)
        | H : h !! _ = Some _ |- _ => apply Hrep in H as [??]
        end; simpl; split; congruence.
  - unfold lru_push_front. rewrite store_Val by eauto. cbn [c_bind].
    rewrite store_Val by (rewrite lookup_alter_eq, Ha; eauto). cbn [c_bind]. rewrite Hh.
    destruct l as [|x l]; simpl in *.
    + by destruct c.
    + rewrite store_Val; [rewrite <-Ht; by destruct c|].
      unfold h2. rewrite !lookup_alter_ne by set_solver. apply Hin. set_solver.
Qed.
End HashLru.

Arguments cache_entry : clear implicits.
