(* ===== verification/HashLruRep.v ===== *)
(** * The hash table with an LRU list represents a list of bindings

    The hash chains and LRU links of HashLru.v, threaded through one heap, represent a list of
    (key, value, time) triples, most recently used first. Searching, moving to the front,
    insertion, eviction and removal keep the representation, follow no dangling link, and do
    to the list what the specification says. *)

From S2P Require Import Prelude CInt CString XXHash LinkedList HashLru.

Local Open Scope c_scope.

Section Rep.
Context {V : Type}.
Abbreviation cache_entry := (cache_entry V).
Abbreviation heap_t := (gmap addr cache_entry).

(** ** The hash chains in the heap *)

Definition slot_of (n : nat) (e : cache_entry) : nat := cache_key_hash (ce_key e) n.

(** The chains [chs], one per slot, hold every entry of the heap but [d], the entry that
    an operation has taken off its chain and not freed yet. *)
Record chain_rep (d : option addr) (h : heap_t) (tab : list (option addr))
    (chs : list (list addr)) : Prop := ChainRep {
  cr_table : tab = head <$> chs;
  cr_entry a e : h !! a = Some e → Some a ≠ d →
    ∃ ch, chs !! slot_of (length chs) e = Some ch ∧ a ∈ ch ∧ ce_next e = next_in ch a;
  cr_member i ch a : chs !! i = Some ch → a ∈ ch →
    Some a ≠ d ∧ ∃ e, h !! a = Some e ∧ slot_of (length chs) e = i;
  cr_nodup i ch : chs !! i = Some ch → NoDup ch
}.

Lemma cr_table_len d h tab chs : chain_rep d h tab chs → length tab = length chs.
Proof. intros []. subst. by rewrite length_fmap. Qed.

Lemma cr_next d h tab chs i ch a e :
  chain_rep d h tab chs → chs !! i = Some ch → a ∈ ch → h !! a = Some e →
  ce_next e = next_in ch a ∧ slot_of (length chs) e = i.
Proof.
  intros Hr Hi Ha He. destruct (cr_member _ _ _ _ Hr _ _ _ Hi Ha) as (Hd & e' & He' & Hs).
  simplify_eq. destruct (cr_entry _ _ _ _ Hr _ _ He Hd) as (ch' & Hch & _ & Hn). by simplify_eq.
Qed.

Lemma chain_rep_core d h h' tab chs :
  same_core h h' → chain_rep d h tab chs → chain_rep d h' tab chs.
Proof.
  intros Hs Hr.
  assert (∀ b e', h' !! b = Some e' → ∃ e, h !! b = Some e ∧ core e' = core e) as Hb.
  { intros b e' E. specialize (Hs b). rewrite E in Hs. symmetry in Hs.
    apply fmap_Some in Hs as (e & ? & ?). eauto. }
  split; [apply Hr| | |apply Hr].
  - intros b e' E Hd. destruct (Hb _ _ E) as (e & He & Hc). unfold core in Hc.
    destruct (cr_entry _ _ _ _ Hr _ _ He Hd) as (ch & ? & ? & ?). exists ch.
    unfold slot_of in *. simplify_eq. split_and!; congruence.
  - intros i ch b Hi Hbm. destruct (cr_member _ _ _ _ Hr _ _ _ Hi Hbm) as (? & e & He & <-).
    split; [done|]. destruct (h' !! b) as [e'|] eqn:E.
    + destruct (Hb _ _ E) as (e0 & ? & Hc). unfold core in Hc. exists e'. simplify_eq.
      unfold slot_of. split; congruence.
    + specialize (Hs b). by rewrite E, He in Hs.
Qed.

(** *** Searching a chain *)

Lemma chain_length_le (h : heap_t) (l : list addr) :
  NoDup l → (∀ a, a ∈ l → is_Some (h !! a)) → (length l ≤ size h)%nat.
Proof.
  intros Hnd Hin. rewrite <-(size_list_to_set (C := gset addr) l) by done.
  rewrite <-size_dom. apply subseteq_size. intros a Ha.
  apply elem_of_list_to_set in Ha. apply elem_of_dom. auto.
Qed.

Definition search_spec (h : heap_t) (p : addr → cache_entry → bool) (ch : list addr)
    (r : option (option addr * addr)) : Prop :=
  match r with
  | None => ∀ a e, a ∈ ch → h !! a = Some e → p a e = false
  | Some (q, a) => q = prev_in ch a ∧ a ∈ ch ∧ ∃ e, h !! a = Some e ∧ p a e = true
  end.

Lemma last_prev_in (l1 l2 : list addr) a : a ∉ l2 → prev_in (l1 ++ a :: l2) a = last l1.
Proof.
  intros. unfold prev_in. rewrite reverse_app, reverse_cons, <-app_assoc. simpl.
  rewrite next_in_split; [apply head_reverse|]. by rewrite elem_of_reverse.
Qed.

Lemma find_chain_spec fuel h p l1 l2 :
  NoDup (l1 ++ l2) → (length l2 < fuel)%nat →
  (∀ a, a ∈ l2 → ∃ e, h !! a = Some e ∧ ce_next e = next_in (l1 ++ l2) a) →
  (∀ a e, a ∈ l1 → h !! a = Some e → p a e = false) →
  ∃ r, find_chain fuel h p (last l1) (head l2) = Val r ∧ search_spec h p (l1 ++ l2) r.
Proof.
  revert l1 fuel. induction l2 as [|a l2 IH]; intros l1 fuel Hnd Hf Hnext Hl1.
  - exists None. rewrite app_nil_r. by destruct fuel.
  - destruct fuel as [|fuel]; simpl in *; [lia|].
    destruct (Hnext a) as (e & He & Hn); [set_solver|]. rewrite (load_Val _ _ _ He). simpl.
    pose proof Hnd as (_ & Hdis & Hnd2)%NoDup_app. apply NoDup_cons in Hnd2 as [Ha2 _].
    assert (a ∉ l1) as Ha1 by set_solver. destruct (p a e) eqn:Ep.
    + eexists. split; [done|]. split; [|split; [set_solver|eauto]].
      by rewrite last_prev_in.
    + rewrite next_in_split in Hn by done. rewrite Hn.
      destruct (IH (l1 ++ [a]) fuel) as (r & Hr & Hs).
      * by rewrite <-app_assoc.
      * lia.
      * intros b Hb. destruct (Hnext b) as (e' & ? & ?); [set_solver|].
        exists e'. by rewrite <-app_assoc.
      * intros b e' [Hb| ->%list_elem_of_singleton]%elem_of_app Hbe; [eauto|congruence].
      * rewrite last_snoc in Hr. rewrite <-app_assoc in Hs. eauto.
Qed.

Lemma search_chain_spec d h c chs slot ch p :
  chain_rep d h (hash_table c) chs → chs !! slot = Some ch →
  ∃ r, search_chain (h, c) slot p = Val r ∧ search_spec h p ch r.
Proof.
  intros Hr Hs. unfold search_chain. simpl.
  assert (c_read (hash_table c) slot = Val (head ch)) as ->.
  { unfold c_read. rewrite (cr_table _ _ _ _ Hr), list_lookup_fmap, Hs. done. }
  cbn [c_bind]. assert (NoDup ch) as Hnd by (by eapply cr_nodup).
  apply (find_chain_spec (S (size h)) h p [] ch); [done| | |].
  - apply Nat.lt_succ_r, chain_length_le; [done|]. intros a Ha.
    destruct (cr_member _ _ _ _ Hr _ _ _ Hs Ha) as (_ & e & He & _). eauto.
  - intros a Ha. destruct (cr_member _ _ _ _ Hr _ _ _ Hs Ha) as (_ & e & He & _).
    exists e. split; [done|]. by destruct (cr_next _ _ _ _ _ _ _ _ Hr Hs Ha He).
  - intros a e []%elem_of_nil.
Qed.

(** *** Taking an entry off its chain *)

Definition content (e : cache_entry) : string * V * Z :=
  (ce_key e, ce_value e, ce_time e).
Definition same_content (h h' : heap_t) : Prop := ∀ b, content <$> h' !! b = content <$> h !! b.

(** What the chain operations leave alone. *)
Definition links (e : cache_entry) : string * V * Z * option addr * option addr :=
  (content e, ce_lru_prev e, ce_lru_next e).
Definition same_links (h h' : heap_t) : Prop := ∀ b, links <$> h' !! b = links <$> h !! b.

Lemma same_core_content h h' : same_core h h' → same_content h h'.
Proof.
  intros Hs b. change content with (fst ∘ @core V). by rewrite !option_fmap_compose, Hs.
Qed.

Lemma same_links_content h h' : same_links h h' → same_content h h'.
Proof.
  intros Hs b. change content with (fst ∘ (fst ∘ links)).
  by rewrite !option_fmap_compose, Hs.
Qed.

Lemma same_content_Some h h' a : same_content h h' → is_Some (h' !! a) ↔ is_Some (h !! a).
Proof. intros Hs. by rewrite <-(fmap_is_Some content), Hs, fmap_is_Some. Qed.

Lemma same_content_lookup h h' a e :
  same_content h h' → h !! a = Some e → ∃ e', h' !! a = Some e' ∧ content e' = content e.
Proof.
  intros Hs He. specialize (Hs a). rewrite He in Hs.
  apply fmap_Some in Hs as (e' & ? & ?). eauto.
Qed.

Lemma same_content_trans h1 h2 h3 :
  same_content h1 h2 → same_content h2 h3 → same_content h1 h3.
Proof. intros H12 H23 b. by rewrite H23. Qed.

Lemma same_links_rep h h' l : same_links h h' → lru_rep h l → lru_rep h' l.
Proof.
  intros Hs Hr b e' Hb. specialize (Hs b). rewrite Hb in Hs. symmetry in Hs.
  apply fmap_Some in Hs as (e & He & Hl). unfold links in Hl. destruct (Hr _ _ He). simplify_eq.
  split; congruence.
Qed.

Definition unlinked (ch : list addr) (a : addr) (h : heap_t) : heap_t :=
  match prev_in ch a with Some p => alter (with_next (next_in ch a)) p h | None => h end.

Lemma unlinked_links ch a h : same_links h (unlinked ch a h).
Proof.
  intros b. unfold unlinked. destruct (prev_in ch a); [|done]. rewrite lookup_alter.
  case_decide; [|done]. subst. by rewrite <-option_fmap_compose.
Qed.

Section Unlink.
Context (h : heap_t) (c : hash_lru) (chs : list (list addr)) (i : nat) (ch : list addr).
Context (a : addr) (e : cache_entry).
Context (Hr : chain_rep None h (hash_table c) chs) (Hi : chs !! i = Some ch) (Ha : a ∈ ch).
Context (He : h !! a = Some e).

Lemma unlink_Val :
  unlink (h, c) i (prev_in ch a) a =
    Val (unlinked ch a h, with_table (head <$> <[i := rm a ch]> chs) c).
Proof using Hr Hi Ha He.
  pose proof (cr_nodup _ _ _ _ Hr _ _ Hi) as Hnd.
  destruct (cr_next _ _ _ _ _ _ _ _ Hr Hi Ha He) as [Hn _].
  unfold unlink, unlinked. rewrite (load_Val _ _ _ He). cbn [c_bind]. rewrite Hn.
  rewrite list_fmap_insert, head_rm by done. pose proof (cr_table _ _ _ _ Hr) as Ht.
  destruct (prev_in ch a) as [p|] eqn:Ep.
  - destruct (prev_in_other _ _ _ Hnd Ep) as [_ Hp].
    destruct (cr_member _ _ _ _ Hr _ _ _ Hi Hp) as (_ & e' & He' & _).
    rewrite store_Val by eauto. cbn [c_bind]. rewrite decide_False.
    + rewrite list_insert_id, <-Ht; [by destruct c|]. by rewrite list_lookup_fmap, Hi.
    + intros Hhd. by rewrite (head_prev_None _ _ Hnd Hhd) in Ep.
  - rewrite decide_True by (by apply prev_in_None_head). by rewrite Ht.
Qed.

Lemma unlinked_lookup b e' :
  b ≠ a → unlinked ch a h !! b = Some e' →
  ∃ e0, h !! b = Some e0 ∧ content e' = content e0 ∧
    ce_next e' = (if decide (prev_in ch a = Some b) then next_in ch a else ce_next e0).
Proof using Type.
  unfold unlinked. intros Hne. destruct (prev_in ch a) as [p|]; [|intros; eauto].
  rewrite lookup_alter. case_decide as Hp; [|].
  - intros (e0 & He0 & ->)%fmap_Some. subst. exists e0. by rewrite decide_True.
  - intros He0. exists e'. by rewrite decide_False by congruence.
Qed.

Lemma unlinked_rep :
  chain_rep (Some a) (unlinked ch a h) (head <$> <[i := rm a ch]> chs) (<[i := rm a ch]> chs).
Proof using Hr Hi Ha He.
  pose proof (cr_nodup _ _ _ _ Hr _ _ Hi) as Hnd.
  assert (i < length chs)%nat as Hlt by (by eapply lookup_lt_Some).
  split; [done| | |]; rewrite ?length_insert.
  - intros b e' Hb Hd. assert (b ≠ a) as Hne by congruence.
    destruct (unlinked_lookup b e' Hne Hb) as (e0 & He0 & [= Hk _ _] & Hn').
    assert (slot_of (length chs) e' = slot_of (length chs) e0) as -> by (unfold slot_of; congruence).
    destruct (cr_entry _ _ _ _ Hr _ _ He0 ltac:(done)) as (ch' & Hch' & Hb' & Hn0).
    destruct (decide (slot_of (length chs) e0 = i)) as [E|E].
    + rewrite E in *. simplify_eq. exists (rm a ch). rewrite list_lookup_insert_eq by done.
      split_and!; [done|by apply elem_of_rm|]. rewrite Hn', Hn0. by destruct (rm_links ch a b Hnd Hne).
    + exists ch'. rewrite list_lookup_insert_ne by done. split_and!; [done..|].
      rewrite Hn', decide_False; [done|]. intros Hp.
      destruct (prev_in_other _ _ _ Hnd Hp) as [_ Hbc].
      by destruct (cr_next _ _ _ _ _ _ _ _ Hr Hi Hbc He0).
  - intros j ch' b Hj Hb.
    assert (b ≠ a ∧ ∃ ch0, chs !! j = Some ch0 ∧ b ∈ ch0) as (Hne & ch0 & Hj0 & Hb0).
    { apply list_lookup_insert_Some in Hj as [(<- & <- & _)|(Hij & Hj)].
      - apply elem_of_rm in Hb as []. eauto.
      - split; [|eauto]. intros ->. destruct (cr_member _ _ _ _ Hr _ _ _ Hj Hb) as (_ & e1 & ? & ?).
        simplify_eq. by destruct (cr_next _ _ _ _ _ _ _ _ Hr Hi Ha He). }
    destruct (cr_member _ _ _ _ Hr _ _ _ Hj0 Hb0) as (_ & e0 & He0 & Hs).
    split; [congruence|].
    destruct (same_content_lookup _ _ _ _ (same_links_content _ _ (unlinked_links ch a h)) He0)
      as (e' & ? & [= Hk _ _]). exists e'. split; [done|]. unfold slot_of in *. congruence.
  - intros j ch' [(<- & <- & _)|(_ & Hj)]%list_lookup_insert_Some.
    + by apply NoDup_rm.
    + by eapply cr_nodup.
Qed.
End Unlink.

(** Freeing the detached entry. *)
Lemma chain_rep_free a h tab chs :
  chain_rep (Some a) h tab chs → chain_rep None (delete a h) tab chs.
Proof.
  intros Hr. split; [apply Hr| | |apply Hr].
  - intros b e [Hne Hb]%lookup_delete_Some _. apply (cr_entry _ _ _ _ Hr b e Hb). congruence.
  - intros i ch b Hi Hb. destruct (cr_member _ _ _ _ Hr _ _ _ Hi Hb) as (Hd & e & He & Hs).
    split; [done|]. exists e. rewrite lookup_delete_ne by congruence. done.
Qed.

(** Adding a new entry in front of its chain. *)
Lemma chain_rep_insert a e h tab chs ch :
  h !! a = None → chs !! slot_of (length chs) e = Some ch → ce_next e = head ch →
  chain_rep None h tab chs →
  chain_rep None (<[a := e]> h) (<[slot_of (length chs) e := Some a]> tab)
    (<[slot_of (length chs) e := a :: ch]> chs).
Proof.
  intros Ha Hi Hn Hr. set (i := slot_of (length chs) e) in *.
  assert (i < length chs)%nat as Hlt by (by eapply lookup_lt_Some).
  assert (∀ j ch b, chs !! j = Some ch → b ∈ ch → b ≠ a) as Hfresh.
  { intros j ch' b Hj Hb ->. destruct (cr_member _ _ _ _ Hr _ _ _ Hj Hb) as (_ & ? & ? & _). congruence. }
  split; rewrite ?length_insert.
  - by rewrite list_fmap_insert, <-(cr_table _ _ _ _ Hr).
  - intros b e' [(<- & <-)|(Hne & Hb)]%lookup_insert_Some _.
    + exists (a :: ch). fold i. rewrite list_lookup_insert_eq by done.
      split_and!; [done|set_solver|]. simpl. by rewrite decide_True.
    + destruct (cr_entry _ _ _ _ Hr _ _ Hb ltac:(done)) as (ch' & Hch' & Hb' & Hn').
      destruct (decide (slot_of (length chs) e' = i)) as [E|E].
      * rewrite E in *. simplify_eq. exists (a :: ch). rewrite list_lookup_insert_eq by done.
        split_and!; [done|set_solver|]. by rewrite next_in_cons_ne.
      * exists ch'. by rewrite list_lookup_insert_ne.
  - intros j ch' b Hj Hb. split; [done|].
    destruct (decide (b = a)) as [->|Hne].
    + exists e. rewrite lookup_insert_eq. split; [done|].
      apply list_lookup_insert_Some in Hj as [(<- & <- & _)|(_ & Hj)]; [done|].
      by destruct (Hfresh _ _ _ Hj Hb).
    + rewrite lookup_insert_ne by done.
      apply list_lookup_insert_Some in Hj as [(<- & <- & _)|(_ & Hj)].
      * apply elem_of_cons in Hb as [|Hb]; [done|].
        by destruct (cr_member _ _ _ _ Hr _ _ _ Hi Hb) as (_ & ?).
      * by destruct (cr_member _ _ _ _ Hr _ _ _ Hj Hb) as (_ & ?).
  - intros j ch' [(<- & <- & _)|(_ & Hj)]%list_lookup_insert_Some; [|by eapply cr_nodup].
    apply NoDup_cons. split; [|by eapply cr_nodup]. intros Hac. by apply (Hfresh _ _ _ Hi Hac).
Qed.

(** ** The specification: a list of bindings, most recently used first *)

Abbreviation binding := (string * V * Z)%type.

Fixpoint assoc (k : string) (L : list binding) : option (V * Z) :=
  match L with
  | [] => None
  | (k', m, t) :: L => if decide (k' = k) then Some (m, t) else assoc k L
  end.

Definition others (k : string) (L : list binding) : list binding := filter (λ x, x.1.1 ≠ k) L.

Record lru := Lru {
  bindings : list binding;
  n_hits : Z;
  n_misses : Z;
  n_evictions : Z
}.

(** A new key pushes out the least recently used binding of a full cache. *)
Definition lru_put (max : Z) (k : string) (v : V) (now : Z) (S : lru) : lru :=
  let L := bindings S in
  let x := (k, v, now) in
  match assoc k L with
  | Some _ => Lru (x :: others k L) (n_hits S) (n_misses S) (n_evictions S)
  | None =>
      if max <=? Z.of_nat (length L)
      then Lru (x :: take (pred (length L)) L) (n_hits S) (n_misses S) (n_evictions S + 1)
      else Lru (x :: L) (n_hits S) (n_misses S) (n_evictions S)
  end.

Definition lru_invalidate (k : string) (S : lru) : Z * lru :=
  match assoc k (bindings S) with
  | Some _ => (0, Lru (others k (bindings S)) (n_hits S) (n_misses S) (n_evictions S))
  | None => (-1, S)
  end.

(** ** The bindings that a heap and an LRU list represent *)

Definition abs (h : heap_t) (l : list addr) : list binding := omap (λ a, content <$> h !! a) l.

Definition unique_keys (h : heap_t) : Prop :=
  ∀ a b e e', h !! a = Some e → h !! b = Some e' → ce_key e = ce_key e' → a = b.

Lemma unique_keys_content h h' : same_content h h' → unique_keys h → unique_keys h'.
Proof.
  intros Hs Hu a b e e' Ha Hb Hk. pose proof (Hs a) as Hsa. pose proof (Hs b) as Hsb.
  rewrite Ha in Hsa. rewrite Hb in Hsb. symmetry in Hsa, Hsb.
  apply fmap_Some in Hsa as (e1 & He1 & [= ? ? ?]).
  apply fmap_Some in Hsb as (e2 & He2 & [= ? ? ?]).
  apply (Hu _ _ _ _ He1 He2). congruence.
Qed.

Lemma abs_cons_opt h a l :
  abs h (a :: l) = match h !! a with Some e => content e :: abs h l | None => abs h l end.
Proof. unfold abs. simpl. by destruct (h !! a). Qed.

Lemma abs_ext h h' l :
  (∀ a, a ∈ l → content <$> h' !! a = content <$> h !! a) → abs h' l = abs h l.
Proof.
  induction l as [|a l IH]; intros Hs; [done|]. rewrite !abs_cons_opt, IH by set_solver.
  specialize (Hs a ltac:(set_solver)). destruct (h !! a), (h' !! a); [|done..].
  apply (inj Some) in Hs. by rewrite Hs.
Qed.

Lemma abs_cons h a e l : h !! a = Some e → abs h (a :: l) = content e :: abs h l.
Proof. intros He. by rewrite abs_cons_opt, He. Qed.

Lemma abs_length h l : (∀ a, a ∈ l → is_Some (h !! a)) → length (abs h l) = length l.
Proof.
  induction l as [|a l IH]; intros Hin; [done|]. destruct (Hin a) as [e He]; [set_solver|].
  rewrite (abs_cons _ _ _ _ He). simpl. rewrite IH by set_solver. done.
Qed.

Lemma abs_rm h a e l :
  unique_keys h → h !! a = Some e → abs h (rm a l) = others (ce_key e) (abs h l).
Proof.
  intros Hu He. induction l as [|x l IH]; [done|]. destruct (decide (x = a)) as [->|Hne].
  - rewrite rm_cons_eq, (abs_cons _ _ _ _ He), IH. unfold others.
    rewrite filter_cons_False; [done|]. simpl. tauto.
  - rewrite rm_cons_ne, !abs_cons_opt by done.
    destruct (h !! x) as [e'|] eqn:Hx; simpl; [|done]. rewrite IH. unfold others.
    rewrite filter_cons_True; [done|]. simpl. intros Hk. by destruct Hne; eapply Hu.
Qed.

Lemma abs_rm_last h l a :
  NoDup l → (∀ b, b ∈ l → is_Some (h !! b)) → last l = Some a →
  abs h (rm a l) = take (pred (length l)) (abs h l).
Proof.
  intros Hnd Hin Hl. apply last_Some in Hl as [l' ->].
  apply NoDup_app in Hnd as (_ & Hd & _). unfold rm, abs.
  rewrite filter_app, filter_cons_False, app_nil_r by tauto.
  rewrite list_filter_all by (intros x Hx ->; apply (Hd _ Hx); set_solver).
  rewrite omap_app, length_app. simpl. rewrite Nat.add_1_r. simpl.
  rewrite take_app_length'; [done|]. symmetry. apply (abs_length h l'). set_solver.
Qed.

Lemma assoc_abs h l a e :
  unique_keys h → a ∈ l → h !! a = Some e →
  assoc (ce_key e) (abs h l) = Some (ce_value e, ce_time e).
Proof.
  intros Hu Ha He. induction l as [|x l IH]; [by apply elem_of_nil in Ha|].
  rewrite abs_cons_opt. destruct (h !! x) as [e'|] eqn:Hx; simpl.
  - case_decide as Hk; [|apply IH; set_solver].
    assert (x = a) as -> by (by eapply Hu). by simplify_eq.
  - apply IH. set_solver.
Qed.

Lemma assoc_abs_None h l k :
  (∀ a e, h !! a = Some e → ce_key e ≠ k) → assoc k (abs h l) = None.
Proof.
  intros Hk. induction l as [|x l IH]; [done|]. rewrite abs_cons_opt.
  destruct (h !! x) as [e|] eqn:Hx; simpl; [|done]. by rewrite decide_False by eauto.
Qed.

(** ** The representation invariant *)

Record cache_rep (h : heap_t) (c : hash_lru) (l : list addr) (chs : list (list addr))
    : Prop := CacheRep {
  rep_nodup : NoDup l;
  rep_dom a : is_Some (h !! a) ↔ a ∈ l;
  rep_lru : lru_rep h l;
  rep_head : lru_head c = head l;
  rep_tail : lru_tail c = last l;
  rep_chains : chain_rep None h (hash_table c) chs;
  rep_keys : unique_keys h;
  rep_count : count c = Z.of_nat (length l);
  rep_max : Z.of_nat (length l) ≤ max_size c;
  rep_table : (0 < length chs)%nat;
  rep_width : 0 < max_size c < 2 ^ 32
}.

Lemma rep_in h c l chs b : cache_rep h c l chs → b ∈ l → is_Some (h !! b).
Proof. intros Hr. apply (rep_dom _ _ _ _ Hr). Qed.

Lemma slot_in_table h c l chs k :
  cache_rep h c l chs →
  table_size c = length chs ∧ ∃ ch, chs !! cache_key_hash k (length chs) = Some ch.
Proof.
  intros Hr. split; [apply (cr_table_len _ _ _ _ (rep_chains _ _ _ _ Hr))|].
  apply lookup_lt_is_Some. unfold cache_key_hash.
  pose proof (rep_table _ _ _ _ Hr). pose proof (rep_width _ _ _ _ Hr).
  pose proof (Z.mod_pos_bound (buckets_xxhash64 0 (Some (str_bytes k))) (Z.of_nat (length chs))). lia.
Qed.

(** The search for a key, in the heap and in the specification. *)
Lemma search_key_spec h c l chs k :
  cache_rep h c l chs →
  (search_chain (h, c) (cache_key_hash k (table_size c)) (key_is k) = Val None ∧
     (∀ a e, h !! a = Some e → ce_key e ≠ k) ∧ assoc k (abs h l) = None) ∨
  (∃ a e ch, search_chain (h, c) (cache_key_hash k (table_size c)) (key_is k)
               = Val (Some (prev_in ch a, a)) ∧
     chs !! slot_of (length chs) e = Some ch ∧ a ∈ ch ∧ a ∈ l ∧ h !! a = Some e ∧
     ce_key e = k ∧ assoc k (abs h l) = Some (ce_value e, ce_time e)).
Proof.
  intros Hr. destruct (slot_in_table _ _ _ _ k Hr) as [-> [ch Hch]].
  pose proof (rep_chains _ _ _ _ Hr) as Hc.
  destruct (search_chain_spec _ _ _ _ _ _ (key_is k) Hc Hch) as ([[q a]|] & Hs & Hspec).
  - right. destruct Hspec as (-> & Ha & e & He & Hk). apply bool_decide_eq_true in Hk.
    exists a, e, ch. assert (a ∈ l) by (apply (rep_dom _ _ _ _ Hr); eauto).
    split_and!; try done; unfold slot_of; subst; try done.
    apply (assoc_abs h l a e); [exact (rep_keys _ _ _ _ Hr)|done|done].
  - left. assert (∀ a e, h !! a = Some e → ce_key e ≠ k) as Hno.
    { intros a e He Hk. destruct (cr_entry _ _ _ _ Hc _ _ He ltac:(done)) as (ch' & Hch' & Ha & _).
      unfold slot_of in Hch'. rewrite Hk in Hch'. simplify_eq.
      specialize (Hspec a e Ha He). by apply bool_decide_eq_false in Hspec. }
    split_and!; [done|done|]. by apply assoc_abs_None.
Qed.

Lemma assoc_take k n L : assoc k L = None → assoc k (take n L) = None.
Proof.
  revert n. induction L as [|[[k' m] t] L IH]; intros [|n]; simpl; try done.
  case_decide; [done|]. apply IH.
Qed.

Lemma no_key h c l chs k :
  cache_rep h c l chs → assoc k (abs h l) = None → ∀ a e, h !! a = Some e → ce_key e ≠ k.
Proof.
  intros Hr Hno a e He <-. rewrite (assoc_abs h l a e) in Hno; [done|apply Hr|..|done].
  apply (rep_dom _ _ _ _ Hr). eauto.
Qed.

(** *** Moving to the front *)

Lemma cons_rm_elem (a b : addr) l : a ∈ l → b ∈ a :: rm a l ↔ b ∈ l.
Proof.
  intros Ha. rewrite elem_of_cons, elem_of_rm. destruct (decide (b = a)) as [->|]; naive_solver.
Qed.

Lemma rep_relink h h' c c' l l' chs :
  cache_rep h c l chs → same_core h h' → lru_rep h' l' → NoDup l' → (∀ b, b ∈ l' ↔ b ∈ l) →
  length l' = length l → c' = with_tail (last l') (with_head (head l') c) →
  cache_rep h' c' l' chs.
Proof.
  intros Hr Hs Hl Hnd Hin Hlen ->. destruct Hr. split; try done; simpl in *; rewrite ?Hlen; try done.
  - intros a. by rewrite (same_core_Some _ _ _ Hs), Hin.
  - by eapply chain_rep_core.
  - eapply unique_keys_content; [by apply same_core_content|done].
Qed.

(** Removing and adding in front. *)
Lemma lru_move_rep h c l chs a :
  cache_rep h c l chs → a ∈ l →
  ∃ h' t, (let* s := lru_remove (h, c) a in lru_push_front s a)
            = Val (h', with_tail t (with_head (Some a) c)) ∧ same_core h h' ∧
    cache_rep h' (with_tail t (with_head (Some a) c)) (a :: rm a l) chs.
Proof.
  intros Hr Ha. pose proof (rep_in _ _ _ _ a Hr Ha) as [e He].
  pose proof (rep_nodup _ _ _ _ Hr) as Hnd. pose proof (λ b, rep_in _ _ _ _ b Hr) as Hin.
  rewrite (lru_remove_Val h l a e Hnd (rep_lru _ _ _ _ Hr) Hin He Ha c) by apply Hr.
  cbn [c_bind]. set (c1 := with_tail _ _).
  pose proof (lru_removed_core h l a) as Hs1.
  destruct (lru_push_front_rep (lru_removed l a h) (rm a l) c1 a) as (h' & Hs & Hl & ->).
  - by apply NoDup_rm.
  - apply lru_removed_rep; [done|apply Hr].
  - intros b [Hb _]%elem_of_rm. apply (same_core_Some _ _ _ Hs1). auto.
  - apply (same_core_Some _ _ _ Hs1). eauto.
  - rewrite elem_of_rm. tauto.
  - done.
  - done.
  - exists h', (last (a :: rm a l)). split_and!; [done|by eapply same_core_trans|].
    eapply rep_relink; [done|by eapply same_core_trans|done| | | |done].
    + apply NoDup_cons. split; [rewrite elem_of_rm; tauto|by apply NoDup_rm].
    + intros b. by apply cons_rm_elem.
    + simpl. symmetry. by apply length_rm.
Qed.

Lemma lru_touch_rep h c l chs a :
  cache_rep h c l chs → a ∈ l →
  ∃ h' t, lru_touch (h, c) a = Val (h', with_tail t (with_head (Some a) c)) ∧ same_core h h' ∧
    cache_rep h' (with_tail t (with_head (Some a) c)) (a :: rm a l) chs.
Proof.
  intros Hr Ha. unfold lru_touch. cbn [snd]. case_decide as Hd; [|by apply lru_move_rep].
  exists h, (lru_tail c). assert (with_tail (lru_tail c) (with_head (Some a) c) = c) as ->.
  { rewrite <-Hd. by destruct c. }
  split_and!; [done|apply same_core_refl|].
  rewrite (rep_head _ _ _ _ Hr) in Hd. destruct l as [|x l]; simplify_eq/=.
  pose proof (rep_nodup _ _ _ _ Hr) as [Hx _]%NoDup_cons. by rewrite rm_cons_eq, rm_notin.
Qed.

(** *** Updating the content of an entry in place *)

Definition keeps_shape (f : cache_entry → cache_entry) : Prop :=
  ∀ e, ce_key (f e) = ce_key e ∧ ce_next (f e) = ce_next e ∧
    ce_lru_prev (f e) = ce_lru_prev e ∧ ce_lru_next (f e) = ce_lru_next e.

Lemma alter_shape f a (h : heap_t) b e' :
  keeps_shape f → alter f a h !! b = Some e' →
  ∃ e, h !! b = Some e ∧ ce_key e' = ce_key e ∧ ce_next e' = ce_next e ∧
    ce_lru_prev e' = ce_lru_prev e ∧ ce_lru_next e' = ce_lru_next e.
Proof.
  intros Hf. rewrite lookup_alter. case_decide as Hd; [|by eauto 10].
  intros (e & He & ->)%fmap_Some. subst. exists e. split; [done|apply Hf].
Qed.

Lemma alter_is_Some f a (h : heap_t) b : is_Some (alter f a h !! b) ↔ is_Some (h !! b).
Proof. rewrite lookup_alter. case_decide; subst; by rewrite ?fmap_is_Some. Qed.

Lemma chain_rep_alter d f a h tab chs :
  keeps_shape f → chain_rep d h tab chs → chain_rep d (alter f a h) tab chs.
Proof.
  intros Hf Hr. split; [apply Hr| | |apply Hr].
  - intros b e' Hb Hd. destruct (alter_shape _ _ _ _ _ Hf Hb) as (e & He & Hk & -> & _).
    unfold slot_of. rewrite Hk. apply (cr_entry _ _ _ _ Hr b e He Hd).
  - intros i ch b Hi Hb. destruct (cr_member _ _ _ _ Hr _ _ _ Hi Hb) as (? & e & He & <-).
    split; [done|]. destruct (alter f a h !! b) as [e'|] eqn:E.
    + destruct (alter_shape _ _ _ _ _ Hf E) as (e0 & ? & Hk & _). simplify_eq.
      exists e'. unfold slot_of. by rewrite Hk.
    + assert (is_Some (alter f a h !! b)) as [??] by (apply alter_is_Some; eauto). congruence.
Qed.

Lemma rep_alter f a h c l chs :
  keeps_shape f → cache_rep h c l chs → cache_rep (alter f a h) c l chs.
Proof.
  intros Hf []. split; try done.
  - intros b. by rewrite alter_is_Some.
  - intros b e' (e & He & _ & _ & -> & ->)%alter_shape; [by apply rep_lru0|done].
  - by apply chain_rep_alter.
  - intros b b' e1 e2 (e1' & ? & -> & _)%alter_shape (e2' & ? & -> & _)%alter_shape; eauto.
Qed.

Lemma keeps_time t : keeps_shape (with_time t).
Proof. done. Qed.
Lemma keeps_value m : keeps_shape (with_value m).
Proof. done. Qed.

(** What the bindings become when one entry is rewritten and moved to the front. *)
Lemma abs_front h h' l a e e' :
  unique_keys h → h !! a = Some e → h' !! a = Some e' →
  (∀ b, b ≠ a → content <$> h' !! b = content <$> h !! b) →
  abs h' (a :: rm a l) = content e' :: others (ce_key e) (abs h l).
Proof.
  intros Hu He He' Hb. rewrite (abs_cons _ _ _ _ He'). f_equal.
  rewrite <-(abs_rm _ _ _ _ Hu He). apply abs_ext. intros b [_ Hne]%elem_of_rm. auto.
Qed.

(** ... with a new value and time. *)
Lemma abs_update h c h' l chs a e v now :
  cache_rep h c l chs → h !! a = Some e →
  same_core (alter (with_time now) a (alter (with_value v) a h)) h' →
  abs h' (a :: rm a l) = (ce_key e, v, now) :: others (ce_key e) (abs h l).
Proof.
  intros Hr He Hs. set (h2 := alter _ a (alter _ a h)) in *.
  assert (h2 !! a = Some (with_time now (with_value v e))) as He2.
  { unfold h2. by rewrite !lookup_alter_eq, He. }
  destruct (same_content_lookup _ _ _ _ (same_core_content _ _ Hs) He2) as (e1 & He1 & Hk).
  rewrite (abs_front h _ l a e e1); [by rewrite Hk|apply (rep_keys _ _ _ _ Hr)|done|done|].
  intros b Hb. rewrite (same_core_content _ _ Hs b). unfold h2. by rewrite !lookup_alter_ne.
Qed.

Lemma rep_update h c l chs a v now :
  cache_rep h c l chs →
  cache_rep (alter (with_time now) a (alter (with_value v) a h)) c l chs.
Proof. intros Hr. by apply rep_alter, rep_alter. Qed.

(** *** Removing an entry *)

Lemma rep_detached h c l chs a h2 c' chs' :
  cache_rep h c l chs → a ∈ l → same_content h h2 → lru_rep h2 (rm a l) →
  chain_rep (Some a) h2 (hash_table c') chs' → length chs' = length chs →
  lru_head c' = head (rm a l) → lru_tail c' = last (rm a l) → max_size c' = max_size c →
  count c' = u32 (count c - 1) →
  cache_rep (delete a h2) c' (rm a l) chs' ∧ abs (delete a h2) (rm a l) = abs h (rm a l).
Proof.
  intros Hr Ha Hs Hl Hc Hlen Hh Ht Hm Hn. pose proof (rep_nodup _ _ _ _ Hr) as Hnd.
  pose proof (length_rm _ _ Hnd Ha) as Hrm. pose proof (rep_max _ _ _ _ Hr).
  pose proof (rep_width _ _ _ _ Hr). split; [split|].
  - by apply NoDup_rm.
  - intros b. rewrite elem_of_rm, <-(rep_dom _ _ _ _ Hr), <-(same_content_Some _ _ b Hs).
    rewrite lookup_delete_is_Some. naive_solver.
  - intros b e [_ Hb]%lookup_delete_Some. by apply Hl.
  - done.
  - done.
  - by apply chain_rep_free.
  - intros b b' e e' [_ Hb]%lookup_delete_Some [_ Hb']%lookup_delete_Some.
    by eapply (unique_keys_content _ _ Hs (rep_keys _ _ _ _ Hr)).
  - rewrite Hn, (rep_count _ _ _ _ Hr). unfold u32, wrap. rewrite Z.mod_small; lia.
  - lia.
  - rewrite Hlen. apply Hr.
  - by rewrite Hm.
  - apply abs_ext. intros b [_ Hne]%elem_of_rm. by rewrite lookup_delete_ne.
Qed.

Lemma rep_chain_of h c l chs a :
  cache_rep h c l chs → a ∈ l →
  ∃ e ch, h !! a = Some e ∧ chs !! slot_of (length chs) e = Some ch ∧ a ∈ ch.
Proof.
  intros Hr Ha. destruct (rep_in _ _ _ _ _ Hr Ha) as [e He].
  destruct (cr_entry _ _ _ _ (rep_chains _ _ _ _ Hr) _ _ He ltac:(done)) as (ch & ? & ? & _). eauto.
Qed.

Lemma cache_invalidate_rep h c l chs k :
  cache_rep h c l chs →
  (cache_invalidate (h, c) k = Val (-1, (h, c)) ∧ assoc k (abs h l) = None) ∨
  (∃ h' c' l' chs' x, cache_invalidate (h, c) k = Val (0, (h', c')) ∧ cache_rep h' c' l' chs' ∧
     assoc k (abs h l) = Some x ∧ abs h' l' = others k (abs h l) ∧
     hits c' = hits c ∧ misses c' = misses c ∧ evictions c' = evictions c ∧
     ttl_seconds c' = ttl_seconds c ∧ max_size c' = max_size c ∧
     ∀ a e, h !! a = Some e → ce_key e = k → h' !! a = None).
Proof.
  intros Hr. unfold cache_invalidate. cbn [fst snd].
  destruct (search_key_spec _ _ _ _ k Hr)
    as [(-> & _ & Hno)|(a & e & ch & -> & Hch & Hach & Ha & He & Hk & Has)]; [by left|right].
  cbn [c_bind]. pose proof (rep_chains _ _ _ _ Hr) as Hc.
  rewrite (proj1 (slot_in_table _ _ _ _ k Hr)), <-Hk. fold (slot_of (length chs) e).
  rewrite (unlink_Val h c chs _ ch a e Hc Hch Hach He). cbn [c_bind].
  set (c1 := with_table _ c). set (h1 := unlinked ch a h).
  pose proof (unlinked_links ch a h) as Hs1. fold h1 in Hs1.
  pose proof (same_links_content _ _ Hs1) as Hs1'.
  destruct (same_content_lookup _ _ _ _ Hs1' He) as (e1 & He1 & _).
  pose proof (rep_nodup _ _ _ _ Hr) as Hnd.
  pose proof (same_links_rep _ _ _ Hs1 (rep_lru _ _ _ _ Hr)) as Hl1.
  rewrite (lru_remove_Val h1 l a e1); [|done|done| |done|done|by apply Hr|by apply Hr].
  2:{ intros b Hb. apply (same_content_Some _ _ _ Hs1'). by apply (rep_in _ _ _ _ _ Hr). }
  cbn [c_bind fst snd]. pose proof (lru_removed_core h1 l a) as Hs2.
  destruct (same_content_lookup _ _ _ _ (same_core_content _ _ Hs2) He1) as (e2 & He2 & _).
  rewrite (free_Val _ _ _ He2). cbn [c_bind].
  set (c2 := with_count _ _).
  destruct (rep_detached h c l chs a (lru_removed l a h1) c2
              (<[slot_of (length chs) e := rm a ch]> chs)) as [Hrep Habs]; try done.
  - eapply same_content_trans; [done|by apply same_core_content].
  - by apply lru_removed_rep.
  - simpl. eapply chain_rep_core; [done|]. by eapply unlinked_rep.
  - by rewrite length_insert.
  - eexists _, c2, (rm a l), _, _. split; [done|]. split; [done|]. subst k. split; [done|].
    rewrite Habs, (abs_rm h a e l (rep_keys _ _ _ _ Hr) He). split_and!; try done.
    intros b e' Hb Hkb. assert (b = a) as -> by (by eapply (rep_keys _ _ _ _ Hr)).
    apply lookup_delete_eq.
Qed.

(** Searching the chain of an entry for the entry itself. *)
Lemma search_addr_spec d h c chs a e ch :
  chain_rep d h (hash_table c) chs → chs !! slot_of (length chs) e = Some ch → a ∈ ch →
  search_chain (h, c) (slot_of (length chs) e) (λ b _, bool_decide (b = a))
    = Val (Some (prev_in ch a, a)).
Proof.
  intros Hc Hch Ha.
  destruct (search_chain_spec _ _ _ _ _ _ (λ b _, bool_decide (b = a)) Hc Hch)
    as ([[q b]|] & -> & Hspec).
  - destruct Hspec as (-> & _ & _ & _ & ->%bool_decide_eq_true). done.
  - destruct (cr_member _ _ _ _ Hc _ _ _ Hch Ha) as (_ & e' & He' & _).
    specialize (Hspec a e' Ha He'). by apply bool_decide_eq_false in Hspec.
Qed.

Lemma evict_rep h c l chs :
  cache_rep h c l chs → l ≠ [] →
  ∃ h' c' l' chs', evict_lru_entry (h, c) = Val (h', c') ∧ cache_rep h' c' l' chs' ∧
    length l = S (length l') ∧ abs h' l' = take (pred (length l)) (abs h l) ∧
    hits c' = hits c ∧ misses c' = misses c ∧ evictions c' = add64 (evictions c) 1 ∧
    ttl_seconds c' = ttl_seconds c ∧ max_size c' = max_size c ∧ length chs' = length chs.
Proof.
  intros Hr Hne. unfold evict_lru_entry. cbn [snd].
  destruct (last l) as [a|] eqn:Hlast; [|by apply last_None in Hlast].
  rewrite (rep_tail _ _ _ _ Hr), Hlast.
  assert (a ∈ l) as Ha by (apply last_Some in Hlast as [? ->]; set_solver).
  destruct (rep_chain_of _ _ _ _ a Hr Ha) as (e & ch & He & Hch & Hach).
  pose proof (rep_nodup _ _ _ _ Hr) as Hnd. pose proof (rep_chains _ _ _ _ Hr) as Hc.
  pose proof (λ b, rep_in _ _ _ _ b Hr) as Hin.
  rewrite (lru_remove_Val h l a e Hnd (rep_lru _ _ _ _ Hr) Hin He Ha c) by apply Hr.
  cbn [c_bind fst snd]. set (c1 := with_tail _ _). pose proof (lru_removed_core h l a) as Hs1.
  pose proof (lru_removed_rep h l a Hnd (rep_lru _ _ _ _ Hr)) as Hl1.
  set (h1 := lru_removed l a h) in *. pose proof (same_core_content _ _ Hs1) as Hs1'.
  destruct (same_content_lookup _ _ _ _ Hs1' He) as (e1 & He1 & [= Hk _ _]).
  rewrite (load_Val _ _ _ He1). cbn [c_bind].
  replace (table_size c1) with (length chs) by (symmetry; apply (slot_in_table _ _ _ _ "" Hr)).
  rewrite Hk. fold (slot_of (length chs) e).
  pose proof (chain_rep_core _ _ _ _ _ Hs1 Hc) as Hc1.
  rewrite (search_addr_spec None h1 c1 chs a e ch Hc1 Hch Hach). cbn [c_bind].
  rewrite (unlink_Val h1 c1 chs _ ch a e1 Hc1 Hch Hach He1). cbn [c_bind fst snd].
  pose proof (unlinked_links ch a h1) as Hs2. pose proof (same_links_content _ _ Hs2) as Hs2'.
  destruct (same_content_lookup _ _ _ _ Hs2' He1) as (e2 & He2 & _).
  rewrite (free_Val _ _ _ He2). cbn [c_bind]. set (c2 := with_stats _ _ _ _).
  destruct (rep_detached h c l chs a (unlinked ch a h1) c2
              (<[slot_of (length chs) e := rm a ch]> chs)) as [Hrep Habs]; try done.
  - by eapply same_content_trans.
  - by eapply same_links_rep.
  - by eapply unlinked_rep.
  - by rewrite length_insert.
  - eexists _, c2, (rm a l), _. split; [done|]. split; [done|]. split; [by apply length_rm|].
    rewrite length_insert. by rewrite Habs, (abs_rm_last h l a Hnd Hin Hlast).
Qed.

(** *** Insertion *)

Section InsertRep.
Context (malloc : heap_t → addr) (malloc_fresh : ∀ h, h !! malloc h = None).

(** The insertion of a new key, there being room. *)
Lemma cache_insert_rep h c l chs k v now :
  cache_rep h c l chs → (∀ a e, h !! a = Some e → ce_key e ≠ k) →
  Z.of_nat (length l) < max_size c →
  ∃ h' c' l' chs',
    cache_insert malloc (h, c) (cache_key_hash k (length chs)) k v now = Val (h', c') ∧
    cache_rep h' c' l' chs' ∧ abs h' l' = (k, v, now) :: abs h l ∧
    hits c' = hits c ∧ misses c' = misses c ∧ evictions c' = evictions c ∧
    ttl_seconds c' = ttl_seconds c ∧ max_size c' = max_size c.
Proof using malloc_fresh.
  intros Hr Hk Hroom. destruct (slot_in_table _ _ _ _ k Hr) as [_ [ch Hch]]. unfold cache_insert.
  pose proof (rep_chains _ _ _ _ Hr) as Hc.
  assert (c_read (hash_table c) (cache_key_hash k (length chs)) = Val (head ch)) as ->.
  { unfold c_read. by rewrite (cr_table _ _ _ _ Hc), list_lookup_fmap, Hch. }
  cbn [c_bind]. set (a := malloc h). set (e := CacheEntry k _ now (head ch) None None).
  pose proof (malloc_fresh h) as Hfresh. fold a in Hfresh.
  assert (a ∉ l) as Hal. { intros H%(rep_dom _ _ _ _ Hr). rewrite Hfresh in H. by destruct H. }
  set (c1 := with_table _ c). pose proof (rep_nodup _ _ _ _ Hr) as Hnd.
  assert (lru_rep (<[a := e]> h) l) as Hl.
  { intros b e' [(<- & <-)|(Hne & Hb)]%lookup_insert_Some; [|by apply (rep_lru _ _ _ _ Hr)].
    by rewrite prev_in_notin, next_in_notin. }
  assert (∀ b, is_Some (<[a := e]> h !! b) ↔ b = a ∨ b ∈ l) as Hdom.
  { intros b. rewrite lookup_insert_is_Some, <-(rep_dom _ _ _ _ Hr).
    destruct (decide (a = b)); naive_solver. }
  destruct (lru_push_front_rep (<[a := e]> h) l c1 a) as (h' & Hs & Hl' & ->);
    [done|done|intros; apply Hdom; auto|apply Hdom; auto|done|apply Hr|apply Hr|].
  cbn [c_bind fst snd]. set (c2 := with_count _ _).
  pose proof (rep_width _ _ _ _ Hr). pose proof (rep_count _ _ _ _ Hr) as Hcnt.
  pose proof (same_core_content _ _ Hs) as Hs'.
  exists h', c2, (a :: l), (<[slot_of (length chs) e := a :: ch]> chs).
  split; [done|]. split; [split|split; [|done]]; try done.
  - by apply NoDup_cons.
  - intros b. by rewrite (same_core_Some _ _ _ Hs), Hdom, elem_of_cons.
  - eapply chain_rep_core; [done|]. by apply (chain_rep_insert a e h _ chs ch).
  - eapply unique_keys_content; [done|].
    intros b b' e1 e2 [(<- & <-)|(? & Hb)]%lookup_insert_Some
      [(<- & <-)|(? & Hb')]%lookup_insert_Some Heq; [done| | |by eapply (rep_keys _ _ _ _ Hr)].
    + by destruct (Hk _ _ Hb').
    + by destruct (Hk _ _ Hb).
  - simpl. rewrite Hcnt. unfold u32, wrap. rewrite Z.mod_small; lia.
  - simpl. lia.
  - rewrite length_insert. apply Hr.
  - destruct (same_content_lookup _ _ a e Hs') as (e' & He' & Hce); [apply lookup_insert_eq|].
    rewrite (abs_cons _ _ _ _ He'), Hce. f_equal. apply abs_ext. intros b Hb.
    rewrite (Hs' b), lookup_insert_ne; [done|]. by intros ->.
Qed.

(** A new key, the least recently used binding making room for it. *)
Lemma cache_add_rep h c l chs k v now :
  cache_rep h c l chs → (∀ a e, h !! a = Some e → ce_key e ≠ k) →
  ∃ h' c' l' chs',
    cache_add malloc (h, c) (cache_key_hash k (length chs)) k v now = Val (h', c') ∧
    cache_rep h' c' l' chs' ∧ hits c' = hits c ∧ misses c' = misses c ∧
    ttl_seconds c' = ttl_seconds c ∧ max_size c' = max_size c ∧
    if max_size c <=? Z.of_nat (length (abs h l))
    then abs h' l' = (k, v, now) :: take (pred (length (abs h l))) (abs h l) ∧
         evictions c' = add64 (evictions c) 1
    else abs h' l' = (k, v, now) :: abs h l ∧ evictions c' = evictions c.
Proof using malloc_fresh.
  intros Hr Hno. unfold cache_add. cbn [fst snd].
  rewrite (rep_count _ _ _ _ Hr), abs_length by (intros; by eapply rep_in).
  destruct (max_size c <=? Z.of_nat (length l)) eqn:Hfull; cbn [c_bind].
  - apply Z.leb_le in Hfull. pose proof (rep_width _ _ _ _ Hr). pose proof (rep_max _ _ _ _ Hr).
    destruct (evict_rep _ _ _ _ Hr) as (h1 & c1 & l1 & chs1 & -> & Hr1 & Hlen & Habs & Hst);
      [by intros ->; simpl in *; lia|]. cbn [c_bind].
    destruct Hst as (Hh1 & Hm1 & He1 & Ht1 & Hmax1 & <-).
    destruct (cache_insert_rep h1 c1 l1 chs1 k v now Hr1)
      as (h2 & c2 & l2 & chs2 & -> & Hr2 & Habs2 & Hst2).
    + apply (no_key _ _ _ _ _ Hr1). rewrite Habs. apply assoc_take. by apply assoc_abs_None.
    + lia.
    + eexists h2, c2, l2, chs2. destruct Hst2 as (?&?&?&?&?). split_and!; try done; congruence.
  - apply Z.leb_gt in Hfull.
    destruct (cache_insert_rep h c l chs k v now Hr Hno)
      as (h2 & c2 & l2 & chs2 & -> & Hr2 & Habs2 & Hst2); [lia|].
    eexists h2, c2, l2, chs2. destruct Hst2 as (?&?&?&?&?). split_and!; try done; congruence.
Qed.
End InsertRep.

Lemma u64_succ n : add64 (u64 n) 1 = u64 (n + 1).
Proof. unfold add64, u64, wrap. by rewrite Zplus_mod_idemp_l. Qed.

(** The state of the cache represents the specification state [S]. *)
Definition represented (max ttl : Z) (s : heap_t * hash_lru) (S : lru) : Prop :=
  ∃ l chs, cache_rep s.1 s.2 l chs ∧ abs s.1 l = bindings S ∧
    hits s.2 = u64 (n_hits S) ∧ misses s.2 = u64 (n_misses S) ∧
    evictions s.2 = u64 (n_evictions S) ∧ max_size s.2 = max ∧ ttl_seconds s.2 = ttl.

Definition lru_empty : lru := Lru [] 0 0 0.

(** A new table with [n] slots. *)
Lemma empty_represented (n : nat) max ttl :
  (0 < n)%nat → 0 < max < 2 ^ 32 →
  represented max ttl (∅, HashLru (replicate n None) None None 0 max ttl 0 0 0) lru_empty.
Proof.
  intros Hn Hw. exists [], (replicate n []). split; [|done]. split; simpl; try done.
  - constructor.
  - intros a. rewrite lookup_empty, is_Some_alt. set_solver.
  - split.
    + by rewrite fmap_replicate.
    + intros a e He. by rewrite lookup_empty in He.
    + intros i ch a [-> _]%lookup_replicate Ha. by apply elem_of_nil in Ha.
    + intros i ch [-> _]%lookup_replicate. constructor.
  - lia.
  - by rewrite length_replicate.
Qed.

Lemma add_represented malloc max ttl s S k v now :
  (∀ h : heap_t, h !! malloc h = None) → represented max ttl s S →
  search_chain s (cache_key_hash k (table_size s.2)) (key_is k) = Val None →
  ∃ s', cache_add malloc s (cache_key_hash k (table_size s.2)) k v now = Val s' ∧
    represented max ttl s' (lru_put max k v now S).
Proof.
  intros Hfresh (l & chs & Hr & Hb & Hh & Hm & He & Hmax & Httl) Hsearch. destruct s as [h c].
  cbn [fst snd] in *. unfold lru_put. rewrite <-Hb.
  destruct (search_key_spec _ _ _ _ k Hr) as [(_ & Hno & ->)|(a & e & ch & Hs & _)]; [|congruence].
  rewrite (proj1 (slot_in_table _ _ _ _ k Hr)).
  destruct (cache_add_rep malloc Hfresh h c l chs k v now Hr Hno)
    as (h' & c' & l' & chs' & -> & Hr' & Hh' & Hm' & Ht' & Hmax' & Habs).
  exists (h', c'). split; [done|]. exists l', chs'. cbn [fst snd]. rewrite Hmax in Habs.
  destruct (max <=? Z.of_nat (length (abs h l))); destruct Habs as [Habs Hev]; cbn [bindings n_hits n_misses n_evictions];
    rewrite ?Hev, ?He, ?u64_succ; split_and!; try done; congruence.
Qed.

Lemma invalidate_represented max ttl s S k :
  represented max ttl s S →
  ∃ s', cache_invalidate s k = Val ((lru_invalidate k S).1, s') ∧
    represented max ttl s' (lru_invalidate k S).2.
Proof.
  intros (l & chs & Hr & Hb & Hh & Hm & He & Hmax & Httl). destruct s as [h c].
  cbn [fst snd] in *. unfold lru_invalidate. rewrite <-Hb.
  destruct (cache_invalidate_rep _ _ _ _ k Hr)
    as [(-> & ->)|(h' & c' & l' & chs' & x & -> & Hr' & -> & Habs & Hst)].
  - eexists. split; [done|]. by exists l, chs.
  - eexists. split; [done|]. exists l', chs'. destruct Hst as (?&?&?&?&?&_).
    cbn [fst snd bindings n_hits n_misses n_evictions]. split_and!; try done; congruence.
Qed.

Lemma rep_stats h c l chs x y z : cache_rep h c l chs → cache_rep h (with_stats x y z c) l chs.
Proof. intros []. by split. Qed.

(** *** Releasing everything *)

Lemma free_chain_spec fuel (h : heap_t) ch :
  NoDup ch → (length ch < fuel)%nat →
  (∀ a, a ∈ ch → ∃ e, h !! a = Some e ∧ ce_next e = next_in ch a) →
  ∃ h', free_chain fuel h (head ch) = Val h' ∧
    ∀ b, h' !! b = if decide (b ∈ ch) then None else h !! b.
Proof.
  revert fuel h. induction ch as [|a ch IH]; intros fuel h Hnd Hf Hnext.
  - exists h. destruct fuel; (split; [done|]); intros b; by rewrite decide_False by set_solver.
  - destruct fuel as [|fuel]; simpl in *; [lia|]. apply NoDup_cons in Hnd as [Ha Hnd].
    destruct (Hnext a) as (e & He & Hn); [set_solver|]. rewrite decide_True in Hn by done.
    rewrite (load_Val _ _ _ He), (free_Val _ _ _ He). cbn [c_bind]. rewrite Hn.
    destruct (IH fuel (delete a h)) as (h' & -> & Hh'); [done|lia| |].
    + intros b Hb. assert (a ≠ b) by congruence. destruct (Hnext b) as (e' & He' & Hn'); [set_solver|].
      exists e'. rewrite lookup_delete_ne by done. rewrite decide_False in Hn' by done. done.
    + exists h'. split; [done|]. intros b. rewrite Hh'. clear Hnext Hh' He Hn.
      destruct (decide (b = a)) as [->|Hba].
      * rewrite (decide_False (P := a ∈ ch)), decide_True by set_solver. apply lookup_delete_eq.
      * rewrite lookup_delete_ne by done. repeat case_decide; try done; set_solver.
Qed.

Lemma free_table_spec (h : heap_t) (chs : list (list addr)) :
  (∀ i ch, chs !! i = Some ch → NoDup ch) →
  (∀ i j ci cj a, chs !! i = Some ci → chs !! j = Some cj → a ∈ ci → a ∈ cj → i = j) →
  (∀ i ch a, chs !! i = Some ch → a ∈ ch → ∃ e, h !! a = Some e ∧ ce_next e = next_in ch a) →
  ∃ h', free_table h (head <$> chs) = Val h' ∧
    ∀ b, h' !! b = if decide (b ∈ concat chs) then None else h !! b.
Proof.
  revert h. induction chs as [|ch chs IH]; intros h Hnd Hdis Hnext.
  - by exists h.
  - rewrite fmap_cons. cbn [free_table]. destruct (free_chain_spec (S (size h)) h ch) as (h1 & -> & Hh1).
    + apply (Hnd 0%nat ch). done.
    + apply Nat.lt_succ_r, chain_length_le; [by apply (Hnd 0%nat)|].
      intros a Ha. destruct (Hnext 0%nat ch a) as (e & -> & _); eauto.
    + intros a Ha. by apply (Hnext 0%nat).
    + cbn [c_bind]. destruct (IH h1) as (h2 & -> & Hh2).
      * intros i ch' Hi. by apply (Hnd (S i)).
      * intros i j ci cj a Hi Hj Hai Haj.
        assert (S i = S j) by (by apply (Hdis (S i) (S j) ci cj a)). lia.
      * intros i ch' a Hi Ha. rewrite Hh1. rewrite decide_False; [by apply (Hnext (S i))|].
        intros Ha'. assert (0%nat = S i) by (by apply (Hdis 0%nat (S i) ch ch' a)). lia.
      * exists h2. split; [done|]. intros b. rewrite Hh2, Hh1. clear.
        repeat case_decide; try done; set_solver.
Qed.

Lemma free_table_rep h c l chs :
  cache_rep h c l chs → free_table h (hash_table c) = Val ∅.
Proof.
  intros Hr. pose proof (rep_chains _ _ _ _ Hr) as Hc. rewrite (cr_table _ _ _ _ Hc).
  destruct (free_table_spec h chs) as (h' & -> & Hh').
  - intros i ch Hi. by eapply cr_nodup.
  - intros i j ci cj a Hi Hj Hai Haj.
    destruct (cr_member _ _ _ _ Hc _ _ _ Hi Hai) as (_ & e & He & <-).
    by destruct (cr_next _ _ _ _ _ _ _ _ Hc Hj Haj He).
  - intros i ch a Hi Ha. destruct (cr_member _ _ _ _ Hc _ _ _ Hi Ha) as (_ & e & He & _).
    exists e. split; [done|]. by destruct (cr_next _ _ _ _ _ _ _ _ Hc Hi Ha He).
  - f_equal. apply map_eq. intros b. rewrite Hh', lookup_empty.
    case_decide as Hb; [done|]. destruct (h !! b) as [e|] eqn:He; [|done]. exfalso. apply Hb.
    destruct (cr_entry _ _ _ _ Hc _ _ He ltac:(done)) as (ch & Hch & Hbc & _).
    apply elem_of_concat. exists ch. split; [|done]. by eapply list_elem_of_lookup_2.
Qed.
End Rep.

Arguments lru : clear implicits.
