(* ===== verification/XlMeta.v ===== *)
(** * Object metadata (src/src/storage/metadata.c)

    The xl.meta document of an object: the structure [buckets_xl_meta_t], its JSON form, and
    the file that holds it on a disk. *)

From S2P Require Import Prelude CInt CString CSearch DiskIO Json.
From Stdlib Require Import Ascii.

Local Open Scope c_scope.

(** ** The structure ([buckets_xl_meta_t], include/buckets_storage.h) *)

Record buckets_checksum := Checksum { algo : string; hash : list Z }.

Record xl_meta := XlMeta {
  xl_version : Z;
  xl_format : string;
  xl_bucket : option string;
  xl_object : option string;
  stat_size : Z;
  stat_modTime : string;
  ec_algorithm : string;
  ec_data : Z;
  ec_parity : Z;
  ec_blockSize : Z;
  ec_index : Z;
  ec_distribution : option (list Z);
  ec_checksums : option (list buckets_checksum);
  content_type : option string;
  etag : option string;
  cache_control : option string;
  content_disposition : option string;
  content_encoding : option string;
  content_language : option string;
  expires : option string;
  user_meta : list (string * string);
  versionId : option string;
  isLatest : bool;
  isDeleteMarker : bool;
  deleteMarkerVersionId : option string;
  inline_data : option string
}.

(** [memset(meta, 0, sizeof(buckets_xl_meta_t))] *)
Definition xl_meta_zero : xl_meta :=
  XlMeta 0 "" None None 0 "" "" 0 0 0 0 None None None None None None None None None []
    None false false None None.

(** The number of chunks. *)
Definition chunk_count (m : xl_meta) : nat := Z.to_nat (u32 (ec_data m + ec_parity m)).

(** ** Serialisation *)

Definition add_str (key : string) (o : option string) : list (string * json) :=
  match o with Some s => [(key, JString s)] | None => [] end.

(** [%02x] of 32 bytes. *)
Definition hash_hex (h : list Z) : string := bytes_str (h ≫= hex_byte).

Definition checksum_to_json (c : buckets_checksum) : json :=
  JObject [("algo", JString (algo c)); ("hash", JString (hash_hex (take 32 (hash c))))].

(** The loop over the first [n] elements of an array that may be [NULL] or too short. *)
Definition array_prefix {A} (n : nat) (arr : option (list A)) : c_result (list A) :=
  match n, arr with
  | O, _ => Val []
  | _, Some l => if (n <=? length l)%nat then Val (take n l) else Undef
  | _, None => Undef
  end.

(** [snprintf(key_with_prefix, 256, "x-amz-meta-%s", key)] *)
Definition user_key (key : string) : string := snprintf 256 ("x-amz-meta-" +:+ key).

(** The item [erasure], given its two arrays. *)
Definition erasure_to_json (m : xl_meta) (distribution : list Z) (checksums : list buckets_checksum)
    : json :=
  JObject
    [("algorithm", JString (ec_algorithm m)); ("data", JNumber (ec_data m));
     ("parity", JNumber (ec_parity m)); ("blockSize", JNumber (ec_blockSize m));
     ("index", JNumber (ec_index m)); ("distribution", JArray (JNumber <$> distribution));
     ("checksums", JArray (checksum_to_json <$> checksums))].

(** The item [meta]: headers and user metadata. *)
Definition headers_to_json (m : xl_meta) : list (string * json) :=
  add_str "content-type" (content_type m) ++ add_str "etag" (etag m) ++
  add_str "cache-control" (cache_control m) ++
  add_str "content-disposition" (content_disposition m) ++
  add_str "content-encoding" (content_encoding m) ++
  add_str "content-language" (content_language m) ++ add_str "expires" (expires m) ++
  ((λ kv, (user_key kv.1, JString kv.2)) <$> user_meta m).

(** The optional item [versioning]. *)
Definition versioning_to_json (m : xl_meta) : list (string * json) :=
  match versionId m with
  | Some v =>
      [("versioning", JObject
          ([("versionId", JString v); ("isLatest", JBool (isLatest m));
            ("isDeleteMarker", JBool (isDeleteMarker m))] ++
           add_str "deleteMarkerVersionId" (deleteMarkerVersionId m)))]
  | None => []
  end.

(** The whole document. *)
Definition xl_meta_tree (m : xl_meta) : c_result json :=
  let* distribution := array_prefix (chunk_count m) (ec_distribution m) in
  let* checksums := array_prefix (chunk_count m) (ec_checksums m) in
  Val (JObject (
    [("version", JNumber (xl_version m)); ("format", JString (xl_format m))] ++
    add_str "bucket" (xl_bucket m) ++ add_str "object" (xl_object m) ++
    [("stat", JObject [("size", JNumber (stat_size m)); ("modTime", JString (stat_modTime m))]);
     ("erasure", erasure_to_json m distribution checksums);
     ("meta", JObject (headers_to_json m))] ++
    versioning_to_json m ++ add_str "inline" (inline_data m))).

(** ** Deserialisation *)

(** The comparison of [cJSON_GetObjectItem] ignores case. *)
Definition tolower (c : ascii) : ascii :=
  let n := N_of_ascii c in if ((65 <=? n) && (n <=? 90))%N then ascii_of_N (n + 32) else c.

Fixpoint eq_nocase (s t : string) : bool :=
  match s, t with
  | EmptyString, EmptyString => true
  | String a s, String b t => Ascii.eqb (tolower a) (tolower b) && eq_nocase s t
  | _, _ => false
  end.

Fixpoint find_nocase (items : list (string * json)) (key : string) : option json :=
  match items with
  | [] => None
  | (k, v) :: items => if eq_nocase key k then Some v else find_nocase items key
  end.

(** [cJSON_GetObjectItem] *)
Definition get_nocase (obj : json) (key : string) : option json :=
  match obj with JObject items => find_nocase items key | _ => None end.

(** A string field copied into an array of [n + 1] zero bytes, or duplicated; a number as
    the library's [int] or its double; a boolean. *)
Definition read_chars (obj : json) (key : string) (n : nat) : string :=
  match get_nocase obj key with Some (JString s) => strncpy n s | _ => "" end.
Definition read_str (obj : json) (key : string) : option string :=
  match get_nocase obj key with Some (JString s) => Some s | _ => None end.
Definition read_u32 (obj : json) (key : string) : Z :=
  match get_nocase obj key with Some (JNumber z) => u32 (valueint z) | _ => 0 end.
Definition read_size (obj : json) (key : string) : c_result Z :=
  match get_nocase obj key with
  | Some (JNumber z) => if (0 <=? z) && (z <? 2 ^ 64) then Val z else Undef
  | _ => Val 0
  end.
Definition read_bool (obj : json) (key : string) : bool :=
  match get_nocase obj key with Some (JBool b) => b | _ => false end.

(** The numbers of an array, at most [n] of them. A slot of the fresh array that no number
    fills is uninitialised. *)
Fixpoint numbers (items : list json) : list Z :=
  match items with
  | [] => []
  | JNumber z :: items => u32 (valueint z) :: numbers items
  | _ :: items => numbers items
  end.

Definition fill_array {A} (n : nat) (l : list A) : c_result (list A) :=
  if (n <=? length l)%nat then Val (take n l) else Undef.

(** [sscanf] of a byte as two hexadecimal digits, 32 times; anything else leaves bytes
    uninitialised or reads past the end of the string. *)
Definition hex_value (c : Z) : option Z :=
  if (48 <=? c) && (c <=? 57) then Some (c - 48)
  else if (97 <=? c) && (c <=? 102) then Some (c - 87)
  else if (65 <=? c) && (c <=? 70) then Some (c - 55) else None.

Fixpoint parse_hash (n : nat) (s : list Z) : c_result (list Z) :=
  match n, s with
  | O, _ => Val []
  | S n, a :: b :: s =>
      match hex_value a, hex_value b with
      | Some x, Some y => let* r := parse_hash n s in Val (x * 16 + y :: r)
      | _, _ => Undef
      end
  | _, _ => Undef
  end.

(** One element of the checksums; the array is not cleared, so both fields must be there
    and the name must leave room for its terminator. *)
Definition checksum_from_json (item : json) : c_result buckets_checksum :=
  match read_str item "algo", read_str item "hash" with
  | Some a, Some h =>
      if (strlen a <? 15)%nat then
        let* b := parse_hash 32 (str_bytes h) in Val (Checksum a b)
      else Undef
  | _, _ => Undef
  end.

Fixpoint checksums_from_json (items : list json) : c_result (list buckets_checksum) :=
  match items with
  | [] => Val []
  | item :: items =>
      let* c := checksum_from_json item in
      let* r := checksums_from_json items in Val (c :: r)
  end.

(** The user metadata: every item with the prefix is counted, but only the strings are
    stored; a slot of the arrays that is not stored is uninitialised. *)
Fixpoint user_from_json (items : list (string * json)) : c_result (list (string * string)) :=
  match items with
  | [] => Val []
  | (k, v) :: items =>
      let* r := user_from_json items in
      if starts_with k "x-amz-meta-" then
        match v with JString s => Val ((str_drop 11 k, s) :: r) | _ => Undef end
      else Val r
  end.

Definition erasure_from_json (erasure : json) (m : xl_meta) : c_result xl_meta :=
  let data := read_u32 erasure "data" in
  let parity := read_u32 erasure "parity" in
  let count := Z.to_nat (u32 (data + parity)) in
  let* blockSize := read_size erasure "blockSize" in
  let* distribution :=
    match get_nocase erasure "distribution" with
    | Some (JArray l) => let* d := fill_array count (numbers l) in Val (Some d)
    | _ => Val None
    end in
  let* checksums :=
    match get_nocase erasure "checksums" with
    | Some (JArray l) =>
        let* c := checksums_from_json (take count l) in
        let* c := fill_array count c in Val (Some c)
    | _ => Val None
    end in
  Val (XlMeta (xl_version m) (xl_format m) (xl_bucket m) (xl_object m) (stat_size m)
         (stat_modTime m) (read_chars erasure "algorithm" 15) data parity blockSize
         (read_u32 erasure "index") distribution checksums None None None None None None None []
         None false false None None).

(** The headers and the user metadata of the item [meta]. *)
Definition headers_from_json (um : option json) (m : xl_meta) : c_result xl_meta :=
  match um with
  | None => Val m
  | Some um =>
      let* users :=
        match um with
        | JObject items => user_from_json items
        | JArray (_ :: _) => Undef
        | _ => Val []
        end in
      Val (XlMeta (xl_version m) (xl_format m) (xl_bucket m) (xl_object m) (stat_size m)
             (stat_modTime m) (ec_algorithm m) (ec_data m) (ec_parity m) (ec_blockSize m)
             (ec_index m) (ec_distribution m) (ec_checksums m)
             (read_str um "content-type") (read_str um "etag") (read_str um "cache-control")
             (read_str um "content-disposition") (read_str um "content-encoding")
             (read_str um "content-language") (read_str um "expires") users
             None false false None None)
  end.

Definition versioning_from_json (v : option json) (inl : option string) (m : xl_meta) : xl_meta :=
  let v := default JNull v in
  XlMeta (xl_version m) (xl_format m) (xl_bucket m) (xl_object m) (stat_size m)
    (stat_modTime m) (ec_algorithm m) (ec_data m) (ec_parity m) (ec_blockSize m)
    (ec_index m) (ec_distribution m) (ec_checksums m) (content_type m) (etag m)
    (cache_control m) (content_disposition m) (content_encoding m) (content_language m)
    (expires m) (user_meta m) (read_str v "versionId") (read_bool v "isLatest")
    (read_bool v "isDeleteMarker") (read_str v "deleteMarkerVersionId") inl.

Definition xl_meta_of_tree (root : json) : c_result xl_meta :=
  let stat := default JNull (get_nocase root "stat") in
  let* size := read_size stat "size" in
  let m := XlMeta (read_u32 root "version") (read_chars root "format" 7)
             (read_str root "bucket") (read_str root "object") size
             (read_chars stat "modTime" 31) "" 0 0 0 0 None None None None None None None None
             None [] None false false None None in
  let* m :=
    match get_nocase root "erasure" with
    | Some erasure => erasure_from_json erasure m
    | None => Val m
    end in
  let* m := headers_from_json (get_nocase root "meta") m in
  Val (versioning_from_json (get_nocase root "versioning") (read_str root "inline") m).

Section Files.
Context `{CJson}.

(** A [NULL] argument or result is [None]. *)
Definition buckets_xl_meta_to_json (meta : option xl_meta) : c_result (option string) :=
  match meta with
  | None => Val None
  | Some m => let* root := xl_meta_tree m in Val (cJSON_Print root)
  end.

Definition buckets_xl_meta_from_json (s : option string) : c_result (option xl_meta) :=
  match s with
  | None => Val None
  | Some s =>
      match cJSON_Parse s with
      | None => Val None
      | Some root => let* m := xl_meta_of_tree root in Val (Some m)
      end
  end.

Definition PATH_MAX : nat := Z.to_nat 4096.

(** [snprintf(meta_path, PATH_MAX, "%s/%sxl.meta", disk_path, object_path)] *)
Definition meta_path (disk_path object_path : string) : string :=
  snprintf PATH_MAX (disk_path +:+ "/" +:+ object_path +:+ "xl.meta").

Definition buckets_read_xl_meta (read_ok : bool) (fs : fs_t) (disk_path object_path : string)
    : c_result (option xl_meta) :=
  match buckets_atomic_read read_ok fs (Some (meta_path disk_path object_path)) with
  | (BUCKETS_OK, json) => buckets_xl_meta_from_json json
  | _ => Val None
  end.

(** The file systems of the atomic write; the result is 0 or -1. *)
Definition buckets_write_xl_meta (env : write_env) (pid : N) (fs : fs_t)
    (disk_path object_path : string) (meta : xl_meta) : c_result (Z * list fs_t) :=
  let* json := buckets_xl_meta_to_json (Some meta) in
  match json with
  | None => Val (-1, [fs])
  | Some json =>
      let (err, st) := buckets_atomic_write env pid fs (Some (meta_path disk_path object_path))
                         (Some json) in
      Val (if decide (err = BUCKETS_OK) then 0 else -1, st)
  end.
End Files.

(** ** Round trips *)

#[local] Arguments user_key : simpl never.
#[local] Arguments starts_with : simpl never.
#[local] Arguments str_drop : simpl never.

Lemma find_nocase_app l1 l2 key :
  find_nocase (l1 ++ l2) key
  = match find_nocase l1 key with Some v => Some v | None => find_nocase l2 key end.
Proof. induction l1 as [|[k v] l1 IH]; simpl; [done|]. by destruct (eq_nocase key k). Qed.

Lemma find_nocase_add_str k o key :
  find_nocase (add_str k o) key = if eq_nocase key k then JString <$> o else None.
Proof. destruct o; simpl; by destruct (eq_nocase key k). Qed.

Lemma user_key_shape key :
  ∃ t, user_key key = "x-amz-meta-" +:+ t ∧ ((strlen key ≤ 244)%nat → t = key).
Proof.
  exists (String.substring 0 244 key). split.
  - unfold user_key, snprintf. change (256 - 1)%nat with 255%nat. done.
  - intros. by apply (strncpy_short 244 key).
Qed.

(** The user metadata does not hide a header. *)
Lemma find_nocase_user (users : list (string * string)) c key :
  tolower c ≠ "x"%char →
  find_nocase ((λ kv, (user_key kv.1, JString kv.2)) <$> users) (String c key) = None.
Proof.
  intros Hc. induction users as [|[k v] users IH]; [done|].
  rewrite fmap_cons. cbn [find_nocase fst snd].
  destruct (user_key_shape k) as (t & -> & _).
  change ("x-amz-meta-" +:+ t) with (String "x" ("-amz-meta-" +:+ t)). cbn [eq_nocase].
  change (tolower "x") with "x"%char. by rewrite (proj2 (Ascii.eqb_neq _ _)).
Qed.

Lemma user_from_json_app l1 l2 :
  user_from_json (l1 ++ l2) =
    (let* a := user_from_json l1 in let* b := user_from_json l2 in Val (a ++ b)).
Proof.
  induction l1 as [|[k v] l1 IH]; cbn [user_from_json app].
  - by destruct (user_from_json l2).
  - rewrite IH. destruct (user_from_json l1); cbn [c_bind]; [|done].
    destruct (user_from_json l2); cbn [c_bind].
    + destruct (starts_with k "x-amz-meta-"); [|done]. by destruct v.
    + destruct (starts_with k "x-amz-meta-"); [|done]. by destruct v.
Qed.

Lemma user_from_json_add_str k o :
  starts_with k "x-amz-meta-" = false → user_from_json (add_str k o) = Val [].
Proof. intros Hk. destruct o; simpl; by rewrite ?Hk. Qed.

Lemma user_from_json_users (users : list (string * string)) :
  Forall (λ kv, strlen kv.1 ≤ 244)%nat users →
  user_from_json ((λ kv, (user_key kv.1, JString kv.2)) <$> users) = Val users.
Proof.
  intros Hu. induction Hu as [|[k v] users Hk Hu IH]; [done|].
  rewrite fmap_cons. cbn [user_from_json fst snd]. rewrite IH. cbn [c_bind]. destruct (user_key_shape k) as (t & -> & Ht). rewrite Ht by done.
  unfold starts_with. rewrite prefix_app.
  change 11%nat with (strlen "x-amz-meta-"). by rewrite str_drop_app.
Qed.

Lemma hash_digit_value n : 0 ≤ n < 16 → hex_value (hex_digit n) = Some n.
Proof.
  intros. unfold hex_value, hex_digit. destruct (Z.ltb_spec n 10).
  - rewrite (proj2 (Z.leb_le _ _)), (proj2 (Z.leb_le _ _)) by lia. simpl. f_equal. lia.
  - rewrite (proj2 (Z.leb_gt (87 + n) 57)), andb_false_r by lia.
    rewrite (proj2 (Z.leb_le _ _)), (proj2 (Z.leb_le _ _)) by lia. simpl. f_equal. lia.
Qed.

Lemma parse_hash_hex h :
  is_bytes h → parse_hash (length h) (str_bytes (hash_hex h)) = Val h.
Proof.
  intros Hh. unfold hash_hex. rewrite str_bytes_bytes_str.
  2:{ induction Hh as [|b h Hb Hh IH]; [constructor|].
      change (is_bytes (hex_byte b ++ (h ≫= hex_byte))). apply Forall_app. split; [|done].
      by apply hex_byte_is_bytes. }
  induction Hh as [|b h [Hb0 Hb1] Hh IH]; [done|]. change (2 ^ 8) with 256 in Hb1.
  change ((b :: h) ≫= hex_byte)
    with (hex_digit (b / 16) :: hex_digit (b mod 16) :: (h ≫= hex_byte)).
  cbn [length parse_hash]. rewrite !hash_digit_value by (Z.to_euclidean_division_equations; lia).
  rewrite IH. cbn [c_bind]. do 2 f_equal.
  Z.to_euclidean_division_equations. lia.
Qed.

(** Metadata that the document can hold: every field within its array or its number, the
    arrays of the right length, and no version flags without a version. *)
Record xl_wf (m : xl_meta) : Prop := XlWf {
  wf_version : 0 ≤ xl_version m < 2 ^ 31;
  wf_format : (strlen (xl_format m) ≤ 7)%nat;
  wf_size : 0 ≤ stat_size m ≤ 2 ^ 53;
  wf_modTime : (strlen (stat_modTime m) ≤ 31)%nat;
  wf_algorithm : (strlen (ec_algorithm m) ≤ 15)%nat;
  wf_data : 0 ≤ ec_data m < 2 ^ 31;
  wf_parity : 0 ≤ ec_parity m < 2 ^ 31;
  wf_blockSize : 0 ≤ ec_blockSize m ≤ 2 ^ 53;
  wf_index : 0 ≤ ec_index m < 2 ^ 31;
  wf_distribution : length (default [] (ec_distribution m)) = chunk_count m ∧
                    Forall (λ z, 0 ≤ z < 2 ^ 31) (default [] (ec_distribution m));
  wf_checksums : length (default [] (ec_checksums m)) = chunk_count m ∧
                 Forall (λ c, (strlen (algo c) < 15)%nat ∧ length (hash c) = 32%nat ∧ is_bytes (hash c))
                   (default [] (ec_checksums m));
  wf_user : Forall (λ kv, strlen kv.1 ≤ 244)%nat (user_meta m);
  wf_versioning : versionId m = None →
                  isLatest m = false ∧ isDeleteMarker m = false ∧ deleteMarkerVersionId m = None
}.

(** Reading allocates the arrays, also for no chunks. *)
Definition xl_normal (m : xl_meta) : xl_meta :=
  XlMeta (xl_version m) (xl_format m) (xl_bucket m) (xl_object m) (stat_size m)
    (stat_modTime m) (ec_algorithm m) (ec_data m) (ec_parity m) (ec_blockSize m) (ec_index m)
    (Some (default [] (ec_distribution m))) (Some (default [] (ec_checksums m)))
    (content_type m) (etag m) (cache_control m) (content_disposition m) (content_encoding m)
    (content_language m) (expires m) (user_meta m) (versionId m) (isLatest m)
    (isDeleteMarker m) (deleteMarkerVersionId m) (inline_data m).

Lemma array_prefix_default {A} n (arr : option (list A)) :
  length (default [] arr) = n → array_prefix n arr = Val (default [] arr).
Proof.
  intros Hn. unfold array_prefix. destruct n as [|n].
  - by apply length_zero_iff_nil in Hn as ->.
  - destruct arr as [l|]; [|done]. change (length l = S n) in Hn.
    by rewrite Hn, Nat.leb_refl, take_ge by lia.
Qed.

Lemma fill_array_exact {A} n (l : list A) : length l = n → fill_array n l = Val l.
Proof. intros <-. unfold fill_array. by rewrite Nat.leb_refl, take_ge by lia. Qed.

Lemma u32_valueint z : 0 ≤ z < 2 ^ 31 → u32 (valueint z) = z.
Proof.
  intros. rewrite valueint_id by (unfold is_i32; lia). apply wrap_small. unfold in_range. lia.
Qed.

Lemma numbers_map l : Forall (λ z, 0 ≤ z < 2 ^ 31) l → numbers (JNumber <$> l) = l.
Proof. induction 1 as [|z l Hz Hl IH]; csimpl; [done|]. by rewrite IH, u32_valueint. Qed.

Lemma checksums_map l :
  Forall (λ c, (strlen (algo c) < 15)%nat ∧ length (hash c) = 32%nat ∧ is_bytes (hash c)) l →
  checksums_from_json (checksum_to_json <$> l) = Val l.
Proof.
  induction 1 as [|[a h] l (Ha & Hl & Hb) _ IH]; [done|]. rewrite fmap_cons.
  cbn [checksums_from_json]. rewrite IH. cbn [algo hash] in *.
  assert (checksum_from_json (checksum_to_json (Checksum a h)) = Val (Checksum a h)) as ->; [|done].
  unfold checksum_to_json, checksum_from_json. cbn [algo hash].
  change (read_str _ "algo") with (Some a). change (read_str _ "hash") with (Some (hash_hex (take 32 h))).
  cbv iota. rewrite (proj2 (Nat.ltb_lt _ _) Ha), take_ge by lia. rewrite <- Hl, parse_hash_hex by done.
  done.
Qed.

Lemma read_size_ok obj key z :
  get_nocase obj key = Some (JNumber z) → 0 ≤ z ≤ 2 ^ 53 → read_size obj key = Val z.
Proof.
  intros Hg Hz. unfold read_size. rewrite Hg.
  by rewrite (proj2 (Z.leb_le _ _)), (proj2 (Z.ltb_lt _ _)) by lia.
Qed.

(** Objects whose items are all printable at depth [d]. *)
Definition fields_ok (d : nat) (l : list (string * json)) : Prop :=
  Forall (λ kv, json_ok d kv.2) l.

Lemma fields_ok_cons d k j l : json_ok d j → fields_ok d l → fields_ok d ((k, j) :: l).
Proof. intros. by constructor. Qed.
Lemma fields_ok_app d l1 l2 : fields_ok d l1 → fields_ok d l2 → fields_ok d (l1 ++ l2).
Proof. intros. by apply Forall_app. Qed.
Lemma fields_ok_add_str d k o : fields_ok d (add_str k o).
Proof. destruct o; repeat constructor. by destruct d. Qed.
Lemma json_ok_string d s : json_ok d (JString s).
Proof. by destruct d. Qed.
Lemma json_ok_bool d s : json_ok d (JBool s).
Proof. by destruct d. Qed.
Lemma json_ok_number d z : 0 ≤ z ≤ 2 ^ 53 → json_ok d (JNumber z).
Proof. intros. destruct d; simpl; unfold is_exact; lia. Qed.
Lemma json_ok_object d l : fields_ok d l → json_ok (S d) (JObject l).
Proof. done. Qed.
Lemma json_ok_array d l : Forall (json_ok d) l → json_ok (S d) (JArray l).
Proof. done. Qed.

Ltac json_ok :=
  repeat match goal with
  | H : ?P |- ?P => exact H
  | |- json_ok _ (JObject _) => apply json_ok_object
  | |- json_ok _ (JString _) => apply json_ok_string
  | |- json_ok _ (JBool _) => apply json_ok_bool
  | |- json_ok _ (JNumber _) => apply json_ok_number; lia
  | |- fields_ok _ (_ ++ _) => apply fields_ok_app
  | |- fields_ok _ (add_str _ _) => apply fields_ok_add_str
  | |- fields_ok _ (_ :: _) => apply fields_ok_cons
  | |- fields_ok _ [] => apply Forall_nil_2
  end.

(** Computes the comparisons of keys that are literals. *)
Ltac nocase :=
  repeat match goal with
  | |- context [eq_nocase ?a ?b] =>
      let r := eval vm_compute in (eq_nocase a b) in change (eq_nocase a b) with r
  end; cbv iota.

Lemma versioning_other m key :
  eq_nocase key "versioning" = false → find_nocase (versioning_to_json m) key = None.
Proof.
  intros Hk. unfold versioning_to_json. destruct (versionId m); cbn [find_nocase]; by rewrite ?Hk.
Qed.

Section RoundTrip.
Context (m : xl_meta) (Hwf : xl_wf m).
Let dist := default [] (ec_distribution m).
Let cks := default [] (ec_checksums m).

Lemma erasure_roundtrip m0 :
  erasure_from_json (erasure_to_json m dist cks) m0 =
  Val (XlMeta (xl_version m0) (xl_format m0) (xl_bucket m0) (xl_object m0) (stat_size m0)
         (stat_modTime m0) (ec_algorithm m) (ec_data m) (ec_parity m) (ec_blockSize m)
         (ec_index m) (Some dist) (Some cks) None None None None None None None []
         None false false None None).
Proof using Hwf.
  destruct Hwf as [_ _ _ _ Ha Hd Hp Hb Hi [Hdl Hdi] [Hcl Hci] _ _].
  unfold erasure_from_json. set (er := erasure_to_json m dist cks).
  assert (read_u32 er "data" = ec_data m) as -> by (by apply (u32_valueint (ec_data m))).
  assert (read_u32 er "parity" = ec_parity m) as -> by (by apply (u32_valueint (ec_parity m))).
  assert (read_u32 er "index" = ec_index m) as -> by (by apply (u32_valueint (ec_index m))).
  rewrite (read_size_ok er "blockSize" (ec_blockSize m)) by (done || lia). cbn [c_bind].
  assert (read_chars er "algorithm" 15 = ec_algorithm m) as -> by (by apply (strncpy_short 15)).
  change (get_nocase er "distribution") with (Some (JArray (JNumber <$> dist))).
  change (get_nocase er "checksums") with (Some (JArray (checksum_to_json <$> cks))).
  cbv iota. rewrite numbers_map, fill_array_exact by done. cbn [c_bind].
  fold (chunk_count m). rewrite take_ge by (rewrite length_fmap; fold cks in Hcl; lia).
  rewrite checksums_map by done. cbn [c_bind]. by rewrite fill_array_exact by done.
Qed.

Lemma headers_roundtrip m0 :
  headers_from_json (Some (JObject (headers_to_json m))) m0 =
  Val (XlMeta (xl_version m0) (xl_format m0) (xl_bucket m0) (xl_object m0) (stat_size m0)
         (stat_modTime m0) (ec_algorithm m0) (ec_data m0) (ec_parity m0) (ec_blockSize m0)
         (ec_index m0) (ec_distribution m0) (ec_checksums m0)
         (content_type m) (etag m) (cache_control m) (content_disposition m)
         (content_encoding m) (content_language m) (expires m) (user_meta m)
         None false false None None).
Proof using Hwf.
  unfold headers_from_json, headers_to_json. set (users := _ <$> user_meta m).
  assert (user_from_json users = Val (user_meta m)) as Hus
    by apply user_from_json_users, (wf_user m Hwf).
  rewrite !user_from_json_app, !user_from_json_add_str, Hus by reflexivity. cbn [c_bind app].
  assert (∀ c key, tolower c ≠ "x"%char → find_nocase users (String c key) = None) as Hnone
    by (intros; by apply find_nocase_user).
  unfold read_str. f_equal. f_equal; cbn [get_nocase];
    rewrite !find_nocase_app, !find_nocase_add_str, Hnone by (vm_compute; congruence); nocase;
    repeat match goal with |- context [JString <$> ?o] => destruct o; cbn [fmap option_fmap option_map] end;
    done.
Qed.

Lemma versioning_roundtrip root :
  get_nocase root "versioning" = find_nocase (versioning_to_json m) "versioning" →
  ∀ m0 inl, versioning_from_json (get_nocase root "versioning") inl m0 =
  XlMeta (xl_version m0) (xl_format m0) (xl_bucket m0) (xl_object m0) (stat_size m0)
    (stat_modTime m0) (ec_algorithm m0) (ec_data m0) (ec_parity m0) (ec_blockSize m0)
    (ec_index m0) (ec_distribution m0) (ec_checksums m0) (content_type m0) (etag m0)
    (cache_control m0) (content_disposition m0) (content_encoding m0) (content_language m0)
    (expires m0) (user_meta m0) (versionId m) (isLatest m) (isDeleteMarker m)
    (deleteMarkerVersionId m) inl.
Proof using Hwf.
  intros -> m0 inl. unfold versioning_to_json. pose proof (wf_versioning m Hwf) as Hv.
  destruct (versionId m) as [v|].
  - unfold versioning_from_json. cbn [find_nocase]. nocase. cbn [default].
    by destruct (deleteMarkerVersionId m).
  - destruct Hv as (-> & -> & ->); done.
Qed.

Lemma xl_meta_tree_ok : ∃ root, xl_meta_tree m = Val root ∧ json_ok 4 root ∧
  xl_meta_of_tree root = Val (xl_normal m).
Proof using Hwf.
  pose proof Hwf as [Hv Hf Hs Hmt Ha Hd Hp Hb Hi [Hdl Hdi] [Hcl Hci] Hu Hver].
  unfold xl_meta_tree. rewrite !array_prefix_default by done. fold dist cks. cbn [c_bind].
  eexists. split; [reflexivity|]. split.
  - assert (json_ok 2 (JArray (JNumber <$> dist))).
    { apply json_ok_array, Forall_fmap. eapply Forall_impl; [exact Hdi|].
      intros z Hz. apply json_ok_number. simpl in Hz. lia. }
    assert (json_ok 2 (JArray (checksum_to_json <$> cks))).
    { apply json_ok_array, Forall_fmap, Forall_forall. intros c _.
      unfold compose, checksum_to_json. json_ok. }
    assert (fields_ok 2 ((λ kv, (user_key kv.1, JString kv.2)) <$> user_meta m)).
    { apply Forall_fmap, Forall_forall. intros kv _. apply json_ok_string. }
    unfold headers_to_json, erasure_to_json, versioning_to_json.
    destruct (versionId m); json_ok.
  - set (root := JObject _). unfold xl_meta_of_tree.
    assert (get_nocase root "erasure" = Some (erasure_to_json m dist cks)) as E1.
    { unfold root. cbn [get_nocase]. rewrite ?find_nocase_app, ?find_nocase_add_str. done. }
    assert (get_nocase root "meta" = Some (JObject (headers_to_json m))) as E2.
    { unfold root. cbn [get_nocase]. rewrite ?find_nocase_app, ?find_nocase_add_str. done. }
    assert (get_nocase root "versioning" = find_nocase (versioning_to_json m) "versioning") as E3.
    { unfold root. cbn [get_nocase]. rewrite ?find_nocase_app, ?find_nocase_add_str.
      cbn [find_nocase]. nocase. by destruct (find_nocase _ _). }
    assert (get_nocase root "stat" = Some (JObject [("size", JNumber (stat_size m));
      ("modTime", JString (stat_modTime m))])) as E4.
    { unfold root. cbn [get_nocase]. rewrite ?find_nocase_app, ?find_nocase_add_str. done. }
    assert (read_str root "bucket" = xl_bucket m ∧ read_str root "object" = xl_object m ∧
      read_str root "inline" = inline_data m) as (-> & -> & ->).
    { unfold root, read_str. cbn [get_nocase]. rewrite !find_nocase_app, !find_nocase_add_str.
      rewrite !versioning_other by reflexivity. cbn [find_nocase]. nocase.
      by destruct (xl_bucket m), (xl_object m), (inline_data m). }
    assert (read_u32 root "version" = xl_version m) as -> by (by apply (u32_valueint (xl_version m))).
    assert (read_chars root "format" 7 = xl_format m) as -> by (by apply (strncpy_short 7)).
    rewrite E4, (read_size_ok _ "size" (stat_size m)) by (done || lia). cbn [c_bind default].
    assert (read_chars (id (JObject [("size", JNumber (stat_size m));
      ("modTime", JString (stat_modTime m))])) "modTime" 31 = stat_modTime m) as -> by (by apply (strncpy_short 31)).
    rewrite E1, erasure_roundtrip, E2. cbn [c_bind]. rewrite headers_roundtrip. cbn [c_bind].
    rewrite (versioning_roundtrip root E3). reflexivity.
Qed.
End RoundTrip.

Section FileRoundTrip.
Context `{CJsonLaws}.

Lemma xl_meta_json_roundtrip m s :
  xl_wf m → buckets_xl_meta_to_json (Some m) = Val (Some s) →
  buckets_xl_meta_from_json (Some s) = Val (Some (xl_normal m)).
Proof.
  intros Hwf. destruct (xl_meta_tree_ok m Hwf) as (root & Ht & Hok & Hr).
  unfold buckets_xl_meta_to_json, buckets_xl_meta_from_json. rewrite Ht. cbn [c_bind].
  intros Hp%(inj Val). rewrite (cjson_parse_print root s); [|exists 4%nat; split; [lia|done]|done].
  by rewrite Hr.
Qed.

Lemma xl_meta_to_json_total m :
  xl_wf m → ∃ o, buckets_xl_meta_to_json (Some m) = Val o.
Proof.
  intros Hwf. destruct (xl_meta_tree_ok m Hwf) as (root & Ht & _). unfold buckets_xl_meta_to_json.
  rewrite Ht. by eexists.
Qed.

(** Writing one xl.meta: on success the file holds what reads back; no other file but the
    temporary one changes. *)
Lemma write_xl_meta_file env pid fs disk path m rc st :
  xl_wf m → buckets_write_xl_meta env pid fs disk path m = Val (rc, st) →
  let fs' := default fs (last st) in
  (rc = 0 → ∃ s, fs' !! meta_path disk path = Some s ∧
     buckets_xl_meta_from_json (Some s) = Val (Some (xl_normal m))) ∧
  ∀ q, q ≠ meta_path disk path → q ≠ temp_path (meta_path disk path) pid → fs' !! q = fs !! q.
Proof.
  intros Hwf. unfold buckets_write_xl_meta.
  destruct (xl_meta_to_json_total m Hwf) as [[s|] Hs]; rewrite Hs; cbn [c_bind]; [|by intros [= <- <-]].
  destruct (buckets_atomic_write _ _ _ _ _) as [err st'] eqn:Hw.
  intros Hst%(inj Val). apply pair_equal_spec in Hst as [<- <-].
  apply atomic_write_lookup in Hw as (Hall & Hl & Hin).
  unfold fs_after in Hl, Hin. cbn [snd] in Hl, Hin. cbv zeta. split.
  - case_decide as He; [|done]. intros _. exists s. split; [by apply Hl|].
    by apply xl_meta_json_roundtrip.
  - rewrite Forall_forall in Hall. by destruct (Hall _ Hin).
Qed.

(** When the system calls succeed, so does the write. *)
Lemma write_xl_meta_succeeds pid fs disk path m :
  xl_wf m → (∀ j, is_Some (cJSON_Print j)) →
  ∃ st, buckets_write_xl_meta write_env_ok pid fs disk path m = Val (0, st).
Proof.
  intros Hwf Hprint. unfold buckets_write_xl_meta, buckets_xl_meta_to_json.
  destruct (xl_meta_tree_ok m Hwf) as (root & -> & _). cbn [c_bind].
  destruct (Hprint root) as [s ->].
  unfold buckets_atomic_write, write_env_ok. cbn [we_ensure we_fopen we_fwrite we_fflush we_fsync
    we_rename we_syncdir negb]. rewrite Nat.eqb_refl. cbn [negb]. by eexists.
Qed.

Lemma read_xl_meta_file fs disk path s m :
  fs !! meta_path disk path = Some s → buckets_xl_meta_from_json (Some s) = Val (Some m) →
  buckets_read_xl_meta true fs disk path = Val (Some m).
Proof. intros Hf Hm. unfold buckets_read_xl_meta, buckets_atomic_read. by rewrite Hf. Qed.
End FileRoundTrip.

(** ** Properties *)

(** C35: the metadata of an object survives its JSON form: metadata whose fields fit is
    printed without undefined behaviour, and what is parsed back has every field as it was
    (the two arrays of an object without chunks come back as empty arrays). *)
Theorem xl_meta_roundtrip `{CJsonLaws} m s :
  xl_wf m → buckets_xl_meta_to_json (Some m) = Val (Some s) →
  buckets_xl_meta_from_json (Some s) = Val (Some (xl_normal m)).
Proof. apply xl_meta_json_roundtrip. Qed.

Import BitsCJson.

Definition example_meta : xl_meta :=
  XlMeta 1 "xl" (Some "b") (Some "o") 5 "2024-01-01T00:00:00Z" "ReedSolomon" 1 1 16 1
    (Some [1; 2]) (Some (replicate 2 (Checksum "BLAKE2b-256" (replicate 32 171))))
    (Some "text/plain") None None None None None None [("colour", "red")]
    (Some "v1") true false None None.

Lemma example_meta_wf : xl_wf example_meta.
Proof.
  assert (is_bytes (replicate 32 171)) by (apply Forall_replicate; unfold in_range; lia).
  split; cbn; try lia; try done; repeat first [split | constructor | lia | done].
Qed.

Lemma xl_meta_roundtrip_witness :
  ∃ s, buckets_xl_meta_from_json (Some s) = Val (Some (xl_normal example_meta)).
Proof.
  destruct (buckets_xl_meta_to_json (Some example_meta)) as [[s|]|] eqn:E; [|done..].
  exists s. apply xl_meta_roundtrip; [apply example_meta_wf|exact E].
Defined.

(** A key of more than 244 characters is cut when it is written. *)
Lemma user_key_truncated :
  ∃ k, (244 < strlen k)%nat ∧ user_key k = user_key (String.substring 0 244 k).
Proof.
  exists (String.string_of_list_ascii (replicate 300 "a"%char)). split; [vm_compute; lia|reflexivity].
Qed.
