(* ===== verification/Registry.v ===== *)
(** * Location records of the registry (src/src/registry/registry.c)

    The record that tells where an object version is stored, its JSON form, and the keys
    under which it is cached and stored. *)

From S2P Require Import Prelude CInt CString CSearch DiskIO Json XlMeta.
From Stdlib Require Import Ascii.

Local Open Scope c_scope.

Definition BUCKETS_REGISTRY_BUCKET : string := ".buckets-registry".
Definition BUCKETS_REGISTRY_MAX_DISKS : nat := 16.

(** The strings may be [NULL]; [loc_disk_idxs] is the whole array of 16. *)
Record object_location := Location {
  loc_bucket : option string;
  loc_object : option string;
  loc_version_id : option string;
  loc_pool_idx : Z;
  loc_set_idx : Z;
  loc_disk_count : Z;
  loc_disk_idxs : list Z;
  loc_generation : Z;
  loc_mod_time : Z;
  loc_size : Z
}.

Definition buckets_registry_location_new : object_location :=
  Location None None None 0 0 0 (replicate BUCKETS_REGISTRY_MAX_DISKS 0) 0 0 0.

(** ** JSON *)

(** [cJSON_AddStringToObject] adds nothing for [NULL]; reading past the array of indices is
    undefined. *)
Definition location_tree (l : object_location) : c_result json :=
  let n := Z.to_nat (loc_disk_count l) in
  if (n <=? length (loc_disk_idxs l))%nat then
    Val (JObject (
      add_str "bucket" (loc_bucket l) ++ add_str "object" (loc_object l) ++
      add_str "version_id" (loc_version_id l) ++
      [("pool_idx", JNumber (loc_pool_idx l)); ("set_idx", JNumber (loc_set_idx l));
       ("disk_count", JNumber (loc_disk_count l));
       ("disk_idxs", JArray (JNumber <$> take n (loc_disk_idxs l)));
       ("generation", JNumber (loc_generation l)); ("mod_time", JNumber (loc_mod_time l));
       ("size", JNumber (loc_size l))]))
  else Undef.

(** The numbers of an array into the first places of another; other items leave their place
    as it is. *)
Fixpoint store_idxs (items : list json) (idxs : list Z) : list Z :=
  match items, idxs with
  | JNumber z :: items, _ :: idxs => u32 (valueint z) :: store_idxs items idxs
  | _ :: items, i :: idxs => i :: store_idxs items idxs
  | _, _ => idxs
  end.

(** The integers come back as the library's [int], whatever their width in the record. *)
Definition location_of_tree (root : json) : object_location :=
  let str key := buckets_json_get_string (Some root) key (Some "") in
  let int key := buckets_json_get_int (Some root) key 0 in
  Location (str "bucket") (str "object") (str "version_id")
    (u32 (int "pool_idx")) (u32 (int "set_idx")) (u32 (int "disk_count"))
    (match get_nocase root "disk_idxs" with
     | Some (JArray l) => store_idxs l (loc_disk_idxs buckets_registry_location_new)
     | _ => loc_disk_idxs buckets_registry_location_new
     end)
    (u64 (int "generation")) (int "mod_time") (u64 (int "size")).

(** The second parser, used when directories are listed: the wide fields come from the
    double, whose conversion is undefined outside of the range of the field. *)
Definition read_wide (lo hi : Z) (root : json) (key : string) : c_result Z :=
  match get_nocase root key with
  | Some (JNumber z) => if (lo <=? z) && (z <? hi) then Val z else Undef
  | _ => Val 0
  end.

Definition location_of_tree_wide (root : json) : c_result object_location :=
  let* generation := read_wide 0 (2 ^ 64) root "generation" in
  let* mod_time := read_wide (- 2 ^ 63) (2 ^ 63) root "mod_time" in
  let* size := read_wide 0 (2 ^ 64) root "size" in
  Val (Location (read_str root "bucket") (read_str root "object") (read_str root "version_id")
         (read_u32 root "pool_idx") (read_u32 root "set_idx") (read_u32 root "disk_count")
         (match get_nocase root "disk_idxs" with
          | Some (JArray l) => store_idxs l (loc_disk_idxs buckets_registry_location_new)
          | _ => loc_disk_idxs buckets_registry_location_new
          end)
         generation mod_time size).

Section Serialization.
Context `{CJson}.

Definition buckets_registry_location_to_json (location : option object_location)
    : c_result (option string) :=
  match location with
  | None => Val None
  | Some l => let* root := location_tree l in Val (cJSON_PrintUnformatted root)
  end.

Definition buckets_registry_location_from_json (s : option string) : option object_location :=
  match s with
  | None => None
  | Some s => match cJSON_Parse s with Some root => Some (location_of_tree root) | None => None end
  end.

Definition parse_registry_json (s : string) : c_result (option object_location) :=
  match cJSON_Parse s with
  | Some root => let* l := location_of_tree_wide root in Val (Some l)
  | None => Val None
  end.
End Serialization.

Definition buckets_registry_location_clone (src : object_location) : object_location :=
  Location (loc_bucket src) (loc_object src) (loc_version_id src) (loc_pool_idx src)
    (loc_set_idx src) (loc_disk_count src) (loc_disk_idxs src) (loc_generation src)
    (loc_mod_time src) (loc_size src).

(** ** Keys *)

Definition buckets_registry_build_key (bucket object version_id : option string) : option string :=
  match bucket, object, version_id with
  | Some b, Some o, Some v => Some (b +:+ "/" +:+ o +:+ "/" +:+ v)
  | _, _, _ => None
  end.

(** The key is cut at its first two slashes. *)
Definition buckets_registry_parse_key (key : string) : option (string * string * string) :=
  match strchr key "/" with
  | None => None
  | Some (bucket, slash1) =>
      match strchr (str_drop 1 slash1) "/" with
      | None => None
      | Some (object, slash2) => Some (bucket, object, str_drop 1 slash2)
      end
  end.

(** The name of the stored record, cut to the 1023 characters of a buffer. *)
Definition storage_key (bucket object version_id : string) : string :=
  snprintf 1024 (bucket +:+ "/" +:+ object +:+ "/" +:+ version_id +:+ ".json").

(** ** Round trips *)

(** A record whose fields the [int] of the library can hold. *)
Record loc_fits (l : object_location) : Prop := LocFits {
  lf_bucket : is_Some (loc_bucket l);
  lf_object : is_Some (loc_object l);
  lf_version : is_Some (loc_version_id l);
  lf_pool : 0 ≤ loc_pool_idx l < 2 ^ 31;
  lf_set : 0 ≤ loc_set_idx l < 2 ^ 31;
  lf_count : 0 ≤ loc_disk_count l ≤ Z.of_nat BUCKETS_REGISTRY_MAX_DISKS;
  lf_length : length (loc_disk_idxs l) = BUCKETS_REGISTRY_MAX_DISKS;
  lf_idxs : Forall (λ z, 0 ≤ z < 2 ^ 31) (take (Z.to_nat (loc_disk_count l)) (loc_disk_idxs l));
  lf_rest : Forall (λ z, z = 0) (drop (Z.to_nat (loc_disk_count l)) (loc_disk_idxs l));
  lf_generation : 0 ≤ loc_generation l < 2 ^ 31;
  lf_mod_time : - 2 ^ 31 ≤ loc_mod_time l < 2 ^ 31;
  lf_size : 0 ≤ loc_size l < 2 ^ 31
}.

Lemma store_idxs_numbers l idxs :
  Forall (λ z, 0 ≤ z < 2 ^ 31) l → (length l ≤ length idxs)%nat →
  store_idxs (JNumber <$> l) idxs = l ++ drop (length l) idxs.
Proof.
  intros Hl. revert idxs. induction Hl as [|z l Hz Hl IH]; intros [|i idxs] Hlen; try done; [simpl in Hlen; lia|].
  rewrite fmap_cons. cbn [store_idxs length drop app]. rewrite u32_valueint by done. f_equal.
  apply IH. simpl in Hlen. lia.
Qed.

Lemma idxs_restored (n : nat) l :
  length l = BUCKETS_REGISTRY_MAX_DISKS → (n ≤ BUCKETS_REGISTRY_MAX_DISKS)%nat →
  Forall (λ z, 0 ≤ z < 2 ^ 31) (take n l) → Forall (λ z, z = 0) (drop n l) →
  store_idxs (JNumber <$> take n l) (replicate BUCKETS_REGISTRY_MAX_DISKS 0) = l.
Proof.
  intros Hl Hn Hidx Hrest.
  rewrite store_idxs_numbers by (done || rewrite length_take, length_replicate, Hl; lia).
  rewrite length_take, Hl, Nat.min_l, drop_replicate by done.
  replace (replicate (BUCKETS_REGISTRY_MAX_DISKS - n) 0) with (drop n l); [apply take_drop|].
  assert (length (drop n l) = (BUCKETS_REGISTRY_MAX_DISKS - n)%nat) as Hlen by (rewrite length_drop; lia).
  revert Hlen. generalize (BUCKETS_REGISTRY_MAX_DISKS - n)%nat. clear - Hrest.
  induction Hrest as [|z l' -> _ IH]; intros [|k] Hk; try done. cbn. f_equal. apply IH. by injection Hk.
Qed.

Lemma location_tree_ok l : loc_fits l →
  ∃ root, location_tree l = Val root ∧ json_ok 2 root ∧ location_of_tree root = l ∧
    location_of_tree_wide root = Val l.
Proof.
  intros [[b Hb] [o Ho] [v Hv] Hp Hs Hc Hlen Hidx Hrest Hg Ht Hz].
  assert (0 ≤ loc_disk_count l ≤ 16) as Hc' by exact Hc.
  unfold location_tree. rewrite (proj2 (Nat.leb_le _ _)) by lia. eexists. split; [reflexivity|].
  set (n := Z.to_nat (loc_disk_count l)) in *.
  assert (n ≤ BUCKETS_REGISTRY_MAX_DISKS)%nat as Hn by (unfold BUCKETS_REGISTRY_MAX_DISKS, n; lia).
  rewrite Hb, Ho, Hv. split; [|split].
  - cbn [json_ok add_str app]. repeat first
      [ apply Forall_cons_2 | apply Forall_nil_2 | exact I
      | cbn [json_ok snd]; unfold is_exact; lia ].
    cbn [json_ok snd]. apply Forall_fmap. eapply Forall_impl; [exact Hidx|].
    intros z Hz'. change (is_exact z). cbv beta in Hz'. unfold is_exact. lia.
  - unfold location_of_tree. set (root := JObject _).
    assert (get_nocase root "disk_idxs" = Some (JArray (JNumber <$> take n (loc_disk_idxs l)))) as ->
      by reflexivity.
    cbn -[store_idxs valueint u32 u64 n]. unfold u32, u64. rewrite !valueint_id by (unfold is_i32; lia).
    rewrite !wrap_small by (unfold in_range; lia).
    change [0; 0; 0; 0; 0; 0; 0; 0; 0; 0; 0; 0; 0; 0; 0; 0] with (replicate BUCKETS_REGISTRY_MAX_DISKS 0).
    rewrite idxs_restored by done. destruct l; cbn in *. congruence.
  - unfold location_of_tree_wide, read_wide, read_str, read_u32. set (root := JObject _).
    assert (get_nocase root "disk_idxs" = Some (JArray (JNumber <$> take n (loc_disk_idxs l)))) as ->
      by reflexivity.
    assert (get_nocase root "generation" = Some (JNumber (loc_generation l))) as -> by reflexivity.
    assert (get_nocase root "mod_time" = Some (JNumber (loc_mod_time l))) as -> by reflexivity.
    assert (get_nocase root "size" = Some (JNumber (loc_size l))) as -> by reflexivity.
    assert (get_nocase root "bucket" = Some (JString b)) as -> by reflexivity.
    assert (get_nocase root "object" = Some (JString o)) as -> by reflexivity.
    assert (get_nocase root "version_id" = Some (JString v)) as -> by reflexivity.
    assert (get_nocase root "pool_idx" = Some (JNumber (loc_pool_idx l))) as -> by reflexivity.
    assert (get_nocase root "set_idx" = Some (JNumber (loc_set_idx l))) as -> by reflexivity.
    assert (get_nocase root "disk_count" = Some (JNumber (loc_disk_count l))) as -> by reflexivity.
    rewrite !(proj2 (Z.leb_le _ _)), !(proj2 (Z.ltb_lt _ _)) by lia. cbn [andb c_bind].
    rewrite !u32_valueint by lia.
    cbn [buckets_registry_location_new loc_disk_idxs]. rewrite idxs_restored by done.
    destruct l; cbn in *. congruence.
Qed.

Lemma location_json_roundtrip `{CJsonLaws} l s : loc_fits l →
  buckets_registry_location_to_json (Some l) = Val (Some s) →
  buckets_registry_location_from_json (Some s) = Some l ∧ parse_registry_json s = Val (Some l).
Proof.
  intros Hfit. destruct (location_tree_ok l Hfit) as (root & Ht & Hok & Hr & Hw).
  unfold buckets_registry_location_to_json, buckets_registry_location_from_json, parse_registry_json.
  rewrite Ht. cbn [c_bind]. intros Hp%(inj Val).
  rewrite (cjson_parse_unformatted root s); [|exists 2%nat; split; [lia|done]|done].
  rewrite Hr, Hw. done.
Qed.

(** A key is taken apart again when neither the bucket nor the object has a slash. *)
Lemma registry_key_parse b o v :
  no_char "/" b → no_char "/" o →
  ∃ k, buckets_registry_build_key (Some b) (Some o) (Some v) = Some k ∧
    buckets_registry_parse_key k = Some (b, o, v).
Proof.
  intros Hb Ho. eexists. split; [reflexivity|]. unfold buckets_registry_parse_key.
  change ("/" +:+ o +:+ "/" +:+ v) with (String "/" (o +:+ String "/" v)).
  rewrite strchr_app by done. cbn [str_drop]. by rewrite strchr_app.
Qed.

(** An object key with a slash, which is common, is cut inside. *)
Lemma registry_key_cut_inside :
  ∃ k, buckets_registry_build_key (Some "b") (Some "photos/cat.jpg") (Some "latest") = Some k ∧
    buckets_registry_parse_key k = Some ("b", "photos", "cat.jpg/latest").
Proof. eexists. split; reflexivity. Qed.

(** The size of a large object does not survive. *)
Lemma registry_size_saturates l root :
  location_tree l = Val root → 2 ^ 31 ≤ loc_size l →
  loc_size (location_of_tree root) = 2 ^ 31 - 1.
Proof.
  unfold location_tree. destruct (_ <=? _)%nat; [|done]. intros [= <-] Hl.
  unfold location_of_tree. cbn [loc_size].
  assert (buckets_json_get_int (Some (JObject (
    add_str "bucket" (loc_bucket l) ++ add_str "object" (loc_object l) ++
    add_str "version_id" (loc_version_id l) ++
    [("pool_idx", JNumber (loc_pool_idx l)); ("set_idx", JNumber (loc_set_idx l));
     ("disk_count", JNumber (loc_disk_count l));
     ("disk_idxs", JArray (JNumber <$> take (Z.to_nat (loc_disk_count l)) (loc_disk_idxs l)));
     ("generation", JNumber (loc_generation l)); ("mod_time", JNumber (loc_mod_time l));
     ("size", JNumber (loc_size l))]))) "size" 0 = valueint (loc_size l)) as ->.
  { by destruct (loc_bucket l), (loc_object l), (loc_version_id l). }
  unfold valueint. rewrite Z.min_l, Z.max_r by lia. done.
Qed.

(** ** Properties *)

(** A location record survives its JSON form: when its numbers fit in an [int], it is
    printed without undefined behaviour and both parsers of the registry return it. *)
Theorem registry_location_roundtrip `{CJsonLaws} l :
  loc_fits l →
  ∃ o, buckets_registry_location_to_json (Some l) = Val o ∧
    ∀ s, o = Some s →
      buckets_registry_location_from_json (Some s) = Some l ∧ parse_registry_json s = Val (Some l).
Proof.
  intros Hfit. destruct (location_tree_ok l Hfit) as (root & Ht & _).
  exists (cJSON_PrintUnformatted root). unfold buckets_registry_location_to_json at 1. rewrite Ht.
  split; [done|]. intros s Hs. apply location_json_roundtrip; [done|].
  unfold buckets_registry_location_to_json. rewrite Ht. cbn [c_bind]. by rewrite Hs.
Qed.

Import BitsCJson.

Definition example_location : object_location :=
  Location (Some "b") (Some "o") (Some "latest") 0 2 3 ([0; 1; 2] ++ replicate 13 0) 1 1700000000 5.

Lemma registry_location_roundtrip_witness :
  ∃ s, buckets_registry_location_from_json (Some s) = Some example_location.
Proof.
  destruct (registry_location_roundtrip example_location) as (o & Ho & Hr).
  - split; cbn; try lia; try (by eexists); repeat constructor; lia.
  - destruct o as [s|]; [exists s; by apply Hr|]. discriminate Ho.
Defined.
