(* ===== verification/RegistryCache.v ===== *)
(** * Cache of the location registry (src/src/registry/registry.c)

    The cache of locations, over the structure of HashLru.v: an entry lives until a fixed
    time after it was put, a hit moves it to the front. It implements a list of (key, location,
    expiry) triples, most recently used first. *)

From S2P Require Import Prelude CInt CString XXHash LinkedList HashLru HashLruRep DiskIO Json XlMeta.
From S2P Require Import Registry.

Local Open Scope c_scope.

Abbreviation heap_t := (gmap addr (cache_entry object_location)).
Abbreviation cache_state := (heap_t * hash_lru)%type.

(** ** Operations *)

(** The remainder fits the 32 bits it is converted to. *)
Definition cache_hash (key : string) (bucket_count : nat) : nat := cache_key_hash key bucket_count.

(** About a tenth as many slots as entries, an odd number. *)
Definition bucket_count_of (max_entries : Z) : nat := Z.to_nat (Z.lor (max_entries / 10) 1).

Definition cache_create (max_entries ttl : Z) : cache_state :=
  (∅, HashLru (replicate (bucket_count_of max_entries) None) None None 0 max_entries ttl 0 0 0).

(** The list operations are those of the metadata cache, to the letter. *)
Definition cache_lru_remove (s : cache_state) (entry : addr) : c_result cache_state :=
  lru_remove s entry.

Definition cache_lru_add_head (s : cache_state) (entry : addr) : c_result cache_state :=
  lru_push_front s entry.

Definition cache_evict_lru (s : cache_state) : c_result cache_state := evict_lru_entry s.

(** The read-locked section of [get] finds the entry and counts a hit. *)
Definition cache_find (s : cache_state) (key : string) (now : Z)
    : c_result (option (addr * object_location) * cache_state) :=
  let (h, c) := s in
  let miss := with_stats (hits c) (add64 (misses c) 1) (evictions c) c in
  let* found := search_chain s (cache_hash key (table_size c)) (key_is key) in
  match found with
  | None => Val (None, (h, miss))
  | Some (_, a) =>
      let* e := load h a in
      if ce_time e <? now then Val (None, (h, miss))
      else Val (Some (a, buckets_registry_location_clone (ce_value e)),
                (h, with_stats (add64 (hits c) 1) (misses c) (evictions c) c))
  end.

(** The write-locked section moves it to the front. *)
Definition cache_promote (s : cache_state) (entry : addr) : c_result cache_state :=
  let* s := cache_lru_remove s entry in cache_lru_add_head s entry.

(** The whole call when no other thread comes between its sections. *)
Definition cache_get (s : cache_state) (key : string) (now : Z)
    : c_result (option object_location * cache_state) :=
  let* r := cache_find s key now in
  match r with
  | (Some (a, location), s) => let* s := cache_promote s a in Val (Some location, s)
  | (None, s) => Val (None, s)
  end.

Section Put.
Context (malloc : heap_t → addr).

Definition cache_put (s : cache_state) (key : string) (location : object_location) (now : Z)
    : c_result (Z * cache_state) :=
  let slot := cache_hash key (table_size s.2) in
  let expiry := now + ttl_seconds s.2 in
  let* found := search_chain s slot (key_is key) in
  let* s :=
    match found with
    | Some (_, a) =>
        let* h := store s.1 a (with_value (buckets_registry_location_clone location)) in
        let* h := store h a (with_time expiry) in
        cache_promote (h, s.2) a
    | None => cache_add malloc s slot key (buckets_registry_location_clone location) expiry
    end in
  Val (0, s).
End Put.

Definition cache_invalidate (s : cache_state) (key : string) : c_result (Z * cache_state) :=
  HashLru.cache_invalidate s key.

(** The statistics stay. *)
Definition cache_clear (s : cache_state) : c_result cache_state :=
  let (h, c) := s in
  let* h := free_table h (hash_table c) in
  Val (h, with_count 0 (with_head None (with_tail None
            (with_table (replicate (table_size c) None) c)))).

(** What is left allocated. *)
Definition cache_destroy (s : option cache_state) : c_result heap_t :=
  match s with None => Val ∅ | Some s => let* s := cache_clear s in Val s.1 end.

(** ** The specification *)

Definition expiring_get (k : string) (now : Z) (S : lru object_location)
    : option object_location * lru object_location :=
  match assoc k (bindings S) with
  | Some (l, expiry) =>
      if expiry <? now
      then (None, Lru (bindings S) (n_hits S) (n_misses S + 1) (n_evictions S))
      else (Some l,
            Lru ((k, l, expiry) :: others k (bindings S)) (n_hits S + 1) (n_misses S) (n_evictions S))
  | None => (None, Lru (bindings S) (n_hits S) (n_misses S + 1) (n_evictions S))
  end.

Definition lru_clear (S : lru object_location) : lru object_location :=
  Lru [] (n_hits S) (n_misses S) (n_evictions S).

(** ** Refinement *)

Lemma clone_location l : buckets_registry_location_clone l = l.
Proof. by destruct l. Qed.

Lemma create_represented max ttl :
  0 < max < 2 ^ 32 → represented max ttl (cache_create max ttl) lru_empty.
Proof.
  intros Hmax. apply empty_represented; [|done]. unfold bucket_count_of.
  assert (0 < Z.lor (max / 10) 1) as H; [|lia].
  pose proof (Z.div_pos max 10 ltac:(lia) ltac:(lia)).
  assert (0 ≤ Z.lor (max / 10) 1) by (apply Z.lor_nonneg; lia).
  assert (Z.lor (max / 10) 1 ≠ 0) by (intros [_ ?]%Z.lor_eq_0_iff; done). lia.
Qed.

Lemma get_represented max ttl s S k now :
  represented max ttl s S →
  ∃ s', cache_get s k now = Val ((expiring_get k now S).1, s') ∧
    represented max ttl s' (expiring_get k now S).2.
Proof.
  intros (l & chs & Hr & Hb & Hh & Hm & He & Hmax & Httl). destruct s as [h c]. cbn [fst snd] in *.
  unfold cache_get, cache_find, expiring_get, cache_hash. rewrite <-Hb.
  destruct (search_key_spec _ _ _ _ k Hr)
    as [(-> & _ & ->)|(a & e & ch & -> & Hch & Hach & Ha & Hae & Hk & ->)]; cbn [c_bind].
  { eexists. split; [done|]. exists l, chs. split; [by apply rep_stats|]. simpl.
    by rewrite Hm, u64_succ. }
  rewrite (load_Val _ _ _ Hae). cbn [c_bind]. destruct (ce_time e <? now); cbn [c_bind].
  { eexists. split; [done|]. exists l, chs. split; [by apply rep_stats|]. simpl.
    by rewrite Hm, u64_succ. }
  set (c1 := with_stats _ _ _ c).
  destruct (lru_move_rep h c1 l chs a) as (h' & t & Hmv & Hs & Hr'); [by apply rep_stats|done|].
  unfold cache_promote, cache_lru_remove, cache_lru_add_head. rewrite Hmv. cbn [c_bind].
  rewrite clone_location. eexists. split; [done|]. exists (a :: rm a l), chs. split; [done|].
  cbn [fst snd]. destruct (same_content_lookup _ _ _ _ (same_core_content _ _ Hs) Hae) as (e1 & He1 & Hc).
  rewrite (abs_front h h' l a e e1); [|apply (rep_keys _ _ _ _ Hr)|done|done|intros b _; by apply same_core_content].
  rewrite Hc. simpl. rewrite Hh, u64_succ. unfold content. by rewrite Hk.
Qed.

Lemma put_represented malloc max ttl s S k loc now :
  (∀ h : heap_t, h !! malloc h = None) → represented max ttl s S →
  ∃ s', cache_put malloc s k loc now = Val (0, s') ∧
    represented max ttl s' (lru_put max k loc (now + ttl) S).
Proof.
  intros Hfresh HR. pose proof HR as (l & chs & Hr & Hb & Hh & Hm & He & Hmax & Httl).
  unfold cache_put, cache_hash. rewrite clone_location, Httl.
  assert (s = (s.1, s.2)) as Es by (by destruct s).
  destruct (search_key_spec _ _ _ _ k Hr)
    as [(Hs & _)|(a & e & ch & Hs & Hch & Hach & Ha & Hae & Hk & Has)]; rewrite <-Es in Hs.
  - rewrite Hs. cbn [c_bind].
    destruct (add_represented malloc _ _ _ _ k loc (now + ttl) Hfresh HR Hs) as (s' & -> & HR').
    by exists s'.
  - rewrite Hs. cbn [c_bind]. unfold lru_put. rewrite <-Hb, Has.
    rewrite store_Val by eauto. cbn [c_bind]. rewrite store_Val by (apply alter_is_Some; eauto).
    cbn [c_bind]. pose proof (rep_update _ _ _ _ a loc (now + ttl) Hr) as Hr2.
    destruct (lru_move_rep _ _ _ _ a Hr2 Ha) as (h' & t & Hmv & Hsc & Hr').
    unfold cache_promote, cache_lru_remove, cache_lru_add_head. rewrite Hmv. cbn [c_bind].
    eexists. split; [done|]. exists (a :: rm a l), chs. split; [done|]. cbn [fst snd].
    rewrite (abs_update _ _ _ _ _ _ _ _ _ Hr Hae Hsc), <-Hk. by split_and!.
Qed.

Lemma clear_represented max ttl s S :
  represented max ttl s S →
  ∃ s', cache_clear s = Val s' ∧ represented max ttl s' (lru_clear S) ∧ s'.1 = ∅.
Proof.
  intros (l & chs & Hr & Hb & Hh & Hm & He & Hmax & Httl). destruct s as [h c]. cbn [fst snd] in *.
  unfold cache_clear. rewrite (free_table_rep _ _ _ _ Hr). cbn [c_bind]. eexists. split; [done|].
  split; [|done]. pose proof (rep_width _ _ _ _ Hr) as Hw.
  destruct (empty_represented (V := object_location) (table_size c) max ttl) as (l0 & chs0 & Hr0 & Hb0 & _).
  - rewrite (proj1 (slot_in_table _ _ _ _ "" Hr)). apply Hr.
  - by rewrite <-Hmax.
  - exists l0, chs0. cbn [fst snd] in *. split; [|by split_and!].
    destruct Hr0. split; try done; simpl in *; by rewrite ?Hmax.
Qed.
