(* ===== verification/RegistryStore.v ===== *)
(** * The location registry (src/src/registry/registry.c)

    Locations are stored as objects of a bucket of their own and cached. The object store is
    the class [ObjectStore]; its laws say what a write, a read and a deletion do to the
    contents of the bucket, a failed write included, which may or may not have taken effect.
    The cache never changes what a lookup answers, except for a key whose last record failed. *)

From S2P Require Import Prelude CInt CString XXHash LinkedList HashLru HashLruRep DiskIO Json XlMeta.
From S2P Require Import CSearch Registry RegistryCache.

Local Open Scope c_scope.

(** ** The object store *)

Class ObjectStore := {
  os : Type;
  os_env : Type;
  os_put : os_env → string → string → list Z → option string → os → c_result (Z * os);
  os_get : os_env → string → string → os → c_result (option (list Z));
  os_delete : os_env → string → string → os → c_result (Z * os)
}.

(** The names the laws speak of, the data the store takes, the contents of the registry's
    bucket, the environments in which reading succeeds. *)
Class ObjectStoreLaws `{ObjectStore} := {
  os_inv : os → Prop;
  os_known : string → Prop;
  os_accepts : list Z → Prop;
  os_contents : os → string → option (list Z);
  os_reads : os_env → Prop;
  os_put_ok env key data s :
    os_inv s → os_known key → os_accepts data →
    ∃ rc s', os_put env BUCKETS_REGISTRY_BUCKET key data (Some "application/json") s = Val (rc, s') ∧
      os_inv s' ∧ (rc = 0 → os_contents s' key = Some data) ∧
      ∀ key', os_known key' → key' ≠ key → os_contents s' key' = os_contents s key';
  os_get_ok env key s :
    os_inv s → os_known key →
    ∃ r, os_get env BUCKETS_REGISTRY_BUCKET key s = Val r ∧ (r = None ∨ r = os_contents s key) ∧
      (os_reads env → r = os_contents s key);
  os_delete_ok env key s :
    os_inv s → os_known key →
    ∃ rc s', os_delete env BUCKETS_REGISTRY_BUCKET key s = Val (rc, s') ∧ os_inv s' ∧
      ∀ key', os_known key' → key' ≠ key → os_contents s' key' = os_contents s key'
}.

(** ** State *)

Record registry_config := RegistryConfig {
  cache_size : Z;
  cache_ttl_seconds : Z;
  enable_cache : bool
}.

Record registry := Registry {
  rg_config : registry_config;
  rg_cache : option cache_state;
  rg_initialized : bool
}.

Definition BUCKETS_REGISTRY_CACHE_SIZE : Z := 1000000.
Definition BUCKETS_REGISTRY_CACHE_TTL : Z := 300.

(** The zeroed global. *)
Definition g_registry : registry := Registry (RegistryConfig 0 0 false) None false.

Definition buckets_registry_init (config : option registry_config) (g : registry) : Z * registry :=
  if rg_initialized g then (0, g)
  else
    let config :=
      default (RegistryConfig BUCKETS_REGISTRY_CACHE_SIZE BUCKETS_REGISTRY_CACHE_TTL true) config in
    (0, Registry config
          (if enable_cache config then Some (cache_create (cache_size config) (cache_ttl_seconds config))
           else rg_cache g) true).

(** What the cache leaves allocated, and the registry. *)
Definition buckets_registry_cleanup (g : registry) : c_result (heap_t * registry) :=
  if rg_initialized g then
    let* h := cache_destroy (rg_cache g) in Val (h, Registry (rg_config g) None false)
  else Val (∅, g).

Definition buckets_registry_get_config (g : registry) : registry_config := rg_config g.

Definition with_cache (c : option cache_state) (g : registry) : registry :=
  Registry (rg_config g) c (rg_initialized g).

Definition version_or_latest (version_id : option string) : string := default "latest" version_id.

Section Registry.
Context `{CJson} `{ObjectStore} (malloc : heap_t → addr).

(** [cache_put] when there is a cache. *)
Definition cache_location (g : registry) (key : string) (l : object_location) (now : Z)
    : c_result registry :=
  match rg_cache g with
  | None => Val g
  | Some c => let* r := cache_put malloc c key l now in Val (with_cache (Some r.2) g)
  end.

(** ** Operations *)

Definition buckets_registry_record (env : os_env) (location : option object_location) (now : Z)
    (g : registry) (s : os) : c_result (Z * (registry * os)) :=
  if negb (rg_initialized g) then Val (-1, (g, s))
  else
    match location with
    | Some (Location (Some b) (Some o) (Some v) _ _ _ _ _ _ _ as l) =>
        let* json := buckets_registry_location_to_json (Some l) in
        match json with
        | None => Val (-1, (g, s))
        | Some json =>
            let* r := os_put env BUCKETS_REGISTRY_BUCKET (storage_key b o v) (str_bytes json)
                        (Some "application/json") s in
            let (result, s) := (r : Z * os) in
            if result =? 0 then
              let* g := cache_location g (b +:+ "/" +:+ o +:+ "/" +:+ v) l now in
              Val (0, (g, s))
            else Val (-1, (g, s))
        end
    | _ => Val (-1, (g, s))
    end.

(** A cached location, or the stored one, which is then cached. The clock is read by each
    call of the cache. *)
Definition buckets_registry_lookup (env : os_env) (bucket object version_id : option string)
    (now1 now2 : Z) (g : registry) (s : os)
    : c_result (Z * option object_location * registry) :=
  if negb (rg_initialized g) then Val (-1, None, g)
  else
    match bucket, object with
    | Some b, Some o =>
        let v := version_or_latest version_id in
        let key := b +:+ "/" +:+ o +:+ "/" +:+ v in
        let* r :=
          match rg_cache g with
          | None => Val (None, g)
          | Some c => let* r := cache_get c key now1 in Val (r.1, with_cache (Some r.2) g)
          end in
        match (r : _ * registry) with
        | (Some l, g) => Val (0, Some l, g)
        | (None, g) =>
            let* data := os_get env BUCKETS_REGISTRY_BUCKET (storage_key b o v) s in
            match data with
            | None => Val (-1, None, g)
            | Some data =>
                match buckets_registry_location_from_json (Some (bytes_str data)) with
                | None => Val (-1, None, g)
                | Some l => let* g := cache_location g key l now2 in Val (0, Some l, g)
                end
            end
        end
    | _, _ => Val (-1, None, g)
    end.

Definition invalidate_key (g : registry) (key : string) : c_result registry :=
  match rg_cache g with
  | None => Val g
  | Some c => let* r := cache_invalidate c key in Val (with_cache (Some r.2) g)
  end.

(** A failure to delete is only logged. *)
Definition buckets_registry_delete (env : os_env) (bucket object version_id : option string)
    (g : registry) (s : os) : c_result (Z * (registry * os)) :=
  if negb (rg_initialized g) then Val (-1, (g, s))
  else
    match bucket, object with
    | Some b, Some o =>
        let v := version_or_latest version_id in
        let* r := os_delete env BUCKETS_REGISTRY_BUCKET (storage_key b o v) s in
        let* g := invalidate_key g (b +:+ "/" +:+ o +:+ "/" +:+ v) in
        Val (0, (g, r.2))
    | _, _ => Val (-1, (g, s))
    end.

Definition buckets_registry_cache_invalidate (bucket object version_id : option string) (g : registry)
    : c_result (Z * registry) :=
  match rg_initialized g, rg_cache g with
  | true, Some c =>
      match buckets_registry_build_key bucket object (Some (version_or_latest version_id)) with
      | None => Val (-1, g)
      | Some key => let* r := cache_invalidate c key in Val (r.1, with_cache (Some r.2) g)
      end
  | _, _ => Val (-1, g)
  end.

Definition buckets_registry_cache_clear (g : registry) : c_result registry :=
  match rg_cache g with
  | None => Val g
  | Some c => let* c := cache_clear c in Val (with_cache (Some c) g)
  end.

(** Hits, misses, evictions and entries; the floating-point rate is left out. *)
Definition buckets_registry_get_stats (g : registry) : Z * option (Z * Z * Z * Z) :=
  match rg_initialized g, rg_cache g with
  | true, Some (_, c) => (0, Some (hits c, misses c, evictions c, count c))
  | _, _ => (-1, None)
  end.

(** The number of records that were written; item [i] meets the environment and the time
    [envs i]. *)
Fixpoint record_all (envs : nat → os_env * Z) (i : nat) (locations : list object_location)
    (g : registry) (s : os) : c_result (Z * (registry * os)) :=
  match locations with
  | [] => Val (0, (g, s))
  | l :: locations =>
      let* r := buckets_registry_record (envs i).1 (Some l) (envs i).2 g s in
      let* rs := record_all envs (S i) locations r.2.1 r.2.2 in
      Val ((if r.1 =? 0 then rs.1 + 1 else rs.1), rs.2)
  end.

Definition buckets_registry_record_batch (envs : nat → os_env * Z)
    (locations : option (list object_location)) (g : registry) (s : os)
    : c_result (Z * (registry * os)) :=
  match locations with
  | Some (_ :: _ as l) =>
      if rg_initialized g then record_all envs 0 l g s else Val (-1, (g, s))
  | _ => Val (-1, (g, s))
  end.

Fixpoint lookup_all (envs : nat → os_env * Z) (i : nat)
    (keys : list (option string * option string * option string)) (g : registry) (s : os)
    : c_result (Z * list (option object_location) * registry) :=
  match keys with
  | [] => Val (0, [], g)
  | (b, o, v) :: keys =>
      let* r := buckets_registry_lookup (envs i).1 b o v (envs i).2 (envs i).2 g s in
      let* rs := lookup_all envs (S i) keys r.2 s in
      Val ((if r.1.1 =? 0 then rs.1.1 + 1 else rs.1.1),
           (if r.1.1 =? 0 then r.1.2 else None) :: rs.1.2, rs.2)
  end.

Definition buckets_registry_lookup_batch (envs : nat → os_env * Z)
    (keys : option (list (option string * option string * option string))) (g : registry) (s : os)
    : c_result (Z * option (list (option object_location)) * registry) :=
  match keys with
  | Some (_ :: _ as l) =>
      if rg_initialized g then
        let* r := lookup_all envs 0 l g s in Val (r.1.1, Some r.1.2, r.2)
      else Val (-1, None, g)
  | _ => Val (-1, None, g)
  end.

(** The cached location is dropped, then the new one recorded. Without a cache the first step
    follows a NULL pointer. *)
Definition buckets_registry_update (env : os_env) (bucket object version_id : option string)
    (location : option object_location) (now : Z) (g : registry) (s : os)
    : c_result (Z * (registry * os)) :=
  match rg_initialized g, bucket, object, version_id, location with
  | true, Some b, Some o, Some v, Some l =>
      match rg_cache g with
      | None => Undef
      | Some c =>
          let* r := cache_invalidate c (b +:+ "/" +:+ o +:+ "/" +:+ v) in
          buckets_registry_record env (Some l) now (with_cache (Some r.2) g) s
      end
  | _, _, _, _, _ => Val (-1, (g, s))
  end.

(** ** Calls *)

Inductive registry_call :=
  | RRecord (env : os_env) (l : object_location) (now : Z)
  | RLookup (env : os_env) (bucket object : string) (version : option string) (now1 now2 : Z)
  | RDelete (env : os_env) (bucket object : string) (version : option string)
  | RUpdate (env : os_env) (bucket object version : string) (l : object_location) (now : Z)
  | RInvalidate (bucket object : string) (version : option string)
  | RClear.

Definition registry_step (call : registry_call) (st : registry * os)
    : c_result (Z * option object_location * (registry * os)) :=
  let (g, s) := st in
  match call with
  | RRecord env l now =>
      let* r := buckets_registry_record env (Some l) now g s in Val (r.1, None, r.2)
  | RLookup env b o v now1 now2 =>
      let* r := buckets_registry_lookup env (Some b) (Some o) v now1 now2 g s in
      Val (r.1, (r.2, s))
  | RDelete env b o v =>
      let* r := buckets_registry_delete env (Some b) (Some o) v g s in Val (r.1, None, r.2)
  | RUpdate env b o v l now =>
      let* r := buckets_registry_update env (Some b) (Some o) (Some v) (Some l) now g s in
      Val (r.1, None, r.2)
  | RInvalidate b o v =>
      let* r := buckets_registry_cache_invalidate (Some b) (Some o) v g in
      Val (r.1, None, (r.2, s))
  | RClear => let* g := buckets_registry_cache_clear g in Val (0, None, (g, s))
  end.

(** The key of a location and of the arguments of a call. *)
Definition key_of (bucket object version : string) : string :=
  bucket +:+ "/" +:+ object +:+ "/" +:+ version.

Definition location_key (l : object_location) : string :=
  key_of (default "" (loc_bucket l)) (default "" (loc_object l)) (default "" (loc_version_id l)).

(** The keys whose last record failed: the store may hold the old location or the new one. *)
Definition doubtful (call : registry_call) (rc : Z) (D : gset string) : gset string :=
  match call with
  | RRecord _ l _ | RUpdate _ _ _ _ l _ =>
      if rc =? 0 then D ∖ {[location_key l]} else D ∪ {[location_key l]}
  | _ => D
  end.

Fixpoint registry_run (calls : list registry_call) (D : gset string) (st : registry * os)
    : c_result (list Z * gset string * (registry * os)) :=
  match calls with
  | [] => Val ([], D, st)
  | call :: calls =>
      let* r := registry_step call st in
      let* rs := registry_run calls (doubtful call r.1.1 D) r.2 in
      Val (r.1.1 :: rs.1.1, rs.1.2, rs.2)
  end.
End Registry.


(** ** The cache agrees with the store *)

Section Coherence.
Context `{CJson} `{ObjectStoreLaws} (max ttl : Z).

(** The stored record of a key is that location. *)
Definition stored (s : os) (k : string) (l : object_location) : Prop :=
  ∃ data, os_contents s (k +:+ ".json") = Some data ∧
    buckets_registry_location_from_json (Some (bytes_str data)) = Some l.

(** A key that is not cut off when it names the record. *)
Definition good_key (k : string) : Prop :=
  os_known (k +:+ ".json") ∧ (strlen k + 5 < Z.to_nat 1024)%nat.

Record coherent (D : gset string) (g : registry) (s : os) : Prop := Coherent {
  co_init : rg_initialized g = true;
  co_inv : os_inv s;
  co_cache : ∃ c S, rg_cache g = Some c ∧ represented max ttl c S ∧
    ∀ k l t, (k, l, t) ∈ bindings S → good_key k ∧ (k ∉ D → stored s k l)
}.

Lemma stored_unique s k l l' : stored s k l → stored s k l' → l = l'.
Proof using Type. intros (d & Hd & Hl) (d' & Hd' & Hl'). congruence. Qed.

Lemma storage_key_good b o v :
  good_key (key_of b o v) → storage_key b o v = key_of b o v +:+ ".json".
Proof using Type.
  intros [_ Hk]. unfold storage_key, key_of in *. rewrite snprintf_short.
  - by rewrite !string_app_assoc.
  - rewrite !strlen_app in *. cbn in *. lia.
Qed.

Lemma json_name_inj k k' : k +:+ ".json" = k' +:+ ".json" → k = k'.
Proof using Type. apply string_app_inj_r. Qed.

Lemma coherent_mono D D' g s : D ⊆ D' → coherent D g s → coherent D' g s.
Proof using Type.
  intros HD [Hi Hs (c & S & Hc & Hr & Hb)]. split; [done..|]. exists c, S. split_and!; [done..|].
  intros k l t Hk. destruct (Hb _ _ _ Hk) as [Hg Hst]. split; [done|]. intros Hn. apply Hst. set_solver.
Qed.

(** A change of one record. *)
Lemma coherent_write D g s s' k :
  coherent D g s → os_inv s' →
  (∀ k', good_key k' → k' ≠ k → os_contents s' (k' +:+ ".json") = os_contents s (k' +:+ ".json")) →
  coherent (D ∪ {[k]}) g s'.
Proof using Type.
  intros [Hi Hs (c & S & Hc & Hr & Hb)] Hs' Hf. split; [done..|]. exists c, S. split_and!; [done..|].
  intros k' l t Hk. destruct (Hb _ _ _ Hk) as [Hg Hst]. split; [done|]. intros Hn.
  destruct (Hst ltac:(set_solver)) as (d & Hd & Hl). exists d. split; [|done].
  rewrite Hf; [done|done|set_solver].
Qed.

Lemma elem_of_others {V} k (L : list (string * V * Z)) x : x ∈ others k L → x ∈ L ∧ x.1.1 ≠ k.
Proof using Type. intros [? ?]%list_elem_of_filter. done. Qed.

Lemma assoc_Some_elem {V} k (L : list (string * V * Z)) v t : assoc k L = Some (v, t) → (k, v, t) ∈ L.
Proof using Type.
  induction L as [|[[k' v'] t'] L IH]; simpl; [done|]. case_decide.
  - intros [= -> ->]. subst. set_solver.
  - intros E%IH. set_solver.
Qed.

Lemma assoc_None_elem {V} k (L : list (string * V * Z)) x : assoc k L = None → x ∈ L → x.1.1 ≠ k.
Proof using Type.
  induction L as [|[[k' v'] t'] L IH]; simpl; intros Hn Hx; [by apply elem_of_nil in Hx|].
  case_decide; [done|]. apply elem_of_cons in Hx as [->|Hx]; auto.
Qed.

Lemma lru_put_elem {V} k (v : V) now S x :
  x ∈ bindings (lru_put max k v now S) → x = (k, v, now) ∨ (x ∈ bindings S ∧ x.1.1 ≠ k).
Proof using Type.
  unfold lru_put. destruct (assoc k (bindings S)) as [p|] eqn:Ha.
  - intros [->|Hx%elem_of_others]%elem_of_cons; [by left|by right].
  - destruct (max <=? _); intros [->|Hx]%elem_of_cons; try (by left); right.
    + apply elem_of_take in Hx as (i & Hx & _). apply list_elem_of_lookup_2 in Hx.
      split; [done|by eapply assoc_None_elem].
    + split; [done|by eapply assoc_None_elem].
Qed.

Lemma invalidate_coherent D g s k :
  coherent (D ∪ {[k]}) g s →
  ∃ c rc c', rg_cache g = Some c ∧ cache_invalidate c k = Val (rc, c') ∧
    coherent D (with_cache (Some c') g) s.
Proof using Type.
  intros [Hi Hs (c & S & Hc & Hr & Hb)]. unfold cache_invalidate.
  destruct (invalidate_represented _ _ _ _ k Hr) as (c' & Hinv & Hr').
  eexists c, _, c'. split_and!; [done..|]. split; [done..|]. eexists _, _. split_and!; [done..|].
  intros k' l' t' Hx. assert ((k', l', t') ∈ bindings S ∧ k' ≠ k) as [Hx' Hne].
  { unfold lru_invalidate in Hx. destruct (assoc k (bindings S)) eqn:Ha.
    - by apply elem_of_others in Hx.
    - split; [done|]. by apply (assoc_None_elem _ _ _ Ha Hx). }
  destruct (Hb _ _ _ Hx') as [Hg' Hst']. split; [done|]. intros Hn. apply Hst'. set_solver.
Qed.
Lemma clear_coherent D g s :
  coherent D g s → ∃ g', buckets_registry_cache_clear g = Val g' ∧ coherent D g' s.
Proof using Type.
  intros [Hi Hs (c & S & Hc & Hr & Hb)]. unfold buckets_registry_cache_clear. rewrite Hc.
  destruct (clear_represented _ _ _ _ Hr) as (c' & -> & Hr' & _). cbn [c_bind].
  eexists. split; [done|]. split; [done..|]. eexists _, _. split_and!; [done..|].
  intros k l t []%elem_of_nil.
Qed.

(** What the cache answers for a key is a binding of the specification, which stay the same. *)
Lemma cache_get_coherent D g s k now :
  coherent D g s →
  ∃ c o c', rg_cache g = Some c ∧ cache_get c k now = Val (o, c') ∧
    coherent D (with_cache (Some c') g) s ∧ ∀ l, o = Some l → k ∉ D → stored s k l.
Proof using Type.
  intros [Hi Hs (c & S & Hc & Hr & Hb)].
  destruct (get_represented _ _ _ _ k now Hr) as (c' & Hget & Hr').
  eexists c, _, c'. split_and!; [done..| |].
  - split; [done..|]. eexists _, _. split_and!; [done..|]. intros k' l t Hx. apply (Hb k' l t).
    unfold expiring_get in Hx. destruct (assoc k (bindings S)) as [[l0 e]|] eqn:Ha; [|done].
    destruct (e <? now); [done|]. apply elem_of_cons in Hx as [[= -> -> ->]|Hx].
    + by apply assoc_Some_elem.
    + by apply elem_of_others in Hx as [].
  - intros l Hl Hn. unfold expiring_get in Hl.
    destruct (assoc k (bindings S)) as [[l0 e]|] eqn:Ha; [|done].
    destruct (e <? now); [done|]. injection Hl as ->.
    by destruct (Hb _ _ _ (assoc_Some_elem _ _ _ _ Ha)) as [_ ?]; auto.
Qed.

Section Calls.
Context (malloc : heap_t → addr) (malloc_fresh : ∀ h : heap_t, h !! malloc h = None).

Lemma cache_location_coherent D g s k l now :
  coherent (D ∪ {[k]}) g s → good_key k → stored s k l →
  ∃ g', cache_location malloc g k l now = Val g' ∧ coherent (D ∖ {[k]}) g' s.
Proof using malloc_fresh.
  intros [Hi Hs (c & S & Hc & Hr & Hb)] Hg Hst. unfold cache_location. rewrite Hc.
  destruct (put_represented malloc _ _ _ _ k l now malloc_fresh Hr) as (c' & -> & Hr'). cbn [c_bind].
  eexists. split; [done|]. split; [done..|]. eexists _, _. split_and!; [done..|].
  intros k' l' t' [[= -> -> ->]|[Hx Hne]]%lru_put_elem; [done|]. cbn [fst] in Hne.
  destruct (Hb _ _ _ Hx) as [Hg' Hst']. split; [done|]. intros Hn. apply Hst'. set_solver.
Qed.

(** A location that can be recorded: its numbers fit, its key is not cut off, the store takes
    its JSON form. *)
Record recordable (l : object_location) : Prop := Recordable {
  rc_fits : loc_fits l;
  rc_key : good_key (location_key l);
  rc_accepts json : buckets_registry_location_to_json (Some l) = Val (Some json) →
    os_accepts (str_bytes json)
}.

(** A lookup: it answers, keeps the agreement, and what it finds is what is stored. *)
Lemma lookup_coherent D g s env b o v now1 now2 :
  coherent D g s → let k := key_of b o (version_or_latest v) in good_key k →
  ∃ rc r g', buckets_registry_lookup malloc env (Some b) (Some o) v now1 now2 g s = Val (rc, r, g') ∧
    coherent D g' s ∧ (rc = 0 ↔ is_Some r) ∧ (∀ l, r = Some l → k ∉ D → stored s k l) ∧
    (os_reads env → k ∉ D → ∀ l, stored s k l → r = Some l).
Proof using malloc_fresh.
  intros Hco k Hk. pose proof (co_init _ _ _ Hco) as Hi. unfold buckets_registry_lookup.
  rewrite Hi. cbn [negb]. fold (key_of b o (version_or_latest v)). fold k.
  destruct (cache_get_coherent _ _ _ k now1 Hco) as (c & r & c' & -> & -> & Hco' & Hr). cbn [c_bind fst snd].
  destruct r as [l|].
  { eexists _, _, _. split; [done|]. split; [done|]. split; [by split; [eexists|]|]. split; [done|].
    intros _ Hn l' Hl'. f_equal. by apply (stored_unique s k); [apply Hr|]. }
  rewrite (storage_key_good _ _ _ Hk). fold k.
  destruct (os_get_ok env (k +:+ ".json") s (co_inv _ _ _ Hco) (proj1 Hk)) as (data & -> & Hd & Hreads).
  cbn [c_bind]. destruct data as [data|].
  2:{ eexists _, _, _. split; [done|]. split; [done|]. split; [by split; [|intros [??]]|].
      split; [done|]. intros He _ l (d & Hd' & _). rewrite <-(Hreads He) in Hd'. done. }
  assert (os_contents s (k +:+ ".json") = Some data) as Hdata by (by destruct Hd).
  destruct (buckets_registry_location_from_json _) as [l|] eqn:Hl.
  2:{ eexists _, _, _. split; [done|]. split; [done|]. split; [by split; [|intros [??]]|].
      split; [done|]. intros _ _ l (d & Hd' & Hl'). congruence. }
  assert (stored s k l) as Hst by (by exists data).
  destruct (cache_location_coherent D (with_cache (Some c') g) s k l now2) as (g' & -> & Hg'); [|done..|].
  { eapply coherent_mono; [|done]. set_solver. }
  cbn [c_bind]. eexists _, _, _. split; [done|].
  split; [eapply coherent_mono; [|done]; set_solver|]. split; [by split; [eexists|]|].
  split; [by intros ? [= <-]|]. intros _ _ l' Hl'. f_equal. by apply (stored_unique s k).
Qed.

Context {json_laws : CJsonLaws}.

(** A record: the store and the cache change together, or the key is in doubt. *)
Lemma record_coherent D g s env l now :
  coherent D g s → recordable l → let k := location_key l in
  ∃ rc g' s', buckets_registry_record malloc env (Some l) now g s = Val (rc, (g', s')) ∧
    coherent (if rc =? 0 then D ∖ {[k]} else D ∪ {[k]}) g' s' ∧ (rc = 0 → stored s' k l) ∧
    ∀ k' l', good_key k' → k' ≠ k → stored s' k' l' ↔ stored s k' l'.
Proof using malloc_fresh json_laws.
  intros Hco [Hfit Hk Hacc] k. pose proof (co_init _ _ _ Hco) as Hi.
  destruct (location_tree_ok l Hfit) as (root & Ht & _).
  destruct (lf_bucket l Hfit) as [b Hb], (lf_object l Hfit) as [o Ho], (lf_version l Hfit) as [v Hv].
  assert (∃ oj, buckets_registry_location_to_json (Some l) = Val oj) as [oj Hj].
  { unfold buckets_registry_location_to_json. rewrite Ht. by eexists. }
  unfold buckets_registry_record. rewrite Hi. cbn [negb].
  assert (k = key_of b o v) as Ekey by (unfold k, location_key; by rewrite Hb, Ho, Hv).
  destruct l as [lb lo lv x1 x2 x3 x4 x5 x6 x7]. cbn [loc_bucket loc_object loc_version_id] in Hb, Ho, Hv.
  subst lb lo lv. set (l := Location _ _ _ _ _ _ _ _ _ _) in *. rewrite Hj. cbn [c_bind].
  destruct oj as [json|].
  2:{ eexists (-1), g, s. split; [done|]. split; [|by split]. eapply coherent_mono; [|done]. set_solver. }
  fold (key_of b o v). fold k in Hk. rewrite Ekey in Hk. rewrite (storage_key_good _ _ _ Hk), <-Ekey.
  rewrite <-Ekey in Hk.
  destruct (os_put_ok env (k +:+ ".json") (str_bytes json) s (co_inv _ _ _ Hco) (proj1 Hk) (Hacc _ Hj))
    as (rc & s' & -> & Hinv & Hput & Hframe). cbn [c_bind].
  assert (∀ k', good_key k' → k' ≠ k →
    os_contents s' (k' +:+ ".json") = os_contents s (k' +:+ ".json")) as Hf.
  { intros k' [Hk' _] Hne. apply Hframe; [done|]. by intros ?%json_name_inj. }
  assert (∀ k' l', good_key k' → k' ≠ k → stored s' k' l' ↔ stored s k' l') as Hst'.
  { intros k' l' Hk' Hne. unfold stored. by rewrite Hf. }
  pose proof (coherent_write _ _ _ s' k Hco Hinv Hf) as Hco'.
  destruct (rc =? 0) eqn:Erc.
  - apply Z.eqb_eq in Erc. assert (stored s' k l) as Hst.
    { exists (str_bytes json). split; [by apply Hput|]. rewrite bytes_str_str_bytes.
      by apply (location_json_roundtrip l json Hfit). }
    destruct (cache_location_coherent D g s' k l now Hco' Hk Hst) as (g' & -> & Hg').
    cbn [c_bind]. eexists 0, g', s'. split; [done|]. by split_and!.
  - eexists (-1), g, s'. split; [done|]. by split_and!.
Qed.

(** What a call needs, and whether it writes the record of a key. *)
Definition call_ok (call : registry_call) : Prop :=
  match call with
  | RRecord _ l _ | RUpdate _ _ _ _ l _ => recordable l
  | RLookup _ b o v _ _ | RDelete _ b o v => good_key (key_of b o (version_or_latest v))
  | RInvalidate _ _ _ | RClear => True
  end.

Definition call_writes (k : string) (call : registry_call) : Prop :=
  match call with
  | RRecord _ l _ | RUpdate _ _ _ _ l _ => location_key l = k
  | RDelete _ b o v => key_of b o (version_or_latest v) = k
  | _ => False
  end.

Lemma delete_coherent D g s env b o v :
  coherent D g s → let k := key_of b o (version_or_latest v) in good_key k →
  ∃ g' s', buckets_registry_delete env (Some b) (Some o) v g s = Val (0, (g', s')) ∧
    coherent D g' s' ∧ ∀ k' l', good_key k' → k' ≠ k → stored s' k' l' ↔ stored s k' l'.
Proof using Type.
  intros Hco k Hk. pose proof (co_init _ _ _ Hco) as Hi. unfold buckets_registry_delete.
  rewrite Hi. cbn [negb]. fold (key_of b o (version_or_latest v)). fold k.
  rewrite (storage_key_good _ _ _ Hk). fold k.
  destruct (os_delete_ok env (k +:+ ".json") s (co_inv _ _ _ Hco) (proj1 Hk))
    as (rc & s' & -> & Hinv & Hframe). cbn [c_bind].
  assert (∀ k', good_key k' → k' ≠ k →
    os_contents s' (k' +:+ ".json") = os_contents s (k' +:+ ".json")) as Hf.
  { intros k' [Hk' _] Hne. apply Hframe; [done|]. by intros ?%json_name_inj. }
  destruct (invalidate_coherent D g s' k) as (c & rc' & c' & Hc & Hcinv & Hco').
  { by apply (coherent_write _ _ s). }
  unfold invalidate_key. rewrite Hc, Hcinv. cbn [c_bind snd]. eexists _, s'. split; [done|].
  split; [done|]. intros k' l' Hk' Hne. unfold stored. by rewrite Hf.
Qed.

Lemma registry_step_coherent D g s call :
  coherent D g s → call_ok call →
  ∃ rc r g' s', registry_step malloc call (g, s) = Val (rc, r, (g', s')) ∧
    coherent (doubtful call rc D) g' s' ∧
    ∀ k l, good_key k → ¬ call_writes k call → stored s' k l ↔ stored s k l.
Proof using malloc_fresh json_laws.
  intros Hco Hok. destruct call as [env l now|env b o v n1 n2|env b o v|env b o v l now|b o v|];
    cbn [registry_step call_ok call_writes doubtful] in *.
  - destruct (record_coherent D g s env l now Hco Hok) as (rc & g' & s' & -> & Hco' & _ & Hf).
    cbn [c_bind fst snd]. eexists _, _, g', s'. split; [done|]. split; [done|]. intros k l' Hk Hne.
    apply Hf; congruence.
  - destruct (lookup_coherent D g s env b o v n1 n2 Hco Hok) as (rc & r & g' & -> & Hco' & _).
    cbn [c_bind fst snd]. by eexists _, _, g', s.
  - destruct (delete_coherent D g s env b o v Hco Hok) as (g' & s' & -> & Hco' & Hf).
    cbn [c_bind fst snd]. eexists _, _, g', s'. split; [done|]. split; [done|]. intros k l' Hk Hne.
    apply Hf; congruence.
  - unfold buckets_registry_update. rewrite (co_init _ _ _ Hco). fold (key_of b o v).
    destruct (invalidate_coherent D g s (key_of b o v)) as (c & rc & c' & -> & -> & Hco1).
    { eapply coherent_mono; [|done]. set_solver. }
    cbn [c_bind fst snd].
    destruct (record_coherent D _ s env l now Hco1 Hok) as (rc' & g' & s' & -> & Hco' & _ & Hf).
    cbn [c_bind fst snd]. eexists _, _, g', s'. split; [done|]. split; [done|]. intros k l' Hk Hne.
    apply Hf; congruence.
  - destruct (invalidate_coherent D g s (key_of b o (version_or_latest v)))
      as (c & rc & c' & Hc & Hcinv & Hco').
    { eapply coherent_mono; [|done]. set_solver. }
    unfold buckets_registry_cache_invalidate, buckets_registry_build_key.
    rewrite (co_init _ _ _ Hco), Hc. fold (key_of b o (version_or_latest v)). rewrite Hcinv.
    cbn [c_bind fst snd]. by eexists _, _, _, s.
  - destruct (clear_coherent D g s Hco) as (g' & -> & Hco'). cbn [c_bind].
    by eexists _, _, g', s.
Qed.

Lemma doubtful_spared k call rc D :
  ¬ call_writes k call → k ∈ doubtful call rc D → k ∈ D.
Proof using All.
  destruct call; cbn [call_writes doubtful]; try done; destruct (rc =? 0); set_solver.
Qed.

Lemma registry_run_coherent calls D g s :
  coherent D g s → Forall call_ok calls →
  ∃ rcs D' g' s', registry_run malloc calls D (g, s) = Val (rcs, D', (g', s')) ∧
    coherent D' g' s' ∧ length rcs = length calls ∧
    ∀ k l, good_key k → Forall (λ call, ¬ call_writes k call) calls →
      (stored s' k l ↔ stored s k l) ∧ (k ∈ D' → k ∈ D).
Proof using malloc_fresh json_laws.
  revert D g s. induction calls as [|call calls IH]; intros D g s Hco Hok.
  { exists [], D, g, s. by split_and!. }
  apply Forall_cons in Hok as [Hok1 Hok]. cbn [registry_run].
  destruct (registry_step_coherent D g s call Hco Hok1) as (rc & r & g1 & s1 & -> & Hco1 & Hf1).
  cbn [c_bind fst snd].
  destruct (IH _ g1 s1 Hco1 Hok) as (rcs & D' & g' & s' & -> & Hco' & Hl & Hf). cbn [c_bind fst snd].
  eexists _, D', g', s'. split; [done|]. split; [done|]. split; [by cbn; rewrite Hl|].
  intros k l Hk [Hn1 Hn]%Forall_cons. destruct (Hf k l Hk Hn) as [Hs Hd].
  rewrite Hs, (Hf1 k l Hk Hn1). split; [done|]. intros Hin. by apply (doubtful_spared k call rc), Hd.
Qed.

Lemma registry_run_app calls1 calls2 D st :
  registry_run malloc (calls1 ++ calls2) D st =
    let* r1 := registry_run malloc calls1 D st in
    let* r2 := registry_run malloc calls2 r1.1.2 r1.2 in
    Val (r1.1.1 ++ r2.1.1, r2.1.2, r2.2).
Proof using Type.
  revert D st. induction calls1 as [|call calls IH]; intros D st; cbn [registry_run app c_bind fst snd].
  - by destruct (registry_run malloc calls2 D st) as [[[??]?]|].
  - destruct (registry_step malloc call st) as [r|]; [|done]. cbn [c_bind]. rewrite IH.
    destruct (registry_run malloc calls _ _) as [r1|]; [|done]. cbn [c_bind fst snd].
    by destruct (registry_run malloc calls2 _ _) as [r2|].
Qed.
End Calls.

(** The registry after [init] agrees with any store. *)
Lemma init_coherent s :
  0 < max < 2 ^ 32 → os_inv s →
  coherent ∅ (buckets_registry_init (Some (RegistryConfig max ttl true)) g_registry).2 s.
Proof using Type.
  intros Hmax Hs. split; [done..|]. eexists _, lru_empty. split; [done|].
  split; [by apply create_represented|]. intros k l t []%elem_of_nil.
Qed.
End Coherence.

(** A record whose write reports failure leaves the cache alone, whatever the write did. *)
Lemma failed_record_keeps_cache `{CJson} `{ObjectStore} malloc env b o v p q n idxs gen mt size now
    g s json rc s' :
  let l := Location (Some b) (Some o) (Some v) p q n idxs gen mt size in
  rg_initialized g = true → buckets_registry_location_to_json (Some l) = Val (Some json) →
  os_put env BUCKETS_REGISTRY_BUCKET (storage_key b o v) (str_bytes json) (Some "application/json") s
    = Val (rc, s') →
  rc ≠ 0 → buckets_registry_record malloc env (Some l) now g s = Val (-1, (g, s')).
Proof.
  intros l Hi Hj Hput Hrc. unfold buckets_registry_record. rewrite Hi. cbn [negb l].
  fold l. rewrite Hj. cbn [c_bind]. rewrite Hput. cbn [c_bind]. by rewrite (proj2 (Z.eqb_neq _ _)).
Qed.

(** ** Properties *)

Section Properties.
Context `{CJsonLaws} `{ObjectStoreLaws} (malloc : heap_t → addr).
Context (malloc_fresh : ∀ h : heap_t, h !! malloc h = None).

(** The registry as [init] leaves it with a cache. *)
Definition started (max ttl : Z) : registry :=
  (buckets_registry_init (Some (RegistryConfig max ttl true)) g_registry).2.

(** C14: the cache of the registry never changes an answer: after any sequence of calls, which
    all return, a lookup of a key whose last record did not fail finds only the location that
    the store holds for it, and finds that location whenever the store can be read. *)
Theorem registry_cache_transparent max ttl calls s :
  0 < max < 2 ^ 32 → os_inv s → Forall call_ok calls →
  ∃ rcs D g s', registry_run malloc calls ∅ (started max ttl, s) = Val (rcs, D, (g, s')) ∧
    ∀ env b o v now1 now2, let k := key_of b o (version_or_latest v) in
      good_key k → k ∉ D →
      ∃ rc r g', buckets_registry_lookup malloc env (Some b) (Some o) v now1 now2 g s' = Val (rc, r, g') ∧
        (∀ l, r = Some l → stored s' k l) ∧ (os_reads env → ∀ l, stored s' k l → r = Some l).
Proof using All.
  intros Hmax Hs Hok.
  destruct (registry_run_coherent max ttl malloc malloc_fresh calls ∅ _ s (init_coherent max ttl s Hmax Hs) Hok)
    as (rcs & D & g & s' & Hrun & Hco & _). exists rcs, D, g, s'. split; [done|].
  intros env b o v now1 now2 k Hk Hn.
  destruct (lookup_coherent max ttl malloc malloc_fresh D g s' env b o v now1 now2 Hco Hk)
    as (rc & r & g' & Hl & _ & _ & H1' & H2'). exists rc, r, g'. split_and!; auto.
Qed.

(** C18: a recorded location is found: when a record reported success, a lookup of its key
    gives exactly that location, whatever calls that do not write the key came before and
    after, evictions, expiry, invalidation and clearing of the cache included. *)
Theorem registry_recorded_is_found max ttl before env l now after s :
  0 < max < 2 ^ 32 → os_inv s → Forall call_ok before → recordable l → Forall call_ok after →
  Forall (λ call, ¬ call_writes (location_key l) call) after →
  ∃ rcs D g s',
    registry_run malloc (before ++ RRecord env l now :: after) ∅ (started max ttl, s)
      = Val (rcs, D, (g, s')) ∧
    (rcs !! length before = Some 0 →
     ∀ env' b o v now1 now2, os_reads env' → key_of b o (version_or_latest v) = location_key l →
       ∃ g', buckets_registry_lookup malloc env' (Some b) (Some o) v now1 now2 g s'
               = Val (0, Some l, g')).
Proof using All.
  intros Hmax Hs Hb Hl Ha Hspare.
  destruct (registry_run_coherent max ttl malloc malloc_fresh before ∅ _ s (init_coherent max ttl s Hmax Hs) Hb)
    as (rcs1 & D1 & g1 & s1 & Hrun1 & Hco1 & Hlen1 & _).
  destruct (record_coherent max ttl malloc malloc_fresh D1 g1 s1 env l now Hco1 Hl)
    as (rc & g2 & s2 & Hrec & Hco2 & Hst & _).
  destruct (registry_run_coherent max ttl malloc malloc_fresh after _ g2 s2 Hco2 Ha)
    as (rcs3 & D3 & g3 & s3 & Hrun3 & Hco3 & _ & Hkeep).
  exists (rcs1 ++ rc :: rcs3), D3, g3, s3. split.
  - rewrite registry_run_app. unfold started. rewrite Hrun1. cbn [c_bind fst snd registry_run registry_step].
    rewrite Hrec. cbn [c_bind fst snd doubtful]. rewrite Hrun3. done.
  - rewrite <-Hlen1, list_lookup_middle by done. intros [= ->] env' b o v now1 now2 He Hk.
    pose proof (rc_key _ Hl) as Hgood. destruct (Hkeep _ l Hgood Hspare) as [Hs3 Hd3].
    destruct (lookup_coherent max ttl malloc malloc_fresh D3 g3 s3 env' b o v now1 now2 Hco3)
      as (rc & r & g' & Hlook & _ & Hrc & _ & Hfind); [by rewrite Hk|].
    rewrite Hk in Hfind. cbn [Z.eqb] in Hd3.
    assert (r = Some l) as -> by (apply Hfind; [done|set_solver|by apply Hs3, Hst]).
    exists g'. rewrite Hlook. by rewrite (proj2 Hrc) by eauto.
Qed.
End Properties.

(** ** An instance *)

(** A store that keeps objects in a map; its environment says whether a call succeeds, and a
    failed write may or may not take effect. *)
#[local] Instance map_store : ObjectStore := {
  os := gmap string (list Z);
  os_env := bool * bool;
  os_put env _ key data _ s :=
    Val (if env.1 then 0 else -1, if env.1 || env.2 then <[key := data]> s else s);
  os_get env _ key s := Val (if env.1 then s !! key else None);
  os_delete env _ key s := Val (if env.1 then (0, delete key s) else (-1, s))
}.

#[local] Program Instance map_store_laws : ObjectStoreLaws := {
  os_inv _ := True;
  os_known _ := True;
  os_accepts _ := True;
  os_contents s key := s !! key;
  os_reads env := env.1 = true
}.
Next Obligation.
  intros [a b] key data s _ _ _. eexists _, _. split; [done|]. split; [done|]. destruct a, b; cbn.
  all: split; [by rewrite ?lookup_insert_eq|]; intros k' _ Hne; by rewrite ?lookup_insert_ne.
Qed.
Next Obligation. intros [[] b] key s _ _; eexists; (split; [done|]); naive_solver. Qed.
Next Obligation.
  intros [[] b] key s _ _; eexists _, _; (split; [done|]); (split; [done|]); [|done].
  intros k' _ Hne. cbn in *. by rewrite lookup_delete_ne.
Qed.

Import BitsCJson.

Definition example_malloc (h : heap_t) : addr := fresh (dom h : gset addr).

Lemma example_malloc_fresh h : h !! example_malloc h = None.
Proof. apply (not_elem_of_dom (D := gset addr)). unfold example_malloc. apply is_fresh. Qed.

Lemma example_recordable : recordable example_location.
Proof.
  split; [|split|done].
  - split; cbn; try lia; try (by eexists); repeat constructor; lia.
  - done.
  - vm_compute. lia.
Qed.

(** After a location was recorded, the record of another object evicts it, and the cache is
    cleared. *)
Definition other_location : object_location :=
  Location (Some "b") (Some "p") (Some "latest") 0 1 3 ([0; 1; 2] ++ replicate 13 0) 1 1700000000 9.

Definition example_calls : list registry_call :=
  [RRecord (true, true) other_location 100; RLookup (true, true) "b" "p" None 101 102; RClear].

Definition example_record : registry_call := RRecord (true, false) example_location 50.

Lemma other_recordable : recordable other_location.
Proof.
  split; [|split|done].
  - split; cbn; try lia; try (by eexists); repeat constructor; lia.
  - done.
  - vm_compute. lia.
Qed.

Lemma good_example b o v : (strlen (key_of b o v) + 5 < Z.to_nat 1024)%nat → good_key (key_of b o v).
Proof. by split. Qed.

Lemma example_calls_ok : Forall call_ok example_calls.
Proof.
  unfold example_calls. rewrite !Forall_cons. split_and!; [exact other_recordable| |done|constructor].
  apply (good_example "b" "p" "latest"). vm_compute. lia.
Qed.

Lemma registry_cache_transparent_witness :
  ∃ rcs D g s', registry_run example_malloc example_calls ∅ (started 1 60, ∅) = Val (rcs, D, (g, s')) ∧
    ∀ env b o v now1 now2, let k := key_of b o (version_or_latest v) in
      good_key k → k ∉ D →
      ∃ rc r g', buckets_registry_lookup example_malloc env (Some b) (Some o) v now1 now2 g s'
                   = Val (rc, r, g') ∧
        (∀ l, r = Some l → stored s' k l) ∧ (os_reads env → ∀ l, stored s' k l → r = Some l).
Proof.
  apply (registry_cache_transparent example_malloc example_malloc_fresh 1 60 example_calls ∅).
  - lia.
  - done.
  - exact example_calls_ok.
Defined.

Lemma registry_recorded_is_found_witness :
  ∃ rcs D g s',
    registry_run example_malloc ([] ++ example_record :: example_calls) ∅
      (started 1 60, ∅) = Val (rcs, D, (g, s')) ∧
    (rcs !! 0%nat = Some 0 →
     ∀ env' b o v now1 now2, os_reads env' →
       key_of b o (version_or_latest v) = location_key example_location →
       ∃ g', buckets_registry_lookup example_malloc env' (Some b) (Some o) v now1 now2 g s'
               = Val (0, Some example_location, g')).
Proof.
  apply (registry_recorded_is_found example_malloc example_malloc_fresh 1 60 [] ((true, false) : @os_env map_store)
           example_location 50 example_calls ∅).
  - lia.
  - done.
  - constructor.
  - exact example_recordable.
  - exact example_calls_ok.
  - unfold example_calls. rewrite !Forall_cons. split_and!; [discriminate|intros []|intros []|constructor].
Defined.

