(* ===== verification/Chunk.v ===== *)
(** * Chunk files (src/src/storage/chunk.c)

    A chunk is written through io_uring, or through the group commit, or atomically; it is
    read back whole. The directory cache saves calls of [mkdir]. What the kernel answers is
    the record [chunk_env]. *)

From S2P Require Import Prelude CInt CString CSearch Blake2b DiskIO GroupCommit XlMeta.
From Stdlib Require Import Ascii.

Local Open Scope c_scope.

(** ** The directory cache *)

Definition DIR_CACHE_SIZE : nat := Z.to_nat 1024.

(** The used part of [paths]; [count] is its length. *)
Abbreviation directory_cache := (list string).

Definition is_dir_cached (g_dir_cache : directory_cache) (path : string) : bool :=
  bool_decide (path ∈ g_dir_cache).

Definition cache_dir (g_dir_cache : directory_cache) (path : string) : directory_cache :=
  let count := length g_dir_cache in
  let idx := (count mod DIR_CACHE_SIZE)%nat in
  let path := snprintf PATH_MAX path in
  if (count <? DIR_CACHE_SIZE)%nat then take idx g_dir_cache ++ [path]
  else <[idx := path]> g_dir_cache.

(** [ensure] is what [buckets_ensure_directory] returns. *)
Definition ensure_directory_cached (g_dir_cache : directory_cache) (ensure : buckets_error_t)
    (path : string) : buckets_error_t * directory_cache :=
  if is_dir_cached g_dir_cache path then (BUCKETS_OK, g_dir_cache)
  else
    match ensure with
    | BUCKETS_OK => (BUCKETS_OK, cache_dir g_dir_cache path)
    | err => (err, g_dir_cache)
    end.

(** ** Paths *)

(** [snprintf(chunk_path, PATH_MAX, "%s/%spart.%u", ...)] *)
Definition chunk_path (disk_path object_path : string) (chunk_index : Z) : string :=
  snprintf PATH_MAX (disk_path +:+ "/" +:+ object_path +:+ "part." +:+ print_u64 chunk_index).

Fixpoint strip_slashes (s : list ascii) : list ascii :=
  match s with "/"%char :: s => strip_slashes s | _ => s end.

Fixpoint drop_component (s : list ascii) : list ascii :=
  match s with [] => [] | "/"%char :: _ => s | _ :: s => drop_component s end.

(** [dirname] *)
Definition dirname (path : string) : string :=
  let r := drop_component (strip_slashes (rev (String.list_ascii_of_string path))) in
  match r with
  | [] => "."
  | _ =>
      match strip_slashes r with
      | [] => "/"
      | d => String.string_of_list_ascii (rev d)
      end
  end.

(** ** The node *)

Record node := Node {
  n_fs : fs_t;
  n_dirs : directory_cache;
  n_gc : option gc_context;
  n_unsynced : unsynced
}.

Definition with_fs (fs : fs_t) (n : node) : node := Node fs (n_dirs n) (n_gc n) (n_unsynced n).
Definition with_dirs (d : directory_cache) (n : node) : node :=
  Node (n_fs n) d (n_gc n) (n_unsynced n).

(** What becomes of an asynchronous write: there is no ring, it cannot be submitted, it does
    not complete in 30 seconds, or it completes with a result. *)
Inductive uring_outcome :=
  | UringOff
  | UringSubmitFails
  | UringTimeout
  | UringDone (result : Z).

Record chunk_env := ChunkEnv {
  ce_uring : uring_outcome;
  ce_ensure : buckets_error_t;      (* creating the directory *)
  ce_open_async : bool;             (* the [open] of the asynchronous path *)
  ce_open : option Z;               (* the [open] of the blocking path: the descriptor *)
  ce_written : Z;                   (* the answer of [write] *)
  ce_sync : bool * bool;            (* the syncs of the write and of the flush *)
  ce_clk : nat → timeval;
  ce_atomic : write_env;
  ce_pid : N
}.

(** [fallback_blocking] *)
Definition write_chunk_blocking (env : chunk_env) (n : node) (path : string) (data : list Z)
    : Z * node :=
  match n_gc n with
  | Some ctx =>
      let (err, dirs) := ensure_directory_cached (n_dirs n) (ce_ensure env) (dirname path) in
      let n := with_dirs dirs n in
      match err with
      | BUCKETS_OK =>
          match ce_open env with
          | None => (-1, n)
          | Some fd =>
              let fs := <[path := ""]> (n_fs n) in
              let '(written, ctx, u) :=
                buckets_group_commit_write ctx fd (ce_written env) (ce_sync env).1 (ce_clk env)
                  (n_unsynced n) in
              let fs := if 0 <? written then
                          <[path := bytes_str (take (Z.to_nat written) data)]> fs else fs in
              if negb (written =? Z.of_nat (length data)) then
                (-1, Node (delete path fs) dirs (Some ctx) u)
              else
                match buckets_group_commit_flush_fd ctx fd (ce_sync env).2
                        (λ i, ce_clk env (3 + i)%nat) u with
                | (0, ctx, u) => (0, Node fs dirs (Some ctx) u)
                | (_, ctx, u) => (-1, Node (delete path fs) dirs (Some ctx) u)
                end
          end
      | _ => (-1, n)
      end
  | None =>
      let r := buckets_atomic_write (ce_atomic env) (ce_pid env) (n_fs n) (Some path)
                 (Some (bytes_str data)) in
      (match r.1 with BUCKETS_OK => 0 | _ => -1 end, with_fs (fs_after (n_fs n) r) n)
  end.

(** The asynchronous path takes any result that is not negative for success. *)
Definition buckets_write_chunk (env : chunk_env) (n : node) (disk_path object_path : string)
    (chunk_index : Z) (data : list Z) : Z * node :=
  let path := chunk_path disk_path object_path chunk_index in
  match ce_uring env with
  | UringOff => write_chunk_blocking env n path data
  | uring =>
      let (err, dirs) := ensure_directory_cached (n_dirs n) (ce_ensure env) (dirname path) in
      let n := with_dirs dirs n in
      match err with
      | BUCKETS_OK =>
          if ce_open_async env then
            let n := with_fs (<[path := ""]> (n_fs n)) n in
            match uring with
            | UringDone result =>
                if result <? 0 then (-1, with_fs (delete path (n_fs n)) n)
                else (0, with_fs (<[path := bytes_str (take (Z.to_nat result) data)]> (n_fs n)) n)
            | UringTimeout => (-1, n)
            | _ => write_chunk_blocking env n path data
            end
          else (-1, n)
      | _ => (-1, n)
      end
  end.

Definition buckets_read_chunk (read_ok : bool) (fs : fs_t) (disk_path object_path : string)
    (chunk_index : Z) : option (list Z) :=
  match buckets_atomic_read read_ok fs (Some (chunk_path disk_path object_path chunk_index)) with
  | (BUCKETS_OK, Some data) => Some (str_bytes data)
  | _ => None
  end.

(** [unlink] succeeds when the file is there and the call is let through. *)
Definition buckets_delete_chunk (unlink_ok : bool) (fs : fs_t) (disk_path object_path : string)
    (chunk_index : Z) : Z * fs_t :=
  let path := chunk_path disk_path object_path chunk_index in
  match fs !! path with
  | Some _ => if unlink_ok then (0, delete path fs) else (-1, fs)
  | None => (-1, fs)
  end.

Definition buckets_chunk_exists (fs : fs_t) (disk_path object_path : string) (chunk_index : Z)
    : bool := bool_decide (is_Some (fs !! chunk_path disk_path object_path chunk_index)).

(** ** Checksums *)

Definition buckets_compute_chunk_checksum (data : list Z) : c_result buckets_checksum :=
  let* r := buckets_blake2b false 32 (inr data) (inl 0%nat) in
  Val (Checksum "BLAKE2b-256" r.2).

Definition buckets_verify_chunk (data : list Z) (checksum : buckets_checksum) : c_result bool :=
  if negb (strcmp_eq (algo checksum) "BLAKE2b-256") then Val false
  else
    let* r := buckets_blake2b false 32 (inr data) (inl 0%nat) in
    Val (buckets_blake2b_verify (Some r.2) (Some (hash checksum)) 32).

(** ** Paths of chunks

    A path that is not cut off tells the disk and the index; no temporary file has the path of
    a chunk. *)

Definition short_path (disk_path object_path : string) : Prop :=
  (strlen disk_path + strlen object_path < Z.to_nat 4000)%nat.

Lemma chunk_path_short disk op i :
  short_path disk op → 0 ≤ i < 2 ^ 32 →
  chunk_path disk op i = (disk +:+ "/" +:+ op +:+ "part.") +:+ pretty (Z.to_N i).
Proof.
  intros Hs Hi. unfold chunk_path, print_u64. rewrite snprintf_short.
  - by rewrite !string_app_assoc.
  - rewrite !strlen_app. unfold short_path in Hs.
    pose proof (strlen_pretty_N 10 (Z.to_N i) ltac:(lia) ltac:(cbn; lia)).
    change (strlen "/") with 1%nat. change (strlen "part.") with 5%nat.
    unfold PATH_MAX. lia.
Qed.

Lemma part_nondigit disk op : ends_nondigit (disk +:+ "/" +:+ op +:+ "part.").
Proof. exists "."%char. split; [|done]. rewrite <- !string_app_assoc. by rewrite last_char_app. Qed.

Lemma chunk_path_index d op i d' op' j :
  short_path d op → short_path d' op' → 0 ≤ i < 2 ^ 32 → 0 ≤ j < 2 ^ 32 →
  chunk_path d op i = chunk_path d' op' j → i = j.
Proof.
  intros Hs Hs' Hi Hj. rewrite !chunk_path_short by done. intros E.
  apply digits_suffix_inj in E as [_ E]; [lia|apply part_nondigit..].
Qed.

(** Two characters at the end of a text. *)
Lemma string_app_last2 s t a b c d :
  s +:+ String a (String b "") = t +:+ String c (String d "") → a = c ∧ b = d.
Proof.
  intros E. assert (strlen s = strlen t) as Hl.
  { apply (f_equal strlen) in E. rewrite !strlen_app in E. cbn in E. lia. }
  revert t E Hl. induction s as [|x s IH]; intros [|y t] E Hl; try done.
  - by injection E.
  - injection E as -> E. apply (IH t); [done|]. by injection Hl.
Qed.

Lemma temp_path_ne_chunk path pid d op i :
  short_path d op → 0 ≤ i < 2 ^ 32 → temp_path path pid ≠ chunk_path d op i.
Proof.
  intros Hs Hi E. rewrite chunk_path_short in E by done. unfold temp_path in E.
  rewrite <- string_app_assoc in E.
  apply digits_suffix_inj in E as [E _]; [|by exists "."%char; rewrite last_char_app|apply part_nondigit].
  change ".tmp." with (".tm" +:+ "p.") in E. change "part." with ("par" +:+ "t.") in E.
  rewrite <- !string_app_assoc in E. by apply string_app_last2 in E as [? _].
Qed.

Lemma meta_path_short disk op :
  short_path disk op → meta_path disk op = (disk +:+ "/" +:+ op) +:+ "xl.meta".
Proof.
  intros Hs. unfold meta_path. rewrite snprintf_short; [by rewrite !string_app_assoc|].
  rewrite !strlen_app. unfold short_path in Hs. change (strlen "/") with 1%nat.
  change (strlen "xl.meta") with 7%nat. unfold PATH_MAX. lia.
Qed.

Lemma meta_path_last disk op : short_path disk op → last_char (meta_path disk op) = Some "a"%char.
Proof. intros. rewrite meta_path_short by done. by rewrite last_char_app. Qed.

Lemma meta_path_ne_chunk d op d' op' i :
  short_path d op → short_path d' op' → 0 ≤ i < 2 ^ 32 → meta_path d op ≠ chunk_path d' op' i.
Proof.
  intros Hs Hs' Hi E. pose proof (meta_path_last d op Hs) as Hl.
  rewrite E, chunk_path_short in Hl by done.
  rewrite last_char_app in Hl by apply pretty_N_ne_empty.
  destruct (pretty_N_last (Z.to_N i)) as (c & v & Hc & Hv). rewrite Hl in Hc.
  injection Hc as <-. done.
Qed.

Lemma meta_path_inj d d' op : 
  short_path d op → short_path d' op → meta_path d op = meta_path d' op → d = d'.
Proof.
  intros Hs Hs'. rewrite !meta_path_short by done.
  by intros ?%string_app_inj_r%string_app_inj_r.
Qed.

(** ** Writing and reading *)

(** An asynchronous write that completes has written everything. *)
Definition full_write (env : chunk_env) (data : list Z) : Prop :=
  match ce_uring env with UringDone r => r = Z.of_nat (length data) | _ => True end.

(** The system calls of a chunk write of [size] bytes succeed: the directory is made, the files
    open, a write and an asynchronous write that is submitted write everything, a sync does
    not fail. Whether there is a ring and whether it takes the write is left open. *)
Record syscalls_succeed (env : chunk_env) (size : Z) : Prop := SyscallsSucceed {
  sc_uring : match ce_uring env with UringDone r => r = size | UringTimeout => False | _ => True end;
  sc_ensure : ce_ensure env = BUCKETS_OK;
  sc_open_async : ce_open_async env = true;
  sc_open : ∃ fd, ce_open env = Some fd ∧ 0 ≤ fd;
  sc_written : ce_written env = size;
  sc_sync : ce_sync env = (true, true);
  sc_atomic : ce_atomic env = write_env_ok
}.

Lemma ensure_directory_succeeds dirs path : (ensure_directory_cached dirs BUCKETS_OK path).1 = BUCKETS_OK.
Proof. unfold ensure_directory_cached. by destruct (is_dir_cached _ _). Qed.

Lemma group_write_returns ctx fd written ok clk u :
  0 ≤ fd → 0 ≤ written → (buckets_group_commit_write ctx fd written ok clk u).1.1 = written.
Proof.
  intros Hf Hw. unfold buckets_group_commit_write. rewrite !(proj2 (Z.ltb_ge _ _)) by done.
  destruct (get_fd_state _ _ _) as [[i|] ctx1]; [|done]. by destruct (account_write _ _ _ _ _ _).
Qed.

Lemma flush_fd_succeeds ctx fd clk u : 0 ≤ fd → (buckets_group_commit_flush_fd ctx fd true clk u).1.1 = 0.
Proof.
  intros Hf. unfold buckets_group_commit_flush_fd. rewrite (proj2 (Z.ltb_ge _ _)) by done.
  destruct (get_fd_state _ _ _) as [[i|] ctx1]; [|done]. unfold flush_slot.
  destruct (fd_states _ !! i) as [s|]; [|done]. unfold flush_fd_state, do_sync.
  destruct (pending_count s =? 0); [done|]. by destruct (durability _).
Qed.

Lemma write_blocking_succeeds env n path data :
  syscalls_succeed env (Z.of_nat (length data)) → (write_chunk_blocking env n path data).1 = 0.
Proof.
  intros [_ He _ (fd & Ho & Hfd) Hw Hs Ha]. unfold write_chunk_blocking. destruct (n_gc n) as [ctx|].
  - rewrite He. pose proof (ensure_directory_succeeds (n_dirs n) (dirname path)) as E.
    destruct (ensure_directory_cached _ _ _) as [err dirs]. cbn [fst] in E. subst err. rewrite Ho, Hw, Hs.
    cbn [fst snd n_unsynced with_dirs].
    pose proof (group_write_returns ctx fd (Z.of_nat (length data)) true (ce_clk env) (n_unsynced n) Hfd ltac:(lia)) as Eg.
    destruct (buckets_group_commit_write _ _ _ _ _ _) as [[written ctx1] u1]. cbn [fst] in Eg. subst written.
    rewrite Z.eqb_refl. cbn [negb].
    pose proof (flush_fd_succeeds ctx1 fd (λ i, ce_clk env (3 + i)%nat) u1 Hfd) as Ef.
    destruct (buckets_group_commit_flush_fd _ _ _ _ _) as [[r ctx2] u2]. cbn [fst] in Ef. by subst r.
  - rewrite Ha. unfold buckets_atomic_write, write_env_ok.
    cbn [we_ensure we_fopen we_fwrite we_fflush we_fsync we_rename we_syncdir negb]. by rewrite Nat.eqb_refl.
Qed.

(** A chunk write of which no system call fails returns 0, asynchronous or not. *)
Lemma write_chunk_succeeds env n disk op i data :
  syscalls_succeed env (Z.of_nat (length data)) → (buckets_write_chunk env n disk op i data).1 = 0.
Proof.
  intros Hs. pose proof Hs as [Hu He Ho _ _ _ _]. unfold buckets_write_chunk.
  destruct (ce_uring env) as [| | |r]; [by apply write_blocking_succeeds|..|]; rewrite He, Ho;
    pose proof (ensure_directory_succeeds (n_dirs n) (dirname (chunk_path disk op i))) as E;
    destruct (ensure_directory_cached _ _ _) as [err dirs]; cbn [fst] in E; subst err.
  - by apply write_blocking_succeeds.
  - done.
  - subst r. by rewrite (proj2 (Z.ltb_ge _ _)) by lia.
Qed.

(** What a write does to the files: no file but the chunk and its temporary file changes,
    and on success the chunk is there. *)
Definition writes_file (fs fs' : fs_t) (path : string) (pid : N) (rc : Z) (data : list Z) : Prop :=
  (∀ q, q ≠ path → q ≠ temp_path path pid → fs' !! q = fs !! q) ∧
  (rc = 0 → fs' !! path = Some (bytes_str data)).

Lemma write_chunk_blocking_file env n path data rc n' :
  write_chunk_blocking env n path data = (rc, n') →
  writes_file (n_fs n) (n_fs n') path (ce_pid env) rc data.
Proof.
  unfold write_chunk_blocking, writes_file. destruct (n_gc n) as [ctx|].
  - destruct (ensure_directory_cached _ _ _) as [err dirs].
    destruct err; try (by intros [= <- <-]).
    destruct (ce_open env) as [fd|]; [|by intros [= <- <-]].
    destruct (buckets_group_commit_write _ _ _ _ _ _) as [[written ctx1] u1].
    set (fs := if 0 <? written then _ else _).
    assert (∀ q, q ≠ path → fs !! q = n_fs n !! q) as Hfs.
    { intros q Hq. unfold fs. cbn [with_dirs n_fs]. destruct (0 <? written);
        by rewrite !lookup_insert_ne. }
    destruct (Z.eqb_spec written (Z.of_nat (length data))) as [Hw|Hw]; cbn [negb].
    2:{ intros [= <- <-]. cbn [n_fs]. split; [|done]. intros. rewrite lookup_delete_ne by done. auto. }
    destruct (buckets_group_commit_flush_fd _ _ _ _ _) as [[r ctx2] u2].
    destruct r; intros [= <- <-]; cbn [n_fs]; (split; [|try done]);
      try (intros; rewrite ?lookup_delete_ne by done; by auto).
    intros _. unfold fs. rewrite Hw, Nat2Z.id, take_ge by lia.
    destruct (Z.ltb_spec 0 (Z.of_nat (length data))).
    + by rewrite lookup_insert_eq.
    + rewrite lookup_insert_eq. by rewrite (nil_length_inv data) by lia.
  - destruct (buckets_atomic_write _ _ _ _ _) as [err st] eqn:Hw. intros [= <- <-].
    apply atomic_write_lookup in Hw as (Hall & Hok & Hin). cbn [fst with_fs n_fs].
    rewrite Forall_forall in Hall. split; [by apply Hall|]. intros He. apply Hok. by destruct err.
Qed.

Lemma write_chunk_file env n disk op i data rc n' :
  buckets_write_chunk env n disk op i data = (rc, n') → full_write env data →
  writes_file (n_fs n) (n_fs n') (chunk_path disk op i) (ce_pid env) rc data.
Proof.
  unfold buckets_write_chunk, full_write. set (path := chunk_path disk op i). intros Hw Hfull.
  assert (∀ d, write_chunk_blocking env (with_fs (<[path := ""]> (n_fs n)) (with_dirs d n)) path data
    = (rc, n') → writes_file (n_fs n) (n_fs n') path (ce_pid env) rc data) as Hb.
  { intros d Hd. apply write_chunk_blocking_file in Hd as [H1 H2]. split; [|done].
    intros q Hq Ht. rewrite H1 by done. cbn [with_fs with_dirs n_fs]. by rewrite lookup_insert_ne. }
  destruct (ce_uring env) as [| | |r] eqn:Eu; [by eapply write_chunk_blocking_file|..];
    destruct (ensure_directory_cached _ _ _) as [err dirs];
    (destruct err; try (by injection Hw as <- <-));
    (destruct (ce_open_async env); [|by injection Hw as <- <-]).
  - by eapply Hb.
  - injection Hw as <- <-. split; [|done]. intros. cbn. by rewrite lookup_insert_ne.
  - subst r. destruct (Z.ltb_spec (Z.of_nat (length data)) 0); [lia|]. injection Hw as <- <-.
    cbn [with_fs with_dirs n_fs]. rewrite Nat2Z.id, take_ge by lia. split.
    + intros. by rewrite !lookup_insert_ne.
    + intros _. by rewrite lookup_insert_eq.
Qed.

Lemma read_chunk_file fs disk op i data :
  is_bytes data → fs !! chunk_path disk op i = Some (bytes_str data) →
  buckets_read_chunk true fs disk op i = Some data.
Proof.
  intros Hb Hf. unfold buckets_read_chunk, buckets_atomic_read. rewrite Hf.
  by rewrite str_bytes_bytes_str.
Qed.

(** ** Durability through the group commit *)

(** A whole write as three steps of one thread. *)
Lemma group_commit_write_inv conf k ctx u ths lost fd written ok clk ctx' u' rc :
  durability conf ≠ BUCKETS_DURABILITY_NONE → Z.of_nat k < 2 ^ 32 - 4 → 0 ≤ fd → 0 ≤ written →
  gc_inv conf k (GcSys ctx u ths lost) →
  buckets_group_commit_write ctx fd written ok clk u = (rc, ctx', u') →
  ∃ k', (k' ≤ k + 3)%nat ∧
    gc_inv conf k' (GcSys ctx' u' ths
      (if decide ((get_fd_state ctx fd (clk 0%nat)).1 = None ∧ ok = false) then fd :: lost else lost)).
Proof.
  intros Hd Hk Hfd Hwr Hinv. unfold buckets_group_commit_write.
  rewrite (proj2 (Z.ltb_ge _ _)), (proj2 (Z.ltb_ge _ _)) by lia.
  pose proof (gc_step_inv conf Hd k ok _ _ Hinv ltac:(lia)
    (gc_write ok ctx u ths lost fd written Hfd Hwr)) as H1.
  set (ctx1 := with_gc_stats _ ctx) in *. set (u1 := <[fd := _]> u) in *.
  assert ((get_fd_state ctx1 fd (clk 0%nat)).1 = (get_fd_state ctx fd (clk 0%nat)).1) as <-.
  { unfold get_fd_state, ctx1. cbn [with_gc_stats fd_states].
    destruct (find_slot _ _ _); [done|]. by destruct (find_slot _ _ _). }
  destruct (get_fd_state ctx1 fd (clk 0%nat)) as [[i|] ctx2] eqn:Hg; cbn [fst].
  - destruct (account_write ctx2 i ok (clk 1%nat) (clk 2%nat) u1) as [ctx3 u3] eqn:Ha.
    intros [= <- <- <-]. exists (S (S (S k))). split; [lia|].
    rewrite decide_False by (by intros [? _]).
    pose proof (gc_step_inv conf Hd _ ok _ _ H1 ltac:(lia)
      (gc_lookup ok ctx1 u1 [] fd ths lost (clk 0%nat) i ctx2 Hg)) as H2.
    exact (gc_step_inv conf Hd _ ok _ _ H2 ltac:(lia)
      (gc_account ok ctx2 u1 [] fd i ths lost (clk 1%nat) (clk 2%nat) ctx3 u3 Ha)).
  - intros [= <- <- <-]. exists (S (S k)). split; [lia|].
    assert (gc_conf ctx1 = gc_conf ctx2) as Hc.
    { unfold get_fd_state in Hg. destruct (find_slot _ _ _); [done|].
      destruct (find_slot _ _ _); [done|]. by injection Hg as <-. }
    pose proof (gc_step_inv conf Hd _ ok _ _ H1 ltac:(lia)
      (gc_fallback ok ctx1 u1 [] fd ths lost (clk 0%nat) ctx2 Hg)) as H2.
    rewrite Hc in H2. destruct ok.
    + rewrite decide_False by (by intros [_ ?]). exact H2.
    + rewrite decide_True by done. exact H2.
Qed.

(** ** Properties *)

(** A chunk that was written is read back: whichever way the write took, if it reports
    success (and an asynchronous write was not cut short) the next read returns exactly the
    data; and no other file but the temporary one has changed, also when it fails. *)
Theorem chunk_write_read env n disk op i data rc n' :
  buckets_write_chunk env n disk op i data = (rc, n') → full_write env data → is_bytes data →
  (rc = 0 → buckets_read_chunk true (n_fs n') disk op i = Some data) ∧
  ∀ q, q ≠ chunk_path disk op i → q ≠ temp_path (chunk_path disk op i) (ce_pid env) →
       n_fs n' !! q = n_fs n !! q.
Proof.
  intros Hw Hf Hb. destruct (write_chunk_file _ _ _ _ _ _ _ _ Hw Hf) as [Hframe Hok].
  split; [|done]. intros ->. apply read_chunk_file; [done|]. by apply Hok.
Qed.

Definition quiet_env (uring : uring_outcome) : chunk_env :=
  ChunkEnv uring BUCKETS_OK true (Some 5) 2 (true, true) (λ _, Timeval 100 0) write_env_ok 7%N.

Lemma chunk_write_read_witness :
  ∃ n', buckets_write_chunk (quiet_env UringOff) (Node ∅ [] None ∅) "/d" "ab/abcd/" 1 [1; 2] = (0, n') ∧
    buckets_read_chunk true (n_fs n') "/d" "ab/abcd/" 1 = Some [1; 2].
Proof.
  destruct (buckets_write_chunk (quiet_env UringOff) (Node ∅ [] None ∅) "/d" "ab/abcd/" 1 [1; 2])
    as [rc n'] eqn:E.
  assert (rc = 0) as -> by (apply (f_equal fst) in E; vm_compute in E; congruence).
  exists n'. split; [reflexivity|].
  apply (chunk_write_read _ _ _ _ _ _ _ _ E); [exact I| |reflexivity].
  repeat (constructor; [by unfold in_range|]). constructor.
Defined.

(** A short asynchronous write is reported as a success. *)
Lemma chunk_short_write_hidden :
  ∃ n', buckets_write_chunk (quiet_env (UringDone 1)) (Node ∅ [] None ∅) "/d" "ab/abcd/" 1 [1; 2] = (0, n') ∧
    buckets_read_chunk true (n_fs n') "/d" "ab/abcd/" 1 = Some [1].
Proof. eexists. split; [reflexivity|]. vm_compute. reflexivity. Qed.

(** Only the first slot of a full directory cache is ever replaced. *)
Lemma dir_cache_replaces_first g p :
  length g = DIR_CACHE_SIZE → cache_dir g p = <[0%nat := snprintf PATH_MAX p]> g.
Proof.
  intros Hl. unfold cache_dir. rewrite Hl, Nat.ltb_irrefl, Nat.Div0.mod_same. done.
Qed.

(** C28: a chunk acknowledged through the group commit is on disk: whatever the other threads
    have done, if nothing of the descriptor was in flight or lost before and it has a slot, a
    write that reports success leaves no unsynced write of that descriptor. *)
Theorem chunk_acknowledged_is_synced no_fsync config reliable k s env n disk op i data fd n' :
  durability (gc_conf (buckets_group_commit_init no_fsync config)) ≠ BUCKETS_DURABILITY_NONE →
  gc_run no_fsync config reliable k s → Z.of_nat k < 2 ^ 32 - 4 →
  n_gc n = Some (s_ctx s) → n_unsynced n = s_unsynced s →
  ce_uring env = UringOff → ce_open env = Some fd →
  in_flight (s_threads s) fd = 0%nat → lost_of (s_lost s) fd = 0%nat →
  is_Some (get_fd_state (s_ctx s) fd (ce_clk env 0%nat)).1 →
  buckets_write_chunk env n disk op i data = (0, n') →
  dirty (n_unsynced n') fd = 0%nat.
Proof.
  intros Hd Hrun Hk Hgc Hu Huring Hopen Hfl Hlost Hslot. unfold buckets_write_chunk.
  rewrite Huring. unfold write_chunk_blocking. rewrite Hgc, Hopen.
  destruct (ensure_directory_cached _ _ _) as [err dirs]. destruct err; try done.
  cbn [with_dirs n_unsynced]. rewrite Hu.
  destruct (buckets_group_commit_write _ _ _ _ _ _) as [[written ctx1] u1] eqn:Hw.
  destruct (Z.eqb_spec written (Z.of_nat (length data))) as [Hlen|]; [|done]. cbn [negb].
  destruct (buckets_group_commit_flush_fd _ _ _ _ _) as [[r ctx2] u2] eqn:Hf.
  destruct r; [|done..]. intros [= <-]. cbn [n_unsynced].
  assert (0 ≤ fd ∧ 0 ≤ ce_written env) as [Hfd Hwr].
  { unfold buckets_group_commit_write in Hw. destruct (Z.ltb_spec fd 0); [simplify_eq; lia|].
    destruct (Z.ltb_spec (ce_written env) 0); [simplify_eq; lia|]. done. }
  pose proof (gc_run_inv _ _ _ _ _ Hd Hrun ltac:(lia)) as Hinv. destruct s as [ctx u ths lost].
  cbn [s_ctx s_unsynced s_threads s_lost] in *.
  destruct (group_commit_write_inv _ k ctx u ths lost fd _ _ _ _ _ _ Hd ltac:(lia) Hfd Hwr Hinv Hw)
    as (k' & Hk' & Hinv').
  rewrite decide_False in Hinv' by (intros [E _]; destruct Hslot; congruence).
  pose proof (flush_fd_dirty _ _ _ _ _ _ _ _ Hd Hinv' Hf) as Hdirty. cbn [s_threads s_lost] in Hdirty. lia.
Qed.

Lemma chunk_acknowledged_is_synced_witness :
  ∃ n', buckets_write_chunk (quiet_env UringOff)
          (Node ∅ [] (Some (buckets_group_commit_init false None)) ∅) "/d" "ab/abcd/" 1 [1; 2] = (0, n') ∧
    dirty (n_unsynced n') 5 = 0%nat.
Proof.
  destruct (buckets_write_chunk (quiet_env UringOff)
    (Node ∅ [] (Some (buckets_group_commit_init false None)) ∅) "/d" "ab/abcd/" 1 [1; 2]) as [rc n'] eqn:E.
  assert (rc = 0) as -> by (apply (f_equal fst) in E; vm_compute in E; congruence).
  exists n'. split; [reflexivity|].
  refine (chunk_acknowledged_is_synced false None true 0 _ (quiet_env UringOff) _ "/d" "ab/abcd/" 1
    [1; 2] 5 n' _ (gc_run_start false None true) _ _ _ _ _ _ _ _ E); try reflexivity.
  - discriminate.
  - eexists. reflexivity.
Defined.

(** Checksums detect every change of a chunk that changes its BLAKE2b-256 digest, and
    accept the chunk they were computed from. *)
Theorem chunk_checksum_correct data data' :
  ∃ c, buckets_compute_chunk_checksum data = Val c ∧ buckets_verify_chunk data c = Val true ∧
    ∃ b, buckets_verify_chunk data' c = Val b ∧
      (b = true ↔ blake2b_ref 32 [] data' = blake2b_ref 32 [] data).
Proof.
  unfold buckets_compute_chunk_checksum, buckets_verify_chunk.
  rewrite !blake2b_oneshot_ok. cbn [c_bind snd].
  exists (Checksum "BLAKE2b-256" (blake2b_ref 32 [] data)). cbn [algo hash].
  change (negb (strcmp_eq "BLAKE2b-256" "BLAKE2b-256")) with false. cbv iota.
  split; [done|].
  assert (∀ a b, buckets_blake2b_verify (Some (blake2b_ref 32 [] a)) (Some (blake2b_ref 32 [] b)) 32 = true
    ↔ blake2b_ref 32 [] a = blake2b_ref 32 [] b) as Hv.
  { intros a b. apply blake2b_ref_verify. }
  split; [by rewrite (proj2 (Hv data data))|]. eexists. split; [reflexivity|]. apply Hv.
Qed.
