(* ===== verification/MultiDisk.v ===== *)
(** * Multi-disk metadata (src/src/storage/multidisk.c)

    The disks of this node by erasure set, and the operations that read, write, compare and
    heal the metadata of an object on all disks of a set. *)

From S2P Require Import Prelude CInt CString CSearch DiskIO Json Format Topology XlMeta Chunk.

Local Open Scope c_scope.

(** ** State *)

(** A disk of a set: its path (NULL when it was not found), its UUID and whether it is online. *)
Record set_disk := SetDisk {
  sd_path : option string;
  sd_uuid : string;
  sd_online : bool
}.

(** A set is the list of its disks; [set_index] is its position. *)
Record multidisk_ctx := MultidiskCtx {
  md_sets : list (list set_disk);
  md_format : buckets_format;
  md_topology : option buckets_cluster_topology
}.

(** What the system calls around an operation answer: whether disk [i] can be read, and the
    environment of the write to it. *)
Record disk_env := DiskEnv {
  de_read : nat → bool;
  de_write : nat → write_env * N
}.

Section MultiDisk.
Context `{CJson}.

(** ** Initialisation *)

(** The first of the paths on which the format names this disk. Whether a path can be read
    does not change during the call. *)
Definition find_disk (read_ok : string → bool) (fs : fs_t) (uuid : string) (paths : list string)
    : option string :=
  snd <$> list_find (λ p, match buckets_format_load (read_ok p) fs (Some p) with
                          | Some f => strcmp_eq (this_disk (erasure f)) uuid
                          | None => false
                          end = true) paths.

Definition open_disk (read_ok : string → bool) (fs : fs_t) (paths : list string) (uuid : string)
    : set_disk :=
  let path := find_disk read_ok fs uuid paths in
  SetDisk path uuid (bool_decide (is_Some path)).

Definition first_format (read_ok : string → bool) (fs : fs_t) (paths : list string)
    : option buckets_format :=
  head (omap (λ p, buckets_format_load (read_ok p) fs (Some p)) paths).

(** The topology on every disk in turn; failures are only logged. *)
Fixpoint save_topology (envs : nat → write_env * N) (t : buckets_cluster_topology) (i : nat)
    (paths : list string) (fs : fs_t) : fs_t :=
  match paths with
  | [] => fs
  | p :: paths =>
      save_topology envs t (S i) paths
        (fs_after fs (buckets_topology_save (envs i).1 (envs i).2 fs (Some p) (Some t)))
  end.

(** Rows shorter than [disks_per_set] would be read past their end. *)
Definition open_sets (read_ok : string → bool) (fs : fs_t) (paths : list string) (f : buckets_format)
    : c_result (list (list set_disk)) :=
  let n := disks_per_set (erasure f) in
  if forallb (λ set, (n <=? length set)%nat) (ei_sets (erasure f)) then
    Val ((λ set, open_disk read_ok fs paths <$> take n set) <$> ei_sets (erasure f))
  else Undef.

Definition buckets_multidisk_init (read_ok : string → bool) (envs : nat → write_env * N)
    (disk_paths : option (list string)) (g : option multidisk_ctx) (fs : fs_t)
    : c_result (Z * option multidisk_ctx * fs_t) :=
  match disk_paths with
  | None | Some [] => Val (-1, g, fs)
  | Some (p :: _ as paths) =>
      match g with
      | Some _ => Val (0, g, fs)
      | None =>
          match first_format read_ok fs paths with
          | None => Val (-1, None, fs)
          | Some f =>
              let* sets := open_sets read_ok fs paths f in
              match buckets_topology_load (read_ok p) fs (Some p) with
              | Some t => Val (0, Some (MultidiskCtx sets f (Some t)), fs)
              | None =>
                  let t := buckets_topology_from_format (Some f) in
                  Val (0, Some (MultidiskCtx sets f t),
                       match t with Some t => save_topology envs t 0 paths fs | None => fs end)
              end
          end
      end
  end.

Definition buckets_multidisk_cleanup (g : option multidisk_ctx) : option multidisk_ctx := None.

(** ** Sets *)

Definition get_set (g : option multidisk_ctx) (set_index : Z) : option (list set_disk) :=
  match g with
  | None => None
  | Some g => if set_index <? 0 then None else md_sets g !! Z.to_nat set_index
  end.

(** The path of a disk that can be used. *)
Definition usable (d : set_disk) : option string := if sd_online d then sd_path d else None.

Definition buckets_multidisk_get_set_disks (g : option multidisk_ctx) (set_index : Z)
    (max_disks : nat) : list string :=
  match get_set g set_index with
  | None => []
  | Some set => take max_disks (omap usable set)
  end.

Definition buckets_multidisk_get_online_count (g : option multidisk_ctx) (set_index : Z) : Z :=
  match get_set g set_index with
  | None => -1
  | Some set => Z.of_nat (length (filter (λ d, sd_online d = true) set))
  end.

Definition buckets_multidisk_mark_offline (g : option multidisk_ctx) (set_index disk_index : Z)
    : Z * option multidisk_ctx :=
  match g, get_set g set_index with
  | Some g, Some set =>
      if (disk_index <? 0) || (Z.of_nat (length set) <=? disk_index) then (-1, Some g)
      else
        let set := alter (λ d, SetDisk (sd_path d) (sd_uuid d) false) (Z.to_nat disk_index) set in
        (0, Some (MultidiskCtx (<[Z.to_nat set_index := set]> (md_sets g)) (md_format g)
                    (md_topology g)))
  | g, _ => (-1, g)
  end.

Definition buckets_multidisk_stats (g : option multidisk_ctx) : nat * nat * nat :=
  match g with
  | None => (0, 0, 0)%nat
  | Some g => (length (md_sets g), length (concat (md_sets g)),
               length (filter (λ d, sd_online d = true) (concat (md_sets g))))
  end.

(** ** Reading, writing, comparing, healing *)

Definition required_quorum (set : list set_disk) : nat := length set / 2 + 1.

Definition read_disk (env : disk_env) (fs : fs_t) (object_path : string) (i : nat) (d : set_disk)
    : c_result (option xl_meta) :=
  match usable d with
  | None => Val None
  | Some p => buckets_read_xl_meta (de_read env i) fs p object_path
  end.

Fixpoint read_disks (env : disk_env) (fs : fs_t) (object_path : string) (i : nat)
    (set : list set_disk) : c_result (list (option xl_meta)) :=
  match set with
  | [] => Val []
  | d :: set =>
      let* m := read_disk env fs object_path i d in
      let* ms := read_disks env fs object_path (S i) set in
      Val (m :: ms)
  end.

Fixpoint first_read (i : nat) (ms : list (option xl_meta)) : option (nat * xl_meta) :=
  match ms with
  | [] => None
  | Some m :: _ => Some (i, m)
  | None :: ms => first_read (S i) ms
  end.

(** The first copy, which is returned by copying its pointers; the copies of all disks but the
    first are then freed. [live] tells whether the pointers are still good. *)
Record read_meta := ReadMeta { rm_meta : xl_meta; rm_live : bool }.

Definition buckets_multidisk_read_xl_meta (env : disk_env) (g : option multidisk_ctx) (fs : fs_t)
    (set_index : Z) (object_path : string) : c_result (option read_meta) :=
  match get_set g set_index with
  | None => Val None
  | Some set =>
      let* ms := read_disks env fs object_path 0 set in
      if (length (omap id ms) <? required_quorum set)%nat then Val None
      else
        Val (match first_read 0 ms with
             | Some (i, m) => Some (ReadMeta m (i =? 0)%nat)
             | None => None
             end)
  end.

(** The result of the write to each usable disk, counted. *)
Fixpoint write_disks (env : disk_env) (object_path : string) (m : xl_meta) (i : nat)
    (set : list set_disk) (fs : fs_t) : c_result (nat * fs_t) :=
  match set with
  | [] => Val (0%nat, fs)
  | d :: set =>
      match usable d with
      | None => write_disks env object_path m (S i) set fs
      | Some p =>
          let* r := buckets_write_xl_meta (de_write env i).1 (de_write env i).2 fs p object_path m in
          let* rest := write_disks env object_path m (S i) set (default fs (last r.2)) in
          Val ((if r.1 =? 0 then S rest.1 else rest.1), rest.2)
      end
  end.

Definition buckets_multidisk_write_xl_meta (env : disk_env) (g : option multidisk_ctx) (fs : fs_t)
    (set_index : Z) (object_path : string) (m : xl_meta) : c_result (Z * fs_t) :=
  match get_set g set_index with
  | None => Val (-1, fs)
  | Some set =>
      let* r := write_disks env object_path m 0 set fs in
      Val (if (r.1 <? required_quorum set)%nat then -1 else 0, r.2)
  end.

(** Two copies count as the same when size and time agree. *)
Definition same_stat (a b : xl_meta) : bool :=
  (stat_size a =? stat_size b) && strcmp_eq (stat_modTime a) (stat_modTime b).

Fixpoint differing (reference : xl_meta) (i : nat) (ms : list (option xl_meta)) : list nat :=
  match ms with
  | [] => []
  | Some m :: ms =>
      if same_stat m reference then differing reference (S i) ms
      else i :: differing reference (S i) ms
  | None :: ms => differing reference (S i) ms
  end.

(** The number of disks whose copy differs from the first one, and the first of them. *)
Definition buckets_multidisk_validate_xl_meta (env : disk_env) (g : option multidisk_ctx) (fs : fs_t)
    (set_index : Z) (object_path : string) (max_inconsistent : nat) : c_result (Z * list nat) :=
  match get_set g set_index with
  | None => Val (-1, [])
  | Some set =>
      let* ms := read_disks env fs object_path 0 set in
      if (length (omap id ms) <? 2)%nat then Val (0, [])
      else
        match first_read 0 ms with
        | None => Val (0, [])
        | Some (_, reference) =>
            let l := differing reference 0 ms in
            Val (Z.of_nat (length l), take max_inconsistent l)
        end
  end.

(** The reference to the disks whose copy is missing or differs. *)
Fixpoint heal_disks (env : disk_env) (object_path : string) (reference : xl_meta) (i : nat)
    (set : list set_disk) (fs : fs_t) : c_result (nat * fs_t) :=
  match set with
  | [] => Val (0%nat, fs)
  | d :: set =>
      match usable d with
      | None => heal_disks env object_path reference (S i) set fs
      | Some p =>
          let* current := buckets_read_xl_meta (de_read env i) fs p object_path in
          if (match current with Some c => same_stat c reference | None => false end) then
            heal_disks env object_path reference (S i) set fs
          else
            let* r := buckets_write_xl_meta (de_write env i).1 (de_write env i).2 fs p object_path
                        reference in
            let* rest := heal_disks env object_path reference (S i) set (default fs (last r.2)) in
            Val ((if r.1 =? 0 then S rest.1 else rest.1), rest.2)
      end
  end.

(** The reference is freed at the end; when the read has freed it already that is undefined. *)
Definition buckets_multidisk_heal_xl_meta (env : disk_env) (g : option multidisk_ctx) (fs : fs_t)
    (set_index : Z) (object_path : string) : c_result (Z * fs_t) :=
  match get_set g set_index with
  | None => Val (-1, fs)
  | Some set =>
      let* r := buckets_multidisk_read_xl_meta env g fs set_index object_path in
      match r with
      | None => Val (-1, fs)
      | Some r =>
          if rm_live r then
            let* h := heal_disks env object_path (rm_meta r) 0 set fs in
            Val (Z.of_nat h.1, h.2)
          else Undef
      end
  end.

(** Not implemented by the source: it only checks its arguments. *)
Definition buckets_multidisk_scrub_set (g : option multidisk_ctx) (set_index : Z) : Z :=
  match get_set g set_index with None => -1 | Some _ => 0 end.
End MultiDisk.

(** ** Reading and writing the disks of a set *)

(** The directories of the usable disks are distinct, and the paths fit their buffers. *)
Record set_ok (set : list set_disk) (object_path : string) : Prop := SetOk {
  so_distinct : NoDup (omap usable set);
  so_short p : p ∈ omap usable set → short_path p object_path
}.

Lemma set_ok_cons d set op : set_ok (d :: set) op → set_ok set op.
Proof.
  intros [Hnd Hs]. cbn in Hnd, Hs. destruct (usable d) as [p|]; [|by split].
  apply NoDup_cons in Hnd as [_ Hnd]. split; [done|]. intros q Hq. apply Hs. set_solver.
Qed.

(** A file that no write to these disks can touch. *)
Definition untouched (q : string) (op : string) (paths : list string) : Prop :=
  ∀ p pid, p ∈ paths → q ≠ meta_path p op ∧ q ≠ temp_path (meta_path p op) pid.

Lemma meta_untouched p op paths :
  short_path p op → (∀ p', p' ∈ paths → short_path p' op) → p ∉ paths →
  untouched (meta_path p op) op paths.
Proof.
  intros Hs Hall Hp p' pid Hp'. split.
  - intros E. apply Hp. apply meta_path_inj in E; [by subst|done|by apply Hall].
  - apply not_eq_sym. eapply temp_path_last; [by apply meta_path_last|done].
Qed.

Section Disks.
Context `{CJson} (op : string) (env : disk_env).

(** The copy of a disk depends on its own file. *)
Lemma read_disk_frame fs fs' i d :
  (∀ p, usable d = Some p → fs' !! meta_path p op = fs !! meta_path p op) →
  read_disk env fs' op i d = read_disk env fs op i d.
Proof using Type.
  intros Hf. unfold read_disk. destruct (usable d) as [p|]; [|done].
  unfold buckets_read_xl_meta, buckets_atomic_read. by rewrite Hf.
Qed.

Lemma read_disks_frame fs fs' set i :
  (∀ p, p ∈ omap usable set → fs' !! meta_path p op = fs !! meta_path p op) →
  read_disks env fs' op i set = read_disks env fs op i set.
Proof using Type.
  revert i. induction set as [|d set IH]; intros i Hf; [done|]. cbn [read_disks].
  rewrite (read_disk_frame fs fs'), IH; [done| |].
  - intros p Hp. apply Hf. cbn. destruct (usable d); set_solver.
  - intros p Hp. apply Hf. cbn. rewrite Hp. set_solver.
Qed.

Lemma read_disks_cons fs i d set ms :
  read_disks env fs op i (d :: set) = Val ms →
  ∃ m ms', ms = m :: ms' ∧ read_disk env fs op i d = Val m ∧ read_disks env fs op (S i) set = Val ms'.
Proof using Type.
  cbn [read_disks]. destruct (read_disk env fs op i d) as [m|]; [|done]. cbn [c_bind].
  destruct (read_disks env fs op (S i) set) as [ms'|]; [|done]. intros [= <-]. eauto.
Qed.

Lemma read_disks_length fs i set ms : read_disks env fs op i set = Val ms → length ms = length set.
Proof using Type.
  revert i ms. induction set as [|d set IH]; intros i ms; [by intros [= <-]|].
  intros (m & ms' & -> & _ & Hms)%read_disks_cons. cbn. by rewrite (IH _ _ Hms).
Qed.

(** A copy that agrees with the reference, as the code compares: size and time. *)
Definition agrees (reference : xl_meta) (m : option xl_meta) : bool :=
  match m with Some c => same_stat c reference | None => false end.

(** What healing makes of a disk that holds [m]. *)
Definition healed_copy (reference : xl_meta) (d : set_disk) (m : option xl_meta) : option xl_meta :=
  match usable d with
  | None => None
  | Some _ => if agrees reference m then m else Some (xl_normal reference)
  end.

(** The paths of the disks that are healed: they can be used, and their copy is missing or
    different. *)
Fixpoint healed_paths (reference : xl_meta) (set : list set_disk) (ms : list (option xl_meta)) : list string :=
  match set, ms with
  | d :: set, m :: ms =>
      match usable d with
      | Some p => if agrees reference m then healed_paths reference set ms else p :: healed_paths reference set ms
      | None => healed_paths reference set ms
      end
  | _, _ => []
  end.

Lemma healed_paths_usable reference set ms p : p ∈ healed_paths reference set ms → p ∈ omap usable set.
Proof using Type.
  revert ms. induction set as [|d set IH]; intros [|m ms]; cbn; try set_solver.
  destruct (usable d); [destruct (agrees reference m)|]; set_solver.
Qed.

Lemma untouched_mono q paths paths' :
  (∀ p, p ∈ paths → p ∈ paths') → untouched q op paths' → untouched q op paths.
Proof using Type. intros Hs Hq p pid Hp. by apply Hq, Hs. Qed.

Context {json_laws : CJsonLaws} (prints : ∀ j, is_Some (cJSON_Print j)).
Context (reads : ∀ j, de_read env j = true) (writes : ∀ j, (de_write env j).1 = write_env_ok).

(** A copy that is written is read back, and no other file changes. *)
Lemma write_disk_ok p i fs m :
  xl_wf m → short_path p op →
  ∃ st, buckets_write_xl_meta (de_write env i).1 (de_write env i).2 fs p op m = Val (0, st) ∧
    buckets_read_xl_meta true (default fs (last st)) p op = Val (Some (xl_normal m)) ∧
    ∀ q, q ≠ meta_path p op → (∀ pid, q ≠ temp_path (meta_path p op) pid) →
      default fs (last st) !! q = fs !! q.
Proof using json_laws prints writes.
  intros Hm Hs. rewrite writes. destruct (write_xl_meta_succeeds (de_write env i).2 fs p op m Hm prints) as [st Hw].
  exists st. split; [done|]. destruct (write_xl_meta_file _ _ _ _ _ _ _ _ Hm Hw) as [Hr Hf].
  destruct (Hr eq_refl) as (s & Hfile & Hjson). split; [by eapply read_xl_meta_file|]. auto.
Qed.

Lemma same_stat_normal m : same_stat (xl_normal m) m = true.
Proof using Type. unfold same_stat, strcmp_eq. cbn. rewrite Z.eqb_refl. by rewrite bool_decide_eq_true_2. Qed.

(** Healing leaves on every disk exactly its healed copy. *)
Lemma heal_disks_exact reference set i fs ms :
  xl_wf reference → set_ok set op → read_disks env fs op i set = Val ms →
  ∃ fs', heal_disks env op reference i set fs = Val (length (healed_paths reference set ms), fs') ∧
    (∀ q, untouched q op (healed_paths reference set ms) → fs' !! q = fs !! q) ∧
    read_disks env fs' op i set = Val (zip_with (healed_copy reference) set ms).
Proof using json_laws prints reads writes.
  intros Href. revert i fs ms. induction set as [|d set IH]; intros i fs ms Hok Hms.
  { exists fs. cbn in Hms. by injection Hms as <-. }
  apply read_disks_cons in Hms as (m & ms' & -> & Hm & Hms). pose proof (set_ok_cons _ _ _ Hok) as Hok'.
  cbn [heal_disks read_disks healed_paths zip_with]. unfold healed_copy at 1. destruct (usable d) as [p|] eqn:Hu.
  2:{ destruct (IH (S i) fs ms' Hok' Hms) as (fs' & -> & Hf & Hr). exists fs'. split_and!; [done..|].
      unfold read_disk. rewrite Hu. cbn [c_bind]. by rewrite Hr. }
  assert (p ∉ omap usable set ∧ short_path p op) as [Hp Hsp].
  { destruct Hok as [Hnd Hsh]. cbn in Hnd, Hsh. rewrite Hu in Hnd, Hsh. apply NoDup_cons in Hnd as [? _].
    split; [done|]. apply Hsh. set_solver. }
  assert (untouched (meta_path p op) op (healed_paths reference set ms')) as Hmu.
  { eapply untouched_mono; [apply healed_paths_usable|]. by apply meta_untouched; [..|apply (so_short _ _ Hok')|]. }
  unfold read_disk in Hm. rewrite Hu in Hm. rewrite Hm. cbn [c_bind].
  change (match m with Some c => same_stat c reference | None => false end) with (agrees reference m).
  destruct (agrees reference m) eqn:Hsame.
  - destruct (IH (S i) fs ms' Hok' Hms) as (fs' & -> & Hf & Hr). exists fs'. split_and!; [done..|].
    rewrite (read_disk_frame fs) by (intros ? [= <-]%(eq_trans (eq_sym Hu)); by apply Hf).
    unfold read_disk. rewrite Hu, Hm. cbn [c_bind]. by rewrite Hr.
  - destruct (write_disk_ok p i fs reference Href Hsp) as (st & -> & Hrd & Hfr). cbn [c_bind fst snd].
    set (fs1 := default fs (last st)) in *. destruct (IH (S i) fs1 ms' Hok') as (fs' & -> & Hf & Hr).
    { rewrite (read_disks_frame fs fs1); [done|]. intros p' Hp'.
      pose proof (so_short _ _ Hok' p' Hp') as Hsp'. apply Hfr.
      - intros E. apply Hp. apply meta_path_inj in E; [by subst|done..].
      - intros pid. apply not_eq_sym. eapply temp_path_last; [by apply meta_path_last|done]. }
    cbn [c_bind fst snd]. exists fs'. split; [done|]. split.
    + intros q Hq. rewrite Hf by (eapply untouched_mono; [|exact Hq]; set_solver).
      apply Hfr; [apply (Hq p 0%N); set_solver|]. intros pid. apply (Hq p pid). set_solver.
    + rewrite (read_disk_frame fs1) by (intros ? [= <-]%(eq_trans (eq_sym Hu)); by apply Hf).
      unfold read_disk. rewrite Hu, reads, Hrd. cbn [c_bind]. by rewrite Hr.
Qed.

Lemma healed_agree reference set ms m :
  Some m ∈ zip_with (healed_copy reference) set ms → same_stat m reference = true.
Proof using Type.
  intros (i & Hi)%list_elem_of_lookup. apply lookup_zip_with_Some in Hi as (d & c & E & _ & _).
  unfold healed_copy in E. destruct (usable d); [|done]. destruct (agrees reference c) eqn:Ha.
  - subst c. exact Ha.
  - injection E as ->. apply same_stat_normal.
Qed.
End Disks.

Lemma differing_nil reference ms i :
  (∀ m, Some m ∈ ms → same_stat m reference = true) → differing reference i ms = [].
Proof.
  revert i. induction ms as [|[m|] ms IH]; intros i Hs; cbn; [done| |].
  - rewrite Hs by set_solver. apply IH. set_solver.
  - apply IH. set_solver.
Qed.

Lemma same_stat_trans a b c : same_stat a c = true → same_stat b c = true → same_stat a b = true.
Proof.
  unfold same_stat, strcmp_eq. rewrite !andb_true_iff, !Z.eqb_eq, !bool_decide_eq_true. intros [-> ->] [-> ->]. done.
Qed.

(** A copy that agrees was read. *)
Lemma agreeing_readable reference ms :
  (length (filter (λ m, agrees reference m = true) ms) ≤ length (omap id ms))%nat.
Proof.
  induction ms as [|[m|] ms IH]; [done|..]; rewrite filter_cons; cbn [agrees omap list_omap id].
  - case_decide; cbn [length]; lia.
  - case_decide; [done|]. exact IH.
Qed.

Lemma first_read_elem i ms j m : first_read i ms = Some (j, m) → Some m ∈ ms.
Proof.
  revert i. induction ms as [|[m'|] ms IH]; intros i; cbn; [done| |].
  - intros [= _ ->]. set_solver.
  - intros Hf%IH. set_solver.
Qed.

(** ** Properties *)

(** C17: healing makes the set consistent: when the first disk of the set holds a copy with
    which a quorum of the copies agrees on size and time, and the disks work, heal writes
    exactly the copy of the first disk to exactly the disks whose copy is missing or differs
    in size or time, and returns their number. Every other disk keeps the copy it had, no
    file changes but the metadata of the healed disks and their temporary files, and a
    validation finds no inconsistent disk. *)
Theorem multidisk_heal_consistent `{CJsonLaws} env g fs set_index op set reference ms max :
  let copies := Some reference :: ms in
  (∀ j, is_Some (cJSON_Print j)) → (∀ j, de_read env j = true) →
  (∀ j, (de_write env j).1 = write_env_ok) →
  get_set g set_index = Some set → set_ok set op →
  read_disks env fs op 0 set = Val copies → xl_wf reference →
  (required_quorum set ≤ length (filter (λ m, agrees reference m = true) copies))%nat →
  ∃ fs', buckets_multidisk_heal_xl_meta env g fs set_index op
           = Val (Z.of_nat (length (healed_paths reference set copies)), fs') ∧
    read_disks env fs' op 0 set = Val (zip_with (healed_copy reference) set copies) ∧
    (∀ q, untouched q op (healed_paths reference set copies) → fs' !! q = fs !! q) ∧
    buckets_multidisk_validate_xl_meta env g fs' set_index op max = Val (0, []).
Proof.
  intros copies Hprint Hreads Hwrites Hset Hok Hms Hwf Hq.
  destruct (heal_disks_exact op env Hprint Hreads Hwrites reference set 0 fs _ Hwf Hok Hms) as (fs' & Hheal & Hf & Hr).
  exists fs'. split; [|split; [done|split; [done|]]].
  - unfold buckets_multidisk_heal_xl_meta, buckets_multidisk_read_xl_meta. rewrite Hset, Hms. cbn [c_bind].
    rewrite (proj2 (Nat.ltb_ge _ _)) by (etrans; [exact Hq|apply agreeing_readable]).
    cbn [copies first_read c_bind rm_live Nat.eqb rm_meta]. fold copies. by rewrite Hheal.
  - unfold buckets_multidisk_validate_xl_meta. rewrite Hset, Hr. cbn [c_bind].
    destruct (_ <? 2)%nat; [done|]. destruct (first_read 0 _) as [[j m]|] eqn:Hfr; [|done].
    rewrite differing_nil; [by destruct max|]. intros m' Hm'%healed_agree.
    apply (same_stat_trans _ _ reference); [done|]. eapply healed_agree, first_read_elem, Hfr.
Qed.

(** When the first disk has no copy, the copy that is returned has been freed, and healing
    frees it again: a set that most needs healing cannot be healed. *)
Lemma multidisk_heal_first_missing `{CJson} env g fs set_index op set ms :
  get_set g set_index = Some set → read_disks env fs op 0 set = Val (None :: ms) →
  (required_quorum set ≤ length (omap id ms))%nat →
  buckets_multidisk_heal_xl_meta env g fs set_index op = Undef.
Proof.
  intros Hset Hms Hq. unfold buckets_multidisk_heal_xl_meta, buckets_multidisk_read_xl_meta.
  rewrite Hset, Hms. cbn [c_bind omap list_omap id]. rewrite (proj2 (Nat.ltb_ge _ _)) by done.
  assert (∀ i, (1 ≤ i)%nat → (1 ≤ length (omap id ms))%nat → ∃ j m, first_read i ms = Some (j, m) ∧ (1 ≤ j)%nat) as Hf.
  { clear. induction ms as [|[m|] ms IH]; intros i Hi Hl; cbn in *; [lia|by eexists _, _|].
    apply (IH (S i)); [lia|done]. }
  destruct (Hf 1%nat) as (j & m & Hj & Hlt); [done|unfold required_quorum in Hq; lia|].
  cbn [first_read]. rewrite Hj. cbn [c_bind rm_live]. by rewrite (proj2 (Nat.eqb_neq _ _)) by lia.
Qed.

(** Healing takes the first copy, not the one of the majority: the reference is whatever the
    first disk holds. *)
Lemma multidisk_read_is_first `{CJson} env g fs set_index op set m ms :
  get_set g set_index = Some set → read_disks env fs op 0 set = Val (Some m :: ms) →
  (required_quorum set ≤ length (omap id (Some m :: ms)))%nat →
  buckets_multidisk_read_xl_meta env g fs set_index op = Val (Some (ReadMeta m true)).
Proof.
  intros Hset Hms Hq. unfold buckets_multidisk_read_xl_meta. rewrite Hset, Hms. cbn [c_bind].
  by rewrite (proj2 (Nat.ltb_ge _ _)).
Qed.

Import BitsCJson.

(** Three disks, the last of which has lost its copy. *)
Definition example_set : list set_disk :=
  [SetDisk (Some "/a") "u1" true; SetDisk (Some "/b") "u2" true; SetDisk (Some "/c") "u3" true].

Definition example_ctx : option multidisk_ctx :=
  Some (MultidiskCtx [example_set]
          (Format (FormatMeta "" "" "") (ErasureInfo "" "" [] 3 "")) None).

Definition example_env : disk_env := DiskEnv (λ _, true) (λ _, (write_env_ok, 7%N)).

Lemma example_set_ok : set_ok example_set "ab/cd/".
Proof.
  split.
  - cbn. repeat (apply NoDup_cons; split; [set_solver|]). constructor.
  - intros p Hp. unfold short_path. assert (strlen p = 2)%nat as ->; [|cbn; lia].
    cbn in Hp. rewrite !elem_of_cons, elem_of_nil in Hp. by destruct Hp as [->|[->|[->|[]]]].
Qed.

(** The third disk gets the copy. *)
Lemma multidisk_heal_consistent_witness :
  ∃ fs fs', buckets_multidisk_heal_xl_meta example_env example_ctx fs 0 "ab/cd/" = Val (1, fs') ∧
    read_disks example_env fs' "ab/cd/" 0 example_set
      = Val [Some example_meta; Some example_meta; Some (xl_normal example_meta)] ∧
    buckets_multidisk_validate_xl_meta example_env example_ctx fs' 0 "ab/cd/" 8 = Val (0, []).
Proof.
  destruct (xl_meta_to_json_total example_meta example_meta_wf) as [[s|] Hs]; [|discriminate Hs].
  pose proof (xl_meta_json_roundtrip _ _ example_meta_wf Hs) as Hj.
  set (fs := <[meta_path "/a" "ab/cd/" := s]> (<[meta_path "/b" "ab/cd/" := s]> (∅ : fs_t))).
  exists fs.
  destruct (multidisk_heal_consistent example_env example_ctx fs 0 "ab/cd/" example_set example_meta
              [Some example_meta; None] 8) as (fs' & Hheal & Hr & _ & Hval).
  - intros j. by eexists.
  - done.
  - done.
  - done.
  - exact example_set_ok.
  - unfold read_disks, read_disk, example_set, usable. cbn [sd_online sd_path de_read example_env].
    rewrite (read_xl_meta_file fs "/a" "ab/cd/" s example_meta) by (unfold fs; rewrite ?lookup_insert_eq; done).
    cbn [c_bind].
    rewrite (read_xl_meta_file fs "/b" "ab/cd/" s example_meta).
    + cbn [c_bind]. unfold buckets_read_xl_meta, buckets_atomic_read.
      replace (fs !! meta_path "/c" "ab/cd/") with (@None string); [done|].
      unfold fs. by rewrite !lookup_insert_ne.
    + unfold fs. rewrite lookup_insert_ne, lookup_insert_eq; done.
    + done.
  - exact example_meta_wf.
  - apply Nat.leb_le. vm_compute. reflexivity.
  - exists fs'. split; [exact Hheal|]. split; [exact Hr|exact Hval].
Defined.
