(* ===== verification/Peers.v ===== *)
(** * The nodes of a cluster as storage sees them (src/src/storage/distributed.c)

    Which disks belong to this node, and what a node may ask another one to do. The calls
    that leave the node go through sockets; they are the operations of the class [Peers], on
    a state [world] of the other nodes. *)

From S2P Require Import Prelude CInt CString CSearch DiskIO GroupCommit XlMeta Chunk.
From Stdlib Require Import Ascii.

Local Open Scope c_scope.

(** ** Local and remote disks *)

(** The endpoint is kept in an array of 256 characters. *)
Definition buckets_distributed_set_local_endpoint (node_endpoint : string) : string :=
  strncpy 255 node_endpoint.

(** ["http://node1:9001/mnt/disk1"] to ["http://node1:9001"]; [None] is an error. *)
Definition buckets_distributed_extract_node_endpoint (disk_endpoint : string) (size : nat)
    : option string :=
  if (size =? 0)%nat then None
  else
    match strstr disk_endpoint "://" with
    | None => Some ""
    | Some (scheme, rest) =>
        let endpoint_len :=
          match strchr (str_drop 3 rest) "/" with
          | Some (host, _) => (strlen scheme + 3 + strlen host)%nat
          | None => strlen disk_endpoint
          end in
        if (size <=? endpoint_len)%nat then None
        else Some (strncpy endpoint_len disk_endpoint)
    end.

Definition buckets_distributed_is_local_disk (g_local_node_endpoint disk_endpoint : string) : bool :=
  if strcmp_eq g_local_node_endpoint "" then true
  else
    match buckets_distributed_extract_node_endpoint disk_endpoint 256 with
    | None => true
    | Some node_endpoint =>
        if strcmp_eq node_endpoint "" then true
        else strcmp_eq node_endpoint g_local_node_endpoint
    end.

(** ** What other nodes do *)

Record batch_chunk := BatchChunk {
  bc_index : Z;
  bc_data : list Z;
  bc_bucket : string;
  bc_object : string;
  bc_disk_path : string
}.

(** Each call names the node, the object and a disk of that node; 0 is success. *)
Class Peers := {
  world : Type;
  buckets_binary_write_chunk :
    world → string → string → string → Z → list Z → string → Z * world;
  buckets_binary_read_chunk : world → string → string → string → Z → string → option (list Z);
  buckets_binary_batch_write_chunks : world → string → list batch_chunk → Z * world;
  buckets_distributed_write_xlmeta :
    world → string → string → string → string → xl_meta → Z * world;
  buckets_distributed_read_xlmeta : world → string → string → string → string → option xl_meta;
  rpc_delete_chunk : world → string → string → string → Z → string → Z * world
}.

(** A node and the others. *)
Record cluster `{Peers} := Cluster { cl_node : node; cl_world : world }.

Definition with_node `{Peers} (n : node) (c : cluster) : cluster := Cluster _ n (cl_world c).
Definition with_world `{Peers} (w : world) (c : cluster) : cluster := Cluster _ (cl_node c) w.

(** ** Locality *)

Lemma strncpy_app_exact s t : strncpy (strlen s) (s +:+ t) = s.
Proof.
  unfold strncpy. induction s as [|c s IH]; [by destruct t|].
  change (String c s +:+ t) with (String c (s +:+ t)). exact (f_equal (String c) IH).
Qed.

(** The disks of a node with an endpoint [scheme://host] are those whose endpoint continues
    it with a path. *)
Lemma extract_node_endpoint_ok scheme host path :
  no_char ":" scheme → no_char "/" host →
  (strlen scheme + 3 + strlen host < 256)%nat →
  buckets_distributed_extract_node_endpoint (scheme +:+ "://" +:+ host +:+ "/" +:+ path) 256
    = Some (scheme +:+ "://" +:+ host).
Proof.
  intros Hs Hh Hl. unfold buckets_distributed_extract_node_endpoint.
  change (256 =? 0)%nat with false. cbv iota.
  change (scheme +:+ "://" +:+ host +:+ "/" +:+ path) with
    (scheme +:+ String ":" ("//" +:+ (host +:+ "/" +:+ path))) at 1.
  rewrite (strstr_app scheme ":" "//" (host +:+ "/" +:+ path)) by done.
  change (str_drop 3 (String ":" ("//" +:+ host +:+ "/" +:+ path))) with
    (str_drop (strlen "://") ("://" +:+ (host +:+ String "/" path))).
  rewrite str_drop_app, strchr_app by done.
  rewrite (proj2 (Nat.leb_gt _ _)) by lia. f_equal.
  replace (strlen scheme + 3 + strlen host)%nat with (strlen (scheme +:+ "://" +:+ host))
    by (rewrite !strlen_app; cbn; lia).
  rewrite <- !string_app_assoc. rewrite (string_app_assoc scheme).
  rewrite (string_app_assoc _ "/" path). apply strncpy_app_exact.
Qed.

(** A disk is local exactly on the node that its endpoint names. *)
Lemma is_local_disk_ok local scheme host path :
  local ≠ "" → no_char ":" scheme → no_char "/" host →
  (strlen scheme + 3 + strlen host < 256)%nat →
  buckets_distributed_is_local_disk local (scheme +:+ "://" +:+ host +:+ "/" +:+ path) = true ↔
  local = scheme +:+ "://" +:+ host.
Proof.
  intros Hne Hs Hh Hl. unfold buckets_distributed_is_local_disk, strcmp_eq.
  rewrite bool_decide_eq_false_2, extract_node_endpoint_ok by done.
  rewrite bool_decide_eq_false_2.
  - rewrite bool_decide_eq_true. naive_solver.
  - intros E%(f_equal strlen). rewrite !strlen_app in E. cbn in E. lia.
Qed.
