(* ===== verification/ParallelChunks.v ===== *)
(** * Parallel chunk operations (src/src/storage/parallel_chunks.c,
    src/src/storage/parallel_chunks_batched.c)

    One thread per chunk, or per node, writes, reads or deletes; the caller waits for all of
    them. The argument [order] lists the threads that could be created, in the order in which
    they do their work: every order is possible. A disk is this node's, or the call goes to
    the node that owns it. *)

From S2P Require Import Prelude CInt CString CSearch DiskIO GroupCommit Json XXHash Layout XlMeta.
From S2P Require Import Chunk Topology Placement Peers.
From Stdlib Require Import Ascii.

Local Open Scope c_scope.

Definition MAX_PARALLEL_CHUNKS : nat := 32.

(** ** Threads *)

(** The results of the threads that ran, and the state they leave. *)
Fixpoint run_threads {S R} (work : nat → S → c_result (R * S)) (order : list nat) (s : S)
    : c_result (gmap nat R * S) :=
  match order with
  | [] => Val (∅, s)
  | i :: order =>
      let* r := work i s in
      let* q := run_threads work order r.2 in
      Val (<[i := r.1]> q.1, q.2)
  end.

(** The result of a thread that was not created stays -1. *)
Definition thread_result (results : gmap nat Z) (i : nat) : Z := default (-1) (results !! i).

(** [failed_count] *)
Definition failures (results : gmap nat Z) (n : nat) : nat :=
  length (filter (λ i, thread_result results i ≠ 0) (seq 0 n)).

Fixpoint map_result {A B} (f : A → c_result B) (l : list A) : c_result (list B) :=
  match l with
  | [] => Val []
  | a :: l => let* b := f a in let* r := map_result f l in Val (b :: r)
  end.

Section Parallel.
Context `{CJson} `{Peers}.
Context (g_local_node_endpoint : string).

(** [placement->disk_endpoints[0][0] != '\0'] *)
Definition has_endpoints (p : placement_result) : c_result bool :=
  let* ep := c_read (disk_endpoints p) 0 in Val (negb (strcmp_eq ep "")).

(** Where a task goes: to a local disk, or to the node of the endpoint; an endpoint that
    cannot be read falls back to local. *)
Definition task_route (has_endpoints : bool) (p : placement_result) (i : nat)
    : c_result (option string) :=
  if has_endpoints then
    let* ep := c_read (disk_endpoints p) i in
    if buckets_distributed_is_local_disk g_local_node_endpoint ep then Val None
    else Val (buckets_distributed_extract_node_endpoint ep 256)
  else Val None.

(** ** Writing chunks *)

(** [node_endpoint] is [None] for a local task. *)
Record chunk_task := ChunkTask {
  tk_index : Z;
  tk_bucket : string;
  tk_object : string;
  tk_object_path : string;
  tk_disk_path : string;
  tk_node_endpoint : option string;
  tk_data : list Z
}.

Definition init_task (bucket object object_path : string) (p : placement_result) (endpoints : bool)
    (chunk_data_array : list (list Z)) (i : nat) : c_result chunk_task :=
  let* disk_path := c_read (disk_paths p) i in
  let* data := c_read chunk_data_array i in
  let* route := task_route endpoints p i in
  Val (ChunkTask (Z.of_nat i + 1) (strncpy 255 bucket) (strncpy 1023 object)
         (strncpy 1535 object_path) (strncpy 511 disk_path) route data).

Definition chunk_write_worker (env : chunk_env) (task : chunk_task) (c : cluster)
    : c_result (Z * cluster) :=
  match tk_node_endpoint task with
  | None =>
      let (rc, n) := buckets_write_chunk env (cl_node c) (tk_disk_path task) (tk_object_path task)
                       (tk_index task) (tk_data task) in
      Val (rc, with_node n c)
  | Some node_endpoint =>
      let (rc, w) := buckets_binary_write_chunk (cl_world c) node_endpoint (tk_bucket task)
                       (tk_object task) (tk_index task) (tk_data task) (tk_disk_path task) in
      Val (rc, with_world w c)
  end.

(** The work of thread [i]. *)
Definition task_thread {S R T} (tasks : list T) (worker : nat → T → S → c_result (R * S)) (i : nat)
    (s : S) : c_result (R * S) :=
  let* task := c_read tasks i in worker i task s.

Definition buckets_parallel_write_chunks (envs : nat → chunk_env) (order : list nat)
    (bucket object object_path : string) (p : placement_result)
    (chunk_data_array : list (list Z)) (num_chunks : nat) (c : cluster) : c_result (Z * cluster) :=
  if (MAX_PARALLEL_CHUNKS <? num_chunks)%nat then Val (-1, c)
  else
    let* endpoints := has_endpoints p in
    let* tasks := map_result (init_task bucket object object_path p endpoints chunk_data_array)
                    (seq 0 num_chunks) in
    let* r := run_threads (task_thread tasks (λ i, chunk_write_worker (envs i))) order c in
    Val (if (0 <? failures r.1 num_chunks)%nat then -1 else 0, r.2).

(** ** Reading chunks *)

Definition init_read_task (bucket object object_path : string) (p : placement_result)
    (endpoints : bool) (i : nat) : c_result chunk_task :=
  let* disk_path := c_read (disk_paths p) i in
  let* route := task_route endpoints p i in
  Val (ChunkTask (Z.of_nat i + 1) (strncpy 255 bucket) (strncpy 1023 object)
         (strncpy 1535 object_path) (strncpy 511 disk_path) route []).

(** [None] is a failure. *)
Definition chunk_read_worker (read_ok : bool) (task : chunk_task) (c : cluster)
    : c_result (option (list Z) * cluster) :=
  Val (match tk_node_endpoint task with
       | None => buckets_read_chunk read_ok (n_fs (cl_node c)) (tk_disk_path task)
                   (tk_object_path task) (tk_index task)
       | Some node_endpoint =>
           buckets_binary_read_chunk (cl_world c) node_endpoint (tk_bucket task) (tk_object task)
             (tk_index task) (tk_disk_path task)
       end, c).

(** The number of chunks read and the chunks; [None] is -1. *)
Definition buckets_parallel_read_chunks (read_ok : nat → bool) (order : list nat)
    (bucket object object_path : string) (p : placement_result) (num_chunks : nat) (c : cluster)
    : c_result (option (nat * list (option (list Z)))) :=
  if (MAX_PARALLEL_CHUNKS <? num_chunks)%nat then Val None
  else
    let* endpoints := has_endpoints p in
    let* tasks := map_result (init_read_task bucket object object_path p endpoints)
                    (seq 0 num_chunks) in
    let* r := run_threads (task_thread tasks (λ i, chunk_read_worker (read_ok i))) order c in
    let chunks := (λ i, mjoin (r.1 !! i)) <$> seq 0 num_chunks in
    Val (Some (length (filter is_Some chunks), chunks)).

(** ** Writing and reading metadata *)

Definition with_index (i : Z) (m : xl_meta) : xl_meta :=
  XlMeta (xl_version m) (xl_format m) (xl_bucket m) (xl_object m) (stat_size m)
    (stat_modTime m) (ec_algorithm m) (ec_data m) (ec_parity m) (ec_blockSize m) i
    (ec_distribution m) (ec_checksums m) (content_type m) (etag m) (cache_control m)
    (content_disposition m) (content_encoding m) (content_language m) (expires m) (user_meta m)
    (versionId m) (isLatest m) (isDeleteMarker m) (deleteMarkerVersionId m) (inline_data m).

Record metadata_task := MetadataTask {
  mt_bucket : string;
  mt_object : string;
  mt_object_path : string;
  mt_disk_path : string;
  mt_node_endpoint : option string;
  mt_meta : xl_meta
}.

(** The endpoints of the placement are used only when they are there. *)
Definition metadata_route (endpoints : bool) (placement : option placement_result) (i : nat)
    : c_result (option string) :=
  match placement with Some p => task_route endpoints p i | None => Val None end.

Definition init_metadata_task (bucket object object_path : string)
    (placement : option placement_result) (paths : list string) (base_meta : xl_meta)
    (endpoints : bool) (i : nat) : c_result metadata_task :=
  let* disk_path := c_read paths i in
  let* route := metadata_route endpoints placement i in
  Val (MetadataTask (strncpy 255 bucket) (strncpy 1023 object) (strncpy 1535 object_path)
         (strncpy 511 disk_path) route (with_index (Z.of_nat i + 1) base_meta)).

Definition metadata_write_worker (env : write_env * N) (task : metadata_task) (c : cluster)
    : c_result (Z * cluster) :=
  match mt_node_endpoint task with
  | None =>
      let* r := buckets_write_xl_meta env.1 env.2 (n_fs (cl_node c)) (mt_disk_path task)
                  (mt_object_path task) (mt_meta task) in
      Val (r.1, with_node (with_fs (default (n_fs (cl_node c)) (last r.2)) (cl_node c)) c)
  | Some node_endpoint =>
      let (rc, w) := buckets_distributed_write_xlmeta (cl_world c) node_endpoint (mt_bucket task)
                       (mt_object task) (mt_disk_path task) (mt_meta task) in
      Val (rc, with_world w c)
  end.

Definition buckets_parallel_write_metadata (envs : nat → write_env * N) (order : list nat)
    (bucket object object_path : string) (placement : option placement_result)
    (paths : list string) (base_meta : xl_meta) (num_disks : nat) (endpoints : bool)
    (c : cluster) : c_result (Z * cluster) :=
  if (MAX_PARALLEL_CHUNKS <? num_disks)%nat then Val (-1, c)
  else
    let* tasks := map_result (init_metadata_task bucket object object_path placement paths
                                base_meta endpoints) (seq 0 num_disks) in
    let* r := run_threads (task_thread tasks (λ i, metadata_write_worker (envs i))) order c in
    Val (if (0 <? failures r.1 num_disks)%nat then -1 else 0, r.2).

(** The index of a read task is checked against the number of endpoints. *)
Definition init_metadata_read_task (bucket object object_path : string)
    (placement : option placement_result) (paths : list string) (endpoints : bool) (i : nat)
    : c_result metadata_task :=
  let* disk_path := c_read paths i in
  let* route :=
    match placement with
    | Some p => if (i <? length (disk_endpoints p))%nat then task_route endpoints p i else Val None
    | None => Val None
    end in
  Val (MetadataTask (strncpy 255 bucket) (strncpy 1023 object) (strncpy 1535 object_path)
         (strncpy 511 disk_path) route xl_meta_zero).

Definition metadata_read_worker (read_ok : bool) (task : metadata_task) (c : cluster)
    : c_result (option xl_meta * cluster) :=
  match mt_node_endpoint task with
  | None =>
      let* m := buckets_read_xl_meta read_ok (n_fs (cl_node c)) (mt_disk_path task)
                  (mt_object_path task) in
      Val (m, c)
  | Some node_endpoint =>
      Val (buckets_distributed_read_xlmeta (cl_world c) node_endpoint (mt_bucket task)
             (mt_object task) (mt_disk_path task), c)
  end.

(** The metadata of the first disk, by index, whose read succeeded. *)
Definition buckets_parallel_read_metadata (read_ok : nat → bool) (order : list nat)
    (bucket object object_path : string) (placement : option placement_result)
    (paths : list string) (num_disks : nat) (endpoints : bool) (c : cluster)
    : c_result (option xl_meta) :=
  if (num_disks =? 0)%nat then Val None
  else
    let num_disks := Nat.min num_disks MAX_PARALLEL_CHUNKS in
    let* tasks := map_result (init_metadata_read_task bucket object object_path placement paths
                                endpoints) (seq 0 num_disks) in
    let* r := run_threads (task_thread tasks (λ i, metadata_read_worker (read_ok i))) order c in
    Val (head (omap (λ i, mjoin (r.1 !! i)) (seq 0 num_disks))).

(** ** Deleting *)

(** The chunk and the metadata file are unlinked, each when the system lets it; the result is
    success either way. The directory is removed when it is empty, which no map of files
    shows. *)
Definition chunk_delete_worker (unlink_ok : bool * bool) (task : chunk_task) (c : cluster)
    : c_result (Z * cluster) :=
  match tk_node_endpoint task with
  | None =>
      let fs := n_fs (cl_node c) in
      let chunk := snprintf (2 * PATH_MAX) (tk_disk_path task +:+ "/" +:+ tk_object_path task +:+
                                            "part." +:+ print_u64 (tk_index task)) in
      let meta := snprintf (2 * PATH_MAX) (tk_disk_path task +:+ "/" +:+ tk_object_path task +:+
                                           "xl.meta") in
      let fs := if unlink_ok.1 then delete chunk fs else fs in
      let fs := if unlink_ok.2 then delete meta fs else fs in
      Val (0, with_node (with_fs fs (cl_node c)) c)
  | Some node_endpoint =>
      let (rc, w) := rpc_delete_chunk (cl_world c) node_endpoint (tk_bucket task) (tk_object task)
                       (tk_index task) (tk_disk_path task) in
      Val (rc, with_world w c)
  end.

Definition buckets_parallel_delete_chunks (unlink_ok : nat → bool * bool) (order : list nat)
    (bucket object object_path : string) (p : placement_result) (c : cluster)
    : c_result (Z * cluster) :=
  let num_disks := length (disk_paths p) in
  if (num_disks =? 0)%nat || (MAX_PARALLEL_CHUNKS <? num_disks)%nat then Val (-1, c)
  else
    let* endpoints := has_endpoints p in
    let* tasks := map_result (init_read_task bucket object object_path p endpoints)
                    (seq 0 num_disks) in
    let* r := run_threads (task_thread tasks (λ i, chunk_delete_worker (unlink_ok i))) order c in
    Val (if (failures r.1 num_disks <? num_disks)%nat then 0 else -1, r.2).

(** ** Writing chunks in batches (parallel_chunks_batched.c) *)

Definition MAX_BATCH_SIZE : nat := 16.

(** The chunks for one node; the local batch has the endpoint ["local"]. *)
Record node_batch := NodeBatch {
  nb_endpoint : string;
  nb_local : bool;
  nb_chunks : list batch_chunk
}.

(** The endpoint of chunk [i] and whether it is local; [None] is an error. *)
Definition batch_route (p : placement_result) (i : nat) : c_result (option (string * bool)) :=
  let* ep := c_read (disk_endpoints p) i in
  if buckets_distributed_is_local_disk g_local_node_endpoint ep then Val (Some ("local", true))
  else
    Val (match buckets_distributed_extract_node_endpoint ep 256 with
         | Some node_endpoint => Some (node_endpoint, false)
         | None => None
         end).

(** Finds the batch of the node, or opens one, and appends the chunk; [None] when a batch or
    the table is full. *)
Fixpoint add_to_batch (batches : list node_batch) (room : nat) (ep : string) (is_local : bool)
    (chunk : batch_chunk) : option (list node_batch) :=
  match batches with
  | [] =>
      match room with O => None | S _ => Some [NodeBatch ep is_local [chunk]] end
  | b :: batches =>
      if strcmp_eq (nb_endpoint b) ep then
        if (MAX_BATCH_SIZE <=? length (nb_chunks b))%nat then None
        else Some (NodeBatch (nb_endpoint b) (nb_local b) (nb_chunks b ++ [chunk]) :: batches)
      else
        match add_to_batch batches (pred room) ep is_local chunk with
        | Some batches => Some (b :: batches)
        | None => None
        end
  end.

(** [strncpy] into [n + 1] bytes of the stack that nothing has cleared: a longer string has
    no terminator. *)
Definition strncpy_stack (n : nat) (s : string) : c_result string :=
  if (strlen s <? n)%nat then Val s else Undef.

(** The loop that classifies the chunks. *)
Fixpoint group_chunks (bucket object : string) (p : placement_result)
    (chunk_data_array : list (list Z)) (idxs : list nat) (batches : list node_batch)
    : c_result (option (list node_batch)) :=
  match idxs with
  | [] => Val (Some batches)
  | i :: idxs =>
      let* route := batch_route p i in
      match route with
      | None => Val None
      | Some (ep, is_local) =>
          let* data := c_read chunk_data_array i in
          let* b := strncpy_stack 255 bucket in
          let* o := strncpy_stack 1023 object in
          let* disk_path := c_read (disk_paths p) i in
          let* d := strncpy_stack 511 disk_path in
          match add_to_batch batches 32 ep is_local (BatchChunk (Z.of_nat i + 1) data b o d) with
          | None => Val None
          | Some batches => group_chunks bucket object p chunk_data_array idxs batches
          end
      end
  end.

(** The local batch, one chunk after the other; a failure does not stop it. [envs] is
    indexed by the chunk. *)
Fixpoint write_batch (envs : nat → chunk_env) (chunks : list batch_chunk) (rc : Z) (n : node)
    : Z * node :=
  match chunks with
  | [] => (rc, n)
  | ch :: chunks =>
      let object_path := buckets_compute_object_path (bc_bucket ch) (bc_object ch) (Z.to_nat 1536) in
      let (ret, n) := buckets_write_chunk (envs (Z.to_nat (bc_index ch - 1))) n (bc_disk_path ch)
                        object_path (bc_index ch) (bc_data ch) in
      write_batch envs chunks (if ret =? 0 then rc else -1) n
  end.

Definition batch_write_worker (envs : nat → chunk_env) (b : node_batch) (c : cluster)
    : c_result (Z * cluster) :=
  if nb_local b then
    let (rc, n) := write_batch envs (nb_chunks b) 0 (cl_node c) in Val (rc, with_node n c)
  else
    let (rc, w) := buckets_binary_batch_write_chunks (cl_world c) (nb_endpoint b) (nb_chunks b) in
    Val (rc, with_world w c).

Definition buckets_batched_parallel_write_chunks (envs : nat → chunk_env) (order : list nat)
    (bucket object object_path : string) (p : placement_result)
    (chunk_data_array : list (list Z)) (num_chunks : nat) (c : cluster) : c_result (Z * cluster) :=
  if (32 <? num_chunks)%nat then Val (-1, c)
  else
    let* endpoints := has_endpoints p in
    if negb endpoints then
      buckets_parallel_write_chunks envs order bucket object object_path p chunk_data_array
        num_chunks c
    else
      let* batches := group_chunks bucket object p chunk_data_array (seq 0 num_chunks) [] in
      match batches with
      | None => Val (-1, c)
      | Some batches =>
          let* r := run_threads (task_thread batches (λ _, batch_write_worker envs)) order c in
          Val (if (0 <? failures r.1 (length batches))%nat then -1 else 0, r.2)
      end.
End Parallel.

(** ** Threads in any order *)

Lemma run_threads_inv {S R} (work : nat → S → c_result (R * S)) (I : S → Prop) order s r :
  (∀ i s q, i ∈ order → I s → work i s = Val q → I q.2) →
  I s → run_threads work order s = Val r → I r.2.
Proof.
  revert s r. induction order as [|i order IH]; intros s r Hstep Hs; cbn [run_threads].
  - by intros [= <-].
  - destruct (work i s) as [q|] eqn:Hq; [|done]. cbn [c_bind].
    destruct (run_threads work order q.2) as [q'|] eqn:Hr; [|done]. intros [= <-]. cbn [snd].
    eapply IH; [|by eapply Hstep; [left| |]|done]. intros. eapply Hstep; [by right|done..].
Qed.

(** What thread [i] has achieved when it reports [good] holds at the end, whatever the order,
    when no other thread undoes it. *)
Lemma run_threads_results {S R} (work : nat → S → c_result (R * S)) (good : nat → R → S → Prop)
    order s r :
  NoDup order →
  (∀ i s q, i ∈ order → work i s = Val q → good i q.1 q.2) →
  (∀ i j v s q, i ∈ order → j ∈ order → i ≠ j → good j v s → work i s = Val q → good j v q.2) →
  run_threads work order s = Val r →
  (∀ i, is_Some (r.1 !! i) ↔ i ∈ order) ∧ ∀ i v, r.1 !! i = Some v → good i v r.2.
Proof.
  intros Hnd. revert s r. induction Hnd as [|i order Hi Hnd IH]; intros s r Hgood Hkeep;
    cbn [run_threads].
  - intros [= <-]. cbn [fst snd]. split; [|intros i v; by rewrite lookup_empty].
    intros i. rewrite lookup_empty, elem_of_nil. split; [by intros []|done].
  - destruct (work i s) as [q|] eqn:Hq; [|done]. cbn [c_bind].
    destruct (run_threads work order q.2) as [q'|] eqn:Hr; [|done]. intros [= <-]. cbn [fst snd].
    destruct (IH q.2 q') as [Hdom Hres]; [| |done|].
    { intros. eapply Hgood; [by right|done]. }
    { intros j1 j2 v s' q2 H1 H2. apply Hkeep; by right. }
    split.
    + intros j. rewrite elem_of_cons, <- Hdom. destruct (decide (j = i)) as [->|].
      * rewrite lookup_insert_eq. split; [by left|by eexists].
      * rewrite lookup_insert_ne by done. split; [by right|by intros [?|?]].
    + intros j v. destruct (decide (j = i)) as [->|].
      * rewrite lookup_insert_eq. intros [= <-].
        apply (run_threads_inv work (λ s, good i q.1 s) order q.2 q'); [|by eapply Hgood; [left|]|done].
        intros j s' q2 Hj Hg Hw. eapply (Hkeep j i); [by right|by left| |done|done].
        by intros ->.
      * rewrite lookup_insert_ne by done. apply Hres.
Qed.

(** Threads that only look. *)
Lemma run_threads_pure {S R} (work : nat → S → c_result (R * S)) (f : nat → R) order s :
  (∀ i, i ∈ order → work i s = Val (f i, s)) →
  ∃ res, run_threads work order s = Val (res, s) ∧
    ∀ i, res !! i = if decide (i ∈ order) then Some (f i) else None.
Proof.
  induction order as [|i order IH]; intros Hw; cbn [run_threads].
  - exists ∅. split; [done|]. intros i. by rewrite lookup_empty, decide_False by set_solver.
  - rewrite Hw by set_solver. cbn [c_bind snd].
    destruct IH as (res & -> & Hres); [set_solver|]. cbn [c_bind fst snd].
    eexists. split; [reflexivity|]. intros j. destruct (decide (j = i)) as [->|].
    + rewrite lookup_insert_eq, decide_True by set_solver. done.
    + rewrite lookup_insert_ne, Hres by done.
      by destruct (decide (j ∈ order)), (decide (j ∈ i :: order)); try set_solver.
Qed.

(** Threads that all succeed. *)
Lemma run_threads_all {S R} (work : nat → S → c_result (R * S)) (v : R) order s :
  (∀ i s, i ∈ order → ∃ s', work i s = Val (v, s')) →
  ∃ res s', run_threads work order s = Val (res, s') ∧ ∀ i, i ∈ order → res !! i = Some v.
Proof.
  revert s. induction order as [|i order IH]; intros s Hw; cbn [run_threads].
  - exists ∅, s. split; [done|]. intros i. by rewrite elem_of_nil.
  - destruct (Hw i s) as [s1 ->]; [by left|]. cbn [c_bind fst snd].
    destruct (IH s1) as (res & s' & -> & Hres); [intros; apply Hw; by right|]. cbn [c_bind fst snd].
    eexists _, _. split; [reflexivity|]. intros j. rewrite elem_of_cons.
    destruct (decide (j = i)) as [->|]; [by rewrite lookup_insert_eq|].
    rewrite lookup_insert_ne by done. intros [?|Hj]; [done|]. by apply Hres.
Qed.

Lemma failures_zero results n :
  (0 <? failures results n)%nat = false ↔ ∀ i, (i < n)%nat → results !! i = Some 0.
Proof.
  rewrite Nat.ltb_ge. unfold failures. split.
  - intros Hf i Hi. assert (¬ thread_result results i ≠ 0) as Hr.
    { intros Hne. assert (i ∈ filter (λ i, thread_result results i ≠ 0) (seq 0 n)) as Hin.
      { apply list_elem_of_filter. split; [done|]. apply elem_of_seq. lia. }
      destruct (filter _ _); [by apply elem_of_nil in Hin|cbn in Hf; lia]. }
    unfold thread_result in Hr. destruct (results !! i) as [v|]; cbn in Hr; [|lia].
    f_equal. lia.
  - intros Hall. rewrite list_filter_none; [done|]. intros i Hi%elem_of_seq.
    unfold thread_result. rewrite Hall by lia. cbn. lia.
Qed.

Lemma map_result_Val {A B} (f : A → c_result B) l r :
  map_result f l = Val r → Forall2 (λ a b, f a = Val b) l r.
Proof.
  revert r. induction l as [|a l IH]; intros r; cbn [map_result]; [intros [= <-]; constructor|].
  destruct (f a) as [b|] eqn:E; [|done]. cbn [c_bind].
  destruct (map_result f l) as [r'|]; [|done]. intros [= <-]. constructor; [done|]. by apply IH.
Qed.

Lemma map_result_seq {B} (f : nat → c_result B) n r i b :
  map_result f (seq 0 n) = Val r → r !! i = Some b → (i < n)%nat ∧ f i = Val b.
Proof.
  intros Hr%map_result_Val Hi. destruct (Forall2_lookup_r _ _ _ _ _ Hr Hi) as (j & Hj & E).
  apply lookup_seq in Hj as [-> Hlt]. done.
Qed.

(** ** Local disks *)

Section Local.
Context `{CJson} `{Peers} (g_local : string).
Context (bucket object object_path : string) (p : placement_result).
Context (Hlocal : has_endpoints p = Val false).
Context (Hpath : (strlen object_path < Z.to_nat 1535)%nat).

(** Where chunk [i] lives. *)
Definition chunk_file (i : nat) : string :=
  chunk_path (strncpy 511 (default "" (disk_paths p !! i))) object_path (Z.of_nat i + 1).

Definition meta_file (i : nat) : string :=
  meta_path (strncpy 511 (default "" (disk_paths p !! i))) object_path.

(** Neither a file of the object nor one of the temporary files. *)
Definition foreign (n : nat) (q : string) : Prop :=
  ∀ i, (i < n)%nat → q ≠ chunk_file i ∧ q ≠ meta_file i ∧
    ∀ pid, q ≠ temp_path (chunk_file i) pid ∧ q ≠ temp_path (meta_file i) pid.

Lemma disk_short d : short_path (strncpy 511 d) object_path.
Proof. unfold short_path. pose proof (length_strncpy 511 d). unfold strlen in *. lia. Qed.

Lemma object_path_copy : strncpy 1535 object_path = object_path.
Proof. apply strncpy_short. unfold strlen in Hpath. lia. Qed.

Lemma chunk_file_ne i j :
  (i < 32)%nat → (j < 32)%nat → i ≠ j → chunk_file i ≠ chunk_file j.
Proof.
  intros Hi Hj Hne E%chunk_path_index; [lia|apply disk_short..|lia|lia].
Qed.

Lemma temp_ne_chunk_file q pid i : (i < 32)%nat → temp_path q pid ≠ chunk_file i.
Proof. intros. apply temp_path_ne_chunk; [apply disk_short|lia]. Qed.

Lemma meta_ne_chunk_file i j : (j < 32)%nat → meta_file i ≠ chunk_file j.
Proof. intros. apply meta_path_ne_chunk; [apply disk_short..|lia]. Qed.

Lemma temp_ne_meta_file q pid i : temp_path q pid ≠ meta_file i.
Proof. eapply temp_path_last; [apply meta_path_last, disk_short|done]. Qed.

Lemma local_route i r : task_route g_local false p i = Val r → r = None.
Proof. by intros [= <-]. Qed.

Lemma init_task_local chunks i t :
  init_task g_local bucket object object_path p false chunks i = Val t →
  tk_node_endpoint t = None ∧ tk_object_path t = object_path ∧ tk_index t = Z.of_nat i + 1 ∧
  chunk_path (tk_disk_path t) (tk_object_path t) (tk_index t) = chunk_file i ∧
  chunks !! i = Some (tk_data t).
Proof.
  unfold init_task. destruct (c_read (disk_paths p) i) as [d|] eqn:Hd; [|done]. cbn [c_bind].
  destruct (c_read chunks i) as [x|] eqn:Hx; [|done]. cbn [c_bind task_route]. intros [= <-].
  apply c_read_Val in Hd, Hx. cbn. rewrite object_path_copy. unfold chunk_file. by rewrite Hd.
Qed.

(** Each chunk is on its disk when the write reports success, whatever the order of the
    threads; no other file changes. *)
Lemma parallel_write_local envs order chunks n c rc c' :
  NoDup order → (∀ i x, chunks !! i = Some x → full_write (envs i) x) →
  buckets_parallel_write_chunks g_local envs order bucket object object_path p chunks n c
    = Val (rc, c') →
  (rc = 0 → (n ≤ 32)%nat ∧ ∀ i, (i < n)%nat → ∃ x, chunks !! i = Some x ∧
     n_fs (cl_node c') !! chunk_file i = Some (bytes_str x)) ∧
  ∀ q, foreign n q → n_fs (cl_node c') !! q = n_fs (cl_node c) !! q.
Proof.
  intros Hnd Hfull. unfold buckets_parallel_write_chunks, MAX_PARALLEL_CHUNKS.
  destruct (Nat.ltb_spec 32 n) as [|Hn]; [by intros [= <- <-]|].
  rewrite Hlocal. cbn [c_bind].
  destruct (map_result _ _) as [tasks|] eqn:Htasks; [|done]. cbn [c_bind].
  destruct (run_threads _ _ _) as [r|] eqn:Hrun; [|done]. cbn [c_bind]. intros Hret.
  assert (∀ i s q, task_thread tasks (λ i, chunk_write_worker (envs i)) i s = Val q →
    (i < n)%nat ∧ ∃ x pid, chunks !! i = Some x ∧
      writes_file (n_fs (cl_node s)) (n_fs (cl_node q.2)) (chunk_file i) pid q.1 x) as Hwork.
  { intros i s q. unfold task_thread. destruct (c_read tasks i) as [t|] eqn:Ht; [|done].
    cbn [c_bind]. apply c_read_Val in Ht.
    destruct (map_result_seq _ _ _ _ _ Htasks Ht) as [Hi Hinit]. split; [done|].
    apply init_task_local in Hinit as (Hep & _ & _ & Hcp & Hx). unfold chunk_write_worker in *.
    rewrite Hep in *. destruct (buckets_write_chunk _ _ _ _ _ _) as [rc1 n1] eqn:Hw.
    injection H1 as <-. apply write_chunk_file in Hw; [|by eapply Hfull].
    rewrite Hcp in Hw. by exists (tk_data t), (ce_pid (envs i)). }
  destruct (run_threads_results (task_thread tasks (λ i, chunk_write_worker (envs i)))
    (λ i v (s : cluster), v = 0 → (i < n)%nat ∧
    ∃ x, chunks !! i = Some x ∧ n_fs (cl_node s) !! chunk_file i = Some (bytes_str x))
    order c r Hnd) as [_ Hgood]; [| |done|].
  { intros i s q _ Hq Hv. destruct (Hwork _ _ _ Hq) as (Hi & x & pid & Hx & _ & Hok).
    split; [done|]. exists x. split; [done|]. by apply Hok. }
  { intros i j v s q _ _ Hne Hg Hq Hv. destruct (Hg Hv) as (Hj & x & Hx & Hf).
    destruct (Hwork _ _ _ Hq) as (Hi & y & pid & _ & Hframe & _).
    split; [done|]. exists x. split; [done|]. rewrite Hframe; [done| |].
    - apply chunk_file_ne; lia.
    - symmetry. apply temp_ne_chunk_file. lia. }
  apply (inj Val) in Hret. injection Hret as Hrc <-. split.
  - intros ->. split; [done|]. intros i Hi.
    destruct (0 <? failures r.1 n)%nat eqn:Ef; [done|].
    apply Hgood with (v := 0); [|done]. by eapply failures_zero.
  - intros q Hq.
    apply (run_threads_inv (task_thread tasks (λ i, chunk_write_worker (envs i))) (λ s : cluster, n_fs (cl_node s) !! q = n_fs (cl_node c) !! q) _ _ _)
      with (3 := Hrun); [|done].
    intros i s q' _ Hs Hw. destruct (Hwork _ _ _ Hw) as (Hi & x & pid & _ & Hframe & _).
    destruct (Hq i Hi) as (H1 & _ & H2). rewrite Hframe; [done..|]. apply H2.
Qed.

Lemma map_result_ok {A B} (f : A → c_result B) g l :
  (∀ a, a ∈ l → f a = Val (g a)) → map_result f l = Val (g <$> l).
Proof.
  induction l as [|a l IH]; intros Hf; [done|]. cbn [map_result].
  rewrite Hf by set_solver. cbn [c_bind]. by rewrite IH by set_solver.
Qed.

(** What the threads find: the chunks of the threads that ran and whose file is there. *)
Definition found_chunk (read_ok : nat → bool) (order : list nat) (fs : fs_t) (i : nat)
    : option (list Z) :=
  if decide (i ∈ order) then
    match fs !! chunk_file i with
    | Some s => if read_ok i then Some (str_bytes s) else None
    | None => None
    end
  else None.

Lemma parallel_read_local read_ok order n c :
  (n ≤ 32)%nat → (n ≤ length (disk_paths p))%nat → (∀ i, i ∈ order → (i < n)%nat) →
  let chunks := found_chunk read_ok order (n_fs (cl_node c)) <$> seq 0 n in
  buckets_parallel_read_chunks g_local read_ok order bucket object object_path p n c
    = Val (Some (length (filter is_Some chunks), chunks)).
Proof.
  intros Hn Hlen Hord chunks. unfold buckets_parallel_read_chunks, MAX_PARALLEL_CHUNKS.
  rewrite (proj2 (Nat.ltb_ge _ _)), Hlocal by done. cbn [c_bind].
  set (g i := ChunkTask (Z.of_nat i + 1) (strncpy 255 bucket) (strncpy 1023 object)
    object_path (strncpy 511 (default "" (disk_paths p !! i))) None []).
  rewrite (map_result_ok _ g).
  2:{ intros i Hi%elem_of_seq. unfold init_read_task.
      destruct (lookup_lt_is_Some_2 (disk_paths p) i) as [d Hd]; [lia|].
      rewrite (proj2 (c_read_Val _ _ _) Hd). cbn [c_bind task_route]. unfold g.
      by rewrite Hd, object_path_copy. }
  cbn [c_bind].
  destruct (run_threads_pure (task_thread (g <$> seq 0 n) (λ i, chunk_read_worker (read_ok i)))
    (λ i, buckets_read_chunk (read_ok i) (n_fs (cl_node c)) (tk_disk_path (g i)) object_path
      (Z.of_nat i + 1)) order c) as (res & -> & Hres).
  { intros i Hi%Hord. unfold task_thread.
    rewrite (proj2 (c_read_Val _ _ (g i))); [done|].
    by rewrite list_lookup_fmap, lookup_seq_lt. }
  cbn [c_bind fst]. do 2 f_equal. assert ((λ i, mjoin (res !! i)) <$> seq 0 n = chunks) as ->; [|done].
  unfold chunks. apply list_fmap_ext. intros j i [-> Hi]%lookup_seq. cbn [Nat.add]. rewrite Hres.
  unfold found_chunk. cbn [Nat.add]. case_decide; [|done]. cbn [mjoin option_join].
  unfold buckets_read_chunk, buckets_atomic_read. cbn [g tk_disk_path]. fold (chunk_file j).
  destruct (n_fs (cl_node c) !! chunk_file j); [|done]. by destruct (read_ok j).
Qed.

(** Every write of a chunk [x] through [env] succeeds, which [write_chunk_succeeds] gives for
    one whose system calls succeed. *)
Definition write_works (env : chunk_env) (x : list Z) : Prop :=
  ∀ n disk op i, (buckets_write_chunk env n disk op i x).1 = 0.

Lemma parallel_write_succeeds envs order chunks n c :
  (n ≤ 32)%nat → (n ≤ length (disk_paths p))%nat → length chunks = n → order ≡ₚ seq 0 n →
  (∀ i x, chunks !! i = Some x → write_works (envs i) x) →
  ∃ c', buckets_parallel_write_chunks g_local envs order bucket object object_path p chunks n c
        = Val (0, c').
Proof.
  intros Hn Hlen Hch Hord Hworks. unfold buckets_parallel_write_chunks, MAX_PARALLEL_CHUNKS.
  rewrite (proj2 (Nat.ltb_ge _ _)), Hlocal by done. cbn [c_bind].
  set (g i := ChunkTask (Z.of_nat i + 1) (strncpy 255 bucket) (strncpy 1023 object)
    (strncpy 1535 object_path) (strncpy 511 (default "" (disk_paths p !! i))) None
    (default [] (chunks !! i))).
  rewrite (map_result_ok _ g).
  2:{ intros i Hi%elem_of_seq. unfold init_task, g.
      destruct (lookup_lt_is_Some_2 (disk_paths p) i) as [d Hd]; [lia|].
      destruct (lookup_lt_is_Some_2 chunks i) as [x Hx]; [lia|].
      rewrite (proj2 (c_read_Val _ _ _) Hd), (proj2 (c_read_Val _ _ _) Hx).
      cbn [c_bind task_route]. by rewrite Hd, Hx. }
  cbn [c_bind].
  destruct (run_threads_all (task_thread (g <$> seq 0 n) (λ i, chunk_write_worker (envs i))) 0 order c)
    as (res & c' & -> & Hres).
  { intros i s Hi. rewrite Hord, elem_of_seq in Hi. unfold task_thread.
    rewrite (proj2 (c_read_Val _ _ (g i))) by (by rewrite list_lookup_fmap, lookup_seq_lt by lia).
    cbn [c_bind]. unfold chunk_write_worker, g. cbn [tk_node_endpoint tk_disk_path tk_object_path tk_index tk_data].
    destruct (lookup_lt_is_Some_2 chunks i) as [x Hx]; [lia|]. rewrite Hx.
    pose proof (Hworks i x Hx (cl_node s) (strncpy 511 (default "" (disk_paths p !! i)))
      (strncpy 1535 object_path) (Z.of_nat i + 1)) as E.
    cbn [default from_option id].
    destruct (buckets_write_chunk _ _ _ _ _ _) as [rc n']. cbn in E. subst rc. by eexists. }
  cbn [c_bind fst snd]. assert ((0 <? failures res n)%nat = false) as ->; [|by eexists].
  apply failures_zero. intros i Hi. apply Hres. rewrite Hord, elem_of_seq. lia.
Qed.

Lemma init_metadata_local m i t :
  init_metadata_task g_local bucket object object_path (Some p) (disk_paths p) m false i = Val t →
  mt_node_endpoint t = None ∧ meta_path (mt_disk_path t) (mt_object_path t) = meta_file i ∧
  mt_meta t = with_index (Z.of_nat i + 1) m.
Proof.
  unfold init_metadata_task. destruct (c_read (disk_paths p) i) as [d|] eqn:Hd; [|done].
  cbn [c_bind metadata_route task_route]. intros [= <-]. apply c_read_Val in Hd. cbn.
  rewrite object_path_copy. unfold meta_file. by rewrite Hd.
Qed.

Lemma meta_file_ne i j :
  NoDup (strncpy 511 <$> disk_paths p) → (i < length (disk_paths p))%nat →
  (j < length (disk_paths p))%nat → i ≠ j → meta_file i ≠ meta_file j.
Proof.
  intros Hnd Hi Hj Hne E%meta_path_inj; [|apply disk_short..]. apply Hne.
  destruct (lookup_lt_is_Some_2 _ _ Hi) as [a Ha], (lookup_lt_is_Some_2 _ _ Hj) as [b Hb].
  rewrite Ha, Hb in E. change (strncpy 511 a = strncpy 511 b) in E.
  apply (NoDup_lookup _ i j (strncpy 511 a) Hnd); rewrite list_lookup_fmap; [by rewrite Ha|].
  rewrite Hb, E. done.
Qed.

Context `{!CJsonLaws}.

(** The metadata that disk [i] holds reads back as [m] with the index of the disk. *)
Definition holds_meta (m : xl_meta) (i : nat) (fs : fs_t) : Prop :=
  ∃ s, fs !! meta_file i = Some s ∧
    buckets_xl_meta_from_json (Some s) = Val (Some (xl_normal (with_index (Z.of_nat i + 1) m))).

Lemma parallel_write_metadata_local envs order m n c rc c' :
  NoDup order → NoDup (strncpy 511 <$> disk_paths p) →
  (∀ i, (i < n)%nat → xl_wf (with_index (Z.of_nat i + 1) m)) →
  buckets_parallel_write_metadata g_local envs order bucket object object_path (Some p)
    (disk_paths p) m n false c = Val (rc, c') →
  (rc = 0 → ∀ i, (i < n)%nat → holds_meta m i (n_fs (cl_node c'))) ∧
  ∀ q, (∀ i, (i < n)%nat → q ≠ meta_file i ∧ ∀ pid, q ≠ temp_path (meta_file i) pid) →
       n_fs (cl_node c') !! q = n_fs (cl_node c) !! q.
Proof.
  intros Hnd Hdisks Hwf. unfold buckets_parallel_write_metadata, MAX_PARALLEL_CHUNKS.
  destruct (Nat.ltb_spec 32 n) as [|Hn]; [by intros [= <- <-]|].
  destruct (map_result _ _) as [tasks|] eqn:Htasks; [|done]. cbn [c_bind].
  set (work := task_thread tasks _).
  destruct (run_threads work order c) as [r|] eqn:Hrun; [|done]. cbn [c_bind]. intros Hret.
  assert (∀ i s q, work i s = Val q → (i < n)%nat ∧ (i < length (disk_paths p))%nat ∧
    (q.1 = 0 → holds_meta m i (n_fs (cl_node q.2))) ∧
    ∃ pid, ∀ f, f ≠ meta_file i → f ≠ temp_path (meta_file i) pid →
      n_fs (cl_node q.2) !! f = n_fs (cl_node s) !! f) as Hwork.
  { intros i s q. unfold work, task_thread. destruct (c_read tasks i) as [t|] eqn:Ht; [|done].
    cbn [c_bind]. apply c_read_Val in Ht.
    destruct (map_result_seq _ _ _ _ _ Htasks Ht) as [Hi Hinit]. split; [done|].
    assert (i < length (disk_paths p))%nat as Hlen.
    { unfold init_metadata_task in Hinit.
      destruct (c_read (disk_paths p) i) as [d|] eqn:Hd; [|done].
      apply c_read_Val in Hd. by eapply lookup_lt_Some. }
    split; [done|]. apply init_metadata_local in Hinit as (Hep & Hmp & Hm).
    unfold metadata_write_worker in H2. rewrite Hep, Hm in H2.
    destruct (buckets_write_xl_meta _ _ _ _ _ _) as [[rc1 st]|] eqn:Hw; [|done].
    cbn [c_bind] in H2. apply (inj Val) in H2. subst q. cbn [fst snd with_node with_fs cl_node n_fs].
    apply write_xl_meta_file in Hw as [Hok Hframe]; [|by apply Hwf]. rewrite Hmp in Hok, Hframe.
    split; [exact Hok|]. by exists (envs i).2. }
  destruct (run_threads_results work (λ i v (s : cluster), v = 0 → (i < length (disk_paths p))%nat ∧
    holds_meta m i (n_fs (cl_node s))) order c r Hnd) as [_ Hgood]; [| |done|].
  { intros i s q _ Hq Hv. destruct (Hwork _ _ _ Hq) as (_ & Hl & Hok & _). auto. }
  { intros i j v s q _ _ Hne Hg Hq Hv. destruct (Hg Hv) as (Hj & x & Hx & Hf).
    destruct (Hwork _ _ _ Hq) as (Hi & Hl & _ & pid & Hframe).
    split; [done|]. exists x. split; [|done]. rewrite Hframe; [done| |].
    - symmetry. by apply meta_file_ne.
    - symmetry. apply temp_ne_meta_file. }
  apply (inj Val) in Hret. apply pair_equal_spec in Hret as [Hrc <-]. split.
  - intros ->. intros i Hi. destruct (0 <? failures r.1 n)%nat eqn:Ef; [done|].
    apply Hgood with (v := 0); [|done]. by eapply failures_zero.
  - intros q Hq.
    apply (run_threads_inv work (λ s : cluster, n_fs (cl_node s) !! q = n_fs (cl_node c) !! q))
      with (3 := Hrun); [|done].
    intros i s q' _ Hs Hw. destruct (Hwork _ _ _ Hw) as (Hi & _ & _ & pid & Hframe).
    destruct (Hq i Hi) as (E1 & E2). by rewrite Hframe.
Qed.

Lemma parallel_write_metadata_succeeds envs order m n c :
  (n ≤ 32)%nat → (n ≤ length (disk_paths p))%nat → order ≡ₚ seq 0 n →
  (∀ i, (i < n)%nat → xl_wf (with_index (Z.of_nat i + 1) m)) →
  (∀ i, (envs i).1 = write_env_ok) → (∀ j, is_Some (cJSON_Print j)) →
  ∃ c', buckets_parallel_write_metadata g_local envs order bucket object object_path (Some p)
          (disk_paths p) m n false c = Val (0, c').
Proof.
  intros Hn Hlen Hord Hwf Henv Hprint. unfold buckets_parallel_write_metadata, MAX_PARALLEL_CHUNKS.
  rewrite (proj2 (Nat.ltb_ge _ _)) by done.
  set (g i := MetadataTask (strncpy 255 bucket) (strncpy 1023 object) (strncpy 1535 object_path)
    (strncpy 511 (default "" (disk_paths p !! i))) None (with_index (Z.of_nat i + 1) m)).
  rewrite (map_result_ok _ g).
  2:{ intros i Hi%elem_of_seq. unfold init_metadata_task, g.
      destruct (lookup_lt_is_Some_2 (disk_paths p) i) as [d Hd]; [lia|].
      rewrite (proj2 (c_read_Val _ _ _) Hd). cbn [c_bind metadata_route task_route]. by rewrite Hd. }
  cbn [c_bind].
  destruct (run_threads_all (task_thread (g <$> seq 0 n) (λ i, metadata_write_worker (envs i))) 0 order c)
    as (res & c' & -> & Hres).
  { intros i s Hi. rewrite Hord, elem_of_seq in Hi. unfold task_thread.
    rewrite (proj2 (c_read_Val _ _ (g i))) by (by rewrite list_lookup_fmap, lookup_seq_lt by lia).
    cbn [c_bind]. unfold metadata_write_worker, g.
    cbn [mt_node_endpoint mt_disk_path mt_object_path mt_meta].
    destruct (write_xl_meta_succeeds (envs i).2 (n_fs (cl_node s))
      (strncpy 511 (default "" (disk_paths p !! i))) (strncpy 1535 object_path)
      (with_index (Z.of_nat i + 1) m) (Hwf i ltac:(lia)) Hprint) as [st E].
    rewrite Henv, E. cbn [c_bind fst]. by eexists. }
  cbn [c_bind fst snd]. assert ((0 <? failures res n)%nat = false) as ->; [|by eexists].
  apply failures_zero. intros i Hi. apply Hres. rewrite Hord, elem_of_seq. lia.
Qed.
End Local.

(** ** Batches *)

Lemma strncpy_keeps_char c b t n : (strlen b < n)%nat → ¬ no_char c (strncpy n (b +:+ String c t)).
Proof.
  unfold strncpy, strlen. revert n. induction b as [|d b IH]; intros n Hn.
  - destruct n; [lia|]. change ("" +:+ String c t) with (String c t). cbn [String.substring].
    rewrite no_char_cons. naive_solver.
  - destruct n; [lia|]. change (String d b +:+ String c t) with (String d (b +:+ String c t)).
    cbn [String.substring]. rewrite no_char_cons. cbn [String.length] in Hn. intros [_ Hb].
    by apply (IH n); [lia|].
Qed.

Section Batches.
Context (g_local bucket object : string) (p : placement_result).

(** Chunk [i] as it is sent: with its own data and the path of its own disk. *)
Definition sent_chunk (chunks : list (list Z)) (i : nat) : batch_chunk :=
  BatchChunk (Z.of_nat i + 1) (default [] (chunks !! i)) bucket object (default "" (disk_paths p !! i)).

(** Where batch [b] goes is where the disk of each of its chunks is. *)
Definition routed (b : node_batch) : Prop :=
  ∀ ch, ch ∈ nb_chunks b → ∃ i, bc_index ch = Z.of_nat i + 1 ∧
    batch_route g_local p i = Val (Some (nb_endpoint b, nb_local b)).

Record batches_ok (sent : list batch_chunk) (batches : list node_batch) : Prop := BatchesOk {
  bo_sent : concat (nb_chunks <$> batches) ≡ₚ sent;
  bo_distinct : NoDup (nb_endpoint <$> batches);
  bo_size : Forall (λ b, 0 < length (nb_chunks b) ≤ MAX_BATCH_SIZE)%nat batches;
  bo_routed : Forall routed batches
}.

(** A node endpoint has a scheme, or is empty and then local: the name of the local batch is
    not the name of a node. *)
Lemma batch_route_local i ep l1 j l2 :
  batch_route g_local p i = Val (Some (ep, l1)) → batch_route g_local p j = Val (Some (ep, l2)) → l1 = l2.
Proof.
  assert (∀ i l, batch_route g_local p i = Val (Some ("local", l)) → l = true) as Hnode.
  { clear. intros i l. unfold batch_route. destruct (c_read _ _) as [e|]; [|done]. cbn [c_bind].
    unfold buckets_distributed_is_local_disk. destruct (strcmp_eq g_local ""); [congruence|].
    destruct (buckets_distributed_extract_node_endpoint e 256) as [n|] eqn:E; [|congruence].
    destruct (strcmp_eq n "") eqn:En; [congruence|]. destruct (strcmp_eq n g_local); [congruence|].
    intros [= -> <-]. exfalso. unfold buckets_distributed_extract_node_endpoint in E.
    change (256 =? 0)%nat with false in E. cbv iota in E.
    destruct (CSearch.strstr e "://") as [[b r]|] eqn:Es; [|done].
    apply strstr_Some in Es as (-> & t & ->). destruct (_ <=? _)%nat; [done|]. injection E as E.
    (* the copy keeps the scheme and the colon *)
    assert (∃ n u, (strlen b + 3 ≤ n)%nat ∧ strncpy n (b +:+ "://" +:+ u) = "local") as (n & u & Hn & Eu).
    { destruct (CSearch.strchr _ _) as [[h ?]|].
      - eexists _, t. split; [|exact E]. lia.
      - eexists _, t. split; [|exact E]. rewrite !strlen_app. cbn. lia. }
    assert (¬ no_char ":" "local") as Hno; [|by apply Hno]. rewrite <- Eu. apply strncpy_keeps_char. lia. }
  unfold batch_route. destruct (c_read (disk_endpoints p) i) as [e1|] eqn:E1; [|done].
  destruct (c_read (disk_endpoints p) j) as [e2|] eqn:E2; [|done]. cbn [c_bind]. intros H1 H2.
  destruct l1, l2; try done.
  - destruct (buckets_distributed_is_local_disk g_local e1); [|by destruct (buckets_distributed_extract_node_endpoint e1 256)].
    injection H1 as <-. symmetry. apply (Hnode j). unfold batch_route. by rewrite E2.
  - destruct (buckets_distributed_is_local_disk g_local e2); [|by destruct (buckets_distributed_extract_node_endpoint e2 256)].
    injection H2 as <-. apply (Hnode i). unfold batch_route. by rewrite E1.
Qed.

Lemma add_to_batch_ok room ep l ch i sent batches batches' :
  batches_ok sent batches → bc_index ch = Z.of_nat i + 1 → batch_route g_local p i = Val (Some (ep, l)) →
  add_to_batch batches room ep l ch = Some batches' →
  batches_ok (ch :: sent) batches' ∧
  nb_endpoint <$> batches' ⊆ ep :: (nb_endpoint <$> batches).
Proof.
  intros Hok Hidx Hroute. revert room sent batches' Hok.
  induction batches as [|b batches IH]; intros room sent batches' [Hs Hd Hz Hr]; cbn [add_to_batch].
  - destruct room; [done|]. intros [= <-]. split; [|done]. split.
    + cbn. by rewrite <- Hs.
    + apply NoDup_singleton.
    + apply Forall_singleton. unfold MAX_BATCH_SIZE. cbn. lia.
    + apply Forall_singleton. intros ch' ->%list_elem_of_singleton. by exists i.
  - rewrite fmap_cons in Hs. rewrite fmap_cons in Hd. apply NoDup_cons in Hd as [Hn Hd].
    apply Forall_cons in Hz as [Hz1 Hz]. apply Forall_cons in Hr as [Hr1 Hr].
    unfold strcmp_eq. case_bool_decide as Hep.
    + destruct (Nat.leb_spec MAX_BATCH_SIZE (length (nb_chunks b))); [done|]. intros [= <-].
      split; [|set_solver]. split.
      * cbn in Hs |- *. rewrite <- Hs, <- app_assoc, Permutation_middle. done.
      * rewrite fmap_cons. by apply NoDup_cons.
      * constructor; [|done]. cbn [nb_chunks]. rewrite length_app. cbn. lia.
      * constructor; [|done]. intros ch' [Hin| ->%list_elem_of_singleton]%elem_of_app; [by apply Hr1|].
        exists i. split; [done|]. cbn [nb_endpoint nb_local]. rewrite Hroute, Hep. do 3 f_equal.
        destruct (nb_chunks b) as [|ch0 ?] eqn:Eb; [cbn in Hz1; lia|].
        destruct (Hr1 ch0) as (j & _ & Hj); [rewrite Eb; left|]. rewrite Hep in Hj.
        by eapply batch_route_local.
    + destruct (add_to_batch batches (pred room) ep l ch) as [bs|] eqn:Ha; [|done]. intros [= <-].
      apply (IH _ (concat (nb_chunks <$> batches))) in Ha as [[Hs' Hd' Hz' Hr'] Hsub]; [|by split].
      split; [|set_solver]. split.
      * cbn in Hs |- *. rewrite Hs', <- Hs. by rewrite Permutation_middle.
      * rewrite fmap_cons. apply NoDup_cons. split; [|done]. intros Hin%Hsub. set_solver.
      * by constructor.
      * by constructor.
Qed.

Lemma group_chunks_ok chunks idxs batches sent batches' :
  batches_ok sent batches →
  group_chunks g_local bucket object p chunks idxs batches = Val (Some batches') →
  batches_ok ((sent_chunk chunks <$> reverse idxs) ++ sent) batches'.
Proof.
  revert batches sent. induction idxs as [|i idxs IH]; intros batches sent Hok; cbn [group_chunks].
  - by intros [= <-].
  - destruct (batch_route g_local p i) as [[[ep l]|]|] eqn:Hroute; [|done..]. cbn [c_bind].
    destruct (c_read chunks i) as [x|] eqn:Hx; [|done]. apply c_read_Val in Hx. cbn [c_bind].
    destruct (strncpy_stack 255 bucket) as [b|] eqn:Eb; [|done].
    destruct (strncpy_stack 1023 object) as [o|] eqn:Eo; [|done]. cbn [c_bind].
    destruct (c_read (disk_paths p) i) as [d|] eqn:Hd; [|done]. apply c_read_Val in Hd. cbn [c_bind].
    destruct (strncpy_stack 511 d) as [d'|] eqn:Ed; [|done]. cbn [c_bind].
    assert (∀ n s s', strncpy_stack n s = Val s' → s = s') as Hcopy.
    { intros n s s'. unfold strncpy_stack. destruct (_ <? _)%nat; congruence. }
    apply Hcopy in Eb as <-, Eo as <-, Ed as <-.
    destruct (add_to_batch _ _ _ _ _) as [bs|] eqn:Ha; [|done].
    eapply add_to_batch_ok in Ha as [Hok' _]; [|done|done|done].
    intros Hg. eapply IH in Hg; [|exact Hok'].
    rewrite reverse_cons, fmap_app, <- app_assoc. cbn [fmap list_fmap app].
    unfold sent_chunk at 2. by rewrite Hx, Hd.
Qed.
End Batches.

(** ** Properties *)

(** C24: a distributed write sends every chunk once, to the node that owns its disk: when the
    chunks could be grouped, the batches hold chunks 1 to [n] between them, each exactly
    once with its own data and disk; there is one batch per node, of at most 16 chunks, and
    each goes to the node of the disks of its chunks. *)
Theorem batches_partition_chunks g_local bucket object p chunks n batches :
  group_chunks g_local bucket object p chunks (seq 0 n) [] = Val (Some batches) →
  batches_ok g_local p (sent_chunk bucket object p chunks <$> seq 0 n) batches.
Proof.
  intros Hg. eapply (group_chunks_ok _ _ _ _ _ _ _ []) in Hg; [|by repeat constructor].
  destruct Hg as [Hs Hd Hz Hr]. split; [|done..]. rewrite Hs, app_nil_r. by rewrite reverse_Permutation.
Qed.

Definition two_nodes : placement_result :=
  PlacementResult 0 0 ["/d1"; "/d2"; "/d3"] ["u1"; "u2"; "u3"]
    ["http://n1:9000/d1"; "http://n2:9000/d2"; "http://n1:9000/d3"] 1 SET_STATE_ACTIVE 0 0.

Lemma batches_partition_chunks_witness :
  let batches := [NodeBatch "local" true [sent_chunk "b" "o" two_nodes [[1]; [2]; [3]] 0;
                                          sent_chunk "b" "o" two_nodes [[1]; [2]; [3]] 2];
                  NodeBatch "http://n2:9000" false [sent_chunk "b" "o" two_nodes [[1]; [2]; [3]] 1]] in
  batches_ok "http://n1:9000" two_nodes
    (sent_chunk "b" "o" two_nodes [[1]; [2]; [3]] <$> seq 0 3) batches.
Proof. apply batches_partition_chunks. vm_compute. reflexivity. Defined.

(** A placement with fewer disks than chunks, and no endpoints, is read past its end. *)
Lemma narrow_placement_undefined `{Peers} g_local envs order bucket object object_path p chunks n c :
  has_endpoints p = Val false → (length (disk_paths p) < n ≤ 32)%nat →
  buckets_batched_parallel_write_chunks g_local envs order bucket object object_path p chunks n c = Undef.
Proof.
  intros He Hn. unfold buckets_batched_parallel_write_chunks, buckets_parallel_write_chunks, MAX_PARALLEL_CHUNKS.
  rewrite (proj2 (Nat.ltb_ge _ _)), He by lia. cbn [c_bind negb].
  destruct (map_result _ _) as [tasks|] eqn:Hm; [|done]. exfalso. apply map_result_Val in Hm.
  assert (seq 0 n !! length (disk_paths p) = Some (length (disk_paths p))) as Hi by (apply lookup_seq_lt; lia).
  destruct (Forall2_lookup_l _ _ _ _ _ Hm Hi) as (t & _ & Ht). unfold init_task, c_read in Ht.
  by rewrite lookup_ge_None_2 in Ht.
Qed.
