(* ===== verification/Replication.v ===== *)
(** * The replication queue (src/src/storage/async_replication.c)

    Inline objects are acknowledged once they are on one disk; worker threads write their
    metadata to the other disks. A step of a worker is one section under the lock of the queue,
    or the replication of one object; a caller queues an object or shuts the workers down. *)

From S2P Require Import Prelude CInt CString DiskIO Json Topology Placement XlMeta Layout GroupCommit Chunk Peers ParallelChunks.

Local Open Scope c_scope.

Definition MAX_QUEUE_SIZE : Z := 10000.

(** ** The queue *)

Record replication_work := ReplicationWork {
  rw_bucket : string;
  rw_object : string;
  rw_object_path : string;
  rw_meta : xl_meta;
  rw_placement : placement_result
}.

(** The linked list from its head to its tail. *)
Record replication_queue := ReplicationQueue {
  rq_items : list replication_work;
  rq_count : Z;
  rq_shutdown : bool;
  rq_completed : Z;
  rq_failed : Z
}.

Definition replication_queue_init : replication_queue := ReplicationQueue [] 0 false 0 0.

(** The section after the wait; [None]: it waits. [(None, _)]: there is no more to do. *)
Definition dequeue_work (q : replication_queue) : option (option replication_work * replication_queue) :=
  match rq_items q with
  | [] => if rq_shutdown q then Some (None, q) else None
  | work :: items =>
      Some (Some work, ReplicationQueue items (u64 (rq_count q - 1)) (rq_shutdown q) (rq_completed q) (rq_failed q))
  end.

Definition enqueue_work (q : replication_queue) (work : replication_work) : Z * replication_queue :=
  if MAX_QUEUE_SIZE <=? rq_count q then (-1, q)
  else (0, ReplicationQueue (rq_items q ++ [work]) (u64 (rq_count q + 1)) (rq_shutdown q) (rq_completed q) (rq_failed q)).

(** The work item owns a copy of the names and of the metadata, and the placement. *)
Definition async_replication_queue (bucket object object_path : string) (meta : xl_meta)
    (placement : placement_result) (q : replication_queue) : Z * replication_queue :=
  enqueue_work q (ReplicationWork bucket object object_path meta placement).

Definition count_result (ret : Z) (q : replication_queue) : replication_queue :=
  if ret =? 0 then ReplicationQueue (rq_items q) (rq_count q) (rq_shutdown q) (u64 (rq_completed q + 1)) (rq_failed q)
  else ReplicationQueue (rq_items q) (rq_count q) (rq_shutdown q) (rq_completed q) (u64 (rq_failed q + 1)).

Definition queue_shutdown (q : replication_queue) : replication_queue :=
  ReplicationQueue (rq_items q) (rq_count q) true (rq_completed q) (rq_failed q).

Definition async_replication_stats (q : replication_queue) : Z * Z * Z := (rq_count q, rq_completed q, rq_failed q).

(** ** Workers *)

(** Before the queue, with an item, before its result is counted, or gone. *)
Inductive replication_pc :=
  | R_Wait
  | R_Work (work : replication_work)
  | R_Count (ret : Z)
  | R_Exited.

Section Replication.
Context `{CJson} `{Peers} (g_local_node_endpoint : string).

Record replication := Replication {
  rp_queue : replication_queue;
  rp_threads : list replication_pc;
  rp_cluster : cluster
}.

(** [created] of the threads could be created. *)
Definition async_replication_init (num_workers : Z) (created : nat) (c : cluster) : replication :=
  let num_workers := if num_workers <=? 0 then 4 else num_workers in
  Replication replication_queue_init (replicate (created `min` Z.to_nat num_workers) R_Wait) c.

(** The metadata to all disks of the placement; the threads of the write run in [order]. *)
Definition replicate_work (envs : nat → write_env * N) (order : list nat) (work : replication_work) (c : cluster)
    : c_result (Z * cluster) :=
  let p := rw_placement work in
  let* endpoints := has_endpoints p in
  buckets_parallel_write_metadata g_local_node_endpoint envs order (rw_bucket work) (rw_object work)
    (rw_object_path work) (Some p) (disk_paths p) (rw_meta work) (length (disk_paths p)) endpoints c.

(** A step of worker [i], with what it has replicated. *)
Inductive worker_act : replication → list (replication_work * Z) → replication → Prop :=
| act_take i s work q :
    rp_threads s !! i = Some R_Wait → dequeue_work (rp_queue s) = Some (Some work, q) →
    worker_act s [] (Replication q (<[i := R_Work work]> (rp_threads s)) (rp_cluster s))
| act_exit i s q :
    rp_threads s !! i = Some R_Wait → dequeue_work (rp_queue s) = Some (None, q) →
    worker_act s [] (Replication q (<[i := R_Exited]> (rp_threads s)) (rp_cluster s))
| act_replicate i s work envs order ret c :
    rp_threads s !! i = Some (R_Work work) → order ≡ₚ seq 0 (length (disk_paths (rw_placement work))) →
    replicate_work envs order work (rp_cluster s) = Val (ret, c) →
    worker_act s [(work, ret)] (Replication (rp_queue s) (<[i := R_Count ret]> (rp_threads s)) c)
| act_count i s ret :
    rp_threads s !! i = Some (R_Count ret) →
    worker_act s [] (Replication (count_result ret (rp_queue s)) (<[i := R_Wait]> (rp_threads s)) (rp_cluster s)).

(** A step of a caller, with what it has queued. The server has stopped before the shutdown, so
    nothing is queued after it. *)
Inductive caller_act : replication → list replication_work → replication → Prop :=
| act_queue s bucket object object_path meta placement q :
    rq_shutdown (rp_queue s) = false →
    async_replication_queue bucket object object_path meta placement (rp_queue s) = (0, q) →
    caller_act s [ReplicationWork bucket object object_path meta placement] (Replication q (rp_threads s) (rp_cluster s))
| act_full s bucket object object_path meta placement q :
    async_replication_queue bucket object object_path meta placement (rp_queue s) = (-1, q) →
    caller_act s [] (Replication q (rp_threads s) (rp_cluster s))
| act_shutdown s :
    caller_act s [] (Replication (queue_shutdown (rp_queue s)) (rp_threads s) (rp_cluster s))
| act_elsewhere s c : caller_act s [] (Replication (rp_queue s) (rp_threads s) c).

(** A run: the steps the workers have made, what was queued, what was replicated with which
    result. *)
Inductive replication_run (s0 : replication) : nat → list replication_work → list (replication_work * Z) →
    replication → Prop :=
| run_start : replication_run s0 0 [] [] s0
| run_worker n queued done s l s' :
    replication_run s0 n queued done s → worker_act s l s' → replication_run s0 (S n) queued (done ++ l) s'
| run_caller n queued done s l s' :
    replication_run s0 n queued done s → caller_act s l s' → replication_run s0 n (queued ++ l) done s'.

(** ** The invariant *)

Definition pc_work (pc : replication_pc) : list replication_work := match pc with R_Work w => [w] | _ => [] end.
Definition pc_result (pc : replication_pc) : list Z := match pc with R_Count r => [r] | _ => [] end.

(** Steps that a worker still makes for what it is at, and before it leaves. *)
Definition pc_steps (pc : replication_pc) : nat :=
  match pc with R_Wait => 1 | R_Work _ => 3 | R_Count _ => 2 | R_Exited => 0 end.

Definition steps_left (s : replication) : nat :=
  (sum_list (pc_steps <$> rp_threads s) + 3 * length (rq_items (rp_queue s)))%nat.

Definition succeeded (l : list Z) : nat := length (filter (.= 0) l).

Record run_inv (s0 : replication) (n : nat) (queued : list replication_work)
    (done : list (replication_work * Z)) (s : replication) : Prop := RunInv {
  ri_work : queued ≡ₚ done.*1 ++ (rp_threads s ≫= pc_work) ++ rq_items (rp_queue s);
  ri_count : rq_count (rp_queue s) = Z.of_nat (length (rq_items (rp_queue s)));
  ri_bound : rq_count (rp_queue s) ≤ MAX_QUEUE_SIZE;
  ri_completed : rq_completed (rp_queue s) + Z.of_nat (succeeded (rp_threads s ≫= pc_result))
                   = Z.of_nat (succeeded done.*2);
  ri_finished : rq_completed (rp_queue s) + rq_failed (rp_queue s) + Z.of_nat (length (rp_threads s ≫= pc_result))
                  = Z.of_nat (length done);
  ri_nonneg : 0 ≤ rq_completed (rp_queue s) ∧ 0 ≤ rq_failed (rp_queue s);
  ri_threads : length (rp_threads s) = length (rp_threads s0);
  ri_steps : (n + steps_left s = length (rp_threads s0) + 3 * length queued)%nat;
  ri_exited : R_Exited ∈ rp_threads s → rq_shutdown (rp_queue s) = true ∧ rq_items (rp_queue s) = []
}.

Lemma thread_split {A} (l : list A) i x : l !! i = Some x →
  ∃ l1 l2, l = l1 ++ x :: l2 ∧ ∀ y, <[i := y]> l = l1 ++ y :: l2.
Proof using Type.
  intros Hi. exists (take i l), (drop (S i) l). split; [by rewrite take_drop_middle|].
  intros y. rewrite insert_take_drop; [done|]. by eapply lookup_lt_Some.
Qed.

Lemma sum_steps_app l1 l2 : sum_list (pc_steps <$> l1 ++ l2) = (sum_list (pc_steps <$> l1) + sum_list (pc_steps <$> l2))%nat.
Proof using Type. rewrite fmap_app. induction l1 as [|pc l1 IH]; cbn; [done|]. cbn in IH. lia. Qed.

Lemma succeeded_app l k : succeeded (l ++ k) = (succeeded l + succeeded k)%nat.
Proof using Type. unfold succeeded. by rewrite filter_app, length_app. Qed.

Lemma thread_step_inv s0 n queued done q l1 pc l2 c q' pc' c' l :
  run_inv s0 n queued done (Replication q (l1 ++ pc :: l2) c) →
  pc_work pc ++ rq_items q ≡ₚ l.*1 ++ pc_work pc' ++ rq_items q' →
  rq_count q' = Z.of_nat (length (rq_items q')) → rq_count q' ≤ rq_count q →
  rq_completed q' + Z.of_nat (succeeded (pc_result pc'))
    = rq_completed q + Z.of_nat (succeeded (pc_result pc)) + Z.of_nat (succeeded l.*2) →
  rq_completed q' + rq_failed q' + Z.of_nat (length (pc_result pc'))
    = rq_completed q + rq_failed q + Z.of_nat (length (pc_result pc)) + Z.of_nat (length l) →
  0 ≤ rq_completed q' ∧ 0 ≤ rq_failed q' →
  S (pc_steps pc' + 3 * length (rq_items q')) = (pc_steps pc + 3 * length (rq_items q))%nat →
  rq_shutdown q' = rq_shutdown q → (rq_items q = [] → rq_items q' = []) →
  (pc' = R_Exited → rq_shutdown q = true ∧ rq_items q = []) →
  run_inv s0 (S n) queued (done ++ l) (Replication q' (l1 ++ pc' :: l2) c').
Proof using Type.
  intros [Hw Hc Hb Hcomp Hfin Hn Hth Hst Hex] Pw Pc Pb Pcomp Pfin Pn Pst Psd Pi Pex.
  unfold steps_left in Hst. cbn [rp_queue rp_threads] in *.
  rewrite bind_app, bind_cons, !succeeded_app in Hcomp. rewrite bind_app, bind_cons, !length_app in Hfin.
  rewrite sum_steps_app, fmap_cons in Hst. cbn [sum_list sum_list_with id] in Hst. rewrite length_app in Hth. cbn [length] in Hth.
  split; unfold steps_left; cbn [rp_queue rp_threads].
  - rewrite Hw, fmap_app, !bind_app, !bind_cons. rewrite <- !(assoc_L (++)). f_equiv.
    transitivity ((l1 ≫= pc_work) ++ (l2 ≫= pc_work) ++ (pc_work pc ++ rq_items q)); [by solve_Permutation|].
    rewrite Pw. solve_Permutation.
  - done.
  - lia.
  - rewrite bind_app, bind_cons, !fmap_app, !succeeded_app. lia.
  - rewrite bind_app, bind_cons, !length_app. lia.
  - done.
  - rewrite length_app. cbn [length]. lia.
  - rewrite sum_steps_app, fmap_cons. cbn [sum_list sum_list_with id]. lia.
  - rewrite Psd. assert (R_Exited ∈ l1 ++ pc' :: l2 → rq_shutdown q = true ∧ rq_items q = []) as He.
    { intros [Hin|[Hin|Hin]%elem_of_cons]%elem_of_app; [|by apply Pex|]; apply Hex; set_solver. }
    intros Hin. destruct (He Hin) as [? ?]. auto.
Qed.

Lemma dequeue_some q work q' :
  rq_count q = Z.of_nat (length (rq_items q)) → rq_count q ≤ MAX_QUEUE_SIZE →
  dequeue_work q = Some (Some work, q') →
  rq_items q = work :: rq_items q' ∧ rq_count q' = rq_count q - 1 ∧ rq_shutdown q' = rq_shutdown q ∧
  rq_completed q' = rq_completed q ∧ rq_failed q' = rq_failed q.
Proof using Type.
  unfold dequeue_work. destruct (rq_items q) as [|w items] eqn:E; [by destruct (rq_shutdown q)|].
  unfold MAX_QUEUE_SIZE. cbn [length]. intros Hc Hb [= <- <-].
  cbn [rq_items rq_count rq_shutdown rq_completed rq_failed].
  split_and!; try done. unfold u64. rewrite wrap_small by (unfold in_range; lia). done.
Qed.

Lemma dequeue_none q q' :
  dequeue_work q = Some (None, q') → q' = q ∧ rq_items q = [] ∧ rq_shutdown q = true.
Proof using Type.
  unfold dequeue_work. destruct (rq_items q); [|done]. destruct (rq_shutdown q) eqn:E; [|done]. by intros [= <-].
Qed.

Lemma count_result_ok ret q :
  0 ≤ rq_completed q → 0 ≤ rq_failed q → rq_completed q + rq_failed q + 1 < 2 ^ 64 →
  rq_completed (count_result ret q) = rq_completed q + Z.of_nat (succeeded [ret]) ∧
  rq_completed (count_result ret q) + rq_failed (count_result ret q) = rq_completed q + rq_failed q + 1 ∧
  0 ≤ rq_failed (count_result ret q).
Proof using Type.
  intros H1 H2 H3. unfold count_result, succeeded. rewrite filter_cons, filter_nil. unfold u64.
  destruct (Z.eqb_spec ret 0) as [->|Hne].
  - rewrite decide_True by done. cbn [rq_completed rq_failed length].
    rewrite wrap_small by (unfold in_range; lia). lia.
  - rewrite decide_False by done. cbn [rq_completed rq_failed length].
    rewrite wrap_small by (unfold in_range; lia). lia.
Qed.

Lemma worker_act_inv s0 n queued done s l s' :
  Z.of_nat (length queued) < 2 ^ 64 → worker_act s l s' → run_inv s0 n queued done s →
  run_inv s0 (S n) queued (done ++ l) s'.
Proof using Type.
  intros Hmax Hact Hinv. pose proof Hinv as [Hw Hc Hb Hcomp Hfin [Hn1 Hn2] _ _ _].
  apply Permutation_length in Hw as Hlen. rewrite !length_app, length_fmap in Hlen.
  destruct Hact as [i s work q Hi Hd|i s q Hi Hd|i s work envs order ret c Hi Ho Hr|i s ret Hi];
    cbn [rp_queue rp_threads rp_cluster] in *;
    destruct (thread_split _ _ _ Hi) as (l1 & l2 & El & Eins); rewrite Eins;
    destruct s as [q0 ts c0]; cbn [rp_queue rp_threads rp_cluster] in *; subst ts;
    (eapply thread_step_inv; [exact Hinv|..]);
    cbn [pc_work pc_result pc_steps app length fmap list_fmap fst snd]; change (succeeded []) with 0%nat;
    try done; try lia.
  - by apply (dequeue_some q0) in Hd as (-> & _).
  - apply (dequeue_some q0) in Hd as (E & -> & _); [|done|done]. rewrite E in Hc. cbn [length] in Hc. lia.
  - apply (dequeue_some q0) in Hd as (_ & -> & _); [lia|done|done].
  - apply (dequeue_some q0) in Hd as (_ & _ & _ & -> & _); [lia|done|done].
  - apply (dequeue_some q0) in Hd as (_ & _ & _ & -> & ->); [lia|done|done].
  - by apply (dequeue_some q0) in Hd as (_ & _ & _ & -> & ->).
  - apply (dequeue_some q0) in Hd as (-> & _); [cbn [length]; lia|done|done].
  - by apply (dequeue_some q0) in Hd as (_ & _ & -> & _).
  - by apply (dequeue_some q0) in Hd as (-> & _).
  - apply dequeue_none in Hd as (-> & _). first [done|lia].
  - apply dequeue_none in Hd as (-> & _). first [done|lia].
  - apply dequeue_none in Hd as (-> & _). first [done|lia].
  - apply dequeue_none in Hd as (-> & _). first [done|lia].
  - apply dequeue_none in Hd as (-> & _). first [done|lia].
  - apply dequeue_none in Hd as (-> & _). first [done|lia].
  - apply dequeue_none in Hd as (-> & E & _). rewrite E. cbn. lia.
  - apply dequeue_none in Hd as (-> & _). first [done|lia].
  - apply dequeue_none in Hd as (-> & _). first [done|lia].
  - by apply dequeue_none in Hd as (_ & E1 & E2).
  - by unfold count_result; destruct (ret =? 0).
  - by unfold count_result; destruct (ret =? 0).
  - unfold count_result; destruct (ret =? 0); cbn; lia.
  - destruct (count_result_ok ret q0) as (-> & _); [done|done| |lia].
    rewrite bind_app, bind_cons, !length_app in Hfin. cbn [pc_result length] in Hfin. lia.
  - destruct (count_result_ok ret q0) as (_ & -> & _); [done|done| |lia].
    rewrite bind_app, bind_cons, !length_app in Hfin. cbn [pc_result length] in Hfin. lia.
  - destruct (count_result_ok ret q0) as (-> & _ & Hf); [done|done| |lia].
    rewrite bind_app, bind_cons, !length_app in Hfin. cbn [pc_result length] in Hfin. lia.
  - unfold count_result; destruct (ret =? 0); cbn; lia.
  - by unfold count_result; destruct (ret =? 0).
  - by unfold count_result; destruct (ret =? 0).
Qed.

Lemma caller_act_inv s0 n queued done s l s' :
  caller_act s l s' → run_inv s0 n queued done s → run_inv s0 n (queued ++ l) done s'.
Proof using Type.
  intros Hact [Hw Hc Hb Hcomp Hfin Hn Hth Hst Hex]. unfold steps_left in *.
  destruct Hact as [s b o path m p q Hopen Hq|s b o path m p q Hq|s|s c]; cbn [rp_queue rp_threads rp_cluster] in *;
    rewrite ?app_nil_r.
  1,2: unfold async_replication_queue, enqueue_work, MAX_QUEUE_SIZE in *; set (w := ReplicationWork _ _ _ _ _) in *;
    destruct (Z.leb_spec 10000 (rq_count (rp_queue s))); try done; injection Hq as <-.
  2,4: by split.
  2: split; cbn; try done; by intros [_ ?]%Hex.
  split; unfold steps_left, MAX_QUEUE_SIZE; cbn [rp_queue rp_threads rq_items rq_count rq_shutdown rq_completed rq_failed];
    try done.
  - rewrite Hw. by rewrite <- !(assoc_L (++)).
  - unfold u64. rewrite wrap_small by (unfold in_range; lia). rewrite length_app. cbn [length]. lia.
  - unfold u64. rewrite wrap_small by (unfold in_range; lia). lia.
  - rewrite !length_app. cbn [length]. lia.
  - intros [E _]%Hex. by rewrite E in Hopen.
Qed.

Lemma waiting_steps k : sum_list (pc_steps <$> replicate k R_Wait) = k.
Proof using Type.
  induction k as [|k IH]; [done|]. cbn [replicate]. rewrite fmap_cons. cbn [sum_list sum_list_with pc_steps id]. lia.
Qed.

Lemma replication_run_inv n0 created c n queued done s :
  let s0 := async_replication_init n0 created c in
  Z.of_nat (length queued) < 2 ^ 64 → replication_run s0 n queued done s → run_inv s0 n queued done s.
Proof using Type.
  intros s0. intros Hmax Hrun. induction Hrun as [|n queued done s l s' Hrun IH Hact|n queued done s l s' Hrun IH Hact].
  - unfold s0, async_replication_init. set (k := (created `min` _)%nat).
    assert (∀ {A} (f : replication_pc → list A), f R_Wait = [] → replicate k R_Wait ≫= f = []) as Hnil.
    { intros A f Hf. generalize k. intros j. induction j as [|j IH]; [done|]. cbn. cbn in IH. by rewrite Hf. }
    split; unfold steps_left, MAX_QUEUE_SIZE; cbn [rp_queue rp_threads rq_items rq_count rq_shutdown rq_completed rq_failed replication_queue_init];
      rewrite ?Hnil by done; try done; try (cbn; lia).
    + rewrite waiting_steps, length_replicate. cbn. lia.
    + intros [E _]%elem_of_replicate. done.
  - apply worker_act_inv with s; auto.
  - rewrite length_app in Hmax. apply caller_act_inv with s; [done|]. apply IH. lia.
Qed.

(** ** Every item can be replicated *)

Record replicable (work : replication_work) : Prop := Replicable {
  ra_endpoints : length (disk_endpoints (rw_placement work)) = length (disk_paths (rw_placement work));
  ra_disks : disk_paths (rw_placement work) ≠ [];
  ra_meta i : (i < length (disk_paths (rw_placement work)))%nat → xl_wf (with_index (Z.of_nat i + 1) (rw_meta work))
}.

Lemma run_threads_total {S R} (work : nat → S → c_result (R * S)) order s :
  (∀ i s, i ∈ order → ∃ r, work i s = Val r) → ∃ r, run_threads work order s = Val r.
Proof using Type.
  revert s. induction order as [|i order IH]; intros s Hw; cbn [run_threads]; [by eexists|].
  destruct (Hw i s) as [r ->]; [by left|]. cbn [c_bind].
  destruct (IH r.2) as [q ->]; [intros j t Hj; apply Hw; by right|]. by eexists.
Qed.

Lemma map_result_total {A B} (f : A → c_result B) l :
  (∀ a, a ∈ l → ∃ b, f a = Val b) → ∃ bs, map_result f l = Val bs.
Proof using Type.
  induction l as [|a l IH]; intros Hf; cbn [map_result]; [by eexists|].
  destruct (Hf a) as [b ->]; [by left|]. cbn [c_bind].
  destruct IH as [bs ->]; [intros x Hx; apply Hf; by right|]. by eexists.
Qed.

Lemma replicate_work_total envs order work c :
  replicable work → order ≡ₚ seq 0 (length (disk_paths (rw_placement work))) →
  ∃ r, replicate_work envs order work c = Val r.
Proof using Type.
  intros [He Hd Hm] Ho. unfold replicate_work. set (p := rw_placement work) in *. cbv zeta.
  destruct (lookup_lt_is_Some_2 (disk_endpoints p) 0) as [ep Hep].
  { rewrite He. destruct (disk_paths p); [done|cbn; lia]. }
  unfold has_endpoints. rewrite (proj2 (c_read_Val _ _ _) Hep). cbn [c_bind].
  unfold buckets_parallel_write_metadata. destruct (_ <? _)%nat; [by eexists|].
  set (init := init_metadata_task _ _ _ _ _ _ _ _).
  assert (∀ i, (i < length (disk_paths p))%nat → ∃ t, init i = Val t ∧ mt_meta t = with_index (Z.of_nat i + 1) (rw_meta work)) as Hinit.
  { intros i Hi. unfold init, init_metadata_task, metadata_route, task_route.
    destruct (lookup_lt_is_Some_2 (disk_paths p) i Hi) as [d Ed].
    destruct (lookup_lt_is_Some_2 (disk_endpoints p) i) as [e Ee]; [lia|].
    rewrite (proj2 (c_read_Val _ _ _) Ed). cbn [c_bind]. rewrite (proj2 (c_read_Val _ _ _) Ee). cbn [c_bind].
    destruct (negb _); [destruct (buckets_distributed_is_local_disk _ _)|]; cbn [c_bind]; by eexists. }
  destruct (map_result_total init (seq 0 (length (disk_paths p)))) as [tasks Htasks].
  { intros i [_ Hi]%elem_of_seq. destruct (Hinit i) as (t & Et & _); [lia|]. by exists t. }
  rewrite Htasks. cbn [c_bind].
  destruct (run_threads_total (task_thread tasks (λ i, metadata_write_worker (envs i))) order c) as [r ->];
    [|by eexists].
  intros i s Hi. rewrite Ho in Hi. apply elem_of_seq in Hi as [_ Hi]. cbn in Hi.
  unfold task_thread. destruct (Hinit i Hi) as (t & Et & Em).
  assert (tasks !! i = Some t) as Ht.
  { pose proof (map_result_Val _ _ _ Htasks) as HF. apply Forall2_length in HF as Hl. rewrite length_seq in Hl.
    destruct (lookup_lt_is_Some_2 tasks i) as [b Hb]; [lia|].
    destruct (map_result_seq _ _ _ _ _ Htasks Hb) as [_ E]. congruence. }
  rewrite (proj2 (c_read_Val _ _ _) Ht). cbn [c_bind]. unfold metadata_write_worker.
  destruct (mt_node_endpoint t) as [e|].
  - destruct (buckets_distributed_write_xlmeta _ _ _ _ _ _). by eexists.
  - unfold buckets_write_xl_meta. destruct (xl_meta_to_json_total (mt_meta t)) as [o ->]; [by rewrite Em; apply Hm|].
    cbn [c_bind]. destruct o as [json|]; [destruct (buckets_atomic_write _ _ _ _ _)|]; by eexists.
Qed.

(** ** Every queued object is replicated once *)

Lemma exited_bind {A} ts (f : replication_pc → list A) :
  Forall (.= R_Exited) ts → f R_Exited = [] → ts ≫= f = [].
Proof using Type.
  intros Hall Hf. induction Hall as [|pc ts -> _ IH]; [done|]. by rewrite bind_cons, Hf.
Qed.

Lemma worker_enabled s0 n queued done s :
  run_inv s0 n queued done s → Forall replicable queued → rq_shutdown (rp_queue s) = true →
  (∀ l s', ¬ worker_act s l s') → Forall (.= R_Exited) (rp_threads s).
Proof using Type.
  intros Hinv Hrep Hsd Hstop. apply Forall_lookup_2. intros i pc Hi. destruct pc as [|work|ret|]; [| | |done]; exfalso.
  - destruct (dequeue_work (rp_queue s)) as [[[work|] q]|] eqn:Ed.
    + by eapply Hstop, act_take.
    + by eapply Hstop, act_exit.
    + unfold dequeue_work in Ed. rewrite Hsd in Ed. by destruct (rq_items (rp_queue s)).
  - assert (work ∈ queued) as Hin.
    { destruct Hinv as [Hw _ _ _ _ _ _ _ _]. rewrite Hw, !elem_of_app. right; left. apply list_elem_of_bind.
      exists (R_Work work). split; [by left|]. by eapply list_elem_of_lookup_2. }
    rewrite Forall_forall in Hrep.
    destruct (replicate_work_total (λ _, (write_env_ok, 0%N)) (seq 0 (length (disk_paths (rw_placement work)))) work
      (rp_cluster s) (Hrep _ Hin)) as [[ret c] Hr]; [done|].
    by eapply Hstop, act_replicate.
  - by eapply Hstop, act_count.
Qed.

(** C13: replication loses nothing and does nothing twice: in whatever order callers and workers
    take their steps, every object that was queued is either waiting, in the hands of one
    worker, or replicated once; the queue never holds more than ten thousand; the workers
    make at most three steps an object and one more each. Once they were told to stop and
    none of them can go on, all of them have left, every object was replicated, and the
    statistics count the successes and the failures. *)
Theorem replication_exactly_once n0 created c n queued done s :
  replication_run (async_replication_init n0 created c) n queued done s →
  Z.of_nat (length queued) < 2 ^ 64 → Forall replicable queued →
  queued ≡ₚ done.*1 ++ (rp_threads s ≫= pc_work) ++ rq_items (rp_queue s) ∧
  (rq_count (rp_queue s) = Z.of_nat (length (rq_items (rp_queue s))) ∧ rq_count (rp_queue s) ≤ MAX_QUEUE_SIZE) ∧
  (n ≤ length (rp_threads s) + 3 * length queued)%nat ∧
  (rp_threads s ≠ [] → rq_shutdown (rp_queue s) = true → (∀ l s', ¬ worker_act s l s') →
     Forall (.= R_Exited) (rp_threads s) ∧ queued ≡ₚ done.*1 ∧
     async_replication_stats (rp_queue s)
       = (0, Z.of_nat (succeeded done.*2), Z.of_nat (length queued - succeeded done.*2))).
Proof using Type.
  intros Hrun Hmax Hrep. pose proof (replication_run_inv _ _ _ _ _ _ _ Hmax Hrun) as Hinv.
  pose proof Hinv as [Hw Hc Hb Hcomp Hfin Hnn Hth Hst Hex].
  split; [done|]. split; [done|]. split; [lia|]. intros Hne Hsd Hstop.
  assert (Forall (.= R_Exited) (rp_threads s)) as Hall by (by eapply worker_enabled).
  assert (R_Exited ∈ rp_threads s) as Hin.
  { destruct (rp_threads s) as [|pc ts]; [done|]. apply Forall_cons in Hall as [-> _]. by left. }
  destruct (Hex Hin) as [_ Hitems]. rewrite Hitems in Hw, Hc.
  rewrite (exited_bind _ pc_work Hall), !app_nil_r in Hw by done.
  rewrite (exited_bind _ pc_result Hall) in Hcomp, Hfin by done. cbn [length succeeded] in *.
  split; [done|]. split; [done|]. apply Permutation_length in Hw as Hl. rewrite length_fmap in Hl.
  unfold async_replication_stats. rewrite Hc. change (succeeded []) with 0%nat in Hcomp.
  assert (rq_completed (rp_queue s) = Z.of_nat (succeeded done.*2)) as -> by lia. f_equal. lia.
Qed.
End Replication.

(** ** One object and one worker *)

Section Example.
#[local] Existing Instance BitsCJson.bits_cjson.

#[local] Instance alone : Peers := {|
  world := unit;
  buckets_binary_write_chunk _ _ _ _ _ _ _ := (-1, tt);
  buckets_binary_read_chunk _ _ _ _ _ _ := None;
  buckets_binary_batch_write_chunks _ _ _ := (-1, tt);
  buckets_distributed_write_xlmeta _ _ _ _ _ _ := (-1, tt);
  buckets_distributed_read_xlmeta _ _ _ _ _ := None;
  rpc_delete_chunk _ _ _ _ _ _ := (-1, tt)
|}.

Definition example_work : replication_work :=
  ReplicationWork "b" "o" "ab/cd/" example_meta
    (PlacementResult 0 0 ["/d1"] ["u1"] ["http://n1:9000/d1"] 1 SET_STATE_ACTIVE 0 0).

Lemma example_replicable : replicable example_work.
Proof using Type.
  split; [done|done|]. intros i Hi. cbn in Hi. assert (i = 0%nat) as -> by lia.
  change (with_index _ _) with example_meta. exact example_meta_wf.
Qed.

Lemma shutdown_empty ret q :
  rq_items q = [] →
  dequeue_work (queue_shutdown (count_result ret q)) = Some (None, queue_shutdown (count_result ret q)).
Proof using Type. unfold dequeue_work, count_result. destruct (ret =? 0); cbn; by intros ->. Qed.

Definition example_cluster : cluster := Cluster _ (Node ∅ [] None ∅) tt.

(** Queued, taken, replicated, counted, told to stop, left. *)
Lemma example_run : ∃ ret s,
  replication_run "http://n1:9000" (async_replication_init 1 1 example_cluster) 4 [example_work] [(example_work, ret)] s ∧
  rp_threads s = [R_Exited] ∧ rq_shutdown (rp_queue s) = true.
Proof using Type.
  destruct (replicate_work_total "http://n1:9000" (λ _, (write_env_ok, 7%N)) [0%nat] example_work example_cluster
    example_replicable) as [[ret c] Hr]; [done|].
  eexists ret, _. split; [|split].
  - eapply (run_worker _ _ 3 _ [(example_work, ret)] _ []).
    { eapply (run_caller _ _ 3 [example_work] _ _ []).
      { eapply (run_worker _ _ 2 _ [(example_work, ret)] _ []).
        { eapply (run_worker _ _ 1 _ [] _ [_]).
          { eapply (run_worker _ _ 0 _ [] _ []).
            { eapply (run_caller _ _ 0 [] _ _ [example_work]); [apply run_start|].
              apply act_queue; [done|reflexivity]. }
            apply (act_take _ 0); reflexivity. }
          eapply (act_replicate _ 0); [reflexivity| |exact Hr]. done. }
        apply (act_count _ 0). reflexivity. }
      apply act_shutdown. }
    eapply (act_exit _ 0); [reflexivity|]. apply shutdown_empty. reflexivity.
  - reflexivity.
  - reflexivity.
Qed.

Lemma replication_exactly_once_witness : ∃ s ret,
  [example_work] ≡ₚ [(example_work, ret)].*1 ∧
  async_replication_stats (rp_queue s)
    = (0, Z.of_nat (succeeded [ret]), Z.of_nat (1 - succeeded [ret])).
Proof.
  destruct example_run as (ret & s & Hrun & Hts & Hsd). exists s, ret.
  destruct (replication_exactly_once "http://n1:9000" 1 1 example_cluster 4 [example_work] [(example_work, ret)] s Hrun)
    as (_ & _ & _ & Hdone).
  - cbn. lia.
  - apply Forall_singleton, example_replicable.
  - destruct Hdone as (_ & H1 & H2); [by rewrite Hts|done| |done].
    intros l s' Hact. destruct Hact as [i s1 work q Hi Hd|i s1 q Hi Hd|i s1 work envs order r c Hi Ho Hr|i s1 r Hi];
      rewrite Hts in Hi; by destruct i.
Defined.
End Example.

(** ** Processes without workers

    A server process that is forked after the initialisation has the queue but none of the
    threads: what it queues is reported as queued and stays there. *)
Lemma forked_process_never_replicates `{CJson} `{Peers} g_local n0 c n queued done s :
  replication_run g_local (async_replication_init n0 0 c) n queued done s → done = [] ∧ rp_threads s = [].
Proof.
  induction 1 as [|n queued done s l s' Hrun [-> Hts] Hact|n queued done s l s' Hrun [-> Hts] Hact].
  - split; [done|]. reflexivity.
  - destruct Hact as [i s work q Hi Hd|i s q Hi Hd|i s work envs order ret c' Hi Ho Hr|i s ret Hi];
      rewrite Hts in Hi; by destruct i.
  - split; [done|]. by destruct Hact.
Qed.

(** The statistics of a queue that was shut down do not stop a caller: an object that comes
    after the workers left is accepted and never replicated. *)
Lemma queued_after_shutdown work :
  let q := queue_shutdown replication_queue_init in
  dequeue_work q = Some (None, q) ∧ (enqueue_work q work).1 = 0.
Proof. split; reflexivity. Qed.
