(* ===== verification/ConnCache.v ===== *)
(** * Cached connections (src/src/storage/binary_transport.c)

    The table of idle connections to other nodes: 64 slots, each with its own lock. A thread
    that takes a connection owns it until it closes it or puts it back. The clock and the
    descriptors that the kernel hands out are arguments. *)

From S2P Require Import Prelude CInt CString.

Local Open Scope c_scope.

Definition CONN_CACHE_SIZE : nat := 64.

Record cached_conn := CachedConn {
  cc_fd : Z;
  cc_host : string;
  cc_port : Z;
  cc_last_used : Z
}.

Definition init_conn_cache : list cached_conn := replicate CONN_CACHE_SIZE (CachedConn (-1) "" 0 0).

(** ** One locked section *)

(** The slot holds a connection to this address that was used in the last two minutes. *)
Definition conn_fresh (host : string) (port now : Z) (s : cached_conn) : bool :=
  (0 <=? cc_fd s) && strcmp_eq (cc_host s) host && (cc_port s =? port) && (now - cc_last_used s <? 120).

Definition conn_taken (s : cached_conn) : cached_conn :=
  CachedConn (-1) (cc_host s) (cc_port s) (cc_last_used s).

Definition conn_stored (fd : Z) (host : string) (port now : Z) : cached_conn :=
  CachedConn fd (snprintf 256 host) port now.

(** The oldest slot so far, and its time. *)
Definition older (i : nat) (s : cached_conn) (oldest : nat * Z) : nat * Z :=
  if cc_last_used s <? oldest.2 then (i, cc_last_used s) else oldest.

(** ** The operations *)

(** [-1] when no slot has a connection. *)
Fixpoint get_cached_connection (host : string) (port now : Z) (slots : list cached_conn)
    : Z * list cached_conn :=
  match slots with
  | [] => (-1, [])
  | s :: slots =>
      if conn_fresh host port now s then (cc_fd s, conn_taken s :: slots)
      else let (fd, slots) := get_cached_connection host port now slots in (fd, s :: slots)
  end.

(** The loop of [cache_connection]: the table with the connection in the first empty slot, or
    the oldest slot. *)
Fixpoint find_empty (fd : Z) (host : string) (port now : Z) (slots : list cached_conn) (i : nat)
    (oldest : nat * Z) : list cached_conn + nat :=
  match slots with
  | [] => inr oldest.1
  | s :: slots =>
      if cc_fd s <? 0 then inl (conn_stored fd host port now :: slots)
      else
        match find_empty fd host port now slots (S i) (older i s oldest) with
        | inl slots => inl (s :: slots)
        | inr k => inr k
        end
  end.

(** The table, and the descriptor that was closed. *)
Definition cache_connection (fd : Z) (host : string) (port now : Z) (slots : list cached_conn)
    : list cached_conn * option Z :=
  match find_empty fd host port now slots 0 (0%nat, now) with
  | inl slots => (slots, None)
  | inr k =>
      (<[k := conn_stored fd host port now]> slots,
       match slots !! k with Some s => if 0 <=? cc_fd s then Some (cc_fd s) else None | None => None end)
  end.

(** ** Threads *)

(** What a thread is doing: between calls without a connection, in slot [i] of the search,
    after an unsuccessful search, with a connection, in slot [i] of putting it back, about to
    replace the oldest slot. *)
Inductive conn_pc :=
  | CIdle
  | CGet (host : string) (port now : Z) (i : nat)
  | CMissed
  | CHolds (fd : Z)
  | CPut (fd : Z) (host : string) (port now : Z) (i : nat) (oldest : nat * Z)
  | CReplace (fd : Z) (host : string) (port now : Z) (oldest : nat).

(** The table, the descriptors that are open, the threads. *)
Record conn_state := ConnState {
  cs_slots : list cached_conn;
  cs_open : gset Z;
  cs_threads : list conn_pc
}.

(** One step of a thread: each locks at most one slot. *)
Inductive conn_act : list cached_conn → gset Z → conn_pc → list cached_conn → gset Z → conn_pc → Prop :=
  | act_get slots fds host port now :
      conn_act slots fds CIdle slots fds (CGet host port now 0)
  | act_get_hit slots fds host port now i s :
      slots !! i = Some s → conn_fresh host port now s = true →
      conn_act slots fds (CGet host port now i) (<[i := conn_taken s]> slots) fds (CHolds (cc_fd s))
  | act_get_miss slots fds host port now i s :
      slots !! i = Some s → conn_fresh host port now s = false →
      conn_act slots fds (CGet host port now i) slots fds (CGet host port now (S i))
  | act_get_end slots fds host port now i :
      slots !! i = None → conn_act slots fds (CGet host port now i) slots fds CMissed
  | act_connect slots fds fd :
      fd ∉ fds → 0 ≤ fd → conn_act slots fds CMissed slots ({[fd]} ∪ fds) (CHolds fd)
  | act_connect_fails slots fds :
      conn_act slots fds CMissed slots fds CIdle
  | act_close slots fds fd :
      conn_act slots fds (CHolds fd) slots (fds ∖ {[fd]}) CIdle
  | act_put slots fds fd host port now :
      conn_act slots fds (CHolds fd) slots fds (CPut fd host port now 0 (0%nat, now))
  | act_put_empty slots fds fd host port now i oldest s :
      slots !! i = Some s → (cc_fd s <? 0) = true →
      conn_act slots fds (CPut fd host port now i oldest) (<[i := conn_stored fd host port now]> slots) fds CIdle
  | act_put_full slots fds fd host port now i oldest s :
      slots !! i = Some s → (cc_fd s <? 0) = false →
      conn_act slots fds (CPut fd host port now i oldest) slots fds
        (CPut fd host port now (S i) (older i s oldest))
  | act_put_end slots fds fd host port now i oldest :
      slots !! i = None →
      conn_act slots fds (CPut fd host port now i oldest) slots fds (CReplace fd host port now oldest.1)
  | act_replace slots fds fd host port now k s :
      slots !! k = Some s →
      conn_act slots fds (CReplace fd host port now k) (<[k := conn_stored fd host port now]> slots)
        (if 0 <=? cc_fd s then fds ∖ {[cc_fd s]} else fds) CIdle.

Inductive conn_step : conn_state → conn_state → Prop :=
  | conn_thread st t pc slots fds pc' :
      cs_threads st !! t = Some pc →
      conn_act (cs_slots st) (cs_open st) pc slots fds pc' →
      conn_step st (ConnState slots fds (<[t := pc']> (cs_threads st))).

Definition conn_start (n : nat) : conn_state := ConnState init_conn_cache ∅ (replicate n CIdle).

(** ** Ownership *)

(** The descriptor that a slot, or a thread, owns. *)
Definition slot_owns (s : cached_conn) : list Z := if 0 <=? cc_fd s then [cc_fd s] else [].

Definition pc_owns (pc : conn_pc) : list Z :=
  match pc with
  | CHolds fd => [fd]
  | CPut fd _ _ _ _ _ => [fd]
  | CReplace fd _ _ _ _ => [fd]
  | _ => []
  end.

Definition owned (slots : list cached_conn) (threads : list conn_pc) : list Z :=
  (slots ≫= slot_owns) ++ (threads ≫= pc_owns).

(** No descriptor has two owners, and the open descriptors are those with an owner. *)
Definition owns_open (fds : gset Z) (l : list Z) : Prop :=
  NoDup l ∧ (∀ fd, fd ∈ fds ↔ fd ∈ l) ∧ Forall (λ fd, 0 ≤ fd) l.

(** The slot that a thread may replace is in the table. *)
Definition pc_bound (pc : conn_pc) : Prop :=
  match pc with
  | CPut _ _ _ _ _ oldest => (oldest.1 < CONN_CACHE_SIZE)%nat
  | CReplace _ _ _ _ k => (k < CONN_CACHE_SIZE)%nat
  | _ => True
  end.

Record conn_inv (st : conn_state) : Prop := ConnInv {
  ci_owned : owns_open (cs_open st) (owned (cs_slots st) (cs_threads st));
  ci_size : length (cs_slots st) = CONN_CACHE_SIZE;
  ci_bound : Forall pc_bound (cs_threads st)
}.

(** Everything else stays as it is when one element changes. *)
Lemma bind_insert {A B} (f : A → list B) l i a :
  l !! i = Some a → ∃ rest, l ≫= f ≡ₚ f a ++ rest ∧ ∀ b, <[i := b]> l ≫= f ≡ₚ f b ++ rest.
Proof.
  intros Hi. exists ((take i l ≫= f) ++ (drop (S i) l ≫= f)). split.
  - rewrite <- (take_drop_middle l i a Hi) at 1. rewrite bind_app, bind_cons. solve_Permutation.
  - intros b. rewrite insert_take_drop by (by eapply lookup_lt_Some).
    rewrite bind_app, bind_cons. solve_Permutation.
Qed.

#[export] Instance owns_open_proper : Proper ((=) ==> (≡ₚ) ==> iff) owns_open.
Proof.
  intros fds ? <- l l' Hl. unfold owns_open.
  split; (intros (H1 & H2 & H3); split_and!; [by rewrite Hl in * || by rewrite <- Hl| |by rewrite Hl in * || by rewrite <- Hl]);
    intros fd; rewrite H2; [by rewrite Hl|by rewrite Hl].
Qed.

Lemma owns_drop fds fd l : owns_open fds (fd :: l) → owns_open (fds ∖ {[fd]}) l.
Proof.
  intros ([Hn Hd]%NoDup_cons & Hin & [_ Hp]%Forall_cons). split_and!; [done| |done].
  intros fd'. rewrite elem_of_difference, Hin, elem_of_cons, elem_of_singleton.
  split; [naive_solver|]. intros Hl. split; [by right|]. by intros ->.
Qed.

Lemma owns_add fds fd l : fd ∉ fds → 0 ≤ fd → owns_open fds l → owns_open ({[fd]} ∪ fds) (fd :: l).
Proof.
  intros Hfd Hpos (Hd & Hin & Hp). split_and!; [|set_solver|by constructor].
  constructor; [by rewrite <- Hin|done].
Qed.

(** What a step does to what the slot it locks and the thread own. *)
Lemma act_owns slots fds pc slots' fds' pc' R :
  conn_act slots fds pc slots' fds' pc' → pc_bound pc → length slots = CONN_CACHE_SIZE →
  owns_open fds ((slots ≫= slot_owns) ++ pc_owns pc ++ R) →
  owns_open fds' ((slots' ≫= slot_owns) ++ pc_owns pc' ++ R) ∧
  length slots' = CONN_CACHE_SIZE ∧ pc_bound pc'.
Proof.
  intros Hact Hb Hlen Hown.
  destruct Hact as [|slots fds host port now i s Hs Hf|slots fds host port now i s Hs Hf|
    |slots fds fd Hfd Hp| |slots fds fd|slots fds fd host port now|slots fds fd host port now i oldest s Hs Hf
    |slots fds fd host port now i oldest s Hs Hf| |slots fds fd host port now k s Hs];
    cbn [pc_owns pc_bound app] in *; rewrite ?length_insert; (split; [|split; [done|]]); try done.
  - destruct (bind_insert slot_owns slots i s Hs) as (rest & E1 & E2). rewrite E2. rewrite E1 in Hown.
    unfold slot_owns in *. cbn [conn_taken cc_fd] in *. change (0 <=? -1) with false. cbv iota.
    unfold conn_fresh in Hf. destruct (0 <=? cc_fd s); [|done]. cbn [app] in *.
    by rewrite <- Permutation_middle.
  - rewrite <- Permutation_middle. by apply owns_add.
  - rewrite <- Permutation_middle in Hown. by apply owns_drop.
  - cbn. unfold CONN_CACHE_SIZE. lia.
  - destruct (bind_insert slot_owns slots i s Hs) as (rest & E1 & E2). rewrite E2. rewrite E1 in Hown.
    unfold slot_owns in *. cbn [conn_stored cc_fd] in *.
    destruct (Z.ltb_spec (cc_fd s) 0); [|done].
    rewrite (proj2 (Z.leb_gt 0 (cc_fd s))) in Hown by done. cbn [app] in *.
    assert (0 ≤ fd) by (destruct Hown as (_ & _ & Hp); rewrite Forall_forall in Hp; apply Hp; set_solver).
    rewrite (proj2 (Z.leb_le 0 fd)) by done. cbn [app]. by rewrite Permutation_middle.
  - unfold older. split_if; cbn; [|done]. apply lookup_lt_Some in Hs. lia.
  - destruct (bind_insert slot_owns slots k s Hs) as (rest & E1 & E2). rewrite E2. rewrite E1 in Hown.
    unfold slot_owns in *. cbn [conn_stored cc_fd] in *.
    assert (0 ≤ fd) by (destruct Hown as (_ & _ & Hp); rewrite Forall_forall in Hp; apply Hp; set_solver).
    rewrite (proj2 (Z.leb_le 0 fd)) by done. cbn [app] in *.
    destruct (0 <=? cc_fd s); cbn [app] in Hown.
    + apply owns_drop in Hown. by rewrite Permutation_middle.
    + by rewrite Permutation_middle.
Qed.

Lemma conn_step_inv st st' : conn_step st st' → conn_inv st → conn_inv st'.
Proof.
  intros [st0 t pc slots fds pc' Ht Hact] [Hown Hlen Hb]. unfold owned in *.
  destruct (bind_insert pc_owns _ _ _ Ht) as (R & E1 & E2). rewrite E1 in Hown.
  rewrite Forall_lookup in Hb. destruct (act_owns _ _ _ _ _ _ R Hact (Hb _ _ Ht) Hlen Hown) as (H1 & H2 & H3).
  split; cbn [cs_slots cs_open cs_threads]; [unfold owned; by rewrite E2|done|].
  apply Forall_insert; [by apply Forall_lookup|done].
Qed.

Lemma conn_start_inv n : conn_inv (conn_start n).
Proof.
  split; [|apply length_replicate|by apply Forall_replicate].
  cbn [conn_start cs_open cs_slots cs_threads]. unfold owned.
  assert (replicate n CIdle ≫= pc_owns = []) as -> by (by induction n).
  cbn. split_and!; [constructor|set_solver|constructor].
Qed.

(** ** The calls are sequences of steps *)

(** The steps of a thread that no other interrupts. *)
Definition conn_alone (x y : list cached_conn * gset Z * conn_pc) : Prop :=
  conn_act x.1.1 x.1.2 x.2 y.1.1 y.1.2 y.2.

Lemma alone_l slots fds pc slots' fds' pc' y :
  conn_act slots fds pc slots' fds' pc' → rtc conn_alone (slots', fds', pc') y →
  rtc conn_alone (slots, fds, pc) y.
Proof. intros Ha. by apply rtc_l. Qed.

Lemma get_is_steps host port now fds rest done fd rest' :
  get_cached_connection host port now rest = (fd, rest') →
  rtc conn_alone (done ++ rest, fds, CGet host port now (length done))
    (done ++ rest', fds, if 0 <=? fd then CHolds fd else CMissed).
Proof.
  revert done rest'. induction rest as [|s rest IH]; intros done rest'; cbn [get_cached_connection].
  - intros [= <- <-]. apply rtc_once. apply act_get_end. apply lookup_ge_None_2.
    rewrite app_nil_r. done.
  - destruct (conn_fresh host port now s) eqn:Hf.
    + intros [= <- <-]. apply rtc_once. pose proof Hf as Hf'. unfold conn_fresh in Hf'.
      destruct (0 <=? cc_fd s); [|done]. unfold conn_alone; cbn [fst snd].
      replace (done ++ conn_taken s :: rest)
        with (<[length done := conn_taken s]> (done ++ s :: rest)) by (by rewrite insert_app_r_alt, Nat.sub_diag by lia).
      apply act_get_hit; [|done]. by rewrite lookup_app_r, Nat.sub_diag by lia.
    + destruct (get_cached_connection host port now rest) as [fd' r] eqn:Eg. intros [= <- <-].
      eapply (rtc_l _ _ (done ++ s :: rest, fds, CGet host port now (S (length done)))).
      * unfold conn_alone; cbn [fst snd]. apply (act_get_miss _ _ _ _ _ _ s); [|done]. by rewrite lookup_app_r, Nat.sub_diag by lia.
      * specialize (IH (done ++ [s]) r eq_refl). rewrite <- !app_assoc, length_app in IH.
        cbn [app length] in IH. by rewrite Nat.add_1_r in IH.
Qed.

Lemma put_is_steps fd host port now fds slots :
  length slots = CONN_CACHE_SIZE →
  let (slots', closed) := cache_connection fd host port now slots in
  rtc conn_alone (slots, fds, CPut fd host port now 0 (0%nat, now))
    (slots', match closed with Some old => fds ∖ {[old]} | None => fds end, CIdle).
Proof.
  intros Hlen. unfold cache_connection.
  assert (∀ rest done oldest, slots = done ++ rest → (oldest.1 < CONN_CACHE_SIZE)%nat →
    match find_empty fd host port now rest (length done) oldest with
    | inl r => rtc conn_alone (slots, fds, CPut fd host port now (length done) oldest) (done ++ r, fds, CIdle)
    | inr k => rtc conn_alone (slots, fds, CPut fd host port now (length done) oldest)
                 (slots, fds, CReplace fd host port now k) ∧ (k < CONN_CACHE_SIZE)%nat
    end) as Hfind.
  { induction rest as [|s rest IH]; intros done oldest Hs Ho; cbn [find_empty].
    - split; [|done]. apply rtc_once, act_put_end. apply lookup_ge_None_2. by rewrite Hs, app_nil_r.
    - assert (slots !! length done = Some s) as Hl by (by rewrite Hs, lookup_app_r, Nat.sub_diag by lia).
      destruct (cc_fd s <? 0) eqn:He.
      + apply rtc_once. unfold conn_alone; cbn [fst snd].
        replace (done ++ conn_stored fd host port now :: rest)
          with (<[length done := conn_stored fd host port now]> slots)
          by (by rewrite Hs, insert_app_r_alt, Nat.sub_diag by lia).
        by eapply act_put_empty.
      + specialize (IH (done ++ [s]) (older (length done) s oldest)).
        rewrite <- app_assoc, length_app, Nat.add_1_r in IH. cbn [app] in IH.
        assert ((older (length done) s oldest).1 < CONN_CACHE_SIZE)%nat as Hold.
        { unfold older. split_if; cbn; [|done]. apply lookup_lt_Some in Hl. lia. }
        specialize (IH Hs Hold).
        assert (conn_alone (slots, fds, CPut fd host port now (length done) oldest)
          (slots, fds, CPut fd host port now (S (length done)) (older (length done) s oldest))) as Hstep
          by (by apply (act_put_full _ _ _ _ _ _ _ _ s)).
        destruct (find_empty _ _ _ _ _ _ _) as [r|k]; [rewrite <- app_assoc in IH; exact (rtc_l _ _ _ _ Hstep IH)|].
        destruct IH as [IH Hk]. split; [exact (rtc_l _ _ _ _ Hstep IH)|done]. }
  specialize (Hfind slots [] (0%nat, now) eq_refl). cbn [length app fst] in Hfind.
  destruct (find_empty _ _ _ _ _ _ _) as [r|k]; [apply Hfind; unfold CONN_CACHE_SIZE; lia|].
  destruct Hfind as [Hr Hk]; [unfold CONN_CACHE_SIZE; lia|].
  destruct (lookup_lt_is_Some_2 slots k) as [s Hs]; [lia|]. rewrite Hs.
  eapply rtc_r; [exact Hr|]. unfold conn_alone; cbn [fst snd].
  pose proof (act_replace slots fds fd host port now k s Hs) as Ha. by destruct (0 <=? cc_fd s).
Qed.

Lemma alone_is_steps st t pc slots fds pc' :
  cs_threads st !! t = Some pc → rtc conn_alone (cs_slots st, cs_open st, pc) (slots, fds, pc') →
  rtc conn_step st (ConnState slots fds (<[t := pc']> (cs_threads st))).
Proof.
  intros Ht Hr. remember (cs_slots st, cs_open st, pc) as x eqn:Ex. remember (slots, fds, pc') as y eqn:Ey.
  revert st pc Ht Ex. induction Hr as [x|x z y Ha Hr IH]; intros st pc Ht ->.
  - injection Ey as <- <- <-. rewrite list_insert_id by done. by destruct st.
  - subst y. destruct z as [[s1 f1] p1]. unfold conn_alone in Ha. cbn [fst snd] in Ha.
    eapply rtc_l; [by eapply conn_thread|].
    specialize (IH eq_refl (ConnState s1 f1 (<[t := p1]> (cs_threads st))) p1).
    cbn [cs_threads cs_slots cs_open] in IH. rewrite list_insert_insert_eq in IH. apply IH; [|done].
    apply list_lookup_insert_eq. by eapply lookup_lt_Some.
Qed.

(** ** Properties *)

(** C27: a connection has one owner: however the threads that take, open, close and put back
    connections interleave, no descriptor is in two slots or in the hands of two threads, an
    open descriptor always has an owner (none leaks), and what a thread or the table holds
    has not been closed. *)
Theorem connections_have_one_owner n st :
  rtc conn_step (conn_start n) st →
  NoDup (owned (cs_slots st) (cs_threads st)) ∧
  ∀ fd, fd ∈ cs_open st ↔ fd ∈ owned (cs_slots st) (cs_threads st).
Proof.
  intros Hr. assert (conn_inv st) as [(H1 & H2 & _) _ _]; [|done].
  pose proof (conn_start_inv n) as Hi. revert Hi. induction Hr as [|? ? ? Hs _ IH]; [done|].
  intros Hi. by apply IH, (conn_step_inv _ _ Hs).
Qed.

(** Two threads: the first finds nothing, opens a connection and puts it back, the second
    takes it. *)
Lemma connections_have_one_owner_witness :
  let st := ConnState (<[0%nat := CachedConn (-1) "n2" 9000 10]> init_conn_cache) {[5]} [CIdle; CHolds 5] in
  NoDup (owned (cs_slots st) (cs_threads st)) ∧
  ∀ fd, fd ∈ cs_open st ↔ fd ∈ owned (cs_slots st) (cs_threads st).
Proof.
  apply (connections_have_one_owner 2).
  set (kept := <[0%nat := CachedConn 5 "n2" 9000 10]> init_conn_cache).
  etrans.
  { apply (alone_is_steps (conn_start 2) 0 CIdle init_conn_cache ∅ CMissed); [done|].
    eapply alone_l; [apply (act_get _ _ "n2" 9000 10)|].
    apply (get_is_steps "n2" 9000 10 ∅ init_conn_cache [] (-1)). reflexivity. }
  etrans.
  { apply (alone_is_steps _ 0 CMissed kept {[5]} CIdle); [done|]. cbn [cs_slots cs_open].
    eapply alone_l; [apply (act_connect _ _ 5); [set_solver|lia]|].
    eapply alone_l; [apply (act_put _ _ 5 "n2" 9000 10)|]. cbn [fst snd].
    rewrite (right_id_L ∅ (∪)). apply (put_is_steps 5 "n2" 9000 10 {[5]} init_conn_cache). reflexivity. }
  cbn [cs_threads cs_slots cs_open conn_start].
  apply (alone_is_steps (ConnState kept {[5]} [CIdle; CIdle]) 1 CIdle _ {[5]} (CHolds 5)); [done|].
  eapply alone_l; [apply (act_get _ _ "n2" 9000 10)|].
  apply (get_is_steps "n2" 9000 10 {[5]} kept [] 5). reflexivity.
Defined.
