(* ===== verification/ConnPool.v ===== *)
(** * The connection pool (src/src/net/conn_pool.c)

    A linked list of connections to other nodes behind one mutex. A [get] has two locked
    sections around the creation of a new connection, so threads interleave inside it. The
    connection that a caller was given is a pointer into the list. *)

From S2P Require Import Prelude CInt CString ConnCache.

Local Open Scope c_scope.

(** ** State *)

Record connection := Conn {
  conn_fd : Z;
  conn_host : string;
  conn_port : Z;
  conn_in_use : bool;
  conn_last_used : Z
}.

(** The list holds the address of each connection with its fields; an address that is not in
    the list has been freed. *)
Record conn_pool := ConnPool {
  connections : list (nat * connection);
  max_conns : Z;
  total_conns : Z;
  active_conns : Z
}.

Definition buckets_conn_pool_create (max : Z) : conn_pool := ConnPool [] max 0 0.

Definition with_connections (l : list (nat * connection)) (total active : Z) (p : conn_pool) : conn_pool :=
  ConnPool l (max_conns p) total active.

Definition used_at (now : Z) (in_use : bool) (c : connection) : connection :=
  Conn (conn_fd c) (conn_host c) (conn_port c) in_use now.

(** ** Sockets *)

(** What [poll] and, when there is input, [recv] with [MSG_PEEK] answer. *)
Inductive peek_answer :=
  | PeekEof
  | PeekData
  | PeekWouldBlock
  | PeekFails.

Record poll_answer := PollAnswer {
  poll_fails : bool;
  poll_error : bool;
  poll_in : option peek_answer
}.

Definition is_connection_alive (a : poll_answer) : bool :=
  if poll_fails a then false
  else if poll_error a then false
  else
    match poll_in a with
    | None => true
    | Some PeekWouldBlock => true
    | Some (PeekEof | PeekData | PeekFails) => false
    end.

Inductive connect_answer :=
  | ConnectDone
  | ConnectInProgress
  | ConnectFails.

(** The descriptor of the socket, whether the name resolves, the outcome of [connect] and, for
    a connection in progress, whether it is writable in time and has no error then. *)
Record connect_env := ConnectEnv {
  ce_socket : Z;
  ce_resolves : bool;
  ce_connect : connect_answer;
  ce_selected : bool;
  ce_no_error : bool
}.

(** The descriptor, and those that were closed. *)
Definition create_connection (env : connect_env) : Z * list Z :=
  if ce_socket env <? 0 then (-1, [])
  else if negb (ce_resolves env) then (-1, [ce_socket env])
  else
    match ce_connect env with
    | ConnectDone => (ce_socket env, [])
    | ConnectFails => (-1, [ce_socket env])
    | ConnectInProgress =>
        if negb (ce_selected env) then (-1, [ce_socket env])
        else if negb (ce_no_error env) then (-1, [ce_socket env])
        else (ce_socket env, [])
    end.

(** ** Get *)

(** The loop over the list: the descriptors of dead connections, which are closed, the
    connection that is reused, the list that remains. *)
Fixpoint take_idle (polls : Z → poll_answer) (host : string) (port now : Z) (l : list (nat * connection))
    : list Z * option nat * list (nat * connection) :=
  match l with
  | [] => ([], None, [])
  | (a, c) :: l =>
      if negb (conn_in_use c) && strcmp_eq (conn_host c) host && (conn_port c =? port) then
        if is_connection_alive (polls (conn_fd c)) then ([], Some a, (a, used_at now true c) :: l)
        else
          match take_idle polls host port now l with
          | (closed, r, l) => (conn_fd c :: closed, r, l)
          end
      else
        match take_idle polls host port now l with
        | (closed, r, l) => (closed, r, (a, c) :: l)
        end
  end.

Definition pool_full (p : conn_pool) : bool := (0 <? max_conns p) && (max_conns p <=? total_conns p).

(** The first locked section. *)
Definition pool_take (polls : Z → poll_answer) (host : string) (port now : Z) (p : conn_pool)
    : list Z * option nat * conn_pool :=
  match take_idle polls host port now (connections p) with
  | (closed, r, l) =>
      (closed, r,
       with_connections l (total_conns p - Z.of_nat (length closed))
         (match r with Some _ => active_conns p + 1 | None => active_conns p end) p)
  end.

(** The second one: the new connection, at address [a]. *)
Definition pool_add (a : nat) (fd : Z) (host : string) (port now : Z) (p : conn_pool) : conn_pool :=
  with_connections ((a, Conn fd (strncpy 255 host) port true now) :: connections p)
    (total_conns p + 1) (active_conns p + 1) p.

(** A call that no other thread interrupts: the result, the connection, the descriptors that
    were closed. *)
Definition buckets_conn_pool_get (polls : Z → poll_answer) (env : connect_env) (a : nat) (now : Z * Z)
    (p : conn_pool) (host : string) (port : Z) : buckets_error_t * option nat * list Z * conn_pool :=
  if port <=? 0 then (BUCKETS_ERR_INVALID_ARG, None, [], p)
  else
    match pool_take polls host port now.1 p with
    | (closed, Some a, p) => (BUCKETS_OK, Some a, closed, p)
    | (closed, None, p) =>
        if pool_full p then (BUCKETS_ERR_NOMEM, None, closed, p)
        else
          match create_connection env with
          | (fd, closed') =>
              if fd <? 0 then (BUCKETS_ERR_IO, None, closed ++ closed', p)
              else if pool_full p then (BUCKETS_ERR_NOMEM, None, closed ++ closed' ++ [fd], p)
              else (BUCKETS_OK, Some a, closed ++ closed', pool_add a fd host port now.2 p)
          end
    end.

(** ** Release, close, statistics, free *)

Fixpoint assoc (a : nat) (l : list (nat * connection)) : option connection :=
  match l with
  | [] => None
  | (b, c) :: l => if (a =? b)%nat then Some c else assoc a l
  end.

Fixpoint assoc_set (a : nat) (c : connection) (l : list (nat * connection)) : list (nat * connection) :=
  match l with
  | [] => []
  | (b, d) :: l => if (a =? b)%nat then (b, c) :: l else (b, d) :: assoc_set a c l
  end.

Fixpoint assoc_remove (a : nat) (l : list (nat * connection)) : list (nat * connection) :=
  match l with
  | [] => []
  | (b, d) :: l => if (a =? b)%nat then l else (b, d) :: assoc_remove a l
  end.

(** The pointer is followed: a connection that was freed is undefined. *)
Definition buckets_conn_pool_release (now : Z) (p : conn_pool) (a : nat) : c_result (buckets_error_t * conn_pool) :=
  match assoc a (connections p) with
  | None => Undef
  | Some c =>
      if negb (conn_in_use c) then Val (BUCKETS_OK, p)
      else
        Val (BUCKETS_OK,
             with_connections (assoc_set a (used_at now false c) (connections p)) (total_conns p)
               (active_conns p - 1) p)
  end.

(** The pointer is only compared; the descriptor that was closed. *)
Definition buckets_conn_pool_close (p : conn_pool) (a : nat) : buckets_error_t * option Z * conn_pool :=
  match assoc a (connections p) with
  | None => (BUCKETS_ERR_INVALID_ARG, None, p)
  | Some c =>
      (BUCKETS_OK, Some (conn_fd c),
       with_connections (assoc_remove a (connections p)) (total_conns p - 1)
         (if conn_in_use c then active_conns p - 1 else active_conns p) p)
  end.

(** Total, active, idle. *)
Definition buckets_conn_pool_stats (p : conn_pool) : Z * Z * Z :=
  (total_conns p, active_conns p, total_conns p - active_conns p).

(** The descriptors that are closed. *)
Definition buckets_conn_pool_free (p : conn_pool) : list Z := conn_fd <$> (connections p).*2.

(** ** Threads *)

(** What a thread is doing: nothing, creating a connection, about to add it, using one that it
    was given, or in a release after the mutex was unlocked (where the connection is read once
    more, for a message). *)
Inductive pool_pc :=
  | PIdle
  | PConnect (host : string) (port : Z)
  | PNew (fd : Z) (host : string) (port : Z)
  | PHolds (a : nat)
  | PReleased (a : nat).

Record pool_state := PoolState {
  ps_pool : conn_pool;
  ps_open : gset Z;
  ps_threads : list pool_pc
}.

(** One step of a thread: a locked section, or the creation of a connection. A thread releases
    and closes only what it was given. *)
Inductive pool_act : conn_pool → gset Z → pool_pc → conn_pool → gset Z → pool_pc → Prop :=
  | pool_reuse p fds polls host port now closed a p' :
      pool_take polls host port now p = (closed, Some a, p') →
      pool_act p fds PIdle p' (fds ∖ list_to_set closed) (PHolds a)
  | pool_none p fds polls host port now closed p' :
      pool_take polls host port now p = (closed, None, p') →
      pool_act p fds PIdle p' (fds ∖ list_to_set closed)
        (if pool_full p' then PIdle else PConnect host port)
  | pool_connect p fds env host port :
      ce_socket env ∉ fds →
      pool_act p fds (PConnect host port) p
        (let (fd, closed) := create_connection env in
         ((if 0 <=? ce_socket env then {[ce_socket env]} else ∅) ∪ fds) ∖ list_to_set closed)
        (let (fd, closed) := create_connection env in
         if fd <? 0 then PIdle else PNew fd host port)
  | pool_new p fds fd host port now a :
      a ∉ (connections p).*1 → pool_full p = false →
      pool_act p fds (PNew fd host port) (pool_add a fd host port now p) fds (PHolds a)
  | pool_new_full p fds fd host port :
      pool_full p = true →
      pool_act p fds (PNew fd host port) p (fds ∖ {[fd]}) PIdle
  | pool_release p fds a now err p' :
      buckets_conn_pool_release now p a = Val (err, p') →
      pool_act p fds (PHolds a) p' fds (PReleased a)
  | pool_message p fds a : pool_act p fds (PReleased a) p fds PIdle
  | pool_close p fds a err fd p' :
      buckets_conn_pool_close p a = (err, Some fd, p') →
      pool_act p fds (PHolds a) p' (fds ∖ {[fd]}) PIdle.

Inductive pool_step : pool_state → pool_state → Prop :=
  | pool_thread st t pc p fds pc' :
      ps_threads st !! t = Some pc →
      pool_act (ps_pool st) (ps_open st) pc p fds pc' →
      pool_step st (PoolState p fds (<[t := pc']> (ps_threads st))).

Definition pool_start (max : Z) (n : nat) : pool_state :=
  PoolState (buckets_conn_pool_create max) ∅ (replicate n PIdle).

(** ** The invariant *)

Definition in_use (l : list (nat * connection)) : list (nat * connection) :=
  filter (λ x, conn_in_use x.2 = true) l.

Definition fds_of (l : list (nat * connection)) : list Z := conn_fd <$> l.*2.

(** The counters, the limit, and whom the connections in use belong to. *)
Record list_inv (p : conn_pool) (held : list nat) : Prop := ListInv {
  li_addr : NoDup (connections p).*1;
  li_total : total_conns p = Z.of_nat (length (connections p));
  li_active : active_conns p = Z.of_nat (length held);
  li_max : 0 < max_conns p → total_conns p ≤ max_conns p;
  li_held : (in_use (connections p)).*1 ≡ₚ held
}.

Definition pc_holds (pc : pool_pc) : list nat := match pc with PHolds a => [a] | _ => [] end.

Definition pc_fds (pc : pool_pc) : list Z := match pc with PNew fd _ _ => [fd] | _ => [] end.

Record pool_inv (st : pool_state) : Prop := PoolInv {
  pi_list : list_inv (ps_pool st) (ps_threads st ≫= pc_holds);
  pi_open : owns_open (ps_open st) (fds_of (connections (ps_pool st)) ++ (ps_threads st ≫= pc_fds))
}.

#[export] Instance in_use_proper : Proper ((≡ₚ) ==> (≡ₚ)) in_use.
Proof. intros l l' Hl. unfold in_use. by rewrite Hl. Qed.

#[export] Instance fds_of_proper : Proper ((≡ₚ) ==> (≡ₚ)) fds_of.
Proof. intros l l' Hl. unfold fds_of. by rewrite Hl. Qed.

Lemma owns_drop_list fds closed l : owns_open fds (closed ++ l) → owns_open (fds ∖ list_to_set closed) l.
Proof.
  revert fds. induction closed as [|fd closed IH]; intros fds.
  - cbn. by rewrite difference_empty_L.
  - intros Ho. cbn in Ho |- *. rewrite <- difference_difference_l_L. by apply IH, owns_drop.
Qed.

Lemma in_use_cons_used a c l : conn_in_use c = true → in_use ((a, c) :: l) = (a, c) :: in_use l.
Proof. intros. unfold in_use. by rewrite filter_cons_True. Qed.

Lemma in_use_cons_idle a c l : conn_in_use c = false → in_use ((a, c) :: l) = in_use l.
Proof. intros Hc. unfold in_use. rewrite filter_cons_False; [done|]. cbn. by rewrite Hc. Qed.

Lemma in_use_app l1 l2 : in_use (l1 ++ l2) = in_use l1 ++ in_use l2.
Proof. apply filter_app. Qed.

(** Idle connections that are dead are dropped, and at most one is marked as used. *)
Lemma take_idle_spec polls host port now l closed r l' :
  take_idle polls host port now l = (closed, r, l') →
  ∃ dead, closed = fds_of dead ∧ in_use dead = [] ∧
    match r with
    | None => l ≡ₚ dead ++ l'
    | Some a => ∃ c rest, l ≡ₚ dead ++ (a, c) :: rest ∧ l' ≡ₚ (a, used_at now true c) :: rest ∧
                  conn_in_use c = false ∧ conn_host c = host ∧ conn_port c = port
    end.
Proof.
  revert closed r l'. induction l as [|[a c] l IH]; intros closed r l'; cbn [take_idle].
  { intros [= <- <- <-]. by exists []. }
  destruct (take_idle polls host port now l) as [[cl r'] l1]. destruct (IH _ _ _ eq_refl) as (dead & -> & Hd & Hr).
  destruct (negb (conn_in_use c) && _ && _) eqn:Hc.
  - apply andb_true_iff in Hc as [[Hu Hh]%andb_true_iff Hp%Z.eqb_eq]. apply negb_true_iff in Hu.
    unfold strcmp_eq in Hh. apply bool_decide_eq_true in Hh.
    destruct (is_connection_alive _).
    + intros [= <- <- <-]. exists []. split_and!; [done..|]. by exists c, l.
    + intros [= <- <- <-]. exists ((a, c) :: dead). split_and!; [done| |].
      * by rewrite in_use_cons_idle.
      * destruct r' as [b|].
        -- destruct Hr as (d & rest & E & ? & ?). exists d, rest. split_and!; [by rewrite E|done|naive_solver..].
        -- by rewrite Hr.
  - intros [= <- <- <-]. exists dead. split_and!; [done..|]. destruct r' as [b|].
    + destruct Hr as (d & rest & E1 & E2 & ?). exists d, ((a, c) :: rest).
      split_and!; [rewrite E1; solve_Permutation|rewrite E2; solve_Permutation|naive_solver..].
    + rewrite Hr. solve_Permutation.
Qed.

Lemma assoc_perm a c l : assoc a l = Some c →
  ∃ rest, l ≡ₚ (a, c) :: rest ∧ assoc_remove a l ≡ₚ rest ∧ ∀ c', assoc_set a c' l ≡ₚ (a, c') :: rest.
Proof.
  induction l as [|[b d] l IH]; [done|]. cbn [assoc assoc_set assoc_remove]. destruct (Nat.eqb_spec a b) as [->|Hn].
  - intros [= ->]. by exists l.
  - intros (rest & E1 & E2 & E3)%IH. exists ((b, d) :: rest). split_and!.
    + rewrite E1. solve_Permutation.
    + by rewrite E2.
    + intros c'. rewrite E3. solve_Permutation.
Qed.

Lemma assoc_elem a c l : NoDup l.*1 → (a, c) ∈ l → assoc a l = Some c.
Proof.
  induction l as [|[b d] l IH]; [set_solver|]. cbn. intros [Hb Hl]%NoDup_cons [[= -> ->]|Hin]%elem_of_cons.
  - by rewrite Nat.eqb_refl.
  - destruct (Nat.eqb_spec a b) as [->|]; [|by apply IH]. destruct Hb. apply list_elem_of_fmap. by exists (b, c).
Qed.

(** What a thread that was given a connection can do with it. *)
Lemma held_connection p a held :
  list_inv p (a :: held) →
  ∃ c, assoc a (connections p) = Some c ∧ conn_in_use c = true.
Proof.
  intros [Hnd _ _ _ Hh]. assert (a ∈ (in_use (connections p)).*1) as Ha by (rewrite Hh; set_solver).
  apply list_elem_of_fmap in Ha as ([b c] & -> & Hin). unfold in_use in Hin.
  apply list_elem_of_filter in Hin as [Hu Hin]. exists c. split; [by apply assoc_elem|done].
Qed.

Ltac solve_list_inv :=
  split; cbn [with_connections connections total_conns active_conns max_conns length] in *; try done; try lia.

Lemma list_inv_drop p held dead l' n :
  list_inv p held → connections p ≡ₚ dead ++ l' → in_use dead = [] → n = Z.of_nat (length dead) →
  list_inv (with_connections l' (total_conns p - n) (active_conns p) p) held.
Proof.
  intros [Hnd Htot Hact Hmax Hh] El Hd ->. rewrite El in Hnd, Hh. rewrite in_use_app, Hd in Hh.
  rewrite fmap_app in Hnd. apply NoDup_app in Hnd as (_ & _ & Hnd).
  apply Permutation_length in El. rewrite length_app in El. solve_list_inv.
Qed.

(** An idle connection is given to a caller, and given back. *)
Lemma list_inv_mark p held a c c' rest l' :
  list_inv p held → connections p ≡ₚ (a, c) :: rest → l' ≡ₚ (a, c') :: rest →
  conn_in_use c = false → conn_in_use c' = true →
  list_inv (with_connections l' (total_conns p) (active_conns p + 1) p) (a :: held).
Proof.
  intros [Hnd Htot Hact Hmax Hh] El El' Hc Hc'. rewrite El in Hnd, Hh. rewrite in_use_cons_idle in Hh by done.
  apply Permutation_length in El. pose proof (Permutation_length El') as Hlen. solve_list_inv.
  - by rewrite El'.
  - rewrite El', in_use_cons_used by done. cbn. by rewrite Hh.
Qed.

Lemma list_inv_unmark p held a c c' rest l' :
  list_inv p (a :: held) → connections p ≡ₚ (a, c) :: rest → l' ≡ₚ (a, c') :: rest →
  conn_in_use c = true → conn_in_use c' = false →
  list_inv (with_connections l' (total_conns p) (active_conns p - 1) p) held.
Proof.
  intros [Hnd Htot Hact Hmax Hh] El El' Hc Hc'. rewrite El in Hnd, Hh. rewrite in_use_cons_used in Hh by done.
  apply Permutation_length in El. pose proof (Permutation_length El') as Hlen. solve_list_inv.
  - by rewrite El'.
  - rewrite El', in_use_cons_idle by done. cbn in Hh. by apply Permutation_cons_inv in Hh.
Qed.

Lemma list_inv_add p held a c :
  list_inv p held → a ∉ (connections p).*1 → pool_full p = false → conn_in_use c = true →
  list_inv (with_connections ((a, c) :: connections p) (total_conns p + 1) (active_conns p + 1) p) (a :: held).
Proof.
  intros [Hnd Htot Hact Hmax Hh] Ha Hf Hc. unfold pool_full in Hf. solve_list_inv.
  - by constructor.
  - rewrite in_use_cons_used by done. cbn. by rewrite Hh.
Qed.

Lemma pool_take_addresses polls host port now p closed r p' a :
  pool_take polls host port now p = (closed, r, p') → a ∈ (connections p').*1 → a ∈ (connections p).*1.
Proof.
  unfold pool_take. destruct (take_idle _ _ _ _ _) as [[cl r'] l'] eqn:Et. intros [= <- <- <-].
  destruct (take_idle_spec _ _ _ _ _ _ _ _ Et) as (dead & _ & _ & Hr). cbn [with_connections connections].
  destruct r' as [b|]; [destruct Hr as (c & rest & El & El' & _)|]; intros Ha.
  - rewrite El', fmap_cons in Ha. rewrite El, fmap_app, fmap_cons. set_solver.
  - rewrite Hr, fmap_app. set_solver.
Qed.

(** The list after the first section, with those who hold connections. *)
Lemma pool_take_list polls host port now p closed r p' held :
  pool_take polls host port now p = (closed, r, p') → list_inv p held →
  list_inv p' (match r with Some a => a :: held | None => held end) ∧
  fds_of (connections p) ≡ₚ closed ++ fds_of (connections p') ∧
  ∀ a, r = Some a → ∃ c rest, connections p' ≡ₚ (a, c) :: rest ∧ conn_in_use c = true ∧
    conn_host c = host ∧ conn_port c = port.
Proof.
  unfold pool_take. destruct (take_idle _ _ _ _ _) as [[cl r'] l'] eqn:Et. intros [= <- <- <-] Hl.
  destruct (take_idle_spec _ _ _ _ _ _ _ _ Et) as (dead & -> & Hd & Hr).
  assert (Z.of_nat (length (fds_of dead)) = Z.of_nat (length dead)) as Elen by (unfold fds_of; by rewrite !length_fmap).
  cbn [with_connections connections]. destruct r' as [a|].
  - destruct Hr as (c & rest & El & El' & Hc & Hh & Hp). split_and!.
    + pose proof (list_inv_drop _ _ _ _ _ Hl El Hd Elen) as H1.
      exact (list_inv_mark _ _ a c (used_at now true c) rest l' H1 (Permutation_refl _) El' Hc eq_refl).
    + rewrite El, El'. unfold fds_of. by rewrite !fmap_app.
    + intros b [= <-]. exists (used_at now true c), rest. by split_and!.
  - split_and!; [by eapply list_inv_drop| |done]. rewrite Hr. unfold fds_of. by rewrite !fmap_app.
Qed.

(** The two sides of a step: the list and the descriptors. *)
Lemma pool_take_inv polls host port now p closed r p' held fds R :
  pool_take polls host port now p = (closed, r, p') →
  list_inv p held → owns_open fds (fds_of (connections p) ++ R) →
  list_inv p' (match r with Some a => a :: held | None => held end) ∧
  owns_open (fds ∖ list_to_set closed) (fds_of (connections p') ++ R).
Proof.
  intros Ht Hl Ho. destruct (pool_take_list _ _ _ _ _ _ _ _ _ Ht Hl) as (H1 & H2 & _). split; [done|].
  apply owns_drop_list. by rewrite H2, <- app_assoc in Ho.
Qed.

Lemma create_connection_owned env fds l fd closed :
  create_connection env = (fd, closed) → ce_socket env ∉ fds → owns_open fds l →
  owns_open (((if 0 <=? ce_socket env then {[ce_socket env]} else ∅) ∪ fds) ∖ list_to_set closed)
    (if fd <? 0 then l else fd :: l).
Proof.
  intros Hc Hs Ho. unfold create_connection in Hc. destruct (Z.ltb_spec (ce_socket env) 0) as [Hn|Hn].
  - injection Hc as <- <-. rewrite (proj2 (Z.leb_gt _ _)) by done. cbn.
    by rewrite (left_id_L ∅ (∪)), difference_empty_L.
  - rewrite (proj2 (Z.leb_le _ _)) by done. pose proof (owns_add _ _ _ Hs Hn Ho) as Ha.
    assert ((fd, closed) = (-1, [ce_socket env]) ∨ (fd, closed) = (ce_socket env, [])) as [[= -> ->]|[= -> ->]].
    { rewrite <- Hc. destruct (ce_resolves env), (ce_connect env), (ce_selected env), (ce_no_error env); cbn; auto. }
    + change (-1 <? 0) with true. cbv iota. apply owns_drop_list. exact Ha.
    + rewrite (proj2 (Z.ltb_ge _ _)) by done. cbn. by rewrite difference_empty_L.
Qed.

Lemma pool_act_inv p fds pc p' fds' pc' H R :
  pool_act p fds pc p' fds' pc' →
  list_inv p (pc_holds pc ++ H) → owns_open fds (fds_of (connections p) ++ pc_fds pc ++ R) →
  list_inv p' (pc_holds pc' ++ H) ∧ owns_open fds' (fds_of (connections p') ++ pc_fds pc' ++ R).
Proof.
  intros Hact Hl Ho. destruct Hact as [p fds polls host port now closed a p' Ht
    |p fds polls host port now closed p' Ht|p fds env host port Hs|p fds fd host port now a Ha Hf
    |p fds fd host port Hf|p fds a now err p' Hr|p fds a|p fds a err fd p' Hc]; cbn [pc_holds pc_fds app] in *.
  - by apply (pool_take_inv _ _ _ _ _ _ _ _ _ _ _ Ht).
  - destruct (pool_take_inv _ _ _ _ _ _ _ _ _ _ _ Ht Hl Ho) as [H1 H2]. by destruct (pool_full p').
  - destruct (create_connection env) as [fd closed] eqn:Ec.
    pose proof (create_connection_owned _ _ _ _ _ Ec Hs Ho) as H1. destruct (fd <? 0); [done|].
    split; [done|]. cbn [pc_fds app]. by rewrite <- Permutation_middle.
  - split; [by apply list_inv_add|]. cbn. by rewrite Permutation_middle.
  - split; [done|]. rewrite <- Permutation_middle in Ho. by apply owns_drop in Ho.
  - destruct (held_connection _ _ _ Hl) as (c & Hc & Hu). unfold buckets_conn_pool_release in Hr. rewrite Hc, Hu in Hr.
    cbn in Hr. injection Hr as <- <-. destruct (assoc_perm _ _ _ Hc) as (rest & E1 & _ & E3). split.
    + by eapply (list_inv_unmark p H a c (used_at now false c) rest).
    + cbn [with_connections connections]. rewrite E3. by rewrite E1 in Ho.
  - done.
  - destruct (held_connection _ _ _ Hl) as (c & Hc' & Hu). unfold buckets_conn_pool_close in Hc. rewrite Hc', Hu in Hc.
    injection Hc as <- <- <-. destruct (assoc_perm _ _ _ Hc') as (rest & E1 & E2 & E3). split.
    + pose proof (list_inv_unmark p H a c (used_at 0 false c) rest _ Hl E1 (Permutation_refl _) Hu eq_refl) as H1.
      apply (list_inv_drop _ _ [(a, used_at 0 false c)] (assoc_remove a (connections p)) 1 H1); [|done..].
      cbn. by rewrite E2.
    + cbn [with_connections connections]. rewrite E2. rewrite E1 in Ho. by apply owns_drop in Ho.
Qed.

Lemma list_inv_held p held held' : held ≡ₚ held' → list_inv p held → list_inv p held'.
Proof. intros E [? ? Ha ? Hh]. split; [done..|by rewrite Ha, E|done|by rewrite Hh]. Qed.

Lemma pool_step_inv st st' : pool_step st st' → pool_inv st → pool_inv st'.
Proof.
  intros [st0 t pc p fds pc' Ht Hact] [Hl Ho].
  destruct (bind_insert pc_holds _ _ _ Ht) as (H & E1 & E2). destruct (bind_insert pc_fds _ _ _ Ht) as (R & F1 & F2).
  rewrite F1 in Ho. assert (list_inv (ps_pool st0) (pc_holds pc ++ H)) as Hl'.
  { by eapply list_inv_held. }
  destruct (pool_act_inv _ _ _ _ _ _ _ _ Hact Hl' Ho) as [H1 H2]. split; cbn [ps_pool ps_open ps_threads].
  - by apply (list_inv_held _ (pc_holds pc' ++ H)).
  - by rewrite F2.
Qed.

Lemma pool_start_inv max n : pool_inv (pool_start max n).
Proof.
  assert (∀ {A} (f : pool_pc → list A), f PIdle = [] → replicate n PIdle ≫= f = []) as Hn.
  { intros A f Hf. induction n as [|m IH]; [done|]. cbn. by rewrite Hf. }
  split; cbn [pool_start ps_pool ps_open ps_threads].
  - rewrite Hn by done. split; cbn; [constructor|done|done|lia|done].
  - rewrite Hn by done. cbn. split_and!; [constructor|set_solver|constructor].
Qed.

Lemma pool_act_max p fds pc p' fds' pc' : pool_act p fds pc p' fds' pc' → max_conns p' = max_conns p.
Proof.
  destruct 1 as [????????? Ht|???????? Ht| | | |????? ? Hr| |?????? Hc]; try done.
  - unfold pool_take in Ht. destruct (take_idle _ _ _ _ _) as [[]]. by injection Ht as _ _ <-.
  - unfold pool_take in Ht. destruct (take_idle _ _ _ _ _) as [[]]. by injection Ht as _ _ <-.
  - unfold buckets_conn_pool_release in Hr. destruct (assoc _ _) as [c|]; [|done].
    destruct (conn_in_use c); by injection Hr as <- <-.
  - unfold buckets_conn_pool_close in Hc. destruct (assoc _ _) as [c|]; [|done]. by injection Hc as <- <- <-.
Qed.

Lemma NoDup_in_use l : NoDup l.*1 → NoDup (in_use l).*1.
Proof.
  induction l as [|[a c] l IH]; [done|]. cbn [fmap list_fmap fst]. intros [Ha Hl]%NoDup_cons.
  destruct (conn_in_use c) eqn:Hc; [|rewrite in_use_cons_idle by done; by apply IH].
  rewrite in_use_cons_used by done. cbn. constructor; [|by apply IH].
  intros (x & -> & Hx)%list_elem_of_fmap. apply Ha, list_elem_of_fmap. exists x. split; [done|].
  unfold in_use in Hx. by apply list_elem_of_filter in Hx as [_ Hx].
Qed.

(** A successful call gives a connection to the address that was asked for. *)
Lemma pool_get_connection polls env a now p host port r closed p' held :
  list_inv p held → a ∉ (connections p).*1 → (strlen host ≤ 255)%nat →
  buckets_conn_pool_get polls env a now p host port = (BUCKETS_OK, r, closed, p') →
  ∃ b c, r = Some b ∧ list_inv p' (b :: held) ∧ assoc b (connections p') = Some c ∧
    conn_in_use c = true ∧ conn_host c = host ∧ conn_port c = port.
Proof.
  intros Hl Ha Hh. unfold buckets_conn_pool_get. destruct (port <=? 0); [done|].
  destruct (pool_take polls host port now.1 p) as [[cl r1] p1] eqn:Et.
  pose proof (pool_take_list _ _ _ _ _ _ _ _ _ Et Hl) as (Hl1 & _ & Hr). destruct r1 as [b|].
  - intros [= <- <- <-]. destruct (Hr b eq_refl) as (c & rest & E & Hu & Hhost & Hport).
    exists b, c. split_and!; try done. apply assoc_elem; [apply Hl1|]. rewrite E. set_solver.
  - destruct (pool_full p1) eqn:Hf; [done|]. destruct (create_connection env) as [fd cl'].
    destruct (fd <? 0); [done|]. intros [= <- _ <-]. exists a. eexists. split; [done|]. split; [|split].
    + apply list_inv_add; [done| |done|done]. intros Hin. by apply Ha, (pool_take_addresses _ _ _ _ _ _ _ _ _ Et).
    + cbn. by rewrite Nat.eqb_refl.
    + cbn. by rewrite strncpy_short.
Qed.

(** ** Properties *)

(** C15: the pool is sound under any interleaving of its callers: the counters are the number
    of connections and of those in use, the limit is kept, a connection that a thread was given
    is in the list, marked as used, open and given to no other thread, so its release or close
    succeeds; and the open descriptors are those of the list and of the connections that are
    just being added: none is closed twice, used after it was closed, or leaked. *)
Theorem pool_connections_owned max n st :
  rtc pool_step (pool_start max n) st →
  let p := ps_pool st in
  let held := ps_threads st ≫= pc_holds in
  total_conns p = Z.of_nat (length (connections p)) ∧
  active_conns p = Z.of_nat (length held) ∧ active_conns p ≤ total_conns p ∧
  (0 < max → total_conns p ≤ max) ∧ NoDup held ∧
  (∀ a, a ∈ held → ∃ c, assoc a (connections p) = Some c ∧ conn_in_use c = true ∧ conn_fd c ∈ ps_open st ∧
    ∀ now, (∃ p', buckets_conn_pool_release now p a = Val (BUCKETS_OK, p')) ∧
      ∃ p', buckets_conn_pool_close p a = (BUCKETS_OK, Some (conn_fd c), p')) ∧
  NoDup (fds_of (connections p) ++ (ps_threads st ≫= pc_fds)) ∧
  ∀ fd, fd ∈ ps_open st ↔ fd ∈ fds_of (connections p) ++ (ps_threads st ≫= pc_fds).
Proof.
  intros Hr. assert (pool_inv st ∧ max_conns (ps_pool st) = max) as [[Hl Ho] Hm].
  { pose proof (pool_start_inv max n) as Hi. assert (max_conns (ps_pool (pool_start max n)) = max) as Hm by done.
    revert Hi Hm. induction Hr as [|? ? ? Hs _ IH]; [done|]. intros Hi Hm.
    apply IH; [by apply (pool_step_inv _ _ Hs)|]. destruct Hs as [? ? ? ? ? ? ? Hact]. rewrite <- Hm.
    by apply (pool_act_max _ _ _ _ _ _ Hact). }
  cbv zeta. set (p := ps_pool st) in *. set (held := ps_threads st ≫= pc_holds) in *.
  destruct Ho as (H1 & H2 & _).
  assert (∀ a, a ∈ held → ∃ c, assoc a (connections p) = Some c ∧ conn_in_use c = true) as Hheld.
  { intros a Ha. apply elem_of_Permutation in Ha as [held' Eh].
    apply (held_connection p a held'). by apply (list_inv_held p held). }
  split; [apply Hl|]. split; [apply Hl|]. split.
  { destruct Hl as [_ -> -> _ Hh]. rewrite <- (Permutation_length Hh), length_fmap.
    apply inj_le, length_filter. }
  split; [rewrite <- Hm; apply Hl|]. split.
  { destruct Hl as [Hnd _ _ _ Hh]. rewrite <- Hh. by apply NoDup_in_use. }
  split; [|done]. intros a Ha. destruct (Hheld a Ha) as (c & Hc & Hu). exists c. split_and!; [done..| |].
  - apply H2. apply elem_of_app. left. destruct (assoc_perm _ _ _ Hc) as (rest & E & _). rewrite E. set_solver.
  - intros now. unfold buckets_conn_pool_release, buckets_conn_pool_close. rewrite Hc, Hu. eauto.
Qed.

(** A pool of one connection: the first thread creates one, the second finds the pool full, the
    first gives it back, and the second is given the same one. *)
Definition pool_example : conn_pool :=
  ConnPool [(7%nat, Conn 3 "n2" 9000 true 30)] 1 1 1.

Lemma pool_connections_owned_witness :
  let st := PoolState pool_example {[3]} [PReleased 7; PHolds 7] in
  let p := ps_pool st in
  let held := ps_threads st ≫= pc_holds in
  total_conns p = Z.of_nat (length (connections p)) ∧
  active_conns p = Z.of_nat (length held) ∧ active_conns p ≤ total_conns p ∧
  (0 < 1 → total_conns p ≤ 1) ∧ NoDup held ∧
  (∀ a, a ∈ held → ∃ c, assoc a (connections p) = Some c ∧ conn_in_use c = true ∧ conn_fd c ∈ ps_open st ∧
    ∀ now, (∃ p', buckets_conn_pool_release now p a = Val (BUCKETS_OK, p')) ∧
      ∃ p', buckets_conn_pool_close p a = (BUCKETS_OK, Some (conn_fd c), p')) ∧
  NoDup (fds_of (connections p) ++ (ps_threads st ≫= pc_fds)) ∧
  ∀ fd, fd ∈ ps_open st ↔ fd ∈ fds_of (connections p) ++ (ps_threads st ≫= pc_fds).
Proof.
  apply (pool_connections_owned 1 2).
  set (alive := λ _ : Z, PollAnswer false false None).
  set (env := ConnectEnv 3 true ConnectInProgress true true).
  eapply rtc_l.
  { apply (pool_thread (pool_start 1 2) 0 PIdle); [done|]. by eapply (pool_none _ _ alive "n2" 9000 10 []). }
  eapply rtc_l.
  { apply (pool_thread _ 0 (PConnect "n2" 9000)); [done|]. apply (pool_connect _ _ env). set_solver. }
  eapply rtc_l.
  { apply (pool_thread _ 0 (PNew 3 "n2" 9000)); [done|]. apply (pool_new _ _ _ _ _ 10 7); [set_solver|done]. }
  eapply rtc_l.
  { apply (pool_thread _ 1 PIdle); [done|]. by eapply (pool_none _ _ alive "n2" 9000 15 []). }
  eapply rtc_l.
  { apply (pool_thread _ 0 (PHolds 7)); [done|]. by eapply (pool_release _ _ _ 20). }
  eapply rtc_l.
  { apply (pool_thread _ 1 PIdle); [done|]. by eapply (pool_reuse _ _ alive "n2" 9000 30 [] 7). }
  apply rtc_refl.
Defined.

(** After its unlock a release reads the connection once more for a message; by then another
    thread may have found it dead and freed it. *)
Lemma release_reads_freed : ∃ st,
  rtc pool_step (pool_start 0 2) st ∧ ps_threads st !! 0%nat = Some (PReleased 7) ∧
  assoc 7 (connections (ps_pool st)) = None.
Proof.
  set (dead := λ _ : Z, PollAnswer false true None). set (env := ConnectEnv 3 true ConnectDone true true).
  eexists. split; [|split].
  - eapply rtc_l.
    { apply (pool_thread (pool_start 0 2) 0 PIdle); [done|]. by eapply (pool_none _ _ dead "n2" 9000 10 []). }
    eapply rtc_l.
    { apply (pool_thread _ 0 (PConnect "n2" 9000)); [done|]. apply (pool_connect _ _ env). set_solver. }
    eapply rtc_l.
    { apply (pool_thread _ 0 (PNew 3 "n2" 9000)); [done|]. apply (pool_new _ _ _ _ _ 10 7); [set_solver|done]. }
    eapply rtc_l.
    { apply (pool_thread _ 0 (PHolds 7)); [done|]. by eapply (pool_release _ _ _ 20). }
    eapply rtc_l.
    { apply (pool_thread _ 1 PIdle); [done|]. by eapply (pool_none _ _ dead "n2" 9000 30 [3]). }
    apply rtc_refl.
  - done.
  - done.
Qed.

(** The name of a host is stored in 255 bytes; a longer one never matches what is looked for,
    so its connections are made anew for each call and stay in the pool. *)
Lemma long_host_not_reused polls host port now l :
  (255 < strlen host)%nat → Forall (λ x, (strlen (conn_host x.2) ≤ 255)%nat) l →
  take_idle polls host port now l = ([], None, l).
Proof.
  intros Hh. induction 1 as [|[a c] l Hc _ IH]; [done|]. cbn [take_idle].
  assert (strcmp_eq (conn_host c) host = false) as ->.
  { unfold strcmp_eq. apply bool_decide_eq_false_2. cbn in Hc. intros E. rewrite E in Hc. lia. }
  rewrite andb_false_r. cbn [andb]. by rewrite IH.
Qed.

(** A call of one thread, uninterrupted, is a sequence of steps. *)
Lemma thread_steps st t pc p fds pc1 st' :
  ps_threads st !! t = Some pc → pool_act (ps_pool st) (ps_open st) pc p fds pc1 →
  (∀ st1, st1 = PoolState p fds (<[t := pc1]> (ps_threads st)) → ps_threads st1 !! t = Some pc1 → rtc pool_step st1 st') →
  rtc pool_step st st'.
Proof.
  intros Ht Hact Hr. eapply rtc_l; [by eapply pool_thread|]. eapply Hr; [done|].
  cbn [ps_threads]. apply list_lookup_insert_eq. by eapply lookup_lt_Some.
Qed.

Lemma get_is_pool_steps st t polls env a now host port err r closed p' :
  ps_threads st !! t = Some PIdle → ce_socket env ∉ ps_open st →
  a ∉ (connections (ps_pool st)).*1 → 0 < port →
  buckets_conn_pool_get polls env a now (ps_pool st) host port = (err, r, closed, p') →
  ∃ fds, rtc pool_step st
    (PoolState p' fds (<[t := match r with Some a => PHolds a | None => PIdle end]> (ps_threads st))).
Proof.
  intros Ht Hs Ha Hp. unfold buckets_conn_pool_get. rewrite (proj2 (Z.leb_gt _ _)) by done.
  destruct (pool_take polls host port now.1 (ps_pool st)) as [[cl r1] p1] eqn:Et. destruct r1 as [b|].
  { intros [= <- <- <- <-]. eexists. by apply rtc_once, (pool_thread _ _ PIdle), (pool_reuse _ _ _ _ _ _ _ _ _ Et). }
  assert (a ∉ (connections p1).*1) as Ha1.
  { intros Hin. by apply Ha, (pool_take_addresses _ _ _ _ _ _ _ _ _ Et). }
  pose proof (pool_none _ (ps_open st) _ _ _ _ _ _ Et) as H1.
  destruct (pool_full p1) eqn:Hf.
  { intros [= <- <- <- <-]. eexists. by apply rtc_once, (pool_thread _ _ PIdle). }
  destruct (create_connection env) as [fd closed'] eqn:Ec.
  assert (ce_socket env ∉ ps_open st ∖ list_to_set cl) as Hs1 by set_solver.
  pose proof (pool_connect p1 _ env host port Hs1) as H2. rewrite Ec in H2.
  intros Hg. destruct (fd <? 0).
  - injection Hg as <- <- <- <-. eexists. eapply thread_steps; [done|exact H1|]. intros st1 -> Ht1.
    eapply thread_steps; [done|exact H2|]. intros st2 -> Ht2. cbn [ps_threads].
    rewrite list_insert_insert_eq. apply rtc_refl.
  - injection Hg as <- <- <- <-. eexists. eapply thread_steps; [done|exact H1|]. intros st1 -> Ht1.
    eapply thread_steps; [done|exact H2|]. intros st2 -> Ht2.
    eapply thread_steps; [done|by apply (pool_new _ _ fd host port now.2 a)|]. intros st3 -> Ht3. cbn [ps_threads].
    rewrite !list_insert_insert_eq. apply rtc_refl.
Qed.
