(* ===== verification/UrlCode.v ===== *)
(** * Percent encoding (src/src/storage/binary_transport.c)

    The object key and the path of the disk travel in HTTP header lines; every byte that is
    not a letter, a digit or one of [-_.~] is sent as [%XX]. Strings are lists of bytes. *)

From S2P Require Import Prelude CInt CString.

Local Open Scope c_scope.

Definition unreserved (c : Z) : bool :=
  ((65 <=? c) && (c <=? 90)) || ((97 <=? c) && (c <=? 122)) || ((48 <=? c) && (c <=? 57)) ||
  (c =? 45) || (c =? 95) || (c =? 46) || (c =? 126).

(** [%02X] *)
Definition hex_upper (n : Z) : Z := if n <? 10 then 48 + n else 55 + n.

Fixpoint url_encode (str : list Z) : list Z :=
  match str with
  | [] => []
  | c :: str =>
      (if unreserved c then [c] else [37; hex_upper (c / 16); hex_upper (c mod 16)]) ++ url_encode str
  end.

Definition hex_of (c : Z) : option Z :=
  if (48 <=? c) && (c <=? 57) then Some (c - 48)
  else if (65 <=? c) && (c <=? 70) then Some (c - 55)
  else if (97 <=? c) && (c <=? 102) then Some (c - 87)
  else None.

Definition space (c : Z) : bool := (c =? 32) || ((9 <=? c) && (c <=? 13)).

Fixpoint skip_spaces (s : list Z) : list Z :=
  match s with
  | c :: s' => if space c then skip_spaces s' else s
  | [] => s
  end.

(** [sscanf(s, "%2x", &val)]: white space is skipped, a sign counts as one of the two
    characters. How a lone [0x] is read differs between libraries. *)
Definition scan_hex2 (s : list Z) : c_result (option Z) :=
  match skip_spaces s with
  | a :: b :: _ =>
      if (a =? 43) || (a =? 45) then
        Val (match hex_of b with Some v => Some (if a =? 45 then u32 (- v) else v) | None => None end)
      else if (a =? 48) && ((b =? 120) || (b =? 88)) then Undef
      else
        Val (match hex_of a with
             | Some x => Some (match hex_of b with Some y => 16 * x + y | None => x end)
             | None => None
             end)
  | [a] => Val (hex_of a)
  | [] => Val None
  end.

(** A percent sign with fewer than two characters after it, or not before a number, stands
    for itself. *)
Fixpoint url_decode (str : list Z) : c_result (list Z) :=
  match str with
  | [] => Val []
  | c :: rest =>
      match rest with
      | a :: b :: rest2 =>
          if c =? 37 then
            let* v := scan_hex2 rest in
            match v with
            | Some v => let* d := url_decode rest2 in Val (u8 v :: d)
            | None => let* d := url_decode rest in Val (c :: d)
            end
          else let* d := url_decode rest in Val ((if c =? 43 then 32 else c) :: d)
      | _ => let* d := url_decode rest in Val ((if c =? 43 then 32 else c) :: d)
      end
  end.

(** ** Round trip *)

Lemma hex_of_upper n : 0 ≤ n < 16 → hex_of (hex_upper n) = Some n.
Proof.
  intros Hn. assert (Forall (λ n, hex_of (hex_upper (Z.of_nat n)) = Some (Z.of_nat n)) (seq 0 16)) as H
    by (repeat (constructor; [reflexivity|]); constructor).
  rewrite Forall_forall in H. specialize (H (Z.to_nat n)). rewrite Z2Nat.id in H by lia.
  apply H. apply elem_of_seq. lia.
Qed.

Lemma hex_upper_bounds n : 0 ≤ n < 16 → 48 ≤ hex_upper n ≤ 57 ∨ 65 ≤ hex_upper n ≤ 70.
Proof. unfold hex_upper. intros. split_if; lia. Qed.

Lemma scan_hex2_upper x y rest :
  0 ≤ x < 16 → 0 ≤ y < 16 → scan_hex2 (hex_upper x :: hex_upper y :: rest) = Val (Some (16 * x + y)).
Proof.
  intros Hx Hy. unfold scan_hex2. pose proof (hex_upper_bounds x Hx). pose proof (hex_upper_bounds y Hy).
  cbn [skip_spaces]. assert (space (hex_upper x) = false) as -> by (unfold space; lia).
  rewrite (hex_of_upper x), (hex_of_upper y) by done. repeat split_if; done || lia.
Qed.

Lemma decode_plain c rest d :
  (c =? 37) = false → (c =? 43) = false → url_decode rest = Val d → url_decode (c :: rest) = Val (c :: d).
Proof. intros H1 H2 Hd. cbn [url_decode]. rewrite H1, H2, Hd. by destruct rest as [|? [|? ?]]. Qed.

Lemma url_decode_encode str : is_bytes str → url_decode (url_encode str) = Val str.
Proof.
  induction 1 as [|c str Hc _ IH]; [done|]. cbn [url_encode]. unfold is_u8, in_range in Hc.
  destruct (unreserved c) eqn:E.
  - cbn [app]. apply decode_plain; [| |done]; unfold unreserved in E; lia.
  - cbn [app]. cbn [url_decode]. change (37 =? 37) with true. cbv iota.
    rewrite scan_hex2_upper; [|split; [apply Z.div_pos; lia|apply Z.div_lt_upper_bound; lia]|apply Z.mod_pos_bound; lia].
    cbn [c_bind]. rewrite IH. cbn [c_bind]. rewrite <- Z.div_mod by lia. unfold u8.
    rewrite wrap_small by (unfold in_range; lia). done.
Qed.

(** What is sent is a header value: no control character, no blank, no byte above 127. *)
Lemma url_encode_printable str : is_bytes str → Forall (λ c, 33 ≤ c ≤ 126) (url_encode str).
Proof.
  induction 1 as [|c str Hc _ IH]; [constructor|]. cbn [url_encode]. unfold is_u8, in_range in Hc.
  destruct (unreserved c) eqn:E.
  - constructor; [unfold unreserved in E; lia|done].
  - pose proof (hex_upper_bounds (c / 16) ltac:(split; [apply Z.div_pos; lia|apply Z.div_lt_upper_bound; lia])).
    pose proof (hex_upper_bounds (c mod 16) ltac:(apply Z.mod_pos_bound; lia)).
    repeat (constructor; [lia|]). done.
Qed.

Lemma length_url_encode str : (length (url_encode str) ≤ 3 * length str)%nat.
Proof.
  induction str as [|c str IH]; [done|]. cbn [url_encode]. rewrite length_app. cbn [length].
  destruct (unreserved c); cbn [length]; lia.
Qed.

(** ** Properties *)

(** Percent encoding is lossless and safe for a header line: decoding what was encoded
    gives every key back, whatever bytes it has, and the encoded form has only visible ASCII
    characters (so no line break can be injected) and at most three times the length, the
    size of the buffer. *)
Theorem url_code_roundtrip str :
  is_bytes str →
  url_decode (url_encode str) = Val str ∧ Forall (λ c, 33 ≤ c ≤ 126) (url_encode str) ∧
  (length (url_encode str) ≤ 3 * length str)%nat.
Proof.
  intros Hb. split_and!; [by apply url_decode_encode|by apply url_encode_printable|apply length_url_encode].
Qed.

Lemma url_code_roundtrip_witness :
  url_decode (url_encode [97; 47; 10; 255]) = Val [97; 47; 10; 255] ∧
  Forall (λ c, 33 ≤ c ≤ 126) (url_encode [97; 47; 10; 255]) ∧
  (length (url_encode [97; 47; 10; 255]%Z) ≤ 3 * length [97; 47; 10; 255]%Z)%nat.
Proof. apply url_code_roundtrip. repeat constructor; unfold in_range; lia. Defined.
