(* ===== verification/Router.v ===== *)
(** * Request router (src/src/net/router.c)

    A table of routes, searched in the order in which they were added. The path of a route may
    be a pattern of the C library's [fnmatch]. *)

From S2P Require Import Prelude CInt CString CSearch.
From Stdlib Require Import Ascii.

Local Open Scope c_scope.

(** ** Patterns

    [fnmatch] without flags: [*] stands for any characters, also slashes, [?] for one,
    a backslash takes the next character as it is. Brackets list characters and ranges, after
    [!] or [^] the others; without a closing bracket they stand for themselves. Named classes
    inside brackets, and the order of characters in a locale, are left out: no pattern of the
    program uses them. *)

(** One character, after a backslash literally; a trailing backslash is none. *)
Definition bracket_char (p : string) : option (ascii * string) :=
  match p with
  | EmptyString | String "\" EmptyString => None
  | String "\" (String c p) => Some (c, p)
  | String c p => Some (c, p)
  end.

(** The members of a bracket expression, as ranges, and what follows it; [first] allows a [']'] as
    the first member. *)
Fixpoint bracket (fuel : nat) (p : string) (first : bool) : option (list (ascii * ascii) * string) :=
  match fuel, p with
  | O, _ | _, EmptyString => None
  | S fuel, String c p' =>
      if Ascii.eqb c "]" && negb first then Some ([], p')
      else
        match bracket_char p with
        | None => None
        | Some (a, p1) =>
            let r :=
              match p1 with
              | String "-" (String d q) =>
                  if Ascii.eqb d "]" then (a, p1) else default (a, p1) (bracket_char (String d q))
              | _ => (a, p1)
              end in
            (λ x, ((a, r.1) :: x.1, x.2)) <$> bracket fuel r.2 false
        end
  end.

Definition in_bracket (l : list (ascii * ascii)) (c : ascii) : bool :=
  existsb (λ r, (N_of_ascii r.1 <=? N_of_ascii c)%N && (N_of_ascii c <=? N_of_ascii r.2)%N) l.

(** [fuel] bounds the steps: each one drops a character of the pattern or of the string. *)
Fixpoint fnmatch_fuel (fuel : nat) (p s : string) : bool :=
  match fuel with
  | O => false
  | S fuel =>
      match p with
      | EmptyString => match s with EmptyString => true | _ => false end
      | String "*" p' =>
          fnmatch_fuel fuel p' s ||
          match s with EmptyString => false | String _ s' => fnmatch_fuel fuel p s' end
      | String "?" p' => match s with EmptyString => false | String _ s' => fnmatch_fuel fuel p' s' end
      | String "\" (String c p') =>
          match s with String c' s' => Ascii.eqb c c' && fnmatch_fuel fuel p' s' | EmptyString => false end
      | String "\" EmptyString => false
      | String "[" p' =>
          let (negated, q) :=
            match p' with
            | String c q => if Ascii.eqb c "!" || Ascii.eqb c "^" then (true, q) else (false, p')
            | EmptyString => (false, p')
            end in
          match bracket (S (strlen q)) q true with
          | Some (l, rest) =>
              match s with
              | String c s' => xorb negated (in_bracket l c) && fnmatch_fuel fuel rest s'
              | EmptyString => false
              end
          | None =>
              match s with
              | String c' s' => Ascii.eqb "[" c' && fnmatch_fuel fuel p' s'
              | EmptyString => false
              end
          end
      | String c p' =>
          match s with String c' s' => Ascii.eqb c c' && fnmatch_fuel fuel p' s' | EmptyString => false end
      end
  end.

Definition fnmatch (p s : string) : bool := fnmatch_fuel (S (strlen p + strlen s)) p s.

(** ** The table *)

(** The handler is a pointer; the user data goes with it. *)
Record route_entry (H : Type) := RouteEntry {
  rt_method : string;
  rt_path : string;
  rt_handler : H
}.
Arguments RouteEntry {H}.
Arguments rt_method {H}.
Arguments rt_path {H}.
Arguments rt_handler {H}.

(** The array of routes and its capacity. *)
Record router (H : Type) := Router { routes : list (route_entry H); capacity : nat }.
Arguments Router {H}.
Arguments routes {H}.
Arguments capacity {H}.

Section Router.
Context {H : Type}.

Definition buckets_router_create : router H := Router [] 0.

Definition buckets_router_add_route (r : option (router H)) (method path : option string)
    (handler : option H) : buckets_error_t * option (router H) :=
  match r, method, path, handler with
  | Some r, Some method, Some path, Some handler =>
      let capacity :=
        if (capacity r <=? length (routes r))%nat then
          (if (capacity r =? 0)%nat then 8 else capacity r * 2)%nat
        else capacity r in
      (BUCKETS_OK, Some (Router (routes r ++ [RouteEntry method path handler]) capacity))
  | _, _, _, _ => (BUCKETS_ERR_INVALID_ARG, r)
  end.

Definition method_matches (entry : route_entry H) (method : string) : bool :=
  strcmp_eq (rt_method entry) "*" || strcmp_eq (rt_method entry) method.

Definition path_matches (entry : route_entry H) (path : string) : bool :=
  if strcmp_eq (rt_path entry) path then true
  else
    match strchr (rt_path entry) "*" with
    | Some _ => fnmatch (rt_path entry) path
    | None => false
    end.

Fixpoint match_routes (l : list (route_entry H)) (method path : string) : option H :=
  match l with
  | [] => None
  | entry :: l =>
      if negb (method_matches entry method) then match_routes l method path
      else if path_matches entry path then Some (rt_handler entry)
      else match_routes l method path
  end.

(** The handler that was found, [None] when there is none. *)
Definition buckets_router_match (r : option (router H)) (method path : option string)
    : buckets_error_t * option H :=
  match r, method, path with
  | Some r, Some method, Some path => (BUCKETS_OK, match_routes (routes r) method path)
  | _, _, _ => (BUCKETS_ERR_INVALID_ARG, None)
  end.

(** The count goes through an [int]. *)
Definition buckets_router_get_route_count (r : option (router H)) : Z :=
  match r with
  | None => 0
  | Some r => (Z.of_nat (length (routes r)) + 2 ^ 31) mod 2 ^ 32 - 2 ^ 31
  end.
End Router.

(** ** What a pattern matches *)

(** Characters without a meaning in patterns. *)
Definition plain_char (c : ascii) : Prop := c ≠ "*"%char ∧ c ≠ "?"%char ∧ c ≠ "\"%char ∧ c ≠ "["%char.

Definition plain (s : string) : Prop := Forall plain_char (String.list_ascii_of_string s).

Lemma fnmatch_plain_step fuel c p s :
  plain_char c →
  fnmatch_fuel (S fuel) (String c p) s =
    match s with String c' s' => Ascii.eqb c c' && fnmatch_fuel fuel p s' | EmptyString => false end.
Proof.
  intros (H1 & H2 & H3 & H4). cbn [fnmatch_fuel].
  destruct c as [[] [] [] [] [] [] [] []]; try done; by destruct p.
Qed.

(** A prefix followed by a star matches exactly what starts with the prefix. *)
Lemma fnmatch_star_all fuel s : (strlen s < fuel)%nat → fnmatch_fuel (S fuel) "*" s = true.
Proof.
  revert fuel. induction s as [|c s IH]; intros fuel Hl.
  - destruct fuel; [cbn in *; lia|done].
  - destruct fuel as [|fuel]; [cbn in *; lia|]. change (strlen (String c s)) with (S (strlen s)) in Hl.
    cbn [fnmatch_fuel]. rewrite orb_false_l. apply IH. lia.
Qed.

Lemma fnmatch_prefix_star pre s : plain pre →
  fnmatch (pre +:+ "*") s = true ↔ ∃ t, s = pre +:+ t.
Proof.
  unfold fnmatch. rewrite strlen_app. change (strlen "*") with 1%nat.
  assert (∀ fuel, plain pre → (strlen pre + 1 + strlen s < fuel)%nat →
    fnmatch_fuel fuel (pre +:+ "*") s = true ↔ ∃ t, s = pre +:+ t) as H; [|intros; apply H; [done|lia]].
  revert s. induction pre as [|c pre IH]; intros s fuel Hp Hl.
  - cbn [String.append] in *. change (strlen "") with 0%nat in Hl. destruct fuel as [|fuel]; [lia|].
    rewrite fnmatch_star_all by lia. split; [by exists s|done].
  - change (strlen (String c pre)) with (S (strlen pre)) in Hl.
    change (String c pre +:+ "*") with (String c (pre +:+ "*")). destruct fuel as [|fuel]; [lia|].
    apply Forall_cons in Hp as [Hc Hp]. rewrite fnmatch_plain_step by done.
    destruct s as [|c' s].
    + split; [done|]. intros [t Ht]. done.
    + change (strlen (String c' s)) with (S (strlen s)) in Hl.
      rewrite andb_true_iff, Ascii.eqb_eq, IH; [|done|lia]. split.
      * intros [-> [t ->]]. by exists t.
      * intros [t [= -> ->]]. eauto.
Qed.

(** ** Lookup *)

Section Match.
Context {H : Type}.

Definition serves (method path : string) (entry : route_entry H) : Prop :=
  method_matches entry method = true ∧ path_matches entry path = true.

#[global] Instance serves_dec method path entry : Decision (serves method path entry).
Proof. unfold serves. apply _. Defined.

Lemma match_routes_find (l : list (route_entry H)) method path :
  match_routes l method path = (λ x, rt_handler x.2) <$> list_find (serves method path) l.
Proof.
  induction l as [|e l IH]; [done|]. cbn [match_routes list_find].
  destruct (decide (serves method path e)) as [[Hm Hp]|Hs].
  - rewrite Hm, Hp. done.
  - rewrite IH. unfold serves in Hs.
    destruct (method_matches e method), (path_matches e path); cbn [negb]; try (by destruct Hs);
      by destruct (list_find _ l) as [[]|].
Qed.

(** The first route that serves a request, in the order of adding, handles it; when none does,
    nothing is found. *)
Theorem router_first_match r method path :
  (∀ h, buckets_router_match (Some r) (Some method) (Some path) = (BUCKETS_OK, Some h) ↔
     ∃ i e, routes r !! i = Some e ∧ rt_handler e = h ∧ serves method path e ∧
       ∀ j e', (j < i)%nat → routes r !! j = Some e' → ¬ serves method path e') ∧
  (buckets_router_match (Some r) (Some method) (Some path) = (BUCKETS_OK, None) ↔
     Forall (λ e, ¬ serves method path e) (routes r)).
Proof.
  unfold buckets_router_match. rewrite match_routes_find. split.
  - intros h. destruct (list_find _ _) as [[i e]|] eqn:Hf; cbn.
    + apply list_find_Some in Hf as (Hi & Hs & Hb). split.
      * intros [= <-]. exists i, e. split_and!; eauto.
      * intros (i' & e' & Hi' & <- & Hs' & Hb'). destruct (Nat.lt_trichotomy i i') as [Hlt|[<-|Hlt]].
        -- exfalso. by eapply Hb'.
        -- congruence.
        -- exfalso. by eapply Hb.
    + apply list_find_None in Hf. split; [done|]. intros (i & e & Hi & _ & Hs & _).
      exfalso. exact (Forall_lookup_1 _ _ _ _ Hf Hi Hs).
  - destruct (list_find _ _) as [[i e]|] eqn:Hf; cbn.
    + apply list_find_Some in Hf as (Hi & Hs & _). split; [done|]. intros Hall.
      exfalso. exact (Forall_lookup_1 _ _ _ _ Hall Hi Hs).
    + apply list_find_None in Hf. done.
Qed.

(** A route that is added serves only what the routes before it do not. *)
Lemma add_route_last (r r' : router H) m p h method path :
  buckets_router_add_route (Some r) (Some m) (Some p) (Some h) = (BUCKETS_OK, Some r') →
  match_routes (routes r') method path =
    match match_routes (routes r) method path with
    | Some x => Some x
    | None => match_routes [RouteEntry m p h] method path
    end.
Proof.
  intros [= <-]. cbn [routes]. induction (routes r) as [|e l IH]; [done|].
  cbn [match_routes app]. destruct (method_matches e method); cbn [negb]; [|done].
  by destruct (path_matches e path).
Qed.
End Match.
