(* ===== verification/HttpWire.v ===== *)
(** * Receiving HTTP responses (src/src/storage/binary_transport.c,
    src/src/storage/batch_transport.c, src/src/net/uv_server.c)

    A connection delivers a stream of bytes in pieces that the sender does not choose. The
    clients read until the end of the headers, scan the status and the length, and read the
    rest. The server prints a response into one buffer. *)

From S2P Require Import Prelude CInt CString CSearch.
From Stdlib Require Import Ascii.

Local Open Scope c_scope.

Definition CR : ascii := ascii_of_nat 13.
Definition LF : ascii := ascii_of_nat 10.
Definition NUL : ascii := ascii_of_nat 0.
Definition CRLF : string := String CR (String LF "").
Definition CRLF2 : string := CRLF +:+ CRLF.

(** The C string at the start of a buffer. *)
Fixpoint c_str (s : string) : string :=
  match s with
  | String c s' => if bool_decide (c = NUL) then "" else String c (c_str s')
  | EmptyString => ""
  end.

(** ** Receiving *)

(** The pieces that have not been read; an empty piece stands for a closed connection, no
    piece for a timeout. [recv(fd, buf, max, 0)]: *)
Definition recv (max : nat) (segs : list string) : option (string * list string) :=
  match segs with
  | [] => None
  | s :: segs =>
      if strcmp_eq s "" then None
      else if (strlen s <=? max)%nat then Some (s, segs)
      else Some (strncpy max s, str_drop max s :: segs)
  end.

(** Whether the buffer has the end of the headers. *)
Definition headers_end (buf : string) : option nat :=
  match strstr (c_str buf) CRLF2 with Some (b, _) => Some (strlen b) | None => None end.

(** The loop that fills a buffer of [size] bytes: it stops at the end of the headers or when
    [limit] bytes are there; [None] is an error. One turn per piece: a piece that does not fit
    fills the buffer. *)
Fixpoint recv_until (limit size : nat) (buf : string) (segs : list string)
    : option (string * list string) :=
  if (limit <=? strlen buf)%nat then Some (buf, segs)
  else
    match segs with
    | [] => None
    | s :: rest =>
        if strcmp_eq s "" then None
        else if (strlen s <=? size - 1 - strlen buf)%nat then
          match headers_end (buf +:+ s) with
          | Some _ => Some (buf +:+ s, rest)
          | None => recv_until limit size (buf +:+ s) rest
          end
        else
          Some (buf +:+ strncpy (size - 1 - strlen buf) s, str_drop (size - 1 - strlen buf) s :: rest)
    end.

Definition recv_headers (size : nat) : string → list string → option (string * list string) :=
  recv_until (size - 1) size.

(** The rest of a body of known length. *)
Fixpoint recv_body (remaining : nat) (segs : list string) : option (string * list string) :=
  match remaining with
  | O => Some ("", segs)
  | S _ =>
      match segs with
      | [] => None
      | s :: rest =>
          if strcmp_eq s "" then None
          else if (strlen s <=? remaining)%nat then
            match recv_body (remaining - strlen s) rest with
            | Some (d, rest) => Some (s +:+ d, rest)
            | None => None
            end
          else Some (strncpy remaining s, str_drop remaining s :: rest)
      end
  end.

(** ** Scanning *)

(** A decimal number after white space, with what follows it. *)
Definition scan_int (s : string) : option (Z * string) :=
  let (_, d) := read_sign (skip_space s) in
  match d with
  | String c _ => match digit_value c with Some _ => Some (read_number s) | None => None end
  | EmptyString => None
  end.

(** [sscanf(s, "HTTP/1.%*d %d", &status)]; a number that does not fit is undefined. *)
Definition scan_status (s : string) : c_result (option Z) :=
  if starts_with s "HTTP/1." then
    match scan_int (str_drop 7 s) with
    | Some (_, r) =>
        match scan_int r with
        | Some (v, _) => let* v := i32c v in Val (Some v)
        | None => Val None
        end
    | None => Val None
    end
  else Val None.

(** [sscanf(cl, "%*[^:]: %zu", &content_length)]; the length stays 0 without a number. *)
Definition scan_length (cl : string) : Z :=
  match strchr cl ":" with
  | Some ("", _) | None => 0
  | Some (_, r) =>
      match scan_int (str_drop 1 r) with Some _ => strtoull (str_drop 1 r) | None => 0 end
  end.

Definition content_length (buf : string) : Z :=
  match strstr buf "Content-Length:" with
  | Some (_, cl) => scan_length cl
  | None => match strstr buf "content-length:" with Some (_, cl) => scan_length cl | None => 0 end
  end.

(** ** The response of the server (uv_server.c) *)

Definition http_status_string (status : Z) : string :=
  match status with
  | 200 => "OK" | 201 => "Created" | 204 => "No Content" | 206 => "Partial Content"
  | 301 => "Moved Permanently" | 302 => "Found" | 304 => "Not Modified"
  | 400 => "Bad Request" | 401 => "Unauthorized" | 403 => "Forbidden" | 404 => "Not Found"
  | 405 => "Method Not Allowed" | 409 => "Conflict" | 411 => "Length Required"
  | 413 => "Payload Too Large" | 416 => "Range Not Satisfiable"
  | 500 => "Internal Server Error" | 501 => "Not Implemented" | 503 => "Service Unavailable"
  | _ => "Unknown"
  end.

(** Lines, each with its end. *)
Fixpoint lines (ls : list string) : string :=
  match ls with
  | [] => ""
  | l :: ls => l +:+ CRLF +:+ lines ls
  end.

(** The lines of the header; the buffer of 4096 bytes is large enough for the headers of the
    handlers below. *)
Definition response_lines (status : Z) (headers : list (string * string)) (len : Z) (keep_alive : bool)
    : list string :=
  ("HTTP/1.1 " +:+ pretty status +:+ " " +:+ http_status_string status)
  :: ((λ h, h.1 +:+ ": " +:+ h.2) <$> headers)
  ++ ["Content-Length: " +:+ print_u64 len; "Connection: " +:+ (if keep_alive then "keep-alive" else "close")].

Definition uv_http_response_start (status : Z) (headers : list (string * string)) (len : Z)
    (keep_alive : bool) : string :=
  lines (response_lines status headers len keep_alive) +:+ CRLF.

(** ** Strings *)

Lemma strncpy_app_le n s t : (n ≤ strlen s)%nat → strncpy n (s +:+ t) = strncpy n s.
Proof.
  unfold strncpy, strlen. revert n. induction s as [|c s IH]; intros [|n] Hn; cbn in Hn; try lia.
  - by destruct t.
  - done.
  - change (String c s +:+ t) with (String c (s +:+ t)). cbn [String.substring]. f_equal. apply IH. lia.
Qed.

Lemma strncpy_app_ge n s t : (strlen s ≤ n)%nat → strncpy n (s +:+ t) = s +:+ strncpy (n - strlen s) t.
Proof.
  unfold strncpy, strlen. revert n. induction s as [|c s IH]; intros n Hn.
  - cbn. by rewrite Nat.sub_0_r.
  - destruct n as [|n]; cbn in Hn; [lia|]. change (String c s +:+ t) with (String c (s +:+ t)).
    cbn [String.substring String.length Nat.sub]. rewrite IH by lia. done.
Qed.

Lemma strncpy_drop n s : strncpy n s +:+ str_drop n s = s.
Proof.
  unfold strncpy. revert n. induction s as [|c s IH]; intros [|n]; try done.
  cbn [String.substring str_drop]. exact (f_equal (String c) (IH n)).
Qed.

Lemma string_app_cancel (a b c : string) : a +:+ b = a +:+ c → b = c.
Proof.
  induction a as [|x a IH]; [done|]. intros E. apply IH.
  change (String x (a +:+ b) = String x (a +:+ c)) in E. by injection E.
Qed.

Lemma strlen_strncpy n s : (n ≤ strlen s)%nat → strlen (strncpy n s) = n.
Proof.
  unfold strncpy, strlen. revert n. induction s as [|c s IH]; intros [|n] Hn; cbn in Hn |- *; try lia.
  f_equal. apply IH. lia.
Qed.

(** A reading that is over does not depend on what would follow. *)
Lemma recv_until_more limit size buf segs more r :
  recv_until limit size buf segs = Some r → recv_until limit size buf (segs ++ more) = Some (r.1, r.2 ++ more).
Proof.
  revert buf. induction segs as [|s segs IH]; intros buf; cbn [recv_until app].
  - destruct (limit <=? strlen buf)%nat eqn:El; [|done]. intros [= <-].
    destruct more; cbn [recv_until]; by rewrite El.
  - destruct (limit <=? strlen buf)%nat; [by intros [= <-]|]. destruct (strcmp_eq s ""); [done|].
    destruct (strlen s <=? size - 1 - strlen buf)%nat; [|by intros [= <-]].
    destruct (headers_end (buf +:+ s)); [by intros [= <-]|]. apply IH.
Qed.

Lemma strlen_empty s : strlen s = 0%nat → s = "".
Proof. by destruct s. Qed.

Lemma prefix_app_long p s t :
  (strlen p ≤ strlen s)%nat → String.prefix p (s +:+ t) = String.prefix p s.
Proof.
  unfold strlen. revert s. induction p as [|c p IH]; intros [|d s] Hp; cbn in Hp; try lia.
  - by destruct t.
  - done.
  - change (String d s +:+ t) with (String d (s +:+ t)). cbn [String.prefix].
    destruct (ascii_dec c d); [|done]. apply IH. lia.
Qed.

Lemma prefix_len p s : String.prefix p s = true → (strlen p ≤ strlen s)%nat.
Proof. intros [t ->]%prefix_split. rewrite strlen_app. lia. Qed.

(** The first occurrence in a longer string, seen from a part of it: found when the part is
    long enough, and only then. *)
Lemma strstr_part pat s t b r :
  pat ≠ "" → strstr (s +:+ t) pat = Some (b, r) →
  if (strlen b + strlen pat <=? strlen s)%nat then ∃ r', strstr s pat = Some (b, r')
  else strstr s pat = None.
Proof.
  intros Hpat. revert b. induction s as [|c s IH]; intros b.
  - intros _. destruct pat; [done|]. rewrite (proj2 (Nat.leb_gt _ _)) by (cbn; lia). done.
  - change (String c s +:+ t) with (String c (s +:+ t)). cbn [strstr].
    destruct (String.prefix pat (String c (s +:+ t))) eqn:Ep.
    + intros [= <- <-]. change (strlen "") with 0%nat. cbn [Nat.add].
      destruct (Nat.leb_spec (strlen pat) (strlen (String c s))) as [Hl|Hl].
      * change (String c (s +:+ t)) with (String c s +:+ t) in Ep. rewrite prefix_app_long in Ep by done.
        rewrite Ep. by eexists.
      * assert (String.prefix pat (String c s) = false) as ->.
        { destruct (String.prefix pat (String c s)) eqn:E; [|done]. apply prefix_len in E. lia. }
        destruct (strstr s pat) as [[b' r']|] eqn:E; [|done]. exfalso.
        apply strstr_Some in E as (-> & u & ->).
        change (strlen (String c (b' +:+ pat +:+ u))) with (S (strlen (b' +:+ pat +:+ u))) in Hl.
        rewrite !strlen_app in Hl. lia.
    + destruct (strstr (s +:+ t) pat) as [[b' r']|] eqn:E; [|done]. intros [= <- <-].
      specialize (IH b' eq_refl). change (strlen (String c b')) with (S (strlen b')).
      change (strlen (String c s)) with (S (strlen s)). cbn [Nat.add Nat.leb].
      assert (String.prefix pat (String c s) = false) as ->.
      { destruct (String.prefix pat (String c s)) eqn:E'; [|done].
        change (String c (s +:+ t)) with (String c s +:+ t) in Ep.
        rewrite prefix_app_long in Ep by (by apply prefix_len). congruence. }
      destruct (_ <=? _)%nat; [|by rewrite IH]. destruct IH as [r'' ->]. by eexists.
Qed.

Lemma strstr_more s t pat b r : strstr s pat = Some (b, r) → strstr (s +:+ t) pat = Some (b, r +:+ t).
Proof.
  revert b. induction s as [|c s IH]; intros b.
  - cbn [strstr]. destruct (String.prefix pat "") eqn:Ep; [|done]. intros [= <- <-].
    destruct pat; [|done]. by destruct t.
  - change (String c s +:+ t) with (String c (s +:+ t)). cbn [strstr].
    destruct (String.prefix pat (String c s)) eqn:Ep.
    + intros [= <- <-]. pose proof (prefix_len _ _ Ep).
      change (String c (s +:+ t)) with (String c s +:+ t). by rewrite prefix_app_long, Ep.
    + destruct (strstr s pat) as [[b' r']|] eqn:E; [|done]. intros [= <- <-].
      rewrite (IH b' eq_refl). destruct (String.prefix pat (String c (s +:+ t))) eqn:Ep'; [|done].
      exfalso. apply strstr_Some in E as (-> & u & ->).
      change (String c ((b' +:+ pat +:+ u) +:+ t)) with (String c (b' +:+ pat +:+ u) +:+ t) in Ep'.
      rewrite prefix_app_long in Ep'; [congruence|].
      change (strlen (String c (b' +:+ pat +:+ u))) with (S (strlen (b' +:+ pat +:+ u))).
      rewrite !strlen_app. lia.
Qed.

Lemma strstr_skip c pat a s :
  no_char c a →
  strstr (a +:+ s) (String c pat)
    = match strstr s (String c pat) with Some (b, r) => Some (a +:+ b, r) | None => None end.
Proof.
  induction a as [|d a IH].
  { intros _. change ("" +:+ s) with s. by destruct (strstr s (String c pat)) as [[b r]|]. }
  intros [Hd Ha]%no_char_cons.
  change (String d a +:+ s) with (String d (a +:+ s)). cbn [strstr String.prefix].
  destruct (ascii_dec c d) as [->|_]; [done|]. rewrite (IH Ha). by destruct (strstr s (String c pat)) as [[b r]|].
Qed.

Lemma c_str_app a t : no_char NUL a → c_str (a +:+ t) = a +:+ c_str t.
Proof.
  induction a as [|d a IH]; [done|]. intros [Hd Ha]%no_char_cons.
  change (String d a +:+ t) with (String d (a +:+ t)). cbn [c_str].
  rewrite bool_decide_eq_false_2 by done. exact (f_equal (String d) (IH Ha)).
Qed.

Lemma c_str_no_nul s : no_char NUL s → c_str s = s.
Proof. intros Hs. rewrite <- (string_app_nil_r s) at 1. rewrite c_str_app by done. apply string_app_nil_r. Qed.

Lemma c_str_cases p : c_str p = p ∨ (strlen (c_str p) < strlen p)%nat ∧ ∀ q, c_str (p +:+ q) = c_str p.
Proof.
  induction p as [|d p IH]; [by left|]. cbn [c_str]. case_bool_decide as Hd.
  - right. split; [cbn; lia|]. intros q. change (String d p +:+ q) with (String d (p +:+ q)). cbn [c_str].
    by rewrite bool_decide_eq_true_2.
  - destruct IH as [->|[Hl Hq]]; [by left|]. right. split.
    + change (S (strlen (c_str p)) < S (strlen p))%nat. lia.
    + intros q. change (String d p +:+ q) with (String d (p +:+ q)). cbn [c_str].
      rewrite bool_decide_eq_false_2 by done. by rewrite Hq.
Qed.

Lemma c_str_whole_app p q : c_str p = p → c_str (p +:+ q) = p +:+ c_str q.
Proof.
  induction p as [|d p IH]; [done|]. change (String d p +:+ q) with (String d (p +:+ q)). cbn [c_str].
  case_bool_decide; [done|]. intros [= E]. exact (f_equal (String d) (IH E)).
Qed.

(** The end of the headers is seen as soon as it has arrived. *)
Lemma headers_end_part p q h :
  headers_end (p +:+ q) = Some h →
  headers_end p = if (h + 4 <=? strlen p)%nat then Some h else None.
Proof.
  unfold headers_end. destruct (c_str_cases p) as [E|[Hl Hq]].
  - rewrite (c_str_whole_app _ _ E), E. destruct (strstr _ _) as [[b r]|] eqn:Es; [|done]. intros [= <-].
    apply strstr_part in Es; [|done]. change (strlen CRLF2) with 4%nat in Es.
    destruct (_ <=? _)%nat; [destruct Es as [r' ->]; done|by rewrite Es].
  - rewrite Hq. destruct (strstr _ _) as [[b r]|] eqn:Es; [|done]. intros [= <-].
    rewrite (proj2 (Nat.leb_le _ _)); [done|]. apply strstr_Some in Es as (E & t & ->).
    rewrite E, !strlen_app in Hl. change (strlen CRLF2) with 4%nat in Hl. lia.
Qed.

(** ** What arrives is what was sent *)

Fixpoint joined (segs : list string) : string :=
  match segs with
  | [] => ""
  | s :: segs => s +:+ joined segs
  end.

(** Pieces that hold something. *)
Abbreviation pieces := (Forall (λ s, s ≠ "")).

Lemma drop_piece n s segs : (n < strlen s)%nat → pieces segs → pieces (str_drop n s :: segs).
Proof.
  intros Hn Hs. constructor; [|done]. intros E. pose proof (strncpy_drop n s) as Hd.
  rewrite E, string_app_nil_r in Hd. pose proof (length_strncpy n s) as Hl. unfold strlen in Hn.
  rewrite Hd in Hl. lia.
Qed.

Lemma recv_until_ok limit size segs buf h :
  pieces segs → headers_end (buf +:+ joined segs) = Some h → (strlen buf < h + 4)%nat →
  (h + 4 ≤ limit)%nat → (limit ≤ size - 1)%nat → (h + 4 ≤ strlen (buf +:+ joined segs))%nat →
  ∃ buf' segs', recv_until limit size buf segs = Some (buf', segs') ∧ headers_end buf' = Some h ∧
    buf' +:+ joined segs' = buf +:+ joined segs ∧ (h + 4 ≤ strlen buf')%nat ∧ pieces segs'.
Proof.
  intros Hp. revert buf. induction Hp as [|s segs Hs Hp IH]; intros buf Hh Hb Hlim Hsize Hlen.
  - cbn [joined] in *. rewrite string_app_nil_r in Hlen. lia.
  - cbn [recv_until joined] in *. rewrite (proj2 (Nat.leb_gt _ _)) by lia.
    unfold strcmp_eq. rewrite bool_decide_eq_false_2 by done.
    rewrite <- string_app_assoc in Hh, Hlen.
    destruct (Nat.leb_spec (strlen s) (size - 1 - strlen buf)) as [Hfit|Hcut].
    + pose proof (headers_end_part _ _ _ Hh) as Hpart. rewrite Hpart.
      destruct (Nat.leb_spec (h + 4) (strlen (buf +:+ s))) as [Hle|Hgt].
      * exists (buf +:+ s), segs. split_and!; try done. by rewrite string_app_assoc.
      * destruct (IH (buf +:+ s) Hh Hgt Hlim Hsize Hlen) as (b' & s' & H1 & H2 & H3 & H4 & H5).
        exists b', s'. split_and!; try done. by rewrite H3, string_app_assoc.
    + set (room := (size - 1 - strlen buf)%nat) in *.
      exists (buf +:+ strncpy room s), (str_drop room s :: segs).
      assert (strlen (buf +:+ strncpy room s) = (size - 1)%nat) as El.
      { rewrite strlen_app, strlen_strncpy by lia. lia. }
      assert (buf +:+ s +:+ joined segs = (buf +:+ strncpy room s) +:+ str_drop room s +:+ joined segs) as Ej.
      { rewrite string_app_assoc, <- (string_app_assoc (strncpy room s)), strncpy_drop. done. }
      split_and!; [done| | |rewrite El; lia|by apply drop_piece].
      * rewrite string_app_assoc, Ej in Hh. apply headers_end_part in Hh. rewrite Hh, El.
        by rewrite (proj2 (Nat.leb_le _ _)) by lia.
      * cbn [joined]. by rewrite Ej.
Qed.

Lemma recv_headers_ok size segs buf h :
  pieces segs → headers_end (buf +:+ joined segs) = Some h → (strlen buf < h + 4)%nat →
  (h + 4 ≤ size - 1)%nat → (h + 4 ≤ strlen (buf +:+ joined segs))%nat →
  ∃ buf' segs', recv_headers size buf segs = Some (buf', segs') ∧ headers_end buf' = Some h ∧
    buf' +:+ joined segs' = buf +:+ joined segs ∧ (h + 4 ≤ strlen buf')%nat ∧ pieces segs'.
Proof. intros. by apply recv_until_ok. Qed.

Lemma recv_body_ok n segs :
  pieces segs → (n ≤ strlen (joined segs))%nat →
  ∃ segs', recv_body n segs = Some (strncpy n (joined segs), segs') ∧
    strncpy n (joined segs) +:+ joined segs' = joined segs.
Proof.
  intros Hp. revert n. induction Hp as [|s segs Hs Hp IH]; intros n Hn.
  - cbn in Hn. assert (n = 0%nat) as -> by lia. by exists [].
  - destruct n as [|n].
    { exists (s :: segs). assert (∀ x, strncpy 0 x = "") as E by (by intros []). by rewrite E. }
    cbn [recv_body joined] in *. unfold strcmp_eq. rewrite bool_decide_eq_false_2 by done.
    destruct (Nat.leb_spec (strlen s) (S n)) as [Hfit|Hcut].
    + rewrite strlen_app in Hn. destruct (IH (S n - strlen s)%nat ltac:(lia)) as (segs' & -> & E).
      exists segs'. assert (strncpy (S n) (s +:+ joined segs) = s +:+ strncpy (S n - strlen s) (joined segs)) as ->.
      { by apply strncpy_app_ge. }
      split; [done|]. by rewrite string_app_assoc, E.
    + exists (str_drop (S n) s :: segs). rewrite strncpy_app_le by lia. split; [done|].
      cbn [joined]. by rewrite <- string_app_assoc, strncpy_drop.
Qed.

(** ** The clients understand the server *)

(** A line: not empty, and without the characters that end lines and strings. *)
Definition is_line (l : string) : Prop := l ≠ "" ∧ no_char CR l ∧ no_char NUL l.

#[export] Instance is_line_dec l : Decision (is_line l).
Proof. unfold is_line. apply _. Defined.

Lemma lines_no_nul ls : Forall is_line ls → no_char NUL (lines ls).
Proof.
  induction 1 as [|l ls (_ & _ & Hl) _ IH]; [done|]. cbn [lines].
  rewrite !no_char_app. split_and!; done.
Qed.

Lemma strstr_lines ls l t :
  Forall is_line (l :: ls) →
  ∃ b r, strstr (lines (l :: ls) +:+ CRLF +:+ t) CRLF2 = Some (b, r) ∧
    (strlen b + 4 = strlen (lines (l :: ls)) + 2)%nat.
Proof.
  revert l. induction ls as [|l2 ls IH]; intros l [[Hn [Hcr Hnul]] Hls]%Forall_cons.
  - exists l, (CRLF2 +:+ t). cbn [lines]. split; [|rewrite !strlen_app; cbn; lia].
    rewrite !string_app_assoc. unfold CRLF2 at 1. change (CRLF +:+ CRLF) with (String CR (String LF CRLF)).
    rewrite strstr_skip by done. change ("" +:+ CRLF +:+ t) with (CRLF +:+ t).
    assert (∀ u, strstr (CRLF +:+ CRLF +:+ u) (String CR (String LF CRLF)) = Some ("", CRLF2 +:+ u)) as ->.
    { intros u. unfold CRLF2. rewrite string_app_assoc. cbn. by destruct u. }
    by rewrite string_app_nil_r.
  - destruct (IH l2 Hls) as (b & r & E & Hl). exists (l +:+ CRLF +:+ b), r.
    change (lines (l :: l2 :: ls)) with (l +:+ CRLF +:+ lines (l2 :: ls)). split.
    + rewrite !string_app_assoc. unfold CRLF2 in E |- *.
      change (CRLF +:+ CRLF) with (String CR (String LF CRLF)) in E |- *.
      rewrite strstr_skip by done.
      assert (∀ u, (∀ v, u ≠ String CR v) → strstr (CRLF +:+ u) (String CR (String LF CRLF))
        = match strstr u (String CR (String LF CRLF)) with Some (b, r) => Some (CRLF +:+ b, r) | None => None end) as Hskip.
      { intros u Hu. destruct u as [|d u]; [done|]. assert (d ≠ CR) as Hd by (intros ->; by eapply Hu).
        assert (String.prefix (String CR (String LF CRLF)) (CRLF +:+ String d u) = false) as Hp.
        { change (CRLF +:+ String d u) with (String CR (String LF (String d u))). cbn [String.prefix].
          destruct (ascii_dec CR CR); [|done]. destruct (ascii_dec LF LF); [|done].
          change CRLF with (String CR (String LF "")). cbn [String.prefix]. by destruct (ascii_dec CR d). }
        change (CRLF +:+ String d u) with (String CR (String LF "" +:+ String d u)) in Hp |- *.
        remember (strstr (String d u) (String CR (String LF CRLF))) as q eqn:Eq.
        set (w := String LF "" +:+ String d u) in *. cbn [strstr]. rewrite Hp. unfold w.
        rewrite strstr_skip, <- Eq by done. by destruct q as [[b' r']|]. }
      rewrite Hskip, E; [done|]. intros v Hv. apply Forall_cons in Hls as [(Hne & Hc & _) _].
      destruct l2 as [|d l2]; [done|]. apply no_char_cons in Hc as [Hd _]. cbn [lines] in Hv.
      change (String d l2 +:+ CRLF +:+ lines ls) with (String d (l2 +:+ CRLF +:+ lines ls)) in Hv.
      change (String d (l2 +:+ CRLF +:+ lines ls) +:+ CRLF +:+ t)
        with (String d ((l2 +:+ CRLF +:+ lines ls) +:+ CRLF +:+ t)) in Hv. by injection Hv.
    + rewrite !strlen_app. change (strlen CRLF) with 2%nat. lia.
Qed.

(** The headers of a message end where they end, whatever the body is. *)
Lemma headers_end_lines l ls body :
  Forall is_line (l :: ls) →
  ∃ h, headers_end (lines (l :: ls) +:+ CRLF +:+ body) = Some h ∧
    (h + 4 = strlen (lines (l :: ls) +:+ CRLF))%nat.
Proof.
  intros Hls. destruct (strstr_lines ls l (c_str body) Hls) as (b & r & E & Hb).
  exists (strlen b). unfold headers_end.
  rewrite c_str_app by (by apply lines_no_nul). rewrite (c_str_app CRLF) by done. rewrite E.
  split; [done|]. rewrite strlen_app. change (strlen CRLF) with 2%nat. lia.
Qed.

Lemma pretty_Z_nonneg (z : Z) : 0 ≤ z → pretty z = pretty (Z.to_N z).
Proof. by destruct z. Qed.

Lemma scan_status_ok status rest :
  0 ≤ status < 2 ^ 31 →
  scan_status ("HTTP/1.1 " +:+ pretty status +:+ " " +:+ rest) = Val (Some status).
Proof.
  intros Hs. rewrite pretty_Z_nonneg by lia. unfold scan_status.
  set (d := pretty (Z.to_N status) +:+ " " +:+ rest).
  change (starts_with ("HTTP/1.1 " +:+ d) "HTTP/1.") with true. cbv iota.
  change (str_drop 7 ("HTTP/1.1 " +:+ d)) with ("1 " +:+ d).
  change (scan_int ("1 " +:+ d)) with (Some (1, String " " d)). cbv iota.
  destruct (pretty_N_head (Z.to_N status)) as (c & v & t & Ec & Hc).
  assert (scan_int (String " " d) = Some (read_number (String " " d))) as ->.
  { unfold scan_int. change (skip_space (String " " d)) with (skip_space d). unfold d. rewrite Ec.
    change (String c t +:+ " " +:+ rest) with (String c (t +:+ " " +:+ rest)). cbn [skip_space].
    rewrite (digit_not_space _ _ Hc), (digit_no_sign _ _ _ Hc), Hc. done. }
  assert (read_number (String " " d) = (status, String " " rest)) as ->.
  { assert (read_number (String " " d) = read_number d) as ->; [|unfold d; rewrite read_number_pretty; [f_equal; lia|by intros ? ? [= <- _]]].
    unfold read_number. change (skip_space (String " " d)) with (skip_space d). unfold d. rewrite Ec.
    change (String c t +:+ " " +:+ rest) with (String c (t +:+ " " +:+ rest)). cbn [skip_space].
    by rewrite (digit_not_space _ _ Hc), (digit_no_sign _ _ _ Hc), Hc. }
  cbv iota beta. unfold i32c. split_if; [done|lia].
Qed.
