(* ===== verification/Transport.v ===== *)
(** * Chunks over the network (src/src/storage/binary_transport.c)

    One chunk per HTTP request: the client prints the request, sends it over a cached or a
    new connection and scans the response; the handlers on the other node write and read the
    chunk there. The outcomes of the system calls and the pieces in which the response
    arrives are arguments; the HTTP parser (llhttp) is the class [HttpParser]. *)

From S2P Require Import Prelude CInt CString CSearch UrlCode HttpWire ConnCache DiskIO XlMeta Layout.
From S2P Require Import Chunk ParallelChunks.
From Stdlib Require Import Ascii.

Local Open Scope c_scope.

(** ** Sending *)

(** What [send] and [writev] answer. *)
Inductive io_result :=
  | IoDone (n : nat)
  | IoIntr
  | IoFails.

(** The result, what was sent, and the outcomes that are left; [None] as long as the call has
    not returned. *)
Fixpoint send_all (io : list io_result) (data : string) : option (Z * string * list io_result) :=
  match data with
  | EmptyString => Some (0, "", io)
  | _ =>
      match io with
      | [] => None
      | IoIntr :: io => send_all io data
      | IoFails :: io => Some (-1, "", io)
      | IoDone n :: io =>
          if (n =? 0)%nat then Some (-1, "", io)
          else
            match send_all io (str_drop n data) with
            | Some (rc, sent, io) => Some (rc, strncpy n data +:+ sent, io)
            | None => None
            end
      end
  end.

Definition STREAM_BUFFER_SIZE : nat := Z.to_nat (256 * 1024).

(** The chunk in pieces; [fuel] bounds the number of pieces. *)
Fixpoint send_pieces (fuel : nat) (io : list io_result) (data : string)
    : option (Z * string * list io_result) :=
  match fuel with
  | O => Some (0, "", io)
  | S fuel =>
      match data with
      | EmptyString => Some (0, "", io)
      | _ =>
          match send_all io (strncpy STREAM_BUFFER_SIZE data) with
          | Some (rc, sent, io) =>
              if rc =? 0 then
                match send_pieces fuel io (str_drop STREAM_BUFFER_SIZE data) with
                | Some (rc, sent', io) => Some (rc, sent +:+ sent', io)
                | None => None
                end
              else Some (-1, sent, io)
          | None => None
          end
      end
  end.

(** [send_all(fd, buf, len)] of what [snprintf] printed to [buf], [len] its result: a text
    longer than the buffer is read past its end. *)
Definition printed (size : nat) (text : string) : c_result string :=
  if (strlen text <? size)%nat then Val text
  else if (strlen text =? size)%nat then Val (snprintf size text +:+ String NUL "")
  else Undef.

(** ** Addresses *)

Definition parse_endpoint (endpoint : string) (host_len : nat) : c_result (option (string * Z)) :=
  match CSearch.strstr endpoint "://" with
  | None => Val None
  | Some (_, rest) =>
      let host_start := str_drop 3 rest in
      match CSearch.strchr host_start ":" with
      | None =>
          let host := match CSearch.strchr host_start "/" with Some (h, _) => h | None => host_start end in
          Val (if (host_len <=? strlen host)%nat then None else Some (host, 80))
      | Some (host, port_start) =>
          if (host_len <=? strlen host)%nat then Val None
          else let* port := i32c (read_number (str_drop 1 port_start)).1 in Val (Some (host, port))
      end
  end.

(** ** HTTP requests *)

Record http_request := HttpRequest {
  rq_method : string;
  rq_uri : string;
  rq_headers : list (string * string);
  rq_body : string
}.

Definition header_line (h : string * string) : string := h.1 +:+ ": " +:+ h.2.

Definition request_head (r : http_request) : string :=
  lines ((rq_method r +:+ " " +:+ rq_uri r +:+ " HTTP/1.1") :: (header_line <$> rq_headers r)) +:+ CRLF.

(** The request of a write: the body is sent after it. *)
Definition write_request (host : string) (port : Z) (bucket object : string) (chunk_index : Z)
    (data : list Z) (disk_path : string) : http_request :=
  HttpRequest "PUT" "/_internal/chunk"
    [("Host", host +:+ ":" +:+ pretty port); ("Content-Type", "application/octet-stream");
     ("Content-Length", print_u64 (Z.of_nat (length data))); ("X-Bucket", bucket);
     ("X-Object", bytes_str (url_encode (str_bytes object))); ("X-Chunk-Index", print_u64 chunk_index);
     ("X-Disk-Path", bytes_str (url_encode (str_bytes disk_path))); ("Connection", "keep-alive")]
    (bytes_str data).

Definition read_request (host : string) (port : Z) (bucket object : string) (chunk_index : Z)
    (disk_path : string) : http_request :=
  HttpRequest "GET" "/_internal/chunk"
    [("Host", host +:+ ":" +:+ pretty port); ("X-Bucket", bucket);
     ("X-Object", bytes_str (url_encode (str_bytes object))); ("X-Chunk-Index", print_u64 chunk_index);
     ("X-Disk-Path", bytes_str (url_encode (str_bytes disk_path))); ("Connection", "close")]
    "".

(** ** The clients *)

(** The times of the two looks at the cache, the descriptor of a new connection (negative
    when there is none), the outcomes of the sends and the pieces that arrive. *)
Record net_env := NetEnv {
  ne_now : Z * Z;
  ne_connect : Z;
  ne_io : list io_result;
  ne_recv : list string
}.

(** What a client leaves: its result, the bytes it sent, the cached connections, the
    descriptors it closed, and what of the response it has not read. *)
Record net_result := NetResult {
  nr_rc : buckets_error_t;
  nr_sent : string;
  nr_cache : list cached_conn;
  nr_closed : list Z;
  nr_unread : list string
}.

(** The status of the response, after the headers have arrived. *)
Definition recv_status (size : nat) (segs : list string) : c_result (option (Z * string * list string)) :=
  match recv_headers size "" segs with
  | None => Val None
  | Some (buf, segs) =>
      let* status := scan_status (c_str buf) in
      Val (match status with Some v => Some (v, buf, segs) | None => None end)
  end.

(** [None]: the call has not returned. *)
Definition buckets_binary_write_chunk (env : net_env) (cache : list cached_conn)
    (peer_endpoint bucket object : string) (chunk_index : Z) (data : list Z) (disk_path : string)
    : c_result (option net_result) :=
  let* ep := parse_endpoint peer_endpoint 256 in
  match ep with
  | None => Val (Some (NetResult BUCKETS_ERR_INVALID_ARG "" cache [] (ne_recv env)))
  | Some (host, port) =>
      let (cached, cache) := get_cached_connection host port (ne_now env).1 cache in
      let fd := if cached <? 0 then ne_connect env else cached in
      if fd <? 0 then Val (Some (NetResult BUCKETS_ERR_IO "" cache [] (ne_recv env)))
      else
        let r := write_request host port bucket object chunk_index data disk_path in
        let* head := printed (Z.to_nat 2048) (request_head r) in
        match send_all (ne_io env) head with
        | None => Val None
        | Some (rc, sent, io) =>
            if rc =? 0 then
              match send_pieces (S (strlen (rq_body r))) io (rq_body r) with
              | None => Val None
              | Some (rc, sent', _) =>
                  if rc =? 0 then
                    let* st := recv_status (Z.to_nat 1024) (ne_recv env) in
                    match st with
                    | Some (200, _, segs) =>
                        let (cache, closed) := cache_connection fd host port (ne_now env).2 cache in
                        Val (Some (NetResult BUCKETS_OK (sent +:+ sent') cache
                               (match closed with Some o => [o] | None => [] end) segs))
                    | Some (_, _, segs) => Val (Some (NetResult BUCKETS_ERR_IO (sent +:+ sent') cache [fd] segs))
                    | None => Val (Some (NetResult BUCKETS_ERR_IO (sent +:+ sent') cache [fd] []))
                    end
                  else Val (Some (NetResult BUCKETS_ERR_IO (sent +:+ sent') cache [fd] (ne_recv env)))
              end
            else Val (Some (NetResult BUCKETS_ERR_IO sent cache [fd] (ne_recv env)))
        end
  end.

(** The chunk in a response. A response with a body that is longer than its length says is
    written past the end of the buffer. *)
Definition recv_chunk (segs : list string) : c_result (option (list Z)) :=
  match recv_headers (Z.to_nat 4096) "" segs with
  | None => Val None
  | Some (buf, segs) =>
      match headers_end buf with
      | None => Val None
      | Some h =>
          let* status := scan_status (c_str buf) in
          let len := content_length (c_str buf) in
          match status with
          | Some 200 =>
              if len =? 0 then Val None
              else
                let body := str_drop (h + 4) buf in
                if Z.of_nat (strlen body) <=? len then
                  Val (match recv_body (Z.to_nat len - strlen body) segs with
                       | Some (rest, _) => Some (str_bytes (body +:+ rest))
                       | None => None
                       end)
                else Undef
          | _ => Val None
          end
      end
  end.

(** The chunk that was read, and what was sent. *)
Definition buckets_binary_read_chunk (env : net_env)
    (peer_endpoint bucket object : string) (chunk_index : Z) (disk_path : string)
    : c_result (option (option (list Z) * string)) :=
  let* ep := parse_endpoint peer_endpoint 256 in
  match ep with
  | None => Val (Some (None, ""))
  | Some (host, port) =>
      if ne_connect env <? 0 then Val (Some (None, ""))
      else
        let* head := printed (Z.to_nat 2048)
                       (request_head (read_request host port bucket object chunk_index disk_path)) in
        match send_all (ne_io env) head with
        | None => Val None
        | Some (rc, sent, _) =>
            if negb (rc =? 0) then Val (Some (None, sent))
            else let* data := recv_chunk (ne_recv env) in Val (Some (data, sent))
        end
  end.

(** ** The handlers *)

(** Names are compared without regard to case. *)
Fixpoint uv_http_get_header (headers : list (string * string)) (name : string) : option string :=
  match headers with
  | [] => None
  | h :: headers => if eq_nocase h.1 name then Some h.2 else uv_http_get_header headers name
  end.

(** The headers that both handlers copy to buffers on the stack and decode. *)
Definition chunk_headers (r : http_request) : c_result (option (string * string * Z * string)) :=
  match uv_http_get_header (rq_headers r) "X-Bucket", uv_http_get_header (rq_headers r) "X-Object",
        uv_http_get_header (rq_headers r) "X-Chunk-Index", uv_http_get_header (rq_headers r) "X-Disk-Path" with
  | Some bucket_hdr, Some object_hdr, Some chunk_idx_hdr, Some disk_path_hdr =>
      let* bucket := strncpy_stack 255 bucket_hdr in
      let* object_encoded := strncpy_stack 1023 object_hdr in
      let* chunk_idx_str := strncpy_stack 31 chunk_idx_hdr in
      let* disk_path_encoded := strncpy_stack 511 disk_path_hdr in
      let* object := url_decode (str_bytes object_encoded) in
      let* disk_path := url_decode (str_bytes disk_path_encoded) in
      let* chunk_index := i32c (read_number chunk_idx_str).1 in
      Val (Some (bucket, c_str (bytes_str object), u32 chunk_index, c_str (bytes_str disk_path)))
  | _, _, _, _ => Val None
  end.

(** The status, the body of the response and the node. Without a body there is no buffer,
    which writing refuses. *)
Definition buckets_binary_chunk_write_handler (env : chunk_env) (mkdir : string → bool)
    (r : http_request) (n : node) : c_result (Z * string * node) :=
  let* h := chunk_headers r in
  match h with
  | None => Val (400, "Missing required headers", n)
  | Some (bucket, object, chunk_index, disk_path) =>
      let object_path := buckets_compute_object_path bucket object PATH_MAX in
      if negb ((buckets_create_object_dir mkdir disk_path object_path).1 =? 0) then
        Val (500, "Failed to create directory", n)
      else if strcmp_eq (rq_body r) "" then Val (500, "Failed to write chunk", n)
      else
        let (ret, n) := buckets_write_chunk env n disk_path object_path chunk_index (str_bytes (rq_body r)) in
        Val (if ret =? 0 then (200, "OK", n) else (500, "Failed to write chunk", n))
  end.

Definition buckets_binary_chunk_read_handler (read_ok : bool) (r : http_request) (fs : fs_t)
    : c_result (Z * list Z) :=
  let* h := chunk_headers r in
  match h with
  | None => Val (400, str_bytes "Missing required headers")
  | Some (bucket, object, chunk_index, disk_path) =>
      let object_path := buckets_compute_object_path bucket object PATH_MAX in
      Val (match buckets_read_chunk read_ok fs disk_path object_path chunk_index with
           | Some data => (200, data)
           | None => (404, str_bytes "Chunk not found")
           end)
  end.

(** What the server sends for them. *)
Definition binary_chunk_write_uv_handler (keep_alive : bool) (status : Z) (body : string) : string :=
  uv_http_response_start status [] (Z.of_nat (strlen body)) keep_alive +:+ body.

Definition binary_chunk_read_uv_handler (keep_alive : bool) (status : Z) (body : list Z) : string :=
  uv_http_response_start status [("Content-Type", "application/octet-stream")] (Z.of_nat (length body))
    keep_alive +:+ bytes_str body.

(** The parser of the server (llhttp, which gives the parts of a request to callbacks). *)
Class HttpParser := { http_parse : string → option http_request }.

(** Values and names as the clients send them: visible characters without blanks; letters,
    digits and hyphens. *)
Definition header_value (v : string) : Prop :=
  v ≠ "" ∧ Forall (λ c, 33 ≤ c ≤ 126) (str_bytes v).

Definition name_char (c : Z) : Prop := 48 ≤ c ≤ 57 ∨ 65 ≤ c ≤ 90 ∨ 97 ≤ c ≤ 122 ∨ c = 45.

Definition header_name (n : string) : Prop := n ≠ "" ∧ Forall name_char (str_bytes n).

(** The characters of the paths that nodes ask each other for. *)
Definition path_char (c : Z) : Prop := name_char c ∨ c = 46 ∨ c = 47 ∨ c = 95.

Definition body_framed (r : http_request) : Prop :=
  match uv_http_get_header (rq_headers r) "Content-Length" with
  | Some len => len = print_u64 (Z.of_nat (strlen (rq_body r)))
  | None => rq_body r = ""
  end.

(** Headers to which the parser or the server gives a meaning of its own: [Connection] only
    says whether the connection stays open, there is at most one length, and none of the
    others is used between nodes. *)
Definition plain_meaning (h : string * string) : Prop :=
  (eq_nocase h.1 "Connection" = true → h.2 = "keep-alive" ∨ h.2 = "close") ∧
  existsb (eq_nocase h.1) ["Transfer-Encoding"; "Upgrade"; "Proxy-Connection"; "Expect"] = false.

(** The requests that nodes send each other. *)
Record node_request (r : http_request) : Prop := NodeRequest {
  nq_method : rq_method r ∈ ["GET"; "PUT"; "POST"];
  nq_uri : ∃ p, rq_uri r = String "/" p ∧ Forall path_char (str_bytes p);
  nq_headers : Forall (λ h, header_name h.1 ∧ header_value h.2 ∧ plain_meaning h) (rq_headers r);
  nq_length : (length (filter (λ h, eq_nocase h.1 "Content-Length" = true) (rq_headers r)) ≤ 1)%nat;
  nq_framed : body_framed r ∧ Z.of_nat (strlen (rq_body r)) < 2 ^ 63;
  nq_head : (strlen (request_head r) ≤ Z.to_nat 65536)%nat
}.

Class HttpParserLaws `{HttpParser} : Prop := {
  http_parse_request r : node_request r → http_parse (request_head r +:+ rq_body r) = Some r
}.

(** ** Sending sends everything *)

Lemma send_all_sends io data rc sent io' :
  send_all io data = Some (rc, sent, io') →
  (rc = 0 → sent = data) ∧ (sent = data → rc = 0) ∧ (∃ rest, data = sent +:+ rest).
Proof.
  revert data sent. induction io as [|o io IH]; intros data sent Hs.
  - destruct data; [injection Hs as <- <- _; split_and!; [done..|by exists ""]|done].
  - destruct data as [|c data]; [injection Hs as <- <- _; split_and!; [done..|by exists ""]|].
    set (d := String c data) in *. assert (d ≠ "") as Hd by done. clearbody d.
    destruct o as [n| |]; cbn [send_all] in Hs.
    + destruct d as [|c' d'] eqn:E; [done|]. rewrite <- E in *. clear E c' d'.
      destruct (Nat.eqb_spec n 0); [injection Hs as <- <- _; split_and!; [done|congruence|by exists d]|].
      destruct (send_all io (str_drop n d)) as [[[rc' s] i]|] eqn:E; [|done]. injection Hs as <- <- <-.
      apply IH in E as (H1 & H2 & rest & H3). split_and!.
      * intros ->. rewrite H1 by done. apply strncpy_drop.
      * intros E. apply H2. rewrite <- (strncpy_drop n d) in E at 2.
        by apply string_app_cancel in E.
      * exists rest. by rewrite string_app_assoc, <- H3, strncpy_drop.
    + by destruct d; [done|apply IH].
    + destruct d; [done|]. injection Hs as <- <- _. split_and!; [done..|by eexists].
Qed.

Lemma strlen_str_drop n s : strlen (str_drop n s) = (strlen s - n)%nat.
Proof.
  unfold strlen. revert n. induction s as [|c s IH]; intros [|n]; try done. cbn. apply IH.
Qed.

Lemma send_pieces_sends fuel io data rc sent io' :
  (strlen data < fuel)%nat → send_pieces fuel io data = Some (rc, sent, io') →
  (rc = 0 → sent = data) ∧ (sent = data → rc = 0).
Proof.
  revert io data rc sent io'. induction fuel as [|fuel IH]; intros io data rc sent io' Hf; [lia|].
  cbn [send_pieces]. destruct data as [|c data]; [by intros [= <- <- _]|].
  set (d := String c data) in *. assert (0 < strlen d)%nat as Hd by (unfold d, strlen; cbn; lia). clearbody d.
  destruct (send_all io (strncpy STREAM_BUFFER_SIZE d)) as [[[rc1 s1] io1]|] eqn:E1; [|done].
  apply send_all_sends in E1 as (H1 & H2 & rest & H3). pose proof (strncpy_drop STREAM_BUFFER_SIZE d) as Hsplit.
  destruct (Z.eqb_spec rc1 0) as [->|Hne].
  - destruct (send_pieces fuel io1 _) as [[[rc2 s2] io2]|] eqn:E2; [|done]. intros [= <- <- _].
    apply IH in E2 as [H4 H5].
    2:{ rewrite strlen_str_drop. unfold STREAM_BUFFER_SIZE. lia. }
    rewrite H1 by done. split.
    + intros E. by rewrite H4.
    + intros E. apply H5. rewrite <- Hsplit in E at 2. by apply string_app_cancel in E.
  - intros [= <- <- _]. split; [done|]. intros ->. exfalso. apply Hne, H2.
    rewrite H3 in Hsplit |- *. rewrite string_app_assoc in Hsplit.
    apply (f_equal strlen) in Hsplit. rewrite !strlen_app in Hsplit.
    rewrite (strlen_empty rest) by lia. by rewrite string_app_nil_r.
Qed.

(** ** The peer understands the request *)

Lemma strlen_bytes_str l : strlen (bytes_str l) = length l.
Proof.
  unfold strlen, bytes_str. induction l as [|z l IH]; [done|]. cbn. f_equal. exact IH.
Qed.

Lemma bytes_str_nonempty l : l ≠ [] → bytes_str l ≠ "".
Proof. by destruct l. Qed.

Lemma read_number_print z : 0 ≤ z → (read_number (print_u64 z)).1 = z.
Proof.
  intros Hz. unfold print_u64. rewrite <- (string_app_nil_r (pretty _)), read_number_pretty by done. cbn. lia.
Qed.

(** A key, a path and a bucket that fit the buffers of the handlers: encoded, and with a
    character to spare. *)
Record chunk_fits (bucket object : string) (chunk_index : Z) (disk_path : string) : Prop := ChunkFits {
  cf_bucket : header_value bucket ∧ (strlen bucket < 255)%nat;
  cf_object : object ≠ "" ∧ no_char NUL object ∧ (length (url_encode (str_bytes object)) < Z.to_nat 1023)%nat;
  cf_disk : disk_path ≠ "" ∧ no_char NUL disk_path ∧ (length (url_encode (str_bytes disk_path)) < 511)%nat;
  cf_index : 0 ≤ chunk_index < 2 ^ 31
}.

Lemma strncpy_stack_ok n s : (strlen s < n)%nat → strncpy_stack n s = Val s.
Proof. intros Hs. unfold strncpy_stack. by rewrite (proj2 (Nat.ltb_lt _ _)). Qed.

Lemma encoded_bytes s : is_bytes (url_encode (str_bytes s)).
Proof.
  eapply Forall_impl; [apply url_encode_printable, str_bytes_is_bytes|].
  intros c Hc. cbv beta in Hc. unfold is_u8, in_range. lia.
Qed.

(** What the handlers read from the headers is what the client was given. *)
Lemma chunk_headers_ok r bucket object chunk_index disk_path :
  chunk_fits bucket object chunk_index disk_path →
  uv_http_get_header (rq_headers r) "X-Bucket" = Some bucket →
  uv_http_get_header (rq_headers r) "X-Object" = Some (bytes_str (url_encode (str_bytes object))) →
  uv_http_get_header (rq_headers r) "X-Chunk-Index" = Some (print_u64 chunk_index) →
  uv_http_get_header (rq_headers r) "X-Disk-Path" = Some (bytes_str (url_encode (str_bytes disk_path))) →
  chunk_headers r = Val (Some (bucket, object, chunk_index, disk_path)).
Proof.
  intros [[_ Hb] (_ & Ho & Hol) (_ & Hd & Hdl) Hi] E1 E2 E3 E4. unfold chunk_headers. rewrite E1, E2, E3, E4.
  rewrite (strncpy_stack_ok 255 bucket) by done. cbn [c_bind].
  rewrite strncpy_stack_ok by (by rewrite strlen_bytes_str). cbn [c_bind].
  rewrite strncpy_stack_ok.
  2:{ unfold print_u64. apply (Nat.le_lt_trans _ 20); [|lia].
      apply strlen_pretty_N; [lia|]. change (10 ^ N.of_nat 20)%N with 100000000000000000000%N. lia. }
  cbn [c_bind]. rewrite strncpy_stack_ok by (by rewrite strlen_bytes_str). cbn [c_bind].
  rewrite !str_bytes_bytes_str by apply encoded_bytes.
  rewrite !url_decode_encode by apply str_bytes_is_bytes. cbn [c_bind].
  rewrite read_number_print by lia. unfold i32c. split_if; [|lia]. cbn [c_bind].
  rewrite !bytes_str_str_bytes, !c_str_no_nul by done. unfold u32. rewrite wrap_small; [done|].
  unfold in_range. lia.
Qed.

Lemma write_request_headers host port bucket object chunk_index data disk_path :
  chunk_fits bucket object chunk_index disk_path →
  chunk_headers (write_request host port bucket object chunk_index data disk_path)
    = Val (Some (bucket, object, chunk_index, disk_path)).
Proof. intros Hf. by apply chunk_headers_ok. Qed.

Lemma read_request_headers host port bucket object chunk_index disk_path :
  chunk_fits bucket object chunk_index disk_path →
  chunk_headers (read_request host port bucket object chunk_index disk_path)
    = Val (Some (bucket, object, chunk_index, disk_path)).
Proof. intros Hf. by apply chunk_headers_ok. Qed.

(** ** The client understands the response *)

(** The start of a response, as far as the client has it. *)
Lemma response_start_line status headers len keep :
  ∃ rest, uv_http_response_start status headers len keep
    = "HTTP/1.1 " +:+ pretty status +:+ " " +:+ rest.
Proof.
  unfold uv_http_response_start, response_lines. cbn [lines]. eexists.
  rewrite !string_app_assoc. reflexivity.
Qed.

Lemma response_lines_ok status headers len keep :
  0 ≤ status → Forall (λ h, is_line (header_line h)) headers →
  Forall is_line (response_lines status headers len keep).
Proof.
  intros Hs Hh. unfold response_lines. constructor; [|apply Forall_app; split].
  - rewrite pretty_Z_nonneg by done. split; [done|].
    assert (∀ c, digit_value c = None → no_char c "HTTP/1.1 " → no_char c " " →
      no_char c (http_status_string status) →
      no_char c ("HTTP/1.1 " +:+ pretty (Z.to_N status) +:+ " " +:+ http_status_string status)) as Hc.
    { intros c Hd H1 H2 H3. rewrite !no_char_app. split_and!; try done. by apply no_char_pretty. }
    assert (∀ s, s ∈ [CR; NUL] → no_char s (http_status_string status)) as Hst.
    { intros s Hin. unfold http_status_string. rewrite !elem_of_cons, elem_of_nil in Hin.
      repeat case_match; destruct Hin as [->|[->|[]]]; done. }
    split; apply Hc; try done; apply Hst; set_solver.
  - apply Forall_fmap. exact Hh.
  - repeat constructor; try done.
    + apply no_char_app. split; [done|]. by apply no_char_pretty.
    + apply no_char_app. split; [done|]. by apply no_char_pretty.
    + by destruct keep.
    + by destruct keep.
Qed.

(** All of the headers arrive in the buffer, whatever the pieces are. *)
Lemma recv_response_until limit size segs status headers len keep body :
  0 ≤ status → Forall (λ h, is_line (header_line h)) headers → pieces segs →
  let head := uv_http_response_start status headers len keep in
  joined segs = head +:+ body → (strlen head ≤ limit)%nat → (limit ≤ size - 1)%nat →
  ∃ body' segs', recv_until limit size "" segs = Some (head +:+ body', segs') ∧
    headers_end (head +:+ body') = Some (strlen head - 4)%nat ∧ (4 ≤ strlen head)%nat ∧
    body' +:+ joined segs' = body ∧ pieces segs' ∧
    c_str (head +:+ body') = head +:+ c_str body'.
Proof.
  intros Hs Hh Hp head Hj Hlim Hsize. pose proof (response_lines_ok status headers len keep Hs Hh) as Hls.
  unfold response_lines in Hls.
  destruct (headers_end_lines _ _ body Hls) as (h & He & Hl).
  change (lines _ +:+ CRLF) with head in Hl.
  assert (lines (response_lines status headers len keep) +:+ CRLF +:+ body = head +:+ body) as Eh
    by (unfold head, uv_http_response_start; by rewrite string_app_assoc).
  unfold response_lines in Eh. rewrite Eh, <- Hj in He. change (joined segs) with ("" +:+ joined segs) in He.
  destruct (recv_until_ok limit size segs "" h Hp He) as (buf & segs' & H1 & H2 & H3 & H4 & H5).
  { cbn. lia. }
  { lia. }
  { done. }
  { change ("" +:+ joined segs) with (joined segs). rewrite Hj, strlen_app. lia. }
  change ("" +:+ joined segs) with (joined segs) in H3. rewrite Hj in H3.
  assert (∃ b, buf = head +:+ b ∧ body = b +:+ joined segs') as (b & -> & Hb).
  { apply string_app_eq_inv in H3 as [(k & -> & ->)|(k & E & E2)]; [by exists k|].
    rewrite E, strlen_app in Hl. assert (k = "") as -> by (apply strlen_empty; lia).
    exists "". rewrite E, !string_app_nil_r. by split. }
  exists b, segs'. replace (strlen head - 4)%nat with h by lia. split_and!; try done; [lia|].
  apply c_str_app. unfold head, uv_http_response_start. apply no_char_app. split; [by apply lines_no_nul|done].
Qed.

Lemma recv_response size segs status headers len keep body :
  0 ≤ status → Forall (λ h, is_line (header_line h)) headers → pieces segs →
  let head := uv_http_response_start status headers len keep in
  joined segs = head +:+ body → (strlen head < size)%nat →
  ∃ body' segs', recv_headers size "" segs = Some (head +:+ body', segs') ∧
    headers_end (head +:+ body') = Some (strlen head - 4)%nat ∧ (4 ≤ strlen head)%nat ∧
    body' +:+ joined segs' = body ∧ pieces segs' ∧
    c_str (head +:+ body') = head +:+ c_str body'.
Proof. intros Hs Hh Hp head Hj Hsize. subst head. apply (recv_response_until (size - 1)); try done. lia. Qed.

Lemma recv_status_ok size segs status headers len keep body :
  0 ≤ status < 2 ^ 31 → Forall (λ h, is_line (header_line h)) headers → pieces segs →
  joined segs = uv_http_response_start status headers len keep +:+ body →
  (strlen (uv_http_response_start status headers len keep) < size)%nat →
  ∃ buf segs', recv_status size segs = Val (Some (status, buf, segs')).
Proof.
  intros Hs Hh Hp Hj Hsize.
  destruct (recv_response size segs status headers len keep body ltac:(lia) Hh Hp Hj Hsize)
    as (b & segs' & H1 & _ & _ & _ & _ & H6).
  exists (uv_http_response_start status headers len keep +:+ b), segs'. unfold recv_status.
  rewrite H1, H6. destruct (response_start_line status headers len keep) as [rest ->].
  rewrite !string_app_assoc, scan_status_ok by done. done.
Qed.

(** Whatever part of a response arrives, a status that is read from it is the one it has. *)
Lemma recv_status_part size segs status headers len keep body rest v buf segs' :
  0 ≤ status < 2 ^ 31 → Forall (λ h, is_line (header_line h)) headers → pieces segs →
  joined segs +:+ rest = uv_http_response_start status headers len keep +:+ body →
  (strlen (uv_http_response_start status headers len keep) < size)%nat →
  recv_status size segs = Val (Some (v, buf, segs')) → v = status.
Proof.
  intros Hs Hh Hp Hj Hsize Hv. destruct (decide (rest = "")) as [->|Hr].
  - rewrite string_app_nil_r in Hj.
    destruct (recv_status_ok size segs status headers len keep body Hs Hh Hp Hj Hsize) as (b & s & E). congruence.
  - assert (joined (segs ++ [rest]) = joined segs +:+ rest) as Ej.
    { clear. induction segs as [|s segs IH]; cbn [joined app]; [by rewrite string_app_nil_r|].
      by rewrite IH, string_app_assoc. }
    destruct (recv_status_ok size (segs ++ [rest]) status headers len keep body Hs Hh) as (b & s & E);
      [apply Forall_app; by split; [|constructor]|congruence|done|].
    unfold recv_status, recv_headers in Hv, E. destruct (recv_until _ _ _ segs) as [[buf1 segs1]|] eqn:Er; [|done].
    rewrite (recv_until_more _ _ _ _ [rest] _ Er) in E. cbn [fst snd] in E.
    destruct (scan_status (c_str buf1)) as [[x|]|]; cbn [c_bind] in Hv, E; congruence.
Qed.

(** ** The request is one that the parser reads *)

Lemma str_bytes_app a b : str_bytes (a +:+ b) = str_bytes a ++ str_bytes b.
Proof.
  induction a as [|c a IH]; [done|].
  change (str_bytes (String c a +:+ b)) with (Z.of_N (N_of_ascii c) :: str_bytes (a +:+ b)). by rewrite IH.
Qed.

Lemma header_value_app a b : header_value a → header_value b → header_value (a +:+ b).
Proof.
  intros [Ha Ha'] [Hb Hb']. split; [by destruct a|]. rewrite str_bytes_app. by apply Forall_app.
Qed.

Lemma byte_of_char s b : b ∈ str_bytes s → ∃ c, b = Z.of_N (N_of_ascii c) ∧ ¬ no_char c s.
Proof.
  induction s as [|c s IH]; [intros H; by apply elem_of_nil in H|].
  change (str_bytes (String c s)) with (Z.of_N (N_of_ascii c) :: str_bytes s).
  intros [->|Hb]%elem_of_cons.
  - exists c. split; [done|]. rewrite no_char_cons. naive_solver.
  - destruct (IH Hb) as (c' & -> & Hc). exists c'. split; [done|]. rewrite no_char_cons. naive_solver.
Qed.

Lemma header_value_print z : header_value (print_u64 z).
Proof.
  unfold print_u64. split; [apply pretty_N_ne_empty|]. apply Forall_forall. intros b Hb.
  apply byte_of_char in Hb as (c & -> & Hc). destruct (digit_value c) as [d|] eqn:E.
  - apply digit_value_range in E. lia.
  - by apply (no_char_pretty c (Z.to_N z)) in E.
Qed.

Lemma header_value_encoded s : s ≠ "" → header_value (bytes_str (url_encode (str_bytes s))).
Proof.
  intros Hs. split.
  - apply bytes_str_nonempty. destruct s as [|c s]; [done|].
    change (str_bytes (String c s)) with (Z.of_N (N_of_ascii c) :: str_bytes s). cbn [url_encode].
    by destruct (unreserved _).
  - rewrite str_bytes_bytes_str by apply encoded_bytes. apply url_encode_printable, str_bytes_is_bytes.
Qed.

Ltac header_value_tac :=
  split; [done|]; apply (bool_decide_unpack _); vm_compute; exact I.

(** The fields of a request of a client: its constant parts are evaluated, the values are left. *)
Ltac node_request_tac :=
  split;
  [ repeat constructor
  | eexists; split; [reflexivity|apply (bool_decide_unpack _); vm_compute; exact I]
  | repeat (apply Forall_cons; split); [..|apply Forall_nil_2]; cbn [fst snd];
    (split; [header_value_tac|split; [try header_value_tac|split; [intros ?; first [discriminate|by left|by right]|reflexivity]]])
  | apply Nat.leb_le; reflexivity
  | split
  | ].

(** A request that fits the buffers on both sides. *)
Record request_fits (r : http_request) (host : string) (port : Z) (bucket object : string)
    (chunk_index : Z) (disk_path : string) : Prop := RequestFits {
  rf_host : header_value (host +:+ ":" +:+ pretty port);
  rf_chunk : chunk_fits bucket object chunk_index disk_path;
  rf_body : Z.of_nat (strlen (rq_body r)) < 2 ^ 63;
  rf_head : (strlen (request_head r) < Z.to_nat 2048)%nat
}.

Lemma write_request_parsed `{HttpParserLaws} host port bucket object chunk_index data disk_path :
  let r := write_request host port bucket object chunk_index data disk_path in
  request_fits r host port bucket object chunk_index disk_path →
  http_parse (request_head r +:+ rq_body r) = Some r.
Proof.
  intros r [Hh [[Hb _] (Ho & _) (Hd & _) _] Hbody Hl]. apply http_parse_request. node_request_tac.
  all: try first [exact Hh|exact Hb|apply header_value_print|by apply header_value_encoded|done|lia].
  unfold body_framed. cbn [r write_request rq_headers rq_body]. cbn. by rewrite strlen_bytes_str.
Qed.

Lemma read_request_parsed `{HttpParserLaws} host port bucket object chunk_index disk_path :
  let r := read_request host port bucket object chunk_index disk_path in
  request_fits r host port bucket object chunk_index disk_path →
  http_parse (request_head r) = Some r.
Proof.
  intros r [Hh [[Hb _] (Ho & _) (Hd & _) _] _ Hl].
  rewrite <- (string_app_nil_r (request_head r)). apply (http_parse_request r). node_request_tac.
  all: first [exact Hh|exact Hb|apply header_value_print|by apply header_value_encoded|done|lia].
Qed.

(** ** Properties *)

Lemma head_not_empty r : request_head r ≠ "".
Proof.
  unfold request_head. cbn [lines]. intros E. apply (f_equal strlen) in E. rewrite !strlen_app in E. cbn in E. lia.
Qed.

(** What the handler answers, and that its answer fits the buffer of the client. *)
Lemma write_handler_answer cenv mkdir host port bucket object chunk_index data disk_path keep n status body n' :
  let object_path := buckets_compute_object_path bucket object PATH_MAX in
  let local := buckets_write_chunk cenv n disk_path object_path chunk_index data in
  chunk_fits bucket object chunk_index disk_path → is_bytes data → data ≠ [] →
  buckets_binary_chunk_write_handler cenv mkdir
    (write_request host port bucket object chunk_index data disk_path) n = Val (status, body, n') →
  0 ≤ status < 2 ^ 31 ∧
  (strlen (uv_http_response_start status [] (Z.of_nat (strlen body)) keep) < Z.to_nat 1024)%nat ∧
  (status = 200 → local = (0, n')) ∧
  ((buckets_create_object_dir mkdir disk_path object_path).1 = 0 → local.1 = 0 → status = 200).
Proof.
  intros object_path local Hchunk Hdata Hne. unfold buckets_binary_chunk_write_handler.
  rewrite write_request_headers by done. cbn [c_bind write_request rq_body].
  unfold strcmp_eq. rewrite bool_decide_eq_false_2 by (by apply bytes_str_nonempty).
  rewrite str_bytes_bytes_str by done. fold object_path local. intros Hhandler.
  destruct (Z.eqb_spec (buckets_create_object_dir mkdir disk_path object_path).1 0) as [Hd|Hd];
    cbn [negb] in Hhandler.
  - destruct local as [ret n1]. destruct (Z.eqb_spec ret 0) as [->|Hr];
      apply (inj Val), pair_equal_spec in Hhandler as [[= <- <-] <-];
      (split; [lia|split; [apply Nat.ltb_lt; by destruct keep|by split]]).
  - apply (inj Val), pair_equal_spec in Hhandler as [[= <- <-] <-].
    split; [lia|split; [apply Nat.ltb_lt; by destruct keep|by split]].
Qed.

(** What a client makes of a response of which [rest] has not arrived. *)
Lemma answer_read size segs status headers len keep body rest st :
  0 ≤ status < 2 ^ 31 → Forall (λ h, is_line (header_line h)) headers → pieces segs →
  joined segs +:+ rest = uv_http_response_start status headers len keep +:+ body →
  (strlen (uv_http_response_start status headers len keep) < size)%nat →
  recv_status size segs = Val st →
  (∀ v buf segs', st = Some (v, buf, segs') → v = status) ∧
  (rest = "" → ∃ buf segs', st = Some (status, buf, segs')).
Proof.
  intros Hs Hh Hp Hj Hsize Hst. split.
  - intros v buf segs' ->. by eapply recv_status_part.
  - intros ->. rewrite string_app_nil_r in Hj.
    destruct (recv_status_ok size segs status headers len keep body Hs Hh Hp Hj Hsize) as (b & s & E).
    exists b, s. congruence.
Qed.

(** C5: writing a chunk on another node is writing it there: when the client reports
    success, the bytes it sent are the request, and the node that parsed it has done exactly
    the local write of the same chunk, successfully, even if the connection broke before all
    of the response arrived; when all of the request was sent, that write succeeded and the
    response arrived, the client reports success. This holds in whatever pieces request and
    response travel, over a connection on which no response of an earlier request is left. *)
Theorem remote_chunk_write `{HttpParserLaws} env cenv mkdir cache endpoint host port bucket object
    chunk_index data disk_path keep n status body n' rest res :
  let r := write_request host port bucket object chunk_index data disk_path in
  let object_path := buckets_compute_object_path bucket object PATH_MAX in
  let local := buckets_write_chunk cenv n disk_path object_path chunk_index data in
  parse_endpoint endpoint 256 = Val (Some (host, port)) →
  request_fits r host port bucket object chunk_index disk_path → is_bytes data → data ≠ [] →
  buckets_binary_chunk_write_handler cenv mkdir r n = Val (status, body, n') →
  pieces (ne_recv env) → joined (ne_recv env) +:+ rest = binary_chunk_write_uv_handler keep status body →
  buckets_binary_write_chunk env cache endpoint bucket object chunk_index data disk_path = Val (Some res) →
  (nr_rc res = BUCKETS_OK → http_parse (nr_sent res) = Some r ∧ local = (0, n')) ∧
  (nr_sent res = request_head r +:+ rq_body r → rest = "" →
   (buckets_create_object_dir mkdir disk_path object_path).1 = 0 → local.1 = 0 → nr_rc res = BUCKETS_OK).
Proof.
  intros r object_path local Hep Hfit Hdata Hne Hhandler Hp Hj.
  pose proof (rf_chunk _ _ _ _ _ _ _ Hfit) as Hchunk. pose proof (rf_head _ _ _ _ _ _ _ Hfit) as Hlen.
  assert (rq_body r ≠ "") as Hbody by (by apply bytes_str_nonempty).
  destruct (write_handler_answer _ _ _ _ _ _ _ _ _ keep _ _ _ _ Hchunk Hdata Hne Hhandler)
    as (Hst & Hshort & Hlocal & Hback).
  unfold buckets_binary_write_chunk. rewrite Hep. cbn [c_bind].
  destruct (get_cached_connection _ _ _ _) as [cached cache1].
  destruct (_ <? 0).
  { intros Hres. apply (inj Val), (inj Some) in Hres as <-. cbn [nr_rc nr_sent]. split; [done|].
    intros E. exfalso. destruct (request_head r) eqn:Eh; [by apply (head_not_empty r)|done]. }
  fold r. unfold printed. rewrite (proj2 (Nat.ltb_lt _ _) Hlen). cbn [c_bind].
  destruct (send_all (ne_io env) (request_head r)) as [[[rc1 s1] io1]|] eqn:E1; [|done].
  apply send_all_sends in E1 as (H1 & H2 & rest1 & H3).
  destruct (Z.eqb_spec rc1 0) as [->|Hrc1].
  2:{ intros Hres. apply (inj Val), (inj Some) in Hres as <-. cbn [nr_rc nr_sent]. split; [done|].
      intros E. exfalso. rewrite E in H3. apply (f_equal strlen) in H3. rewrite !strlen_app in H3.
      apply Hbody, strlen_empty. lia. }
  rewrite H1 by done.
  destruct (send_pieces _ _ _) as [[[rc2 s2] io2]|] eqn:E2; [|done].
  apply send_pieces_sends in E2 as [H4 H5]; [|lia].
  destruct (Z.eqb_spec rc2 0) as [->|Hrc2].
  2:{ intros Hres. apply (inj Val), (inj Some) in Hres as <-. cbn [nr_rc nr_sent]. split; [done|].
      intros E. by apply string_app_cancel, H5 in E. }
  rewrite H4 by done. destruct (recv_status (Z.to_nat 1024) (ne_recv env)) as [st|] eqn:Erecv; [|done].
  cbn [c_bind].
  destruct (answer_read _ _ _ _ _ _ _ _ _ Hst (Forall_nil_2 _) Hp Hj Hshort Erecv) as [Hread Hall].
  intros Hres. destruct (decide (nr_rc res = BUCKETS_OK)) as [Hok|Hok].
  - split; [|by intros]. intros _.
    destruct st as [[[v buf] segs]|]; [|by apply (inj Val), (inj Some) in Hres as <-].
    pose proof (Hread _ _ _ eq_refl) as ->. destruct (decide (status = 200)) as [->|Hns].
    + destruct (cache_connection _ _ _ _ _) as [cache2 closed].
      apply (inj Val), (inj Some) in Hres as <-. cbn [nr_sent].
      split; [by apply write_request_parsed|by apply Hlocal].
    + exfalso. revert Hres Hok. repeat case_match; intros Hres; try done;
        apply (inj Val), (inj Some) in Hres as <-; done.
  - split; [done|]. intros _ -> Hd Hl. specialize (Hback Hd Hl) as ->. destruct (Hall eq_refl) as (buf & segs & ->).
    destruct (cache_connection _ _ _ _ _) as [cache2 closed]. by apply (inj Val), (inj Some) in Hres as <-.
Qed.

(** The length that the server prints is the one that the client scans. *)
Lemma scan_print_u64 len u : is_u64 len →
  scan_int (" " +:+ print_u64 len +:+ String CR u) ≠ None ∧
  strtoull (" " +:+ print_u64 len +:+ String CR u) = len.
Proof.
  intros Hlen. unfold print_u64. destruct (pretty_N_head (Z.to_N len)) as (c & v & w & Ec & Hc). split.
  - unfold scan_int. change (skip_space (" " +:+ pretty (Z.to_N len) +:+ String CR u))
      with (skip_space (pretty (Z.to_N len) +:+ String CR u)). rewrite Ec.
    change (String c w +:+ String CR u) with (String c (w +:+ String CR u)). cbn [skip_space].
    by rewrite (digit_not_space _ _ Hc), (digit_no_sign _ _ _ Hc), Hc.
  - change (strtoull (" " +:+ pretty (Z.to_N len) +:+ String CR u))
      with (strtoull (pretty (Z.to_N len) +:+ String CR u)).
    pose proof (parse_digits_pretty_app (Z.to_N len) CR u eq_refl) as Hp. rewrite Ec in Hp |- *.
    change (String c w +:+ String CR u) with (String c (w +:+ String CR u)) in Hp |- *.
    rewrite (strtoull_digits c v _ Hc), Hp, Z2N.id by apply Hlen.
    unfold saturate. destruct Hlen. split_if; unfold ULLONG_MAX in *; lia.
Qed.

Lemma content_length_ok len keep t :
  is_u64 len →
  content_length (uv_http_response_start 200 [("Content-Type", "application/octet-stream")] len keep +:+ t) = len.
Proof.
  intros Hlen. unfold content_length.
  assert (∃ u, uv_http_response_start 200 [("Content-Type", "application/octet-stream")] len keep +:+ t
    = ("HTTP/1.1 200 OK" +:+ CRLF +:+ "Content-Type: application/octet-stream" +:+ CRLF +:+ "Content-Length: ")
      +:+ print_u64 len +:+ String CR u) as [u ->].
  { unfold uv_http_response_start, response_lines. cbn [lines fmap list_fmap app fst snd].
    eexists. rewrite !string_app_assoc. reflexivity. }
  set (d := print_u64 len +:+ String CR u).
  match goal with |- context [CSearch.strstr (?a +:+ d) ?p] =>
    assert (CSearch.strstr a p = Some ("HTTP/1.1 200 OK" +:+ CRLF +:+ "Content-Type: application/octet-stream" +:+ CRLF,
      "Content-Length: ")) as E by (vm_compute; reflexivity) end.
  rewrite (strstr_more _ d _ _ _ E). clear E. unfold scan_length.
  change (CSearch.strchr ("Content-Length: " +:+ d) ":") with (Some ("Content-Length", ": " +:+ d)). cbv iota.
  change (str_drop 1 (": " +:+ d)) with (" " +:+ d). unfold d, print_u64.
  destruct (scan_print_u64 len u Hlen) as [H1 H2]. unfold print_u64 in *. rewrite H2.
  by destruct (scan_int _).
Qed.

(** The headers fit the buffer of the client. *)
Lemma read_head_short status len keep :
  status = 200 ∨ status = 404 → is_u64 len →
  (strlen (uv_http_response_start status [("Content-Type", "application/octet-stream")] len keep)
   < Z.to_nat 4096)%nat.
Proof.
  intros Hs Hlen. unfold uv_http_response_start, response_lines. cbn [lines fmap list_fmap app fst snd].
  rewrite !strlen_app. change (strlen CRLF) with 2%nat.
  assert (strlen (print_u64 len) ≤ 20)%nat.
  { apply strlen_pretty_N; [lia|]. change (10 ^ N.of_nat 20)%N with 100000000000000000000%N.
    unfold is_u64, in_range in Hlen. lia. }
  assert (strlen (pretty status) = 3%nat ∧ strlen (http_status_string status) ≤ 9)%nat as [-> ?]
    by (destruct Hs as [->| ->]; split; [reflexivity|cbn; lia|reflexivity|cbn; lia]).
  assert (strlen (if keep then "keep-alive" else "close") ≤ 10)%nat by (destruct keep; cbn; lia).
  cbn [strlen String.length] in *. unfold strlen in *. cbn [String.length]. lia.
Qed.

Lemma read_chunk_bytes read_ok fs disk path i data :
  buckets_read_chunk read_ok fs disk path i = Some data → is_bytes data.
Proof.
  unfold buckets_read_chunk. destruct (buckets_atomic_read _ _ _) as [[] [s|]]; try done.
  intros [= <-]. apply str_bytes_is_bytes.
Qed.

Lemma octet_stream_line :
  Forall (λ h, is_line (header_line h)) [("Content-Type", "application/octet-stream")].
Proof. constructor; [|constructor]. apply (bool_decide_unpack _). vm_compute. exact I. Qed.

(** A response with a chunk gives the chunk, an error gives none. *)
Lemma recv_chunk_ok segs data keep :
  is_bytes data → 0 < Z.of_nat (length data) < 2 ^ 64 → pieces segs →
  joined segs = binary_chunk_read_uv_handler keep 200 data → recv_chunk segs = Val (Some data).
Proof.
  intros Hb Hsize Hp Hj. unfold binary_chunk_read_uv_handler in Hj.
  destruct (recv_response (Z.to_nat 4096) segs 200 _ _ keep _ ltac:(lia) octet_stream_line Hp Hj)
    as (b & segs1 & E1 & E2 & E3 & E4 & E5 & E6).
  { apply read_head_short; [by left|]. unfold is_u64, in_range. lia. }
  unfold recv_chunk. rewrite E1, E2, E6. set (head := uv_http_response_start _ _ _ _) in *.
  assert (content_length (head +:+ c_str b) = Z.of_nat (length data)) as ->
    by (unfold head; apply content_length_ok; unfold is_u64, in_range; lia).
  assert (scan_status (head +:+ c_str b) = Val (Some 200)) as ->.
  { unfold head. destruct (response_start_line 200 [("Content-Type", "application/octet-stream")]
      (Z.of_nat (length data)) keep) as [rest ->]. by rewrite !string_app_assoc, scan_status_ok. }
  cbn [c_bind]. destruct (Z.eqb_spec (Z.of_nat (length data)) 0); [lia|].
  replace (strlen head - 4 + 4)%nat with (strlen head) by lia. rewrite str_drop_app.
  assert (strlen b + strlen (joined segs1) = length data)%nat as Hl.
  { rewrite <- strlen_app, E4. apply strlen_bytes_str. }
  rewrite (proj2 (Z.leb_le _ _)) by lia. rewrite Nat2Z.id.
  destruct (recv_body_ok (length data - strlen b) segs1 E5) as (segs' & -> & Ej); [lia|].
  do 2 f_equal. rewrite strncpy_short by (unfold strlen in *; lia). rewrite E4. by apply str_bytes_bytes_str.
Qed.

Lemma recv_chunk_missing segs keep :
  pieces segs → joined segs = binary_chunk_read_uv_handler keep 404 (str_bytes "Chunk not found") →
  recv_chunk segs = Val None.
Proof.
  intros Hp Hj. unfold binary_chunk_read_uv_handler in Hj.
  destruct (recv_response (Z.to_nat 4096) segs 404 _ _ keep _ ltac:(lia) octet_stream_line Hp Hj)
    as (b & segs1 & E1 & E2 & E3 & E4 & E5 & E6).
  { apply read_head_short; [by right|]. unfold is_u64, in_range. cbn. lia. }
  unfold recv_chunk. rewrite E1, E2, E6.
  destruct (response_start_line 404 [("Content-Type", "application/octet-stream")]
    (Z.of_nat (length (str_bytes "Chunk not found"))) keep) as [rest Er].
  by rewrite Er, !string_app_assoc, scan_status_ok.
Qed.

(** Reading a chunk from another node is reading it there: when the request was sent, it
    is what the other node parses, and the client returns exactly what a local read of the
    chunk on that node returns, in whatever pieces the response arrives. *)
Theorem remote_chunk_read `{HttpParserLaws} env endpoint host port bucket object chunk_index disk_path
    read_ok keep fs status body res sent :
  let r := read_request host port bucket object chunk_index disk_path in
  let local := buckets_read_chunk read_ok fs disk_path
                 (buckets_compute_object_path bucket object PATH_MAX) chunk_index in
  parse_endpoint endpoint 256 = Val (Some (host, port)) →
  request_fits r host port bucket object chunk_index disk_path →
  (∀ data, local = Some data → 0 < Z.of_nat (length data) < 2 ^ 64) →
  buckets_binary_chunk_read_handler read_ok r fs = Val (status, body) →
  pieces (ne_recv env) → joined (ne_recv env) = binary_chunk_read_uv_handler keep status body →
  buckets_binary_read_chunk env endpoint bucket object chunk_index disk_path = Val (Some (res, sent)) →
  sent = request_head r → http_parse sent = Some r ∧ res = local.
Proof.
  intros r local Hep Hfit Hsize Hhandler Hp Hj.
  pose proof (rf_chunk _ _ _ _ _ _ _ Hfit) as Hchunk. pose proof (rf_head _ _ _ _ _ _ _ Hfit) as Hlen.
  unfold buckets_binary_chunk_read_handler, r in Hhandler. rewrite read_request_headers in Hhandler by done.
  cbn [c_bind] in Hhandler. fold local in Hhandler.
  unfold buckets_binary_read_chunk. rewrite Hep. cbn [c_bind]. fold r.
  destruct (ne_connect env <? 0).
  { intros Hres. apply (inj Val), (inj Some), pair_equal_spec in Hres as [<- <-]. intros E.
    by destruct (head_not_empty r). }
  unfold printed. rewrite (proj2 (Nat.ltb_lt _ _) Hlen). cbn [c_bind].
  destruct (send_all (ne_io env) (request_head r)) as [[[rc1 s1] io1]|] eqn:E1; [|done].
  apply send_all_sends in E1 as (H1 & H2 & _).
  destruct (Z.eqb_spec rc1 0) as [->|Hrc1]; cbn [negb].
  2:{ intros Hres. apply (inj Val), (inj Some), pair_equal_spec in Hres as [<- <-]. intros E. by apply H2 in E. }
  rewrite H1 by done. intros Hres Hsent. split; [rewrite Hsent; by apply read_request_parsed|].
  destruct local as [data|] eqn:El; apply (inj Val), pair_equal_spec in Hhandler as [<- <-].
  - rewrite (recv_chunk_ok _ data keep) in Hres; [|by eapply read_chunk_bytes|by apply Hsize|done..].
    by apply (inj Val), (inj Some), pair_equal_spec in Hres as [<- _].
  - rewrite (recv_chunk_missing _ keep) in Hres by done.
    by apply (inj Val), (inj Some), pair_equal_spec in Hres as [<- _].
Qed.

(** ** A parser with these laws, and an exchange *)

(** Line by line; the body is what follows the empty line. *)
Fixpoint split_headers (fuel : nat) (s : string) : option (list (string * string) * string) :=
  match fuel with
  | O => None
  | S fuel =>
      match CSearch.strstr s CRLF with
      | Some (EmptyString, r) => Some ([], str_drop 2 r)
      | Some (line, r) =>
          match CSearch.strstr line ": ", split_headers fuel (str_drop 2 r) with
          | Some (name, v), Some (hs, body) => Some ((name, str_drop 2 v) :: hs, body)
          | _, _ => None
          end
      | None => None
      end
  end.

Definition split_request (s : string) : option http_request :=
  match CSearch.strstr s CRLF with
  | Some (line, r) =>
      match CSearch.strchr line " ", split_headers (strlen s) (str_drop 2 r) with
      | Some (method, rest), Some (hs, body) =>
          match CSearch.strchr (str_drop 1 rest) " " with
          | Some (uri, _) => Some (HttpRequest method uri hs body)
          | None => None
          end
      | _, _ => None
      end
  | None => None
  end.

Lemma value_no_char c v : header_value v → ¬ 33 ≤ Z.of_N (N_of_ascii c) ≤ 126 → no_char c v.
Proof.
  intros [_ Hv] Hc. induction v as [|d v IH]; [done|].
  change (str_bytes (String d v)) with (Z.of_N (N_of_ascii d) :: str_bytes v) in Hv.
  apply Forall_cons in Hv as [Hd Hv]. apply no_char_cons. split; [by intros ->|by apply IH].
Qed.

Lemma value_plain v : header_value v → no_char CR v ∧ no_char " " v.
Proof.
  intros Hv. split; apply value_no_char; [done| |done|].
  - change (Z.of_N (N_of_ascii CR)) with 13. lia.
  - change (Z.of_N (N_of_ascii " ")) with 32. lia.
Qed.

Lemma strstr_crlf a t : no_char CR a → CSearch.strstr (a +:+ CRLF +:+ t) CRLF = Some (a, CRLF +:+ t).
Proof. intros Ha. apply (strstr_app a CR (String LF "") t Ha). Qed.

Lemma split_headers_ok hs body fuel :
  Forall (λ h, header_value h.1 ∧ no_char ":" h.1 ∧ header_value h.2) hs → (length hs < fuel)%nat →
  split_headers fuel (lines (header_line <$> hs) +:+ CRLF +:+ body) = Some (hs, body).
Proof.
  intros Hhs. revert fuel. induction Hhs as [|[name v] hs (Hn & Hc & Hv) _ IH]; intros [|fuel] Hf; cbn in Hf; try lia.
  - cbn [fmap list_fmap lines split_headers]. change ("" +:+ CRLF +:+ body) with (CRLF +:+ body).
    assert (CSearch.strstr (CRLF +:+ body) CRLF = Some ("", CRLF +:+ body)) as -> by apply (strstr_crlf "" body eq_refl).
    done.
  - rewrite fmap_cons. cbn [lines split_headers]. unfold header_line at 1. cbn [fst snd] in *.
    rewrite (string_app_assoc (name +:+ ": " +:+ v)), (string_app_assoc CRLF), strstr_crlf.
    2:{ rewrite !no_char_app. split_and!; [by apply value_plain|done|by apply value_plain]. }
    destruct (name +:+ ": " +:+ v) as [|c l] eqn:El; [by destruct name|]. rewrite <- El. clear El c l.
    change (name +:+ ": " +:+ v) with (name +:+ String ":" (" " +:+ v)). rewrite strstr_app by done.
    change (str_drop 2 (CRLF +:+ lines (header_line <$> hs) +:+ CRLF +:+ body))
      with (lines (header_line <$> hs) +:+ CRLF +:+ body).
    rewrite IH by lia. done.
Qed.

Lemma lines_length ls : (length ls ≤ strlen (lines ls))%nat.
Proof. induction ls as [|l ls IH]; [done|]. cbn [lines]. rewrite !strlen_app. cbn. lia. Qed.

#[local] Instance line_parser : HttpParser := {| http_parse := split_request |}.

(** What the law asks for, as the lines need it. *)
Lemma name_value n : header_name n → header_value n ∧ no_char ":" n.
Proof.
  intros [Hne Hn]. split; [split; [done|]|].
  - eapply Forall_impl; [exact Hn|]. unfold name_char. intros c Hc. cbv beta. lia.
  - clear Hne. induction n as [|c n IH]; [done|].
    change (str_bytes (String c n)) with (Z.of_N (N_of_ascii c) :: str_bytes n) in Hn.
    apply Forall_cons in Hn as [Hc Hn]. apply no_char_cons. split; [|by apply IH]. intros ->.
    change (Z.of_N (N_of_ascii ":")) with 58 in Hc. unfold name_char in Hc. lia.
Qed.

Lemma node_request_lines r : node_request r →
  header_value (rq_method r) ∧ header_value (rq_uri r) ∧
  Forall (λ h, header_value h.1 ∧ no_char ":" h.1 ∧ header_value h.2) (rq_headers r).
Proof.
  intros [Hm (p & -> & Hp) Hh _ _ _]. split_and!.
  - rewrite !elem_of_cons, elem_of_nil in Hm. destruct Hm as [->|[->|[->|[]]]]; header_value_tac.
  - split; [done|]. change (str_bytes (String "/" p)) with (47 :: str_bytes p). constructor; [lia|].
    eapply Forall_impl; [exact Hp|]. unfold path_char, name_char. intros c Hc. cbv beta. lia.
  - eapply Forall_impl; [exact Hh|]. intros h (Hn & Hv & _). cbv beta. by destruct (name_value _ Hn).
Qed.

#[local] Instance line_parser_laws : HttpParserLaws.
Proof.
  split. intros r (Hm & Hu & Hhs)%node_request_lines. destruct r as [method uri hs body].
  cbn [http_parse line_parser]. unfold split_request, request_head.
  cbn [rq_method rq_uri rq_headers rq_body] in *. cbn [lines]. set (hls := lines (header_line <$> hs)).
  set (line := method +:+ " " +:+ uri +:+ " HTTP/1.1").
  replace ((line +:+ CRLF +:+ hls) +:+ CRLF) with (line +:+ CRLF +:+ hls +:+ CRLF) by (by rewrite !string_app_assoc).
  rewrite !string_app_assoc, strstr_crlf.
  2:{ unfold line. rewrite !no_char_app. split_and!; try done; by apply value_plain. }
  assert (∀ v, header_value v → no_char " " v) as Hsp by (intros v Hv; by apply value_plain).
  unfold line at 1. change (method +:+ " " +:+ uri +:+ " HTTP/1.1") with (method +:+ String " " (uri +:+ " HTTP/1.1")).
  rewrite strchr_app by auto.
  change (str_drop 2 (CRLF +:+ hls +:+ CRLF +:+ body)) with (hls +:+ CRLF +:+ body).
  unfold hls at 2. rewrite split_headers_ok; [|done|].
  2:{ rewrite !strlen_app. pose proof (lines_length (header_line <$> hs)) as Hl. rewrite length_fmap in Hl.
      fold hls in Hl. change (strlen CRLF) with 2%nat. lia. }
  change (str_drop 1 (String " " (uri +:+ " HTTP/1.1"))) with (uri +:+ String " " "HTTP/1.1").
  rewrite strchr_app by auto. done.
Qed.

Definition example_node : node := Node ∅ [] None ∅.

(** The chunk "Hi" of object a/b, its response in two pieces. *)
Definition example_net (keep : bool) (response : string) : net_env :=
  NetEnv (10, 11) 5 [IoDone 100; IoIntr; IoDone 1000; IoDone 1; IoDone 1]
    [strncpy 30 response; str_drop 30 response].

Lemma example_fits r :
  r = write_request "n2" 9000 "b" "a/b" 1 [72; 105] "/d1" ∨ r = read_request "n2" 9000 "b" "a/b" 1 "/d1" →
  request_fits r "n2" 9000 "b" "a/b" 1 "/d1".
Proof.
  intros Hr. split.
  - header_value_tac.
  - split; [split; [header_value_tac|cbn; lia]|split_and!; [done|done|apply Nat.ltb_lt; vm_compute; reflexivity]
      |split_and!; [done|done|apply Nat.ltb_lt; vm_compute; reflexivity]|lia].
  - apply Z.ltb_lt. destruct Hr as [->| ->]; vm_compute; reflexivity.
  - apply Nat.ltb_lt. destruct Hr as [->| ->]; vm_compute; reflexivity.
Qed.

Lemma remote_chunk_write_witness :
  ∃ res, buckets_binary_write_chunk (example_net true (binary_chunk_write_uv_handler true 200 "OK"))
           init_conn_cache "http://n2:9000" "b" "a/b" 1 [72; 105] "/d1" = Val (Some res) ∧
    http_parse (nr_sent res) = Some (write_request "n2" 9000 "b" "a/b" 1 [72; 105] "/d1").
Proof.
  eexists. split; [vm_compute; reflexivity|].
  eapply (remote_chunk_write (example_net true (binary_chunk_write_uv_handler true 200 "OK"))
    (quiet_env (UringDone 2)) (λ _, true) init_conn_cache "http://n2:9000" "n2" 9000 "b" "a/b" 1 [72; 105] "/d1"
    true example_node 200 "OK" _ "").
  - reflexivity.
  - apply example_fits. by left.
  - repeat constructor; unfold in_range; lia.
  - discriminate.
  - vm_compute. reflexivity.
  - repeat constructor; discriminate.
  - vm_compute. reflexivity.
  - vm_compute. reflexivity.
  - reflexivity.
Defined.

Lemma remote_chunk_read_witness :
  let fs := <[chunk_path "/d1" (buckets_compute_object_path "b" "a/b" PATH_MAX) 1 := "Hi"]> ∅ in
  http_parse (request_head (read_request "n2" 9000 "b" "a/b" 1 "/d1"))
    = Some (read_request "n2" 9000 "b" "a/b" 1 "/d1") ∧
  Some [72; 105] = buckets_read_chunk true fs "/d1" (buckets_compute_object_path "b" "a/b" PATH_MAX) 1.
Proof.
  intros fs.
  eapply (remote_chunk_read (example_net false (binary_chunk_read_uv_handler false 200 [72; 105]))
    "http://n2:9000" "n2" 9000 "b" "a/b" 1 "/d1" true false fs 200 [72; 105]).
  - reflexivity.
  - apply example_fits. by right.
  - intros data Hd. vm_compute in Hd. injection Hd as <-. cbn. lia.
  - vm_compute. reflexivity.
  - repeat constructor; discriminate.
  - vm_compute. reflexivity.
  - vm_compute. reflexivity.
  - reflexivity.
Defined.

(** ** Where the exchange goes wrong *)

(** The client stops reading at the end of the headers. When the body of the response comes in
    a piece of its own, it stays in the connection, which is cached; the next exchange over
    it reads the old body first, finds no status and fails, although the chunk is written. *)
Lemma response_body_left_behind :
  let head := uv_http_response_start 200 [] 2 true in
  recv_status (Z.to_nat 1024) [head; "OK"] = Val (Some (200, head, ["OK"])) ∧
  recv_status (Z.to_nat 1024) ["OK"; head +:+ "OK"] = Val None.
Proof. split; vm_compute; reflexivity. Qed.

(** A request whose headers do not fit the 2048 bytes is sent from beyond the buffer. *)
Lemma long_request_overruns env cache endpoint host port bucket object chunk_index data disk_path :
  parse_endpoint endpoint 256 = Val (Some (host, port)) → 0 ≤ ne_connect env →
  (Z.to_nat 2048 < strlen (request_head (write_request host port bucket object chunk_index data disk_path)))%nat →
  buckets_binary_write_chunk env cache endpoint bucket object chunk_index data disk_path = Undef.
Proof.
  intros Hep Hc Hl. unfold buckets_binary_write_chunk. rewrite Hep. cbn [c_bind].
  destruct (get_cached_connection _ _ _ _) as [cached c1].
  destruct (Z.ltb_spec (if cached <? 0 then ne_connect env else cached) 0).
  { destruct (Z.ltb_spec cached 0); lia. }
  unfold printed. rewrite (proj2 (Nat.ltb_ge _ _)), (proj2 (Nat.eqb_neq _ _)) by lia. done.
Qed.

(** A response with more body than its length is copied past the end of the buffer. *)
Lemma long_body_overruns :
  recv_chunk [uv_http_response_start 200 [] 1 false +:+ "OK"] = Undef.
Proof. vm_compute. reflexivity. Qed.
