(* ===== verification/ConnRequest.v ===== *)
(** * Requests on pooled connections (src/src/net/conn_pool.c)

    [buckets_conn_send_request]: an HTTP request on a connection of the pool, and its response.
    The outcomes of the system calls and the pieces in which the response arrives are
    arguments. *)

From S2P Require Import Prelude CInt CString CSearch HttpWire Transport ConnCache ConnPool.
From Stdlib Require Import Ascii.

Local Open Scope c_scope.

(** ** The request *)

Definition conn_request (c : connection) (method path : string) (body : option string) : http_request :=
  let host := ("Host", conn_host c +:+ ":" +:+ pretty (conn_port c)) in
  match body with
  | Some (String _ _ as b) =>
      HttpRequest method path
        [host; ("Content-Type", "application/json"); ("Content-Length", print_u64 (Z.of_nat (strlen b)));
         ("Connection", "keep-alive")] b
  | _ => HttpRequest method path [host; ("Connection", "keep-alive")] ""
  end.

(** What the one [send] of the headers answers ([None] an error), the outcomes of those of the
    body ([IoIntr] stands for [EAGAIN], after which they are repeated), the pieces of the
    response; a piece that is empty is the end of the connection. *)
Record request_env := RequestEnv {
  re_head : option nat;
  re_io : list io_result;
  re_recv : list string
}.

(** The result, what was sent, the status, the body, what of the response was not read. *)
Record request_result := RequestResult {
  rr_rc : buckets_error_t;
  rr_sent : string;
  rr_status : Z;
  rr_body : option string;
  rr_unread : list string
}.

(** ** The response *)

(** [sscanf(cl_header, "Content-Length: %zu", &content_length)] at the first occurrence. *)
Definition response_length (buf : string) : Z :=
  match CSearch.strstr buf "Content-Length:" with
  | Some (_, cl) =>
      match scan_int (str_drop 15 cl) with Some _ => strtoull (str_drop 15 cl) | None => 0 end
  | None => 0
  end.

Definition response_status (buf : string) : c_result Z :=
  match CSearch.strstr buf "HTTP/1." with
  | Some (_, line) => let* v := scan_status line in Val (default 0 v)
  | None => Val 0
  end.

(** The rest of the body: a connection that ends early leaves it short. *)
Fixpoint recv_rest (remaining : nat) (segs : list string) : option (string * list string) :=
  match remaining with
  | O => Some ("", segs)
  | S _ =>
      match segs with
      | [] => None
      | s :: rest =>
          if strcmp_eq s "" then Some ("", segs)
          else if (strlen s <=? remaining)%nat then
            match recv_rest (remaining - strlen s) rest with
            | Some (d, rest) => Some (s +:+ d, rest)
            | None => None
            end
          else Some (strncpy remaining s, str_drop remaining s :: rest)
      end
  end.

(** The body, after its start came with the headers. The buffer has the length that the headers
    say, and a start that is longer is written past its end. *)
Definition response_body (len : Z) (part : string) (segs : list string)
    : c_result (option (string * list string)) :=
  if len =? 0 then Val (Some (part, segs))
  else if (len =? 2 ^ 64 - 1) || (len <? Z.of_nat (strlen part)) then Undef
  else
    Val (match recv_rest (Z.to_nat len - strlen part) segs with
         | Some (d, segs) => Some (part +:+ d, segs)
         | None => None
         end).

Definition recv_request_response (segs : list string)
    : c_result (option (Z * string * list string)) :=
  match recv_until (Z.to_nat (8192 - 256)) (Z.to_nat 8192) "" segs with
  | None => Val None
  | Some (buf, segs) =>
      match headers_end buf with
      | None => Val None
      | Some h =>
          let* status := response_status (c_str buf) in
          let* body := response_body (response_length (c_str buf)) (str_drop (h + 4) buf) segs in
          Val (match body with Some (b, segs) => Some (status, b, segs) | None => None end)
      end
  end.

(** With both output pointers, as its caller has them; [None]: the call has not returned. *)
Definition buckets_conn_send_request (env : request_env) (c : connection) (method path : string)
    (body : option string) : c_result (option request_result) :=
  let r := conn_request c method path body in
  let* head := printed (Z.to_nat 1024) (request_head r) in
  match re_head env with
  | None => Val (Some (RequestResult BUCKETS_ERR_IO "" 0 None (re_recv env)))
  | Some n =>
      let sent := strncpy n head in
      match send_all (re_io env) (rq_body r) with
      | None => Val None
      | Some (rc, sent', _) =>
          if negb (rc =? 0) then
            Val (Some (RequestResult BUCKETS_ERR_IO (sent +:+ sent') 0 None (re_recv env)))
          else
            let* res := recv_request_response (re_recv env) in
            Val (Some (match res with
                       | Some (status, b, segs) => RequestResult BUCKETS_OK (sent +:+ sent') status (Some b) segs
                       | None => RequestResult BUCKETS_ERR_IO (sent +:+ sent') 0 None []
                       end))
      end
  end.

(** ** Reading the response of the server *)

Lemma recv_rest_ok n segs :
  pieces segs → (n ≤ strlen (joined segs))%nat →
  ∃ segs', recv_rest n segs = Some (strncpy n (joined segs), segs') ∧
    strncpy n (joined segs) +:+ joined segs' = joined segs.
Proof.
  intros Hp. revert n. induction Hp as [|s segs Hs Hp IH]; intros n Hn.
  - cbn in Hn. assert (n = 0%nat) as -> by lia. by exists [].
  - destruct n as [|n].
    { exists (s :: segs). assert (∀ x, strncpy 0 x = "") as E by (by intros []). by rewrite E. }
    cbn [recv_rest joined] in *. unfold strcmp_eq. rewrite bool_decide_eq_false_2 by done.
    destruct (Nat.leb_spec (strlen s) (S n)) as [Hfit|Hcut].
    + rewrite strlen_app in Hn. destruct (IH (S n - strlen s)%nat ltac:(lia)) as (segs' & -> & E).
      exists segs'. rewrite strncpy_app_ge by done. split; [done|]. by rewrite string_app_assoc, E.
    + exists (str_drop (S n) s :: segs). rewrite strncpy_app_le by lia. split; [done|].
      cbn [joined]. by rewrite <- string_app_assoc, strncpy_drop.
Qed.

Definition json_type : list (string * string) := [("Content-Type", "application/json")].

Lemma json_type_line : Forall (λ h, is_line (header_line h)) json_type.
Proof. constructor; [|constructor]. apply (bool_decide_unpack _). vm_compute. exact I. Qed.

(** The length of a JSON response is found in its headers. *)
Lemma length_at status len keep t :
  0 ≤ status → ∃ b u, CSearch.strstr (uv_http_response_start status json_type len keep +:+ t) "Content-Length:"
    = Some (b, "Content-Length: " +:+ print_u64 len +:+ String CR u).
Proof.
  intros Hs. set (tail := "Content-Type: application/json" +:+ CRLF +:+ "Content-Length: ").
  assert (∃ u, uv_http_response_start status json_type len keep +:+ t
    = ("HTTP/1.1 " +:+ pretty status +:+ " ") +:+ (http_status_string status +:+ CRLF +:+ tail)
      +:+ print_u64 len +:+ String CR u) as [u ->].
  { unfold uv_http_response_start, response_lines, json_type, tail. cbn [lines fmap list_fmap app fst snd].
    eexists. rewrite !string_app_assoc. reflexivity. }
  rewrite strstr_skip.
  - assert (∃ b, CSearch.strstr (http_status_string status +:+ CRLF +:+ tail) "Content-Length:"
      = Some (b, "Content-Length: ")) as [b E].
    { unfold http_status_string. repeat case_match; eexists; vm_compute; reflexivity. }
    rewrite (strstr_more _ _ _ _ _ E). eauto.
  - rewrite pretty_Z_nonneg by done. rewrite !no_char_app. split_and!; [done|by apply no_char_pretty|done].
Qed.

Lemma response_length_ok status len keep t :
  0 ≤ status → is_u64 len → response_length (uv_http_response_start status json_type len keep +:+ t) = len.
Proof.
  intros Hs Hlen. unfold response_length. destruct (length_at status len keep t Hs) as (b & u & ->).
  change (str_drop 15 ("Content-Length: " +:+ print_u64 len +:+ String CR u)) with (" " +:+ print_u64 len +:+ String CR u).
  destruct (scan_print_u64 len u Hlen) as [H1 ->]. by destruct (scan_int _).
Qed.

Lemma response_status_ok status len keep t :
  0 ≤ status < 2 ^ 31 → response_status (uv_http_response_start status json_type len keep +:+ t) = Val status.
Proof.
  intros Hs. unfold response_status. destruct (response_start_line status json_type len keep) as [rest ->].
  rewrite !string_app_assoc. set (d := pretty status +:+ " " +:+ rest +:+ t).
  assert (CSearch.strstr ("HTTP/1.1 " +:+ d) "HTTP/1." = Some ("", "HTTP/1.1 " +:+ d)) as -> by done.
  unfold d. by rewrite scan_status_ok.
Qed.

Lemma json_head_short status len keep :
  0 ≤ status < 2 ^ 31 → is_u64 len →
  (strlen (uv_http_response_start status json_type len keep) ≤ Z.to_nat 256)%nat.
Proof.
  intros Hs Hlen. unfold uv_http_response_start, response_lines, json_type. cbn [lines fmap list_fmap app fst snd].
  rewrite !strlen_app. change (strlen CRLF) with 2%nat.
  assert (strlen (print_u64 len) ≤ 20)%nat.
  { apply strlen_pretty_N; [lia|]. change (10 ^ N.of_nat 20)%N with 100000000000000000000%N.
    unfold is_u64, in_range in Hlen. lia. }
  assert (strlen (pretty status) ≤ 20)%nat.
  { rewrite pretty_Z_nonneg by lia. apply strlen_pretty_N; [lia|]. change (10 ^ N.of_nat 20)%N with 100000000000000000000%N. lia. }
  assert (strlen (http_status_string status) ≤ 40)%nat.
  { unfold http_status_string. repeat case_match; cbn; lia. }
  assert (strlen (if keep then "keep-alive" else "close") ≤ 10)%nat by (destruct keep; cbn; lia).
  unfold strlen in *. cbn [String.length]. lia.
Qed.

(** A JSON response gives its status and its body, in whatever pieces it arrives. *)
Lemma recv_json_response segs status keep body :
  0 ≤ status < 2 ^ 31 → 0 < Z.of_nat (strlen body) < 2 ^ 64 - 1 → pieces segs →
  joined segs = uv_http_response_start status json_type (Z.of_nat (strlen body)) keep +:+ body →
  ∃ unread, recv_request_response segs = Val (Some (status, body, unread)) ∧ joined unread = "".
Proof.
  intros Hs Hlen Hp Hj. assert (is_u64 (Z.of_nat (strlen body))) as Hu by (unfold is_u64, in_range; lia).
  destruct (recv_response_until (Z.to_nat (8192 - 256)) (Z.to_nat 8192) segs status json_type (Z.of_nat (strlen body)) keep body
    ltac:(lia) json_type_line Hp Hj) as (b & segs1 & E1 & E2 & E3 & E4 & E5 & E6).
  { pose proof (json_head_short status (Z.of_nat (strlen body)) keep Hs Hu). lia. }
  { lia. }
  unfold recv_request_response. rewrite E1, E2, E6, response_status_ok, response_length_ok by (done || lia).
  cbn [c_bind]. rewrite Nat.sub_add by done. rewrite str_drop_app. unfold response_body.
  assert (strlen b + strlen (joined segs1) = strlen body)%nat as El by (by rewrite <- strlen_app, E4).
  destruct (Z.eqb_spec (Z.of_nat (strlen body)) 0); [lia|].
  destruct (Z.eqb_spec (Z.of_nat (strlen body)) (2 ^ 64 - 1)); [lia|].
  rewrite (proj2 (Z.ltb_ge _ _)) by lia. cbn [orb c_bind]. rewrite Nat2Z.id.
  destruct (recv_rest_ok (strlen body - strlen b) segs1 E5) as (segs' & -> & Ej); [lia|].
  assert (strncpy (strlen body - strlen b) (joined segs1) = joined segs1) as Eall.
  { apply strncpy_short. unfold strlen in *. lia. }
  rewrite Eall in *. exists segs'. rewrite E4. split; [done|].
  assert (joined segs1 +:+ joined segs' = joined segs1 +:+ "") as E by (by rewrite string_app_nil_r).
  by apply string_app_cancel in E.
Qed.

(** A request that is sent completely is answered: the result is the status and the body that
    the server sent, and nothing of the response is left on the connection. *)
Lemma send_request_answered env c method path body sent' io' status keep answer :
  let r := conn_request c method path body in
  (strlen (request_head r) < Z.to_nat 1024)%nat → re_head env = Some (strlen (request_head r)) →
  send_all (re_io env) (rq_body r) = Some (0, sent', io') →
  0 ≤ status < 2 ^ 31 → 0 < Z.of_nat (strlen answer) < 2 ^ 64 - 1 → pieces (re_recv env) →
  joined (re_recv env) = uv_http_response_start status json_type (Z.of_nat (strlen answer)) keep +:+ answer →
  ∃ unread, buckets_conn_send_request env c method path body
    = Val (Some (RequestResult BUCKETS_OK (request_head r +:+ rq_body r) status (Some answer) unread)) ∧
    joined unread = "".
Proof.
  intros r Hhead Hn Hsend Hs Hlen Hp Hj. unfold buckets_conn_send_request. fold r. unfold printed.
  rewrite (proj2 (Nat.ltb_lt _ _)) by done. cbn [c_bind]. rewrite Hn, Hsend. cbn [negb Z.eqb].
  destruct (recv_json_response _ _ _ _ Hs Hlen Hp Hj) as (unread & -> & Hu). cbn [c_bind].
  exists unread. split; [|done]. rewrite strncpy_short by done.
  apply send_all_sends in Hsend as (Hsent & _). by rewrite Hsent.
Qed.

(** ** Shortcomings *)

(** The headers are sent by one call, whose result is only compared with zero: when it sends a
    part of them, the body follows all the same. *)
Lemma partial_head_unnoticed env c method path body n sent' io' res :
  let r := conn_request c method path body in
  (strlen (request_head r) < Z.to_nat 1024)%nat → (n < strlen (request_head r))%nat →
  re_head env = Some n → send_all (re_io env) (rq_body r) = Some (0, sent', io') →
  recv_request_response (re_recv env) = Val (Some res) →
  buckets_conn_send_request env c method path body
    = Val (Some (RequestResult BUCKETS_OK (strncpy n (request_head r) +:+ rq_body r) res.1.1 (Some res.1.2) res.2)).
Proof.
  intros r Hhead Hlt Hn Hsend Hres. unfold buckets_conn_send_request. fold r. unfold printed.
  rewrite (proj2 (Nat.ltb_lt _ _)) by done. cbn [c_bind]. rewrite Hn, Hsend, Hres. cbn [negb Z.eqb c_bind].
  apply send_all_sends in Hsend as (Hsent & _). rewrite Hsent by done. by destruct res as [[]].
Qed.

(** A connection that ends in the middle of the body gives a short body and no error. *)
Lemma short_body_accepted :
  recv_request_response
    [lines ["HTTP/1.1 200 OK"; "Content-Length: 10"] +:+ CRLF +:+ "half"; ""]
  = Val (Some (200, "half", [""])).
Proof. vm_compute. reflexivity. Qed.

(** Body bytes beyond the announced length that came with the headers are copied past the end
    of the buffer. *)
Lemma pool_long_body_overruns :
  recv_request_response [lines ["HTTP/1.1 200 OK"; "Content-Length: 3"] +:+ CRLF +:+ "much more"] = Undef.
Proof. vm_compute. reflexivity. Qed.

(** Headers of 1024 bytes or more are sent with what follows their buffer. *)
Lemma long_head_overruns env c method path body :
  (Z.to_nat 1024 < strlen (request_head (conn_request c method path body)))%nat →
  buckets_conn_send_request env c method path body = Undef.
Proof.
  intros Hl. unfold buckets_conn_send_request, printed.
  rewrite (proj2 (Nat.ltb_ge _ _)) by lia. by rewrite (proj2 (Nat.eqb_neq _ _)) by lia.
Qed.
