(* ===== verification/HttpServer.v ===== *)
(** * HTTP responses and dispatch (src/src/net/http_server_uv.c, src/src/s3/s3_streaming.c)

    A handler fills a response: a status, the header lines as one text, a body. The wrappers
    that libuv calls look the handler up, cut the text into headers again and print the
    response. *)

From S2P Require Import Prelude CInt CString CSearch XlMeta HttpWire Transport Router.
From Stdlib Require Import Ascii.

Local Open Scope c_scope.

(** ** Responses *)

(** The status is 0 until a handler sets it; a response to HEAD has a length and no body. *)
Record http_response := HttpResponse {
  rs_status : Z;
  rs_headers : option string;
  rs_body : option string;
  rs_body_len : Z
}.

Definition empty_response : http_response := HttpResponse 0 None None 0.

Definition buckets_http_response_set (res : http_response) (status : Z) (body : option string) : http_response :=
  match body with
  | Some (String _ _ as b) => HttpResponse status (rs_headers res) (Some b) (Z.of_nat (strlen b))
  | _ => HttpResponse status (rs_headers res) (rs_body res) (rs_body_len res)
  end.

Definition header_text (name value : string) : string := name +:+ ": " +:+ value +:+ CRLF.

Definition buckets_http_response_set_header (res : http_response) (name value : string) : http_response :=
  HttpResponse (rs_status res) (Some (default "" (rs_headers res) +:+ header_text name value))
    (rs_body res) (rs_body_len res).

Definition buckets_http_response_json (res : http_response) (status : Z) (json : string) : http_response :=
  buckets_http_response_set (buckets_http_response_set_header res "Content-Type" "application/json") status (Some json).

Definition QUOTE : string := String (ascii_of_nat 34) "".

Definition quoted (s : string) : string := QUOTE +:+ s +:+ QUOTE.

Definition buckets_http_response_error (res : http_response) (status : Z) (message : option string)
    : http_response :=
  buckets_http_response_json res status
    (snprintf (Z.to_nat 1024)
       ("{" +:+ quoted "error" +:+ ": {" +:+ quoted "code" +:+ ": " +:+ pretty status +:+ ", "
        +:+ quoted "message" +:+ ": " +:+ quoted (default "Unknown error" message) +:+ "}}")).

(** ** From the text to headers *)

Fixpoint skip_blanks (s : string) : string :=
  match s with
  | String c s' => if bool_decide (c = " "%char) then skip_blanks s' else s
  | EmptyString => s
  end.

(** One line of the text: a name of less than [nmax] bytes, a value of less than [vmax] that
    ends before [CRLF], and what follows it ([None] when this is the last line). *)
Definition take_header (nmax vmax : nat) (p : string) : option ((string * string) * option string) :=
  match CSearch.strchr p ":" with
  | None => None
  | Some (name, rest) =>
      let value := skip_blanks (str_drop 1 rest) in
      Some (match CSearch.strstr value CRLF with
            | Some (v, rest) => ((snprintf nmax name, snprintf vmax v), Some (str_drop 2 rest))
            | None => ((snprintf nmax name, snprintf vmax value), None)
            end)
  end.

(** At most [count] lines. *)
Fixpoint take_headers (nmax vmax count : nat) (p : string) : list (string * string) :=
  match count with
  | O => []
  | S count =>
      match p with
      | EmptyString => []
      | _ =>
          match take_header nmax vmax p with
          | None => []
          | Some (h, None) => [h]
          | Some (h, Some p) => h :: take_headers nmax vmax count p
          end
      end
  end.

(** The other wrapper ends a value at a carriage return or line feed and skips all of them. *)
Fixpoint skip_ends (s : string) : string :=
  match s with
  | String c s' => if bool_decide (c = CR) || bool_decide (c = LF) then skip_ends s' else s
  | EmptyString => s
  end.

Definition line_end (value : string) : string * string :=
  match CSearch.strchr value CR with
  | Some r => r
  | None => match CSearch.strchr value LF with Some r => r | None => (value, "") end
  end.

Fixpoint take_header_lines (count : nat) (p : string) : list (string * string) :=
  match count with
  | O => []
  | S count =>
      match p with
      | EmptyString => []
      | _ =>
          match CSearch.strchr p ":" with
          | None => []
          | Some (name, rest) =>
              let (value, rest) := line_end (skip_blanks (str_drop 1 rest)) in
              (snprintf 64 name, snprintf 256 value) :: take_header_lines count (skip_ends rest)
          end
      end
  end.

(** ** Printing a response *)

(** The header is printed to a buffer of 4096 bytes, whose remaining size is computed without
    regard to what did not fit. *)
Definition response_head (status : Z) (headers : list (string * string)) (len : Z) (keep_alive : bool)
    : c_result string :=
  let head := uv_http_response_start status headers len keep_alive in
  if (strlen head <? Z.to_nat 4096)%nat then Val head else Undef.

(** The body in pieces of 64 KB, which follow each other. *)
Definition response_text (status : Z) (headers : list (string * string)) (body : option string)
    (len : Z) (keep_alive : bool) : c_result string :=
  let* head := response_head status headers len keep_alive in
  match body with
  | Some b => if Z.of_nat (strlen b) <? len then Undef else Val (head +:+ strncpy (Z.to_nat len) b)
  | None => Val head
  end.

Definition xml_type : string * string := ("Content-Type", "application/xml").

(** [s3_legacy_uv_handler] after its handler has returned. The array of the headers has no room
    for the NULL after 32 pairs. *)
Definition legacy_response (keep_alive : bool) (res : http_response) : c_result string :=
  if rs_status res <=? 0 then response_text 500 [] None 0 keep_alive
  else
    let headers := take_headers 128 512 32 (default "" (rs_headers res)) in
    if (length headers =? 32)%nat then Undef
    else
      response_text (rs_status res)
        (if (length headers =? 0)%nat && (0 <? rs_body_len res) then [xml_type] else headers)
        (rs_body res) (rs_body_len res) keep_alive.

(** [uv_handler_wrapper] after its handler has returned: at most 15 lines; the array has no room
    for the NULL after 15 lines and the added type. *)
Definition wrapper_response (keep_alive : bool) (res : http_response) : c_result string :=
  if rs_status res <=? 0 then response_text 500 [] None 0 keep_alive
  else
    let headers := take_header_lines 15 (default "" (rs_headers res)) in
    let typed := existsb (λ h, eq_nocase h.1 "Content-Type") headers in
    let add := negb typed && (0 <? rs_body_len res) in
    if add && (length headers =? 15)%nat then Undef
    else
      response_text (rs_status res) (if add then headers ++ [xml_type] else headers)
        (rs_body res) (rs_body_len res) keep_alive.

(** ** The server *)

Section Server.
(** What handlers work on. *)
Context {State : Type}.

Definition http_handler : Type := http_request → http_response → State → c_result (http_response * State).

Record http_server := HttpServer {
  hs_address : string;
  hs_port : Z;
  hs_url : string;
  hs_default : option http_handler;
  hs_router : option (router http_handler);
  hs_tls : option (string * string)
}.

(** [uv_ok]: the server of libuv could be created. *)
Definition buckets_http_server_create (uv_ok : bool) (addr : option string) (port : Z) : option http_server :=
  match addr with
  | None => None
  | Some addr =>
      if (port <=? 0) || (65535 <? port) then None
      else if uv_ok then
        Some (HttpServer (strncpy 255 addr) port (snprintf 512 ("http://" +:+ addr +:+ ":" +:+ pretty port))
                None None None)
      else None
  end.

Definition buckets_http_server_set_default_handler (s : http_server) (h : option http_handler) : http_server :=
  HttpServer (hs_address s) (hs_port s) (hs_url s) h (hs_router s) (hs_tls s).

Definition buckets_http_server_set_router (s : http_server) (r : option (router http_handler)) : http_server :=
  HttpServer (hs_address s) (hs_port s) (hs_url s) (hs_default s) r (hs_tls s).

Definition buckets_http_server_get_router (s : option http_server) : option (router http_handler) :=
  match s with Some s => hs_router s | None => None end.

Definition buckets_http_server_get_address (s : http_server) (len : nat) : string :=
  strncpy (len - 1) (hs_url s).

(** [uv_ok]: the certificate could be loaded. *)
Definition buckets_http_server_enable_tls (uv_ok : bool) (s : http_server) (cert key : option string)
    : bool * http_server :=
  match cert, key with
  | Some cert, Some key =>
      (uv_ok, HttpServer (hs_address s) (hs_port s) (hs_url s) (hs_default s) (hs_router s)
                (Some (strncpy 511 cert, strncpy 511 key)))
  | _, _ => (false, s)
  end.

(** The handler of a request: a route, or the default. *)
Definition find_http_handler (s : http_server) (r : http_request) : option http_handler :=
  match hs_router s with
  | Some rt =>
      match buckets_router_match (Some rt) (Some (rq_method r)) (Some (rq_uri r)) with
      | (BUCKETS_OK, Some h) => Some h
      | _ => hs_default s
      end
  | None => hs_default s
  end.

Definition uv_handler_wrapper (keep_alive : bool) (s : http_server) (r : http_request) (st : State)
    : c_result (string * State) :=
  match find_http_handler s r with
  | Some h =>
      let* res := h r empty_response st in
      let* text := wrapper_response keep_alive res.1 in
      Val (text, res.2)
  | None =>
      let* text := wrapper_response keep_alive (HttpResponse 404 None (Some "Not Found") 9) in
      Val (text, st)
  end.

(** [handler] is [buckets_s3_handler]. *)
Definition s3_legacy_uv_handler (handler : http_handler) (keep_alive : bool) (r : http_request) (st : State)
    : c_result (string * State) :=
  let* res := handler r empty_response st in
  let* text := legacy_response keep_alive res.1 in
  Val (text, res.2).
End Server.
Arguments http_handler : clear implicits.
Arguments http_server : clear implicits.

(** ** The text is cut into the headers it was made of *)

(** Headers whose text can be cut again: a name without a colon, a value without a leading
    blank and without line ends, both within their buffers. *)
Definition plain_header (nmax vmax : nat) (h : string * string) : Prop :=
  no_char ":" h.1 ∧ no_char CR h.2 ∧ skip_blanks h.2 = h.2 ∧ (strlen h.1 < nmax)%nat ∧ (strlen h.2 < vmax)%nat.

Definition headers_text (hs : list (string * string)) : string :=
  foldr (λ h t, header_text h.1 h.2 +:+ t) "" hs.

Lemma headers_text_app hs h : headers_text (hs ++ [h]) = headers_text hs +:+ header_text h.1 h.2.
Proof.
  unfold headers_text. induction hs as [|g hs IH]; cbn [app foldr].
  - by rewrite string_app_nil_r.
  - by rewrite IH, string_app_assoc.
Qed.

Lemma skip_blanks_app v t : v = "" ∨ skip_blanks v = v → (v = "" → skip_blanks t = t) →
  skip_blanks (v +:+ t) = v +:+ t.
Proof.
  destruct v as [|c v]; intros Hv Ht; [by apply Ht|]. destruct Hv as [|Hv]; [done|].
  change (String c v +:+ t) with (String c (v +:+ t)). cbn [skip_blanks] in *. case_bool_decide; [|done].
  exfalso. assert (∀ s, (strlen (skip_blanks s) ≤ strlen s)%nat) as Hl.
  { induction s as [|d s IH]; [done|]. cbn [skip_blanks]. case_bool_decide; [|done].
    change (strlen (String d s)) with (S (strlen s)). lia. }
  specialize (Hl v). rewrite Hv in Hl. change (strlen (String c v)) with (S (strlen v)) in Hl. lia.
Qed.

Lemma take_header_text nmax vmax h t :
  plain_header nmax vmax h → take_header nmax vmax (header_text h.1 h.2 +:+ t) = Some (h, Some t).
Proof.
  intros (Hn & Hv & Hb & Hnl & Hvl). unfold take_header, header_text. rewrite !string_app_assoc.
  change (": " +:+ h.2 +:+ CRLF +:+ t) with (String ":" (" " +:+ h.2 +:+ CRLF +:+ t)).
  rewrite strchr_app by done. cbn [str_drop].
  change (skip_blanks (" " +:+ h.2 +:+ CRLF +:+ t)) with (skip_blanks (h.2 +:+ CRLF +:+ t)).
  rewrite skip_blanks_app by auto. rewrite strstr_crlf by done.
  rewrite !snprintf_short by done. by destruct h.
Qed.

Lemma take_headers_text nmax vmax count hs :
  (length hs ≤ count)%nat → Forall (plain_header nmax vmax) hs →
  take_headers nmax vmax count (headers_text hs) = hs.
Proof.
  intros Hl Hp. revert count Hl. induction Hp as [|h hs Hh _ IH]; intros count Hl.
  - by destruct count.
  - destruct count as [|count]; [cbn in Hl; lia|]. cbn [take_headers headers_text foldr].
    assert (header_text h.1 h.2 +:+ headers_text hs ≠ "") as Hne.
    { unfold header_text. destruct h.1; cbn; done. }
    fold (headers_text hs). rewrite take_header_text by done.
    destruct (header_text h.1 h.2 +:+ headers_text hs); [done|]. rewrite IH; [done|]. cbn in Hl. lia.
Qed.

Lemma response_text_ok status headers body keep :
  (strlen (uv_http_response_start status headers (Z.of_nat (strlen body)) keep) < Z.to_nat 4096)%nat →
  response_text status headers (Some body) (Z.of_nat (strlen body)) keep
    = Val (uv_http_response_start status headers (Z.of_nat (strlen body)) keep +:+ body).
Proof.
  intros Hl. unfold response_text, response_head. rewrite (proj2 (Nat.ltb_lt _ _)) by done. cbn [c_bind].
  rewrite Z.ltb_irrefl, Nat2Z.id, strncpy_short by done. done.
Qed.

(** ** Which handler serves a request *)

(** The first route that serves it, or the default. *)
Lemma http_handler_routed {State} (s : http_server State) r rt h i e :
  hs_router s = Some rt → routes rt !! i = Some e → rt_handler e = h →
  serves (rq_method r) (rq_uri r) e →
  (∀ j e', (j < i)%nat → routes rt !! j = Some e' → ¬ serves (rq_method r) (rq_uri r) e') →
  find_http_handler s r = Some h.
Proof.
  intros Hr Hi He Hs Hb. unfold find_http_handler. rewrite Hr.
  assert (buckets_router_match (Some rt) (Some (rq_method r)) (Some (rq_uri r)) = (BUCKETS_OK, Some h)) as ->; [|done].
  unfold buckets_router_match. rewrite match_routes_find.
  assert (list_find (serves (rq_method r) (rq_uri r)) (routes rt) = Some (i, e)) as ->; [|cbn; by rewrite He].
  apply list_find_Some. split_and!; [done..|]. intros j y Hj Hlt. by apply (Hb j y).
Qed.

(** Thirty-two header lines fill the array of the S3 wrapper, and the NULL that follows is
    written past its end. *)
Lemma legacy_headers_overflow keep status body :
  0 < status →
  legacy_response keep (HttpResponse status (Some (headers_text (replicate 32 ("a", "b")))) body 0) = Undef.
Proof.
  intros Hs. unfold legacy_response. cbn [rs_status rs_headers].
  rewrite (proj2 (Z.leb_gt _ _)) by done.
  cbn [from_option id]. rewrite take_headers_text; [done|done|].
  apply Forall_replicate. unfold plain_header. split_and!; [done..|cbn; lia|cbn; lia].
Qed.

(** A value that holds a line end adds lines of its own to the response. *)
Lemma header_value_injects :
  take_headers 128 512 32 (headers_text [("ETag", "x" +:+ CRLF +:+ "Set-Cookie: a")])
  = [("ETag", "x"); ("Set-Cookie", "a")].
Proof. vm_compute. reflexivity. Qed.
