(* ===== verification/S3Path.v ===== *)
(** * Names in an S3 request (src/src/s3/s3_handler.c, src/src/s3/s3_streaming.c)

    Two parsers find the bucket and the key in the URL of a request: the streaming handler,
    which takes the objects that are uploaded, and the handler of everything else. Each has
    its own percent decoding. *)

From S2P Require Import Prelude CInt CString CSearch UrlCode HttpWire.
From Stdlib Require Import Ascii.

Local Open Scope c_scope.

Definition char_code (c : ascii) : Z := Z.of_N (N_of_ascii c).

(** [(char)z] *)
Definition char_of (z : Z) : ascii := ascii_of_N (Z.to_N (u8 z)).

(** ** Decoding in s3_handler.c *)

(** [isxdigit] and the value of the digit. *)
Definition hex_digit (c : ascii) : option Z := hex_of (char_code c).

(** The loop over the bytes; a decoded NUL ends the string for whoever reads it. *)
Fixpoint decode_bytes (s : string) : string :=
  match s with
  | EmptyString => ""
  | String c s' =>
      if bool_decide (c = "%"%char) then
        match s' with
        | String a (String b rest) =>
            match hex_digit a, hex_digit b with
            | Some x, Some y => String (char_of (16 * x + y)) (decode_bytes rest)
            | _, _ => String c (decode_bytes s')
            end
        | _ => String c (decode_bytes s')
        end
      else String (if bool_decide (c = "+"%char) then " "%char else c) (decode_bytes s')
  end.

Definition url_decode_inplace (s : string) : string := c_str (decode_bytes s).

(** [url_decode] passes plain [char]s to [isxdigit], which is not defined for negative ones. *)
Fixpoint decodable (s : string) : bool :=
  match s with
  | EmptyString => true
  | String c s' =>
      (if bool_decide (c = "%"%char) then
         match s' with
         | String a (String b rest) =>
             (char_code a <? 128) &&
             match hex_digit a with Some _ => char_code b <? 128 | None => true end
         | _ => true
         end
       else true) && decodable s'
  end.

(** Into a buffer of [size] bytes. *)
Definition url_decode (size : nat) (src : string) : c_result string :=
  if decodable src && (strlen (decode_bytes src) <? size)%nat then Val (c_str (decode_bytes src)) else Undef.

(** ** The path in s3_handler.c *)

(** The bucket and the key; [None] is an error. *)
Definition parse_s3_path (uri : string) : option (string * string) :=
  let uri := match uri with String "/" uri' => uri' | _ => uri end in
  match uri with
  | EmptyString => Some ("", "")
  | _ =>
      let question := strchr uri "?" in
      match strchr uri "/" with
      | None =>
          let bucket := match question with Some (b, _) => b | None => uri end in
          if (256 <=? strlen bucket)%nat then None else Some (bucket, "")
      | Some (bucket, rest) =>
          if (256 <=? strlen bucket)%nat then None
          else
            let key := str_drop 1 rest in
            (* [question - key], a [size_t] *)
            let key_len :=
              match question with
              | Some (b, _) => u64 (Z.of_nat (strlen b) - Z.of_nat (strlen bucket) - 1)
              | None => Z.of_nat (strlen key)
              end in
            if 1024 <=? key_len then None
            else Some (url_decode_inplace bucket, url_decode_inplace (strncpy (Z.to_nat key_len) key))
      end
  end.

(** ** The path in s3_streaming.c *)

Definition parse_s3_url (url : string) : option (string * string) :=
  match url with
  | String "/" p =>
      let slash := strchr p "/" in
      let question := strchr p "?" in
      let bucket :=
        match slash, question with
        | Some (b, _), _ => b
        | None, Some (b, _) => b
        | None, None => p
        end in
      if (strlen bucket =? 0)%nat || (256 <=? strlen bucket)%nat then None
      else
        match slash with
        | None => Some (bucket, "")
        | Some (_, rest) =>
            let key_start := str_drop 1 rest in
            let key :=
              match question with
              | Some (b, _) =>
                  (* [question > key_start] *)
                  if (strlen bucket + 1 <? strlen b)%nat
                  then strncpy (strlen b - (strlen bucket + 1)) key_start else key_start
              | None => key_start
              end in
            if (1024 <=? strlen key)%nat then None else Some (bucket, key)
        end
  | _ => None
  end.

(** [strtol] in base 16 of two characters: white space and a sign may come first, and what
    is not a number is 0. *)
Definition strtol_hex2 (a b : ascii) : Z :=
  match hex_digit a with
  | Some x => match hex_digit b with Some y => 16 * x + y | None => x end
  | None =>
      let y := default 0 (hex_digit b) in
      if bool_decide (a = "-"%char) then - y
      else if isspace a || bool_decide (a = "+"%char) then y else 0
  end.

Fixpoint stream_decode_bytes (s : string) : string :=
  match s with
  | EmptyString => ""
  | String c s' =>
      match s' with
      | String a (String b rest) =>
          if bool_decide (c = "%"%char)
          then String (char_of (strtol_hex2 a b)) (stream_decode_bytes rest)
          else String (if bool_decide (c = "+"%char) then " "%char else c) (stream_decode_bytes s')
      | _ => String (if bool_decide (c = "+"%char) then " "%char else c) (stream_decode_bytes s')
      end
  end.

Definition stream_url_decode (s : string) : string := c_str (stream_decode_bytes s).

(** The object that a PUT in the streaming handler writes; [None] when the URL is refused. *)
Definition stream_target (url : string) : option (string * string) :=
  match parse_s3_url url with
  | Some (bucket, key) => Some (stream_url_decode bucket, stream_url_decode key)
  | None => None
  end.

(** ** Encodings *)

(** [encodes s e]: a client may send [s] as [e]; it chooses which bytes it escapes. *)
Inductive encodes : string → string → Prop :=
  | enc_nil : encodes "" ""
  | enc_plain c s e : c ≠ "%"%char → c ≠ "+"%char → encodes s e → encodes (String c s) (String c e)
  | enc_plus s e : encodes s e → encodes (String " " s) (String "+" e)
  | enc_hex a b x y s e :
      hex_digit a = Some x → hex_digit b = Some y → encodes s e →
      encodes (String (char_of (16 * x + y)) s) (String "%" (String a (String b e))).

Lemma decode_encodes s e : encodes s e → decode_bytes e = s.
Proof.
  induction 1 as [|c s e H1 H2 _ IH|s e _ IH|a b x y s e Ha Hb _ IH]; [done| | |].
  - cbn [decode_bytes]. rewrite !bool_decide_eq_false_2 by done. by rewrite IH.
  - cbn [decode_bytes]. rewrite bool_decide_eq_false_2, bool_decide_eq_true_2 by done. by rewrite IH.
  - cbn [decode_bytes]. rewrite bool_decide_eq_true_2 by done. by rewrite Ha, Hb, IH.
Qed.

Lemma stream_decode_encodes s e : encodes s e → stream_decode_bytes e = s.
Proof.
  induction 1 as [|c s e H1 H2 _ IH|s e _ IH|a b x y s e Ha Hb _ IH]; [done| | |].
  - assert (stream_decode_bytes (String c e)
            = String (if bool_decide (c = "+"%char) then " "%char else c) (stream_decode_bytes e)) as ->.
    { cbn [stream_decode_bytes]. destruct e as [|a [|b e]]; [done..|]. by rewrite bool_decide_eq_false_2. }
    rewrite bool_decide_eq_false_2 by done. by rewrite IH.
  - assert (stream_decode_bytes (String "+" e) = String " " (stream_decode_bytes e)) as ->.
    { cbn [stream_decode_bytes]. by destruct e as [|a [|b e]]. }
    by rewrite IH.
  - cbn [stream_decode_bytes]. rewrite bool_decide_eq_true_2 by done. unfold strtol_hex2. by rewrite Ha, Hb, IH.
Qed.

(** ** The two parsers *)

(** A query, or nothing. *)
Definition query_part (q : string) : Prop := q = "" ∨ ∃ q', q = String "?" q'.

Lemma strchr_none_app c a b : no_char c a → strchr (a +:+ b) c
  = match strchr b c with Some (p, r) => Some (a +:+ p, r) | None => None end.
Proof.
  induction a as [|d a IH].
  - intros _. change ("" +:+ b) with b. by destruct (strchr b c) as [[p r]|].
  - intros [Hd Ha]%no_char_cons. change (String d a +:+ b) with (String d (a +:+ b)). cbn [strchr].
    rewrite bool_decide_eq_false_2 by done. rewrite (IH Ha). by destruct (strchr b c) as [[p r]|].
Qed.

Lemma strncpy_app a b : strncpy (strlen a) (a +:+ b) = a.
Proof. induction a as [|c a IH]; [by destruct b|]. exact (f_equal (String c) IH). Qed.

(** Where the slash and the question mark of a path are. *)
Lemma path_positions eb ek q :
  no_char "/" eb → no_char "?" eb → no_char "?" ek → query_part q →
  let p := eb +:+ String "/" (ek +:+ q) in
  strchr p "/" = Some (eb, String "/" (ek +:+ q)) ∧
  strchr p "?" = match q with "" => None | _ => Some (eb +:+ String "/" ek, q) end.
Proof.
  intros Hs Hq Hk Hquery p. split; [by apply strchr_app|]. subst p.
  rewrite strchr_none_app by done.
  change (String "/" (ek +:+ q)) with (String "/" ek +:+ q).
  rewrite strchr_none_app by (by apply no_char_cons).
  destruct Hquery as [->|[q' ->]]; [done|]. cbn [strchr]. by rewrite bool_decide_eq_true_2, string_app_nil_r by done.
Qed.

(** The encoded bucket and key are cut out of the URL by both. *)
Lemma parse_s3_url_path eb ek q :
  no_char "/" eb → no_char "?" eb → no_char "?" ek → query_part q →
  eb ≠ "" → ek ≠ "" → (strlen eb < 256)%nat → (strlen ek < 1024)%nat →
  parse_s3_url (String "/" (eb +:+ String "/" (ek +:+ q))) = Some (eb, ek).
Proof.
  intros Hs Hq Hk Hquery Hne Hkne Hbl Hkl. unfold parse_s3_url.
  destruct (path_positions eb ek q Hs Hq Hk Hquery) as [-> ->]. cbv zeta.
  assert (0 < strlen eb)%nat by (destruct eb; [done|cbn; lia]).
  assert (0 < strlen ek)%nat by (destruct ek; [done|cbn; lia]).
  rewrite (proj2 (Nat.eqb_neq _ _)), (proj2 (Nat.leb_gt _ _)) by lia. cbn [orb].
  change (str_drop 1 (String "/" (ek +:+ q))) with (ek +:+ q).
  destruct Hquery as [->|[q' ->]].
  - rewrite string_app_nil_r, (proj2 (Nat.leb_gt _ _)) by lia. done.
  - rewrite strlen_app. change (strlen (String "/" ek)) with (S (strlen ek)).
    rewrite (proj2 (Nat.ltb_lt _ _)) by lia.
    replace (_ - _)%nat with (strlen ek) by lia. rewrite strncpy_app, (proj2 (Nat.leb_gt _ _)) by lia. done.
Qed.

Lemma parse_s3_path_path eb ek q :
  no_char "/" eb → no_char "?" eb → no_char "?" ek → query_part q →
  (strlen eb < 256)%nat → (strlen ek < 1024)%nat →
  parse_s3_path (String "/" (eb +:+ String "/" (ek +:+ q)))
  = Some (url_decode_inplace eb, url_decode_inplace ek).
Proof.
  intros Hs Hq Hk Hquery Hbl Hkl. unfold parse_s3_path. cbv zeta.
  destruct (path_positions eb ek q Hs Hq Hk Hquery) as [-> ->].
  destruct (eb +:+ String "/" (ek +:+ q)) as [|c0 s0] eqn:E.
  { apply (f_equal strlen) in E. rewrite strlen_app in E. cbn in E. lia. }
  rewrite (proj2 (Nat.leb_gt _ _)) by lia.
  change (str_drop 1 (String "/" (ek +:+ q))) with (ek +:+ q).
  assert (Z.of_nat (strlen ek) < 1024) by lia.
  destruct Hquery as [->|[q' ->]].
  - rewrite string_app_nil_r, (proj2 (Z.leb_gt _ _)) by done. rewrite Nat2Z.id.
    by rewrite (strncpy_short (strlen ek)) by done.
  - rewrite strlen_app. change (strlen (String "/" ek)) with (S (strlen ek)).
    replace (u64 _) with (Z.of_nat (strlen ek)).
    2:{ unfold u64. rewrite wrap_small; [lia|]. unfold in_range. change (2 ^ 64) with 18446744073709551616. lia. }
    rewrite (proj2 (Z.leb_gt _ _)) by done. by rewrite Nat2Z.id, strncpy_app.
Qed.

(** ** Every name has an encoding *)

Definition percent_encode (s : string) : string := bytes_str (UrlCode.url_encode (str_bytes s)).

Lemma hex_digit_upper n : 0 ≤ n < 16 → hex_digit (char_of (hex_upper n)) = Some n.
Proof.
  intros Hn. assert (Forall (λ n, hex_digit (char_of (hex_upper (Z.of_nat n))) = Some (Z.of_nat n)) (seq 0 16)) as H
    by (repeat (constructor; [reflexivity|]); constructor).
  rewrite Forall_forall in H. specialize (H (Z.to_nat n)). rewrite Z2Nat.id in H by lia.
  apply H, elem_of_seq. lia.
Qed.

Lemma char_of_code c : char_of (char_code c) = c.
Proof.
  unfold char_of, char_code, u8. pose proof (N_ascii_bounded c). rewrite wrap_small.
  - rewrite N2Z.id. apply ascii_N_embedding.
  - unfold in_range. change (2 ^ 8) with 256. lia.
Qed.

Lemma percent_encode_cons c s :
  percent_encode (String c s)
  = (if unreserved (char_code c) then String c ""
     else String "%" (String (char_of (hex_upper (char_code c / 16)))
            (String (char_of (hex_upper (char_code c mod 16))) ""))) +:+ percent_encode s.
Proof.
  assert (0 ≤ char_code c < 256) as Hc.
  { unfold char_code. pose proof (N_ascii_bounded c). lia. }
  assert (∀ z, 0 ≤ z < 256 → ascii_of_N (Z.to_N z) = char_of z) as Hchar.
  { intros z Hz. unfold char_of, u8. rewrite wrap_small; [done|].
    unfold in_range. change (2 ^ 8) with 256. lia. }
  unfold percent_encode. change (str_bytes (String c s)) with (char_code c :: str_bytes s).
  cbn [UrlCode.url_encode]. destruct (unreserved (char_code c)); cbn [app].
  - change (bytes_str (char_code c :: UrlCode.url_encode (str_bytes s)))
      with (String (ascii_of_N (Z.to_N (char_code c))) (bytes_str (UrlCode.url_encode (str_bytes s)))).
    by rewrite Hchar, char_of_code.
  - pose proof (hex_upper_bounds (char_code c / 16)
      ltac:(split; [apply Z.div_pos; lia|apply Z.div_lt_upper_bound; lia])).
    pose proof (hex_upper_bounds (char_code c mod 16) ltac:(apply Z.mod_pos_bound; lia)).
    change (bytes_str (37 :: ?a :: ?b :: ?l)) with
      (String "%" (String (ascii_of_N (Z.to_N a)) (String (ascii_of_N (Z.to_N b)) (bytes_str l)))).
    by rewrite !Hchar by lia.
Qed.

Lemma unreserved_plain c : unreserved (char_code c) = true → c ≠ "%"%char ∧ c ≠ "+"%char ∧ c ≠ "/"%char ∧ c ≠ "?"%char.
Proof. intros Hc. split_and!; intros ->; by vm_compute in Hc. Qed.

Lemma encodes_percent s : encodes s (percent_encode s).
Proof.
  induction s as [|c s IH]; [constructor|]. rewrite percent_encode_cons.
  assert (0 ≤ char_code c < 256) by (unfold char_code; pose proof (N_ascii_bounded c); lia).
  destruct (unreserved (char_code c)) eqn:E.
  - apply unreserved_plain in E as (? & ? & _). by apply enc_plain.
  - replace (String c s) with (String (char_of (16 * (char_code c / 16) + char_code c mod 16)) s).
    2:{ rewrite <- Z.div_mod by lia. by rewrite char_of_code. }
    apply enc_hex; [| |done]; apply hex_digit_upper;
      [split; [apply Z.div_pos; lia|apply Z.div_lt_upper_bound; lia]|apply Z.mod_pos_bound; lia].
Qed.

Lemma no_char_percent c s : c = "/"%char ∨ c = "?"%char → no_char c (percent_encode s).
Proof.
  intros Hc. induction s as [|d s IH]; [done|]. rewrite percent_encode_cons, no_char_app. split; [|done].
  assert (0 ≤ char_code d < 256) as Hd by (unfold char_code; pose proof (N_ascii_bounded d); lia).
  destruct (unreserved (char_code d)) eqn:E.
  - apply unreserved_plain in E as (? & ? & ? & ?). apply no_char_cons. split; [|done]. by destruct Hc as [-> | ->].
  - rewrite !no_char_cons.
    assert (∀ n, 0 ≤ n < 16 → char_of (hex_upper n) ≠ c) as Hx.
    { intros n Hn Heq. pose proof (hex_digit_upper n Hn) as Hh. rewrite Heq in Hh. by destruct Hc as [-> | ->]. }
    split_and!; [by destruct Hc as [-> | ->]|apply Hx|apply Hx|done];
      [split; [apply Z.div_pos; lia|apply Z.div_lt_upper_bound; lia]|apply Z.mod_pos_bound; lia].
Qed.

(** A client that escapes everything but the unreserved characters names any object whose
    encoding fits: both parsers cut its URL into the two encodings. *)
Lemma escaped_url_parsed b k :
  b ≠ "" → k ≠ "" → (strlen (percent_encode b) < 256)%nat → (strlen (percent_encode k) < 1024)%nat →
  let url := String "/" (percent_encode b +:+ String "/" (percent_encode k)) in
  parse_s3_url url = Some (percent_encode b, percent_encode k) ∧ parse_s3_path url = Some (c_str b, c_str k).
Proof.
  intros Hb Hk Hbl Hkl url. subst url. rewrite <- (string_app_nil_r (percent_encode k)).
  assert (∀ s, s ≠ "" → percent_encode s ≠ "") as Hne.
  { intros [|c s] Hs; [done|]. rewrite percent_encode_cons. by destruct (unreserved _). }
  pose proof (no_char_percent "/" b (or_introl eq_refl)).
  pose proof (no_char_percent "?" b (or_intror eq_refl)).
  pose proof (no_char_percent "?" k (or_intror eq_refl)).
  split.
  - rewrite parse_s3_url_path by (done || by left || by apply Hne). by rewrite string_app_nil_r.
  - rewrite parse_s3_path_path by (done || by left). unfold url_decode_inplace.
    by rewrite !(decode_encodes _ _ (encodes_percent _)).
Qed.

(** ** URLs of objects *)

(** The URL of an object: the bucket and the key in any encoding, with or without a query. *)
Inductive object_url (b k : string) : string → Prop :=
  | object_url_intro eb ek q :
      encodes b eb → encodes k ek → no_char NUL b → no_char NUL k →
      no_char "/" eb → no_char "?" eb → no_char "?" ek → query_part q →
      eb ≠ "" → ek ≠ "" → (strlen eb < 256)%nat → (strlen ek < 1024)%nat →
      object_url b k (String "/" (eb +:+ String "/" (ek +:+ q))).

(** Both parsers read the bucket and the key that it names. *)
Lemma object_url_read b k url :
  object_url b k url → stream_target url = Some (b, k) ∧ parse_s3_path url = Some (b, k).
Proof.
  intros [eb ek q Hb Hk Hb0 Hk0 Hs Hq Hkq Hquery Hne Hkne Hbl Hkl]. split_and!.
  - unfold stream_target. rewrite parse_s3_url_path by done. unfold stream_url_decode.
    by rewrite (stream_decode_encodes _ _ Hb), (stream_decode_encodes _ _ Hk), !c_str_no_nul.
  - rewrite parse_s3_path_path by done. unfold url_decode_inplace.
    by rewrite (decode_encodes _ _ Hb), (decode_encodes _ _ Hk), !c_str_no_nul.
Qed.

(** An encoding is at least as long as what it encodes. *)
Lemma encodes_length s e : encodes s e → (strlen s ≤ strlen e)%nat ∧ (e ≠ "" → s ≠ "").
Proof.
  induction 1 as [|c s e _ _ _ [IH _]|s e _ [IH _]|a b x y s e _ _ _ [IH _]]; (split; [|done]); cbn;
    unfold strlen in *; lia.
Qed.

Lemma object_url_names b k url : object_url b k url →
  b ≠ "" ∧ k ≠ "" ∧ (strlen b < 256)%nat ∧ (strlen k < 1024)%nat.
Proof.
  intros [eb ek q Hb Hk _ _ _ _ _ _ Hne Hkne Hbl Hkl].
  destruct (encodes_length _ _ Hb) as [Hlb Hb'], (encodes_length _ _ Hk) as [Hlk Hk']. split_and!; [auto|auto|lia|lia].
Qed.

(** ** Properties *)

(** C33: An object is found under the name it was stored under: whatever bytes a client
    chooses to escape in the URL, and whatever query follows, the streaming handler that takes
    the upload and the handler that answers every other request agree on the bucket and the
    key, which are the ones the client meant. *)
Theorem upload_and_request_name_agree b k eb ek q :
  encodes b eb → encodes k ek → no_char NUL b → no_char NUL k →
  no_char "/" eb → no_char "?" eb → no_char "?" ek → query_part q →
  eb ≠ "" → ek ≠ "" → (strlen eb < 256)%nat → (strlen ek < 1024)%nat →
  let url := String "/" (eb +:+ String "/" (ek +:+ q)) in
  stream_target url = Some (b, k) ∧ parse_s3_path url = Some (b, k).
Proof.
  intros Hb Hk Hb0 Hk0 Hs Hq Hkq Hquery Hne Hkne Hbl Hkl url. apply object_url_read. by apply object_url_intro.
Qed.

Lemma upload_and_request_name_agree_witness :
  stream_target "/photos/a%20b/%c3%A9+1?partNumber=1" = parse_s3_path "/photos/a%20b/%c3%A9+1?partNumber=1" ∧
  stream_target "/photos/a%20b/%c3%A9+1?partNumber=1"
  = Some ("photos", "a b/" +:+ String (ascii_of_nat 195) (String (ascii_of_nat 169) " 1")).
Proof.
  destruct (upload_and_request_name_agree "photos"
              ("a b/" +:+ String (ascii_of_nat 195) (String (ascii_of_nat 169) " 1"))
              "photos" "a%20b/%c3%A9+1" "?partNumber=1") as [H1 H2].
  - repeat (apply enc_plain; [done..|]). apply enc_nil.
  - apply enc_plain; [done..|]. apply (enc_hex "2" "0" 2 0); [done..|].
    apply enc_plain; [done..|]. apply enc_plain; [done..|].
    apply (enc_hex "c" "3" 12 3); [done..|]. apply (enc_hex "A" "9" 10 9); [done..|].
    apply enc_plus. apply enc_plain; [done..|]. apply enc_nil.
  - done.
  - done.
  - done.
  - done.
  - done.
  - right. by exists "partNumber=1".
  - done.
  - done.
  - apply Nat.ltb_lt. by vm_compute.
  - apply Nat.ltb_lt. by vm_compute.
  - split; [transitivity (Some ("photos", "a b/" +:+ String (ascii_of_nat 195) (String (ascii_of_nat 169) " 1")));
      [exact H1|symmetry; exact H2]|exact H1].
Defined.

(** A percent sign without two digits after it means different things to the two: what is
    uploaded as [a%zz] is stored as [a] and looked for as [a%zz]. *)
Lemma bad_escape_splits_names :
  stream_target "/b/a%zz" = Some ("b", "a") ∧ parse_s3_path "/b/a%zz" = Some ("b", "a%zz").
Proof. split; reflexivity. Qed.

(** The bucket is decoded only when a key follows it. *)
Lemma bucket_alone_not_decoded :
  parse_s3_path "/my%2Dbucket" = Some ("my%2Dbucket", "") ∧ parse_s3_path "/my%2Dbucket/k" = Some ("my-bucket", "k").
Proof. split; reflexivity. Qed.

(** A query that comes before any slash is refused when it has one. *)
Lemma listing_with_delimiter_refused : parse_s3_path "/bucket?delimiter=/" = None.
Proof. reflexivity. Qed.

(** A query right after the slash becomes the key of an upload. *)
Lemma query_becomes_key : stream_target "/bucket/?versioning" = Some ("bucket", "?versioning").
Proof. reflexivity. Qed.
