(* ===== verification/S3Stream.v ===== *)
(** * Uploads that arrive in pieces (src/src/s3/s3_streaming.c)

    The body of a PUT is handed over as it arrives. The upload keeps what it has in buffers of
    256 KB, decodes the chunked encoding of the AWS clients on the way, and stores the object
    when the request is complete. Bytes are characters of a string. *)

From S2P Require Import Prelude CInt CString CSearch XlMeta HttpWire Transport S3Path.
From Stdlib Require Import Ascii.

Local Open Scope c_scope.

Definition S3_STREAM_CHUNK_SIZE : nat := Z.to_nat (256 * 1024).

(** The digest is the library's. *)
Class Md5 := { md5 : string → list Z }.

(** ** The upload *)

(** States of the decoder of AWS chunks: 0, 1 and 2. *)
Inductive chunk_state := ChunkHeader | ChunkData | ChunkTrailer.

(** [up_hash] is what the digest was fed. [buckets_malloc] and [buckets_realloc] abort the
    program when memory is short, so the buffers are always there. *)
Record upload := Upload {
  up_bucket : string;
  up_key : string;
  up_content_length : Z;
  up_received : Z;
  up_content_type : string;
  up_user_meta : list (string * string);
  up_buffer : string;
  up_chunks : list string;
  up_hash : string;
  up_aborted : bool;
  up_completed : bool;
  up_aws : bool;
  up_remaining : Z;
  up_header : string;
  up_state : chunk_state;
  up_etag : string;
  up_version_id : string
}.

Definition s3_stream_upload_create (bucket key : string) (content_length : Z) : upload :=
  Upload (strncpy 255 bucket) (strncpy 1023 key) content_length 0 "" [] "" [] "" false false false 0 ""
    ChunkHeader "" "".

(** The parts of an upload that the functions below change. *)
Definition set_data (u : upload) (received : Z) (buffer : string) (chunks : list string) (hash : string) : upload :=
  Upload (up_bucket u) (up_key u) (up_content_length u) received (up_content_type u) (up_user_meta u)
    buffer chunks hash (up_aborted u) (up_completed u) (up_aws u) (up_remaining u) (up_header u) (up_state u)
    (up_etag u) (up_version_id u).

Definition set_aws (u : upload) (remaining : Z) (header : string) (state : chunk_state) : upload :=
  Upload (up_bucket u) (up_key u) (up_content_length u) (up_received u) (up_content_type u) (up_user_meta u)
    (up_buffer u) (up_chunks u) (up_hash u) (up_aborted u) (up_completed u) (up_aws u) remaining header state
    (up_etag u) (up_version_id u).

Definition set_request (u : upload) (content_length : Z) (content_type : string)
    (user_meta : list (string * string)) (aws : bool) : upload :=
  Upload (up_bucket u) (up_key u) content_length (up_received u) content_type user_meta
    (up_buffer u) (up_chunks u) (up_hash u) (up_aborted u) (up_completed u) aws (up_remaining u) (up_header u)
    (up_state u) (up_etag u) (up_version_id u).

Definition set_end (u : upload) (aborted completed : bool) (etag version_id : string) : upload :=
  Upload (up_bucket u) (up_key u) (up_content_length u) (up_received u) (up_content_type u) (up_user_meta u)
    (up_buffer u) (up_chunks u) (up_hash u) aborted completed (up_aws u) (up_remaining u) (up_header u)
    (up_state u) etag version_id.

(** ** Raw data *)

Definition flush_chunk_buffer (u : upload) : upload :=
  match up_buffer u with
  | EmptyString => u
  | b => set_data u (up_received u) "" (up_chunks u ++ [b]) (up_hash u)
  end.

(** The loop that fills the buffer; every turn takes at least one byte, as a full buffer is
    flushed at once. *)
Fixpoint fill_buffer (fuel : nat) (u : upload) (src : string) : upload :=
  match fuel with
  | O => u
  | S fuel =>
      match src with
      | EmptyString => u
      | _ =>
          let space := (S3_STREAM_CHUNK_SIZE - strlen (up_buffer u))%nat in
          let to_copy := Nat.min (strlen src) space in
          let buffer := up_buffer u +:+ strncpy to_copy src in
          let u := set_data u (up_received u) buffer (up_chunks u) (up_hash u) in
          let u := if (S3_STREAM_CHUNK_SIZE <=? strlen buffer)%nat then flush_chunk_buffer u else u in
          fill_buffer fuel u (str_drop to_copy src)
      end
  end.

Definition process_raw_data (u : upload) (src : string) : upload :=
  fill_buffer (strlen src)
    (set_data u (u64 (up_received u + Z.of_nat (strlen src))) (up_buffer u) (up_chunks u) (up_hash u +:+ src))
    src.

(** ** AWS chunks *)

Fixpoint parse_hex (acc : Z) (s : string) : Z :=
  match s with
  | String c s' => match hex_digit c with Some d => parse_hex (16 * acc + d) s' | None => acc end
  | EmptyString => acc
  end.

(** [strtoull(s, NULL, 16)] *)
Definition strtoull16 (s : string) : Z :=
  let (neg, d) := read_sign (skip_space s) in
  let d :=
    match d with
    | String "0" (String x (String c _ as rest)) =>
        if (bool_decide (x = "x"%char) || bool_decide (x = "X"%char))
           && match hex_digit c with Some _ => true | None => false end
        then rest else d
    | _ => d
    end in
  saturate (parse_hex 0 d) neg.

(** Whether the header ends in [CRLF]. *)
Definition header_complete (h : string) : bool :=
  (2 <=? strlen h)%nat && strcmp_eq (str_drop (strlen h - 2) h) CRLF.

(** The size that a complete header gives: what is before the semicolon, or the header
    without its last two characters. *)
Definition header_size (h : string) : Z :=
  strtoull16 (match CSearch.strchr (c_str h) ";" with
              | Some (b, _) => b
              | None => c_str (strncpy (strlen h - 2) h)
              end).

(** [sizeof(aws_chunk_header)] is 128. The loops are one loop here; [None] when [fuel] runs
    out. The code is 0, or -1 for a header that is too long. *)
Fixpoint process_loop (fuel : nat) (u : upload) (src : string) : option (Z * upload) :=
  match src with
  | EmptyString => Some (0, u)
  | String c rest =>
      match fuel with
      | O => None
      | S fuel =>
          match up_state u with
          | ChunkHeader =>
              if (127 <=? strlen (up_header u))%nat then Some (-1, u)
              else
                let h := up_header u +:+ String c "" in
                if header_complete h then
                  let n := header_size h in
                  let u := set_aws u n "" ChunkHeader in
                  if n =? 0 then Some (0, u)
                  else process_loop fuel (set_aws u n "" ChunkData) rest
                else process_loop fuel (set_aws u (up_remaining u) h ChunkHeader) rest
          | ChunkData =>
              let to_read := Z.to_nat (Z.min (Z.of_nat (strlen src)) (up_remaining u)) in
              let u := if (0 <? to_read)%nat then process_raw_data u (strncpy to_read src) else u in
              let left := up_remaining u - Z.of_nat to_read in
              process_loop fuel
                (set_aws u left (up_header u) (if left =? 0 then ChunkTrailer else ChunkData))
                (str_drop to_read src)
          | ChunkTrailer =>
              let src := if bool_decide (c = CR) then rest else src in
              let src := match src with
                         | String d rest => if bool_decide (d = LF) then rest else src
                         | EmptyString => src
                         end in
              process_loop fuel (set_aws u (up_remaining u) (up_header u) ChunkHeader) src
          end
      end
  end.

(** A byte takes at most three turns: one in each state. *)
Definition process_aws_chunked (u : upload) (src : string) : option (Z * upload) :=
  process_loop (3 * strlen src + 3) u src.

Definition s3_stream_upload_process (u : upload) (data : string) : option (Z * upload) :=
  if up_aborted u then Some (-1, u)
  else if up_aws u then process_aws_chunked u data
  else Some (0, process_raw_data u data).

(** ** Storing the object *)

(** The chunks copied one after another into a buffer of [total] bytes: every chunk but the
    last is taken to be full, the last one to fill the buffer. *)
Fixpoint reassemble (total offset : Z) (chunks : list string) : c_result string :=
  match chunks with
  | [] => Val ""
  | c :: rest =>
      let size := match rest with [] => u64 (total - offset) | _ => Z.of_nat S3_STREAM_CHUNK_SIZE end in
      if (size <=? Z.of_nat (strlen c)) && (offset + size <=? total) then
        let* data := reassemble total (offset + size) rest in
        Val (strncpy (Z.to_nat size) c +:+ data)
      else Undef
  end.

Definition hex_byte (b : Z) : string :=
  let d n := String (ascii_of_N (Z.to_N (if n <? 10 then 48 + n else 87 + n))) "" in
  d (b / 16) +:+ d (b mod 16).

(** ["%02x..."] between quotes; 34 characters in a buffer of 65. *)
Definition format_etag (hash : list Z) : string :=
  let quote := String (ascii_of_nat 34) "" in
  quote +:+ String.concat "" (hex_byte <$> hash) +:+ quote.

(** The functions of the object store that an upload calls. [us_put_versioned] gives the return
    code, the version and whether it frees the strings of the metadata it is given, which its
    copy shares. *)
Class UploadStore := {
  us : Type;
  us_versioning : us → string → bool;
  us_put : string → string → string → us → c_result (Z * us);
  us_put_with_metadata :
    string → string → string → option string → list (string * string) → us → c_result (Z * us);
  us_put_versioned :
    string → string → string → option string → list (string * string) → us → c_result (Z * string * bool * us)
}.

Section Handler.
Context `{Md5} `{UploadStore}.

(** Freeing what the store has freed is not defined. *)
Definition store_object (u : upload) (data : string) (s : us) : c_result (Z * string * us) :=
  let content_type := match up_content_type u with EmptyString => None | ct => Some ct end in
  let has_metadata := match content_type, up_user_meta u with None, [] => false | _, _ => true end in
  if us_versioning s (up_bucket u) then
    let* r := us_put_versioned (up_bucket u) (up_key u) data content_type (up_user_meta u) s in
    let '(rc, version_id, freed, s) := r in
    if freed && has_metadata then Undef else Val (rc, version_id, s)
  else if has_metadata then
    let* r := us_put_with_metadata (up_bucket u) (up_key u) data content_type (up_user_meta u) s in
    Val (r.1, up_version_id u, r.2)
  else
    let* r := us_put (up_bucket u) (up_key u) data s in
    Val (r.1, up_version_id u, r.2).

Definition s3_stream_upload_complete (u : upload) (s : us) : c_result (Z * upload * us) :=
  if up_aborted u then Val (-1, u, s)
  else
    let u := flush_chunk_buffer u in
    let etag := format_etag (md5 (up_hash u)) in
    let* data := reassemble (up_received u) 0 (up_chunks u) in
    let* r := store_object u data s in
    let '(rc, version_id, s) := r in
    if rc =? 0 then Val (0, set_end u (up_aborted u) true etag version_id, s)
    else Val (-1, set_end u (up_aborted u) (up_completed u) etag version_id, s).

Definition s3_stream_upload_abort (u : upload) : upload :=
  set_end u true (up_completed u) (up_etag u) (up_version_id u).

(** ** The callbacks of the server *)

(** The user metadata: the headers that start with [x-amz-meta-], at most 32 of them. *)
Definition user_meta_headers (headers : list (string * string)) : list (string * string) :=
  take 32 ((λ h, (str_drop 11 h.1, h.2))
             <$> filter (λ h, eq_nocase (strncpy 11 h.1) "x-amz-meta-" = true) headers).

Definition is_aws_chunked (headers : list (string * string)) : bool :=
  let has (name pat : string) :=
    match uv_http_get_header headers name with
    | Some v => match CSearch.strstr v pat with Some _ => true | None => false end
    | None => false
    end in
  has "Content-Encoding" "aws-chunked"
  || match uv_http_get_header headers "x-amz-decoded-content-length" with Some _ => true | None => false end
  || has "x-amz-content-sha256" "STREAMING-AWS4-HMAC-SHA256-PAYLOAD".

(** What starting a request gives: the upload, or the status of the error that is answered
    ([None] when the request is left to the other handlers without an answer). *)
Definition s3_stream_on_request_start (r : http_request) (content_length : Z) : upload + option Z :=
  if negb (strcmp_eq (rq_method r) "PUT") then inr None
  else if starts_with (rq_uri r) "/_internal/" then inr None
  else
    match stream_target (rq_uri r) with
    | None => inr (Some 400)
    | Some (bucket, key) =>
        if strcmp_eq bucket "" || strcmp_eq key "" then inr None
        else
          let u := s3_stream_upload_create bucket key content_length in
          let content_type :=
            match uv_http_get_header (rq_headers r) "Content-Type" with
            | Some ct => strncpy 127 ct
            | None => ""
            end in
          let aws := is_aws_chunked (rq_headers r) in
          let length :=
            match uv_http_get_header (rq_headers r) "x-amz-decoded-content-length" with
            | Some v => if aws then strtoull v else content_length
            | None => content_length
            end in
          inl (set_request u length content_type (user_meta_headers (rq_headers r)) aws)
    end.

(** The answer to an upload. *)
Inductive upload_answer :=
  | PutSuccess (etag version_id : string)
  | PutError (status : Z).

(** The pieces of the body, then the end of the request; an error drops the upload and the
    connection. [None] when the loop of the decoder runs out of fuel. *)
Fixpoint upload_pieces (u : upload) (pieces : list string) : option (Z * upload) :=
  match pieces with
  | [] => Some (0, u)
  | p :: pieces =>
      match s3_stream_upload_process u p with
      | Some (rc, u) => if rc =? 0 then upload_pieces u pieces else Some (rc, s3_stream_upload_abort u)
      | None => None
      end
  end.

Definition s3_stream_on_request_complete (u : upload) (s : us) : c_result (upload_answer * us) :=
  let* r := s3_stream_upload_complete u s in
  let '(rc, u, s) := r in
  Val (if rc =? 0 then PutSuccess (up_etag u) (up_version_id u) else PutError 500, s).

(** A request in the streaming handler, from its headers to its answer: it is left to the other
    handlers (with the status of an error already answered), the connection is dropped, or the
    upload is complete. [None] when the fuel is short. *)
Inductive put_outcome :=
  | NotTaken (error : option Z)
  | Dropped
  | Answered (answer : upload_answer) (s : us).

Definition streaming_put (r : http_request) (content_length : Z) (pieces : list string) (s : us)
    : option (c_result put_outcome) :=
  match s3_stream_on_request_start r content_length with
  | inr error => Some (Val (NotTaken error))
  | inl u =>
      match upload_pieces u pieces with
      | Some (rc, u) =>
          Some (if rc =? 0 then
                  let* res := s3_stream_on_request_complete u s in Val (Answered res.1 res.2)
                else Val Dropped)
      | None => None
      end
  end.
End Handler.

(** ** Raw data is kept *)

Lemma joined_snoc l s : joined (l ++ [s]) = joined l +:+ s.
Proof.
  induction l as [|x l IH]; cbn [joined app]; [by rewrite string_app_nil_r|]. by rewrite IH, string_app_assoc.
Qed.

(** What an upload has taken so far. *)
Record holds (u : upload) (data : string) : Prop := Holds {
  h_content : joined (up_chunks u) +:+ up_buffer u = data;
  h_full : Forall (λ c, strlen c = S3_STREAM_CHUNK_SIZE) (up_chunks u);
  h_part : (strlen (up_buffer u) < S3_STREAM_CHUNK_SIZE)%nat;
  h_hash : up_hash u = data;
  h_received : up_received u = Z.of_nat (strlen data)
}.

(** What a piece of the body does not change. *)
Definition request_of (u : upload) :=
  (up_bucket u, up_key u, up_content_type u, up_user_meta u, up_aborted u, up_aws u, up_version_id u).
Definition decoder_of (u : upload) := (up_remaining u, up_header u, up_state u).

Lemma chunk_size_pos : (0 < S3_STREAM_CHUNK_SIZE)%nat.
Proof. unfold S3_STREAM_CHUNK_SIZE. lia. Qed.

Lemma strlen_drop n s : strlen (str_drop n s) = (strlen s - n)%nat.
Proof. revert s. induction n as [|n IH]; intros s; [by destruct s|]. destruct s as [|c s]; [done|]. apply IH. Qed.

(** The buffer after some bytes, when it was not full before: everything is kept, in full
    chunks but for what stays in the buffer. *)
Lemma fill_buffer_keeps fuel u src :
  (strlen src ≤ fuel)%nat → (strlen (up_buffer u) < S3_STREAM_CHUNK_SIZE)%nat →
  Forall (λ c, strlen c = S3_STREAM_CHUNK_SIZE) (up_chunks u) →
  ∃ buffer chunks, fill_buffer fuel u src = set_data u (up_received u) buffer chunks (up_hash u) ∧
    joined chunks +:+ buffer = (joined (up_chunks u) +:+ up_buffer u) +:+ src ∧
    Forall (λ c, strlen c = S3_STREAM_CHUNK_SIZE) chunks ∧ (strlen buffer < S3_STREAM_CHUNK_SIZE)%nat.
Proof.
  pose proof chunk_size_pos as Hpos.
  revert u src. induction fuel as [|fuel IH]; intros u src Hf Hb Hc.
  - destruct src; [|cbn in Hf; lia]. exists (up_buffer u), (up_chunks u). rewrite string_app_nil_r. by destruct u.
  - cbn [fill_buffer]. destruct src as [|c src0] eqn:Es.
    { exists (up_buffer u), (up_chunks u). rewrite string_app_nil_r. by destruct u. }
    rewrite <- Es in *. assert (0 < strlen src)%nat by (rewrite Es; cbn; lia). clear Es. cbv zeta.
    set (k := Nat.min (strlen src) (S3_STREAM_CHUNK_SIZE - strlen (up_buffer u))).
    assert (strlen (strncpy k src) = k) as Hk by (apply strlen_strncpy; lia).
    assert (strlen (up_buffer u +:+ strncpy k src) = (strlen (up_buffer u) + k)%nat) as Hbl
      by (rewrite strlen_app; lia).
    assert (strlen (str_drop k src) ≤ fuel)%nat as Hf' by (rewrite strlen_drop; lia).
    destruct (_ <=? _)%nat eqn:Efull; [apply Nat.leb_le in Efull|apply Nat.leb_gt in Efull].
    + assert (flush_chunk_buffer (set_data u (up_received u) (up_buffer u +:+ strncpy k src) (up_chunks u) (up_hash u))
              = set_data u (up_received u) "" (up_chunks u ++ [up_buffer u +:+ strncpy k src]) (up_hash u)) as ->.
      { unfold flush_chunk_buffer. cbn [up_buffer set_data]. destruct (up_buffer u +:+ strncpy k src) eqn:E; [|done].
        exfalso. cbn in Hbl. lia. }
      edestruct IH as (b & l & -> & Hj & Hl & Hlt); [exact Hf'|cbn; lia| |].
      { cbn [up_chunks set_data]. apply Forall_app. split; [done|]. constructor; [lia|constructor]. }
      exists b, l. split_and!; [done| |done..]. rewrite Hj. cbn [up_chunks up_buffer set_data].
      rewrite joined_snoc, !string_app_nil_r, !string_app_assoc. by rewrite strncpy_drop.
    + edestruct IH as (b & l & -> & Hj & Hl & Hlt); [exact Hf'|cbn [up_buffer set_data]; lia|done|].
      exists b, l. split_and!; [done| |done..]. rewrite Hj. cbn [up_chunks up_buffer set_data].
      rewrite !string_app_assoc. by rewrite strncpy_drop.
Qed.

Definition MAX_OBJECT : Z := 2 ^ 64.

Lemma raw_data_kept u data src :
  holds u data → Z.of_nat (strlen (data +:+ src)) < MAX_OBJECT →
  holds (process_raw_data u src) (data +:+ src) ∧
  request_of (process_raw_data u src) = request_of u ∧ decoder_of (process_raw_data u src) = decoder_of u.
Proof.
  intros [Hcont Hfull Hpart Hhash Hrec] Hmax. unfold process_raw_data.
  edestruct (fill_buffer_keeps (strlen src)) as (b & l & -> & Hj & Hl & Hlt); [done|exact Hpart|exact Hfull|].
  cbn [up_chunks up_buffer up_received up_hash set_data] in *. split; [|by destruct u].
  split; cbn [up_chunks up_buffer up_received up_hash set_data]; [by rewrite Hj, Hcont|done|done|by rewrite Hhash|].
  rewrite Hrec. unfold u64. rewrite strlen_app in *. rewrite wrap_small; [lia|]. unfold in_range, MAX_OBJECT in *. lia.
Qed.

(** Pieces of a body that is not encoded. *)
Lemma raw_pieces_kept pieces : ∀ u data,
  holds u data → up_aborted u = false → up_aws u = false →
  Z.of_nat (strlen (data +:+ joined pieces)) < MAX_OBJECT →
  ∃ u', upload_pieces u pieces = Some (0, u') ∧ holds u' (data +:+ joined pieces) ∧ request_of u' = request_of u.
Proof.
  induction pieces as [|p pieces IH]; intros u data Hh Ha Hw Hmax.
  - exists u. cbn [joined]. by rewrite string_app_nil_r.
  - cbn [upload_pieces]. unfold s3_stream_upload_process. rewrite Ha, Hw. cbn [joined] in *.
    rewrite <- string_app_assoc in *.
    destruct (raw_data_kept u data p Hh) as (Hh' & Hr & Hd); [rewrite strlen_app in Hmax; lia|].
    change (0 =? 0) with true. cbv iota.
    destruct (IH (process_raw_data u p) (data +:+ p)) as (u' & -> & Hh'' & Hr''); [done| | |done|].
    + unfold request_of in Hr. congruence.
    + unfold request_of in Hr. congruence.
    + exists u'. split_and!; [done|done|congruence].
Qed.

(** ** The object is stored whole *)

Lemma reassemble_chunks fulls : ∀ last total offset,
  Forall (λ c, strlen c = S3_STREAM_CHUNK_SIZE) fulls → (strlen last ≤ S3_STREAM_CHUNK_SIZE)%nat →
  0 ≤ offset → total < MAX_OBJECT → total = offset + Z.of_nat (strlen (joined (fulls ++ [last]))) →
  reassemble total offset (fulls ++ [last]) = Val (joined (fulls ++ [last])).
Proof.
  induction fulls as [|c fulls IH]; intros last total offset Hf Hl Ho Hmax Ht; cbn [app reassemble joined] in *.
  - rewrite string_app_nil_r in *. unfold u64. rewrite wrap_small by (unfold in_range, MAX_OBJECT in *; lia).
    replace (total - offset) with (Z.of_nat (strlen last)) by lia.
    rewrite (proj2 (Z.leb_le _ _)), (proj2 (Z.leb_le _ _)) by lia. cbn [andb c_bind]. rewrite Nat2Z.id.
    by rewrite (strncpy_short (strlen last)), string_app_nil_r by done.
  - apply Forall_cons in Hf as [Hc Hf]. rewrite strlen_app in Ht.
    assert (∃ d ds, fulls ++ [last] = d :: ds) as (d & ds & Eds) by (destruct fulls; eauto).
    rewrite Eds. cbv zeta beta iota. rewrite <- Eds.
    rewrite (proj2 (Z.leb_le _ _)), (proj2 (Z.leb_le _ _)) by lia. cbn [andb]. rewrite (IH last total) by (done || lia).
    cbn [c_bind]. rewrite Nat2Z.id, <- Hc. by rewrite (strncpy_short (strlen c)) by done.
Qed.

(** The reassembled object. *)
Lemma flushed_object u data :
  holds u data → Z.of_nat (strlen data) < MAX_OBJECT →
  reassemble (up_received (flush_chunk_buffer u)) 0 (up_chunks (flush_chunk_buffer u)) = Val data.
Proof.
  intros [Hcont Hfull Hpart Hhash Hrec] Hmax. unfold flush_chunk_buffer. destruct (up_buffer u) as [|c b] eqn:Eb.
  - rewrite string_app_nil_r in Hcont. destruct (up_chunks u) as [|x l _] using rev_ind; [by rewrite <- Hcont|].
    apply Forall_app in Hfull as [Hfull Hx]. inversion_clear Hx. rewrite reassemble_chunks; [by rewrite Hcont|..];
      first [done | lia | rewrite Hcont; lia].
  - cbn [up_received up_chunks set_data]. rewrite <- Eb in *. clear Eb.
    assert (joined (up_chunks u ++ [up_buffer u]) = data) as E.
    { by rewrite joined_snoc. }
    rewrite reassemble_chunks; [by rewrite E|..]; first [done | lia | rewrite E; lia].
Qed.

(** ** AWS chunks *)

(** A number as a client writes it: hexadecimal digits, in either case, that fit in 64 bits. *)
Fixpoint all_hex (s : string) : bool :=
  match s with
  | String c s => match hex_digit c with Some _ => all_hex s | None => false end
  | EmptyString => true
  end.

(** The line before the data of a chunk: the size, and an extension such as the signature. *)
Record size_line (size ext : string) (n : Z) : Prop := SizeLine {
  sl_hex : all_hex size = true;
  sl_some : size ≠ "";
  sl_value : parse_hex 0 size = n;
  sl_fits : n ≤ ULLONG_MAX;
  sl_ext : ext = "" ∨ ∃ t, ext = String ";" t;
  sl_no_lf : no_char LF ext;
  sl_short : (strlen size + strlen ext ≤ 124)%nat
}.

Lemma hex_digit_plain c d : hex_digit c = Some d →
  isspace c = false ∧ c ≠ "-"%char ∧ c ≠ "+"%char ∧ c ≠ ";"%char ∧ c ≠ LF ∧ c ≠ CR ∧ c ≠ NUL ∧ c ≠ "x"%char ∧ c ≠ "X"%char.
Proof. intros H. by destruct c as [[] [] [] [] [] [] [] []]. Qed.

Lemma all_hex_no_char c s : all_hex s = true → (∀ d, hex_digit c ≠ Some d) → no_char c s.
Proof.
  intros Hs Hc. induction s as [|d s IH]; [done|]. cbn [all_hex] in Hs. destruct (hex_digit d) eqn:E; [|done].
  apply no_char_cons. split; [|by apply IH]. intros ->. by apply (Hc z).
Qed.

Lemma strtoull16_size pre size ext n :
  pre = "" ∨ pre = String LF "" → size_line size ext n → strtoull16 (pre +:+ size) = n.
Proof.
  intros Hpre [Hhex Hne Hv Hfit _ _ _]. unfold strtoull16.
  assert (skip_space (pre +:+ size) = size) as ->.
  { destruct size as [|c s]; [done|]. cbn [all_hex] in Hhex. destruct (hex_digit c) eqn:E; [|done].
    apply hex_digit_plain in E as (Hsp & _). by destruct Hpre as [-> | ->]; simpl; rewrite Hsp. }
  destruct size as [|c s]; [done|]. cbn [all_hex] in Hhex. destruct (hex_digit c) eqn:E; [|done].
  pose proof (hex_digit_plain _ _ E) as (_ & Hm & Hp & _).
  assert (read_sign (String c s) = (false, String c s)) as ->.
  { clear -Hm Hp. by destruct c as [[] [] [] [] [] [] [] []]. }
  match goal with |- saturate (parse_hex 0 ?d) false = n => assert (d = String c s) as -> end.
  { destruct (decide (c = "0"%char)) as [->|Hc0].
    - destruct s as [|x [|y s]]; [done..|]. cbn [all_hex] in Hhex. destruct (hex_digit x) eqn:Ex; [|done].
      apply hex_digit_plain in Ex as (_ & _ & _ & _ & _ & _ & _ & H1 & H2).
      by rewrite !bool_decide_eq_false_2.
    - clear -Hc0. destruct c as [[] [] [] [] [] [] [] []]; done || by destruct s as [|x [|y s]]. }
  rewrite Hv. unfold saturate. by rewrite (proj2 (Z.ltb_ge _ _)).
Qed.

(** Headers end in [CRLF] and not before. *)
Lemma header_complete_app b : header_complete (b +:+ CRLF) = true.
Proof.
  unfold header_complete. rewrite strlen_app. change (strlen CRLF) with 2%nat.
  rewrite (proj2 (Nat.leb_le _ _)) by lia. replace (_ + 2 - 2)%nat with (strlen b) by lia. rewrite str_drop_app. done.
Qed.

Lemma header_complete_last b c : header_complete (b +:+ String c "") = true → c = LF.
Proof.
  unfold header_complete. intros [_ H]%andb_true_iff. apply bool_decide_eq_true in H.
  pose proof (strncpy_drop (strlen (b +:+ String c "") - 2) (b +:+ String c "")) as E. rewrite H in E.
  apply (f_equal last_char) in E. by rewrite !last_char_app in E by done; injection E as <-.
Qed.

Lemma header_size_line pre size ext n :
  pre = "" ∨ pre = String LF "" → size_line size ext n → header_size (pre +:+ size +:+ ext +:+ CRLF) = n.
Proof.
  intros Hpre Hl. pose proof Hl as [Hhex _ _ _ Hext _ _].
  assert (no_char NUL (pre +:+ size) ∧ no_char ";" (pre +:+ size)) as [Hn Hs].
  { rewrite !no_char_app. split; (split; [by destruct Hpre as [-> | ->]|]); by apply all_hex_no_char. }
  unfold header_size. destruct Hext as [->|[t ->]].
  - change ("" +:+ CRLF) with CRLF. rewrite <- string_app_assoc. rewrite c_str_app by done.
    change (c_str CRLF) with CRLF. rewrite strchr_none_app by done. change (CSearch.strchr CRLF ";") with (@None (string * string)).
    cbv iota. rewrite strlen_app. change (strlen CRLF) with 2%nat.
    replace (strlen (pre +:+ size) + 2 - 2)%nat with (strlen (pre +:+ size)) by lia.
    rewrite strncpy_app, c_str_no_nul by done. by eapply strtoull16_size.
  - rewrite <- string_app_assoc. rewrite c_str_app by done.
    change (String ";" t +:+ CRLF) with (String ";" (t +:+ CRLF)).
    change (c_str (String ";" (t +:+ CRLF))) with (String ";" (c_str (t +:+ CRLF))).
    rewrite strchr_app by done. by eapply strtoull16_size.
Qed.

(** A chunk, and the text of a whole body: the chunks, the line of the last chunk, whose size
    is 0, and an empty line. *)
Record aws_chunk := AwsChunk { ac_size : string; ac_ext : string; ac_data : string }.

Definition chunk_ok (c : aws_chunk) : Prop :=
  size_line (ac_size c) (ac_ext c) (Z.of_nat (strlen (ac_data c))) ∧ ac_data c ≠ "".

Definition aws_body (fin : string * string) (l : list aws_chunk) : string :=
  joined ((λ c, ac_size c +:+ ac_ext c +:+ CRLF +:+ ac_data c +:+ CRLF) <$> l)
  +:+ fin.1 +:+ fin.2 +:+ CRLF +:+ CRLF.

Definition aws_data (l : list aws_chunk) : string := joined (ac_data <$> l).

Section Decoder.
Context (fin : string * string) (Hfin : size_line fin.1 fin.2 0).

(** What follows a line that gives the size [n], and the data in it. *)
Definition after_line (n : Z) (after out : string) : Prop :=
  (n = 0 ∧ after = CRLF ∧ out = "") ∨
  (∃ d l, n = Z.of_nat (strlen d) ∧ d ≠ "" ∧ Forall chunk_ok l ∧
     after = d +:+ CRLF +:+ aws_body fin l ∧ out = d +:+ aws_data l).

(** [awaits state remaining header rest out]: in this state, with [rest] still to come, the
    decoder has [out] still to deliver. *)
Inductive awaits : chunk_state → Z → string → string → string → Prop :=
  | aw_line rem pre h1 h2 size ext n after out :
      pre = "" ∨ pre = String LF "" → size_line size ext n → h1 +:+ h2 = size +:+ ext +:+ CRLF → h2 ≠ "" →
      after_line n after out → awaits ChunkHeader rem (pre +:+ h1) (h2 +:+ after) out
  | aw_lf rem l : Forall chunk_ok l → awaits ChunkHeader rem "" (String LF (aws_body fin l)) (aws_data l)
  | aw_data d l :
      d ≠ "" → Forall chunk_ok l →
      awaits ChunkData (Z.of_nat (strlen d)) "" (d +:+ CRLF +:+ aws_body fin l) (d +:+ aws_data l)
  | aw_trailer rem l : Forall chunk_ok l → awaits ChunkTrailer rem "" (CRLF +:+ aws_body fin l) (aws_data l)
  | aw_end rem h rest :
      (h, rest) ∈ [("", CRLF); ("", String LF ""); ("", ""); (String CR "", String LF ""); (String LF "", "")] →
      awaits ChunkHeader rem h rest "".

Lemma aws_body_line l : Forall chunk_ok l →
  ∃ size ext n after, size_line size ext n ∧ aws_body fin l = (size +:+ ext +:+ CRLF) +:+ after ∧
    after_line n after (aws_data l).
Proof using Hfin.
  destruct l as [|c l]; intros Hl.
  - exists fin.1, fin.2, 0, CRLF. split_and!; [done| |by left]. unfold aws_body. cbn [fmap list_fmap joined].
    change ("" +:+ ?x) with x. by rewrite !string_app_assoc.
  - apply Forall_cons in Hl as [[Hc Hne] Hl].
    exists (ac_size c), (ac_ext c), (Z.of_nat (strlen (ac_data c))), (ac_data c +:+ CRLF +:+ aws_body fin l).
    split_and!; [done| |].
    + unfold aws_body. cbn [fmap list_fmap joined]. by rewrite !string_app_assoc.
    + right. by exists (ac_data c), l.
Qed.

Lemma awaits_line pre rem l : pre = "" ∨ pre = String LF "" → Forall chunk_ok l →
  awaits ChunkHeader rem pre (aws_body fin l) (aws_data l).
Proof using Hfin.
  intros Hpre Hl. destruct (aws_body_line l Hl) as (size & ext & n & after & Hline & -> & Ha).
  rewrite <- (string_app_nil_r pre). eapply aw_line; [done|exact Hline|done| |done].
  intros E%(f_equal strlen). rewrite !strlen_app in E. change (strlen CRLF) with 2%nat in E. cbn in E. lia.
Qed.

Lemma only_at_end c a t b : no_char c b → a +:+ String c t = b +:+ String c "" → t = "".
Proof.
  intros Hb [(k & -> & E)|(k & -> & E)]%string_app_eq_inv.
  - apply (f_equal strlen) in E. rewrite strlen_app in E. destruct t; [done|]. cbn in E. lia.
  - destruct k as [|d k]; [by injection E as ->|]. injection E as <- _.
    apply no_char_app in Hb as [_ [? _]%no_char_cons]. done.
Qed.

Lemma size_line_no_lf size ext n : size_line size ext n → no_char LF (size +:+ ext +:+ String CR "").
Proof.
  intros [Hhex _ _ _ _ Hlf _]. rewrite !no_char_app. split_and!; [|done..].
  apply all_hex_no_char; [done|]. by vm_compute.
Qed.

(** What is left of the final empty line after some of it was dropped. *)
Lemma awaits_end_part dropped rest' : CRLF = dropped +:+ rest' → awaits ChunkHeader 0 "" rest' "".
Proof.
  intros E. apply aw_end. destruct dropped as [|d1 [|d2 dropped]].
  - change (CRLF = rest') in E. subst rest'. left.
  - change (String CR (String LF "") = String d1 rest') in E. injection E as _ <-. right. left.
  - change (String CR (String LF "") = String d1 (String d2 (dropped +:+ rest'))) in E.
    injection E as _ _ E. destruct dropped; [|done]. change ("" = rest') in E. subst rest'. right. right. left.
Qed.

(** A header byte. *)
Lemma header_step rem h c rest out :
  awaits ChunkHeader rem h (String c rest) out →
  (strlen h < 127)%nat ∧
  if header_complete (h +:+ String c "") then
    let n := header_size (h +:+ String c "") in
    if n =? 0 then out = "" ∧ ∀ dropped rest', rest = dropped +:+ rest' → awaits ChunkHeader 0 "" rest' ""
    else awaits ChunkData n "" rest out
  else awaits ChunkHeader rem (h +:+ String c "") rest out.
Proof using Hfin.
  intros Haw. inversion Haw as [rem' pre h1 h2 size ext n after out' Hpre Hline Hh Hne Ha|rem' l Hl| | |rem' h' rest' Hin]; subst.
  - destruct h2 as [|c' h2]; [done|].
    match goal with H : _ +:+ _ = String c rest |- _ => injection H as -> <- end.
    assert (strlen h1 < 126)%nat.
    { apply (f_equal strlen) in Hh. rewrite !strlen_app in Hh. change (strlen CRLF) with 2%nat in Hh.
      cbn in Hh. destruct Hline. lia. }
    split; [rewrite strlen_app; destruct Hpre as [-> | ->]; cbn; lia|].
    rewrite string_app_assoc. destruct h2 as [|c2 h2].
    + rewrite Hh. replace (pre +:+ size +:+ ext +:+ CRLF) with ((pre +:+ size +:+ ext) +:+ CRLF)
        by (by rewrite !string_app_assoc).
      rewrite header_complete_app, !string_app_assoc. cbv zeta. rewrite (header_size_line pre size ext n) by done.
      destruct Ha as [(-> & -> & ->)|(d & l & -> & Hd & Hl & -> & ->)].
      * change (0 =? 0) with true. cbv iota. split; [done|]. by apply awaits_end_part.
      * rewrite (proj2 (Z.eqb_neq _ _)); [by apply aw_data|]. destruct d; [done|]. cbn. lia.
    + assert (header_complete (pre +:+ h1 +:+ String c "") = false) as ->.
      { apply not_true_iff_false. rewrite <- string_app_assoc. intros ->%header_complete_last.
        replace (size +:+ ext +:+ CRLF) with ((size +:+ ext +:+ String CR "") +:+ String LF "") in Hh
          by (by rewrite !string_app_assoc).
        by apply only_at_end in Hh; [|by eapply size_line_no_lf]. }
      apply (aw_line rem pre (h1 +:+ String c "") (String c2 h2) size ext n); [done..| |done|done].
      by rewrite string_app_assoc.
  - split; [cbn; lia|]. cbn. by apply awaits_line; [right|].
  - repeat (apply elem_of_cons in Hin as [[= -> -> ->]|Hin]); try by apply elem_of_nil in Hin.
    + cbn. split; [lia|]. apply aw_end. right. right. right. left.
    + cbn. split; [lia|]. apply aw_end. do 4 right. left.
    + cbn. split; [lia|]. split; [done|]. intros dropped rest' E.
      destruct dropped; [|done]. change ("" = rest') in E. subst. apply aw_end. right. right. left.
Qed.

Lemma strncpy_prefix k s t : (k ≤ strlen s)%nat → strncpy k (s +:+ t) = strncpy k s.
Proof.
  revert s. induction k as [|k IH]; intros s Hk; [by destruct s, t|]. destruct s as [|c s]; [cbn in Hk; lia|].
  exact (f_equal (String c) (IH s (le_S_n _ _ Hk))).
Qed.

(** The turns left for a string in a state. *)
Definition turns (st : chunk_state) (src : string) : nat :=
  3 * strlen src + match st with ChunkHeader => 0 | ChunkTrailer => 1 | ChunkData => 2 end.

Lemma holds_aws u data rem h st : holds u data → holds (set_aws u rem h st) data.
Proof. intros []. by split. Qed.

(** A piece is taken in as much as it has, whatever state it finds the decoder in. *)
Definition takes_in (fuel : nat) : Prop := ∀ u src rest' out data,
  (turns (up_state u) src ≤ fuel)%nat →
  awaits (up_state u) (up_remaining u) (up_header u) (src +:+ rest') out →
  holds u data → Z.of_nat (strlen (data +:+ out)) < MAX_OBJECT →
  ∃ u' o1 o2, process_loop fuel u src = Some (0, u') ∧ out = o1 +:+ o2 ∧
    awaits (up_state u') (up_remaining u') (up_header u') rest' o2 ∧
    holds u' (data +:+ o1) ∧ request_of u' = request_of u.

(** A turn in the data. *)
Lemma data_awaits fuel u c src rest' out data :
  takes_in fuel → up_state u = ChunkData → (turns ChunkData (String c src) ≤ S fuel)%nat →
  awaits ChunkData (up_remaining u) (up_header u) (String c src +:+ rest') out →
  holds u data → Z.of_nat (strlen (data +:+ out)) < MAX_OBJECT →
  ∃ u' o1 o2, process_loop (S fuel) u (String c src) = Some (0, u') ∧ out = o1 +:+ o2 ∧
    awaits (up_state u') (up_remaining u') (up_header u') rest' o2 ∧
    holds u' (data +:+ o1) ∧ request_of u' = request_of u.
Proof using Hfin.
  intros IH Est Hf Haw Hh Hmax. cbn [process_loop]. rewrite Est. cbv zeta.
  inversion Haw as [| |d l Hd Hl Hst Hrem Hhd Hrest Hout| |]; subst out.
  set (k := Z.to_nat (Z.min (Z.of_nat (strlen (String c src))) (Z.of_nat (strlen d)))).
  assert (0 < k)%nat as Hk0 by (subst k; destruct d; [done|]; cbn; lia).
  rewrite (proj2 (Nat.ltb_lt _ _) Hk0).
  assert (k ≤ strlen (String c src))%nat as Hk by (subst k; lia).
  assert (∃ d2, d = strncpy k (String c src) +:+ d2 ∧ strlen d2 = (strlen d - k)%nat ∧
            str_drop k (String c src) +:+ rest' = d2 +:+ CRLF +:+ aws_body fin l) as (d2 & Ed & Hd2 & Erest).
  { exists (str_drop k d).
    assert (strncpy k d = strncpy k (String c src)) as Ek.
    { rewrite <- (strncpy_prefix k d (CRLF +:+ aws_body fin l)) by (subst k; lia).
      rewrite Hrest. by apply strncpy_prefix. }
    split_and!; [by rewrite <- Ek, strncpy_drop|apply strlen_drop|].
    rewrite <- (strncpy_drop k d), <- (strncpy_drop k (String c src)), !string_app_assoc, Ek in Hrest.
    by apply app_string_inj in Hrest. }
  set (p := strncpy k (String c src)) in *. assert (strlen p = k) as Hp by by apply strlen_strncpy.
  destruct (raw_data_kept u data p Hh) as (Hh' & Hr & Hdec).
  { rewrite Ed, !strlen_app in Hmax. rewrite strlen_app. lia. }
  injection Hdec as Hd_rem Hd_hd Hd_st. rewrite Hd_rem, Hd_hd, <- Hrem, <- Hhd.
  replace (Z.of_nat (strlen d) - Z.of_nat k) with (Z.of_nat (strlen d2)) by (subst k; lia).
  assert (strlen (str_drop k (String c src)) < strlen (String c src))%nat by (rewrite strlen_drop; lia).
  edestruct (IH (set_aws (process_raw_data u p) (Z.of_nat (strlen d2)) ""
                   (if Z.of_nat (strlen d2) =? 0 then ChunkTrailer else ChunkData))
               (str_drop k (String c src)) rest' (d2 +:+ aws_data l) (data +:+ p))
    as (u' & o1 & o2 & -> & Eo & Haw' & Hh2 & Hr2).
  - cbn [up_state set_aws]. unfold turns in *. destruct (_ =? 0); lia.
  - cbn [up_state up_remaining up_header set_aws]. rewrite Erest. destruct d2 as [|c2 d2].
    + by apply aw_trailer.
    + rewrite (proj2 (Z.eqb_neq _ _)) by (cbn; lia). by apply aw_data.
  - by apply holds_aws.
  - rewrite Ed, <- !string_app_assoc in Hmax. by rewrite <- !string_app_assoc.
  - exists u', (p +:+ o1), o2. split_and!; [done| |done| |].
    + by rewrite Ed, !string_app_assoc, Eo.
    + by rewrite <- string_app_assoc.
    + rewrite Hr2. transitivity (request_of (process_raw_data u p)); [by destruct (process_raw_data u p)|done].
Qed.

Lemma trailer_awaits fuel u c src rest' out data :
  takes_in fuel → up_state u = ChunkTrailer → (turns ChunkTrailer (String c src) ≤ S fuel)%nat →
  awaits ChunkTrailer (up_remaining u) (up_header u) (String c src +:+ rest') out →
  holds u data → Z.of_nat (strlen (data +:+ out)) < MAX_OBJECT →
  ∃ u' o1 o2, process_loop (S fuel) u (String c src) = Some (0, u') ∧ out = o1 +:+ o2 ∧
    awaits (up_state u') (up_remaining u') (up_header u') rest' o2 ∧
    holds u' (data +:+ o1) ∧ request_of u' = request_of u.
Proof using Hfin.
  intros IH Est Hf Haw Hh Hmax. cbn [process_loop]. rewrite Est. cbv zeta.
  inversion Haw as [| | |rem l Hl Hst Hrem Hhd [Hc Hrest]|]; subst out.
  rewrite bool_decide_eq_true_2 by done. unfold turns in Hf.
  set (v := set_aws u (up_remaining u) "" ChunkHeader).
  assert (holds v data) as Hv by by apply holds_aws.
  assert (request_of v = request_of u) as Hrv by by destruct u.
  rewrite <- Hrv. destruct src as [|d src].
  - change (String LF (aws_body fin l) = rest') in Hrest. subst rest'.
    apply (IH v "" _ (aws_data l) data); [cbn; lia| |done|done].
    by apply aw_lf.
  - change (String LF (aws_body fin l) = String d (src +:+ rest')) in Hrest. injection Hrest as <- Hrest.
    rewrite bool_decide_eq_true_2 by done.
    apply (IH v src rest' (aws_data l) data); [unfold turns, strlen in *; cbn in *; lia| |done|done].
    rewrite <- Hrest. apply awaits_line; [by left|done].
Qed.

Lemma process_awaits fuel : takes_in fuel.
Proof using Hfin.
  induction fuel as [|fuel IH]; intros u src rest' out data Hf Haw Hh Hmax;
    (destruct src as [|c src]; [exists u, "", out; by rewrite string_app_nil_r; destruct u|]).
  { unfold turns in Hf. cbn in Hf. lia. }
  destruct (up_state u) eqn:Est.
  - cbn [process_loop]. rewrite Est. change (String c src +:+ rest') with (String c (src +:+ rest')) in Haw.
    assert (turns ChunkData src ≤ fuel ∧ turns ChunkHeader src ≤ fuel)%nat as [Hf1 Hf2]
      by (unfold turns in *; cbn [strlen String.length] in Hf; unfold strlen; lia).
    apply header_step in Haw as [Hshort Haw]. rewrite (proj2 (Nat.leb_gt _ _)) by done.
    destruct (header_complete _).
    + cbv zeta in *. destruct (_ =? 0) eqn:En.
      * apply Z.eqb_eq in En. destruct Haw as [-> Hend]. rewrite En. eexists _, "", "".
        split_and!; [done|done|by apply (Hend src)|by rewrite string_app_nil_r; apply holds_aws|by destruct u].
      * destruct (IH (set_aws (set_aws u (header_size (up_header u +:+ String c "")) "" ChunkHeader)
                        (header_size (up_header u +:+ String c "")) "" ChunkData) src rest' out data)
          as (u' & o1 & o2 & ? & ? & ? & ? & Hr); [done..|by do 2 apply holds_aws|done|].
        exists u', o1, o2. split_and!; [done..|]. rewrite Hr. by destruct u.
    + destruct (IH (set_aws u (up_remaining u) (up_header u +:+ String c "") ChunkHeader) src rest' out data)
        as (u' & o1 & o2 & ? & ? & ? & ? & Hr); [done..|by apply holds_aws|done|].
      exists u', o1, o2. split_and!; [done..|]. rewrite Hr. by destruct u.
  - by apply data_awaits.
  - by apply trailer_awaits.
Qed.
End Decoder.

(** When nothing is to come, everything was delivered. *)
Lemma awaits_nothing fin st rem h out : awaits fin st rem h "" out → out = "".
Proof.
  intros Haw. remember "" as rest eqn:E in Haw. destruct Haw as [rem pre h1 h2|rem l|d l Hd|rem l|]; try done.
  - by destruct h2.
  - by destruct d.
Qed.

(** Pieces of an encoded body, cut anywhere. *)
Lemma aws_pieces_kept fin pieces : size_line fin.1 fin.2 0 → ∀ u out data,
  up_aborted u = false → up_aws u = true →
  awaits fin (up_state u) (up_remaining u) (up_header u) (joined pieces) out →
  holds u data → Z.of_nat (strlen (data +:+ out)) < MAX_OBJECT →
  ∃ u', upload_pieces u pieces = Some (0, u') ∧ holds u' (data +:+ out) ∧ request_of u' = request_of u.
Proof.
  intros Hfin. induction pieces as [|p pieces IH]; intros u out data Ha Hw Haw Hh Hmax.
  - apply awaits_nothing in Haw as ->. exists u. by rewrite string_app_nil_r.
  - cbn [upload_pieces joined] in *. unfold s3_stream_upload_process. rewrite Ha, Hw.
    destruct (process_awaits fin Hfin (3 * strlen p + 3) u p (joined pieces) out data)
      as (u1 & o1 & o2 & E & -> & Haw1 & Hh1 & Hr1);
      [unfold turns; destruct (up_state u); lia|done..|].
    unfold process_aws_chunked. rewrite E. change (0 =? 0) with true. cbv iota. rewrite <- string_app_assoc in *.
    pose proof Hr1 as Hr2. unfold request_of in Hr2. injection Hr2 as ? ? ? ? Ha1 Hw1 ?.
    destruct (IH u1 o2 (data +:+ o1)) as (u' & -> & Hh' & Hr'); [congruence..|done|done|done|].
    exists u'. split_and!; [done|done|congruence].
Qed.

(** How the body of an upload carries the data. *)
Definition body_of (aws : bool) (body data : string) : Prop :=
  if aws then
    ∃ fin chunks, size_line fin.1 fin.2 0 ∧ Forall chunk_ok chunks ∧
      body = aws_body fin chunks ∧ data = aws_data chunks
  else body = data.

Section Properties.
Context `{Md5} `{UploadStore}.

(** The content type that an upload stores: at most 127 bytes of the header. *)
Definition upload_type (headers : list (string * string)) : option string :=
  match uv_http_get_header headers "Content-Type" with
  | Some ct => match strncpy 127 ct with EmptyString => None | t => Some t end
  | None => None
  end.

(** A PUT of an object starts an upload, which has taken nothing and knows what the request
    says. *)
Lemma started_upload r len b k :
  rq_method r = "PUT" → object_url b k (rq_uri r) → starts_with (rq_uri r) "/_internal/" = false →
  ∃ u, s3_stream_on_request_start r len = inl u ∧
    holds u "" ∧ up_aborted u = false ∧ up_aws u = is_aws_chunked (rq_headers r) ∧
    up_state u = ChunkHeader ∧ up_header u = "" ∧ up_version_id u = "" ∧
    up_bucket u = b ∧ up_key u = k ∧ up_user_meta u = user_meta_headers (rq_headers r) ∧
    match up_content_type u with EmptyString => None | ct => Some ct end = upload_type (rq_headers r).
Proof.
  intros Hm Hu Hi. destruct (object_url_read _ _ _ Hu) as [Ht _].
  destruct (object_url_names _ _ _ Hu) as (Hb & Hk & Hbl & Hkl).
  unfold s3_stream_on_request_start, strcmp_eq. rewrite Hm, Hi, Ht, bool_decide_eq_true_2 by done. cbn [negb].
  rewrite !bool_decide_eq_false_2 by done. cbn [orb]. eexists. split; [done|].
  split_and!; try done.
  - split; [done|constructor|apply chunk_size_pos|done|done].
  - cbn. apply strncpy_short. unfold strlen in *. lia.
  - cbn. apply strncpy_short. unfold strlen in *. lia.
  - cbn. unfold upload_type. by destruct (uv_http_get_header _ _).
Qed.

Lemma store_object_request u u' data s : request_of u = request_of u' → store_object u data s = store_object u' data s.
Proof. unfold request_of, store_object. intros [= -> -> -> -> _ _ ->]. done. Qed.

(** The end of an upload that has taken [data]. *)
Lemma complete_stores u data s :
  holds u data → up_aborted u = false → Z.of_nat (strlen data) < MAX_OBJECT →
  s3_stream_on_request_complete u s
  = (let* r := store_object u data s in
     let '(rc, version_id, s) := r in
     Val (if rc =? 0 then PutSuccess (format_etag (md5 data)) version_id else PutError 500, s)).
Proof.
  intros Hh Ha Hmax. unfold s3_stream_on_request_complete, s3_stream_upload_complete. rewrite Ha. cbv zeta.
  rewrite (flushed_object u data Hh Hmax). cbn [c_bind].
  assert (request_of (flush_chunk_buffer u) = request_of u ∧ up_hash (flush_chunk_buffer u) = up_hash u) as [Hr Hhash]
    by (unfold flush_chunk_buffer; by destruct (up_buffer u), u).
  rewrite (store_object_request _ u _ _ Hr), Hhash, (h_hash _ _ Hh).
  destruct (store_object u data s) as [[[rc v] s']|]; [|done]. cbn [c_bind]. by destruct (rc =? 0).
Qed.

End Properties.

(** ** A store, and what the handler accepts *)

(** Objects by bucket and key; a versioned put frees the metadata it was given. *)
#[local] Instance example_store : UploadStore := {|
  us := gmap (string * string) string;
  us_versioning _ bucket := strcmp_eq bucket "versioned";
  us_put bucket key data s := Val (0, <[(bucket, key) := data]> s);
  us_put_with_metadata bucket key data _ _ s := Val (0, <[(bucket, key) := data]> s);
  us_put_versioned bucket key data _ _ s := Val (0, "v1", true, <[(bucket, key) := data]> s)
|}.

#[local] Instance example_md5 : Md5 := {| md5 data := replicate 16 (Z.of_nat (strlen data)) |}.

Definition example_put (url : string) (headers : list (string * string)) (pieces : list string) : option (c_result (option (string * string * string))) :=
  match streaming_put (HttpRequest "PUT" url headers "") 0 pieces ∅ with
  | Some (Val (Answered (PutSuccess etag _) s)) =>
      Some (Val (match map_to_list s with [(bk, data)] => Some (bk.1, bk.2, data) | _ => None end))
  | Some Undef => Some Undef
  | _ => None
  end.

Definition example_aws_header : string * string := ("X-Amz-Decoded-Content-Length", "7").

Definition example_chunks : list aws_chunk :=
  [AwsChunk "5" ";chunk-signature=ab" "hello"; AwsChunk "02" ";chunk-signature=cd" "12"].

(** The body cut inside a size, inside the data and between a carriage return and a line feed. *)
Definition example_pieces : list string :=
  ["5;chunk-sig"; "nature=ab" +:+ CRLF +:+ "he"; "llo" +:+ String CR ""; String LF "0";
   "2;chunk-signature=cd" +:+ CRLF +:+ "12" +:+ CRLF +:+ "0;chunk-signature=ef" +:+ CRLF +:+ String CR "";
   String LF ""].

Lemma example_url : object_url "photos" "a cat" "/photos/a%20cat?x-id=PutObject".
Proof.
  apply (object_url_intro "photos" "a cat" "photos" "a%20cat" "?x-id=PutObject").
  - repeat (apply enc_plain; [done..|]). apply enc_nil.
  - apply enc_plain; [done..|]. apply (enc_hex "2" "0" 2 0); [done..|].
    repeat (apply enc_plain; [done..|]). apply enc_nil.
  - done.
  - done.
  - done.
  - done.
  - done.
  - right. by exists "x-id=PutObject".
  - done.
  - done.
  - cbn. lia.
  - cbn. lia.
Qed.


(** No signature is asked for: an upload is stored on the word of whoever sends it. *)
Lemma upload_without_signature :
  example_put "/photos/cat" [] ["data"] = Some (Val (Some ("photos", "cat", "data"))).
Proof. vm_compute. reflexivity. Qed.

(** A part of a multipart upload is taken as the object itself. *)
Lemma part_replaces_object :
  example_put "/photos/cat?partNumber=2&uploadId=x" [] ["part"] = Some (Val (Some ("photos", "cat", "part"))).
Proof. vm_compute. reflexivity. Qed.

(** A body that ends in the middle of a chunk is stored as far as it came. *)
Lemma cut_upload_accepted :
  example_put "/photos/cat" [example_aws_header] ["5;chunk-signature=ab" +:+ CRLF +:+ "he"]
  = Some (Val (Some ("photos", "cat", "he"))).
Proof. vm_compute. reflexivity. Qed.

(** The rest of the piece in which the last chunk is announced is skipped, but the decoder goes
    on with the next one: a checksum trailer that is cut after [x-] reads as a chunk of 10
    bytes, and what follows it is added to the object. *)
Lemma cut_trailer_added :
  example_put "/photos/cat" [example_aws_header]
    ["2" +:+ CRLF +:+ "hi" +:+ CRLF +:+ "0" +:+ CRLF +:+ "x-"; "amz-checksum-crc32:AAAAAA==" +:+ CRLF +:+ CRLF]
  = Some (Val (Some ("photos", "cat", "hi" +:+ CRLF))).
Proof. vm_compute. reflexivity. Qed.

(** An upload with a content type to a bucket with versioning frees the type twice. *)
Lemma versioned_upload_frees_twice :
  example_put "/versioned/cat" [("Content-Type", "image/png")] ["data"] = Some Undef.
Proof. vm_compute. reflexivity. Qed.
