(* ===== verification/Credentials.v ===== *)
(** * The keys of the clients (src/src/s3/credentials.c)

    The list of access keys with their secrets, in memory and in a JSON file that is written
    after every change and read when a server starts. Every operation runs under one lock. *)

From S2P Require Import Prelude CInt CString DiskIO Json XlMeta.
From Stdlib Require Import Ascii.

Local Open Scope c_scope.

Definition MAX_CREDENTIALS : nat := Z.to_nat 1000.
Definition DEFAULT_CREDENTIALS_FILE : string := ".buckets.sys/credentials.json".

Record credential := Credential {
  cr_access_key : string;
  cr_secret_key : string;
  cr_name : string;
  cr_policy : string;
  cr_created : Z;
  cr_last_used : Z;
  cr_enabled : bool
}.

(** The globals. The array is NULL when the capacity is 0. *)
Record cred_store := CredStore {
  g_credentials : list credential;
  g_credential_capacity : Z;
  g_credentials_file : string;
  g_initialized : bool
}.

Definition cred_globals : cred_store := CredStore [] 0 "" false.

Definition set_credentials (g : cred_store) (l : list credential) : cred_store :=
  CredStore l (g_credential_capacity g) (g_credentials_file g) (g_initialized g).

Definition g_default_credentials : list credential :=
  [Credential "minioadmin" "minioadmin" "Default MinIO-compatible admin" "readwrite" 0 0 true;
   Credential "buckets-admin" "buckets-secret-key-change-me" "Default Buckets admin" "readwrite" 0 0 true].

(** ** Keys *)

(** Character [i] of a key, from a byte of /dev/urandom or a value of [rand()]. *)
Definition charset_at (charset : string) (v : Z) : ascii :=
  default (ascii_of_nat 0) (String.get (Z.to_nat (v mod Z.of_nat (strlen charset))) charset).

Definition access_charset : string := "ABCDEFGHIJKLMNOPQRSTUVWXYZ0123456789".
Definition secret_charset : string := "ABCDEFGHIJKLMNOPQRSTUVWXYZabcdefghijklmnopqrstuvwxyz0123456789+/".

Definition generate_key (charset : string) (n : nat) (values : nat → Z) : string :=
  String.string_of_list_ascii ((λ i, charset_at charset (values i)) <$> seq 0 n).

Definition generate_access_key (values : nat → Z) : string := generate_key access_charset 20 values.
Definition generate_secret_key (values : nat → Z) : string := generate_key secret_charset 40 values.

Fixpoint find_credential (l : list credential) (access_key : string) : option credential :=
  match l with
  | [] => None
  | c :: l => if strcmp_eq (cr_access_key c) access_key then Some c else find_credential l access_key
  end.

(** ** The file *)

Definition credential_json (c : credential) : json :=
  JObject [("access_key", JString (cr_access_key c)); ("secret_key", JString (cr_secret_key c));
           ("name", JString (cr_name c)); ("policy", JString (cr_policy c));
           ("created", JNumber (cr_created c)); ("last_used", JNumber (cr_last_used c));
           ("enabled", JBool (cr_enabled c))].

Definition credentials_document (l : list credential) : json :=
  JObject [("credentials", JArray (credential_json <$> l)); ("version", JNumber 1)].

(** A time is read from a double; a value that [time_t] cannot hold is undefined. *)
Definition read_time (obj : json) (key : string) : c_result Z :=
  match get_nocase obj key with Some (JNumber z) => i64c z | _ => Val 0 end.

(** One entry; without its two keys it is skipped. *)
Definition credential_from_json (cred : json) : c_result (option credential) :=
  match get_nocase cred "access_key", get_nocase cred "secret_key" with
  | Some (JString access_key), Some (JString secret_key) =>
      let* created := read_time cred "created" in
      let* last_used := read_time cred "last_used" in
      Val (Some (Credential (strncpy 127 access_key) (strncpy 127 secret_key) (read_chars cred "name" 255)
                   (match get_nocase cred "policy" with
                    | Some (JString policy) => strncpy 63 policy
                    | _ => "readwrite"
                    end)
                   created last_used
                   (match get_nocase cred "enabled" with
                    | None | Some (JBool true) => true
                    | Some _ => false
                    end)))
  | _, _ => Val None
  end.

Fixpoint read_credentials (items : list json) : c_result (list credential) :=
  match items with
  | [] => Val []
  | j :: items =>
      let* c := credential_from_json j in
      let* l := read_credentials items in
      Val (match c with Some c => c :: l | None => l end)
  end.

Section Store.
Context `{CJson}.

Definition credentials_to_json (l : list credential) : option string := cJSON_Print (credentials_document l).

(** Whether the text was understood, and the store. *)
Definition credentials_from_json (text : string) (g : cred_store) : c_result (bool * cred_store) :=
  match cJSON_Parse text with
  | None => Val (false, g)
  | Some root =>
      match get_nocase root "credentials" with
      | Some (JArray items) =>
          let count := Z.of_nat (length items) in
          let capacity := if g_credential_capacity g <? count then count + 16 else g_credential_capacity g in
          let* l := read_credentials items in
          Val (true, CredStore l capacity (g_credentials_file g) (g_initialized g))
      | _ => Val (false, g)
      end
  end.

(** What every change ends with; the result of the write is not looked at. *)
Definition save_credentials (env : write_env) (pid : N) (g : cred_store) (fs : fs_t) : fs_t :=
  match credentials_to_json (g_credentials g) with
  | Some text => fs_after fs (buckets_atomic_write env pid fs (Some (g_credentials_file g)) (Some text))
  | None => fs
  end.

(** ** Operations *)

Definition credentials_path (data_dir : option string) : string :=
  match data_dir with
  | Some (String _ _ as dir) => snprintf 512 (dir +:+ "/" +:+ DEFAULT_CREDENTIALS_FILE)
  | _ => strncpy 511 DEFAULT_CREDENTIALS_FILE
  end.

(** [now i] is the [i]-th reading of the clock. The directory that [mkdir] makes is part of
    what the environment of the write answers. *)
Definition buckets_credentials_init (env : write_env) (pid : N) (read_ok : bool) (now : nat → Z)
    (data_dir : option string) (g : cred_store) (fs : fs_t) : c_result (buckets_error_t * cred_store * fs_t) :=
  if g_initialized g then Val (BUCKETS_OK, g, fs)
  else
    let g := CredStore (g_credentials g) 32 (credentials_path data_dir) false in
    let ready (g : cred_store) := CredStore (g_credentials g) (g_credential_capacity g) (g_credentials_file g) true in
    match buckets_atomic_read read_ok fs (Some (g_credentials_file g)) with
    | (BUCKETS_OK, Some data) =>
        let* r := credentials_from_json data g in
        Val (BUCKETS_OK, ready r.2, fs)
    | _ =>
        let defaults :=
          imap (λ i c, Credential (cr_access_key c) (cr_secret_key c) (cr_name c) (cr_policy c) (now i)
                         (cr_last_used c) (cr_enabled c)) g_default_credentials in
        let g := set_credentials g (g_credentials g ++ defaults) in
        Val (BUCKETS_OK, ready g, save_credentials env pid g fs)
    end.

Definition buckets_credentials_cleanup (g : cred_store) : cred_store :=
  CredStore [] 0 (g_credentials_file g) false.

(** NULL is [None]. *)
Definition buckets_credentials_get_secret (g : cred_store) (access_key : option string) (secret_len : nat)
    : buckets_error_t * option string :=
  match access_key with
  | None => (BUCKETS_ERR_INVALID_ARG, None)
  | Some access_key =>
      if (secret_len =? 0)%nat then (BUCKETS_ERR_INVALID_ARG, None)
      else
        match find_credential (g_credentials g) access_key with
        | None => (BUCKETS_ERR_NOT_FOUND, None)
        | Some cred =>
            if negb (cr_enabled cred) then (BUCKETS_ERR_ACCESS_DENIED, None)
            else (BUCKETS_OK, Some (strncpy (secret_len - 1) (cr_secret_key cred)))
        end
  end.

Definition buckets_credentials_validate (g : cred_store) (access_key : option string) : buckets_error_t :=
  match access_key with
  | None => BUCKETS_ERR_INVALID_ARG
  | Some access_key =>
      match find_credential (g_credentials g) access_key with
      | None => BUCKETS_ERR_NOT_FOUND
      | Some cred => if cr_enabled cred then BUCKETS_OK else BUCKETS_ERR_ACCESS_DENIED
      end
  end.

(** A change of the first credential of that key. *)
Fixpoint update_credential (f : credential → credential) (access_key : string) (l : list credential)
    : list credential :=
  match l with
  | [] => []
  | c :: l => if strcmp_eq (cr_access_key c) access_key then f c :: l else c :: update_credential f access_key l
  end.

Definition set_last_used (now : Z) (c : credential) : credential :=
  Credential (cr_access_key c) (cr_secret_key c) (cr_name c) (cr_policy c) (cr_created c) now (cr_enabled c).

Definition set_enabled_flag (enabled : bool) (c : credential) : credential :=
  Credential (cr_access_key c) (cr_secret_key c) (cr_name c) (cr_policy c) (cr_created c) (cr_last_used c) enabled.

Definition buckets_credentials_touch (now : Z) (g : cred_store) (access_key : option string) : cred_store :=
  match access_key with
  | None => g
  | Some access_key => set_credentials g (update_credential (set_last_used now) access_key (g_credentials g))
  end.

Definition buckets_credentials_get_policy (g : cred_store) (access_key : option string) (policy_len : nat)
    : buckets_error_t * option string :=
  match access_key with
  | None => (BUCKETS_ERR_INVALID_ARG, None)
  | Some access_key =>
      if (policy_len =? 0)%nat then (BUCKETS_ERR_INVALID_ARG, None)
      else
        match find_credential (g_credentials g) access_key with
        | None => (BUCKETS_ERR_NOT_FOUND, None)
        | Some cred => (BUCKETS_OK, Some (strncpy (policy_len - 1) (cr_policy cred)))
        end
  end.

(** The [do] loop: a key, and how many were tried. [fuel] is the number of further attempts
    that are allowed. *)
Fixpoint fresh_key (values : nat → nat → Z) (l : list credential) (fuel attempts : nat) : string * nat :=
  let key := generate_access_key (values attempts) in
  match find_credential l key, fuel with
  | Some _, S fuel => fresh_key values l fuel (S attempts)
  | _, _ => (key, S attempts)
  end.

(** The values that the keys are made of: those of every attempt, those of the secret. *)
Record key_source := KeySource { ks_access : nat → nat → Z; ks_secret : nat → Z }.

Definition new_credential (now : nat → Z) (name policy : option string) (access_key secret_key : string) : credential :=
  Credential (strncpy 127 access_key) (strncpy 127 secret_key)
    (match name with
     | Some (String _ _ as name) => strncpy 255 name
     | _ => snprintf 256 ("Key created " +:+ pretty (now 0%nat))
     end)
    (match policy with Some (String _ _ as policy) => strncpy 63 policy | _ => "readwrite" end)
    (now 1%nat) 0 true.

Definition buckets_credentials_create (env : write_env) (pid : N) (now : nat → Z) (keys : key_source)
    (name policy : option string) (access_key_len secret_key_len : nat) (g : cred_store) (fs : fs_t)
    : c_result (buckets_error_t * option (string * string) * cred_store * fs_t) :=
  if (access_key_len <? 21)%nat || (secret_key_len <? 41)%nat then Val (BUCKETS_ERR_INVALID_ARG, None, g, fs)
  else
    let count := length (g_credentials g) in
    if (MAX_CREDENTIALS <=? count)%nat then Val (BUCKETS_ERR_LIMIT, None, g, fs)
    else
      let capacity :=
        if g_credential_capacity g <=? Z.of_nat count then g_credential_capacity g * 2 else g_credential_capacity g in
      let g := CredStore (g_credentials g) capacity (g_credentials_file g) (g_initialized g) in
      let '(access_key, attempts) := fresh_key (ks_access keys) (g_credentials g) 99 0 in
      if (100 <=? attempts)%nat then Val (BUCKETS_ERR_INTERNAL, None, g, fs)
      else if capacity <=? Z.of_nat count then Undef
      else
        let secret_key := generate_secret_key (ks_secret keys) in
        let g := set_credentials g (g_credentials g ++ [new_credential now name policy access_key secret_key]) in
        Val (BUCKETS_OK, Some (strncpy (access_key_len - 1) access_key, strncpy (secret_key_len - 1) secret_key),
             g, save_credentials env pid g fs).

(** The list without the first credential of that key. *)
Fixpoint remove_credential (access_key : string) (l : list credential) : list credential :=
  match l with
  | [] => []
  | c :: l => if strcmp_eq (cr_access_key c) access_key then l else c :: remove_credential access_key l
  end.

Definition buckets_credentials_delete (env : write_env) (pid : N) (access_key : option string)
    (g : cred_store) (fs : fs_t) : buckets_error_t * cred_store * fs_t :=
  match access_key with
  | None => (BUCKETS_ERR_INVALID_ARG, g, fs)
  | Some access_key =>
      match find_credential (g_credentials g) access_key with
      | None => (BUCKETS_ERR_NOT_FOUND, g, fs)
      | Some _ =>
          let g := set_credentials g (remove_credential access_key (g_credentials g)) in
          (BUCKETS_OK, g, save_credentials env pid g fs)
      end
  end.

Definition buckets_credentials_set_enabled (env : write_env) (pid : N) (access_key : option string)
    (enabled : bool) (g : cred_store) (fs : fs_t) : buckets_error_t * cred_store * fs_t :=
  match access_key with
  | None => (BUCKETS_ERR_INVALID_ARG, g, fs)
  | Some access_key =>
      match find_credential (g_credentials g) access_key with
      | None => (BUCKETS_ERR_NOT_FOUND, g, fs)
      | Some _ =>
          let g := set_credentials g (update_credential (set_enabled_flag enabled) access_key (g_credentials g)) in
          (BUCKETS_OK, g, save_credentials env pid g fs)
      end
  end.

(** The secrets are left out. *)
Definition listed_json (c : credential) : json :=
  JObject [("access_key", JString (cr_access_key c)); ("name", JString (cr_name c));
           ("policy", JString (cr_policy c)); ("created", JNumber (cr_created c));
           ("last_used", JNumber (cr_last_used c)); ("enabled", JBool (cr_enabled c))].

Definition buckets_credentials_list (g : cred_store) : option string :=
  cJSON_Print (JObject [("credentials", JArray (listed_json <$> g_credentials g));
                        ("count", JNumber (Z.of_nat (length (g_credentials g))))]).

Definition buckets_credentials_count (g : cred_store) : Z := Z.of_nat (length (g_credentials g)).
End Store.

(** ** The map a store stands for *)

(** The secret, the policy and whether the key is enabled, by access key. *)
Abbreviation key_map := (gmap string (string * string * bool)).

Definition key_entry (c : credential) : string * string * bool := (cr_secret_key c, cr_policy c, cr_enabled c).

Fixpoint view (l : list credential) : key_map :=
  match l with [] => ∅ | c :: l => <[cr_access_key c := key_entry c]> (view l) end.

Definition keys_of (l : list credential) : list string := cr_access_key <$> l.

Lemma view_find l key : view l !! key = key_entry <$> find_credential l key.
Proof.
  induction l as [|c l IH]; [done|]. cbn [view find_credential]. unfold strcmp_eq. case_bool_decide as E.
  - subst key. by rewrite lookup_insert_eq.
  - by rewrite lookup_insert_ne.
Qed.

Lemma find_keys l key : is_Some (find_credential l key) ↔ key ∈ keys_of l.
Proof.
  unfold keys_of. induction l as [|c l IH]; cbn [find_credential].
  - split; [by intros [? ?]|by intros ?%elem_of_nil].
  - rewrite fmap_cons, elem_of_cons, <- IH. unfold strcmp_eq. case_bool_decide as E; [|naive_solver].
    split; [by left|by eexists].
Qed.

Lemma view_dom l : dom (view l) =@{gset string} list_to_set (keys_of l).
Proof.
  induction l as [|c l IH]; [apply dom_empty_L|]. cbn [view]. rewrite dom_insert_L, IH. done.
Qed.

Lemma view_size l : NoDup (keys_of l) → size (view l) = length l.
Proof.
  induction l as [|c l IH]; [intros _; apply map_size_empty|]. unfold keys_of. rewrite fmap_cons.
  intros [Hc Hl]%NoDup_cons. cbn [view]. rewrite map_size_insert_None, (IH Hl); [done|].
  apply not_elem_of_dom. rewrite view_dom. by rewrite elem_of_list_to_set.
Qed.

Lemma view_app l c : cr_access_key c ∉ keys_of l → view (l ++ [c]) = <[cr_access_key c := key_entry c]> (view l).
Proof.
  unfold keys_of. induction l as [|d l IH]; [done|]. rewrite fmap_cons, not_elem_of_cons. intros [Hd Hl].
  cbn [app view]. rewrite (IH Hl). by apply insert_insert_ne.
Qed.

Lemma view_remove l key : NoDup (keys_of l) → view (remove_credential key l) = delete key (view l).
Proof.
  unfold keys_of. induction l as [|c l IH]; [intros _; symmetry; apply delete_empty|]. rewrite fmap_cons.
  intros [Hc Hl]%NoDup_cons. cbn [remove_credential view]. unfold strcmp_eq. case_bool_decide as E.
  - subst key. rewrite delete_insert_id; [done|]. apply not_elem_of_dom. rewrite view_dom. by rewrite elem_of_list_to_set.
  - cbn [view]. rewrite (IH Hl). by rewrite delete_insert_ne.
Qed.

Lemma keys_remove l key k : k ∈ keys_of (remove_credential key l) → k ∈ keys_of l.
Proof.
  unfold keys_of. induction l as [|c l IH]; [done|]. cbn [remove_credential]. rewrite fmap_cons, elem_of_cons.
  split_if; [by right|]. rewrite fmap_cons, elem_of_cons. intros [?|?]; [by left|right; by apply IH].
Qed.

Lemma NoDup_remove l key : NoDup (keys_of l) → NoDup (keys_of (remove_credential key l)).
Proof.
  induction l as [|c l IH]; [done|]. unfold keys_of. rewrite fmap_cons. intros [Hc Hl]%NoDup_cons.
  cbn [remove_credential]. split_if; [done|]. rewrite fmap_cons. apply NoDup_cons.
  split; [|by apply IH]. intros Hin. by apply Hc, (keys_remove l key).
Qed.

Lemma keys_update f l key : (∀ c, cr_access_key (f c) = cr_access_key c) →
  keys_of (update_credential f key l) = keys_of l.
Proof.
  intros Hf. unfold keys_of. induction l as [|c l IH]; [done|]. cbn [update_credential].
  split_if; rewrite !fmap_cons; [by rewrite Hf|by rewrite IH].
Qed.

Lemma view_update f l key : (∀ c, cr_access_key (f c) = cr_access_key c) → NoDup (keys_of l) →
  ∀ c, find_credential l key = Some c → view (update_credential f key l) = <[key := key_entry (f c)]> (view l).
Proof.
  intros Hf. induction l as [|d l IH]; [done|]. unfold keys_of. rewrite fmap_cons. intros [Hd Hl]%NoDup_cons c.
  cbn [find_credential update_credential]. unfold strcmp_eq. case_bool_decide as E.
  - intros [= ->]. subst key. cbn [view]. by rewrite Hf, insert_insert_eq.
  - intros Hc. cbn [view]. rewrite (IH Hl c Hc). by apply insert_insert_ne.
Qed.

Lemma update_length f l key : length (update_credential f key l) = length l.
Proof. induction l as [|c l IH]; [done|]. cbn [update_credential]. split_if; cbn [length]; lia. Qed.

Lemma remove_length l key : (length (remove_credential key l) ≤ length l)%nat.
Proof. induction l as [|c l IH]; [done|]. cbn [remove_credential]. split_if; cbn [length]; lia. Qed.

Lemma Forall_update (P : credential → Prop) f l key :
  (∀ c, P c → P (f c)) → Forall P l → Forall P (update_credential f key l).
Proof. intros Hf. induction 1; cbn [update_credential]; [constructor|]. split_if; constructor; auto. Qed.

Lemma Forall_remove (P : credential → Prop) l key : Forall P l → Forall P (remove_credential key l).
Proof. induction 1; cbn [remove_credential]; [constructor|]. split_if; [done|]. by constructor. Qed.

(** ** The file holds the store *)

(** Fields that fit the arrays, times that a double holds. *)
Record credential_ok (c : credential) : Prop := CredentialOk {
  co_access : (strlen (cr_access_key c) ≤ 127)%nat;
  co_secret : (strlen (cr_secret_key c) ≤ 127)%nat;
  co_name : (strlen (cr_name c) ≤ 255)%nat;
  co_policy : (strlen (cr_policy c) ≤ 63)%nat;
  co_created : is_exact (cr_created c);
  co_last_used : is_exact (cr_last_used c)
}.

Lemma i64c_exact z : is_exact z → i64c z = Val z.
Proof.
  intros Hz. apply i64c_Val. split; [|done]. unfold is_exact in Hz. unfold is_i64.
  change (2 ^ 53) with 9007199254740992 in Hz. lia.
Qed.

Lemma credential_read_back c : credential_ok c → credential_from_json (credential_json c) = Val (Some c).
Proof.
  destruct c as [a s n p c l e]. intros [Ha Hs Hn Hp Hc Hl]. cbn [cr_access_key cr_secret_key cr_name cr_policy cr_created cr_last_used] in *.
  unfold credential_from_json, read_time, read_chars. set (j := credential_json _).
  change (get_nocase j "access_key") with (Some (JString a)). change (get_nocase j "secret_key") with (Some (JString s)).
  change (get_nocase j "name") with (Some (JString n)). change (get_nocase j "policy") with (Some (JString p)).
  change (get_nocase j "created") with (Some (JNumber c)). change (get_nocase j "last_used") with (Some (JNumber l)).
  change (get_nocase j "enabled") with (Some (JBool e)). cbv iota.
  rewrite (i64c_exact _ Hc), (i64c_exact _ Hl). cbn [c_bind].
  rewrite !strncpy_short by done. by destruct e.
Qed.

Lemma credentials_read_back l : Forall credential_ok l → read_credentials (credential_json <$> l) = Val l.
Proof.
  induction 1 as [|c l Hc _ IH]; [done|]. rewrite fmap_cons. cbn [read_credentials].
  by rewrite (credential_read_back c Hc), IH.
Qed.

Lemma document_printable l : Forall credential_ok l → json_printable (credentials_document l).
Proof.
  intros Hl. exists 3%nat. split; [lia|]. unfold credentials_document. apply json_ok_object.
  apply fields_ok_cons; [|repeat constructor; cbn; unfold is_exact; lia].
  apply json_ok_array, Forall_fmap. eapply Forall_impl; [exact Hl|]. intros c [_ _ _ _ Hc Hu].
  apply json_ok_object. repeat apply fields_ok_cons; done || constructor.
Qed.

(** A write that succeeds. *)
Lemma write_ok_lookup pid fs path data :
  fs_after fs (buckets_atomic_write write_env_ok pid fs (Some path) (Some data)) !! path = Some data.
Proof.
  destruct (buckets_atomic_write write_env_ok pid fs (Some path) (Some data)) as [err st] eqn:Ew.
  pose proof Ew as Hw. apply atomic_write_lookup in Hw as (_ & Hl & _). apply Hl.
  unfold buckets_atomic_write, write_env_ok in Ew. cbn in Ew. rewrite Nat.eqb_refl in Ew. by injection Ew.
Qed.

(** What a restart does not keep. *)
Definition forget_used (l : list credential) : list credential := set_last_used 0 <$> l.

Lemma view_forget l : view (forget_used l) = view l.
Proof. induction l as [|c l IH]; [done|]. cbn [forget_used fmap list_fmap view]. by rewrite <- IH. Qed.

Lemma keys_forget l : keys_of (forget_used l) = keys_of l.
Proof. unfold keys_of, forget_used. rewrite <- list_fmap_compose. done. Qed.

Lemma forget_touch now key l : forget_used (update_credential (set_last_used now) key l) = forget_used l.
Proof.
  induction l as [|c l IH]; [done|]. cbn [update_credential]. unfold forget_used in *.
  split_if; rewrite !fmap_cons; [done|by rewrite IH].
Qed.

Lemma forget_length l l' : forget_used l = forget_used l' → length l = length l'.
Proof. intros E%(f_equal length). unfold forget_used in E. by rewrite !length_fmap in E. Qed.

Section History.
Context `{CJsonLaws} (prints : ∀ j, is_Some (cJSON_Print j)).
Context (data_dir : option string).

(** The file gives the store back, but for when the keys were last used. *)
Definition saved (fs : fs_t) (l : list credential) : Prop :=
  ∃ l' text, fs !! credentials_path data_dir = Some text ∧
    cJSON_Parse text = Some (credentials_document l') ∧ Forall credential_ok l' ∧ forget_used l' = forget_used l.

Record cred_inv (g : cred_store) (fs : fs_t) : Prop := CredInv {
  ci_init : g_initialized g = true;
  ci_file : g_credentials_file g = credentials_path data_dir;
  ci_nodup : NoDup (keys_of (g_credentials g));
  ci_fields : Forall credential_ok (g_credentials g);
  ci_capacity : Z.of_nat (length (g_credentials g)) ≤ g_credential_capacity g ∧ 0 < g_credential_capacity g;
  ci_saved : saved fs (g_credentials g)
}.

Lemma save_saved pid g fs :
  g_credentials_file g = credentials_path data_dir → Forall credential_ok (g_credentials g) →
  saved (save_credentials write_env_ok pid g fs) (g_credentials g).
Proof using All.
  intros Hf Hok. unfold save_credentials, credentials_to_json.
  destruct (prints (credentials_document (g_credentials g))) as [text Htext]. rewrite Htext.
  exists (g_credentials g), text. rewrite <- Hf. split_and!; [by apply write_ok_lookup| |done|done].
  eapply cjson_parse_print; [by apply document_printable|done].
Qed.

(** A start on a saved file. *)
Lemma init_loads pid now g fs l :
  g_initialized g = false → saved fs l → NoDup (keys_of l) →
  ∃ g', buckets_credentials_init write_env_ok pid true now data_dir g fs = Val (BUCKETS_OK, g', fs) ∧
    cred_inv g' fs ∧ forget_used (g_credentials g') = forget_used l.
Proof using All.
  intros Hg (l' & text & Hfs & Hparse & Hok & Hl) Hnd. unfold buckets_credentials_init. rewrite Hg. cbv zeta.
  cbn [g_credentials_file buckets_atomic_read]. rewrite Hfs. unfold credentials_from_json. rewrite Hparse.
  change (get_nocase (credentials_document l') "credentials") with (Some (JArray (credential_json <$> l'))).
  cbv iota. rewrite (credentials_read_back l' Hok). cbn [c_bind g_credential_capacity snd g_credentials g_credentials_file].
  eexists. split; [done|]. split; [|done].
  split; cbn [g_initialized g_credentials_file g_credentials g_credential_capacity]; try done.
  - by rewrite <- (keys_forget l'), Hl, keys_forget.
  - rewrite length_fmap. split_if; lia.
  - by exists l', text.
Qed.

(** The first start, without a file. *)
Lemma init_creates pid now fs :
  fs !! credentials_path data_dir = None → is_exact (now 0%nat) → is_exact (now 1%nat) →
  ∃ g fs', buckets_credentials_init write_env_ok pid true now data_dir cred_globals fs = Val (BUCKETS_OK, g, fs') ∧
    cred_inv g fs' ∧ view (g_credentials g) = view g_default_credentials.
Proof using All.
  intros Hfs Ht0 Ht1. unfold buckets_credentials_init. cbn [g_initialized cred_globals]. cbv zeta.
  cbn [g_credentials_file buckets_atomic_read]. rewrite Hfs. do 2 eexists. split; [done|].
  assert (Forall credential_ok
    (imap (λ i c, Credential (cr_access_key c) (cr_secret_key c) (cr_name c) (cr_policy c) (now i)
                         (cr_last_used c) (cr_enabled c)) g_default_credentials)) as Hok.
  { repeat (constructor; [split; cbn; first [lia | done | unfold is_exact; lia]|]). constructor. }
  split; [|done]. split; cbn [g_initialized g_credentials_file g_credentials g_credential_capacity set_credentials app];
    [done|done| |exact Hok|cbn; lia|].
  - apply (bool_decide_unpack (NoDup ["minioadmin"; "buckets-admin"])). by vm_compute.
  - by apply save_saved.
Qed.

(** ** Histories *)

(** A call, or a restart of the server. *)
Inductive cred_call :=
  | CreateKey (now : nat → Z) (keys : key_source) (name policy : option string)
  | DeleteKey (access_key : string)
  | EnableKey (access_key : string) (enabled : bool)
  | TouchKey (now : Z) (access_key : string)
  | GetSecret (access_key : string)
  | GetPolicy (access_key : string)
  | Restart (now : nat → Z).

(** The code, and the keys or the text that are handed out. *)
Definition cred_answer : Type := buckets_error_t * option (string * string) * option string.

Definition run_call (pid : N) (call : cred_call) (g : cred_store) (fs : fs_t)
    : c_result (cred_answer * cred_store * fs_t) :=
  match call with
  | CreateKey now keys name policy =>
      let* r := buckets_credentials_create write_env_ok pid now keys name policy 128 128 g fs in
      let '(rc, out, g, fs) := r in Val (rc, out, None, g, fs)
  | DeleteKey key =>
      let '(rc, g, fs) := buckets_credentials_delete write_env_ok pid (Some key) g fs in Val (rc, None, None, g, fs)
  | EnableKey key enabled =>
      let '(rc, g, fs) := buckets_credentials_set_enabled write_env_ok pid (Some key) enabled g fs in
      Val (rc, None, None, g, fs)
  | TouchKey now key => Val (BUCKETS_OK, None, None, buckets_credentials_touch now g (Some key), fs)
  | GetSecret key => let '(rc, s) := buckets_credentials_get_secret g (Some key) 128 in Val (rc, None, s, g, fs)
  | GetPolicy key => let '(rc, s) := buckets_credentials_get_policy g (Some key) 64 in Val (rc, None, s, g, fs)
  | Restart now =>
      let* r := buckets_credentials_init write_env_ok pid true now data_dir (buckets_credentials_cleanup g) fs in
      let '(rc, g, fs) := r in Val (rc, None, None, g, fs)
  end.

(** Every call by a process of its own number. *)
Fixpoint run_calls (calls : list (N * cred_call)) (g : cred_store) (fs : fs_t)
    : c_result (list cred_answer * cred_store * fs_t) :=
  match calls with
  | [] => Val ([], g, fs)
  | (pid, call) :: calls =>
      let* r := run_call pid call g fs in
      let '(answer, g, fs) := r in
      let* r := run_calls calls g fs in
      let '(answers, g, fs) := r in Val (answer :: answers, g, fs)
  end.

(** What a call does to the map of keys, and what it answers. *)
Inductive spec_call : key_map → cred_call → cred_answer → key_map → Prop :=
  | spec_created m now keys name policy i entry_policy :
      (size m < MAX_CREDENTIALS)%nat → (i < 99)%nat →
      let access_key := generate_access_key (ks_access keys i) in
      let secret_key := generate_secret_key (ks_secret keys) in
      m !! access_key = None →
      entry_policy = (match policy with Some (String _ _ as p) => strncpy 63 p | _ => "readwrite" end) →
      spec_call m (CreateKey now keys name policy) (BUCKETS_OK, Some (access_key, secret_key), None)
        (<[access_key := (secret_key, entry_policy, true)]> m)
  | spec_full m now keys name policy :
      (MAX_CREDENTIALS ≤ size m)%nat →
      spec_call m (CreateKey now keys name policy) (BUCKETS_ERR_LIMIT, None, None) m
  | spec_unlucky m now keys name policy :
      (∀ i, (i < 99)%nat → is_Some (m !! generate_access_key (ks_access keys i))) →
      spec_call m (CreateKey now keys name policy) (BUCKETS_ERR_INTERNAL, None, None) m
  | spec_deleted m key e :
      m !! key = Some e → spec_call m (DeleteKey key) (BUCKETS_OK, None, None) (delete key m)
  | spec_enabled m key b s p b' :
      m !! key = Some (s, p, b') →
      spec_call m (EnableKey key b) (BUCKETS_OK, None, None) (<[key := (s, p, b)]> m)
  | spec_unknown m call key :
      m !! key = None → call ∈ [DeleteKey key; EnableKey key true; EnableKey key false; GetSecret key; GetPolicy key] →
      spec_call m call (BUCKETS_ERR_NOT_FOUND, None, None) m
  | spec_secret m key s p : m !! key = Some (s, p, true) → spec_call m (GetSecret key) (BUCKETS_OK, None, Some s) m
  | spec_disabled m key s p :
      m !! key = Some (s, p, false) → spec_call m (GetSecret key) (BUCKETS_ERR_ACCESS_DENIED, None, None) m
  | spec_policy m key s p b : m !! key = Some (s, p, b) → spec_call m (GetPolicy key) (BUCKETS_OK, None, Some p) m
  | spec_touch m now key : spec_call m (TouchKey now key) (BUCKETS_OK, None, None) m
  | spec_restart m now : spec_call m (Restart now) (BUCKETS_OK, None, None) m.

Inductive spec_calls : key_map → list (N * cred_call) → list cred_answer → key_map → Prop :=
  | spec_nil m : spec_calls m [] [] m
  | spec_cons m pid call answer m1 calls answers m2 :
      spec_call m call answer m1 → spec_calls m1 calls answers m2 →
      spec_calls m ((pid, call) :: calls) (answer :: answers) m2.

(** The clock gives times that a double holds. *)
Definition clock_ok (call : cred_call) : Prop :=
  match call with
  | CreateKey now _ _ _ => is_exact (now 1%nat)
  | TouchKey now _ => is_exact now
  | _ => True
  end.

Lemma strlen_generate charset n values : strlen (generate_key charset n values) = n.
Proof using Type.
  unfold generate_key. generalize 0%nat. induction n as [|n IH]; intros k; [done|].
  exact (f_equal S (IH (S k))).
Qed.

(** The search for a key: the first attempt whose key is free, or 100 attempts. *)
Lemma fresh_key_spec values l fuel : ∀ k,
  let r := fresh_key values l fuel k in
  (∃ i, (k ≤ i < k + fuel)%nat ∧ r = (generate_access_key (values i), S i) ∧
     find_credential l (generate_access_key (values i)) = None) ∨
  (r.2 = S (k + fuel) ∧ ∀ i, (k ≤ i < k + fuel)%nat → is_Some (find_credential l (generate_access_key (values i)))).
Proof using Type.
  induction fuel as [|fuel IH]; intros k; cbv zeta; cbn [fresh_key].
  - right. destruct (find_credential _ _); (split; [cbn; lia|lia]).
  - destruct (find_credential l (generate_access_key (values k))) as [c|] eqn:Ef.
    + destruct (IH (S k)) as [(i & Hi & -> & Hf)|[Hr Hall]].
      * left. exists i. split; [lia|done].
      * right. split; [lia|]. intros i Hi. destruct (decide (i = k)) as [->|]; [by rewrite Ef|]. apply Hall. lia.
    + left. exists k. split; [lia|done].
Qed.

(** A change that is saved. *)
Lemma changed_inv pid g fs l cap :
  cred_inv g fs → NoDup (keys_of l) → Forall credential_ok l → Z.of_nat (length l) ≤ cap ∧ 0 < cap →
  let g' := CredStore l cap (g_credentials_file g) (g_initialized g) in
  cred_inv g' (save_credentials write_env_ok pid g' fs).
Proof using All.
  intros [Hi Hf _ _ _ _] Hnd Hok Hcap g'. split; [done|done|done|done|done|]. by apply save_saved.
Qed.

Lemma find_ok l key c : Forall credential_ok l → find_credential l key = Some c → credential_ok c.
Proof using Type.
  induction 1 as [|d l Hd _ IH]; [done|]. cbn [find_credential]. split_if; [by intros [= <-]|done].
Qed.

Lemma new_credential_ok now name policy access_key secret_key :
  (strlen access_key ≤ 127)%nat → (strlen secret_key ≤ 127)%nat → is_exact (now 1%nat) →
  credential_ok (new_credential now name policy access_key secret_key).
Proof using Type.
  intros Ha Hs Hn. split; cbn [cr_access_key cr_secret_key cr_name cr_policy cr_created cr_last_used new_credential].
  - apply length_strncpy.
  - apply length_strncpy.
  - destruct name as [[|c name]|]; [|apply length_strncpy|]; apply (length_strncpy 255).
  - destruct policy as [[|c policy]|]; [cbn; lia|apply length_strncpy|cbn; lia].
  - done.
  - unfold is_exact. lia.
Qed.

Lemma create_step pid now keys name policy g fs :
  cred_inv g fs → is_exact (now 1%nat) →
  ∃ answer g' fs', run_call pid (CreateKey now keys name policy) g fs = Val (answer, g', fs') ∧ cred_inv g' fs' ∧
    spec_call (view (g_credentials g)) (CreateKey now keys name policy) answer (view (g_credentials g')).
Proof using All.
  intros Hinv Hnow. pose proof Hinv as [Hi Hf Hnd Hok Hcap Hs]. cbn [run_call]. unfold buckets_credentials_create.
  change ((128 <? 21)%nat || (128 <? 41)%nat) with false. cbv iota zeta.
  destruct (_ <=? _)%nat eqn:Efull; [apply Nat.leb_le in Efull|apply Nat.leb_gt in Efull].
  { do 3 eexists. split; [done|]. split; [done|]. apply spec_full. by rewrite view_size. }
  pose proof (fresh_key_spec (ks_access keys) (g_credentials g) 99 0) as Hfresh. cbv zeta in Hfresh.
  cbn [g_credentials]. destruct (fresh_key _ _ _ _) as [access_key attempts] eqn:Ef.
  set (cap := if g_credential_capacity g <=? Z.of_nat (length (g_credentials g)) then _ else _).
  assert (Z.of_nat (length (g_credentials g)) < cap) as Hcap'.
  { subst cap. destruct (_ <=? _) eqn:E; [apply Z.leb_le in E|apply Z.leb_gt in E]; lia. }
  destruct Hfresh as [(i & Hi99 & [= -> ->] & Hfree)|[Hatt Hall]].
  2:{ cbn [snd] in Hatt. rewrite (proj2 (Nat.leb_le _ _)) by lia. do 3 eexists. split; [done|]. split.
      - split; [done|done|done|done| |done]. cbn [g_credentials g_credential_capacity]. lia.
      - cbn [g_credentials]. apply spec_unlucky. intros i Hi99. rewrite view_find.
        destruct (Hall i) as [c Hc]; [lia|]. rewrite Hc. by eexists. }
  rewrite (proj2 (Nat.leb_gt _ _)), (proj2 (Z.leb_gt _ _)) by lia.
  set (access_key := generate_access_key (ks_access keys i)) in *.
  set (secret_key := generate_secret_key (ks_secret keys)) in *.
  assert (strlen access_key = 20 ∧ strlen secret_key = 40)%nat as [Hla Hls] by (split; apply strlen_generate).
  rewrite !strncpy_short by (unfold strlen in *; lia).
  assert (cr_access_key (new_credential now name policy access_key secret_key) = access_key
          ∧ cr_secret_key (new_credential now name policy access_key secret_key) = secret_key) as [Ena Ens].
  { unfold new_credential. cbn [cr_access_key cr_secret_key]. rewrite !strncpy_short by (unfold strlen in *; lia). done. }
  assert (access_key ∉ keys_of (g_credentials g)) as Hnew.
  { intros Hin. apply find_keys in Hin as [c Hc]. congruence. }
  cbn [c_bind set_credentials g_credentials g_credential_capacity g_credentials_file g_initialized].
  do 3 eexists. split; [done|]. split.
  - unfold set_credentials. cbn [g_credentials g_credential_capacity g_credentials_file g_initialized].
    apply (changed_inv pid g fs (g_credentials g ++ [new_credential now name policy access_key secret_key]) cap);
      [done| | |rewrite length_app; cbn [length]; lia].
    + unfold keys_of. rewrite fmap_app, NoDup_app. split_and!; [done| |apply NoDup_singleton].
      intros k Hk [-> | []%elem_of_nil]%elem_of_cons. rewrite Ena in Hk. done.
    + apply Forall_app. split; [done|]. constructor; [|constructor]. apply new_credential_ok; [lia|lia|done].
  - cbn [g_credentials set_credentials]. rewrite view_app by (by rewrite Ena). rewrite Ena. unfold key_entry. rewrite Ens.
    apply (spec_created _ now keys name policy i); [by rewrite view_size|lia| |done].
    change (view (g_credentials g) !! access_key = None). by rewrite view_find, Hfree.
Qed.

(** The calls that change one key. *)
Lemma update_step pid g fs key f c :
  cred_inv g fs → (∀ c, cr_access_key (f c) = cr_access_key c) → (∀ c, credential_ok c → credential_ok (f c)) →
  find_credential (g_credentials g) key = Some c →
  let g' := set_credentials g (update_credential f key (g_credentials g)) in
  cred_inv g' (save_credentials write_env_ok pid g' fs) ∧
  view (g_credentials g') = <[key := key_entry (f c)]> (view (g_credentials g)).
Proof using All.
  intros Hinv Hk Hf Hc g'. pose proof Hinv as [Hi Hfile Hnd Hok Hcap Hs]. split.
  - apply changed_inv; [done|by rewrite keys_update|by apply Forall_update|by rewrite update_length].
  - by apply view_update.
Qed.

Lemma delete_step pid g fs key :
  cred_inv g fs →
  let g' := set_credentials g (remove_credential key (g_credentials g)) in
  cred_inv g' (save_credentials write_env_ok pid g' fs) ∧
  view (g_credentials g') = delete key (view (g_credentials g)).
Proof using All.
  intros Hinv g'. pose proof Hinv as [Hi Hfile Hnd Hok Hcap Hs]. split; [|by apply view_remove].
  apply changed_inv; [done|by apply NoDup_remove|by apply Forall_remove|].
  pose proof (remove_length (g_credentials g) key). lia.
Qed.

(** What a touch changes is not saved. *)
Lemma touch_step now key g fs :
  cred_inv g fs → is_exact now →
  cred_inv (buckets_credentials_touch now g (Some key)) fs ∧
  view (g_credentials (buckets_credentials_touch now g (Some key))) = view (g_credentials g).
Proof using All.
  intros [Hi Hfile Hnd Hok Hcap (l' & text & H1 & H2 & H3 & H4)] Hn. unfold buckets_credentials_touch. split.
  - split; cbn [set_credentials g_initialized g_credentials_file g_credentials g_credential_capacity]; try done.
    + by rewrite keys_update.
    + apply Forall_update; [|done]. by intros c [].
    + by rewrite update_length.
    + exists l', text. split_and!; try done. by rewrite forget_touch.
  - cbn [set_credentials g_credentials]. by rewrite <- view_forget, forget_touch, view_forget.
Qed.

Lemma call_step pid call g fs :
  cred_inv g fs → clock_ok call →
  ∃ answer g' fs', run_call pid call g fs = Val (answer, g', fs') ∧ cred_inv g' fs' ∧
    spec_call (view (g_credentials g)) call answer (view (g_credentials g')).
Proof using All.
  intros Hinv Hclock. pose proof Hinv as [Hi Hfile Hnd Hok Hcap Hs].
  destruct call as [now keys name policy|key|key enabled|now key|key|key|now].
  - by apply create_step.
  - cbn [run_call]. unfold buckets_credentials_delete. pose proof (view_find (g_credentials g) key) as Hv.
    destruct (find_credential (g_credentials g) key) as [c|]; cbn in Hv; do 3 eexists; (split; [done|]).
    + destruct (delete_step pid g fs key Hinv) as [? ->]. split; [done|]. by eapply spec_deleted.
    + split; [done|]. eapply spec_unknown; [exact Hv|left].
  - cbn [run_call]. unfold buckets_credentials_set_enabled. pose proof (view_find (g_credentials g) key) as Hv.
    destruct (find_credential (g_credentials g) key) as [c|] eqn:Ec; cbn in Hv; do 3 eexists; (split; [done|]).
    + destruct (update_step pid g fs key (set_enabled_flag enabled) c Hinv) as [? ->]; [done|by intros ? []|done|].
      split; [done|]. destruct c. by eapply spec_enabled.
    + split; [done|]. eapply spec_unknown; [exact Hv|]. destruct enabled; [right; left|right; right; left].
  - cbn [run_call]. do 3 eexists. split; [done|]. destruct (touch_step now key g fs Hinv Hclock) as [? ->].
    split; [done|constructor].
  - cbn [run_call]. unfold buckets_credentials_get_secret. change (128 =? 0)%nat with false. cbv iota.
    pose proof (view_find (g_credentials g) key) as Hv.
    destruct (find_credential (g_credentials g) key) as [c|] eqn:Ec; cbn in Hv.
    + pose proof (find_ok _ _ _ Hok Ec) as [_ Hsec _ _ _ _]. unfold key_entry in Hv.
      destruct (cr_enabled c); cbn [negb]; do 3 eexists; (split; [done|]); (split; [done|]).
      * rewrite (strncpy_short (128 - 1)) by exact Hsec. by eapply spec_secret.
      * by eapply spec_disabled.
    + do 3 eexists. split; [done|]. split; [done|]. eapply spec_unknown; [exact Hv|do 3 right; left].
  - cbn [run_call]. unfold buckets_credentials_get_policy. change (64 =? 0)%nat with false. cbv iota.
    pose proof (view_find (g_credentials g) key) as Hv.
    destruct (find_credential (g_credentials g) key) as [c|] eqn:Ec; cbn in Hv; do 3 eexists; (split; [done|]); (split; [done|]).
    + pose proof (find_ok _ _ _ Hok Ec) as [_ _ _ Hpol _ _]. unfold key_entry in Hv.
      rewrite (strncpy_short (64 - 1)) by exact Hpol. by eapply spec_policy.
    + eapply spec_unknown; [exact Hv|do 4 right; left].
  - cbn [run_call].
    destruct (init_loads pid now (buckets_credentials_cleanup g) fs (g_credentials g)) as (g' & -> & Hinv' & E);
      [done..|].
    do 3 eexists. split; [done|]. split; [done|].
    rewrite <- (view_forget (g_credentials g')), E, view_forget. constructor.
Qed.

Lemma calls_follow calls : ∀ g fs,
  cred_inv g fs → Forall (λ c, clock_ok c.2) calls →
  ∃ answers g' fs', run_calls calls g fs = Val (answers, g', fs') ∧ cred_inv g' fs' ∧
    spec_calls (view (g_credentials g)) calls answers (view (g_credentials g')).
Proof using All.
  induction calls as [|[pid call] calls IH]; intros g fs Hinv Hc.
  - do 3 eexists. split; [done|]. split; [done|constructor].
  - apply Forall_cons in Hc as [Hcall Hcalls]. cbn [run_calls].
    destruct (call_step pid call g fs Hinv Hcall) as (answer & g1 & fs1 & -> & Hinv1 & Hspec). cbn [c_bind].
    destruct (IH g1 fs1 Hinv1 Hcalls) as (answers & g2 & fs2 & -> & Hinv2 & Hspecs). cbn [c_bind].
    do 3 eexists. split; [done|]. split; [done|]. by econstructor.
Qed.

(** C11: The keys survive every restart: from the first start on an empty disk, any sequence of
    creations, deletions, changes, uses and restarts answers exactly as a map from access
    keys to secrets, policies and flags would, on which a restart does nothing; keys are
    unique, a new key is never one in use, the limit of 1000 is kept, a disabled key gives no
    secret, and no call leaves the array. The system calls of the writes succeed. *)
Theorem credentials_refine_durable_map pid now fs calls :
  fs !! credentials_path data_dir = None → is_exact (now 0%nat) → is_exact (now 1%nat) →
  Forall (λ c, clock_ok c.2) calls →
  ∃ g0 fs0 answers g fs',
    buckets_credentials_init write_env_ok pid true now data_dir cred_globals fs = Val (BUCKETS_OK, g0, fs0) ∧
    run_calls calls g0 fs0 = Val (answers, g, fs') ∧
    spec_calls (view g_default_credentials) calls answers (view (g_credentials g)) ∧
    NoDup (keys_of (g_credentials g)).
Proof using All.
  intros Hfs Ht0 Ht1 Hc. destruct (init_creates pid now fs Hfs Ht0 Ht1) as (g0 & fs0 & -> & Hinv & Hv).
  destruct (calls_follow calls g0 fs0 Hinv Hc) as (answers & g & fs' & Hrun & Hinv' & Hspec).
  exists g0, fs0, answers, g, fs'. rewrite Hv in Hspec. split_and!; [done|done|done|by destruct Hinv'].
Qed.
End History.

(** ** What the code does not look at *)

Section Findings.
Context `{CJson}.

(** A file that is there but cannot be read is replaced by the two default keys. *)
Lemma unreadable_file_replaced pid now dir text fs doc_text :
  fs !! credentials_path dir = Some text →
  (∀ j, cJSON_Print j = Some (doc_text j)) →
  ∃ g fs', buckets_credentials_init write_env_ok pid false now dir cred_globals fs = Val (BUCKETS_OK, g, fs') ∧
    keys_of (g_credentials g) = ["minioadmin"; "buckets-admin"] ∧
    fs' !! credentials_path dir = Some (doc_text (credentials_document (g_credentials g))).
Proof.
  intros Hfs Hprint. unfold buckets_credentials_init. cbn [g_initialized cred_globals]. cbv zeta.
  cbn [g_credentials_file buckets_atomic_read]. rewrite Hfs. do 2 eexists. split; [done|]. split; [done|].
  unfold save_credentials, credentials_to_json. rewrite Hprint. cbn [g_credentials_file set_credentials].
  by apply write_ok_lookup.
Qed.

(** A file that is not understood leaves no key, and the next change writes that over it. *)
Lemma malformed_file_forgets pid now dir text fs :
  fs !! credentials_path dir = Some text → cJSON_Parse text = None →
  buckets_credentials_init write_env_ok pid true now dir cred_globals fs
  = Val (BUCKETS_OK, CredStore [] 32 (credentials_path dir) true, fs).
Proof.
  intros Hfs Hp. unfold buckets_credentials_init. cbn [g_initialized cred_globals]. cbv zeta.
  cbn [g_credentials_file buckets_atomic_read]. rewrite Hfs. unfold credentials_from_json. by rewrite Hp.
Qed.

(** A deletion whose write fails is reported as done; the file keeps the key. *)
Lemma unsaved_delete_reported pid key g fs c :
  find_credential (g_credentials g) key = Some c →
  buckets_credentials_delete (WriteEnv BUCKETS_OK false None true true true BUCKETS_OK) pid (Some key) g fs
  = (BUCKETS_OK, set_credentials g (remove_credential key (g_credentials g)), fs).
Proof.
  intros Hc. unfold buckets_credentials_delete. rewrite Hc. cbv zeta. unfold save_credentials.
  by destruct (credentials_to_json _).
Qed.

(** Without the array, doubling its capacity of 0 makes no room. *)
Lemma create_before_init env pid fs :
  buckets_credentials_create env pid (λ _, 0) (KeySource (λ _ _, 0) (λ _, 0)) None None 128 128 cred_globals fs = Undef.
Proof. reflexivity. Qed.
End Findings.

(** ** A history *)

Import BitsCJson.

Definition example_keys : key_source := KeySource (λ k i, Z.of_nat (k + i)) (λ i, Z.of_nat i).

Definition example_calls : list (N * cred_call) :=
  [(2%N, CreateKey (λ _, 1700000000) example_keys (Some "backup") (Some "readonly"));
   (2%N, EnableKey "minioadmin" false); (2%N, DeleteKey "buckets-admin"); (3%N, Restart (λ _, 1700000100));
   (3%N, GetSecret "minioadmin"); (3%N, GetSecret "ABCDEFGHIJKLMNOPQRST"); (3%N, GetPolicy "buckets-admin")].

Lemma credentials_refine_durable_map_witness :
  ∃ g0 fs0 answers g fs',
    buckets_credentials_init write_env_ok 1 true (λ _, 1690000000) (Some "/data") cred_globals ∅
      = Val (BUCKETS_OK, g0, fs0) ∧
    run_calls (Some "/data") example_calls g0 fs0 = Val (answers, g, fs') ∧
    spec_calls (view g_default_credentials) example_calls answers (view (g_credentials g)) ∧
    NoDup (keys_of (g_credentials g)).
Proof.
  assert (∀ j, is_Some (cJSON_Print j)) as prints by (intros j; eexists; reflexivity).
  apply (credentials_refine_durable_map prints (Some "/data") 1 (λ _, 1690000000) ∅ example_calls).
  - reflexivity.
  - unfold is_exact; lia.
  - unfold is_exact; lia.
  - repeat (constructor; [cbn; unfold is_exact; first [exact I | lia]|]). constructor.
Defined.
