(* ===== verification/S3Auth.v ===== *)
(** * Signatures of requests (src/src/s3/s3_auth.c)

    AWS Signature Version 4: the request is written in a canonical form and hashed, the hash
    is signed with a key derived from the secret, the day and the region. The hash functions
    are OpenSSL's. *)

From S2P Require Import Prelude CInt CString CSearch XlMeta HttpWire Transport Credentials.
From Stdlib Require Import Ascii.

Local Open Scope c_scope.

Definition AWS4_ALGORITHM : string := "AWS4-HMAC-SHA256".
Definition AWS4_REQUEST : string := "aws4_request".
Definition DEFAULT_REGION : string := "us-east-1".
Definition DEFAULT_SERVICE : string := "s3".

Definition NL : string := String LF "".

(** [EVP_sha256] over a string of bytes and [HMAC] with it; [None] is a failure. *)
Class Crypto := {
  evp_sha256 : string → option string;
  HMAC : string → string → option string
}.

(** A digest has 32 bytes. *)
Class CryptoLaws `{Crypto} := {
  sha256_length x d : evp_sha256 x = Some d → strlen d = 32%nat;
  hmac_length k x d : HMAC k x = Some d → strlen d = 32%nat
}.

(** ** The request *)

(** The fields of the request that the Authorization header fills. *)
Record auth_fields := AuthFields {
  au_access_key : string;
  au_signed_headers : string;
  au_signature : string;
  au_date : string;
  au_region : string
}.

Definition no_auth : auth_fields := AuthFields "" "" "" "" "".

(** [rq_date] comes from x-amz-date or Date; [rq_region] from the scope of the credential. *)
Record s3_request := S3Request {
  sr_bucket : string;
  sr_key : string;
  sr_content_type : string;
  sr_user_meta : list (string * string);
  sr_access_key : string;
  sr_signature : string;
  sr_signed_headers : string;
  sr_date : string;
  sr_region : string;
  sr_params : list (string * string);
  sr_http : http_request
}.

(** ** Helpers *)

Definition hex_char (n : Z) : ascii := default NUL (String.get (Z.to_nat n) "0123456789abcdef").

Fixpoint bytes_to_hex (bytes : string) : string :=
  match bytes with
  | EmptyString => ""
  | String c bytes =>
      let b := Z.of_N (N_of_ascii c) in
      String (hex_char (Z.land (Z.shiftr b 4) 15)) (String (hex_char (Z.land b 15)) (bytes_to_hex bytes))
  end.

(** The tokens of [strtok_r] for one separator: empty ones are skipped. *)
Fixpoint strtok_go (c : ascii) (s token : string) : list string :=
  match s with
  | EmptyString => match token with EmptyString => [] | _ => [token] end
  | String d s =>
      if bool_decide (d = c) then
        match token with EmptyString => strtok_go c s "" | _ => token :: strtok_go c s "" end
      else strtok_go c s (token +:+ String d "")
  end.

Definition strtok (s : string) (c : ascii) : list string := strtok_go c s "".

(** What is before the first character that ends a signature. *)
Fixpoint signature_part (s : string) : string :=
  match s with
  | String c s =>
      if bool_decide (c = ","%char) || bool_decide (c = " "%char) then "" else String c (signature_part s)
  | EmptyString => ""
  end.

(** ** The Authorization header *)

(** The arrays have 128, 512 and 512 bytes, [date_out] and [region_out] the given ones; a part
    that is too long for [date_out], [region_out] or the signed headers is left out. *)
Definition buckets_s3_parse_auth_header (auth_header : string) (date_len region_len : nat)
    : buckets_error_t * auth_fields :=
  if negb (starts_with auth_header AWS4_ALGORITHM) then (BUCKETS_ERR_INVALID_ARG, no_auth)
  else
    match strstr auth_header "Credential=" with
    | None => (BUCKETS_ERR_INVALID_ARG, no_auth)
    | Some (_, cred) =>
        match strchr (str_drop 11 cred) "/" with
        | None => (BUCKETS_ERR_INVALID_ARG, no_auth)
        | Some (key, slash1) =>
            if (128 <=? strlen key)%nat then (BUCKETS_ERR_INVALID_ARG, no_auth)
            else
              match strchr (str_drop 1 slash1) "/" with
              | None => (BUCKETS_ERR_INVALID_ARG, AuthFields key "" "" "" "")
              | Some (date, slash2) =>
                  let date := if (strlen date <? date_len)%nat then date else "" in
                  match strchr (str_drop 1 slash2) "/" with
                  | None => (BUCKETS_ERR_INVALID_ARG, AuthFields key "" "" date "")
                  | Some (region, _) =>
                      let region := if (strlen region <? region_len)%nat then region else "" in
                      let signed_headers :=
                        match strstr auth_header "SignedHeaders=" with
                        | Some (_, hdrs) =>
                            match strchr (str_drop 14 hdrs) "," with
                            | Some (names, _) => if (strlen names <? 512)%nat then names else ""
                            | None => ""
                            end
                        | None => ""
                        end in
                      match strstr auth_header "Signature=" with
                      | None => (BUCKETS_ERR_INVALID_ARG, AuthFields key signed_headers "" date region)
                      | Some (_, sig) =>
                          let signature := signature_part (str_drop 10 sig) in
                          if (512 <=? strlen signature)%nat
                          then (BUCKETS_ERR_INVALID_ARG, AuthFields key signed_headers "" date region)
                          else (BUCKETS_OK, AuthFields key signed_headers signature date region)
                      end
                  end
              end
        end
    end.

(** ** The canonical request and the string to sign *)

(** [snprintf] into a buffer of [max_len] bytes that must hold it all. *)
Definition printed_whole (max_len : nat) (text : string) : buckets_error_t + string :=
  if (max_len <=? strlen text)%nat then inl BUCKETS_ERR_NOMEM else inr text.

Definition build_canonical_request (method uri query_string canonical_headers signed_headers payload_hash : string)
    (max_len : nat) : buckets_error_t + string :=
  printed_whole max_len
    (method +:+ NL +:+ uri +:+ NL +:+ query_string +:+ NL +:+ canonical_headers +:+ NL
     +:+ signed_headers +:+ NL +:+ payload_hash).

Definition build_string_to_sign (datetime date region service canonical_request_hash : string) (max_len : nat)
    : buckets_error_t + string :=
  printed_whole max_len
    (AWS4_ALGORITHM +:+ NL +:+ datetime +:+ NL
     +:+ date +:+ "/" +:+ region +:+ "/" +:+ service +:+ "/" +:+ AWS4_REQUEST +:+ NL
     +:+ canonical_request_hash).

Section Verify.
Context `{Crypto}.

Definition hmac_sha256 (key data : string) : buckets_error_t + string :=
  match HMAC key data with
  | Some d => if (strlen d =? 32)%nat then inr d else inl BUCKETS_ERR_CRYPTO
  | None => inl BUCKETS_ERR_CRYPTO
  end.

Definition calculate_signing_key (secret_key date region service : string) : buckets_error_t + string :=
  let aws4_secret := "AWS4" +:+ secret_key in
  if (256 <=? strlen aws4_secret)%nat then inl BUCKETS_ERR_NOMEM
  else
    match hmac_sha256 aws4_secret date with
    | inl _ => inl BUCKETS_ERR_CRYPTO
    | inr k_date =>
        match hmac_sha256 k_date region with
        | inl _ => inl BUCKETS_ERR_CRYPTO
        | inr k_region =>
            match hmac_sha256 k_region service with
            | inl _ => inl BUCKETS_ERR_CRYPTO
            | inr k_service => hmac_sha256 k_service AWS4_REQUEST
            end
        end
    end.

Definition calculate_signature (signing_key string_to_sign : string) : buckets_error_t + string :=
  match hmac_sha256 signing_key string_to_sign with
  | inl _ => inl BUCKETS_ERR_CRYPTO
  | inr signature => inr (bytes_to_hex signature)
  end.

(** ** Verification *)

Definition nonempty (s : option string) : option string :=
  match s with Some EmptyString => None | _ => s end.

(** The path of the URL, without its query, in a buffer of 2048 bytes. *)
Definition canonical_uri (uri : string) : string :=
  match strchr uri "?" with
  | Some (path, _) => if (strlen path <? 2048)%nat then path else strncpy 2047 uri
  | None => strncpy 2047 uri
  end.

(** [query_string] points at the question mark of the URL, and is NULL without one. *)
Definition canonical_query (uri : string) : string :=
  match strchr uri "?" with
  | Some (_, query) => strncpy 2047 (str_drop 1 query)
  | None => ""
  end.

(** The value of a signed header. *)
Definition signed_value (r : s3_request) (host content_sha256 : string) (name : string) : option string :=
  if strcmp_eq name "host" then Some host
  else if strcmp_eq name "x-amz-content-sha256" then Some content_sha256
  else if strcmp_eq name "x-amz-date" then Some (sr_date r)
  else uv_http_get_header (rq_headers (sr_http r)) name.

Definition header_line (r : s3_request) (host content_sha256 name : string) : string :=
  name +:+ ":" +:+ default "" (signed_value r host content_sha256 name) +:+ NL.

(** The lines of the signed headers in a buffer of 4096 bytes: no line is begun when fewer than
    256 are left, and what does not fit is cut. *)
Fixpoint canonical_headers_loop (r : s3_request) (host content_sha256 : string) (names : list string)
    (buffer : string) (ch_len : nat) : string :=
  match names with
  | [] => buffer
  | name :: names =>
      if (ch_len <? 4096 - 256)%nat then
        let line := header_line r host content_sha256 name in
        canonical_headers_loop r host content_sha256 names
          (buffer +:+ snprintf (4096 - ch_len) line) (ch_len + strlen line)
      else buffer
  end.

(** [diff |= a[i] ^ b[i]] over two strings of the same length. *)
Fixpoint signature_diff (a b : string) (diff : Z) : Z :=
  match a, b with
  | String x a, String y b =>
      signature_diff a b (Z.lor diff (Z.lxor (Z.of_N (N_of_ascii x)) (Z.of_N (N_of_ascii y))))
  | _, _ => diff
  end.

Definition signatures_match (expected given : string) : bool :=
  (strlen expected =? strlen given)%nat && (signature_diff expected given 0 =? 0).

Definition request_host (r : s3_request) : string :=
  default "localhost" (nonempty (uv_http_get_header (rq_headers (sr_http r)) "Host")).

Definition DEFAULT_SIGNED_HEADERS : string := "host;x-amz-content-sha256;x-amz-date".

(** The names of the headers that are signed. *)
Definition signed_names (r : s3_request) : string :=
  default DEFAULT_SIGNED_HEADERS (nonempty (Some (sr_signed_headers r))).

(** The hash of the payload that is signed: that of the header, or the one of the body. *)
Definition signed_payload (r : s3_request) (payload_hash : string) : string :=
  default payload_hash (nonempty (uv_http_get_header (rq_headers (sr_http r)) "x-amz-content-sha256")).

Definition request_region (r : s3_request) : string :=
  match sr_region r with EmptyString => DEFAULT_REGION | region => region end.

(** [YYYYMMDD] of the date, which stays empty when the date is too short. *)
Definition request_day (r : s3_request) : string :=
  if (8 <=? strlen (sr_date r))%nat then strncpy 8 (sr_date r) else "".

(** The signature the request should have. A failure of the first hash leaves an array that was
    never written, one of the second leaves the first hash in place. *)
Definition expected_signature (r : s3_request) (secret : string) : c_result (buckets_error_t + string) :=
  match evp_sha256 (rq_body (sr_http r)) with
  | None => Undef
  | Some hash =>
      let content_sha256 := signed_payload r (bytes_to_hex hash) in
      let headers :=
        canonical_headers_loop r (request_host r) content_sha256
          (strtok (strncpy 511 (signed_names r)) ";") "" 0 in
      match build_canonical_request (rq_method (sr_http r)) (canonical_uri (rq_uri (sr_http r)))
              (canonical_query (rq_uri (sr_http r))) headers (signed_names r) content_sha256 (Z.to_nat 8192) with
      | inl _ => Val (inl BUCKETS_ERR_INTERNAL)
      | inr canonical_request =>
          let canonical_request_hash := bytes_to_hex (default hash (evp_sha256 canonical_request)) in
          match build_string_to_sign (sr_date r) (request_day r) (request_region r) DEFAULT_SERVICE
                  canonical_request_hash (Z.to_nat 4096) with
          | inl _ => Val (inl BUCKETS_ERR_INTERNAL)
          | inr string_to_sign =>
              match calculate_signing_key secret (request_day r) (request_region r) DEFAULT_SERVICE with
              | inl _ => Val (inl BUCKETS_ERR_CRYPTO)
              | inr signing_key =>
                  match calculate_signature signing_key string_to_sign with
                  | inl _ => Val (inl BUCKETS_ERR_CRYPTO)
                  | inr signature => Val (inr signature)
                  end
              end
          end
      end
  end.

(** The code, and the store with the key marked as used. [secret_key] is the one that the caller
    already has. *)
Definition buckets_s3_verify_signature (g_auth_enabled : bool) (now : Z) (r : s3_request)
    (secret_key : option string) (g : cred_store) : c_result (buckets_error_t * cred_store) :=
  if negb g_auth_enabled then Val (BUCKETS_OK, g)
  else if strcmp_eq (sr_access_key r) "" then Val (BUCKETS_ERR_ACCESS_DENIED, g)
  else if strcmp_eq (sr_signature r) "" then Val (BUCKETS_ERR_ACCESS_DENIED, g)
  else
    let secret :=
      match nonempty secret_key with
      | Some s => Some s
      | None =>
          match buckets_credentials_get_secret g (Some (sr_access_key r)) 128 with
          | (BUCKETS_OK, Some s) => Some s
          | _ => None
          end
      end in
    match secret with
    | None => Val (BUCKETS_ERR_ACCESS_DENIED, g)
    | Some secret =>
        if strcmp_eq (sr_date r) "" then Val (BUCKETS_ERR_ACCESS_DENIED, g)
        else
          let* expected := expected_signature r secret in
          match expected with
          | inl err => Val (err, g)
          | inr expected =>
              if signatures_match expected (sr_signature r)
              then Val (BUCKETS_OK, buckets_credentials_touch now g (Some (sr_access_key r)))
              else Val (BUCKETS_ERR_ACCESS_DENIED, g)
          end
    end.

Definition buckets_s3_has_auth (r : s3_request) : bool :=
  negb (strcmp_eq (sr_access_key r) "") && negb (strcmp_eq (sr_signature r) "").
End Verify.

Definition buckets_s3_get_secret_key (g : cred_store) (access_key : option string) : buckets_error_t * option string :=
  buckets_credentials_get_secret g access_key 128.

(** ** Comparing *)

Lemma code_inj a b : Z.of_N (N_of_ascii a) = Z.of_N (N_of_ascii b) → a = b.
Proof. intros E%N2Z.inj. rewrite <- (ascii_N_embedding a), E. apply ascii_N_embedding. Qed.

Lemma signature_diff_zero a : ∀ b diff,
  strlen a = strlen b → signature_diff a b diff = 0 ↔ diff = 0 ∧ a = b.
Proof.
  induction a as [|x a IH]; intros [|y b] diff Hl; try done.
  - cbn. naive_solver.
  - cbn [signature_diff]. rewrite IH by (by injection Hl). rewrite Z.lor_eq_0_iff, Z.lxor_eq_0_iff. split.
    + intros [[-> E] ->]. apply code_inj in E as ->. done.
    + intros [-> [= -> ->]]. done.
Qed.

(** The comparison that takes the same time for every wrong signature is equality. *)
Lemma signatures_match_eq a b : signatures_match a b = true ↔ a = b.
Proof.
  unfold signatures_match. rewrite andb_true_iff, Nat.eqb_eq, Z.eqb_eq. split.
  - intros [Hl Hd]. apply signature_diff_zero in Hd as [_ ?]; done.
  - intros ->. split; [done|]. by apply signature_diff_zero.
Qed.

Lemma hex_char_inj x y : 0 ≤ x < 16 → 0 ≤ y < 16 → hex_char x = hex_char y → x = y.
Proof.
  intros Hx Hy E.
  assert (Forall (λ i, Forall (λ j, hex_char (Z.of_nat i) = hex_char (Z.of_nat j) → i = j) (seq 0 16)) (seq 0 16)) as Hall
    by (apply (bool_decide_unpack _); by vm_compute).
  assert (∀ z, 0 ≤ z < 16 → Z.to_nat z ∈ seq 0 16) as Hin by (clear; intros z Hz; apply elem_of_seq; lia).
  rewrite Forall_forall in Hall. specialize (Hall _ (Hin x Hx)). cbv beta in Hall.
  rewrite Forall_forall in Hall. specialize (Hall _ (Hin y Hy)).
  rewrite !Z2Nat.id in Hall by lia. specialize (Hall E). lia.
Qed.

Lemma nibbles b : 0 ≤ b < 256 → Z.land (Z.shiftr b 4) 15 = b / 16 ∧ Z.land b 15 = b mod 16.
Proof.
  intros Hb. change 15 with (Z.ones 4). rewrite !Z.land_ones, Z.shiftr_div_pow2 by lia. change (2 ^ 4) with 16.
  split; [|done]. apply Z.mod_small. split; [apply Z.div_pos; lia|apply Z.div_lt_upper_bound; lia].
Qed.

Lemma bytes_to_hex_inj a : ∀ b, bytes_to_hex a = bytes_to_hex b → a = b.
Proof.
  induction a as [|x a IH]; intros [|y b]; try done. cbn [bytes_to_hex]. intros [= E1 E2 E3].
  pose proof (N_ascii_bounded x). pose proof (N_ascii_bounded y).
  destruct (nibbles (Z.of_N (N_of_ascii x))) as [Hx1 Hx2]; [lia|].
  destruct (nibbles (Z.of_N (N_of_ascii y))) as [Hy1 Hy2]; [lia|].
  rewrite Hx1, Hy1 in E1. rewrite Hx2, Hy2 in E2.
  apply hex_char_inj in E1, E2; try (apply Z.mod_pos_bound; lia);
    try (split; [apply Z.div_pos; lia|apply Z.div_lt_upper_bound; lia]).
  f_equal; [|by apply IH]. apply code_inj.
  rewrite (Z.div_mod (Z.of_N (N_of_ascii x)) 16), (Z.div_mod (Z.of_N (N_of_ascii y)) 16) by lia. congruence.
Qed.

(** A digit is neither what ends a signature nor a line. *)
Lemma hex_char_not c n : no_char c "0123456789abcdef" → c ≠ NUL → hex_char n ≠ c.
Proof.
  intros Hc Hn. unfold hex_char. destruct (String.get (Z.to_nat n) "0123456789abcdef") as [d|] eqn:E; [|cbn; congruence].
  cbn. intros ->. revert E. generalize (Z.to_nat n). revert Hc. generalize "0123456789abcdef".
  intros s. induction s as [|x s IH]; [intros _ [|k]; discriminate|]. intros [Hx Hs]%no_char_cons [|k]; cbn.
  - by intros [= ->].
  - by apply IH.
Qed.

Lemma hex_no_char c s : no_char c "0123456789abcdef" → c ≠ NUL → no_char c (bytes_to_hex s).
Proof.
  intros Hc Hn. induction s as [|x s IH]; [done|]. cbn [bytes_to_hex]. rewrite !no_char_cons.
  split_and!; [by apply hex_char_not|by apply hex_char_not|done].
Qed.

Lemma strlen_hex s : strlen (bytes_to_hex s) = (2 * strlen s)%nat.
Proof.
  induction s as [|x s IH]; [done|].
  change (S (S (strlen (bytes_to_hex s))) = (2 * S (strlen s))%nat). lia.
Qed.

(** ** Fields that are separated by line feeds *)

Lemma first_field a b a' b' :
  no_char LF a → no_char LF a' → a +:+ NL +:+ b = a' +:+ NL +:+ b' → a = a' ∧ b = b'.
Proof.
  intros Ha Ha' E. apply (f_equal (λ s, strchr s LF)) in E.
  change (NL +:+ b) with (String LF b) in E. change (NL +:+ b') with (String LF b') in E.
  rewrite !strchr_app in E by done. by injection E.
Qed.

Lemma last_field a b a' b' :
  no_char LF b → no_char LF b' → a +:+ NL +:+ b = a' +:+ NL +:+ b' → a = a' ∧ b = b'.
Proof.
  intros Hb Hb' E.
  assert (∀ k x y, NL +:+ x = k +:+ NL +:+ y → no_char LF x → k = "" ∧ x = y) as Hk.
  { intros [|c k] x y Exy Hx; [by injection Exy|]. change (String LF x = String c (k +:+ NL +:+ y)) in Exy.
    injection Exy as _ ->. rewrite !no_char_app in Hx. destruct Hx as (_ & Hx & _). done. }
  apply string_app_eq_inv in E as [(k & -> & E)|(k & -> & E)]; apply Hk in E as [-> ->]; [|done| |done];
    by rewrite string_app_nil_r.
Qed.

(** ** Names and lines of headers *)

(** Names without semicolons are the tokens of their list. *)
Lemma strtok_go_app c s : ∀ t token,
  no_char c s → strtok_go c (s +:+ t) token = strtok_go c t (token +:+ s).
Proof.
  induction s as [|d s IH]; intros t token.
  - intros _. by rewrite string_app_nil_r.
  - intros [Hd Hs]%no_char_cons. change (String d s +:+ t) with (String d (s +:+ t)). cbn [strtok_go].
    rewrite bool_decide_eq_false_2 by done. rewrite IH by done. by rewrite string_app_assoc.
Qed.

Lemma strtok_concat names :
  Forall (λ n, n ≠ "" ∧ no_char ";" n) names → strtok (String.concat ";" names) ";" = names.
Proof.
  unfold strtok. induction 1 as [|n names [Hne Hn] _ IH]; [done|]. destruct names as [|m names].
  - cbn [String.concat]. rewrite <- (string_app_nil_r n) at 1. rewrite strtok_go_app by done. cbn. by destruct n.
  - change (String.concat ";" (n :: m :: names)) with (n +:+ String ";" (String.concat ";" (m :: names))).
    rewrite strtok_go_app by done. change ("" +:+ n) with n. cbn [strtok_go].
    rewrite bool_decide_eq_true_2 by done. rewrite IH. by destruct n.
Qed.

(** The lines are whole when they leave 256 bytes of the buffer. *)
Lemma header_lines_whole r host content names : ∀ buffer n,
  (n + strlen (joined (header_line r host content <$> names)) < 4096 - 256)%nat →
  canonical_headers_loop r host content names buffer n = buffer +:+ joined (header_line r host content <$> names).
Proof.
  induction names as [|m names IH]; intros buffer n Hn; cbn [canonical_headers_loop].
  - by rewrite string_app_nil_r.
  - rewrite fmap_cons in *. cbn [joined] in *. rewrite strlen_app in Hn.
    rewrite (proj2 (Nat.ltb_lt _ _)) by lia. cbv zeta. rewrite snprintf_short by lia.
    rewrite IH by lia. by rewrite string_app_assoc.
Qed.

(** The tokens of a text have no character that the text has not. *)
Lemma strtok_no_char c d s : no_char d s → Forall (no_char d) (strtok s c).
Proof.
  unfold strtok. assert (∀ token, no_char d s → no_char d token → Forall (no_char d) (strtok_go c s token)) as H;
    [|intros Hs; by apply H].
  induction s as [|x s IH]; intros token Hs Ht; cbn [strtok_go].
  - destruct token; [constructor|by repeat constructor].
  - apply no_char_cons in Hs as [Hx Hs]. case_bool_decide.
    + destruct token; [by apply IH|]. constructor; [done|by apply IH].
    + apply IH; [done|]. apply no_char_app. split; [done|]. by apply no_char_cons.
Qed.

(** ** What a signature covers *)

Section Binding.
Context `{CryptoLaws}.

(** The text that is hashed and the one that is signed. *)
Definition request_payload (r : s3_request) : string :=
  signed_payload r (bytes_to_hex (default "" (evp_sha256 (rq_body (sr_http r))))).

(** The signed headers with their values. *)
Definition signed_headers (r : s3_request) : list (string * string) :=
  (λ n, (n, default "" (signed_value r (request_host r) (request_payload r) n))) <$> strtok (signed_names r) ";".

(** The URL up to its question mark, and after it. *)
Definition url_path (uri : string) : string :=
  match strchr uri "?" with Some (path, _) => path | None => uri end.

Definition url_query (uri : string) : string :=
  match strchr uri "?" with Some (_, query) => str_drop 1 query | None => "" end.

Definition request_header_lines (r : s3_request) : string :=
  canonical_headers_loop r (request_host r) (request_payload r) (strtok (strncpy 511 (signed_names r)) ";") "" 0.

Definition request_text (r : s3_request) : string :=
  rq_method (sr_http r) +:+ NL +:+ canonical_uri (rq_uri (sr_http r)) +:+ NL +:+ canonical_query (rq_uri (sr_http r))
  +:+ NL +:+ request_header_lines r +:+ NL +:+ signed_names r +:+ NL +:+ request_payload r.

Definition request_to_sign (r : s3_request) : string :=
  AWS4_ALGORITHM +:+ NL +:+ sr_date r +:+ NL
  +:+ request_day r +:+ "/" +:+ request_region r +:+ "/" +:+ DEFAULT_SERVICE +:+ "/" +:+ AWS4_REQUEST +:+ NL
  +:+ bytes_to_hex (default "" (evp_sha256 (request_text r))).

(** What a signature that was computed says. *)
Lemma expected_signature_inv r secret sig :
  (∀ x, is_Some (evp_sha256 x)) → expected_signature r secret = Val (inr sig) →
  ∃ key mac, calculate_signing_key secret (request_day r) (request_region r) DEFAULT_SERVICE = inr key ∧
    HMAC key (request_to_sign r) = Some mac ∧ sig = bytes_to_hex mac.
Proof.
  intros Hsha. unfold expected_signature, build_canonical_request, build_string_to_sign, printed_whole.
  destruct (Hsha (rq_body (sr_http r))) as [hash Ehash]. rewrite Ehash. cbv zeta.
  assert (signed_payload r (bytes_to_hex hash) = request_payload r) as ->
    by (unfold request_payload; by rewrite Ehash).
  fold (request_header_lines r). fold (request_text r).
  destruct (_ <=? _)%nat; [done|]. destruct (Hsha (request_text r)) as [chash Ec].
  assert (default hash (evp_sha256 (request_text r)) = default "" (evp_sha256 (request_text r))) as -> by by rewrite Ec.
  fold (request_to_sign r). destruct (_ <=? _)%nat; [done|].
  destruct (calculate_signing_key _ _ _ _) as [|key]; [done|].
  unfold calculate_signature, hmac_sha256. destruct (HMAC key (request_to_sign r)) as [mac|] eqn:Em; [|done].
  destruct (strlen mac =? 32)%nat; [|done]. intros [= <-]. by exists key, mac.
Qed.

(** What an accepted request says. *)
Lemma verify_accepted now r g g' :
  buckets_s3_verify_signature true now r None g = Val (BUCKETS_OK, g') →
  ∃ secret, buckets_credentials_get_secret g (Some (sr_access_key r)) 128 = (BUCKETS_OK, Some secret) ∧
    expected_signature r secret = Val (inr (sr_signature r)) ∧
    g' = buckets_credentials_touch now g (Some (sr_access_key r)).
Proof.
  unfold buckets_s3_verify_signature. cbn [negb nonempty]. repeat (split_if; [done|]).
  destruct (buckets_credentials_get_secret _ _ _) as [[] [secret|]]; try done. split_if; [done|].
  destruct (expected_signature r secret) as [[err|sig]|] eqn:E; cbn [c_bind]; try done.
  - intros [= -> _]. exfalso. revert E. unfold expected_signature.
    destruct (evp_sha256 _); [|done]. cbv zeta. destruct (build_canonical_request _ _ _ _ _ _ _); [done|].
    destruct (build_string_to_sign _ _ _ _ _ _); [done|]. destruct (calculate_signing_key _ _ _ _); [done|].
    destruct (calculate_signature _ _); done.
  - destruct (signatures_match sig (sr_signature r)) eqn:Em; [|done]. intros [= <-].
    apply signatures_match_eq in Em as ->. by exists secret.
Qed.

(** No line feed in the parts that come from one line of the request. *)
Record one_line (r : s3_request) : Prop := OneLine {
  ol_method : no_char LF (rq_method (sr_http r));
  ol_uri : no_char LF (rq_uri (sr_http r));
  ol_date : no_char LF (sr_date r);
  ol_names : no_char LF (sr_signed_headers r);
  ol_payload : ∀ v, uv_http_get_header (rq_headers (sr_http r)) "x-amz-content-sha256" = Some v → no_char LF v;
  ol_values : Forall (λ h, no_char LF h.2) (signed_headers r)
}.

(** A request of which the buffers of the server hold everything that is signed. *)
Record within_buffers (r : s3_request) : Prop := WithinBuffers {
  wb_path : (strlen (url_path (rq_uri (sr_http r))) < 2048)%nat;
  wb_query : (strlen (url_query (rq_uri (sr_http r))) < 2048)%nat;
  wb_names : (strlen (signed_names r) < 512)%nat;
  wb_lines : (strlen (joined ((λ h, h.1 +:+ ":" +:+ h.2 +:+ NL) <$> signed_headers r)) < 4096 - 256)%nat
}.

(** The parts of a request that its signature covers. *)
Definition signed_parts (r : s3_request) :=
  (rq_method (sr_http r), url_path (rq_uri (sr_http r)), url_query (rq_uri (sr_http r)),
   signed_headers r, signed_names r, request_payload r, sr_date r, request_region r).

Lemma whole_url uri : (strlen (url_path uri) < 2048)%nat → (strlen (url_query uri) < 2048)%nat →
  canonical_uri uri = url_path uri ∧ canonical_query uri = url_query uri.
Proof using Type.
  unfold url_path, url_query, canonical_uri, canonical_query. intros Hp Hq.
  destruct (strchr uri "?") as [[p q]|].
  - rewrite (proj2 (Nat.ltb_lt _ _)) by done. split; [done|]. apply strncpy_short. unfold strlen in *. lia.
  - split; [|done]. apply strncpy_short. unfold strlen in *. lia.
Qed.

Lemma whole_lines r : within_buffers r →
  request_header_lines r = joined ((λ h, h.1 +:+ ":" +:+ h.2 +:+ NL) <$> signed_headers r).
Proof using Type.
  intros [_ _ Hn Hl]. unfold request_header_lines. rewrite strncpy_short by (unfold strlen in *; lia).
  assert (header_line r (request_host r) (request_payload r) <$> strtok (signed_names r) ";"
          = (λ h, h.1 +:+ ":" +:+ h.2 +:+ NL) <$> signed_headers r) as E.
  { unfold signed_headers. by rewrite <- list_fmap_compose. }
  rewrite header_lines_whole; rewrite E; [done|]. exact Hl.
Qed.

(** Lines with the same names that read the same have the same values. *)
Lemma lines_inj (l1 l2 : list (string * string)) :
  l1.*1 = l2.*1 → Forall (λ h, no_char LF h.1) l1 →
  Forall (λ h, no_char LF h.2) l1 → Forall (λ h, no_char LF h.2) l2 →
  joined ((λ h, h.1 +:+ ":" +:+ h.2 +:+ NL) <$> l1) = joined ((λ h, h.1 +:+ ":" +:+ h.2 +:+ NL) <$> l2) → l1 = l2.
Proof using Type.
  revert l2. induction l1 as [|[n v1] l1 IH]; intros [|[n2 v2] l2]; try done. cbn [fmap list_fmap fst snd].
  intros [= -> En] [Hn Hns]%Forall_cons [H1 H1s]%Forall_cons [H2 H2s]%Forall_cons. cbn [joined fst snd] in *.
  rewrite !string_app_assoc. rewrite <- (string_app_assoc ":" v1), <- (string_app_assoc ":" v2).
  rewrite <- !(string_app_assoc n2). intros E.
  apply first_field in E as [E1 E2]; [|by rewrite !no_char_app..].
  apply app_string_inj in E1. rewrite E1. f_equal. by apply IH.
Qed.

Lemma no_char_strncpy c n s : no_char c s → no_char c (strncpy n s).
Proof using Type.
  revert s. induction n as [|n IH]; intros s Hs; [by destruct s|]. destruct s as [|d s]; [done|].
  apply no_char_cons in Hs as [Hd Hs]. apply (no_char_cons c d (strncpy n s)). split; [done|by apply IH].
Qed.

Lemma no_char_drop c n s : no_char c s → no_char c (str_drop n s).
Proof using Type.
  revert s. induction n as [|n IH]; intros s Hs; [by destruct s|]. destruct s as [|d s]; [done|].
  apply no_char_cons in Hs as [_ Hs]. by apply IH.
Qed.

Lemma one_line_text r : one_line r →
  no_char LF (canonical_uri (rq_uri (sr_http r))) ∧ no_char LF (canonical_query (rq_uri (sr_http r))) ∧
  no_char LF (signed_names r) ∧ no_char LF (request_payload r).
Proof using Type.
  intros [_ Hu _ Hn Hp _]. unfold canonical_uri, canonical_query, signed_names, request_payload, signed_payload. split_and!.
  - destruct (strchr (rq_uri (sr_http r)) "?") as [[p q]|] eqn:E; [|by apply no_char_strncpy].
    pose proof (strchr_Some _ _ _ _ E) as (t & -> & Eu & _). rewrite Eu, no_char_app in Hu.
    split_if; [by destruct Hu|]. apply no_char_strncpy. rewrite Eu. by apply no_char_app.
  - destruct (strchr (rq_uri (sr_http r)) "?") as [[p q]|] eqn:E; [|done].
    pose proof (strchr_Some _ _ _ _ E) as (t & -> & Eu & _). rewrite Eu, no_char_app in Hu.
    apply no_char_strncpy, no_char_drop. by destruct Hu.
  - destruct (sr_signed_headers r); done.
  - destruct (uv_http_get_header _ _) as [v|] eqn:E; cbn [nonempty default].
    + destruct v; [by apply hex_no_char|]. by apply (Hp _ eq_refl).
    + by apply hex_no_char.
Qed.

Lemma request_text_inj r1 r2 : one_line r1 → one_line r2 → request_text r1 = request_text r2 →
  (rq_method (sr_http r1), canonical_uri (rq_uri (sr_http r1)), canonical_query (rq_uri (sr_http r1)),
   request_header_lines r1, signed_names r1, request_payload r1)
  = (rq_method (sr_http r2), canonical_uri (rq_uri (sr_http r2)), canonical_query (rq_uri (sr_http r2)),
     request_header_lines r2, signed_names r2, request_payload r2).
Proof using Type.
  intros H1 H2 E. pose proof (one_line_text r1 H1) as (Hu1 & Hq1 & Hn1 & Hp1).
  pose proof (one_line_text r2 H2) as (Hu2 & Hq2 & Hn2 & Hp2). destruct H1 as [Hm1 _ _ _ _ _], H2 as [Hm2 _ _ _ _ _].
  unfold request_text in E.
  apply first_field in E as [-> E]; [|done..]. apply first_field in E as [-> E]; [|done..].
  apply first_field in E as [-> E]; [|done..]. rewrite <- !(string_app_assoc _ NL) in E.
  rewrite <- !string_app_assoc in E. rewrite !(string_app_assoc _ NL) in E.
  apply last_field in E as [E ->]; [|done..]. apply last_field in E as [-> ->]; done.
Qed.

(** Within the buffers the text determines everything that was signed. *)
Lemma request_parts_inj r1 r2 :
  one_line r1 → one_line r2 → within_buffers r1 → within_buffers r2 → request_text r1 = request_text r2 →
  (rq_method (sr_http r1), url_path (rq_uri (sr_http r1)), url_query (rq_uri (sr_http r1)),
   signed_headers r1, signed_names r1, request_payload r1)
  = (rq_method (sr_http r2), url_path (rq_uri (sr_http r2)), url_query (rq_uri (sr_http r2)),
     signed_headers r2, signed_names r2, request_payload r2).
Proof using Type.
  intros H1 H2 W1 W2 Ex. apply request_text_inj in Ex; [|done..].
  destruct (whole_url _ (wb_path _ W1) (wb_query _ W1)) as [P1 Q1].
  destruct (whole_url _ (wb_path _ W2) (wb_query _ W2)) as [P2 Q2].
  rewrite P1, Q1, P2, Q2, (whole_lines _ W1), (whole_lines _ W2) in Ex.
  injection Ex as Em Ep Eq El En Ey.
  assert (signed_headers r1 = signed_headers r2) as Eh; [|congruence].
  apply lines_inj; [|apply Forall_fmap|apply (ol_values _ H1)|apply (ol_values _ H2)|done].
  - unfold signed_headers. rewrite <- !list_fmap_compose, En. apply list_fmap_ext. done.
  - apply (strtok_no_char ";" LF). by apply one_line_text.
Qed.

Lemma request_to_sign_inj r1 r2 : one_line r1 → one_line r2 → request_to_sign r1 = request_to_sign r2 →
  sr_date r1 = sr_date r2 ∧ request_region r1 = request_region r2 ∧
  evp_sha256 (request_text r1) = evp_sha256 (request_text r2) ∨
  (∃ r, (r = r1 ∨ r = r2) ∧ evp_sha256 (request_text r) = None).
Proof using Type.
  intros [_ _ Hd1 _ _ _] [_ _ Hd2 _ _ _] E. unfold request_to_sign in E.
  apply first_field in E as [_ E]; [|done..]. apply first_field in E as [Hd E]; [|done..].
  assert (request_day r1 = request_day r2) as Hday by (unfold request_day; by rewrite Hd).
  rewrite Hday in E. apply app_string_inj in E. apply app_string_inj in E.
  assert (∀ s, no_char LF (bytes_to_hex s)) as Hhex by (intros; by apply hex_no_char).
  set (scope := "/" +:+ DEFAULT_SERVICE +:+ "/" +:+ AWS4_REQUEST) in *.
  assert (∀ r x, r +:+ "/" +:+ DEFAULT_SERVICE +:+ "/" +:+ AWS4_REQUEST +:+ x = (r +:+ scope) +:+ x) as Hscope
    by (intros; subst scope; by rewrite !string_app_assoc).
  rewrite !Hscope in E. apply last_field in E as [Hr E]; [|apply Hhex..].
  apply string_app_inj_r in Hr. apply bytes_to_hex_inj in E.
  destruct (evp_sha256 (request_text r1)) as [h1|] eqn:E1; [|right; exists r1; by split; [left|]].
  destruct (evp_sha256 (request_text r2)) as [h2|] eqn:E2; [|right; exists r2; by split; [right|]].
  left. split_and!; [done|done|]. simpl in E. by rewrite E.
Qed.

End Binding.

(** ** Finding the parts of the header *)

Lemma strstr_prefix s pat : String.prefix pat s = true → strstr s pat = Some ("", s).
Proof. intros Hp. destruct s as [|c s]; cbn [strstr]; by rewrite Hp. Qed.

(** A pattern that ends in a character occurs where that character first does, or later. *)
Lemma strstr_here mid p e t :
  no_char e mid → no_char e p → strstr (mid +:+ p +:+ String e t) (p +:+ String e "") = Some (mid, p +:+ String e t).
Proof.
  intros Hm Hp. induction mid as [|c mid IH].
  - apply strstr_prefix. change ("" +:+ ?x) with x.
    replace (p +:+ String e t) with ((p +:+ String e "") +:+ t) by by rewrite string_app_assoc. apply prefix_app.
  - apply no_char_cons in Hm as [Hc Hm]. specialize (IH Hm).
    change (String c mid +:+ ?x) with (String c (mid +:+ x)). cbn [strstr].
    destruct (String.prefix _ _) eqn:Epre; [|by rewrite IH]. exfalso.
    apply prefix_split in Epre as [x Ex]. rewrite string_app_assoc in Ex.
    change (String e "" +:+ x) with (String e x) in Ex.
    apply (f_equal (λ s, strchr s e)) in Ex. rewrite (strchr_app _ p) in Ex by done.
    change (String c (mid +:+ p +:+ String e t)) with (String c mid +:+ p +:+ String e t) in Ex.
    rewrite <- string_app_assoc, strchr_app in Ex by (rewrite no_char_app; split; [by apply no_char_cons|done]).
    injection Ex as E _. apply (f_equal strlen) in E. rewrite strlen_app in E. cbn in E. lia.
Qed.

Lemma last_char_some c s : ∃ x, last_char (String c s) = Some x.
Proof. revert c. induction s as [|d s IH]; intros c; [by exists c|]. apply (IH d). Qed.

Lemma strstr_past a p e t :
  no_char e a → no_char e p → p ≠ "" → last_char a ≠ last_char p →
  strstr (a +:+ String e t) (p +:+ String e "")
  = match strstr t (p +:+ String e "") with Some (b, r) => Some (a +:+ String e b, r) | None => None end.
Proof.
  intros Ha Hp Hne. revert Ha. induction a as [|c a IH]; intros Ha Hlast.
  - change ("" +:+ ?x) with x. cbn [strstr].
    assert (String.prefix (p +:+ String e "") (String e t) = false) as ->.
    { destruct p as [|d p]; [done|]. apply no_char_cons in Hp as [Hd _].
      change (String d p +:+ String e "") with (String d (p +:+ String e "")). cbn.
      by destruct (ascii_dec d e). }
    by destruct (strstr t _) as [[b r]|].
  - apply no_char_cons in Ha as [Hc Ha].
    change (String c a +:+ ?x) with (String c (a +:+ x)). cbn [strstr].
    destruct (String.prefix _ _) eqn:Epre.
    + exfalso. apply prefix_split in Epre as [x Ex]. rewrite string_app_assoc in Ex.
      change (String e "" +:+ x) with (String e x) in Ex.
      change (String c (a +:+ String e t)) with (String c a +:+ String e t) in Ex.
      apply (f_equal (λ s, strchr s e)) in Ex.
      rewrite !strchr_app in Ex by (done || by apply no_char_cons). injection Ex as E _. by rewrite E in Hlast.
    + rewrite IH; [by destruct (strstr t _) as [[b r]|]|done|]. destruct a as [|d a]; [|done].
      destruct p as [|d p]; [done|]. destruct (last_char_some d p) as [x ->]. done.
Qed.

(** ** The header a client sends *)

Definition aws_scope (day region : string) : string :=
  day +:+ "/" +:+ region +:+ "/" +:+ DEFAULT_SERVICE +:+ "/" +:+ AWS4_REQUEST.

(** [sep] is a comma, with or without a blank. *)
Definition aws_authorization (sep access_key day region names signature : string) : string :=
  AWS4_ALGORITHM +:+ " Credential=" +:+ access_key +:+ "/" +:+ aws_scope day region +:+ sep
  +:+ "SignedHeaders=" +:+ names +:+ sep +:+ "Signature=" +:+ signature.

Lemma signature_part_whole s : no_char "," s → no_char " " s → signature_part s = s.
Proof.
  induction s as [|c s IH]; [done|]. intros [Hc Hs]%no_char_cons [Hc' Hs']%no_char_cons. cbn [signature_part].
  rewrite !bool_decide_eq_false_2 by done. cbn [orb]. by rewrite IH.
Qed.

Record auth_parts (sep access_key day region names signature : string) : Prop := AuthParts {
  ap_sep : sep = "," ∨ sep = ", ";
  ap_key : (strlen access_key < 128)%nat ∧ no_char "/" access_key ∧ no_char "=" access_key;
  ap_day : (strlen day < 32)%nat ∧ no_char "/" day ∧ no_char "=" day;
  ap_region : (strlen region < 64)%nat ∧ no_char "/" region ∧ no_char "=" region;
  ap_names : (strlen names < 512)%nat ∧ no_char "," names ∧ no_char "=" names;
  ap_signature : (strlen signature < 512)%nat ∧ no_char "," signature ∧ no_char " " signature
}.

(** The header is read back. *)
Lemma parse_authorization sep access_key day region names signature :
  auth_parts sep access_key day region names signature →
  buckets_s3_parse_auth_header (aws_authorization sep access_key day region names signature) 32 64
  = (BUCKETS_OK, AuthFields access_key names signature day region).
Proof.
  intros [Hsep (Hkl & Hk1 & Hk2) (Hdl & Hd1 & Hd2) (Hrl & Hr1 & Hr2) (Hnl & Hn1 & Hn2) (Hsl & Hs1 & Hs2)].
  assert (no_char "=" sep) as Hse by (by destruct Hsep as [-> | ->]).
  set (tail := "/" +:+ DEFAULT_SERVICE +:+ "/" +:+ AWS4_REQUEST).
  set (mid := access_key +:+ "/" +:+ day +:+ "/" +:+ region +:+ tail +:+ sep).
  set (mid2 := names +:+ sep).
  set (h := aws_authorization _ _ _ _ _ _).
  assert (h = "AWS4-HMAC-SHA256 Credential" +:+ String "=" (mid +:+ "SignedHeaders" +:+ String "=" (mid2 +:+ "Signature" +:+ String "=" signature))) as Eh.
  { subst h mid mid2 tail. unfold aws_authorization, aws_scope. rewrite !string_app_assoc. done. }
  assert (no_char "=" mid) as Hmid.
  { subst mid. rewrite !no_char_app. split_and!; done. }
  assert (no_char "=" mid2) as Hmid2 by (subst mid2; by rewrite no_char_app).
  assert (strstr h "Credential=" = Some ("AWS4-HMAC-SHA256 ", "Credential" +:+ String "=" (mid +:+ "SignedHeaders" +:+ String "=" (mid2 +:+ "Signature" +:+ String "=" signature)))) as E1.
  { rewrite Eh. exact (strstr_here "AWS4-HMAC-SHA256 " "Credential" "=" _ eq_refl eq_refl). }
  assert (∃ b, strstr h "SignedHeaders=" = Some (b, "SignedHeaders" +:+ String "=" (mid2 +:+ "Signature" +:+ String "=" signature))) as [b2 E2].
  { rewrite Eh. change "SignedHeaders=" with ("SignedHeaders" +:+ String "=" ""). rewrite strstr_past by done.
    rewrite (strstr_here mid "SignedHeaders" "=") by done. by eexists. }
  assert (∃ b, strstr h "Signature=" = Some (b, "Signature" +:+ String "=" signature)) as [b3 E3].
  { rewrite Eh. change "Signature=" with ("Signature" +:+ String "=" ""). rewrite strstr_past by done.
    rewrite <- (string_app_assoc mid), strstr_past;
      [|by rewrite no_char_app|done|done|rewrite last_char_app by done; done].
    rewrite (strstr_here mid2 "Signature" "=") by done. by eexists. }
  unfold buckets_s3_parse_auth_header. rewrite E1, E2, E3.
  assert (starts_with h AWS4_ALGORITHM = true) as -> by apply prefix_app. cbn [negb].
  change (str_drop 11 ("Credential" +:+ String "=" ?x)) with x.
  change (str_drop 14 ("SignedHeaders" +:+ String "=" ?x)) with x.
  change (str_drop 10 ("Signature" +:+ String "=" ?x)) with x.
  assert (∀ x y, no_char "/" x → strchr (x +:+ "/" +:+ y) "/" = Some (x, String "/" y)) as Hslash
    by (intros; by apply (strchr_app "/")).
  subst mid tail mid2. rewrite !string_app_assoc, (Hslash access_key) by done.
  rewrite (proj2 (Nat.leb_gt _ _)) by done. change (str_drop 1 (String "/" ?x)) with x.
  rewrite (Hslash day) by done. cbv zeta. change (str_drop 1 (String "/" ?x)) with x.
  rewrite (Hslash region) by done. cbv zeta. rewrite !(proj2 (Nat.ltb_lt _ _)) by done.
  assert (strchr (names +:+ sep +:+ "Signature" +:+ String "=" signature) "," = Some (names, sep +:+ "Signature" +:+ String "=" signature)) as ->.
  { destruct Hsep as [-> | ->]; by apply (strchr_app ","). }
  rewrite (proj2 (Nat.ltb_lt _ _)), (signature_part_whole signature), (proj2 (Nat.leb_gt _ _)) by done. done.
Qed.

(** ** Signature Version 4, as AWS describes it

    Written from AWS's description alone: the path and the parameters are decoded texts, the
    names of the headers are in any case and order. *)

Definition aws_unreserved (c : ascii) : bool :=
  let n := N_of_ascii c in
  ((48 <=? n) && (n <=? 57) || (65 <=? n) && (n <=? 90) || (97 <=? n) && (n <=? 122))%N
  || existsb (Ascii.eqb c) ["-"; "."; "_"; "~"]%char.

(** [UriEncode]: upper-case hexadecimal, a slash only stays in a path. *)
Definition aws_encode_char (slash : bool) (c : ascii) : string :=
  if aws_unreserved c || (slash && Ascii.eqb c "/") then String c ""
  else
    let digit n := default NUL (String.get (N.to_nat n) "0123456789ABCDEF") in
    "%" +:+ String (digit (N_of_ascii c / 16)%N) (String (digit (N_of_ascii c mod 16)%N) "").

Definition aws_encode (slash : bool) (s : string) : string :=
  joined (aws_encode_char slash <$> String.list_ascii_of_string s).

(** The canonical path of S3: encoded, not normalised. *)
Definition aws_path (path : string) : string :=
  match path with EmptyString => "/" | _ => aws_encode true path end.

Definition string_le (a b : string) : Prop := String.leb a b = true.

(** By name, then by value, byte by byte. *)
Definition param_le (a b : string * string) : Prop :=
  String.ltb a.1 b.1 = true ∨ (a.1 = b.1 ∧ string_le a.2 b.2).

#[export] Instance string_le_dec : RelDecision string_le.
Proof. unfold string_le. intros a b. apply _. Defined.

#[export] Instance param_le_dec : RelDecision param_le.
Proof. unfold param_le, string_le. intros a b. apply _. Defined.

(** The canonical query: every parameter encoded, with an equals sign even without a value,
    sorted. *)
Definition aws_query (params : list (string * string)) : string :=
  String.concat "&" ((λ p, p.1 +:+ "=" +:+ p.2)
    <$> merge_sort param_le ((λ p, (aws_encode false p.1, aws_encode false p.2)) <$> params)).

(** The names in lower case, sorted. *)
Definition aws_lower (s : string) : string :=
  String.string_of_list_ascii (tolower <$> String.list_ascii_of_string s).

Definition aws_names (names : list string) : list string := merge_sort string_le (aws_lower <$> names).

(** A value without blanks around it, with one blank between its words. *)
Definition aws_trim (value : string) : string := String.concat " " (strtok value " ").

Definition aws_lines (value : string → string) (names : list string) : string :=
  joined ((λ n, n +:+ ":" +:+ aws_trim (value n) +:+ NL) <$> aws_names names).

Definition aws_signed_headers (names : list string) : string := String.concat ";" (aws_names names).

(** [value] is the header of a name, whatever its case. *)
Definition aws_canonical_request (method path : string) (params : list (string * string))
    (value : string → string) (names : list string) (payload : string) : string :=
  method +:+ NL +:+ aws_path path +:+ NL +:+ aws_query params +:+ NL +:+ aws_lines value names +:+ NL
  +:+ aws_signed_headers names +:+ NL +:+ payload.

Lemma aws_encode_plain slash s : no_char "?" (aws_encode slash s).
Proof.
  unfold aws_encode. induction s as [|c s IH]; [done|]. cbn [String.list_ascii_of_string]. rewrite fmap_cons.
  cbn [joined]. apply no_char_app. split; [|exact IH].
  destruct slash, c as [[] [] [] [] [] [] [] []]; reflexivity.
Qed.

Lemma aws_path_plain path : no_char "?" (aws_path path).
Proof. destruct path; [done|apply aws_encode_plain]. Qed.

Lemma get_header_case headers a b :
  (∀ s, eq_nocase s a = eq_nocase s b) → uv_http_get_header headers a = uv_http_get_header headers b.
Proof. intros E. induction headers as [|h headers IH]; [done|]. cbn [uv_http_get_header]. by rewrite E, IH. Qed.

Lemma eq_nocase_tolower s : ∀ a b,
  tolower <$> String.list_ascii_of_string a = tolower <$> String.list_ascii_of_string b →
  eq_nocase s a = eq_nocase s b.
Proof.
  induction s as [|c s IH]; intros [|x a] [|y b]; try done. cbn. intros [= -> E]. by rewrite (IH a b E).
Qed.

Section Client.
Context `{CryptoLaws}.

Definition aws_signature (secret datetime region canonical : string) : option string :=
  match evp_sha256 canonical with
  | None => None
  | Some hash =>
      let day := strncpy 8 datetime in
      HMAC ("AWS4" +:+ secret) day ≫= λ k_date,
      HMAC k_date region ≫= λ k_region,
      HMAC k_region DEFAULT_SERVICE ≫= λ k_service,
      HMAC k_service AWS4_REQUEST ≫= λ k_signing,
      HMAC k_signing (AWS4_ALGORITHM +:+ NL +:+ datetime +:+ NL +:+ aws_scope day region +:+ NL +:+ bytes_to_hex hash)
        ≫= λ signature, Some (bytes_to_hex signature)
  end.

(** A request that a client signed as AWS describes it, with the key [access_key] and its
    secret; which headers it signs, and how it writes their names, is its choice. What it
    sends is what it signed: the path and the query on the wire are the canonical ones, the
    values of the signed headers have no blanks to remove. The sizes are those of the
    server's buffers. *)
Record client_signs (r : http_request) (access_key secret region path : string) (params : list (string * string))
    (datetime : string) (names : list string) (sep signature : string) : Prop := ClientSigns {
  cs_uri : (rq_uri r = aws_path path ∧ params = []) ∨ rq_uri r = aws_path path +:+ "?" +:+ aws_query params;
  cs_url : (strlen (aws_path path) < 2048)%nat ∧ (strlen (aws_query params) < 2048)%nat;
  cs_date : uv_http_get_header (rq_headers r) "x-amz-date" = Some datetime ∧ (8 ≤ strlen datetime < 64)%nat;
  cs_host : ∃ host, uv_http_get_header (rq_headers r) "Host" = Some host ∧ host ≠ "";
  cs_payload : ∃ payload, uv_http_get_header (rq_headers r) "x-amz-content-sha256" = Some payload ∧ payload ≠ "";
  cs_names : names ≠ [] ∧ Forall (λ n, n ≠ "" ∧ no_char ";" n) (aws_names names);
  cs_values n : n ∈ aws_names names →
    let value := default "" (uv_http_get_header (rq_headers r) n) in aws_trim value = value;
  cs_parts : auth_parts sep access_key (strncpy 8 datetime) region (aws_signed_headers names) signature;
  cs_some : access_key ≠ "" ∧ region ≠ "" ∧ (strlen secret < 128)%nat;
  cs_auth : uv_http_get_header (rq_headers r) "Authorization"
            = Some (aws_authorization sep access_key (strncpy 8 datetime) region (aws_signed_headers names) signature);
  cs_hash : is_Some (evp_sha256 (rq_body r));
  cs_sizes :
    let value n := default "" (uv_http_get_header (rq_headers r) n) in
    let canonical := aws_canonical_request (rq_method r) path params value names (value "x-amz-content-sha256") in
    (strlen (aws_lines value names) < 4096 - 256)%nat ∧ Z.of_nat (strlen canonical) < 8192 ∧
    aws_signature secret datetime region canonical = Some signature
}.

Lemma canonical_uri_client path params uri :
  (strlen (aws_path path) < 2048)%nat → (strlen (aws_query params) < 2048)%nat →
  (uri = aws_path path ∧ params = []) ∨ uri = aws_path path +:+ "?" +:+ aws_query params →
  canonical_uri uri = aws_path path ∧ canonical_query uri = aws_query params.
Proof using Type.
  intros Hpl Hql Hu. pose proof (aws_path_plain path) as Hp. unfold canonical_uri, canonical_query.
  destruct Hu as [[-> ->]| ->].
  - rewrite Hp. split; [|done]. apply strncpy_short. unfold strlen in *. lia.
  - change (aws_path path +:+ "?" +:+ aws_query params) with (aws_path path +:+ String "?" (aws_query params)).
    rewrite strchr_app by done. rewrite (proj2 (Nat.ltb_lt _ _)) by done. split; [done|].
    change (str_drop 1 (String "?" ?x)) with x. apply strncpy_short. unfold strlen in *. lia.
Qed.

(** The server computes the signature that the client computed. *)
Lemma expected_signature_client sr access_key secret region path params datetime names sep signature :
  client_signs (sr_http sr) access_key secret region path params datetime names sep signature →
  sr_date sr = datetime → sr_region sr = region → sr_signed_headers sr = aws_signed_headers names →
  expected_signature sr secret = Val (inr signature).
Proof using All.
  intros [Huri (Hpl & Hql) [Hdate Hdl] (host & Hhost & Hhne) (payload & Hpay & Hpne) [Hnne Hn] Hvalues Hparts
          (Hak & Hreg & Hsec) _ [hash Hhash] (Hlines & Hcanon & Hsig)] Edate Eregion Enames.
  unfold expected_signature. rewrite Hhash. cbv zeta.
  assert (signed_payload sr (bytes_to_hex hash) = payload) as ->.
  { unfold signed_payload. rewrite Hpay. by destruct payload. }
  assert (request_host sr = host) as -> by (unfold request_host; rewrite Hhost; by destruct host).
  assert (aws_names names ≠ []) as Hane.
  { intros E. apply (f_equal length) in E. unfold aws_names in E.
    rewrite (Permutation_length (merge_sort_Permutation _ _)), length_fmap in E. by destruct names. }
  unfold aws_signed_headers in *. set (anames := aws_names names) in *.
  assert (String.concat ";" anames ≠ "") as Hcne.
  { destruct Hn as [|n l [Hn1 _] _]; [done|]. destruct l; [done|]. by destruct n. }
  assert (signed_names sr = String.concat ";" anames) as Hsn.
  { unfold signed_names. rewrite Enames. by destruct (String.concat ";" anames). }
  rewrite Hsn.
  assert (strtok (strncpy 511 (String.concat ";" anames)) ";" = anames) as ->.
  { destruct Hparts as [_ _ _ _ [Hl _] _]. rewrite strncpy_short by (unfold strlen in *; lia). by apply strtok_concat. }
  set (value := λ n, default "" (uv_http_get_header (rq_headers (sr_http sr)) n)) in *.
  assert (joined (header_line sr host payload <$> anames) = aws_lines value names) as Hjoined.
  { unfold aws_lines. fold anames. f_equal. apply list_fmap_ext. intros i n Hi. unfold header_line. do 2 f_equal.
    assert (aws_trim (value n) = value n) as -> by (apply Hvalues; by eapply list_elem_of_lookup_2).
    unfold signed_value, value. unfold strcmp_eq. repeat case_bool_decide; subst; [| | |done].
    - rewrite <- (get_header_case _ "Host" "host"), Hhost; [done|]. intros s. by apply eq_nocase_tolower.
    - by rewrite Hpay.
    - by rewrite Hdate. }
  rewrite header_lines_whole by (rewrite Hjoined; lia). change ("" +:+ ?x) with x. rewrite Hjoined.
  destruct (canonical_uri_client path params (rq_uri (sr_http sr)) Hpl Hql Huri) as [-> ->].
  assert (default "" (uv_http_get_header (rq_headers (sr_http sr)) "x-amz-content-sha256") = payload) as Hv by by rewrite Hpay.
  rewrite Hv in Hcanon, Hsig.
  unfold build_canonical_request, printed_whole. unfold aws_canonical_request, aws_signed_headers in Hcanon, Hsig.
  fold anames in Hcanon, Hsig.
  set (canonical := rq_method (sr_http sr) +:+ NL +:+ _) in *.
  rewrite (proj2 (Nat.leb_gt _ _)) by lia.
  unfold aws_signature in Hsig. destruct (evp_sha256 canonical) as [chash|] eqn:Ec; [|done].
  assert (request_day sr = strncpy 8 datetime) as ->.
  { unfold request_day. rewrite Edate, (proj2 (Nat.leb_le _ _)) by lia. done. }
  assert (request_region sr = region) as -> by (unfold request_region; rewrite Eregion; by destruct region).
  rewrite Edate. unfold build_string_to_sign, printed_whole. cbv zeta in Hsig.
  set (tosign := AWS4_ALGORITHM +:+ NL +:+ datetime +:+ NL +:+ strncpy 8 datetime +:+ _).
  assert (AWS4_ALGORITHM +:+ NL +:+ datetime +:+ NL +:+ aws_scope (strncpy 8 datetime) region +:+ NL +:+ bytes_to_hex chash = tosign) as Hts.
  { subst tosign. unfold aws_scope. by rewrite !string_app_assoc. }
  rewrite Hts in Hsig.
  assert (strlen tosign < Z.to_nat 4096)%nat as Hlen.
  { rewrite <- Hts. destruct Hparts as [_ _ _ [Hrl _] _ _]. unfold aws_scope. rewrite !strlen_app, strlen_hex, (sha256_length _ _ Ec).
    pose proof (length_strncpy 8 datetime) as H8. unfold strlen in *. cbn. lia. }
  rewrite (proj2 (Nat.leb_gt _ _)) by done.
  unfold calculate_signing_key. rewrite strlen_app. change (strlen "AWS4") with 4%nat.
  rewrite (proj2 (Nat.leb_gt _ _)) by lia.
  unfold calculate_signature, hmac_sha256.
  repeat match type of Hsig with
  | (HMAC ?k ?x ≫= _) = Some _ =>
      let d := fresh "d" in let E := fresh "E" in
      destruct (HMAC k x) as [d|] eqn:E; [|done]; cbn [mbind option_bind] in Hsig;
      rewrite ?(hmac_length _ _ _ E); cbn [Nat.eqb]; cbv iota
  end.
  by injection Hsig as ->.
Qed.
End Client.
