(* ===== verification/S3Xml.v ===== *)
(** * XML answers (src/src/s3/s3_xml.c)

    The response that an S3 operation fills, and the texts of errors and successes. *)

From S2P Require Import Prelude CInt CString CSearch HttpWire.
From Stdlib Require Import Ascii.

Local Open Scope c_scope.

(** A body comes with its length, which may differ for an answer to HEAD. *)
Record s3_response := S3Response {
  sp_status_code : Z;
  sp_body : option string;
  sp_body_len : Z;
  sp_etag : string;
  sp_content_length : Z;
  sp_content_type : string;
  sp_last_modified : string;
  sp_version_id : string;
  sp_user_meta : list (string * string);
  sp_error_code : string;
  sp_error_message : string
}.

(** The zeroed response. *)
Definition empty_s3_response : s3_response := S3Response 0 None 0 "" 0 "" "" "" [] "" "".

Definition xml_quote : ascii := ascii_of_nat 34.

(** What stands for a character. *)
Definition xml_char (c : ascii) : string :=
  if bool_decide (c = "<"%char) then "&lt;"
  else if bool_decide (c = ">"%char) then "&gt;"
  else if bool_decide (c = "&"%char) then "&amp;"
  else if bool_decide (c = xml_quote) then "&quot;"
  else if bool_decide (c = "'"%char) then "&apos;"
  else String c "".

(** The loop stops when fewer than 7 bytes are left. *)
Fixpoint xml_escape_loop (max_len : nat) (input output : string) : string :=
  match input with
  | EmptyString => output
  | String c input =>
      if (strlen output <? max_len - 6)%nat then xml_escape_loop max_len input (output +:+ xml_char c) else output
  end.

Definition xml_escape (input : string) (max_len : nat) : string := xml_escape_loop max_len input "".

Definition line (s : string) : string := s +:+ String LF "".

Definition xml_head : string :=
  line ("<?xml version=" +:+ String xml_quote "1.0" +:+ String xml_quote " encoding=" +:+ String xml_quote "UTF-8"
        +:+ String xml_quote "?>").

Definition set_xml (res : s3_response) (xml : string) (status : Z) (code message : string) : s3_response :=
  S3Response status (Some xml) (Z.of_nat (strlen xml)) (sp_etag res) (sp_content_length res) (sp_content_type res)
    (sp_last_modified res) (sp_version_id res) (sp_user_meta res) code message.

Definition buckets_s3_xml_success (res : s3_response) (root_element : string) : s3_response :=
  let quoted s := String xml_quote s +:+ String xml_quote "" in
  set_xml res
    (xml_head +:+ line ("<" +:+ root_element +:+ " xmlns=" +:+ quoted "http://s3.amazonaws.com/doc/2006-03-01/" +:+ ">")
     +:+ (match sp_etag res with EmptyString => "" | etag => line ("  <ETag>" +:+ quoted etag +:+ "</ETag>") end)
     +:+ (match sp_version_id res with EmptyString => "" | id => line ("  <VersionId>" +:+ id +:+ "</VersionId>") end)
     +:+ line ("</" +:+ root_element +:+ ">"))
    200 (sp_error_code res) (sp_error_message res).

Definition error_status (error_code : string) : Z :=
  let is_one_of l := existsb (strcmp_eq error_code) l in
  if is_one_of ["NoSuchBucket"; "NoSuchKey"; "NoSuchUpload"] then 404
  else if is_one_of ["AccessDenied"; "SignatureDoesNotMatch"] then 403
  else if is_one_of ["BucketAlreadyExists"; "BucketAlreadyOwnedByYou"; "BucketNotEmpty"] then 409
  else if is_one_of ["InvalidBucketName"; "InvalidRequest"; "InvalidPart"; "InvalidPartNumber"; "MalformedXML"] then 400
  else 500.

(** The buffer of 4096 bytes is larger than the text (lemma [error_xml_fits]). *)
Definition error_xml (error_code message : string) (resource : option string) (now : Z) : string :=
  xml_head +:+ line "<Error>" +:+ line ("  <Code>" +:+ error_code +:+ "</Code>")
  +:+ line ("  <Message>" +:+ xml_escape message 512 +:+ "</Message>")
  +:+ (match resource with
       | Some r => line ("  <Resource>" +:+ xml_escape r 1024 +:+ "</Resource>")
       | None => ""
       end)
  +:+ line ("  <RequestId>" +:+ pretty now +:+ "</RequestId>") +:+ line "</Error>".

Definition buckets_s3_xml_error (res : s3_response) (error_code message : string) (resource : option string) (now : Z)
    : s3_response :=
  set_xml res (error_xml error_code message resource now) (error_status error_code)
    (strncpy 63 error_code) (strncpy 255 message).

(** [None] when the element does not fit in [max_len] bytes (what fits was written). *)
Definition buckets_s3_xml_add_element (xml_body : string) (max_len : nat) (key value : string) : option string :=
  let added := line ("  <" +:+ key +:+ ">" +:+ xml_escape value 1024 +:+ "</" +:+ key +:+ ">") in
  if (max_len - strlen xml_body <=? strlen added)%nat then None else Some (xml_body +:+ added).

(** ** The escaped text *)

Lemma strlen_xml_char c : (strlen (xml_char c) ≤ 6)%nat.
Proof. unfold xml_char. repeat case_bool_decide; cbn; lia. Qed.

(** Never past the end of the buffer. *)
Lemma xml_escape_fits input max_len : (6 < max_len)%nat → (strlen (xml_escape input max_len) < max_len)%nat.
Proof.
  intros Hm. unfold xml_escape. assert (strlen "" < max_len)%nat as H by (cbn; lia). revert H. generalize "".
  induction input as [|c input IH]; intros out Hout; [done|]. cbn [xml_escape_loop].
  destruct (_ <? _)%nat eqn:E; [apply Nat.ltb_lt in E|done]. apply IH. rewrite strlen_app.
  pose proof (strlen_xml_char c). lia.
Qed.

(** The escaped text opens no element and ends none. *)
Lemma xml_escape_inert input max_len c :
  c = "<"%char ∨ c = ">"%char ∨ c = xml_quote ∨ c = "'"%char → no_char c (xml_escape input max_len).
Proof.
  intros Hc. unfold xml_escape. assert (no_char c "") as H by done. revert H. generalize "".
  induction input as [|d input IH]; intros out Hout; [done|]. cbn [xml_escape_loop]. split_if; [|done].
  apply IH, no_char_app. split; [done|]. unfold xml_char.
  destruct Hc as [-> | [-> | [-> | ->]]]; repeat case_bool_decide; try done; by apply no_char_cons.
Qed.

Lemma error_xml_fits error_code message resource now :
  (strlen error_code ≤ 64)%nat → (strlen (pretty now) ≤ 20)%nat →
  (strlen (error_xml error_code message resource now) < Z.to_nat 4096)%nat.
Proof.
  intros Hc Hn. unfold error_xml, line. assert (strlen xml_head = 39)%nat as Hhead by done.
  pose proof (xml_escape_fits message 512 ltac:(lia)) as Hm. revert Hm. generalize (xml_escape message 512). intros m Hm.
  revert Hhead. generalize xml_head. intros head Hhead. destruct resource as [r|].
  - pose proof (xml_escape_fits r 1024 ltac:(lia)) as Hr. revert Hr. generalize (xml_escape r 1024). intros r' Hr.
    rewrite !strlen_app. unfold strlen in *. cbn. lia.
  - rewrite !strlen_app. unfold strlen in *. cbn. lia.
Qed.
