(* ===== verification/S3Handler.v ===== *)
(** * The handler of S3 requests (src/src/s3/s3_handler.c)

    A request is parsed, its signature is verified, and one operation runs, chosen by the
    method, the bucket, the key and the query. The operations themselves are an interface. *)

From S2P Require Import Prelude CInt CString CSearch XlMeta HttpWire Transport HttpServer S3Path S3Stream Credentials S3Auth S3Xml.
From Stdlib Require Import Ascii.

Local Open Scope c_scope.

(** ** Parsing *)

Definition get_header (r : http_request) (name : string) : option string :=
  uv_http_get_header (rq_headers r) name.

(** One parameter, decoded into buffers of 256 and 1024 bytes. *)
Definition parse_param (pair : string) : c_result (string * string) :=
  match strchr pair "=" with
  | Some (key, rest) =>
      let* k := url_decode 256 key in
      let* v := url_decode 1024 (str_drop 1 rest) in
      Val (k, v)
  | None => let* k := url_decode 256 pair in Val (k, "")
  end.

Fixpoint parse_params (pairs : list string) : c_result (list (string * string)) :=
  match pairs with
  | [] => Val []
  | p :: pairs =>
      let* kv := parse_param p in
      let* l := parse_params pairs in
      Val (kv :: l)
  end.

(** [query_string] starts at the question mark of the URL. There is one more parameter than
    ampersands at most, so the arrays hold all of them. *)
Definition query_params (uri : string) : c_result (list (string * string)) :=
  match strchr uri "?" with
  | Some (_, query) => parse_params (strtok (str_drop 1 query) "&")
  | None => Val []
  end.

(** The date: x-amz-date, or Date. *)
Definition header_date (r : http_request) : string :=
  match nonempty (get_header r "x-amz-date") with
  | Some d => strncpy 63 d
  | None => match nonempty (get_header r "Date") with Some d => strncpy 63 d | None => "" end
  end.

(** [None] for a path that is refused. What a failed reading of the Authorization header has
    filled in stays, but for the region. *)
Definition buckets_s3_parse_request (r : http_request) : c_result (option s3_request) :=
  match parse_s3_path (rq_uri r) with
  | None => Val None
  | Some (bucket, key) =>
      let* params := query_params (rq_uri r) in
      let content_type := match nonempty (get_header r "Content-Type") with Some ct => strncpy 127 ct | None => "" end in
      let '(rc, auth) :=
        match nonempty (get_header r "Authorization") with
        | Some h => buckets_s3_parse_auth_header h 32 64
        | None => (BUCKETS_ERR_INVALID_ARG, no_auth)
        end in
      Val (Some (S3Request bucket key content_type (user_meta_headers (rq_headers r)) (au_access_key auth)
                   (au_signature auth) (au_signed_headers auth) (header_date r)
                   (match rc with BUCKETS_OK => strncpy 63 (au_region auth) | _ => "" end) params r))
  end.

(** ** Routing *)

Inductive s3_op :=
  | UploadPart | PutObject | PutBucketVersioning | PutBucket
  | ListParts | GetObjectVersion | GetObject | ListObjectVersions | GetBucketVersioning
  | ListObjectsV2 | ListObjectsV1 | ListBuckets
  | AbortMultipartUpload | DeleteObject | DeleteBucket
  | HeadObject | HeadBucket
  | InitiateMultipartUpload | CompleteMultipartUpload.

Definition has_query_param (r : s3_request) (key : string) : bool :=
  existsb (λ kv, strcmp_eq kv.1 key) (sr_params r).

(** s3_versioning.c *)
Definition buckets_s3_has_version_id (r : s3_request) : bool :=
  existsb (λ kv, strcmp_eq kv.1 "versionId" && (0 <? strlen kv.2)%nat) (sr_params r).
Definition buckets_s3_is_versioning_request (r : s3_request) : bool := has_query_param r "versioning".
Definition buckets_s3_is_list_versions_request (r : s3_request) : bool := has_query_param r "versions".

Fixpoint first_param (params : list (string * string)) (key : string) : option string :=
  match params with
  | [] => None
  | (k, v) :: params => if strcmp_eq k key then Some v else first_param params key
  end.

(** An operation, the answer to GetBucketLocation, or an error. *)
Inductive s3_action :=
  | RunOp (op : s3_op)
  | BucketLocation
  | RefuseWith (code message resource : string).

Definition s3_route (r : s3_request) : s3_action :=
  let method := rq_method (sr_http r) in
  let has_bucket := negb (strcmp_eq (sr_bucket r) "") in
  let has_object := has_bucket && negb (strcmp_eq (sr_key r) "") in
  if strcmp_eq method "PUT" then
    if has_object then
      if has_query_param r "uploadId" && has_query_param r "partNumber" then RunOp UploadPart else RunOp PutObject
    else if has_bucket then
      if buckets_s3_is_versioning_request r then RunOp PutBucketVersioning else RunOp PutBucket
    else RefuseWith "InvalidRequest" "Invalid PUT request" "/"
  else if strcmp_eq method "GET" then
    if has_object then
      if has_query_param r "uploadId" then RunOp ListParts
      else if buckets_s3_has_version_id r then RunOp GetObjectVersion
      else RunOp GetObject
    else if has_bucket then
      if has_query_param r "location" then BucketLocation
      else if buckets_s3_is_list_versions_request r then RunOp ListObjectVersions
      else if buckets_s3_is_versioning_request r then RunOp GetBucketVersioning
      else match first_param (sr_params r) "list-type" with
           | Some t => if strcmp_eq t "2" then RunOp ListObjectsV2 else RunOp ListObjectsV1
           | None => RunOp ListObjectsV1
           end
    else RunOp ListBuckets
  else if strcmp_eq method "DELETE" then
    if has_object then
      if has_query_param r "uploadId" then RunOp AbortMultipartUpload else RunOp DeleteObject
    else if has_bucket then RunOp DeleteBucket
    else RefuseWith "InvalidRequest" "Invalid DELETE request" "/"
  else if strcmp_eq method "HEAD" then
    if has_object then RunOp HeadObject
    else if has_bucket then RunOp HeadBucket
    else RefuseWith "InvalidRequest" "Invalid HEAD request" "/"
  else if strcmp_eq method "POST" then
    if has_object then
      if has_query_param r "uploads" then RunOp InitiateMultipartUpload
      else if has_query_param r "uploadId" then RunOp CompleteMultipartUpload
      else RefuseWith "InvalidRequest" "Invalid POST request" (rq_uri (sr_http r))
    else RefuseWith "InvalidRequest" "Invalid POST request" "/"
  else RefuseWith "MethodNotAllowed" "Method not allowed" (rq_uri (sr_http r)).

(** ** Handling *)

(** The operations and the handler of calls between nodes, over the state they share. *)
Class S3Ops := {
  s3_state : Type;
  s3_run : s3_op → s3_request → s3_response → s3_state → c_result (s3_response * s3_state);
  buckets_rpc_http_handler : http_request → http_response → s3_state → c_result (http_response * s3_state)
}.

Definition location_xml : string :=
  let quoted s := String xml_quote s +:+ String xml_quote "" in
  xml_head +:+ "<LocationConstraint xmlns=" +:+ quoted "http://s3.amazonaws.com/doc/2006-03-01/" +:+ "/>".

Definition denied_xml (code message : string) : string :=
  xml_head +:+ "<Error><Code>" +:+ code +:+ "</Code><Message>" +:+ message +:+ "</Message></Error>".

(** The HTTP answer to a request whose signature is not accepted. *)
Definition refuse_response (method : string) (err : buckets_error_t) (res : http_response) : http_response :=
  let res := buckets_http_response_set_header
               (HttpResponse 403 (rs_headers res) (rs_body res) (rs_body_len res)) "Content-Type" "application/xml" in
  if strcmp_eq method "HEAD" then HttpResponse (rs_status res) (rs_headers res) None 0
  else
    let xml := match err with
               | BUCKETS_ERR_ACCESS_DENIED => denied_xml "AccessDenied" "Access Denied"
               | _ => denied_xml "SignatureDoesNotMatch"
                        "The request signature we calculated does not match the signature you provided"
               end in
    HttpResponse (rs_status res) (rs_headers res) (Some xml) (Z.of_nat (strlen xml)).

(** The HTTP answer that an S3 response becomes. *)
Definition convert_response (method : string) (sp : s3_response) (res : http_response) : http_response :=
  let head := strcmp_eq method "HEAD" in
  let res := HttpResponse (sp_status_code sp) (rs_headers res) (rs_body res) (rs_body_len res) in
  let res :=
    if head then HttpResponse (rs_status res) (rs_headers res) None 0
    else match sp_body sp with
         | Some b => HttpResponse (rs_status res) (rs_headers res) (Some b) (sp_body_len sp)
         | None => res
         end in
  let add (name value : string) (res : http_response) :=
    match value with EmptyString => res | _ => buckets_http_response_set_header res name value end in
  let res := add "ETag" (sp_etag sp) res in
  let res := add "Last-Modified" (sp_last_modified sp) res in
  let res := buckets_http_response_set_header res "Content-Type"
               (match sp_content_type sp with EmptyString => "application/xml" | ct => ct end) in
  let res := add "x-amz-version-id" (sp_version_id sp) res in
  let res := foldl (λ res kv, buckets_http_response_set_header res (snprintf 256 ("x-amz-meta-" +:+ kv.1)) kv.2)
               res (sp_user_meta sp) in
  if head then
    if 0 <? sp_content_length sp then HttpResponse (rs_status res) (rs_headers res) (rs_body res) (sp_content_length sp)
    else if 0 <? sp_body_len sp then HttpResponse (rs_status res) (rs_headers res) (rs_body res) (sp_body_len sp)
    else res
  else res.

Section Handler.
Context `{Crypto} `{S3Ops}.

(** [now] is the clock of the request. *)
Definition run_action (now : Z) (action : s3_action) (sr : s3_request) (s : s3_state) : c_result (s3_response * s3_state) :=
  match action with
  | RunOp op => s3_run op sr empty_s3_response s
  | BucketLocation =>
      Val (S3Response 200 (Some location_xml) (Z.of_nat (strlen location_xml)) "" 0 "" "" "" [] "" "", s)
  | RefuseWith code message resource =>
      Val (buckets_s3_xml_error empty_s3_response code message (Some resource) now, s)
  end.

Definition buckets_s3_handler (g_auth_enabled : bool) (now : Z) : http_handler (cred_store * s3_state) :=
  λ r res st,
  let '(g, s) := st in
  if strcmp_eq (rq_uri r) "/health" then Val (HttpResponse 200 (rs_headers res) None 0, st)
  else if strcmp_eq (rq_uri r) "/rpc" then
    let* out := buckets_rpc_http_handler r res s in Val (out.1, (g, out.2))
  else
    let* parsed := buckets_s3_parse_request r in
    match parsed with
    | None => Val (buckets_http_response_error res 400 (Some "Invalid S3 request"), st)
    | Some sr =>
        let* verified :=
          if g_auth_enabled then buckets_s3_verify_signature g_auth_enabled now sr None g else Val (BUCKETS_OK, g) in
        match verified with
        | (BUCKETS_OK, g) =>
            let* out := run_action now (s3_route sr) sr s in
            Val (convert_response (rq_method r) out.1 res, (g, out.2))
        | (err, g) => Val (refuse_response (rq_method r) err res, (g, s))
        end
    end.
End Handler.

(** ** Properties *)

Section Properties.
Context `{CryptoLaws} `{S3Ops}.

Lemma error_response_status res : rs_status (buckets_http_response_error res 400 (Some "Invalid S3 request")) = 400.
Proof using Type. reflexivity. Qed.

Lemma refuse_response_status method err res : rs_status (refuse_response method err res) = 403.
Proof using Type. unfold refuse_response. by destruct (strcmp_eq method "HEAD"). Qed.

(** Verification fails without touching the keys. *)
Lemma verify_failed now sr g err g' :
  buckets_s3_verify_signature true now sr None g = Val (err, g') → err ≠ BUCKETS_OK → g' = g.
Proof using Type.
  unfold buckets_s3_verify_signature. cbn [negb nonempty]. repeat (split_if; [by intros [= _ <-]|]).
  destruct (buckets_credentials_get_secret _ _ _) as [rc [secret|]]; [|destruct rc; by intros [= _ <-]].
  destruct rc; try (by intros [= _ <-]). split_if; [by intros [= _ <-]|].
  destruct (expected_signature sr secret) as [[e|sig]|]; cbn [c_bind]; [by intros [= _ <-]| |done].
  split_if; intros [= <- <-]; done.
Qed.

(** A request without an Authorization header has no key. *)
Lemma unsigned_request r sr :
  buckets_s3_parse_request r = Val (Some sr) → nonempty (get_header r "Authorization") = None → sr_access_key sr = "".
Proof using Type.
  unfold buckets_s3_parse_request. intros Hp Hn. rewrite Hn in Hp.
  destruct (parse_s3_path _) as [[b k]|]; [|done]. destruct (query_params _); [|done].
  cbn [c_bind] in Hp. by injection Hp as <-.
Qed.

(** The answer is a refusal and nothing changed. *)
Definition refused (g g' : cred_store) (s s' : s3_state) (res' : http_response) : Prop :=
  g' = g ∧ s' = s ∧ (rs_status res' = 400 ∨ rs_status res' = 403).

(** C8: No S3 operation runs for a request that is not signed: while authentication is on, the
    handler either refuses the request (400 or 403) and leaves the objects and the keys as they
    were, or the request carries the signature of an enabled key and exactly the one operation
    that the method, the bucket, the key and the query select has run on the objects, whose
    answer is the one that is sent; a request without an Authorization header is always
    refused. The health check and the endpoint of the other nodes are apart. *)
Theorem s3_operation_needs_signature now r res g s res' g' s' :
  buckets_s3_handler true now r res (g, s) = Val (res', (g', s')) →
  rq_uri r ≠ "/health" → rq_uri r ≠ "/rpc" →
  (nonempty (get_header r "Authorization") = None → refused g g' s s' res') ∧
  (refused g g' s s' res' ∨
   ∃ sr secret sp,
     buckets_s3_parse_request r = Val (Some sr) ∧
     buckets_credentials_get_secret g (Some (sr_access_key sr)) 128 = (BUCKETS_OK, Some secret) ∧
     expected_signature sr secret = Val (inr (sr_signature sr)) ∧
     g' = buckets_credentials_touch now g (Some (sr_access_key sr)) ∧
     run_action now (s3_route sr) sr s = Val (sp, s') ∧ res' = convert_response (rq_method r) sp res).
Proof using Type.
  intros Hh Hu1 Hu2. unfold buckets_s3_handler, strcmp_eq in Hh. rewrite !bool_decide_eq_false_2 in Hh by done.
  destruct (buckets_s3_parse_request r) as [[sr|]|] eqn:Ep; cbn [c_bind] in Hh; [| |done].
  2:{ injection Hh as <- <- <-. assert (refused g g s s (buckets_http_response_error res 400 (Some "Invalid S3 request")))
        by (split_and!; [done|done|left; apply error_response_status]). by split; [|left]. }
  destruct (buckets_s3_verify_signature true now sr None g) as [[err g1]|] eqn:Ev; cbn [c_bind] in Hh; [|done].
  destruct (decide (err = BUCKETS_OK)) as [->|Herr].
  - pose proof Ev as Ev'. apply verify_accepted in Ev' as (secret & Hsec & Hexp & Eg).
    destruct (run_action now (s3_route sr) sr s) as [[sp s1]|] eqn:Er; cbn [c_bind fst snd] in Hh; [|done].
    injection Hh as <- <- <-. split.
    + intros Hn. exfalso. pose proof (unsigned_request r sr Ep Hn) as Hk. revert Ev.
      unfold buckets_s3_verify_signature. cbn [negb]. unfold strcmp_eq at 1. by rewrite bool_decide_eq_true_2.
    + right. by exists sr, secret, sp.
  - pose proof (verify_failed now sr g err g1 Ev Herr) as ->.
    assert (refused g g' s s' res') as Href.
    { assert (Val (refuse_response (rq_method r) err res, (g, s)) = Val (res', (g', s'))) as E by by destruct err.
      injection E as <- <- <-. split_and!; [done|done|right; apply refuse_response_status]. }
    by split; [|left].
Qed.

(** C16: What a client signs is served: a request that is signed as AWS describes it (the path and
    the parameters encoded, the parameters sorted and written with an equals sign, the names
    of the headers in lower case and sorted, their values trimmed), with a key that is enabled
    and whatever headers the client chose to sign, runs the operation that it asks for and
    marks the key as used, provided its parts fit the buffers of the server, and it sends its
    path, its query and the values of its headers as it signed them: the server brings none of
    them into canonical form ([query_not_sorted], [value_not_trimmed]). *)
Theorem signed_request_served now r res g s access_key region path sent datetime names sep signature c bucket key params :
  client_signs r access_key (cr_secret_key c) region path sent datetime names sep signature → signature ≠ "" →
  find_credential (g_credentials g) access_key = Some c → cr_enabled c = true →
  parse_s3_path (rq_uri r) = Some (bucket, key) → query_params (rq_uri r) = Val params →
  rq_uri r ≠ "/health" → rq_uri r ≠ "/rpc" →
  ∃ sr,
    sr_bucket sr = bucket ∧ sr_key sr = key ∧ sr_params sr = params ∧ sr_http sr = r ∧ sr_access_key sr = access_key ∧
    buckets_s3_handler true now r res (g, s)
    = (let* out := run_action now (s3_route sr) sr s in
       Val (convert_response (rq_method r) out.1 res, (buckets_credentials_touch now g (Some access_key), out.2))).
Proof using All.
  intros Hsigns Hsne Hc Hen Hpath Hparams Hu1 Hu2.
  pose proof Hsigns as [_ _ [Hdate Hdl] _ _ _ _ Hparts (Hak & Hreg & Hsec) Hauth _ _].
  set (content_type := match nonempty (get_header r "Content-Type") with Some ct => strncpy 127 ct | None => "" end).
  exists (S3Request bucket key content_type (user_meta_headers (rq_headers r)) access_key signature (aws_signed_headers names) datetime region params r).
  split_and!; [done..|].
  unfold buckets_s3_handler, strcmp_eq. rewrite !bool_decide_eq_false_2 by done.
  unfold buckets_s3_parse_request. rewrite Hpath, Hparams. cbn [c_bind]. fold content_type. unfold header_date.
  assert (∀ s, s ≠ "" → nonempty (Some s) = Some s) as Hne by (by intros [|? ?]).
  assert (aws_authorization sep access_key (strncpy 8 datetime) region (aws_signed_headers names) signature ≠ "") as Hane by done.
  unfold get_header. rewrite Hauth, (Hne _ Hane), (parse_authorization _ _ _ _ _ _ Hparts). cbv iota zeta.
  cbn [au_access_key au_signature au_signed_headers au_region].
  rewrite Hdate, Hne by (intros ->; cbn in Hdl; lia).
  rewrite (strncpy_short 63 datetime), (strncpy_short 63 region);
    [|destruct Hparts as [_ _ _ [Hrl _] _ _]; unfold strlen in *; lia|unfold strlen in *; lia].
  cbv iota. set (sr := S3Request _ _ _ _ _ _ _ _ _ _ _). cbn [c_bind].
  assert (buckets_s3_verify_signature true now sr None g = Val (BUCKETS_OK, buckets_credentials_touch now g (Some access_key))) as ->.
  { unfold buckets_s3_verify_signature, strcmp_eq. cbn [negb sr_access_key sr_signature sr_date sr]. subst sr.
    cbn [sr_access_key sr_signature sr_date].
    rewrite !bool_decide_eq_false_2 by (done || intros ->; cbn in Hdl; lia).
    cbn [nonempty]. unfold buckets_credentials_get_secret. change (128 =? 0)%nat with false. cbv iota.
    rewrite Hc, Hen. cbn [negb]. rewrite strncpy_short by (unfold strlen in *; lia).
    erewrite expected_signature_client; [|exact Hsigns|done..]. cbn [c_bind].
    by rewrite (proj2 (signatures_match_eq _ _)). }
  done.
Qed.
End Properties.

(** ** A server that runs *)

(** A digest of 32 bytes; the laws ask for no more. *)
Definition toy_digest (x : string) : string :=
  String.string_of_list_ascii
    ((λ i, ascii_of_N (foldl (λ acc c, (acc * (N.of_nat i + 31) + N_of_ascii c) mod 256) 7 (String.list_ascii_of_string x))%N)
       <$> seq 0 32).

#[local] Instance toy_crypto : Crypto := {|
  evp_sha256 x := Some (toy_digest x);
  HMAC k x := Some (toy_digest (k +:+ String LF x))
|}.

Lemma strlen_toy x : strlen (toy_digest x) = 32%nat.
Proof. reflexivity. Qed.

#[local] Instance toy_crypto_laws : CryptoLaws.
Proof. split; [intros x d [= <-]|intros k x d [= <-]]; apply strlen_toy. Qed.

(** The operations are recorded. *)
#[local] Instance logged_ops : S3Ops := {|
  s3_state := list (s3_op * string * string);
  s3_run op r sp s := Val (sp, s ++ [(op, sr_bucket r, sr_key r)]);
  buckets_rpc_http_handler r res s := Val (res, s)
|}.

Definition no_calls : @s3_state logged_ops := [].

Definition example_keys : cred_store := CredStore g_default_credentials 32 ".buckets.sys/credentials.json" true.

(** The headers that the client signs, as it names them. *)
Definition example_names : list string := ["X-Amz-Date"; "Host"; "X-Amz-Content-Sha256"].

Definition example_params : list (string * string) := [("versionId", "3"); ("a b", "")].

(** The headers of a request that declares the hash of an empty body. *)
Definition plain_headers : list (string * string) :=
  [("Host", "localhost:9000"); ("X-Amz-Date", "20260101T000000Z");
   ("X-Amz-Content-Sha256", bytes_to_hex (toy_digest ""))].

Definition example_canonical : string :=
  let value n := default "" (uv_http_get_header plain_headers n) in
  aws_canonical_request "GET" "/photos/cat" example_params value example_names (value "x-amz-content-sha256").

Definition example_signature : string :=
  Eval vm_compute in default "" (aws_signature "minioadmin" "20260101T000000Z" "us-east-1" example_canonical).

Definition signed_example (body : string) : http_request :=
  HttpRequest "GET" "/photos/cat?a%20b=&versionId=3"
    (plain_headers ++
     [("Authorization", aws_authorization ", " "minioadmin" "20260101" "us-east-1"
        "host;x-amz-content-sha256;x-amz-date" example_signature)])
    body.

Lemma example_signed body :
  client_signs (signed_example body) "minioadmin" "minioadmin" "us-east-1" "/photos/cat" example_params
    "20260101T000000Z" example_names ", " example_signature.
Proof.
  split.
  - right. vm_compute. reflexivity.
  - split; apply Nat.ltb_lt; vm_compute; reflexivity.
  - split; [done|]. cbn. lia.
  - by eexists.
  - by eexists.
  - split; [done|]. apply (bool_decide_unpack _). vm_compute. exact I.
  - intros n Hn. assert (n ∈ ["host"; "x-amz-content-sha256"; "x-amz-date"]) as Hin.
    { revert Hn. vm_compute. auto. }
    rewrite !elem_of_cons, elem_of_nil in Hin. destruct Hin as [->|[->|[->|[]]]]; vm_compute; reflexivity.
  - split; [by right|..]; (split; [apply Nat.ltb_lt; vm_compute; reflexivity|]); split; by vm_compute.
  - split; [done|]. split; [done|]. cbn. lia.
  - vm_compute. reflexivity.
  - by eexists.
  - split; [apply Nat.ltb_lt; vm_compute; reflexivity|].
    split; [apply Z.ltb_lt; vm_compute; reflexivity|vm_compute; reflexivity].
Qed.

Lemma signed_request_served_witness :
  ∃ sr, sr_bucket sr = "photos" ∧ sr_key sr = "cat" ∧ sr_params sr = [("a b", ""); ("versionId", "3")] ∧
    sr_http sr = signed_example "" ∧ sr_access_key sr = "minioadmin" ∧
    buckets_s3_handler true 1767225600 (signed_example "") empty_response (example_keys, no_calls)
    = (let* out := run_action 1767225600 (s3_route sr) sr no_calls in
       Val (convert_response (rq_method (signed_example "")) out.1 empty_response,
            (buckets_credentials_touch 1767225600 example_keys (Some "minioadmin"), out.2))).
Proof.
  apply (signed_request_served 1767225600 (signed_example "") empty_response example_keys no_calls "minioadmin" "us-east-1"
           "/photos/cat" example_params "20260101T000000Z" example_names ", " example_signature
           (Credential "minioadmin" "minioadmin" "Default MinIO-compatible admin" "readwrite" 0 0 true)
           "photos" "cat" [("a b", ""); ("versionId", "3")]).
  - apply example_signed.
  - done.
  - reflexivity.
  - reflexivity.
  - reflexivity.
  - vm_compute. reflexivity.
  - done.
  - done.
Defined.

(** The handler on it: the operation that ran and the status. *)
Definition example_outcome (r : http_request) : option (list (s3_op * string * string) * Z) :=
  match buckets_s3_handler true 1767225600 r empty_response (example_keys, no_calls) with
  | Val (res, (_, s)) => Some (s, rs_status res)
  | Undef => None
  end.

Lemma s3_operation_needs_signature_witness :
  refused example_keys example_keys no_calls no_calls
    (refuse_response "DELETE" BUCKETS_ERR_ACCESS_DENIED empty_response).
Proof.
  apply (s3_operation_needs_signature 1767225600 (HttpRequest "DELETE" "/photos/cat" plain_headers "") empty_response
           example_keys no_calls
           (refuse_response "DELETE" BUCKETS_ERR_ACCESS_DENIED empty_response) example_keys no_calls).
  - vm_compute. reflexivity.
  - done.
  - done.
  - reflexivity.
Defined.

(** The request as it is parsed. *)
Definition parsed_example (body : string) : s3_request :=
  match buckets_s3_parse_request (signed_example body) with
  | Val (Some sr) => sr
  | _ => S3Request "" "" "" [] "" "" "" "" "" [] (signed_example body)
  end.


(** ** What is not covered *)

(** The body is not compared with the hash that was signed. *)
Lemma body_not_compared :
  request_payload (parsed_example "tampered") = bytes_to_hex (toy_digest "") ∧
  example_outcome (signed_example "tampered") = Some ([(GetObjectVersion, "photos", "cat")], 0).
Proof. split; vm_compute; reflexivity. Qed.

(** Of a long query only the first 2047 bytes are signed. *)
Lemma query_tail_not_signed path q t1 t2 :
  no_char "?" path → (2047 ≤ strlen q)%nat →
  canonical_query (path +:+ "?" +:+ q +:+ t1) = canonical_query (path +:+ "?" +:+ q +:+ t2).
Proof.
  intros Hp Hq. unfold canonical_query.
  change (path +:+ "?" +:+ q +:+ t1) with (path +:+ String "?" (q +:+ t1)).
  change (path +:+ "?" +:+ q +:+ t2) with (path +:+ String "?" (q +:+ t2)).
  rewrite !strchr_app by done. change (str_drop 1 (String "?" ?x)) with x.
  by rewrite !strncpy_prefix by done.
Qed.

(** The query is signed as it was sent, not in the order of its names. *)
Lemma query_not_sorted :
  canonical_query "/photos?prefix=a&list-type=2" = "prefix=a&list-type=2" ∧
  aws_query [("prefix", "a"); ("list-type", "2")] = "list-type=2&prefix=a".
Proof. split; vm_compute; reflexivity. Qed.

(** Nor is a parameter without a value given its equals sign. *)
Lemma query_value_not_written :
  canonical_query "/photos?versioning" = "versioning" ∧ aws_query [("versioning", "")] = "versioning=".
Proof. split; vm_compute; reflexivity. Qed.

(** The value of a signed header is signed as it is. *)
Lemma value_not_trimmed host hash :
  let r := S3Request "" "" "" [] "" "" "" "" "" [] (HttpRequest "GET" "/" [("X-Amz-Meta-A", "b  c")] "") in
  signed_value r host hash "x-amz-meta-a" = Some "b  c" ∧ aws_trim "b  c" = "b c".
Proof. split; vm_compute; reflexivity. Qed.

(** A key and a value longer than their buffers. *)
Lemma long_parameter_overruns :
  query_params ("/photos?" +:+ String.string_of_list_ascii (replicate 256 "a"%char)) = Undef.
Proof. vm_compute. reflexivity. Qed.
