(* ===== verification/Rpc.v ===== *)
(** * Remote procedure calls (src/src/net/rpc.c)

    A call is a JSON document that is posted to another node on a connection of the pool; the
    node looks the method up among its handlers and answers with a document. *)

From S2P Require Import Prelude CInt CString CSearch DiskIO Json XlMeta HttpWire Transport.
From S2P Require Import ConnCache ConnPool ConnRequest HttpServer.
From Stdlib Require Import Ascii.

Local Open Scope c_scope.

(** ** Messages *)

Record rpc_request := RpcRequest {
  rpc_id : string;
  rpc_method : string;
  rpc_params : option json;
  rpc_timestamp : Z
}.

Record rpc_response := RpcResponse {
  res_id : string;
  res_result : option json;
  res_error_code : Z;
  res_error_message : string;
  res_timestamp : Z
}.

(** A NULL item counts as none. *)
Definition not_null (j : option json) : option json :=
  match j with Some JNull => None | j => j end.

Definition request_json (r : rpc_request) : json :=
  JObject [("id", JString (rpc_id r)); ("method", JString (rpc_method r));
           ("timestamp", JNumber (rpc_timestamp r)); ("params", default JNull (rpc_params r))].

Definition response_json (r : rpc_response) : json :=
  JObject [("id", JString (res_id r)); ("timestamp", JNumber (res_timestamp r));
           ("result", default JNull (res_result r)); ("error_code", JNumber (res_error_code r));
           ("error_message", JString (res_error_message r))].

Section Messages.
Context `{CJson}.

Definition buckets_rpc_request_serialize (r : rpc_request) : buckets_error_t * option string :=
  match cJSON_PrintUnformatted (request_json r) with
  | Some s => (BUCKETS_OK, Some s)
  | None => (BUCKETS_ERR_NOMEM, None)
  end.

Definition buckets_rpc_request_parse (text : option string) : buckets_error_t * option rpc_request :=
  match text ≫= cJSON_Parse with
  | None => (BUCKETS_ERR_INVALID_ARG, None)
  | Some root =>
      match get_nocase root "id", get_nocase root "method", get_nocase root "timestamp" with
      | Some (JString id), Some (JString method), Some (JNumber timestamp) =>
          (BUCKETS_OK,
           Some (RpcRequest (strncpy 63 id) (strncpy 127 method) (not_null (get_nocase root "params"))
                   (valueint timestamp)))
      | _, _, _ => (BUCKETS_ERR_INVALID_ARG, None)
      end
  end.

Definition buckets_rpc_response_serialize (r : rpc_response) : buckets_error_t * option string :=
  match cJSON_PrintUnformatted (response_json r) with
  | Some s => (BUCKETS_OK, Some s)
  | None => (BUCKETS_ERR_NOMEM, None)
  end.

Definition buckets_rpc_response_parse (text : option string) : buckets_error_t * option rpc_response :=
  match text ≫= cJSON_Parse with
  | None => (BUCKETS_ERR_INVALID_ARG, None)
  | Some root =>
      match get_nocase root "id", get_nocase root "timestamp" with
      | Some (JString id), Some (JNumber timestamp) =>
          (BUCKETS_OK,
           Some (RpcResponse (strncpy 63 id) (not_null (get_nocase root "result"))
                   (match get_nocase root "error_code" with Some (JNumber n) => valueint n | _ => 0 end)
                   (match get_nocase root "error_message" with Some (JString s) => strncpy 255 s | _ => "" end)
                   (valueint timestamp)))
      | _, _ => (BUCKETS_ERR_INVALID_ARG, None)
      end
  end.
End Messages.

(** ** Handlers *)

(** What a handler returns: 0 or an error, a document, an error code and a message of its own
    (in an array of 256 characters). *)
Record rpc_outcome := RpcOutcome {
  ho_ret : Z;
  ho_result : option json;
  ho_error_code : Z;
  ho_error_message : string
}.

Section Handlers.
(** What handlers work on. *)
Context `{CJson} {State : Type}.

Definition rpc_handler : Type := string → option json → State → c_result (rpc_outcome * State).

(** The registered handlers, the last one first. *)
Record rpc_context := RpcContext { rpc_handlers : list (string * rpc_handler) }.

Definition buckets_rpc_context_create : rpc_context := RpcContext [].

Fixpoint find_handler (l : list (string * rpc_handler)) (method : string) : option rpc_handler :=
  match l with
  | [] => None
  | (m, h) :: l => if strcmp_eq m method then Some h else find_handler l method
  end.

Definition buckets_rpc_register_handler (ctx : rpc_context) (method : string) (h : rpc_handler)
    : buckets_error_t * rpc_context :=
  if (128 <=? strlen method)%nat then (BUCKETS_ERR_INVALID_ARG, ctx)
  else
    match find_handler (rpc_handlers ctx) method with
    | Some _ => (BUCKETS_ERR_INVALID_ARG, ctx)
    | None => (BUCKETS_OK, RpcContext ((method, h) :: rpc_handlers ctx))
    end.

(** The value of the constant in [buckets_error_t]. *)
Definition error_number (e : buckets_error_t) : Z :=
  match e with
  | BUCKETS_OK => 0 | BUCKETS_ERR_NOMEM => 1 | BUCKETS_ERR_INVALID_ARG => 2 | BUCKETS_ERR_NOT_FOUND => 3
  | BUCKETS_ERR_EXISTS => 4 | BUCKETS_ERR_IO => 5 | BUCKETS_ERR_NETWORK => 6 | BUCKETS_ERR_TIMEOUT => 7
  | BUCKETS_ERR_QUORUM => 8 | BUCKETS_ERR_CORRUPT => 9 | BUCKETS_ERR_UNSUPPORTED => 10
  | BUCKETS_ERR_CRYPTO => 11 | BUCKETS_ERR_INIT => 12 | BUCKETS_ERR_RPC => 13
  | BUCKETS_ERR_ACCESS_DENIED => 14 | BUCKETS_ERR_LIMIT => 15 | BUCKETS_ERR_INTERNAL => 16
  end.

Definition buckets_rpc_dispatch (now : Z) (ctx : rpc_context) (r : rpc_request) (st : State)
    : c_result (rpc_response * State) :=
  match find_handler (rpc_handlers ctx) (rpc_method r) with
  | None =>
      Val (RpcResponse (strncpy 63 (rpc_id r)) None (error_number BUCKETS_ERR_INVALID_ARG)
             (snprintf 256 ("Method not found: " +:+ rpc_method r)) now, st)
  | Some h =>
      let* o := h (rpc_method r) (rpc_params r) st in
      let (o, st) := o in
      Val (if ho_ret o =? 0 then
             RpcResponse (strncpy 63 (rpc_id r)) (ho_result o) (ho_error_code o)
               (strncpy 255 (ho_error_message o)) now
           else
             RpcResponse (strncpy 63 (rpc_id r)) None (ho_ret o)
               (snprintf 256 ("Handler failed: " +:+ pretty (ho_ret o))) now, st)
  end.

Definition request_id (id : option json) : string :=
  match id with
  | Some (JString s) => s
  | Some (JNumber n) => snprintf 32 (pretty (valueint n))
  | _ => "unknown"
  end.

(** The document that answers a request. *)
Definition outcome_response (id : string) (now : Z) (o : rpc_outcome) : rpc_response :=
  RpcResponse id
    (if ho_ret o =? 0 then ho_result o else None)
    (if ho_error_code o =? 0 then ho_ret o else ho_error_code o)
    (if strcmp_eq (ho_error_message o) "" then (if ho_ret o =? 0 then "" else "RPC call failed")
     else ho_error_message o)
    now.

(** [ctx] is what [buckets_distributed_storage_get_rpc_context] returns. A document that cannot
    be printed leaves the response as it is. *)
Definition buckets_rpc_http_handler (now : Z) (ctx : option rpc_context) : http_handler State :=
  λ req res st,
  if negb (strcmp_eq (rq_method req) "POST") then
    Val (buckets_http_response_error res 405 (Some "Method not allowed"), st)
  else
    match ctx with
    | None => Val (buckets_http_response_error res 500 (Some "RPC not initialized"), st)
    | Some ctx =>
        if strcmp_eq (rq_body req) "" then Val (buckets_http_response_error res 400 (Some "Empty request"), st)
        else
          match cJSON_Parse (rq_body req) with
          | None => Val (buckets_http_response_error res 400 (Some "Invalid JSON"), st)
          | Some doc =>
              match get_nocase doc "method" with
              | Some (JString method) =>
                  match get_nocase doc "params" with
                  | None => Val (buckets_http_response_error res 400 (Some "Missing 'params'"), st)
                  | Some params =>
                      match find_handler (rpc_handlers ctx) method with
                      | None => Val (buckets_http_response_error res 404 (Some "Method not found"), st)
                      | Some h =>
                          let* o := h method (Some params) st in
                          let answer := response_json (outcome_response (request_id (get_nocase doc "id")) now o.1) in
                          Val (match cJSON_PrintUnformatted answer with
                               | Some s => buckets_http_response_json res 200 s
                               | None => res
                               end, o.2)
                      end
                  end
              | _ => Val (buckets_http_response_error res 400 (Some "Missing 'method'"), st)
              end
          end
    end.
End Handlers.
Arguments rpc_handler : clear implicits.
Arguments rpc_context : clear implicits.

(** ** Calls *)

(** The identifier, the clock, what polls and connects answer, the address of a new connection,
    and the exchange on it. *)
Record rpc_env := RpcEnv {
  rpe_id : string;
  rpe_time : Z;
  rpe_polls : Z → poll_answer;
  rpe_connect : connect_env;
  rpe_addr : nat;
  rpe_now : Z * Z;
  rpe_request : request_env;
  rpe_released : Z
}.

(** Here an endpoint must have a port. *)
Definition rpc_endpoint (endpoint : string) : c_result (option (string * Z)) :=
  match CSearch.strstr endpoint "://" with
  | None => Val None
  | Some (_, rest) =>
      match CSearch.strchr (str_drop 3 rest) ":" with
      | None => Val None
      | Some (host, port_start) =>
          if (256 <=? strlen host)%nat then Val None
          else let* port := i32c (read_number (str_drop 1 port_start)).1 in Val (Some (host, port))
      end
  end.

(** The result, the response, what was sent, the pool. *)
Record rpc_result := RpcResult {
  rpr_rc : buckets_error_t;
  rpr_response : option rpc_response;
  rpr_sent : string;
  rpr_closed : list Z;
  rpr_pool : conn_pool
}.

Section Call.
Context `{CJson}.

Definition call_request (env : rpc_env) (method : string) (params : option json) : rpc_request :=
  RpcRequest (rpe_id env) (strncpy 127 method) params (rpe_time env).

(** The connection after the exchange: closed unless all went well. *)
Definition fail_call (rc : buckets_error_t) (sent : string) (closed : list Z) (p : conn_pool) (a : nat) : rpc_result :=
  match buckets_conn_pool_close p a with
  | (_, fd, p) => RpcResult rc None sent (closed ++ match fd with Some fd => [fd] | None => [] end) p
  end.

(** [None]: the call has not returned. *)
Definition buckets_rpc_call (env : rpc_env) (p : conn_pool) (peer_endpoint method : string)
    (params : option json) : c_result (option rpc_result) :=
  match buckets_rpc_request_serialize (call_request env method params) with
  | (BUCKETS_OK, Some text) =>
      let* ep := rpc_endpoint peer_endpoint in
      match ep with
      | None => Val (Some (RpcResult BUCKETS_ERR_INVALID_ARG None "" [] p))
      | Some (host, port) =>
          match buckets_conn_pool_get (rpe_polls env) (rpe_connect env) (rpe_addr env) (rpe_now env) p host port with
          | (BUCKETS_OK, Some a, closed, p) =>
              match assoc a (connections p) with
              | None => Undef
              | Some c =>
                  let* res := buckets_conn_send_request (rpe_request env) c "POST" "/rpc" (Some text) in
                  match res with
                  | None => Val None
                  | Some res =>
                      if decide (rr_rc res = BUCKETS_OK) then
                        if negb (rr_status res =? 200) then
                          Val (Some (fail_call BUCKETS_ERR_NETWORK (rr_sent res) closed p a))
                        else
                          match buckets_rpc_response_parse (c_str <$> rr_body res) with
                          | (BUCKETS_OK, r) =>
                              let* released := buckets_conn_pool_release (rpe_released env) p a in
                              Val (Some (RpcResult BUCKETS_OK r (rr_sent res) closed released.2))
                          | (err, _) => Val (Some (fail_call err (rr_sent res) closed p a))
                          end
                      else Val (Some (fail_call (rr_rc res) (rr_sent res) closed p a))
                  end
              end
          | (err, _, closed, p) => Val (Some (RpcResult err None "" closed p))
          end
      end
  | (err, _) => Val (Some (RpcResult err None "" [] p))
  end.
End Call.

(** ** Round trips *)

Lemma no_char_forall c s : no_char c s ↔ Forall (λ d, d ≠ c) (String.list_ascii_of_string s).
Proof.
  induction s as [|d s IH]; [done|]. rewrite no_char_cons, IH. cbn. by rewrite Forall_cons.
Qed.

Section RoundTrips.
Context `{CJsonLaws, !CJsonText}.

Lemma unformatted_text j s : cJSON_PrintUnformatted j = Some s → s ≠ "" ∧ no_char NUL s.
Proof. intros [Hne Hall]%cjson_unformatted_text. split; [done|]. by apply no_char_forall. Qed.

(** Parameters or a result that can be put in a message. *)
Definition message_item (j : option json) : Prop := json_ok 998 (default JNull j).

Lemma object_printable d l :
  Z.of_nat d < 1000 → Forall (λ kv, json_ok d kv.2) l → json_printable (JObject l).
Proof using Type. intros Hd Hl. exists (S d). split; [lia|exact Hl]. Qed.

Lemma request_printable r : message_item (rpc_params r) → is_exact (rpc_timestamp r) → json_printable (request_json r).
Proof using Type.
  unfold message_item, request_json. generalize 998%nat (ltac:(lia) : Z.of_nat 998 < 1000). intros d Hd Hp Ht.
  apply (object_printable d); [done|]. rewrite !Forall_cons. destruct d; by split_and!.
Qed.

Lemma response_printable r :
  message_item (res_result r) → is_exact (res_timestamp r) → is_exact (res_error_code r) →
  json_printable (response_json r).
Proof using Type.
  unfold message_item, response_json. generalize 998%nat (ltac:(lia) : Z.of_nat 998 < 1000). intros d Hd Hp Ht He.
  apply (object_printable d); [done|]. rewrite !Forall_cons. destruct d; by split_and!.
Qed.

(** What the other side reads. *)
Definition request_read (r : rpc_request) : rpc_request :=
  RpcRequest (strncpy 63 (rpc_id r)) (strncpy 127 (rpc_method r)) (not_null (rpc_params r)) (valueint (rpc_timestamp r)).

Definition response_read (r : rpc_response) : rpc_response :=
  RpcResponse (strncpy 63 (res_id r)) (not_null (res_result r)) (valueint (res_error_code r))
    (strncpy 255 (res_error_message r)) (valueint (res_timestamp r)).

Lemma not_null_default j : not_null (Some (default JNull j)) = not_null j.
Proof using Type. by destruct j. Qed.

Lemma rpc_request_sent r s :
  message_item (rpc_params r) → is_exact (rpc_timestamp r) →
  buckets_rpc_request_serialize r = (BUCKETS_OK, Some s) →
  buckets_rpc_request_parse (Some s) = (BUCKETS_OK, Some (request_read r)).
Proof.
  intros Hp Ht. unfold buckets_rpc_request_serialize. destruct (cJSON_PrintUnformatted _) eqn:Ep; [|done].
  intros [= ->]. unfold buckets_rpc_request_parse. cbn [mbind option_bind].
  rewrite (cjson_parse_unformatted _ _ (request_printable r Hp Ht) Ep).
  change (get_nocase (request_json r) "id") with (Some (JString (rpc_id r))).
  change (get_nocase (request_json r) "method") with (Some (JString (rpc_method r))).
  change (get_nocase (request_json r) "timestamp") with (Some (JNumber (rpc_timestamp r))).
  change (get_nocase (request_json r) "params") with (Some (default JNull (rpc_params r))).
  cbv iota. by rewrite not_null_default.
Qed.

Lemma rpc_response_sent r s :
  message_item (res_result r) → is_exact (res_timestamp r) → is_exact (res_error_code r) →
  cJSON_PrintUnformatted (response_json r) = Some s →
  buckets_rpc_response_parse (Some s) = (BUCKETS_OK, Some (response_read r)).
Proof.
  intros Hp Ht He Ep. unfold buckets_rpc_response_parse. cbn [mbind option_bind].
  rewrite (cjson_parse_unformatted _ _ (response_printable r Hp Ht He) Ep).
  change (get_nocase (response_json r) "id") with (Some (JString (res_id r))).
  change (get_nocase (response_json r) "timestamp") with (Some (JNumber (res_timestamp r))).
  change (get_nocase (response_json r) "result") with (Some (default JNull (res_result r))).
  change (get_nocase (response_json r) "error_code") with (Some (JNumber (res_error_code r))).
  change (get_nocase (response_json r) "error_message") with (Some (JString (res_error_message r))).
  cbv iota. by rewrite not_null_default.
Qed.

(** Messages within their fields come back as they were. *)
Lemma request_read_id r :
  (strlen (rpc_id r) ≤ 63)%nat → (strlen (rpc_method r) ≤ 127)%nat → rpc_params r ≠ Some JNull →
  is_i32 (rpc_timestamp r) → request_read r = r.
Proof using Type.
  intros Hi Hm Hp Ht. unfold request_read. rewrite !strncpy_short, valueint_id by done.
  destruct r as [id m [[]|] t]; done.
Qed.

Lemma response_read_id r :
  (strlen (res_id r) ≤ 63)%nat → (strlen (res_error_message r) ≤ 255)%nat → res_result r ≠ Some JNull →
  is_i32 (res_timestamp r) → is_i32 (res_error_code r) → response_read r = r.
Proof using Type.
  intros Hi Hm Hp Ht He. unfold response_read. rewrite !strncpy_short, !valueint_id by done.
  destruct r as [id [[]|] e m t]; done.
Qed.
End RoundTrips.

(** ** A handler on the other node *)

(** The route of POST requests to /rpc; [other] is the rest of [buckets_s3_handler]. *)
Definition rpc_uv_handler `{CJson} {State} (other : http_handler State) (now : Z) (ctx : option (rpc_context State))
    : bool → http_request → State → c_result (string * State) :=
  s3_legacy_uv_handler (λ req res st,
    if strcmp_eq (rq_uri req) "/rpc" then buckets_rpc_http_handler now ctx req res st else other req res st).

(** The response that a caller gets for an outcome. *)
Definition call_response (id : string) (now : Z) (o : rpc_outcome) : rpc_response :=
  response_read (outcome_response id now o).

Definition outcome_ok (o : rpc_outcome) : Prop :=
  message_item (ho_result o) ∧ is_exact (ho_ret o) ∧ is_exact (ho_error_code o).

Lemma outcome_item id now o : outcome_ok o → message_item (res_result (outcome_response id now o)).
Proof.
  intros (Hr & _ & _). cbn [outcome_response res_result]. destruct (ho_ret o =? 0); [exact Hr|exact I].
Qed.

Lemma outcome_code id now o : outcome_ok o → is_exact (res_error_code (outcome_response id now o)).
Proof. intros (_ & H1 & H2). cbn [outcome_response res_error_code]. destruct (ho_error_code o =? 0); done. Qed.

Lemma legacy_json keep status body reply :
  0 < status → body ≠ "" →
  legacy_response keep (buckets_http_response_json empty_response status body) = Val reply →
  reply = uv_http_response_start status json_type (Z.of_nat (strlen body)) keep +:+ body.
Proof.
  intros Hs Hb. unfold legacy_response, buckets_http_response_json, buckets_http_response_set.
  destruct body as [|c body]; [done|]. set (b := String c body) in *.
  cbn [rs_status rs_headers rs_body rs_body_len buckets_http_response_set_header empty_response].
  rewrite (proj2 (Z.leb_gt _ _)) by lia.
  assert (take_headers 128 512 32 (default "" (Some (default "" None +:+ header_text "Content-Type" "application/json"))) = json_type) as ->
    by (vm_compute; reflexivity).
  change (length json_type =? 32)%nat with false. change (length json_type =? 0)%nat with false. cbv iota. cbn [andb].
  unfold response_text, response_head. split_if; cbn [c_bind]; [|done]. rewrite Z.ltb_irrefl, Nat2Z.id, strncpy_short by done.
  by intros [= <-].
Qed.

Section Server.
Context `{CJsonLaws, !CJsonText} {State : Type}.

Lemma rpc_server_answer (other : http_handler State) now ctx keep r req text h o st st' st1 answer reply :
  rq_method r = "POST" → rq_uri r = "/rpc" → rq_body r = text →
  cJSON_PrintUnformatted (request_json req) = Some text →
  message_item (rpc_params req) → is_exact (rpc_timestamp req) →
  find_handler (rpc_handlers ctx) (rpc_method req) = Some h →
  h (rpc_method req) (Some (default JNull (rpc_params req))) st = Val (o, st') →
  cJSON_PrintUnformatted (response_json (outcome_response (rpc_id req) now o)) = Some answer →
  rpc_uv_handler other now (Some ctx) keep r st = Val (reply, st1) →
  reply = uv_http_response_start 200 json_type (Z.of_nat (strlen answer)) keep +:+ answer ∧ st1 = st'.
Proof.
  intros Hm Hu Hb Hp Hi Ht Hf Hh Ha. unfold rpc_uv_handler, s3_legacy_uv_handler. rewrite Hu. cbv beta.
  change (strcmp_eq "/rpc" "/rpc") with true. cbv iota. unfold buckets_rpc_http_handler. rewrite Hm, Hb.
  change (negb (strcmp_eq "POST" "POST")) with false. cbv iota.
  destruct (unformatted_text _ _ Hp) as [Hne _]. unfold strcmp_eq at 1. rewrite bool_decide_eq_false_2 by done.
  rewrite (cjson_parse_unformatted _ _ (request_printable req Hi Ht) Hp).
  change (get_nocase (request_json req) "id") with (Some (JString (rpc_id req))).
  change (get_nocase (request_json req) "method") with (Some (JString (rpc_method req))).
  change (get_nocase (request_json req) "params") with (Some (default JNull (rpc_params req))).
  cbv iota. rewrite Hf, Hh. cbn [c_bind fst snd request_id]. rewrite Ha.
  destruct (unformatted_text _ _ Ha) as [Hna _]. destruct (legacy_response _ _) as [t|] eqn:El; [|done].
  cbn [c_bind]. intros [= <- <-]. split; [|done]. by apply (legacy_json keep 200).
Qed.
End Server.

(** ** The request on the wire *)

Lemma strlen_print_Z z n : - 10 ^ 18 < z < 10 ^ 18 → n = strlen (pretty z) → (n ≤ 19)%nat.
Proof.
  intros Hz ->. assert (∀ x : N, (x < 10 ^ 18)%N → (strlen (pretty x) ≤ 18)%nat) as Hn.
  { intros x Hx. apply strlen_pretty_N; [lia|exact Hx]. }
  destruct z as [|q|q]; [vm_compute; lia| |].
  - change (pretty (Z.pos q)) with (pretty (N.pos q)). specialize (Hn (N.pos q)). lia.
  - change (pretty (Z.neg q)) with (String "-" (pretty (N.pos q))). cbn.
    specialize (Hn (N.pos q)). unfold strlen in *. lia.
Qed.

Lemma rpc_head_short c text :
  (strlen (conn_host c) ≤ 255)%nat → is_i32 (conn_port c) → Z.of_nat (strlen text) < 2 ^ 63 →
  (strlen (request_head (conn_request c "POST" "/rpc" (Some text))) < Z.to_nat 1024)%nat.
Proof.
  intros Hh Hp Ht.
  assert (strlen (pretty (conn_port c)) ≤ 19)%nat as Hport.
  { eapply strlen_print_Z; [|done]. unfold is_i32, in_range in Hp. lia. }
  assert (strlen (print_u64 (Z.of_nat (strlen text))) ≤ 20)%nat as Hlen.
  { apply strlen_pretty_N; [lia|]. change (10 ^ N.of_nat 20)%N with 100000000000000000000%N. lia. }
  unfold conn_request, request_head. destruct text as [|ch t];
    cbn [rq_method rq_uri rq_headers fmap list_fmap lines]; unfold header_line; cbn [fst snd];
    rewrite !strlen_app; change (strlen CRLF) with 2%nat; unfold strlen in *; cbn [String.length] in *; lia.
Qed.

Lemma rpc_request_parsed `{HttpParserLaws} c text :
  header_value (conn_host c) → (strlen (conn_host c) ≤ 255)%nat → 0 ≤ conn_port c → is_i32 (conn_port c) →
  text ≠ "" → Z.of_nat (strlen text) < 2 ^ 63 →
  let r := conn_request c "POST" "/rpc" (Some text) in
  rq_method r = "POST" ∧ rq_uri r = "/rpc" ∧ rq_body r = text ∧
  http_parse (request_head r +:+ rq_body r) = Some r.
Proof.
  intros Hh Hl Hp0 Hp Ht Hlen r. assert (rq_body r = text) as Hb by (by destruct text).
  assert (rq_method r = "POST" ∧ rq_uri r = "/rpc") as [Hm Hu] by (by destruct text).
  split_and!; [done..|]. apply http_parse_request. pose proof (rpc_head_short c text Hl Hp Hlen) as Hs. fold r in Hs.
  assert (header_value (conn_host c +:+ ":" +:+ pretty (conn_port c))) as Hhost.
  { apply header_value_app; [done|]. apply header_value_app; [header_value_tac|].
    rewrite pretty_Z_nonneg by done. apply (header_value_print (conn_port c)). }
  assert (rq_headers r = [("Host", conn_host c +:+ ":" +:+ pretty (conn_port c)); ("Content-Type", "application/json");
    ("Content-Length", print_u64 (Z.of_nat (strlen text))); ("Connection", "keep-alive")]) as Eh by (by destruct text).
  split; rewrite ?Hm, ?Hu, ?Eh.
  - repeat constructor.
  - eexists; split; [reflexivity|apply (bool_decide_unpack _); vm_compute; exact I].
  - repeat (apply Forall_cons; split); [..|apply Forall_nil_2]; cbn [fst snd];
      (split; [header_value_tac|split; [first [exact Hhost|apply header_value_print|header_value_tac]|
        split; [intros ?; first [discriminate|by left|by right]|reflexivity]]]).
  - apply Nat.leb_le; reflexivity.
  - unfold body_framed. rewrite Eh, Hb. by split.
  - lia.
Qed.

(** ** Calls that succeed *)

(** The request of a call to [host:port]. *)
Definition rpc_http_request (host : string) (port : Z) (text : string) : http_request :=
  conn_request (Conn 0 host port true 0) "POST" "/rpc" (Some text).

(** A call that can be made: the pool is sound and gives a connection, the request is printed
    and sent. *)
Record call_made `{CJson} (env : rpc_env) (p : conn_pool) (held : list nat) (endpoint host : string)
    (port : Z) (method : string) (params : option json) (text : string) : Prop := CallMade {
  cm_pool : list_inv p held;
  cm_fresh : rpe_addr env ∉ (connections p).*1;
  cm_endpoint : rpc_endpoint endpoint = Val (Some (host, port));
  cm_host : header_value host;
  cm_get : (buckets_conn_pool_get (rpe_polls env) (rpe_connect env) (rpe_addr env) (rpe_now env) p host port).1.1.1
             = BUCKETS_OK;
  cm_method : (strlen method ≤ 127)%nat;
  cm_params : message_item params;
  cm_time : is_exact (rpe_time env);
  cm_text : cJSON_PrintUnformatted (request_json (call_request env method params)) = Some text;
  cm_length : Z.of_nat (strlen text) < 2 ^ 63;
  cm_head : re_head (rpe_request env) = Some (strlen (request_head (rpc_http_request host port text)));
  cm_body : (λ x, x.1) <$> send_all (re_io (rpe_request env)) text = Some (0, text)
}.

Lemma rpc_endpoint_host endpoint host port :
  rpc_endpoint endpoint = Val (Some (host, port)) → (strlen host ≤ 255)%nat ∧ is_i32 port.
Proof.
  unfold rpc_endpoint. destruct (CSearch.strstr _ _) as [[_ rest]|]; [|done].
  destruct (CSearch.strchr _ _) as [[h ps]|]; [|done]. destruct (Nat.leb_spec 256 (strlen h)); [done|].
  destruct (i32c _) as [v|] eqn:Ev; [|done]. apply i32c_Val in Ev as [Hv ->]. cbn [c_bind].
  intros [= <- <-]. split; [lia|done].
Qed.

Lemma release_held now p a held :
  list_inv p (a :: held) → ∃ p', buckets_conn_pool_release now p a = Val (BUCKETS_OK, p') ∧ list_inv p' held.
Proof.
  intros Hl. destruct (held_connection _ _ _ Hl) as (c & Hc & Hu). unfold buckets_conn_pool_release.
  rewrite Hc, Hu. eexists. split; [done|]. destruct (assoc_perm _ _ _ Hc) as (rest & E1 & _ & E3).
  by eapply (list_inv_unmark p held a c (used_at now false c) rest).
Qed.

(** A call runs the handler: when it can be made and the connection delivers what the other
    node answers, in any pieces, the node parses exactly the request that was sent, runs the
    handler once with the method and the parameters of the call, and the caller gets the
    result, the error code and the message of that run, within the fields of a response; the
    connection goes back to the pool. *)
Lemma rpc_call_served `{CJsonLaws, !CJsonText, HttpParserLaws} {State}
    env p held endpoint host port method params text h o (st st' st1 : State) ctx other now keep reply :
  let r := rpc_http_request host port text in
  call_made env p held endpoint host port method params text →
  find_handler (rpc_handlers ctx) method = Some h → h method (Some (default JNull params)) st = Val (o, st') →
  outcome_ok o → is_exact now → (∀ j, is_Some (cJSON_PrintUnformatted j)) →
  rpc_uv_handler other now (Some ctx) keep r st = Val (reply, st1) → Z.of_nat (strlen reply) < 2 ^ 64 - 1 →
  pieces (re_recv (rpe_request env)) → joined (re_recv (rpe_request env)) = reply →
  http_parse (request_head r +:+ rq_body r) = Some r ∧ st1 = st' ∧
  ∃ closed p', buckets_rpc_call env p endpoint method params
    = Val (Some (RpcResult BUCKETS_OK (Some (call_response (rpe_id env) now o))
        (request_head r +:+ rq_body r) closed p')) ∧ list_inv p' held.
Proof.
  intros r [Hl Hfresh Hep Hhost Hget Hm Hparams Htime Htext Hlen Hhead Hbody] Hf Hh Ho Hnow Hprints Hserve Hrl Hp Hj.
  destruct (rpc_endpoint_host _ _ _ Hep) as [Hhl Hport].
  destruct (buckets_conn_pool_get _ _ _ _ p host port) as [[[rc b0] closed] p1] eqn:Eget. cbn [fst] in Hget. subst rc.
  destruct (pool_get_connection _ _ _ _ _ _ _ _ _ _ _ Hl Hfresh Hhl Eget) as (a & c & -> & Hl1 & Hc & Hu & Hch & Hcp).
  assert (0 ≤ port) as Hport0.
  { unfold buckets_conn_pool_get in Eget. destruct (Z.leb_spec port 0); [done|lia]. }
  destruct (unformatted_text _ _ Htext) as [Hne Hnul].
  assert (rq_method r = "POST" ∧ rq_uri r = "/rpc" ∧ rq_body r = text ∧
    http_parse (request_head r +:+ rq_body r) = Some r) as (Hrm & Hru & Hrb & Hparse)
    by exact (rpc_request_parsed (Conn 0 host port true 0) text Hhost Hhl Hport0 Hport Hne Hlen).
  assert (rpc_method (call_request env method params) = method) as Ecm by (cbn; by apply strncpy_short).
  destruct (Hprints (response_json (outcome_response (rpe_id env) now o))) as [answer Ha].
  destruct (unformatted_text _ _ Ha) as [Hane Hanul].
  destruct (rpc_server_answer other now ctx keep r (call_request env method params) text h o st st' st1 answer reply)
    as [-> ->]; rewrite ?Ecm; try done.
  split; [done|]. split; [done|].
  assert (conn_request c "POST" "/rpc" (Some text) = r) as Er.
  { unfold r, rpc_http_request, conn_request. cbn [conn_host conn_port]. by rewrite Hch, Hcp. }
  assert (0 < Z.of_nat (strlen answer) < 2 ^ 64 - 1) as Hal.
  { rewrite strlen_app in Hrl. split; [|lia]. destruct answer; [done|]. cbn. lia. }
  destruct (send_all (re_io (rpe_request env)) text) as [[[rc0 sent0] io0]|] eqn:Esend; [|done].
  cbn in Hbody. injection Hbody as -> ->.
  destruct (send_request_answered (rpe_request env) c "POST" "/rpc" (Some text) text io0 200 keep answer) as (unread & Hsend & _);
    rewrite ?Er, ?Hrb; try done.
  { by apply (rpc_head_short (Conn 0 host port true 0)). }
  destruct (release_held (rpe_released env) p1 a held Hl1) as (p' & Hrel & Hl').
  exists closed, p'. split; [|done]. unfold buckets_rpc_call, buckets_rpc_request_serialize.
  rewrite Htext, Hep. cbn [c_bind]. rewrite Eget, Hc, Hsend, Er. cbn [c_bind rr_rc rr_status rr_body rr_sent].
  rewrite decide_True by done. cbn [negb Z.eqb fmap option_fmap option_map Pos.eqb].
  rewrite c_str_no_nul by done.
  rewrite (rpc_response_sent (outcome_response (rpe_id env) now o)); [cbn [c_bind]; by rewrite Hrel, Hrb|..|done].
  - by apply outcome_item.
  - exact Hnow.
  - by apply outcome_code.
Qed.

(** ** A call never leaks its connection *)

Lemma pool_get_inv polls env a now p host port rc r closed p' held :
  list_inv p held → a ∉ (connections p).*1 →
  buckets_conn_pool_get polls env a now p host port = (rc, r, closed, p') →
  match r with
  | Some b => rc = BUCKETS_OK ∧ list_inv p' (b :: held)
  | None => rc ≠ BUCKETS_OK ∧ list_inv p' held
  end.
Proof.
  intros Hl Ha. unfold buckets_conn_pool_get. destruct (port <=? 0); [by intros [= <- <- <- <-]|].
  destruct (pool_take polls host port now.1 p) as [[cl r1] p1] eqn:Et.
  pose proof (pool_take_list _ _ _ _ _ _ _ _ _ Et Hl) as (Hl1 & _ & _). destruct r1 as [b|].
  - by intros [= <- <- <- <-].
  - destruct (pool_full p1) eqn:Hf; [by intros [= <- <- <- <-]|]. destruct (create_connection env) as [fd cl'].
    destruct (fd <? 0); [by intros [= <- <- <- <-]|]. intros [= <- <- <- <-]. split; [done|].
    apply list_inv_add; [done| |done|done]. intros Hin. by apply Ha, (pool_take_addresses _ _ _ _ _ _ _ _ _ Et).
Qed.

Lemma fail_call_pool rc sent closed p a held :
  list_inv p (a :: held) → list_inv (rpr_pool (fail_call rc sent closed p a)) held.
Proof.
  intros Hl. destruct (held_connection _ _ _ Hl) as (c & Hc & Hu). unfold fail_call, buckets_conn_pool_close.
  rewrite Hc, Hu. cbn [rpr_pool]. destruct (assoc_perm _ _ _ Hc) as (rest & E1 & E2 & _).
  pose proof (list_inv_unmark p held a c (used_at 0 false c) rest _ Hl E1 (Permutation_refl _) Hu eq_refl) as Hun.
  apply (list_inv_drop _ _ [(a, used_at 0 false c)] (assoc_remove a (connections p)) 1 Hun); [|done..].
  cbn. by rewrite E2.
Qed.

(** Whatever the network does, a call that returns has given its connection back or closed it. *)
Lemma rpc_call_pool `{CJson} env p held endpoint method params res :
  list_inv p held → rpe_addr env ∉ (connections p).*1 →
  buckets_rpc_call env p endpoint method params = Val (Some res) → list_inv (rpr_pool res) held.
Proof.
  intros Hl Ha. unfold buckets_rpc_call.
  destruct (buckets_rpc_request_serialize _) as [[] [text|]]; try by intros [= <-].
  destruct (rpc_endpoint endpoint) as [[[host port]|]|]; cbn [c_bind]; [|by intros [= <-]|done].
  destruct (buckets_conn_pool_get _ _ _ _ p host port) as [[[rc b] closed] p1] eqn:Eg.
  pose proof (pool_get_inv _ _ _ _ _ _ _ _ _ _ _ _ Hl Ha Eg) as Hg. destruct b as [a|].
  2:{ destruct Hg as [Hrc Hl1]. destruct rc; by intros [= <-]. }
  destruct Hg as [-> Hl1]. destruct (assoc a _) as [c|]; [|done].
  destruct (buckets_conn_send_request _ _ _ _ _) as [[r|]|]; cbn [c_bind]; [|done..].
  case_decide; [|intros [= <-]; by apply fail_call_pool].
  destruct (negb _); [intros [= <-]; by apply fail_call_pool|].
  destruct (release_held (rpe_released env) p1 a held Hl1) as (p' & Hrel & Hl').
  destruct (buckets_rpc_response_parse _) as [[] resp]; try (intros [= <-]; by apply fail_call_pool).
  rewrite Hrel. by intros [= <-].
Qed.

(** ** Shortcomings *)

(** A time is read through an [int]: after the year 2038 it stays at its last second. *)
Lemma rpc_timestamp_saturates r :
  2 ^ 31 ≤ rpc_timestamp r → rpc_timestamp (request_read r) = 2 ^ 31 - 1.
Proof. intros Ht. cbn [request_read rpc_timestamp]. unfold valueint. lia. Qed.
