(* ===== verification/StorageRpc.v ===== *)
(** * Storage between nodes (src/src/storage/distributed_rpc.c, distributed.c)

    The methods that a node offers to the others: chunks and metadata on its disks, listing,
    directories of buckets; and the functions that call them. What the system calls on the
    serving node answer is an argument. *)

From S2P Require Import Prelude CInt CString CSearch DiskIO Json XlMeta Base64 Layout GroupCommit Chunk.
From S2P Require Import HttpWire Transport ConnPool ConnRequest HttpServer Rpc.
From Stdlib Require Import Ascii.

Local Open Scope c_scope.

(** ** Base64 with a bit buffer

    Characters outside the alphabet are skipped. *)

Definition char_index (c : Z) : option Z := (λ x, Z.of_nat x.1) <$> list_find (c =.) base64_chars.

Fixpoint decode_bits (s : list Z) (buffer bits : Z) : list Z :=
  match s with
  | [] => []
  | c :: s =>
      if c =? pad_char then []
      else
        match char_index c with
        | None => decode_bits s buffer bits
        | Some v =>
            let buffer := u32 (Z.lor (u32 (Z.shiftl buffer 6)) v) in
            if 8 <=? bits + 6 then
              Z.land (Z.shiftr buffer (bits + 6 - 8)) 255 :: decode_bits s buffer (bits + 6 - 8)
            else decode_bits s buffer (bits + 6)
        end
  end.

(** The last two characters are read before the length is looked at, and the buffer is sized by
    whole groups of four. *)
Definition base64_decode_bits (input : string) : c_result (list Z) :=
  let s := str_bytes input in
  let len := length s in
  if (len <? 2)%nat then Undef
  else
    let pad i := if byte_at s (len - i) =? pad_char then 1 else 0 in
    let size := Z.of_nat (len / 4 * 3) - pad 1%nat - pad 2%nat + 1 in
    let out := decode_bits s 0 0 in
    if Z.of_nat (length out) <=? size then Val out else Undef.

(** ** The serving node *)

(** What its system calls answer during one request, and the storage configuration. *)
Record storage_env := StorageEnv {
  se_read : bool;
  se_write : write_env * N;
  se_mkdir : string → bool;
  se_chunk : chunk_env;
  se_unlink : bool * bool;
  se_readdir : string → option (list string);
  se_data_dir : option string
}.

(** Fields of the parameters. A field that is there is used as a string without a look at its
    type; what is not a string is NULL. *)
Definition param (params : option json) (key : string) : option json :=
  match params with Some p => get_nocase p key | None => None end.

Definition valuestring (j : json) : option string := match j with JString s => Some s | _ => None end.

(** With a NULL name the buffer of the path stays as it is. *)
Definition object_path_of (bucket object : json) : c_result string :=
  match valuestring bucket, valuestring object with
  | Some bucket, Some object => Val (buckets_compute_object_path bucket object PATH_MAX)
  | _, _ => Undef
  end.

(** [%d] of an unsigned number. *)
Definition print_i32 (z : Z) : string := pretty ((z + 2 ^ 31) mod 2 ^ 32 - 2 ^ 31).

(** [valueint] of any item. *)
Definition item_int (j : json) : Z :=
  match j with JNumber z => valueint z | JBool true => 1 | _ => 0 end.

Definition rpc_ok (result : list (string * json)) : rpc_outcome := RpcOutcome 0 (Some (JObject result)) 0 "".

Definition rpc_error (e : buckets_error_t) (message : string) : rpc_outcome :=
  RpcOutcome (error_number e) None (-1) (snprintf 256 message).

Definition missing_params : rpc_outcome := rpc_error BUCKETS_ERR_INVALID_ARG "Missing required parameters".

Section Handlers.
Context `{CJson} (env : storage_env).

Definition rpc_handler_write_chunk : rpc_handler node := λ _ params n,
  match param params "bucket", param params "object", param params "chunk_index", param params "chunk_data",
        param params "chunk_size", param params "disk_path" with
  | Some bucket, Some object, Some chunk_index, Some chunk_data, Some chunk_size, Some disk_path =>
      let chunk_index := u32 (item_int chunk_index) in
      let chunk_size := u64 (item_int chunk_size) in
      let* data := match valuestring chunk_data with Some s => base64_decode_bits s | None => Undef end in
      if negb (Z.of_nat (length data) =? chunk_size) then
        Val (rpc_error BUCKETS_ERR_INVALID_ARG
               ("Chunk size mismatch: expected " +:+ print_u64 chunk_size +:+ ", got "
                +:+ print_u64 (Z.of_nat (length data))), n)
      else
        match valuestring disk_path with
        | None => Val (rpc_error BUCKETS_ERR_IO "Failed to create object directory", n)
        | Some disk_path =>
            let* object_path := object_path_of bucket object in
            if negb ((buckets_create_object_dir (se_mkdir env) disk_path object_path).1 =? 0) then
              Val (rpc_error BUCKETS_ERR_IO "Failed to create object directory", n)
            else
              let (ret, n) := buckets_write_chunk (se_chunk env) n disk_path object_path chunk_index data in
              Val (if ret =? 0 then rpc_ok [("success", JBool true); ("bytes_written", JNumber chunk_size)]
                   else rpc_error BUCKETS_ERR_IO ("Failed to write chunk " +:+ print_i32 chunk_index), n)
        end
  | _, _, _, _, _, _ => Val (missing_params, n)
  end.

Definition rpc_handler_read_chunk : rpc_handler node := λ _ params n,
  match param params "bucket", param params "object", param params "chunk_index", param params "disk_path" with
  | Some bucket, Some object, Some chunk_index, Some disk_path =>
      let chunk_index := u32 (item_int chunk_index) in
      match valuestring disk_path with
      | None => Val (rpc_error BUCKETS_ERR_IO ("Failed to read chunk " +:+ print_i32 chunk_index), n)
      | Some disk_path =>
          let* object_path := object_path_of bucket object in
          Val (match buckets_read_chunk (se_read env) (n_fs n) disk_path object_path chunk_index with
               | Some data =>
                   rpc_ok [("success", JBool true); ("chunk_data", JString (base64_encode data));
                           ("chunk_size", JNumber (Z.of_nat (length data)))]
               | None => rpc_error BUCKETS_ERR_IO ("Failed to read chunk " +:+ print_i32 chunk_index)
               end, n)
      end
  | _, _, _, _ => Val (missing_params, n)
  end.

Definition rpc_handler_write_xlmeta : rpc_handler node := λ _ params n,
  match param params "bucket", param params "object", param params "disk_path", param params "xl_meta_json" with
  | Some bucket, Some object, Some disk_path, Some xl_meta_json =>
      let* meta := buckets_xl_meta_from_json (valuestring xl_meta_json) in
      match meta, valuestring disk_path with
      | None, _ => Val (rpc_error BUCKETS_ERR_INVALID_ARG "Failed to parse xl.meta JSON", n)
      | Some _, None => Val (rpc_error BUCKETS_ERR_IO "Failed to create object directory", n)
      | Some meta, Some disk_path =>
          let* object_path := object_path_of bucket object in
          if negb ((buckets_create_object_dir (se_mkdir env) disk_path object_path).1 =? 0) then
            Val (rpc_error BUCKETS_ERR_IO "Failed to create object directory", n)
          else
            let* r := buckets_write_xl_meta (se_write env).1 (se_write env).2 (n_fs n) disk_path object_path meta in
            let n := with_fs (default (n_fs n) (last r.2)) n in
            Val (if r.1 =? 0 then rpc_ok [("success", JBool true)]
                 else rpc_error BUCKETS_ERR_IO "Failed to write xl.meta", n)
      end
  | _, _, _, _ => Val (missing_params, n)
  end.

Definition rpc_handler_read_xlmeta : rpc_handler node := λ _ params n,
  match param params "bucket", param params "object", param params "disk_path" with
  | Some bucket, Some object, Some disk_path =>
      match valuestring disk_path with
      | None => Val (rpc_error BUCKETS_ERR_IO "Failed to read xl.meta", n)
      | Some disk_path =>
          let* object_path := object_path_of bucket object in
          let* meta := buckets_read_xl_meta (se_read env) (n_fs n) disk_path object_path in
          match meta with
          | None => Val (rpc_error BUCKETS_ERR_IO "Failed to read xl.meta", n)
          | Some meta =>
              let* text := buckets_xl_meta_to_json (Some meta) in
              Val (match text with
                   | None => rpc_error BUCKETS_ERR_IO "Failed to serialize xl.meta to JSON"
                   | Some text => rpc_ok [("success", JBool true); ("xl_meta_json", JString text)]
                   end, n)
          end
      end
  | _, _, _ => Val (missing_params, n)
  end.

(** Both files; [unlink] succeeds when the file is there and the call is let through. *)
Definition unlink (ok : bool) (path : string) (fs : fs_t) : bool * fs_t :=
  match fs !! path with
  | Some _ => if ok then (true, delete path fs) else (false, fs)
  | None => (false, fs)
  end.

Definition rpc_handler_delete_chunk : rpc_handler node := λ _ params n,
  match param params "bucket", param params "object", param params "chunk_index", param params "disk_path" with
  | Some (JString bucket), Some (JString object), Some (JNumber chunk_index), Some (JString disk_path) =>
      let object_path := buckets_compute_object_path bucket object PATH_MAX in
      let chunk := snprintf (2 * PATH_MAX) (disk_path +:+ "/" +:+ object_path +:+ "part." +:+
                                            print_u64 (u32 (valueint chunk_index))) in
      let meta := snprintf (2 * PATH_MAX) (disk_path +:+ "/" +:+ object_path +:+ "xl.meta") in
      let (deleted, fs) := unlink (se_unlink env).1 chunk (n_fs n) in
      let (deleted', fs) := unlink (se_unlink env).2 meta fs in
      Val (rpc_ok [("success", JBool (deleted || deleted'))], with_fs fs n)
  | _, _, _, _ => Val (rpc_error BUCKETS_ERR_INVALID_ARG "Missing required params", n)
  end.

(** The directory of the bucket on four disks; it may be there already. *)
Definition rpc_handler_create_bucket_dir : rpc_handler node := λ _ params n,
  match param params "bucket" with
  | Some (JString bucket) =>
      Val (match se_data_dir env with
           | None => rpc_error BUCKETS_ERR_INIT "Storage not configured"
           | Some base_dir =>
               let made := filter (λ d, se_mkdir env
                 (snprintf PATH_MAX (base_dir +:+ "/disk" +:+ pretty d +:+ "/" +:+ bucket)) = true) [1; 2; 3; 4] in
               rpc_ok [("success", JBool (0 <? length made)%nat); ("disks_created", JNumber (Z.of_nat (length made)))]
           end, n)
  | _ => Val (rpc_error BUCKETS_ERR_INVALID_ARG "Missing required parameter: bucket", n)
  end.

(** *** Listing *)

(** The loops over disks and directories stop once [max] objects were found. *)
Fixpoint scan_while {A} (max : Z) (step : A → list json → c_result (list json)) (l : list A)
    (found : list json) : c_result (list json) :=
  match l with
  | [] => Val found
  | a :: l =>
      if Z.of_nat (length found) <? max then
        let* found := step a found in scan_while max step l found
      else Val found
  end.

Definition is_hex_char (c : ascii) : bool :=
  let n := N_of_ascii c in
  ((48 <=? n) && (n <=? 57) || (97 <=? n) && (n <=? 102))%N.

(** A name of two hexadecimal digits. *)
Definition is_hex_dir (name : string) : bool :=
  match name with
  | String a (String b "") => is_hex_char a && is_hex_char b
  | _ => false
  end.

Definition hidden (name : string) : bool := starts_with name ".".

(** A size that does not fit the type is undefined. *)
Definition stat_of (meta : json) : c_result (Z * string) :=
  match get_nocase meta "stat" with
  | None => Val (0, "")
  | Some stat =>
      let mod_time := match get_nocase stat "modTime" with Some (JString s) => s | _ => "" end in
      match get_nocase stat "size" with
      | Some (JNumber z) => if (0 <=? z) && (z <? 2 ^ 64) then Val (z, mod_time) else Undef
      | _ => Val (0, mod_time)
      end
  end.

(** The entry of an object of the bucket with the prefix. *)
Definition list_entry (bucket : string) (prefix : option string) (meta : json) : c_result (option json) :=
  match get_nocase meta "bucket", get_nocase meta "object" with
  | Some (JString b), Some (JString o) =>
      if negb (strcmp_eq b bucket) || hidden b then Val None
      else if match prefix with Some p => negb (starts_with o p) | None => false end then Val None
      else
        let* st := stat_of meta in
        Val (Some (JObject [("bucket", JString b); ("object", JString o); ("size", JNumber st.1);
                            ("mod_time", JString st.2)]))
  | _, _ => Val None
  end.

(** The document in [xl.meta] of a directory: of one byte to one megabyte. *)
Definition list_meta (fs : fs_t) (dir name : string) : option json :=
  match fs !! snprintf (2 * PATH_MAX) (dir +:+ "/" +:+ name +:+ "/xl.meta") with
  | None => None
  | Some text =>
      if (strlen text =? 0)%nat || (Z.to_nat (1024 * 1024) <? strlen text)%nat then None
      else cJSON_Parse (c_str text)
  end.

Definition list_hash_dir (fs : fs_t) (bucket : string) (prefix : option string) (dir name : string)
    (found : list json) : c_result (list json) :=
  if hidden name then Val found
  else
    match list_meta fs dir name with
    | None => Val found
    | Some meta =>
        let* e := list_entry bucket prefix meta in
        Val (match e with Some e => found ++ [e] | None => found end)
    end.

Definition list_prefix_dir (fs : fs_t) (bucket : string) (prefix : option string) (max : Z)
    (disk name : string) (found : list json) : c_result (list json) :=
  if hidden name || negb (is_hex_dir name) then Val found
  else
    let dir := snprintf PATH_MAX (disk +:+ "/" +:+ name) in
    match se_readdir env dir with
    | None => Val found
    | Some names => scan_while max (list_hash_dir fs bucket prefix dir) names found
    end.

Definition list_disk (fs : fs_t) (bucket : string) (prefix : option string) (max : Z)
    (disk : string) (found : list json) : c_result (list json) :=
  match se_readdir env disk with
  | None => Val found
  | Some names => scan_while max (list_prefix_dir fs bucket prefix max disk) names found
  end.

Definition rpc_handler_list_objects : rpc_handler node := λ _ params n,
  match param params "bucket" with
  | Some (JString bucket) =>
      let prefix := match param params "prefix" with Some (JString s) => Some s | _ => None end in
      let max := match param params "max_keys" with Some (JNumber z) => valueint z | _ => 1000 end in
      match se_data_dir env with
      | None => Val (rpc_error BUCKETS_ERR_INIT "Storage not configured", n)
      | Some base_dir =>
          let* found := scan_while max
            (λ d, list_disk (n_fs n) bucket prefix max (snprintf PATH_MAX (base_dir +:+ "/disk" +:+ pretty d)))
            [1; 2; 3; 4] [] in
          Val (rpc_ok [("success", JBool true); ("objects", JArray found);
                       ("count", JNumber (Z.of_nat (length found)))], n)
      end
  | _ => Val (rpc_error BUCKETS_ERR_INVALID_ARG "Missing required parameter: bucket", n)
  end.

(** *** Registration *)

Definition storage_methods : list (string * rpc_handler node) :=
  [("storage.writeChunk", rpc_handler_write_chunk); ("storage.readChunk", rpc_handler_read_chunk);
   ("storage.writeXlMeta", rpc_handler_write_xlmeta); ("storage.readXlMeta", rpc_handler_read_xlmeta);
   ("storage.deleteChunk", rpc_handler_delete_chunk); ("storage.listObjects", rpc_handler_list_objects);
   ("storage.createBucketDir", rpc_handler_create_bucket_dir)].

(** One after the other, until one fails. *)
Fixpoint register_all (l : list (string * rpc_handler node)) (ctx : rpc_context node)
    : buckets_error_t * rpc_context node :=
  match l with
  | [] => (BUCKETS_OK, ctx)
  | (method, h) :: l =>
      match buckets_rpc_register_handler ctx method h with
      | (BUCKETS_OK, ctx) => register_all l ctx
      | (err, ctx) => (err, ctx)
      end
  end.

Definition buckets_distributed_rpc_init (ctx : rpc_context node) : buckets_error_t * rpc_context node :=
  register_all storage_methods ctx.
End Handlers.

(** ** The calling node *)

(** The global state: the connections and the context; [None] before the initialisation. *)
Record distributed := Distributed { ds_pool : conn_pool; ds_context : rpc_context node }.

Definition buckets_distributed_storage_init `{CJson} (env : storage_env)
    : buckets_error_t * option distributed :=
  let pool := buckets_conn_pool_create 200 in
  match buckets_distributed_rpc_init env buckets_rpc_context_create with
  | (BUCKETS_OK, ctx) => (BUCKETS_OK, Some (Distributed pool ctx))
  | _ => (BUCKETS_ERR_INIT, None)
  end.

Definition buckets_distributed_storage_cleanup (g : option distributed) : option distributed * list Z :=
  (None, match g with Some g => buckets_conn_pool_free (ds_pool g) | None => [] end).

Definition buckets_distributed_storage_get_rpc_context (g : option distributed) : option (rpc_context node) :=
  ds_context <$> g.

Definition chunk_params (bucket object : string) (chunk_index : Z) (disk_path : string) : json :=
  JObject [("bucket", JString bucket); ("object", JString object); ("chunk_index", JNumber chunk_index);
           ("disk_path", JString disk_path)].

Definition write_chunk_params (bucket object : string) (chunk_index : Z) (data : list Z) (disk_path : string) : json :=
  JObject [("bucket", JString bucket); ("object", JString object); ("chunk_index", JNumber chunk_index);
           ("chunk_data", JString (base64_encode data)); ("chunk_size", JNumber (Z.of_nat (length data)));
           ("disk_path", JString disk_path)].

Definition xlmeta_params (bucket object disk_path : string) : json :=
  JObject [("bucket", JString bucket); ("object", JString object); ("disk_path", JString disk_path)].

Definition write_xlmeta_params (bucket object disk_path text : string) : json :=
  JObject [("bucket", JString bucket); ("object", JString object); ("disk_path", JString disk_path);
           ("xl_meta_json", JString text)].

(** The response of a call that went well on both sides. *)
Definition good_response (r : rpc_result) : option rpc_response :=
  if decide (rpr_rc r = BUCKETS_OK) then
    match rpr_response r with
    | Some res => if res_error_code res =? 0 then Some res else None
    | None => None
    end
  else None.

Section Client.
Context `{CJson}.

(** The connections after a call; [None]: it has not returned. *)
Definition buckets_distributed_write_chunk (env : rpc_env) (p : conn_pool) (peer_endpoint bucket object : string)
    (chunk_index : Z) (data : list Z) (disk_path : string) : c_result (option (buckets_error_t * conn_pool)) :=
  let* r := buckets_rpc_call env p peer_endpoint "storage.writeChunk"
              (Some (write_chunk_params bucket object chunk_index data disk_path)) in
  Val ((λ r, (match good_response r with Some _ => BUCKETS_OK | None => BUCKETS_ERR_RPC end, rpr_pool r)) <$> r).

Definition buckets_distributed_read_chunk (env : rpc_env) (p : conn_pool) (peer_endpoint bucket object : string)
    (chunk_index : Z) (disk_path : string) : c_result (option (option (list Z) * conn_pool)) :=
  let* r := buckets_rpc_call env p peer_endpoint "storage.readChunk"
              (Some (chunk_params bucket object chunk_index disk_path)) in
  match r with
  | None => Val None
  | Some r =>
      match good_response r ≫= res_result with
      | None => Val (Some (None, rpr_pool r))
      | Some result =>
          match get_nocase result "chunk_data", get_nocase result "chunk_size" with
          | Some chunk_data, Some _ =>
              let* data := match valuestring chunk_data with Some s => base64_decode_bits s | None => Undef end in
              Val (Some (Some data, rpr_pool r))
          | _, _ => Val (Some (None, rpr_pool r))
          end
      end
  end.

Definition buckets_distributed_write_xlmeta (env : rpc_env) (p : conn_pool) (peer_endpoint bucket object disk_path : string)
    (meta : xl_meta) : c_result (option (buckets_error_t * conn_pool)) :=
  let* text := buckets_xl_meta_to_json (Some meta) in
  match text with
  | None => Val (Some (BUCKETS_ERR_INVALID_ARG, p))
  | Some text =>
      let* r := buckets_rpc_call env p peer_endpoint "storage.writeXlMeta"
                  (Some (write_xlmeta_params bucket object disk_path text)) in
      Val ((λ r, (match good_response r with Some _ => BUCKETS_OK | None => BUCKETS_ERR_RPC end, rpr_pool r)) <$> r)
  end.

(** The metadata of a successful call. *)
Definition buckets_distributed_read_xlmeta (env : rpc_env) (p : conn_pool) (peer_endpoint bucket object disk_path : string)
    : c_result (option (option xl_meta * conn_pool)) :=
  let* r := buckets_rpc_call env p peer_endpoint "storage.readXlMeta"
              (Some (xlmeta_params bucket object disk_path)) in
  match r with
  | None => Val None
  | Some r =>
      match good_response r ≫= res_result with
      | None => Val (Some (None, rpr_pool r))
      | Some result =>
          match get_nocase result "xl_meta_json" with
          | Some (JString text) =>
              let* meta := buckets_xl_meta_from_json (Some text) in
              Val (Some (meta, rpr_pool r))
          | _ => Val (Some (None, rpr_pool r))
          end
      end
  end.

(** The remote branch of [delete_chunk_worker] in parallel_chunks.c. *)
Definition remote_delete_chunk (env : rpc_env) (p : conn_pool) (peer_endpoint bucket object : string)
    (chunk_index : Z) (disk_path : string) : c_result (option (Z * conn_pool)) :=
  let* r := buckets_rpc_call env p peer_endpoint "storage.deleteChunk"
              (Some (chunk_params bucket object chunk_index disk_path)) in
  Val ((λ r, (match good_response r with Some _ => 0 | None => -1 end, rpr_pool r)) <$> r).
End Client.

(** ** The handlers at work *)

Section Served.
Context `{CJsonLaws, !CJsonText, HttpParserLaws}.
Context (prints : ∀ j, is_Some (cJSON_PrintUnformatted j)).

Definition storage_context (senv : storage_env) : rpc_context node :=
  (buckets_distributed_rpc_init senv buckets_rpc_context_create).2.

Lemma storage_init_ok senv :
  buckets_distributed_rpc_init senv buckets_rpc_context_create = (BUCKETS_OK, storage_context senv).
Proof using Type. reflexivity. Qed.

Lemma storage_handler senv method h :
  (method, h) ∈ storage_methods senv → find_handler (rpc_handlers (storage_context senv)) method = Some h.
Proof using Type.
  unfold storage_methods. rewrite !elem_of_cons, elem_of_nil.
  intros Hm. repeat (destruct Hm as [[= -> ->]|Hm]; [reflexivity|]). destruct Hm.
Qed.

(** One call and its answer: the caller's side, the serving node's side, the host, the text of
    the request, the time and the reply of the server, and its other routes. *)
Record session := Session {
  ss_env : rpc_env;
  ss_storage : storage_env;
  ss_host : string;
  ss_port : Z;
  ss_text : string;
  ss_now : Z;
  ss_keep : bool;
  ss_reply : string;
  ss_other : http_handler node
}.

Definition session_request (s : session) : http_request := rpc_http_request (ss_host s) (ss_port s) (ss_text s).

(** The call can be made and what arrives is what node [n], which becomes [n'], sends. *)
Record exchange (s : session) (p : conn_pool) (held : list nat) (endpoint method : string) (params : json)
    (n n' : node) : Prop := Exchange {
  ex_made : call_made (ss_env s) p held endpoint (ss_host s) (ss_port s) method (Some params) (ss_text s);
  ex_time : is_exact (ss_now s);
  ex_serve : rpc_uv_handler (ss_other s) (ss_now s) (Some (storage_context (ss_storage s))) (ss_keep s)
               (session_request s) n = Val (ss_reply s, n');
  ex_length : Z.of_nat (strlen (ss_reply s)) < 2 ^ 64 - 1;
  ex_pieces : pieces (re_recv (rpe_request (ss_env s)));
  ex_joined : joined (re_recv (rpe_request (ss_env s))) = ss_reply s
}.

Lemma exchange_call s p held endpoint method params n n' n'' h o :
  exchange s p held endpoint method params n n' → (method, h) ∈ storage_methods (ss_storage s) →
  h method (Some params) n = Val (o, n'') → outcome_ok o →
  n' = n'' ∧ ∃ closed p', buckets_rpc_call (ss_env s) p endpoint method (Some params)
    = Val (Some (RpcResult BUCKETS_OK (Some (call_response (rpe_id (ss_env s)) (ss_now s) o))
        (request_head (session_request s) +:+ rq_body (session_request s)) closed p')) ∧ list_inv p' held.
Proof using All.
  intros [Hmade Htime Hserve Hlen Hp Hj] Hm Hh Ho. apply storage_handler in Hm.
  destruct (rpc_call_served _ _ _ _ _ _ _ _ _ h o n n'' n' _ _ _ _ _ Hmade Hm Hh Ho Htime prints Hserve Hlen Hp Hj)
    as (_ & E & Hcall).
  split; [exact E|exact Hcall].
Qed.
End Served.

Lemma rpc_ok_good id now result sent closed p :
  good_response (RpcResult BUCKETS_OK (Some (call_response id now (rpc_ok result))) sent closed p)
  = Some (call_response id now (rpc_ok result)) ∧
  res_result (call_response id now (rpc_ok result)) = Some (JObject result).
Proof. split; reflexivity. Qed.

Lemma rpc_error_bad id now e message sent closed p :
  good_response (RpcResult BUCKETS_OK (Some (call_response id now (rpc_error e message))) sent closed p) = None.
Proof. reflexivity. Qed.

Lemma rpc_error_outcome e message : outcome_ok (rpc_error e message).
Proof.
  split; [exact I|]. assert (∀ z, -1 ≤ z ≤ 20 → is_exact z) as Hz by (unfold is_exact; lia).
  split; apply Hz; cbn; [destruct e; cbn; lia|lia].
Qed.

Lemma json_ok_S d j : json_ok d j → json_ok (S d) j.
Proof.
  revert j. induction d as [|d IH]; intros [|b|z|t|l|l]; try done; cbn [json_ok]; intros Hl;
    (eapply Forall_impl; [exact Hl|]); intros x; apply IH.
Qed.

Lemma json_ok_add k d j : json_ok d j → json_ok (k + d) j.
Proof. intros Hj. induction k as [|k IH]; [done|]. by apply json_ok_S. Qed.

Lemma rpc_ok_outcome result : Forall (λ kv, json_ok 4 kv.2) result → outcome_ok (rpc_ok result).
Proof.
  intros Hr. assert (is_exact 0) as H0 by (unfold is_exact; lia). split; [|by split].
  unfold message_item. cbn [ho_result rpc_ok default].
  change 998%nat with (993 + 5)%nat. apply json_ok_add. exact Hr.
Qed.

(** Reading allocates empty arrays, which print like none. *)
Lemma xl_normal_json `{CJson} m :
  xl_wf m → buckets_xl_meta_to_json (Some (xl_normal m)) = buckets_xl_meta_to_json (Some m).
Proof.
  intros Hm. assert (xl_meta_tree (xl_normal m) = xl_meta_tree m) as E; [|unfold buckets_xl_meta_to_json; by rewrite E].
  unfold xl_meta_tree. destruct Hm as [_ _ _ _ _ _ _ _ _ [Hd _] [Hc _] _ _].
  change (chunk_count (xl_normal m)) with (chunk_count m).
  rewrite !array_prefix_default by done. reflexivity.
Qed.

Lemma xl_normal_write `{CJson} env pid fs disk path m :
  xl_wf m → buckets_write_xl_meta env pid fs disk path (xl_normal m) = buckets_write_xl_meta env pid fs disk path m.
Proof. intros Hm. unfold buckets_write_xl_meta. by rewrite xl_normal_json. Qed.

Section Remote.
Context `{CJsonLaws, !CJsonText, HttpParserLaws}.
Context (prints : ∀ j, is_Some (cJSON_PrintUnformatted j)).

(** The write of metadata on a node on behalf of another. *)
Definition local_write (senv : storage_env) (bucket object disk : string) (m : xl_meta) (n : node)
    : c_result (bool * node) :=
  let path := buckets_compute_object_path bucket object PATH_MAX in
  if (buckets_create_object_dir (se_mkdir senv) disk path).1 =? 0 then
    let* r := buckets_write_xl_meta (se_write senv).1 (se_write senv).2 (n_fs n) disk path m in
    Val (r.1 =? 0, with_fs (default (n_fs n) (last r.2)) n)
  else Val (false, n).

Lemma write_xlmeta_handler senv bucket object disk m text n :
  xl_wf m → buckets_xl_meta_to_json (Some m) = Val (Some text) →
  ∃ ok n' o, local_write senv bucket object disk m n = Val (ok, n') ∧
    rpc_handler_write_xlmeta senv "storage.writeXlMeta" (Some (write_xlmeta_params bucket object disk text)) n
      = Val (o, n') ∧
    (if ok : bool then o = rpc_ok [("success", JBool true)] else ∃ e message, o = rpc_error e message).
Proof using All.
  intros Hm Ht. unfold rpc_handler_write_xlmeta, local_write.
  set (params := write_xlmeta_params bucket object disk text).
  change (param (Some params) "bucket") with (Some (JString bucket)).
  change (param (Some params) "object") with (Some (JString object)).
  change (param (Some params) "disk_path") with (Some (JString disk)).
  change (param (Some params) "xl_meta_json") with (Some (JString text)).
  cbv iota. cbn [valuestring]. rewrite (xl_meta_json_roundtrip m text Hm Ht). cbn [c_bind object_path_of valuestring].
  destruct (_ =? 0) eqn:Hdir; cbn [negb]; [|by eauto 10].
  rewrite xl_normal_write by done.
  destruct (buckets_write_xl_meta _ _ _ _ _ m) as [[rc st]|] eqn:Hw.
  - cbn [c_bind fst snd]. eexists _, _, _. split; [done|]. split; [done|]. destruct (rc =? 0); eauto.
  - exfalso. unfold buckets_write_xl_meta in Hw. rewrite Ht in Hw. cbn [c_bind] in Hw.
    by destruct (buckets_atomic_write _ _ _ _ _).
Qed.

(** C9: metadata written on another node is what a write on that node would leave: whatever
    the network delivers in whatever pieces, the node ends in the state of a local write of
    the same metadata, the caller is told of success exactly when that write succeeded, and
    the connection goes back to the pool. *)
Theorem remote_metadata_write s p held endpoint bucket object disk m text n n' :
  xl_wf m → buckets_xl_meta_to_json (Some m) = Val (Some text) →
  exchange s p held endpoint "storage.writeXlMeta" (write_xlmeta_params bucket object disk text) n n' →
  ∃ ok p', local_write (ss_storage s) bucket object disk m n = Val (ok, n') ∧
    buckets_distributed_write_xlmeta (ss_env s) p endpoint bucket object disk m
      = Val (Some (if ok : bool then BUCKETS_OK else BUCKETS_ERR_RPC, p')) ∧ list_inv p' held.
Proof using All.
  intros Hm Ht Hex. destruct (write_xlmeta_handler (ss_storage s) bucket object disk m text n Hm Ht)
    as (ok & n1 & o & Hlocal & Hh & Ho).
  assert (outcome_ok o) as Hout.
  { destruct ok; [subst o; apply rpc_ok_outcome; by repeat constructor|].
    destruct Ho as (e & msg & ->). apply rpc_error_outcome. }
  destruct (exchange_call prints s p held endpoint _ _ n n' n1 (rpc_handler_write_xlmeta (ss_storage s)) o Hex)
    as (-> & closed & p' & Hcall & Hl); [unfold storage_methods; set_solver|done|done|].
  exists ok, p'. split; [done|]. split; [|done].
  unfold buckets_distributed_write_xlmeta. rewrite Ht. cbn [c_bind]. rewrite Hcall. cbn [c_bind fmap option_fmap option_map].
  destruct ok; [subst o; reflexivity|]. destruct Ho as (e & msg & ->). by rewrite rpc_error_bad.
Qed.

Lemma read_xlmeta_handler senv bucket object disk n found :
  (∀ j, is_Some (cJSON_Print j)) →
  buckets_read_xl_meta (se_read senv) (n_fs n) disk (buckets_compute_object_path bucket object PATH_MAX) = Val found →
  (∀ m, found = Some m → xl_wf m) →
  ∃ o, rpc_handler_read_xlmeta senv "storage.readXlMeta" (Some (xlmeta_params bucket object disk)) n = Val (o, n) ∧
    match found with
    | Some m => ∃ text, buckets_xl_meta_to_json (Some m) = Val (Some text) ∧
                  o = rpc_ok [("success", JBool true); ("xl_meta_json", JString text)]
    | None => ∃ e message, o = rpc_error e message
    end.
Proof using All.
  intros Hprint Hr Hwf. unfold rpc_handler_read_xlmeta. set (params := xlmeta_params bucket object disk).
  change (param (Some params) "bucket") with (Some (JString bucket)).
  change (param (Some params) "object") with (Some (JString object)).
  change (param (Some params) "disk_path") with (Some (JString disk)).
  cbv iota. cbn [valuestring object_path_of c_bind]. rewrite Hr. cbn [c_bind].
  destruct found as [m|]; [|eauto 10].
  destruct (xl_meta_to_json_total m (Hwf m eq_refl)) as [[text|] Ht].
  - rewrite Ht. cbn [c_bind]. eauto 10.
  - exfalso. unfold buckets_xl_meta_to_json in Ht. destruct (xl_meta_tree m) as [root|]; [|done]. cbn [c_bind] in Ht.
    destruct (Hprint root) as [t E]. rewrite E in Ht. done.
Qed.

(** Metadata read from another node is what a read on that node gives (the arrays of an
    object without chunks as empty arrays): the metadata with every field, or nothing when the
    node has none, in whatever pieces the answer arrives; the node stays as it is and the
    connection goes back to the pool. *)
Theorem remote_metadata_read s p held endpoint bucket object disk n n' found :
  (∀ j, is_Some (cJSON_Print j)) →
  buckets_read_xl_meta (se_read (ss_storage s)) (n_fs n) disk
    (buckets_compute_object_path bucket object PATH_MAX) = Val found →
  (∀ m, found = Some m → xl_wf m) →
  exchange s p held endpoint "storage.readXlMeta" (xlmeta_params bucket object disk) n n' →
  n' = n ∧ ∃ p', buckets_distributed_read_xlmeta (ss_env s) p endpoint bucket object disk
    = Val (Some (xl_normal <$> found, p')) ∧ list_inv p' held.
Proof using All.
  intros Hprint Hr Hwf Hex.
  destruct (read_xlmeta_handler (ss_storage s) bucket object disk n found Hprint Hr Hwf) as (o & Hh & Ho).
  assert (outcome_ok o) as Hout.
  { destruct found; [destruct Ho as (text & _ & ->); apply rpc_ok_outcome; by repeat constructor|].
    destruct Ho as (e & msg & ->). apply rpc_error_outcome. }
  destruct (exchange_call prints s p held endpoint _ _ n n' n (rpc_handler_read_xlmeta (ss_storage s)) o Hex)
    as (-> & closed & p' & Hcall & Hl); [unfold storage_methods; set_solver|done|done|].
  split; [done|]. exists p'. split; [|done].
  unfold buckets_distributed_read_xlmeta. rewrite Hcall. cbn [c_bind].
  destruct found as [m|].
  - destruct Ho as (text & Ht & ->).
    rewrite (proj1 (rpc_ok_good _ _ _ _ _ _)). cbn [mbind option_bind]. rewrite (proj2 (rpc_ok_good _ _ _ "" [] p')).
    change (get_nocase (JObject [("success", JBool true); ("xl_meta_json", JString text)]) "xl_meta_json")
      with (Some (JString text)). cbv iota.
    by rewrite (xl_meta_json_roundtrip m text (Hwf m eq_refl) Ht).
  - destruct Ho as (e & msg & ->). rewrite rpc_error_bad. done.
Qed.

(** Deleting on another node removes the chunk and the metadata there, and nothing else. *)
Lemma remote_delete s p held endpoint bucket object i disk n n' :
  0 ≤ i < 2 ^ 31 →
  exchange s p held endpoint "storage.deleteChunk" (chunk_params bucket object i disk) n n' →
  let path := buckets_compute_object_path bucket object PATH_MAX in
  let chunk := snprintf (2 * PATH_MAX) (disk +:+ "/" +:+ path +:+ "part." +:+ print_u64 i) in
  let meta := snprintf (2 * PATH_MAX) (disk +:+ "/" +:+ path +:+ "xl.meta") in
  ∃ p', remote_delete_chunk (ss_env s) p endpoint bucket object i disk = Val (Some (0, p')) ∧ list_inv p' held ∧
    n' = with_fs (unlink (se_unlink (ss_storage s)).2 meta
                    (unlink (se_unlink (ss_storage s)).1 chunk (n_fs n)).2).2 n.
Proof using All.
  intros Hi Hex path chunk meta. set (params := chunk_params bucket object i disk) in *.
  assert (u32 (valueint i) = i) as Ei by (by apply u32_valueint).
  destruct (unlink (se_unlink (ss_storage s)).1 chunk (n_fs n)) as [d1 fs1] eqn:E1.
  destruct (unlink (se_unlink (ss_storage s)).2 meta fs1) as [d2 fs2] eqn:E2.
  assert (rpc_handler_delete_chunk (ss_storage s) "storage.deleteChunk" (Some params) n
    = Val (rpc_ok [("success", JBool (d1 || d2))], with_fs fs2 n)) as Hh.
  { unfold rpc_handler_delete_chunk.
    change (param (Some params) "bucket") with (Some (JString bucket)).
    change (param (Some params) "object") with (Some (JString object)).
    change (param (Some params) "chunk_index") with (Some (JNumber i)).
    change (param (Some params) "disk_path") with (Some (JString disk)).
    cbv iota zeta. rewrite Ei. fold path. fold chunk. fold meta. by rewrite E1, E2. }
  destruct (exchange_call prints s p held endpoint _ _ n n' (with_fs fs2 n) (rpc_handler_delete_chunk (ss_storage s))
    (rpc_ok [("success", JBool (d1 || d2))]) Hex)
    as (-> & closed & p' & Hcall & Hl); [unfold storage_methods; set_solver|exact Hh|apply rpc_ok_outcome; by repeat constructor|].
  exists p'. split; [|split; [done|by cbn; rewrite E2]].
  unfold remote_delete_chunk. fold params. rewrite Hcall. cbn [c_bind fmap option_fmap option_map].
  by rewrite (proj1 (rpc_ok_good _ _ _ _ _ _)).
Qed.
End Remote.

(** ** An exchange in which everything goes well *)

Section Example.
#[local] Existing Instance BitsCJson.bits_cjson.
#[local] Existing Instance BitsCJson.bits_cjson_laws.
#[local] Existing Instance BitsCJson.bits_cjson_text.
#[local] Existing Instance Transport.line_parser.
#[local] Existing Instance Transport.line_parser_laws.

Definition example_storage : storage_env :=
  StorageEnv true (write_env_ok, 7%N) (λ _, true) (quiet_env UringOff) (true, true) (λ _, None) (Some "/d").

(** The headers leave in one piece, the body after an interrupted attempt in two, and the reply
    arrives in two. *)
Definition example_rpc_env (text reply : string) : rpc_env :=
  RpcEnv "id" 7 (λ _, PollAnswer false false None) (ConnectEnv 3 true ConnectInProgress true true) 0 (1, 2)
    (RequestEnv (Some (strlen (request_head (rpc_http_request "n2" 9000 text))))
       [IoDone 10; IoIntr; IoDone (strlen text)] [strncpy 40 reply; str_drop 40 reply]) 9.

Definition example_other : http_handler node := λ _ _ _, Undef.

Definition example_text (method : string) (params : json) : string :=
  default "" (cJSON_PrintUnformatted (request_json (RpcRequest "id" (strncpy 127 method) (Some params) 7))).

Definition example_serve (senv : storage_env) (method : string) (params : json) (n : node) : c_result (string * node) :=
  rpc_uv_handler example_other 8 (Some (storage_context senv)) true
    (rpc_http_request "n2" 9000 (example_text method params)) n.

Definition example_session (senv : storage_env) (method : string) (params : json) (n : node) : session :=
  let text := example_text method params in
  let reply := match example_serve senv method params n with Val (reply, _) => reply | Undef => "" end in
  Session (example_rpc_env text reply) senv "n2" 9000 text 8 true reply example_other.

Definition example_pool : conn_pool := buckets_conn_pool_create 4.

Lemma example_pool_inv : list_inv example_pool [].
Proof using Type. split; cbn; [constructor|done|done|lia|done]. Qed.

(** What remains to be computed of an exchange. *)
Definition example_runs (senv : storage_env) (method : string) (params : json) (n : node) : bool :=
  let text := example_text method params in
  let reply := ss_reply (example_session senv method params n) in
  bool_decide ((λ x, x.1) <$> send_all [IoDone 10; IoIntr; IoDone (strlen text)] text = Some (0, text)) &&
  (Z.of_nat (strlen text) <? 1000000) && (Z.of_nat (strlen reply) <? 1000000) &&
  (0 <? strlen (strncpy 40 reply))%nat && (0 <? strlen (str_drop 40 reply))%nat &&
  bool_decide (joined [strncpy 40 reply; str_drop 40 reply] = reply).

Lemma example_exchange senv method params n n' reply :
  (strlen method ≤ 127)%nat → json_ok 998 params →
  example_serve senv method params n = Val (reply, n') → example_runs senv method params n = true →
  exchange (example_session senv method params n) example_pool [] "http://n2:9000" method params n n'.
Proof using Type.
  intros Hm Hp Hs Hr. unfold example_runs in Hr. cbv zeta in Hr.
  rewrite !andb_true_iff, !bool_decide_eq_true, !Z.ltb_lt, !Nat.ltb_lt in Hr.
  destruct Hr as [[[[[Hsend Ht] Hl] Hp1] Hp2] Hj].
  assert (ss_reply (example_session senv method params n) = reply) as Er by (unfold example_session; by rewrite Hs).
  split.
  - split; [apply example_pool_inv|..].
    + apply not_elem_of_nil.
    + vm_compute. reflexivity.
    + header_value_tac.
    + reflexivity.
    + done.
    + exact Hp.
    + unfold is_exact. cbn. lia.
    + reflexivity.
    + change (ss_text _) with (example_text method params). lia.
    + reflexivity.
    + exact Hsend.
  - unfold is_exact. cbn. lia.
  - rewrite Er. exact Hs.
  - lia.
  - change (re_recv _) with [strncpy 40 (ss_reply (example_session senv method params n));
                             str_drop 40 (ss_reply (example_session senv method params n))].
    assert (∀ t, (0 < strlen t)%nat → t ≠ "") as Hne by (intros [|]; cbn; [lia|done]).
    apply Forall_cons; split; [by apply Hne|]. apply Forall_cons; split; [by apply Hne|]. apply Forall_nil_2.
  - exact Hj.
Qed.
End Example.

(** ** The metadata of an object written on another node and read back from there *)

Section Example.
#[local] Existing Instance BitsCJson.bits_cjson.
#[local] Existing Instance BitsCJson.bits_cjson_laws.
#[local] Existing Instance BitsCJson.bits_cjson_text.
#[local] Existing Instance Transport.line_parser.
#[local] Existing Instance Transport.line_parser_laws.

Definition example_meta_text : string :=
  match buckets_xl_meta_to_json (Some example_meta) with Val (Some s) => s | _ => "" end.

Definition example_write_params : json := write_xlmeta_params "b" "o" "/d/disk1" example_meta_text.

Definition example_empty : node := Node ∅ [] None ∅.

Definition node_after (method : string) (params : json) (n : node) : node :=
  match example_serve example_storage method params n with Val (_, n) => n | Undef => n end.

Definition example_written : node := node_after "storage.writeXlMeta" example_write_params example_empty.

Definition example_read_params : json := xlmeta_params "b" "o" "/d/disk1".

Lemma example_meta_printed : buckets_xl_meta_to_json (Some example_meta) = Val (Some example_meta_text).
Proof using Type.
  unfold example_meta_text. destruct (xl_meta_to_json_total example_meta example_meta_wf) as [[s|] Hs];
    [by rewrite Hs|discriminate Hs].
Qed.

Lemma remote_metadata_write_witness :
  let s := example_session example_storage "storage.writeXlMeta" example_write_params example_empty in
  ∃ ok p', local_write (ss_storage s) "b" "o" "/d/disk1" example_meta example_empty = Val (ok, example_written) ∧
    buckets_distributed_write_xlmeta (ss_env s) example_pool "http://n2:9000" "b" "o" "/d/disk1" example_meta
      = Val (Some (if ok : bool then BUCKETS_OK else BUCKETS_ERR_RPC, p')) ∧ list_inv p' [].
Proof.
  intros s. eapply (remote_metadata_write (λ j, _) s example_pool [] "http://n2:9000" "b" "o" "/d/disk1"
    example_meta example_meta_text example_empty example_written example_meta_wf example_meta_printed).
  destruct (example_serve example_storage "storage.writeXlMeta" example_write_params example_empty) as [[reply n']|] eqn:E;
    [|by vm_compute in E].
  replace example_written with n' by (unfold example_written, node_after; by rewrite E).
  eapply example_exchange; [cbn; lia| |exact E|vm_compute; reflexivity].
  change 998%nat with (996 + 2)%nat. apply json_ok_add. by repeat constructor.
  Unshelve. by eexists.
Defined.

Lemma example_meta_there :
  buckets_read_xl_meta true (n_fs example_written) "/d/disk1" (buckets_compute_object_path "b" "o" PATH_MAX)
  = Val (Some example_meta).
Proof using Type. vm_compute. reflexivity. Qed.

Lemma remote_metadata_read_witness :
  let s := example_session example_storage "storage.readXlMeta" example_read_params example_written in
  ∃ p', buckets_distributed_read_xlmeta (ss_env s) example_pool "http://n2:9000" "b" "o" "/d/disk1"
      = Val (Some (Some example_meta, p')) ∧ list_inv p' [].
Proof.
  intros s.
  destruct (example_serve example_storage "storage.readXlMeta" example_read_params example_written) as [[reply n']|] eqn:E;
    [|by vm_compute in E].
  eapply (remote_metadata_read (λ j, _) s example_pool [] "http://n2:9000" "b" "o" "/d/disk1"
    example_written n' (Some example_meta)).
  - intros j. by eexists.
  - exact example_meta_there.
  - intros m [= <-]. exact example_meta_wf.
  - eapply example_exchange; [cbn; lia| |exact E|vm_compute; reflexivity].
    change 998%nat with (996 + 2)%nat. apply json_ok_add. by repeat constructor.
  Unshelve. by eexists.
Defined.
End Example.

(** ** Where the handlers go wrong *)

(** An empty chunk is sent as an empty string, which the receiver reads before its start; three
    characters are decoded past the end of the buffer. *)
Lemma empty_base64_reads_before : base64_encode [] = "" ∧ base64_decode_bits "" = Undef.
Proof. split; reflexivity. Qed.

Lemma short_base64_overruns : base64_decode_bits "AAA" = Undef ∧ base64_decode_bits "AAAA" = Val [0; 0; 0].
Proof. split; vm_compute; reflexivity. Qed.

(** Fields of the parameters are used without a look at their type: a number for a name is a
    NULL string. *)
Lemma untyped_field_crashes `{CJson} env n :
  rpc_handler_read_chunk env "storage.readChunk"
    (Some (JObject [("bucket", JNumber 1); ("object", JString "o"); ("chunk_index", JNumber 1);
                    ("disk_path", JString "/d")])) n = Undef.
Proof. reflexivity. Qed.
