(* ===== verification/Listing.v ===== *)
(** * Listing and buckets over all nodes (src/src/storage/distributed.c)

    Every node of the cluster is asked for its objects and the answers are merged; a bucket is
    created on every node. A node that does not answer is passed over. *)

From S2P Require Import Prelude CInt CString CSearch DiskIO Json XlMeta Chunk HttpWire Transport ConnPool ConnRequest HttpServer Rpc StorageRpc.
From Stdlib Require Import Ascii.

Local Open Scope c_scope.

(** ** The calling node *)

Definition list_params (bucket : string) (prefix : option string) (max_keys : Z) : json :=
  JObject ([("bucket", JString bucket)] ++ match prefix with Some p => [("prefix", JString p)] | None => [] end
           ++ [("max_keys", JNumber max_keys)]).

(** The result of a call that came through; the error code is not looked at. *)
Definition call_result (r : rpc_result) : option json :=
  if decide (rpr_rc r = BUCKETS_OK) then rpr_response r ≫= res_result else None.

Definition listed_objects (r : rpc_result) : option (list json) :=
  match call_result r with
  | Some result =>
      match get_nocase result "success", get_nocase result "objects" with
      | Some (JBool true), Some (JArray objects) => Some objects
      | _, _ => None
      end
  | None => None
  end.

(** What was found so far and the keys that were seen. *)
Record listing := Listing { ls_found : list json; ls_seen : list string }.

Definition merge_object (max : nat) (obj : json) (st : listing) : listing :=
  match get_nocase obj "bucket", get_nocase obj "object" with
  | Some (JString b), Some (JString o) =>
      let key := b +:+ "/" +:+ o in
      if existsb (λ k, strcmp_eq k key) (ls_seen st) then st
      else Listing (ls_found st ++ [obj])
             (if (length (ls_seen st) <? max)%nat then ls_seen st ++ [key] else ls_seen st)
  | _, _ => st
  end.

Fixpoint merge_objects (max : nat) (l : list json) (st : listing) : listing :=
  match l with
  | [] => st
  | obj :: l =>
      if (max <=? length (ls_found st))%nat then st else merge_objects max l (merge_object max obj st)
  end.

Section Nodes.
Context `{CJson} (envs : nat → rpc_env).

(** The loop over the nodes from number [i] on; [None]: a call has not returned. *)
Fixpoint list_nodes (bucket : string) (prefix : option string) (max : nat) (i : nat) (nodes : list string)
    (st : listing) (p : conn_pool) : c_result (option (listing * conn_pool)) :=
  match nodes with
  | [] => Val (Some (st, p))
  | endpoint :: nodes =>
      if (max <=? length (ls_found st))%nat then Val (Some (st, p))
      else if strcmp_eq endpoint "" then list_nodes bucket prefix max (S i) nodes st p
      else
        let* r := buckets_rpc_call (envs i) p endpoint "storage.listObjects"
                    (Some (list_params bucket prefix (Z.of_nat (max - length (ls_found st))))) in
        match r with
        | None => Val None
        | Some r =>
            list_nodes bucket prefix max (S i) nodes
              (match listed_objects r with Some l => merge_objects max l st | None => st end) (rpr_pool r)
        end
  end.

(** [nodes]: the endpoints of the cluster; [None] without one. *)
Definition buckets_distributed_list_objects (nodes : option (list string)) (bucket : string)
    (prefix : option string) (max_keys : nat) (p : conn_pool) : c_result (option (list json * conn_pool)) :=
  let max := if (max_keys =? 0)%nat then Z.to_nat 1000 else max_keys in
  match nodes with
  | None => Val (Some ([], p))
  | Some nodes =>
      let* r := list_nodes bucket prefix max 0 nodes (Listing [] []) p in
      Val ((λ r, (ls_found r.1, r.2)) <$> r)
  end.

Definition bucket_params (bucket : string) : json := JObject [("bucket", JString bucket)].

Definition bucket_created (r : rpc_result) : bool :=
  match call_result r with
  | Some result => match get_nocase result "success" with Some (JBool true) => true | _ => false end
  | None => false
  end.

Fixpoint create_on_nodes (bucket : string) (i : nat) (nodes : list string) (succeeded : nat) (p : conn_pool)
    : c_result (option (nat * conn_pool)) :=
  match nodes with
  | [] => Val (Some (succeeded, p))
  | endpoint :: nodes =>
      if strcmp_eq endpoint "" then create_on_nodes bucket (S i) nodes succeeded p
      else
        let* r := buckets_rpc_call (envs i) p endpoint "storage.createBucketDir" (Some (bucket_params bucket)) in
        match r with
        | None => Val None
        | Some r =>
            create_on_nodes bucket (S i) nodes (if bucket_created r then S succeeded else succeeded) (rpr_pool r)
        end
  end.

Definition buckets_distributed_create_bucket (nodes : option (list string)) (bucket : string) (p : conn_pool)
    : c_result (option (buckets_error_t * conn_pool)) :=
  if strcmp_eq bucket "" then Val (Some (BUCKETS_ERR_INVALID_ARG, p))
  else
    match nodes with
    | None => Val (Some (BUCKETS_OK, p))
    | Some nodes =>
        let* r := create_on_nodes bucket 0 nodes 0 p in
        Val ((λ r, (if (0 <? r.1)%nat then BUCKETS_OK else BUCKETS_ERR_IO, r.2)) <$> r)
    end.
End Nodes.

(** ** What a node holds *)

Section Node.
Context `{CJson} (senv : storage_env) (fs : fs_t) (bucket : string) (prefix : option string).

Definition hash_objects (dir name : string) : list json :=
  if hidden name then []
  else
    match list_meta fs dir name with
    | None => []
    | Some meta => match list_entry bucket prefix meta with Val (Some e) => [e] | _ => [] end
    end.

Definition prefix_objects (disk name : string) : list json :=
  if hidden name || negb (is_hex_dir name) then []
  else
    let dir := snprintf PATH_MAX (disk +:+ "/" +:+ name) in
    default [] (se_readdir senv dir) ≫= hash_objects dir.

Definition disk_objects (disk : string) : list json :=
  default [] (se_readdir senv disk) ≫= prefix_objects disk.

(** The objects of the bucket with the prefix, once for every disk that has their metadata. *)
Definition node_objects (base_dir : string) : list json :=
  [1; 2; 3; 4] ≫= λ d, disk_objects (snprintf PATH_MAX (base_dir +:+ "/disk" +:+ pretty d)).

(** Every document that can be read has a size that is exact as a double. *)
Definition sizes_ok : Prop :=
  ∀ dir name meta, list_meta fs dir name = Some meta → ∃ st, stat_of meta = Val st ∧ is_exact st.1.

Lemma take_take_app {A} m (l k : list A) : take m (take m l ++ k) = take m (l ++ k).
Proof using Type.
  destruct (decide (length l ≤ m)%nat); [by rewrite (take_ge l)|].
  rewrite !take_app_le by (rewrite ?length_take; lia). by rewrite take_take, Nat.min_id.
Qed.

Lemma scan_while_take {A} (m : nat) (f : A → list json) step l found :
  (∀ a found, (length found < m)%nat → step a found = Val (take m (found ++ f a))) →
  (length found ≤ m)%nat →
  scan_while (Z.of_nat m) step l found = Val (take m (found ++ (l ≫= f))).
Proof using Type.
  intros Hstep. revert found. induction l as [|a l IH]; intros found Hl.
  { cbn. rewrite app_nil_r, take_ge by done. done. }
  cbn [scan_while mbind list_bind]. destruct (Z.ltb_spec (Z.of_nat (length found)) (Z.of_nat m)).
  - rewrite Hstep by lia. cbn [c_bind]. rewrite IH by (rewrite length_take; lia). f_equal.
    rewrite app_assoc. apply take_take_app.
  - rewrite take_app_le by lia. by rewrite take_ge.
Qed.

Lemma list_entry_ok dir name meta : sizes_ok → list_meta fs dir name = Some meta →
  ∃ e, list_entry bucket prefix meta = Val e.
Proof using Type.
  intros Hs Hm. destruct (Hs _ _ _ Hm) as (st & Hst & _). unfold list_entry. rewrite Hst.
  destruct (get_nocase meta "bucket") as [[| | |b| |]|]; eauto.
  destruct (get_nocase meta "object") as [[| | |o| |]|]; eauto.
  repeat split_if; eauto.
Qed.

Lemma node_objects_listed (m : nat) base_dir n :
  sizes_ok → fs = n_fs n → se_data_dir senv = Some base_dir → Z.of_nat m < 2 ^ 31 →
  let found := take m (node_objects base_dir) in
  rpc_handler_list_objects senv "storage.listObjects" (Some (list_params bucket prefix (Z.of_nat m))) n
  = Val (rpc_ok [("success", JBool true); ("objects", JArray found); ("count", JNumber (Z.of_nat (length found)))], n).
Proof using Type.
  intros Hs Hfs Hd Hm found. unfold rpc_handler_list_objects.
  change (param (Some (list_params bucket prefix (Z.of_nat m))) "bucket") with (Some (JString bucket)). cbv iota.
  assert (param (Some (list_params bucket prefix (Z.of_nat m))) "max_keys" = Some (JNumber (Z.of_nat m))) as ->
    by (by destruct prefix).
  assert (match param (Some (list_params bucket prefix (Z.of_nat m))) "prefix" with Some (JString s) => Some s | _ => None end
          = prefix) as -> by (by destruct prefix).
  rewrite Hd. rewrite valueint_id by (unfold is_i32; lia). cbv zeta. rewrite <- Hfs.
  rewrite (scan_while_take m (λ d, disk_objects (snprintf PATH_MAX (base_dir +:+ "/disk" +:+ pretty d)))).
  { reflexivity. }
  2:{ cbn. lia. }
  intros d l Hl. unfold list_disk, disk_objects. destruct (se_readdir senv _) as [names|];
    cbn [default]; [|cbn; by rewrite app_nil_r, take_ge by lia].
  apply scan_while_take; [|lia]. clear l Hl names. intros name l Hl.
  unfold list_prefix_dir, prefix_objects. destruct (hidden name || _); [by rewrite app_nil_r, take_ge by lia|].
  cbv zeta. destruct (se_readdir senv _) as [names|]; cbn [default]; [|cbn; by rewrite app_nil_r, take_ge by lia].
  apply scan_while_take; [|lia]. clear l Hl names. intros hname l Hl.
  unfold list_hash_dir, hash_objects. destruct (hidden hname); [by rewrite app_nil_r, take_ge by lia|].
  destruct (list_meta fs _ hname) as [meta|] eqn:Em; [|by rewrite app_nil_r, take_ge by lia].
  destruct (list_entry_ok _ _ _ Hs Em) as [e ->]. cbn [c_bind].
  destruct e as [e|]; [|by rewrite app_nil_r, take_ge by lia].
  rewrite take_ge by (rewrite length_app; cbn; lia). done.
Qed.

(** An entry of the listing of a bucket. *)
Definition is_entry (j : json) : Prop :=
  ∃ o size mod_time, j = JObject [("bucket", JString bucket); ("object", JString o); ("size", JNumber size);
                                  ("mod_time", JString mod_time)] ∧ is_exact size.

Lemma node_objects_entries base_dir : sizes_ok → Forall is_entry (node_objects base_dir).
Proof using Type.
  intros Hs. apply Forall_forall. intros j Hj. unfold node_objects, disk_objects, prefix_objects, hash_objects in Hj.
  apply list_elem_of_bind in Hj as (d & Hj & _). apply list_elem_of_bind in Hj as (name & Hj & _).
  destruct (hidden name || _); [by apply not_elem_of_nil in Hj|]. cbv zeta in Hj.
  apply list_elem_of_bind in Hj as (hname & Hj & _). destruct (hidden hname); [by apply not_elem_of_nil in Hj|].
  destruct (list_meta fs _ hname) as [meta|] eqn:Em; [|by apply not_elem_of_nil in Hj].
  destruct (Hs _ _ _ Em) as (st & Hst & Hx). unfold list_entry in Hj. rewrite Hst in Hj.
  destruct (get_nocase meta "bucket") as [[| | |b| |]|]; try by apply not_elem_of_nil in Hj.
  destruct (get_nocase meta "object") as [[| | |o| |]|]; try by apply not_elem_of_nil in Hj.
  destruct (strcmp_eq b bucket) eqn:Eb; cbn [negb orb] in Hj; [|by apply not_elem_of_nil in Hj].
  apply bool_decide_eq_true in Eb as ->.
  destruct (hidden bucket); [by apply not_elem_of_nil in Hj|].
  destruct (match prefix with Some _ => _ | None => _ end); [by apply not_elem_of_nil in Hj|].
  cbn [c_bind] in Hj. apply list_elem_of_singleton in Hj as ->. by eexists _, _, _.
Qed.
End Node.

(** ** Merging *)

Definition object_name (j : json) : string := match get_nocase j "object" with Some (JString o) => o | _ => "" end.

Section Merge.
Context (bucket : string) (max : nat).

(** Entries of the bucket, no name twice, with their keys, within the limit. *)
Record merged (st : listing) : Prop := Merged {
  mg_entries : Forall (is_entry bucket) (ls_found st);
  mg_seen : ls_seen st = (λ j, bucket +:+ "/" +:+ object_name j) <$> ls_found st;
  mg_names : NoDup (object_name <$> ls_found st);
  mg_limit : (length (ls_found st) ≤ max)%nat
}.

Lemma seen_key l o :
  existsb (λ k, strcmp_eq k (bucket +:+ "/" +:+ o)) ((λ j, bucket +:+ "/" +:+ object_name j) <$> l) = true ↔
  o ∈ object_name <$> l.
Proof.
  rewrite existsb_exists. setoid_rewrite list_elem_of_fmap. split.
  - intros (k & Hk & Ek). apply bool_decide_eq_true in Ek as ->.
    apply list_elem_of_In, list_elem_of_fmap in Hk as (j & Ej & Hj). exists j. split; [|done].
    apply (inj (String.append bucket)) in Ej. injection Ej as Ej. done.
  - intros (j & -> & Hj). eexists. split; [apply list_elem_of_In, list_elem_of_fmap; by eauto|].
    by apply bool_decide_eq_true.
Qed.

Lemma merge_object_ok j st :
  merged st → is_entry bucket j → (length (ls_found st) < max)%nat →
  let st' := merge_object max j st in
  merged st' ∧ (∀ x, x ∈ ls_found st' → x ∈ ls_found st ∨ x = j) ∧ (∀ x, x ∈ ls_found st → x ∈ ls_found st') ∧
  object_name j ∈ object_name <$> ls_found st' ∧ (length (ls_found st') ≤ S (length (ls_found st)))%nat.
Proof.
  intros [He Hs Hn Hm] Hj Hl. pose proof Hj as (o & size & mt & -> & Hx).
  set (j := JObject _) in *. cbv zeta.
  assert (merge_object max j st = if existsb (λ k, strcmp_eq k (bucket +:+ "/" +:+ o)) (ls_seen st) then st
    else Listing (ls_found st ++ [j]) (ls_seen st ++ [bucket +:+ "/" +:+ o])) as ->.
  { unfold merge_object. change (get_nocase j "bucket") with (Some (JString bucket)).
    change (get_nocase j "object") with (Some (JString o)). cbv iota zeta.
    rewrite (proj2 (Nat.ltb_lt _ _)); [done|]. by rewrite Hs, length_fmap. }
  change (object_name j) with o. rewrite Hs. destruct (existsb _ _) eqn:E.
  - apply seen_key in E. split_and!; [done|by left|done|done|lia].
  - assert (o ∉ object_name <$> ls_found st) as Ho by (rewrite <- seen_key, E; done).
    cbn [ls_found ls_seen]. split; [|split; [|split; [|split]]].
    + split; cbn [ls_found ls_seen].
      * apply Forall_app. by split; [|apply Forall_singleton].
      * by rewrite fmap_app.
      * rewrite fmap_app. apply NoDup_app. split; [done|]. split; [|apply NoDup_singleton].
        intros x Hx' ->%list_elem_of_singleton. done.
      * rewrite length_app. cbn. lia.
    + intros x [Hx'|Hx'%list_elem_of_singleton]%elem_of_app; by auto.
    + intros x Hx'. apply elem_of_app. by left.
    + rewrite fmap_app. apply elem_of_app. right. by apply list_elem_of_singleton.
    + rewrite length_app. cbn. lia.
Qed.

Lemma merge_objects_ok l st :
  merged st → Forall (is_entry bucket) l →
  let st' := merge_objects max l st in
  merged st' ∧ (∀ x, x ∈ ls_found st' → x ∈ ls_found st ∨ x ∈ l) ∧ (∀ x, x ∈ ls_found st → x ∈ ls_found st') ∧
  (length (ls_found st') ≤ length (ls_found st) + length l)%nat ∧
  ((length (ls_found st) + length l ≤ max)%nat → ∀ x, x ∈ l → object_name x ∈ object_name <$> ls_found st').
Proof.
  revert st. induction l as [|j l IH]; intros st Hst Hl; cbn [merge_objects].
  { split_and!; [done|by left|done|lia|]. intros _ x []%not_elem_of_nil. }
  apply Forall_cons in Hl as [Hj Hl]. destruct (Nat.leb_spec max (length (ls_found st))) as [Hge|Hlt].
  { split_and!; [done|by left|done|cbn; lia|]. cbn. lia. }
  destruct (merge_object_ok j st Hst Hj Hlt) as (Hst1 & Hs1 & Hi1 & Hn1 & Hl1).
  destruct (IH _ Hst1 Hl) as (Hst2 & Hs2 & Hi2 & Hl2 & Hc2). cbv zeta. split; [done|]. split; [|split; [|split]].
  - intros x Hx. rewrite elem_of_cons. destruct (Hs2 x Hx) as [Hx1|]; [|by auto]. destruct (Hs1 x Hx1); auto.
  - intros x Hx. by apply Hi2, Hi1.
  - cbn. lia.
  - cbn [length]. intros Hle x [->|Hx]%elem_of_cons; [|apply Hc2; [lia|done]].
    apply list_elem_of_fmap in Hn1 as (y & -> & Hy). apply list_elem_of_fmap. eauto.
Qed.
End Merge.

(** ** A listing of the cluster *)

Section Listing.
Context `{CJsonLaws, !CJsonText, HttpParserLaws}.
Context (prints : ∀ j, is_Some (cJSON_PrintUnformatted j)).
Context (envs : nat → rpc_env) (held : list nat) (bucket : string) (prefix : option string) (max : nat).

Definition list_call (i : nat) (p : conn_pool) (endpoint : string) (st : listing) : c_result (option rpc_result) :=
  buckets_rpc_call (envs i) p endpoint "storage.listObjects"
    (Some (list_params bucket prefix (Z.of_nat (max - length (ls_found st))))).

(** The nodes from number [i] on: a node without an endpoint, one whose call fails, or one that
    serves the call, with the objects it holds; the last argument lists those objects. The
    nodes that come after the limit is reached are not asked. *)
Inductive cluster_answers : nat → list string → listing → conn_pool → list (list json) → Prop :=
| answers_end i st p : cluster_answers i [] st p []
| answers_full i nodes st p : (max ≤ length (ls_found st))%nat → cluster_answers i nodes st p []
| answers_none i nodes st p objects :
    (length (ls_found st) < max)%nat → cluster_answers (S i) nodes st p objects → cluster_answers i ("" :: nodes) st p objects
| answers_down i endpoint nodes st p r objects :
    (length (ls_found st) < max)%nat → endpoint ≠ "" → rpe_addr (envs i) ∉ (connections p).*1 →
    list_call i p endpoint st = Val (Some r) → listed_objects r = None →
    cluster_answers (S i) nodes st (rpr_pool r) objects → cluster_answers i (endpoint :: nodes) st p objects
| answers_up i endpoint nodes st p s n n' base_dir objects :
    (length (ls_found st) < max)%nat → endpoint ≠ "" →
    ss_env s = envs i → se_data_dir (ss_storage s) = Some base_dir → sizes_ok (n_fs n) →
    exchange s p held endpoint "storage.listObjects"
      (list_params bucket prefix (Z.of_nat (max - length (ls_found st)))) n n' →
    (∀ r, list_call i p endpoint st = Val (Some r) →
       cluster_answers (S i) nodes
         (merge_objects max (take (max - length (ls_found st))
            (node_objects (ss_storage s) (n_fs n) bucket prefix base_dir)) st) (rpr_pool r) objects) →
    cluster_answers i (endpoint :: nodes) st p
      (node_objects (ss_storage s) (n_fs n) bucket prefix base_dir :: objects).

Lemma entry_printable j : is_entry bucket j → json_ok 2 j.
Proof using Type. intros (o & size & mt & -> & Hx). repeat constructor; apply Hx. Qed.

Lemma node_answer s p endpoint n n' base_dir m :
  (0 < m)%nat → Z.of_nat m < 2 ^ 31 → se_data_dir (ss_storage s) = Some base_dir → sizes_ok (n_fs n) →
  exchange s p held endpoint "storage.listObjects" (list_params bucket prefix (Z.of_nat m)) n n' →
  ∃ r, buckets_rpc_call (ss_env s) p endpoint "storage.listObjects"
         (Some (list_params bucket prefix (Z.of_nat m))) = Val (Some r) ∧
    listed_objects r = Some (take m (node_objects (ss_storage s) (n_fs n) bucket prefix base_dir)) ∧
    list_inv (rpr_pool r) held.
Proof using All.
  intros Hm Hm' Hd Hs Hex.
  pose proof (node_objects_listed (ss_storage s) (n_fs n) bucket prefix m base_dir n Hs eq_refl Hd Hm') as Hh.
  cbv zeta in Hh. set (found := take m _) in *.
  set (result := [("success", JBool true); ("objects", JArray found); ("count", JNumber (Z.of_nat (length found)))]) in *.
  assert (Forall (is_entry bucket) found) as Hent.
  { apply Forall_take, node_objects_entries, Hs. }
  assert (outcome_ok (rpc_ok result)) as Hok.
  { apply rpc_ok_outcome. apply Forall_cons; split; [done|]. apply Forall_cons; split.
    - cbn [snd]. change (json_ok 4 (JArray found)) with (Forall (json_ok 3) found).
      eapply Forall_impl; [exact Hent|]. intros j Hj. by apply json_ok_S, entry_printable.
    - apply Forall_singleton. cbn [snd]. change (is_exact (Z.of_nat (length found))).
      unfold found, is_exact. rewrite length_take. lia. }
  destruct (exchange_call prints s p held endpoint _ _ n n' n (rpc_handler_list_objects (ss_storage s)) (rpc_ok result) Hex)
    as (_ & closed & p' & Hcall & Hl); [unfold storage_methods; set_solver|exact Hh|exact Hok|].
  eexists. split; [exact Hcall|]. split; [|exact Hl].
  unfold listed_objects, call_result. rewrite decide_True by done. cbn [rpr_response mbind option_bind].
  rewrite (proj2 (rpc_ok_good _ _ result "" [] p')). reflexivity.
Qed.

Lemma list_nodes_merged i nodes st p objects :
  Z.of_nat max < 2 ^ 31 → cluster_answers i nodes st p objects → list_inv p held → merged bucket max st →
  ∃ st' p', list_nodes envs bucket prefix max i nodes st p = Val (Some (st', p')) ∧ list_inv p' held ∧
    merged bucket max st' ∧
    (∀ x, x ∈ ls_found st' → x ∈ ls_found st ∨ x ∈ mjoin objects) ∧ (∀ x, x ∈ ls_found st → x ∈ ls_found st') ∧
    ((length (ls_found st) + length (mjoin objects) ≤ max)%nat →
     ∀ x, x ∈ mjoin objects → object_name x ∈ object_name <$> ls_found st').
Proof using All.
  intros Hmax. induction 1 as [i st p|i nodes st p Hfull|i nodes st p objects Hlt Ha IH
    |i endpoint nodes st p r objects Hlt Hne Hf Hcall Hno Ha IH
    |i endpoint nodes st p s n n' base_dir objects Hlt Hne He Hd Hs Hex Ha IH]; intros Hp Hst.
  - exists st, p. cbn. split_and!; [done|done|done|by left|done|]. intros _ x []%not_elem_of_nil.
  - exists st, p. split; [destruct nodes; cbn [list_nodes]; [done|by rewrite (proj2 (Nat.leb_le _ _))]|].
    cbn [mjoin list_join]. split_and!; [done|done|by left|done|]. intros _ x []%not_elem_of_nil.
  - cbn [list_nodes]. rewrite (proj2 (Nat.leb_gt _ _)) by done. by apply IH.
  - cbn [list_nodes]. rewrite (proj2 (Nat.leb_gt _ _)) by done. unfold strcmp_eq.
    rewrite bool_decide_eq_false_2 by done. unfold list_call in Hcall. rewrite Hcall. cbn [c_bind]. rewrite Hno.
    apply IH; [|done]. by eapply rpc_call_pool.
  - cbn [list_nodes]. rewrite (proj2 (Nat.leb_gt _ _)) by done. unfold strcmp_eq.
    rewrite bool_decide_eq_false_2 by done. set (m := (max - length (ls_found st))%nat) in *.
    destruct (node_answer s p endpoint n n' base_dir m) as (r & Hcall & Hl & Hp'); [lia|lia|done|done|exact Hex|].
    rewrite He in Hcall. rewrite Hcall. cbn [c_bind]. rewrite Hl.
    set (all := node_objects _ _ _ _ _) in *.
    destruct (merge_objects_ok bucket max (take m all) st Hst) as (Hst1 & Hs1 & Hi1 & Hl1 & Hc1).
    { apply Forall_take, node_objects_entries, Hs. }
    destruct (IH r Hcall Hp' Hst1) as (st' & p' & Hrun & Hp1 & Hst2 & Hs2 & Hi2 & Hc2).
    exists st', p'. split; [exact Hrun|]. split; [done|]. split; [done|].
    change (mjoin (all :: objects)) with (all ++ mjoin objects). split; [|split].
    + intros x Hx. rewrite elem_of_app. destruct (Hs2 x Hx) as [Hx1|]; [|by auto].
      destruct (Hs1 x Hx1) as [|Hx2]; [by auto|]. right; left. apply (subseteq_take m all). exact Hx2.
    + intros x Hx. by apply Hi2, Hi1.
    + rewrite length_app. intros Hle x [Hx|Hx]%elem_of_app.
      * rewrite take_ge in Hc1 by lia. rewrite take_ge in Hi2 by lia.
        specialize (Hc1 ltac:(lia) x Hx). apply list_elem_of_fmap in Hc1 as (y & -> & Hy).
        apply list_elem_of_fmap. eauto.
      * apply Hc2; [|done]. rewrite length_take in Hl1. lia.
Qed.

(** C12: a listing over the cluster is the union of what the nodes hold: with nodes that answer,
    nodes that fail and nodes without an endpoint in any order, and replies that arrive in
    whatever pieces, the call returns at most the number of objects that was asked for, no
    object twice, only objects of the bucket with the prefix that some node has on a disk; when
    the limit is not below the number of copies on all disks together, every such object is
    there; and every connection goes back to the pool. *)
Theorem distributed_listing nodes p objects :
  (0 < max)%nat → Z.of_nat max < 2 ^ 31 → list_inv p held →
  cluster_answers 0 nodes (Listing [] []) p objects →
  ∃ found p', buckets_distributed_list_objects envs (Some nodes) bucket prefix max p = Val (Some (found, p')) ∧
    (length found ≤ max)%nat ∧ NoDup (object_name <$> found) ∧ (∀ x, x ∈ found → x ∈ mjoin objects) ∧
    ((length (mjoin objects) ≤ max)%nat → ∀ x, x ∈ mjoin objects → object_name x ∈ object_name <$> found) ∧
    list_inv p' held.
Proof using All.
  intros Hm Hm' Hp Ha.
  destruct (list_nodes_merged 0 nodes (Listing [] []) p objects Hm' Ha Hp) as (st & p' & Hrun & Hp' & Hst & Hs & _ & Hc).
  { split; cbn; [constructor|done|constructor|lia]. }
  exists (ls_found st), p'. unfold buckets_distributed_list_objects.
  rewrite (proj2 (Nat.eqb_neq _ _)) by lia. rewrite Hrun. cbn [c_bind fmap option_fmap option_map].
  split; [done|]. split; [apply Hst|]. split; [apply Hst|]. split; [|split; [exact Hc|done]].
  intros x Hx. destruct (Hs x Hx) as [[]%not_elem_of_nil|]; done.
Qed.
End Listing.

(** ** Two nodes, one of them down *)

Section Example.
#[local] Existing Instance BitsCJson.bits_cjson.
#[local] Existing Instance BitsCJson.bits_cjson_laws.
#[local] Existing Instance BitsCJson.bits_cjson_text.
#[local] Existing Instance Transport.line_parser.
#[local] Existing Instance Transport.line_parser_laws.

Definition example_document (object : string) : string :=
  default "" (cJSON_Print (JObject [("bucket", JString "b"); ("object", JString object);
                                    ("stat", JObject [("size", JNumber 5)])])).

(** Two disks with the metadata of [o], one with that of [p]. *)
Definition example_files : fs_t :=
  <["/d/disk1/ab/x1/xl.meta" := example_document "o"]>
    (<["/d/disk2/ab/x1/xl.meta" := example_document "o"]>
       (<["/d/disk2/ab/x2/xl.meta" := example_document "p"]> ∅)).

Definition example_dirs : storage_env :=
  StorageEnv true (write_env_ok, 7%N) (λ _, true) (quiet_env UringOff) (true, true)
    (λ dir, if strcmp_eq dir "/d/disk1" then Some ["."; ".minio.sys"; "ab"]
            else if strcmp_eq dir "/d/disk2" then Some ["ab"]
            else if strcmp_eq dir "/d/disk1/ab" then Some ["x1"; ".."]
            else if strcmp_eq dir "/d/disk2/ab" then Some ["x1"; "x2"]
            else None) (Some "/d").

Definition example_holder : node := Node example_files [] None ∅.

Definition listing_params (m : Z) : json := list_params "b" None m.

Definition listing_session (m : Z) : session :=
  example_session example_dirs "storage.listObjects" (listing_params m) example_holder.

(** The first node refuses the connection. *)
Definition example_envs (m : Z) (i : nat) : rpc_env :=
  if (i =? 0)%nat then
    RpcEnv "id" 7 (λ _, PollAnswer false false None) (ConnectEnv 3 true ConnectFails true true) 0 (1, 2)
      (RequestEnv None [] []) 9
  else ss_env (listing_session m).

Definition example_nodes : list string := ["http://n1:9000"; ""; "http://n2:9000"].

Lemma example_sizes : sizes_ok example_files.
Proof using Type.
  intros dir name meta. unfold list_meta.
  destruct (example_files !! _) as [text|] eqn:E; [|done].
  assert (text = example_document "o" ∨ text = example_document "p") as [-> | ->].
  { revert E. generalize (snprintf (2 * PATH_MAX) (dir +:+ "/" +:+ name +:+ "/xl.meta")). intros path.
    unfold example_files. rewrite !lookup_insert_Some, lookup_empty. naive_solver. }
  all: intros Hm; exists (5, ""); split; [|unfold is_exact; cbn; lia].
  all: vm_compute in Hm; injection Hm as <-; reflexivity.
Qed.

Lemma distributed_listing_witness : ∃ found p',
  buckets_distributed_list_objects (example_envs 10) (Some example_nodes) "b" None 10 example_pool
    = Val (Some (found, p')) ∧
  (length found ≤ 10)%nat ∧ NoDup (object_name <$> found) ∧
  (∀ x, x ∈ found → x ∈ mjoin [node_objects example_dirs example_files "b" None "/d"]) ∧
  ((length (mjoin [node_objects example_dirs example_files "b" None "/d"]) ≤ 10)%nat →
   ∀ x, x ∈ mjoin [node_objects example_dirs example_files "b" None "/d"] → object_name x ∈ object_name <$> found) ∧
  list_inv p' [].
Proof.
  eapply (distributed_listing (λ j, _) (example_envs 10) [] "b" None 10 example_nodes example_pool
    [node_objects example_dirs example_files "b" None "/d"]); [lia|done|apply example_pool_inv|].
  eapply (answers_down _ _ _ _ _ 0); [cbn; lia|done|apply not_elem_of_nil|vm_compute; reflexivity|reflexivity|].
  apply answers_none; [cbn; lia|].
  destruct (example_serve example_dirs "storage.listObjects" (listing_params 10) example_holder) as [[reply n']|] eqn:E;
    [|by vm_compute in E].
  match goal with |- cluster_answers _ _ _ _ _ _ _ ?st ?p _ => set (st0 := st); set (p0 := p) end.
  assert (p0 = example_pool) as Ep by reflexivity. rewrite Ep. clear p0 Ep.
  change (node_objects example_dirs) with (node_objects (ss_storage (listing_session 10))).
  change example_files with (n_fs example_holder).
  apply (answers_up _ _ _ _ _ 2 "http://n2:9000" [] st0 example_pool (listing_session 10) example_holder n' "/d" []).
  1: cbn; lia.
  1: done.
  1: reflexivity.
  1: reflexivity.
  1: exact example_sizes.
  - change (exchange (example_session example_dirs "storage.listObjects" (listing_params 10) example_holder)
      example_pool [] "http://n2:9000" "storage.listObjects" (listing_params 10) example_holder n').
    apply (example_exchange _ _ _ _ _ reply); [cbn; lia| |exact E|vm_compute; reflexivity].
    change 998%nat with (996 + 2)%nat. apply json_ok_add. by repeat constructor.
  - intros r _. apply answers_end.
  Unshelve. by eexists.
Defined.

(** ** Copies count against the limit

    A node reports an object once for every disk, and the copies use up the limit before they
    are merged: asked for two objects of a bucket with two, the listing has one. *)
Lemma copies_use_up_limit :
  map object_name (node_objects example_dirs example_files "b" None "/d") = ["o"; "o"; "p"] ∧
  match buckets_distributed_list_objects (example_envs 2) (Some example_nodes) "b" None 2 example_pool with
  | Val (Some (found, _)) => map object_name found = ["o"]
  | _ => False
  end.
Proof using Type. split; vm_compute; reflexivity. Qed.
End Example.
