(* ===== verification/BatchTransport.v ===== *)
(** * Batches of chunks over the network (src/src/storage/batch_transport.c)

    All chunks for one node in one HTTP request: a binary body with a header of fixed size
    before each chunk. The handler on the other node writes them one after the other; its
    route is the one of [buckets_binary_transport_register] (src/src/storage/binary_transport.c). *)

From S2P Require Import Prelude CInt CString CSearch HttpWire ConnCache DiskIO XlMeta Layout Chunk.
From S2P Require Import Topology Placement Peers ParallelChunks Transport Router HttpServer.
From Stdlib Require Import Ascii.

Local Open Scope c_scope.

Definition BATCH_BUCKET_SIZE : nat := 256.
Definition BATCH_OBJECT_SIZE : nat := Z.to_nat 1024.
Definition BATCH_DISKPATH_SIZE : nat := 512.
Definition BATCH_HEADER_SIZE : nat := 8 + BATCH_BUCKET_SIZE + BATCH_OBJECT_SIZE + BATCH_DISKPATH_SIZE.

(** ** The format *)

(** Network byte order: [htonl] and [ntohl]. *)
Definition store_be32 (v : Z) : list Z :=
  [u8 (Z.shiftr v 24); u8 (Z.shiftr v 16); u8 (Z.shiftr v 8); u8 v].

Definition load_be32 (p : list Z) : Z :=
  byte_at p 0 * 2 ^ 24 + byte_at p 1 * 2 ^ 16 + byte_at p 2 * 2 ^ 8 + byte_at p 3.

(** [strncpy] of a string to a cleared field, which keeps its last byte. *)
Definition pack_field (size : nat) (s : string) : list Z :=
  let b := str_bytes (strncpy (size - 1) s) in b ++ replicate (size - length b) 0.

Definition pack_header (c : batch_chunk) : list Z :=
  store_be32 (bc_index c) ++ store_be32 (u32 (Z.of_nat (length (bc_data c)))) ++
  pack_field BATCH_BUCKET_SIZE (bc_bucket c) ++ pack_field BATCH_OBJECT_SIZE (bc_object c) ++
  pack_field BATCH_DISKPATH_SIZE (bc_disk_path c).

(** The C string in a field, at most [size - 1] characters. *)
Definition unpack_field (size : nat) (p : list Z) : string := c_str (bytes_str (take (size - 1) p)).

(** The index, the size, the names. *)
Definition unpack_header (p : list Z) : Z * Z * string * string * string :=
  let p8 := drop 8 p in
  let po := drop BATCH_BUCKET_SIZE p8 in
  let pd := drop BATCH_OBJECT_SIZE po in
  (load_be32 p, load_be32 (drop 4 p), unpack_field BATCH_BUCKET_SIZE p8,
   unpack_field BATCH_OBJECT_SIZE po, unpack_field BATCH_DISKPATH_SIZE pd).

(** The buffers that are sent: header and data of each chunk. *)
Definition batch_iov (chunks : list batch_chunk) : list string :=
  chunks ≫= λ c, [bytes_str (pack_header c); bytes_str (bc_data c)].

Fixpoint total_body_size (chunks : list batch_chunk) : nat :=
  match chunks with
  | [] => 0
  | c :: chunks => BATCH_HEADER_SIZE + length (bc_data c) + total_body_size chunks
  end.

(** ** The client *)

Definition batch_request (host : string) (port : Z) (chunks : list batch_chunk) : http_request :=
  HttpRequest "PUT" "/_internal/batch_chunks"
    [("Host", host +:+ ":" +:+ pretty port); ("Content-Type", "application/x-buckets-batch");
     ("Content-Length", print_u64 (Z.of_nat (total_body_size chunks)));
     ("X-Batch-Count", print_u64 (Z.of_nat (length chunks))); ("Connection", "keep-alive")]
    (joined (batch_iov chunks)).

(** What is left of the buffers after [n] bytes. *)
Fixpoint consume (n : nat) (iov : list string) : list string :=
  match iov with
  | [] => []
  | s :: iov =>
      if (n =? 0)%nat then s :: iov
      else if (strlen s <=? n)%nat then "" :: consume (n - strlen s) iov
      else str_drop n s :: iov
  end.

(** The loop around [writev]: the result and what was sent; [None] as long as it has not
    returned. *)
Fixpoint writev_loop (io : list io_result) (iov : list string) (total_sent total_to_send : nat)
    : option (Z * string) :=
  if (total_to_send <=? total_sent)%nat then Some (0, "")
  else
    match io with
    | [] => None
    | IoIntr :: io => writev_loop io iov total_sent total_to_send
    | IoFails :: _ => Some (-1, "")
    | IoDone n :: io =>
        let n := Nat.min n (strlen (joined iov)) in
        let total_sent := (total_sent + n)%nat in
        let iov' := if (total_sent <? total_to_send)%nat then consume n iov else iov in
        match writev_loop io iov' total_sent total_to_send with
        | Some (rc, sent) => Some (rc, strncpy n (joined iov) +:+ sent)
        | None => None
        end
    end.

Definition buckets_binary_batch_write_chunks (env : net_env) (cache : list cached_conn)
    (peer_endpoint : string) (chunks : list batch_chunk) : c_result (option net_result) :=
  if (length chunks =? 0)%nat then Val (Some (NetResult BUCKETS_ERR_INVALID_ARG "" cache [] (ne_recv env)))
  else
  let* ep := parse_endpoint peer_endpoint 256 in
  match ep with
  | None => Val (Some (NetResult BUCKETS_ERR_INVALID_ARG "" cache [] (ne_recv env)))
  | Some (host, port) =>
      let (cached, cache) := get_cached_connection host port (ne_now env).1 cache in
      let fd := if cached <? 0 then ne_connect env else cached in
      if fd <? 0 then Val (Some (NetResult BUCKETS_ERR_IO "" cache [] (ne_recv env)))
      else
        let* head := printed (Z.to_nat 1024) (request_head (batch_request host port chunks)) in
        let iov := head :: batch_iov chunks in
        match writev_loop (ne_io env) iov 0 (strlen (joined iov)) with
        | None => Val None
        | Some (rc, sent) =>
            if rc =? 0 then
              let* st := recv_status (Z.to_nat 1024) (ne_recv env) in
              match st with
              | Some (200, _, segs) =>
                  let (cache, closed) := cache_connection fd host port (ne_now env).2 cache in
                  Val (Some (NetResult BUCKETS_OK sent cache
                         (match closed with Some o => [o] | None => [] end) segs))
              | Some (_, _, segs) => Val (Some (NetResult BUCKETS_ERR_IO sent cache [fd] segs))
              | None => Val (Some (NetResult BUCKETS_ERR_IO sent cache [fd] []))
              end
            else Val (Some (NetResult BUCKETS_ERR_IO sent cache [fd] (ne_recv env)))
        end
  end.

(** ** The handler *)

(** [count] chunks from the bytes [body]; an error message, or the number of chunks that were
    written. A chunk that cannot be written is left out. *)
Fixpoint handle_chunks (envs : nat → chunk_env) (count : nat) (body : list Z) (chunks_written : nat)
    (n : node) : (string + nat) * node :=
  match count with
  | O => (inr chunks_written, n)
  | S count =>
      if (length body <? BATCH_HEADER_SIZE)%nat then (inl "Truncated chunk header", n)
      else
        let '(chunk_index, chunk_size, bucket, object, disk_path) := unpack_header body in
        let body := drop BATCH_HEADER_SIZE body in
        if Z.of_nat (length body) <? chunk_size then (inl "Truncated chunk data", n)
        else
          let object_path := buckets_compute_object_path bucket object (Z.to_nat 1536) in
          let (ret, n) := buckets_write_chunk (envs (Z.to_nat (chunk_index - 1))) n disk_path object_path
                            chunk_index (take (Z.to_nat chunk_size) body) in
          handle_chunks envs count (drop (Z.to_nat chunk_size) body)
            (if ret =? 0 then S chunks_written else chunks_written) n
  end.

Definition buckets_handle_batch_chunk_write (envs : nat → chunk_env) (r : http_request) (n : node)
    : c_result (Z * string * node) :=
  match uv_http_get_header (rq_headers r) "X-Batch-Count" with
  | None => Val (400, "Missing X-Batch-Count header" +:+ String LF "", n)
  | Some count_header =>
      let* chunk_count := i32c (read_number count_header).1 in
      let chunk_count := u64 chunk_count in
      if (chunk_count =? 0) || (32 <? chunk_count) then Val (400, "Invalid chunk count" +:+ String LF "", n)
      else
        let count := Z.to_nat chunk_count in
        let (r, n) := handle_chunks envs count (str_bytes (rq_body r)) 0 n in
        Val (match r with
             | inl msg => (400, msg +:+ String LF "", n)
             | inr chunks_written =>
                 if (count / 2 + 1 <=? chunks_written)%nat then (200, "OK" +:+ String LF "", n)
                 else (500, "Insufficient chunks written" +:+ String LF "", n)
             end)
  end.

(** ** The routes *)

(** A handler that sets the status and the body of its response. *)
Definition answering (f : http_request → node → c_result (Z * string * node)) : http_handler node :=
  λ r res n,
    let* a := f r n in
    Val (HttpResponse a.1.1 (rs_headers res) (Some a.1.2) (Z.of_nat (strlen a.1.2)), a.2).

Definition read_handler (read_ok : bool) : http_handler node :=
  answering (λ r n,
    let* a := buckets_binary_chunk_read_handler read_ok r (n_fs n) in Val (a.1, bytes_str a.2, n)).

(** [env], [mkdir], [read_ok] and [envs] are the surroundings that the handlers will run in. *)
Definition buckets_binary_transport_register (env : chunk_env) (mkdir : string → bool) (read_ok : bool)
    (envs : nat → chunk_env) (server : option (http_server node))
    : buckets_error_t * option (http_server node) :=
  match server with
  | None => (BUCKETS_ERR_INVALID_ARG, None)
  | Some s =>
      match buckets_http_server_get_router (Some s) with
      | None => (BUCKETS_ERR_INIT, Some s)
      | Some router =>
          let add m p h rt := buckets_router_add_route rt (Some m) (Some p) (Some h) in
          let with_router rt := Some (buckets_http_server_set_router s rt) in
          let (ret, rt) := add "PUT" "/_internal/chunk" (answering (buckets_binary_chunk_write_handler env mkdir))
                             (Some router) in
          if negb (bool_decide (ret = BUCKETS_OK)) then (ret, with_router rt)
          else
            let (ret, rt) := add "GET" "/_internal/chunk" (read_handler read_ok) rt in
            if negb (bool_decide (ret = BUCKETS_OK)) then (ret, with_router rt)
            else
              let (ret, rt) := add "PUT" "/_internal/batch_chunks"
                                 (answering (buckets_handle_batch_chunk_write envs)) rt in
              (if negb (bool_decide (ret = BUCKETS_OK)) then ret else BUCKETS_OK, with_router rt)
      end
  end.

(** ** The format can be read back *)

Lemma load_store_be32 v rest : is_u32 v → load_be32 (store_be32 v ++ rest) = v.
Proof.
  intros Hv. unfold load_be32, store_be32, byte_at, u8, wrap. cbn [app lookup list_lookup default from_option id].
  rewrite !Z.shiftr_div_pow2 by lia. unfold is_u32, in_range in Hv.
  change (2 ^ 24) with 16777216. change (2 ^ 16) with 65536. change (2 ^ 8) with 256. change (2 ^ 32) with 4294967296 in Hv.
  Z.to_euclidean_division_equations. lia.
Qed.

Lemma length_store_be32 v : length (store_be32 v) = 4%nat.
Proof. done. Qed.

Lemma store_be32_bytes v : is_bytes (store_be32 v).
Proof. repeat constructor; apply u8_range. Qed.

Lemma bytes_str_app a b : bytes_str (a ++ b) = bytes_str a +:+ bytes_str b.
Proof. unfold bytes_str. rewrite fmap_app. induction a as [|x a IH]; [done|]. exact (f_equal (String _) IH). Qed.

Lemma length_pack_field size s : (0 < size)%nat → length (pack_field size s) = size.
Proof.
  intros Hs. unfold pack_field. rewrite length_app, length_replicate, length_str_bytes.
  pose proof (length_strncpy (size - 1) s). unfold strlen. lia.
Qed.

Lemma pack_field_bytes size s : is_bytes (pack_field size s).
Proof.
  apply Forall_app. split; [apply str_bytes_is_bytes|]. apply Forall_replicate. unfold is_u8, in_range. lia.
Qed.

Lemma c_str_zeros k : c_str (bytes_str (replicate k 0)) = "".
Proof. by destruct k. Qed.

Lemma unpack_pack_field size s rest :
  (strlen s < size)%nat → no_char NUL s → unpack_field size (pack_field size s ++ rest) = s.
Proof.
  intros Hs Hn. unfold unpack_field, pack_field. rewrite strncpy_short by (unfold strlen in Hs; lia).
  rewrite take_app_le.
  2:{ rewrite length_app, length_replicate, length_str_bytes. lia. }
  rewrite take_app_ge by (rewrite length_str_bytes; lia). rewrite length_str_bytes, take_replicate, bytes_str_app.
  rewrite bytes_str_str_bytes, c_str_app, c_str_zeros by done. apply string_app_nil_r.
Qed.

(** Names that fit their fields, an index and a size that fit 32 bits. *)
Record batch_chunk_fits (c : batch_chunk) : Prop := BatchChunkFits {
  bf_index : is_u32 (bc_index c);
  bf_data : is_bytes (bc_data c) ∧ is_u32 (Z.of_nat (length (bc_data c)));
  bf_bucket : (strlen (bc_bucket c) < BATCH_BUCKET_SIZE)%nat ∧ no_char NUL (bc_bucket c);
  bf_object : (strlen (bc_object c) < BATCH_OBJECT_SIZE)%nat ∧ no_char NUL (bc_object c);
  bf_disk : (strlen (bc_disk_path c) < BATCH_DISKPATH_SIZE)%nat ∧ no_char NUL (bc_disk_path c)
}.

Lemma length_pack_header c : length (pack_header c) = BATCH_HEADER_SIZE.
Proof.
  unfold pack_header, BATCH_HEADER_SIZE. rewrite !length_app, !length_store_be32, !length_pack_field; [lia|..];
    unfold BATCH_BUCKET_SIZE, BATCH_OBJECT_SIZE, BATCH_DISKPATH_SIZE; lia.
Qed.

Lemma pack_header_bytes c : is_bytes (pack_header c).
Proof.
  unfold is_bytes, pack_header. rewrite !Forall_app.
  split_and!; [apply store_be32_bytes..|apply pack_field_bytes|apply pack_field_bytes|apply pack_field_bytes].
Qed.

Lemma unpack_pack_header c rest :
  batch_chunk_fits c →
  unpack_header (pack_header c ++ rest)
    = (bc_index c, Z.of_nat (length (bc_data c)), bc_bucket c, bc_object c, bc_disk_path c).
Proof.
  intros [Hi [_ Hd] [Hb Hb'] [Ho Ho'] [Hp Hp']]. unfold unpack_header, pack_header.
  assert (u32 (Z.of_nat (length (bc_data c))) = Z.of_nat (length (bc_data c))) as -> by (by apply wrap_small).
  rewrite <- !app_assoc.
  rewrite (drop_app_length' (store_be32 (bc_index c)) _ 4) by done.
  change 8%nat with (4 + 4)%nat. rewrite <- drop_drop.
  rewrite (drop_app_length' (store_be32 (bc_index c)) _ 4), (drop_app_length' (store_be32 _) _ 4) by done.
  rewrite !drop_app_length' by (by rewrite length_pack_field;
    unfold BATCH_BUCKET_SIZE, BATCH_OBJECT_SIZE; lia).
  by rewrite !load_store_be32, !unpack_pack_field.
Qed.

(** ** The handler does what the local batch does *)

(** How many of the chunks a node writes, one after the other. *)
Fixpoint written_chunks (envs : nat → chunk_env) (chunks : list batch_chunk) (n : node) : nat :=
  match chunks with
  | [] => 0%nat
  | ch :: chunks =>
      let object_path := buckets_compute_object_path (bc_bucket ch) (bc_object ch) (Z.to_nat 1536) in
      let (ret, n) := buckets_write_chunk (envs (Z.to_nat (bc_index ch - 1))) n (bc_disk_path ch)
                        object_path (bc_index ch) (bc_data ch) in
      let rest := written_chunks envs chunks n in
      if ret =? 0 then S rest else rest
  end.

Lemma written_chunks_le envs chunks n : (written_chunks envs chunks n ≤ length chunks)%nat.
Proof.
  revert n. induction chunks as [|c chunks IH]; intros n; [done|]. cbn [written_chunks length].
  destruct (buckets_write_chunk _ _ _ _ _ _) as [ret n1]. specialize (IH n1). destruct (ret =? 0); lia.
Qed.

Lemma write_batch_all envs chunks rc n :
  (write_batch envs chunks rc n).1 = 0 ↔ rc = 0 ∧ written_chunks envs chunks n = length chunks.
Proof.
  revert rc n. induction chunks as [|c chunks IH]; intros rc n; [by cbn; naive_solver|].
  cbn [write_batch written_chunks length]. destruct (buckets_write_chunk _ _ _ _ _ _) as [ret n1].
  rewrite IH. pose proof (written_chunks_le envs chunks n1). destruct (ret =? 0); split; intros [? ?]; split; lia.
Qed.

(** The bytes of a batch. *)
Definition batch_bytes (chunks : list batch_chunk) : list Z :=
  chunks ≫= λ c, pack_header c ++ bc_data c.

Lemma handle_batch envs chunks w n rc :
  Forall batch_chunk_fits chunks →
  handle_chunks envs (length chunks) (batch_bytes chunks) w n
    = (inr (w + written_chunks envs chunks n)%nat, (write_batch envs chunks rc n).2).
Proof.
  intros Hfit. revert w n rc. induction Hfit as [|c chunks Hc _ IH]; intros w n rc.
  - cbn. by rewrite Nat.add_0_r.
  - cbn [length handle_chunks written_chunks write_batch]. unfold batch_bytes. rewrite bind_cons. fold (batch_bytes chunks).
    rewrite <- app_assoc, unpack_pack_header by done.
    rewrite (proj2 (Nat.ltb_ge _ _)) by (rewrite length_app, length_pack_header; lia).
    rewrite drop_app_length' by (by rewrite length_pack_header).
    rewrite (proj2 (Z.ltb_ge _ _)) by (rewrite length_app; lia). rewrite Nat2Z.id.
    rewrite take_app_length, drop_app_length.
    destruct (buckets_write_chunk _ _ _ _ _ _) as [ret n1].
    rewrite (IH _ _ (if ret =? 0 then rc else -1)). f_equal. f_equal. destruct (ret =? 0); lia.
Qed.

Lemma joined_app a b : joined (a ++ b) = joined a +:+ joined b.
Proof. induction a as [|s a IH]; [done|]. cbn [app joined]. by rewrite IH, string_app_assoc. Qed.

Lemma batch_iov_joined chunks : joined (batch_iov chunks) = bytes_str (batch_bytes chunks).
Proof.
  induction chunks as [|c chunks IH]; [done|]. unfold batch_iov, batch_bytes in *. rewrite !bind_cons, joined_app, IH.
  cbn [joined]. by rewrite !bytes_str_app, string_app_nil_r.
Qed.

Lemma batch_bytes_bytes chunks : Forall batch_chunk_fits chunks → is_bytes (batch_bytes chunks).
Proof.
  induction 1 as [|c chunks [_ [Hd _] _ _ _] _ IH]; [constructor|].
  unfold batch_bytes in *. rewrite bind_cons. apply Forall_app. split; [|done].
  apply Forall_app. split; [apply pack_header_bytes|done].
Qed.

Lemma length_batch_bytes chunks : length (batch_bytes chunks) = total_body_size chunks.
Proof.
  induction chunks as [|c chunks IH]; [done|]. unfold batch_bytes in *. cbn [total_body_size].
  rewrite bind_cons, !length_app, length_pack_header, IH. lia.
Qed.

(** ** The loop around [writev] sends everything *)

Lemma str_drop_app_ge n a b : (strlen a ≤ n)%nat → str_drop n (a +:+ b) = str_drop (n - strlen a) b.
Proof.
  unfold strlen. revert n. induction a as [|c a IH]; intros n Hn; [by rewrite Nat.sub_0_r|].
  destruct n as [|n]; cbn in Hn; [lia|]. change (String c a +:+ b) with (String c (a +:+ b)).
  cbn [str_drop String.length Nat.sub]. apply IH. lia.
Qed.

Lemma str_drop_app_le n a b : (n ≤ strlen a)%nat → str_drop n (a +:+ b) = str_drop n a +:+ b.
Proof.
  unfold strlen. revert n. induction a as [|c a IH]; intros [|n] Hn; cbn in Hn; try done; [lia|].
  change (String c a +:+ b) with (String c (a +:+ b)). cbn [str_drop]. apply IH. lia.
Qed.

Lemma consume_joined n iov : joined (consume n iov) = str_drop n (joined iov).
Proof.
  revert n. induction iov as [|s iov IH]; intros n; [by destruct n|]. cbn [consume joined].
  destruct (Nat.eqb_spec n 0) as [->|Hn]; [done|]. destruct (Nat.leb_spec (strlen s) n).
  - cbn [joined]. rewrite IH, str_drop_app_ge by done. done.
  - cbn [joined]. by rewrite str_drop_app_le by lia.
Qed.

Lemma writev_sends io iov sent total rc out :
  (sent + strlen (joined iov) = total)%nat → writev_loop io iov sent total = Some (rc, out) →
  (rc = 0 → out = joined iov) ∧ (out = joined iov → rc = 0).
Proof.
  revert iov sent out. induction io as [|o io IH]; intros iov sent out Ht; cbn [writev_loop];
    (destruct (Nat.leb_spec total sent) as [Hle|Hgt]; [intros [= <- <-];
      assert (joined iov = "") as -> by (apply strlen_empty; lia); done|]); [done|].
  destruct o as [n| |].
  - set (m := Nat.min n (strlen (joined iov))). destruct (Nat.ltb_spec (sent + m) total) as [Hm|Hm].
    + destruct (writev_loop io (consume m iov) (sent + m) total) as [[rc' s]|] eqn:E; [|done]. intros [= <- <-].
      apply IH in E as [H1 H2]; [|rewrite consume_joined, strlen_str_drop; lia].
      rewrite consume_joined in H1, H2. split.
      * intros Hrc. rewrite H1 by done. apply strncpy_drop.
      * intros E. apply H2. rewrite <- (strncpy_drop m (joined iov)) in E at 2. by apply string_app_cancel in E.
    + assert (m = strlen (joined iov)) as Em by lia.
      destruct io as [|o io]; cbn [writev_loop]; rewrite (proj2 (Nat.leb_le _ _)) by lia; intros [= <- <-];
        rewrite string_app_nil_r, strncpy_short by (unfold strlen in Em; lia); done.
  - by apply IH.
  - intros [= <- <-]. split; [done|]. intros E. rewrite <- E in Ht. cbn in Ht. lia.
Qed.

(** ** Properties *)

(** A batch that fits the format and its request. *)
Record batch_fits (host : string) (port : Z) (chunks : list batch_chunk) : Prop := BatchFits {
  bt_host : header_value (host +:+ ":" +:+ pretty port);
  bt_chunks : Forall batch_chunk_fits chunks;
  bt_count : (0 < length chunks ≤ 32)%nat;
  bt_head : (strlen (request_head (batch_request host port chunks)) < Z.to_nat 1024)%nat
}.

Lemma total_size_bound chunks :
  Forall batch_chunk_fits chunks → Z.of_nat (total_body_size chunks) ≤ Z.of_nat (length chunks) * 2 ^ 33.
Proof.
  induction 1 as [|c chunks [_ [_ Hd] _ _ _] _ IH]; [done|]. cbn [total_body_size length].
  assert (Z.of_nat BATCH_HEADER_SIZE = 1800) by (by vm_compute). unfold is_u32, in_range in Hd. lia.
Qed.

Lemma batch_request_parsed `{HttpParserLaws} host port chunks :
  batch_fits host port chunks →
  let r := batch_request host port chunks in http_parse (request_head r +:+ rq_body r) = Some r.
Proof.
  intros [Hh Hc Hn Hl] r. apply http_parse_request. pose proof (total_size_bound _ Hc) as Hs. node_request_tac.
  all: try first [exact Hh|apply header_value_print|done].
  - unfold body_framed. cbn [r batch_request rq_headers rq_body]. rewrite batch_iov_joined, strlen_bytes_str.
    by rewrite length_batch_bytes.
  - cbn [r batch_request rq_body]. rewrite batch_iov_joined, strlen_bytes_str, length_batch_bytes. lia.
  - unfold r. lia.
Qed.

(** What the handler answers to a batch. *)
Lemma batch_handler_answer envs host port chunks n :
  batch_fits host port chunks →
  ∃ status body, buckets_handle_batch_chunk_write envs (batch_request host port chunks) n
                   = Val (status, body, (write_batch envs chunks 0 n).2) ∧
  (status, body) ∈ [(200, "OK" +:+ String LF ""); (500, "Insufficient chunks written" +:+ String LF "")] ∧
  (status = 200 ↔ (length chunks / 2 < written_chunks envs chunks n)%nat).
Proof.
  intros [_ Hfit Hcount _]. unfold buckets_handle_batch_chunk_write.
  change (uv_http_get_header (rq_headers (batch_request host port chunks)) "X-Batch-Count")
    with (Some (print_u64 (Z.of_nat (length chunks)))). cbv iota.
  rewrite read_number_print by lia. unfold i32c. split_if; [|lia]. cbn [c_bind].
  assert (u64 (Z.of_nat (length chunks)) = Z.of_nat (length chunks)) as -> by (apply u64_small; unfold is_u64, in_range; lia).
  rewrite (proj2 (Z.eqb_neq _ _)), (proj2 (Z.ltb_ge _ _)) by lia. cbn [orb]. rewrite Nat2Z.id.
  cbn [batch_request rq_body]. rewrite batch_iov_joined, str_bytes_bytes_str by (by apply batch_bytes_bytes).
  rewrite (handle_batch envs chunks 0 n 0) by done. cbn [Nat.add].
  destruct (Nat.leb_spec (length chunks / 2 + 1) (written_chunks envs chunks n)) as [Hle|Hgt];
    do 2 eexists; (split; [done|split; [repeat constructor|lia]]).
Qed.

(** A server with the routes registered answers a batch with what the handler says. *)
Lemma registered_batch_handler env mkdir read_ok envs s0 s rt host port chunks :
  buckets_http_server_get_router (Some s0) = Some rt →
  (∀ e, e ∈ routes rt → ¬ serves "PUT" "/_internal/batch_chunks" e) →
  buckets_binary_transport_register env mkdir read_ok envs (Some s0) = (BUCKETS_OK, Some s) →
  find_http_handler s (batch_request host port chunks) = Some (answering (buckets_handle_batch_chunk_write envs)).
Proof.
  intros Hrt Hfree Hreg. unfold buckets_binary_transport_register in Hreg. rewrite Hrt in Hreg.
  injection Hreg as <-.
  set (h := answering (buckets_handle_batch_chunk_write envs)).
  eapply (http_handler_routed _ _ _ h (S (S (length (routes rt)))) (RouteEntry "PUT" "/_internal/batch_chunks" h));
    [reflexivity| |reflexivity| |].
  - cbn [routes]. rewrite <- !app_assoc, lookup_app_r by lia.
    by replace (S (S (length (routes rt))) - length (routes rt))%nat with 2%nat by lia.
  - apply (bool_decide_unpack _). vm_compute. exact I.
  - intros j e Hj. cbn [routes]. rewrite <- !app_assoc. destruct (decide (j < length (routes rt))%nat) as [Hl|Hl].
    + rewrite lookup_app_l by done. intros He. by eapply Hfree, list_elem_of_lookup_2.
    + rewrite lookup_app_r by lia. destruct (j - length (routes rt))%nat as [|[|k]] eqn:Ek; [| |lia];
        intros [= <-]; apply (bool_decide_unpack _); vm_compute; exact I.
Qed.

Lemma batch_reply status body keep reply :
  (status, body) ∈ [(200, "OK" +:+ String LF ""); (500, "Insufficient chunks written" +:+ String LF "")] →
  wrapper_response keep (HttpResponse status None (Some body) (Z.of_nat (strlen body))) = Val reply →
  reply = uv_http_response_start status [xml_type] (Z.of_nat (strlen body)) keep +:+ body ∧
  (strlen (uv_http_response_start status [xml_type] (Z.of_nat (strlen body)) keep) < Z.to_nat 1024)%nat ∧
  0 ≤ status < 2 ^ 31.
Proof.
  rewrite !elem_of_cons, elem_of_nil. intros [[= -> ->]|[[= -> ->]|[]]]; intros Hv;
    (split; [destruct keep; vm_compute in Hv |- *; congruence|split; [apply Nat.ltb_lt; destruct keep; vm_compute; reflexivity|lia]]).
Qed.

(** C21: a batch on another node is the batch written there. The other node is a server on
    which [buckets_binary_transport_register] was called, that had no route for batches
    before; nothing in the program makes that call. When the client reports success, the bytes
    it sent are the request, and the node that parsed it has written exactly the chunks of the
    batch, each to its disk, as a local batch does, and more than half of them successfully,
    even if the connection broke before all of the response arrived. When all of the request
    was sent, every chunk was written and the response arrived, the client reports success. *)
Theorem remote_batch_write `{HttpParserLaws} env cenv mkdir read_ok envs s0 rt s cache endpoint host port chunks
    keep n n' reply rest res :
  let r := batch_request host port chunks in
  buckets_http_server_get_router (Some s0) = Some rt →
  (∀ e, e ∈ routes rt → ¬ serves "PUT" "/_internal/batch_chunks" e) →
  buckets_binary_transport_register cenv mkdir read_ok envs (Some s0) = (BUCKETS_OK, Some s) →
  parse_endpoint endpoint 256 = Val (Some (host, port)) → batch_fits host port chunks →
  uv_handler_wrapper keep s r n = Val (reply, n') →
  pieces (ne_recv env) → joined (ne_recv env) +:+ rest = reply →
  buckets_binary_batch_write_chunks env cache endpoint chunks = Val (Some res) →
  (nr_rc res = BUCKETS_OK →
   http_parse (nr_sent res) = Some r ∧ n' = (write_batch envs chunks 0 n).2 ∧
   (length chunks / 2 < written_chunks envs chunks n)%nat) ∧
  (nr_sent res = request_head r +:+ rq_body r → rest = "" → (write_batch envs chunks 0 n).1 = 0 →
   nr_rc res = BUCKETS_OK).
Proof.
  intros r Hrt Hfree Hreg Hep Hfit Hserve Hp Hj. unfold uv_handler_wrapper in Hserve. unfold r in Hserve.
  rewrite (registered_batch_handler _ _ _ _ _ _ _ host port chunks Hrt Hfree Hreg) in Hserve.
  destruct (batch_handler_answer envs host port chunks n Hfit) as (status & body & Ha & Hin & Hmajor).
  unfold answering in Hserve. rewrite Ha in Hserve. cbn [c_bind fst snd rs_headers empty_response] in Hserve.
  destruct (wrapper_response _ _) as [text|] eqn:Ew; [|done]. cbn [c_bind] in Hserve.
  apply (inj Val), pair_equal_spec in Hserve as [-> <-].
  destruct (batch_reply _ _ _ _ Hin Ew) as (-> & Hshort & Hst).
  assert (Forall (λ h, is_line (header_line h)) [xml_type]) as Hline.
  { constructor; [|constructor]. apply (bool_decide_unpack _). vm_compute. exact I. }
  pose proof (λ st, answer_read (Z.to_nat 1024) (ne_recv env) status [xml_type] _ keep body rest st Hst Hline Hp Hj Hshort)
    as Hread.
  pose proof (bt_count _ _ _ Hfit) as Hcount. pose proof (bt_head _ _ _ Hfit) as Hlen.
  unfold buckets_binary_batch_write_chunks. rewrite (proj2 (Nat.eqb_neq _ _)), Hep by lia. cbn [c_bind].
  destruct (get_cached_connection _ _ _ _) as [cached cache1]. destruct (_ <? 0).
  { intros Hres. apply (inj Val), (inj Some) in Hres as <-. cbn [nr_rc nr_sent]. split; [done|].
    intros E. exfalso. destruct (request_head r) eqn:Eh; [by apply (head_not_empty r)|done]. }
  fold r in Hlen |- *. unfold printed. rewrite (proj2 (Nat.ltb_lt _ _) Hlen). cbn [c_bind].
  change (joined (request_head r :: batch_iov chunks)) with (request_head r +:+ rq_body r).
  destruct (writev_loop _ _ _ _) as [[rc sent]|] eqn:Ev; [|done].
  apply writev_sends in Ev as [H1 H2]; [|done].
  change (joined (request_head r :: batch_iov chunks)) with (request_head r +:+ rq_body r) in H1, H2.
  destruct (Z.eqb_spec rc 0) as [->|Hrc].
  2:{ intros Hres. apply (inj Val), (inj Some) in Hres as <-. cbn [nr_rc nr_sent]. split; [done|].
      intros E. by apply H2 in E. }
  rewrite H1 by done. destruct (recv_status _ _) as [st|] eqn:Er; [|done]. cbn [c_bind].
  destruct (Hread st eq_refl) as [Hr1 Hr2]. intros Hres. split.
  - intros Hok. destruct st as [[[v buf] segs]|]; [|by simplify_eq].
    assert (status = 200) as Hs.
    { rewrite (Hr1 v buf segs eq_refl) in Hres. destruct (decide (status = 200)) as [|Hns]; [done|].
      exfalso. revert Hres Hok. repeat case_match; intros Hres; try done; apply (inj Val), (inj Some) in Hres as <-; done. }
    rewrite (Hr1 v buf segs eq_refl), Hs in Hres. destruct (cache_connection _ _ _ _ _) as [cache2 closed].
    apply (inj Val), (inj Some) in Hres as <-. cbn [nr_sent].
    split_and!; [by apply batch_request_parsed|done|by apply Hmajor].
  - intros _ Hrest Hall. destruct (Hr2 Hrest) as (buf & segs & ->).
    assert (status = 200) as ->.
    { apply Hmajor. apply write_batch_all in Hall as [_ ->]. apply Nat.div_lt; lia. }
    destruct (cache_connection _ _ _ _ _) as [cache2 closed]. by apply (inj Val), (inj Some) in Hres as <-.
Qed.

#[local] Existing Instance line_parser.
#[local] Existing Instance line_parser_laws.

Definition example_batch : list batch_chunk :=
  [BatchChunk 1 [72; 105] "b" "o" "/d1"; BatchChunk 2 [33] "b" "o" "/d2"; BatchChunk 3 [9] "b" "o" "/d3"].

Definition example_envs (i : nat) : chunk_env := quiet_env (UringDone (if (i =? 0)%nat then 2 else 1)).

Definition batch_server : http_server node :=
  HttpServer "0.0.0.0" 9000 "http://0.0.0.0:9000" None (Some buckets_router_create) None.

(** The answer, which arrives but for its last byte. *)
Definition batch_net (keep : bool) (body : string) : net_env :=
  NetEnv (10, 11) 5 [IoDone (Z.to_nat 1000); IoDone 7; IoDone (Z.to_nat 100000)]
    [uv_http_response_start 200 [xml_type] 3 keep +:+ body].

Lemma example_batch_fits : batch_fits "n2" 9000 example_batch.
Proof.
  split.
  - header_value_tac.
  - repeat (apply Forall_cons; split); [..|apply Forall_nil_2].
    all: split; cbn [bc_index bc_data bc_bucket bc_object bc_disk_path].
    all: try (unfold is_u32, in_range; lia).
    all: try (split; [unfold BATCH_BUCKET_SIZE, BATCH_OBJECT_SIZE, BATCH_DISKPATH_SIZE; cbn; lia|done]).
    all: split; [repeat constructor; unfold in_range; lia|unfold is_u32, in_range; cbn; lia].
  - cbn. lia.
  - apply Nat.ltb_lt. vm_compute. reflexivity.
Qed.

Lemma remote_batch_write_witness :
  ∃ res, buckets_binary_batch_write_chunks (batch_net true "OK") init_conn_cache
           "http://n2:9000" example_batch = Val (Some res) ∧
    http_parse (nr_sent res) = Some (batch_request "n2" 9000 example_batch).
Proof.
  eexists. split; [vm_compute; reflexivity|].
  eapply (remote_batch_write (batch_net true "OK") (quiet_env (UringDone 0)) (λ _, true) true example_envs batch_server
    buckets_router_create _ init_conn_cache "http://n2:9000" "n2" 9000 example_batch true example_node _ _ (String LF "")).
  - reflexivity.
  - intros e He. by apply elem_of_nil in He.
  - reflexivity.
  - reflexivity.
  - apply example_batch_fits.
  - vm_compute. reflexivity.
  - repeat constructor; discriminate.
  - vm_compute. reflexivity.
  - vm_compute. reflexivity.
  - reflexivity.
Defined.

(** A batch of which one chunk cannot be written is acknowledged all the same. *)
Lemma batch_lost_chunk_acknowledged :
  let envs i := if (i =? 2)%nat then quiet_env (UringDone (-5)) else example_envs i in
  written_chunks envs example_batch example_node = 2%nat ∧
  ∃ n, buckets_handle_batch_chunk_write envs (batch_request "n2" 9000 example_batch) example_node
         = Val (200, "OK" +:+ String LF "", n).
Proof. split; [vm_compute; reflexivity|]. eexists. vm_compute. reflexivity. Qed.
