(* ===== verification/Object.v ===== *)
(** * Objects (src/src/storage/object.c)

    Writing, reading and deleting an object: a small object lives inside its metadata, a
    larger one is erasure coded over the disks of its set. What the placement, the multi-disk
    layer, the clock and the system calls answer are arguments; the registry is the class
    [RegistryOps]. *)

From S2P Require Import Prelude CInt CString CSearch Base64 Blake2b Galois Erasure Layout DiskIO.
From S2P Require Import GroupCommit Json Topology Placement XlMeta Chunk Peers ParallelChunks Registry.
From Stdlib Require Import Ascii.

Local Open Scope c_scope.

(** ** The storage system *)

Record storage_config := StorageConfig {
  data_dir : option string;
  inline_threshold : Z;
  default_ec_k : nat;
  default_ec_m : nat;
  verify_checksums : bool
}.

(** The state before initialisation. *)
Definition g_storage_config : storage_config :=
  StorageConfig None BUCKETS_INLINE_THRESHOLD 0 0 true.

(** The result, the configuration and the group commit; [no_fsync] is the environment of the
    latter. *)
Definition buckets_storage_init (no_fsync : bool) (config : option storage_config)
    : Z * storage_config * option gc_context :=
  match config with
  | None => (-1, g_storage_config, None)
  | Some c =>
      (0, StorageConfig (Some (default ".buckets/data" (data_dir c))) (inline_threshold c)
            (default_ec_k c) (default_ec_m c) (verify_checksums c),
       Some (buckets_group_commit_init no_fsync None))
  end.

Definition buckets_storage_cleanup (config : storage_config) : storage_config :=
  StorageConfig None (inline_threshold config) (default_ec_k config) (default_ec_m config)
    (verify_checksums config).

(** An unset or empty directory. *)
Definition fallback_dir (dir : option string) : string :=
  match dir with
  | Some d => if strcmp_eq d "" then "/tmp/buckets-data" else d
  | None => "/tmp/buckets-data"
  end.

Definition buckets_get_data_dir (config : storage_config) (size : nat) : buckets_error_t * string :=
  if (size =? 0)%nat then (BUCKETS_ERR_INVALID_ARG, "")
  else (BUCKETS_OK, snprintf size (fallback_dir (data_dir config))).

(** ** The registry as objects use it *)

Class RegistryOps `{Peers} := {
  buckets_registry_record : object_location → cluster → Z * cluster;
  buckets_registry_lookup : string → string → cluster → option object_location;
  buckets_registry_delete : string → string → cluster → Z * cluster
}.

(** The location that is recorded; a missing placement is recorded as pool 0, set 0. *)
Definition placement_location (bucket object : string) (size now : Z)
    (placement : option placement_result) : object_location :=
  match placement with
  | Some p =>
      let n := Nat.min (length (disk_paths p)) BUCKETS_REGISTRY_MAX_DISKS in
      Location (Some bucket) (Some object) (Some "latest") (Z.of_nat (pr_pool_idx p))
        (Z.of_nat (pr_set_idx p)) (Z.of_nat n)
        ((Z.of_nat <$> seq 0 n) ++ replicate (BUCKETS_REGISTRY_MAX_DISKS - n) 0)
        (pr_generation p) now size
  | None =>
      Location (Some bucket) (Some object) (Some "latest") 0 0 1
        (replicate BUCKETS_REGISTRY_MAX_DISKS 0) 1 now size
  end.

Section Objects.
Context `{CJson} `{ISAL} `{RegistryOps}.
Context (g_local_node_endpoint : string).

Definition record_object_location (bucket object : string) (size now : Z)
    (placement : option placement_result) (c : cluster) : cluster :=
  if strcmp_eq bucket ".buckets-registry" then c
  else (buckets_registry_record (placement_location bucket object size now placement) c).2.

(** ** Writing *)

(** What surrounds a call: the placement, the disks of the multi-disk layer, the time, the
    directory calls, the environment of the writes and the order of the threads, and whether
    inline objects are replicated before the answer and the queue takes a task. *)
Record put_env := PutEnv {
  pe_placement : option placement_result;
  pe_multidisk : list string;
  pe_modTime : string;
  pe_now : Z;
  pe_mkdir : string → bool;
  pe_meta : write_env * N;
  pe_chunks : nat → chunk_env;
  pe_chunk_order : list nat;
  pe_metas : nat → write_env * N;
  pe_meta_order : list nat;
  pe_sync_replication : bool;
  pe_queue_ok : bool
}.

(** The state: the cluster, and the tasks queued for replication. *)
Record storage := Storage {
  st_cluster : cluster;
  st_queue : list (string * string * xl_meta * placement_result)
}.

(** Metadata without chunks. *)
Definition base_meta (bucket object : string) (size : Z) (modTime : string)
    (content_type inline_data : option string) : xl_meta :=
  XlMeta 1 "xl" (Some bucket) (Some object) size modTime "" 0 0 0 0 None None content_type None None
    None None None None [] None false false None inline_data.

(** ... and with the parameters of the code and the checksums. *)
Definition coded_meta (m : xl_meta) (k m' : nat) (chunk_size : Z)
    (checksums : list buckets_checksum) : xl_meta :=
  XlMeta (xl_version m) (xl_format m) (xl_bucket m) (xl_object m) (stat_size m) (stat_modTime m)
    "ReedSolomon" (Z.of_nat k) (Z.of_nat m') chunk_size 1
    (Some ((λ i, Z.of_nat i + 1) <$> seq 0 (k + m'))) (Some checksums) (content_type m) (etag m)
    (cache_control m) (content_disposition m) (content_encoding m) (content_language m) (expires m)
    (user_meta m) (versionId m) (isLatest m) (isDeleteMarker m) (deleteMarkerVersionId m)
    (inline_data m).

(** The disk of this node that the object's directory is created on. *)
Definition put_disk (config : storage_config) (placement : option placement_result) : string :=
  match placement with
  | Some p => match disk_paths p with d :: _ => fallback_dir (Some d) | [] => fallback_dir (data_dir config) end
  | None => fallback_dir (data_dir config)
  end.

(** [buckets_write_xl_meta] on the node. *)
Definition write_meta (env : write_env * N) (disk object_path : string) (m : xl_meta) (c : cluster)
    : c_result (Z * cluster) :=
  let* r := buckets_write_xl_meta env.1 env.2 (n_fs (cl_node c)) disk object_path m in
  Val (r.1, with_node (with_fs (default (n_fs (cl_node c)) (last r.2)) (cl_node c)) c).

(** The inline branch: the local disk first, then replication. When the queue has taken the
    placement, the location is recorded without it. *)
Definition put_inline (env : put_env) (bucket object object_path disk_path : string)
    (data : list Z) (content_type : option string) (st : storage) : c_result (Z * storage) :=
  let size := Z.of_nat (length data) in
  let meta := base_meta bucket object size (pe_modTime env) content_type (Some (base64_encode data)) in
  let* r := write_meta (pe_meta env) disk_path object_path meta (st_cluster st) in
  let (result, c) := (r : Z * cluster) in
  if result =? 0 then
    let* q :=
      match pe_placement env with
      | Some p =>
          let* endpoints := has_endpoints p in
          if endpoints && (0 <? length (disk_paths p))%nat then
            if pe_sync_replication env then
              let* r := buckets_parallel_write_metadata g_local_node_endpoint (pe_metas env)
                          (pe_meta_order env) bucket object object_path (Some p) (disk_paths p) meta
                          (length (disk_paths p)) endpoints c in
              Val (r.2, st_queue st, Some p)
            else if pe_queue_ok env then
              Val (c, st_queue st ++ [(bucket, object, meta, p)], None)
            else Val (c, st_queue st, Some p)
          else Val (c, st_queue st, Some p)
      | None => Val (c, st_queue st, None)
      end in
    let '(c, queue, placement) := (q : cluster * _ * _) in
    Val (0, Storage (record_object_location bucket object size (pe_now env) placement c) queue)
  else Val (result, Storage c (st_queue st)).

(** The chunks one after the other on a single disk, from index [i]; it stops at a failure. *)
Fixpoint write_single (envs : nat → chunk_env) (disk object_path : string)
    (chunks : list (list Z)) (i : nat) (n : node) : Z * node :=
  match chunks with
  | [] => (0, n)
  | data :: chunks =>
      let (rc, n) := buckets_write_chunk (envs i) n disk object_path (Z.of_nat i + 1) data in
      if rc =? 0 then write_single envs disk object_path chunks (S i) n else (-1, n)
  end.

(** The erasure-coded branch. The arrays of [k] and [m] pointers need a size. *)
Definition put_coded (config : storage_config) (env : put_env) (bucket object object_path disk_path : string)
    (data : list Z) (content_type : option string) (st : storage) : c_result (Z * storage) :=
  let size := Z.of_nat (length data) in
  let k := default_ec_k config in
  let m := default_ec_m config in
  let chunk_size := buckets_calculate_chunk_size size k in
  if (k =? 0)%nat || (m =? 0)%nat then Undef
  else
    let buffers := replicate k (replicate (Z.to_nat chunk_size) 0) in
    match buckets_ec_init (replicate (k * k) 0) (replicate (k * k) 0) (replicate (k + m) 0%nat) k m with
    | None => Val (-1, st)
    | Some ctx =>
        let* e := buckets_ec_encode (Some ctx) (Some data) chunk_size buffers in
        match e with
        | None => Val (-1, st)
        | Some (data_chunks, parity_chunks) =>
            let chunks := data_chunks ++ parity_chunks in
            let* checksums := map_result buckets_compute_chunk_checksum chunks in
            let meta := coded_meta (base_meta bucket object size (pe_modTime env) content_type None)
                          k m chunk_size checksums in
            let paths :=
              match pe_placement env with
              | Some p => if (k + m <=? length (disk_paths p))%nat then disk_paths p
                          else take (k + m) (pe_multidisk env)
              | None => take (k + m) (pe_multidisk env)
              end in
            let* r :=
              match pe_placement env with
              | Some p =>
                  if (length paths <? k + m)%nat then Val None
                  else
                    let* endpoints := has_endpoints p in
                    let* w := buckets_batched_parallel_write_chunks g_local_node_endpoint
                                (pe_chunks env) (pe_chunk_order env) bucket object object_path p
                                chunks (k + m) (st_cluster st) in
                    if (w.1 : Z) =? 0 then
                      let* w := buckets_parallel_write_metadata g_local_node_endpoint
                                  (pe_metas env) (pe_meta_order env) bucket object object_path
                                  (Some p) paths meta (k + m) endpoints w.2 in
                      Val (Some w)
                    else Val (Some w)
              | None => Val None
              end in
            let* w :=
              match r with
              | Some w => Val w
              | None =>
                  let (rc, n) := write_single (pe_chunks env) disk_path object_path chunks 0
                                   (cl_node (st_cluster st)) in
                  let c := with_node n (st_cluster st) in
                  if rc =? 0 then write_meta (pe_meta env) disk_path object_path meta c
                  else Val (-1, c)
              end in
            let (result, c) := (w : Z * cluster) in
            Val (result,
                 Storage (if result =? 0 then
                            record_object_location bucket object size (pe_now env) (pe_placement env) c
                          else c) (st_queue st))
        end
    end.

Definition buckets_put_object (config : storage_config) (env : put_env) (bucket object : string)
    (data : list Z) (content_type : option string) (st : storage) : c_result (Z * storage) :=
  let object_path := buckets_compute_object_path bucket object PATH_MAX in
  let disk_path := put_disk config (pe_placement env) in
  if negb ((buckets_create_object_dir (pe_mkdir env) disk_path object_path).1 =? 0) then Val (-1, st)
  else if buckets_should_inline_object (Z.of_nat (length data)) then
    put_inline env bucket object object_path disk_path data content_type st
  else put_coded config env bucket object object_path disk_path data content_type st.

(** ** Reading *)

(** The answers of the (at most two) placements and of the multi-disk layer, which reads
    succeed, and the order of the threads. *)
Record get_env := GetEnv {
  ge_first : option placement_result;
  ge_second : option placement_result;
  ge_multidisk : list string;
  ge_read_meta : nat → bool;
  ge_read_chunk : nat → bool;
  ge_order : list nat
}.

(** The allocation of a size that has wrapped around aborts the program. *)
Inductive get_outcome :=
  | GetOk (data : list Z)
  | GetFails
  | GetAborts.

(** The disks that are searched and the placement that is used. A hit of the registry counts
    when it names the set of the placement; otherwise the placement is computed again. *)
Definition get_disks (config : storage_config) (env : get_env) (bucket object : string) (c : cluster)
    : list string * option placement_result :=
  let skip := strcmp_eq bucket BUCKETS_REGISTRY_BUCKET || strcmp_eq bucket ".buckets.sys" in
  let hit := if skip then None else buckets_registry_lookup bucket object c in
  let first :=
    match hit, ge_first env with
    | Some loc, Some p =>
        ((if Z.of_nat (pr_set_idx p) =? loc_set_idx loc then disk_paths p else []), Some p)
    | _, _ => ([], None)
    end in
  let second :=
    match first with
    | (_ :: _, _) => first
    | ([], pl) =>
        match ge_second env with Some p => (disk_paths p, Some p) | None => ([], pl) end
    end in
  match second with
  | (_ :: _, _) => second
  | ([], pl) =>
      (match take 64 (ge_multidisk env) with
       | [] => [fallback_dir (data_dir config)]
       | l => l
       end, pl)
  end.

(** A remote read of the metadata on disk [i], when the disk has another node's endpoint. *)
Definition remote_meta (bucket object : string) (placement : option placement_result)
    (endpoints : bool) (disk_path : string) (i : nat) (c : cluster) : option xl_meta :=
  match placement with
  | Some p =>
      if endpoints then
        match disk_endpoints p !! i with
        | Some ep =>
            if buckets_distributed_is_local_disk g_local_node_endpoint ep then None
            else
              match buckets_distributed_extract_node_endpoint ep 256 with
              | Some node_endpoint =>
                  buckets_distributed_read_xlmeta (cl_world c) node_endpoint bucket object disk_path
              | None => None
              end
        | None => None
        end
      else None
  | None => None
  end.

(** The first disk, from index [i], that has the metadata. *)
Fixpoint find_meta (env : get_env) (bucket object object_path : string)
    (placement : option placement_result) (endpoints : bool) (paths : list string) (i : nat)
    (c : cluster) : c_result (option xl_meta) :=
  match paths with
  | [] => Val None
  | d :: paths =>
      let* m := buckets_read_xl_meta (ge_read_meta env i) (n_fs (cl_node c)) d object_path in
      match m with
      | Some m => Val (Some m)
      | None =>
          match remote_meta bucket object placement endpoints d i c with
          | Some m => Val (Some m)
          | None => find_meta env bucket object object_path placement endpoints paths (S i) c
          end
      end
  end.

(** The chunks of an object without a placement, all from one disk. *)
Definition read_single (env : get_env) (disk object_path : string) (n : nat) (c : cluster)
    : list (option (list Z)) :=
  (λ i, buckets_read_chunk (ge_read_chunk env i) (n_fs (cl_node c)) disk object_path (Z.of_nat i + 1))
    <$> seq 0 n.

(** The sizes of the chunks that were read are not looked at. *)
Definition get_coded (env : get_env) (bucket object object_path : string) (meta : xl_meta)
    (placement : option placement_result) (paths : list string) (c : cluster)
    : c_result get_outcome :=
  let k := Z.to_nat (ec_data meta) in
  let m := Z.to_nat (ec_parity meta) in
  let total_chunks := chunk_count meta in
  if (total_chunks =? 0)%nat then Undef
  else
    let* read :=
      match placement with
      | Some p =>
          buckets_parallel_read_chunks g_local_node_endpoint (ge_read_chunk env) (ge_order env)
            bucket object object_path p total_chunks c
      | None =>
          let chunks := read_single env (default "" (head paths)) object_path total_chunks c in
          Val (Some (length (filter is_Some chunks), chunks))
      end in
    match read with
    | None => Val GetFails
    | Some (available, chunks) =>
        if (available <? k)%nat then Val GetFails
        else
          let dest := replicate (Z.to_nat (stat_size meta)) 0 in
          match buckets_ec_init (replicate (k * k) 0) (replicate (k * k) 0)
                  (replicate (k + m) 0%nat) k m with
          | None => Val GetFails
          | Some ctx =>
              let* r := buckets_ec_decode (Some ctx) chunks (ec_blockSize meta) dest in
              let '(rc, _, _, data) := r in
              Val (if rc =? 0 then GetOk data else GetFails)
          end
    end.

Definition buckets_get_object (config : storage_config) (env : get_env) (bucket object : string)
    (c : cluster) : c_result get_outcome :=
  let object_path := buckets_compute_object_path bucket object PATH_MAX in
  let (paths, placement) := get_disks config env bucket object c in
  let* endpoints := match placement with Some p => has_endpoints p | None => Val false end in
  let* meta := find_meta env bucket object object_path placement endpoints paths 0 c in
  match meta with
  | None => Val GetFails
  | Some meta =>
      match inline_data meta with
      | Some encoded =>
          let* data := base64_decode encoded in
          Val (match data with Some data => GetOk data | None => GetAborts end)
      | None => get_coded env bucket object object_path meta placement paths c
      end
  end.

(** ** Deleting, and the metadata alone *)

(** The chunks [i+1], ..., [n] of a single disk; failures are ignored. *)
Fixpoint delete_chunks (unlink_ok : nat → bool) (fs : fs_t) (disk object_path : string)
    (i n : nat) : fs_t :=
  match n with
  | O => fs
  | S n =>
      delete_chunks unlink_ok
        (buckets_delete_chunk (unlink_ok i) fs disk object_path (Z.of_nat i + 1)).2
        disk object_path (S i) n
  end.

(** The object is looked for in [data_dir] only; reading without a directory is an error. *)
Definition buckets_delete_object (config : storage_config) (read_ok : bool)
    (unlink_chunk : nat → bool) (unlink_meta : bool) (bucket object : string) (c : cluster)
    : c_result (Z * cluster) :=
  let object_path := buckets_compute_object_path bucket object PATH_MAX in
  match data_dir config with
  | None => Val (-1, c)
  | Some disk_path =>
      let fs := n_fs (cl_node c) in
      let* meta := buckets_read_xl_meta read_ok fs disk_path object_path in
      match meta with
      | None => Val (-1, c)
      | Some meta =>
          let fs := match inline_data meta with
                    | Some _ => fs
                    | None => delete_chunks unlink_chunk fs disk_path object_path 0 (chunk_count meta)
                    end in
          let path := snprintf (2 * PATH_MAX) (disk_path +:+ "/" +:+ object_path +:+ "xl.meta") in
          let fs := if unlink_meta then delete path fs else fs in
          let c := with_node (with_fs fs (cl_node c)) c in
          Val (0, (buckets_registry_delete bucket object c).2)
      end
  end.

Definition buckets_head_object (config : storage_config) (read_ok : bool) (bucket object : string)
    (c : cluster) : c_result (option xl_meta) :=
  match data_dir config with
  | None => Val None
  | Some disk_path =>
      buckets_read_xl_meta read_ok (n_fs (cl_node c)) disk_path
        (buckets_compute_object_path bucket object PATH_MAX)
  end.

Definition buckets_stat_object (config : storage_config) (read_ok : bool) (bucket object : string)
    (c : cluster) : c_result (option (Z * string)) :=
  let* meta := buckets_head_object config read_ok bucket object c in
  Val (match meta with Some m => Some (stat_size m, stat_modTime m) | None => None end).

(** ** Deleting from all disks (distributed.c) *)

Definition buckets_distributed_delete_object (config : storage_config)
    (placement : option placement_result) (unlink_ok : nat → bool * bool) (order : list nat)
    (read_ok : bool) (bucket object : string) (c : cluster) : c_result (Z * cluster) :=
  match placement with
  | None =>
      buckets_delete_object config read_ok (λ i, (unlink_ok i).1) (unlink_ok 0%nat).2 bucket object c
  | Some p =>
      let object_path := buckets_compute_object_path bucket object PATH_MAX in
      let* r := buckets_parallel_delete_chunks g_local_node_endpoint unlink_ok order bucket object
                  object_path p c in
      Val (r.1, if strcmp_eq bucket ".buckets-registry" then r.2
                else (buckets_registry_delete bucket object r.2).2)
  end.
End Objects.

(** ** What a successful write leaves *)

Lemma compute_checksum_ok x :
  buckets_compute_chunk_checksum x = Val (Checksum "BLAKE2b-256" (blake2b_ref 32 [] x)).
Proof. unfold buckets_compute_chunk_checksum. by rewrite blake2b_oneshot_ok. Qed.

Lemma map_result_fmap {A B} (f : A → c_result B) g l :
  (∀ a, f a = Val (g a)) → map_result f l = Val (g <$> l).
Proof.
  intros Hf. induction l as [|a l IH]; [done|]. cbn [map_result]. rewrite Hf, IH. done.
Qed.

Lemma coded_meta_wf bucket object size modTime ct (k m : nat) cs chunks i :
  0 ≤ size ≤ 2 ^ 53 → (strlen modTime ≤ 31)%nat → (k ≤ 16)%nat → (m ≤ 16)%nat →
  0 ≤ cs ≤ 2 ^ 53 → length chunks = (k + m)%nat → 0 ≤ i < 2 ^ 31 →
  xl_wf (with_index i (coded_meta (base_meta bucket object size modTime ct None) k m cs
    ((λ x, Checksum "BLAKE2b-256" (blake2b_ref 32 [] x)) <$> chunks))).
Proof.
  intros Hs Ht Hk Hm Hcs Hl Hi.
  assert (u32 (Z.of_nat k + Z.of_nat m) = Z.of_nat (k + m)) as Hu.
  { unfold u32. rewrite wrap_small by (unfold in_range; lia). lia. }
  split; cbn [with_index coded_meta base_meta xl_version xl_format stat_size stat_modTime ec_algorithm
    ec_data ec_parity ec_blockSize ec_index ec_distribution ec_checksums user_meta versionId isLatest
    isDeleteMarker deleteMarkerVersionId default from_option id];
    [lia|unfold strlen; simpl; lia|lia|lia|unfold strlen; simpl; lia|lia|lia|lia|lia| | |constructor|auto].
  - split.
    + unfold chunk_count. cbn [with_index coded_meta ec_data ec_parity]. rewrite Hu, Nat2Z.id.
      by rewrite length_fmap, length_seq.
    + apply Forall_fmap, Forall_forall. intros j Hj%elem_of_seq. cbn. lia.
  - split.
    + unfold chunk_count. cbn [with_index coded_meta ec_data ec_parity]. rewrite Hu, Nat2Z.id.
      by rewrite length_fmap.
    + apply Forall_fmap, Forall_forall. intros x _. cbn [compose algo hash].
      split; [cbn; lia|]. split; [by apply length_blake2b_ref; lia|apply blake2b_ref_bytes].
Qed.

Lemma strncpy_all n l : Forall (λ d, strlen d ≤ n)%nat l → strncpy n <$> l = l.
Proof.
  induction 1 as [|d l Hd _ IH]; [done|]. rewrite fmap_cons, IH. f_equal. by apply strncpy_short.
Qed.

Lemma encode_some_fits `{ISAL} ctx data cs bufs r :
  buckets_ec_encode (Some ctx) (Some data) cs bufs = Val (Some r) →
  buckets_ec_calc_chunk_size (Z.of_nat (length data)) (ec_k ctx) ≤ cs.
Proof.
  unfold buckets_ec_encode. destruct (cs =? 0); [done|].
  destruct (Z.ltb_spec cs (buckets_ec_calc_chunk_size (Z.of_nat (length data)) (ec_k ctx))); [done|].
  lia.
Qed.

Lemma found_plus_lost (chunks : list (option (list Z))) :
  (length (filter is_Some chunks) + lost chunks = length chunks)%nat.
Proof.
  unfold lost. induction chunks as [|o chunks IH]; [done|]. rewrite !filter_cons.
  destruct o as [x|]; [rewrite decide_True, decide_False by (done || by eexists)|
    rewrite decide_False, decide_True by (done || by intros [])]; cbn [length]; lia.
Qed.

Lemma object_path_fits bucket object :
  (strlen (buckets_compute_object_path bucket object PATH_MAX) < Z.to_nat 1535)%nat.
Proof.
  destruct (object_path_shape bucket object PATH_MAX) as [_ ->]; [unfold PATH_MAX; lia|]. lia.
Qed.

Lemma calculate_chunk_size_range size k :
  (0 < k)%nat → 0 < buckets_calculate_chunk_size size k < 2 ^ 31.
Proof.
  intros Hk0. unfold buckets_calculate_chunk_size, BUCKETS_MIN_CHUNK_SIZE, BUCKETS_MAX_CHUNK_SIZE.
  rewrite (proj2 (Nat.eqb_neq k 0)) by lia. repeat split_if; lia.
Qed.

Section Coded.
Context `{CJsonLaws} {k m : nat} `{!ISAL} `{!ISALLaws k m} `{RegistryOps}.
Context (g_local : string) (config : storage_config) (bucket object : string) (p : placement_result).
Context (Hk : default_ec_k config = k) (Hm : default_ec_m config = m).
Context (Hlocal : has_endpoints p = Val false).
Context (Hdisks : NoDup (disk_paths p)).
Context (Hlong : Forall (λ d, strlen d ≤ 511)%nat (disk_paths p)).
Context (Hwidth : (k + m ≤ length (disk_paths p))%nat).

Abbreviation object_path := (buckets_compute_object_path bucket object PATH_MAX).
Abbreviation file := (chunk_file object_path p).
Abbreviation mfile := (meta_file object_path p).

Lemma disks_copied : strncpy 511 <$> disk_paths p = disk_paths p.
Proof using Hlong. by apply strncpy_all. Qed.

(** The registry does not touch the files of the object. *)
Definition registry_quiet : Prop :=
  ∀ loc c i, (i < k + m)%nat →
    n_fs (cl_node (buckets_registry_record loc c).2) !! file i = n_fs (cl_node c) !! file i ∧
    n_fs (cl_node (buckets_registry_record loc c).2) !! mfile i = n_fs (cl_node c) !! mfile i.

Lemma record_quiet size now pl c i :
  registry_quiet → (i < k + m)%nat →
  n_fs (cl_node (record_object_location bucket object size now pl c)) !! file i
    = n_fs (cl_node c) !! file i ∧
  n_fs (cl_node (record_object_location bucket object size now pl c)) !! mfile i
    = n_fs (cl_node c) !! mfile i.
Proof using.
  intros Hq Hi. unfold record_object_location. destruct (strcmp_eq _ _); [done|]. by apply Hq.
Qed.

(** The chunks of [data], the metadata that describes them, and both on the disks. *)
Record coded_on_disk (data : list Z) (fs : fs_t) (chunks : list (list Z)) (meta : xl_meta) (cs : nat)
    (ctx : ec_ctx) : Prop := CodedOnDisk {
  co_init : buckets_ec_init (replicate (k * k) 0) (replicate (k * k) 0) (replicate (k + m) 0%nat) k m
              = Some ctx;
  co_size : 0 < Z.of_nat cs < 2 ^ 31;
  co_fits : buckets_ec_calc_chunk_size (Z.of_nat (length data)) k ≤ Z.of_nat cs;
  co_code : ∃ dc pc, buckets_ec_encode (Some ctx) (Some data) (Z.of_nat cs)
                       (replicate k (replicate cs 0)) = Val (Some (dc, pc)) ∧ chunks = dc ++ pc;
  co_meta : stat_size meta = Z.of_nat (length data) ∧ ec_data meta = Z.of_nat k ∧
            ec_parity meta = Z.of_nat m ∧ ec_blockSize meta = Z.of_nat cs ∧ inline_data meta = None;
  co_chunks : ∀ i, (i < k + m)%nat → ∃ x, chunks !! i = Some x ∧ fs !! file i = Some (bytes_str x);
  co_metas : ∀ i, (i < k + m)%nat → holds_meta object_path p meta i fs
}.

Context (env : put_env) (data : list Z) (ct : option string).
Context (Hdata : is_bytes data) (Hsize : Z.of_nat (length data) ≤ 2 ^ 53).
Context (Hplace : pe_placement env = Some p) (Htime : (strlen (pe_modTime env) ≤ 31)%nat).
Context (Horder : NoDup (pe_chunk_order env)) (Hmorder : NoDup (pe_meta_order env)).
Context (Hfull : ∀ i x, Z.of_nat (length x) = buckets_calculate_chunk_size (Z.of_nat (length data)) k →
                   full_write (pe_chunks env i) x).
Context (Hquiet : registry_quiet).

Lemma put_coded_stored disk st st' :
  put_coded g_local config env bucket object object_path disk data ct st = Val (0, st') →
  ∃ chunks meta cs ctx, coded_on_disk data (n_fs (cl_node (st_cluster st'))) chunks meta cs ctx.
Proof.
  unfold put_coded. rewrite Hk, Hm, Hplace.
  destruct ((k =? 0)%nat || (m =? 0)%nat) eqn:E0; [done|].
  apply orb_false_iff in E0 as [E1 E2]. apply Nat.eqb_neq in E1, E2.
  pose proof (calculate_chunk_size_range (Z.of_nat (length data)) k ltac:(lia)) as Hcs.
  set (chunk_size := buckets_calculate_chunk_size _ _) in *.
  set (cs := Z.to_nat chunk_size). assert (chunk_size = Z.of_nat cs) as Ecs by lia.
  destruct (buckets_ec_init _ _ _ _ _) as [ctx|] eqn:Hinit; [|done].
  destruct (buckets_ec_encode _ _ _ _) as [[[dc pc]|]|] eqn:He; [|done..]. cbn [c_bind].
  rewrite (map_result_fmap _ _ _ compute_checksum_ok). cbn [c_bind].
  set (meta := coded_meta _ _ _ _ _).
  rewrite (proj2 (Nat.leb_le _ _)), (proj2 (Nat.ltb_ge _ _)), Hlocal by lia. cbn [c_bind].
  destruct (init_ctx _ _ _ _ _ _ Hinit) as (Hk16 & Hm16 & Ek & _).
  unfold BUCKETS_EC_MAX_DATA, BUCKETS_EC_MAX_PARITY in Hk16, Hm16.
  pose proof (encode_some_fits _ _ _ _ _ He) as Hfits. rewrite Ek, Ecs in Hfits. rewrite Ecs in He.
  destruct (erasure_encode_decode (k := k) (m := m) _ _ _ ctx data cs (replicate k (replicate cs 0)) Hinit Hdata)
    as (dc' & pc' & He' & Hlen & Hall & _);
    [lia|lia|done|apply length_replicate|apply Forall_replicate, length_replicate|].
  rewrite He in He'. apply (inj Val), (inj Some), pair_equal_spec in He' as [<- <-].
  unfold buckets_batched_parallel_write_chunks. rewrite (proj2 (Nat.ltb_ge _ _)), Hlocal by lia.
  cbn [c_bind negb].
  destruct (buckets_parallel_write_chunks _ _ _ _ _ _ _ _ _ _) as [[rc1 c1]|] eqn:Hw; [|done].
  cbn [c_bind fst snd]. destruct (Z.eqb_spec rc1 0) as [->|Hne].
  2:{ cbn [c_bind]. intros Hret. apply (inj Val), pair_equal_spec in Hret as [-> _]. done. }
  destruct (buckets_parallel_write_metadata _ _ _ _ _ _ _ _ _ _ _ _) as [[rc2 c2]|] eqn:Hwm; [|done].
  cbn [c_bind]. intros Hret. apply (inj Val), pair_equal_spec in Hret as [-> <-].
  change (0 =? 0) with true. cbv iota. cbn [st_cluster].
  pose proof (object_path_fits bucket object) as Hop.
  apply parallel_write_local in Hw as [Hchunks _]; [|done..|].
  2:{ intros i x Hx. apply Hfull. rewrite Forall_forall in Hall.
    destruct (Hall x) as [-> _]; [by eapply list_elem_of_lookup_2|done]. }
  destruct (Hchunks eq_refl) as [H32 Hc]. clear Hchunks.
  apply parallel_write_metadata_local in Hwm as [Hmetas Hframe];
    [|done|done|done|rewrite disks_copied; done|intros i Hi; apply coded_meta_wf; done || lia].
  exists (dc ++ pc), meta, cs, ctx. split; [done|lia|done|by exists dc, pc| | |].
  - unfold meta. cbn. by rewrite Ecs.
  - intros i Hi. destruct (Hc i Hi) as (x & Hx & Hf). exists x. split; [done|].
    destruct (record_quiet (Z.of_nat (length data)) (pe_now env) (Some p) c2 i Hquiet Hi) as [-> _].
    rewrite Hframe; [done|]. intros j Hj. split.
    + symmetry. apply meta_ne_chunk_file; [done|lia].
    + intros pid. symmetry. apply temp_ne_chunk_file; [done|lia].
  - intros i Hi. destruct (Hmetas eq_refl i Hi) as (s & Hs & Hj). exists s. split; [|done].
    destruct (record_quiet (Z.of_nat (length data)) (pe_now env) (Some p) c2 i Hquiet Hi) as [_ E].
    by rewrite E.
Qed.

(** ** Reading it back *)

Context (genv : get_env) (Hfirst : ge_first genv = Some p) (Hsecond : ge_second genv = Some p).

Lemma get_disks_placement c :
  disk_paths p ≠ [] → get_disks config genv bucket object c = (disk_paths p, Some p).
Proof using Hfirst Hsecond.
  clear Hdisks Hlong Hwidth. intros Hne. unfold get_disks. rewrite Hfirst, Hsecond.
  destruct (disk_paths p) as [|d l]; [done|].
  destruct (if _ : bool then None else _) as [loc|]; [|done].
  by destruct (Z.of_nat (pr_set_idx p) =? loc_set_idx loc).
Qed.

Lemma mfile_disk i d : disk_paths p !! i = Some d → meta_path d object_path = mfile i.
Proof using Hlong.
  intros Hd. unfold meta_file. rewrite Hd. cbn [default from_option id].
  rewrite strncpy_short; [done|]. rewrite Forall_lookup in Hlong. by eapply Hlong.
Qed.

(** Whichever disks have lost the metadata, the search finds one that has it. *)
Lemma find_meta_some meta c :
  (∀ i, (i < k + m)%nat →
     n_fs (cl_node c) !! mfile i = None ∨ holds_meta object_path p meta i (n_fs (cl_node c))) →
  ∀ j, (j < k + m)%nat → is_Some (n_fs (cl_node c) !! mfile j) → ge_read_meta genv j = true →
  ∀ n i, (i + n = j)%nat →
  ∃ i', find_meta g_local genv bucket object object_path (Some p) false (drop i (disk_paths p)) i c
    = Val (Some (xl_normal (with_index (Z.of_nat i' + 1) meta))).
Proof using Hlong Hwidth.
  clear Hk Hm Htime Hsize. intros Hall j Hj [s Hs] Hread n. induction n as [|n IH]; intros i Hi.
  - assert (i = j) as -> by lia. exists j.
    destruct (lookup_lt_is_Some_2 (disk_paths p) j) as [d Hd]; [lia|].
    rewrite (drop_S _ _ _ Hd). cbn [find_meta]. rewrite Hread.
    destruct (Hall j Hj) as [E|(s' & Hs' & Hjson)]; [congruence|].
    erewrite read_xl_meta_file; [|by rewrite (mfile_disk _ _ Hd)|done]. done.
  - destruct (lookup_lt_is_Some_2 (disk_paths p) i) as [d Hd]; [lia|].
    rewrite (drop_S _ _ _ Hd). cbn [find_meta].
    assert (buckets_read_xl_meta (ge_read_meta genv i) (n_fs (cl_node c)) d object_path = Val None ∨
      ∃ i', buckets_read_xl_meta (ge_read_meta genv i) (n_fs (cl_node c)) d object_path
            = Val (Some (xl_normal (with_index (Z.of_nat i' + 1) meta)))) as [E|[i' E]].
    { destruct (Hall i ltac:(lia)) as [E|(s' & Hs' & Hjson)].
      - left. unfold buckets_read_xl_meta, buckets_atomic_read. by rewrite (mfile_disk _ _ Hd), E.
      - destruct (ge_read_meta genv i).
        + right. exists i. eapply read_xl_meta_file; [by rewrite (mfile_disk _ _ Hd)|done].
        + left. unfold buckets_read_xl_meta, buckets_atomic_read. by rewrite (mfile_disk _ _ Hd), Hs'. }
    + rewrite E. cbn [c_bind remote_meta]. apply IH. lia.
    + rewrite E. cbn [c_bind]. by exists i'.
Qed.

(** The chunks that the reading threads find are those of the object, or missing. *)
Lemma found_chunks fs fs' chunks meta cs ctx :
  coded_on_disk data fs chunks meta cs ctx →
  (∀ i, (i < k + m)%nat → fs' !! file i = fs !! file i ∨ fs' !! file i = None) →
  Forall2 (λ o x, o = None ∨ o = Some x)
    (found_chunk object_path p (ge_read_chunk genv) (ge_order genv) fs' <$> seq 0 (k + m)) chunks.
Proof using Hdata Hsize ISALLaws0.
  clear Hk Hm Htime Hwidth. intros [Hinit Hcs Hcalc (dc & pc & He & ->) _ Hch _] Hkeep.
  destruct (erasure_encode_decode (k := k) (m := m) _ _ _ ctx data cs (replicate k (replicate cs 0)) Hinit Hdata)
    as (dc' & pc' & He' & Hlen & Hall & _);
    [lia|lia|done|apply length_replicate|apply Forall_replicate, length_replicate|].
  rewrite He in He'. apply (inj Val), (inj Some), pair_equal_spec in He' as [<- <-].
  apply Forall2_same_length_lookup_2; [by rewrite length_fmap, length_seq|].
  intros i o x Ho Hx. rewrite list_lookup_fmap in Ho.
  destruct (seq 0 (k + m) !! i) as [i'|] eqn:Hi; [|done]. apply lookup_seq in Hi as [-> Hi].
  injection Ho as <-. cbn [Nat.add]. unfold found_chunk. case_decide; [|by left].
  destruct (Hch i Hi) as (y & Hy & Hf). rewrite Hx in Hy. injection Hy as <-.
  destruct (Hkeep i Hi) as [E|E]; rewrite E; [|by left]. rewrite Hf.
  destruct (ge_read_chunk genv i); [right|by left]. rewrite str_bytes_bytes_str; [done|].
  rewrite Forall_forall in Hall. apply Hall. by eapply list_elem_of_lookup_2.
Qed.

Lemma get_coded_ok fs c chunks meta cs ctx i0 :
  coded_on_disk data fs chunks meta cs ctx →
  (∀ i, (i < k + m)%nat → n_fs (cl_node c) !! file i = fs !! file i ∨ n_fs (cl_node c) !! file i = None) →
  (∀ i, i ∈ ge_order genv → (i < k + m)%nat) →
  (let found := found_chunk object_path p (ge_read_chunk genv) (ge_order genv) (n_fs (cl_node c))
                  <$> seq 0 (k + m) in
   (lost found ≤ m)%nat ∧ ∀ i, found !! i = Some None → (i < k)%nat) →
  get_coded g_local genv bucket object object_path (xl_normal (with_index i0 meta)) (Some p)
    (disk_paths p) c = Val (GetOk data).
Proof using Hlocal Hwidth Hdata Hsize ISALLaws0.
  clear Hk Hm Htime. intros Hco Hkeep Hord [Hlost Hlow].
  pose proof (found_chunks _ _ _ _ _ _ Hco Hkeep) as Hfound.
  set (found := found_chunk _ _ _ _ _ <$> _) in *.
  destruct Hco as [Hinit Hcs Hcalc (dc & pc & He & ->) (M1 & M2 & M3 & M4 & _) _ _].
  destruct (init_ctx _ _ _ _ _ _ Hinit) as (Hk16 & Hm16 & _).
  unfold BUCKETS_EC_MAX_DATA, BUCKETS_EC_MAX_PARITY in Hk16, Hm16.
  assert (chunk_count (xl_normal (with_index i0 meta)) = (k + m)%nat) as Hcount.
  { unfold chunk_count. cbn [xl_normal with_index ec_data ec_parity]. rewrite M2, M3.
    unfold u32. rewrite wrap_small by (unfold in_range; lia). lia. }
  unfold get_coded. rewrite Hcount. cbn [xl_normal with_index ec_data ec_parity ec_blockSize stat_size].
  rewrite M1, M2, M3, M4, !Nat2Z.id, (proj2 (Nat.eqb_neq _ _)) by lia.
  rewrite (parallel_read_local g_local bucket object object_path p Hlocal (object_path_fits _ _)) by (done || lia).
  cbn [c_bind]. fold found.
  assert (length found = (k + m)%nat) as Hlen by (unfold found; by rewrite length_fmap, length_seq).
  pose proof (found_plus_lost found). rewrite (proj2 (Nat.ltb_ge _ _)), Hinit by lia.
  destruct (erasure_encode_decode (k := k) (m := m) _ _ _ ctx data cs (replicate k (replicate cs 0)) Hinit Hdata)
    as (dc' & pc' & He' & _ & _ & Hdec);
    [lia|lia|done|apply length_replicate|apply Forall_replicate, length_replicate|].
  rewrite He in He'. apply (inj Val), (inj Some), pair_equal_spec in He' as [<- <-].
  destruct (Hdec found (replicate (length data) 0) Hfound (length_replicate _ _)) as [_ Hok].
  destruct (Hok Hlost Hlow) as [ctx' ->]. done.
Qed.

(** When the system calls succeed, so does the write. *)
Lemma put_coded_succeeds disk st :
  buckets_ec_validate_config k m = true →
  Z.of_nat (length data) ≤ Z.of_nat k * BUCKETS_MAX_CHUNK_SIZE →
  pe_chunk_order env ≡ₚ seq 0 (k + m) → pe_meta_order env ≡ₚ seq 0 (k + m) →
  (∀ i x, Z.of_nat (length x) = buckets_calculate_chunk_size (Z.of_nat (length data)) k →
     write_works (pe_chunks env i) x) →
  (∀ i, (pe_metas env i).1 = write_env_ok) → (∀ j, is_Some (cJSON_Print j)) →
  ∃ st', put_coded g_local config env bucket object object_path disk data ct st = Val (0, st').
Proof.
  intros Hval Hmax Hco Hmo Hworks Hmetas Hprint. unfold put_coded. rewrite Hk, Hm, Hplace.
  destruct (buckets_ec_init (replicate (k * k) 0) (replicate (k * k) 0) (replicate (k + m) 0%nat) k m)
    as [ctx|] eqn:Hinit; [|by unfold buckets_ec_init in Hinit; rewrite Hval in Hinit].
  destruct (init_ctx _ _ _ _ _ _ Hinit) as (Hk16 & Hm16 & Ek & _).
  destruct (chunk_size_ok (Z.of_nat (length data)) k Hk16) as (Hcs & _ & Hfits); [lia|].
  unfold BUCKETS_EC_MAX_DATA, BUCKETS_EC_MAX_PARITY in Hk16, Hm16.
  rewrite !(proj2 (Nat.eqb_neq _ _)) by lia. cbn [orb].
  set (chunk_size := buckets_calculate_chunk_size _ _) in *.
  set (cs := Z.to_nat chunk_size). assert (chunk_size = Z.of_nat cs) as Ecs by lia.
  destruct (erasure_encode_decode (k := k) (m := m) _ _ _ ctx data cs (replicate k (replicate cs 0)) Hinit Hdata)
    as (dc & pc & He & Hlen & Hall & _);
    [lia|lia|by rewrite <- Ecs|apply length_replicate|apply Forall_replicate, length_replicate|].
  rewrite Ecs, He. cbn [c_bind]. rewrite (map_result_fmap _ _ _ compute_checksum_ok). cbn [c_bind].
  rewrite (proj2 (Nat.leb_le _ _)), (proj2 (Nat.ltb_ge _ _)), Hlocal by lia. cbn [c_bind].
  unfold buckets_batched_parallel_write_chunks. rewrite (proj2 (Nat.ltb_ge _ _)), Hlocal by lia.
  cbn [c_bind negb].
  destruct (parallel_write_succeeds g_local bucket object object_path p Hlocal (object_path_fits _ _) (pe_chunks env)
    (pe_chunk_order env) (dc ++ pc) (k + m) (st_cluster st)) as [c1 ->]; [lia|done|done|done| |].
  { intros i x Hx. apply Hworks. rewrite Forall_forall in Hall.
    destruct (Hall x) as [-> _]; [by eapply list_elem_of_lookup_2|done]. }
  cbn [c_bind fst snd]. change (0 =? 0) with true. cbv iota.
  match goal with |- context [buckets_parallel_write_metadata _ _ _ _ _ _ _ _ ?meta _ _ _] =>
    destruct (parallel_write_metadata_succeeds g_local bucket object object_path p Hlocal (object_path_fits _ _) (pe_metas env)
      (pe_meta_order env) meta (k + m) c1) as [c2 ->] end; [lia|done|done| |done|done|].
  { intros i Hi. apply coded_meta_wf; done || lia. }
  cbn [c_bind]. by eexists.
Qed.
End Coded.

(** ** Properties *)

(** The circumstances of a write over local disks: the configuration is [k]+[m], the set of
    the object has enough disks with distinct paths of at most 511 characters and no
    endpoints, asynchronous writes are not cut short, no thread is counted twice. *)
Record local_put (k m : nat) (config : storage_config) (p : placement_result) (env : put_env)
    (data : list Z) : Prop := LocalPut {
  lp_k : default_ec_k config = k;
  lp_m : default_ec_m config = m;
  lp_local : has_endpoints p = Val false;
  lp_disks : NoDup (disk_paths p);
  lp_short : Forall (λ d, strlen d ≤ 511)%nat (disk_paths p);
  lp_width : (k + m ≤ length (disk_paths p))%nat;
  lp_bytes : is_bytes data;
  lp_size : Z.of_nat (length data) ≤ 2 ^ 53;
  lp_placement : pe_placement env = Some p;
  lp_time : (strlen (pe_modTime env) ≤ 31)%nat;
  lp_order : NoDup (pe_chunk_order env);
  lp_meta_order : NoDup (pe_meta_order env);
  lp_full i x : Z.of_nat (length x) = buckets_calculate_chunk_size (Z.of_nat (length data)) k →
                full_write (pe_chunks env i) x
}.

(** What may happen between the write and the read: files of the object are lost, disks cannot
    be read, threads cannot be created; but one copy of the metadata can be read, and at most
    [m] chunks are missing, none of them a parity chunk. *)
Record readable (k m : nat) (object_path : string) (p : placement_result) (env : get_env)
    (fs fs' : fs_t) : Prop := Readable {
  rd_first : ge_first env = Some p;
  rd_second : ge_second env = Some p;
  rd_chunks i : (i < k + m)%nat → fs' !! chunk_file object_path p i = fs !! chunk_file object_path p i
                                  ∨ fs' !! chunk_file object_path p i = None;
  rd_metas i : (i < k + m)%nat → fs' !! meta_file object_path p i = fs !! meta_file object_path p i
                                 ∨ fs' !! meta_file object_path p i = None;
  rd_meta : ∃ i, (i < k + m)%nat ∧ is_Some (fs' !! meta_file object_path p i) ∧ ge_read_meta env i = true;
  rd_order i : i ∈ ge_order env → (i < k + m)%nat;
  rd_lost : let found := found_chunk object_path p (ge_read_chunk env) (ge_order env) fs'
                           <$> seq 0 (k + m) in
            (lost found ≤ m)%nat ∧ ∀ i, found !! i = Some None → (i < k)%nat
}.

(** C1: an object that was written is read back: when a write of a large object over local
    disks reports success, then whatever data chunks (at most [m]), copies of the metadata or
    threads are lost later, a read returns exactly the data; in any order of the threads of
    both. *)
Theorem object_put_get `{CJsonLaws} `{ISALLaws k m} `{RegistryOps} g_local config env genv bucket
    object p data ct st st' c :
  local_put k m config p env data → registry_quiet (k := k) (m := m) bucket object p →
  BUCKETS_INLINE_THRESHOLD ≤ Z.of_nat (length data) →
  buckets_put_object g_local config env bucket object data ct st = Val (0, st') →
  readable k m (buckets_compute_object_path bucket object PATH_MAX) p genv
    (n_fs (cl_node (st_cluster st'))) (n_fs (cl_node c)) →
  buckets_get_object g_local config genv bucket object c = Val (GetOk data).
Proof.
  intros [] Hquiet Hlarge Hput [Hf Hs Hch Hme (j & Hj & Hsj & Hrj) Hord Hlost].
  unfold buckets_put_object, buckets_should_inline_object in Hput.
  destruct (negb _) in Hput; [done|]. rewrite (proj2 (Z.ltb_ge _ _)) in Hput by done.
  eapply put_coded_stored in Hput as (chunks & meta & cs & ctx & Hco); [|eassumption..].
  assert (disk_paths p ≠ []) as Hne by (intros E; rewrite E in lp_width0; cbn in lp_width0; lia).
  unfold buckets_get_object. erewrite get_disks_placement by eassumption.
  rewrite lp_local0. cbn [c_bind].
  destruct (find_meta_some g_local bucket object p lp_short0 lp_width0 genv meta c) with (j := j) (n := j)
    (i := 0%nat) as [i' Hmeta]; [|done..|].
  { intros i Hi. destruct (Hme i Hi) as [E|E]; [right|by left].
    destruct (co_metas _ _ _ _ _ _ _ _ _ Hco i Hi) as (s & Es & Hjson). exists s. by rewrite E. }
  rewrite drop_0 in Hmeta. rewrite Hmeta. cbn [c_bind xl_normal with_index inline_data].
  destruct (co_meta _ _ _ _ _ _ _ _ _ Hco) as (_ & _ & _ & _ & ->).
  by eapply (get_coded_ok (k := k) (m := m)).
Qed.

Lemma mkdir_all_true ps : (mkdir_all (λ _, true) ps).1 = 0.
Proof. induction ps as [|q ps IH]; [done|]. cbn [mkdir_all]. by destruct (mkdir_all _ ps). Qed.

(** No system call fails: directories are made, the calls of every chunk write succeed for
    chunks of the size of this object, so do those of the metadata, all threads run. *)
Record calls_succeed (k m : nat) (env : put_env) (size : Z) : Prop := CallsSucceed {
  cl_mkdir : pe_mkdir env = λ _, true;
  cl_chunks i : syscalls_succeed (pe_chunks env i) (buckets_calculate_chunk_size size k);
  cl_metas i : (pe_metas env i).1 = write_env_ok;
  cl_order : pe_chunk_order env ≡ₚ seq 0 (k + m);
  cl_meta_order : pe_meta_order env ≡ₚ seq 0 (k + m)
}.

Lemma put_object_succeeds `{CJsonLaws} `{ISALLaws k m} `{RegistryOps} g_local config env bucket object p
    data ct st :
  local_put k m config p env data → calls_succeed k m env (Z.of_nat (length data)) →
  (∀ j, is_Some (cJSON_Print j)) → buckets_ec_validate_config k m = true →
  BUCKETS_INLINE_THRESHOLD ≤ Z.of_nat (length data) ≤ Z.of_nat k * BUCKETS_MAX_CHUNK_SIZE →
  ∃ st', buckets_put_object g_local config env bucket object data ct st = Val (0, st').
Proof.
  intros [] [] Hprint Hval [Hlarge Hmax]. unfold buckets_put_object, buckets_should_inline_object.
  unfold buckets_create_object_dir. rewrite cl_mkdir0, mkdir_all_true. cbn [Z.eqb negb].
  rewrite (proj2 (Z.ltb_ge _ _)) by done. eapply put_coded_succeeds; try done.
  intros i x Hx n disk op j. apply write_chunk_succeeds. by rewrite Hx.
Qed.

(** C32: a write succeeds when the system does: over local disks, with a valid configuration
    and an object of at most [k] times 512 MiB, a write whose system calls succeed reports
    success, in every order of its threads, with asynchronous and with blocking chunk
    writes, with and without group commit. *)
Theorem object_put_succeeds `{CJsonLaws} `{ISALLaws k m} `{RegistryOps} g_local config env bucket object
    p data ct st :
  local_put k m config p env data → calls_succeed k m env (Z.of_nat (length data)) →
  (∀ j, is_Some (cJSON_Print j)) → buckets_ec_validate_config k m = true →
  BUCKETS_INLINE_THRESHOLD ≤ Z.of_nat (length data) ≤ Z.of_nat k * BUCKETS_MAX_CHUNK_SIZE →
  ∃ st', buckets_put_object g_local config env bucket object data ct st = Val (0, st').
Proof. apply put_object_succeeds. Qed.

(** *** Objects inside their metadata *)

Lemma base_meta_wf bucket object size modTime ct inl :
  0 ≤ size ≤ 2 ^ 53 → (strlen modTime ≤ 31)%nat → xl_wf (base_meta bucket object size modTime ct inl).
Proof.
  intros Hs Ht. split; cbn [base_meta xl_version xl_format stat_size stat_modTime ec_algorithm ec_data
    ec_parity ec_blockSize ec_index ec_distribution ec_checksums user_meta versionId isLatest
    isDeleteMarker deleteMarkerVersionId default from_option id];
    [lia|unfold strlen; simpl; lia|lia|lia|unfold strlen; simpl; lia|lia|lia|lia|lia| | |constructor|auto].
  - by split.
  - by split.
Qed.

(** The copy on the disk of this node. With endpoints, replication before the answer may
    write the same file again; here it is off, or the task is queued. *)
Lemma put_inline_stored `{CJsonLaws} `{RegistryOps} g_local env bucket object object_path disk data ct
    st st' :
  pe_sync_replication env = false → (strlen (pe_modTime env) ≤ 31)%nat →
  Z.of_nat (length data) ≤ 2 ^ 53 →
  (∀ loc c, n_fs (cl_node (buckets_registry_record loc c).2) !! meta_path disk object_path
            = n_fs (cl_node c) !! meta_path disk object_path) →
  put_inline g_local env bucket object object_path disk data ct st = Val (0, st') →
  ∃ s, n_fs (cl_node (st_cluster st')) !! meta_path disk object_path = Some s ∧
    buckets_xl_meta_from_json (Some s)
      = Val (Some (xl_normal (base_meta bucket object (Z.of_nat (length data)) (pe_modTime env) ct
                                (Some (base64_encode data))))).
Proof.
  intros Hsync Ht Hs Hq. unfold put_inline. set (meta := base_meta _ _ _ _ _ _).
  assert (xl_wf meta) as Hwf by (apply base_meta_wf; lia || done).
  unfold write_meta. destruct (buckets_write_xl_meta _ _ _ _ _ _) as [[rc fss]|] eqn:Hw; [|done].
  cbn [c_bind fst snd]. apply write_xl_meta_file in Hw as [Hfile _]; [|done].
  destruct (Z.eqb_spec rc 0) as [->|Hne].
  2:{ intros Hret. apply (inj Val), pair_equal_spec in Hret as [-> _]. done. }
  destruct (Hfile eq_refl) as (s & Hf & Hjson). rewrite Hsync. intros Hput. exists s. split; [|done].
  set (c1 := with_node _ _) in Hput.
  assert (∃ pl, st_cluster st'
    = record_object_location bucket object (Z.of_nat (length data)) (pe_now env) pl c1) as [pl ->].
  { destruct (pe_placement env) as [p|].
    - destruct (has_endpoints p) as [e|]; [|done]. cbn [c_bind] in Hput.
      destruct (e && _); [destruct (pe_queue_ok env)|]; cbn [c_bind] in Hput;
        apply (inj Val), pair_equal_spec in Hput as [_ <-]; by eexists.
    - cbn [c_bind] in Hput. apply (inj Val), pair_equal_spec in Hput as [_ <-]. by eexists. }
  unfold record_object_location. destruct (strcmp_eq _ _); [done|]. by rewrite Hq.
Qed.

Lemma put_inline_succeeds `{CJsonLaws} `{RegistryOps} g_local env bucket object object_path disk p data
    ct st :
  (pe_meta env).1 = write_env_ok → (∀ j, is_Some (cJSON_Print j)) → (strlen (pe_modTime env) ≤ 31)%nat →
  Z.of_nat (length data) ≤ 2 ^ 53 → pe_placement env = Some p → has_endpoints p = Val false →
  ∃ st', put_inline g_local env bucket object object_path disk data ct st = Val (0, st').
Proof.
  intros Henv Hprint Ht Hs Hpl Hep. unfold put_inline, write_meta. set (meta := base_meta _ _ _ _ _ _).
  rewrite Henv, Hpl, Hep.
  destruct (write_xl_meta_succeeds (pe_meta env).2 (n_fs (cl_node (st_cluster st))) disk object_path meta)
    as [fss ->]; [apply base_meta_wf; lia || done|done|].
  cbn [c_bind fst snd andb Z.eqb]. by eexists.
Qed.


(** An inline object whose replication is queued is recorded in pool 0, set 0, whatever set
    it is in: the queue has taken the placement. *)
Lemma queued_inline_location `{CJsonLaws} `{RegistryOps} g_local env bucket object object_path disk p
    data ct st st' :
  pe_placement env = Some p → has_endpoints p = Val true → disk_paths p ≠ [] →
  pe_sync_replication env = false → pe_queue_ok env = true → bucket ≠ ".buckets-registry" →
  put_inline g_local env bucket object object_path disk data ct st = Val (0, st') →
  ∃ c, st_cluster st'
    = (buckets_registry_record (Location (Some bucket) (Some object) (Some "latest") 0 0 1
         (replicate BUCKETS_REGISTRY_MAX_DISKS 0) 1 (pe_now env) (Z.of_nat (length data))) c).2.
Proof.
  intros Hpl Hep Hd Hsync Hqueue Hb. unfold put_inline. rewrite Hpl, Hep, Hsync, Hqueue. cbn [c_bind].
  destruct (disk_paths p) as [|d ds]; [done|]. cbn [length Nat.ltb Nat.leb andb c_bind].
  destruct (write_meta _ _ _ _ _) as [[rc c]|]; [|done]. cbn [c_bind].
  destruct (Z.eqb_spec rc 0) as [_|Hne].
  2:{ intros Hret. apply (inj Val), pair_equal_spec in Hret as [-> _]. done. }
  intros Hput. apply (inj Val), pair_equal_spec in Hput as [_ <-]. exists c. cbn [st_cluster].
  unfold record_object_location, strcmp_eq. by rewrite bool_decide_eq_false_2.
Qed.

(** *** An example: 512 KiB over three disks *)

Import BitsCJson.

#[export] Instance no_peers : Peers := {|
  world := unit;
  buckets_binary_write_chunk _ _ _ _ _ _ _ := (-1, tt);
  buckets_binary_read_chunk _ _ _ _ _ _ := None;
  buckets_binary_batch_write_chunks _ _ _ := (-1, tt);
  buckets_distributed_write_xlmeta _ _ _ _ _ _ := (-1, tt);
  buckets_distributed_read_xlmeta _ _ _ _ _ := None;
  rpc_delete_chunk _ _ _ _ _ _ := (-1, tt)
|}.

#[export] Instance no_registry : RegistryOps := {|
  buckets_registry_record _ c := (0, c);
  buckets_registry_lookup _ _ _ := None;
  buckets_registry_delete _ _ c := (0, c)
|}.

Definition example_placement : placement_result :=
  PlacementResult 0 0 ["/d1"; "/d2"; "/d3"] ["u1"; "u2"; "u3"] [""; ""; ""] 1 SET_STATE_ACTIVE 0 0.

Definition example_config : storage_config := StorageConfig (Some "/data") 0 2 1 true.

Definition example_object : list Z := replicate (Z.to_nat 524288) 7.

Definition example_chunk_env : chunk_env :=
  ChunkEnv (UringDone 262144) BUCKETS_OK true (Some 5) 262144 (true, true) (λ _, Timeval 100 0) write_env_ok 7%N.

Definition example_put : put_env :=
  PutEnv (Some example_placement) [] "2024-01-01T00:00:00Z" 0 (λ _, true) (write_env_ok, 7%N)
    (λ _, example_chunk_env) [2; 0; 1]%nat (λ _, (write_env_ok, 7%N)) [1; 2; 0]%nat false false.

Definition example_get : get_env :=
  GetEnv (Some example_placement) (Some example_placement) [] (λ _, true) (λ _, true) [1; 0; 2]%nat.

Definition example_start : storage := Storage (Cluster _ (Node ∅ [] None ∅) tt) [].

#[local] Existing Instance isal_2_1.
#[local] Existing Instance isal_2_1_laws.

Lemma example_length : Z.of_nat (length example_object) = 524288.
Proof. unfold example_object. rewrite length_replicate. lia. Qed.

Lemma example_chunk_size : buckets_calculate_chunk_size 524288 2 = 262144.
Proof. reflexivity. Qed.

Lemma example_local_put : local_put 2 1 example_config example_placement example_put example_object.
Proof.
  split.
  - reflexivity.
  - reflexivity.
  - reflexivity.
  - cbn. repeat (constructor; [set_solver|]). constructor.
  - cbn. repeat (constructor; [cbn; lia|]). constructor.
  - cbn. lia.
  - apply Forall_replicate. unfold in_range. lia.
  - rewrite example_length. lia.
  - reflexivity.
  - cbn. lia.
  - cbn. repeat (constructor; [set_solver|]). constructor.
  - cbn. repeat (constructor; [set_solver|]). constructor.
  - intros i x. rewrite example_length, example_chunk_size. intros E. exact (eq_sym E).
Qed.

Lemma example_calls : calls_succeed 2 1 example_put (Z.of_nat (length example_object)).
Proof.
  split.
  - reflexivity.
  - intros i. rewrite example_length, example_chunk_size. split; [done..|by exists 5|done|done|done].
  - reflexivity.
  - cbn. by rewrite (Permutation_app_comm [2%nat] [0; 1]%nat).
  - cbn. by rewrite (Permutation_app_comm [1; 2]%nat [0]%nat).
Qed.

Lemma example_put_ok :
  ∃ st', buckets_put_object "" example_config example_put "b" "o" example_object None example_start
    = Val (0, st').
Proof.
  apply (put_object_succeeds (k := 2) (m := 1) _ _ _ _ _ example_placement).
  - apply example_local_put.
  - apply example_calls.
  - intros j. by eexists.
  - reflexivity.
  - rewrite example_length. unfold BUCKETS_INLINE_THRESHOLD, BUCKETS_MAX_CHUNK_SIZE. lia.
Qed.

Lemma object_put_succeeds_witness :
  ∃ st', buckets_put_object "" example_config example_put "b" "o" example_object None example_start
    = Val (0, st').
Proof.
  apply (object_put_succeeds (k := 2) (m := 1) "" example_config example_put "b" "o" example_placement).
  - apply example_local_put.
  - apply example_calls.
  - intros j. by eexists.
  - reflexivity.
  - rewrite example_length. unfold BUCKETS_INLINE_THRESHOLD, BUCKETS_MAX_CHUNK_SIZE. lia.
Defined.

Lemma example_quiet : registry_quiet (k := 2) (m := 1) "b" "o" example_placement.
Proof. intros loc c i _. done. Qed.

(** The first chunk is lost. *)
Definition example_after (st : storage) : cluster :=
  with_node (with_fs (delete (chunk_file (buckets_compute_object_path "b" "o" PATH_MAX) example_placement 0)
                        (n_fs (cl_node (st_cluster st)))) (cl_node (st_cluster st))) (st_cluster st).

Lemma example_order i : i ∈ ge_order example_get ↔ (i < 3)%nat.
Proof.
  change (ge_order example_get) with [1; 0; 2]%nat. rewrite !elem_of_cons, elem_of_nil. lia.
Qed.

Lemma example_readable data st :
  local_put 2 1 example_config example_placement example_put data →
  BUCKETS_INLINE_THRESHOLD ≤ Z.of_nat (length data) →
  buckets_put_object "" example_config example_put "b" "o" data None example_start = Val (0, st) →
  readable 2 1 (buckets_compute_object_path "b" "o" PATH_MAX) example_placement example_get
    (n_fs (cl_node (st_cluster st))) (n_fs (cl_node (example_after st))).
Proof.
  intros [] Hlarge Hput. unfold buckets_put_object, buckets_should_inline_object in Hput.
  destruct (negb _) in Hput; [done|]. rewrite (proj2 (Z.ltb_ge _ _)) in Hput by done.
  eapply put_coded_stored in Hput as (chunks & meta & cs & ctx & Hco); try eassumption;
    [|apply example_quiet].
  set (op := buckets_compute_object_path _ _ _) in *.
  pose proof (object_path_fits "b" "o") as Hop. fold op in Hop.
  assert (∀ i, (i < 3)%nat → i ≠ 0%nat → chunk_file op example_placement i ≠ chunk_file op example_placement 0)
    as Hne by (intros i Hi H0; apply chunk_file_ne; [done|lia..|done]).
  cbn [example_after with_node with_fs cl_node n_fs]. split.
  - reflexivity.
  - reflexivity.
  - intros i Hi. destruct (decide (i = 0%nat)) as [->|]; [right; apply lookup_delete_eq|left].
    apply lookup_delete_ne. apply not_eq_sym. by apply Hne.
  - intros i Hi. left. apply lookup_delete_ne. apply not_eq_sym. by apply meta_ne_chunk_file; [|lia].
  - exists 0%nat. split; [lia|]. split; [|done].
    rewrite lookup_delete_ne by (apply not_eq_sym; apply meta_ne_chunk_file; [done|lia]).
    destruct (co_metas _ _ _ _ _ _ _ _ _ Hco 0%nat ltac:(lia)) as (s & Hs & _). by exists s.
  - intros i. apply example_order.
  - assert (∀ i, (i < 3)%nat → i ≠ 0%nat → is_Some (found_chunk op example_placement (ge_read_chunk example_get)
      (ge_order example_get) (delete (chunk_file op example_placement 0) (n_fs (cl_node (st_cluster st)))) i)) as Hs.
    { intros i Hi H0. unfold found_chunk. rewrite decide_True.
      - rewrite lookup_delete_ne by (apply not_eq_sym; by apply Hne).
        destruct (co_chunks _ _ _ _ _ _ _ _ _ Hco i ltac:(lia)) as (x & _ & Hx).
        fold op in Hx. rewrite Hx. by eexists.
      - apply example_order. lia. }
    cbv zeta. change (seq 0 (2 + 1)) with [0; 1; 2]%nat. rewrite !fmap_cons.
    fold op.
    destruct (Hs 1%nat) as [y1 E1]; [lia..|]. destruct (Hs 2%nat) as [y2 E2]; [lia..|].
    rewrite E1, E2.
    assert (found_chunk op example_placement (ge_read_chunk example_get) (ge_order example_get)
      (delete (chunk_file op example_placement 0) (n_fs (cl_node (st_cluster st)))) 0 = None) as ->.
    { unfold found_chunk. case_decide; [|done]. by rewrite lookup_delete_eq. }
    split; [apply (le_n 1)|]. intros [|[|[|i]]]; cbn; try done; lia.
Qed.

Lemma object_put_get_witness :
  ∃ st, buckets_put_object "" example_config example_put "b" "o" example_object None example_start
          = Val (0, st) ∧
    buckets_get_object "" example_config example_get "b" "o" (example_after st) = Val (GetOk example_object).
Proof.
  destruct example_put_ok as [st Hput]. exists st. split; [exact Hput|].
  apply (object_put_get (k := 2) (m := 1) "" example_config example_put example_get "b" "o" example_placement
    example_object None example_start st (example_after st)).
  - apply example_local_put.
  - apply example_quiet.
  - rewrite example_length. unfold BUCKETS_INLINE_THRESHOLD. lia.
  - exact Hput.
  - apply (example_readable example_object).
    + apply example_local_put.
    + rewrite example_length. unfold BUCKETS_INLINE_THRESHOLD. lia.
    + exact Hput.
Defined.

(** A small object on the same disks; the copies on the other disks are not needed. *)
Lemma example_inline_ok :
  ∃ st, buckets_put_object "" example_config example_put "b" "o" [72; 105] None example_start = Val (0, st).
Proof.
  unfold buckets_put_object, buckets_create_object_dir. cbn [example_put pe_mkdir]. rewrite mkdir_all_true.
  cbn [Z.eqb negb length]. change (buckets_should_inline_object (Z.of_nat 2)) with true. cbv iota.
  apply (put_inline_succeeds _ _ _ _ _ _ example_placement).
  - reflexivity.
  - intros j. by eexists.
  - apply Nat.leb_le. reflexivity.
  - cbn [length]. lia.
  - reflexivity.
  - reflexivity.
Qed.

