(* ===== verification/MetadataCache.v ===== *)
(** * Metadata cache (src/src/storage/metadata_cache.c)

    The LRU cache of object metadata, over the structure of HashLru.v. The clock
    ([time(NULL)]) is an argument. *)

From S2P Require Import Prelude CInt CString XXHash LinkedList XlMeta HashLru.

Local Open Scope c_scope.

(** ** Cloning metadata *)

(** An array of [data + parity] elements is cloned when that count is not zero. *)
Definition clone_array {A} (m : xl_meta) (arr : option (list A)) : option (list A) :=
  match arr with
  | None => None
  | Some l =>
      let count := u32 (ec_data m + ec_parity m) in
      if 0 <? count then Some (take (Z.to_nat count) l) else None
  end.

Definition clone_xl_meta (src : xl_meta) : xl_meta :=
  {| xl_version := xl_version src; xl_format := xl_format src;
     xl_bucket := None; xl_object := None;
     stat_size := stat_size src; stat_modTime := stat_modTime src;
     ec_algorithm := ec_algorithm src; ec_data := ec_data src; ec_parity := ec_parity src;
     ec_blockSize := ec_blockSize src; ec_index := ec_index src;
     ec_distribution := clone_array src (ec_distribution src);
     ec_checksums := clone_array src (ec_checksums src);
     content_type := content_type src; etag := etag src;
     cache_control := None; content_disposition := None; content_encoding := None;
     content_language := None; expires := None; user_meta := [];
     versionId := versionId src; isLatest := isLatest src;
     isDeleteMarker := isDeleteMarker src; deleteMarkerVersionId := None;
     inline_data := inline_data src |}.

(** ** The cache *)

(** The heap and the cache that [g_metadata_cache] points to. *)
Abbreviation heap_t := (gmap addr (cache_entry xl_meta)).
Abbreviation cache_state := (heap_t * hash_lru)%type.

Definition create_cache_key (bucket object : string) (version : option string) : string :=
  match version with
  | Some v => snprintf PATH_MAX (bucket +:+ "/" +:+ object +:+ "/" +:+ v)
  | None => snprintf PATH_MAX (bucket +:+ "/" +:+ object)
  end.

(** *** The operations *)

Definition CACHE_SIZE : Z := 10000.
Definition CACHE_TTL_SECONDS : Z := 300.

Definition buckets_metadata_cache_init (g : option cache_state) (max ttl : Z)
    : option cache_state :=
  match g with
  | Some s => Some s
  | None =>
      let max := if 0 <? max then max else CACHE_SIZE in
      let ttl := if 0 <? ttl then ttl else CACHE_TTL_SECONDS in
      Some (∅, HashLru (replicate (Z.to_nat max) None) None None 0 max ttl 0 0 0)
  end.

(** The first locked section of [get]: the search. A hit gives the address of the entry
    and the clone; the entry is touched in a second locked section. *)
Inductive lookup_result :=
  | Miss
  | Hit (entry : addr) (clone : xl_meta).

Definition cache_lookup (s : cache_state) (key : string) (now : Z) : c_result lookup_result :=
  let slot := cache_key_hash key (table_size s.2) in
  let* found := search_chain s slot (key_is key) in
  match found with
  | None => Val Miss
  | Some (_, a) =>
      let* e := load s.1 a in
      if (0 <? ttl_seconds s.2) && (ttl_seconds s.2 <? now - ce_time e) then Val Miss
      else Val (Hit a (clone_xl_meta (ce_value e)))
  end.

(** The second locked section of a hit. *)
Definition cache_touch (s : cache_state) (entry : addr) (now : Z) : c_result cache_state :=
  let* s1 := lru_touch s entry in
  let* h := store s1.1 entry (with_time now) in
  Val (h, s1.2).

(** The whole call when no other thread comes between its two sections; [now1] and
    [now2] are its clock readings. *)
Definition buckets_metadata_cache_get (g : option cache_state)
    (bucket object : option string) (version : option string) (now1 now2 : Z)
    : c_result (Z * option xl_meta * option cache_state) :=
  match g, bucket, object with
  | Some s, Some bucket, Some object =>
      let key := create_cache_key bucket object version in
      let* r := cache_lookup s key now1 in
      match r with
      | Miss =>
          let c := s.2 in
          Val (-1, None,
               Some (s.1, with_stats (hits c) (add64 (misses c) 1) (evictions c) c))
      | Hit a clone =>
          let* s1 := cache_touch s a now2 in
          let c := s1.2 in
          Val (0, Some clone,
               Some (s1.1, with_stats (add64 (hits c) 1) (misses c) (evictions c) c))
      end
  | _, _, _ => Val (-1, None, g)
  end.

Section Put.
Context (malloc : heap_t → addr).

Definition cache_put (s : cache_state) (key : string) (m : xl_meta) (now : Z)
    : c_result cache_state :=
  let slot := cache_key_hash key (table_size s.2) in
  let* found := search_chain s slot (key_is key) in
  match found with
  | Some (_, a) =>
      let* h1 := store s.1 a (with_value (clone_xl_meta m)) in
      let* h2 := store h1 a (with_time now) in
      lru_touch (h2, s.2) a
  | None =>
      cache_add malloc s slot key (clone_xl_meta m) now
  end.

Definition buckets_metadata_cache_put (g : option cache_state)
    (bucket object : option string) (version : option string) (meta : option xl_meta) (now : Z)
    : c_result (Z * option cache_state) :=
  match g, bucket, object, meta with
  | Some s, Some bucket, Some object, Some m =>
      let* s1 := cache_put s (create_cache_key bucket object version) m now in
      Val (0, Some s1)
  | _, _, _, _ => Val (-1, g)
  end.
End Put.

Definition buckets_metadata_cache_invalidate (g : option cache_state)
    (bucket object : option string) (version : option string)
    : c_result (Z * option cache_state) :=
  match g, bucket, object with
  | Some s, Some bucket, Some object =>
      let* r := cache_invalidate s (create_cache_key bucket object version) in
      Val (r.1, Some r.2)
  | _, _, _ => Val (-1, g)
  end.

Definition buckets_metadata_cache_stats (g : option cache_state) : Z * Z * Z * Z :=
  match g with
  | None => (0, 0, 0, 0)
  | Some (_, c) => (hits c, misses c, evictions c, count c)
  end.

(** What is left allocated, and the pointer set to NULL. *)
Definition buckets_metadata_cache_cleanup (g : option cache_state)
    : c_result (heap_t * option cache_state) :=
  match g with
  | None => Val (∅, None)
  | Some (h, c) => let* h1 := free_table h (hash_table c) in Val (h1, None)
  end.
