(* ===== verification/MetadataCacheLru.v ===== *)
(** * The metadata cache implements an LRU map

    Every sequence of calls of MetadataCache.v gives the answers of a list of (key, metadata,
    timestamp) triples, most recently used first, and never follows a dangling link. *)

From S2P Require Import Prelude CInt CString XXHash LinkedList XlMeta HashLru HashLruRep MetadataCache.

Local Open Scope c_scope.

(** ** The specification *)

Abbreviation binding := (string * xl_meta * Z)%type.

(** A hit moves the binding to the front and restarts its life time. *)
Definition lru_get (ttl : Z) (k : string) (now1 now2 : Z) (S : lru xl_meta) : option xl_meta * lru xl_meta :=
  match assoc k (bindings S) with
  | Some (m, t) =>
      if (0 <? ttl) && (ttl <? now1 - t)
      then (None, Lru (bindings S) (n_hits S) (n_misses S + 1) (n_evictions S))
      else (Some (clone_xl_meta m),
            Lru ((k, m, now2) :: others k (bindings S)) (n_hits S + 1) (n_misses S) (n_evictions S))
  | None => (None, Lru (bindings S) (n_hits S) (n_misses S + 1) (n_evictions S))
  end.

(** *** Lookup and touch *)

Lemma cache_touch_rep h c l chs a e now :
  cache_rep h c l chs → a ∈ l → h !! a = Some e →
  ∃ h' c' l', cache_touch (h, c) a now = Val (h', c') ∧ cache_rep h' c' l' chs ∧
    abs h' l' = (ce_key e, ce_value e, now) :: others (ce_key e) (abs h l) ∧
    ∃ t, c' = with_tail t (with_head (Some a) c).
Proof.
  intros Hr Ha He. destruct (lru_touch_rep _ _ _ _ _ Hr Ha) as (h1 & t & Ht & Hs & Hr1).
  destruct (same_content_lookup _ _ _ _ (same_core_content _ _ Hs) He) as (e1 & He1 & Hk).
  unfold cache_touch. rewrite Ht. cbn [c_bind fst snd]. rewrite store_Val by eauto. cbn [c_bind].
  eexists _, _, (a :: rm a l). split; [done|]. split; [by apply rep_alter|].
  split; [|by eexists]. rewrite (abs_front h _ l a e (with_time now e1)).
  - unfold content in *. simpl. congruence.
  - apply (rep_keys _ _ _ _ Hr).
  - done.
  - by rewrite lookup_alter_eq, He1.
  - intros b Hb. rewrite lookup_alter_ne by done. by apply same_core_content.
Qed.

(** *** Update *)

Lemma cache_put_hit malloc h c l chs a e ch m now :
  cache_rep h c l chs → a ∈ l → h !! a = Some e →
  search_chain (h, c) (cache_key_hash (ce_key e) (table_size c)) (key_is (ce_key e))
    = Val (Some (prev_in ch a, a)) →
  ∃ h' c' l', cache_put malloc (h, c) (ce_key e) m now = Val (h', c') ∧ cache_rep h' c' l' chs ∧
    abs h' l' = (ce_key e, clone_xl_meta m, now) :: others (ce_key e) (abs h l) ∧
    ∃ t, c' = with_tail t (with_head (Some a) c).
Proof.
  intros Hr Ha He Hsearch. unfold cache_put. cbn [fst snd]. rewrite Hsearch. cbn [c_bind].
  rewrite store_Val by eauto. cbn [c_bind]. rewrite store_Val by (apply alter_is_Some; eauto).
  cbn [c_bind].
  destruct (lru_touch_rep _ _ _ _ _ (rep_update _ _ _ _ a (clone_xl_meta m) now Hr) Ha)
    as (h1 & t & Ht & Hs & Hr3).
  eexists _, _, _. split; [done|]. split; [done|]. split; [|by eexists].
  by apply (abs_update h c _ l chs).
Qed.

(** ** Refinement *)

(** The global cache represents the specification state [S]. *)
Definition represents (max ttl : Z) (g : option cache_state) (S : lru xl_meta) : Prop :=
  ∃ s, g = Some s ∧ represented max ttl s S.

(** Calls of the interface, with the clock readings they make, and their answers. *)
Inductive cache_call :=
  | CGet (bucket object : string) (version : option string) (now1 now2 : Z)
  | CPut (bucket object : string) (version : option string) (meta : xl_meta) (now : Z)
  | CInvalidate (bucket object : string) (version : option string)
  | CStats.

Inductive cache_answer :=
  | AGet (ret : Z) (meta : option xl_meta)
  | APut (ret : Z)
  | AInvalidate (ret : Z)
  | AStats (hits misses evictions count : Z).

Definition cache_step (malloc : heap_t → addr) (g : option cache_state) (call : cache_call)
    : c_result (cache_answer * option cache_state) :=
  match call with
  | CGet b o v now1 now2 =>
      let* r := buckets_metadata_cache_get g (Some b) (Some o) v now1 now2 in
      Val (AGet r.1.1 r.1.2, r.2)
  | CPut b o v m now =>
      let* r := buckets_metadata_cache_put malloc g (Some b) (Some o) v (Some m) now in
      Val (APut r.1, r.2)
  | CInvalidate b o v =>
      let* r := buckets_metadata_cache_invalidate g (Some b) (Some o) v in
      Val (AInvalidate r.1, r.2)
  | CStats =>
      let '(h, m, e, n) := buckets_metadata_cache_stats g in Val (AStats h m e n, g)
  end.

Fixpoint cache_run (malloc : heap_t → addr) (g : option cache_state) (calls : list cache_call)
    : c_result (list cache_answer * option cache_state) :=
  match calls with
  | [] => Val ([], g)
  | call :: calls =>
      let* r := cache_step malloc g call in
      let* rs := cache_run malloc r.2 calls in
      Val (r.1 :: rs.1, rs.2)
  end.

Definition spec_step (max ttl : Z) (S : lru xl_meta) (call : cache_call) : cache_answer * lru xl_meta :=
  match call with
  | CGet b o v now1 now2 =>
      let (m, S') := lru_get ttl (create_cache_key b o v) now1 now2 S in
      (AGet (if m then 0 else -1) m, S')
  | CPut b o v m now => (APut 0, lru_put max (create_cache_key b o v) (clone_xl_meta m) now S)
  | CInvalidate b o v =>
      let (r, S') := lru_invalidate (create_cache_key b o v) S in (AInvalidate r, S')
  | CStats =>
      (AStats (u64 (n_hits S)) (u64 (n_misses S)) (u64 (n_evictions S))
         (Z.of_nat (length (bindings S))), S)
  end.

Fixpoint spec_run (max ttl : Z) (S : lru xl_meta) (calls : list cache_call) : list cache_answer * lru xl_meta :=
  match calls with
  | [] => ([], S)
  | call :: calls =>
      let (r, S1) := spec_step max ttl S call in
      let (rs, S2) := spec_run max ttl S1 calls in
      (r :: rs, S2)
  end.

Lemma get_refines max ttl g S b o v now1 now2 :
  represents max ttl g S →
  ∃ g', buckets_metadata_cache_get g (Some b) (Some o) v now1 now2 =
    Val (if (lru_get ttl (create_cache_key b o v) now1 now2 S).1 then 0 else -1,
         (lru_get ttl (create_cache_key b o v) now1 now2 S).1, g') ∧
    represents max ttl g' (lru_get ttl (create_cache_key b o v) now1 now2 S).2.
Proof.
  intros ([h c] & -> & l & chs & Hr & Hb & Hh & Hm & He & Hmax & Httl). cbn [fst snd] in *.
  unfold buckets_metadata_cache_get, lru_get, cache_lookup. set (k := create_cache_key b o v).
  cbn [fst snd]. rewrite <-Hb, Httl.
  destruct (search_key_spec _ _ _ _ k Hr)
    as [(-> & _ & ->)|(a & e & ch & -> & Hch & Hach & Ha & Hae & Hk & ->)]; cbn [c_bind].
  { eexists. split; [done|]. eexists. split; [done|]. exists l, chs.
    split; [by apply rep_stats|]. simpl. by rewrite Hm, u64_succ. }
  rewrite (load_Val _ _ _ Hae). cbn [c_bind].
  destruct ((0 <? ttl) && (ttl <? now1 - ce_time e)) eqn:Hexp; cbn [c_bind].
  { eexists. split; [done|]. eexists. split; [done|]. exists l, chs.
    split; [by apply rep_stats|]. simpl. by rewrite Hm, u64_succ. }
  destruct (cache_touch_rep _ _ _ _ a e now2 Hr Ha Hae) as (h' & c' & l' & -> & Hr' & Habs & t & ->).
  cbn [c_bind]. eexists. split; [done|]. eexists. split; [done|]. exists l', chs.
  split; [by apply rep_stats|]. simpl in *. rewrite Hh, u64_succ. subst k. by rewrite <-Hk.
Qed.

Lemma put_refines malloc max ttl g S b o v m now :
  (∀ h : heap_t, h !! malloc h = None) → represents max ttl g S →
  ∃ g', buckets_metadata_cache_put malloc g (Some b) (Some o) v (Some m) now = Val (0, g') ∧
    represents max ttl g' (lru_put max (create_cache_key b o v) (clone_xl_meta m) now S).
Proof.
  intros Hfresh (s & -> & HR). unfold buckets_metadata_cache_put.
  set (k := create_cache_key b o v). pose proof HR as (l & chs & Hr & Hb & Hst). destruct s as [h c].
  cbn [fst snd] in *.
  destruct (search_key_spec _ _ _ _ k Hr)
    as [(Hs & Hno & _)|(a & e & ch & Hs & Hch & Hach & Ha & Hae & Hk & Has)].
  - unfold cache_put. cbn [fst snd]. rewrite Hs. cbn [c_bind].
    destruct (add_represented malloc _ _ _ _ k (clone_xl_meta m) now Hfresh HR Hs) as (s' & Hadd & HR').
    cbn [fst snd] in Hadd. rewrite Hadd. cbn [c_bind]. eexists. split; [done|]. by exists s'.
  - unfold lru_put. rewrite <-Hb, Has. rewrite <-Hk in *.
    destruct (cache_put_hit malloc h c l chs a e ch m now Hr Ha Hae Hs)
      as (h' & c' & l' & -> & Hr' & Habs & t & ->).
    cbn [c_bind]. eexists. split; [done|]. eexists. split; [done|]. by exists l', chs.
Qed.

Lemma invalidate_refines max ttl g S b o v :
  represents max ttl g S →
  ∃ g', buckets_metadata_cache_invalidate g (Some b) (Some o) v =
    Val ((lru_invalidate (create_cache_key b o v) S).1, g') ∧
    represents max ttl g' (lru_invalidate (create_cache_key b o v) S).2.
Proof.
  intros (s & -> & HR). unfold buckets_metadata_cache_invalidate.
  destruct (invalidate_represented _ _ _ _ (create_cache_key b o v) HR) as (s' & -> & HR').
  cbn [c_bind]. eexists. split; [done|]. by exists s'.
Qed.

Lemma step_refines malloc max ttl g S call :
  (∀ h : heap_t, h !! malloc h = None) → represents max ttl g S →
  ∃ g', cache_step malloc g call = Val ((spec_step max ttl S call).1, g') ∧
    represents max ttl g' (spec_step max ttl S call).2.
Proof.
  intros Hfresh HR. destruct call as [b o v now1 now2|b o v m now|b o v|]; simpl.
  - destruct (get_refines _ _ _ _ b o v now1 now2 HR) as (g' & -> & HR').
    destruct (lru_get _ _ _ _ _); simpl in *; eauto.
  - destruct (put_refines malloc _ _ _ _ b o v m now Hfresh HR) as (g' & -> & HR'). simpl. eauto.
  - destruct (invalidate_refines _ _ _ _ b o v HR) as (g' & -> & HR').
    destruct (lru_invalidate _ _); simpl in *; eauto.
  - destruct HR as ([h c] & -> & l & chs & Hr & Hb & Hh & Hm & He & Hst). simpl in *.
    rewrite Hh, Hm, He, (rep_count _ _ _ _ Hr), <-Hb, abs_length by (intros; by eapply rep_in).
    eexists. split; [done|]. eexists. split; [done|]. by exists l, chs.
Qed.

Lemma run_refines malloc max ttl calls g S :
  (∀ h : heap_t, h !! malloc h = None) → represents max ttl g S →
  ∃ g', cache_run malloc g calls = Val ((spec_run max ttl S calls).1, g') ∧
    represents max ttl g' (spec_run max ttl S calls).2.
Proof.
  intros Hfresh. revert g S. induction calls as [|call calls IH]; intros g S HR; simpl; [by eauto|].
  destruct (step_refines malloc _ _ _ _ call Hfresh HR) as (g1 & -> & HR1). cbn [c_bind fst snd].
  destruct (spec_step max ttl S call) as [r S1]. simpl in *.
  destruct (IH g1 S1 HR1) as (g2 & -> & HR2). simpl.
  destruct (spec_run max ttl S1 calls) as [rs S2]. simpl in *. eauto.
Qed.

(** The configuration that [init] stores. *)
Definition max_of (max : Z) : Z := if 0 <? max then max else CACHE_SIZE.
Definition ttl_of (ttl : Z) : Z := if 0 <? ttl then ttl else CACHE_TTL_SECONDS.

Lemma init_represents max ttl :
  max < 2 ^ 32 →
  represents (max_of max) (ttl_of ttl) (buckets_metadata_cache_init None max ttl) lru_empty.
Proof.
  intros Hmax. unfold buckets_metadata_cache_init. fold (max_of max) (ttl_of ttl).
  assert (0 < max_of max < 2 ^ 32) as Hw.
  { unfold max_of, CACHE_SIZE. destruct (Z.ltb_spec 0 max); lia. }
  eexists. split; [done|]. apply empty_represented; lia.
Qed.

(** *** What stays in the cache *)

(** [k] is bound to [m], at most [d] bindings in front of it. *)
Definition held (k : string) (m : xl_meta) (lo : Z) (d : nat) (L : list binding) : Prop :=
  ∃ L1 L2 t, L = L1 ++ (k, m, t) :: L2 ∧ (length L1 ≤ d)%nat ∧ lo ≤ t ∧
    ∀ x, x ∈ L1 → x.1.1 ≠ k.

Lemma held_assoc k m lo d L : held k m lo d L → ∃ t, assoc k L = Some (m, t) ∧ lo ≤ t.
Proof.
  intros (L1 & L2 & t & -> & _ & Ht & Hno). exists t. split; [|done]. clear Ht.
  induction L1 as [|[[k' m'] t'] L1 IH]; simpl; [by rewrite decide_True|].
  rewrite decide_False; [apply IH; set_solver|]. apply (Hno (k', m', t')). set_solver.
Qed.

Lemma held_weaken k m lo d d' L : (d ≤ d')%nat → held k m lo d L → held k m lo d' L.
Proof. intros Hd (L1 & L2 & t & -> & Hl & Ht & Hno). exists L1, L2, t. split_and!; try done. lia. Qed.

Lemma held_cons k m lo d x L : x.1.1 ≠ k → held k m lo d L → held k m lo (S d) (x :: L).
Proof.
  intros Hx (L1 & L2 & t & -> & Hl & Ht & Hno). exists (x :: L1), L2, t.
  split_and!; [done|simpl; lia|done|]. intros y [->|Hy]%elem_of_cons; auto.
Qed.

Lemma held_others k m lo d k' L : k' ≠ k → held k m lo d L → held k m lo d (others k' L).
Proof.
  intros Hk (L1 & L2 & t & -> & Hl & Ht & Hno). unfold others.
  rewrite filter_app, filter_cons_True by (simpl; congruence).
  eexists (filter _ L1), _, t. split; [done|]. split_and!; [|done|].
  - etrans; [apply length_filter|done].
  - intros x [_ Hx]%list_elem_of_filter. auto.
Qed.

Lemma held_take k m lo d n L : (d < n)%nat → held k m lo d L → held k m lo d (take n L).
Proof.
  intros Hn (L1 & L2 & t & -> & Hl & Ht & Hno). exists L1, (take (pred (n - length L1)) L2), t.
  split_and!; try done. rewrite take_app, take_ge by lia. f_equal.
  destruct (n - length L1)%nat eqn:E; [lia|done].
Qed.

(** A call that neither rebinds nor invalidates [k], its clock readings not before [lo]. *)
Definition spares (k : string) (lo : Z) (call : cache_call) : Prop :=
  match call with
  | CGet b o v _ now2 => lo ≤ now2
  | CPut b o v _ _ => create_cache_key b o v ≠ k
  | CInvalidate b o v => create_cache_key b o v ≠ k
  | CStats => True
  end.

Lemma spec_step_held max ttl k m lo d call S :
  Z.of_nat d + 1 < max → spares k lo call → held k m lo d (bindings S) →
  held k m lo (d + 1) (bindings (spec_step max ttl S call).2).
Proof.
  intros Hd Hs Hh. rewrite Nat.add_1_r. assert (held k m lo (Datatypes.S d) (bindings S)) as Hh'.
  { eapply held_weaken; [|done]. lia. }
  destruct call as [b o v now1 now2|b o v m' now|b o v|]; cbn [spec_step]; [| | |done].
  - unfold lru_get. destruct (assoc _ _) as [[m1 t1]|] eqn:Ha; [|done].
    destruct (_ && _); [done|]. simpl.
    destruct (decide (create_cache_key b o v = k)) as [E|E].
    + subst k. destruct (held_assoc _ _ _ _ _ Hh) as (t & Ht & _). simplify_eq.
      eexists [], _, now2. split_and!; [done|simpl; lia|done|].
      intros x []%elem_of_nil.
    + apply held_cons; [done|]. by apply held_others.
  - simpl. unfold lru_put. destruct (assoc _ _) as [[m1 t1]|]; simpl in *.
    + apply held_cons; [done|]. by apply held_others.
    + destruct (Z.leb_spec max (Z.of_nat (length (bindings S)))); simpl; apply held_cons; try done.
      apply held_take; [lia|done].
  - unfold lru_invalidate. destruct (assoc _ _) as [[m1 t1]|]; simpl; [|done].
    by apply held_others.
Qed.

Lemma spec_run_held max ttl k m lo calls d S :
  Z.of_nat (d + length calls) < max → Forall (spares k lo) calls → held k m lo d (bindings S) →
  held k m lo (d + length calls) (bindings (spec_run max ttl S calls).2).
Proof.
  revert d S. induction calls as [|call calls IH]; intros d S Hd Hs Hh; simpl in *.
  - by rewrite Nat.add_0_r.
  - apply Forall_cons in Hs as [Hs1 Hs2].
    pose proof (spec_step_held max ttl k m lo d call S ltac:(lia) Hs1 Hh) as H1.
    destruct (spec_step max ttl S call) as [r S1]. simpl in H1.
    replace (d + Datatypes.S (length calls))%nat with (d + 1 + length calls)%nat in * by lia.
    specialize (IH (d + 1)%nat S1 Hd Hs2 H1). by destruct (spec_run max ttl S1 calls).
Qed.

Lemma spec_run_app max ttl S calls1 calls2 :
  spec_run max ttl S (calls1 ++ calls2) =
    let S1 := (spec_run max ttl S calls1).2 in
    ((spec_run max ttl S calls1).1 ++ (spec_run max ttl S1 calls2).1,
     (spec_run max ttl S1 calls2).2).
Proof.
  revert S. induction calls1 as [|call calls1 IH]; intros S; simpl.
  - by destruct (spec_run max ttl S calls2).
  - destruct (spec_step max ttl S call) as [r S1]. rewrite IH. simpl.
    by destruct (spec_run max ttl S1 calls1).
Qed.

Lemma lru_put_held max k m now S :
  held k m now 0 (bindings (lru_put max k m now S)).
Proof.
  unfold lru_put. destruct (assoc _ _); [|destruct (_ <=? _)]; eexists [], _, now;
    (split_and!; [done|simpl; lia|done|intros x []%elem_of_nil]).
Qed.

Lemma clone_array_idem {A} m (arr : option (list A)) :
  clone_array (clone_xl_meta m) (clone_array m arr) = clone_array m arr.
Proof.
  destruct arr as [l|]; [|done]. simpl. destruct (0 <? u32 (ec_data m + ec_parity m)) eqn:E; [|done].
  simpl. rewrite E. by rewrite take_take, Nat.min_id.
Qed.

Lemma clone_idem m : clone_xl_meta (clone_xl_meta m) = clone_xl_meta m.
Proof.
  unfold clone_xl_meta at 1.
  change (ec_distribution (clone_xl_meta m)) with (clone_array m (ec_distribution m)).
  change (ec_checksums (clone_xl_meta m)) with (clone_array m (ec_checksums m)).
  by rewrite !clone_array_idem.
Qed.

(** *** Releasing everything *)

Lemma cleanup_represented max ttl g S :
  represents max ttl g S → buckets_metadata_cache_cleanup g = Val (∅, None).
Proof.
  intros ([h c] & -> & l & chs & Hr & _). unfold buckets_metadata_cache_cleanup.
  cbn [fst snd] in *. by rewrite (free_table_rep _ _ _ _ Hr).
Qed.

(** ** Properties *)

Section Properties.
Context (malloc : heap_t → addr).

(** C6: every sequence of get, put, invalidate and stats calls on a cache made by init with a
    life time of at least a second runs without following a dangling or missing link, gives
    exactly the answers of the LRU specification (hit with the stored metadata, miss when
    absent or older than the life time, least recently used binding pushed out of a full
    cache), and ends in a heap that represents the specification's bindings, of which there
    are never more than the configured maximum. A life time of 0 is not covered: see
    [metadata_cache_zero_ttl_expires]. *)
Theorem metadata_cache_refines_lru max ttl calls :
  (∀ h : heap_t, h !! malloc h = None) → max < 2 ^ 32 → 0 < ttl < 2 ^ 32 →
  ∃ g', cache_run malloc (buckets_metadata_cache_init None max ttl) calls =
          Val ((spec_run (max_of max) ttl lru_empty calls).1, g') ∧
    represents (max_of max) ttl g' (spec_run (max_of max) ttl lru_empty calls).2 ∧
    Z.of_nat (length (bindings (spec_run (max_of max) ttl lru_empty calls).2)) ≤ max_of max.
Proof using Type.
  intros Hfresh Hmax Httl. pose proof (init_represents max ttl Hmax) as Hinit.
  assert (ttl_of ttl = ttl) as Et by (unfold ttl_of; by rewrite (proj2 (Z.ltb_lt _ _)) by lia). rewrite Et in Hinit.
  destruct (run_refines malloc (max_of max) ttl calls _ _ Hfresh Hinit)
    as (g' & Hrun & HR). exists g'. split_and!; [done|done|].
  destruct HR as (s & _ & l & chs & Hr & <- & _ & _ & _ & <- & _).
  rewrite abs_length by (intros; by eapply rep_in). apply Hr.
Qed.

(** What is put is found: metadata put under a key is returned by a get of that key
    after any calls that do not put or invalidate the same key, as long as there are
    fewer of them than the cache has room for and the entry's life time has not run
    out at the get. *)
Theorem metadata_cache_retains max ttl before b o v m now between now1 now2 :
  (∀ h : heap_t, h !! malloc h = None) → max < 2 ^ 32 →
  Z.of_nat (length between) < max_of max →
  Forall (spares (create_cache_key b o v) now) between → now1 - now ≤ ttl_of ttl →
  ∃ answers g',
    cache_run malloc (buckets_metadata_cache_init None max ttl)
      (before ++ CPut b o v m now :: between ++ [CGet b o v now1 now2]) = Val (answers, g') ∧
    last answers = Some (AGet 0 (Some (clone_xl_meta m))).
Proof using Type.
  intros Hfresh Hmax Hlen Hsp Httl.
  destruct (run_refines malloc (max_of max) (ttl_of ttl)
    (before ++ CPut b o v m now :: between ++ [CGet b o v now1 now2])
    _ _ Hfresh (init_represents max ttl Hmax)) as (g' & Hrun & _).
  eexists _, g'. split; [done|].
  change (CPut b o v m now :: between ++ [CGet b o v now1 now2])
    with ([CPut b o v m now] ++ between ++ [CGet b o v now1 now2]). rewrite !app_assoc.
  rewrite spec_run_app. cbn [fst]. rewrite last_app.
  set (S1 := (spec_run _ _ lru_empty _).2).
  assert (held (create_cache_key b o v) (clone_xl_meta m) now (length between) (bindings S1)) as Hh.
  { unfold S1. rewrite !spec_run_app. cbn [snd].
    apply (spec_run_held _ _ _ _ _ _ 0); [simpl; lia|done|]. apply lru_put_held. }
  destruct (held_assoc _ _ _ _ _ Hh) as (t & Ha & Ht). simpl. unfold lru_get. rewrite Ha.
  assert ((0 <? ttl_of ttl) && (ttl_of ttl <? now1 - t) = false) as ->.
  { rewrite andb_false_iff, !Z.ltb_ge. lia. }
  simpl. by rewrite clone_idem.
Qed.

(** After any sequence of calls, cleanup walks every chain, frees every entry exactly
    once and leaves nothing allocated. *)
Theorem metadata_cache_cleanup_frees_all max ttl calls :
  (∀ h : heap_t, h !! malloc h = None) → max < 2 ^ 32 →
  ∃ answers g', cache_run malloc (buckets_metadata_cache_init None max ttl) calls = Val (answers, g') ∧
    buckets_metadata_cache_cleanup g' = Val (∅, None).
Proof using Type.
  intros Hfresh Hmax.
  destruct (run_refines malloc (max_of max) (ttl_of ttl) calls _ _ Hfresh (init_represents max ttl Hmax))
    as (g' & Hrun & HR). eexists _, g'. split; [done|]. by eapply cleanup_represented.
Qed.
End Properties.

(** An entry that is not in the heap cannot be touched. *)
Lemma touch_freed h c l chs a now :
  cache_rep h c l chs → h !! a = None → cache_touch (h, c) a now = Undef.
Proof.
  intros Hr Ha. unfold cache_touch, lru_touch. cbn [snd]. rewrite decide_False.
  - unfold lru_remove, load. by rewrite Ha.
  - rewrite (rep_head _ _ _ _ Hr). intros Hh. destruct l as [|x l]; simplify_eq/=.
    assert (is_Some (h !! a)) as [? ?] by (apply (rep_dom _ _ _ _ Hr); set_solver). congruence.
Qed.

(** A get that hits releases the read lock before it takes the write lock; when an
    invalidation of the same key runs in between, the second section works on freed
    memory. *)
Theorem metadata_cache_get_race h c l chs k now1 now2 a m s' :
  cache_rep h c l chs → cache_lookup (h, c) k now1 = Val (Hit a m) →
  cache_invalidate (h, c) k = Val (0, s') → cache_touch s' a now2 = Undef.
Proof.
  intros Hr Hl Hi. unfold cache_lookup in Hl. cbn [fst snd] in Hl.
  destruct (search_key_spec _ _ _ _ k Hr)
    as [(Hs & _ & _)|(a' & e & ch & Hs & Hch & Hach & Ha & Hae & Hk & Has)];
    rewrite Hs in Hl; cbn [c_bind] in Hl; [done|].
  rewrite (load_Val _ _ _ Hae) in Hl. cbn [c_bind] in Hl. destruct (_ && _); simplify_eq/=.
  destruct (cache_invalidate_rep _ _ _ _ (ce_key e) Hr)
    as [(Hi' & _)|(h' & c' & l' & chs' & x & Hi' & Hr' & _ & _ & _ & _ & _ & _ & _ & Hfreed)];
    [congruence|].
  rewrite Hi in Hi'. simplify_eq. eapply touch_freed; [done|]. by eapply Hfreed.
Qed.

(** ** Instances *)

(** An allocator. *)
Definition fresh_addr (h : heap_t) : addr := fresh (dom h : gset addr).

Lemma fresh_addr_ok h : h !! fresh_addr h = None.
Proof. apply (not_elem_of_dom (D := gset addr)). unfold fresh_addr. apply is_fresh. Qed.

Definition demo_meta (n : Z) : xl_meta :=
  {| xl_version := 1; xl_format := "xl"; xl_bucket := Some "b"; xl_object := Some "o";
     stat_size := n; stat_modTime := ""; ec_algorithm := "ReedSolomon";
     ec_data := 2; ec_parity := 1; ec_blockSize := 1024; ec_index := 1;
     ec_distribution := Some [1; 2; 3]; ec_checksums := None;
     content_type := None; etag := Some "e"; cache_control := None;
     content_disposition := None; content_encoding := None; content_language := None;
     expires := None; user_meta := []; versionId := None; isLatest := true;
     isDeleteMarker := false; deleteMarkerVersionId := None; inline_data := None |}.

Definition demo_calls : list cache_call :=
  [CPut "b" "x" None (demo_meta 1) 100; CPut "b" "y" None (demo_meta 2) 101;
   CGet "b" "x" None 102 103; CPut "b" "z" None (demo_meta 3) 104;
   CGet "b" "y" None 105 106; CInvalidate "b" "x" None; CStats].

Lemma metadata_cache_refines_lru_witness :
  ∃ g', cache_run fresh_addr (buckets_metadata_cache_init None 2 60) demo_calls =
          Val ([APut 0; APut 0; AGet 0 (Some (clone_xl_meta (demo_meta 1))); APut 0;
                AGet (-1) None; AInvalidate 0; AStats 1 1 1 1], g').
Proof.
  destruct (metadata_cache_refines_lru fresh_addr 2 60 demo_calls fresh_addr_ok ltac:(lia) ltac:(lia))
    as (g' & Hrun & _).
  exists g'. rewrite Hrun. vm_compute. reflexivity.
Defined.

(** The life time 0, which the comment of init calls "no expiration", is replaced by the
    default: an entry is forgotten after 300 seconds. *)
Lemma metadata_cache_zero_ttl_expires :
  ∃ g', cache_run fresh_addr (buckets_metadata_cache_init None 2 0)
          [CPut "b" "x" None (demo_meta 1) 100; CGet "b" "x" None 400 400; CGet "b" "x" None 701 701] =
        Val ([APut 0; AGet 0 (Some (clone_xl_meta (demo_meta 1))); AGet (-1) None], g').
Proof. eexists. vm_compute. reflexivity. Qed.

Lemma metadata_cache_retains_witness :
  ∃ answers g',
    cache_run fresh_addr (buckets_metadata_cache_init None 2 60)
      ([] ++ CPut "b" "x" None (demo_meta 1) 100
         :: [CPut "b" "y" None (demo_meta 2) 101] ++ [CGet "b" "x" None 110 111])
      = Val (answers, g') ∧
    last answers = Some (AGet 0 (Some (clone_xl_meta (demo_meta 1)))).
Proof.
  apply (metadata_cache_retains fresh_addr 2 60 [] "b" "x" None (demo_meta 1) 100
           [CPut "b" "y" None (demo_meta 2) 101] 110 111 fresh_addr_ok).
  - lia.
  - vm_compute. reflexivity.
  - apply Forall_singleton. vm_compute. discriminate.
  - vm_compute. discriminate.
Defined.

Lemma metadata_cache_cleanup_frees_all_witness :
  ∃ answers g', cache_run fresh_addr (buckets_metadata_cache_init None 2 60) demo_calls
                  = Val (answers, g') ∧
    buckets_metadata_cache_cleanup g' = Val (∅, None).
Proof. apply (metadata_cache_cleanup_frees_all fresh_addr 2 60 _ fresh_addr_ok). lia. Defined.

(** A cache with one slot and one entry. *)
Definition demo_entry : cache_entry xl_meta :=
  CacheEntry "b/x" (demo_meta 1) 100 None None None.
Definition demo_cache : hash_lru :=
  HashLru [Some 1%positive] (Some 1%positive) (Some 1%positive) 1 1 60 0 0 0.

Lemma demo_rep : cache_rep {[ 1%positive := demo_entry ]} demo_cache [1%positive] [[1%positive]].
Proof.
  assert (∀ k, cache_key_hash k 1 = 0%nat) as Hslot.
  { intros k. unfold cache_key_hash. by rewrite Z.mod_1_r. }
  split; try done.
  - apply NoDup_singleton.
  - intros a. rewrite lookup_singleton_is_Some. set_solver.
  - intros a e [<- <-]%lookup_singleton_Some. done.
  - split; [done| | |].
    + intros a e [<- <-]%lookup_singleton_Some _. exists [1%positive]. unfold slot_of. cbn [length].
      rewrite Hslot. split_and!; [done|set_solver|done].
    + intros [|i] ch a Hi Ha; simplify_eq/=. apply list_elem_of_singleton in Ha as ->.
      split; [done|]. exists demo_entry. unfold slot_of. by rewrite Hslot.
    + intros [|i] ch Hi; simplify_eq/=. apply NoDup_singleton.
  - intros a b e e' [<- _]%lookup_singleton_Some [<- _]%lookup_singleton_Some. done.
  - cbn. lia.
Qed.

Lemma metadata_cache_get_race_witness :
  cache_touch (∅, HashLru [None] None None 0 1 60 0 0 0) 1%positive 120 = Undef.
Proof.
  apply (metadata_cache_get_race {[ 1%positive := demo_entry ]} demo_cache [1%positive]
           [[1%positive]] "b/x" 110 120 1%positive (clone_xl_meta (demo_meta 1))).
  - exact demo_rep.
  - vm_compute. reflexivity.
  - vm_compute. reflexivity.
Defined.

(** A version of an object and an object whose name ends in it share a cache key. *)
Lemma cache_key_ambiguous b o v :
  create_cache_key b (o +:+ "/" +:+ v) None = create_cache_key b o (Some v).
Proof. unfold create_cache_key. reflexivity. Qed.

(** The clone is not a deep copy: names, most headers and user metadata are left out. *)
Lemma clone_drops_fields m :
  xl_bucket (clone_xl_meta m) = None ∧ xl_object (clone_xl_meta m) = None ∧
  content_encoding (clone_xl_meta m) = None ∧ user_meta (clone_xl_meta m) = [].
Proof. done. Qed.
