(* ===== verification/TaskQueue.v ===== *)
(** * Migration tasks and their queue (src/src/migration/worker.c, include/buckets_migration.h)

    The bounded circular queue between the submitter and the workers. A call that the
    code blocks on a condition variable is an operation that is not enabled ([None]);
    what it does once it has the lock and its condition holds is the result. *)

From S2P Require Import Prelude CInt CString.

Local Open Scope c_scope.

(** ** Tasks ([buckets_migration_task_t]) *)

Record migration_task := Task {
  t_bucket : string;
  t_object : string;
  t_version_id : string;
  old_pool_idx : Z;
  old_set_idx : Z;
  new_pool_idx : Z;
  new_set_idx : Z;
  t_size : Z;
  mod_time : Z;
  retry_count : Z;
  last_attempt : Z
}.

#[export] Instance migration_task_eq_dec : EqDecision migration_task.
Proof. solve_decision. Defined.

(** What [calloc] leaves in an array of tasks. *)
Definition zero_task : migration_task := Task "" "" "" 0 0 0 0 0 0 0 0.

(** ** The queue *)

Record task_queue := TaskQueue {
  tasks : list migration_task;
  q_capacity : nat;
  q_count : nat;
  q_head : nat;
  q_tail : nat;
  q_shutdown : bool
}.

Definition task_queue_init (cap : nat) : task_queue :=
  {| tasks := replicate cap zero_task; q_capacity := cap;
     q_count := 0; q_head := 0; q_tail := 0; q_shutdown := false |}.

(** [None]: waits on [not_full]. *)
Definition task_queue_push (q : task_queue) (t : migration_task)
    : option (c_result (buckets_error_t * task_queue)) :=
  if (q_capacity q <=? q_count q)%nat && negb (q_shutdown q) then None
  else if q_shutdown q then Some (Val (BUCKETS_ERR_INVALID_ARG, q))
  else Some (
    let* _ := c_read (tasks q) (q_tail q) in
    Val (BUCKETS_OK,
         {| tasks := <[q_tail q := t]> (tasks q);
            q_capacity := q_capacity q;
            q_count := q_count q + 1;
            q_head := q_head q;
            q_tail := (q_tail q + 1) mod q_capacity q;
            q_shutdown := q_shutdown q |})).

(** [None]: waits on [not_empty]; [Val (None, _)]: the queue is shut down and empty. *)
Definition task_queue_pop (q : task_queue)
    : option (c_result (option migration_task * task_queue)) :=
  if (q_count q =? 0)%nat && negb (q_shutdown q) then None
  else if (q_count q =? 0)%nat && q_shutdown q then Some (Val (None, q))
  else Some (
    let* t := c_read (tasks q) (q_head q) in
    Val (Some t,
         {| tasks := tasks q;
            q_capacity := q_capacity q;
            q_count := q_count q - 1;
            q_head := (q_head q + 1) mod q_capacity q;
            q_tail := q_tail q;
            q_shutdown := q_shutdown q |})).

Definition task_queue_shutdown (q : task_queue) : task_queue :=
  {| tasks := tasks q; q_capacity := q_capacity q; q_count := q_count q;
     q_head := q_head q; q_tail := q_tail q; q_shutdown := true |}.

(** ** The queue is a bounded first-in first-out list *)

(** The queue holds the tasks [l], in order. *)
Record queue_rep (q : task_queue) (l : list migration_task) : Prop := QueueRep {
  qr_array : length (tasks q) = q_capacity q;
  qr_pos : (0 < q_capacity q)%nat;
  qr_head : (q_head q < q_capacity q)%nat;
  qr_tail : q_tail q = ((q_head q + q_count q) mod q_capacity q)%nat;
  qr_count : q_count q = length l;
  qr_bound : (length l ≤ q_capacity q)%nat;
  qr_slot i t : l !! i = Some t → tasks q !! ((q_head q + i) mod q_capacity q)%nat = Some t
}.

Lemma init_rep cap : (0 < cap)%nat → queue_rep (task_queue_init cap) [].
Proof.
  intros. split; simpl; try done; try lia.
  - apply length_replicate.
  - by rewrite Nat.mod_small.
Qed.

Lemma mod_add_inj a i j n :
  (0 < n)%nat → (i < n)%nat → (j < n)%nat → ((a + i) mod n = (a + j) mod n)%nat → i = j.
Proof.
  intros Hn Hi Hj E.
  pose proof (Nat.div_mod (a + i) n ltac:(lia)). pose proof (Nat.div_mod (a + j) n ltac:(lia)).
  rewrite E in *. destruct (Nat.eq_dec ((a + i) / n)%nat ((a + j) / n)%nat) as [Hd|Hd]; [|nia].
  rewrite Hd in *. lia.
Qed.

Lemma push_rep q l t :
  queue_rep q l → q_shutdown q = false → (length l < q_capacity q)%nat →
  ∃ q', task_queue_push q t = Some (Val (BUCKETS_OK, q')) ∧ queue_rep q' (l ++ [t]) ∧
    q_capacity q' = q_capacity q ∧ q_shutdown q' = false.
Proof.
  intros [Ha Hp Hh Ht Hc Hb Hs] Hsd Hlt. unfold task_queue_push.
  rewrite (proj2 (Nat.leb_gt _ _)) by lia. simpl. rewrite Hsd.
  assert (q_tail q < q_capacity q)%nat as Htl by (rewrite Ht; apply Nat.mod_upper_bound; lia).
  destruct (lookup_lt_is_Some_2 (tasks q) (q_tail q)) as [x Hx]; [lia|].
  unfold c_read. rewrite Hx. simpl. eexists. split; [done|]. split; [split|]; simpl; try done.
  - by rewrite length_insert.
  - rewrite Ht, Nat.Div0.add_mod_idemp_l. f_equal. lia.
  - rewrite length_app. simpl. lia.
  - rewrite length_app. simpl. lia.
  - intros i u [Hi|[Hi Hu]]%lookup_app_Some.
    + pose proof (lookup_lt_Some _ _ _ Hi). rewrite list_lookup_insert_ne; [auto|].
      rewrite Ht, Hc. intros E. apply mod_add_inj in E; lia.
    + apply list_lookup_singleton_Some in Hu as [Hi0 ->].
      assert (i = q_count q) as -> by lia. rewrite <-Ht. apply list_lookup_insert_eq. lia.
Qed.

Lemma pop_rep q t l :
  queue_rep q (t :: l) →
  ∃ q', task_queue_pop q = Some (Val (Some t, q')) ∧ queue_rep q' l ∧
    q_capacity q' = q_capacity q ∧ q_shutdown q' = q_shutdown q.
Proof.
  intros [Ha Hp Hh Ht Hc Hb Hs]. unfold task_queue_pop. rewrite Hc. simpl.
  pose proof (Hs 0%nat t eq_refl) as H0. rewrite Nat.add_0_r, Nat.mod_small in H0 by done.
  unfold c_read. rewrite H0. simpl. eexists. split; [done|]. split; [split|]; simpl in *; try done.
  - apply Nat.mod_upper_bound. lia.
  - rewrite Ht, Hc, Nat.Div0.add_mod_idemp_l. f_equal. lia.
  - lia.
  - lia.
  - intros i u Hi. rewrite Nat.Div0.add_mod_idemp_l.
    replace (q_head q + 1 + i)%nat with (q_head q + S i)%nat by lia. by apply Hs.
Qed.

Lemma shutdown_rep q l : queue_rep q l → queue_rep (task_queue_shutdown q) l.
Proof. intros []. by split. Qed.

(** The operations of a queue as it is used, whoever calls them. *)
Inductive queue_op :=
  | QPush (t : migration_task)
  | QPop
  | QShutdown.

Inductive queue_answer :=
  | Pushed (r : buckets_error_t)
  | Popped_task (t : option migration_task)
  | Shut.

Definition queue_step (q : task_queue) (op : queue_op)
    : option (c_result (queue_answer * task_queue)) :=
  match op with
  | QPush t => option_map (λ r, let* x := r in Val (Pushed x.1, x.2)) (task_queue_push q t)
  | QPop => option_map (λ r, let* x := r in Val (Popped_task x.1, x.2)) (task_queue_pop q)
  | QShutdown => Some (Val (Shut, task_queue_shutdown q))
  end.

(** The specification: a list of at most [cap] tasks and a flag. *)
Definition fifo_step (cap : nat) (s : list migration_task * bool) (op : queue_op)
    : option (queue_answer * (list migration_task * bool)) :=
  match op, s with
  | QPush t, (l, true) => Some (Pushed BUCKETS_ERR_INVALID_ARG, s)
  | QPush t, (l, false) =>
      if decide (length l < cap)%nat then Some (Pushed BUCKETS_OK, (l ++ [t], false)) else None
  | QPop, (t :: l, b) => Some (Popped_task (Some t), (l, b))
  | QPop, ([], true) => Some (Popped_task None, s)
  | QPop, ([], false) => None
  | QShutdown, (l, _) => Some (Shut, (l, true))
  end.

Lemma queue_step_refines cap q l op :
  queue_rep q l → q_capacity q = cap →
  match fifo_step cap (l, q_shutdown q) op with
  | None => queue_step q op = None
  | Some (r, (l', b')) =>
      ∃ q', queue_step q op = Some (Val (r, q')) ∧ queue_rep q' l' ∧
        q_capacity q' = cap ∧ q_shutdown q' = b'
  end.
Proof.
  intros Hr Hcap. destruct op as [t| |]; simpl.
  - destruct (q_shutdown q) eqn:Hs.
    + exists q. unfold task_queue_push. rewrite Hs, andb_false_r. done.
    + case_decide as Hlt.
      * destruct (push_rep q l t Hr Hs) as (q' & -> & ?); [lia|]. simpl. naive_solver.
      * unfold task_queue_push. rewrite Hs, (qr_count _ _ Hr).
        rewrite (proj2 (Nat.leb_le _ _)) by lia. done.
  - destruct l as [|t l].
    + unfold task_queue_pop. rewrite (qr_count _ _ Hr). simpl.
      destruct (q_shutdown q) eqn:Hs; simpl; [|done]. by exists q.
    + destruct (pop_rep q t l Hr) as (q' & -> & ?). simpl. naive_solver.
  - eexists. split; [done|]. split; [by apply shutdown_rep|done].
Qed.

Fixpoint queue_run (q : task_queue) (ops : list queue_op)
    : option (c_result (list queue_answer * task_queue)) :=
  match ops with
  | [] => Some (Val ([], q))
  | op :: ops =>
      match queue_step q op with
      | None => None
      | Some Undef => Some Undef
      | Some (Val (r, q)) =>
          option_map (λ x, let* y := x in Val (r :: y.1, y.2)) (queue_run q ops)
      end
  end.

Fixpoint fifo_run (cap : nat) (s : list migration_task * bool) (ops : list queue_op)
    : option (list queue_answer * (list migration_task * bool)) :=
  match ops with
  | [] => Some ([], s)
  | op :: ops =>
      match fifo_step cap s op with
      | None => None
      | Some (r, s) => option_map (λ x, (r :: x.1, x.2)) (fifo_run cap s ops)
      end
  end.

Lemma queue_run_refines cap ops q l :
  queue_rep q l → q_capacity q = cap →
  match fifo_run cap (l, q_shutdown q) ops with
  | None => queue_run q ops = None
  | Some (rs, (l', b')) =>
      ∃ q', queue_run q ops = Some (Val (rs, q')) ∧ queue_rep q' l' ∧ q_shutdown q' = b'
  end.
Proof.
  revert q l. induction ops as [|op ops IH]; intros q l Hr Hcap; simpl; [by exists q|].
  pose proof (queue_step_refines cap q l op Hr Hcap) as Hstep.
  destruct (fifo_step cap (l, q_shutdown q) op) as [[r [l' b']]|]; [|by rewrite Hstep].
  destruct Hstep as (q' & -> & Hr' & Hcap' & <-). specialize (IH q' l' Hr' Hcap').
  destruct (fifo_run cap (l', q_shutdown q') ops) as [[rs [l2 b2]]|]; simpl; [|by rewrite IH].
  destruct IH as (q2 & -> & ?). simpl. naive_solver.
Qed.

(** The circular task queue is a bounded first-in first-out list: any sequence of
    push, pop and shutdown calls, from whichever threads, blocks exactly where the list
    is full (push) or empty (pop), gives the tasks back in submission order, refuses
    pushes after a shutdown while still handing out what is queued, and never indexes
    its array out of bounds. *)
Theorem task_queue_refines_fifo cap ops :
  (0 < cap)%nat →
  match fifo_run cap ([], false) ops with
  | None => queue_run (task_queue_init cap) ops = None
  | Some (rs, (l, b)) =>
      ∃ q, queue_run (task_queue_init cap) ops = Some (Val (rs, q)) ∧ queue_rep q l ∧
        q_shutdown q = b
  end.
Proof.
  intros Hcap. apply (queue_run_refines cap ops (task_queue_init cap) []); [|done].
  by apply init_rep.
Qed.

Definition demo_task (n : Z) : migration_task := Task "b" "o" "" 0 0 0 1 n 0 0 0.

Lemma task_queue_refines_fifo_witness :
  ∃ q, queue_run (task_queue_init 2)
         [QPush (demo_task 1); QPush (demo_task 2); QPop; QPush (demo_task 3); QShutdown;
          QPush (demo_task 4); QPop; QPop; QPop] =
       Some (Val ([Pushed BUCKETS_OK; Pushed BUCKETS_OK; Popped_task (Some (demo_task 1));
                   Pushed BUCKETS_OK; Shut; Pushed BUCKETS_ERR_INVALID_ARG;
                   Popped_task (Some (demo_task 2)); Popped_task (Some (demo_task 3));
                   Popped_task None], q)) ∧ queue_rep q [] ∧ q_shutdown q = true.
Proof.
  apply (task_queue_refines_fifo 2
    [QPush (demo_task 1); QPush (demo_task 2); QPop; QPush (demo_task 3); QShutdown;
     QPush (demo_task 4); QPop; QPop; QPop]). lia.
Defined.
