(* ===== verification/WorkerPool.v ===== *)
(** * Migration worker pool (src/src/migration/worker.c)

    The threads that move objects. A thread is its program counter; a step of a thread is
    one section under the queue lock or the statistics lock, with the thread-local code
    that follows it. Reading and writing objects are placeholders in the source that check
    the topology only, and are modelled as such. *)

From S2P Require Import Prelude CInt CString Topology TaskQueue.

Local Open Scope c_scope.

Definition DEFAULT_NUM_WORKERS : nat := 16.
Definition MAX_RETRY_ATTEMPTS : nat := 3.
Definition INITIAL_RETRY_DELAY_MS : Z := 100.
Definition MAX_RETRY_DELAY_MS : Z := 5000.
Definition QUEUE_CAPACITY : nat := Z.to_nat 10000.

(** Where a worker is: before [task_queue_pop], between the pop and the increment of
    [active_workers], before the outcome is counted, before the decrement, or gone. *)
Inductive worker_pc :=
  | W_Pop
  | W_Popped (t : migration_task)
  | W_Exec (t : migration_task)
  | W_Done
  | W_Exited.

Record worker_pool := WorkerPool {
  num_workers : nat;
  threads : list worker_pc;
  queue : task_queue;
  old_topology : buckets_cluster_topology;
  new_topology : buckets_cluster_topology;
  disk_paths : list string;
  tasks_completed : Z;
  tasks_failed : Z;
  bytes_migrated : Z;
  active_workers : Z;
  start_time : Z;
  running : bool
}.

(** *** Field updates *)

Definition with_thread (i : nat) (pc : worker_pc) (p : worker_pool) : worker_pool :=
  WorkerPool (num_workers p) (<[i := pc]> (threads p)) (queue p) (old_topology p)
    (new_topology p) (disk_paths p) (tasks_completed p) (tasks_failed p) (bytes_migrated p)
    (active_workers p) (start_time p) (running p).
Definition with_queue (q : task_queue) (p : worker_pool) : worker_pool :=
  WorkerPool (num_workers p) (threads p) q (old_topology p)
    (new_topology p) (disk_paths p) (tasks_completed p) (tasks_failed p) (bytes_migrated p)
    (active_workers p) (start_time p) (running p).
Definition with_counts (completed failed bytes active : Z) (p : worker_pool) : worker_pool :=
  WorkerPool (num_workers p) (threads p) (queue p) (old_topology p)
    (new_topology p) (disk_paths p) completed failed bytes active (start_time p) (running p).
Definition with_running (ths : list worker_pc) (start : Z) (run : bool) (p : worker_pool)
    : worker_pool :=
  WorkerPool (num_workers p) ths (queue p) (old_topology p)
    (new_topology p) (disk_paths p) (tasks_completed p) (tasks_failed p) (bytes_migrated p)
    (active_workers p) start run.

(** ** Moving one object *)

(** [topology->pools[p].sets[s]]. *)
Definition c_set (t : buckets_cluster_topology) (p s : Z) : c_result buckets_set_topology :=
  if (p <? 0) || (s <? 0) then Undef
  else let* pool := c_read (pools t) (Z.to_nat p) in c_read (sets pool) (Z.to_nat s).

(** The size that is read, or the error. *)
Definition read_source_object (p : worker_pool) (t : migration_task)
    : c_result (buckets_error_t * Z) :=
  let* set := c_set (old_topology p) (old_pool_idx t) (old_set_idx t) in
  match disks set with
  | [] => Val (BUCKETS_ERR_INVALID_ARG, 0)
  | _ => Val (BUCKETS_OK, t_size t)
  end.

Definition write_destination_object (p : worker_pool) (t : migration_task) (size : Z)
    : c_result buckets_error_t :=
  let* set := c_set (new_topology p) (new_pool_idx t) (new_set_idx t) in
  match disks set with
  | [] => Val BUCKETS_ERR_INVALID_ARG
  | _ => Val BUCKETS_OK
  end.

Definition update_registry (p : worker_pool) (t : migration_task) : buckets_error_t := BUCKETS_OK.

Definition delete_source_object (p : worker_pool) (t : migration_task)
    : c_result buckets_error_t :=
  let* _ := c_set (old_topology p) (old_pool_idx t) (old_set_idx t) in Val BUCKETS_OK.

Definition execute_migration (p : worker_pool) (t : migration_task)
    : c_result (buckets_error_t * worker_pool) :=
  let* r := read_source_object p t in
  match r with
  | (BUCKETS_OK, size) =>
      let* w := write_destination_object p t size in
      match w with
      | BUCKETS_OK =>
          match update_registry p t with
          | BUCKETS_OK =>
              let* _ := delete_source_object p t in
              let* completed := i64c (tasks_completed p + 1) in
              let* bytes := i64c (bytes_migrated p + t_size t) in
              Val (BUCKETS_OK, with_counts completed (tasks_failed p) bytes (active_workers p) p)
          | err => Val (err, p)
          end
      | err => Val (err, p)
      end
  | (err, _) => Val (err, p)
  end.

Definition with_retry_count (n : Z) (t : migration_task) : migration_task :=
  Task (t_bucket t) (t_object t) (t_version_id t) (old_pool_idx t) (old_set_idx t)
    (new_pool_idx t) (new_set_idx t) (t_size t) (mod_time t) n (last_attempt t).

(** The attempts that are left; the delays slept between them, in milliseconds. *)
Fixpoint retry_loop (n : nat) (p : worker_pool) (t : migration_task) (attempts delay_ms : Z)
    : c_result (buckets_error_t * worker_pool * list Z) :=
  match n with
  | O =>
      let* failed := i64c (tasks_failed p + 1) in
      Val (BUCKETS_ERR_IO,
           with_counts (tasks_completed p) failed (bytes_migrated p) (active_workers p) p, [])
  | S n =>
      let* r := execute_migration p t in
      match r with
      | (BUCKETS_OK, p) => Val (BUCKETS_OK, p, [])
      | (_, p) =>
          let attempts := attempts + 1 in
          let t := with_retry_count attempts t in
          match n with
          | O => retry_loop n p t attempts delay_ms
          | S _ =>
              let* r := retry_loop n p t attempts (Z.min (delay_ms * 2) MAX_RETRY_DELAY_MS) in
              Val (r.1.1, r.1.2, delay_ms :: r.2)
          end
      end
  end.

Definition execute_migration_with_retry (p : worker_pool) (t : migration_task)
    : c_result (buckets_error_t * worker_pool * list Z) :=
  retry_loop MAX_RETRY_ATTEMPTS p t 0 INITIAL_RETRY_DELAY_MS.

(** ** A step of worker [i]

    [None]: it waits or is gone. The outcome of a task is reported when it is counted. *)

Abbreviation outcome := (migration_task * bool)%type.

Definition worker_step (p : worker_pool) (i : nat) : option (c_result (option outcome * worker_pool)) :=
  match threads p !! i with
  | Some W_Pop =>
      match task_queue_pop (queue p) with
      | None => None
      | Some r => Some (
          let* x := r in
          match x with
          | (Some t, q) => Val (None, with_thread i (W_Popped t) (with_queue q p))
          | (None, q) => Val (None, with_thread i W_Exited (with_queue q p))
          end)
      end
  | Some (W_Popped t) => Some (
      let* active := i64c (active_workers p + 1) in
      Val (None, with_thread i (W_Exec t)
                   (with_counts (tasks_completed p) (tasks_failed p) (bytes_migrated p) active p)))
  | Some (W_Exec t) => Some (
      let* r := execute_migration_with_retry p t in
      Val (Some (t, bool_decide (r.1.1 = BUCKETS_OK)), with_thread i W_Done r.1.2))
  | Some W_Done => Some (
      let* active := i64c (active_workers p - 1) in
      Val (None, with_thread i W_Pop
                   (with_counts (tasks_completed p) (tasks_failed p) (bytes_migrated p) active p)))
  | Some W_Exited | None => None
  end.

(** ** The interface *)

Definition buckets_worker_pool_create (workers : Z) (old new : option buckets_cluster_topology)
    (paths : option (list string)) (now : Z) : option worker_pool :=
  match old, new, paths with
  | Some old, Some new, Some (path :: rest) =>
      let n := if workers <=? 0 then DEFAULT_NUM_WORKERS else Z.to_nat workers in
      Some (WorkerPool n [] (task_queue_init QUEUE_CAPACITY) old new (path :: rest)
              0 0 0 0 now false)
  | _, _, _ => None
  end.

(** Threads are created until one cannot be; [created] is how many can. The call to
    [buckets_worker_pool_stop] on that path returns at once, the pool not being marked as
    running, so the threads made so far stay. *)
Definition buckets_worker_pool_start (p : worker_pool) (created : nat) (now : Z)
    : buckets_error_t * worker_pool :=
  if running p then (BUCKETS_ERR_INVALID_ARG, p)
  else if (created <? num_workers p)%nat
  then (BUCKETS_ERR_IO, with_running (replicate created W_Pop) (start_time p) false p)
  else (BUCKETS_OK, with_running (replicate (num_workers p) W_Pop) now true p).

(** The submit call pushes one task after the other, each when there is room. *)
Definition submit_guard (p : worker_pool) (ts : list migration_task) : buckets_error_t :=
  match ts with
  | [] => BUCKETS_ERR_INVALID_ARG
  | _ => if running p then BUCKETS_OK else BUCKETS_ERR_INVALID_ARG
  end.

(** The first half of stop; the second joins the threads. *)
Definition stop_begin (p : worker_pool) : buckets_error_t * worker_pool :=
  if running p then (BUCKETS_OK, with_queue (task_queue_shutdown (queue p)) p)
  else (BUCKETS_ERR_INVALID_ARG, p).

Definition stop_end (p : worker_pool) : worker_pool :=
  with_running (threads p) (start_time p) false p.

(** What a round of [buckets_worker_pool_wait] reads: the queue count, then, under the
    other lock, the number of active workers. *)
Definition wait_done (p_first p_second : worker_pool) : bool :=
  (q_count (queue p_first) =? 0)%nat && (active_workers p_second =? 0).

Record worker_stats := WorkerStats {
  st_tasks_completed : Z;
  st_tasks_failed : Z;
  st_bytes_migrated : Z;
  st_active_workers : Z;
  st_idle_workers : Z
}.

Definition buckets_worker_pool_get_stats (p : worker_pool) : worker_stats :=
  WorkerStats (tasks_completed p) (tasks_failed p) (bytes_migrated p) (active_workers p)
    (Z.of_nat (num_workers p) - active_workers p).

(** ** Runs of the pool

    A state of the system is the pool and the tasks that the submit call has not pushed
    yet; its steps are those of the workers and of the submitter, in any order. *)

Inductive sys_step : worker_pool * list migration_task → list outcome →
                     worker_pool * list migration_task → Prop :=
  | sys_worker p i o p' pend :
      worker_step p i = Some (Val (o, p')) → sys_step (p, pend) (option_list o) (p', pend)
  | sys_submit p t pend q :
      task_queue_push (queue p) t = Some (Val (BUCKETS_OK, q)) →
      sys_step (p, t :: pend) [] (with_queue q p, pend).

Inductive sys_run (s0 : worker_pool * list migration_task) :
    nat → list outcome → worker_pool * list migration_task → Prop :=
  | run_start : sys_run s0 0 [] s0
  | run_next n h s o s' : sys_run s0 n h s → sys_step s o s' → sys_run s0 (S n) (h ++ o) s'.

(** The tasks that workers hold, and the workers that are counted as active. *)
Definition held_task (pc : worker_pc) : option migration_task :=
  match pc with W_Popped t | W_Exec t => Some t | _ => None end.
Definition in_flight (ths : list worker_pc) : list migration_task := omap held_task ths.
Definition is_active (pc : worker_pc) : bool :=
  match pc with W_Exec _ | W_Done => true | _ => false end.
Definition n_active (ths : list worker_pc) : Z :=
  foldr (λ pc n, (if is_active pc then 1 else 0) + n) 0 ths.

(** What is left to do. *)
Definition pc_weight (pc : worker_pc) : nat :=
  match pc with W_Exited => 0 | W_Pop => 1 | W_Done => 2 | W_Exec _ => 3 | W_Popped _ => 4 end.
Definition weight (s : worker_pool * list migration_task) : nat :=
  (foldr (λ pc n, pc_weight pc + n) 0 (threads s.1) + 4 * q_count (queue s.1) + 5 * length s.2)%nat.

Lemma n_active_app l1 pc l2 :
  n_active (l1 ++ pc :: l2) = (if is_active pc then 1 else 0) + n_active (l1 ++ l2).
Proof. induction l1 as [|x l1 IH]; simpl; [done|]. rewrite IH. lia. Qed.

Lemma pc_weight_app l1 pc l2 :
  foldr (λ pc n, pc_weight pc + n)%nat 0%nat (l1 ++ pc :: l2) =
    (pc_weight pc + foldr (λ pc n, pc_weight pc + n) 0 (l1 ++ l2))%nat.
Proof. induction l1 as [|x l1 IH]; simpl; [done|]. rewrite IH. lia. Qed.

Lemma in_flight_app l1 pc l2 :
  in_flight (l1 ++ pc :: l2) ≡ₚ option_list (held_task pc) ++ in_flight (l1 ++ l2).
Proof.
  unfold in_flight. rewrite !omap_app. simpl. destruct (held_task pc); simpl; [|done].
  by rewrite Permutation_middle.
Qed.

(** *** Executing a task *)

Section Execute.
Context (old new : buckets_cluster_topology).

(** The positions that a task names exist. *)
Definition task_ok (t : migration_task) : Prop :=
  0 ≤ t_size t ∧ (∃ s, c_set old (old_pool_idx t) (old_set_idx t) = Val s) ∧
  ∃ s, c_set new (new_pool_idx t) (new_set_idx t) = Val s.

Definition has_disks (r : c_result buckets_set_topology) : bool :=
  match r with Val s => match disks s with [] => false | _ => true end | Undef => false end.

(** Both sets of the task have disks. *)
Definition movable (t : migration_task) : bool :=
  has_disks (c_set old (old_pool_idx t) (old_set_idx t)) &&
  has_disks (c_set new (new_pool_idx t) (new_set_idx t)).

Lemma execute_migration_ok p t :
  old_topology p = old → new_topology p = new → task_ok t → movable t = true →
  is_i64 (tasks_completed p + 1) → is_i64 (bytes_migrated p + t_size t) →
  execute_migration p t =
    Val (BUCKETS_OK, with_counts (tasks_completed p + 1) (tasks_failed p)
                       (bytes_migrated p + t_size t) (active_workers p) p).
Proof.
  intros Ho Hn (_ & [s Hs] & [s' Hs']) [Hm Hm']%andb_true_iff Hc Hb.
  unfold execute_migration, read_source_object, write_destination_object, delete_source_object.
  rewrite Ho, Hn, Hs, Hs' in *. simpl in *. destruct (disks s); [done|]. simpl.
  destruct (disks s'); [done|]. simpl. rewrite !i64c_ok by done. done.
Qed.

Lemma execute_migration_err p t :
  old_topology p = old → new_topology p = new → task_ok t → movable t = false →
  execute_migration p t = Val (BUCKETS_ERR_INVALID_ARG, p).
Proof.
  intros Ho Hn (_ & [s Hs] & [s' Hs']) Hm.
  unfold execute_migration, read_source_object, write_destination_object.
  unfold movable in Hm. rewrite Ho, Hn, Hs, Hs' in *. simpl in *.
  destruct (disks s); [done|]. simpl. by destruct (disks s').
Qed.

(** A task is moved at the first attempt or fails after three, 100 and 200 milliseconds
    apart. *)
Lemma execute_retry p t :
  old_topology p = old → new_topology p = new → task_ok t →
  is_i64 (tasks_completed p + 1) → is_i64 (tasks_failed p + 1) →
  is_i64 (bytes_migrated p + t_size t) →
  execute_migration_with_retry p t =
    if movable t
    then Val (BUCKETS_OK, with_counts (tasks_completed p + 1) (tasks_failed p)
                            (bytes_migrated p + t_size t) (active_workers p) p, [])
    else Val (BUCKETS_ERR_IO, with_counts (tasks_completed p) (tasks_failed p + 1)
                                (bytes_migrated p) (active_workers p) p, [100; 200]).
Proof.
  intros Ho Hn Hok Hc Hf Hb. unfold execute_migration_with_retry, MAX_RETRY_ATTEMPTS.
  destruct (movable t) eqn:Hm; cbn [retry_loop].
  - by rewrite execute_migration_ok.
  - do 3 (rewrite execute_migration_err by done; cbn [c_bind fst snd]). by rewrite i64c_ok.
Qed.
End Execute.

(** ** The invariant *)

Section Invariant.
Context (old new : buckets_cluster_topology) (ts : list migration_task).
Context (nth : nat) (sd : bool).

Definition moved_bytes (h : list outcome) : Z :=
  foldr (λ (x : outcome) n, (if snd x then t_size (fst x) else 0) + n) 0 h.
Definition count_ok (b : bool) (h : list outcome) : Z :=
  foldr (λ (x : outcome) n, (if eqb (snd x) b then 1 else 0) + n) 0 h.
Definition total_bytes (l : list migration_task) : Z := foldr (λ t n, t_size t + n) 0 l.

(** After the history [h] of a run of [nth] workers that submits [ts]. *)
Record sys_inv (s : worker_pool * list migration_task) (h : list outcome)
    (l : list migration_task) : Prop := SysInv {
  si_old : old_topology s.1 = old;
  si_new : new_topology s.1 = new;
  si_threads : length (threads s.1) = nth;
  si_shutdown : q_shutdown (queue s.1) = sd;
  si_queue : queue_rep (queue s.1) l;
  si_tasks : ts ≡ₚ s.2 ++ l ++ in_flight (threads s.1) ++ (fst <$> h);
  si_active : active_workers s.1 = n_active (threads s.1);
  si_completed : tasks_completed s.1 = count_ok true h;
  si_failed : tasks_failed s.1 = count_ok false h;
  si_bytes : bytes_migrated s.1 = moved_bytes h;
  si_outcomes : Forall (λ x, snd x = movable old new (fst x)) h;
  si_exited : W_Exited ∈ threads s.1 → l = [] ∧ sd = true
}.

Lemma count_ok_app b h k : count_ok b (h ++ k) = count_ok b h + count_ok b k.
Proof. induction h as [|x h IH]; simpl; [done|]. rewrite IH. lia. Qed.

Lemma moved_bytes_app h k : moved_bytes (h ++ k) = moved_bytes h + moved_bytes k.
Proof. induction h as [|x h IH]; simpl; [done|]. rewrite IH. lia. Qed.

Lemma count_ok_bound b h : 0 ≤ count_ok b h ≤ Z.of_nat (length h).
Proof. induction h as [|x h IH]; simpl; [lia|]. destruct (eqb _ _); lia. Qed.

Lemma count_ok_sum h : count_ok true h + count_ok false h = Z.of_nat (length h).
Proof. induction h as [|[t []] h IH]; simpl in *; lia. Qed.

Lemma n_active_bound ths : 0 ≤ n_active ths ≤ Z.of_nat (length ths).
Proof. induction ths as [|pc ths IH]; simpl; [lia|]. destruct (is_active pc); lia. Qed.

Lemma total_bytes_app l k : total_bytes (l ++ k) = total_bytes l + total_bytes k.
Proof. induction l as [|x l IH]; simpl; [done|]. rewrite IH. lia. Qed.

Lemma total_bytes_perm l k : l ≡ₚ k → total_bytes l = total_bytes k.
Proof. induction 1; simpl; lia. Qed.

Lemma total_bytes_nonneg l : Forall (λ t, 0 ≤ t_size t) l → 0 ≤ total_bytes l.
Proof. induction 1; simpl; lia. Qed.

Lemma moved_bytes_bound h :
  Forall (λ t, 0 ≤ t_size t) (fst <$> h) → 0 ≤ moved_bytes h ≤ total_bytes (fst <$> h).
Proof.
  induction h as [|[t b] h IH]; csimpl; [lia|]. intros [Ht Hh]%Forall_cons.
  specialize (IH Hh). simpl in *. destruct b; lia.
Qed.

Context (Hok : Forall (task_ok old new) ts) (Hbytes : total_bytes ts < 2 ^ 63).
Context (Hlen : Z.of_nat (length ts) < 2 ^ 62) (Hnth : Z.of_nat nth < 2 ^ 62).

Lemma tasks_sizes : Forall (λ t, 0 ≤ t_size t) ts.
Proof using Hok. eapply Forall_impl; [exact Hok|]. by intros t []. Qed.

(** A task that a worker holds, and the room the counters have for it. *)
Lemma held_ok s h l t l1 l2 pc :
  sys_inv s h l → threads s.1 = l1 ++ pc :: l2 → held_task pc = Some t →
  task_ok old new t ∧ (length h < length ts)%nat ∧
  0 ≤ moved_bytes h ∧ 0 ≤ t_size t ∧ moved_bytes h + t_size t ≤ total_bytes ts.
Proof using Hok.
  intros Hinv Hth Hpc. pose proof (si_tasks _ _ _ Hinv) as Hp.
  rewrite Hth, in_flight_app, Hpc in Hp. simpl in Hp.
  assert (ts ≡ₚ t :: (s.2 ++ l ++ in_flight (l1 ++ l2)) ++ (fst <$> h)) as Hp'.
  { rewrite Hp. solve_Permutation. }
  pose proof tasks_sizes as Hs. rewrite Hp' in Hs. apply Forall_cons in Hs as [Ht Hs].
  apply Forall_app in Hs as [Hs1 Hs2].
  pose proof (total_bytes_perm _ _ Hp') as Htb. simpl in Htb. rewrite total_bytes_app in Htb.
  pose proof (total_bytes_nonneg _ Hs1). pose proof (moved_bytes_bound _ Hs2).
  pose proof (Permutation_length Hp') as Hl. simpl in Hl. rewrite length_app, length_fmap in Hl.
  split; [|lia]. rewrite Hp' in Hok. by apply Forall_cons in Hok as [].
Qed.

Lemma exited_app l1 pc l2 : W_Exited ∈ l1 ++ pc :: l2 ↔ pc = W_Exited ∨ W_Exited ∈ l1 ++ l2.
Proof using Type. clear. set_solver. Qed.

(** The invariant after thread [pc] became [pc'], the queue, the counters and the history
    having changed as they should. *)
Lemma inv_thread p p' pend h l l1 l2 pc pc' l' k :
  sys_inv (p, pend) h l → threads p = l1 ++ pc :: l2 → threads p' = l1 ++ pc' :: l2 →
  old_topology p' = old_topology p → new_topology p' = new_topology p →
  queue_rep (queue p') l' → q_shutdown (queue p') = q_shutdown (queue p) →
  option_list (held_task pc) ++ l ≡ₚ option_list (held_task pc') ++ l' ++ (fst <$> k) →
  active_workers p' + (if is_active pc then 1 else 0)
    = active_workers p + (if is_active pc' then 1 else 0) →
  tasks_completed p' = tasks_completed p + count_ok true k →
  tasks_failed p' = tasks_failed p + count_ok false k →
  bytes_migrated p' = bytes_migrated p + moved_bytes k →
  Forall (λ x, snd x = movable old new (fst x)) k →
  (l = [] → l' = []) → (pc' = W_Exited → l' = [] ∧ sd = true) →
  (pc_weight pc' + 4 * length l' < pc_weight pc + 4 * length l)%nat →
  sys_inv (p', pend) (h ++ k) l' ∧ (weight (p', pend) < weight (p, pend))%nat.
Proof using Type.
  clear. intros Hinv Hth Hth' Ho Hn Hq Hsd Hp Ha Hc Hf Hb Hk Hl Hex Hw. split.
  - destruct Hinv. simpl in *. rewrite Hth in *.
    split; simpl; rewrite ?Hth'; try (etrans; [eassumption|done]); try done.
    + rewrite length_app in *. simpl in *. lia.
    + rewrite si_tasks0, in_flight_app, in_flight_app, fmap_app.
      transitivity (pend ++ (option_list (held_task pc) ++ l) ++ in_flight (l1 ++ l2) ++ h.*1);
        [solve_Permutation|]. rewrite Hp. solve_Permutation.
    + rewrite n_active_app in *. lia.
    + rewrite count_ok_app. lia.
    + rewrite count_ok_app. lia.
    + rewrite moved_bytes_app. lia.
    + by apply Forall_app.
    + rewrite exited_app. intros [E|E]; [auto|]. rewrite exited_app in si_exited0.
      destruct si_exited0 as [-> Hs]; auto.
  - unfold weight. simpl. rewrite Hth, Hth', !pc_weight_app, (qr_count _ _ Hq).
    pose proof (qr_count _ _ (si_queue _ _ _ Hinv)) as Hcnt. simpl in Hcnt. lia.
Qed.

(** Solve the conditions of [inv_thread] on a concrete step. *)
Ltac side := try done; simpl; rewrite ?app_nil_r; try done; try lia; try by repeat constructor.

Lemma worker_step_spec p pend h l i :
  sys_inv (p, pend) h l →
  match worker_step p i with
  | None => ∀ pc, threads p !! i = Some pc →
      pc = W_Exited ∨ (pc = W_Pop ∧ l = [] ∧ sd = false)
  | Some r => ∃ o p' l', r = Val (o, p') ∧ sys_inv (p', pend) (h ++ option_list o) l' ∧
      (weight (p', pend) < weight (p, pend))%nat
  end.
Proof using Hok Hbytes Hlen Hnth.
  intros Hinv. unfold worker_step.
  destruct (threads p !! i) as [pc|] eqn:Hi; [|by intros ? ?].
  destruct (insert_split _ _ _ Hi) as (l1 & l2 & Hth & Hins).
  pose proof (n_active_bound (l1 ++ l2)) as Hna. pose proof (si_active _ _ _ Hinv) as Hact.
  pose proof (si_threads _ _ _ Hinv) as Hn. pose proof (si_shutdown _ _ _ Hinv) as Hsd.
  simpl in Hact, Hn, Hsd.
  rewrite Hth in Hact, Hn. rewrite n_active_app in Hact. rewrite length_app in Hn, Hna.
  simpl in Hn. pose proof (si_queue _ _ _ Hinv) as Hq. simpl in Hq.
  assert (∀ pc', threads (with_thread i pc' p) = l1 ++ pc' :: l2) as Hth' by (intros; apply Hins).
  destruct pc as [|t|t| |]; cbn [is_active] in Hact.
  - destruct l as [|t l].
    + unfold task_queue_pop. rewrite (qr_count _ _ Hq). simpl.
      rewrite Hsd. destruct sd eqn:Esd; simpl; [|intros pc [= <-]; auto].
      eexists None, _, []. split; [done|].
      eapply (inv_thread p _ pend h [] l1 l2 W_Pop W_Exited [] []); side.
    + destruct (pop_rep _ _ _ Hq) as (q & -> & Hq' & _ & Hsd'). cbn [c_bind].
      eexists None, _, l. split; [done|].
      eapply (inv_thread p _ pend h (t :: l) l1 l2 W_Pop (W_Popped t) l []); side.
  - rewrite i64c_ok by (unfold is_i64; lia). cbn [c_bind]. eexists None, _, l. split; [done|].
    eapply (inv_thread p _ pend h l l1 l2 (W_Popped t) (W_Exec t) l []); side.
  - destruct (held_ok _ _ _ t l1 l2 _ Hinv Hth eq_refl) as (Ht & Hlt & ? & ? & ?).
    pose proof (count_ok_bound true h). pose proof (count_ok_bound false h).
    pose proof (si_completed _ _ _ Hinv) as Hc. pose proof (si_failed _ _ _ Hinv) as Hf.
    pose proof (si_bytes _ _ _ Hinv) as Hb. simpl in Hc, Hf, Hb.
    rewrite (execute_retry old new p t) by
      (first [apply (si_old _ _ _ Hinv)|apply (si_new _ _ _ Hinv)|done|unfold is_i64; lia]).
    destruct (movable old new t) eqn:Hm; cbn [c_bind fst snd].
    + eexists (Some (t, true)), _, l. split; [done|].
      eapply (inv_thread p _ pend h l l1 l2 (W_Exec t) W_Done l [(t, true)]); side.
      apply Permutation_cons_append.
    + eexists (Some (t, false)), _, l. split; [done|].
      eapply (inv_thread p _ pend h l l1 l2 (W_Exec t) W_Done l [(t, false)]); side.
      apply Permutation_cons_append.
  - rewrite i64c_ok by (unfold is_i64; lia). cbn [c_bind]. eexists None, _, l. split; [done|].
    eapply (inv_thread p _ pend h l l1 l2 W_Done W_Pop l []); side.
  - intros pc [= <-]. auto.
Qed.
Lemma submit_inv p t pend h l q :
  sys_inv (p, t :: pend) h l → task_queue_push (queue p) t = Some (Val (BUCKETS_OK, q)) →
  sys_inv (with_queue q p, pend) h (l ++ [t]) ∧
  (weight (with_queue q p, pend) < weight (p, t :: pend))%nat.
Proof using Type.
  clear. intros Hinv Hpush. pose proof (si_queue _ _ _ Hinv) as Hq. simpl in Hq.
  assert (q_shutdown (queue p) = false ∧ (length l < q_capacity (queue p))%nat) as [Hsd Hroom].
  { unfold task_queue_push in Hpush. rewrite (qr_count _ _ Hq) in Hpush.
    destruct (Nat.leb_spec (q_capacity (queue p)) (length l)), (q_shutdown (queue p));
      simplify_eq/=; done. }
  destruct (push_rep _ _ t Hq Hsd Hroom) as (q' & Hq' & Hrep & _ & Hsd').
  rewrite Hpush in Hq'. simplify_eq. split.
  - destruct Hinv. simpl in *. split; simpl; try done.
    + congruence.
    + rewrite si_tasks0. solve_Permutation.
    + intros [_ E]%si_exited0. congruence.
  - unfold weight. simpl. rewrite (qr_count _ _ Hq), (qr_count _ _ Hrep), length_app. simpl. lia.
Qed.

Lemma step_inv s h l o s' :
  sys_inv s h l → sys_step s o s' →
  ∃ l', sys_inv s' (h ++ o) l' ∧ (weight s' < weight s)%nat.
Proof using Hok Hbytes Hlen Hnth.
  intros Hinv Hstep. destruct Hstep as [p i o p' pend Hw|p t pend q Hp].
  - pose proof (worker_step_spec p pend h l i Hinv) as Hs. rewrite Hw in Hs.
    destruct Hs as (o' & p2 & l' & E & ? & ?). simplify_eq. eauto.
  - rewrite app_nil_r. eexists. by apply submit_inv.
Qed.

Lemma run_inv s0 l0 h0 n h s :
  sys_inv s0 h0 l0 → sys_run s0 n h s →
  ∃ l, sys_inv s (h0 ++ h) l ∧ (n + weight s ≤ weight s0)%nat.
Proof using Hok Hbytes Hlen Hnth.
  intros Hinv Hrun. induction Hrun as [|n h s o s' _ (l & IH & Hw) Hstep].
  - exists l0. by rewrite app_nil_r.
  - destruct (step_inv _ _ _ _ _ IH Hstep) as (l' & ? & ?). exists l'.
    rewrite app_assoc. split; [done|lia].
Qed.

(** A state with no step: nothing is left, and the workers wait or have exited. *)
Lemma stuck_inv s h l :
  sys_inv s h l → (0 < nth)%nat → (∀ o s', ¬ sys_step s o s') →
  l = [] ∧ in_flight (threads s.1) = [] ∧ n_active (threads s.1) = 0 ∧
  (sd = false → s.2 = []) ∧ (sd = true → Forall (λ pc, pc = W_Exited) (threads s.1)).
Proof using Hok Hbytes Hlen Hnth.
  destruct s as [p pend]. simpl. intros Hinv Hne Hstuck.
  assert (Forall (λ pc, pc = W_Exited ∨ (pc = W_Pop ∧ l = [] ∧ sd = false))
            (threads p)) as Hall.
  { apply Forall_lookup. intros i pc Hi. pose proof (worker_step_spec p pend h l i Hinv) as Hs.
    destruct (worker_step p i) as [r|] eqn:Hw; [|by apply Hs].
    destruct Hs as (o & p' & l' & -> & _). exfalso. eapply Hstuck. by eapply sys_worker. }
  assert (l = []) as ->.
  { pose proof (si_threads _ _ _ Hinv) as Hn. simpl in Hn.
    destruct (threads p) as [|pc ths] eqn:Hth; simpl in Hn; [lia|].
    apply Forall_cons in Hall as [[->|(_ & -> & _)] _]; [|done].
    apply (si_exited _ _ _ Hinv). simpl. rewrite Hth. set_solver. }
  assert (in_flight (threads p) = [] ∧ n_active (threads p) = 0) as [Hfl Hac].
  { clear -Hall. induction Hall as [|pc ths Hpc _ [IH1 IH2]]; [done|].
    unfold in_flight. simpl. destruct Hpc as [->|(-> & _)]; simpl; auto. }
  split_and!; [done|done|done| |].
  - intros Hsd. destruct pend as [|t pend]; [done|]. exfalso.
    pose proof (si_queue _ _ _ Hinv) as Hq. simpl in Hq.
    destruct (push_rep _ _ t Hq) as (q & Hpush & _); [by etrans; [apply (si_shutdown _ _ _ Hinv)|]|apply Hq|].
    eapply Hstuck. by eapply sys_submit.
  - intros Hsd. eapply Forall_impl; [exact Hall|]. intros pc [?|(_ & _ & ?)]; [done|congruence].
Qed.
End Invariant.

(** A pool that has just been created and started. *)
Lemma started_inv workers old new paths now0 now p0 p created ts :
  buckets_worker_pool_create workers (Some old) (Some new) (Some paths) now0 = Some p0 →
  buckets_worker_pool_start p0 created now = (BUCKETS_OK, p) → workers < 2 ^ 31 →
  sys_inv old new ts (num_workers p) false (p, ts) [] [] ∧ (0 < num_workers p)%nat ∧
  Z.of_nat (num_workers p) < 2 ^ 62 ∧ weight (p, ts) = (num_workers p + 5 * length ts)%nat.
Proof.
  intros Hc Hs Hw. unfold buckets_worker_pool_create in Hc. destruct paths as [|path paths]; [done|].
  apply (inj Some) in Hc. subst p0. unfold buckets_worker_pool_start in Hs. simpl in Hs.
  set (n := if workers <=? 0 then _ else _) in *.
  assert (0 < n < Z.to_nat (2 ^ 31))%nat as Hn.
  { unfold n, DEFAULT_NUM_WORKERS. destruct (Z.leb_spec workers 0); lia. }
  destruct (created <? n)%nat; [done|]. apply (inj (pair BUCKETS_OK)) in Hs. subst p.
  assert (∀ k, in_flight (replicate k W_Pop) = [] ∧ n_active (replicate k W_Pop) = 0 ∧
            foldr (λ pc n, (pc_weight pc + n)%nat) 0%nat (replicate k W_Pop) = k) as Hrep.
  { induction k as [|k (IH1 & IH2 & IH3)]; [done|]. simpl. rewrite IH2, IH3. auto. }
  destruct (Hrep n) as (Hf & Ha & Hwt). split_and!.
  - split; simpl; try done.
    + apply length_replicate.
    + apply init_rep. unfold QUEUE_CAPACITY. lia.
    + by rewrite Hf, app_nil_r.
    + intros E%elem_of_replicate_inv. done.
  - simpl. lia.
  - simpl. lia.
  - unfold weight. simpl. rewrite Hwt. lia.
Qed.

(** ** Properties *)

(** Setting the shutdown flag. *)
Lemma stop_inv old new ts nth p pend h l :
  sys_inv old new ts nth false (p, pend) h l →
  sys_inv old new ts nth true (with_queue (task_queue_shutdown (queue p)) p, pend) h l.
Proof.
  intros []. split; simpl in *; try done; [by apply shutdown_rep|]. by intros [? ?]%si_exited0.
Qed.

(** A worker takes the only task off the queue. *)
Lemma submit_pop_run workers old new paths now0 now p0 p created t :
  buckets_worker_pool_create workers (Some old) (Some new) (Some paths) now0 = Some p0 →
  buckets_worker_pool_start p0 created now = (BUCKETS_OK, p) → workers < 2 ^ 31 →
  ∃ s, sys_run (p, [t]) 2 [] s ∧ s.2 = [] ∧ wait_done s.1 s.1 = true ∧
    in_flight (threads s.1) = [t] ∧ running s.1 = true.
Proof.
  intros Hc Hs Hw. destruct (started_inv _ _ _ _ _ _ _ _ _ [t] Hc Hs Hw) as (Hinv & Hne & _ & _).
  pose proof (si_queue _ _ _ _ _ _ _ _ Hinv) as Hq. simpl in Hq.
  destruct (push_rep _ [] t Hq) as (q1 & Hpush & Hq1 & _); [apply Hinv|apply Hq|].
  destruct (pop_rep q1 t [] Hq1) as (q2 & Hpop & Hq2 & _).
  assert (running p = true ∧ ∃ k, threads p = replicate (S k) W_Pop) as [Hrn [k Hth]].
  { unfold buckets_worker_pool_start in Hs. destruct (running p0); [done|].
    destruct (created <? num_workers p0)%nat; [done|]. apply (inj (pair BUCKETS_OK)) in Hs. subst p.
    simpl in *. destruct (num_workers p0) as [|k]; [lia|]. split; [done|]. by exists k. }
  set (p2 := with_thread 0 (W_Popped t) (with_queue q2 (with_queue q1 p))).
  exists (p2, []). split_and!.
  - apply (run_next _ 1 ([] ++ []) (with_queue q1 p, []) (option_list (None : option outcome)));
      [eapply run_next; [apply run_start|by apply sys_submit]|].
    apply (sys_worker _ 0). unfold worker_step. simpl. rewrite Hth. simpl. by rewrite Hpop.
  - done.
  - unfold wait_done. simpl. rewrite (qr_count _ _ Hq2).
    pose proof (si_active _ _ _ _ _ _ _ _ Hinv) as Ha. simpl in Ha. rewrite Ha, Hth.
    assert (n_active (replicate (S k) W_Pop) = 0) as ->; [|done]. clear.
    induction (S k) as [|k0 IH]; [done|]. simpl. by rewrite IH.
  - simpl. rewrite Hth. unfold in_flight. simpl. f_equal. clear.
    induction k as [|k IH]; [done|]. simpl. auto.
  - exact Hrn.
Qed.

Section Properties.
Context (workers : Z) (old new : buckets_cluster_topology) (paths : list string).
Context (now0 now : Z) (p0 p : worker_pool) (created : nat) (ts : list migration_task).

(** C20: a started pool finishes: whatever the order in which workers and submitter take
    their steps, a run makes at most one step per worker plus five per task, never
    overflows a counter or indexes a topology out of range, and when no step is left
    every submitted task has been processed exactly once (moved when both its sets have
    disks, failed after its retries otherwise), nothing is queued or in flight, and the
    statistics add up. *)
Theorem worker_pool_drains n h s :
  buckets_worker_pool_create workers (Some old) (Some new) (Some paths) now0 = Some p0 →
  buckets_worker_pool_start p0 created now = (BUCKETS_OK, p) →
  workers < 2 ^ 31 → Forall (task_ok old new) ts → total_bytes ts < 2 ^ 63 →
  Z.of_nat (length ts) < 2 ^ 31 →
  sys_run (p, ts) n h s →
  (n ≤ num_workers p + 5 * length ts)%nat ∧
  (∀ i, worker_step s.1 i ≠ Some Undef) ∧
  ((∀ o s', ¬ sys_step s o s') →
     s.2 = [] ∧ q_count (queue s.1) = 0%nat ∧ in_flight (threads s.1) = [] ∧
     active_workers s.1 = 0 ∧ ts ≡ₚ (fst <$> h) ∧
     Forall (λ x, snd x = movable old new (fst x)) h ∧
     tasks_completed s.1 + tasks_failed s.1 = Z.of_nat (length ts) ∧
     bytes_migrated s.1 = moved_bytes h).
Proof using Type.
  intros Hc Hs Hw Hok Hb Hl Hrun. assert (Z.of_nat (length ts) < 2 ^ 62) as Hl' by lia.
  destruct (started_inv _ _ _ _ _ _ _ _ _ ts Hc Hs Hw) as (Hinv & Hne & Hnth & Hwt).
  destruct (run_inv old new ts _ _ Hok Hb Hl' Hnth _ _ _ _ _ _ Hinv Hrun) as (l & Hi & Hn).
  split; [lia|]. split.
  { intros i E. destruct s as [q pend].
    pose proof (worker_step_spec old new ts _ _ Hok Hb Hl' Hnth q pend h l i Hi) as Hst. simpl in E.
    rewrite E in Hst. by destruct Hst as (? & ? & ? & ? & _). }
  intros Hstuck.
  destruct (stuck_inv old new ts _ _ Hok Hb Hl' Hnth s h l Hi Hne Hstuck) as (-> & Hfl & Hac & Hp & _).
  destruct Hi. simpl in *. rewrite Hfl, Hp in si_tasks0 by done. split_and!; try done; try auto.
  - apply (qr_count _ _ si_queue0).
  - congruence.
  - rewrite si_completed0, si_failed0, count_ok_sum. f_equal.
    rewrite si_tasks0. simpl. by rewrite length_fmap.
Qed.

(** Stopping a pool drains it: after the shutdown flag is set the workers take a
    bounded number of steps, and when they can all be joined every task that had been
    submitted is processed and the queue is empty; pausing a job, which stops the pool,
    therefore leaves nothing for a resume to do. *)
Theorem worker_stop_drains n h p1 p2 m k s :
  buckets_worker_pool_create workers (Some old) (Some new) (Some paths) now0 = Some p0 →
  buckets_worker_pool_start p0 created now = (BUCKETS_OK, p) →
  workers < 2 ^ 31 → Forall (task_ok old new) ts → total_bytes ts < 2 ^ 63 →
  Z.of_nat (length ts) < 2 ^ 31 →
  sys_run (p, ts) n h (p1, []) → stop_begin p1 = (BUCKETS_OK, p2) →
  sys_run (p2, []) m k s →
  (n + m ≤ num_workers p + 5 * length ts)%nat ∧
  ((∀ o s', ¬ sys_step s o s') →
     Forall (λ pc, pc = W_Exited) (threads s.1) ∧ q_count (queue s.1) = 0%nat ∧
     ts ≡ₚ (fst <$> h ++ k)).
Proof using Type.
  intros Hc Hs Hw Hok Hb Hl Hrun Hstop Hrun2. assert (Z.of_nat (length ts) < 2 ^ 62) as Hl' by lia.
  destruct (started_inv _ _ _ _ _ _ _ _ _ ts Hc Hs Hw) as (Hinv & Hne & Hnth & Hwt).
  destruct (run_inv old new ts _ _ Hok Hb Hl' Hnth _ _ _ _ _ _ Hinv Hrun) as (l & Hi & Hn).
  assert (p2 = with_queue (task_queue_shutdown (queue p1)) p1) as ->.
  { unfold stop_begin in Hstop. destruct (running p1); congruence. }
  pose proof (stop_inv _ _ _ _ _ _ _ _ Hi) as Hi2.
  destruct (run_inv old new ts _ _ Hok Hb Hl' Hnth _ _ _ _ _ _ Hi2 Hrun2) as (l2 & Hi3 & Hm).
  split; [unfold weight in *; simpl in *; lia|]. intros Hstuck.
  destruct (stuck_inv old new ts _ _ Hok Hb Hl' Hnth s _ _ Hi3 Hne Hstuck) as (-> & Hfl & _ & _ & Hex).
  assert (s.2 = []) as Hpend.
  { clear -Hrun2. remember (_, []) as s0 eqn:E. induction Hrun2 as [|? ? ? ? ? _ IH Hst]; [by subst|].
    by destruct Hst. }
  destruct Hi3. rewrite Hfl, Hpend in si_tasks0. split_and!; auto. apply (qr_count _ _ si_queue0).
Qed.

(** The wait for a pool can return while a task is still to be moved: a worker that has
    taken the last task off the queue and not yet counted itself as active is invisible
    to both reads. *)
Theorem worker_wait_returns_early t :
  buckets_worker_pool_create workers (Some old) (Some new) (Some paths) now0 = Some p0 →
  buckets_worker_pool_start p0 created now = (BUCKETS_OK, p) → workers < 2 ^ 31 →
  ∃ s, sys_run (p, [t]) 2 [] s ∧ s.2 = [] ∧ wait_done s.1 s.1 = true ∧
    in_flight (threads s.1) = [t].
Proof using Type.
  intros Hc Hs Hw. destruct (submit_pop_run _ _ _ _ _ _ _ _ _ t Hc Hs Hw) as (s & ? & ? & ? & ? & _).
  by exists s.
Qed.
End Properties.

(** ** Instances *)

Definition demo_set (i : Z) : buckets_set_topology :=
  SetTopology i SET_STATE_ACTIVE [DiskInfo "http://n1/d" "uuid" 0].
Definition demo_topology : buckets_cluster_topology :=
  ClusterTopology 1 1 "dep" 150 [PoolTopology 0 [demo_set 0; demo_set 1]].
Definition demo_pool0 : worker_pool :=
  WorkerPool 1 [] (task_queue_init QUEUE_CAPACITY) demo_topology demo_topology ["/d"]
    0 0 0 0 5 false.
Definition demo_pool : worker_pool := with_running [W_Pop] 6 true demo_pool0.

Lemma demo_task_ok n : 0 ≤ n → task_ok demo_topology demo_topology (demo_task n).
Proof. intros. split_and!; [done|by eexists|by eexists]. Qed.

Lemma worker_pool_drains_witness :
  ∃ s, sys_run (demo_pool, [demo_task 7]) 2 [] s ∧ (2 ≤ 1 + 5 * 1)%nat ∧
    ∀ i, worker_step s.1 i ≠ Some Undef.
Proof.
  destruct (submit_pop_run 1 demo_topology demo_topology ["/d"] 5 6 demo_pool0 demo_pool 1
              (demo_task 7) eq_refl eq_refl ltac:(lia)) as (s & Hrun & _).
  exists s. split; [exact Hrun|].
  destruct (worker_pool_drains 1 demo_topology demo_topology ["/d"] 5 6 demo_pool0 demo_pool 1
              [demo_task 7] 2 [] s eq_refl eq_refl) as (Hn & Hu & _).
  - lia.
  - apply Forall_singleton, demo_task_ok. lia.
  - vm_compute. reflexivity.
  - vm_compute. reflexivity.
  - exact Hrun.
  - split; [exact Hn|exact Hu].
Defined.

Lemma worker_stop_drains_witness :
  ∃ p1 p2, sys_run (demo_pool, [demo_task 7]) 2 [] (p1, []) ∧
    stop_begin p1 = (BUCKETS_OK, p2) ∧ (2 + 0 ≤ 1 + 5 * 1)%nat.
Proof.
  destruct (submit_pop_run 1 demo_topology demo_topology ["/d"] 5 6 demo_pool0 demo_pool 1
              (demo_task 7) eq_refl eq_refl ltac:(lia))
    as ([p1 pend] & Hrun & Hpend & _ & _ & Hr).
  simpl in Hpend, Hr. subst pend.
  exists p1, (with_queue (task_queue_shutdown (queue p1)) p1). split; [exact Hrun|].
  assert (stop_begin p1 = (BUCKETS_OK, with_queue (task_queue_shutdown (queue p1)) p1)) as Hst
    by (unfold stop_begin; by rewrite Hr).
  split; [exact Hst|].
  apply (worker_stop_drains 1 demo_topology demo_topology ["/d"] 5 6 demo_pool0 demo_pool 1
           [demo_task 7] 2 [] p1 (with_queue (task_queue_shutdown (queue p1)) p1) 0 []
           (with_queue (task_queue_shutdown (queue p1)) p1, []) eq_refl eq_refl).
  - lia.
  - apply Forall_singleton, demo_task_ok. lia.
  - vm_compute. reflexivity.
  - vm_compute. reflexivity.
  - exact Hrun.
  - exact Hst.
  - apply run_start.
Defined.

Lemma worker_wait_returns_early_witness :
  ∃ s, sys_run (demo_pool, [demo_task 7]) 2 [] s ∧ s.2 = [] ∧ wait_done s.1 s.1 = true ∧
    in_flight (threads s.1) = [demo_task 7].
Proof.
  apply (worker_wait_returns_early 1 demo_topology demo_topology ["/d"] 5 6 demo_pool0 demo_pool 1
           (demo_task 7) eq_refl eq_refl). lia.
Defined.
