(* ===== verification/Scanner.v ===== *)
(** * Migration scanner (src/src/migration/scanner.c)

    Finds the objects whose place changes between two topologies: the rings of both
    topologies, the walk of every disk, one task per copy of an object that moves, the merged list
    sorted by size. A disk is a tree of directories; the fixed-size path buffers that only
    address the tree are not modelled, the key buffers are. *)

From S2P Require Import Prelude CInt CString XXHash SortedArray Ring Topology TaskQueue WorkerPool.

Local Open Scope c_scope.

(** ** Node ids *)

Definition ENCODE_NODE_ID (pool set : Z) : Z := pool * 1000 + set.
Definition DECODE_POOL (node_id : Z) : Z := Z.quot node_id 1000.
Definition DECODE_SET (node_id : Z) : Z := Z.rem node_id 1000.

(** ** Directories

    [NGone] is an entry that [stat] fails on; a directory may not be readable. *)

Inductive node :=
  | NFile (st_size st_mtime : Z)
  | NDir (readable : bool) (entries : list (string * node))
  | NGone.

(** What a scanner thread accumulates. *)
Record disk_scanner_ctx := DiskCtx {
  ctx_tasks : list migration_task;
  objects_scanned : Z;
  objects_affected : Z;
  bytes_affected : Z
}.

Definition ctx_init : disk_scanner_ctx := DiskCtx [] 0 0 0.

Section Scan.
Context `{Qsort}.

(** *** The ring of a topology *)

Definition node_name_of (p s : nat) : string :=
  snprintf 64 ("pool" +:+ pretty (Z.of_nat p) +:+ "-set" +:+ pretty (Z.of_nat s)).

(** [for s in sets]: the nodes of pool [p]. *)
Fixpoint add_sets (ring : buckets_ring) (p s : nat) (l : list buckets_set_topology)
    : option buckets_ring :=
  match l with
  | [] => Some ring
  | _ :: l =>
      match buckets_ring_add_node (Some ring) (ENCODE_NODE_ID (Z.of_nat p) (Z.of_nat s))
              (Some (node_name_of p s)) with
      | (BUCKETS_OK, Some ring) => add_sets ring p (S s) l
      | _ => None
      end
  end.

Fixpoint add_pools (ring : buckets_ring) (p : nat) (l : list buckets_pool_topology)
    : option buckets_ring :=
  match l with
  | [] => Some ring
  | pool :: l =>
      match add_sets ring p 0 (sets pool) with
      | Some ring => add_pools ring (S p) l
      | None => None
      end
  end.

Definition topology_to_ring (t : option buckets_cluster_topology) : option buckets_ring :=
  match t with
  | None => None
  | Some t =>
      match buckets_ring_create 150 0 with
      | None => None
      | Some ring => add_pools ring 0 (pools t)
      end
  end.

(** *** One object *)

Section Rings.
Context (old_ring new_ring : buckets_ring).

Definition object_key (bucket object : string) : string :=
  snprintf 2048 (bucket +:+ "/" +:+ object).

(** Old pool and set, new pool and set; [None]: no migration. *)
Definition needs_migration (bucket object : string) : c_result (option (Z * Z * Z * Z)) :=
  let key := object_key bucket object in
  let* old_node_id := buckets_ring_lookup (Some old_ring) (Some key) in
  if old_node_id <? 0 then Val None else
  let* new_node_id := buckets_ring_lookup (Some new_ring) (Some key) in
  if new_node_id <? 0 then Val None else
  if old_node_id =? new_node_id then Val None
  else Val (Some (DECODE_POOL old_node_id, DECODE_SET old_node_id,
                  DECODE_POOL new_node_id, DECODE_SET new_node_id)).

Definition add_migration_task (ctx : disk_scanner_ctx) (bucket object : string)
    (version_id : option string) (size mtime : Z) (place : Z * Z * Z * Z) : disk_scanner_ctx :=
  let '(old_pool, old_set, new_pool, new_set) := place in
  let t := Task (snprintf 256 bucket) (snprintf 1024 object) (snprintf 64 (default "" version_id))
             old_pool old_set new_pool new_set size mtime 0 0 in
  DiskCtx (ctx_tasks ctx ++ [t]) (objects_scanned ctx) (objects_affected ctx + 1)
    (bytes_affected ctx + size).

Definition count_scanned (ctx : disk_scanner_ctx) : disk_scanner_ctx :=
  DiskCtx (ctx_tasks ctx) (objects_scanned ctx + 1) (objects_affected ctx) (bytes_affected ctx).

Definition scan_object (bucket prefix : string) (size mtime : Z) (ctx : disk_scanner_ctx)
    : c_result disk_scanner_ctx :=
  let ctx := count_scanned ctx in
  let* place := needs_migration bucket prefix in
  match place with
  | None => Val ctx
  | Some place => Val (add_migration_task ctx bucket prefix None size mtime place)
  end.

(** *** Directories *)

Definition skipped (name : string) : bool :=
  String.eqb name "." || String.eqb name ".." || String.eqb name ".buckets.sys".

Definition join_prefix (prefix name : string) : string :=
  if String.eqb prefix "" then snprintf 2048 name
  else snprintf 2048 (prefix +:+ "/" +:+ name).

Fixpoint scan_directory (bucket : string) (dir : node) (prefix : string)
    (ctx : disk_scanner_ctx) {struct dir} : c_result disk_scanner_ctx :=
  match dir with
  | NDir true entries =>
      (fix go (l : list (string * node)) (ctx : disk_scanner_ctx) :=
         match l with
         | [] => Val ctx
         | (name, e) :: l =>
             let* ctx :=
               if skipped name then Val ctx else
               match e with
               | NGone => Val ctx
               | NDir _ _ => scan_directory bucket e (join_prefix prefix name) ctx
               | NFile size mtime =>
                   if String.eqb name "xl.meta" then scan_object bucket prefix size mtime ctx
                   else Val ctx
               end in
             go l ctx
         end) entries ctx
  | _ => Val ctx
  end.

Fixpoint scan_buckets (entries : list (string * node)) (ctx : disk_scanner_ctx)
    : c_result disk_scanner_ctx :=
  match entries with
  | [] => Val ctx
  | (name, e) :: entries =>
      let* ctx :=
        if skipped name then Val ctx else
        match e with
        | NDir _ _ => scan_directory name e "" ctx
        | _ => Val ctx
        end in
      scan_buckets entries ctx
  end.

(** A disk that cannot be opened yields nothing. *)
Definition scan_disk_buckets (disk : node) (ctx : disk_scanner_ctx) : c_result disk_scanner_ctx :=
  match disk with
  | NDir true entries => scan_buckets entries ctx
  | _ => Val ctx
  end.

Fixpoint scan_disks (disks : list node) : c_result (list disk_scanner_ctx) :=
  match disks with
  | [] => Val []
  | d :: disks =>
      let* ctx := scan_disk_buckets d ctx_init in
      let* rest := scan_disks disks in
      Val (ctx :: rest)
  end.
End Rings.

(** ** The scanner *)

Record scanner_state := ScannerState {
  sc_old_topology : buckets_cluster_topology;
  sc_new_topology : buckets_cluster_topology;
  sc_objects_scanned : Z;
  sc_objects_affected : Z;
  sc_bytes_affected : Z;
  scan_complete : bool
}.

Definition buckets_scanner_init (disk_paths : option (list string))
    (old new : option buckets_cluster_topology) : option scanner_state :=
  match disk_paths, old, new with
  | Some (_ :: _), Some old, Some new => Some (ScannerState old new 0 0 0 false)
  | _, _, _ => None
  end.

(** Each thread adds its counts under the lock when it is done. *)
Definition add_counts (sc : scanner_state) (ctx : disk_scanner_ctx) : scanner_state :=
  ScannerState (sc_old_topology sc) (sc_new_topology sc)
    (sc_objects_scanned sc + objects_scanned ctx)
    (sc_objects_affected sc + objects_affected ctx)
    (sc_bytes_affected sc + bytes_affected ctx) (scan_complete sc).

Definition compare_tasks_by_size : migration_task → migration_task → Z := hash_compare t_size.

Definition set_complete (sc : scanner_state) : scanner_state :=
  ScannerState (sc_old_topology sc) (sc_new_topology sc) (sc_objects_scanned sc)
    (sc_objects_affected sc) (sc_bytes_affected sc) true.

Definition buckets_scanner_scan (sc : scanner_state) (disks : list node)
    : c_result (buckets_error_t * list migration_task * scanner_state) :=
  match topology_to_ring (Some (sc_old_topology sc)), topology_to_ring (Some (sc_new_topology sc)) with
  | Some old_ring, Some new_ring =>
      let* ctxs := scan_disks old_ring new_ring disks in
      let sc := foldl add_counts sc ctxs in
      match concat (ctx_tasks <$> ctxs) with
      | [] => Val (BUCKETS_OK, [], set_complete sc)
      | merged => Val (BUCKETS_OK, qsort compare_tasks_by_size merged, set_complete sc)
      end
  | _, _ => Val (BUCKETS_ERR_NOMEM, [], sc)
  end.

Definition buckets_scanner_get_stats (sc : scanner_state) : Z * Z * Z * bool :=
  (sc_objects_scanned sc, sc_objects_affected sc, sc_bytes_affected sc, scan_complete sc).

(** ** The ring of a topology holds the virtual nodes of its sets *)

Definition position (t : buckets_cluster_topology) (p s : nat) : Prop :=
  ∃ pool set, pools t !! p = Some pool ∧ sets pool !! s = Some set.

(** Virtual node [i] of a set. *)
Definition set_vnode (r : buckets_ring) (p s i : nat) : buckets_vnode :=
  make_vnode (seed r) (ENCODE_NODE_ID (Z.of_nat p) (Z.of_nat s)) (node_name_of p s) i.

(** What a successful addition gives. *)
Lemma add_node_members r id name r' :
  ring_wf r → buckets_ring_add_node (Some r) id (Some name) = (BUCKETS_OK, Some r') →
  ring_wf r' ∧ seed r' = seed r ∧ vnodes_per_node r' = vnodes_per_node r ∧
  ∀ v, v ∈ vnodes r' ↔ v ∈ vnodes r ∨
    ∃ i, (i < Z.to_nat (vnodes_per_node r))%nat ∧ v = make_vnode (seed r) id name i.
Proof.
  intros Hwf Hadd. split; [by eapply add_node_wf|].
  assert (∀ v, v ∈ vnodes r → node_id v ≠ id) as Hfresh.
  { intros v Hv Hid. by rewrite (add_node_exists r id name v Hwf Hv Hid) in Hadd. }
  destruct (add_node_ok r id name Hwf Hfresh) as (x & Hx & Hp & _ & _ & Hpn & Hsd & _).
  rewrite Hx in Hadd. simplify_eq. split_and!; [done|done|]. intros v.
  rewrite Hp, elem_of_app, list_elem_of_fmap. setoid_rewrite elem_of_seq. naive_solver lia.
Qed.

Lemma add_sets_members l r p s r' :
  ring_wf r → add_sets r p s l = Some r' →
  ring_wf r' ∧ seed r' = seed r ∧ vnodes_per_node r' = vnodes_per_node r ∧
  ∀ v, v ∈ vnodes r' ↔ v ∈ vnodes r ∨
    ∃ j i, (j < length l)%nat ∧ (i < Z.to_nat (vnodes_per_node r))%nat ∧
           v = set_vnode r p (s + j) i.
Proof.
  revert r s. induction l as [|x l IH]; intros r s Hwf Hadd; cbn [add_sets length] in *.
  - simplify_eq. split_and!; [done..|]. naive_solver lia.
  - destruct (buckets_ring_add_node _ _ _) as [[] [r1|]] eqn:E; try done.
    destruct (add_node_members _ _ _ _ Hwf E) as (Hwf1 & Hsd & Hpn & Hm).
    destruct (IH r1 (S s) Hwf1 Hadd) as (Hwf' & Hsd' & Hpn' & Hm').
    split_and!; [done|congruence|congruence|]. intros v. rewrite Hm', Hm, Hpn. unfold set_vnode.
    rewrite Hsd. split.
    + intros [[?|(i & ? & ->)]|(j & i & ? & ? & ->)]; [by left|right|right].
      * exists 0%nat, i. rewrite Nat.add_0_r. split_and!; [lia|done|done].
      * exists (S j), i. rewrite Nat.add_succ_r. split_and!; [lia|done|done].
    + intros [?|([|j] & i & ? & ? & ->)]; [by left; left|left; right|right].
      * exists i. by rewrite Nat.add_0_r.
      * exists j, i. rewrite Nat.add_succ_r. split_and!; [lia|done|done].
Qed.

Lemma add_pools_members l r p r' :
  ring_wf r → add_pools r p l = Some r' →
  ring_wf r' ∧ seed r' = seed r ∧ vnodes_per_node r' = vnodes_per_node r ∧
  ∀ v, v ∈ vnodes r' ↔ v ∈ vnodes r ∨
    ∃ k pool s i, l !! k = Some pool ∧ (s < length (sets pool))%nat ∧
      (i < Z.to_nat (vnodes_per_node r))%nat ∧ v = set_vnode r (p + k) s i.
Proof.
  revert r p. induction l as [|pool l IH]; intros r p Hwf Hadd; cbn [add_pools] in *.
  - simplify_eq. split_and!; [done..|]. set_solver.
  - destruct (add_sets r p 0 (sets pool)) as [r1|] eqn:E; [|done].
    destruct (add_sets_members _ _ _ _ _ Hwf E) as (Hwf1 & Hsd & Hpn & Hm).
    destruct (IH r1 (S p) Hwf1 Hadd) as (Hwf' & Hsd' & Hpn' & Hm').
    split_and!; [done|congruence|congruence|]. intros v. rewrite Hm', Hm, Hpn. unfold set_vnode.
    rewrite Hsd. split.
    + intros [[?|(j & i & ? & ? & ->)]|(k & pl & s & i & ? & ? & ? & ->)]; [by left|right|right].
      * exists 0%nat, pool, j, i. by rewrite Nat.add_0_r.
      * exists (S k), pl, s, i. by rewrite Nat.add_succ_r.
    + intros [?|([|k] & pl & s & i & Hk & ? & ? & ->)]; [by left; left|left; right|right].
      * simplify_eq/=. exists s, i. by rewrite Nat.add_0_r.
      * exists k, pl, s, i. by rewrite Nat.add_succ_r.
Qed.

Lemma topology_ring_members t r :
  topology_to_ring (Some t) = Some r →
  ring_wf r ∧ seed r = 0 ∧
  ∀ v, v ∈ vnodes r ↔ ∃ p s i, position t p s ∧ (i < 150)%nat ∧
    v = make_vnode 0 (ENCODE_NODE_ID (Z.of_nat p) (Z.of_nat s)) (node_name_of p s) i.
Proof.
  unfold topology_to_ring. destruct (buckets_ring_create 150 0) as [r0|] eqn:E; [|done].
  pose proof (create_wf _ _ _ E) as Hwf. apply (inj Some) in E. subst r0. intros Hadd.
  destruct (add_pools_members _ _ _ _ Hwf Hadd) as (Hwf' & Hsd & _ & Hm).
  split_and!; [done|done|]. intros v. rewrite Hm. split.
  - intros [[]%elem_of_nil|(k & pool & s & i & Hk & Hs & Hi & ->)].
    destruct (lookup_lt_is_Some_2 _ _ Hs) as [set Hset]. exists k, s, i.
    split; [by exists pool, set|]. split; [|done]. exact Hi.
  - intros (p & s & i & (pool & set & Hp & Hs) & Hi & ->). right. exists p, pool, s, i.
    split_and!; [done|by eapply lookup_lt_Some|exact Hi|done].
Qed.

Lemma lookup_defined r name : ring_wf r → ∃ z, buckets_ring_lookup (Some r) (Some name) = Val z.
Proof.
  intros Hwf. destruct (decide (vnodes r = [])) as [Hnil|Hne].
  - exists (-1). unfold buckets_ring_lookup. by rewrite (wf_count _ Hwf), Hnil.
  - destruct (lookup_nearest r name Hwf Hne) as (v & _ & ->). eauto.
Qed.

(** ** The walk visits every object once *)

(** [object_in d prefix o size mtime]: an [xl.meta] of that size lies in the directory that
    the walk reaches under the key [o]. *)
Inductive object_in : node → string → string → Z → Z → Prop :=
  | object_here entries prefix size mtime :
      ("xl.meta", NFile size mtime) ∈ entries →
      object_in (NDir true entries) prefix prefix size mtime
  | object_below entries prefix name readable sub o size mtime :
      (name, NDir readable sub) ∈ entries → skipped name = false →
      object_in (NDir readable sub) (join_prefix prefix name) o size mtime →
      object_in (NDir true entries) prefix o size mtime.

(** The objects in the order of the walk. *)
Fixpoint dir_objects (dir : node) (prefix : string) : list (string * Z * Z) :=
  match dir with
  | NDir true entries =>
      (fix go (l : list (string * node)) :=
         match l with
         | [] => []
         | (name, e) :: l =>
             (if skipped name then [] else
              match e with
              | NGone => []
              | NDir _ _ => dir_objects e (join_prefix prefix name)
              | NFile size mtime => if String.eqb name "xl.meta" then [(prefix, size, mtime)] else []
              end) ++ go l
         end) entries
  | _ => []
  end.

(** The objects of one entry of a directory. *)
Definition entry_objects (prefix : string) (x : string * node) : list (string * Z * Z) :=
  let (name, e) := x in
  if skipped name then [] else
  match e with
  | NGone => []
  | NDir _ _ => dir_objects e (join_prefix prefix name)
  | NFile size mtime => if String.eqb name "xl.meta" then [(prefix, size, mtime)] else []
  end.

Lemma dir_objects_entries entries prefix :
  dir_objects (NDir true entries) prefix = concat (map (entry_objects prefix) entries).
Proof. induction entries as [|[name e] l IH]; [done|]. simpl in *. by rewrite <-IH. Qed.

Lemma node_tree_ind (P : node → Prop) :
  (∀ size mtime, P (NFile size mtime)) → P NGone →
  (∀ b entries, Forall (λ x, P x.2) entries → P (NDir b entries)) → ∀ n, P n.
Proof.
  intros Hf Hg Hd. fix IH 1. intros [size mtime|b entries|]; [apply Hf| |apply Hg].
  apply Hd. induction entries as [|[name e] l IHl]; constructor; [apply IH|apply IHl].
Qed.

Lemma elem_of_dir_objects dir prefix o size mtime :
  (o, size, mtime) ∈ dir_objects dir prefix ↔ object_in dir prefix o size mtime.
Proof.
  revert prefix. induction dir as [? ?| |[] entries IH] using node_tree_ind; intros prefix;
    [split; [by intros []%elem_of_nil|by inversion 1]..| |
     split; [by intros []%elem_of_nil|by inversion 1]].
  rewrite Forall_forall in IH. rewrite dir_objects_entries, elem_of_concat. split.
  - intros (l & ([name e] & <- & Hx%list_elem_of_In)%list_elem_of_In%in_map_iff & Ho).
    simpl in Ho. destruct (skipped name) eqn:Hsk; [by apply elem_of_nil in Ho|].
    destruct e as [sz mt|rd sub|].
    + destruct (String.eqb_spec name "xl.meta") as [->|]; [|by apply elem_of_nil in Ho].
      apply list_elem_of_singleton in Ho. simplify_eq. by apply object_here.
    + eapply object_below; [done|done|]. by apply (IH (name, NDir rd sub)).
    + by apply elem_of_nil in Ho.
  - intros Ho. inversion Ho as [? ? ? ? Hx|? ? name rd sub ? ? ? Hx Hsk Hsub]; simplify_eq.
    + eexists. split; [apply list_elem_of_In, in_map_iff; eexists; split;
        [reflexivity|by apply list_elem_of_In]|]. simpl. set_solver.
    + eexists. split; [apply list_elem_of_In, in_map_iff; eexists; split;
        [reflexivity|by apply list_elem_of_In]|]. simpl. rewrite Hsk.
      by apply (IH (name, NDir rd sub)).
Qed.

(** *** Copies and their places *)

(** A copy is told from others by its place: the positions of the entries on the way to it. *)
Inductive object_at : node → string → list nat → string → Z → Z → Prop :=
  | at_here entries prefix i size mtime :
      entries !! i = Some ("xl.meta", NFile size mtime) →
      object_at (NDir true entries) prefix [i] prefix size mtime
  | at_below entries prefix i name readable sub path o size mtime :
      entries !! i = Some (name, NDir readable sub) → skipped name = false →
      object_at (NDir readable sub) (join_prefix prefix name) path o size mtime →
      object_at (NDir true entries) prefix (i :: path) o size mtime.

(** The metadata of object [o] of a bucket lies at a place of the disks [ds]: the position of the
    disk, that of the bucket, and the way inside the bucket. *)
Inductive copy_at (ds : list node) : list nat → string → string → Z → Z → Prop :=
  | copy_at_intro d j entries bucket readable sub path o size mtime :
      ds !! d = Some (NDir true entries) → entries !! j = Some (bucket, NDir readable sub) →
      skipped bucket = false → object_at (NDir readable sub) "" path o size mtime →
      copy_at ds (d :: j :: path) bucket o size mtime.

(** [l] has one element for each place, the one that [R] relates to it. *)
Definition listed {B} (l : list B) (R : list nat → B → Prop) : Prop :=
  ∃ cs : list (list nat * B), NoDup cs.*1 ∧ cs.*2 = l ∧ ∀ a b, (a, b) ∈ cs ↔ R a b.

Lemma listed_ext {B} (l : list B) (R R' : list nat → B → Prop) :
  (∀ a b, R a b ↔ R' a b) → listed l R → listed l R'.
Proof. intros He (cs & Hn & Hl & Hr). exists cs. split_and!; [done..|]. intros a b. by rewrite Hr. Qed.

Lemma listed_nil {B} (R : list nat → B → Prop) : (∀ a b, ¬ R a b) → listed [] R.
Proof.
  intros Hno. exists []. split_and!; [constructor|done|]. intros a b.
  split; [by intros []%elem_of_nil|]. by intros []%Hno.
Qed.

Lemma listed_one {B} a (b : B) : listed [b] (λ a' b', a' = a ∧ b' = b).
Proof.
  exists [(a, b)]. split_and!; [apply NoDup_singleton|done|]. intros a' b'.
  rewrite list_elem_of_singleton. naive_solver.
Qed.

Lemma listed_app {B} (l k : list B) R1 R2 :
  listed l R1 → listed k R2 → (∀ a b b', R1 a b → ¬ R2 a b') →
  listed (l ++ k) (λ a b, R1 a b ∨ R2 a b).
Proof.
  intros (c1 & N1 & <- & H1) (c2 & N2 & <- & H2) Hd. exists (c1 ++ c2). split_and!.
  - rewrite fmap_app. apply NoDup_app. split_and!; [done| |done].
    intros a Ha Ha'. apply list_elem_of_fmap in Ha as ([a1 b] & -> & Hb).
    apply list_elem_of_fmap in Ha' as ([a2 b'] & E & Hb'). cbn in E. subst a2.
    apply (Hd a1 b b'); [by apply H1|by apply H2].
  - by rewrite fmap_app.
  - intros a b. by rewrite elem_of_app, H1, H2.
Qed.

Lemma listed_cons {B} (l : list B) R i :
  listed l R → listed l (λ a b, ∃ q, a = i :: q ∧ R q b).
Proof.
  intros (cs & Hn & <- & Hr). exists (prod_map (cons i) id <$> cs). split_and!.
  - replace ((prod_map (cons i) id <$> cs).*1) with (cons i <$> cs.*1) by (by rewrite <-!list_fmap_compose).
    apply NoDup_fmap_2; [by intros ? ? [=]|done].
  - by rewrite <-list_fmap_compose.
  - intros a b. rewrite list_elem_of_fmap. split.
    + intros ([q b'] & [= -> ->] & Hq). exists q. by rewrite <-Hr.
    + intros (q & -> & Hq). exists (q, b). by rewrite Hr.
Qed.

Lemma listed_concat {A B} (f : A → list B) (R : A → list nat → B → Prop) (l : list A) :
  Forall (λ x, listed (f x) (R x)) l →
  listed (concat (map f l)) (λ a b, ∃ i q x, a = i :: q ∧ l !! i = Some x ∧ R x q b).
Proof.
  intros Hl. enough (∀ k, listed (concat (map f l))
    (λ a b, ∃ i q x, a = (k + i)%nat :: q ∧ l !! i = Some x ∧ R x q b)) as H0 by exact (H0 0%nat).
  induction Hl as [|x l Hx _ IH]; intros k; [by apply listed_nil; intros ? ? (? & ? & ? & _ & ? & _)|].
  cbn [map concat]. eapply listed_ext; [|apply (listed_app _ _ _ _ (listed_cons _ _ k Hx) (IH (S k)))].
  - intros a b. split.
    + intros [(q & -> & ?)|(i & q & y & -> & ? & ?)].
      * exists 0%nat, q, x. by rewrite Nat.add_0_r.
      * exists (S i), q, y. by rewrite Nat.add_succ_r.
    + intros ([|i] & q & y & -> & Hi & ?); [left|right].
      * injection Hi as ->. exists q. by rewrite Nat.add_0_r.
      * exists i, q, y. by rewrite Nat.add_succ_r.
  - intros a b b' (q & -> & _) (i & q' & y & [= E _] & _). lia.
Qed.

Lemma listed_omap {B C} (f : B → option C) (l : list B) R :
  listed l R → listed (omap f l) (λ a c, ∃ b, R a b ∧ f b = Some c).
Proof.
  intros (cs & Hn & <- & Hr).
  exists (omap (λ x, (x.1,.) <$> f x.2) cs). split_and!.
  - clear Hr. induction cs as [|[a b] cs IH]; csimpl in *; [done|].
    apply NoDup_cons in Hn as [Ha Hn]. destruct (f b) as [c|]; [|by apply IH].
    csimpl. apply NoDup_cons. split; [|by apply IH]. intros Hc. apply Ha.
    apply list_elem_of_fmap in Hc as ([a' c'] & -> & ([a2 b2] & Hin & E)%list_elem_of_omap).
    cbn in E. destruct (f b2); simplify_eq/=. apply list_elem_of_fmap. by exists (a', b2).
  - clear. induction cs as [|[a b] cs IH]; csimpl; [done|]. destruct (f b); csimpl; by rewrite IH.
  - intros a c. rewrite list_elem_of_omap. split.
    + intros ([a' b] & Hin & E). csimpl in E. destruct (f b) eqn:Ef; simplify_eq/=.
      exists b. by rewrite <-Hr.
    + intros (b & Hb%Hr & E). exists (a, b). split; [done|]. csimpl. by rewrite E.
Qed.

Lemma listed_order {B} (l k : list B) R :
  listed l R → k ≡ₚ l →
  ∃ places, NoDup places ∧ (∀ a, a ∈ places ↔ ∃ b, R a b) ∧ Forall2 R places k.
Proof.
  intros (cs & Hn & <- & Hr) [cs' [-> Hp]]%Permutation_map_inv.
  assert (∀ x, x ∈ cs' ↔ x ∈ cs) as Hin by (intros x; by rewrite Hp).
  exists cs'.*1. split_and!; [by rewrite <-Hp| |].
  - intros a. rewrite list_elem_of_fmap. split.
    + intros ([a' b] & -> & Hb). exists b. by apply Hr, Hin.
    + intros (b & Hb%Hr%Hin). by exists (a, b).
  - apply Forall2_fmap_2, Forall_Forall2_diag, Forall_forall. intros [a b] Hb. by apply Hr, Hin.
Qed.

Lemma listed_objects dir prefix :
  listed (dir_objects dir prefix) (λ path x, object_at dir prefix path x.1.1 x.1.2 x.2).
Proof.
  revert prefix. induction dir as [? ?| |[] entries IH] using node_tree_ind; intros prefix;
    [by apply listed_nil; intros ? ?; inversion 1..| |by apply listed_nil; intros ? ?; inversion 1].
  rewrite dir_objects_entries. eapply listed_ext; [|apply (listed_concat _ (λ x path b,
    (x.1 = "xl.meta" ∧ x.2 = NFile b.1.2 b.2 ∧ path = [] ∧ b.1.1 = prefix) ∨
    (∃ readable sub, x.2 = NDir readable sub ∧ skipped x.1 = false ∧
       object_at x.2 (join_prefix prefix x.1) path b.1.1 b.1.2 b.2)))].
  - intros a [[o size] mtime]. cbn. split.
    + intros (i & q & [name e] & -> & Hi & [(? & ? & ? & ?)|(rd & sub & ? & Hsk & Ho)]); simplify_eq/=;
        [by apply at_here|by eapply at_below].
    + inversion 1; simplify_eq; eexists _, _, _; (split_and!; [done|done|]); [by left|right; eauto].
  - eapply Forall_impl; [exact IH|]. intros [name e] He. cbn in *. destruct (skipped name) eqn:Hsk.
    { apply listed_nil. intros a b [(-> & _)|(? & ? & _ & ? & _)]; [by vm_compute in Hsk|congruence]. }
    destruct e as [size mtime|rd sub|].
    + destruct (String.eqb_spec name "xl.meta") as [->|Hne].
      * eapply listed_ext; [|apply (listed_one [] (prefix, size, mtime))]. intros a [[o s] m]. cbn.
        split; [intros [-> [= -> -> ->]]; by left|intros [(_ & [= -> ->] & -> & ->)|(? & ? & ? & _)]; done].
      * apply listed_nil. intros a b [(? & _)|(? & ? & ? & _)]; done.
    + eapply listed_ext; [|apply He]. intros a b. split; [right; eauto|].
      intros [(_ & ? & _)|(? & ? & _ & _ & ?)]; done.
    + apply listed_nil. intros a b [(_ & ? & _)|(? & ? & ? & _)]; done.
Qed.

(** *** What the walk accumulates *)

Section Accumulate.
Context (old_ring new_ring : buckets_ring) (Hold : ring_wf old_ring) (Hnew : ring_wf new_ring).

(** The task of an object, if its place changes. *)
Definition task_for (bucket : string) (x : string * Z * Z) : option migration_task :=
  let '(o, size, mtime) := x in
  match needs_migration old_ring new_ring bucket o with
  | Val (Some (p, s, p', s')) =>
      Some (Task (snprintf 256 bucket) (snprintf 1024 o) (snprintf 64 "") p s p' s' size mtime 0 0)
  | _ => None
  end.

Definition extend (bucket : string) (l : list (string * Z * Z)) (ctx : disk_scanner_ctx)
    : disk_scanner_ctx :=
  let ts := omap (task_for bucket) l in
  DiskCtx (ctx_tasks ctx ++ ts) (objects_scanned ctx + Z.of_nat (length l))
    (objects_affected ctx + Z.of_nat (length ts)) (bytes_affected ctx + total_bytes ts).

Lemma extend_app bucket l k ctx :
  extend bucket k (extend bucket l ctx) = extend bucket (l ++ k) ctx.
Proof using Type.
  clear. unfold extend. simpl. rewrite omap_app, <-app_assoc, !length_app, total_bytes_app.
  f_equal; lia.
Qed.

Lemma extend_nil bucket ctx : extend bucket [] ctx = ctx.
Proof using Type. clear. destruct ctx. unfold extend. simpl. f_equal; [apply app_nil_r|lia..]. Qed.

Lemma scan_object_extend bucket o size mtime ctx :
  scan_object old_ring new_ring bucket o size mtime ctx = Val (extend bucket [(o, size, mtime)] ctx).
Proof using Hold Hnew.
  assert (∃ p, needs_migration old_ring new_ring bucket o = Val p) as [pl Hpl].
  { unfold needs_migration.
    destruct (lookup_defined old_ring (object_key bucket o) Hold) as [z ->]. cbn [c_bind].
    destruct (z <? 0); [by eexists|].
    destruct (lookup_defined new_ring (object_key bucket o) Hnew) as [z' ->]. cbn [c_bind].
    destruct (z' <? 0); [by eexists|]. destruct (z =? z'); by eexists. }
  unfold scan_object. rewrite Hpl. cbn [c_bind]. unfold extend. simpl. rewrite Hpl.
  destruct pl as [[[[p s] p'] s']|]; simpl; do 2 f_equal; try lia.
  unfold count_scanned. rewrite app_nil_r, !Z.add_0_r. done.
Qed.

Lemma scan_directory_extend bucket dir prefix ctx :
  scan_directory old_ring new_ring bucket dir prefix ctx =
    Val (extend bucket (dir_objects dir prefix) ctx).
Proof using Hold Hnew.
  revert prefix ctx. induction dir as [? ?| |[] entries IH] using node_tree_ind;
    intros prefix ctx; [by simpl; rewrite extend_nil..| |by simpl; rewrite extend_nil].
  simpl. revert ctx. induction IH as [|[name e] l Hx _ IHl]; intros ctx; [by rewrite extend_nil|].
  rewrite <-extend_app. simpl in Hx.
  destruct (skipped name); [cbn [c_bind]; by rewrite IHl, extend_nil|].
  destruct e as [size mtime|rd sub|].
  - destruct (String.eqb name "xl.meta"); [|cbn [c_bind]; by rewrite IHl, extend_nil].
    rewrite scan_object_extend. cbn [c_bind]. by rewrite IHl.
  - rewrite Hx. cbn [c_bind]. by rewrite IHl.
  - cbn [c_bind]. by rewrite IHl, extend_nil.
Qed.

(** The tasks of one bucket, and of one disk. *)
Definition bucket_tasks (x : string * node) : list migration_task :=
  let (name, e) := x in
  if skipped name then [] else
  match e with NDir _ _ => omap (task_for name) (dir_objects e "") | _ => [] end.
Definition disk_tasks (d : node) : list migration_task :=
  match d with NDir true entries => concat (map bucket_tasks entries) | _ => [] end.

Lemma scan_buckets_spec entries ctx :
  ∃ ctx', scan_buckets old_ring new_ring entries ctx = Val ctx' ∧
    ctx_tasks ctx' = ctx_tasks ctx ++ concat (map bucket_tasks entries) ∧
    objects_affected ctx' - Z.of_nat (length (ctx_tasks ctx'))
      = objects_affected ctx - Z.of_nat (length (ctx_tasks ctx)) ∧
    bytes_affected ctx' - total_bytes (ctx_tasks ctx')
      = bytes_affected ctx - total_bytes (ctx_tasks ctx).
Proof using Hold Hnew.
  revert ctx. induction entries as [|[name e] l IH]; intros ctx; cbn [scan_buckets map concat].
  { exists ctx. by rewrite app_nil_r. }
  unfold bucket_tasks at 1. destruct (skipped name); [cbn [c_bind]; apply IH|].
  destruct e as [size mtime|rd sub|]; [cbn [c_bind]; apply IH| |cbn [c_bind]; apply IH].
  rewrite scan_directory_extend. cbn [c_bind].
  destruct (IH (extend name (dir_objects (NDir rd sub) "") ctx)) as (ctx' & -> & Ht & Ha & Hb).
  exists ctx'. split; [done|]. rewrite app_assoc. split; [exact Ht|].
  unfold extend in *. cbn [ctx_tasks objects_affected bytes_affected] in *.
  rewrite length_app, total_bytes_app in *. lia.
Qed.

Lemma scan_disks_spec ds :
  ∃ ctxs, scan_disks old_ring new_ring ds = Val ctxs ∧ (ctx_tasks <$> ctxs) = map disk_tasks ds ∧
    Forall (λ c, objects_affected c = Z.of_nat (length (ctx_tasks c)) ∧
                 bytes_affected c = total_bytes (ctx_tasks c)) ctxs.
Proof using Hold Hnew.
  induction ds as [|d ds (ctxs & Hs & Ht & Hf)]; cbn [scan_disks map]; [by exists []|].
  assert (∃ c, scan_disk_buckets old_ring new_ring d ctx_init = Val c ∧ ctx_tasks c = disk_tasks d ∧
            objects_affected c = Z.of_nat (length (ctx_tasks c)) ∧
            bytes_affected c = total_bytes (ctx_tasks c)) as (c & -> & Hc & Hcs).
  { destruct d as [?|[] entries|]; try by exists ctx_init.
    destruct (scan_buckets_spec entries ctx_init) as (c & Hc & Hct & ? & ?). exists c.
    split_and!; [done|done|simpl in *; lia..]. }
  cbn [c_bind]. rewrite Hs. cbn [c_bind]. exists (c :: ctxs). split; [done|]. csimpl.
  split; [by rewrite Hc, Ht|]. by constructor.
Qed.

(** Every task, with the object it is for. *)
Definition on_disk (d : node) (bucket o : string) (size mtime : Z) : Prop :=
  ∃ entries readable sub, d = NDir true entries ∧ (bucket, NDir readable sub) ∈ entries ∧
    skipped bucket = false ∧ object_in (NDir readable sub) "" o size mtime.

(** The object moves from node [zo] to node [zn]. *)
Definition moves (bucket o : string) (zo zn : Z) : Prop :=
  buckets_ring_lookup (Some old_ring) (Some (object_key bucket o)) = Val zo ∧
  buckets_ring_lookup (Some new_ring) (Some (object_key bucket o)) = Val zn ∧
  0 ≤ zo ∧ 0 ≤ zn ∧ zo ≠ zn.

Definition move_task (bucket o : string) (size mtime zo zn : Z) : migration_task :=
  Task (snprintf 256 bucket) (snprintf 1024 o) (snprintf 64 "") (DECODE_POOL zo) (DECODE_SET zo)
    (DECODE_POOL zn) (DECODE_SET zn) size mtime 0 0.

Lemma task_for_Some bucket o size mtime t :
  task_for bucket (o, size, mtime) = Some t ↔
    ∃ zo zn, moves bucket o zo zn ∧ t = move_task bucket o size mtime zo zn.
Proof using Hold Hnew.
  unfold task_for, needs_migration, moves, move_task.
  destruct (lookup_defined old_ring (object_key bucket o) Hold) as [zo ->].
  destruct (lookup_defined new_ring (object_key bucket o) Hnew) as [zn ->]. cbn [c_bind]. split.
  - destruct (zo <? 0) eqn:E1; [done|]. destruct (zn <? 0) eqn:E2; [done|].
    destruct (zo =? zn) eqn:E3; [done|]. breflect. intros Ht. apply (inj Some) in Ht. subst t. eauto 10.
  - intros (zo' & zn' & (E1 & E2 & Hzo & Hzn & Hne) & ->). simplify_eq.
    rewrite (proj2 (Z.ltb_ge _ _)), (proj2 (Z.ltb_ge _ _)) by done.
    by rewrite (proj2 (Z.eqb_neq _ _)).
Qed.

Lemma elem_of_disk_tasks d t :
  t ∈ disk_tasks d ↔ ∃ bucket o size mtime zo zn, on_disk d bucket o size mtime ∧
    moves bucket o zo zn ∧ t = move_task bucket o size mtime zo zn.
Proof using Hold Hnew.
  unfold disk_tasks, on_disk. split.
  - destruct d as [?|[] entries|]; try by intros []%elem_of_nil.
    intros (l & ([name e] & <- & Hx%list_elem_of_In)%list_elem_of_In%in_map_iff & Ht)%elem_of_concat.
    simpl in Ht. destruct (skipped name) eqn:Hsk; [by apply elem_of_nil in Ht|].
    destruct e as [?|rd sub|]; try by apply elem_of_nil in Ht.
    apply list_elem_of_omap in Ht as ([[o size] mtime] & Ho%elem_of_dir_objects & Htf).
    apply task_for_Some in Htf as (zo & zn & ? & ->).
    exists name, o, size, mtime, zo, zn. split; [|done]. by exists entries, rd, sub.
  - intros (b & o & size & mtime & zo & zn & (entries & rd & sub & -> & Hx & Hsk & Ho) & Hm & ->).
    apply elem_of_concat. exists (bucket_tasks (b, NDir rd sub)). split.
    + apply list_elem_of_In, in_map_iff. exists (b, NDir rd sub). split; [done|].
      by apply list_elem_of_In.
    + unfold bucket_tasks. rewrite Hsk. apply list_elem_of_omap. exists (o, size, mtime).
      split; [by apply elem_of_dir_objects|]. apply task_for_Some. eauto.
Qed.

(** One task for each copy that moves. *)
Lemma listed_tasks ds :
  listed (concat (map disk_tasks ds)) (λ path t, ∃ bucket o size mtime zo zn,
    copy_at ds path bucket o size mtime ∧ moves bucket o zo zn ∧ t = move_task bucket o size mtime zo zn).
Proof using Hold Hnew.
  set (here x path t := ∃ o size mtime zo zn, (∃ readable sub, x.2 = NDir readable sub) ∧ skipped x.1 = false ∧
    object_at x.2 "" path o size mtime ∧ moves x.1 o zo zn ∧ t = move_task x.1 o size mtime zo zn).
  assert (∀ x, listed (bucket_tasks x) (here x)) as Hb.
  { intros [name e]. unfold bucket_tasks, here. cbn. destruct (skipped name) eqn:Hsk.
    { apply listed_nil. by intros ? ? (? & ? & ? & ? & ? & _ & ? & _). }
    destruct e as [?|rd sub|]; try (by apply listed_nil; intros ? ? (? & ? & ? & ? & ? & (? & ? & ?) & _)).
    eapply listed_ext; [|apply listed_omap, listed_objects]. intros a t. split.
    - intros ([[o size] mtime] & Ho & (zo & zn & ? & ->)%task_for_Some). exists o, size, mtime, zo, zn. eauto 10.
    - intros (o & size & mtime & zo & zn & _ & _ & Ho & Hm & ->). exists (o, size, mtime).
      split; [done|]. apply task_for_Some. eauto. }
  eapply listed_ext; [|apply (listed_concat _ (λ d path t, ∃ entries j q x,
    d = NDir true entries ∧ path = j :: q ∧ entries !! j = Some x ∧ here x q t))].
  - intros a t. split.
    + intros (d & p & ? & -> & Hd & entries & j & q & [b e] & -> & -> & Hj & Hh).
      destruct Hh as (o & size & mtime & zo & zn & (rd & sub & E) & ? & Ho & ? & ->). cbn in *. subst e.
      exists b, o, size, mtime, zo, zn. split; [by eapply copy_at_intro|done].
    + intros (b & o & size & mtime & zo & zn & Hc & Hm & ->). inversion Hc; simplify_eq.
      eexists _, _, _. split_and!; [done..|]. eexists _, _, _, _. split_and!; [done..|].
      exists o, size, mtime, zo, zn. eauto 10.
  - apply Forall_forall. intros d _. destruct d as [?|[] entries|];
      try (by apply listed_nil; intros ? ? (? & ? & ? & ? & ? & _)).
    eapply listed_ext; [|apply (listed_concat bucket_tasks here)]; [|by apply Forall_forall].
    intros a t. split.
    + intros (j & q & x & -> & ? & ?). by exists entries, j, q, x.
    + intros (? & j & q & x & [= <-] & -> & ? & ?). by exists j, q, x.
Qed.
End Accumulate.

Lemma foldl_counts sc ctxs :
  sc_objects_affected (foldl add_counts sc ctxs) =
    sc_objects_affected sc + foldr (λ c n, objects_affected c + n) 0 ctxs ∧
  sc_bytes_affected (foldl add_counts sc ctxs) =
    sc_bytes_affected sc + foldr (λ c n, bytes_affected c + n) 0 ctxs.
Proof.
  revert sc. induction ctxs as [|c ctxs IH]; intros sc; simpl; [lia|].
  destruct (IH (add_counts sc c)) as [-> ->]. simpl. lia.
Qed.

(** What the scan returns, as a permutation of the tasks of all disks. *)
Lemma scan_spec sc ds ro rn :
  topology_to_ring (Some (sc_old_topology sc)) = Some ro →
  topology_to_ring (Some (sc_new_topology sc)) = Some rn →
  ∃ ts sc', buckets_scanner_scan sc ds = Val (BUCKETS_OK, ts, sc') ∧
    ts ≡ₚ concat (map (disk_tasks ro rn) ds) ∧ hash_sorted t_size ts ∧
    sc_objects_affected sc' = sc_objects_affected sc + Z.of_nat (length ts) ∧
    sc_bytes_affected sc' = sc_bytes_affected sc + total_bytes ts ∧ scan_complete sc' = true.
Proof.
  intros Ho Hn. destruct (topology_ring_members _ _ Ho) as (Hwo & _).
  destruct (topology_ring_members _ _ Hn) as (Hwn & _).
  unfold buckets_scanner_scan. rewrite Ho, Hn.
  destruct (scan_disks_spec ro rn Hwo Hwn ds) as (ctxs & -> & Ht & Hf). cbn [c_bind].
  rewrite <-Ht. set (sc1 := foldl add_counts sc ctxs).
  assert (sc_objects_affected sc1 = sc_objects_affected sc
            + Z.of_nat (length (concat (ctx_tasks <$> ctxs))) ∧
          sc_bytes_affected sc1 = sc_bytes_affected sc
            + total_bytes (concat (ctx_tasks <$> ctxs))) as [Ha Hb].
  { unfold sc1. destruct (foldl_counts sc ctxs) as [-> ->]. clear -Hf.
    induction Hf as [|c ctxs [Hc1 Hc2] _ [IH1 IH2]]; csimpl; [simpl; lia|].
    rewrite length_app, total_bytes_app. lia. }
  destruct (concat (ctx_tasks <$> ctxs)) as [|t0 merged] eqn:Hmerged.
  - eexists [], _. split; [done|]. simpl in *. split_and!; try done; try lia. constructor.
  - rewrite <-Hmerged in *. set (m := concat (ctx_tasks <$> ctxs)) in *.
    pose proof (qsort_perm compare_tasks_by_size m) as Hp.
    eexists _, _. split; [done|]. split_and!.
    + done.
    + apply (qsort_hash_sorted t_size).
    + simpl. by rewrite Ha, (Permutation_length Hp).
    + simpl. by rewrite Hb, (total_bytes_perm _ _ Hp).
    + done.
Qed.

Lemma elem_of_scan_tasks ro rn ds t :
  ring_wf ro → ring_wf rn →
  t ∈ concat (map (disk_tasks ro rn) ds) ↔ ∃ d bucket o size mtime zo zn, d ∈ ds ∧
    on_disk d bucket o size mtime ∧ moves ro rn bucket o zo zn ∧
    t = move_task bucket o size mtime zo zn.
Proof.
  intros Hwo Hwn. rewrite elem_of_concat. split.
  - intros (l & (d & <- & Hd%list_elem_of_In)%list_elem_of_In%in_map_iff & Ht).
    apply elem_of_disk_tasks in Ht as (b & o & sz & mt & zo & zn & ?); [|done..].
    by exists d, b, o, sz, mt, zo, zn.
  - intros (d & b & o & sz & mt & zo & zn & Hd & ?). exists (disk_tasks ro rn d). split.
    + apply list_elem_of_In, in_map_iff. exists d. split; [done|]. by apply list_elem_of_In.
    + apply elem_of_disk_tasks; [done..|]. by exists b, o, sz, mt, zo, zn.
Qed.

(** *** Where tasks come from and go to *)

Lemma encode_decode p s :
  (s < 1000)%nat →
  DECODE_POOL (ENCODE_NODE_ID (Z.of_nat p) (Z.of_nat s)) = Z.of_nat p ∧
  DECODE_SET (ENCODE_NODE_ID (Z.of_nat p) (Z.of_nat s)) = Z.of_nat s.
Proof.
  intros. unfold DECODE_POOL, DECODE_SET, ENCODE_NODE_ID.
  rewrite Z.quot_div_nonneg, Z.rem_mod_nonneg by lia. rewrite Z.add_comm.
  rewrite Z.div_add, Z.mod_add by lia. rewrite Z.div_small, Z.mod_small by lia. lia.
Qed.

(** No pool has more sets than an id has room for. *)
Definition ids_fit (t : buckets_cluster_topology) : Prop :=
  Forall (λ pool, (length (sets pool) ≤ 1000)%nat) (pools t).

Lemma position_fits t p s : ids_fit t → position t p s → (s < 1000)%nat.
Proof.
  intros Hf (pool & set & Hp & Hs). eapply Forall_lookup_1 in Hf; [|done].
  apply lookup_lt_Some in Hs. lia.
Qed.

Lemma position_c_set t p s :
  position t p s → ∃ set, c_set t (Z.of_nat p) (Z.of_nat s) = Val set.
Proof.
  intros (pool & set & Hp & Hs). exists set. unfold c_set.
  rewrite (proj2 (Z.ltb_ge _ _)), (proj2 (Z.ltb_ge _ _)) by lia. simpl.
  rewrite !Nat2Z.id. unfold c_read. rewrite Hp. cbn [c_bind]. by rewrite Hs.
Qed.

(** The node of an object is a set of the topology. *)
Lemma lookup_position t r key z :
  topology_to_ring (Some t) = Some r → ids_fit t →
  buckets_ring_lookup (Some r) (Some key) = Val z → 0 ≤ z →
  ∃ p s, position t p s ∧ z = ENCODE_NODE_ID (Z.of_nat p) (Z.of_nat s) ∧
    DECODE_POOL z = Z.of_nat p ∧ DECODE_SET z = Z.of_nat s.
Proof.
  intros Hr Hf Hl Hz. destruct (topology_ring_members _ _ Hr) as (Hwf & _ & Hm).
  destruct (decide (vnodes r = [])) as [Hnil|Hne].
  { unfold buckets_ring_lookup in Hl. rewrite (wf_count _ Hwf), Hnil in Hl. simpl in Hl.
    simplify_eq. lia. }
  destruct (lookup_nearest r key Hwf Hne) as (v & [Hv _] & E). rewrite Hl in E. simplify_eq.
  apply Hm in Hv as (p & s & i & Hpos & _ & ->). cbn [make_vnode node_id] in *.
  exists p, s. split; [done|]. split; [done|]. apply encode_decode. by eapply position_fits.
Qed.

(** When the topology grows, an object moves onto a new set or stays. *)
Lemma growth_lookup t t' r r' key :
  topology_to_ring (Some t) = Some r → topology_to_ring (Some t') = Some r' →
  (∀ p s, position t p s → position t' p s) → NoDup (vn_hash <$> vnodes r') → vnodes r ≠ [] →
  (∃ p s, position t' p s ∧ ¬ position t p s ∧
     buckets_ring_lookup (Some r') (Some key) = Val (ENCODE_NODE_ID (Z.of_nat p) (Z.of_nat s))) ∨
  buckets_ring_lookup (Some r') (Some key) = buckets_ring_lookup (Some r) (Some key).
Proof.
  intros Hr Hr' Hgrow Hnd Hne. destruct (topology_ring_members _ _ Hr) as (Hwf & Hsd & Hm).
  destruct (topology_ring_members _ _ Hr') as (Hwf' & Hsd' & Hm').
  assert (∀ v, v ∈ vnodes r → v ∈ vnodes r') as Hsub.
  { intros v (p & s & i & Hp & Hi & ->)%Hm. apply Hm'. exists p, s, i. auto. }
  assert (vnodes r' ≠ []) as Hne'.
  { destruct (vnodes r) as [|v l] eqn:E; [done|]. intros E'.
    assert (v ∈ vnodes r') as Hv by (apply Hsub; set_solver). rewrite E' in Hv. by apply elem_of_nil in Hv. }
  destruct (lookup_nearest r key Hwf Hne) as (u & Hu & ->).
  destruct (lookup_nearest r' key Hwf' Hne') as (v & Hv & ->).
  assert (object_hash r' key = object_hash r key) as Ho by (unfold object_hash; by rewrite Hsd, Hsd').
  rewrite Ho in Hv. destruct (decide (v ∈ vnodes r)) as [Hold|Hnold].
  - right. do 2 f_equal. symmetry. apply (nearest_unique vn_hash (vnodes r') (object_hash r key)).
    + apply Hwf'.
    + apply xxhash64_range.
    + done.
    + destruct Hu as [Hur Humin], Hv as [_ Hvmin]. split; [by apply Hsub|].
      intros w Hw. etrans; [by apply Humin|by apply Hvmin].
    + done.
  - left. destruct Hv as [Hv _]. apply Hm' in Hv as (p & s & i & Hp & Hi & ->). exists p, s.
    split; [done|]. split; [|done]. intros Hp'. apply Hnold, Hm. by exists p, s, i.
Qed.

(** *** The ring always exists when the ids fit *)

Lemma encode_inj p s p' s' :
  (s < 1000)%nat → (s' < 1000)%nat →
  ENCODE_NODE_ID (Z.of_nat p) (Z.of_nat s) = ENCODE_NODE_ID (Z.of_nat p') (Z.of_nat s') →
  p = p' ∧ s = s'.
Proof. unfold ENCODE_NODE_ID. lia. Qed.

(** The sets before position [(p, s)] of the enumeration. *)
Definition before (p s : nat) (r : buckets_ring) : Prop :=
  ∀ v, v ∈ vnodes r → ∃ p' s', (p' < p ∨ p' = p ∧ s' < s)%nat ∧ (s' < 1000)%nat ∧
    node_id v = ENCODE_NODE_ID (Z.of_nat p') (Z.of_nat s').

Lemma add_sets_total l r p s :
  ring_wf r → before p s r → (s + length l ≤ 1000)%nat →
  ∃ r', add_sets r p s l = Some r' ∧ ring_wf r' ∧ before p (s + length l) r'.
Proof.
  revert r s. induction l as [|x l IH]; intros r s Hwf Hb Hlen; cbn [add_sets length] in *.
  - exists r. by rewrite Nat.add_0_r.
  - destruct (add_node_ok r (ENCODE_NODE_ID (Z.of_nat p) (Z.of_nat s)) (node_name_of p s) Hwf)
      as (r1 & E & _).
    { intros v (p' & s' & Hlt & Hs' & ->)%Hb E. apply encode_inj in E; lia. }
    rewrite E. destruct (add_node_members _ _ _ _ Hwf E) as (Hwf1 & _ & _ & Hm).
    destruct (IH r1 (S s) Hwf1) as (r' & Hr' & Hwf' & Hb'); [|lia|].
    + intros v [(p' & s' & ? & ? & ?)%Hb|(i & _ & ->)]%Hm.
      * exists p', s'. split_and!; [lia|done|done].
      * exists p, s. split_and!; [lia|lia|done].
    + exists r'. by rewrite Nat.add_succ_r.
Qed.

Lemma add_pools_total l r p :
  ring_wf r → before p 0 r → Forall (λ pool, (length (sets pool) ≤ 1000)%nat) l →
  ∃ r', add_pools r p l = Some r'.
Proof.
  revert r p. induction l as [|pool l IH]; intros r p Hwf Hb Hf; cbn [add_pools]; [eauto|].
  apply Forall_cons in Hf as [Hpool Hf].
  destruct (add_sets_total (sets pool) r p 0 Hwf Hb) as (r1 & -> & Hwf1 & Hb1); [lia|].
  apply IH; [done| |done]. intros v (p' & s' & ? & ? & ?)%Hb1. exists p', s'.
  split_and!; [lia|done|done].
Qed.

Lemma topology_ring_exists t : ids_fit t → ∃ r, topology_to_ring (Some t) = Some r.
Proof.
  intros Hf. unfold topology_to_ring. destruct (buckets_ring_create 150 0) as [r0|] eqn:E; [|done].
  apply add_pools_total; [by eapply create_wf| |done].
  apply (inj Some) in E. subst r0. intros v []%elem_of_nil.
Qed.

(** The tasks of a scan name sets that exist. *)
Lemma scan_tasks_ok sc ds ro rn ts sc' :
  ids_fit (sc_old_topology sc) → ids_fit (sc_new_topology sc) →
  topology_to_ring (Some (sc_old_topology sc)) = Some ro →
  topology_to_ring (Some (sc_new_topology sc)) = Some rn →
  (∀ d bucket o size mtime, d ∈ ds → on_disk d bucket o size mtime → 0 ≤ size) →
  buckets_scanner_scan sc ds = Val (BUCKETS_OK, ts, sc') →
  Forall (task_ok (sc_old_topology sc) (sc_new_topology sc)) ts.
Proof.
  intros Ho Hn Hro Hrn Hsz Hscan.
  destruct (scan_spec sc ds ro rn Hro Hrn) as (ts' & sc2 & Hs & Hp & _).
  rewrite Hscan in Hs. simplify_eq. apply Forall_forall. intros t. rewrite Hp.
  rewrite elem_of_scan_tasks by (by eapply topology_ring_members).
  intros (d & b & o & size & mtime & zo & zn & Hd & Hod & (Hlo & Hln & Hzo & Hzn & _) & ->).
  destruct (lookup_position _ _ _ _ Hro Ho Hlo Hzo) as (p & s & Hpos & _ & Hdp & Hds).
  destruct (lookup_position _ _ _ _ Hrn Hn Hln Hzn) as (p' & s' & Hpos' & _ & Hdp' & Hds').
  split_and!; simpl.
  - by eapply Hsz.
  - rewrite Hdp, Hds. by apply position_c_set.
  - rewrite Hdp', Hds'. by apply position_c_set.
Qed.

(** ** Properties *)

Context (sc : scanner_state) (ds : list node).

(** C30: the scan of any set of disks succeeds, marks itself complete and returns, smallest
    first, exactly one task for each copy of an object whose node differs between the
    rings of the two topologies: with the object's name and size, the place it leaves and
    the place it goes to; the affected counts it reports are those of the tasks. A copy is
    metadata of the object at one place of one disk, so an object with metadata on several
    disks has several tasks ([scanner_duplicates]). *)
Theorem scanner_finds_moving_objects :
  ids_fit (sc_old_topology sc) → ids_fit (sc_new_topology sc) →
  ∃ ro rn ts sc',
    topology_to_ring (Some (sc_old_topology sc)) = Some ro ∧
    topology_to_ring (Some (sc_new_topology sc)) = Some rn ∧
    buckets_scanner_scan sc ds = Val (BUCKETS_OK, ts, sc') ∧
    StronglySorted (λ t u, t_size t ≤ t_size u) ts ∧
    (∃ copies, NoDup copies ∧
       (∀ path, path ∈ copies ↔ ∃ bucket o size mtime zo zn,
          copy_at ds path bucket o size mtime ∧ moves ro rn bucket o zo zn) ∧
       Forall2 (λ path t, ∃ bucket o size mtime zo zn, copy_at ds path bucket o size mtime ∧
          moves ro rn bucket o zo zn ∧ t = move_task bucket o size mtime zo zn) copies ts) ∧
    sc_objects_affected sc' = sc_objects_affected sc + Z.of_nat (length ts) ∧
    sc_bytes_affected sc' = sc_bytes_affected sc + total_bytes ts ∧ scan_complete sc' = true.
Proof using Type.
  intros Ho Hn. destruct (topology_ring_exists _ Ho) as [ro Hro].
  destruct (topology_ring_exists _ Hn) as [rn Hrn].
  destruct (scan_spec sc ds ro rn Hro Hrn) as (ts & sc' & Hs & Hp & Hsorted & Hst).
  exists ro, rn, ts, sc'. split_and!; try done; try apply Hst.
  destruct (listed_order _ ts _ (listed_tasks ro rn (proj1 (topology_ring_members _ _ Hro))
    (proj1 (topology_ring_members _ _ Hrn)) ds) Hp) as (copies & Hnd & Hin & Hf).
  exists copies. split_and!; [done| |done]. intros path. rewrite Hin. split.
  - intros (t & b & o & size & mtime & zo & zn & ? & ? & _). by exists b, o, size, mtime, zo, zn.
  - intros (b & o & size & mtime & zo & zn & ? & ?). by eexists _, b, o, size, mtime, zo, zn.
Qed.

(** The tasks that the scanner hands to the workers name sets that exist: executing
    them never indexes a topology out of range. *)
Theorem scanner_tasks_valid ts sc' :
  ids_fit (sc_old_topology sc) → ids_fit (sc_new_topology sc) →
  (∀ d bucket o size mtime, d ∈ ds → on_disk d bucket o size mtime → 0 ≤ size) →
  buckets_scanner_scan sc ds = Val (BUCKETS_OK, ts, sc') →
  Forall (task_ok (sc_old_topology sc) (sc_new_topology sc)) ts.
Proof using Type.
  intros Ho Hn Hsz Hscan. destruct (topology_ring_exists _ Ho) as [ro Hro].
  destruct (topology_ring_exists _ Hn) as [rn Hrn].
  by apply (scan_tasks_ok sc ds ro rn ts sc').
Qed.

(** Growing the cluster moves data only onto the new sets: when every set of the old
    topology is a set of the new one, the source of each task is an old set and its
    destination is a set that the old topology does not have (hashes of the new ring
    distinct). *)
Theorem scanner_growth_fills_new_sets rn ts sc' :
  ids_fit (sc_old_topology sc) → ids_fit (sc_new_topology sc) →
  (∀ p s, position (sc_old_topology sc) p s → position (sc_new_topology sc) p s) →
  topology_to_ring (Some (sc_new_topology sc)) = Some rn → NoDup (vn_hash <$> vnodes rn) →
  buckets_scanner_scan sc ds = Val (BUCKETS_OK, ts, sc') →
  Forall (λ t,
    (∃ p s, position (sc_old_topology sc) p s ∧
       old_pool_idx t = Z.of_nat p ∧ old_set_idx t = Z.of_nat s) ∧
    (∃ p s, position (sc_new_topology sc) p s ∧ ¬ position (sc_old_topology sc) p s ∧
       new_pool_idx t = Z.of_nat p ∧ new_set_idx t = Z.of_nat s)) ts.
Proof using Type.
  intros Ho Hn Hgrow Hrn Hnd Hscan. apply Forall_forall. intros t Ht. destruct (topology_ring_exists _ Ho) as [ro Hro].
  destruct (scan_spec sc ds ro rn Hro Hrn) as (ts' & sc2 & Hs & Hp & _).
  rewrite Hscan in Hs. simplify_eq. rewrite Hp in Ht.
  apply elem_of_scan_tasks in Ht; [|by eapply topology_ring_members..].
  destruct Ht as (d & b & o & size & mtime & zo & zn & _ & _ & (Hlo & Hln & Hzo & Hzn & Hne) & ->).
  destruct (lookup_position _ _ _ _ Hro Ho Hlo Hzo) as (p & s & Hpos & _ & Hdp & Hds).
  simpl. split; [by exists p, s|].
  destruct (decide (vnodes ro = [])) as [Hnil|Hnn].
  { unfold buckets_ring_lookup in Hlo. destruct (topology_ring_members _ _ Hro) as (Hwf & _).
    rewrite (wf_count _ Hwf), Hnil in Hlo. simpl in Hlo. by simplify_eq. }
  destruct (growth_lookup _ _ _ _ (object_key b o) Hro Hrn Hgrow Hnd Hnn)
    as [(p' & s' & Hpos' & Hnew & E)|E].
  - rewrite Hln in E. simplify_eq. exists p', s'.
    destruct (encode_decode p' s') as [-> ->]; [by eapply position_fits|done].
  - rewrite Hln, Hlo in E. simplify_eq.
Qed.

(** An object that lies on two disks, as the shards of every object do, is migrated twice. *)
Lemma scanner_duplicates d ro rn :
  topology_to_ring (Some (sc_old_topology sc)) = Some ro →
  topology_to_ring (Some (sc_new_topology sc)) = Some rn →
  ∃ ts sc', buckets_scanner_scan sc [d; d] = Val (BUCKETS_OK, ts, sc') ∧
    ts ≡ₚ disk_tasks ro rn d ++ disk_tasks ro rn d.
Proof using Type.
  intros Hro Hrn. destruct (scan_spec sc [d; d] ro rn Hro Hrn) as (ts & sc' & Hs & Hp & _).
  exists ts, sc'. split; [done|]. by rewrite Hp; simpl; rewrite app_nil_r.
Qed.
End Scan.

(** The thousandth set of a pool has the id of the first set of the next pool. *)
Lemma encode_collides p : ENCODE_NODE_ID p 1000 = ENCODE_NODE_ID (p + 1) 0.
Proof. unfold ENCODE_NODE_ID. lia. Qed.

(** ** Instances *)

Definition demo_old : buckets_cluster_topology :=
  ClusterTopology 1 1 "dep" 150 [PoolTopology 0 [demo_set 0]].
Definition demo_disk : node :=
  NDir true [("photos", NDir true [("cat.jpg", NDir true [("xl.meta", NFile 7 0)])])].
Definition demo_scanner : scanner_state := ScannerState demo_old demo_topology 0 0 0 false.

Lemma demo_fits : ids_fit demo_old ∧ ids_fit demo_topology.
Proof. split; repeat constructor; simpl; lia. Qed.

Lemma demo_grows p s : position demo_old p s → position demo_topology p s.
Proof. intros (pool & set & Hp & Hs). destruct p as [|p]; simplify_eq/=.
  destruct s as [|s]; simplify_eq/=. by eexists _, _. Qed.

Lemma scanner_finds_moving_objects_witness :
  ∃ ro rn ts sc',
    topology_to_ring (Some demo_old) = Some ro ∧ topology_to_ring (Some demo_topology) = Some rn ∧
    buckets_scanner_scan demo_scanner [demo_disk] = Val (BUCKETS_OK, ts, sc') ∧
    StronglySorted (λ t u, t_size t ≤ t_size u) ts.
Proof.
  destruct (scanner_finds_moving_objects demo_scanner [demo_disk]) as (ro & rn & ts & sc' & H1 & H2 & H3 & H4 & _).
  - exact (proj1 demo_fits).
  - exact (proj2 demo_fits).
  - exists ro, rn, ts, sc'. exact (conj H1 (conj H2 (conj H3 H4))).
Defined.

Lemma demo_sizes d bucket o size mtime :
  d ∈ [demo_disk] → on_disk d bucket o size mtime → 0 ≤ size.
Proof.
  intros ->%list_elem_of_singleton (entries & rd & sub & [= <-] & Hx & _ & Ho).
  apply list_elem_of_singleton in Hx. simplify_eq. apply elem_of_dir_objects in Ho.
  simpl in Ho. apply list_elem_of_singleton in Ho. by simplify_eq.
Qed.

Lemma scanner_tasks_valid_witness :
  ∃ ts sc', buckets_scanner_scan demo_scanner [demo_disk] = Val (BUCKETS_OK, ts, sc') ∧
    Forall (task_ok demo_old demo_topology) ts.
Proof.
  destruct (topology_ring_exists _ (proj1 demo_fits)) as [ro Hro].
  destruct (topology_ring_exists _ (proj2 demo_fits)) as [rn Hrn].
  destruct (scan_spec demo_scanner [demo_disk] ro rn Hro Hrn) as (ts & sc' & Hs & _).
  exists ts, sc'. split; [exact Hs|].
  apply (scanner_tasks_valid demo_scanner [demo_disk] ts sc').
  - exact (proj1 demo_fits).
  - exact (proj2 demo_fits).
  - exact demo_sizes.
  - exact Hs.
Defined.

(** The ring of the larger topology, and that its 300 virtual nodes hash differently. *)
Definition demo_ring : buckets_ring :=
  default ex_ring0 (topology_to_ring (Some demo_topology)).

Lemma demo_ring_ok : topology_to_ring (Some demo_topology) = Some demo_ring.
Proof.
  destruct (topology_ring_exists _ (proj2 demo_fits)) as [r Hr]. unfold demo_ring. rewrite Hr.
  exact eq_refl.
Qed.

Fixpoint strictly_up (l : list Z) : bool :=
  match l with
  | x :: (y :: _) as l' => (x <? y) && strictly_up l'
  | _ => true
  end.

Lemma strictly_up_NoDup l : strictly_up l = true → NoDup l.
Proof.
  intros Hl. enough (NoDup l ∧ ∀ x k, l = x :: k → ∀ y, y ∈ k → x < y) by tauto.
  induction l as [|x [|y l] IH]; [split; [constructor|done]|..].
  - split; [apply NoDup_singleton|]. intros x' k [= <- <-] y []%elem_of_nil.
  - cbn [strictly_up] in Hl. apply andb_true_iff in Hl as [Hxy%Z.ltb_lt Hl].
    destruct (IH Hl) as [Hnd Hmin].
    assert (∀ z, z ∈ y :: l → x < z) as Hx.
    { intros z [->|Hz]%elem_of_cons; [done|]. specialize (Hmin y l eq_refl z Hz). lia. }
    split.
    + apply NoDup_cons. split; [|done]. intros Hin. specialize (Hx x Hin). lia.
    + intros x' k [= <- <-]. done.
Qed.

Lemma demo_ring_distinct : NoDup (vn_hash <$> vnodes demo_ring).
Proof. apply strictly_up_NoDup. vm_compute. reflexivity. Qed.

Lemma scanner_growth_fills_new_sets_witness :
  ∃ ts sc', buckets_scanner_scan demo_scanner [demo_disk] = Val (BUCKETS_OK, ts, sc') ∧
    Forall (λ t,
      (∃ p s, position demo_old p s ∧
         old_pool_idx t = Z.of_nat p ∧ old_set_idx t = Z.of_nat s) ∧
      (∃ p s, position demo_topology p s ∧ ¬ position demo_old p s ∧
         new_pool_idx t = Z.of_nat p ∧ new_set_idx t = Z.of_nat s)) ts.
Proof.
  destruct (topology_ring_exists _ (proj1 demo_fits)) as [ro Hro].
  destruct (scan_spec demo_scanner [demo_disk] ro demo_ring Hro demo_ring_ok) as (ts & sc' & Hs & _).
  exists ts, sc'. split; [exact Hs|].
  apply (scanner_growth_fills_new_sets demo_scanner [demo_disk] demo_ring ts sc').
  - exact (proj1 demo_fits).
  - exact (proj2 demo_fits).
  - exact demo_grows.
  - exact demo_ring_ok.
  - exact demo_ring_distinct.
  - exact Hs.
Defined.
