(* ===== verification/Orchestrator.v ===== *)
(** * Migration jobs (src/src/migration/orchestrator.c)

    A job scans the disks, hands the tasks to a worker pool, can be paused, resumed and
    stopped, and saves its progress to a checkpoint file. The pool is used through the
    interface [MigrationPool]; its blocking calls are the functions that give the state in
    which they return. The clock is an argument, and so is the floating-point estimate of
    the time left. *)

From S2P Require Import Prelude CInt CString DiskIO Json Topology TaskQueue WorkerPool.
From S2P Require Import SortedArray Scanner.
From Stdlib Require Import Ascii.

Local Open Scope c_scope.

(** ** Data *)

(** The last constructor is a value outside the enumeration, which a damaged checkpoint
    can put into a job. *)
Inductive migration_state :=
  | STATE_IDLE
  | STATE_SCANNING
  | STATE_MIGRATING
  | STATE_PAUSED
  | STATE_COMPLETED
  | STATE_FAILED
  | STATE_INVALID (z : Z).

#[export] Instance migration_state_eq_dec : EqDecision migration_state.
Proof. solve_decision. Defined.

Definition state_number (s : migration_state) : Z :=
  match s with
  | STATE_IDLE => 0 | STATE_SCANNING => 1 | STATE_MIGRATING => 2
  | STATE_PAUSED => 3 | STATE_COMPLETED => 4 | STATE_FAILED => 5 | STATE_INVALID z => z
  end.

Definition state_of_number (z : Z) : migration_state :=
  if z =? 0 then STATE_IDLE else if z =? 1 then STATE_SCANNING
  else if z =? 2 then STATE_MIGRATING else if z =? 3 then STATE_PAUSED
  else if z =? 4 then STATE_COMPLETED else if z =? 5 then STATE_FAILED
  else STATE_INVALID z.

(** What the orchestrator uses of a worker pool. *)
Class MigrationPool (P : Type) := {
  pool_create : Z → option buckets_cluster_topology → option buckets_cluster_topology →
                option (list string) → option P;
  pool_start : P → buckets_error_t * P;
  pool_submit : P → list migration_task → buckets_error_t * P;
  pool_stop : P → buckets_error_t * P;
  pool_wait : P → P;
  pool_stats : P → worker_stats
}.

Record migration_job (P : Type) := MigrationJob {
  job_id : string;
  source_generation : Z;
  target_generation : Z;
  j_start_time : Z;
  estimated_completion : Z;
  j_state : migration_state;
  total_objects : Z;
  migrated_objects : Z;
  failed_objects : Z;
  bytes_total : Z;
  j_bytes_migrated : Z;
  j_old_topology : option buckets_cluster_topology;
  j_new_topology : option buckets_cluster_topology;
  j_disk_paths : option (list string);
  j_scanner : option scanner_state;
  j_pool : option P;
  last_checkpoint_time : Z;
  last_checkpoint_objects : Z;
  checkpoint_path : string;
  has_callback : bool;
  (** The calls of the callback so far: event and state. *)
  j_events : list (string * migration_state)
}.
Arguments MigrationJob {P}.
Arguments job_id {P}. Arguments source_generation {P}. Arguments target_generation {P}.
Arguments j_start_time {P}. Arguments estimated_completion {P}. Arguments j_state {P}.
Arguments total_objects {P}. Arguments migrated_objects {P}. Arguments failed_objects {P}.
Arguments bytes_total {P}. Arguments j_bytes_migrated {P}. Arguments j_old_topology {P}.
Arguments j_new_topology {P}. Arguments j_disk_paths {P}. Arguments j_scanner {P}.
Arguments j_pool {P}. Arguments last_checkpoint_time {P}. Arguments last_checkpoint_objects {P}.
Arguments checkpoint_path {P}. Arguments has_callback {P}. Arguments j_events {P}.

(** ** State machine *)

Definition is_valid_transition (from to : migration_state) : bool :=
  match from with
  | STATE_IDLE => match to with STATE_SCANNING | STATE_FAILED => true | _ => false end
  | STATE_SCANNING =>
      match to with STATE_MIGRATING | STATE_COMPLETED | STATE_FAILED => true | _ => false end
  | STATE_MIGRATING =>
      match to with STATE_PAUSED | STATE_COMPLETED | STATE_FAILED => true | _ => false end
  | STATE_PAUSED => match to with STATE_MIGRATING | STATE_FAILED => true | _ => false end
  | STATE_COMPLETED | STATE_FAILED => false
  | STATE_INVALID _ => false
  end.

Section Job.
Context `{CJson} `{Qsort} {P : Type} `{!MigrationPool P}.

Abbreviation job := (migration_job P).

(** *** Field updates *)

Definition with_state (s : migration_state) (j : job) : job :=
  MigrationJob (job_id j) (source_generation j) (target_generation j) (j_start_time j)
    (estimated_completion j) s (total_objects j) (migrated_objects j) (failed_objects j)
    (bytes_total j) (j_bytes_migrated j) (j_old_topology j) (j_new_topology j) (j_disk_paths j)
    (j_scanner j) (j_pool j) (last_checkpoint_time j) (last_checkpoint_objects j)
    (checkpoint_path j) (has_callback j) (j_events j).
Definition with_totals (objects bytes : Z) (j : job) : job :=
  MigrationJob (job_id j) (source_generation j) (target_generation j) (j_start_time j)
    (estimated_completion j) (j_state j) objects (migrated_objects j) (failed_objects j)
    bytes (j_bytes_migrated j) (j_old_topology j) (j_new_topology j) (j_disk_paths j)
    (j_scanner j) (j_pool j) (last_checkpoint_time j) (last_checkpoint_objects j)
    (checkpoint_path j) (has_callback j) (j_events j).
Definition with_progress (migrated failed bytes eta : Z) (j : job) : job :=
  MigrationJob (job_id j) (source_generation j) (target_generation j) (j_start_time j)
    eta (j_state j) (total_objects j) migrated failed
    (bytes_total j) bytes (j_old_topology j) (j_new_topology j) (j_disk_paths j)
    (j_scanner j) (j_pool j) (last_checkpoint_time j) (last_checkpoint_objects j)
    (checkpoint_path j) (has_callback j) (j_events j).
Definition with_started (now : Z) (j : job) : job :=
  MigrationJob (job_id j) (source_generation j) (target_generation j) now
    (estimated_completion j) (j_state j) (total_objects j) (migrated_objects j) (failed_objects j)
    (bytes_total j) (j_bytes_migrated j) (j_old_topology j) (j_new_topology j) (j_disk_paths j)
    (j_scanner j) (j_pool j) now 0 (checkpoint_path j) (has_callback j) (j_events j).
Definition with_scanner (sc : option scanner_state) (j : job) : job :=
  MigrationJob (job_id j) (source_generation j) (target_generation j) (j_start_time j)
    (estimated_completion j) (j_state j) (total_objects j) (migrated_objects j) (failed_objects j)
    (bytes_total j) (j_bytes_migrated j) (j_old_topology j) (j_new_topology j) (j_disk_paths j)
    sc (j_pool j) (last_checkpoint_time j) (last_checkpoint_objects j)
    (checkpoint_path j) (has_callback j) (j_events j).
Definition with_pool (p : option P) (j : job) : job :=
  MigrationJob (job_id j) (source_generation j) (target_generation j) (j_start_time j)
    (estimated_completion j) (j_state j) (total_objects j) (migrated_objects j) (failed_objects j)
    (bytes_total j) (j_bytes_migrated j) (j_old_topology j) (j_new_topology j) (j_disk_paths j)
    (j_scanner j) p (last_checkpoint_time j) (last_checkpoint_objects j)
    (checkpoint_path j) (has_callback j) (j_events j).
Definition with_checkpointed (now objects : Z) (j : job) : job :=
  MigrationJob (job_id j) (source_generation j) (target_generation j) (j_start_time j)
    (estimated_completion j) (j_state j) (total_objects j) (migrated_objects j) (failed_objects j)
    (bytes_total j) (j_bytes_migrated j) (j_old_topology j) (j_new_topology j) (j_disk_paths j)
    (j_scanner j) (j_pool j) now objects (checkpoint_path j) (has_callback j) (j_events j).
Definition with_callback (cb : bool) (j : job) : job :=
  MigrationJob (job_id j) (source_generation j) (target_generation j) (j_start_time j)
    (estimated_completion j) (j_state j) (total_objects j) (migrated_objects j) (failed_objects j)
    (bytes_total j) (j_bytes_migrated j) (j_old_topology j) (j_new_topology j) (j_disk_paths j)
    (j_scanner j) (j_pool j) (last_checkpoint_time j) (last_checkpoint_objects j)
    (checkpoint_path j) cb (j_events j).

(** [if (job->callback) job->callback(job, event, user_data)] *)
Definition fire (event : string) (j : job) : job :=
  if has_callback j then
    MigrationJob (job_id j) (source_generation j) (target_generation j) (j_start_time j)
      (estimated_completion j) (j_state j) (total_objects j) (migrated_objects j)
      (failed_objects j) (bytes_total j) (j_bytes_migrated j) (j_old_topology j)
      (j_new_topology j) (j_disk_paths j) (j_scanner j) (j_pool j) (last_checkpoint_time j)
      (last_checkpoint_objects j) (checkpoint_path j) true (j_events j ++ [(event, j_state j)])
  else j.

Definition transition_state (j : job) (new_state : migration_state) : buckets_error_t * job :=
  if is_valid_transition (j_state j) new_state
  then (BUCKETS_OK, fire "state_change" (with_state new_state j))
  else (BUCKETS_ERR_INVALID_ARG, j).

(** ** Creation *)

Definition buckets_migration_job_create (source_gen target_gen : Z)
    (old new : option buckets_cluster_topology) (paths : option (list string)) : option job :=
  match old, new, paths with
  | Some _, Some _, Some (_ :: _) =>
      let id := snprintf 64 ("migration-gen-" +:+ pretty source_gen +:+ "-to-" +:+ pretty target_gen) in
      Some (MigrationJob id source_gen target_gen 0 0 STATE_IDLE 0 0 0 0 0 old new paths
              None None 0 0 (snprintf 256 ("/tmp/" +:+ id +:+ ".checkpoint")) false [])
  | _, _, _ => None
  end.

(** ** Start *)

Fixpoint sum_sizes (acc : Z) (ts : list migration_task) : c_result Z :=
  match ts with
  | [] => Val acc
  | t :: ts => let* acc := i64c (acc + t_size t) in sum_sizes acc ts
  end.

(** The last part of [start]: the pool. *)
Definition start_pool (j : job) (ts : list migration_task) : buckets_error_t * job :=
  match pool_create 16 (j_old_topology j) (j_new_topology j) (j_disk_paths j) with
  | None => (BUCKETS_ERR_NOMEM, (transition_state j STATE_FAILED).2)
  | Some p =>
      match pool_start p with
      | (BUCKETS_OK, p) =>
          match pool_submit p ts with
          | (BUCKETS_OK, p) => (BUCKETS_OK, with_pool (Some p) j)
          | (err, p) => (err, (transition_state (with_pool (Some p) j) STATE_FAILED).2)
          end
      | (err, p) => (err, (transition_state (with_pool (Some p) j) STATE_FAILED).2)
      end
  end.

(** The part of [start] that runs in state SCANNING. *)
Definition scan_and_migrate (j : job) (disks : list node) : c_result (buckets_error_t * job) :=
  match buckets_scanner_init (j_disk_paths j) (j_old_topology j) (j_new_topology j) with
  | None => Val (BUCKETS_ERR_NOMEM, (transition_state j STATE_FAILED).2)
  | Some sc =>
      let* r := buckets_scanner_scan sc disks in
      match r with
      | (BUCKETS_OK, ts, sc) =>
          let* bytes := sum_sizes 0 ts in
          let j := with_totals (Z.of_nat (length ts)) bytes (with_scanner (Some sc) j) in
          match ts with
          | [] => Val (BUCKETS_OK, (transition_state j STATE_COMPLETED).2)
          | _ =>
              match transition_state j STATE_MIGRATING with
              | (BUCKETS_OK, j) => Val (start_pool j ts)
              | (err, j) => Val (err, j)
              end
          end
      | (err, _, sc) => Val (err, (transition_state (with_scanner (Some sc) j) STATE_FAILED).2)
      end
  end.

Definition buckets_migration_job_start (j : job) (disks : list node) (now : Z)
    : c_result (buckets_error_t * job) :=
  if negb (bool_decide (j_state j = STATE_IDLE)) then Val (BUCKETS_ERR_INVALID_ARG, j)
  else
    match transition_state j STATE_SCANNING with
    | (BUCKETS_OK, j) => scan_and_migrate (with_started now j) disks
    | (err, j) => Val (err, j)
    end.

(** ** Pause, resume, stop *)

Definition buckets_migration_job_pause (j : job) : buckets_error_t * job :=
  if negb (bool_decide (j_state j = STATE_MIGRATING)) then (BUCKETS_ERR_INVALID_ARG, j)
  else
    match j_pool j with
    | None => transition_state j STATE_PAUSED
    | Some p =>
        match pool_stop p with
        | (BUCKETS_OK, p) => transition_state (with_pool (Some p) j) STATE_PAUSED
        | (err, p) => (err, with_pool (Some p) j)
        end
    end.

Definition buckets_migration_job_resume (j : job) : buckets_error_t * job :=
  if negb (bool_decide (j_state j = STATE_PAUSED)) then (BUCKETS_ERR_INVALID_ARG, j)
  else
    match j_pool j with
    | None => transition_state j STATE_MIGRATING
    | Some p =>
        match pool_start p with
        | (BUCKETS_OK, p) => transition_state (with_pool (Some p) j) STATE_MIGRATING
        | (err, p) => (err, with_pool (Some p) j)
        end
    end.

Definition is_terminal (s : migration_state) : bool :=
  match s with STATE_COMPLETED | STATE_FAILED => true | _ => false end.

Definition buckets_migration_job_stop (j : job) : buckets_error_t * job :=
  if is_terminal (j_state j) then (BUCKETS_OK, j)
  else
    let j := match j_pool j with Some p => with_pool (Some (pool_stop p).2) j | None => j end in
    transition_state j STATE_FAILED.

(** ** Progress *)

(** The estimate is floating-point; [None]: not updated. *)
Context (eta_of : job → worker_stats → option Z).

Definition update_progress (j : job) : job :=
  match j_pool j with
  | None => j
  | Some p =>
      let st := pool_stats p in
      let j1 := with_progress (st_tasks_completed st) (st_tasks_failed st) (st_bytes_migrated st)
                  (estimated_completion j) j in
      match (if 0 <? bytes_total j1 then eta_of j1 st else None) with
      | Some eta => with_progress (migrated_objects j1) (failed_objects j1) (j_bytes_migrated j1) eta j1
      | None => j1
      end
  end.

Definition should_checkpoint (j : job) (now : Z) : bool :=
  (1000 <=? migrated_objects j - last_checkpoint_objects j) ||
  (300 <=? now - last_checkpoint_time j).

(** Total, completed, failed and estimate; the percentage is floating-point. *)
Definition buckets_migration_job_get_progress (j : job) : Z * Z * Z * Z * job :=
  let j := if bool_decide (j_state j = STATE_MIGRATING) then update_progress j else j in
  (total_objects j, migrated_objects j, failed_objects j, estimated_completion j, j).

Definition buckets_migration_job_get_state (j : option job) : migration_state :=
  match j with None => STATE_FAILED | Some j => j_state j end.

Definition buckets_migration_job_set_callback (j : job) (cb : bool) : buckets_error_t * job :=
  (BUCKETS_OK, with_callback cb j).

(** ** Checkpoints *)

Definition checkpoint_json (j : job) (now : Z) : json :=
  JObject [("job_id", JString (job_id j));
           ("source_generation", JNumber (source_generation j));
           ("target_generation", JNumber (target_generation j));
           ("state", JNumber (state_number (j_state j)));
           ("checkpoint_time", JNumber now);
           ("start_time", JNumber (j_start_time j));
           ("total_objects", JNumber (total_objects j));
           ("migrated_objects", JNumber (migrated_objects j));
           ("failed_objects", JNumber (failed_objects j));
           ("bytes_total", JNumber (bytes_total j));
           ("bytes_migrated", JNumber (j_bytes_migrated j))].

Definition buckets_migration_job_save (env : write_env) (pid : N) (fs : fs_t) (j : job)
    (path : option string) (now : Z) : buckets_error_t * list fs_t :=
  match path with
  | None => (BUCKETS_ERR_INVALID_ARG, [fs])
  | Some path =>
      match cJSON_Print (checkpoint_json j now) with
      | None => (BUCKETS_ERR_NOMEM, [fs])
      | Some s => buckets_atomic_write env pid fs (Some path) (Some s)
      end
  end.

Definition lower (c : ascii) : ascii :=
  let n := N_of_ascii c in if ((65 <=? n) && (n <=? 90))%N then ascii_of_N (n + 32) else c.
Fixpoint lowercase (s : string) : string :=
  match s with EmptyString => EmptyString | String c s => String (lower c) (lowercase s) end.

(** [cJSON_GetObjectItem]: the first item of that name, letter case ignored. *)
Fixpoint find_item_ci (items : list (string * json)) (key : string) : option json :=
  match items with
  | [] => None
  | (k, v) :: items =>
      if String.eqb (lowercase k) (lowercase key) then Some v else find_item_ci items key
  end.
Definition cJSON_GetObjectItem (obj : json) (key : string) : option json :=
  match obj with JObject items => find_item_ci items key | _ => None end.

(** [(i64)cJSON_GetNumberValue(item)]; what is not a number gives a NaN, whose
    conversion is undefined. *)
Definition number_value (item : json) : c_result Z :=
  match item with JNumber z => Val z | _ => Undef end.

(** The value of an item that may be missing. *)
Definition opt_number (obj : json) (key : string) (dflt : Z) : c_result Z :=
  match cJSON_GetObjectItem obj key with None => Val dflt | Some item => number_value item end.

Definition job_of_json (root : json) : c_result (option job) :=
  match cJSON_GetObjectItem root "job_id" with
  | Some (JString id) =>
      match cJSON_GetObjectItem root "source_generation",
            cJSON_GetObjectItem root "target_generation" with
      | Some src, Some tgt =>
          let* source_gen := number_value src in
          let* target_gen := number_value tgt in
          let* state := opt_number root "state" 0 in
          let* start := opt_number root "start_time" 0 in
          let* total := opt_number root "total_objects" 0 in
          let* migrated := opt_number root "migrated_objects" 0 in
          let* failed := opt_number root "failed_objects" 0 in
          let* bytes := opt_number root "bytes_total" 0 in
          let* moved := opt_number root "bytes_migrated" 0 in
          Val (Some (MigrationJob (strncpy 63 id) source_gen target_gen start 0
                       (state_of_number state) total migrated failed bytes moved
                       None None None None None 0 0 "" false []))
      | _, _ => Val None
      end
  | _ => Val None
  end.

Definition buckets_migration_job_load (read_ok : bool) (fs : fs_t) (path : option string)
    : c_result (option job) :=
  match buckets_atomic_read read_ok fs path with
  | (BUCKETS_OK, Some data) =>
      match cJSON_Parse data with
      | None => Val None
      | Some root => job_of_json root
      end
  | _ => Val None
  end.

Definition with_resumed (old new : option buckets_cluster_topology) (paths : option (list string))
    (path : string) (now : Z) (j : job) : job :=
  MigrationJob (job_id j) (source_generation j) (target_generation j) (j_start_time j)
    (estimated_completion j)
    (if bool_decide (j_state j = STATE_MIGRATING) then STATE_PAUSED else j_state j)
    (total_objects j) (migrated_objects j) (failed_objects j)
    (bytes_total j) (j_bytes_migrated j) old new paths
    (j_scanner j) (j_pool j) now (migrated_objects j)
    (strncpy 255 path) (has_callback j) (j_events j).

Definition buckets_migration_job_resume_from_checkpoint (read_ok : bool) (fs : fs_t)
    (path : option string) (old new : option buckets_cluster_topology)
    (paths : option (list string)) (now : Z) : c_result (option job) :=
  match path, old, new, paths with
  | Some path, Some _, Some _, Some (_ :: _) =>
      let* r := buckets_migration_job_load read_ok fs (Some path) in
      match r with
      | None => Val None
      | Some j => Val (Some (with_resumed old new paths path now j))
      end
  | _, _, _, _ => Val None
  end.

(** ** Wait *)

(** [clk] are the clock readings of the call, in order. *)
Definition save_checkpoint_if_needed (env : write_env) (pid : N) (fs : fs_t) (j : job)
    (clk : nat → Z) : job * fs_t :=
  if should_checkpoint j (clk 0%nat) then
    let r := buckets_migration_job_save env pid fs j (Some (checkpoint_path j)) (clk 1%nat) in
    let fs := fs_after fs r in
    match r.1 with
    | BUCKETS_OK => (with_checkpointed (clk 2%nat) (migrated_objects j) j, fs)
    | _ => (j, fs)
    end
  else (j, fs).

(** One round of the loop: [true] when it leaves the loop. *)
Definition wait_round (env : write_env) (pid : N) (j : job) (fs : fs_t) (clk : nat → Z)
    : bool * job * fs_t :=
  if is_terminal (j_state j) then (true, j, fs)
  else if bool_decide (j_state j = STATE_MIGRATING) then
    let j := update_progress j in
    let (j, fs) := save_checkpoint_if_needed env pid fs j clk in
    let j := fire "progress" j in
    match j_pool j with
    | Some p =>
        let j := with_pool (Some (pool_wait p)) j in
        let j := (transition_state j STATE_COMPLETED).2 in
        let fs := fs_after fs
          (buckets_migration_job_save env pid fs j (Some (checkpoint_path j)) (clk 3%nat)) in
        (true, j, fs)
    | None => (false, j, fs)
    end
  else (false, j, fs).

(** [n] rounds in which nobody else touches the job; the flag tells whether the call
    returned. *)
Fixpoint buckets_migration_job_wait (n : nat) (env : write_env) (pid : N) (j : job) (fs : fs_t)
    (clk : nat → nat → Z) : bool * job * fs_t :=
  match n with
  | O => (false, j, fs)
  | S n =>
      let '(done, j, fs) := wait_round env pid j fs (clk n) in
      if done then (true, j, fs) else buckets_migration_job_wait n env pid j fs clk
  end.

(** ** Sequences of calls *)

(** One call of the interface on a job and the file system it saves to. *)
Inductive job_step : job * fs_t → job * fs_t → Prop :=
  | step_start j fs disks now err j' :
      buckets_migration_job_start j disks now = Val (err, j') → job_step (j, fs) (j', fs)
  | step_pause j fs err j' : buckets_migration_job_pause j = (err, j') → job_step (j, fs) (j', fs)
  | step_resume j fs err j' : buckets_migration_job_resume j = (err, j') → job_step (j, fs) (j', fs)
  | step_stop j fs err j' : buckets_migration_job_stop j = (err, j') → job_step (j, fs) (j', fs)
  | step_wait j fs env pid clk done j' fs' :
      wait_round env pid j fs clk = (done, j', fs') → job_step (j, fs) (j', fs')
  | step_progress j fs : job_step (j, fs) ((buckets_migration_job_get_progress j).2, fs)
  | step_callback j fs cb : job_step (j, fs) ((buckets_migration_job_set_callback j cb).2, fs).

Definition trans (s s' : migration_state) : Prop := is_valid_transition s s' = true.

(** *** Frames of the small operations *)

Lemma fire_state e j : j_state (fire e j) = j_state j.
Proof. unfold fire. by destruct (has_callback j). Qed.

Lemma transition_Ok j s err j' :
  transition_state j s = (err, j') →
  (err = BUCKETS_OK ∧ trans (j_state j) s ∧ j' = fire "state_change" (with_state s j)) ∨
  (err = BUCKETS_ERR_INVALID_ARG ∧ j' = j).
Proof.
  unfold transition_state, trans. destruct (is_valid_transition (j_state j) s);
    intros [= <- <-]; auto.
Qed.

Lemma transition_trans j s : rtc trans (j_state j) (j_state (transition_state j s).2).
Proof.
  unfold transition_state. destruct (is_valid_transition (j_state j) s) eqn:E; [|done].
  simpl. rewrite fire_state. by apply rtc_once.
Qed.

Lemma update_progress_state j : j_state (update_progress j) = j_state j.
Proof. unfold update_progress. destruct (j_pool j); [|done]. by repeat case_match. Qed.

Lemma save_checkpoint_state env pid fs j clk :
  j_state (save_checkpoint_if_needed env pid fs j clk).1 = j_state j.
Proof.
  unfold save_checkpoint_if_needed. destruct (should_checkpoint j (clk 0%nat)); [|done].
  by destruct (buckets_migration_job_save _ _ _ _ _ _).1.
Qed.

(** Replace the job in the goal by the expression it is. *)
Ltac take_job H j := apply (f_equal snd) in H; simpl in H; subst j.

Lemma start_pool_trans j ts : rtc trans (j_state j) (j_state (start_pool j ts).2).
Proof.
  unfold start_pool. destruct (pool_create _ _ _ _) as [p|]; [|apply transition_trans].
  destruct (pool_start p) as [[] p1]; simpl; try apply (transition_trans (with_pool _ j)).
  destruct (pool_submit p1 ts) as [[] p2]; simpl; try apply (transition_trans (with_pool _ j)). done.
Qed.

Lemma start_trans j disks now err j' :
  buckets_migration_job_start j disks now = Val (err, j') → rtc trans (j_state j) (j_state j').
Proof.
  unfold buckets_migration_job_start. case_bool_decide as Hs; simpl; [|by intros [= <- <-]].
  unfold transition_state at 1. rewrite Hs. simpl. set (j1 := with_started _ _).
  assert (j_state j1 = STATE_SCANNING) as H1 by (unfold j1; simpl; apply fire_state).
  intros Hst. eapply rtc_l; [by instantiate (1 := STATE_SCANNING)|]. rewrite <-H1.
  clear Hs. revert Hst. unfold scan_and_migrate.
  destruct (buckets_scanner_init _ _ _) as [sc|]; [|intros [= <- <-]; apply transition_trans].
  destruct (buckets_scanner_scan sc disks) as [[[[] ts] sc1]|]; cbn [c_bind]; try done;
    try (intros Hst; apply (inj Val) in Hst; take_job Hst j';
         apply (transition_trans (with_scanner (Some sc1) j1))).
  destruct (sum_sizes 0 ts) as [bytes|]; [|done]. cbn [c_bind]. set (j2 := with_totals _ _ _).
  destruct ts as [|t ts]; [intros [= <- <-]; apply (transition_trans j2)|].
  unfold transition_state at 1. change (j_state j2) with (j_state j1). rewrite H1. simpl.
  intros Hst. apply (inj Val) in Hst. take_job Hst j'.
  eapply rtc_l; [by instantiate (1 := STATE_MIGRATING)|].
  set (j3 := fire _ _). assert (j_state j3 = STATE_MIGRATING) as <- by apply fire_state.
  apply start_pool_trans.
Qed.

Lemma wait_round_trans env pid j fs clk done j' fs' :
  wait_round env pid j fs clk = (done, j', fs') → rtc trans (j_state j) (j_state j').
Proof.
  unfold wait_round. destruct (is_terminal (j_state j)); [by intros [= <- <- <-]|].
  case_bool_decide as Hm; [|by intros [= <- <- <-]].
  pose proof (save_checkpoint_state env pid fs (update_progress j) clk) as Hs.
  destruct (save_checkpoint_if_needed _ _ _ _ _) as [j1 fs1]. simpl in Hs.
  rewrite update_progress_state in Hs. rewrite <-Hs, <-(fire_state "progress" j1).
  set (j2 := fire "progress" j1). destruct (j_pool j2) as [p|]; intros [= <- <- <-]; [|done].
  apply (transition_trans (with_pool _ j2)).
Qed.

Lemma job_step_trans x y : job_step x y → rtc trans (j_state x.1) (j_state y.1).
Proof.
  destruct 1 as [j fs disks now err j' Hs|j fs err j' Hs|j fs err j' Hs|j fs err j' Hs
                |j fs env pid clk dn j' fs' Hs|j fs|j fs cb]; simpl.
  - by eapply start_trans.
  - unfold buckets_migration_job_pause in Hs. case_bool_decide; simpl in Hs; [|by simplify_eq].
    destruct (j_pool j) as [p|].
    + destruct (pool_stop p) as [[] p1]; try by simplify_eq.
      take_job Hs j'. apply (transition_trans (with_pool _ j)).
    + take_job Hs j'. apply transition_trans.
  - unfold buckets_migration_job_resume in Hs. case_bool_decide; simpl in Hs; [|by simplify_eq].
    destruct (j_pool j) as [p|].
    + destruct (pool_start p) as [[] p1]; try by simplify_eq.
      take_job Hs j'. apply (transition_trans (with_pool _ j)).
    + take_job Hs j'. apply transition_trans.
  - unfold buckets_migration_job_stop in Hs. destruct (is_terminal (j_state j)); [by simplify_eq|].
    take_job Hs j'.
    destruct (j_pool j); [apply (transition_trans (with_pool _ j))|apply transition_trans].
  - by eapply wait_round_trans.
  - unfold buckets_migration_job_get_progress. simpl. case_bool_decide; [|done].
    by rewrite update_progress_state.
  - done.
Qed.

Lemma job_steps_trans x y : rtc job_step x y → rtc trans (j_state x.1) (j_state y.1).
Proof.
  induction 1 as [|x y z Hs _ IH]; [done|]. etrans; [by apply job_step_trans|done].
Qed.

(** Progress through the life of a job never goes back. *)
Definition rank (s : migration_state) : nat :=
  match s with
  | STATE_IDLE => 0 | STATE_SCANNING => 1 | STATE_MIGRATING | STATE_PAUSED => 2
  | STATE_COMPLETED | STATE_FAILED => 3 | STATE_INVALID _ => 0
  end.

Lemma trans_rank s s' : rtc trans s s' → (rank s ≤ rank s')%nat.
Proof.
  induction 1 as [|x y z Hs _ IH]; [done|]. etrans; [|done]. unfold trans in Hs.
  destruct x, y; simpl in *; try done; lia.
Qed.

Lemma trans_terminal s s' : is_terminal s = true → rtc trans s s' → s' = s.
Proof.
  intros Ht. destruct 1 as [|x y z Hs _]; [done|]. unfold trans in Hs. by destruct x.
Qed.

(** ** Well-formed jobs *)

(** What the rest of the record is in each state, between calls. *)
Definition job_wf (j : job) : Prop :=
  is_Some (j_old_topology j) ∧ is_Some (j_new_topology j) ∧ is_Some (j_disk_paths j) ∧
  match j_state j with
  | STATE_IDLE => j_scanner j = None ∧ j_pool j = None ∧ total_objects j = 0
  | STATE_MIGRATING | STATE_PAUSED =>
      is_Some (j_scanner j) ∧ is_Some (j_pool j) ∧ 0 < total_objects j
  | STATE_COMPLETED =>
      is_Some (j_scanner j) ∧ (total_objects j = 0 ∨ is_Some (j_pool j))
  | STATE_FAILED => True
  | STATE_SCANNING | STATE_INVALID _ => False
  end.

(** The fields that [job_wf] depends on, beside the state. *)
Definition same_shape (j j' : job) : Prop :=
  j_old_topology j' = j_old_topology j ∧ j_new_topology j' = j_new_topology j ∧
  j_disk_paths j' = j_disk_paths j ∧ j_scanner j' = j_scanner j ∧
  (is_Some (j_pool j) ↔ is_Some (j_pool j')) ∧ total_objects j' = total_objects j.

Lemma fire_shape e j : same_shape j (fire e j).
Proof. unfold fire. by destruct (has_callback j). Qed.

Lemma same_shape_trans j1 j2 j3 : same_shape j1 j2 → same_shape j2 j3 → same_shape j1 j3.
Proof. unfold same_shape. intuition congruence. Qed.

Lemma update_progress_shape j : same_shape j (update_progress j).
Proof.
  unfold update_progress, same_shape. destruct (j_pool j) eqn:Hp; [|by rewrite Hp].
  case_match; simpl; rewrite Hp; by split_and!.
Qed.

Lemma save_checkpoint_shape env pid fs j clk :
  same_shape j (save_checkpoint_if_needed env pid fs j clk).1.
Proof.
  unfold save_checkpoint_if_needed. destruct (should_checkpoint j (clk 0%nat)); [|done].
  by destruct (buckets_migration_job_save _ _ _ _ _ _).1.
Qed.

Lemma with_pool_shape p q j : j_pool j = Some p → same_shape j (with_pool (Some q) j).
Proof. intros Hp. unfold same_shape. simpl. rewrite Hp. split_and!; done. Qed.

(** A job of the same shape in the same state. *)
Lemma wf_shape j j' : same_shape j j' → j_state j' = j_state j → job_wf j → job_wf j'.
Proof.
  unfold job_wf. intros (-> & -> & -> & -> & Hp & ->) ->.
  destruct (j_state j), (j_pool j) as [p|], (j_pool j') as [q|]; naive_solver.
Qed.

(** A transition between two states that make the same demands. *)
Lemma wf_transition j s :
  job_wf j → (trans (j_state j) s → job_wf (with_state s j)) → job_wf (transition_state j s).2.
Proof.
  intros Hwf Hs. unfold transition_state, trans in *.
  destruct (is_valid_transition (j_state j) s); [|done]. simpl.
  eapply wf_shape; [apply fire_shape|apply fire_state|]. by apply Hs.
Qed.

Lemma wf_to_failed j : job_wf j → job_wf (with_state STATE_FAILED j).
Proof. unfold job_wf. simpl. tauto. Qed.

(** The states that [start] goes through are not well-formed jobs; its result is. *)
Lemma failed_wf j :
  is_Some (j_old_topology j) → is_Some (j_new_topology j) → is_Some (j_disk_paths j) →
  trans (j_state j) STATE_FAILED → job_wf (transition_state j STATE_FAILED).2.
Proof.
  intros Ho Hn Hd Ht. unfold transition_state, trans in *. rewrite Ht. simpl.
  eapply wf_shape; [apply fire_shape|apply fire_state|]. unfold job_wf. simpl. auto.
Qed.

Lemma start_pool_wf j ts :
  is_Some (j_old_topology j) → is_Some (j_new_topology j) → is_Some (j_disk_paths j) →
  is_Some (j_scanner j) → 0 < total_objects j → j_state j = STATE_MIGRATING →
  job_wf (start_pool j ts).2.
Proof.
  intros Ho Hn Hd Hsc Ht Hs. assert (trans STATE_MIGRATING STATE_FAILED) as Hf by done.
  unfold start_pool. destruct (pool_create _ _ _ _) as [p|]; [|apply failed_wf; by rewrite ?Hs].
  destruct (pool_start p) as [[] p1]; simpl; try (apply failed_wf; simpl; by rewrite ?Hs).
  destruct (pool_submit p1 ts) as [[] p2]; simpl; try (apply failed_wf; simpl; by rewrite ?Hs).
  unfold job_wf. simpl. rewrite Hs. eauto 10.
Qed.

Lemma start_wf j disks now err j' :
  job_wf j → buckets_migration_job_start j disks now = Val (err, j') → job_wf j'.
Proof.
  intros Hwf. unfold buckets_migration_job_start.
  case_bool_decide as Hs; simpl; [|by intros [= <- <-]].
  unfold transition_state at 1. rewrite Hs. simpl. set (j1 := with_started _ _).
  assert (j_state j1 = STATE_SCANNING) as H1 by (unfold j1; simpl; apply fire_state).
  destruct Hwf as (Ho & Hn & Hd & _).
  assert (is_Some (j_old_topology j1) ∧ is_Some (j_new_topology j1) ∧ is_Some (j_disk_paths j1))
    as (Ho1 & Hn1 & Hd1).
  { destruct (fire_shape "state_change" (with_state STATE_SCANNING j)) as (E1 & E2 & E3 & _).
    unfold j1. simpl in *. by rewrite E1, E2, E3. }
  assert (trans STATE_SCANNING STATE_FAILED) as Hf by done.
  unfold scan_and_migrate.
  destruct (buckets_scanner_init _ _ _) as [sc|];
    [|intros Hst; apply (inj Val) in Hst; take_job Hst j'; apply failed_wf; by rewrite ?H1].
  destruct (buckets_scanner_scan sc disks) as [[[[] ts] sc1]|]; cbn [c_bind]; try done;
    try (intros Hst; apply (inj Val) in Hst; take_job Hst j'; apply failed_wf;
         [exact Ho1|exact Hn1|exact Hd1|change (trans (j_state j1) STATE_FAILED); by rewrite H1]).
  destruct (sum_sizes 0 ts) as [bytes|]; [|done]. cbn [c_bind]. set (j2 := with_totals _ _ _).
  assert (j_state j2 = STATE_SCANNING) as H2 by done.
  destruct ts as [|t ts]; unfold transition_state at 1; rewrite H2; simpl;
    intros Hst; apply (inj Val) in Hst; take_job Hst j'.
  - eapply wf_shape; [apply fire_shape|apply fire_state|]. unfold job_wf. simpl. eauto 10.
  - destruct (fire_shape "state_change" (with_state STATE_MIGRATING j2)) as (E1 & E2 & E3 & E4 & _ & E6).
    apply start_pool_wf; rewrite ?E1, ?E2, ?E3, ?E4, ?E6, ?fire_state; simpl; eauto. lia.
Qed.

(** MIGRATING, PAUSED and COMPLETED make the same demands on a job that has a pool. *)
Lemma wf_move j s :
  (s = STATE_MIGRATING ∨ s = STATE_PAUSED ∨ s = STATE_COMPLETED) →
  (j_state j = STATE_MIGRATING ∨ j_state j = STATE_PAUSED) → job_wf j → job_wf (with_state s j).
Proof.
  intros Hs Hj (Ho & Hn & Hd & Hrest). unfold job_wf. simpl. split_and!; [done..|].
  destruct Hj as [E|E]; rewrite E in Hrest; destruct Hs as [->|[->| ->]]; tauto.
Qed.

Lemma wait_round_wf env pid j fs clk done j' fs' :
  job_wf j → wait_round env pid j fs clk = (done, j', fs') → job_wf j'.
Proof.
  intros Hwf. unfold wait_round. destruct (is_terminal (j_state j)); [by intros [= <- <- <-]|].
  case_bool_decide as Hm; [|by intros [= <- <- <-]].
  pose proof (save_checkpoint_state env pid fs (update_progress j) clk) as Hs.
  pose proof (save_checkpoint_shape env pid fs (update_progress j) clk) as Hsh.
  destruct (save_checkpoint_if_needed _ _ _ _ _) as [j1 fs1]. simpl in Hs, Hsh.
  rewrite update_progress_state in Hs. set (j2 := fire "progress" j1).
  assert (j_state j2 = STATE_MIGRATING) as H2 by (unfold j2; by rewrite fire_state, Hs).
  assert (job_wf j2) as Hwf2.
  { apply (wf_shape j); [|by rewrite H2, Hm|exact Hwf].
    eapply same_shape_trans; [apply update_progress_shape|].
    eapply same_shape_trans; [exact Hsh|apply fire_shape]. }
  destruct (j_pool j2) as [p|] eqn:Hp; intros [= <- <- <-]; [|done].
  apply wf_transition.
  - eapply wf_shape; [by eapply with_pool_shape|done|done].
  - intros _. apply wf_move; [auto|by left|]. eapply wf_shape; [by eapply with_pool_shape|done|done].
Qed.

(** Pause and resume: the pool call, then the transition. *)
Lemma wf_pool_transition j p q s :
  job_wf j → j_pool j = Some p → (j_state j = STATE_MIGRATING ∨ j_state j = STATE_PAUSED) →
  (s = STATE_MIGRATING ∨ s = STATE_PAUSED ∨ s = STATE_COMPLETED) →
  job_wf (with_pool (Some q) j) ∧ job_wf (transition_state (with_pool (Some q) j) s).2.
Proof.
  intros Hwf Hp Hj Hs. assert (job_wf (with_pool (Some q) j)) as Hw.
  { eapply wf_shape; [by eapply with_pool_shape|done|done]. }
  split; [done|]. apply wf_transition; [done|]. intros _. by apply wf_move.
Qed.

Lemma job_step_wf x y : job_step x y → job_wf x.1 → job_wf y.1.
Proof.
  destruct 1 as [j fs disks now err j' Hs|j fs err j' Hs|j fs err j' Hs|j fs err j' Hs
                |j fs env pid clk dn j' fs' Hs|j fs|j fs cb]; simpl; intros Hwf.
  - by eapply start_wf.
  - unfold buckets_migration_job_pause in Hs. case_bool_decide as Hm; simpl in Hs; [|by simplify_eq].
    destruct (j_pool j) as [p|] eqn:Hp.
    + destruct (wf_pool_transition j p (pool_stop p).2 STATE_PAUSED Hwf Hp) as [? ?]; [auto..|].
      destruct (pool_stop p) as [[] p1]; simpl in *; take_job Hs j'; done.
    + destruct Hwf as (_ & _ & _ & Hrest). rewrite Hm, Hp in Hrest.
      by destruct Hrest as (_ & [? ?] & _).
  - unfold buckets_migration_job_resume in Hs. case_bool_decide as Hm; simpl in Hs; [|by simplify_eq].
    destruct (j_pool j) as [p|] eqn:Hp.
    + destruct (wf_pool_transition j p (pool_start p).2 STATE_MIGRATING Hwf Hp) as [? ?]; [auto..|].
      destruct (pool_start p) as [[] p1]; simpl in *; take_job Hs j'; done.
    + destruct Hwf as (_ & _ & _ & Hrest). rewrite Hm, Hp in Hrest.
      by destruct Hrest as (_ & [? ?] & _).
  - unfold buckets_migration_job_stop in Hs. destruct (is_terminal (j_state j)); [by simplify_eq|].
    take_job Hs j'. assert (∀ q, job_wf (match j_pool j with Some _ => with_pool (Some q) j | None => j end)) as Hw.
    { intros q. destruct (j_pool j) eqn:Hp; [|done].
      eapply wf_shape; [by eapply with_pool_shape|done|done]. }
    destruct (j_pool j) as [p|].
    + apply wf_transition; [apply Hw|]. intros _. apply wf_to_failed, Hw.
    + apply wf_transition; [done|]. intros _. by apply wf_to_failed.
  - by eapply wait_round_wf.
  - unfold buckets_migration_job_get_progress. simpl. case_bool_decide; [|done].
    eapply wf_shape; [apply update_progress_shape|apply update_progress_state|done].
  - done.
Qed.

Lemma job_steps_wf x y : rtc job_step x y → job_wf x.1 → job_wf y.1.
Proof. induction 1 as [|x1 x2 x3 Hs _ IH]; [done|]. intros Hw. by eapply IH, job_step_wf. Qed.

Lemma create_wf_job sg tg old new paths j :
  buckets_migration_job_create sg tg old new paths = Some j → job_wf j.
Proof.
  unfold buckets_migration_job_create. destruct old, new, paths as [[|? ?]|]; try done.
  intros Hc. apply (inj Some) in Hc. subst j. unfold job_wf. simpl. eauto 10.
Qed.

(** A round of the wait on a migrating job that has a pool. *)
Lemma wait_round_migrating env pid j fs clk p :
  j_state j = STATE_MIGRATING → j_pool j = Some p →
  ∃ j' fs', wait_round env pid j fs clk = (true, j', fs') ∧ j_state j' = STATE_COMPLETED ∧
    j_pool j' = Some (pool_wait p) ∧ total_objects j' = total_objects j ∧
    migrated_objects j' = st_tasks_completed (pool_stats p) ∧
    failed_objects j' = st_tasks_failed (pool_stats p) ∧
    ∃ fs1, fs' = fs_after fs1 (buckets_migration_job_save env pid fs1 j'
                                 (Some (checkpoint_path j')) (clk 3%nat)).
Proof.
  intros Hs Hp. unfold wait_round. rewrite Hs, bool_decide_eq_true_2 by done. cbn [is_terminal].
  assert (∃ eta, update_progress j = with_progress (st_tasks_completed (pool_stats p))
            (st_tasks_failed (pool_stats p)) (st_bytes_migrated (pool_stats p)) eta j) as [eta ->].
  { unfold update_progress. rewrite Hp. simpl. case_match; by eexists. }
  set (j1 := with_progress _ _ _ _ _).
  assert (∃ n o fs1, save_checkpoint_if_needed env pid fs j1 clk = (with_checkpointed n o j1, fs1))
    as (n & o & fs1 & ->).
  { unfold save_checkpoint_if_needed. destruct (should_checkpoint j1 (clk 0%nat)).
    - destruct (buckets_migration_job_save _ _ _ _ _ _).1; 
        first [ by eexists _, _, _
              | exists (last_checkpoint_time j1), (last_checkpoint_objects j1); by eexists ].
    - by exists (last_checkpoint_time j1), (last_checkpoint_objects j1), fs. }
  set (j2 := fire "progress" (with_checkpointed n o j1)).
  assert (j_pool j2 = Some p ∧ j_state j2 = STATE_MIGRATING ∧ total_objects j2 = total_objects j ∧
          migrated_objects j2 = st_tasks_completed (pool_stats p) ∧
          failed_objects j2 = st_tasks_failed (pool_stats p)) as (Hp2 & Hs2 & Ht2 & Hm2 & Hf2).
  { unfold j2, fire. by destruct (has_callback _). }
  rewrite Hp2. unfold transition_state. simpl. rewrite Hs2. simpl.
  eexists _, _. split; [done|]. unfold fire. simpl.
  destruct (has_callback j2); split_and!; try done; by eexists.
Qed.

(** A round on a migrating job without a pool changes nothing that matters. *)
Lemma wait_round_no_pool env pid j fs clk :
  j_state j = STATE_MIGRATING → j_pool j = None →
  ∃ j' fs', wait_round env pid j fs clk = (false, j', fs') ∧
    j_state j' = STATE_MIGRATING ∧ j_pool j' = None.
Proof.
  intros Hs Hp. unfold wait_round. rewrite Hs, bool_decide_eq_true_2 by done. cbn [is_terminal].
  assert (update_progress j = j) as -> by (unfold update_progress; by rewrite Hp).
  pose proof (save_checkpoint_state env pid fs j clk) as Hs1.
  pose proof (save_checkpoint_shape env pid fs j clk) as (_ & _ & _ & _ & Hp1 & _).
  destruct (save_checkpoint_if_needed env pid fs j clk) as [j1 fs1]. simpl in *.
  destruct (fire_shape "progress" j1) as (_ & _ & _ & _ & Hp2 & _).
  assert (j_pool (fire "progress" j1) = None) as Hp3.
  { apply eq_None_not_Some. rewrite <-Hp2, <-Hp1, Hp. by intros [? ?]. }
  rewrite Hp3. eexists _, _. split; [done|]. split; [by rewrite fire_state, Hs1|done].
Qed.

Lemma wait_no_pool n env pid j fs clk :
  j_state j = STATE_MIGRATING → j_pool j = None →
  (buckets_migration_job_wait n env pid j fs clk).1.1 = false.
Proof.
  revert j fs. induction n as [|n IH]; intros j fs Hs Hp; [done|].
  destruct (wait_round_no_pool env pid j fs (clk n) Hs Hp) as (j' & fs' & E & Hs' & Hp').
  cbn [buckets_migration_job_wait]. rewrite E. by apply IH.
Qed.

(** ** Checkpoint files *)

(** The numbers of a job are integers that a double holds. *)
Definition job_exact (j : job) : Prop :=
  Forall is_exact [source_generation j; target_generation j; j_start_time j; total_objects j;
                   migrated_objects j; failed_objects j; bytes_total j; j_bytes_migrated j].

Definition enum_state (s : migration_state) : bool :=
  match s with STATE_INVALID _ => false | _ => true end.

(** What a checkpoint keeps of a job. *)
Definition restored (j : job) : job :=
  MigrationJob (job_id j) (source_generation j) (target_generation j) (j_start_time j) 0
    (j_state j) (total_objects j) (migrated_objects j) (failed_objects j) (bytes_total j)
    (j_bytes_migrated j) None None None None None 0 0 "" false [].

Lemma state_number_roundtrip s : enum_state s = true → state_of_number (state_number s) = s.
Proof. by destruct s. Qed.

Lemma job_of_checkpoint j now :
  (strlen (job_id j) ≤ 63)%nat → enum_state (j_state j) = true →
  job_of_json (checkpoint_json j now) = Val (Some (restored j)).
Proof.
  intros Hid Hs. unfold job_of_json, checkpoint_json, opt_number. simpl.
  rewrite state_number_roundtrip, strncpy_short by done. done.
Qed.

Lemma state_number_exact s : enum_state s = true → is_exact (state_number s).
Proof. unfold is_exact. destruct s; simpl; lia || done. Qed.

Lemma checkpoint_printable j now :
  job_exact j → is_exact now → enum_state (j_state j) = true →
  json_printable (checkpoint_json j now).
Proof using Type.
  clear eta_of. intros Hj Hnow Hs. apply state_number_exact in Hs. unfold job_exact in Hj.
  rewrite !Forall_cons in Hj. exists 1%nat. split; [lia|]. unfold checkpoint_json. cbn [json_ok].
  rewrite !Forall_cons. cbn [snd json_ok]. pose proof (Forall_nil_2 (λ kv : string * json, json_ok 0 kv.2)).
  tauto.
Qed.

Lemma save_load_job `{!CJsonLaws} env pid fs j path now st :
  job_exact j → is_exact now → enum_state (j_state j) = true → (strlen (job_id j) ≤ 63)%nat →
  buckets_migration_job_save env pid fs j (Some path) now = (BUCKETS_OK, st) →
  buckets_migration_job_load true (fs_after fs (BUCKETS_OK, st)) (Some path)
    = Val (Some (restored j)).
Proof.
  intros Hj Hnow Hs Hid. unfold buckets_migration_job_save, buckets_migration_job_load.
  destruct (cJSON_Print (checkpoint_json j now)) as [data|] eqn:Hp; [|done]. intros Hw.
  apply atomic_write_lookup in Hw as (_ & Hl & _). specialize (Hl eq_refl). simpl in *.
  rewrite Hl. rewrite (cjson_parse_print (checkpoint_json j now)).
  - by apply job_of_checkpoint.
  - by apply checkpoint_printable.
  - done.
Qed.

(** ** Properties *)

(** C26: the life of a job follows the documented state machine: whatever calls are made in
    whatever order, the state moves only along the edges IDLE, SCANNING, MIGRATING,
    PAUSED, COMPLETED, FAILED of the transition table, never back to an earlier phase,
    and a job that is COMPLETED or FAILED stays so. *)
Theorem job_state_machine sg tg old new paths j fs x y :
  buckets_migration_job_create sg tg old new paths = Some j →
  rtc job_step (j, fs) x → rtc job_step x y →
  rtc trans STATE_IDLE (j_state x.1) ∧ rtc trans (j_state x.1) (j_state y.1) ∧
  (rank (j_state x.1) ≤ rank (j_state y.1))%nat ∧
  (is_terminal (j_state x.1) = true → j_state y.1 = j_state x.1).
Proof using Type.
  intros Hc Hx Hy. assert (j_state j = STATE_IDLE) as <-.
  { unfold buckets_migration_job_create in Hc. destruct old, new, paths as [[|? ?]|]; try done.
    apply (inj Some) in Hc. by subst j. }
  apply job_steps_trans in Hx, Hy. split_and!; [done|done|by apply trans_rank|].
  intros Ht. by apply trans_terminal.
Qed.

(** C36: between calls a job record is consistent with its state: an idle job has no
    scanner, pool or totals; a migrating or paused one has both and something to migrate;
    a completed one was scanned and either had nothing to do or ran a pool; no call
    leaves it in SCANNING or outside the enumeration; topologies and disk paths stay
    set. *)
Theorem job_well_formed sg tg old new paths j fs x :
  buckets_migration_job_create sg tg old new paths = Some j →
  rtc job_step (j, fs) x → job_wf x.1.
Proof using Type.
  intros Hc Hx. apply (job_steps_wf _ _ Hx). by eapply create_wf_job.
Qed.

(** Waiting for a job succeeds: for every job that was created and driven by the
    interface, once it is migrating or finished a wait returns in its first round with
    the job COMPLETED or FAILED, the blocking wait for the pool being the only thing it
    waits for. *)
Theorem job_wait_returns sg tg old new paths j0 fs0 j fs n env pid clk :
  buckets_migration_job_create sg tg old new paths = Some j0 →
  rtc job_step (j0, fs0) (j, fs) →
  j_state j = STATE_MIGRATING ∨ is_terminal (j_state j) = true →
  ∃ j' fs', buckets_migration_job_wait (S n) env pid j fs clk = (true, j', fs') ∧
    is_terminal (j_state j') = true.
Proof using Type.
  intros Hc Hx Hs. cbn [buckets_migration_job_wait]. destruct Hs as [Hs|Hs].
  - assert (job_wf j) as (_ & _ & _ & Hrest).
    { apply (job_steps_wf _ _ Hx). by eapply create_wf_job. }
    rewrite Hs in Hrest. destruct Hrest as (_ & [p Hp] & _).
    destruct (wait_round_migrating env pid j fs (clk n) p Hs Hp) as (j' & fs' & -> & Hs' & _).
    exists j', fs'. by rewrite Hs'.
  - unfold wait_round. rewrite Hs. by exists j, fs.
Qed.

(** A checkpoint keeps the identity, state and progress of a job: loading the file that
    a successful save wrote gives back the saved job (numbers up to 2^53), and resuming
    from it gives a job that waits in PAUSED when the saved one was migrating. *)
Theorem job_checkpoint_roundtrip `{!CJsonLaws} env pid fs j path now st old new paths now2 :
  job_exact j → is_exact now → enum_state (j_state j) = true → (strlen (job_id j) ≤ 63)%nat →
  buckets_migration_job_save env pid fs j (Some path) now = (BUCKETS_OK, st) →
  let fs' := fs_after fs (BUCKETS_OK, st) in
  buckets_migration_job_load true fs' (Some path) = Val (Some (restored j)) ∧
  (is_Some old → is_Some new → (∃ p ps, paths = Some (p :: ps)) →
   ∃ j', buckets_migration_job_resume_from_checkpoint true fs' (Some path) old new paths now2
           = Val (Some j') ∧ migrated_objects j' = migrated_objects j ∧
     total_objects j' = total_objects j ∧
     j_state j' = (if bool_decide (j_state j = STATE_MIGRATING) then STATE_PAUSED else j_state j)).
Proof using Type.
  intros Hj Hnow Hs Hid Hw. pose proof (save_load_job _ _ _ _ _ _ _ Hj Hnow Hs Hid Hw) as Hl.
  split; [exact Hl|]. intros [o ->] [n ->] (p & ps & ->).
  unfold buckets_migration_job_resume_from_checkpoint. rewrite Hl. cbn [c_bind]. by eexists.
Qed.

(** A job resumed from a checkpoint never finishes: the checkpoint holds no tasks and
    resuming makes no pool, so after the resume succeeded the job is MIGRATING for ever
    and a wait never returns. *)
Theorem job_resumed_never_finishes `{!CJsonLaws} env pid fs j path now st old new paths now2
    fs2 env2 pid2 clk n :
  job_exact j → is_exact now → (strlen (job_id j) ≤ 63)%nat → j_state j = STATE_MIGRATING →
  buckets_migration_job_save env pid fs j (Some path) now = (BUCKETS_OK, st) →
  is_Some old → is_Some new → (∃ p ps, paths = Some (p :: ps)) →
  ∃ j1 j2, buckets_migration_job_resume_from_checkpoint true (fs_after fs (BUCKETS_OK, st))
             (Some path) old new paths now2 = Val (Some j1) ∧
    buckets_migration_job_resume j1 = (BUCKETS_OK, j2) ∧
    (buckets_migration_job_wait n env2 pid2 j2 fs2 clk).1.1 = false.
Proof using Type.
  intros Hj Hnow Hid Hs Hw [o ->] [nw ->] (p & ps & ->).
  assert (enum_state (j_state j) = true) as He by (by rewrite Hs).
  pose proof (save_load_job _ _ _ _ _ _ _ Hj Hnow He Hid Hw) as Hl.
  unfold buckets_migration_job_resume_from_checkpoint. rewrite Hl. cbn [c_bind].
  eexists _, _. split; [done|].
  unfold with_resumed, restored, buckets_migration_job_resume. simpl. rewrite Hs. simpl.
  split; [done|]. by apply wait_no_pool.
Qed.

(** The checkpoint that a wait saves at the end counts the objects that were migrated when
    the wait began. *)
Lemma job_final_checkpoint_stale env pid j fs clk p :
  j_state j = STATE_MIGRATING → j_pool j = Some p →
  ∃ j' fs', wait_round env pid j fs clk = (true, j', fs') ∧ j_pool j' = Some (pool_wait p) ∧
    migrated_objects j' = st_tasks_completed (pool_stats p).
Proof using Type.
  intros Hs Hp. destruct (wait_round_migrating env pid j fs clk p Hs Hp)
    as (j' & fs' & ? & _ & ? & _ & ? & _). eauto 10.
Qed.
End Job.
