(* ===== verification/Migration.v ===== *)
(** * Scanner, worker pool and job together

    The orchestrator over the worker pool of WorkerPool.v: what the interface
    [MigrationPool] stands for when its operations are runs of the threads, and what a
    whole migration then achieves. *)

From S2P Require Import Prelude CInt CString XXHash DiskIO Json Topology TaskQueue WorkerPool.
From S2P Require Import SortedArray Ring Scanner Orchestrator.

Local Open Scope c_scope.

(** ** Pools whose operations are runs

    A call of the pool's interface returns after some run of its threads. *)

Class WorkerPoolRuns (M : MigrationPool worker_pool) := {
  runs_create w old new paths p :
    pool_create w old new paths = Some p →
    ∃ now, buckets_worker_pool_create w old new paths now = Some p;
  runs_start p p' :
    pool_start p = (BUCKETS_OK, p') →
    ∃ created now, buckets_worker_pool_start p created now = (BUCKETS_OK, p');
  runs_submit p ts p' :
    pool_submit p ts = (BUCKETS_OK, p') →
    submit_guard p ts = BUCKETS_OK ∧ ∃ n h, sys_run (p, ts) n h (p', []);
  runs_stop p p' :
    pool_stop p = (BUCKETS_OK, p') →
    ∃ n h p1 p2 m k p3, sys_run (p, []) n h (p1, []) ∧ stop_begin p1 = (BUCKETS_OK, p2) ∧
      sys_run (p2, []) m k (p3, []) ∧ Forall (λ pc, pc = W_Exited) (threads p3) ∧
      p' = stop_end p3
}.

(** ** What a successful start did *)

Lemma sum_sizes_total ts acc b :
  sum_sizes acc ts = Val b → b = acc + total_bytes ts ∧ (ts ≠ [] → b < 2 ^ 63).
Proof.
  revert acc. induction ts as [|t ts IH]; intros acc; simpl.
  - intros [= <-]. split; [lia|done].
  - destruct (i64c (acc + t_size t)) as [acc'|] eqn:E; [|done]. apply i64c_Val in E as [Hr ->].
    cbn [c_bind]. intros Hs. pose proof (IH _ Hs) as [-> Hb]. split; [lia|]. intros _.
    destruct ts as [|t' ts]; [simpl in *; unfold is_i64 in Hr; lia|]. by apply Hb.
Qed.

Section StartInv.
Context `{Qsort} {P : Type} `{!MigrationPool P}.

Lemma start_pool_inv (j j' : migration_job P) ts :
  start_pool j ts = (BUCKETS_OK, j') →
  ∃ p0 p1 p2, pool_create 16 (j_old_topology j) (j_new_topology j) (j_disk_paths j) = Some p0 ∧
    pool_start p0 = (BUCKETS_OK, p1) ∧ pool_submit p1 ts = (BUCKETS_OK, p2) ∧
    j' = with_pool (Some p2) j.
Proof.
  unfold start_pool. destruct (pool_create _ _ _ _) as [p0|]; [|done].
  destruct (pool_start p0) as [[] p1] eqn:Hst; try done.
  destruct (pool_submit p1 ts) as [[] p2] eqn:Hsu; try done.
  intros E. exists p0, p1, p2. apply (f_equal snd) in E. by simpl in E.
Qed.

Lemma start_inv (j j1 : migration_job P) disks now :
  buckets_migration_job_start j disks now = Val (BUCKETS_OK, j1) → j_state j1 = STATE_MIGRATING →
  ∃ sc sc' ts p0 p1 p2,
    buckets_scanner_init (j_disk_paths j) (j_old_topology j) (j_new_topology j) = Some sc ∧
    buckets_scanner_scan sc disks = Val (BUCKETS_OK, ts, sc') ∧ ts ≠ [] ∧
    total_bytes ts < 2 ^ 63 ∧
    pool_create 16 (j_old_topology j) (j_new_topology j) (j_disk_paths j) = Some p0 ∧
    pool_start p0 = (BUCKETS_OK, p1) ∧ pool_submit p1 ts = (BUCKETS_OK, p2) ∧
    j_pool j1 = Some p2 ∧ total_objects j1 = Z.of_nat (length ts).
Proof.
  unfold buckets_migration_job_start. case_bool_decide as Hs; simpl; [|done].
  unfold transition_state at 1. rewrite Hs. simpl. set (j0 := with_started _ _).
  assert (j_state j0 = STATE_SCANNING ∧ j_old_topology j0 = j_old_topology j ∧
          j_new_topology j0 = j_new_topology j ∧ j_disk_paths j0 = j_disk_paths j)
    as (H0 & Ho & Hn & Hd).
  { unfold j0, fire. simpl. by destruct (has_callback j). }
  unfold scan_and_migrate. rewrite Ho, Hn, Hd.
  destruct (buckets_scanner_init _ _ _) as [sc|] eqn:Hinit; [|done].
  destruct (buckets_scanner_scan sc disks) as [[[[] ts] sc1]|] eqn:Hscan; cbn [c_bind]; try done.
  destruct (sum_sizes 0 ts) as [bytes|] eqn:Hsum; [|done]. cbn [c_bind].
  set (j2 := with_totals _ _ _). assert (j_state j2 = STATE_SCANNING) as H2 by done.
  destruct ts as [|t ts]; unfold transition_state at 1; rewrite H2; simpl; intros Hst Hm;
    apply (inj Val) in Hst.
  { apply (f_equal snd) in Hst. simpl in Hst. subst j1. by rewrite fire_state in Hm. }
  set (j3 := fire _ _) in Hst.
  assert (j_old_topology j3 = j_old_topology j ∧ j_new_topology j3 = j_new_topology j ∧
          j_disk_paths j3 = j_disk_paths j ∧ total_objects j3 = Z.of_nat (length (t :: ts)))
    as (Ho3 & Hn3 & Hd3 & Ht3).
  { unfold j3. destruct (fire_shape "state_change" (with_state STATE_MIGRATING j2))
      as (-> & -> & -> & _ & _ & ->). split_and!; [exact Ho|exact Hn|exact Hd|done]. }
  apply start_pool_inv in Hst as (p0 & p1 & p2 & Hc & Hp1 & Hp2 & ->). rewrite Ho3, Hn3, Hd3 in Hc.
  destruct (sum_sizes_total _ _ _ Hsum) as [-> Hb].
  exists sc, sc1, (t :: ts), p0, p1, p2. split_and!; try done. by apply Hb.
Qed.
End StartInv.

(** ** Whole migrations *)

Section Whole.
Context `{Qsort} `{M : MigrationPool worker_pool} `{!WorkerPoolRuns M}.

(** The invariant of the pool after a start. *)
Lemma started_pool_inv old new paths sc sc' disks ts p0 p1 p2 :
  ids_fit old → ids_fit new →
  (∀ d bucket o size mtime, d ∈ disks → on_disk d bucket o size mtime → 0 ≤ size) →
  buckets_scanner_init (Some paths) (Some old) (Some new) = Some sc →
  buckets_scanner_scan sc disks = Val (BUCKETS_OK, ts, sc') →
  pool_create 16 (Some old) (Some new) (Some paths) = Some p0 →
  pool_start p0 = (BUCKETS_OK, p1) → pool_submit p1 ts = (BUCKETS_OK, p2) →
  total_bytes ts < 2 ^ 63 → Z.of_nat (length ts) < 2 ^ 31 →
  Forall (task_ok old new) ts ∧ (0 < num_workers p1)%nat ∧ Z.of_nat (num_workers p1) < 2 ^ 62 ∧
  ∃ h l, sys_inv old new ts (num_workers p1) false (p2, []) h l.
Proof.
  intros Ho Hn Hsz Hinit Hscan Hc Hs Hsub Hb Hl.
  assert (Forall (task_ok old new) ts) as Hok.
  { destruct paths as [|path paths]; [done|]. apply (inj Some) in Hinit. subst sc.
    destruct (topology_ring_exists _ Ho) as [ro Hro]. destruct (topology_ring_exists _ Hn) as [rn Hrn].
    exact (scan_tasks_ok (ScannerState old new 0 0 0 false) disks ro rn ts sc' Ho Hn Hro Hrn Hsz Hscan). }
  apply runs_create in Hc as [now0 Hc]. apply runs_start in Hs as (created & now & Hs).
  apply runs_submit in Hsub as (_ & n & h & Hrun).
  destruct (started_inv _ _ _ _ _ _ _ _ _ ts Hc Hs ltac:(lia)) as (Hinv & Hne & Hnth & _).
  destruct (run_inv old new ts _ _ Hok Hb ltac:(lia) Hnth _ _ _ _ _ _ Hinv Hrun) as (l & Hi & _).
  split_and!; [done|done|done|]. exists h, l. by rewrite app_nil_l in Hi.
Qed.

(** Nothing is queued or in a worker's hands, and [total] tasks are accounted for. *)
Definition drained (p : worker_pool) (total : Z) : Prop :=
  q_count (queue p) = 0%nat ∧ in_flight (threads p) = [] ∧
  tasks_completed p + tasks_failed p = total.

(** A pool that has been stopped has done everything. *)
Lemma stopped_pool_drained old new ts nth h l p p' :
  Forall (task_ok old new) ts → total_bytes ts < 2 ^ 63 → Z.of_nat (length ts) < 2 ^ 31 →
  (0 < nth)%nat → Z.of_nat nth < 2 ^ 62 →
  sys_inv old new ts nth false (p, []) h l → pool_stop p = (BUCKETS_OK, p') →
  drained p' (Z.of_nat (length ts)).
Proof.
  intros Hok Hb Hl Hpos Hnth Hinv Hstop.
  apply runs_stop in Hstop as (n & h1 & p1 & p2 & m & k & p3 & Hr1 & Hsb & Hr2 & Hex & ->).
  destruct (run_inv old new ts _ _ Hok Hb ltac:(lia) Hnth _ _ _ _ _ _ Hinv Hr1) as (l1 & Hi1 & _).
  assert (p2 = with_queue (task_queue_shutdown (queue p1)) p1) as ->.
  { unfold stop_begin in Hsb. destruct (running p1); congruence. }
  apply stop_inv in Hi1.
  destruct (run_inv old new ts _ _ Hok Hb ltac:(lia) Hnth _ _ _ _ _ _ Hi1 Hr2) as (l2 & Hi2 & _).
  assert (in_flight (threads p3) = []) as Hfl.
  { clear -Hex. unfold in_flight. induction Hex as [|pc ths -> _ IH]; [done|]. exact IH. }
  assert (l2 = []) as ->.
  { apply (si_exited _ _ _ _ _ _ _ _ Hi2). simpl. pose proof (si_threads _ _ _ _ _ _ _ _ Hi2) as Hn.
    simpl in Hn. destruct Hex as [|pc ths -> _]; simpl in Hn; [lia|]. set_solver. }
  destruct Hi2 as [_ _ _ _ Hq Htasks _ Hdone Hfail _ _ _]. unfold drained. simpl in *. split_and!.
  - apply (qr_count _ _ Hq).
  - done.
  - rewrite Hdone, Hfail, count_ok_sum, Htasks, Hfl. simpl. by rewrite length_fmap.
Qed.

(** C23: a migration that is started and then paused has been carried out in full: the scan
    hands valid tasks to the pool, the pause returns once every worker has exited, and by
    then each of the objects that the scan found is counted as moved or failed, none is
    queued and none is in a worker's hands. *)
Theorem migration_paused_is_drained sg tg old new paths j j1 j2 disks now :
  buckets_migration_job_create sg tg (Some old) (Some new) (Some paths) = Some j →
  ids_fit old → ids_fit new →
  (∀ d bucket o size mtime, d ∈ disks → on_disk d bucket o size mtime → 0 ≤ size) →
  buckets_migration_job_start j disks now = Val (BUCKETS_OK, j1) →
  total_objects j1 < 2 ^ 31 →
  buckets_migration_job_pause j1 = (BUCKETS_OK, j2) →
  j_state j2 = STATE_PAUSED ∧
  ∃ p, j_pool j2 = Some p ∧ drained p (total_objects j2).
Proof.
  intros Hc Ho Hn Hsz Hst Hlen Hpause.
  unfold buckets_migration_job_pause in Hpause.
  case_bool_decide as Hm; simpl in Hpause; [|done].
  destruct (start_inv _ _ _ _ Hst Hm)
    as (sc & sc' & ts & p0 & p1 & p2 & Hinit & Hscan & Hne & Hb & Hcr & Hs1 & Hsub & Hp & Htot).
  assert (j_old_topology j = Some old ∧ j_new_topology j = Some new ∧ j_disk_paths j = Some paths)
    as (Eo & En & Ed).
  { unfold buckets_migration_job_create in Hc. destruct paths; [done|].
    apply (inj Some) in Hc. by subst j. }
  rewrite Eo, En, Ed in *. rewrite Htot in Hlen.
  destruct (started_pool_inv _ _ _ _ _ _ _ _ _ _ Ho Hn Hsz Hinit Hscan Hcr Hs1 Hsub Hb Hlen)
    as (Hok & Hpos & Hnth & h & l & Hinv).
  rewrite Hp in Hpause. destruct (pool_stop p2) as [[] p3] eqn:Hstop; try done.
  unfold transition_state in Hpause. simpl in Hpause. rewrite Hm in Hpause. simpl in Hpause.
  apply (f_equal snd) in Hpause. simpl in Hpause. subst j2. split; [by rewrite fire_state|].
  exists p3. split; [unfold fire; simpl; by destruct (has_callback j1)|].
  assert (total_objects (fire "state_change" (with_state STATE_PAUSED (with_pool (Some p3) j1)))
          = Z.of_nat (length ts)) as ->.
  { rewrite <-Htot. unfold fire. simpl. by destruct (has_callback j1). }
  by eapply stopped_pool_drained.
Qed.
End Whole.

(** ** A pool that runs its threads

    The calls of the interface with one schedule of the threads: before a task is pushed,
    and when the threads are joined, the workers run until none of them can. *)

Fixpoint first_step (p : worker_pool) (n : nat) : option worker_pool :=
  match n with
  | O => None
  | S n => match worker_step p n with Some (Val (_, p')) => Some p' | _ => first_step p n end
  end.

Fixpoint drain (fuel : nat) (p : worker_pool) : worker_pool :=
  match fuel with
  | O => p
  | S fuel => match first_step p (length (threads p)) with Some p' => drain fuel p' | None => p end
  end.

Definition run_workers (p : worker_pool) : worker_pool := drain (weight (p, [])) p.

Fixpoint push_all (p : worker_pool) (ts : list migration_task) : buckets_error_t * worker_pool :=
  match ts with
  | [] => (BUCKETS_OK, p)
  | t :: ts =>
      let p := run_workers p in
      match task_queue_push (queue p) t with
      | Some (Val (BUCKETS_OK, q)) => push_all (with_queue q p) ts
      | _ => (BUCKETS_ERR_INVALID_ARG, p)
      end
  end.

Definition buckets_worker_pool_submit (p : worker_pool) (ts : list migration_task)
    : buckets_error_t * worker_pool :=
  match submit_guard p ts with BUCKETS_OK => push_all p ts | err => (err, p) end.

Definition all_exited (ths : list worker_pc) : bool :=
  forallb (λ pc, match pc with W_Exited => true | _ => false end) ths.

(** The join of a thread that never exits does not return; the error stands for that. *)
Definition buckets_worker_pool_stop (p : worker_pool) : buckets_error_t * worker_pool :=
  match stop_begin p with
  | (BUCKETS_OK, p) =>
      let p := run_workers p in
      if all_exited (threads p) then (BUCKETS_OK, stop_end p) else (BUCKETS_ERR_IO, p)
  | r => r
  end.

#[export] Instance ThreadedPool : MigrationPool worker_pool := {
  pool_create w old new paths := buckets_worker_pool_create w old new paths 0;
  pool_start p := buckets_worker_pool_start p (num_workers p) 0;
  pool_submit := buckets_worker_pool_submit;
  pool_stop := buckets_worker_pool_stop;
  pool_wait := run_workers;
  pool_stats := buckets_worker_pool_get_stats
}.

Lemma sys_run_trans s0 n h s1 m k s2 :
  sys_run s0 n h s1 → sys_run s1 m k s2 → sys_run s0 (n + m) (h ++ k) s2.
Proof.
  intros H1 H2. induction H2 as [|m k s o s' _ IH Hstep].
  - by rewrite Nat.add_0_r, app_nil_r.
  - rewrite Nat.add_succ_r, app_assoc. by apply (run_next _ _ _ s).
Qed.

Lemma sys_run_one s o s' : sys_step s o s' → sys_run s 1 o s'.
Proof. intros Hs. apply (run_next _ 0 [] s); [apply run_start|done]. Qed.

Lemma first_step_run p n p' pend :
  first_step p n = Some p' → ∃ o, sys_step (p, pend) o (p', pend).
Proof.
  induction n as [|n IH]; simpl; [done|].
  destruct (worker_step p n) as [[[o p1]|]|] eqn:E; [|done..]. intros [= ->].
  eexists. by eapply sys_worker.
Qed.

Lemma drain_run fuel p pend : ∃ n h, sys_run (p, pend) n h (drain fuel p, pend).
Proof.
  revert p. induction fuel as [|fuel IH]; intros p; simpl; [eexists _, _; apply run_start|].
  destruct (first_step _ _) as [p'|] eqn:E; [|eexists _, _; apply run_start].
  destruct (first_step_run _ _ _ pend E) as [o Hs]. destruct (IH p') as (n & h & Hr).
  eexists _, _. eapply sys_run_trans; [by apply sys_run_one|exact Hr].
Qed.

Lemma push_all_run p ts p' :
  push_all p ts = (BUCKETS_OK, p') → ∃ n h, sys_run (p, ts) n h (p', []).
Proof.
  revert p. induction ts as [|t ts IH]; intros p; simpl.
  - intros [= ->]. eexists _, _. apply run_start.
  - destruct (task_queue_push _ t) as [[[[] q]|]|] eqn:E; try done. intros Hp.
    destruct (drain_run (weight (p, [])) p (t :: ts)) as (n & h & H1).
    destruct (IH _ Hp) as (m & k & H2).
    eexists _, _. eapply sys_run_trans; [exact H1|].
    eapply sys_run_trans; [by apply sys_run_one, sys_submit|exact H2].
Qed.

#[export] Instance ThreadedPool_runs : WorkerPoolRuns ThreadedPool.
Proof.
  split; simpl.
  - intros w old new paths p Hc. by exists 0.
  - intros p p' Hs. by exists (num_workers p), 0.
  - unfold buckets_worker_pool_submit. intros p ts p'.
    destruct (submit_guard p ts); try done. intros Hp. split; [done|]. by apply push_all_run.
  - unfold buckets_worker_pool_stop. intros p p'.
    destruct (stop_begin p) as [[] p2] eqn:E; try done.
    destruct (all_exited _) eqn:Hex; [|done]. intros [= <-].
    destruct (drain_run (weight (p2, [])) p2 []) as (m & k & Hr).
    exists 0%nat, [], p, p2, m, k, (run_workers p2). split_and!; [apply run_start|done|exact Hr| |done].
    apply Forall_forall. intros pc Hpc. unfold all_exited in Hex. rewrite forallb_forall in Hex.
    specialize (Hex pc (proj1 (list_elem_of_In _ _) Hpc)). by destruct pc.
Qed.

(** ** Instances

    One object on one disk; the set that holds it is taken out of the cluster. *)

(** The only set is in pool 1. *)
Definition demo_moved : buckets_cluster_topology :=
  ClusterTopology 1 2 "dep" 150 [PoolTopology 0 []; PoolTopology 1 [demo_set 0]].

Lemma demo_moved_fits : ids_fit demo_moved.
Proof. repeat constructor; simpl; lia. Qed.

(** A key of a topology that has one set is in that set. *)
Lemma lookup_single_set t r p0 s0 key :
  topology_to_ring (Some t) = Some r → position t p0 s0 →
  (∀ p s, position t p s → p = p0 ∧ s = s0) →
  buckets_ring_lookup (Some r) (Some key) = Val (ENCODE_NODE_ID (Z.of_nat p0) (Z.of_nat s0)).
Proof.
  intros Hr Hpos Huniq. destruct (topology_ring_members _ _ Hr) as (Hwf & _ & Hm).
  destruct (decide (vnodes r = [])) as [Hnil|Hne].
  { assert (make_vnode 0 (ENCODE_NODE_ID (Z.of_nat p0) (Z.of_nat s0)) (node_name_of p0 s0) 0 ∈ vnodes r)
      as Hin by (apply Hm; exists p0, s0, 0%nat; split_and!; [done|lia|done]).
    rewrite Hnil in Hin. by apply elem_of_nil in Hin. }
  destruct (lookup_nearest r key Hwf Hne) as (v & [Hv _] & ->).
  apply Hm in Hv as (p & s & i & Hp & _ & ->). by apply Huniq in Hp as [-> ->].
Qed.

Lemma demo_old_position p s : position demo_old p s ↔ p = 0%nat ∧ s = 0%nat.
Proof.
  split.
  - intros (pool & set & Hp & Hs). destruct p as [|p]; simplify_eq/=. by destruct s as [|s]; simplify_eq/=.
  - intros [-> ->]. by eexists _, _.
Qed.

Lemma demo_moved_position p s : position demo_moved p s ↔ p = 1%nat ∧ s = 0%nat.
Proof.
  split.
  - intros (pool & set & Hp & Hs). destruct p as [|[|p]]; simplify_eq/=.
    by destruct s as [|s]; simplify_eq/=.
  - intros [-> ->]. by eexists _, _.
Qed.

Definition demo_move : migration_task := Task "photos" "cat.jpg" "" 0 0 1 0 7 0 0 0.

Lemma omap_one {A B} (f : A → option B) x : omap f [x] = option_list (f x).
Proof. simpl. by destruct (f x). Qed.

Lemma demo_scan :
  ∃ sc', buckets_scanner_scan (ScannerState demo_old demo_moved 0 0 0 false) [demo_disk]
    = Val (BUCKETS_OK, [demo_move], sc').
Proof.
  destruct (topology_ring_exists _ (proj1 demo_fits)) as [ro Hro].
  destruct (topology_ring_exists _ demo_moved_fits) as [rn Hrn].
  destruct (scan_spec (ScannerState demo_old demo_moved 0 0 0 false) [demo_disk] ro rn Hro Hrn)
    as (ts & sc' & Hs & Hp & _).
  exists sc'. rewrite Hs. do 3 f_equal. apply Permutation_singleton_r. rewrite Hp.
  unfold demo_disk. cbn [map concat disk_tasks bucket_tasks app].
  assert (needs_migration ro rn "photos" "cat.jpg" = Val (Some (0, 0, 1, 0))) as Hmig.
  { unfold needs_migration.
    rewrite (lookup_single_set demo_old ro 0 0 _ Hro), (lookup_single_set demo_moved rn 1 0 _ Hrn).
    - reflexivity.
    - exact (proj2 (demo_moved_position 1 0) (conj eq_refl eq_refl)).
    - intros p s. apply demo_moved_position.
    - exact (proj2 (demo_old_position 0 0) (conj eq_refl eq_refl)).
    - intros p s. apply demo_old_position. }
  change (skipped "photos") with false. cbn iota.
  change (dir_objects (NDir true [("cat.jpg", NDir true [("xl.meta", NFile 7 0)])]) "")
    with [("cat.jpg", 7, 0)].
  rewrite omap_one. unfold task_for. rewrite Hmig. reflexivity.
Qed.

Definition demo_job : migration_job worker_pool :=
  MigrationJob "migration-gen-1-to-2" 1 2 0 0 STATE_IDLE 0 0 0 0 0 (Some demo_old) (Some demo_moved)
    (Some ["/d"]) None None 0 0 "/tmp/migration-gen-1-to-2.checkpoint" false [].

Lemma demo_created :
  buckets_migration_job_create 1 2 (Some demo_old) (Some demo_moved) (Some ["/d"]) = Some demo_job.
Proof. vm_compute. reflexivity. Qed.

(** The job in state MIGRATING, before the pool is made. *)
Definition demo_scanned (sc : scanner_state) : migration_job worker_pool :=
  with_state STATE_MIGRATING (with_totals 1 7 (with_scanner (Some sc)
    (with_started 100 (with_state STATE_SCANNING demo_job)))).
Definition demo_migrating (sc : scanner_state) : migration_job worker_pool :=
  (start_pool (demo_scanned sc) [demo_move]).2.

(** A start whose scan finds something. *)
Lemma start_forward (j : migration_job worker_pool) disks now sc sc' t ts bytes :
  j_state j = STATE_IDLE → has_callback j = false →
  buckets_scanner_init (j_disk_paths j) (j_old_topology j) (j_new_topology j) = Some sc →
  buckets_scanner_scan sc disks = Val (BUCKETS_OK, t :: ts, sc') →
  sum_sizes 0 (t :: ts) = Val bytes →
  buckets_migration_job_start j disks now =
    Val (start_pool (with_state STATE_MIGRATING (with_totals (Z.of_nat (length (t :: ts))) bytes
           (with_scanner (Some sc') (with_started now (with_state STATE_SCANNING j))))) (t :: ts)).
Proof.
  intros Hs Hcb Hi Hscan Hsum. unfold buckets_migration_job_start.
  rewrite bool_decide_eq_true_2 by exact Hs. cbn [negb]. unfold transition_state. rewrite Hs.
  cbn [is_valid_transition]. unfold fire. cbn [has_callback with_state]. rewrite Hcb.
  unfold scan_and_migrate. cbn [j_disk_paths j_old_topology j_new_topology with_started with_state].
  rewrite Hi, Hscan. cbn [c_bind]. rewrite Hsum. cbn [c_bind].
  unfold transition_state, fire.
  cbn [j_state has_callback with_totals with_scanner with_started with_state is_valid_transition].
  rewrite Hcb. reflexivity.
Qed.

Lemma demo_started sc :
  buckets_scanner_scan (ScannerState demo_old demo_moved 0 0 0 false) [demo_disk]
    = Val (BUCKETS_OK, [demo_move], sc) →
  buckets_migration_job_start demo_job [demo_disk] 100 = Val (BUCKETS_OK, demo_migrating sc).
Proof.
  intros Hs. rewrite (start_forward demo_job [demo_disk] 100
    (ScannerState demo_old demo_moved 0 0 0 false) sc demo_move [] 7 eq_refl eq_refl eq_refl Hs eq_refl).
  apply (f_equal Val). change (with_state STATE_MIGRATING _) with (demo_scanned sc).
  unfold demo_migrating. apply pair_fst_eq. vm_compute. reflexivity.
Qed.

Lemma migration_paused_is_drained_witness :
  ∃ j1 j2, buckets_migration_job_start demo_job [demo_disk] 100 = Val (BUCKETS_OK, j1) ∧
    buckets_migration_job_pause j1 = (BUCKETS_OK, j2) ∧
    j_state j2 = STATE_PAUSED ∧
    ∃ p, j_pool j2 = Some p ∧ drained p (total_objects j2).
Proof.
  destruct demo_scan as [sc Hs].
  exists (demo_migrating sc), (buckets_migration_job_pause (demo_migrating sc)).2.
  assert (buckets_migration_job_pause (demo_migrating sc)
            = (BUCKETS_OK, (buckets_migration_job_pause (demo_migrating sc)).2)) as Hp.
  { apply pair_fst_eq. vm_compute. reflexivity. }
  split; [exact (demo_started sc Hs)|]. split; [exact Hp|].
  apply (migration_paused_is_drained 1 2 demo_old demo_moved ["/d"] demo_job (demo_migrating sc)
           (buckets_migration_job_pause (demo_migrating sc)).2 [demo_disk] 100).
  - exact demo_created.
  - exact (proj1 demo_fits).
  - exact demo_moved_fits.
  - exact demo_sizes.
  - exact (demo_started sc Hs).
  - vm_compute. reflexivity.
  - exact Hp.
Defined.

(** *** Witnesses of the properties of Orchestrator.v, over the pool that runs its threads *)

Import BitsCJson.

Definition demo_eta (j : migration_job worker_pool) (st : worker_stats) : option Z := None.
Definition demo_paused (sc : scanner_state) : migration_job worker_pool :=
  (buckets_migration_job_pause (demo_migrating sc)).2.

Lemma demo_start_step sc :
  buckets_scanner_scan (ScannerState demo_old demo_moved 0 0 0 false) [demo_disk]
    = Val (BUCKETS_OK, [demo_move], sc) →
  rtc (job_step demo_eta) (demo_job, ∅) (demo_migrating sc, ∅).
Proof.
  intros Hs. apply rtc_once.
  exact (step_start demo_eta demo_job ∅ [demo_disk] 100 BUCKETS_OK _ (demo_started sc Hs)).
Qed.

Lemma demo_pause_step sc : rtc (job_step demo_eta) (demo_migrating sc, ∅) (demo_paused sc, ∅).
Proof.
  apply rtc_once. unfold demo_paused.
  exact (step_pause demo_eta (demo_migrating sc) ∅ _ _ (surjective_pairing _)).
Qed.

Lemma job_state_machine_witness :
  ∃ x y, rtc (job_step demo_eta) (demo_job, ∅) x ∧ rtc (job_step demo_eta) x y ∧
    rtc trans STATE_IDLE (j_state x.1) ∧ rtc trans (j_state x.1) (j_state y.1).
Proof.
  destruct demo_scan as [sc Hs]. exists (demo_migrating sc, ∅), (demo_paused sc, ∅).
  pose proof (job_state_machine demo_eta 1 2 (Some demo_old) (Some demo_moved) (Some ["/d"]) demo_job ∅
    (demo_migrating sc, ∅) (demo_paused sc, ∅) demo_created (demo_start_step sc Hs) (demo_pause_step sc))
    as (H1 & H2 & _).
  exact (conj (demo_start_step sc Hs) (conj (demo_pause_step sc) (conj H1 H2))).
Defined.

Lemma job_well_formed_witness : ∃ x, rtc (job_step demo_eta) (demo_job, ∅) x ∧ job_wf x.1.
Proof.
  destruct demo_scan as [sc Hs]. exists (demo_migrating sc, ∅).
  exact (conj (demo_start_step sc Hs)
    (job_well_formed demo_eta 1 2 (Some demo_old) (Some demo_moved) (Some ["/d"]) demo_job ∅
       (demo_migrating sc, ∅) demo_created (demo_start_step sc Hs))).
Defined.

Lemma job_wait_returns_witness :
  ∃ sc j' fs', buckets_migration_job_wait demo_eta 1 write_env_ok 1 (demo_migrating sc) ∅
    (λ _ _, 100) = (true, j', fs') ∧ is_terminal (j_state j') = true.
Proof.
  destruct demo_scan as [sc Hs]. exists sc.
  apply (job_wait_returns demo_eta 1 2 (Some demo_old) (Some demo_moved) (Some ["/d"]) demo_job ∅
           (demo_migrating sc) ∅ 0 write_env_ok 1 (λ _ _, 100)).
  - exact demo_created.
  - exact (demo_start_step sc Hs).
  - left. vm_compute. reflexivity.
Defined.

(** A job in the middle of its work, as a checkpoint finds it. *)
Definition demo_saved : migration_job worker_pool :=
  MigrationJob "migration-gen-1-to-2" 1 2 100 0 STATE_MIGRATING 12 5 1 700 300 (Some demo_old)
    (Some demo_moved) (Some ["/d"]) None None 100 0 "/tmp/c" false [].

Lemma demo_saved_exact : job_exact demo_saved.
Proof. unfold job_exact, is_exact. simpl. repeat constructor; lia. Qed.

Definition demo_save : buckets_error_t * list fs_t :=
  buckets_migration_job_save write_env_ok 1 ∅ demo_saved (Some "/tmp/c") 200.

Lemma demo_save_ok :
  buckets_migration_job_save write_env_ok 1 ∅ demo_saved (Some "/tmp/c") 200
    = (BUCKETS_OK, demo_save.2).
Proof. unfold demo_save. apply pair_fst_eq. vm_compute. reflexivity. Qed.

Lemma job_checkpoint_roundtrip_witness :
  buckets_migration_job_load true (fs_after ∅ (BUCKETS_OK, demo_save.2)) (Some "/tmp/c")
    = Val (Some (restored demo_saved)).
Proof.
  refine (proj1 (job_checkpoint_roundtrip write_env_ok 1 ∅ demo_saved "/tmp/c" 200 demo_save.2
                   (Some demo_old) (Some demo_moved) (Some ["/d"]) 300 demo_saved_exact _ eq_refl _
                   demo_save_ok)).
  - unfold is_exact. lia.
  - vm_compute. lia.
Defined.

Lemma job_resumed_never_finishes_witness :
  ∃ j1 j2, buckets_migration_job_resume_from_checkpoint true
      (fs_after ∅ (BUCKETS_OK, demo_save.2)) (Some "/tmp/c") (Some demo_old) (Some demo_moved)
      (Some ["/d"]) 300 = Val (Some j1) ∧
    buckets_migration_job_resume j1 = (BUCKETS_OK, j2) ∧
    (buckets_migration_job_wait demo_eta 5 write_env_ok 1 j2 ∅ (λ _ _, 400)).1.1 = false.
Proof.
  apply (job_resumed_never_finishes demo_eta write_env_ok 1 ∅ demo_saved "/tmp/c" 200 demo_save.2
           (Some demo_old) (Some demo_moved) (Some ["/d"]) 300 ∅ write_env_ok 1 (λ _ _, 400) 5).
  - exact demo_saved_exact.
  - unfold is_exact. lia.
  - vm_compute. lia.
  - reflexivity.
  - exact demo_save_ok.
  - by eexists.
  - by eexists.
  - by eexists _, _.
Defined.
